(* ===== verification/_CoqProject ===== *)
-Q . S2P
Prelude.v
Ordering.v
RepositoryPath.v
PathText.v
SourceManifest.v
Reconciliation.v
ArtifactReuse.v
WatchSchedule.v
Configuration.v
ConfigurationResolve.v
GraphIdentity.v
TraceSort.v
Trace.v
TraceReference.v
TraceLoops.v
TraceProperties.v
Impact.v
ResolutionSyntax.v
SymbolFacts.v
Correspondence.v
GraphSites.v
Resolver.v
ResolverReference.v
ResolverProperties.v
ResolverResult.v
ResolverTheorems.v
Utf8.v
WireFormat.v
SourceRange.v
ScipWire.v
FieldReaders.v
ScipMessages.v
ScipOccurrences.v
ScipSymbols.v
ScipDocuments.v
ScipOverlay.v
ScipScan.v
ScipRelations.v
ScipImport.v
ScipTheorems.v
EvidenceContext.v
EvidenceAllocation.v
EvidenceCompile.v
EvidenceGrouping.v
EvidenceTheorems.v
IdentityText.v
MemoryRecord.v
MemoryValidity.v
MemoryProjection.v
MemoryFormat.v
MemoryRoundTrip.v
MemoryCanonical.v
MemoryJournal.v
MemoryYaml.v
WatchHints.v
GitPaths.v
GitReconcile.v
SourceState.v
SourceStatus.v
SourceIndex.v
SourceCapture.v
WatchSupervisor.v
GitObject.v
ChangeManifest.v
Topology.v
GitMemory.v
ProjectionStore.v
MemoryReviews.v
Revalidation.v
RevalidationEvidence.v
RevalidationRecords.v
SourceDigests.v
IndexPreparation.v
MaterialResult.v
PackageScope.v
