(* ===== verification/Prelude.v ===== *)
(** * RepoWitness verification library

    RepoWitness indexes a repository into pinned source views and answers questions about
    them from evidence only.  This library models the part of it that decides: the pure
    engines of [crates/repowitness-domain], [crates/repowitness-analysis],
    [crates/repowitness-application] and the schedule of [crates/repowitness-local].  Paths
    below are under [src/crates/]; [analysis/], [application/], [domain/] and [local/] stand
    for [repowitness-analysis/src/] and so on.

    ** How the parts interact

    Git lists the paths of a worktree ([GitPaths]) and its state ([SourceState]); a source view
    is a manifest ([SourceManifest]) of validated paths ([RepositoryPath]).
    A watcher collects the paths it is told about ([WatchHints]) and its schedule
    ([WatchSchedule]) decides when a new view is due, both under one supervisor
    ([WatchSupervisor]); [ChangeManifest] compares a base commit ([GitObject]) with the
    worktree; two views are compared by [Reconciliation], and [ArtifactReuse] decides which artifacts of the old one
    still hold; [Topology] classifies and digests the paths of a generation.  The artifact of a file is a set of declaration facts ([SymbolFacts]) and raw
    sites ([GraphSites]), revalidated against the exact source when read back.  [Resolver]
    joins the facts and sites of one generation into relationships with honest cardinality;
    [Trace] walks them and [Impact] classifies what a walk met.  [Correspondence] finds a
    historical declaration in the current facts.  A SCIP index is an independent source of
    evidence: [WireFormat], [ScipWire] and [ScipOverlay] decode it against the same manifest.
    [EvidenceContext] gives what was found to a reader within a budget, tier by tier.
    An engineering memory is a validated record ([MemoryRecord]) kept in a file ([MemoryYaml])
    and in a journal of canonical bytes ([MemoryCanonical]); its validity is evaluated from
    the ancestry of commits ([MemoryValidity]), and the approved head of its versions is
    projected to an effective state ([MemoryProjection]).  [Revalidation] does so for every
    record of a journal: it asks Git about commits and moves ([GitMemory]), finds the cited
    declarations by [Correspondence] or as a person reviewed them ([MemoryReviews]), and
    prepares one projection ([ProjectionStore]) for a source that did not change meanwhile.
    [Configuration] and [ConfigurationResolve] settle the limits and authorizations all of
    them run under.

    ** Files

    - [Prelude]: Rust's results, checked integers and byte strings; the control monad [ctl];
      shared lemmas, tactics and the hint database [steady].
    - [Ordering]: orders, B-tree sets and maps, sorting and [partition_point].
    - [Utf8]: validation and characters of a [&str].
    - [RepositoryPath]: [domain/path.rs].  [PathText]: [application/repository_path_text.rs].
    - [SourceManifest]: [domain/snapshot.rs].
    - [GitPaths]: [local/git_paths.rs], [git_paths/process.rs], [git_paths/reconciliation.rs];
      [GitReconcile]: what a reconciliation keeps.
    - [SourceState]: [local/source_state.rs], [source_state/parsing.rs].  [SourceStatus],
      [SourceIndex], [SourceCapture]: what the parsers accept and the receipts identify.
    - [Reconciliation]: [analysis/reconciliation.rs].
    - [ArtifactReuse]: [analysis/artifact_reuse.rs], [domain/artifact.rs].
    - [WatchSchedule]: [local/watch_reconciliation/schedule.rs], [schedule/state.rs]; every
      [&mut self] method is a function from a state to a result and the state it leaves.
      [WatchHints]: [local/watch_reconciliation/hints.rs].  [WatchSupervisor]:
      [local/watch_reconciliation/supervisor.rs].
    - [GitObject]: [domain/git.rs].  [ChangeManifest]: [local/change_manifest.rs] and the
      receipts of [application/change_receipt.rs].
    - [Topology]: [local/repository_topology.rs], [application/repository_topology.rs].
    - [Configuration], [ConfigurationResolve]: [application/configuration/model.rs],
      [retention.rs], [resolve.rs], [resolved.rs], [digest.rs].
    - [GraphIdentity]: spans of [domain/evidence.rs], identities and relationships of
      [analysis/rust_graph/].
    - [TraceSort], [Trace]: [analysis/rust_graph/traversal/engine.rs], [request.rs],
      [result.rs].  [TraceReference]: breadth-first levels, the specification.  [TraceLoops],
      [TraceProperties]: the proofs.  [Impact]: [traversal/impact.rs].
    - [ResolutionSyntax], [Resolver]: [analysis/rust_graph/resolution/].  [ResolverReference]:
      the resolver without indexes and control.  [ResolverProperties], [ResolverResult],
      [ResolverTheorems]: its specification and proofs.
    - [SymbolFacts]: [analysis/rust_source.rs], [rust_source/analyzer.rs].  [Correspondence]:
      [analysis/rust_correspondence.rs].  [GraphSites]: [analysis/rust_graph.rs],
      [rust_graph/reconstruction.rs], [rust_graph/extraction.rs].
    - [WireFormat], [SourceRange], [ScipWire]: [analysis/scip_wire.rs].  [ScipOverlay]:
      [analysis/scip_overlay.rs], [domain/scip_overlay.rs].  [FieldReaders], [ScipMessages],
      [ScipOccurrences], [ScipSymbols], [ScipDocuments], [ScipScan], [ScipRelations],
      [ScipImport], [ScipTheorems]: what they accept and yield.
    - [EvidenceContext]: [analysis/evidence_context.rs], [domain/evidence_context.rs].
      [EvidenceAllocation], [EvidenceCompile], [EvidenceGrouping], [EvidenceTheorems]: the
      allocation, the compilation and the grouping of duplicates.
    - [IdentityText]: [application/memory_record_id_text.rs], [repository_identity_text.rs].
      [MemoryRecord]: [domain/memory.rs], [memory/].  [MemoryValidity]:
      [domain/memory_revalidation.rs], [memory_policy.rs].  [MemoryProjection]:
      [application/memory_projection.rs].  [MemoryFormat], [MemoryCanonical], [MemoryYaml]:
      [local/memory_format.rs], [memory_format/].  [MemoryRoundTrip], [MemoryJournal]: what
      they read back and identify.
    - [GitMemory]: [local/git_memory.rs].  [ProjectionStore]: [local/sqlite/memory_projection.rs]
      with [limits.rs], [encoding.rs] and [publication.rs] under it.  [MemoryReviews]:
      [local/sqlite/memory_review.rs].  [Revalidation]: [local/memory_revalidation/];
      [RevalidationEvidence], [RevalidationRecords]: its proofs, up to the rebuild.
    - [SourceDigests]: [application/canonical_digest.rs], [source_snapshot.rs].
      [IndexPreparation]: [application/rust_index.rs], [rust_index/preparation.rs].
      [MaterialResult]: [domain/result.rs] with the types it contains.  [PackageScope]:
      [application/package_scope.rs], [local/package_scope.rs].

    ** How the code is represented

    A fallible function returns [result], with the error enum of the source; an
    index or an [unreachable!] that can panic makes the result an option, whose [None] is the
    panic.  A loop that
    consults the injected control (a closure, or a cancellation flag with a deadline) is a
    [ctl] computation: the answers of the control are an oracle, [run o m] is the outcome
    under the oracle [o], and [never] is the control that never stops.  [steady m] says that
    the control can only stop [m]: under any oracle it ends as under [never], or fails with
    an answer of the oracle.  Theorems are proved under [never] and carried to every oracle
    by [steady_run].  An integer is a [Z] with the checks of its width written out; [usize]
    is 64 bits wide.  A [&str] is its bytes, or its characters where the code counts them.  A
    B-tree is the increasing list of its entries.  SHA-256 and the YAML and JSON libraries
    (third-party crates) are parameters, and so are callbacks, sinks, the lookup of pinned
    bytes, the outputs of Git, the answers of the store and the inspection of spellings on disk, which is taken not to
    change during a reconciliation.

    ** What the theorems show

    - Exactness: the parsers of Git's listings, staged index, status and raw diff accept just
      the renderings of valid entries, and a change manifest holds just those changes; a cached path gives way only to its one other spelling, and
      receipts are the same just for the same state, as digests of paths for the same paths.
    - Refinement and equivalence: the trace is the set of breadth-first levels when nothing
      was left out; the resolver computes the relation of support between sites and
      definitions; the reconciliation is a merge; the schedule is a single slot of work and
      the watch supervisor a run of it beside a run of the hints; the reuse plan gives what a clean analysis gives; the configuration is the pointwise bound
      of its layers; a SCIP import stages exactly the facts of the admitted documents; the validity
      of a memory is what every commit history that agrees with the checks says of it.
    - Safety: tool profiles need an authorization, candidates are of the right kind and
      slot, impact never overstates a class, evidence is resolved in bytes of the digest the
      manifest pins; a memory file that is parsed holds a well-formed record, and a memory is
      current only when it applies; a rebuild publishes current records only at their sole
      approved head, each citation resolved to a target of its own that no review rejects,
      for a source that was the same before and after.
    - Bounds and errors: every budget is exact, counters do not overflow, and each error is
      characterised by the condition of the source that raises it; what a revalidation
      prepares is refused only for its size or for an approved procedure that carries results
      ([RevalidationRecords.approved_procedure_refused]), and its preparation panics just on a
      record whose approved versions have no head ([MemoryProjection.memory_head_exact]); a
      context admits or counts every candidate and leaves out nothing that fits, or fails
      because the units of one are beyond 64 bits.
    - Liveness and termination: an observation is never lost by the schedule, nor a hint by
      the watcher short of a complete reconciliation; a trace within
      its budgets completes, and the fuelled loops always have enough.
    - Components whose theorems stand beside the claims: the bytes hashed for sources,
      artifacts, manifests and snapshots; the preparation of an index; the construction of a
      result; the package scopes and their filter.
    - Round trips: path text, reconciliation replay, varints, memory records through their
      transfer objects, journal entries and quoted texts.

    ** Bounds and fuel

    Where the recursion of a loop is not structural the definition takes fuel, computed from
    the input: the length of a message for a field loop, since every turn reads at least a
    byte; the length of a text for its parsers; the number of nodes or doublings for the
    trace and the sort.  The specification lemma of each loop proves the fuel enough, by
    giving the result for every input and not only for runs that end.

    ** What is not modelled

    The extraction of facts from source text walks the syntax trees of tree-sitter, a
    third-party parser ([analysis/raw_syntax.rs], [go_source.rs], [typescript_source.rs],
    [python_source.rs], the walkers of [rust_source.rs] and [rust_graph.rs]).  Storage
    ([local/sqlite/]), but for the parts listed above, is statements executed by SQLite.  The file-system adapters and the
    subprocesses of [local/], the MCP server and the command line move data between the engines and the
    outside, as do the application's read services and publications ([symbol_search.rs],
    [index_publication.rs] and their like) behind the traits of the store; the profiles of
    the analyzers are constants.  [Debug] and [Display] implementations, which redact, are left out, as are plain
    accessors, which are the projections of the records. *)

From Stdlib Require Import ZArith Lia ZifyBool.
From Stdlib Require Import Strings.Byte.
From Stdlib Require Strings.String.
From stdpp Require Import base option numbers sorting list.

(** ** Results

    Rust's [Result<A, E>]; [Err] carries the error value of the enum the source
    returns. *)

Inductive result (E A : Type) : Type :=
| Ok (a : A)
| Err (e : E).
Arguments Ok {E A} a.
Arguments Err {E A} e.

#[export] Instance result_eq_decision {E A} `{EqDecision E, EqDecision A} :
  EqDecision (result E A).
Proof. solve_decision. Defined.

#[export] Instance result_ret {E} : MRet (result E) := λ A a, Ok a.
#[export] Instance result_bind {E} : MBind (result E) := λ A B f r,
  match r with Ok a => f a | Err e => Err e end.

(** [Option::ok_or]. *)
Definition ok_or {E A} (o : option A) (e : E) : result E A :=
  match o with Some a => Ok a | None => Err e end.

(** [Result::map_err]. *)
Definition map_err {E F A} (f : E → F) (r : result E A) : result F A :=
  match r with Ok a => Ok a | Err e => Err (f e) end.

(** The early return [if condition { return Err(e) }]. *)
Definition reject_if {E} (condition : bool) (e : E) : result E () :=
  if condition then Err e else Ok ().

(** A loop body that may fail, run over a slice from left to right
    ([for x in xs { state = body(state, x)?; }]). *)
Fixpoint try_fold {E A S} (body : S → A → result E S) (s : S) (xs : list A) : result E S :=
  match xs with
  | [] => Ok s
  | x :: xs => s' ← body s x; try_fold body s' xs
  end.

Lemma try_fold_pure {E A S} (f : S → A → S) (s : S) (xs : list A) :
  try_fold (λ s x, Ok (E := E) (f s x)) s xs = Ok (foldl f s xs).
Proof. revert s. induction xs as [|x xs IH]; intros s; [done|]. apply IH. Qed.

Lemma try_fold_app {E A S} (body : S → A → result E S) s xs ys :
  try_fold body s (xs ++ ys) = try_fold body s xs ≫= λ s', try_fold body s' ys.
Proof.
  revert s. induction xs as [|x xs IH]; intros s; [done|]. simpl.
  destruct (body s x); [apply IH|done].
Qed.

Definition is_ok {E A} (r : result E A) : bool := match r with Ok _ => true | Err _ => false end.
Definition ok_value {E A} (r : result E A) : option A := match r with Ok a => Some a | Err _ => None end.

Lemma map_err_Ok {E F A} (f : E → F) (r : result E A) a : map_err f r = Ok a ↔ r = Ok a.
Proof. destruct r; simpl; split; congruence. Qed.

Lemma bind_Ok {E A B} (r : result E A) (f : A → result E B) b :
  r ≫= f = Ok b ↔ ∃ a, r = Ok a ∧ f a = Ok b.
Proof. destruct r as [a|e]; simpl; naive_solver. Qed.

Lemma foldl_pointwise {S A} (f g : S → A → S) (s : S) (xs : list A) :
  (∀ s x, f s x = g s x) → foldl f s xs = foldl g s xs.
Proof. intros H. revert s. induction xs as [|x xs IH]; intros s; [done|]. simpl. by rewrite H. Qed.

(** ** Fixed-width integers

    A Rust [u16], [u32] or [u64] is a [Z]; the arithmetic the source writes with
    [checked_*] and [saturating_*] is checked against the width here. *)

Definition u16_max : Z := 65535.
Definition u32_max : Z := 4294967295.
Definition u64_max : Z := 18446744073709551615.

Definition in_u16 (z : Z) : Prop := (0 ≤ z ≤ u16_max)%Z.
Definition in_u32 (z : Z) : Prop := (0 ≤ z ≤ u32_max)%Z.
Definition in_u64 (z : Z) : Prop := (0 ≤ z ≤ u64_max)%Z.

Definition checked (max z : Z) : option Z :=
  if ((0 <=? z) && (z <=? max))%Z then Some z else None.

(** [u64::checked_add] and [u64::checked_mul]; [u16::checked_add]. *)
Definition u64_checked_add (a b : Z) : option Z := checked u64_max (a + b).
Definition u64_checked_mul (a b : Z) : option Z := checked u64_max (a * b).
Definition u16_checked_add (a b : Z) : option Z := checked u16_max (a + b).

(** [u64::saturating_add]. *)
Definition u64_saturating_add (a b : Z) : Z := Z.min u64_max (a + b).

(** [u64::try_from(slice.len())] and [u32::try_from(slice.len())]. *)
Definition u64_of_len (n : nat) : option Z := checked u64_max (Z.of_nat n).
Definition u32_of_len (n : nat) : option Z := checked u32_max (Z.of_nat n).

Lemma checked_Some max z r : checked max z = Some r ↔ r = z ∧ (0 ≤ z ≤ max)%Z.
Proof.
  unfold checked. destruct ((0 <=? z) && (z <=? max))%Z eqn:H; split.
  - intros [= <-]. lia.
  - intros [-> _]. done.
  - done.
  - intros [-> ?]. lia.
Qed.

Lemma checked_None max z : checked max z = None ↔ ¬ (0 ≤ z ≤ max)%Z.
Proof.
  unfold checked. destruct ((0 <=? z) && (z <=? max))%Z eqn:H; split; try done; lia.
Qed.

Lemma checked_in max z : (0 ≤ z ≤ max)%Z → checked max z = Some z.
Proof. intros H. apply checked_Some. done. Qed.

(** ** Bytes *)

#[export] Instance byte_eq_decision : EqDecision byte := Byte.byte_eq_dec.

Notation bytes := (list byte).

Export Strings.String.StringSyntax.

(** The bytes of an ASCII literal ([b"..."]). *)
Definition b_of (s : String.string) : bytes := String.list_byte_of_string s.
Arguments b_of s%_string_scope.

(** [str::strip_prefix]. *)
Fixpoint strip_prefix (prefix text : bytes) : option bytes :=
  match prefix, text with
  | [], _ => Some text
  | p :: prefix, t :: text => if bool_decide (p = t) then strip_prefix prefix text else None
  | _ :: _, [] => None
  end.

Lemma strip_prefix_Some prefix text rest : strip_prefix prefix text = Some rest ↔ text = prefix ++ rest.
Proof.
  revert text. induction prefix as [|p prefix IH]; intros [|t text]; simpl; [naive_solver..|].
  case_bool_decide as H; [subst; rewrite IH; naive_solver|]. naive_solver.
Qed.

Definition starts_with (prefix text : bytes) : bool :=
  match strip_prefix prefix text with Some _ => true | None => false end.

Lemma starts_with_spec prefix text : starts_with prefix text = true ↔ ∃ rest, text = prefix ++ rest.
Proof.
  unfold starts_with. destruct (strip_prefix prefix text) as [rest|] eqn:E.
  - apply strip_prefix_Some in E. naive_solver.
  - split; [done|]. intros [rest Ht%strip_prefix_Some]. congruence.
Qed.

(** [slice.len()], and [slice.get(start..end)]. *)
Definition len (s : bytes) : Z := Z.of_nat (length s).

Lemma len_app s t : (len (s ++ t) = len s + len t)%Z.
Proof. unfold len. rewrite length_app. lia. Qed.

Lemma len_nonneg s : (0 ≤ len s)%Z.
Proof. unfold len. lia. Qed.

Definition slice_get (s : bytes) (first last : Z) : option bytes :=
  if ((first <=? last) && (last <=? len s))%Z
  then Some (take (Z.to_nat (last - first)) (drop (Z.to_nat first) s))
  else None.

(** [u16::to_be_bytes], [u64::to_be_bytes]: the [n] big-endian bytes of a number. *)
Definition byte_of (z : Z) : byte := default Byte.x00 (Byte.of_N (Z.to_N (z mod 256))).

Fixpoint be_bytes (n : nat) (z : Z) : bytes :=
  match n with
  | O => []
  | S n => be_bytes n (z / 256) ++ [byte_of z]
  end.

Definition u16_be_bytes (z : Z) : bytes := be_bytes 2 z.
Definition u32_be_bytes (z : Z) : bytes := be_bytes 4 z.
Definition u64_be_bytes (z : Z) : bytes := be_bytes 8 z.

Lemma byte_of_inj x y : byte_of x = byte_of y → (x mod 256 = y mod 256)%Z.
Proof.
  assert (∀ z, Byte.to_N (byte_of z) = Z.to_N (z mod 256)) as Hb.
  { intros z. unfold byte_of. pose proof (Z.mod_pos_bound z 256).
    destruct (Byte.of_N (Z.to_N (z mod 256))) as [b|] eqn:E; simpl.
    - by apply Byte.to_of_N in E.
    - exfalso. apply Byte.of_N_None_iff in E. lia. }
  intros H%(f_equal Byte.to_N). rewrite !Hb in H.
  pose proof (Z.mod_pos_bound x 256). pose proof (Z.mod_pos_bound y 256). lia.
Qed.

Lemma length_be_bytes n z : length (be_bytes n z) = n.
Proof. revert z. induction n as [|n IH]; intros z; [done|]. simpl. rewrite length_app, IH. simpl. lia. Qed.

Lemma be_bytes_inj n x y :
  (0 ≤ x < 256 ^ Z.of_nat n)%Z → (0 ≤ y < 256 ^ Z.of_nat n)%Z → be_bytes n x = be_bytes n y → x = y.
Proof.
  revert x y. induction n as [|n IH]; intros x y Hx Hy; [simpl in *; lia|].
  rewrite Nat2Z.inj_succ, Z.pow_succ_r in Hx, Hy by lia. simpl. intros H.
  apply app_inj_2 in H as [H1 H2]; [|done]. injection H2 as H2%byte_of_inj.
  pose proof (Z.div_mod x 256). pose proof (Z.div_mod y 256).
  assert (x / 256 = y / 256)%Z; [|lia].
  apply IH; [..|done]; (split; [apply Z.div_pos; lia|apply Z.div_lt_upper_bound; lia]).
Qed.

(** ** Cooperative control

    The source threads a [control] callback (or a cancellation flag with a
    deadline) through its loops and checks it at fixed points.  What a check
    answers is decided by the outside world, so a run is a function of an oracle:
    [o n] is the answer of the [n]-th check, [Some e] to stop with [e].  The
    monad counts the checks made so far. *)

Definition ctl (E A : Type) : Type := (nat → option E) → nat → result E (A * nat).

#[export] Instance ctl_ret {E} : MRet (ctl E) := λ A a _ n, Ok (a, n).
#[export] Instance ctl_bind {E} : MBind (ctl E) := λ A B f m o n,
  match m o n with
  | Ok (a, n') => f a o n'
  | Err e => Err e
  end.

(** One check of the control. *)
Definition check {E} : ctl E () := λ o n,
  match o n with
  | None => Ok ((), S n)
  | Some e => Err e
  end.

(** A fallible step that does not consult the control. *)
Definition lift {E A} (r : result E A) : ctl E A := λ _ n,
  match r with Ok a => Ok (a, n) | Err e => Err e end.

Definition throw {E A} (e : E) : ctl E A := λ _ _, Err e.

Fixpoint ctl_fold {E A S} (body : S → A → ctl E S) (s : S) (xs : list A) : ctl E S :=
  match xs with
  | [] => mret s
  | x :: xs => s' ← body s x; ctl_fold body s' xs
  end.

(** Running a computation to its result. *)
Definition run {E A} (o : nat → option E) (m : ctl E A) : result E A :=
  match m o 0 with Ok (a, _) => Ok a | Err e => Err e end.

(** The control that never stops the work. *)
Definition never {E} : nat → option E := λ _, None.

(** ** Transparency to the control

    A computation is transparent when the control can only stop it: under any
    oracle it either behaves as under [never], or fails with an answer the oracle
    gave. *)

Definition transparent {E A} (m : ctl E A) : Prop :=
  ∀ o n, m o n = m never n ∨ ∃ k e, n ≤ k ∧ o k = Some e ∧ m o n = Err e.

(** The number of checks never decreases; needed to compose transparency. *)
Definition ticks {E A} (m : ctl E A) : Prop :=
  ∀ o n a n', m o n = Ok (a, n') → n ≤ n'.

(** Under [never], the number of checks made before does not matter. *)
Definition oblivious {E A} (m : ctl E A) : Prop :=
  ∀ n n', match m never n with Ok (a, _) => Ok a | Err e => Err e end =
          match m never n' with Ok (a, _) => Ok a | Err e => Err e end.

Definition steady {E A} (m : ctl E A) : Prop := transparent m ∧ ticks m ∧ oblivious m.

Section control.
Context {E : Type}.

Lemma steady_ret {A} (a : A) : steady (E := E) (mret a).
Proof. split_and!; [by left| |done]. intros o n a' n' [= <- <-]. done. Qed.

Lemma steady_lift {A} (r : result E A) : steady (lift r).
Proof.
  split_and!; [by left| |intros n n'; unfold lift; by destruct r].
  intros o n a n'. unfold lift. destruct r; naive_solver.
Qed.

Lemma steady_throw {A} (e : E) : steady (A := A) (throw e).
Proof. split_and!; [by left|intros o n a n'; done|done]. Qed.

Lemma steady_check : steady (E := E) check.
Proof.
  split_and!.
  - intros o n. unfold check, never. destruct (o n) eqn:?; [right|by left]. eauto.
  - intros o n a n'. unfold check. destruct (o n); naive_solver lia.
  - done.
Qed.

Lemma steady_bind {A B} (m : ctl E A) (f : A → ctl E B) :
  steady m → (∀ a, steady (f a)) → steady (m ≫= f).
Proof.
  intros (Hm & Hmt & Hmo) Hf. split_and!.
  - intros o n. unfold mbind, ctl_bind.
    destruct (Hm o n) as [Heq | (k & e & ? & ? & ->)]; [|by right; eauto].
    rewrite Heq. destruct (m never n) as [[a n']|e] eqn:Hn; [|by left].
    destruct (proj1 (Hf a) o n') as [Heq'|(k & e & ? & ? & Heq')]; [by left|].
    right. exists k, e. split; [|done]. pose proof (Hmt _ _ _ _ Hn). lia.
  - intros o n b n'. unfold mbind, ctl_bind.
    destruct (m o n) as [[a n1]|] eqn:H1; [|done]. intros H2.
    pose proof (Hmt _ _ _ _ H1). pose proof (proj1 (proj2 (Hf a)) _ _ _ _ H2). lia.
  - intros n n'. unfold mbind, ctl_bind. specialize (Hmo n n').
    destruct (m never n) as [[a k]|e], (m never n') as [[a' k']|e']; try done; injection Hmo as ->; [|done].
    apply (Hf a').
Qed.

Lemma steady_fold {A S} (body : S → A → ctl E S) s xs :
  (∀ s x, steady (body s x)) → steady (ctl_fold body s xs).
Proof.
  intros Hb. revert s. induction xs as [|x xs IH]; intros s; simpl.
  - apply steady_ret.
  - apply steady_bind; [apply Hb|]. intros s'. apply IH.
Qed.

(** A steady computation, run: the oracle's only influence is to stop it. *)
Lemma steady_run {A} (m : ctl E A) o :
  steady m → run o m = run never m ∨ ∃ k e, o k = Some e ∧ run o m = Err e.
Proof.
  intros [Hm _]. unfold run. destruct (Hm o 0) as [->|(k & e & _ & ? & ->)]; eauto.
Qed.

Lemma run_bind_never {A B} (m : ctl E A) (f : A → ctl E B) n :
  (m ≫= f) never n =
  match m never n with Ok (a, n') => f a never n' | Err e => Err e end.
Proof. done. Qed.
End control.

(** ** Uncontrolled evaluation

    [evals m r]: when the control never fires, [m] comes out as [r], whatever number
    of checks has gone before.  With [steady] this determines every run. *)

Definition evals {E A} (m : ctl E A) (r : result E A) : Prop :=
  ∀ n, match m never n with Ok (a, _) => Ok a | Err e => Err e end = r.

Section evals.
Context {E : Type}.

Lemma evals_ret {A} (a : A) : evals (E := E) (mret a) (Ok a).
Proof. done. Qed.
Lemma evals_check : evals (E := E) check (Ok ()).
Proof. done. Qed.
Lemma evals_throw {A} (e : E) : evals (A := A) (throw e) (Err e).
Proof. done. Qed.
Lemma evals_lift {A} (r : result E A) : evals (lift r) r.
Proof. intros n. unfold lift. by destruct r. Qed.

Lemma evals_bind {A B} (m : ctl E A) (f : A → ctl E B) a r :
  evals m (Ok a) → evals (f a) r → evals (m ≫= f) r.
Proof.
  intros Hm Hf n. unfold mbind, ctl_bind. specialize (Hm n).
  destruct (m never n) as [[a' n']|]; [|done]. injection Hm as ->. apply Hf.
Qed.

Lemma evals_bind_Err {A B} (m : ctl E A) (f : A → ctl E B) e :
  evals m (Err e) → evals (m ≫= f) (Err e).
Proof.
  intros Hm n. unfold mbind, ctl_bind. specialize (Hm n).
  destruct (m never n) as [[a' n']|]; [done|]. by injection Hm as ->.
Qed.

(** A bind evaluates to the bind of the evaluations. *)
Lemma evals_mbind {A B} (m : ctl E A) (f : A → ctl E B) r (g : A → result E B) :
  evals m r → (∀ a, evals (f a) (g a)) → evals (m ≫= f) (r ≫= g).
Proof.
  intros Hm Hf. destruct r as [a|e]; [by eapply evals_bind|by apply evals_bind_Err].
Qed.

Lemma evals_assoc {A B C} (m : ctl E A) (f : A → ctl E B) (g : B → ctl E C) r :
  evals (m ≫= λ a, f a ≫= g) r → evals ((m ≫= f) ≫= g) r.
Proof.
  intros H n. specialize (H n). unfold mbind, ctl_bind in *.
  by destruct (m never n) as [[a n']|].
Qed.

Lemma evals_fold {A S} (body : S → A → ctl E S) (pure : S → A → result E S) s xs :
  (∀ s x, evals (body s x) (pure s x)) → evals (ctl_fold body s xs) (try_fold pure s xs).
Proof.
  intros Hb. revert s. induction xs as [|x xs IH]; intros s; [done|].
  by apply evals_mbind.
Qed.

Lemma evals_fold_pure {A S} (body : S → A → ctl E S) (f : S → A → S) s xs :
  (∀ s x, evals (body s x) (Ok (f s x))) → evals (ctl_fold body s xs) (Ok (foldl f s xs)).
Proof. intros Hb. rewrite <- (try_fold_pure (E := E) f). by apply evals_fold. Qed.

Lemma evals_check_bind {A} (f : () → ctl E A) r : evals (f ()) r → evals (check ≫= f) r.
Proof. apply evals_bind, evals_check. Qed.

Lemma evals_run {A} (m : ctl E A) r : evals m r → run never m = r.
Proof. intros H. apply (H 0%nat). Qed.

Lemma steady_evals_run {A} (m : ctl E A) : steady m → evals m (run never m).
Proof. intros (_ & _ & Ho) n. apply Ho. Qed.

(** Running without a control is a homomorphism into results. *)
Lemma run_never_ret {A} (a : A) : run (E := E) never (mret a) = Ok a.
Proof. done. Qed.
Lemma run_never_throw {A} (e : E) : run (A := A) never (throw e) = Err e.
Proof. done. Qed.
Lemma run_never_lift {A} (r : result E A) : run never (lift r) = r.
Proof. unfold run, lift. by destruct r. Qed.
Lemma run_never_bind {A B} (m : ctl E A) (f : A → ctl E B) :
  (∀ a, steady (f a)) → run never (m ≫= f) = run never m ≫= λ a, run never (f a).
Proof.
  intros Hf. unfold run at 1 2, mbind, ctl_bind, result_bind. unfold run at 1.
  destruct (m never 0%nat) as [[a n]|e]; [|done]. apply (proj2 (proj2 (Hf a)) n 0%nat).
Qed.
Lemma run_never_check {A} (f : () → ctl E A) : steady (f ()) → run never (check ≫= f) = run never (f ()).
Proof. intros Hf. rewrite run_never_bind; [done|]. by intros []. Qed.
Lemma run_never_lift_bind {A B} (r : result E A) (f : A → ctl E B) :
  (∀ a, steady (f a)) → run never (lift r ≫= f) = r ≫= λ a, run never (f a).
Proof. intros Hf. by rewrite run_never_bind, run_never_lift. Qed.

(** [.map_err(f)] on a controlled computation: the control answers in the errors of the
    caller, [g] finding the callee's error for an answer. *)
Definition ctl_map_err {F A} (f : E → F) (g : F → option E) (m : ctl E A) : ctl F A :=
  λ o n, map_err f (m (λ k, o k ≫= g) n).

Lemma run_never_map_err {F A} (f : E → F) g (m : ctl E A) :
  run never (ctl_map_err f g m) = map_err f (run never m).
Proof.
  unfold run, ctl_map_err. change (λ k, never k ≫= g) with (never (E := E)).
  by destruct (m never 0%nat) as [[a n]|e].
Qed.

Lemma steady_map_err {F A} (f : E → F) g (m : ctl E A) :
  (∀ x e, g x = Some e → f e = x) → steady m → steady (ctl_map_err f g m).
Proof.
  intros Hg (Ht & Hk & Ho). unfold ctl_map_err. split_and!.
  - intros o n. destruct (Ht (λ k, o k ≫= g) n) as [Heq|(k & e & Hle & He & Heq)]; rewrite Heq; [by left|].
    right. apply bind_Some in He as (x & Ex & Hx). exists k, x. split_and!; [done..|]. simpl. by rewrite (Hg x e Hx).
  - intros o n a n'. destruct (m _ n) as [[a' k]|e] eqn:Hm; simpl; [|done]. intros [= -> ->]. by eapply Hk.
  - intros n n'. change (λ k, never k ≫= g) with (never (E := E)). specialize (Ho n n').
    destruct (m never n) as [[a k]|e], (m never n') as [[a' k']|e']; simpl; congruence.
Qed.

(** Under any control a steady computation succeeds as under none, or is stopped. *)
Lemma steady_run_Ok {A} (m : ctl E A) o a : steady m → run o m = Ok a → run never m = Ok a.
Proof. intros Hs Ho. destruct (steady_run m o Hs) as [H|(k & e & _ & H)]; congruence. Qed.

(** The outcome of a steady computation under any control. *)
Lemma steady_evals {A} (m : ctl E A) r o :
  steady m → evals m r → run o m = r ∨ ∃ k e, o k = Some e ∧ run o m = Err e.
Proof. intros Hs He%evals_run. rewrite <- He. by apply steady_run. Qed.

Lemma steady_evals_Ok {A} (m : ctl E A) r o a :
  steady m → evals m r → run o m = Ok a → r = Ok a.
Proof.
  intros Hs He Ho. destruct (steady_evals m r o Hs He) as [H|(k & e & _ & H)]; congruence.
Qed.
End evals.

(** ** Outcomes

    [wp m Q R]: when the control never fires, [m] either returns a value of [Q] or fails
    with an error of [R].  The rules follow the computation; a loop takes an invariant. *)

Definition wp {E A} (m : ctl E A) (Q : A → Prop) (R : E → Prop) : Prop :=
  ∀ n, match m never n with Ok (a, _) => Q a | Err e => R e end.

Section wp.
Context {E : Type} {R : E → Prop}.

Lemma wp_ret {A} (a : A) (Q : A → Prop) : Q a → wp (mret a) Q R.
Proof. intros H n. exact H. Qed.
Lemma wp_check (Q : () → Prop) : Q () → wp check Q R.
Proof. intros H n. exact H. Qed.
Lemma wp_throw {A} (e : E) (Q : A → Prop) : R e → wp (throw e) Q R.
Proof. intros H n. exact H. Qed.
Lemma wp_lift {A} (r : result E A) (Q : A → Prop) :
  match r with Ok a => Q a | Err e => R e end → wp (lift r) Q R.
Proof. intros H n. unfold lift. by destruct r. Qed.

Lemma wp_bind {A B} (m : ctl E A) (f : A → ctl E B) (P : A → Prop) (Q : B → Prop) :
  wp m P R → (∀ a, P a → wp (f a) Q R) → wp (m ≫= f) Q R.
Proof.
  intros Hm Hf n. unfold mbind, ctl_bind. specialize (Hm n).
  destruct (m never n) as [[a n']|e]; [by apply Hf|done].
Qed.

Lemma wp_check_bind {B} (f : () → ctl E B) (Q : B → Prop) : wp (f ()) Q R → wp (check ≫= f) Q R.
Proof. intros H. eapply (wp_bind _ _ (λ u, u = ())); [by apply wp_check|]. by intros ? ->. Qed.
Lemma wp_lift_bind {A B} (r : result E A) (f : A → ctl E B) (a : A) (Q : B → Prop) :
  r = Ok a → wp (f a) Q R → wp (lift r ≫= f) Q R.
Proof. intros -> H. eapply (wp_bind _ _ (λ x, x = a)); [by apply wp_lift|]. by intros ? ->. Qed.
Lemma wp_mono {A} (m : ctl E A) (P Q : A → Prop) : wp m P R → (∀ a, P a → Q a) → wp m Q R.
Proof. intros Hm HPQ n. specialize (Hm n). destruct (m never n) as [[]|]; auto. Qed.

(** A loop keeps an invariant over the elements still to come. *)
Lemma wp_fold {A S} (body : S → A → ctl E S) (I : S → list A → Prop) s xs :
  I s xs → (∀ s x rest, I s (x :: rest) → wp (body s x) (λ s', I s' rest) R) →
  wp (ctl_fold body s xs) (λ s', I s' []) R.
Proof.
  intros Hi Hb. revert s Hi. induction xs as [|x xs IH]; intros s Hi; [by apply wp_ret|].
  simpl. eapply wp_bind; [by apply Hb|]. intros s' Hs'. by apply IH.
Qed.

Lemma wp_evals {A} (m : ctl E A) (a : A) (Q : A → Prop) : evals m (Ok a) → Q a → wp m Q R.
Proof.
  intros He HQ n. specialize (He n). destruct (m never n) as [[a' n']|]; [|done].
  by injection He as ->.
Qed.

Lemma wp_evals_bind {A B} (m : ctl E A) (f : A → ctl E B) (a : A) (Q : B → Prop) :
  evals m (Ok a) → wp (f a) Q R → wp (m ≫= f) Q R.
Proof. intros He H. eapply (wp_bind _ _ (λ x, x = a)); [by eapply wp_evals|]. by intros ? ->. Qed.

(** What a steady computation returns under any control, it returns under none. *)
Lemma wp_run {A} (m : ctl E A) (Q : A → Prop) o a :
  steady m → wp m Q R → run o m = Ok a → Q a.
Proof.
  intros Hs Hw Ho. specialize (Hw 0%nat). destruct (steady_run m o Hs) as [Hr|(k & e & _ & Hr)];
    [|congruence]. rewrite Ho in Hr. unfold run in Hr.
  destruct (m never 0%nat) as [[a' n']|]; [|done]. by injection Hr as ->.
Qed.

Lemma wp_run_Err {A} (m : ctl E A) (Q : A → Prop) e : wp m Q R → run never m = Err e → R e.
Proof.
  intros Hw. specialize (Hw 0%nat). unfold run. destruct (m never 0%nat) as [[]|]; [done|].
  by intros [= ->].
Qed.
End wp.

Lemma wp_conseq {E A} (m : ctl E A) (P Q : A → Prop) (R R' : E → Prop) :
  wp m P R → (∀ a, P a → Q a) → (∀ e, R e → R' e) → wp m Q R'.
Proof. intros Hm HPQ HR n. specialize (Hm n). destruct (m never n) as [[]|]; auto. Qed.


Create HintDb steady.
#[export] Hint Resolve steady_ret steady_lift steady_throw steady_check : steady.

(** Splits a steadiness goal along binds, folds and case analyses. *)
Ltac solve_steady :=
  repeat first
    [ solve [auto with steady]
    | apply steady_bind; [|intros ?]
    | apply steady_fold; intros ? ?
    | match goal with
      | |- steady (match ?x with _ => _ end) => destruct x
      | |- steady (let _ := _ in _) => cbv zeta
      | |- ∀ _, _ => intros ?
      | |- steady _ => progress cbv beta
      end ].

(** Takes apart a successful [result] or [ctl] computation in a hypothesis. *)
Ltac inv_ok :=
  repeat match goal with
  | H : Ok _ = Ok _ |- _ => injection H as H; subst
  | H : Err _ = Ok _ |- _ => discriminate H
  | H : Ok _ = Err _ |- _ => discriminate H
  | H : Some _ = Some _ |- _ => injection H as H; subst
  | H : None = Some _ |- _ => discriminate H
  | H : mret _ = Ok _ |- _ => injection H as H; subst
  | H : reject_if ?c _ = Ok _ |- _ =>
      unfold reject_if in H; destruct c eqn:?; [discriminate H|]
  | H : ok_or ?o _ = Ok _ |- _ =>
      unfold ok_or in H; destruct o eqn:?; [|discriminate H]
  | u : () |- _ => destruct u
  | H : mbind _ _ = Ok _ |- _ => progress unfold mbind, result_bind in H
  | H : match ?m with Ok _ => _ | Err _ => _ end = Ok _ |- _ =>
      destruct m eqn:?; [|discriminate H]
  | H : (let '(_, _) := ?p in _) = Ok _ |- _ => destruct p eqn:?
  | H : checked _ _ = Some _ |- _ => apply checked_Some in H as [-> H]
  end.

(** Applies a lemma in the first hypothesis it fits. *)
Tactic Notation "fwd" uconstr(lem) "as" simple_intropattern(pat) :=
  match goal with H : _ |- _ => apply lem in H as pat end.

(** Steps over the binds of a computation without unfolding anything else. *)
Ltac rstep := cbn [mbind result_bind ctl_bind ok_or reject_if mret result_ret map_err negb].
