(* ===== verification/Ordering.v ===== *)
(** * Total orders, ordered sets and maps, and sorting

    Rust's [Ord], [then_with], [BTreeSet], [BTreeMap], [sort_by] and
    [partition_point], as the components use them.  A B-tree is the strictly
    increasing list of its entries, which is also its iteration order. *)

From Stdlib Require Import ZArith Lia ZifyBool.
From Stdlib Require Import Strings.Byte.
From stdpp Require Import base numbers sorting list.
From S2P Require Import Prelude.

(** ** [Ord] *)

Class RustOrd (A : Type) := cmp : A → A → comparison.

Class RustOrdLaws (A : Type) `{RustOrd A} := {
  cmp_eq (x y : A) : cmp x y = Eq ↔ x = y;
  cmp_antisym (x y : A) : cmp y x = CompOpp (cmp x y);
  cmp_trans (x y z : A) : cmp x y = Lt → cmp y z = Lt → cmp x z = Lt;
}.

(** A comparator handed to a sort: a total preorder, [Eq] need not be equality. *)
Class Comparator {A} (c : A → A → comparison) := {
  cmpr_antisym x y : c y x = CompOpp (c x y);
  cmpr_trans x y z : c x y ≠ Gt → c y z ≠ Gt → c x z ≠ Gt;
}.

Definition cle {A} (c : A → A → comparison) (x y : A) : Prop := c x y ≠ Gt.
Definition clt {A} (c : A → A → comparison) (x y : A) : Prop := c x y = Lt.

#[export] Instance cle_dec {A} (c : A → A → comparison) x y : Decision (cle c x y).
Proof. unfold cle. destruct (c x y); [left|left|right]; naive_solver. Defined.

(** [Ordering::then_with]. *)
Definition then_with (a b : comparison) : comparison :=
  match a with Eq => b | _ => a end.

Section ord_laws.
Context {A} `{RustOrdLaws A}.

Lemma cmp_refl (x : A) : cmp x x = Eq.
Proof. by apply cmp_eq. Qed.

Lemma cmp_Gt_Lt (x y : A) : cmp x y = Gt ↔ cmp y x = Lt.
Proof. rewrite (cmp_antisym x y). by destruct (cmp x y). Qed.

Lemma cmp_ne (x y : A) : cmp x y = Lt → x ≠ y.
Proof. intros Hlt ->. by rewrite cmp_refl in Hlt. Qed.

#[export] Instance ord_comparator : Comparator (A := A) cmp.
Proof.
  split; [apply cmp_antisym|]. intros x y z Hxy Hyz.
  destruct (cmp x y) eqn:E1; [apply cmp_eq in E1 as ->; done| |done].
  destruct (cmp y z) eqn:E2; [apply cmp_eq in E2 as ->; congruence| |done].
  by rewrite (cmp_trans x y z).
Qed.

#[export] Instance ord_eq_dec : EqDecision A.
Proof.
  intros x y. destruct (cmp x y) eqn:E;
    [left; by apply cmp_eq|right|right]; intros ->; by rewrite cmp_refl in E.
Defined.

Lemma cmp_cases (x y : A) :
  (cmp x y = Lt ∧ cmp y x = Gt) ∨ (x = y) ∨ (cmp x y = Gt ∧ cmp y x = Lt).
Proof.
  rewrite (cmp_antisym x y). destruct (cmp x y) eqn:E; simpl; auto.
  right; left. by apply cmp_eq.
Qed.
End ord_laws.

(** *** Instances *)

#[export] Instance Z_ord : RustOrd Z := Z.compare.
#[export] Instance Z_ord_laws : RustOrdLaws Z.
Proof.
  split; unfold cmp, Z_ord; intros.
  - apply Z.compare_eq_iff.
  - apply Z.compare_antisym.
  - rewrite Z.compare_lt_iff in *. lia.
Qed.

(** An order read off an injective key, as [derive(Ord)] does for tags and fields. *)
Definition ord_by {A B} `{RustOrd B} (f : A → B) : RustOrd A := λ x y, cmp (f x) (f y).

Lemma ord_by_laws {A B} `{RustOrdLaws B} (f : A → B) :
  (∀ x y, f x = f y → x = y) → @RustOrdLaws A (ord_by f).
Proof.
  intros Hinj. split; unfold cmp, ord_by; intros.
  - rewrite cmp_eq. naive_solver.
  - apply cmp_antisym.
  - by eapply cmp_trans.
Qed.

Definition byte_rank (b : byte) : Z := Z.of_N (Byte.to_N b).

Lemma byte_rank_inj b1 b2 : byte_rank b1 = byte_rank b2 → b1 = b2.
Proof.
  unfold byte_rank. intros H%N2Z.inj.
  apply (f_equal Byte.of_N) in H. rewrite !Byte.of_to_N in H. by injection H.
Qed.

Lemma byte_rank_range b : (0 ≤ byte_rank b < 256)%Z.
Proof. unfold byte_rank. pose proof (Byte.to_N_bounded b). lia. Qed.

Lemma byte_of_rank b : byte_of (byte_rank b) = b.
Proof. by destruct b. Qed.

Lemma byte_rank_of z : (0 ≤ z < 256)%Z → byte_rank (byte_of z) = z.
Proof.
  intros Hz. unfold byte_rank, byte_of. rewrite Z.mod_small by done.
  destruct (Byte.of_N (Z.to_N z)) as [b|] eqn:E; simpl.
  - apply Byte.to_of_N in E. lia.
  - apply Byte.of_N_None_iff in E. lia.
Qed.

#[export] Instance byte_ord : RustOrd byte := ord_by byte_rank.
#[export] Instance byte_ord_laws : RustOrdLaws byte := ord_by_laws byte_rank byte_rank_inj.

#[export] Instance pair_ord {A B} `{RustOrd A, RustOrd B} : RustOrd (A * B) :=
  λ x y, then_with (cmp x.1 y.1) (cmp x.2 y.2).
#[export] Instance pair_ord_laws {A B} `{RustOrdLaws A, RustOrdLaws B} : RustOrdLaws (A * B).
Proof.
  split; unfold cmp, pair_ord, then_with.
  - intros [a b] [a' b']; simpl. destruct (cmp a a') eqn:E.
    + apply cmp_eq in E as ->. rewrite cmp_eq. naive_solver.
    + split; [done|]. intros [= -> ->]. by rewrite cmp_refl in E.
    + split; [done|]. intros [= -> ->]. by rewrite cmp_refl in E.
  - intros x y. rewrite (cmp_antisym x.1 y.1), (cmp_antisym x.2 y.2).
    by destruct (cmp x.1 y.1).
  - intros [a1 b1] [a2 b2] [a3 b3]; simpl.
    destruct (cmp a1 a2) eqn:E1; [apply cmp_eq in E1 as ->| |done].
    + destruct (cmp a2 a3); try done. apply cmp_trans.
    + destruct (cmp a2 a3) eqn:E2; [apply cmp_eq in E2 as ->; by rewrite E1| |done].
      by rewrite (cmp_trans _ _ _ E1 E2).
Qed.

#[export] Instance option_ord {A} `{RustOrd A} : RustOrd (option A) := λ x y,
  match x, y with
  | None, None => Eq
  | None, Some _ => Lt
  | Some _, None => Gt
  | Some a, Some b => cmp a b
  end.
#[export] Instance option_ord_laws {A} `{RustOrdLaws A} : RustOrdLaws (option A).
Proof.
  split; unfold cmp, option_ord.
  - intros [a|] [b|]; rewrite ?cmp_eq; naive_solver.
  - intros [a|] [b|]; simpl; auto using cmp_antisym.
  - intros [a|] [b|] [c|]; try done. apply cmp_trans.
Qed.

(** Slices compare lexicographically. *)
Fixpoint list_cmp {A} `{RustOrd A} (xs ys : list A) : comparison :=
  match xs, ys with
  | [], [] => Eq
  | [], _ :: _ => Lt
  | _ :: _, [] => Gt
  | x :: xs, y :: ys => then_with (cmp x y) (list_cmp xs ys)
  end.
#[export] Instance list_ord {A} `{RustOrd A} : RustOrd (list A) := list_cmp.
#[export] Instance list_ord_laws {A} `{RustOrdLaws A} : RustOrdLaws (list A).
Proof.
  split; unfold cmp, list_ord.
  - induction x as [|a x IH]; intros [|b y]; simpl; try done.
    unfold then_with. destruct (cmp a b) eqn:E.
    + apply cmp_eq in E as ->. rewrite IH. naive_solver.
    + split; [done|]. intros [= -> ->]. by rewrite cmp_refl in E.
    + split; [done|]. intros [= -> ->]. by rewrite cmp_refl in E.
  - induction x as [|a x IH]; intros [|b y]; simpl; try done.
    rewrite (cmp_antisym a b), IH. by destruct (cmp a b).
  - induction x as [|a x IH]; intros [|b y] [|c z]; simpl; try done.
    unfold then_with. destruct (cmp a b) eqn:E1; [apply cmp_eq in E1 as ->| |done].
    + destruct (cmp b c); try done. apply IH.
    + destruct (cmp b c) eqn:E2; [apply cmp_eq in E2 as ->; by rewrite E1| |done].
      by rewrite (cmp_trans _ _ _ E1 E2).
Qed.

(** A comparator that compares keys. *)
Lemma comparator_by {A B} `{RustOrdLaws B} (f : A → B) :
  Comparator (λ x y, cmp (f x) (f y)).
Proof. split; [intros; apply cmp_antisym|intros; by eapply (cmpr_trans (c := cmp))]. Qed.

(** ** Sorting

    [sort_by] is Rust's stable sort.  [sort_unstable_by] promises the same up to
    the order of entries the comparator calls equal; the components compare keys
    that are unique whenever the sorted result is used. *)

Fixpoint insert_by {A} (c : A → A → comparison) (x : A) (ys : list A) : list A :=
  match ys with
  | [] => [x]
  | y :: ys' => match c x y with Gt => y :: insert_by c x ys' | _ => x :: ys end
  end.

Definition sort_by {A} (c : A → A → comparison) (xs : list A) : list A :=
  foldr (insert_by c) [] xs.

Section sort.
Context {A} (c : A → A → comparison).

Lemma insert_by_perm x ys : insert_by c x ys ≡ₚ x :: ys.
Proof.
  induction ys as [|y ys IH]; simpl; [done|].
  destruct (c x y); [done|done|]. rewrite IH. apply Permutation_swap.
Qed.

Lemma sort_by_perm xs : sort_by c xs ≡ₚ xs.
Proof. induction xs as [|x xs IH]; simpl; [done|]. by rewrite insert_by_perm, IH. Qed.

Lemma elem_of_sort_by x xs : x ∈ sort_by c xs ↔ x ∈ xs.
Proof. by rewrite sort_by_perm. Qed.

Lemma length_sort_by xs : length (sort_by c xs) = length xs.
Proof. by rewrite sort_by_perm. Qed.

Context `{!Comparator c}.

Lemma insert_by_sorted x ys :
  StronglySorted (cle c) ys → StronglySorted (cle c) (insert_by c x ys).
Proof.
  induction 1 as [|y ys Hs IH Hall]; simpl; [repeat constructor|].
  destruct (c x y) eqn:E.
  1-2: constructor; [by constructor|]; constructor; [unfold cle; congruence|];
    eapply Forall_impl; [exact Hall|]; intros z; apply cmpr_trans; congruence.
  constructor; [done|]. rewrite insert_by_perm. constructor; [|done].
  unfold cle. rewrite (cmpr_antisym x y), E. done.
Qed.

Lemma sort_by_sorted xs : StronglySorted (cle c) (sort_by c xs).
Proof. induction xs; simpl; [constructor|]. by apply insert_by_sorted. Qed.
End sort.

Lemma sorted_weaken {A} (P Q : A → A → Prop) xs :
  (∀ x y, P x y → Q x y) → StronglySorted P xs → StronglySorted Q xs.
Proof.
  intros H. induction 1 as [|x xs _ IH Hall]; constructor; [done|].
  eapply Forall_impl; [exact Hall|]. apply H.
Qed.

(** A permutation sorted by a comparator under which distinct members never tie is
    unique: this is why stability is irrelevant where the source sorts unstably. *)
Lemma sorted_perm_unique {A} (c : A → A → comparison) `{!Comparator c} xs ys :
  xs ≡ₚ ys →
  (∀ x y, x ∈ xs → y ∈ xs → c x y = Eq → x = y) →
  StronglySorted (cle c) xs → StronglySorted (cle c) ys → xs = ys.
Proof.
  intros Hp Huniq Hx Hy. revert ys Hp Huniq Hy.
  induction Hx as [|x xs Hs IH Hall]; intros ys Hp Huniq Hy.
  { by apply Permutation_nil_l in Hp as ->. }
  destruct Hy as [|y ys Hys Hyall]; [by apply Permutation_nil_r in Hp|].
  assert (x = y) as <-.
  { assert (x ∈ y :: ys) as Hxin by (rewrite <- Hp; left).
    assert (y ∈ x :: xs) as Hyin by (rewrite Hp; left).
    apply elem_of_cons in Hxin as [->|Hxin]; [done|].
    apply elem_of_cons in Hyin as [->|Hyin]; [done|].
    rewrite Forall_forall in Hall, Hyall.
    pose proof (Hall _ Hyin) as H1. pose proof (Hyall _ Hxin) as H2.
    unfold cle in *. rewrite (cmpr_antisym x y) in H2.
    apply Huniq; [by left|by right|]. by destruct (c x y). }
  f_equal. apply IH; [|intros; apply Huniq; [by right|by right|done]|done].
  by apply Permutation_cons_inv in Hp.
Qed.

(** ** [BTreeSet] *)

Section bset.
Context {A} `{RustOrdLaws A}.

Implicit Types s : list A.

Definition bset_wf s : Prop := StronglySorted (clt cmp) s.

(** [BTreeSet::insert]. *)
Fixpoint bset_insert (x : A) s : list A :=
  match s with
  | [] => [x]
  | y :: s' => match cmp x y with
               | Lt => x :: s
               | Eq => s
               | Gt => y :: bset_insert x s'
               end
  end.

(** [BTreeSet::contains]. *)
Fixpoint bset_mem (x : A) s : bool :=
  match s with
  | [] => false
  | y :: s' => match cmp x y with Lt => false | Eq => true | Gt => bset_mem x s' end
  end.

(** Collecting an iterator into a set. *)
Definition bset_of_list (xs : list A) : list A := foldl (λ s x, bset_insert x s) [] xs.

(** [BTreeSet::intersection]. *)
Definition bset_inter s1 s2 : list A := filter (λ x, bset_mem x s2 = true) s1.

Lemma elem_of_bset_insert x y s : y ∈ bset_insert x s ↔ y = x ∨ y ∈ s.
Proof.
  induction s as [|z s IH]; simpl; [by rewrite list_elem_of_singleton, elem_of_nil; naive_solver|].
  destruct (cmp x z) eqn:E; rewrite ?elem_of_cons; [|done|].
  - apply cmp_eq in E as ->. naive_solver.
  - rewrite IH. naive_solver.
Qed.

Lemma bset_insert_wf x s : bset_wf s → bset_wf (bset_insert x s).
Proof.
  induction 1 as [|y s Hs IH Hall]; simpl; [repeat constructor|].
  destruct (cmp x y) eqn:E; [by constructor| |].
  - constructor; [by constructor|]. constructor; [done|].
    eapply Forall_impl; [exact Hall|]. intros z. by apply cmp_trans.
  - constructor; [done|]. rewrite Forall_forall in *. intros z.
    rewrite elem_of_bset_insert. intros [->|?]; [by apply cmp_Gt_Lt|auto].
Qed.

Lemma bset_mem_spec x s : bset_wf s → bset_mem x s = true ↔ x ∈ s.
Proof.
  induction 1 as [|y s Hs IH Hall]; simpl; [by rewrite elem_of_nil|].
  rewrite elem_of_cons. destruct (cmp x y) eqn:E.
  - apply cmp_eq in E. naive_solver.
  - split; [done|]. intros [->|Hin]; [by rewrite cmp_refl in E|].
    rewrite Forall_forall in Hall. specialize (Hall _ Hin).
    rewrite cmp_antisym in E. unfold clt in Hall. by rewrite Hall in E.
  - rewrite IH. split; [auto|]. intros [->|]; [by rewrite cmp_refl in E|done].
Qed.

Lemma bset_mem_false x s : bset_wf s → bset_mem x s = false ↔ x ∉ s.
Proof. intros Hwf. rewrite <- bset_mem_spec by done. by destruct (bset_mem x s). Qed.

Lemma bset_wf_NoDup s : bset_wf s → NoDup s.
Proof.
  induction 1 as [|y s Hs IH Hall]; constructor; [|done].
  rewrite Forall_forall in Hall. intros Hin%Hall. unfold clt in Hin. by rewrite cmp_refl in Hin.
Qed.

Lemma bset_nil_wf : bset_wf [].
Proof. constructor. Qed.

Lemma bset_of_list_acc xs s :
  bset_wf s →
  bset_wf (foldl (λ s x, bset_insert x s) s xs) ∧
  ∀ x, x ∈ foldl (λ s x, bset_insert x s) s xs ↔ x ∈ s ∨ x ∈ xs.
Proof.
  revert s. induction xs as [|y xs IH]; intros s Hs; simpl.
  { split; [done|]. intros x. rewrite elem_of_nil. naive_solver. }
  destruct (IH (bset_insert y s)) as [Hwf Hin]; [by apply bset_insert_wf|].
  split; [done|]. intros x. rewrite Hin, elem_of_bset_insert, elem_of_cons. naive_solver.
Qed.

Lemma bset_of_list_wf xs : bset_wf (bset_of_list xs).
Proof. apply bset_of_list_acc, bset_nil_wf. Qed.

Lemma elem_of_bset_of_list x xs : x ∈ bset_of_list xs ↔ x ∈ xs.
Proof.
  unfold bset_of_list. rewrite (proj2 (bset_of_list_acc xs [] bset_nil_wf)), elem_of_nil.
  naive_solver.
Qed.

Lemma elem_of_bset_inter x s1 s2 :
  bset_wf s2 → x ∈ bset_inter s1 s2 ↔ x ∈ s1 ∧ x ∈ s2.
Proof.
  intros. unfold bset_inter. rewrite list_elem_of_filter, bset_mem_spec by done. naive_solver.
Qed.

Lemma filter_wf (P : A → Prop) `{∀ x, Decision (P x)} s : bset_wf s → bset_wf (filter P s).
Proof.
  induction 1 as [|y s Hs IH Hall]; [constructor|].
  rewrite filter_cons. case_decide; [|done]. constructor; [done|].
  rewrite Forall_forall in *. intros z [_ Hz]%list_elem_of_filter. auto.
Qed.

Lemma bset_inter_wf s1 s2 : bset_wf s1 → bset_wf (bset_inter s1 s2).
Proof. apply filter_wf. Qed.

(** Ordered sets with the same members are equal. *)
Lemma bset_ext s1 s2 : bset_wf s1 → bset_wf s2 → (∀ x, x ∈ s1 ↔ x ∈ s2) → s1 = s2.
Proof.
  intros H1 H2 Heq. apply (sorted_perm_unique cmp).
  - apply NoDup_Permutation; auto using bset_wf_NoDup.
  - intros x y _ _ E. by apply cmp_eq.
  - clear -H1. induction H1; constructor; [done|].
    eapply Forall_impl; [done|]. intros z Hz. unfold clt, cle in *. congruence.
  - clear -H2. induction H2; constructor; [done|].
    eapply Forall_impl; [done|]. intros z Hz. unfold clt, cle in *. congruence.
Qed.

Lemma length_bset_insert x s :
  bset_wf s → x ∉ s → length (bset_insert x s) = S (length s).
Proof.
  induction 1 as [|y s Hs IH Hall]; simpl; intros Hx; [done|].
  rewrite not_elem_of_cons in Hx. destruct Hx as [Hne Hx].
  destruct (cmp x y) eqn:E; simpl; [|done|by rewrite IH].
  by apply cmp_eq in E.
Qed.
End bset.

(** ** [BTreeMap] *)

Section bmap.
Context {K V : Type} `{RustOrdLaws K}.

Implicit Types m : list (K * V).

Definition bmap_wf m : Prop := bset_wf m.*1.

(** [BTreeMap::get]. *)
Fixpoint bmap_get (k : K) m : option V :=
  match m with
  | [] => None
  | (k', v) :: m' => match cmp k k' with Lt => None | Eq => Some v | Gt => bmap_get k m' end
  end.

(** [BTreeMap::insert], which overwrites. *)
Fixpoint bmap_insert (k : K) (v : V) m : list (K * V) :=
  match m with
  | [] => [(k, v)]
  | (k', v') :: m' => match cmp k k' with
                      | Lt => (k, v) :: m
                      | Eq => (k', v) :: m'
                      | Gt => (k', v') :: bmap_insert k v m'
                      end
  end.

Lemma elem_of_bmap_insert_keys k v k' m : k' ∈ (bmap_insert k v m).*1 ↔ k' = k ∨ k' ∈ m.*1.
Proof.
  induction m as [|[k0 v0] m IH]; csimpl; [by rewrite list_elem_of_singleton, elem_of_nil; naive_solver|].
  destruct (cmp k k0) eqn:E; csimpl; rewrite ?elem_of_cons; [|naive_solver|].
  - apply cmp_eq in E as ->. naive_solver.
  - rewrite IH. naive_solver.
Qed.

Lemma bmap_insert_wf k v m : bmap_wf m → bmap_wf (bmap_insert k v m).
Proof.
  unfold bmap_wf. induction m as [|[k0 v0] m IH]; csimpl; intros Hwf; [repeat constructor|].
  destruct (cmp k k0) eqn:E; csimpl; [done| |].
  - inversion_clear Hwf as [|? ? Hs Hall]. constructor; [by constructor|].
    constructor; [done|]. eapply Forall_impl; [exact Hall|]. intros z. by apply cmp_trans.
  - inversion_clear Hwf as [|? ? Hs Hall]. constructor; [by apply IH|].
    rewrite Forall_forall in *. intros z. rewrite elem_of_bmap_insert_keys.
    intros [->|?]; [by apply cmp_Gt_Lt|auto].
Qed.

Lemma bmap_get_insert k v k' m :
  bmap_wf m → bmap_get k' (bmap_insert k v m) = if decide (k' = k) then Some v else bmap_get k' m.
Proof.
  unfold bmap_wf. induction m as [|[k0 v0] m IH]; csimpl; intros Hwf.
  { case_decide as D; [subst; by rewrite cmp_refl|].
    destruct (cmp k' k) eqn:E; [by apply cmp_eq in E|done|done]. }
  inversion_clear Hwf as [|? ? Hs Hall].
  destruct (cmp k k0) eqn:E; csimpl.
  - apply cmp_eq in E as ->. case_decide as D; [subst; by rewrite cmp_refl|].
    destruct (cmp k' k0) eqn:E'; [by apply cmp_eq in E'|done|done].
  - case_decide as D; [subst; by rewrite cmp_refl|].
    destruct (cmp k' k) eqn:E'; [by apply cmp_eq in E'| |done].
    by rewrite (cmp_trans _ _ _ E' E).
  - destruct (cmp k' k0) eqn:E'; [| |by apply IH].
    + apply cmp_eq in E' as ->. rewrite decide_False; [done|]. intros ->.
      by rewrite cmp_refl in E.
    + rewrite decide_False; [done|]. intros ->. by rewrite E in E'.
Qed.

Lemma bmap_get_elem k v m : bmap_wf m → bmap_get k m = Some v ↔ (k, v) ∈ m.
Proof.
  unfold bmap_wf. induction m as [|[k0 v0] m IH]; csimpl; intros Hwf; [by rewrite elem_of_nil|].
  inversion_clear Hwf as [|? ? Hs Hall]. rewrite elem_of_cons. rewrite Forall_forall in Hall.
  assert (∀ w, (k, w) ∈ m → cmp k0 k = Lt) as Hlt.
  { intros w Hin. apply Hall. apply list_elem_of_fmap. by exists (k, w). }
  destruct (cmp k k0) eqn:E.
  - apply cmp_eq in E as ->. split; [naive_solver|]. intros [|Hin]; [naive_solver|].
    apply Hlt in Hin. by rewrite cmp_refl in Hin.
  - split; [done|]. intros [[= -> ->]|Hin]; [by rewrite cmp_refl in E|].
    apply Hlt in Hin. rewrite cmp_antisym in E. by rewrite Hin in E.
  - rewrite IH by done. split; [auto|]. intros [[= -> ->]|]; [by rewrite cmp_refl in E|done].
Qed.
End bmap.

(** ** [partition_point] on a slice: the length of the prefix satisfying a test. *)
Fixpoint partition_point {A} (p : A → bool) (xs : list A) : nat :=
  match xs with
  | [] => 0
  | x :: xs => if p x then S (partition_point p xs) else 0
  end.

(** The run of entries whose key equals [k] in a slice sorted by key: the two
    [partition_point] calls the source makes to find it. *)
Definition equal_run {A K} `{RustOrd K} (key : A → K) (k : K) (xs : list A) : list A :=
  let first := partition_point (λ x, match cmp (key x) k with Lt => true | _ => false end) xs in
  let rest := drop first xs in
  take (partition_point (λ x, match cmp (key x) k with Eq => true | _ => false end) rest) rest.

Lemma filter_all_true {A} (P : A → Prop) `{∀ x, Decision (P x)} (xs : list A) :
  (∀ x, x ∈ xs → P x) → filter P xs = xs.
Proof.
  induction xs as [|x xs IH]; intros Hp; [done|].
  rewrite filter_cons_True by (apply Hp; left). f_equal. apply IH. intros y Hy. apply Hp. by right.
Qed.

Lemma filter_all_false {A} (P : A → Prop) `{∀ x, Decision (P x)} (xs : list A) :
  Forall (λ x, ¬ P x) xs → filter P xs = [].
Proof. induction 1; [done|]. by rewrite filter_cons_False. Qed.

Lemma equal_run_filter {A K} `{RustOrdLaws K} (key : A → K) (k : K) (xs : list A) :
  StronglySorted (cle (λ x y, cmp (key x) (key y))) xs →
  equal_run key k xs = filter (λ x, key x = k) xs.
Proof.
  unfold equal_run. induction 1 as [|x xs Hs IH Hall]; [done|].
  cbn [partition_point]. destruct (cmp (key x) k) eqn:E.
  - apply cmp_eq in E as Ek. rewrite filter_cons_True by done. rewrite drop_0.
    cbn [partition_point]. rewrite E. cbn [take]. f_equal.
    rewrite <- IH. clear IH. destruct Hs as [|y ys Hs Hall']; [done|].
    rewrite Forall_cons in Hall. destruct Hall as [Hxy Hall]. unfold cle in Hxy.
    cbn [partition_point]. destruct (cmp (key y) k) eqn:E'.
    + rewrite drop_0. cbn [partition_point]. by rewrite E'.
    + subst k. by rewrite (cmp_antisym (key y) (key x)), E' in Hxy.
    + rewrite drop_0. cbn [partition_point]. by rewrite E'.
  - rewrite filter_cons_False by (by apply cmp_ne). exact IH.
  - rewrite filter_cons_False by (intros Heq; by rewrite (proj2 (cmp_eq _ _) Heq) in E).
    rewrite drop_0. cbn [partition_point]. rewrite E. cbn [take].
    symmetry. apply filter_all_false. rewrite Forall_forall in *. intros y Hy Heq.
    apply Hall in Hy. unfold cle in Hy. rewrite Heq in Hy. congruence.
Qed.

(** *** Lists with strictly increasing keys *)

Section keyed.
Context {A K : Type} `{RustOrdLaws K} (key : A → K).

Definition keys_increasing (l : list A) : Prop := bset_wf (map key l).

Lemma keys_increasing_cons x l :
  keys_increasing (x :: l) ↔ keys_increasing l ∧ ∀ y, y ∈ l → cmp (key x) (key y) = Lt.
Proof.
  unfold keys_increasing, bset_wf. simpl. split.
  - inversion_clear 1 as [|? ? Hs Hall]. split; [done|]. intros y Hy.
    rewrite Forall_forall in Hall. apply Hall, list_elem_of_fmap. eauto.
  - intros [Hs Hall]. constructor; [done|]. rewrite Forall_forall.
    intros k (y & -> & ?)%list_elem_of_fmap. by apply Hall.
Qed.

Lemma keys_increasing_inj l x y :
  keys_increasing l → x ∈ l → y ∈ l → key x = key y → x = y.
Proof.
  induction l as [|z l IH]; [by intros _ ?%elem_of_nil|].
  rewrite keys_increasing_cons, !elem_of_cons. intros [Hs Hx] [->|Hl] [->|Hl'] Heq; auto.
  - apply Hx in Hl'. by rewrite Heq, cmp_refl in Hl'.
  - apply Hx in Hl. by rewrite Heq, cmp_refl in Hl.
Qed.

Lemma keys_increasing_sorted l :
  keys_increasing l → StronglySorted (cle (λ x y, cmp (key x) (key y))) l.
Proof.
  induction l as [|x l IH]; [constructor|]. intros [Hs Hlt]%keys_increasing_cons.
  constructor; [by apply IH|]. rewrite Forall_forall. intros y Hy. unfold cle. by rewrite Hlt.
Qed.

(** A strictly increasing list is the sort of any of its permutations. *)
Lemma keys_increasing_sort l l' :
  keys_increasing l → l ≡ₚ l' → sort_by (λ x y, cmp (key x) (key y)) l' = l.
Proof.
  intros Hl Hp. pose proof (comparator_by key).
  apply (sorted_perm_unique (λ x y, cmp (key x) (key y))).
  - by rewrite sort_by_perm.
  - intros x y. rewrite !elem_of_sort_by, <- Hp. intros Hx Hy Heq%cmp_eq.
    by eapply keys_increasing_inj.
  - by apply sort_by_sorted.
  - by apply keys_increasing_sorted.
Qed.

(** Strictly increasing lists of the same members are the same. *)
Lemma keys_increasing_ext l l' :
  keys_increasing l → keys_increasing l' → (∀ x, x ∈ l ↔ x ∈ l') → l = l'.
Proof.
  intros Hl Hl' He. rewrite <- (keys_increasing_sort l' l' Hl') by done. symmetry. apply keys_increasing_sort; [done|].
  apply bset_wf_NoDup, NoDup_fmap_1 in Hl. apply bset_wf_NoDup, NoDup_fmap_1 in Hl'. symmetry. by apply NoDup_Permutation.
Qed.

Lemma keys_increasing_filter (P : A → Prop) `{∀ x, Decision (P x)} xs :
  keys_increasing xs → keys_increasing (filter P xs).
Proof.
  induction xs as [|x xs IH]; [done|]. intros [Hs Hlt]%keys_increasing_cons. rewrite filter_cons.
  case_decide; [|by apply IH]. apply keys_increasing_cons. split; [by apply IH|].
  intros y [_ Hy]%list_elem_of_filter. auto.
Qed.
End keyed.

(** Two disjoint filters make up the filter by their disjunction. *)
Lemma filter_disjoint_app {A} (P Q R : A → Prop) `{∀ x, Decision (P x), ∀ x, Decision (Q x), ∀ x, Decision (R x)} l :
  (∀ x, R x ↔ P x ∨ Q x) → (∀ x, P x → Q x → False) → filter P l ++ filter Q l ≡ₚ filter R l.
Proof.
  intros Hr Hd. induction l as [|x l IH]; [done|]. rewrite !filter_cons.
  pose proof (Hr x). pose proof (Hd x). repeat case_decide; try tauto.
  - simpl. by rewrite IH.
  - by rewrite <- Permutation_middle, IH.
Qed.

(** *** Neighbours in a slice *)

(** [slice.windows(2).any(|pair| test(pair[0], pair[1]))]. *)
Fixpoint any_adjacent {A} (test : A → A → bool) (xs : list A) : bool :=
  match xs with
  | x :: (y :: _) as xs' => test x y || any_adjacent test xs'
  | _ => false
  end.

(** [Vec::dedup_by]: an element is removed when it is the same as the last one kept. *)
Fixpoint dedup_from {A} (same : A → A → bool) (kept : A) (xs : list A) : list A :=
  match xs with
  | [] => []
  | x :: xs => if same x kept then dedup_from same kept xs else x :: dedup_from same x xs
  end.
Definition dedup_by {A} (same : A → A → bool) (xs : list A) : list A :=
  match xs with [] => [] | x :: xs => x :: dedup_from same x xs end.

Lemma then_with_assoc a b c : then_with (then_with a b) c = then_with a (then_with b c).
Proof. by destruct a. Qed.

(** A sorted list of distinct keys is strictly increasing. *)
Lemma sorted_distinct_keys {A K} `{RustOrdLaws K} (key : A → K) xs :
  StronglySorted (cle (λ x y, cmp (key x) (key y))) xs → NoDup (map key xs) → keys_increasing key xs.
Proof.
  unfold keys_increasing, bset_wf. induction 1 as [|x ys Hs IH Hall]; intros Hnd; [constructor|].
  rewrite map_cons, NoDup_cons in Hnd. destruct Hnd as [Hx Hnd]. simpl. constructor; [by apply IH|].
  rewrite Forall_forall. intros k (y & -> & Hy)%list_elem_of_fmap.
  rewrite Forall_forall in Hall. specialize (Hall y Hy). unfold cle, clt in *.
  destruct (cmp (key x) (key y)) eqn:E; [|done|done].
  apply cmp_eq in E. destruct Hx. rewrite E. apply list_elem_of_fmap. eauto.
Qed.

(** Distinct keys are strictly increasing once sorted. *)
Lemma keys_increasing_NoDup_sort {A K} `{RustOrdLaws K} (key : A → K) xs :
  NoDup (map key xs) → keys_increasing key (sort_by (λ x y, cmp (key x) (key y)) xs).
Proof.
  intros Hnd. pose proof (comparator_by key). apply sorted_distinct_keys; [by apply sort_by_sorted|].
  by rewrite (sort_by_perm (λ x y, cmp (key x) (key y)) xs).
Qed.

(** No pair of neighbours out of order: the slice is strictly increasing. *)
Lemma any_adjacent_increasing {A K} `{RustOrdLaws K} (key : A → K) (out_of_order : A → A → bool) xs :
  (∀ x y, out_of_order x y = false ↔ cmp (key x) (key y) = Lt) →
  any_adjacent out_of_order xs = false ↔ keys_increasing key xs.
Proof.
  intros Hp. induction xs as [|x xs IH]; [split; [intros _; constructor|done]|]. rewrite keys_increasing_cons, <- IH.
  destruct xs as [|y xs]; [split; [intros _; split; [done|by intros z ?%elem_of_nil]|done]|].
  cbn [any_adjacent]. rewrite orb_false_iff, Hp. split.
  - intros [Hxy Hadj]. split; [done|]. intros z [->|Hz]%elem_of_cons; [done|].
    apply IH, keys_increasing_cons in Hadj as [_ Hlt]. eapply cmp_trans; [exact Hxy|]. by apply Hlt.
  - intros [Hadj Hlt]. split; [|done]. apply Hlt. by left.
Qed.

(** Distinct neighbours in a sorted slice are distinct throughout. *)
Section neighbours.
Context {A K : Type} `{RustOrdLaws K} (key : A → K) (same : A → A → bool).
Context (same_key : ∀ x y, same x y = true ↔ key x = key y).

Lemma any_adjacent_keys xs :
  StronglySorted (cle (λ x y, cmp (key x) (key y))) xs →
  any_adjacent same xs = false ↔ keys_increasing key xs.
Proof.
  induction 1 as [|x xs Hs IH Hall]; [split; [intros _; constructor|done]|].
  rewrite keys_increasing_cons, <- IH. destruct Hs as [|y xs Hs Hall'].
  { split; [intros _; split; [done|by intros y ?%elem_of_nil]|done]. }
  cbn [any_adjacent]. rewrite orb_false_iff.
  assert (same x y = false ↔ key x ≠ key y) as Hxy.
  { rewrite <- same_key. by destruct (same x y). }
  rewrite Hxy. rewrite Forall_cons in Hall. destruct Hall as [Hle Hall]. split.
  - intros [Hne Hadj]. split; [done|]. intros z Hz.
    assert (cmp (key x) (key y) = Lt) as Hlt.
    { unfold cle in Hle. destruct (cmp (key x) (key y)) eqn:E; [by apply cmp_eq in E|done|done]. }
    apply elem_of_cons in Hz as [->|Hz]; [done|].
    apply IH in Hadj. apply keys_increasing_cons in Hadj as [_ Hlt'].
    eapply cmp_trans; [exact Hlt|]. by apply Hlt'.
  - intros [Hadj Hlt]. split; [|done]. intros Heq.
    specialize (Hlt y ltac:(by left)). by rewrite Heq, cmp_refl in Hlt.
Qed.

Lemma dedup_from_keys x xs : keys_increasing key (x :: xs) → dedup_from same x xs = xs.
Proof.
  revert x. induction xs as [|y xs IH]; intros x; [done|]. intros [Hs Hlt]%keys_increasing_cons. simpl.
  destruct (same y x) eqn:E.
  - apply same_key in E. specialize (Hlt y ltac:(by left)). by rewrite E, cmp_refl in Hlt.
  - by rewrite IH.
Qed.

Lemma dedup_by_keys xs : keys_increasing key xs → dedup_by same xs = xs.
Proof. destruct xs as [|x xs]; [done|]. intros Hk. simpl. by rewrite dedup_from_keys. Qed.

(** Sorting puts equal keys side by side: neighbours are distinct exactly when all keys are. *)
Lemma any_adjacent_sort xs :
  any_adjacent same (sort_by (λ x y, cmp (key x) (key y)) xs) = false ↔ NoDup (map key xs).
Proof.
  pose proof (comparator_by key). rewrite any_adjacent_keys by (by apply sort_by_sorted). split.
  - intros Hk%bset_wf_NoDup. by rewrite (sort_by_perm _ xs) in Hk.
  - apply keys_increasing_NoDup_sort.
Qed.
End neighbours.

(** Only the order compared by matters to a sort. *)
Lemma sort_by_ext {A} (c c' : A → A → comparison) xs :
  (∀ x y, c x y = c' x y) → sort_by c xs = sort_by c' xs.
Proof.
  intros He. unfold sort_by. induction xs as [|x xs IH]; [done|]. simpl. rewrite IH.
  generalize (foldr (insert_by c') [] xs). induction l as [|y l IHl]; [done|]. simpl. by rewrite He, IHl.
Qed.
