(* ===== verification/RepositoryPath.v ===== *)
(** * Repository paths

    Models [crates/repowitness-domain/src/path.rs]: the byte-preserving path
    identity, its bounded construction, its order and its display form.  A
    constructed value is a [RepositoryPath] record; [wf] is the invariant that
    construction establishes and every consumer relies on. *)

From Stdlib Require Import ZArith Lia ZifyBool.
From Stdlib Require Import Strings.Byte.
From Stdlib Require Strings.String.
From stdpp Require Import base numbers list.
From S2P Require Import Prelude Ordering.

Open Scope Z_scope.

(** ** Data *)

Record RepositoryPathLimits := {
  max_bytes : Z;
  max_components : Z;
}.

Inductive RepositoryPathError :=
| ByteCountNotRepresentable
| ByteLimitExceeded (actual limit : Z)
| Empty
| LeadingSlash
| TrailingSlash
| EmptyComponent
| ContainsNul
| CurrentDirectoryComponent
| ParentDirectoryComponent
| DotGitComponent
| ComponentCountNotRepresentable
| ComponentLimitExceeded (actual limit : Z).

#[export] Instance RepositoryPathError_eq_dec : EqDecision RepositoryPathError.
Proof. solve_decision. Defined.

Record RepositoryPath := {
  path_bytes : bytes;
  byte_count : Z;
  component_count : Z;
}.

Definition slash : byte := x2f.
Definition dot : bytes := b_of ".".
Definition dotdot : bytes := b_of "..".
Definition dotgit : bytes := b_of ".git".

(** [slice.split(|byte| *byte == b'/')]: never empty, one entry more than there
    are separators. *)
Fixpoint split_slash (bs : bytes) : list bytes :=
  match bs with
  | [] => [[]]
  | b :: bs =>
      if bool_decide (b = slash) then [] :: split_slash bs
      else match split_slash bs with
           | c :: cs => (b :: c) :: cs
           | [] => [[b]]
           end
  end.

(** ** Validation *)

Definition validate_byte_count (bs : bytes) (limit : Z) : result RepositoryPathError Z :=
  actual ← ok_or (u64_of_len (length bs)) ByteCountNotRepresentable;
  reject_if (limit <? actual) (ByteLimitExceeded actual limit);;
  Ok actual.

Definition validate_shape (bs : bytes) : result RepositoryPathError () :=
  reject_if (bool_decide (bs = [])) Empty;;
  reject_if (bool_decide (head bs = Some slash)) LeadingSlash;;
  reject_if (bool_decide (last bs = Some slash)) TrailingSlash;;
  Ok ().

Definition validate_component (component : bytes) : result RepositoryPathError () :=
  reject_if (bool_decide (component = [])) EmptyComponent;;
  reject_if (bool_decide (x00 ∈ component)) ContainsNul;;
  if bool_decide (component = dot) then Err CurrentDirectoryComponent
  else if bool_decide (component = dotdot) then Err ParentDirectoryComponent
  else if bool_decide (component = dotgit) then Err DotGitComponent
  else Ok ().

(** One turn of the loop of [validate_components]. *)
Definition count_component (limit : Z) (count : Z) (component : bytes)
    : result RepositoryPathError Z :=
  count' ← ok_or (u64_checked_add count 1) ComponentCountNotRepresentable;
  reject_if (limit <? count') (ComponentLimitExceeded count' limit);;
  validate_component component;;
  Ok count'.

Definition validate_components (bs : bytes) (limit : Z) : result RepositoryPathError Z :=
  try_fold (count_component limit) 0 (split_slash bs).

Definition validate (bs : bytes) (limits : RepositoryPathLimits)
    : result RepositoryPathError (Z * Z) :=
  bytes_ ← validate_byte_count bs (max_bytes limits);
  validate_shape bs;;
  components ← validate_components bs (max_components limits);
  Ok (bytes_, components).

(** [try_from_bytes] and [try_from_vec] differ only in who owns the allocation. *)
Definition try_from_bytes (bs : bytes) (limits : RepositoryPathLimits)
    : result RepositoryPathError RepositoryPath :=
  '(bytes_, components) ← validate bs limits;
  Ok {| path_bytes := bs; byte_count := bytes_; component_count := components |}.

Definition try_from_vec (bs : bytes) (limits : RepositoryPathLimits)
    : result RepositoryPathError RepositoryPath :=
  '(bytes_, components) ← validate bs limits;
  Ok {| path_bytes := bs; byte_count := bytes_; component_count := components |}.

Definition components (p : RepositoryPath) : list bytes := split_slash (path_bytes p).

(** Equality, order and hashing read the bytes alone. *)
Definition path_eqb (p q : RepositoryPath) : bool := bool_decide (path_bytes p = path_bytes q).
Definition path_cmp (p q : RepositoryPath) : comparison := cmp (path_bytes p) (path_bytes q).

(** [write!(text, "\\x{byte:02X}")] for one byte. *)
Definition hex_digit_upper (n : N) : byte :=
  match Byte.of_N (if (n <? 10)%N then 48 + n else 55 + n)%N with
  | Some b => b
  | None => x30
  end.

Definition escape_byte (b : byte) : bytes :=
  [x5c; x78; hex_digit_upper (Byte.to_N b / 16); hex_digit_upper (Byte.to_N b mod 16)].

(** Whether [display_text] copies a byte: [b' '..=b'~'] other than the backslash. *)
Definition display_plain (b : byte) : bool :=
  (32 <=? byte_rank b) && (byte_rank b <=? 126) && negb (bool_decide (b = x5c)).

Definition display_text (p : RepositoryPath) : bytes :=
  flat_map (λ b, if display_plain b then [b] else escape_byte b) (path_bytes p).

(** ** The invariant *)

Definition component_ok (c : bytes) : Prop :=
  c ≠ [] ∧ x00 ∉ c ∧ c ≠ dot ∧ c ≠ dotdot ∧ c ≠ dotgit.

Record wf (p : RepositoryPath) : Prop := {
  wf_components : Forall component_ok (components p);
  wf_byte_count : byte_count p = Z.of_nat (length (path_bytes p));
  wf_component_count : component_count p = Z.of_nat (length (components p));
  wf_in_u64 : in_u64 (byte_count p) ∧ in_u64 (component_count p);
}.

Definition within (limits : RepositoryPathLimits) (bs : bytes) : Prop :=
  Z.of_nat (length bs) ≤ max_bytes limits ∧
  Z.of_nat (length (split_slash bs)) ≤ max_components limits.

(** ** Lemmas *)

(** Joining components with the separator. *)
Fixpoint join_slash (cs : list bytes) : bytes :=
  match cs with
  | [] => []
  | [c] => c
  | c :: cs => c ++ slash :: join_slash cs
  end.

Lemma split_slash_nonempty bs : split_slash bs ≠ [].
Proof. destruct bs as [|b bs]; simpl; [done|]. by case_bool_decide; [|destruct (split_slash bs)]. Qed.

Lemma join_split bs : join_slash (split_slash bs) = bs.
Proof.
  induction bs as [|b bs IH]; simpl; [done|].
  pose proof (split_slash_nonempty bs). case_bool_decide.
  - subst. destruct (split_slash bs) as [|c cs]; [done|]. by rewrite <- IH.
  - destruct (split_slash bs) as [|c [|c' cs]]; simpl in *; [done|by rewrite IH|by rewrite <- IH].
Qed.

Lemma split_slash_no_slash bs c : c ∈ split_slash bs → slash ∉ c.
Proof.
  revert c. induction bs as [|b bs IH]; simpl; intros c.
  { rewrite list_elem_of_singleton. intros ->. apply not_elem_of_nil. }
  case_bool_decide as D.
  - rewrite elem_of_cons. intros [->|?]; [apply not_elem_of_nil|auto].
  - destruct (split_slash bs) as [|c0 cs].
    + rewrite list_elem_of_singleton. intros ->. by rewrite list_elem_of_singleton.
    + rewrite elem_of_cons. intros [->|Hc]; [|apply IH; by right].
      rewrite not_elem_of_cons. split; [done|]. apply IH. by left.
Qed.

Lemma split_slash_singleton c : slash ∉ c → split_slash c = [c].
Proof.
  induction c as [|b c IH]; simpl; [done|]. rewrite not_elem_of_cons. intros [Hne Hc].
  rewrite bool_decide_false by done. by rewrite IH.
Qed.

Lemma split_slash_app c bs : slash ∉ c → split_slash (c ++ slash :: bs) = c :: split_slash bs.
Proof.
  induction c as [|b c IH]; intros Hc; csimpl; [done|].
  rewrite not_elem_of_cons in Hc. destruct Hc as [Hne Hc].
  rewrite bool_decide_false by done. by rewrite IH.
Qed.

Lemma split_join cs : cs ≠ [] → Forall (λ c, slash ∉ c) cs → split_slash (join_slash cs) = cs.
Proof.
  induction cs as [|c cs IH]; [done|]. intros _ Hall. inversion_clear Hall as [|? ? Hc Hcs].
  destruct cs as [|c' cs]; simpl; [by apply split_slash_singleton|].
  rewrite split_slash_app by done. f_equal. by apply IH.
Qed.

Lemma validate_component_spec c : validate_component c = Ok () ↔ component_ok c.
Proof.
  unfold validate_component, component_ok, reject_if, mbind, result_bind.
  repeat case_bool_decide; naive_solver.
Qed.

Lemma count_component_Ok limit count c count' :
  count_component limit count c = Ok count' →
  count' = count + 1 ∧ count' ≤ limit ∧ 0 ≤ count' ≤ u64_max ∧ component_ok c.
Proof.
  unfold count_component, u64_checked_add. intros H. inv_ok.
  fwd validate_component_spec as Hok. repeat split; try lia; apply Hok.
Qed.

(** The loop of [validate_components] accepts exactly the well-formed component
    lists that fit the limit, and counts them. *)
Lemma fold_components_Ok limit cs count n :
  0 ≤ count →
  try_fold (count_component limit) count cs = Ok n →
  n = count + Z.of_nat (length cs) ∧ Forall component_ok cs ∧ (cs ≠ [] → n ≤ limit ∧ n ≤ u64_max).
Proof.
  revert count. induction cs as [|c cs IH]; intros count Hc; simpl; intros H.
  { injection H as <-. split; [lia|]. done. }
  inv_ok. fwd count_component_Ok as (-> & ? & ? & ?).
  apply IH in H as (-> & ? & Hle); [|lia]. split; [lia|]. split; [by constructor|].
  intros _. destruct cs; [simpl; lia|]. by apply Hle.
Qed.

Lemma count_component_good limit count c :
  0 ≤ count → component_ok c → count + 1 ≤ limit → count + 1 ≤ u64_max →
  count_component limit count c = Ok (count + 1).
Proof.
  intros Hc Hok Hl Hm. unfold count_component, u64_checked_add.
  rewrite checked_in by lia. simpl.
  unfold reject_if. rewrite (proj2 (Z.ltb_ge _ _)) by lia. simpl.
  by apply validate_component_spec in Hok as ->.
Qed.

Lemma fold_components_complete limit cs count :
  0 ≤ count → Forall component_ok cs →
  count + Z.of_nat (length cs) ≤ limit → count + Z.of_nat (length cs) ≤ u64_max →
  try_fold (count_component limit) count cs = Ok (count + Z.of_nat (length cs)).
Proof.
  revert count. induction cs as [|c cs IH]; intros count Hc Hall Hl Hm; simpl.
  { by rewrite Z.add_0_r. }
  inversion_clear Hall as [|? ? Hok Hoks]. simpl length in *.
  rewrite count_component_good by (done || lia). unfold mbind, result_bind.
  rewrite IH by (done || lia). f_equal. lia.
Qed.

Lemma split_slash_snoc bs : split_slash (bs ++ [slash]) = split_slash bs ++ [[]].
Proof.
  induction bs as [|b bs IH]; csimpl; [done|]. rewrite IH.
  case_bool_decide; [done|]. pose proof (split_slash_nonempty bs).
  by destruct (split_slash bs).
Qed.

(** A path of acceptable components is non-empty and has no separator at either end. *)
Lemma components_ok_shape bs : Forall component_ok (split_slash bs) → validate_shape bs = Ok ().
Proof.
  intros Hall. rewrite Forall_forall in Hall.
  assert ([] ∉ split_slash bs) as Hne by (intros Hin%Hall; by destruct Hin).
  unfold validate_shape, reject_if, mbind, result_bind. rewrite !bool_decide_false; [done|..].
  - intros [l ->]%last_Some. rewrite split_slash_snoc in Hne. apply Hne.
    apply elem_of_app. right. by left.
  - destruct bs as [|b bs]; [done|]. intros [= ->]. apply Hne. simpl. left.
  - intros ->. apply Hne. by left.
Qed.

Lemma validate_byte_count_Ok bs limit n :
  validate_byte_count bs limit = Ok n ↔
  n = Z.of_nat (length bs) ∧ n ≤ limit ∧ n ≤ u64_max.
Proof.
  unfold validate_byte_count, u64_of_len. split.
  - intros H. inv_ok. lia.
  - intros (-> & ? & ?). rewrite checked_in by lia. simpl. unfold reject_if.
    by rewrite (proj2 (Z.ltb_ge _ _)) by lia.
Qed.

Lemma validate_Ok bs limits n m :
  validate bs limits = Ok (n, m) →
  n = Z.of_nat (length bs) ∧ m = Z.of_nat (length (split_slash bs)) ∧
  Forall component_ok (split_slash bs) ∧ within limits bs ∧ in_u64 n ∧ in_u64 m.
Proof.
  unfold validate. intros H. inv_ok. fwd validate_byte_count_Ok as (-> & ? & ?).
  unfold validate_components in *. fwd fold_components_Ok as (-> & ? & Hle); [|lia].
  destruct (Hle (split_slash_nonempty bs)). unfold within, in_u64. repeat split; auto; lia.
Qed.

Lemma validate_complete bs limits :
  Forall component_ok (split_slash bs) → within limits bs →
  in_u64 (Z.of_nat (length bs)) → in_u64 (Z.of_nat (length (split_slash bs))) →
  validate bs limits = Ok (Z.of_nat (length bs), Z.of_nat (length (split_slash bs))).
Proof.
  intros Hall [Hb Hc] [_ Hu] [_ Hu']. unfold validate.
  assert (validate_byte_count bs (max_bytes limits) = Ok (Z.of_nat (length bs))) as ->.
  { apply validate_byte_count_Ok. lia. }
  unfold mbind, result_bind. rewrite components_ok_shape by done.
  unfold validate_components. rewrite fold_components_complete by (done || lia). done.
Qed.

(** A constructed path satisfies the invariant. *)
Lemma try_from_bytes_wf bs limits p :
  try_from_bytes bs limits = Ok p → wf p ∧ path_bytes p = bs ∧ within limits bs.
Proof.
  unfold try_from_bytes. intros H. inv_ok.
  fwd validate_Ok as (-> & -> & ? & ? & ? & ?). split; [by constructor|done].
Qed.

Lemma try_from_vec_bytes bs limits : try_from_vec bs limits = try_from_bytes bs limits.
Proof. done. Qed.

(** A well-formed path can be rebuilt from its own bytes under limits that admit it. *)
Lemma try_from_bytes_rebuild p limits :
  wf p → within limits (path_bytes p) →
  try_from_bytes (path_bytes p) limits = Ok p.
Proof.
  intros [Hc Hb Hcc [Hu1 Hu2]] Hw. unfold try_from_bytes.
  rewrite validate_complete; [|done|done|by rewrite <- Hb|by rewrite Hcc in Hu2].
  destruct p as [bs n m]. unfold components in *. simpl in *. by subst.
Qed.

(** *** Display text *)

Lemma escape_prefix b : display_plain b = false → ∃ h l, escape_byte b = [x5c; x78; h; l].
Proof. intros _. unfold escape_byte. eauto. Qed.

Lemma escape_byte_inj b1 b2 : escape_byte b1 = escape_byte b2 → b1 = b2.
Proof.
  intros [= Hh Hl].
  assert (∀ b, Byte.of_N (16 * (Byte.to_N b / 16) + Byte.to_N b mod 16) = Some b) as Hback.
  { intros b. rewrite <- N.div_mod by done. apply Byte.of_to_N. }
  assert (∀ n m, (n < 16)%N → (m < 16)%N → hex_digit_upper n = hex_digit_upper m → n = m) as Hinj.
  { assert (∀ n, (n < 16)%N → Byte.to_N (hex_digit_upper n) = (if (n <? 10)%N then 48 + n else 55 + n)%N)
      as Hval.
    { intros n Hn. unfold hex_digit_upper.
      destruct (Byte.of_N _) eqn:E; [by apply Byte.to_of_N in E|].
      apply Byte.of_N_None_iff in E. destruct (n <? 10)%N eqn:?; lia. }
    intros n m Hn Hm Heq. apply (f_equal Byte.to_N) in Heq. rewrite !Hval in Heq by done.
    destruct (n <? 10)%N eqn:?, (m <? 10)%N eqn:?; lia. }
  assert (∀ b, (Byte.to_N b < 256)%N) as Hlt.
  { intros b. pose proof (Byte.to_N_bounded b). lia. }
  apply Hinj in Hh; [|apply N.Div0.div_lt_upper_bound, Hlt..].
  apply Hinj in Hl; [|by apply N.mod_upper_bound..].
  pose proof (Hback b1) as H1. rewrite Hh, Hl, Hback in H1. by injection H1.
Qed.

Lemma flat_map_display_inj bs1 bs2 :
  flat_map (λ b, if display_plain b then [b] else escape_byte b) bs1 =
  flat_map (λ b, if display_plain b then [b] else escape_byte b) bs2 → bs1 = bs2.
Proof.
  assert (display_plain x5c = false) as Hbs by reflexivity.
  revert bs2. induction bs1 as [|b1 bs1 IH]; intros [|b2 bs2]; simpl.
  - done.
  - by destruct (display_plain b2).
  - by destruct (display_plain b1).
  - destruct (display_plain b1) eqn:E1, (display_plain b2) eqn:E2; simpl.
    + intros [= -> H]. f_equal. by apply IH.
    + intros [= -> H]. congruence.
    + intros [= <- H]. congruence.
    + intros [= Hh Hl H]. f_equal; [|by apply IH].
      apply escape_byte_inj. unfold escape_byte. by rewrite Hh, Hl.
Qed.

(** The loop stops at the first component it refuses, whatever follows. *)
Lemma fold_components_first limit cs c cs' count e :
  0 ≤ count → Forall component_ok cs →
  count + Z.of_nat (length cs) ≤ limit → count + Z.of_nat (length cs) ≤ u64_max →
  count_component limit (count + Z.of_nat (length cs)) c = Err e →
  try_fold (count_component limit) count (cs ++ c :: cs') = Err e.
Proof.
  revert count. induction cs as [|c0 cs IH]; intros count Hc Hall Hl Hm Herr; simpl.
  { simpl in Herr. by rewrite Z.add_0_r in Herr; rewrite Herr. }
  inversion_clear Hall as [|? ? Hok Hoks]. simpl length in *.
  rewrite count_component_good by (done || lia). unfold mbind, result_bind.
  apply IH; [lia|done|lia|lia|]. by replace (count + 1 + Z.of_nat (length cs))
    with (count + Z.of_nat (S (length cs))) by lia.
Qed.

(** ** Properties *)

(** [RepositoryPath::try_from_bytes] accepts exactly the byte strings that the
    invariant describes and that fit the limits: no component is empty, contains NUL,
    or is [.], [..] or [.git]; and the value it returns carries the input bytes and
    their two counts unchanged. *)
Theorem try_from_bytes_spec bs limits p :
  try_from_bytes bs limits = Ok p ↔ wf p ∧ path_bytes p = bs ∧ within limits bs.
Proof.
  split; [apply try_from_bytes_wf|]. intros (Hwf & <- & Hw). by apply try_from_bytes_rebuild.
Qed.

(** Components and bytes determine each other: joining acceptable separator-free
    components gives a path whose [components] are the same list, and the components
    of a constructed path join back to its bytes. *)
Theorem components_roundtrip cs limits :
  cs ≠ [] → Forall (λ c, component_ok c ∧ slash ∉ c) cs → within limits (join_slash cs) →
  in_u64 (Z.of_nat (length (join_slash cs))) → in_u64 (Z.of_nat (length cs)) →
  ∃ p, try_from_bytes (join_slash cs) limits = Ok p ∧ components p = cs ∧
       join_slash (components p) = path_bytes p.
Proof.
  intros Hne Hall Hw Hb Hc.
  assert (split_slash (join_slash cs) = cs) as Hsplit.
  { apply split_join; [done|]. eapply Forall_impl; [done|]. naive_solver. }
  eexists {| path_bytes := join_slash cs; byte_count := Z.of_nat (length (join_slash cs));
             component_count := Z.of_nat (length cs) |}.
  unfold components; simpl. rewrite Hsplit. split; [|done].
  apply (try_from_bytes_rebuild {| path_bytes := join_slash cs |}); [|done].
  split; unfold components; simpl; rewrite ?Hsplit; try done.
  eapply Forall_impl; [done|]. naive_solver.
Qed.

(** The error reported for an in-bounds byte string is the one of its first
    refused component, in path order, even when later components are also bad; and a
    path with more acceptable components than the limit reports the count at which
    the limit was crossed. *)
Theorem validate_components_first_error bs limit cs c cs' e :
  split_slash bs = cs ++ c :: cs' → Forall component_ok cs →
  Z.of_nat (length cs) ≤ limit → Z.of_nat (length cs) < u64_max →
  (limit = Z.of_nat (length cs) → e = ComponentLimitExceeded (limit + 1) limit) →
  (Z.of_nat (length cs) < limit → validate_component c = Err e) →
  validate_components bs limit = Err e.
Proof.
  intros Hs Hall Hl Hu Hlim Hbad. unfold validate_components. rewrite Hs.
  apply fold_components_first; [lia|done|lia|lia|].
  unfold count_component, u64_checked_add. rewrite checked_in by lia. simpl.
  unfold reject_if. destruct (limit <? _) eqn:E; simpl.
  - rewrite Hlim by lia. do 2 f_equal; lia.
  - rewrite Hbad by lia. done.
Qed.

(** [display_text] loses nothing: two paths have the same display text exactly when
    they are the same identity (the backslash is always escaped, so an escape cannot be
    forged by path bytes). *)
Theorem display_text_injective p q :
  display_text p = display_text q ↔ path_eqb p q = true.
Proof.
  unfold path_eqb, display_text. rewrite bool_decide_eq_true. split; [|by intros ->].
  apply flat_map_display_inj.
Qed.

(** ** Witnesses *)

Definition example_limits : RepositoryPathLimits := {| max_bytes := 1024; max_components := 2 |}.

Lemma components_roundtrip_witness :
  ∃ p, try_from_bytes (b_of "src/lib.rs") example_limits = Ok p ∧
       components p = [b_of "src"; b_of "lib.rs"] ∧ join_slash (components p) = path_bytes p.
Proof.
  apply (components_roundtrip [b_of "src"; b_of "lib.rs"] example_limits); [done|..|split; done|split; done|split; done].
  repeat constructor; apply (bool_decide_unpack _); vm_compute; exact I.
Defined.

Lemma validate_components_first_error_witness :
  validate_components (b_of "a/../.git/b") 9 = Err ParentDirectoryComponent.
Proof.
  apply (validate_components_first_error (b_of "a/../.git/b") 9 [b_of "a"] (b_of "..") [b_of ".git"; b_of "b"]);
    [reflexivity| |done|done|done|reflexivity].
  repeat constructor; apply (bool_decide_unpack _); vm_compute; exact I.
Defined.
