(* ===== verification/PathText.v ===== *)
(** * Repository-path text

    Models [crates/repowitness-application/src/repository_path_text.rs]: the
    canonical [rwp1:h:] uppercase-Base16 scalar of a repository path, with its
    encoded and decoded bounds. *)

From Stdlib Require Import ZArith Lia ZifyBool.
From Stdlib Require Import Strings.Byte.
From stdpp Require Import base numbers list.
From S2P Require Import Prelude Ordering RepositoryPath.

Open Scope Z_scope.

Definition PREFIX : bytes := b_of "rwp1:h:".
Definition BASE16_UPPER : bytes := b_of "0123456789ABCDEF".

Inductive RepositoryPathTextError :=
| EncodedByteCountNotRepresentable
| EncodedLengthNotRepresentable
| EncodedLimitExceeded (actual limit : Z)
| InvalidTag
| EmptyPayload
| OddPayloadLength
| NonCanonicalBase16
| DecodedLengthNotRepresentable
| InvalidRepositoryPath (error : RepositoryPathError).

#[export] Instance RepositoryPathTextError_eq_dec : EqDecision RepositoryPathTextError.
Proof. solve_decision. Defined.

(** [RepositoryPathTextV1]: the scalar and its encoded byte count. *)
Record RepositoryPathTextV1 := {
  encoded : bytes;
  encoded_byte_count : Z;
}.

Definition text_byte_count (text : bytes) : result RepositoryPathTextError Z :=
  ok_or (u64_of_len (length text)) EncodedByteCountNotRepresentable.

(** [usize] is 64 bits wide, so its checked arithmetic is that of [u64]. *)
Definition encoded_length (p : RepositoryPath) : result RepositoryPathTextError Z :=
  payload_length ← ok_or (u64_checked_mul (Z.of_nat (length (path_bytes p))) 2)
                         EncodedLengthNotRepresentable;
  ok_or (u64_checked_add (Z.of_nat (length PREFIX)) payload_length) EncodedLengthNotRepresentable.

Definition enforce_encoded_limit (actual limit : Z) : result RepositoryPathTextError () :=
  reject_if (limit <? actual) (EncodedLimitExceeded actual limit).

Definition encode_nibble (n : N) : byte := nth (N.to_nat n) BASE16_UPPER x00.

Definition encode_byte (b : byte) : bytes :=
  [encode_nibble (N.shiftr (Byte.to_N b) 4); encode_nibble (N.land (Byte.to_N b) 15)].

Definition encode (p : RepositoryPath) (limit : Z)
    : result RepositoryPathTextError RepositoryPathTextV1 :=
  count ← encoded_length p;
  enforce_encoded_limit count limit;;
  Ok {| encoded := PREFIX ++ flat_map encode_byte (path_bytes p); encoded_byte_count := count |}.

Definition decode_nibble (b : byte) : option N :=
  let n := Byte.to_N b in
  if ((48 <=? n) && (n <=? 57))%N then Some (n - 48)%N
  else if ((65 <=? n) && (n <=? 70))%N then Some (n - 65 + 10)%N
  else None.

(** [(high << 4) | low] on [u8]. *)
Definition join_nibbles (high low : N) : byte :=
  match Byte.of_N (N.lor (N.shiftl high 4) low mod 256) with Some b => b | None => x00 end.

(** The loop over [chunks_exact(2)]. *)
Fixpoint decode_pairs (payload : bytes) : result RepositoryPathTextError bytes :=
  match payload with
  | h :: l :: rest =>
      high ← ok_or (decode_nibble h) NonCanonicalBase16;
      low ← ok_or (decode_nibble l) NonCanonicalBase16;
      bs ← decode_pairs rest;
      Ok (join_nibbles high low :: bs)
  | _ => Ok []
  end.

Definition decode (text : bytes) (encoded_limit : Z) (path_limits : RepositoryPathLimits)
    : result RepositoryPathTextError RepositoryPath :=
  count ← text_byte_count text;
  enforce_encoded_limit count encoded_limit;;
  payload ← ok_or (strip_prefix PREFIX text) InvalidTag;
  reject_if (bool_decide (payload = [])) EmptyPayload;;
  reject_if (negb (Nat.even (length payload))) OddPayloadLength;;
  decoded_count ← ok_or (u64_of_len (length payload / 2)) DecodedLengthNotRepresentable;
  reject_if (max_bytes path_limits <? decoded_count)
    (InvalidRepositoryPath (ByteLimitExceeded decoded_count (max_bytes path_limits)));;
  decoded ← decode_pairs payload;
  map_err InvalidRepositoryPath (try_from_vec decoded path_limits).

(** ** Nibbles and bytes

    There are 256 bytes, so facts about one byte are checked by cases. *)

Definition nibbles : list N := map N.of_nat (seq 0 16).

Lemma elem_of_nibbles n : (n < 16)%N → n ∈ nibbles.
Proof.
  intros Hn. unfold nibbles. apply list_elem_of_fmap. exists (N.to_nat n).
  split; [by rewrite N2Nat.id|]. apply elem_of_seq. lia.
Qed.

Lemma decode_encode_byte b :
  ∃ h l, encode_byte b = [h; l] ∧
    match decode_nibble h, decode_nibble l with
    | Some high, Some low => join_nibbles high low = b
    | _, _ => False
    end.
Proof. exists (encode_nibble (N.shiftr (Byte.to_N b) 4)), (encode_nibble (N.land (Byte.to_N b) 15)).
  split; [done|]. destruct b; vm_compute; reflexivity. Qed.

Lemma encode_decode_nibble b n : decode_nibble b = Some n → encode_nibble n = b ∧ (n < 16)%N.
Proof. destruct b; vm_compute; intros H; try discriminate H; injection H as <-; by split. Qed.

Lemma encode_join_nibbles h l high low :
  decode_nibble h = Some high → decode_nibble l = Some low →
  encode_byte (join_nibbles high low) = [h; l].
Proof.
  intros H1%encode_decode_nibble H2%encode_decode_nibble.
  destruct H1 as [<- H1], H2 as [<- H2].
  assert (high ∈ nibbles) as Hh by by apply elem_of_nibbles.
  assert (low ∈ nibbles) as Hl by by apply elem_of_nibbles. clear H1 H2.
  revert high low Hh Hl.
  assert (Forall (λ h, Forall (λ l, encode_byte (join_nibbles h l) = [encode_nibble h; encode_nibble l])
    nibbles) nibbles) as Hall by (apply (bool_decide_unpack _); vm_compute; exact I).
  intros high low Hh Hl. rewrite Forall_forall in Hall. specialize (Hall _ Hh).
  rewrite Forall_forall in Hall. by apply Hall.
Qed.

(** Two encoded bytes compare as the bytes do: uppercase Base16 is order-preserving. *)
Definition nibble_order_table : bool :=
  forallb (λ a, forallb (λ b,
    match cmp (encode_nibble a) (encode_nibble b), N.compare a b with
    | Eq, Eq | Lt, Lt | Gt, Gt => true
    | _, _ => false
    end) nibbles) nibbles.

Lemma encode_nibble_cmp a b :
  (a < 16)%N → (b < 16)%N → cmp (encode_nibble a) (encode_nibble b) = N.compare a b.
Proof.
  intros Ha Hb. assert (nibble_order_table = true) as H by (vm_compute; reflexivity).
  unfold nibble_order_table in H. rewrite forallb_forall in H.
  specialize (H a). rewrite <- list_elem_of_In in H.
  specialize (H (elem_of_nibbles a Ha)). rewrite forallb_forall in H.
  specialize (H b). rewrite <- list_elem_of_In in H.
  specialize (H (elem_of_nibbles b Hb)).
  by destruct (cmp _ _), (N.compare a b).
Qed.

Lemma nibbles_of_byte b :
  Byte.to_N b = (16 * N.shiftr (Byte.to_N b) 4 + N.land (Byte.to_N b) 15)%N ∧
  (N.shiftr (Byte.to_N b) 4 < 16)%N ∧ (N.land (Byte.to_N b) 15 < 16)%N.
Proof. by destruct b. Qed.

Lemma encode_byte_cmp a b xs ys :
  list_cmp (encode_byte a ++ xs) (encode_byte b ++ ys) = then_with (cmp a b) (list_cmp xs ys).
Proof.
  unfold encode_byte; simpl.
  destruct (nibbles_of_byte a) as (Ha & Ha1 & Ha2), (nibbles_of_byte b) as (Hb & Hb1 & Hb2).
  rewrite !encode_nibble_cmp by done.
  assert (cmp a b = N.compare (Byte.to_N a) (Byte.to_N b)) as ->.
  { unfold cmp, byte_ord, ord_by, cmp, Z_ord, byte_rank. by rewrite N2Z.inj_compare. }
  assert (N.compare (Byte.to_N a) (Byte.to_N b) =
    N.compare (16 * N.shiftr (Byte.to_N a) 4 + N.land (Byte.to_N a) 15)
              (16 * N.shiftr (Byte.to_N b) 4 + N.land (Byte.to_N b) 15)) as ->.
  { by rewrite <- Ha, <- Hb. }
  clear Ha Hb. revert Ha1 Ha2 Hb1 Hb2. generalize (N.shiftr (Byte.to_N a) 4), (N.land (Byte.to_N a) 15),
    (N.shiftr (Byte.to_N b) 4), (N.land (Byte.to_N b) 15). intros h1 l1 h2 l2 ????.
  destruct (N.compare_spec h1 h2), (N.compare_spec l1 l2),
    (N.compare_spec (16 * h1 + l1) (16 * h2 + l2)); simpl; try done; lia.
Qed.

Lemma encode_payload_cmp xs ys :
  list_cmp (flat_map encode_byte xs) (flat_map encode_byte ys) = list_cmp xs ys.
Proof.
  revert ys. induction xs as [|a xs IH]; intros [|b ys]; try done.
  change (list_cmp (encode_byte a ++ flat_map encode_byte xs)
    (encode_byte b ++ flat_map encode_byte ys) = then_with (cmp a b) (list_cmp xs ys)).
  by rewrite encode_byte_cmp, IH.
Qed.

Lemma prefix_cmp p xs ys : list_cmp (p ++ xs) (p ++ ys) = list_cmp xs ys.
Proof. induction p as [|b p IH]; simpl; [done|]. by rewrite cmp_refl. Qed.

(** ** The codec *)

Lemma length_flat_map_encode bs : length (flat_map encode_byte bs) = (2 * length bs)%nat.
Proof. induction bs as [|b bs IH]; [done|]. cbn [flat_map]. rewrite length_app, IH. simpl. lia. Qed.

Lemma decode_encode_payload bs : decode_pairs (flat_map encode_byte bs) = Ok bs.
Proof.
  induction bs as [|b bs IH]; [done|].
  destruct (decode_encode_byte b) as (h & l & Hb & Hn). cbn [flat_map]. rewrite Hb. simpl.
  destruct (decode_nibble h), (decode_nibble l); try done. simpl.
  rewrite IH. simpl. by rewrite Hn.
Qed.

Lemma pair_ind {A} (P : list A → Prop) :
  P [] → (∀ x, P [x]) → (∀ x y l, P l → P (x :: y :: l)) → ∀ l, P l.
Proof.
  intros H0 H1 H2. assert (∀ l, P l ∧ ∀ x, P (x :: l)) as H; [|intros l; apply H].
  induction l as [|y l [IH1 IH2]]; split; auto.
Qed.

Lemma encode_decode_payload payload bs :
  Nat.even (length payload) = true → decode_pairs payload = Ok bs →
  flat_map encode_byte bs = payload.
Proof.
  revert bs. induction payload as [|x|h l payload IH] using pair_ind; intros bs Hev Hd.
  - by injection Hd as <-.
  - done.
  - simpl in Hd. inv_ok. cbn [flat_map]. rewrite (encode_join_nibbles h l) by done.
    simpl. do 2 f_equal. by apply IH.
Qed.

Lemma strip_prefix_app p xs : strip_prefix p (p ++ xs) = Some xs.
Proof. induction p as [|b p IH]; [done|]. simpl. by rewrite bool_decide_true. Qed.

Lemma encode_Ok p limit t :
  encode p limit = Ok t ↔
  t = {| encoded := PREFIX ++ flat_map encode_byte (path_bytes p);
         encoded_byte_count := 7 + 2 * Z.of_nat (length (path_bytes p)) |} ∧
  7 + 2 * Z.of_nat (length (path_bytes p)) ≤ Z.min limit u64_max.
Proof.
  unfold encode, encoded_length, enforce_encoded_limit, u64_checked_add, u64_checked_mul.
  change (Z.of_nat (length PREFIX)) with 7. split.
  - intros H. inv_ok. split; [|lia]. do 2 f_equal; lia.
  - intros [-> H]. rewrite checked_in by lia. simpl. rewrite checked_in by lia. simpl.
    unfold reject_if. rewrite (proj2 (Z.ltb_ge _ _)) by lia. simpl. do 2 f_equal; lia.
Qed.

(** What an accepted text is: the tag followed by the Base16 of an accepted path. *)
Lemma decode_Ok text encoded_limit limits p :
  decode text encoded_limit limits = Ok p →
  text = PREFIX ++ flat_map encode_byte (path_bytes p) ∧
  Z.of_nat (length text) ≤ Z.min encoded_limit u64_max ∧
  try_from_bytes (path_bytes p) limits = Ok p.
Proof.
  unfold decode, text_byte_count, enforce_encoded_limit, map_err, u64_of_len. intros H. inv_ok.
  fwd (proj1 (strip_prefix_Some _ _ _)) as ->.
  match goal with H : try_from_vec ?bs _ = Ok _ |- _ =>
    pose proof (try_from_bytes_wf _ _ _ H) as (_ & Hb & _) end.
  match goal with H : decode_pairs _ = Ok _ |- _ => apply encode_decode_payload in H as Hp end.
  2: { by apply negb_false_iff. }
  subst. split; [done|]. split; [lia|]. done.
Qed.

Lemma decode_complete p encoded_limit limits :
  try_from_bytes (path_bytes p) limits = Ok p →
  7 + 2 * Z.of_nat (length (path_bytes p)) ≤ Z.min encoded_limit u64_max →
  decode (PREFIX ++ flat_map encode_byte (path_bytes p)) encoded_limit limits = Ok p.
Proof.
  intros Hp Hl. pose proof (try_from_bytes_wf _ _ _ Hp) as ([Hwf _ _ _] & _ & [Hb _]).
  unfold decode, text_byte_count, enforce_encoded_limit, u64_of_len.
  rewrite length_app, length_flat_map_encode. change (length PREFIX) with 7%nat.
  rewrite checked_in by lia. rstep.
  rewrite (proj2 (Z.ltb_ge _ _)) by lia. rstep.
  rewrite strip_prefix_app. rstep. rewrite length_flat_map_encode.
  rewrite bool_decide_false; rstep.
  2: { intros Hnil%(f_equal length). rewrite length_flat_map_encode in Hnil. simpl in Hnil.
       unfold components in Hwf. destruct (path_bytes p); [|simpl in Hnil; lia].
       simpl in Hwf. inversion_clear Hwf as [|? ? [Hne _] _]. done. }
  replace (Nat.even (2 * length (path_bytes p))) with true
    by (symmetry; apply Nat.even_spec; by eexists). rstep.
  replace ((2 * length (path_bytes p)) `div` 2)%nat with (length (path_bytes p))
    by (symmetry; rewrite Nat.mul_comm; by apply Nat.div_mul).
  rewrite checked_in by lia. rstep.
  rewrite (proj2 (Z.ltb_ge _ _)) by lia. rstep.
  rewrite decode_encode_payload. rstep. by rewrite try_from_vec_bytes, Hp.
Qed.

(** ** Properties *)

(** A path that fits the bounds encodes, and the encoded scalar decodes to the very
    same path under any limits the path was admitted with. *)
Theorem decode_encode p limit limits t :
  try_from_bytes (path_bytes p) limits = Ok p → encode p limit = Ok t →
  decode (encoded t) limit limits = Ok p ∧
  encoded_byte_count t = Z.of_nat (length (encoded t)).
Proof.
  intros Hp [-> Hl]%encode_Ok. split; [by apply decode_complete|].
  cbn [encoded encoded_byte_count]. rewrite length_app, length_flat_map_encode.
  change (length PREFIX) with 7%nat. lia.
Qed.

(** The scalar is canonical: a text that decodes is exactly the encoding of the path
    it decodes to, so lowercase digits, other tags and re-encodings are all refused. *)
Theorem encode_decode text limit limits p :
  decode text limit limits = Ok p →
  ∃ t, encode p limit = Ok t ∧ encoded t = text ∧ wf p.
Proof.
  intros (Ht & Hl & Hp)%decode_Ok. eexists. split; [|split].
  - apply encode_Ok. split; [done|]. rewrite Ht, length_app, length_flat_map_encode in Hl.
    change (length PREFIX) with 7%nat in Hl. lia.
  - done.
  - by eapply try_from_bytes_wf.
Qed.

(** Scalars sort as the paths do: comparing two encodings bytewise gives the
    repository order of the paths, and in particular equal scalars mean equal paths. *)
Theorem encode_order p q limit tp tq :
  encode p limit = Ok tp → encode q limit = Ok tq →
  cmp (encoded tp) (encoded tq) = path_cmp p q.
Proof.
  intros [-> _]%encode_Ok [-> _]%encode_Ok. cbn [encoded]. unfold path_cmp, cmp, list_ord.
  rewrite (prefix_cmp PREFIX). apply encode_payload_cmp.
Qed.

(** ** Witnesses *)

Definition example_path : RepositoryPath :=
  {| path_bytes := b_of "src/lib.rs"; byte_count := 10; component_count := 2 |}.
Definition example_text : RepositoryPathTextV1 :=
  {| encoded := b_of "rwp1:h:7372632F6C69622E7273"; encoded_byte_count := 27 |}.

Lemma decode_encode_witness :
  decode (encoded example_text) 64 example_limits = Ok example_path ∧ 27 = 27.
Proof. apply (decode_encode example_path 64 example_limits example_text); reflexivity. Defined.

Lemma encode_decode_witness :
  ∃ t, encode example_path 64 = Ok t ∧ encoded t = b_of "rwp1:h:7372632F6C69622E7273" ∧ wf example_path.
Proof. apply (encode_decode (b_of "rwp1:h:7372632F6C69622E7273") 64 example_limits). reflexivity. Defined.

Lemma encode_order_witness :
  cmp (b_of "rwp1:h:7372632F6C69622E7273") (b_of "rwp1:h:7372632F6C69622E7274") = Lt.
Proof.
  apply (encode_order example_path
    {| path_bytes := b_of "src/lib.rt"; byte_count := 10; component_count := 2 |} 64 example_text
    {| encoded := b_of "rwp1:h:7372632F6C69622E7274"; encoded_byte_count := 27 |}); reflexivity.
Defined.
