(* ===== verification/SourceManifest.v ===== *)
(** * Source manifests

    Models [crates/repowitness-domain/src/snapshot.rs]: the canonical, bounded,
    duplicate-free manifest of source files, generic in the path, file-kind and digest
    types as the source is. *)

From Stdlib Require Import ZArith Lia ZifyBool.
From stdpp Require Import base numbers sorting list.
From S2P Require Import Prelude Ordering.

Open Scope Z_scope.

(** ** Data *)

Inductive SourceFileKind := Regular | SymbolicLink | Gitlink | Other.

#[export] Instance SourceFileKind_eq_dec : EqDecision SourceFileKind.
Proof. solve_decision. Defined.

Definition canonical_tag (k : SourceFileKind) : Z :=
  match k with Regular => 1 | SymbolicLink => 2 | Gitlink => 3 | Other => 4 end.

Inductive SourceManifestError :=
| CountNotRepresentable
| LimitExceeded (actual limit : Z)
| DuplicateNormalizedPath.

#[export] Instance SourceManifestError_eq_dec : EqDecision SourceManifestError.
Proof. solve_decision. Defined.

Record SourceManifestEntry (P K D : Type) := {
  path : P;
  file_type : K;
  content_digest : D;
}.
Arguments path {P K D} _.
Arguments file_type {P K D} _.
Arguments content_digest {P K D} _.

#[export] Instance entry_eq_dec {P K D} `{EqDecision P, EqDecision K, EqDecision D} :
  EqDecision (SourceManifestEntry P K D).
Proof. solve_decision. Defined.

Record SourceManifest (P K D : Type) := {
  entries : list (SourceManifestEntry P K D);
  count : Z;
  limit : Z;
}.
Arguments entries {P K D} _.
Arguments count {P K D} _.
Arguments limit {P K D} _.

(** The non-file inputs of a snapshot, and the snapshot itself. *)
Record SourceSnapshotMetadata (R G W C A : Type) := {
  repository : R;
  git_identity : G;
  worktree_identity : W;
  configuration_identity : C;
  producer_manifest : A;
}.

Record SourceSnapshot (R G W C A P K D : Type) := {
  metadata : SourceSnapshotMetadata R G W C A;
  manifest : SourceManifest P K D;
}.

Section manifest.
Context {P K D : Type} `{RustOrdLaws P}.

Notation Entry := (SourceManifestEntry P K D).
Notation Manifest := (SourceManifest P K D).

Definition compare_paths (l r : Entry) : comparison := cmp (path l) (path r).

#[export] Instance compare_paths_comparator : Comparator compare_paths.
Proof. exact (comparator_by path). Qed.

(** [entries.windows(2).any(|pair| ...)]. *)
Fixpoint windows2_any (p : Entry → Entry → bool) (es : list Entry) : bool :=
  match es with
  | e1 :: ((e2 :: _) as tl) => p e1 e2 || windows2_any p tl
  | _ => false
  end.

Definition same_path (l r : Entry) : bool :=
  match cmp (path l) (path r) with Eq => true | _ => false end.

Definition try_from_vec (es : list Entry) (lim : Z) : result SourceManifestError Manifest :=
  n ← ok_or (u64_of_len (length es)) CountNotRepresentable;
  reject_if (lim <? n) (LimitExceeded n lim);;
  let sorted := sort_by compare_paths es in
  reject_if (windows2_any same_path sorted) DuplicateNormalizedPath;;
  Ok {| entries := sorted; count := n; limit := lim |}.

Definition is_empty (m : Manifest) : bool := count m =? 0.

(** ** The invariant *)

Definition paths_increasing (es : list Entry) : Prop := keys_increasing path es.

Record manifest_wf (m : Manifest) : Prop := {
  mwf_sorted : paths_increasing (entries m);
  mwf_count : count m = Z.of_nat (length (entries m));
  mwf_limit : count m ≤ limit m;
  mwf_u64 : in_u64 (count m);
}.

(** ** Lemmas *)

Lemma paths_increasing_cons (e : Entry) es :
  paths_increasing (e :: es) ↔
  paths_increasing es ∧ ∀ e', e' ∈ es → cmp (path e) (path e') = Lt.
Proof. apply keys_increasing_cons. Qed.

Lemma paths_increasing_NoDup es : paths_increasing es → NoDup (map path es).
Proof. apply bset_wf_NoDup. Qed.

(** In a strictly increasing list a path has one entry. *)
Lemma paths_increasing_inj (es : list Entry) e e' :
  paths_increasing es → e ∈ es → e' ∈ es → path e = path e' → e = e'.
Proof. apply keys_increasing_inj. Qed.

Lemma sorted_increasing es :
  StronglySorted (cle compare_paths) es →
  windows2_any same_path es = false ↔ paths_increasing es.
Proof.
  induction 1 as [|e es Hs IH Hall]; [split; [constructor|done]|].
  rewrite paths_increasing_cons. destruct es as [|e' es].
  { split; [|done]. intros _. split; [constructor|]. by intros e' ?%elem_of_nil. }
  cbn [windows2_any]. rewrite orb_false_iff, IH.
  rewrite Forall_forall in Hall. split.
  - intros [Hne Hinc]. split; [done|]. intros e2 He2. pose proof (Hall _ He2) as Hle.
    unfold cle, compare_paths in Hle.
    assert (cmp (path e) (path e') = Lt) as Hlt.
    { pose proof (Hall e' (list_elem_of_here _ _)) as Hle'. unfold cle, compare_paths in Hle'.
      unfold same_path in Hne. by destruct (cmp (path e) (path e')). }
    apply elem_of_cons in He2 as [->|He2]; [done|].
    apply paths_increasing_cons in Hinc as [_ Hinc]. eapply cmp_trans; [done|]. by apply Hinc.
  - intros [Hinc Hlt]. split; [|done]. unfold same_path.
    by rewrite (Hlt e' (list_elem_of_here _ _)).
Qed.

Lemma try_from_vec_Ok es lim m :
  try_from_vec es lim = Ok m ↔
  manifest_wf m ∧ limit m = lim ∧ entries m ≡ₚ es.
Proof.
  unfold try_from_vec. split.
  - intros Hm. unfold u64_of_len in Hm. inv_ok. split; [|split; [done|apply sort_by_perm]].
    split; simpl; rewrite ?length_sort_by; try (unfold in_u64; lia).
    apply sorted_increasing; [apply sort_by_sorted, _|done].
  - intros ([Hs Hc Hl Hu] & <- & Hp). unfold in_u64 in Hu.
    pose proof (keys_increasing_sort path _ _ Hs Hp) as Hsort.
    change (sort_by compare_paths es = entries m) in Hsort.
    unfold u64_of_len. rewrite <- Hp, checked_in by lia. rstep.
    rewrite (proj2 (Z.ltb_ge _ _)) by lia. rstep. rewrite Hsort.
    rewrite (proj2 (sorted_increasing (entries m) ltac:(rewrite <- Hsort; apply sort_by_sorted, _))) by done.
    rstep. rewrite <- Hc. by destruct m.
Qed.

(** ** Properties *)

(** [SourceManifest::try_from_vec] succeeds exactly on in-bounds inputs without two
    entries for one path, and its result is the path-sorted, duplicate-free permutation
    of the input with the exact count. *)
Theorem manifest_try_from_vec_spec (es : list Entry) lim :
  (∀ m, try_from_vec es lim = Ok m ↔ manifest_wf m ∧ limit m = lim ∧ entries m ≡ₚ es) ∧
  ((∃ m, try_from_vec es lim = Ok m) ↔
   NoDup (map path es) ∧ Z.of_nat (length es) ≤ lim ∧ Z.of_nat (length es) ≤ u64_max).
Proof.
  split; [apply try_from_vec_Ok|]. split.
  - intros [m Hm]. apply try_from_vec_Ok in Hm as ([Hs Hc Hl [_ Hu]] & <- & Hp).
    rewrite <- Hp. split; [by apply paths_increasing_NoDup|]. lia.
  - intros (Hnd & Hl & Hu). exists {| entries := sort_by compare_paths es;
      count := Z.of_nat (length es); limit := lim |}.
    apply try_from_vec_Ok. split; [|split; [done|apply sort_by_perm]].
    split; simpl; rewrite ?length_sort_by; try done; [|unfold in_u64; lia].
    apply sorted_increasing; [apply sort_by_sorted, _|].
    assert (NoDup (map path (sort_by compare_paths es))) as Hnd' by by rewrite sort_by_perm.
    clear -Hnd' H0. induction (sort_by compare_paths es) as [|e [|e' es'] IH]; [done..|].
    change (same_path e e' || windows2_any same_path (e' :: es') = false).
    rewrite IH by (by inversion Hnd'). rewrite orb_false_r.
    unfold same_path. destruct (cmp (path e) (path e')) eqn:E; [|done..].
    apply cmp_eq in E. simpl in Hnd'. rewrite E in Hnd'.
    apply NoDup_cons in Hnd' as [Hn _]. exfalso. apply Hn. by left.
Qed.

(** The manifest is canonical: the order in which entries are supplied never
    matters (so neither does the instability of the sort), for success and for every
    error. *)
Theorem manifest_order_independent (es1 es2 : list Entry) lim :
  es1 ≡ₚ es2 → try_from_vec es1 lim = try_from_vec es2 lim.
Proof.
  intros Hp. destruct (try_from_vec es1 lim) as [m1|e1] eqn:E1.
  - symmetry. apply try_from_vec_Ok. rewrite <- Hp. by apply try_from_vec_Ok.
  - destruct (try_from_vec es2 lim) as [m2|e2] eqn:E2.
    { apply try_from_vec_Ok in E2. rewrite <- Hp, <- try_from_vec_Ok in E2. congruence. }
    unfold try_from_vec in E1, E2. rewrite <- Hp in E2.
    destruct (u64_of_len (length es1)); simpl in *; [|congruence].
    destruct (lim <? z); simpl in *; [congruence|].
    destruct (windows2_any _ (sort_by _ es1)), (windows2_any _ (sort_by _ es2));
      simpl in *; congruence.
Qed.
End manifest.

Lemma manifest_order_independent_witness :
  let e p := {| path := p; file_type := Regular; content_digest := 7 |} in
  try_from_vec [e 3; e 1; e 2] 4 = try_from_vec [e 1; e 2; e 3] 4.
Proof.
  intros e. apply (manifest_order_independent [e 3; e 1; e 2] [e 1; e 2; e 3] 4).
  change ([e 3] ++ [e 1; e 2] ≡ₚ [e 1; e 2] ++ [e 3]). apply Permutation_app_comm.
Defined.

Lemma manifest_try_from_vec_spec_witness :
  let e p := {| path := p; file_type := Regular; content_digest := 7 |} in
  (∃ m, try_from_vec [e 3; e 1; e 2] 4 = Ok m) ↔
  NoDup (map path [e 3; e 1; e 2]) ∧ Z.of_nat 3 ≤ 4 ∧ Z.of_nat 3 ≤ u64_max.
Proof. intros e. apply (manifest_try_from_vec_spec [e 3; e 1; e 2] 4). Defined.
