(* ===== verification/Reconciliation.v ===== *)
(** * Manifest reconciliation

    Models [crates/repowitness-analysis/src/reconciliation.rs]: the bounded merge of a
    previous and a current manifest into path-ordered changes, with watcher hints as
    diagnostic metadata only, under a cooperative control. *)

From Stdlib Require Import ZArith Lia ZifyBool.
From stdpp Require Import base numbers sorting list.
From S2P Require Import Prelude Ordering SourceManifest.

Open Scope Z_scope.

(** ** Data *)

Definition DEFAULT_RECONCILIATION_CHANGES : Z := 200000.
Definition DEFAULT_RECONCILIATION_HINTS : Z := 200000.
Definition MAX_RECONCILIATION_CHANGES : Z := 1000000.
Definition MAX_RECONCILIATION_HINTS : Z := 1000000.

Inductive ManifestReconciliationError :=
| ChangeLimitTooLarge
| HintLimitTooLarge
| HintLimitExceeded
| ChangeLimitExceeded
| CountNotRepresentable
| Cancelled
| DeadlineExceeded.

#[export] Instance ManifestReconciliationError_eq_dec : EqDecision ManifestReconciliationError.
Proof. solve_decision. Defined.

Record ManifestReconciliationLimits := {
  max_changes : Z;
  max_hints : Z;
}.

Definition limits_new (changes hints : Z)
    : result ManifestReconciliationError ManifestReconciliationLimits :=
  reject_if (MAX_RECONCILIATION_CHANGES <? changes) ChangeLimitTooLarge;;
  reject_if (MAX_RECONCILIATION_HINTS <? hints) HintLimitTooLarge;;
  Ok {| max_changes := changes; max_hints := hints |}.

Definition limits_default : ManifestReconciliationLimits :=
  {| max_changes := DEFAULT_RECONCILIATION_CHANGES; max_hints := DEFAULT_RECONCILIATION_HINTS |}.

Inductive ManifestChangeKind := KindAdded | KindRemoved | KindChanged.

Inductive ManifestChange (P K D : Type) :=
| Added (entry : SourceManifestEntry P K D)
| Removed (entry : SourceManifestEntry P K D)
| Changed (previous current : SourceManifestEntry P K D).
Arguments Added {P K D} entry.
Arguments Removed {P K D} entry.
Arguments Changed {P K D} previous current.

Section change.
Context {P K D : Type}.
Implicit Types c : ManifestChange P K D.

Definition change_kind c : ManifestChangeKind :=
  match c with Added _ => KindAdded | Removed _ => KindRemoved | Changed _ _ => KindChanged end.

Definition change_path c : P :=
  match c with Added e | Removed e => path e | Changed _ e => path e end.

Definition change_previous c : option (SourceManifestEntry P K D) :=
  match c with Added _ => None | Removed e | Changed e _ => Some e end.

Definition change_current c : option (SourceManifestEntry P K D) :=
  match c with Removed _ => None | Added e | Changed _ e => Some e end.
End change.

Record ManifestReconciliation (P K D : Type) := {
  changes : list (ManifestChange P K D);
  unchanged : Z;
  received_hints : Z;
  unique_hints : Z;
  unmatched_hints : Z;
}.
Arguments changes {P K D} _.
Arguments unchanged {P K D} _.
Arguments received_hints {P K D} _.
Arguments unique_hints {P K D} _.
Arguments unmatched_hints {P K D} _.

Record ReconciliationBuilder (P K D : Type) := {
  builder_changes : list (ManifestChange P K D);
  builder_unchanged : Z;
  builder_max_changes : Z;
}.
Arguments builder_changes {P K D} _.
Arguments builder_unchanged {P K D} _.
Arguments builder_max_changes {P K D} _.
Arguments Build_ReconciliationBuilder {P K D} _ _ _.

(** ** Operations *)

Definition fixed_count (length : nat) : result ManifestReconciliationError Z :=
  ok_or (u64_of_len length) CountNotRepresentable.

Section reconcile.
Context {P K D : Type} `{RustOrdLaws P, EqDecision K, EqDecision D}.

Notation Entry := (SourceManifestEntry P K D).
Notation Manifest := (SourceManifest P K D).
Notation Change := (ManifestChange P K D).
Notation Builder := (ReconciliationBuilder P K D).
Notation Error := ManifestReconciliationError.

Definition builder_new (max : Z) : Builder := Build_ReconciliationBuilder [] 0 max.

Definition push (b : Builder) (c : Change) : result Error Builder :=
  n ← fixed_count (length (builder_changes b));
  reject_if (builder_max_changes b <=? n) ChangeLimitExceeded;;
  Ok (Build_ReconciliationBuilder (builder_changes b ++ [c]) (builder_unchanged b)
        (builder_max_changes b)).

Definition mark_unchanged (b : Builder) : result Error Builder :=
  n ← ok_or (u64_checked_add (builder_unchanged b) 1) CountNotRepresentable;
  Ok (Build_ReconciliationBuilder (builder_changes b) n (builder_max_changes b)).

Definition reconcile_equal_path (b : Builder) (prev cur : Entry) : result Error Builder :=
  if bool_decide (file_type prev = file_type cur)
     && bool_decide (content_digest prev = content_digest cur)
  then mark_unchanged b
  else push b (Changed prev cur).

Definition append_remaining (make_change : Entry → Change) (b : Builder) (es : list Entry)
    : ctl Error Builder :=
  ctl_fold (λ b e, b ← lift (push b (make_change e)); check;; mret b) b es.

(** The [while] loop over the two indices; the lists are the slices from the indices on,
    and the loop returns what is left of both. *)
Fixpoint merge_loop (prev : list Entry)
    : Builder → list Entry → ctl Error (Builder * (list Entry * list Entry)) :=
  fix inner (b : Builder) (cur : list Entry) {struct cur} :=
    match prev, cur with
    | p :: prev', c :: cur' =>
        match cmp (path p) (path c) with
        | Lt => b' ← lift (push b (Removed p)); check;; merge_loop prev' b' cur
        | Gt => b' ← lift (push b (Added c)); check;; inner b' cur'
        | Eq => b' ← lift (reconcile_equal_path b p c); check;; merge_loop prev' b' cur'
        end
    | _, _ => mret (b, (prev, cur))
    end.

Definition reconcile_entries (prev cur : list Entry) (b : Builder) : ctl Error Builder :=
  '(b, (prev_rest, cur_rest)) ← merge_loop prev b cur;
  b ← append_remaining Removed b prev_rest;
  append_remaining Added b cur_rest.

(** [binary_search_by(..).is_ok()] on a path-sorted slice. *)
Definition contains_path (m : Manifest) (p : P) : bool :=
  existsb (λ e, match cmp (path e) p with Eq => true | _ => false end) (entries m).

Definition collect_unique_hints (hints : list P) : ctl Error (list P) :=
  ctl_fold (λ unique hint, check;; mret (bset_insert hint unique)) [] hints.

Definition count_unmatched_hints (hints : list P) (prev cur : Manifest) : ctl Error Z :=
  ctl_fold (λ unmatched hint,
    unmatched ← lift (if negb (contains_path prev hint) && negb (contains_path cur hint)
                      then ok_or (u64_checked_add unmatched 1) CountNotRepresentable
                      else Ok unmatched);
    check;; mret unmatched) 0 hints.

Definition reconcile_source_manifests (prev cur : Manifest) (hints : list P)
    (limits : ManifestReconciliationLimits) : ctl Error (ManifestReconciliation P K D) :=
  check;;
  received ← lift (fixed_count (length hints));
  lift (reject_if (max_hints limits <? received) HintLimitExceeded);;
  unique ← collect_unique_hints hints;
  unmatched ← count_unmatched_hints unique prev cur;
  b ← reconcile_entries (entries prev) (entries cur) (builder_new (max_changes limits));
  unique_count ← lift (fixed_count (length unique));
  mret {| changes := builder_changes b; unchanged := builder_unchanged b;
          received_hints := received; unique_hints := unique_count;
          unmatched_hints := unmatched |}.

(** ** Reference definition

    What a reconciliation means, without the merge: the removed, changed and added
    entries are read off the two entry lists by path lookup. *)

Definition find_path (p : P) (es : list Entry) : option Entry :=
  find (λ e, match cmp (path e) p with Eq => true | _ => false end) es.

Definition same_content (e1 e2 : Entry) : bool :=
  bool_decide (file_type e1 = file_type e2) && bool_decide (content_digest e1 = content_digest e2).

(** The change a path of [prev] gives rise to, and the one a path of [cur] does. *)
Definition old_change (cur : list Entry) (p : Entry) : option Change :=
  match find_path (path p) cur with
  | None => Some (Removed p)
  | Some c => if same_content p c then None else Some (Changed p c)
  end.
Definition new_change (prev : list Entry) (c : Entry) : option Change :=
  match find_path (path c) prev with
  | None => Some (Added c)
  | Some _ => None
  end.

Definition reference_changes (prev cur : list Entry) : list Change :=
  sort_by (λ c1 c2, cmp (change_path c1) (change_path c2))
    (omap (old_change cur) prev ++ omap (new_change prev) cur).

Definition reference_unchanged (prev cur : list Entry) : nat :=
  length (filter (λ p, old_change cur p = None) prev).

(** ** The merge as a list of events

    One event per distinct path: [Some] change, or [None] for an unchanged path. *)

Definition equal_event (p c : Entry) : option Change :=
  if same_content p c then None else Some (Changed p c).

Fixpoint events (prev : list Entry) : list Entry → list (option Change) :=
  fix inner (cur : list Entry) {struct cur} :=
    match prev, cur with
    | [], _ => map (λ c, Some (Added c)) cur
    | _, [] => map (λ p, Some (Removed p)) prev
    | p :: prev', c :: cur' =>
        match cmp (path p) (path c) with
        | Lt => Some (Removed p) :: events prev' cur
        | Gt => Some (Added c) :: inner cur'
        | Eq => equal_event p c :: events prev' cur'
        end
    end.

Definition apply_event (b : Builder) (ev : option Change) : result Error Builder :=
  match ev with Some c => push b c | None => mark_unchanged b end.

Lemma reconcile_equal_path_event b p c :
  reconcile_equal_path b p c = apply_event b (equal_event p c).
Proof. unfold reconcile_equal_path, equal_event, same_content. by destruct (_ && _). Qed.

Lemma steady_append make b es : steady (append_remaining make b es).
Proof. unfold append_remaining. solve_steady. Qed.

Lemma evals_append make b es :
  evals (append_remaining make b es) (try_fold apply_event b (map (λ e, Some (make e)) es)).
Proof.
  unfold append_remaining. revert b. induction es as [|e es IH]; intros b; [done|].
  simpl. apply (evals_mbind _ _ (push b (make e))); [|done].
  destruct (push b (make e)) as [b'|]; [|done]. done.
Qed.

Lemma steady_merge prev b cur : steady (merge_loop prev b cur).
Proof.
  revert b cur. induction prev as [|p prev IH]; intros b cur; [destruct cur; apply steady_ret|].
  revert b. induction cur as [|c cur IHc]; intros b; [apply steady_ret|]. simpl.
  destruct (cmp (path p) (path c)); solve_steady.
Qed.

Lemma steady_reconcile_entries prev cur b : steady (reconcile_entries prev cur b).
Proof.
  unfold reconcile_entries. apply steady_bind; [apply steady_merge|]. intros [b' [pr cr]].
  apply steady_bind; [apply steady_append|]. intros. apply steady_append.
Qed.

(** The two-index loop with its trailing appends folds the events, in order. *)
Lemma evals_reconcile_entries prev cur b :
  evals (reconcile_entries prev cur b) (try_fold apply_event b (events prev cur)).
Proof.
  unfold reconcile_entries. revert b cur.
  induction prev as [|p prev IH]; intros b cur.
  { destruct cur as [|c cur]; [done|].
    eapply evals_bind; [done|]. eapply evals_bind; [done|]. apply evals_append. }
  revert b. induction cur as [|c cur IHc]; intros b.
  { eapply evals_bind; [done|].
    assert (∀ r : result Error Builder, (r ≫= λ b, Ok b) = r) as Hr by by intros [].
    rewrite <- Hr. apply evals_mbind; [apply evals_append|done]. }
  cbn [merge_loop events]. destruct (cmp (path p) (path c)).
  - rewrite reconcile_equal_path_event. apply evals_assoc.
    cbn [try_fold]. apply evals_mbind; [apply evals_lift|]. intros b'.
    apply evals_assoc. eapply evals_bind; [apply evals_check|]. apply IH.
  - change (push b (Removed p)) with (apply_event b (Some (Removed p))).
    apply evals_assoc. cbn [try_fold]. apply evals_mbind; [apply evals_lift|]. intros b'.
    apply evals_assoc. eapply evals_bind; [apply evals_check|]. apply IH.
  - change (push b (Added c)) with (apply_event b (Some (Added c))).
    apply evals_assoc. cbn [try_fold]. apply evals_mbind; [apply evals_lift|]. intros b'.
    apply evals_assoc. eapply evals_bind; [apply evals_check|]. apply IHc.
Qed.

(** *** Folding the events into the builder *)

Definition none_count (evs : list (option Change)) : nat :=
  length (filter (λ ev, ev = None) evs).

Lemma fold_events b evs :
  Z.of_nat (length (builder_changes b)) ≤ builder_max_changes b ≤ u64_max →
  0 ≤ builder_unchanged b → builder_unchanged b + Z.of_nat (none_count evs) ≤ u64_max →
  try_fold apply_event b evs =
  if Z.of_nat (length (builder_changes b) + length (omap id evs)) <=? builder_max_changes b
  then Ok (Build_ReconciliationBuilder (builder_changes b ++ omap id evs)
             (builder_unchanged b + Z.of_nat (none_count evs)) (builder_max_changes b))
  else Err ChangeLimitExceeded.
Proof.
  revert b. induction evs as [|[c|] evs IH]; intros [cs u mx]; simpl; intros Hl Hu Hm.
  - rewrite app_nil_r, (proj2 (Z.leb_le _ _)) by lia. do 2 f_equal. unfold none_count. simpl. lia.
  - unfold push, fixed_count, u64_of_len. simpl. rewrite checked_in by lia. rstep.
    destruct (mx <=? Z.of_nat (length cs)) eqn:E; rstep.
    + by rewrite (proj2 (Z.leb_gt _ _)) by lia.
    + rewrite IH; simpl; rewrite ?length_app; simpl; [|lia|done|done].
      change (none_count (Some c :: evs)) with (none_count evs).
      rewrite <- app_assoc. by replace (length cs + 1 + length (omap id evs))%nat
        with (length cs + S (length (omap id evs)))%nat by lia.
  - change (none_count (None :: evs)) with (S (none_count evs)) in *.
    unfold mark_unchanged, u64_checked_add. simpl. rewrite checked_in by lia. rstep.
    rewrite IH by (simpl; lia). simpl. destruct (_ <=? _); [|done]. do 2 f_equal. lia.
Qed.

(** *** The events and the reference changes *)

Lemma list_filter_iff_in {A} (Q R : A → Prop) `{∀ x, Decision (Q x), ∀ x, Decision (R x)}
    (l : list A) : (∀ x, x ∈ l → Q x ↔ R x) → filter Q l = filter R l.
Proof.
  induction l as [|x l IH]; intros Hqr; [done|]. rewrite !filter_cons.
  rewrite IH by (intros y Hy; apply Hqr; by right).
  pose proof (Hqr x (list_elem_of_here _ _)). repeat case_decide; naive_solver.
Qed.

Lemma find_path_ne p e es : path e ≠ p → find_path p (e :: es) = find_path p es.
Proof.
  intros Hne. unfold find_path. simpl. destruct (cmp (path e) p) eqn:E; [|done..].
  by apply cmp_eq in E.
Qed.
Lemma find_path_eq p e es : path e = p → find_path p (e :: es) = Some e.
Proof. intros Heq. unfold find_path. simpl. by rewrite (proj2 (cmp_eq _ _) Heq). Qed.

Lemma find_path_None p es : (∀ e, e ∈ es → path e ≠ p) ↔ find_path p es = None.
Proof.
  induction es as [|e es IH]; [split; [done|]; by intros _ e ?%elem_of_nil|].
  destruct (decide (path e = p)) as [Heq|Hne].
  - rewrite find_path_eq by done. split; [|done]. intros Hn. destruct (Hn e); [by left|done].
  - rewrite find_path_ne by done. rewrite <- IH. split; intros Hn e' He'.
    + apply Hn. by right.
    + apply elem_of_cons in He' as [->|?]; auto.
Qed.

Lemma find_path_Some p es e : find_path p es = Some e → e ∈ es ∧ path e = p.
Proof.
  induction es as [|x es IH]; [done|]. destruct (decide (path x = p)) as [Heq|Hne].
  - rewrite find_path_eq by done. intros [= ->]. split; [by left|done].
  - rewrite find_path_ne by done. intros [? ?]%IH. split; [by right|done].
Qed.

Lemma find_path_elem es e : paths_increasing es → e ∈ es → find_path (path e) es = Some e.
Proof.
  intros Hs He. destruct (find_path (path e) es) as [e'|] eqn:E.
  - apply find_path_Some in E as [He' Hp]. f_equal. by eapply paths_increasing_inj.
  - by apply (proj2 (find_path_None _ _)) with (e := e) in E.
Qed.

Lemma omap_ext_in {A B} (f g : A → option B) (l : list A) :
  (∀ x, x ∈ l → f x = g x) → omap f l = omap g l.
Proof.
  induction l as [|x l IH]; intros Hfg; [done|]. csimpl.
  rewrite (Hfg x), IH; [done| |by left]. intros y Hy. apply Hfg. by right.
Qed.

Lemma old_change_skip c cur p : path c ≠ path p → old_change (c :: cur) p = old_change cur p.
Proof. intros Hne. unfold old_change. by rewrite find_path_ne. Qed.
Lemma new_change_skip p prev c : path p ≠ path c → new_change (p :: prev) c = new_change prev c.
Proof. intros Hne. unfold new_change. by rewrite find_path_ne. Qed.

Lemma increasing_head_ne (e : Entry) es : paths_increasing (e :: es) → ∀ e', e' ∈ es → path e ≠ path e'.
Proof. intros [_ Hlt]%paths_increasing_cons e' He'. by apply cmp_ne, Hlt. Qed.

Lemma increasing_below (e : Entry) es (e' : Entry) :
  paths_increasing es → (∀ x, head es = Some x → cmp (path e') (path x) = Lt) →
  e ∈ es → cmp (path e') (path e) = Lt.
Proof.
  destruct es as [|x es]; [by intros _ _ ?%elem_of_nil|].
  intros [_ Hlt]%paths_increasing_cons Hx [->|He]%elem_of_cons; [by apply Hx|].
  eapply cmp_trans; [by apply Hx|by apply Hlt].
Qed.

Lemma omap_all_Some {A B} (f : A → B) (l : list A) : omap (λ x, Some (f x)) l = map f l.
Proof. induction l as [|x l IH]; csimpl; [done|by rewrite IH]. Qed.
Lemma omap_id_map_Some {A B} (f : A → B) (l : list A) : omap id (map (λ x, Some (f x)) l) = map f l.
Proof. induction l as [|x l IH]; csimpl; [done|by rewrite IH]. Qed.

Lemma events_perm prev cur :
  paths_increasing prev → paths_increasing cur →
  omap id (events prev cur) ≡ₚ omap (old_change cur) prev ++ omap (new_change prev) cur ∧
  none_count (events prev cur) = reference_unchanged prev cur.
Proof.
  revert cur. induction prev as [|p prev IH]; intros cur Hp Hc.
  { destruct cur as [|c cur]; [done|]. cbn [events]. rewrite omap_id_map_Some.
    change (omap (new_change []) (c :: cur)) with (omap (λ c, Some (Added c)) (c :: cur)).
    rewrite omap_all_Some. split; [done|]. unfold none_count, reference_unchanged.
    by rewrite filter_all_false by (rewrite Forall_map; by apply Forall_true). }
  induction cur as [|c cur IHc].
  { cbn [events]. rewrite omap_id_map_Some.
    change (omap (old_change []) (p :: prev)) with (omap (λ p, Some (Removed p)) (p :: prev)).
    rewrite omap_all_Some, app_nil_r. split; [done|]. unfold none_count, reference_unchanged.
    rewrite !filter_all_false; [done| |rewrite Forall_map]; by apply Forall_true. }
  pose proof (increasing_head_ne _ _ Hp) as Hpne. pose proof (increasing_head_ne _ _ Hc) as Hcne.
  pose proof (proj1 (paths_increasing_cons _ _) Hp) as [Hp' Hplt].
  pose proof (proj1 (paths_increasing_cons _ _) Hc) as [Hc' Hclt].
  cbn [events]. destruct (cmp (path p) (path c)) eqn:E.
  - apply cmp_eq in E. destruct (IH cur Hp' Hc') as [IHp IHn].
    assert (old_change (c :: cur) p = equal_event p c) as Hold.
    { unfold old_change, equal_event. by rewrite find_path_eq. }
    assert (new_change (p :: prev) c = None) as Hnew.
    { unfold new_change. by rewrite find_path_eq. }
    assert (omap (old_change (c :: cur)) prev = omap (old_change cur) prev) as Ho.
    { apply omap_ext_in. intros x Hx. apply old_change_skip. rewrite <- E. by apply Hpne. }
    assert (omap (new_change (p :: prev)) cur = omap (new_change prev) cur) as Hn.
    { apply omap_ext_in. intros x Hx. apply new_change_skip. rewrite E. by apply Hcne. }
    split.
    + csimpl. rewrite Hold, Hnew, Ho, Hn. destruct (equal_event p c); by rewrite IHp.
    + unfold none_count, reference_unchanged in *. rewrite !filter_cons, Hold.
      assert (filter (λ x, old_change (c :: cur) x = None) prev
              = filter (λ x, old_change cur x = None) prev) as ->.
      { apply list_filter_iff_in. intros x Hx. rewrite old_change_skip; [done|].
        rewrite <- E. by apply Hpne. }
      destruct (equal_event p c); simpl; by rewrite IHn.
  - assert (∀ x, x ∈ c :: cur → path x ≠ path p) as Hall.
    { intros x Hx. apply not_eq_sym, cmp_ne. eapply increasing_below; [exact Hc| |done].
      by intros y [= <-]. }
    destruct (IH (c :: cur) Hp' Hc) as [IHp IHn].
    assert (old_change (c :: cur) p = Some (Removed p)) as Hold.
    { unfold old_change. by rewrite (proj1 (find_path_None _ _)). }
    assert (omap (new_change (p :: prev)) (c :: cur) = omap (new_change prev) (c :: cur)) as ->.
    { apply omap_ext_in. intros x Hx. apply new_change_skip. by apply not_eq_sym, Hall. }
    split; [csimpl; rewrite Hold; csimpl; by rewrite IHp|].
    unfold none_count, reference_unchanged in *. rewrite !filter_cons, Hold. simpl. by rewrite IHn.
  - assert (∀ x, x ∈ p :: prev → path x ≠ path c) as Hall.
    { intros x Hx. apply not_eq_sym, cmp_ne. eapply increasing_below; [exact Hp| |done].
      intros y [= <-]. by apply cmp_Gt_Lt. }
    destruct (IHc Hc') as [IHp IHn].
    assert (new_change (p :: prev) c = Some (Added c)) as Hnew.
    { unfold new_change. by rewrite (proj1 (find_path_None _ _)). }
    assert (omap (old_change (c :: cur)) (p :: prev) = omap (old_change cur) (p :: prev)) as ->.
    { apply omap_ext_in. intros x Hx. apply old_change_skip. by apply not_eq_sym, Hall. }
    split.
    + change (omap (new_change (p :: prev)) (c :: cur)) with
        (match new_change (p :: prev) c with
         | Some x => x :: omap (new_change (p :: prev)) cur
         | None => omap (new_change (p :: prev)) cur end).
      rewrite Hnew, <- Permutation_middle. csimpl. constructor. exact IHp.
    + unfold none_count, reference_unchanged in *. rewrite filter_cons, decide_False by done.
      change ((fix inner (cur0 : list Entry) := _) cur) with (events (p :: prev) cur).
      rewrite IHn. f_equal. apply list_filter_iff_in. intros x Hx.
      rewrite old_change_skip; [done|]. by apply not_eq_sym, Hall.
Qed.

(** Every change carries the path of one of the entries it was made from. *)
Lemma old_change_path cur p ch : old_change cur p = Some ch → change_path ch = path p.
Proof.
  unfold old_change. destruct (find_path (path p) cur) as [c|] eqn:E; [|by intros [= <-]].
  apply find_path_Some in E as [_ E]. destruct (same_content p c); [done|]. by intros [= <-].
Qed.
Lemma new_change_path prev c ch : new_change prev c = Some ch → change_path ch = path c.
Proof. unfold new_change. destruct (find_path _ _); [done|]. by intros [= <-]. Qed.

Lemma events_path prev cur ch :
  paths_increasing prev → paths_increasing cur → ch ∈ omap id (events prev cur) →
  ∃ e, (e ∈ prev ∨ e ∈ cur) ∧ change_path ch = path e.
Proof.
  intros Hp Hc. rewrite (proj1 (events_perm _ _ Hp Hc)), elem_of_app, !list_elem_of_omap.
  intros [(e & He & Hch)|(e & He & Hch)]; exists e.
  - split; [by left|by eapply old_change_path].
  - split; [by right|by eapply new_change_path].
Qed.

(** A change in front of the events of two lists all of whose paths are larger. *)
Lemma events_cons_increasing (ev : option Change) prev cur q :
  paths_increasing prev → paths_increasing cur →
  keys_increasing change_path (omap id (events prev cur)) →
  (∀ e, e ∈ prev ∨ e ∈ cur → cmp q (path e) = Lt) →
  (∀ ch, ev = Some ch → change_path ch = q) →
  keys_increasing change_path (omap id (ev :: events prev cur)).
Proof.
  intros Hp Hc Hinc Hlt Hev. destruct ev as [ch|]; [|done].
  apply keys_increasing_cons. split; [done|]. intros ch' Hch'.
  destruct (events_path _ _ _ Hp Hc Hch') as (e & He & ->). rewrite (Hev ch) by done. by apply Hlt.
Qed.

Lemma events_increasing prev cur :
  paths_increasing prev → paths_increasing cur →
  keys_increasing change_path (omap id (events prev cur)).
Proof.
  revert cur. induction prev as [|p prev IH]; intros cur Hp Hc.
  { destruct cur as [|c cur]; [constructor|]. cbn [events]. rewrite omap_id_map_Some.
    unfold keys_increasing. by rewrite map_map. }
  induction cur as [|c cur IHc].
  { cbn [events]. rewrite omap_id_map_Some. unfold keys_increasing. by rewrite map_map. }
  pose proof (proj1 (paths_increasing_cons _ _) Hp) as [Hp' Hplt].
  pose proof (proj1 (paths_increasing_cons _ _) Hc) as [Hc' Hclt].
  cbn [events]. destruct (cmp (path p) (path c)) eqn:E.
  - apply cmp_eq in E. apply (events_cons_increasing _ _ _ (path p)); [done|done|by apply IH| |].
    + intros e [He|He]; [by apply Hplt|]. rewrite E. by apply Hclt.
    + unfold equal_event. intros ch. destruct (same_content p c); [done|]. by intros [= <-].
  - apply (events_cons_increasing _ _ _ (path p)); [done|done|by apply IH| |by intros ch [= <-]].
    intros e [He|[->|He]%elem_of_cons]; [by apply Hplt|done|].
    eapply cmp_trans; [done|by apply Hclt].
  - change ((fix inner (cur0 : list Entry) := _) cur) with (events (p :: prev) cur).
    apply cmp_Gt_Lt in E.
    apply (events_cons_increasing _ _ _ (path c)); [done|done|by apply IHc| |by intros ch [= <-]].
    intros e [[->|He]%elem_of_cons|He]; [done| |by apply Hclt].
    eapply cmp_trans; [done|by apply Hplt].
Qed.

Lemma events_reference prev cur :
  paths_increasing prev → paths_increasing cur →
  omap id (events prev cur) = reference_changes prev cur.
Proof.
  intros Hp Hc. symmetry. apply (keys_increasing_sort change_path).
  - by apply events_increasing.
  - by apply events_perm.
Qed.

(** *** Hints *)

Definition unmatched (prev cur : Manifest) (hint : P) : bool :=
  negb (contains_path prev hint) && negb (contains_path cur hint).

Lemma contains_path_spec (m : Manifest) p :
  contains_path m p = true ↔ ∃ e, e ∈ entries m ∧ path e = p.
Proof.
  unfold contains_path. rewrite existsb_exists. split; intros (e & He & Hp); exists e.
  - rewrite <- list_elem_of_In in He. split; [done|].
    apply cmp_eq. by destruct (cmp (path e) p).
  - rewrite list_elem_of_In in He. split; [done|]. by rewrite (proj2 (cmp_eq _ _) Hp).
Qed.

Lemma evals_collect hints : evals (collect_unique_hints hints) (Ok (bset_of_list hints)).
Proof.
  unfold collect_unique_hints. unfold bset_of_list. rewrite <- (try_fold_pure (E := Error)).
  apply evals_fold. intros s x. eapply evals_bind; [apply evals_check|done].
Qed.

Lemma evals_count_unmatched prev cur hints :
  Z.of_nat (length hints) ≤ u64_max →
  evals (count_unmatched_hints hints prev cur)
    (Ok (Z.of_nat (length (filter (λ h, unmatched prev cur h = true) hints)))).
Proof.
  intros Hl. unfold count_unmatched_hints.
  assert (∀ n, 0 ≤ n → n + Z.of_nat (length hints) ≤ u64_max →
    evals (ctl_fold (λ (u : Z) (hint : P), u ← lift (if unmatched prev cur hint
                      then ok_or (u64_checked_add u 1) CountNotRepresentable
                      else Ok u); check;; mret u) n hints)
      (Ok (n + Z.of_nat (length (filter (λ h, unmatched prev cur h = true) hints))))) as Hgen.
  { clear Hl. induction hints as [|h hints IH]; intros n Hn Hb; simpl in *.
    { rewrite Z.add_0_r. apply evals_ret. }
    rewrite filter_cons. destruct (unmatched prev cur h).
    - unfold u64_checked_add. rewrite checked_in by lia. cbn [ok_or].
      eapply evals_bind; [eapply evals_bind; [apply evals_lift|];
        eapply evals_bind; [apply evals_check|apply evals_ret]|].
      rewrite decide_True by done.
      match goal with |- evals _ (Ok (n + Z.of_nat (length (h :: ?l)))) =>
        replace (n + Z.of_nat (length (h :: l))) with (n + 1 + Z.of_nat (length l))
          by (cbn [length]; lia) end.
      apply IH; lia.
    - eapply evals_bind; [eapply evals_bind; [apply evals_lift|];
        eapply evals_bind; [apply evals_check|apply evals_ret]|].
      rewrite decide_False by done. apply IH; lia. }
  apply Hgen; lia.
Qed.

(** The reference outcome of a reconciliation. *)
Definition reference_reconcile (prev cur : Manifest) (hints : list P)
    (limits : ManifestReconciliationLimits) : result Error (ManifestReconciliation P K D) :=
  let cs := reference_changes (entries prev) (entries cur) in
  if max_hints limits <? Z.of_nat (length hints) then Err HintLimitExceeded
  else if max_changes limits <? Z.of_nat (length cs) then Err ChangeLimitExceeded
  else Ok {| changes := cs;
             unchanged := Z.of_nat (reference_unchanged (entries prev) (entries cur));
             received_hints := Z.of_nat (length hints);
             unique_hints := Z.of_nat (length (bset_of_list hints));
             unmatched_hints := Z.of_nat (length (filter (λ h, unmatched prev cur h = true)
                                                   (bset_of_list hints))) |}.

Definition limits_wf (limits : ManifestReconciliationLimits) : Prop :=
  0 ≤ max_changes limits ≤ MAX_RECONCILIATION_CHANGES ∧
  0 ≤ max_hints limits ≤ MAX_RECONCILIATION_HINTS.

Lemma length_bset_insert_le (x : P) s : (length (bset_insert x s) ≤ S (length s))%nat.
Proof. induction s as [|y s IH]; simpl; [lia|]. destruct (cmp x y); simpl; lia. Qed.

Lemma length_bset_of_list (hints : list P) : (length (bset_of_list hints) ≤ length hints)%nat.
Proof.
  unfold bset_of_list. change (length hints) with (0 + length hints)%nat.
  change 0%nat with (length (@nil P)). generalize (@nil P). induction hints as [|h hints IH]; intros s; simpl; [lia|].
  pose proof (length_bset_insert_le h s). specialize (IH (bset_insert h s)). lia.
Qed.

Lemma steady_reconcile prev cur hints limits :
  steady (reconcile_source_manifests prev cur hints limits).
Proof.
  unfold reconcile_source_manifests, collect_unique_hints, count_unmatched_hints.
  pose proof steady_reconcile_entries. solve_steady.
Qed.

Lemma evals_reconcile prev cur hints limits :
  manifest_wf prev → manifest_wf cur → limits_wf limits → Z.of_nat (length hints) ≤ u64_max →
  evals (reconcile_source_manifests prev cur hints limits) (reference_reconcile prev cur hints limits).
Proof.
  intros [Hp Hpc _ [_ Hpu]] [Hc Hcc _ _] [[Hl1 Hl2] [Hh1 Hh2]] Hu.
  unfold MAX_RECONCILIATION_CHANGES, MAX_RECONCILIATION_HINTS in *.
  unfold reconcile_source_manifests, reference_reconcile, fixed_count, u64_of_len.
  eapply evals_bind; [apply evals_check|].
  rewrite checked_in by lia. eapply evals_bind; [apply evals_lift|].
  destruct (max_hints limits <? _) eqn:Eh; [apply evals_bind_Err, evals_lift|].
  eapply evals_bind; [apply evals_lift|]. eapply evals_bind; [apply evals_collect|].
  pose proof (length_bset_of_list hints).
  eapply evals_bind; [apply evals_count_unmatched; unfold u64_max; lia|].
  destruct (events_perm _ _ Hp Hc) as [_ Hnone].
  assert (reference_unchanged (entries prev) (entries cur) ≤ length (entries prev))%nat.
  { unfold reference_unchanged. apply length_filter. }
  pose proof (evals_reconcile_entries (entries prev) (entries cur) (builder_new (max_changes limits))) as Hev.
  rewrite fold_events in Hev; simpl; [|unfold u64_max in *; lia|lia|lia].
  simpl in Hev. rewrite events_reference, Hnone in Hev by done.
  rewrite Z.ltb_antisym. destruct (_ <=? max_changes limits) eqn:El; simpl.
  - eapply evals_bind; [exact Hev|]. rewrite checked_in by (unfold u64_max; lia).
    eapply evals_bind; [apply evals_lift|]. apply evals_ret.
  - by apply evals_bind_Err.
Qed.

(** *** Applying the changes *)

(** Replays changes on the previous entries: entries of changed paths go, the current
    side of every change comes in, and the result is put in path order. *)
Definition apply_changes (es : list Entry) (cs : list Change) : list Entry :=
  sort_by compare_paths
    (filter (λ e, path e ∉ map change_path cs) es ++ omap change_current cs).

Lemma elem_of_reference prev cur ch :
  ch ∈ reference_changes prev cur ↔
  (∃ p, p ∈ prev ∧ old_change cur p = Some ch) ∨ (∃ c, c ∈ cur ∧ new_change prev c = Some ch).
Proof.
  unfold reference_changes. by rewrite elem_of_sort_by, elem_of_app, !list_elem_of_omap.
Qed.

Lemma same_content_path_eq (e1 e2 : Entry) : path e1 = path e2 → same_content e1 e2 = true → e1 = e2.
Proof.
  unfold same_content. intros Hp [Hf Hd]%andb_true_iff.
  apply bool_decide_eq_true in Hf, Hd. destruct e1, e2. simpl in *. by subst.
Qed.

Lemma old_change_None cur p : old_change cur p = None ↔ ∃ c, find_path (path p) cur = Some c ∧ c = p.
Proof.
  unfold old_change. destruct (find_path (path p) cur) as [c|] eqn:E; [|naive_solver].
  apply find_path_Some in E as [_ E]. destruct (same_content p c) eqn:Es.
  - split; [|done]. intros _. exists c. split; [done|]. symmetry.
    by apply same_content_path_eq.
  - split; [done|]. intros (c' & [= <-] & ->). unfold same_content in Es.
    by rewrite !bool_decide_true in Es.
Qed.

(** An entry whose path no change mentions is unchanged, and conversely. *)
Lemma kept_iff prev cur e :
  paths_increasing prev → paths_increasing cur →
  e ∈ prev → path e ∉ map change_path (reference_changes prev cur) ↔ e ∈ cur.
Proof.
  intros Hp Hc He. rewrite list_elem_of_fmap. split.
  - intros Hno. destruct (old_change cur e) as [ch|] eqn:E.
    + exfalso. apply Hno. exists ch. split; [symmetry; by eapply old_change_path|].
      apply elem_of_reference. left. eauto.
    + apply old_change_None in E as (c & Hf & ->). by apply find_path_Some in Hf as [].
  - intros Hec (ch & Hpath & [(p & Hpp & Hch)|(c & Hcc & Hch)]%elem_of_reference).
    + assert (p = e) as ->.
      { eapply (paths_increasing_inj prev); [done..|].
        rewrite Hpath. symmetry. by eapply old_change_path. }
      assert (old_change cur e = None) as Hn; [|congruence].
      apply old_change_None. exists e. split; [by apply find_path_elem|done].
    + assert (c = e) as ->.
      { eapply (paths_increasing_inj cur); [done..|].
        rewrite Hpath. symmetry. by eapply new_change_path. }
      unfold new_change in Hch. by rewrite find_path_elem in Hch.
Qed.

Lemma current_iff prev cur e :
  paths_increasing prev → paths_increasing cur →
  e ∈ omap change_current (reference_changes prev cur) ↔ e ∈ cur ∧ e ∉ prev.
Proof.
  intros Hp Hc. rewrite list_elem_of_omap. split.
  - intros (ch & [(p & Hpp & Hch)|(c & Hcc & Hch)]%elem_of_reference & He).
    + unfold old_change in Hch. destruct (find_path (path p) cur) as [c|] eqn:Ef; [|by injection Hch as <-].
      apply find_path_Some in Ef as [Hcc Hpc]. destruct (same_content p c) eqn:Es; [done|].
      injection Hch as <-. injection He as <-. split; [done|]. intros Hcp.
      assert (c = p) as -> by by eapply (paths_increasing_inj prev).
      unfold same_content in Es. by rewrite !bool_decide_true in Es.
    + unfold new_change in Hch. destruct (find_path (path c) prev) eqn:Ef; [done|].
      injection Hch as <-. injection He as <-. split; [done|]. intros Hcp.
      by apply (proj2 (find_path_None _ _) Ef) in Hcp.
  - intros [Hec Hnp]. destruct (find_path (path e) prev) as [p|] eqn:Ef.
    + apply find_path_Some in Ef as [Hpp Hpath].
      exists (Changed p e). split; [|done]. apply elem_of_reference. left. exists p.
      split; [done|]. unfold old_change. rewrite Hpath, find_path_elem by done.
      destruct (same_content p e) eqn:Es; [|done].
      apply same_content_path_eq in Es; [|done]. by subst.
    + exists (Added e). split; [|done]. apply elem_of_reference. right. exists e.
      split; [done|]. unfold new_change. by rewrite Ef.
Qed.

Lemma increasing_elems_NoDup (es : list Entry) : paths_increasing es → NoDup es.
Proof. intros H1%paths_increasing_NoDup. by eapply NoDup_fmap_1. Qed.

Lemma change_current_path (ch : Change) e : change_current ch = Some e → change_path ch = path e.
Proof. destruct ch; simpl; congruence. Qed.

Lemma current_entries_NoDup (cs : list Change) :
  keys_increasing change_path cs → NoDup (omap change_current cs).
Proof.
  induction cs as [|c cs IH]; [constructor|]. intros [Hs Hlt]%keys_increasing_cons. csimpl.
  destruct (change_current c) as [e|] eqn:E; [|by apply IH]. constructor; [|by apply IH].
  rewrite list_elem_of_omap. intros (c' & Hc' & E'). apply Hlt in Hc'.
  rewrite (change_current_path _ _ E), (change_current_path _ _ E'), cmp_refl in Hc'. done.
Qed.

Lemma apply_reference prev cur :
  paths_increasing prev → paths_increasing cur →
  apply_changes prev (reference_changes prev cur) = cur.
Proof.
  intros Hp Hc. apply (keys_increasing_sort path); [done|].
  apply NoDup_Permutation; [by apply increasing_elems_NoDup| |].
  - apply NoDup_app. split; [by apply NoDup_filter, increasing_elems_NoDup|]. split.
    + intros e [_ He]%list_elem_of_filter [_ Hn]%current_iff; [done..|done].
    + apply current_entries_NoDup. rewrite <- events_reference by done. by apply events_increasing.
  - intros e. rewrite elem_of_app, list_elem_of_filter, current_iff by done. split.
    + intros He. destruct (decide (e ∈ prev)) as [Hin|]; [left|by right].
      split; [|done]. by apply kept_iff.
    + intros [[Hk Hin]|[? _]]; [|done]. by apply (kept_iff prev).
Qed.

(** ** Properties *)

(** C32: [reconcile_source_manifests] refines its reference: on valid manifests and
    limits, under every control, it either returns exactly the reference outcome (the
    path-ordered removed, changed and added entries with all counts, or the exact limit
    error), or fails with an answer the control gave; never anything partial. *)
Theorem reconcile_refines_reference (prev cur : Manifest) (hints : list P) limits o :
  manifest_wf prev → manifest_wf cur → limits_wf limits → Z.of_nat (length hints) ≤ u64_max →
  run o (reconcile_source_manifests prev cur hints limits) = reference_reconcile prev cur hints limits ∨
  ∃ k e, o k = Some e ∧ run o (reconcile_source_manifests prev cur hints limits) = Err e.
Proof. intros. apply steady_evals; [apply steady_reconcile|by apply evals_reconcile]. Qed.

(** The reported changes are complete and exact: replaying them on the previous
    manifest gives the current manifest, entry for entry, and they come in strictly
    increasing path order, one per path. *)
Theorem reconcile_changes_replay (prev cur : Manifest) (hints : list P) limits o r :
  manifest_wf prev → manifest_wf cur → limits_wf limits → Z.of_nat (length hints) ≤ u64_max →
  run o (reconcile_source_manifests prev cur hints limits) = Ok r →
  apply_changes (entries prev) (changes r) = entries cur ∧
  keys_increasing change_path (changes r) ∧
  Z.of_nat (length (changes r)) ≤ max_changes limits.
Proof.
  intros Hp Hc Hl Hh Hr.
  apply (steady_evals_Ok _ _ _ _ (steady_reconcile _ _ _ _) (evals_reconcile _ _ _ _ Hp Hc Hl Hh)) in Hr.
  unfold reference_reconcile in Hr. destruct (_ <? _); [done|]. destruct (_ <? _) eqn:E; [done|].
  injection Hr as <-. destruct Hp as [Hp _ _ _], Hc as [Hc _ _ _]. cbn [changes].
  split; [by apply apply_reference|]. split; [|lia].
  rewrite <- events_reference by done. by apply events_increasing.
Qed.

(** Watcher hints never decide correctness: two reconciliations of the same
    manifests that succeed under different hints and different controls report the same
    changes and the same unchanged count, and each counts a hint as unmatched exactly
    when it names a path of neither manifest. *)
Theorem reconcile_hints_diagnostic (prev cur : Manifest) (hints1 hints2 : list P) limits o1 o2 r1 r2 :
  manifest_wf prev → manifest_wf cur → limits_wf limits →
  Z.of_nat (length hints1) ≤ u64_max → Z.of_nat (length hints2) ≤ u64_max →
  run o1 (reconcile_source_manifests prev cur hints1 limits) = Ok r1 →
  run o2 (reconcile_source_manifests prev cur hints2 limits) = Ok r2 →
  changes r1 = changes r2 ∧ unchanged r1 = unchanged r2 ∧
  (unmatched_hints r1 = 0 ↔
   ∀ h, h ∈ hints1 → ∃ e, (e ∈ entries prev ∨ e ∈ entries cur) ∧ path e = h).
Proof.
  intros Hp Hc Hl Hh1 Hh2 Hr1 Hr2.
  apply (steady_evals_Ok _ _ _ _ (steady_reconcile _ _ _ _) (evals_reconcile _ _ _ _ Hp Hc Hl Hh1)) in Hr1.
  apply (steady_evals_Ok _ _ _ _ (steady_reconcile _ _ _ _) (evals_reconcile _ _ _ _ Hp Hc Hl Hh2)) in Hr2.
  unfold reference_reconcile in *. repeat (destruct (_ <? _); [done|]).
  injection Hr1 as <-. injection Hr2 as <-. simpl. split; [done|]. split; [done|].
  assert (∀ h, unmatched prev cur h = false ↔
    ∃ e, (e ∈ entries prev ∨ e ∈ entries cur) ∧ path e = h) as Hun.
  { intros h. unfold unmatched. rewrite andb_false_iff, !negb_false_iff, !contains_path_spec.
    naive_solver. }
  split.
  - intros Hz h Hh. apply Hun. apply not_true_is_false. intros Hu.
    assert (h ∈ filter (λ h, unmatched prev cur h = true) (bset_of_list hints1)) as Hin.
    { apply list_elem_of_filter. split; [done|]. by apply elem_of_bset_of_list. }
    destruct (filter _ _); [by apply elem_of_nil in Hin|simpl in Hz; lia].
  - intros Hall. rewrite filter_all_false; [done|]. rewrite Forall_forall. intros h Hh.
    rewrite elem_of_bset_of_list in Hh. rewrite (proj2 (Hun h) (Hall h Hh)). done.
Qed.
End reconcile.

(** ** Witnesses *)

Definition example_manifest (es : list (SourceManifestEntry Z SourceFileKind Z)) :
    SourceManifest Z SourceFileKind Z :=
  {| entries := es; count := Z.of_nat (length es); limit := 10 |}.
Definition example_entry (p d : Z) : SourceManifestEntry Z SourceFileKind Z :=
  {| path := p; file_type := Regular; content_digest := d |}.
Definition example_previous := example_manifest [example_entry 1 7; example_entry 2 7; example_entry 4 7].
Definition example_current := example_manifest [example_entry 2 7; example_entry 3 7; example_entry 4 8].

Lemma example_manifest_wf :
  manifest_wf example_previous ∧ manifest_wf example_current ∧ limits_wf limits_default.
Proof.
  repeat split; simpl; try (unfold u64_max; lia); try done;
    unfold paths_increasing, keys_increasing, bset_wf; simpl; repeat constructor.
Qed.

Definition example_changes : list (ManifestChange Z SourceFileKind Z) :=
  [Removed (example_entry 1 7); Added (example_entry 3 7); Changed (example_entry 4 7) (example_entry 4 8)].

Definition example_result (received unique unmatched : Z) : ManifestReconciliation Z SourceFileKind Z :=
  {| changes := example_changes; unchanged := 1; received_hints := received;
     unique_hints := unique; unmatched_hints := unmatched |}.

Lemma reconcile_refines_reference_witness :
  run (λ n, if (5 <=? n)%nat then Some DeadlineExceeded else None)
      (reconcile_source_manifests example_previous example_current [3; 9; 3] limits_default)
    = Ok (example_result 3 2 1) ∨
  ∃ k e, (if (5 <=? k)%nat then Some DeadlineExceeded else None) = Some e ∧
    run (λ n, if (5 <=? n)%nat then Some DeadlineExceeded else None)
      (reconcile_source_manifests example_previous example_current [3; 9; 3] limits_default) = Err e.
Proof.
  destruct example_manifest_wf as (Hp & Hc & Hl).
  exact (reconcile_refines_reference example_previous example_current [3; 9; 3] limits_default
    (λ n, if (5 <=? n)%nat then Some DeadlineExceeded else None) Hp Hc Hl ltac:(done)).
Defined.

Lemma reconcile_changes_replay_witness :
  apply_changes (entries example_previous) example_changes = entries example_current ∧
  keys_increasing change_path example_changes ∧ 3 ≤ 200000.
Proof.
  destruct example_manifest_wf as (Hp & Hc & Hl).
  apply (reconcile_changes_replay example_previous example_current [3] limits_default never
    (example_result 1 1 0) Hp Hc Hl); [done|reflexivity].
Defined.

Lemma reconcile_hints_diagnostic_witness :
  changes (example_result 1 1 0) = changes (example_result 2 2 1) ∧ 1 = 1 ∧
  (0 = 0 ↔ ∀ h, h ∈ [3] → ∃ e, (e ∈ entries example_previous ∨ e ∈ entries example_current) ∧ path e = h).
Proof.
  destruct example_manifest_wf as (Hp & Hc & Hl).
  apply (reconcile_hints_diagnostic example_previous example_current [3] [9; 3] limits_default
    never never (example_result 1 1 0) (example_result 2 2 1) Hp Hc Hl); (done || reflexivity).
Defined.
