(* ===== verification/ArtifactReuse.v ===== *)
(** * Artifact reuse planning

    Models [crates/repowitness-domain/src/artifact.rs] (the logical key of an analysis
    artifact) and [crates/repowitness-analysis/src/artifact_reuse.rs] (the plan that
    decides, entry by entry, between reusing an artifact and analysing the source). *)

From Stdlib Require Import ZArith Lia ZifyBool.
From stdpp Require Import base numbers sorting list.
From S2P Require Import Prelude Ordering SourceManifest.

Open Scope Z_scope.

Record AnalysisArtifactKey (D A C S V : Type) := {
  key_source_digest : D;
  key_analyzer_identity : A;
  key_configuration_identity : C;
  key_schema_identity : S;
  key_canonicalization_version : V;
}.
Arguments Build_AnalysisArtifactKey {D A C S V} _ _ _ _ _.
Arguments key_source_digest {D A C S V} _.
Arguments key_analyzer_identity {D A C S V} _.
Arguments key_configuration_identity {D A C S V} _.
Arguments key_schema_identity {D A C S V} _.
Arguments key_canonicalization_version {D A C S V} _.

Record ArtifactKeySemantics (A C S V : Type) := {
  analyzer_identity : A;
  configuration_identity : C;
  schema_identity : S;
  canonicalization_version : V;
}.
Arguments analyzer_identity {A C S V} _.
Arguments configuration_identity {A C S V} _.
Arguments schema_identity {A C S V} _.
Arguments canonicalization_version {A C S V} _.

Inductive ArtifactPlanAction := Reuse | Analyze.

#[export] Instance ArtifactPlanAction_eq_dec : EqDecision ArtifactPlanAction.
Proof. solve_decision. Defined.

Inductive ArtifactPlanningError := Cancelled | DeadlineExceeded.

Record PlannedAnalysisArtifact (P D A C S V : Type) := {
  planned_path : P;
  planned_key : AnalysisArtifactKey D A C S V;
  planned_action : ArtifactPlanAction;
}.
Arguments Build_PlannedAnalysisArtifact {P D A C S V} _ _ _.
Arguments planned_path {P D A C S V} _.
Arguments planned_key {P D A C S V} _.
Arguments planned_action {P D A C S V} _.

Record ArtifactReusePlan (P D A C S V : Type) := {
  plan_entries : list (PlannedAnalysisArtifact P D A C S V);
  reuse_count : Z;
  analysis_count : Z;
}.
Arguments Build_ArtifactReusePlan {P D A C S V} _ _ _.
Arguments plan_entries {P D A C S V} _.
Arguments reuse_count {P D A C S V} _.
Arguments analysis_count {P D A C S V} _.

Definition plan_is_empty {P D A C S V} (plan : ArtifactReusePlan P D A C S V) : bool :=
  (reuse_count plan =? 0) && (analysis_count plan =? 0).

(** *** The derived order of keys: field by field, in declaration order *)

Definition key_fields {D A C S V} (k : AnalysisArtifactKey D A C S V) : D * (A * (C * (S * V))) :=
  (key_source_digest k, (key_analyzer_identity k, (key_configuration_identity k,
    (key_schema_identity k, key_canonicalization_version k)))).

Lemma key_fields_inj {D A C S V} (k1 k2 : AnalysisArtifactKey D A C S V) :
  key_fields k1 = key_fields k2 → k1 = k2.
Proof. destruct k1, k2. unfold key_fields. simpl. congruence. Qed.

#[export] Instance key_ord {D A C S V}
    `{RustOrd D, RustOrd A, RustOrd C, RustOrd S, RustOrd V} :
  RustOrd (AnalysisArtifactKey D A C S V) := ord_by key_fields.
#[export] Instance key_ord_laws {D A C S V}
    `{RustOrdLaws D, RustOrdLaws A, RustOrdLaws C, RustOrdLaws S, RustOrdLaws V} :
  RustOrdLaws (AnalysisArtifactKey D A C S V) := ord_by_laws key_fields key_fields_inj.

Section plan.
Context {P K D A C S V : Type}
  `{RustOrdLaws P, RustOrdLaws D, RustOrdLaws A, RustOrdLaws C, RustOrdLaws S, RustOrdLaws V}.

Notation Entry := (SourceManifestEntry P K D).
Notation Key := (AnalysisArtifactKey D A C S V).
Notation Planned := (PlannedAnalysisArtifact P D A C S V).

Definition artifact_key (semantics_for : Entry → ArtifactKeySemantics A C S V) (e : Entry) : Key :=
  let semantics := semantics_for e in
  Build_AnalysisArtifactKey (content_digest e) (analyzer_identity semantics)
    (configuration_identity semantics) (schema_identity semantics)
    (canonicalization_version semantics).

(** One turn of the loop: the accumulators are [entries] and [reuse_count]. *)
Definition plan_entry (reusable_keys : list Key)
    (semantics_for : Entry → ArtifactKeySemantics A C S V)
    (acc : list Planned * Z) (e : Entry) : list Planned * Z :=
  let key := artifact_key semantics_for e in
  let '(action, reuse) :=
    if bset_mem key reusable_keys then (Reuse, acc.2 + 1) else (Analyze, acc.2) in
  (acc.1 ++ [Build_PlannedAnalysisArtifact (path e) key action], reuse).

Definition plan_artifact_reuse (m : SourceManifest P K D) (reusable_keys : list Key)
    (semantics_for : Entry → ArtifactKeySemantics A C S V)
    : ctl ArtifactPlanningError (ArtifactReusePlan P D A C S V) :=
  check;;
  acc ← ctl_fold (λ acc e, let acc' := plan_entry reusable_keys semantics_for acc e in
                           check;; mret acc') ([], 0) (entries m);
  mret (Build_ArtifactReusePlan acc.1 acc.2 (count m - acc.2)).

(** ** What a plan should be *)

Definition reference_action (reusable_keys : list Key) (k : Key) : ArtifactPlanAction :=
  if bset_mem k reusable_keys then Reuse else Analyze.

Definition reference_planned (reusable_keys : list Key)
    (semantics_for : Entry → ArtifactKeySemantics A C S V) (e : Entry) : Planned :=
  let k := artifact_key semantics_for e in
  Build_PlannedAnalysisArtifact (path e) k (reference_action reusable_keys k).

Definition action_count (a : ArtifactPlanAction) (ps : list Planned) : nat :=
  length (filter (λ p, planned_action p = a) ps).

Definition reference_plan (m : SourceManifest P K D) (reusable_keys : list Key)
    (semantics_for : Entry → ArtifactKeySemantics A C S V) : ArtifactReusePlan P D A C S V :=
  let ps := map (reference_planned reusable_keys semantics_for) (entries m) in
  Build_ArtifactReusePlan ps (Z.of_nat (action_count Reuse ps))
    (Z.of_nat (action_count Analyze ps)).

(** The artifacts a plan yields: a reused one comes from the store, the rest from
    running the analysis of the key. *)
Definition materialize {Art} (store analyze : Key → Art) (plan : ArtifactReusePlan P D A C S V)
    : list (P * Art) :=
  map (λ p, (planned_path p, match planned_action p with
                             | Reuse => store (planned_key p)
                             | Analyze => analyze (planned_key p)
                             end)) (plan_entries plan).

Lemma plan_entry_reference reusable semantics acc e :
  plan_entry reusable semantics acc e =
  (acc.1 ++ [reference_planned reusable semantics e],
   acc.2 + Z.of_nat (action_count Reuse [reference_planned reusable semantics e])).
Proof.
  unfold plan_entry, reference_planned, reference_action, action_count.
  destruct (bset_mem _ reusable); [done|]. by rewrite Z.add_0_r.
Qed.

Lemma action_count_app a (ps1 ps2 : list Planned) :
  action_count a (ps1 ++ ps2) = (action_count a ps1 + action_count a ps2)%nat.
Proof. unfold action_count. by rewrite filter_app, length_app. Qed.

Lemma plan_entry_foldl reusable semantics es acc :
  foldl (plan_entry reusable semantics) acc es =
  (acc.1 ++ map (reference_planned reusable semantics) es,
   acc.2 + Z.of_nat (action_count Reuse (map (reference_planned reusable semantics) es))).
Proof.
  revert acc. induction es as [|e es IH]; intros [ps n].
  { unfold action_count. simpl. by rewrite app_nil_r, Z.add_0_r. }
  cbn [foldl]. rewrite IH, plan_entry_reference. cbn [map fst snd].
  pose proof (action_count_app Reuse [reference_planned reusable semantics e]
    (map (reference_planned reusable semantics) es)) as Hc. cbn [app] in Hc.
  rewrite Hc, <- app_assoc. apply f_equal2; [done|lia].
Qed.

Lemma action_count_total (ps : list Planned) :
  (action_count Reuse ps + action_count Analyze ps = length ps)%nat.
Proof.
  unfold action_count. induction ps as [|p ps IH]; [done|]. rewrite !filter_cons. simpl.
  destruct (planned_action p); simpl; lia.
Qed.

Lemma steady_plan m reusable semantics : steady (plan_artifact_reuse m reusable semantics).
Proof. unfold plan_artifact_reuse. solve_steady. Qed.

Lemma evals_plan m reusable semantics :
  manifest_wf m →
  evals (plan_artifact_reuse m reusable semantics) (Ok (reference_plan m reusable semantics)).
Proof.
  intros [_ Hc _ _]. unfold plan_artifact_reuse.
  eapply evals_bind; [apply evals_check|]. eapply evals_bind.
  - rewrite <- (try_fold_pure (E := ArtifactPlanningError) (plan_entry reusable semantics)).
    apply evals_fold. intros acc e. eapply evals_bind; [apply evals_check|apply evals_ret].
  - rewrite plan_entry_foldl. simpl. unfold reference_plan.
    pose proof (action_count_total (plan_entries (reference_plan m reusable semantics))) as Ht. simpl in Ht.
    rewrite length_map in Ht. intros n. simpl. do 2 f_equal. lia.
Qed.

(** ** Properties *)

(** [plan_artifact_reuse] refines its reference under every control: it returns,
    in manifest order, one decision per entry, [Reuse] exactly when the complete key
    (with the manifest's own digest) is in the verified inventory, with exact counts
    that never underflow; or it stops with an answer the control gave. *)
Theorem plan_refines_reference m reusable semantics o :
  manifest_wf m →
  run o (plan_artifact_reuse m reusable semantics) = Ok (reference_plan m reusable semantics) ∨
  ∃ k e, o k = Some e ∧ run o (plan_artifact_reuse m reusable semantics) = Err e.
Proof. intros. apply steady_evals; [apply steady_plan|by apply evals_plan]. Qed.

(** C33: incremental planning is sound: when every inventoried artifact is what its key's
    analysis yields, materializing the incremental plan gives what a clean rebuild (an
    empty inventory) gives, whatever the inventory holds. *)
Theorem incremental_equals_clean {Art} (store analyze : Key → Art) m reusable semantics o1 o2 p1 p2 :
  manifest_wf m → bset_wf reusable → (∀ k, k ∈ reusable → store k = analyze k) →
  run o1 (plan_artifact_reuse m reusable semantics) = Ok p1 →
  run o2 (plan_artifact_reuse m [] semantics) = Ok p2 →
  materialize store analyze p1 = materialize store analyze p2.
Proof.
  intros Hm Hr Hstore Hp1 Hp2.
  apply (steady_evals_Ok _ _ _ _ (steady_plan _ _ _) (evals_plan _ _ _ Hm)) in Hp1, Hp2.
  injection Hp1 as <-. injection Hp2 as <-. unfold materialize, reference_plan. simpl.
  rewrite !map_map. apply map_ext. intros e. simpl. f_equal. unfold reference_action.
  destruct (bset_mem _ reusable) eqn:E; [|done]. apply Hstore. by apply bset_mem_spec.
Qed.
End plan.

Definition example_semantics (_ : SourceManifestEntry Z SourceFileKind Z) : ArtifactKeySemantics Z Z Z Z :=
  {| analyzer_identity := 10; configuration_identity := 20; schema_identity := 30;
     canonicalization_version := 1 |}.
Definition example_sources : SourceManifest Z SourceFileKind Z :=
  {| entries := [{| path := 1; file_type := Regular; content_digest := 7 |};
                 {| path := 2; file_type := Regular; content_digest := 8 |}];
     count := 2; limit := 4 |}.
Definition example_inventory : list (AnalysisArtifactKey Z Z Z Z Z) :=
  [Build_AnalysisArtifactKey 7 10 20 30 1].

Lemma example_sources_wf : manifest_wf example_sources ∧ bset_wf example_inventory.
Proof.
  repeat split; simpl; try lia; try done; unfold paths_increasing, keys_increasing, bset_wf;
    simpl; repeat constructor; unfold u64_max; lia.
Qed.

Lemma plan_refines_reference_witness :
  run never (plan_artifact_reuse example_sources example_inventory example_semantics) =
    Ok (reference_plan example_sources example_inventory example_semantics) ∨
  ∃ k e, never k = Some e ∧
    run never (plan_artifact_reuse example_sources example_inventory example_semantics) = Err e.
Proof. apply plan_refines_reference, example_sources_wf. Defined.

Lemma incremental_equals_clean_witness :
  let f (k : AnalysisArtifactKey Z Z Z Z Z) := key_source_digest k * 100 in
  materialize f f (reference_plan example_sources example_inventory example_semantics) =
  materialize f f (reference_plan example_sources [] example_semantics).
Proof.
  intros f. apply (incremental_equals_clean f f example_sources example_inventory example_semantics never never);
    [apply example_sources_wf|apply example_sources_wf|done|reflexivity|reflexivity].
Defined.
