(* ===== verification/WatchSchedule.v ===== *)
(** * The watcher's polling schedule

    Models [crates/repowitness-local/src/watch_reconciliation/schedule.rs] (limits,
    decisions, outcomes) and [schedule/state.rs] (the single-slot polling state
    machine).  Timestamps and durations are [u64] milliseconds, attempts [u16]; a method
    that takes [&mut self] returns its result with the state it leaves. *)

From Stdlib Require Import ZArith Lia ZifyBool.
From stdpp Require Import base numbers sorting list.
From S2P Require Import Prelude.

Open Scope Z_scope.

(** ** Limits *)

Definition MAX_WATCHER_DEBOUNCE_MS : Z := 60000.
Definition MAX_WATCHER_PERIODIC_MS : Z := 86400000.
Definition MAX_WATCHER_RETRY_DELAY_MS : Z := 3600000.
Definition MAX_WATCHER_RETRIES : Z := 64.
Definition DEFAULT_WATCHER_DEBOUNCE_MS : Z := 250.
Definition DEFAULT_WATCHER_PERIODIC_MS : Z := 30000.
Definition DEFAULT_WATCHER_RETRY_DELAY_MS : Z := 1000.
Definition DEFAULT_WATCHER_MAX_RETRIES : Z := 5.

Record WatcherScheduleLimits := {
  debounce : Z;
  periodic : Z;
  retry_delay : Z;
  max_retries : Z;
}.

Definition DEFAULT : WatcherScheduleLimits :=
  {| debounce := DEFAULT_WATCHER_DEBOUNCE_MS; periodic := DEFAULT_WATCHER_PERIODIC_MS;
     retry_delay := DEFAULT_WATCHER_RETRY_DELAY_MS; max_retries := DEFAULT_WATCHER_MAX_RETRIES |}.

Inductive WatcherScheduleLimitError :=
| ZeroDebounce | DebounceTooLarge
| ZeroPeriodic | PeriodicTooLarge
| ZeroRetryDelay | RetryDelayTooLarge
| ZeroRetries | RetriesTooLarge.

Definition validate_schedule_limits (debounce_ms periodic_ms retry_delay_ms max_retries : Z)
    : result WatcherScheduleLimitError () :=
  reject_if (debounce_ms =? 0) ZeroDebounce;;
  reject_if (MAX_WATCHER_DEBOUNCE_MS <? debounce_ms) DebounceTooLarge;;
  reject_if (periodic_ms =? 0) ZeroPeriodic;;
  reject_if (MAX_WATCHER_PERIODIC_MS <? periodic_ms) PeriodicTooLarge;;
  reject_if (retry_delay_ms =? 0) ZeroRetryDelay;;
  reject_if (MAX_WATCHER_RETRY_DELAY_MS <? retry_delay_ms) RetryDelayTooLarge;;
  reject_if (max_retries =? 0) ZeroRetries;;
  reject_if (MAX_WATCHER_RETRIES <? max_retries) RetriesTooLarge.

Definition limits_try_new (debounce_ms periodic_ms retry_delay_ms max_retries : Z)
    : result WatcherScheduleLimitError WatcherScheduleLimits :=
  validate_schedule_limits debounce_ms periodic_ms retry_delay_ms max_retries;;
  Ok {| debounce := debounce_ms; periodic := periodic_ms; retry_delay := retry_delay_ms;
        max_retries := max_retries |}.

(** ** Decisions, outcomes and errors *)

Inductive WatcherReconciliationReason :=
| Startup
| DirtyAfterDebounce
| Periodic
| FullReconciliationRequired
| Retry (attempt : Z)
| ClockRegression
| TimestampOverflow
| CounterOverflow.

Inductive WatcherPollDecision :=
| PollPending (reason : WatcherReconciliationReason)
| PollDebouncing (until : Z)
| PollWaitingPeriodic (at_ : Z)
| PollWaitingRetry (at_ : Z) (attempt : Z)
| PollBackpressured
| PollRetryExhausted
| PollCancelled.

Inductive WatcherObservationOutcome :=
| ObservedDirtyDebouncing
| ObservedFullReconciliationPending
| ObservedCoalesced
| ObservedBackpressured
| ObservedClockRegression
| ObservedTimestampOverflow
| ObservedCounterOverflow
| ObservedCancelled.

Inductive WatcherCompletion := Succeeded | RetryableFailure | CompletionCancelled.

Inductive WatcherCompletionOutcome :=
| OutcomeCompleted
| OutcomeRetryScheduled (attempt : Z) (at_ : Z)
| OutcomeRetryExhausted
| OutcomeCancelled.

Inductive WatcherStateError :=
| ErrTimestampOverflow
| ErrCounterOverflow
| ErrNoPendingReconciliation
| ErrReconciliationAlreadyActive
| ErrNoActiveReconciliation
| ErrClockRegression
| ErrCancelled.

(** ** The state *)

Record WatcherStateCounters := {
  reconciliations_started : Z;
  reconciliations_completed : Z;
  retryable_failures : Z;
  coalesced_observations : Z;
  backpressure_observations : Z;
  clock_regressions : Z;
}.

Definition counters_default : WatcherStateCounters := Build_WatcherStateCounters 0 0 0 0 0 0.

Record WatcherPollingState := {
  limits : WatcherScheduleLimits;
  last_timestamp : Z;
  next_periodic : Z;
  dirty_deadline : option Z;
  retry_deadline : option (Z * Z);
  pending : option WatcherReconciliationReason;
  active : bool;
  full_reconciliation_required : bool;
  retry_attempts : Z;
  retry_exhausted : bool;
  cancelled : bool;
  counters : WatcherStateCounters;
}.

(** Assignments to one field. *)

Definition set_last_timestamp v s := Build_WatcherPollingState (limits s) v (next_periodic s)
  (dirty_deadline s) (retry_deadline s) (pending s) (active s) (full_reconciliation_required s)
  (retry_attempts s) (retry_exhausted s) (cancelled s) (counters s).
Definition set_next_periodic v s := Build_WatcherPollingState (limits s) (last_timestamp s) v
  (dirty_deadline s) (retry_deadline s) (pending s) (active s) (full_reconciliation_required s)
  (retry_attempts s) (retry_exhausted s) (cancelled s) (counters s).
Definition set_dirty_deadline v s := Build_WatcherPollingState (limits s) (last_timestamp s)
  (next_periodic s) v (retry_deadline s) (pending s) (active s) (full_reconciliation_required s)
  (retry_attempts s) (retry_exhausted s) (cancelled s) (counters s).
Definition set_retry_deadline v s := Build_WatcherPollingState (limits s) (last_timestamp s)
  (next_periodic s) (dirty_deadline s) v (pending s) (active s) (full_reconciliation_required s)
  (retry_attempts s) (retry_exhausted s) (cancelled s) (counters s).
Definition set_pending v s := Build_WatcherPollingState (limits s) (last_timestamp s)
  (next_periodic s) (dirty_deadline s) (retry_deadline s) v (active s)
  (full_reconciliation_required s) (retry_attempts s) (retry_exhausted s) (cancelled s) (counters s).
Definition set_active v s := Build_WatcherPollingState (limits s) (last_timestamp s)
  (next_periodic s) (dirty_deadline s) (retry_deadline s) (pending s) v
  (full_reconciliation_required s) (retry_attempts s) (retry_exhausted s) (cancelled s) (counters s).
Definition set_full v s := Build_WatcherPollingState (limits s) (last_timestamp s)
  (next_periodic s) (dirty_deadline s) (retry_deadline s) (pending s) (active s) v
  (retry_attempts s) (retry_exhausted s) (cancelled s) (counters s).
Definition set_retry v x s := Build_WatcherPollingState (limits s) (last_timestamp s)
  (next_periodic s) (dirty_deadline s) (retry_deadline s) (pending s) (active s)
  (full_reconciliation_required s) v x (cancelled s) (counters s).
Definition set_cancelled v s := Build_WatcherPollingState (limits s) (last_timestamp s)
  (next_periodic s) (dirty_deadline s) (retry_deadline s) (pending s) (active s)
  (full_reconciliation_required s) (retry_attempts s) (retry_exhausted s) v (counters s).
Definition set_counters v s := Build_WatcherPollingState (limits s) (last_timestamp s)
  (next_periodic s) (dirty_deadline s) (retry_deadline s) (pending s) (active s)
  (full_reconciliation_required s) (retry_attempts s) (retry_exhausted s) (cancelled s) v.

Definition set_started v c := Build_WatcherStateCounters v (reconciliations_completed c)
  (retryable_failures c) (coalesced_observations c) (backpressure_observations c) (clock_regressions c).
Definition set_completed v c := Build_WatcherStateCounters (reconciliations_started c) v
  (retryable_failures c) (coalesced_observations c) (backpressure_observations c) (clock_regressions c).
Definition set_failures v c := Build_WatcherStateCounters (reconciliations_started c)
  (reconciliations_completed c) v (coalesced_observations c) (backpressure_observations c)
  (clock_regressions c).
Definition set_coalesced v c := Build_WatcherStateCounters (reconciliations_started c)
  (reconciliations_completed c) (retryable_failures c) v (backpressure_observations c)
  (clock_regressions c).
Definition set_backpressure v c := Build_WatcherStateCounters (reconciliations_started c)
  (reconciliations_completed c) (retryable_failures c) (coalesced_observations c) v
  (clock_regressions c).
Definition set_regressions v c := Build_WatcherStateCounters (reconciliations_started c)
  (reconciliations_completed c) (retryable_failures c) (coalesced_observations c)
  (backpressure_observations c) v.

(** [increment]: a saturating step, and whether the counter advanced. *)
Definition increment (counter : Z) : bool * Z :=
  let next := u64_saturating_add counter 1 in (negb (next =? counter), next).

(** [increment(&mut self.counters.field)]. *)
Definition increment_counter (get : WatcherStateCounters → Z)
    (put : Z → WatcherStateCounters → WatcherStateCounters) (s : WatcherPollingState)
    : bool * WatcherPollingState :=
  let '(advanced, next) := increment (get (counters s)) in
  (advanced, set_counters (put next (counters s)) s).

(** ** Operations *)

Definition schedule_new (started_at : Z) (limits : WatcherScheduleLimits)
    : result WatcherStateError WatcherPollingState :=
  next_periodic ← ok_or (u64_checked_add started_at (periodic limits)) ErrTimestampOverflow;
  Ok {| limits := limits; last_timestamp := started_at; next_periodic := next_periodic;
        dirty_deadline := None; retry_deadline := None; pending := Some Startup;
        active := false; full_reconciliation_required := false; retry_attempts := 0;
        retry_exhausted := false; cancelled := false; counters := counters_default |}.

Definition force_full (reason : WatcherReconciliationReason) (s : WatcherPollingState)
    : WatcherPollingState :=
  let s := set_retry_deadline None (set_full true s) in
  if negb (active s) && negb (bool_decide (is_Some (pending s))) && negb (cancelled s)
  then set_pending (Some reason) s else s.

Definition note_clock_regression (s : WatcherPollingState) : WatcherPollingState :=
  let '(advanced, s) := increment_counter clock_regressions set_regressions s in
  if negb advanced then force_full CounterOverflow s else force_full ClockRegression s.

Definition admit_clock (now : Z) (s : WatcherPollingState) : bool * WatcherPollingState :=
  if now <? last_timestamp s then (false, note_clock_regression s)
  else (true, set_last_timestamp now s).

Definition make_pending (reason : WatcherReconciliationReason) (s : WatcherPollingState)
    : WatcherPollDecision * WatcherPollingState :=
  (PollPending reason, set_pending (Some reason) s).

Definition pending_or_backpressured (s : WatcherPollingState)
    : WatcherPollDecision * WatcherPollingState :=
  match pending s with
  | Some reason => (PollPending reason, s)
  | None => if active s then (PollBackpressured, s) else make_pending ClockRegression s
  end.

Definition poll_retry_exhausted (now : Z) (s : WatcherPollingState)
    : WatcherPollDecision * WatcherPollingState :=
  if next_periodic s <=? now then make_pending Periodic (set_retry 0 false s)
  else (PollRetryExhausted, s).

Definition poll (now : Z) (s : WatcherPollingState) : WatcherPollDecision * WatcherPollingState :=
  if cancelled s then (PollCancelled, s) else
  let '(admitted, s) := admit_clock now s in
  if negb admitted then pending_or_backpressured s else
  match pending s with
  | Some reason => (PollPending reason, s)
  | None =>
      if active s then (PollBackpressured, s) else
      if retry_exhausted s then poll_retry_exhausted now s else
      match retry_deadline s with
      | Some (at_, attempt) =>
          if now <? at_ then (PollWaitingRetry at_ attempt, s)
          else make_pending (Retry attempt) s
      | None =>
          if full_reconciliation_required s then make_pending FullReconciliationRequired s else
          if next_periodic s <=? now then make_pending Periodic s else
          match dirty_deadline s with
          | Some until =>
              if until <=? now then make_pending DirtyAfterDebounce s
              else (PollDebouncing until, s)
          | None => (PollWaitingPeriodic (next_periodic s), s)
          end
      end
  end.

Definition observation_admission (require_full : bool) (s : WatcherPollingState)
    : WatcherObservationOutcome * WatcherPollingState :=
  if active s then
    let '(advanced, s) := increment_counter backpressure_observations set_backpressure s in
    if negb advanced then (ObservedCounterOverflow, force_full CounterOverflow s)
    else (ObservedBackpressured, s)
  else if bool_decide (is_Some (pending s)) then
    let '(advanced, s) := increment_counter coalesced_observations set_coalesced s in
    if negb advanced then (ObservedCounterOverflow, force_full CounterOverflow s)
    else (ObservedCoalesced, s)
  else if require_full then
    (ObservedFullReconciliationPending, set_pending (Some FullReconciliationRequired) s)
  else (ObservedDirtyDebouncing, s).

Definition observe (now : Z) (require_full : bool) (s : WatcherPollingState)
    : WatcherObservationOutcome * WatcherPollingState :=
  if cancelled s then (ObservedCancelled, s) else
  let '(admitted, s) := admit_clock now s in
  if negb admitted then (ObservedClockRegression, s) else
  let s := if retry_exhausted s then set_retry 0 false s else s in
  if require_full then
    let s := set_retry_deadline None (set_full true s) in
    observation_admission (require_full || full_reconciliation_required s) s
  else
    match u64_checked_add now (debounce (limits s)) with
    | None => (ObservedTimestampOverflow, force_full TimestampOverflow s)
    | Some deadline =>
        let s := set_dirty_deadline (Some deadline) s in
        observation_admission (require_full || full_reconciliation_required s) s
    end.

Definition observe_dirty (now : Z) (s : WatcherPollingState) := observe now false s.
Definition observe_full_reconciliation_required (now : Z) (s : WatcherPollingState) :=
  observe now true s.

Definition begin_pending (s : WatcherPollingState)
    : result WatcherStateError WatcherReconciliationReason * WatcherPollingState :=
  if cancelled s then (Err ErrCancelled, s) else
  if active s then (Err ErrReconciliationAlreadyActive, s) else
  match pending s with
  | None => (Err ErrNoPendingReconciliation, s)
  | Some reason =>
      let '(advanced, s) := increment_counter reconciliations_started set_started s in
      if negb advanced then (Err ErrCounterOverflow, force_full CounterOverflow s) else
      let s := set_full false (set_retry_deadline None (set_dirty_deadline None
                 (set_active true (set_pending None s)))) in
      let s := match reason with Periodic => set_retry 0 false s | _ => s end in
      (Ok reason, s)
  end.

Definition cancel (s : WatcherPollingState) : WatcherPollingState :=
  set_full false (set_retry_deadline None (set_dirty_deadline None
    (set_pending None (set_cancelled true s)))).

Definition complete_success (now : Z) (s : WatcherPollingState)
    : result WatcherStateError WatcherCompletionOutcome * WatcherPollingState :=
  match u64_checked_add now (periodic (limits s)) with
  | None => (Err ErrTimestampOverflow, force_full TimestampOverflow (set_active false s))
  | Some next_periodic =>
      let '(advanced, s) := increment_counter reconciliations_completed set_completed s in
      if negb advanced
      then (Err ErrCounterOverflow, force_full CounterOverflow (set_active false s))
      else (Ok OutcomeCompleted,
            set_retry 0 false (set_retry_deadline None
              (set_next_periodic next_periodic (set_active false s))))
  end.

Definition complete_retryable_failure (now : Z) (s : WatcherPollingState)
    : result WatcherStateError WatcherCompletionOutcome * WatcherPollingState :=
  let s := set_active false s in
  let '(advanced, s) := increment_counter retryable_failures set_failures s in
  if negb advanced then (Err ErrCounterOverflow, force_full CounterOverflow s) else
  match u16_checked_add (retry_attempts s) 1 with
  | None => (Err ErrCounterOverflow, force_full CounterOverflow s)
  | Some next_attempt =>
      let s := set_retry next_attempt (retry_exhausted s) s in
      if max_retries (limits s) <? next_attempt then
        (Ok OutcomeRetryExhausted,
         set_full true (set_retry (retry_attempts s) true (set_retry_deadline None s)))
      else
        match u64_checked_add now (retry_delay (limits s)) with
        | None => (Err ErrTimestampOverflow, force_full TimestampOverflow s)
        | Some at_ =>
            (Ok (OutcomeRetryScheduled next_attempt at_),
             set_retry_deadline (Some (at_, next_attempt)) s)
        end
  end.

Definition complete (now : Z) (completion : WatcherCompletion) (s : WatcherPollingState)
    : result WatcherStateError WatcherCompletionOutcome * WatcherPollingState :=
  if negb (active s) then (Err ErrNoActiveReconciliation, s) else
  if now <? last_timestamp s then (Err ErrClockRegression, note_clock_regression s) else
  let s := set_last_timestamp now s in
  match completion with
  | Succeeded => complete_success now s
  | RetryableFailure => complete_retryable_failure now s
  | CompletionCancelled => (Ok OutcomeCancelled, cancel (set_active false s))
  end.

(** ** The machine as a step relation

    An event is an operation with the arguments the caller injects and the answer it
    gets; timestamps are any [u64], ordered or not. *)

Inductive WatcherEvent :=
| EPoll (now : Z) (decision : WatcherPollDecision)
| EObserve (now : Z) (require_full : bool) (outcome : WatcherObservationOutcome)
| EBegin (r : result WatcherStateError WatcherReconciliationReason)
| EComplete (now : Z) (c : WatcherCompletion) (r : result WatcherStateError WatcherCompletionOutcome)
| ECancel.

Inductive step : WatcherPollingState → WatcherEvent → WatcherPollingState → Prop :=
| StepPoll now s : in_u64 now → step s (EPoll now (poll now s).1) (poll now s).2
| StepObserve now full s :
    in_u64 now → step s (EObserve now full (observe now full s).1) (observe now full s).2
| StepBegin s : step s (EBegin (begin_pending s).1) (begin_pending s).2
| StepComplete now c s :
    in_u64 now → step s (EComplete now c (complete now c s).1) (complete now c s).2
| StepCancel s : step s ECancel (cancel s).

Inductive steps : WatcherPollingState → list WatcherEvent → WatcherPollingState → Prop :=
| StepsNil s : steps s [] s
| StepsSnoc s es s' e s'' : steps s es s' → step s' e s'' → steps s (es ++ [e]) s''.

(** A state the machine comes to, with the events since it was created. *)
Definition reaches (lim : WatcherScheduleLimits) (es : list WatcherEvent) (s : WatcherPollingState)
    : Prop :=
  ∃ d p r m started s0, limits_try_new d p r m = Ok lim ∧ 0 ≤ d ∧ 0 ≤ p ∧ 0 ≤ r ∧ 0 ≤ m ∧
    in_u64 started ∧ schedule_new started lim = Ok s0 ∧ steps s0 es s.

Definition limits_valid (l : WatcherScheduleLimits) : Prop :=
  1 ≤ debounce l ≤ MAX_WATCHER_DEBOUNCE_MS ∧ 1 ≤ periodic l ≤ MAX_WATCHER_PERIODIC_MS ∧
  1 ≤ retry_delay l ≤ MAX_WATCHER_RETRY_DELAY_MS ∧ 1 ≤ max_retries l ≤ MAX_WATCHER_RETRIES.

Definition counters_wf (c : WatcherStateCounters) : Prop :=
  in_u64 (reconciliations_started c) ∧ in_u64 (reconciliations_completed c) ∧
  in_u64 (retryable_failures c) ∧ in_u64 (coalesced_observations c) ∧
  in_u64 (backpressure_observations c) ∧ in_u64 (clock_regressions c).

Definition reason_wf (l : WatcherScheduleLimits) (attempts : Z)
    (r : option WatcherReconciliationReason) : Prop :=
  match r with Some (Retry a) => a = attempts ∧ 1 ≤ a ≤ max_retries l | _ => True end.

Definition retry_wf (l : WatcherScheduleLimits) (last attempts : Z) (r : option (Z * Z)) : Prop :=
  match r with
  | Some (at_, a) => in_u64 at_ ∧ at_ ≤ last + retry_delay l ∧ a = attempts ∧ 1 ≤ a ≤ max_retries l
  | None => True
  end.

Definition dirty_wf (l : WatcherScheduleLimits) (last : Z) (d : option Z) : Prop :=
  match d with Some until => in_u64 until ∧ until ≤ last + debounce l | None => True end.

Record schedule_wf (s : WatcherPollingState) : Prop := {
  wf_limits : limits_valid (limits s);
  wf_last : in_u64 (last_timestamp s);
  wf_periodic : in_u64 (next_periodic s) ∧ next_periodic s ≤ last_timestamp s + periodic (limits s);
  wf_dirty : dirty_wf (limits s) (last_timestamp s) (dirty_deadline s);
  wf_retry : retry_wf (limits s) (last_timestamp s) (retry_attempts s) (retry_deadline s);
  wf_reason : reason_wf (limits s) (retry_attempts s) (pending s);
  wf_slot : active s = true → pending s = None;
  wf_cancelled : cancelled s = true → pending s = None ∧ dirty_deadline s = None;
  wf_attempts : in_u16 (retry_attempts s);
  wf_exhausted : retry_exhausted s = true →
    max_retries (limits s) < retry_attempts s ∧ retry_deadline s = None;
  wf_counters : counters_wf (counters s);
}.

(** Evaluates an operation on a state taken apart and closes what arithmetic and the
    constructors decide. *)
Ltac split_state :=
  repeat first
    [ progress simplify_eq/=
    | case_bool_decide
    | match goal with
      | H : is_Some None |- _ => by destruct H
      | H : ¬ is_Some (Some _) |- _ => exfalso; apply H; eauto
      | H : checked _ _ = Some _ |- _ => apply checked_Some in H as [? H]
      | |- context [match ?x with _ => _ end] => destruct x eqn:?
      end ].

Ltac wf_field := simpl in *; try assumption; try done; try solve [intuition congruence].

Lemma increment_counter_spec get put s advanced s' :
  (∀ v c, get (put v c) = v) → in_u64 (get (counters s)) →
  increment_counter get put s = (advanced, s') →
  s' = set_counters (put (Z.min u64_max (get (counters s) + 1)) (counters s)) s ∧
  advanced = (get (counters s) <? u64_max).
Proof.
  intros Hg Hr. unfold increment_counter, increment, u64_saturating_add, in_u64 in *.
  intros [= <- <-]. split; [done|]. lia.
Qed.

Definition not_retry (r : WatcherReconciliationReason) : Prop := ∀ a, r ≠ Retry a.

Lemma not_retry_wf r l n : not_retry r → reason_wf l n (Some r).
Proof. intros H. destruct r; try done. by destruct (H attempt). Qed.

Lemma force_full_wf reason s :
  not_retry reason → schedule_wf s → schedule_wf (force_full reason s).
Proof.
  intros Hr%(λ H, not_retry_wf reason (limits s) (retry_attempts s) H) [].
  destruct s as [? ? ? ? ? [?|] [] ? ? ? [] ?]; constructor; wf_field.
Qed.

(** Writing the counters, the full flag or a later timestamp keeps the state well formed. *)

Lemma set_counters_wf c s : counters_wf c → schedule_wf s → schedule_wf (set_counters c s).
Proof. intros ? []. constructor; wf_field. Qed.

Lemma set_full_wf v s : schedule_wf s → schedule_wf (set_full v s).
Proof. intros []. constructor; wf_field. Qed.

Lemma set_last_timestamp_wf now s :
  in_u64 now → last_timestamp s ≤ now → schedule_wf s → schedule_wf (set_last_timestamp now s).
Proof.
  intros Hn Hle []. constructor; wf_field.
  - intuition lia.
  - unfold dirty_wf in *. destruct (dirty_deadline s); [intuition lia|done].
  - unfold retry_wf in *. destruct (retry_deadline s) as [[]|]; [intuition lia|done].
Qed.

Lemma set_retry_deadline_None_wf s : schedule_wf s → schedule_wf (set_retry_deadline None s).
Proof. intros []. constructor; wf_field. Qed.

Lemma set_pending_wf reason s :
  active s = false → cancelled s = false → reason_wf (limits s) (retry_attempts s) (Some reason) →
  schedule_wf s → schedule_wf (set_pending (Some reason) s).
Proof. intros ??? []. constructor; wf_field. Qed.

Lemma set_active_false_wf s : schedule_wf s → schedule_wf (set_active false s).
Proof. intros []. constructor; wf_field. Qed.

(** Starting the attempts over, which the code does when no retry is scheduled. *)
Lemma set_retry_zero_wf s :
  retry_deadline s = None → (∀ a, pending s ≠ Some (Retry a)) →
  schedule_wf s → schedule_wf (set_retry 0 false s).
Proof.
  intros Hd Hp []. constructor; wf_field.
  - by rewrite Hd.
  - destruct (pending s) as [[]|] eqn:E; try done. by destruct (Hp attempt).
Qed.

(** Incrementing a counter: an inconsequential change of the state, and the verdict. *)
Definition counter_put (get : WatcherStateCounters → Z)
    (put : Z → WatcherStateCounters → WatcherStateCounters) : Prop :=
  ∀ c, counters_wf c → in_u64 (get c) ∧
    ∀ v, in_u64 v → counters_wf (put v c) ∧ get (put v c) = v.

Ltac solve_put := unfold counter_put, counters_wf; naive_solver.

Lemma increment_counter_wf get put s advanced s' :
  counter_put get put → schedule_wf s → increment_counter get put s = (advanced, s') →
  schedule_wf s' ∧ s' = set_counters (counters s') s ∧ advanced = (get (counters s) <? u64_max).
Proof.
  intros Hp Hs [= <- <-]. destruct (Hp _ (wf_counters s Hs)) as [Hg Hput].
  unfold u64_saturating_add, in_u64 in *. split; [|split; [done|lia]].
  apply set_counters_wf; [|done]. apply Hput. lia.
Qed.

Lemma note_clock_regression_wf s : schedule_wf s → schedule_wf (note_clock_regression s).
Proof.
  intros Hs. unfold note_clock_regression. destruct (increment_counter _ _ s) eqn:E.
  apply increment_counter_wf in E as (Hs' & _ & _); [|solve_put|done].
  destruct (negb b); by apply force_full_wf.
Qed.

Lemma admit_clock_wf now s admitted s' :
  in_u64 now → schedule_wf s → admit_clock now s = (admitted, s') → schedule_wf s'.
Proof.
  intros Hn Hs. unfold admit_clock. destruct (now <? last_timestamp s) eqn:E; intros [= <- <-].
  - by apply note_clock_regression_wf.
  - apply set_last_timestamp_wf; [done|lia|done].
Qed.

(** What force_full and the clock leave alone. *)
Lemma force_full_cancelled r s : cancelled (force_full r s) = cancelled s.
Proof. unfold force_full. by case_match. Qed.

Lemma note_clock_regression_cancelled s : cancelled (note_clock_regression s) = cancelled s.
Proof.
  unfold note_clock_regression, increment_counter, increment. simpl.
  case_match; by rewrite force_full_cancelled.
Qed.

Lemma admit_clock_cancelled now s admitted s' :
  admit_clock now s = (admitted, s') → cancelled s' = cancelled s.
Proof.
  unfold admit_clock. case_match; intros [= <- <-]; [|done].
  apply note_clock_regression_cancelled.
Qed.

Lemma poll_wf now s : in_u64 now → schedule_wf s → schedule_wf (poll now s).2.
Proof.
  intros Hn Hs. unfold poll. destruct (cancelled s) eqn:Hcan; [done|].
  destruct (admit_clock now s) as [admitted s1] eqn:E.
  pose proof (admit_clock_wf _ _ _ _ Hn Hs E) as Hs1.
  rewrite <- (admit_clock_cancelled _ _ _ _ E) in Hcan. clear E Hs s.
  destruct admitted; cbn [negb].
  2:{ unfold pending_or_backpressured. destruct (pending s1) eqn:?; [done|].
      destruct (active s1) eqn:?; [done|]. by apply set_pending_wf. }
  destruct (pending s1) eqn:Hp; [done|]. destruct (active s1) eqn:Ha; [done|].
  destruct (retry_exhausted s1) eqn:Hx.
  { unfold poll_retry_exhausted. case_match; [|done].
    apply (set_pending_wf Periodic); [done..|].
    apply set_retry_zero_wf; [by apply (wf_exhausted s1)|congruence|done]. }
  pose proof (wf_retry s1 Hs1) as Hr.
  destruct (retry_deadline s1) as [[at_ a]|] eqn:Hd.
  { destruct (now <? at_); [done|]. apply set_pending_wf; [done..| |done].
    simpl. unfold retry_wf in Hr. intuition lia. }
  repeat case_match; simpl; try done; by apply set_pending_wf.
Qed.

Lemma observation_admission_wf full s :
  cancelled s = false → schedule_wf s → schedule_wf (observation_admission full s).2.
Proof.
  intros Hc Hs. unfold observation_admission. destruct (active s) eqn:Ha.
  { destruct (increment_counter _ _ s) as [adv s'] eqn:E.
    apply increment_counter_wf in E as (? & _ & _); [|solve_put|done].
    destruct adv; [done|]. by apply force_full_wf. }
  case_bool_decide as Hp.
  { destruct (increment_counter _ _ s) as [adv s'] eqn:E.
    apply increment_counter_wf in E as (? & _ & _); [|solve_put|done].
    destruct adv; [done|]. by apply force_full_wf. }
  destruct full; [|done]. by apply set_pending_wf.
Qed.

Lemma set_dirty_deadline_wf s until :
  cancelled s = false → in_u64 until → until ≤ last_timestamp s + debounce (limits s) →
  schedule_wf s → schedule_wf (set_dirty_deadline (Some until) s).
Proof. intros ??? []. constructor; wf_field. Qed.

(** An exhausted budget starts over with the observation. *)
Definition observed_budget (s : WatcherPollingState) : WatcherPollingState :=
  if retry_exhausted s then set_retry 0 false s else s.

Lemma observed_budget_wf s : schedule_wf s → schedule_wf (observed_budget s).
Proof.
  intros Hs. unfold observed_budget. destruct (retry_exhausted s) eqn:Hx; [|done].
  apply (wf_exhausted s Hs) in Hx as [Hx Hd]. apply set_retry_zero_wf; [done| |done].
  intros a Ha. pose proof (wf_reason s Hs) as Hr. rewrite Ha in Hr. simpl in Hr. lia.
Qed.

Lemma observe_wf now full s : in_u64 now → schedule_wf s → schedule_wf (observe now full s).2.
Proof.
  intros Hn Hs. unfold observe. destruct (cancelled s) eqn:Hcan; [done|].
  destruct (admit_clock now s) as [admitted s1] eqn:E.
  pose proof (admit_clock_wf _ _ _ _ Hn Hs E) as Hs1.
  rewrite <- (admit_clock_cancelled _ _ _ _ E) in Hcan.
  destruct admitted; cbn [negb]; [|done].
  assert (last_timestamp s1 = now) as Hl.
  { revert E. unfold admit_clock. case_match; intros [=]. by subst. }
  fold (observed_budget s1). pose proof (observed_budget_wf _ Hs1) as Hs2.
  assert (cancelled (observed_budget s1) = false ∧ last_timestamp (observed_budget s1) = now) as [Hc2 Hl2]
    by (unfold observed_budget; by case_match).
  destruct full.
  { apply observation_admission_wf; [done|]. by apply set_retry_deadline_None_wf, set_full_wf. }
  destruct (u64_checked_add now _) as [until|] eqn:Hu.
  - apply checked_Some in Hu as [-> Hu]. apply observation_admission_wf; [done|].
    apply set_dirty_deadline_wf; [done..|lia|done].
  - by apply force_full_wf.
Qed.

Lemma begin_pending_wf s : schedule_wf s → schedule_wf (begin_pending s).2.
Proof.
  intros Hs. unfold begin_pending. destruct (cancelled s) eqn:Hc; [done|].
  destruct (active s) eqn:Ha; [done|]. destruct (pending s) as [reason|] eqn:Hp; [|done].
  destruct (increment_counter _ _ s) as [adv s'] eqn:E.
  apply increment_counter_wf in E as (Hs' & _ & _); [|solve_put|done].
  destruct adv; cbn [negb]; [|by apply force_full_wf].
  assert (schedule_wf (set_full false (set_retry_deadline None (set_dirty_deadline None
    (set_active true (set_pending None s')))))) by (destruct Hs'; constructor; wf_field).
  destruct reason; simpl; try done. by apply set_retry_zero_wf.
Qed.

Lemma cancel_wf s : schedule_wf s → schedule_wf (cancel s).
Proof. intros []. unfold cancel. constructor; wf_field. Qed.

Lemma complete_success_wf now s :
  in_u64 now → last_timestamp s = now → pending s = None → schedule_wf s →
  schedule_wf (complete_success now s).2.
Proof.
  intros Hn Hl Hp Hs. unfold complete_success. destruct (u64_checked_add now _) as [next|] eqn:Hu.
  2:{ by apply force_full_wf, set_active_false_wf. }
  apply checked_Some in Hu as [-> Hu].
  destruct (increment_counter _ _ s) as [adv s'] eqn:E.
  apply increment_counter_wf in E as (Hs' & E & _); [|solve_put|done].
  destruct adv; cbn [negb snd]; [|by apply force_full_wf, set_active_false_wf].
  assert (pending s' = None) as Hp' by by rewrite E.
  assert (last_timestamp s' = now ∧ limits s' = limits s) as [Hl' Hm'] by by rewrite E.
  apply set_retry_zero_wf; simpl; [done|congruence|].
  rewrite <- Hm' in *. destruct Hs'. constructor; wf_field. split; [done|lia].
Qed.

Lemma complete_retryable_failure_wf now s :
  in_u64 now → last_timestamp s = now → pending s = None → schedule_wf s →
  schedule_wf (complete_retryable_failure now s).2.
Proof.
  intros Hn Hl Hp Hs. unfold complete_retryable_failure.
  destruct (increment_counter _ _ (set_active false s)) as [adv s'] eqn:E.
  apply increment_counter_wf in E as (Hs' & E & _); [|solve_put|by apply set_active_false_wf].
  destruct adv; cbn [negb]; [|by apply force_full_wf].
  destruct (u16_checked_add _ 1) as [next|] eqn:Hn1; [|by apply force_full_wf].
  apply checked_Some in Hn1 as [-> Hn1].
  assert (pending s' = None ∧ last_timestamp s' = now) as [Hp' Hl'] by by rewrite E.
  simpl. destruct (max_retries (limits s') <? retry_attempts s' + 1) eqn:Hx.
  - destruct Hs'. constructor; wf_field; [by rewrite Hp'|]. intros _. split; [lia|done].
  - assert (retry_exhausted s' = false) as Hx0.
    { destruct (retry_exhausted s') eqn:Hx0; [|done]. apply (wf_exhausted s' Hs') in Hx0. lia. }
    destruct (u64_checked_add now _) as [at_|] eqn:Ha.
    + apply checked_Some in Ha as [-> Ha].
      destruct Hs'. constructor; wf_field; [|by rewrite Hp'].
      unfold in_u16 in *. split_and!; [done|lia|done|lia..].
    + match goal with |- schedule_wf (_, force_full ?r ?x).2 =>
        change (schedule_wf (force_full r (set_retry_deadline None x))) end.
      apply force_full_wf; [done|]. destruct Hs'. constructor; wf_field. by rewrite Hp'.
Qed.

Lemma complete_wf now c s : in_u64 now → schedule_wf s → schedule_wf (complete now c s).2.
Proof.
  intros Hn Hs. unfold complete. destruct (active s) eqn:Ha; cbn [negb]; [|done].
  destruct (now <? last_timestamp s) eqn:Hl; [by apply note_clock_regression_wf|].
  assert (schedule_wf (set_last_timestamp now s)) by (apply set_last_timestamp_wf; [done|lia|done]).
  pose proof (wf_slot s Hs Ha). destruct c.
  - by apply complete_success_wf.
  - by apply complete_retryable_failure_wf.
  - by apply cancel_wf, set_active_false_wf.
Qed.

Lemma step_wf s e s' : step s e s' → schedule_wf s → schedule_wf s'.
Proof.
  intros []; [by apply poll_wf|by apply observe_wf|apply begin_pending_wf|by apply complete_wf|
    apply cancel_wf].
Qed.

Lemma steps_wf s es s' : steps s es s' → schedule_wf s → schedule_wf s'.
Proof. induction 1; intros; [done|]. eapply step_wf; eauto. Qed.

Lemma limits_try_new_spec d p r m l :
  limits_try_new d p r m = Ok l → 0 ≤ d → 0 ≤ p → 0 ≤ r → 0 ≤ m →
  l = Build_WatcherScheduleLimits d p r m ∧ limits_valid l.
Proof.
  unfold limits_try_new, validate_schedule_limits. intros H. inv_ok. intros. split; [done|].
  unfold limits_valid. simpl. lia.
Qed.

Lemma schedule_new_wf started l s :
  in_u64 started → limits_valid l → schedule_new started l = Ok s → schedule_wf s.
Proof.
  unfold schedule_new. intros Hs Hl H. inv_ok. apply checked_Some in Heqo as [-> Hn].
  constructor; wf_field; unfold counters_wf, in_u64, in_u16, u64_max, u16_max; simpl; lia.
Qed.

Lemma reaches_wf lim es s : reaches lim es s → schedule_wf s.
Proof.
  intros (d & p & r & m & t & s0 & Hl & ? & ? & ? & ? & Ht & Hn & Hs).
  apply limits_try_new_spec in Hl as [-> ?]; [|done..].
  eapply steps_wf; [done|]. by eapply schedule_new_wf.
Qed.

(** ** The single-slot contract

    What the machine promises, with the clocks, deadlines and counters left out: one
    slot that is idle, holds one pending reason, or runs one reconciliation, until it is
    stopped (while a reconciliation may still be running). *)

Inductive Slot :=
| SlotIdle
| SlotPending (reason : WatcherReconciliationReason)
| SlotActive
| SlotStopped (running : bool).

Definition slot (s : WatcherPollingState) : Slot :=
  if cancelled s then SlotStopped (active s) else
  if active s then SlotActive else
  match pending s with Some r => SlotPending r | None => SlotIdle end.

(** A mandatory full reconciliation takes an idle slot and coalesces with any other. *)
Inductive escalates : Slot → Slot → Prop :=
| EscIdle r : not_retry r → escalates SlotIdle (SlotPending r)
| EscKept x : x ≠ SlotIdle → escalates x x.

Inductive slot_step : Slot → WatcherEvent → Slot → Prop :=
| SlotPollPending now r : slot_step (SlotPending r) (EPoll now (PollPending r)) (SlotPending r)
| SlotPollDue now r : slot_step SlotIdle (EPoll now (PollPending r)) (SlotPending r)
| SlotPollWaiting now d :
    match d with
    | PollDebouncing _ | PollWaitingPeriodic _ | PollWaitingRetry _ _ | PollRetryExhausted => True
    | _ => False
    end → slot_step SlotIdle (EPoll now d) SlotIdle
| SlotPollActive now : slot_step SlotActive (EPoll now PollBackpressured) SlotActive
| SlotPollStopped now b : slot_step (SlotStopped b) (EPoll now PollCancelled) (SlotStopped b)
| SlotObserveDirty now : slot_step SlotIdle (EObserve now false ObservedDirtyDebouncing) SlotIdle
| SlotObserveFull now full :
    slot_step SlotIdle (EObserve now full ObservedFullReconciliationPending)
      (SlotPending FullReconciliationRequired)
| SlotObservePending now full r :
    slot_step (SlotPending r) (EObserve now full ObservedCoalesced) (SlotPending r)
| SlotObserveActive now full : slot_step SlotActive (EObserve now full ObservedBackpressured) SlotActive
| SlotObserveForced now full o x x' :
    match o with
    | ObservedClockRegression | ObservedTimestampOverflow | ObservedCounterOverflow => True
    | _ => False
    end → (∀ b, x ≠ SlotStopped b) → escalates x x' → slot_step x (EObserve now full o) x'
| SlotObserveStopped now full b :
    slot_step (SlotStopped b) (EObserve now full ObservedCancelled) (SlotStopped b)
| SlotBegin r : slot_step (SlotPending r) (EBegin (Ok r)) SlotActive
| SlotBeginOverflow r : slot_step (SlotPending r) (EBegin (Err ErrCounterOverflow)) (SlotPending r)
| SlotBeginIdle : slot_step SlotIdle (EBegin (Err ErrNoPendingReconciliation)) SlotIdle
| SlotBeginActive : slot_step SlotActive (EBegin (Err ErrReconciliationAlreadyActive)) SlotActive
| SlotBeginStopped b : slot_step (SlotStopped b) (EBegin (Err ErrCancelled)) (SlotStopped b)
| SlotComplete now c o :
    match c, o with
    | Succeeded, OutcomeCompleted | RetryableFailure, OutcomeRetryScheduled _ _
    | RetryableFailure, OutcomeRetryExhausted => True
    | _, _ => False
    end → slot_step SlotActive (EComplete now c (Ok o)) SlotIdle
| SlotCompleteStopped now c r :
    r ≠ Err ErrNoActiveReconciliation → r ≠ Err ErrClockRegression →
    slot_step (SlotStopped true) (EComplete now c r) (SlotStopped false)
| SlotCompleteOverflow now c e r :
    e = ErrTimestampOverflow ∨ e = ErrCounterOverflow → not_retry r →
    slot_step SlotActive (EComplete now c (Err e)) (SlotPending r)
| SlotCompleteCancelled now :
    slot_step SlotActive (EComplete now CompletionCancelled (Ok OutcomeCancelled)) (SlotStopped false)
| SlotCompleteRegressed now c x :
    x = SlotActive ∨ x = SlotStopped true →
    slot_step x (EComplete now c (Err ErrClockRegression)) x
| SlotCompleteNone now c x :
    x ≠ SlotActive → x ≠ SlotStopped true →
    slot_step x (EComplete now c (Err ErrNoActiveReconciliation)) x
| SlotCancel x :
    slot_step x ECancel
      (SlotStopped (match x with SlotActive => true | SlotStopped b => b | _ => false end)).

Inductive slot_steps : Slot → list WatcherEvent → Slot → Prop :=
| SlotStepsNil x : slot_steps x [] x
| SlotStepsSnoc x es x' e x'' : slot_steps x es x' → slot_step x' e x'' → slot_steps x (es ++ [e]) x''.

Lemma force_full_slot r s :
  not_retry r → (active s = true → pending s = None) →
  (∃ b, slot s = SlotStopped b ∧ slot (force_full r s) = SlotStopped b) ∨
  ((∀ b, slot s ≠ SlotStopped b) ∧ escalates (slot s) (slot (force_full r s))).
Proof.
  intros Hr Hs. destruct s as [? ? ? ? ? [p|] [] ? ? ? [] ?]; unfold slot, force_full; simpl in *;
    [left; eauto| | | |left; eauto| |..]; eauto; right; (split; [done|by constructor]).
Qed.

(** Evaluates one operation on every shape of the slot. *)
Ltac slot_cases s :=
  destruct s as [? ? ? ? ? [?|] [] ? ? ? [] ?]; simpl;
  unfold observe, admit_clock, note_clock_regression, poll_retry_exhausted, force_full,
    pending_or_backpressured, observation_admission, complete_success,
    complete_retryable_failure, increment_counter, increment, make_pending; simpl;
  repeat (case_match; simpl in *; simplify_eq); unfold slot; simpl.

Lemma step_refines s e s' : schedule_wf s → step s e s' → slot_step (slot s) e (slot s').
Proof.
  intros Hs Hstep. pose proof (wf_slot s Hs) as Hslot. pose proof (wf_cancelled s Hs) as Hcan.
  destruct Hstep as [now s Hn|now full s Hn|s|now c s Hn|s].
  - unfold poll. slot_cases s; try (by destruct Hcan); try (by discriminate Hslot); by constructor.
  - slot_cases s; try (by destruct Hcan); try (by discriminate Hslot); try by constructor.
    all: try (apply SlotObserveForced; [done|done|by constructor]).
  - unfold begin_pending. slot_cases s; try (by destruct Hcan); try (by discriminate Hslot); by constructor.
  - unfold complete. slot_cases s; try (by destruct Hcan); try (by discriminate Hslot).
    all: first [by constructor | by constructor; auto].
  - unfold cancel. destruct s as [? ? ? ? ? [?|] [] ? ? ? [] ?]; simpl in *;
      try (by destruct Hcan); try (by discriminate Hslot);
      first [apply (SlotCancel (SlotStopped _))|apply (SlotCancel SlotActive)
            |apply (SlotCancel (SlotPending _))|apply (SlotCancel SlotIdle)].
Qed.

(** Events that start a reconciliation, and events that end one. *)
Definition is_start (e : WatcherEvent) : bool :=
  match e with EBegin (Ok _) => true | _ => false end.
Definition is_end (e : WatcherEvent) : bool :=
  match e with
  | EComplete _ _ (Err (ErrNoActiveReconciliation | ErrClockRegression)) => false
  | EComplete _ _ _ => true
  | _ => false
  end.
Definition running (x : Slot) : bool :=
  match x with SlotActive => true | SlotStopped b => b | _ => false end.

Definition occurrences (p : WatcherEvent → bool) (es : list WatcherEvent) : nat :=
  length (filter (λ e, p e = true) es).

Lemma occurrences_snoc p es e :
  occurrences p (es ++ [e]) = (occurrences p es + Nat.b2n (p e))%nat.
Proof.
  unfold occurrences. rewrite filter_app, length_app. f_equal.
  rewrite filter_cons, filter_nil. by destruct (p e).
Qed.

Lemma slot_step_running x e x' :
  slot_step x e x' →
  (Nat.b2n (is_start e) + Nat.b2n (running x) = Nat.b2n (is_end e) + Nat.b2n (running x'))%nat.
Proof.
  destruct 1; simpl; try done.
  - by destruct H1.
  - by destruct r as [|[]].
  - by destruct H as [-> | ->].
Qed.

Lemma slot_steps_running x es x' :
  slot_steps x es x' →
  (occurrences is_start es + Nat.b2n (running x) = occurrences is_end es + Nat.b2n (running x'))%nat.
Proof.
  induction 1 as [|x es x' e x'' _ IH H%slot_step_running]; [done|].
  rewrite !occurrences_snoc. lia.
Qed.

Lemma steps_refine s es s' : schedule_wf s → steps s es s' → slot_steps (slot s) es (slot s').
Proof.
  intros Hs Hsteps. induction Hsteps as [|s es s' e s'' Hes IH Hstep]; [constructor|].
  econstructor; [by apply IH|]. apply step_refines; [|done]. by eapply steps_wf.
Qed.

Ltac slot_eval :=
  unfold poll, begin_pending, complete, cancel, observe, admit_clock,
    note_clock_regression, poll_retry_exhausted, force_full, pending_or_backpressured,
    observation_admission, complete_success, complete_retryable_failure, increment_counter,
    increment, make_pending; simpl;
  repeat (case_match; unfold force_full, increment_counter in *; simpl in *; simplify_eq/=).

Lemma step_limits s e s' : step s e s' → limits s' = limits s.
Proof.
  destruct 1; destruct s; slot_eval; done.
Qed.

Lemma steps_limits s es s' : steps s es s' → limits s' = limits s.
Proof. induction 1 as [|s es s' e s'' _ IH H%step_limits]; congruence. Qed.

Lemma schedule_new_Ok started l s :
  schedule_new started l = Ok s → limits s = l ∧ slot s = SlotPending Startup.
Proof. unfold schedule_new. intros H. by inv_ok. Qed.

Lemma reaches_steps lim es s :
  reaches lim es s → ∃ s0, schedule_wf s0 ∧ limits s0 = lim ∧ slot s0 = SlotPending Startup ∧
    dirty_deadline s0 = None ∧ cancelled s0 = false ∧ steps s0 es s.
Proof.
  intros (d & p & r & m & t & s0 & Hl & ? & ? & ? & ? & Ht & Hn & Hs).
  exists s0. pose proof (schedule_new_Ok _ _ _ Hn) as [Hlim Hslot].
  apply limits_try_new_spec in Hl as [-> ?]; [|done..].
  pose proof (schedule_new_wf _ _ _ Ht H3 Hn). unfold schedule_new in Hn. by inv_ok.
Qed.

(** ** Outstanding work

    An observation the machine accepted is owed a reconciliation until one starts. *)

Definition owed_after (owed : bool) (e : WatcherEvent) : bool :=
  match e with
  | EObserve _ _ ObservedCancelled => owed
  | EObserve _ _ _ => true
  | EBegin (Ok _) | ECancel | EComplete _ CompletionCancelled (Ok _) => false
  | _ => owed
  end.
Definition owed (es : list WatcherEvent) : bool := foldl owed_after false es.

(** The work is still recorded: a debounce deadline, or the mandatory full flag. *)
Definition recorded (s : WatcherPollingState) : Prop :=
  is_Some (dirty_deadline s) ∨ full_reconciliation_required s = true.

Lemma step_owed s e s' b :
  step s e s' → (b = true → recorded s) → owed_after b e = true → recorded s'.
Proof.
  unfold recorded. intros Hstep Hb. destruct Hstep; destruct s; simpl in *; slot_eval;
    intros; try done; eauto.
Qed.

Lemma steps_owed s es s' : steps s es s' → owed es = true → recorded s'.
Proof.
  induction 1 as [|s es s' e s'' _ IH Hstep]; [done|].
  unfold owed in *. rewrite foldl_snoc. by eapply step_owed.
Qed.

(** ** Cancellation *)

(** How the stopped machine answers: nothing new is admitted. *)
Definition refused (e : WatcherEvent) : Prop :=
  match e with
  | EPoll _ d => d = PollCancelled
  | EObserve _ _ o => o = ObservedCancelled
  | EBegin r => r = Err ErrCancelled
  | _ => True
  end.

Lemma step_stopped s e s' : step s e s' → cancelled s = true → cancelled s' = true ∧ refused e.
Proof.
  intros Hstep Hc. destruct Hstep; destruct s; simpl in *; subst; slot_eval; done.
Qed.

(** ** Bounded staleness *)

(** Everything outstanding is due by this time. *)
Definition horizon (s : WatcherPollingState) : Z :=
  last_timestamp s + Z.max (periodic (limits s)) (retry_delay (limits s)).

Lemma poll_due now s :
  schedule_wf s → cancelled s = false → active s = false → horizon s ≤ now →
  ∃ r, (poll now s).1 = PollPending r ∧ pending (poll now s).2 = Some r.
Proof.
  intros Hs Hc Ha Hh. unfold horizon in Hh.
  destruct (wf_limits s Hs) as (_ & ? & ? & _).
  pose proof (wf_periodic s Hs) as [_ Hp]. pose proof (wf_retry s Hs) as Hr.
  unfold poll, admit_clock. rewrite Hc. destruct (now <? last_timestamp s) eqn:Hl; [lia|].
  cbn [negb pending set_last_timestamp]. destruct (pending s) as [r|] eqn:Hpe; [by exists r|].
  cbn [active set_last_timestamp retry_exhausted retry_deadline]. rewrite Ha.
  destruct (retry_exhausted s).
  { unfold poll_retry_exhausted. cbn [next_periodic set_last_timestamp].
    destruct (next_periodic s <=? now) eqn:?; [by eexists|lia]. }
  unfold retry_wf in Hr. destruct (retry_deadline s) as [[at_ a]|].
  { destruct (now <? at_) eqn:?; [lia|by eexists]. }
  cbn [full_reconciliation_required next_periodic set_last_timestamp].
  destruct (full_reconciliation_required s); [by eexists|].
  destruct (next_periodic s <=? now) eqn:?; [by eexists|lia].
Qed.

#[local] Arguments increment : simpl never.
#[local] Arguments u64_checked_add : simpl never.
#[local] Arguments u16_checked_add : simpl never.
#[local] Arguments Z.add : simpl never.
#[local] Arguments Z.mul : simpl never.

(** ** The retry budget *)

(** A reconciliation that keeps failing, each retry polled for and begun as soon as it is
    due: the outcomes of the first [n] completions. *)
Fixpoint failing_run (n : nat) (now : Z) (s : WatcherPollingState)
    : list (result WatcherStateError WatcherCompletionOutcome) :=
  match n with
  | O => []
  | S n =>
      let '(r, s) := complete now RetryableFailure s in
      r :: match r with
           | Ok (OutcomeRetryScheduled _ at_) => failing_run n at_ (begin_pending (poll at_ s).2).2
           | _ => failing_run n now s
           end
  end.

(** A running attempt with [k] retries behind it and room in the clock and the counters
    for [room] more. *)
Definition attempting (k room : Z) (s : WatcherPollingState) : Prop :=
  active s = true ∧ cancelled s = false ∧ retry_exhausted s = false ∧ pending s = None ∧
  retry_attempts s = k ∧ 0 ≤ last_timestamp s ∧ 0 < retry_delay (limits s) ∧
  last_timestamp s + room * retry_delay (limits s) ≤ u64_max ∧
  0 ≤ retryable_failures (counters s) ∧ retryable_failures (counters s) + room < u64_max ∧
  0 ≤ reconciliations_started (counters s) ∧ reconciliations_started (counters s) + room < u64_max.

Lemma saturating_step c :
  0 ≤ c → c < u64_max → u64_saturating_add c 1 = c + 1 ∧ (c + 1 =? c) = false.
Proof. intros. unfold u64_saturating_add. rewrite Z.min_r by lia. split; lia. Qed.

Lemma failing_attempt s k room :
  attempting k room s → 0 ≤ k < max_retries (limits s) → max_retries (limits s) ≤ MAX_WATCHER_RETRIES →
  1 ≤ room →
  let at_ := last_timestamp s + retry_delay (limits s) in
  (complete (last_timestamp s) RetryableFailure s).1 = Ok (OutcomeRetryScheduled (k + 1) at_) ∧
  let s' := (begin_pending (poll at_ (complete (last_timestamp s) RetryableFailure s).2).2).2 in
  attempting (k + 1) (room - 1) s' ∧ last_timestamp s' = at_ ∧ limits s' = limits s.
Proof.
  intros (Ha & Hc & Hx & Hp & Hk & Ht & Hd & Hr & Hf & Hf' & Hs & Hs') Hkm Hm Hroom at_.
  destruct s as [l t np d rd p a fu k0 x c cs]. simpl in *. subst a c x p k0.
  unfold complete. simpl. destruct (t <? t) eqn:?; [lia|]. unfold complete_retryable_failure,
    increment_counter. simpl. 
    edestruct saturating_step as [-> ->]; [..|simpl]; [lia..|].
  unfold MAX_WATCHER_RETRIES in Hm. unfold u16_checked_add, u16_max. rewrite checked_in by lia.
  simpl. destruct (max_retries l <? k + 1) eqn:?; [lia|].
  unfold u64_checked_add. rewrite checked_in by nia. simpl. split; [done|].
  unfold poll, admit_clock. simpl. subst at_. destruct (t + retry_delay l <? t) eqn:?; [lia|]. simpl.
  rewrite Z.ltb_irrefl. simpl. unfold begin_pending. simpl. unfold increment_counter. simpl.
  edestruct saturating_step as [-> ->]; [..|simpl]; [lia..|]. unfold attempting. simpl.
  split_and!; try done; lia.
Qed.

Lemma exhausting_attempt s k room :
  attempting k room s → k = max_retries (limits s) → max_retries (limits s) ≤ MAX_WATCHER_RETRIES →
  0 ≤ k → 0 ≤ room →
  (complete (last_timestamp s) RetryableFailure s).1 = Ok OutcomeRetryExhausted.
Proof.
  intros (Ha & Hc & Hx & Hp & Hk & Ht & Hd & Hr & Hf & Hf' & Hs & Hs') Hkm Hm ? Hroom.
  destruct s as [l t np d rd p a fu k0 x c cs]. simpl in *. subst a c x p k0.
  unfold complete. simpl. destruct (t <? t) eqn:?; [lia|]. unfold complete_retryable_failure,
    increment_counter. simpl. edestruct saturating_step as [-> ->]; [..|simpl]; [lia..|].
  unfold MAX_WATCHER_RETRIES in Hm. unfold u16_checked_add, u16_max. rewrite checked_in by lia.
  simpl. by destruct (max_retries l <? k + 1) eqn:?; [|lia].
Qed.

(** The outcomes of a run that fails until the budget is spent. *)
Definition scheduled_retries (from delay k : Z) (n : nat)
    : list (result WatcherStateError WatcherCompletionOutcome) :=
  map (λ i : nat, Ok (OutcomeRetryScheduled (k + 1 + Z.of_nat i) (from + (Z.of_nat i + 1) * delay)))
    (seq 0 n).

Lemma failing_run_outcomes n s k :
  attempting k (Z.of_nat n) s → 0 ≤ k → k + Z.of_nat n = max_retries (limits s) →
  max_retries (limits s) ≤ MAX_WATCHER_RETRIES →
  failing_run (S n) (last_timestamp s) s =
  scheduled_retries (last_timestamp s) (retry_delay (limits s)) k n ++ [Ok OutcomeRetryExhausted].
Proof.
  revert s k. induction n as [|n IH]; intros s k Hs Hk Hn Hm.
  - pose proof (exhausting_attempt s k _ Hs ltac:(lia) Hm Hk ltac:(lia)) as He. simpl.
    destruct (complete _ _ s) as [r s']. simpl in He. by rewrite He.
  - pose proof (failing_attempt s k _ Hs ltac:(lia) Hm ltac:(lia)) as (He & Hs' & Hl' & Hlim).
    replace (Z.of_nat (S n) - 1) with (Z.of_nat n) in Hs' by lia.
    specialize (IH _ (k + 1) Hs' ltac:(lia)). rewrite Hl', Hlim in IH.
    specialize (IH ltac:(lia) Hm). remember (S n) as m eqn:Hmn. cbn [failing_run].
    destruct (complete _ _ s) as [r s1] eqn:E. simpl in He, IH. subst r. rewrite IH. subst m.
    unfold scheduled_retries. cbn [seq map app]. apply f_equal2; [do 2 f_equal; lia|].
    apply f_equal2; [|done]. rewrite <- seq_shift, map_map. apply map_ext. intros i.
    do 2 f_equal; lia.
Qed.

(** ** Properties *)

(** The state invariant.  Whatever is injected, in whatever order, every state the
    machine reaches keeps the limits it was created with and is well formed: the slot holds
    a pending reason or an active reconciliation but never both, a stopped machine holds no
    pending or dirty work, every deadline is a [u64] no further ahead of the clock than its
    limit, a pending or scheduled retry carries the current attempt, within the retry
    limit, and the counters keep their width. *)
Theorem schedule_invariant lim es s : reaches lim es s → schedule_wf s ∧ limits s = lim.
Proof.
  intros H. split; [by eapply reaches_wf|].
  apply reaches_steps in H as (s0 & _ & <- & _ & _ & _ & H). by eapply steps_limits.
Qed.

(** C24: refinement and single flight.  Forgetting clocks and counters, every run is a run
    of the single-slot contract that starts with the mandatory startup reconciliation
    pending; so, as many reconciliations have ended as have started, but for the one that
    may be running. *)
Theorem schedule_refines_slot lim es s :
  reaches lim es s →
  slot_steps (SlotPending Startup) es (slot s) ∧
  occurrences is_start es = (occurrences is_end es + Nat.b2n (active s))%nat.
Proof.
  intros H. apply reaches_steps in H as (s0 & Hs0 & _ & Hslot & _ & _ & H).
  pose proof (steps_refine _ _ _ Hs0 H) as Hr. rewrite Hslot in Hr. split; [done|].
  apply slot_steps_running in Hr. simpl in Hr.
  replace (active s) with (running (slot s)); [lia|]. unfold slot. by repeat case_match.
Qed.

(** Cancellation is permanent: once the machine is cancelled it stays so, every later
    poll and observation answers that it is cancelled, and no reconciliation begins. *)
Theorem cancel_is_final s es s' :
  steps (cancel s) es s' → cancelled s' = true ∧ Forall refused es.
Proof.
  intros H. assert (∀ t, steps t es s' → cancelled t = true → cancelled s' = true ∧ Forall refused es)
    as Hgen; [clear H|by apply (Hgen (cancel s))].
  induction 1 as [|t es u e u' _ IH Hstep]; [done|]. intros [Hu Hes]%IH.
  apply step_stopped in Hstep as [? ?]; [|done]. split; [done|]. apply Forall_app. auto.
Qed.

(** C25: no observation is lost.  While an accepted observation has not been followed by
    the start of a reconciliation or by cancellation, its work is still recorded; and a
    machine that is neither stopped nor busy answers any poll at or after its horizon (the
    last timestamp plus the longer of the periodic interval and the retry delay) with a
    reason to reconcile, and keeps that reason pending. *)
Theorem observations_not_lost lim es s now :
  reaches lim es s →
  (owed es = true → recorded s) ∧
  (cancelled s = false → active s = false → horizon s ≤ now →
   ∃ r, (poll now s).1 = PollPending r ∧ pending (poll now s).2 = Some r).
Proof.
  intros H. split.
  - apply reaches_steps in H as (s0 & _ & _ & _ & _ & _ & H). by eapply steps_owed.
  - intros. apply poll_due; [by eapply reaches_wf|done..].
Qed.

(** The retry budget is exact.  A reconciliation on its first attempt that fails every
    time, each retry taken up when it falls due, is retried exactly [max_retries] times,
    with attempts counted from one and spaced by the retry delay; then the budget is
    exhausted. *)
Theorem retry_budget_exact s :
  limits_valid (limits s) → attempting 0 (max_retries (limits s)) s →
  failing_run (S (Z.to_nat (max_retries (limits s)))) (last_timestamp s) s =
  scheduled_retries (last_timestamp s) (retry_delay (limits s)) 0
    (Z.to_nat (max_retries (limits s))) ++ [Ok OutcomeRetryExhausted].
Proof.
  intros (_ & _ & _ & Hm) Hs. apply failing_run_outcomes; [|lia..]. by rewrite Z2Nat.id by lia.
Qed.

(** ** A run of the machine *)

Definition example_schedule : WatcherPollingState :=
  {| limits := DEFAULT; last_timestamp := 1000; next_periodic := 31000; dirty_deadline := None;
     retry_deadline := None; pending := Some Startup; active := false;
     full_reconciliation_required := false; retry_attempts := 0; retry_exhausted := false;
     cancelled := false; counters := counters_default |}.

(** The startup reconciliation begins and a file changes while it runs. *)
Definition example_running : WatcherPollingState :=
  (observe 1500 false (begin_pending example_schedule).2).2.
Definition example_idle : WatcherPollingState := (complete 1600 Succeeded example_running).2.
Definition example_events : list WatcherEvent :=
  [EBegin (Ok Startup); EObserve 1500 false ObservedBackpressured;
   EComplete 1600 Succeeded (Ok OutcomeCompleted)].

Lemma example_reaches : reaches DEFAULT example_events example_idle.
Proof.
  exists 250, 30000, 1000, 5, 1000, example_schedule.
  split_and!; try reflexivity; unfold in_u64, u64_max; try lia.
  apply (StepsSnoc _ [EBegin (Ok Startup); EObserve 1500 false ObservedBackpressured] example_running);
    [apply (StepsSnoc _ [EBegin (Ok Startup)] (begin_pending example_schedule).2);
       [apply (StepsSnoc _ [] example_schedule); [constructor|apply StepBegin]|]|].
  - apply (StepObserve 1500 false (begin_pending example_schedule).2). unfold in_u64, u64_max. lia.
  - apply (StepComplete 1600 Succeeded example_running). unfold in_u64, u64_max. lia.
Defined.

Lemma schedule_invariant_witness : schedule_wf example_idle ∧ limits example_idle = DEFAULT.
Proof. apply (schedule_invariant DEFAULT example_events), example_reaches. Defined.

Lemma schedule_refines_slot_witness :
  slot_steps (SlotPending Startup) example_events (slot example_idle) ∧
  occurrences is_start example_events = (occurrences is_end example_events + 0)%nat.
Proof. apply (schedule_refines_slot DEFAULT example_events example_idle), example_reaches. Defined.

Lemma cancel_is_final_witness :
  cancelled (cancel example_running) = true ∧ Forall refused [EPoll 9000 PollCancelled].
Proof.
  apply (cancel_is_final example_running [EPoll 9000 PollCancelled]).
  apply (StepsSnoc _ [] (cancel example_running)); [constructor|].
  apply (StepPoll 9000 (cancel example_running)). unfold in_u64, u64_max. lia.
Defined.

Lemma observations_not_lost_witness :
  recorded example_idle ∧ ∃ r, (poll 31600 example_idle).1 = PollPending r ∧
                               pending (poll 31600 example_idle).2 = Some r.
Proof.
  destruct (observations_not_lost DEFAULT example_events example_idle 31600 example_reaches) as [H1 H2].
  split; [by apply H1|]. apply H2; [reflexivity|reflexivity|]. vm_compute. discriminate.
Defined.

Lemma retry_budget_exact_witness :
  failing_run 6 1500 example_running =
  [Ok (OutcomeRetryScheduled 1 2500); Ok (OutcomeRetryScheduled 2 3500);
   Ok (OutcomeRetryScheduled 3 4500); Ok (OutcomeRetryScheduled 4 5500);
   Ok (OutcomeRetryScheduled 5 6500); Ok OutcomeRetryExhausted].
Proof.
  apply (retry_budget_exact example_running); repeat split; simpl;
    unfold MAX_WATCHER_DEBOUNCE_MS, MAX_WATCHER_PERIODIC_MS, MAX_WATCHER_RETRY_DELAY_MS,
      MAX_WATCHER_RETRIES, u64_max; try lia; vm_compute; congruence.
Defined.
