(* ===== verification/Configuration.v ===== *)
(** * Configuration layers

    Models [crates/repowitness-application/src/configuration/model.rs] and
    [configuration/retention.rs]: the validated overrides one provenance layer supplies.
    Numbers are [u64]; a [BTreeSet] is its strictly increasing list of members. *)

From Stdlib Require Import ZArith Lia ZifyBool.
From stdpp Require Import base numbers sorting list.
From S2P Require Import Prelude Ordering.

Open Scope Z_scope.

(** ** Limits ([model.rs], [retention.rs]) *)

Definition CONFIGURATION_SCHEMA_VERSION : Z := 1.
Definition MAX_CONFIGURATION_FILE_LAYERS : nat := 5.
Definition MAX_CONFIGURATION_QUERY_RESULTS : Z := 100.
Definition MAX_CONFIGURATION_CONTEXT_BYTES : Z := 1048576.
Definition MAX_CONFIGURATION_GRAPH_DEPTH : Z := 64.
Definition MAX_CONFIGURATION_GRAPH_RESULTS : Z := 10000.
Definition MAX_CONFIGURATION_SOURCE_FILE_BYTES : Z := 256 * 1024 * 1024.
Definition MAX_CONFIGURATION_SOURCE_FILES : Z := 1000000.
Definition MIN_CONFIGURATION_WATCHER_POLL_INTERVAL_MS : Z := 100.
Definition MAX_CONFIGURATION_WATCHER_POLL_INTERVAL_MS : Z := 24 * 60 * 60 * 1000.

Definition DEFAULT_CONFIGURATION_RETAINED_GENERATIONS_PER_SOURCE_SLOT : Z := 2.
Definition DEFAULT_CONFIGURATION_RETENTION_GENERATION_CANDIDATES : Z := 64.
Definition DEFAULT_CONFIGURATION_RETENTION_ROWS : Z := 1000000.
Definition DEFAULT_CONFIGURATION_RETENTION_BYTES : Z := 512 * 1024 * 1024.
Definition MAX_CONFIGURATION_RETAINED_GENERATIONS_PER_SOURCE_SLOT : Z := 4096.
Definition MAX_CONFIGURATION_RETENTION_GENERATION_CANDIDATES : Z := 4096.
Definition MAX_CONFIGURATION_RETENTION_ROWS : Z := 100000000.
Definition MAX_CONFIGURATION_RETENTION_BYTES : Z := 16 * 1024 * 1024 * 1024.

(** ** Enumerations *)

Inductive ConfigurationProfile := Local.

Inductive McpToolProfile := Canonical | Minimal.

Inductive SourceLanguage := Rust | Go | TypeScript | Tsx | Python.

Definition SUPPORTED_CONFIGURATION_LANGUAGES : list SourceLanguage :=
  [Rust; Go; TypeScript; Tsx; Python].

Inductive ConfigurationLayerKind :=
| BuiltInDefaults | NamedProfile | User | Workspace | Repository | Environment | Cli.

Definition precedence (k : ConfigurationLayerKind) : Z :=
  match k with
  | BuiltInDefaults => 0 | NamedProfile => 1 | User => 2 | Workspace => 3
  | Repository => 4 | Environment => 5 | Cli => 6
  end.

Definition is_caller_layer (k : ConfigurationLayerKind) : bool :=
  negb match k with BuiltInDefaults | NamedProfile => true | _ => false end.

Definition can_select_profile (k : ConfigurationLayerKind) : bool :=
  match k with User | Cli => true | _ => false end.

Inductive ConfigurationField :=
| QueryResults | ContextBytes | GraphDepth | GraphResults | WatcherPollIntervalMilliseconds
| SourceFileBytes | SourceFiles | RetainedGenerationsPerSourceSlot
| RetentionGenerationCandidates | RetentionRows | RetentionBytes.

Inductive ConfigurationValidationError :=
| InternalLayer
| ProfileSelectionNotAllowed
| Zero (field : ConfigurationField)
| AboveMaximum (field : ConfigurationField)
| BelowMinimum (field : ConfigurationField)
| TooManyLanguages
| TooManyToolProfiles
| FollowSymlinksUnsupported.

(** The derived orders are by declaration. *)

Definition tool_profile_rank (p : McpToolProfile) : Z :=
  match p with Canonical => 0 | Minimal => 1 end.
Definition language_rank (l : SourceLanguage) : Z :=
  match l with Rust => 0 | Go => 1 | TypeScript => 2 | Tsx => 3 | Python => 4 end.

#[export] Instance ConfigurationLayerKind_eq_dec : EqDecision ConfigurationLayerKind.
Proof. solve_decision. Defined.
#[export] Instance McpToolProfile_eq_dec : EqDecision McpToolProfile.
Proof. solve_decision. Defined.
#[export] Instance SourceLanguage_eq_dec : EqDecision SourceLanguage.
Proof. solve_decision. Defined.

Lemma tool_profile_rank_inj p q : tool_profile_rank p = tool_profile_rank q → p = q.
Proof. by destruct p, q. Qed.
Lemma language_rank_inj p q : language_rank p = language_rank q → p = q.
Proof. by destruct p, q. Qed.
Lemma precedence_inj k1 k2 : precedence k1 = precedence k2 → k1 = k2.
Proof. by destruct k1, k2. Qed.

#[export] Instance tool_profile_ord : RustOrd McpToolProfile := ord_by tool_profile_rank.
#[export] Instance tool_profile_ord_laws : RustOrdLaws McpToolProfile :=
  ord_by_laws tool_profile_rank tool_profile_rank_inj.
#[export] Instance language_ord : RustOrd SourceLanguage := ord_by language_rank.
#[export] Instance language_ord_laws : RustOrdLaws SourceLanguage :=
  ord_by_laws language_rank language_rank_inj.

(** ** Overrides *)

Definition validate_positive_maximum (value : option Z) (maximum : Z) (field : ConfigurationField)
    : result ConfigurationValidationError () :=
  match value with
  | Some value =>
      if value =? 0 then Err (Zero field)
      else if maximum <? value then Err (AboveMaximum field) else Ok ()
  | None => Ok ()
  end.

Record ConfigurationPreferenceOverrides := {
  pref_query_results : option Z;
  pref_context_bytes : option Z;
  pref_graph_depth : option Z;
  pref_graph_results : option Z;
  pref_watcher_poll_interval_ms : option Z;
  pref_mcp_tool_profile : option McpToolProfile;
}.

Definition preferences_try_new (query_results context_bytes graph_depth graph_results
    watcher_poll_interval_ms : option Z) (mcp_tool_profile : option McpToolProfile)
    : result ConfigurationValidationError ConfigurationPreferenceOverrides :=
  validate_positive_maximum query_results MAX_CONFIGURATION_QUERY_RESULTS QueryResults;;
  validate_positive_maximum context_bytes MAX_CONFIGURATION_CONTEXT_BYTES ContextBytes;;
  validate_positive_maximum graph_depth MAX_CONFIGURATION_GRAPH_DEPTH GraphDepth;;
  validate_positive_maximum graph_results MAX_CONFIGURATION_GRAPH_RESULTS GraphResults;;
  match watcher_poll_interval_ms with
  | Some value =>
      reject_if (value <? MIN_CONFIGURATION_WATCHER_POLL_INTERVAL_MS)
        (BelowMinimum WatcherPollIntervalMilliseconds);;
      reject_if (MAX_CONFIGURATION_WATCHER_POLL_INTERVAL_MS <? value)
        (AboveMaximum WatcherPollIntervalMilliseconds)
  | None => Ok ()
  end;;
  Ok {| pref_query_results := query_results; pref_context_bytes := context_bytes;
        pref_graph_depth := graph_depth; pref_graph_results := graph_results;
        pref_watcher_poll_interval_ms := watcher_poll_interval_ms;
        pref_mcp_tool_profile := mcp_tool_profile |}.

Record RetentionConfigurationOverrides := {
  ret_retained_generations_per_source_slot : option Z;
  ret_max_generation_candidates : option Z;
  ret_max_rows : option Z;
  ret_max_bytes : option Z;
}.

Definition retention_default : RetentionConfigurationOverrides :=
  Build_RetentionConfigurationOverrides None None None None.

Definition retention_try_new (retained_generations_per_source_slot max_generation_candidates
    max_rows max_bytes : option Z)
    : result ConfigurationValidationError RetentionConfigurationOverrides :=
  validate_positive_maximum retained_generations_per_source_slot
    MAX_CONFIGURATION_RETAINED_GENERATIONS_PER_SOURCE_SLOT RetainedGenerationsPerSourceSlot;;
  validate_positive_maximum max_generation_candidates
    MAX_CONFIGURATION_RETENTION_GENERATION_CANDIDATES RetentionGenerationCandidates;;
  validate_positive_maximum max_rows MAX_CONFIGURATION_RETENTION_ROWS RetentionRows;;
  validate_positive_maximum max_bytes MAX_CONFIGURATION_RETENTION_BYTES RetentionBytes;;
  Ok {| ret_retained_generations_per_source_slot := retained_generations_per_source_slot;
        ret_max_generation_candidates := max_generation_candidates;
        ret_max_rows := max_rows; ret_max_bytes := max_bytes |}.

Record ConfigurationPolicyOverrides := {
  pol_allowed_languages : option (list SourceLanguage);
  pol_allowed_mcp_tool_profiles : option (list McpToolProfile);
  pol_max_source_file_bytes : option Z;
  pol_max_source_files : option Z;
  pol_max_query_results : option Z;
  pol_max_context_bytes : option Z;
  pol_max_graph_depth : option Z;
  pol_max_graph_results : option Z;
  pol_deny_memory_writes : option bool;
  pol_follow_symlinks : option bool;
  pol_retention : RetentionConfigurationOverrides;
}.

(** [Option::is_some_and]. *)
Definition is_some_and {A} (o : option A) (p : A → bool) : bool :=
  match o with Some a => p a | None => false end.

Definition policy_try_new (allowed_languages : option (list SourceLanguage))
    (allowed_mcp_tool_profiles : option (list McpToolProfile))
    (max_source_file_bytes max_source_files max_query_results max_context_bytes
     max_graph_depth max_graph_results : option Z)
    (deny_memory_writes follow_symlinks : option bool)
    : result ConfigurationValidationError ConfigurationPolicyOverrides :=
  reject_if (is_some_and allowed_languages (λ languages,
      length SUPPORTED_CONFIGURATION_LANGUAGES <? length languages)%nat) TooManyLanguages;;
  reject_if (is_some_and allowed_mcp_tool_profiles (λ profiles, 3 <? length profiles)%nat)
    TooManyToolProfiles;;
  validate_positive_maximum max_source_file_bytes MAX_CONFIGURATION_SOURCE_FILE_BYTES SourceFileBytes;;
  validate_positive_maximum max_source_files MAX_CONFIGURATION_SOURCE_FILES SourceFiles;;
  validate_positive_maximum max_query_results MAX_CONFIGURATION_QUERY_RESULTS QueryResults;;
  validate_positive_maximum max_context_bytes MAX_CONFIGURATION_CONTEXT_BYTES ContextBytes;;
  validate_positive_maximum max_graph_depth MAX_CONFIGURATION_GRAPH_DEPTH GraphDepth;;
  validate_positive_maximum max_graph_results MAX_CONFIGURATION_GRAPH_RESULTS GraphResults;;
  reject_if (bool_decide (follow_symlinks = Some true)) FollowSymlinksUnsupported;;
  Ok {| pol_allowed_languages := allowed_languages;
        pol_allowed_mcp_tool_profiles := allowed_mcp_tool_profiles;
        pol_max_source_file_bytes := max_source_file_bytes;
        pol_max_source_files := max_source_files;
        pol_max_query_results := max_query_results;
        pol_max_context_bytes := max_context_bytes;
        pol_max_graph_depth := max_graph_depth;
        pol_max_graph_results := max_graph_results;
        pol_deny_memory_writes := deny_memory_writes;
        pol_follow_symlinks := follow_symlinks;
        pol_retention := retention_default |}.

Definition with_retention (p : ConfigurationPolicyOverrides) (retention : RetentionConfigurationOverrides)
    : ConfigurationPolicyOverrides :=
  {| pol_allowed_languages := pol_allowed_languages p;
     pol_allowed_mcp_tool_profiles := pol_allowed_mcp_tool_profiles p;
     pol_max_source_file_bytes := pol_max_source_file_bytes p;
     pol_max_source_files := pol_max_source_files p;
     pol_max_query_results := pol_max_query_results p;
     pol_max_context_bytes := pol_max_context_bytes p;
     pol_max_graph_depth := pol_max_graph_depth p;
     pol_max_graph_results := pol_max_graph_results p;
     pol_deny_memory_writes := pol_deny_memory_writes p;
     pol_follow_symlinks := pol_follow_symlinks p;
     pol_retention := retention |}.

Record ConfigurationLayer := {
  layer_kind : ConfigurationLayerKind;
  layer_profile : option ConfigurationProfile;
  layer_preferences : ConfigurationPreferenceOverrides;
  layer_policy : ConfigurationPolicyOverrides;
}.

Definition layer_try_new (kind : ConfigurationLayerKind) (profile : option ConfigurationProfile)
    (preferences : ConfigurationPreferenceOverrides) (policy : ConfigurationPolicyOverrides)
    : result ConfigurationValidationError ConfigurationLayer :=
  reject_if (negb (is_caller_layer kind)) InternalLayer;;
  reject_if (bool_decide (is_Some profile) && negb (can_select_profile kind))
    ProfileSelectionNotAllowed;;
  Ok {| layer_kind := kind; layer_profile := profile; layer_preferences := preferences;
        layer_policy := policy |}.

(** ** What validation admits *)

(** An optional request within [1..=maximum]. *)
Definition positive_maximum (value : option Z) (maximum : Z) : Prop :=
  match value with Some v => 1 ≤ v ≤ maximum | None => True end.

(** A request is a [u64] when given. *)
Definition opt_u64 (value : option Z) : Prop :=
  match value with Some v => in_u64 v | None => True end.

Definition preferences_valid (p : ConfigurationPreferenceOverrides) : Prop :=
  positive_maximum (pref_query_results p) MAX_CONFIGURATION_QUERY_RESULTS ∧
  positive_maximum (pref_context_bytes p) MAX_CONFIGURATION_CONTEXT_BYTES ∧
  positive_maximum (pref_graph_depth p) MAX_CONFIGURATION_GRAPH_DEPTH ∧
  positive_maximum (pref_graph_results p) MAX_CONFIGURATION_GRAPH_RESULTS ∧
  match pref_watcher_poll_interval_ms p with
  | Some v => MIN_CONFIGURATION_WATCHER_POLL_INTERVAL_MS ≤ v ≤
              MAX_CONFIGURATION_WATCHER_POLL_INTERVAL_MS
  | None => True
  end.

Definition retention_valid (r : RetentionConfigurationOverrides) : Prop :=
  positive_maximum (ret_retained_generations_per_source_slot r)
    MAX_CONFIGURATION_RETAINED_GENERATIONS_PER_SOURCE_SLOT ∧
  positive_maximum (ret_max_generation_candidates r)
    MAX_CONFIGURATION_RETENTION_GENERATION_CANDIDATES ∧
  positive_maximum (ret_max_rows r) MAX_CONFIGURATION_RETENTION_ROWS ∧
  positive_maximum (ret_max_bytes r) MAX_CONFIGURATION_RETENTION_BYTES.

Definition opt_set_wf {A} `{RustOrdLaws A} (s : option (list A)) : Prop :=
  match s with Some s => bset_wf s | None => True end.

Definition policy_valid (p : ConfigurationPolicyOverrides) : Prop :=
  opt_set_wf (pol_allowed_languages p) ∧ opt_set_wf (pol_allowed_mcp_tool_profiles p) ∧
  positive_maximum (pol_max_source_file_bytes p) MAX_CONFIGURATION_SOURCE_FILE_BYTES ∧
  positive_maximum (pol_max_source_files p) MAX_CONFIGURATION_SOURCE_FILES ∧
  positive_maximum (pol_max_query_results p) MAX_CONFIGURATION_QUERY_RESULTS ∧
  positive_maximum (pol_max_context_bytes p) MAX_CONFIGURATION_CONTEXT_BYTES ∧
  positive_maximum (pol_max_graph_depth p) MAX_CONFIGURATION_GRAPH_DEPTH ∧
  positive_maximum (pol_max_graph_results p) MAX_CONFIGURATION_GRAPH_RESULTS ∧
  pol_follow_symlinks p ≠ Some true ∧ retention_valid (pol_retention p).

Record layer_valid (l : ConfigurationLayer) : Prop := {
  valid_caller : is_caller_layer (layer_kind l) = true;
  valid_profile : is_Some (layer_profile l) → can_select_profile (layer_kind l) = true;
  valid_preferences : preferences_valid (layer_preferences l);
  valid_policy : policy_valid (layer_policy l);
}.

Lemma validate_positive_maximum_Ok value maximum field :
  opt_u64 value →
  (∃ u, validate_positive_maximum value maximum field = Ok u) ↔ positive_maximum value maximum.
Proof.
  unfold opt_u64, in_u64, validate_positive_maximum, positive_maximum.
  destruct value as [v|]; [|naive_solver]. intros Hv.
  destruct (v =? 0) eqn:E0; [split; [by intros []|lia]|].
  destruct (maximum <? v) eqn:E1; [split; [by intros []|lia]|].
  split; [lia|by eexists].
Qed.

Lemma reject_if_Ok {E} c (e : E) : (∃ u, reject_if c e = Ok u) ↔ c = false.
Proof. unfold reject_if. destruct c; split; try done; [by intros []|by eexists]. Qed.

Lemma reject_if_Err {E} c (e e' : E) : reject_if c e = Err e' → e' = e.
Proof. unfold reject_if. destruct c; naive_solver. Qed.

(** A sequence of validations succeeds when each of them does. *)
Lemma result_seq_Ok {E A B} (m : result E A) (k : result E B) :
  (∃ b, (m;; k) = Ok b) ↔ (∃ a, m = Ok a) ∧ ∃ b, k = Ok b.
Proof.
  unfold mbind, result_bind. destruct m as [a|]; split; [|by intros [_ ?]|by intros []|by intros [[] _]].
  intros ?. split; [by eexists|done].
Qed.

Lemma Ok_unique {E A} (m : result E A) (a : A) :
  (∀ a', m = Ok a' → a' = a) → m = Ok a ↔ ∃ a', m = Ok a'.
Proof. intros H. split; [by eexists|]. intros [a' Ha]. by rewrite <- (H a' Ha). Qed.

(** A set over an enumeration has at most as many members as the enumeration. *)
Lemma bset_length_le {A} `{RustOrdLaws A} (universe s : list A) :
  (∀ a, a ∈ universe) → bset_wf s → (length s ≤ length universe)%nat.
Proof.
  intros Hu Hs. apply submseteq_length, NoDup_submseteq; [by apply bset_wf_NoDup|].
  intros a _. apply Hu.
Qed.

Lemma languages_fit (s : option (list SourceLanguage)) :
  opt_set_wf s →
  is_some_and s (λ l, length SUPPORTED_CONFIGURATION_LANGUAGES <? length l)%nat = false.
Proof.
  destruct s as [s|]; [|done]. simpl. intros Hs.
  assert (length s ≤ 5)%nat.
  { apply (bset_length_le SUPPORTED_CONFIGURATION_LANGUAGES); [|done].
    intros []; unfold SUPPORTED_CONFIGURATION_LANGUAGES; rewrite !elem_of_cons; tauto. }
  by apply Nat.ltb_ge.
Qed.

Lemma tool_profiles_fit (s : option (list McpToolProfile)) :
  opt_set_wf s → is_some_and s (λ p, 3 <? length p)%nat = false.
Proof.
  destruct s as [s|]; [|done]. simpl. intros Hs.
  assert (length s ≤ 2)%nat.
  { apply (bset_length_le [Canonical; Minimal]); [|done]. intros []; rewrite !elem_of_cons; tauto. }
  apply Nat.ltb_ge. lia.
Qed.

(** ** Properties *)

Lemma policy_try_new_fits languages profiles bytes files results context depth graph deny follow :
  opt_set_wf languages → opt_set_wf profiles →
  policy_try_new languages profiles bytes files results context depth graph deny follow =
  (validate_positive_maximum bytes MAX_CONFIGURATION_SOURCE_FILE_BYTES SourceFileBytes;;
   validate_positive_maximum files MAX_CONFIGURATION_SOURCE_FILES SourceFiles;;
   validate_positive_maximum results MAX_CONFIGURATION_QUERY_RESULTS QueryResults;;
   validate_positive_maximum context MAX_CONFIGURATION_CONTEXT_BYTES ContextBytes;;
   validate_positive_maximum depth MAX_CONFIGURATION_GRAPH_DEPTH GraphDepth;;
   validate_positive_maximum graph MAX_CONFIGURATION_GRAPH_RESULTS GraphResults;;
   reject_if (bool_decide (follow = Some true)) FollowSymlinksUnsupported;;
   Ok (Build_ConfigurationPolicyOverrides languages profiles bytes files results context depth
         graph deny follow retention_default)).
Proof.
  intros Hl Hp. unfold policy_try_new. by rewrite languages_fit, tool_profiles_fit.
Qed.

Lemma validate_positive_maximum_Err value maximum field e :
  validate_positive_maximum value maximum field = Err e → e = Zero field ∨ e = AboveMaximum field.
Proof. unfold validate_positive_maximum. repeat case_match; naive_solver. Qed.

(** Validation of a policy request.  For set and [u64] arguments, [policy_try_new]
    succeeds exactly when every number given is positive and within its ceiling and
    symlink following is not requested, and then it returns the request unchanged, with no
    retention; the two guards on the sizes of the sets never fire. *)
Theorem policy_try_new_spec languages profiles bytes files results context depth graph deny follow :
  opt_set_wf languages → opt_set_wf profiles →
  Forall opt_u64 [bytes; files; results; context; depth; graph] →
  let r := policy_try_new languages profiles bytes files results context depth graph deny follow in
  let p := Build_ConfigurationPolicyOverrides languages profiles bytes files results context depth
             graph deny follow retention_default in
  ((∃ q, r = Ok q) ↔ policy_valid p) ∧ (∀ q, r = Ok q → q = p) ∧
  r ≠ Err TooManyLanguages ∧ r ≠ Err TooManyToolProfiles.
Proof.
  intros Hl Hp Hu r p. rewrite !Forall_cons in Hu. destruct Hu as (? & ? & ? & ? & ? & ? & _).
  subst r. rewrite policy_try_new_fits by done. fold p. split; [|split].
  - rewrite !result_seq_Ok, !validate_positive_maximum_Ok, reject_if_Ok, bool_decide_eq_false by done.
    unfold policy_valid, retention_valid. simpl. split; [intuition|]. intuition. by eexists.
  - intros q Hq. inv_ok. done.
  - clearbody p. unfold mbind, result_bind.
    split; repeat (case_match; try done); intros [= ->];
      repeat match goal with
      | H : validate_positive_maximum _ _ _ = Err _ |- _ =>
          apply validate_positive_maximum_Err in H as [|]; done
      | H : reject_if _ _ = Err _ |- _ => by apply reject_if_Err in H
      end.
Qed.

(** Validation of preferences and retention requests: each succeeds exactly on
    requests within the absolute schema bounds, and returns them unchanged. *)
Theorem overrides_try_new_spec results context depth graph watcher profile generations candidates
    rows max_bytes :
  Forall opt_u64 [results; context; depth; graph; watcher; generations; candidates; rows; max_bytes] →
  let p := Build_ConfigurationPreferenceOverrides results context depth graph watcher profile in
  let q := Build_RetentionConfigurationOverrides generations candidates rows max_bytes in
  (preferences_try_new results context depth graph watcher profile = Ok p ↔ preferences_valid p) ∧
  (∀ p', preferences_try_new results context depth graph watcher profile = Ok p' → p' = p) ∧
  (retention_try_new generations candidates rows max_bytes = Ok q ↔ retention_valid q) ∧
  (∀ q', retention_try_new generations candidates rows max_bytes = Ok q' → q' = q).
Proof.
  intros Hu p q. rewrite !Forall_cons in Hu. destruct Hu as (? & ? & ? & ? & Hw & ? & ? & ? & ? & _).
  assert (∀ p', preferences_try_new results context depth graph watcher profile = Ok p' → p' = p)
    as Hp by (unfold preferences_try_new; intros p' Hp; inv_ok; done).
  assert (∀ q', retention_try_new generations candidates rows max_bytes = Ok q' → q' = q)
    as Hq by (unfold retention_try_new; intros q' Hq; inv_ok; done).
  split; [|split; [done|split; [|done]]].
  - rewrite (Ok_unique _ p Hp). unfold preferences_try_new.
    rewrite !result_seq_Ok, !validate_positive_maximum_Ok by done. unfold preferences_valid, p. simpl.
    destruct watcher as [w|]; [|intuition by eexists].
    rewrite result_seq_Ok, !reject_if_Ok, !Z.ltb_ge. intuition by eexists.
  - rewrite (Ok_unique _ q Hq). unfold retention_try_new.
    rewrite !result_seq_Ok, !validate_positive_maximum_Ok by done. unfold retention_valid, q. simpl.
    intuition by eexists.
Qed.

Lemma policy_try_new_spec_witness :
  ∃ p, policy_try_new (Some [Rust; Go]) (Some [Canonical]) (Some 1024) None (Some 10) None (Some 64)
         (Some 10000) (Some true) (Some false) = Ok p.
Proof.
  apply (policy_try_new_spec (Some [Rust; Go]) (Some [Canonical]) (Some 1024) None (Some 10) None
    (Some 64) (Some 10000) (Some true) (Some false)).
  - repeat constructor.
  - repeat constructor.
  - repeat constructor; unfold in_u64, u64_max; lia.
  - repeat constructor; simpl; unfold MAX_CONFIGURATION_SOURCE_FILE_BYTES,
      MAX_CONFIGURATION_QUERY_RESULTS, MAX_CONFIGURATION_GRAPH_DEPTH,
      MAX_CONFIGURATION_GRAPH_RESULTS; try lia; done.
Defined.

Lemma overrides_try_new_spec_witness :
  preferences_try_new (Some 20) None (Some 8) None (Some 250) (Some Minimal) =
    Ok (Build_ConfigurationPreferenceOverrides (Some 20) None (Some 8) None (Some 250) (Some Minimal)).
Proof.
  apply (overrides_try_new_spec (Some 20) None (Some 8) None (Some 250) (Some Minimal) (Some 3) None None None).
  - repeat constructor; unfold in_u64, u64_max; lia.
  - repeat constructor; simpl; unfold MAX_CONFIGURATION_QUERY_RESULTS, MAX_CONFIGURATION_GRAPH_DEPTH,
      MIN_CONFIGURATION_WATCHER_POLL_INTERVAL_MS, MAX_CONFIGURATION_WATCHER_POLL_INTERVAL_MS; lia.
Defined.
