(* ===== verification/ConfigurationResolve.v ===== *)
(** * Resolving the configuration

    Models [crates/repowitness-application/src/configuration/resolve.rs] (the resolver),
    [configuration/resolved.rs] (its result) and [configuration/digest.rs] (the canonical
    encoding that is hashed).  SHA-256 is a parameter: it comes from a third-party crate. *)

From Stdlib Require Import ZArith Lia ZifyBool.
From stdpp Require Import base numbers sorting list.
From S2P Require Import Prelude Ordering Configuration.

Open Scope Z_scope.

(** ** Data *)

Definition CONFIGURATION_RESOLVER_VERSION : Z := 1.
Definition CONFIGURATION_DIGEST_VERSION : Z := 1.
Definition DEFAULT_CODE_SEARCH_RESULTS : Z := 20.
Definition DEFAULT_CONTEXT_BUILD_BUDGET_UNITS : Z := 65536.
Definition DEFAULT_GRAPH_DEPTH : Z := 8.
Definition DEFAULT_GRAPH_RESULTS : Z := 1000.
Definition DEFAULT_WATCHER_POLL_INTERVAL_MS : Z := 2000.

Inductive ConfigurationResolutionError :=
| TooManyLayers
| DuplicateLayer (kind : ConfigurationLayerKind).

Record ResolvedPreference (T : Type) := {
  requested : T;
  effective : T;
  supplied_by : ConfigurationLayerKind;
  constrained_by : list ConfigurationLayerKind;
}.
Arguments Build_ResolvedPreference {T} _ _ _ _.
Arguments requested {T} _.
Arguments effective {T} _.
Arguments supplied_by {T} _.
Arguments constrained_by {T} _.

Record ResolvedToolProfilePreference := {
  tool_requested : McpToolProfile;
  tool_supplied_by : ConfigurationLayerKind;
  tool_authorized : option McpToolProfile;
  tool_constrained_by : list ConfigurationLayerKind;
}.

Record PolicyValue (T : Type) := {
  policy_effective : T;
  constraining_layers : list ConfigurationLayerKind;
}.
Arguments Build_PolicyValue {T} _ _.
Arguments policy_effective {T} _.
Arguments constraining_layers {T} _.

Record EffectiveConfigurationPreferences := {
  eff_query_results : ResolvedPreference Z;
  eff_context_bytes : ResolvedPreference Z;
  eff_graph_depth : ResolvedPreference Z;
  eff_graph_results : ResolvedPreference Z;
  eff_watcher_poll_interval_ms : ResolvedPreference Z;
  eff_mcp_tool_profile : ResolvedToolProfilePreference;
}.

Record EffectiveRetentionConfiguration := {
  eff_retained_generations_per_source_slot : PolicyValue Z;
  eff_max_generation_candidates : PolicyValue Z;
  eff_max_rows : PolicyValue Z;
  eff_max_bytes : PolicyValue Z;
}.

Record EffectiveConfigurationPolicy := {
  eff_allowed_languages : PolicyValue (list SourceLanguage);
  eff_allowed_mcp_tool_profiles : PolicyValue (list McpToolProfile);
  eff_max_source_file_bytes : PolicyValue Z;
  eff_max_source_files : PolicyValue Z;
  eff_max_query_results : PolicyValue Z;
  eff_max_context_bytes : PolicyValue Z;
  eff_max_graph_depth : PolicyValue Z;
  eff_max_graph_results : PolicyValue Z;
  eff_deny_memory_writes : PolicyValue bool;
  eff_follow_symlinks : PolicyValue bool;
  eff_retention : EffectiveRetentionConfiguration;
}.

Record ResolvedConfiguration (ConfigurationDigest : Type) := {
  res_schema_version : Z;
  res_resolver_version : Z;
  res_profile : ConfigurationProfile;
  res_profile_supplied_by : ConfigurationLayerKind;
  res_preferences : EffectiveConfigurationPreferences;
  res_policy : EffectiveConfigurationPolicy;
  res_digest : ConfigurationDigest;
}.
Arguments Build_ResolvedConfiguration {ConfigurationDigest} _ _ _ _ _ _ _.
Arguments res_schema_version {ConfigurationDigest} _.
Arguments res_resolver_version {ConfigurationDigest} _.
Arguments res_profile {ConfigurationDigest} _.
Arguments res_profile_supplied_by {ConfigurationDigest} _.
Arguments res_preferences {ConfigurationDigest} _.
Arguments res_policy {ConfigurationDigest} _.
Arguments res_digest {ConfigurationDigest} _.

(** ** The policy accumulator *)

Record PolicyAccumulatorValue (T : Type) := {
  acc_effective : T;
  acc_layers : list ConfigurationLayerKind;
}.
Arguments Build_PolicyAccumulatorValue {T} _ _.
Arguments acc_effective {T} _.
Arguments acc_layers {T} _.

Definition value_built_in {T} (effective : T) : PolicyAccumulatorValue T :=
  Build_PolicyAccumulatorValue effective [BuiltInDefaults].

Definition value_finish {T} (v : PolicyAccumulatorValue T) : PolicyValue T :=
  Build_PolicyValue (acc_effective v) (acc_layers v).

Definition push_unique (layers : list ConfigurationLayerKind) (layer : ConfigurationLayerKind)
    : list ConfigurationLayerKind :=
  if negb (bool_decide (layer ∈ layers)) then layers ++ [layer] else layers.

Definition maximize (value : PolicyAccumulatorValue Z) (requested : option Z)
    (layer : ConfigurationLayerKind) : PolicyAccumulatorValue Z :=
  match requested with
  | None => value
  | Some requested =>
      if acc_effective value <? requested then
        Build_PolicyAccumulatorValue requested (push_unique (acc_layers value) layer)
      else if requested =? acc_effective value then
        Build_PolicyAccumulatorValue (acc_effective value) (push_unique (acc_layers value) layer)
      else value
  end.

Definition minimize (value : PolicyAccumulatorValue Z) (requested : option Z)
    (layer : ConfigurationLayerKind) : PolicyAccumulatorValue Z :=
  match requested with
  | None => value
  | Some requested =>
      if requested <? acc_effective value then
        Build_PolicyAccumulatorValue requested (push_unique (acc_layers value) layer)
      else if requested =? acc_effective value then
        Build_PolicyAccumulatorValue (acc_effective value) (push_unique (acc_layers value) layer)
      else value
  end.

Definition intersect {T} `{RustOrdLaws T} (value : PolicyAccumulatorValue (list T))
    (requested : list T) (layer : ConfigurationLayerKind) : PolicyAccumulatorValue (list T) :=
  let intersection := bset_inter (acc_effective value) requested in
  if bool_decide (intersection ≠ acc_effective value) || bool_decide (requested = acc_effective value)
  then Build_PolicyAccumulatorValue intersection (push_unique (acc_layers value) layer)
  else value.

Definition intersect_requested {T} `{RustOrdLaws T} (value : PolicyAccumulatorValue (list T))
    (requested : option (list T)) (layer : ConfigurationLayerKind) : PolicyAccumulatorValue (list T) :=
  match requested with Some requested => intersect value requested layer | None => value end.

Record RetentionPolicyAccumulator := {
  ra_retained_generations_per_source_slot : PolicyAccumulatorValue Z;
  ra_max_generation_candidates : PolicyAccumulatorValue Z;
  ra_max_rows : PolicyAccumulatorValue Z;
  ra_max_bytes : PolicyAccumulatorValue Z;
}.

Record PolicyAccumulator := {
  pa_allowed_languages : PolicyAccumulatorValue (list SourceLanguage);
  pa_allowed_mcp_tool_profiles : PolicyAccumulatorValue (list McpToolProfile);
  pa_max_source_file_bytes : PolicyAccumulatorValue Z;
  pa_max_source_files : PolicyAccumulatorValue Z;
  pa_max_query_results : PolicyAccumulatorValue Z;
  pa_max_context_bytes : PolicyAccumulatorValue Z;
  pa_max_graph_depth : PolicyAccumulatorValue Z;
  pa_max_graph_results : PolicyAccumulatorValue Z;
  pa_deny_memory_writes : PolicyAccumulatorValue bool;
  pa_follow_symlinks : PolicyAccumulatorValue bool;
  pa_retention : RetentionPolicyAccumulator;
}.

Definition policy_built_in : PolicyAccumulator :=
  {| pa_allowed_languages := value_built_in (bset_of_list SUPPORTED_CONFIGURATION_LANGUAGES);
     pa_allowed_mcp_tool_profiles := value_built_in (bset_of_list [Canonical]);
     pa_max_source_file_bytes := value_built_in MAX_CONFIGURATION_SOURCE_FILE_BYTES;
     pa_max_source_files := value_built_in MAX_CONFIGURATION_SOURCE_FILES;
     pa_max_query_results := value_built_in MAX_CONFIGURATION_QUERY_RESULTS;
     pa_max_context_bytes := value_built_in MAX_CONFIGURATION_CONTEXT_BYTES;
     pa_max_graph_depth := value_built_in MAX_CONFIGURATION_GRAPH_DEPTH;
     pa_max_graph_results := value_built_in MAX_CONFIGURATION_GRAPH_RESULTS;
     pa_deny_memory_writes := Build_PolicyAccumulatorValue false [];
     pa_follow_symlinks := value_built_in false;
     pa_retention :=
       {| ra_retained_generations_per_source_slot :=
            value_built_in DEFAULT_CONFIGURATION_RETAINED_GENERATIONS_PER_SOURCE_SLOT;
          ra_max_generation_candidates :=
            value_built_in DEFAULT_CONFIGURATION_RETENTION_GENERATION_CANDIDATES;
          ra_max_rows := value_built_in DEFAULT_CONFIGURATION_RETENTION_ROWS;
          ra_max_bytes := value_built_in DEFAULT_CONFIGURATION_RETENTION_BYTES |} |}.

(** The two flags of [PolicyAccumulator::apply]. *)
Definition deny (value : PolicyAccumulatorValue bool) (requested : option bool)
    (layer : ConfigurationLayerKind) : PolicyAccumulatorValue bool :=
  if bool_decide (requested = Some true)
  then Build_PolicyAccumulatorValue true (push_unique (acc_layers value) layer) else value.

Definition confirm_off (value : PolicyAccumulatorValue bool) (requested : option bool)
    (layer : ConfigurationLayerKind) : PolicyAccumulatorValue bool :=
  if bool_decide (requested = Some false)
  then Build_PolicyAccumulatorValue (acc_effective value) (push_unique (acc_layers value) layer)
  else value.

Definition policy_apply (p : PolicyAccumulator) (layer : ConfigurationLayerKind)
    (policy : ConfigurationPolicyOverrides) : PolicyAccumulator :=
  let retention := pol_retention policy in
  {| pa_allowed_languages :=
       intersect_requested (pa_allowed_languages p) (pol_allowed_languages policy) layer;
     pa_allowed_mcp_tool_profiles :=
       intersect_requested (pa_allowed_mcp_tool_profiles p) (pol_allowed_mcp_tool_profiles policy) layer;
     pa_max_source_file_bytes :=
       minimize (pa_max_source_file_bytes p) (pol_max_source_file_bytes policy) layer;
     pa_max_source_files := minimize (pa_max_source_files p) (pol_max_source_files policy) layer;
     pa_max_query_results := minimize (pa_max_query_results p) (pol_max_query_results policy) layer;
     pa_max_context_bytes := minimize (pa_max_context_bytes p) (pol_max_context_bytes policy) layer;
     pa_max_graph_depth := minimize (pa_max_graph_depth p) (pol_max_graph_depth policy) layer;
     pa_max_graph_results := minimize (pa_max_graph_results p) (pol_max_graph_results policy) layer;
     pa_deny_memory_writes := deny (pa_deny_memory_writes p) (pol_deny_memory_writes policy) layer;
     pa_follow_symlinks := confirm_off (pa_follow_symlinks p) (pol_follow_symlinks policy) layer;
     pa_retention :=
       {| ra_retained_generations_per_source_slot :=
            maximize (ra_retained_generations_per_source_slot (pa_retention p))
              (ret_retained_generations_per_source_slot retention) layer;
          ra_max_generation_candidates :=
            minimize (ra_max_generation_candidates (pa_retention p))
              (ret_max_generation_candidates retention) layer;
          ra_max_rows := minimize (ra_max_rows (pa_retention p)) (ret_max_rows retention) layer;
          ra_max_bytes := minimize (ra_max_bytes (pa_retention p)) (ret_max_bytes retention) layer |} |}.

Definition policy_finish (p : PolicyAccumulator) : EffectiveConfigurationPolicy :=
  {| eff_allowed_languages := value_finish (pa_allowed_languages p);
     eff_allowed_mcp_tool_profiles := value_finish (pa_allowed_mcp_tool_profiles p);
     eff_max_source_file_bytes := value_finish (pa_max_source_file_bytes p);
     eff_max_source_files := value_finish (pa_max_source_files p);
     eff_max_query_results := value_finish (pa_max_query_results p);
     eff_max_context_bytes := value_finish (pa_max_context_bytes p);
     eff_max_graph_depth := value_finish (pa_max_graph_depth p);
     eff_max_graph_results := value_finish (pa_max_graph_results p);
     eff_deny_memory_writes := value_finish (pa_deny_memory_writes p);
     eff_follow_symlinks := value_finish (pa_follow_symlinks p);
     eff_retention :=
       {| eff_retained_generations_per_source_slot :=
            value_finish (ra_retained_generations_per_source_slot (pa_retention p));
          eff_max_generation_candidates := value_finish (ra_max_generation_candidates (pa_retention p));
          eff_max_rows := value_finish (ra_max_rows (pa_retention p));
          eff_max_bytes := value_finish (ra_max_bytes (pa_retention p)) |} |}.

(** ** The preference accumulator *)

Record PreferenceCandidate (T : Type) := {
  cand_value : T;
  cand_supplied_by : ConfigurationLayerKind;
}.
Arguments Build_PreferenceCandidate {T} _ _.
Arguments cand_value {T} _.
Arguments cand_supplied_by {T} _.

Record PreferenceAccumulator := {
  pr_query_results : PreferenceCandidate Z;
  pr_context_bytes : PreferenceCandidate Z;
  pr_graph_depth : PreferenceCandidate Z;
  pr_graph_results : PreferenceCandidate Z;
  pr_watcher_poll_interval_ms : PreferenceCandidate Z;
  pr_mcp_tool_profile : PreferenceCandidate McpToolProfile;
}.

Definition profile_defaults (_profile : ConfigurationProfile) : PreferenceAccumulator :=
  let layer := NamedProfile in
  {| pr_query_results := Build_PreferenceCandidate DEFAULT_CODE_SEARCH_RESULTS layer;
     pr_context_bytes := Build_PreferenceCandidate DEFAULT_CONTEXT_BUILD_BUDGET_UNITS layer;
     pr_graph_depth := Build_PreferenceCandidate DEFAULT_GRAPH_DEPTH layer;
     pr_graph_results := Build_PreferenceCandidate DEFAULT_GRAPH_RESULTS layer;
     pr_watcher_poll_interval_ms := Build_PreferenceCandidate DEFAULT_WATCHER_POLL_INTERVAL_MS layer;
     pr_mcp_tool_profile := Build_PreferenceCandidate Canonical layer |}.

Definition replace {T} (candidate : PreferenceCandidate T) (value : option T)
    (supplied_by : ConfigurationLayerKind) : PreferenceCandidate T :=
  match value with Some value => Build_PreferenceCandidate value supplied_by | None => candidate end.

Definition preferences_apply (p : PreferenceAccumulator) (layer : ConfigurationLayerKind)
    (o : ConfigurationPreferenceOverrides) : PreferenceAccumulator :=
  {| pr_query_results := replace (pr_query_results p) (pref_query_results o) layer;
     pr_context_bytes := replace (pr_context_bytes p) (pref_context_bytes o) layer;
     pr_graph_depth := replace (pr_graph_depth p) (pref_graph_depth o) layer;
     pr_graph_results := replace (pr_graph_results p) (pref_graph_results o) layer;
     pr_watcher_poll_interval_ms :=
       replace (pr_watcher_poll_interval_ms p) (pref_watcher_poll_interval_ms o) layer;
     pr_mcp_tool_profile := replace (pr_mcp_tool_profile p) (pref_mcp_tool_profile o) layer |}.

Definition uncapped {T} (c : PreferenceCandidate T) : ResolvedPreference T :=
  Build_ResolvedPreference (cand_value c) (cand_value c) (cand_supplied_by c) [].

Definition cap (c : PreferenceCandidate Z) (ceiling : PolicyAccumulatorValue Z) : ResolvedPreference Z :=
  if acc_effective ceiling <? cand_value c
  then Build_ResolvedPreference (cand_value c) (acc_effective ceiling) (cand_supplied_by c)
         (acc_layers ceiling)
  else uncapped c.

Definition authorize_tool_profile (c : PreferenceCandidate McpToolProfile)
    (allowed : PolicyAccumulatorValue (list McpToolProfile)) : ResolvedToolProfilePreference :=
  let source_is_authorized :=
    bool_decide (cand_value c = Canonical) ||
    match cand_supplied_by c with User | Cli => true | _ => false end in
  if source_is_authorized && bset_mem (cand_value c) (acc_effective allowed) then
    {| tool_requested := cand_value c; tool_supplied_by := cand_supplied_by c;
       tool_authorized := Some (cand_value c); tool_constrained_by := [] |}
  else
    {| tool_requested := cand_value c; tool_supplied_by := cand_supplied_by c;
       tool_authorized := None; tool_constrained_by := acc_layers allowed |}.

Definition preferences_finish (p : PreferenceAccumulator) (policy : PolicyAccumulator)
    : EffectiveConfigurationPreferences :=
  {| eff_query_results := cap (pr_query_results p) (pa_max_query_results policy);
     eff_context_bytes := cap (pr_context_bytes p) (pa_max_context_bytes policy);
     eff_graph_depth := cap (pr_graph_depth p) (pa_max_graph_depth policy);
     eff_graph_results := cap (pr_graph_results p) (pa_max_graph_results policy);
     eff_watcher_poll_interval_ms := uncapped (pr_watcher_poll_interval_ms p);
     eff_mcp_tool_profile :=
       authorize_tool_profile (pr_mcp_tool_profile p) (pa_allowed_mcp_tool_profiles policy) |}.

(** ** The canonical encoding *)

Definition CONFIGURATION_DIGEST_DOMAIN : bytes :=
  b_of "RepoWitness" ++ [Byte.x00] ++ b_of "resolved-semantic-configuration" ++ [Byte.x00].

Definition profile_tag (p : ConfigurationProfile) : Z := match p with Local => 1 end.
Definition tool_profile_tag (p : McpToolProfile) : Z :=
  match p with Canonical => 1 | Minimal => 2 end.

Definition language_mask (languages : list SourceLanguage) : Z :=
  foldl (λ mask language, Z.lor mask
    match language with
    | Rust => Z.shiftl 1 0 | Go => Z.shiftl 1 1 | TypeScript => Z.shiftl 1 2
    | Tsx => Z.shiftl 1 3 | Python => Z.shiftl 1 4
    end) 0 languages.

Definition tool_profile_mask (profiles : list McpToolProfile) : Z :=
  foldl (λ mask profile, Z.lor mask
    match profile with Canonical => Z.shiftl 1 0 | Minimal => Z.shiftl 1 1 end) 0 profiles.

Definition u8_be_bytes (z : Z) : bytes := [byte_of z].

(** What [canonical_configuration_digest] feeds to the hasher, in order. *)
Definition canonical_configuration_bytes (schema_version resolver_version : Z)
    (profile : ConfigurationProfile) (preferences : EffectiveConfigurationPreferences)
    (policy : EffectiveConfigurationPolicy) : bytes :=
  CONFIGURATION_DIGEST_DOMAIN
  ++ u16_be_bytes CONFIGURATION_DIGEST_VERSION
  ++ u16_be_bytes schema_version
  ++ u16_be_bytes resolver_version
  ++ u8_be_bytes (profile_tag profile)
  ++ u64_be_bytes (effective (eff_query_results preferences))
  ++ u64_be_bytes (effective (eff_context_bytes preferences))
  ++ u64_be_bytes (effective (eff_graph_depth preferences))
  ++ u64_be_bytes (effective (eff_graph_results preferences))
  ++ u64_be_bytes (effective (eff_watcher_poll_interval_ms preferences))
  ++ u8_be_bytes (tool_profile_tag (tool_requested (eff_mcp_tool_profile preferences)))
  ++ u8_be_bytes (match tool_authorized (eff_mcp_tool_profile preferences) with
                  | Some p => tool_profile_tag p | None => 0 end)
  ++ u8_be_bytes (language_mask (policy_effective (eff_allowed_languages policy)))
  ++ u8_be_bytes (tool_profile_mask (policy_effective (eff_allowed_mcp_tool_profiles policy)))
  ++ u64_be_bytes (policy_effective (eff_max_source_file_bytes policy))
  ++ u64_be_bytes (policy_effective (eff_max_source_files policy))
  ++ u64_be_bytes (policy_effective (eff_max_query_results policy))
  ++ u64_be_bytes (policy_effective (eff_max_context_bytes policy))
  ++ u64_be_bytes (policy_effective (eff_max_graph_depth policy))
  ++ u64_be_bytes (policy_effective (eff_max_graph_results policy))
  ++ u8_be_bytes (Z.b2z (policy_effective (eff_deny_memory_writes policy)))
  ++ u8_be_bytes (Z.b2z (policy_effective (eff_follow_symlinks policy)))
  ++ u64_be_bytes (policy_effective
       (eff_retained_generations_per_source_slot (eff_retention policy)))
  ++ u64_be_bytes (policy_effective (eff_max_generation_candidates (eff_retention policy)))
  ++ u64_be_bytes (policy_effective (eff_max_rows (eff_retention policy)))
  ++ u64_be_bytes (policy_effective (eff_max_bytes (eff_retention policy))).

(** ** The resolver *)

Definition resolve_profile (layers : list ConfigurationLayer)
    : ConfigurationProfile * ConfigurationLayerKind :=
  foldl (λ acc layer, match layer_profile layer with
                      | Some profile => (profile, layer_kind layer)
                      | None => acc
                      end) (Local, BuiltInDefaults) layers.

(** [for pair in ordered.windows(2)]: the first adjacent repetition. *)
Fixpoint first_duplicate (layers : list ConfigurationLayer) : option ConfigurationLayerKind :=
  match layers with
  | l1 :: (l2 :: _) as rest =>
      if bool_decide (layer_kind l1 = layer_kind l2) then Some (layer_kind l1)
      else first_duplicate rest
  | _ => None
  end.

Definition by_precedence (l1 l2 : ConfigurationLayer) : comparison :=
  cmp (precedence (layer_kind l1)) (precedence (layer_kind l2)).

Section resolve.
Context {ConfigurationDigest : Type} (sha256 : bytes → ConfigurationDigest).

Definition canonical_configuration_digest (schema_version resolver_version : Z)
    (profile : ConfigurationProfile) (preferences : EffectiveConfigurationPreferences)
    (policy : EffectiveConfigurationPolicy) : ConfigurationDigest :=
  sha256 (canonical_configuration_bytes schema_version resolver_version profile preferences policy).

Definition resolve_configuration (layers : list ConfigurationLayer)
    : result ConfigurationResolutionError (ResolvedConfiguration ConfigurationDigest) :=
  reject_if (MAX_CONFIGURATION_FILE_LAYERS <? length layers)%nat TooManyLayers;;
  let ordered := sort_by by_precedence layers in
  match first_duplicate ordered with
  | Some kind => Err (DuplicateLayer kind)
  | None =>
      let '(profile, profile_supplied_by) := resolve_profile ordered in
      let '(preferences, policy) :=
        foldl (λ acc layer,
            (preferences_apply acc.1 (layer_kind layer) (layer_preferences layer),
             policy_apply acc.2 (layer_kind layer) (layer_policy layer)))
          (profile_defaults profile, policy_built_in) ordered in
      let preferences := preferences_finish preferences policy in
      let policy := policy_finish policy in
      let digest := canonical_configuration_digest CONFIGURATION_SCHEMA_VERSION
                      CONFIGURATION_RESOLVER_VERSION profile preferences policy in
      Ok {| res_schema_version := CONFIGURATION_SCHEMA_VERSION;
            res_resolver_version := CONFIGURATION_RESOLVER_VERSION;
            res_profile := profile; res_profile_supplied_by := profile_supplied_by;
            res_preferences := preferences; res_policy := policy; res_digest := digest |}
  end.
End resolve.

(** ** What the resolved policy should be *)

(** The requests the layers make for one field. *)
Definition requests {T} (f : ConfigurationPolicyOverrides → option T) (layers : list ConfigurationLayer)
    : list T :=
  omap (λ l, f (layer_policy l)) layers.

(** A ceiling is the least of the built-in one and the requests, a floor the greatest. *)
Definition ceiling (built_in : Z) (rs : list Z) : Z := foldr Z.min built_in rs.
Definition floor (built_in : Z) (rs : list Z) : Z := foldr Z.max built_in rs.

(** The members of the built-in set that every request contains. *)
Definition common {T} `{EqDecision T} (built_in : list T) (rs : list (list T)) : list T :=
  filter (λ x, Forall (λ r, x ∈ r) rs) built_in.

Definition retention_of {T} (f : RetentionConfigurationOverrides → option T)
    (p : ConfigurationPolicyOverrides) : option T := f (pol_retention p).

(** The values in force, with the provenance left out. *)
Record PolicySemantics := {
  sem_allowed_languages : list SourceLanguage;
  sem_allowed_mcp_tool_profiles : list McpToolProfile;
  sem_max_source_file_bytes : Z;
  sem_max_source_files : Z;
  sem_max_query_results : Z;
  sem_max_context_bytes : Z;
  sem_max_graph_depth : Z;
  sem_max_graph_results : Z;
  sem_deny_memory_writes : bool;
  sem_follow_symlinks : bool;
  sem_retained_generations_per_source_slot : Z;
  sem_max_generation_candidates : Z;
  sem_max_rows : Z;
  sem_max_bytes : Z;
}.

Definition policy_semantics (p : EffectiveConfigurationPolicy) : PolicySemantics :=
  {| sem_allowed_languages := policy_effective (eff_allowed_languages p);
     sem_allowed_mcp_tool_profiles := policy_effective (eff_allowed_mcp_tool_profiles p);
     sem_max_source_file_bytes := policy_effective (eff_max_source_file_bytes p);
     sem_max_source_files := policy_effective (eff_max_source_files p);
     sem_max_query_results := policy_effective (eff_max_query_results p);
     sem_max_context_bytes := policy_effective (eff_max_context_bytes p);
     sem_max_graph_depth := policy_effective (eff_max_graph_depth p);
     sem_max_graph_results := policy_effective (eff_max_graph_results p);
     sem_deny_memory_writes := policy_effective (eff_deny_memory_writes p);
     sem_follow_symlinks := policy_effective (eff_follow_symlinks p);
     sem_retained_generations_per_source_slot :=
       policy_effective (eff_retained_generations_per_source_slot (eff_retention p));
     sem_max_generation_candidates :=
       policy_effective (eff_max_generation_candidates (eff_retention p));
     sem_max_rows := policy_effective (eff_max_rows (eff_retention p));
     sem_max_bytes := policy_effective (eff_max_bytes (eff_retention p)) |}.

Definition reference_policy (ls : list ConfigurationLayer) : PolicySemantics :=
  {| sem_allowed_languages :=
       common SUPPORTED_CONFIGURATION_LANGUAGES (requests pol_allowed_languages ls);
     sem_allowed_mcp_tool_profiles := common [Canonical] (requests pol_allowed_mcp_tool_profiles ls);
     sem_max_source_file_bytes :=
       ceiling MAX_CONFIGURATION_SOURCE_FILE_BYTES (requests pol_max_source_file_bytes ls);
     sem_max_source_files := ceiling MAX_CONFIGURATION_SOURCE_FILES (requests pol_max_source_files ls);
     sem_max_query_results :=
       ceiling MAX_CONFIGURATION_QUERY_RESULTS (requests pol_max_query_results ls);
     sem_max_context_bytes :=
       ceiling MAX_CONFIGURATION_CONTEXT_BYTES (requests pol_max_context_bytes ls);
     sem_max_graph_depth := ceiling MAX_CONFIGURATION_GRAPH_DEPTH (requests pol_max_graph_depth ls);
     sem_max_graph_results :=
       ceiling MAX_CONFIGURATION_GRAPH_RESULTS (requests pol_max_graph_results ls);
     sem_deny_memory_writes := bool_decide (true ∈ requests pol_deny_memory_writes ls);
     sem_follow_symlinks := false;
     sem_retained_generations_per_source_slot :=
       floor DEFAULT_CONFIGURATION_RETAINED_GENERATIONS_PER_SOURCE_SLOT
         (requests (retention_of ret_retained_generations_per_source_slot) ls);
     sem_max_generation_candidates :=
       ceiling DEFAULT_CONFIGURATION_RETENTION_GENERATION_CANDIDATES
         (requests (retention_of ret_max_generation_candidates) ls);
     sem_max_rows :=
       ceiling DEFAULT_CONFIGURATION_RETENTION_ROWS (requests (retention_of ret_max_rows) ls);
     sem_max_bytes :=
       ceiling DEFAULT_CONFIGURATION_RETENTION_BYTES (requests (retention_of ret_max_bytes) ls) |}.

(** ** Folding the layers *)

(** One field of an accumulator evolves by its own step. *)
Lemma foldl_field {A B L} (field : A → B) (g : A → L → A) (h : B → L → B) (a : A) (ls : list L) :
  (∀ a l, field (g a l) = h (field a) l) → field (foldl g a ls) = foldl h (field a) ls.
Proof. intros H. revert a. induction ls as [|l ls IH]; intros a; [done|]. simpl. by rewrite IH, H. Qed.

Lemma foldl_pair {A B L} (g : A → L → A) (h : B → L → B) (a : A) (b : B) (ls : list L) :
  foldl (λ acc l, (g acc.1 l, h acc.2 l)) (a, b) ls = (foldl g a ls, foldl h b ls).
Proof. revert a b. induction ls as [|l ls IH]; intros a b; [done|]. simpl. apply IH. Qed.

Definition apply_policies (p : PolicyAccumulator) (ls : list ConfigurationLayer) : PolicyAccumulator :=
  foldl (λ p l, policy_apply p (layer_kind l) (layer_policy l)) p ls.
Definition apply_preferences (p : PreferenceAccumulator) (ls : list ConfigurationLayer)
    : PreferenceAccumulator :=
  foldl (λ p l, preferences_apply p (layer_kind l) (layer_preferences l)) p ls.

Lemma ceiling_min b v rs : ceiling (Z.min b v) rs = Z.min v (ceiling b rs).
Proof. unfold ceiling. induction rs as [|r rs IH]; simpl; [lia|]. rewrite IH. lia. Qed.
Lemma floor_max b v rs : floor (Z.max b v) rs = Z.max v (floor b rs).
Proof. unfold floor. induction rs as [|r rs IH]; simpl; [lia|]. rewrite IH. lia. Qed.

Lemma minimize_effective v r k :
  acc_effective (minimize v r k) = from_option (λ r, Z.min (acc_effective v) r) (acc_effective v) r.
Proof. unfold minimize. destruct r as [r|]; simpl; [|done]. repeat case_match; simpl; lia. Qed.

Lemma maximize_effective v r k :
  acc_effective (maximize v r k) = from_option (λ r, Z.max (acc_effective v) r) (acc_effective v) r.
Proof. unfold maximize. destruct r as [r|]; simpl; [|done]. repeat case_match; simpl; lia. Qed.

Lemma minimize_all f v ls :
  acc_effective (foldl (λ v l, minimize v (f (layer_policy l)) (layer_kind l)) v ls) =
  ceiling (acc_effective v) (requests f ls).
Proof.
  unfold requests. revert v. induction ls as [|l ls IH]; intros v; [done|]. simpl.
  rewrite IH, minimize_effective. destruct (f (layer_policy l)); simpl; [|done].
  by rewrite ceiling_min.
Qed.

Lemma maximize_all f v ls :
  acc_effective (foldl (λ v l, maximize v (f (layer_policy l)) (layer_kind l)) v ls) =
  floor (acc_effective v) (requests f ls).
Proof.
  unfold requests. revert v. induction ls as [|l ls IH]; intros v; [done|]. simpl.
  rewrite IH, maximize_effective. destruct (f (layer_policy l)); simpl; [|done].
  by rewrite floor_max.
Qed.

Lemma deny_all f v ls :
  acc_effective (foldl (λ v l, deny v (f (layer_policy l)) (layer_kind l)) v ls) =
  acc_effective v || bool_decide (true ∈ requests f ls).
Proof.
  unfold requests. revert v. induction ls as [|l ls IH]; intros v; [simpl; by rewrite orb_false_r|].
  simpl. rewrite IH. unfold deny. destruct (f (layer_policy l)) as [[]|]; simpl.
  - by rewrite orb_true_r.
  - f_equal. apply bool_decide_ext. rewrite elem_of_cons. naive_solver.
  - done.
Qed.

Lemma confirm_off_all f v ls :
  acc_effective (foldl (λ v l, confirm_off v (f (layer_policy l)) (layer_kind l)) v ls) =
  acc_effective v.
Proof.
  revert v. induction ls as [|l ls IH]; intros v; [done|]. simpl. rewrite IH. unfold confirm_off.
  by case_bool_decide.
Qed.

Section intersect.
Context {T} `{RustOrdLaws T}.

Lemma intersect_effective (v : PolicyAccumulatorValue (list T)) r k :
  acc_effective (intersect v r k) = bset_inter (acc_effective v) r.
Proof.
  unfold intersect. destruct (bool_decide _ || bool_decide _) eqn:E; [done|].
  apply orb_false_elim in E as [E _]. apply bool_decide_eq_false in E.
  destruct (decide (bset_inter (acc_effective v) r = acc_effective v)); [done|by destruct E].
Qed.

Lemma intersect_all `{!EqDecision T} f (v : PolicyAccumulatorValue (list T)) ls :
  Forall bset_wf (requests f ls) →
  acc_effective (foldl (λ v l, intersect_requested v (f (layer_policy l)) (layer_kind l)) v ls) =
  common (acc_effective v) (requests f ls).
Proof.
  unfold requests, common. revert v. induction ls as [|l ls IH]; intros v Hwf; simpl in *.
  { symmetry. apply filter_all_true. intros. constructor. }
  unfold intersect_requested at 2. destruct (f (layer_policy l)) as [r|]; simpl in *; [|by apply IH].
  inversion_clear Hwf as [|? ? Hr Hrs]. rewrite IH, intersect_effective by done.
  unfold bset_inter. rewrite list_filter_filter. apply list_filter_iff. intros x.
  rewrite Forall_cons, bset_mem_spec by done. tauto.
Qed.
End intersect.

(** ** Order of the layers *)

Lemma sorted_map {A B} (g : A → B) (c : B → B → comparison) xs :
  StronglySorted (cle (λ x y, c (g x) (g y))) xs → StronglySorted (cle c) (map g xs).
Proof.
  induction 1 as [|x xs _ IH Hall]; simpl; [constructor|]. constructor; [done|].
  by apply Forall_map.
Qed.

(** The kinds come out in the same order whatever the order of the layers. *)
Lemma ordered_kinds ls1 ls2 :
  ls1 ≡ₚ ls2 →
  map (precedence ∘ layer_kind) (sort_by by_precedence ls1) =
  map (precedence ∘ layer_kind) (sort_by by_precedence ls2).
Proof.
  intros Hp. pose proof (comparator_by (precedence ∘ layer_kind)).
  apply (sorted_perm_unique (cmp (A := Z))).
  - apply Permutation_map. by rewrite !sort_by_perm.
  - by intros x y _ _ ?%cmp_eq.
  - apply (sorted_map _ (cmp (A := Z))), (sort_by_sorted by_precedence).
  - apply (sorted_map _ (cmp (A := Z))), (sort_by_sorted by_precedence).
Qed.

Lemma first_duplicate_kinds ls1 ls2 :
  map (precedence ∘ layer_kind) ls1 = map (precedence ∘ layer_kind) ls2 →
  first_duplicate ls1 = first_duplicate ls2.
Proof.
  revert ls2. induction ls1 as [|l1 ls1 IH]; intros [|l2 ls2]; try done. simpl.
  intros [= Hk%precedence_inj Hks]. specialize (IH _ Hks). destruct ls1 as [|m1 ls1], ls2 as [|m2 ls2]; try done.
  simpl in Hks. injection Hks as Hm%precedence_inj _. rewrite Hk, Hm. by case_bool_decide.
Qed.

(** Sorted with no adjacent repetition is strictly increasing. *)
Lemma first_duplicate_increasing ls :
  StronglySorted (cle by_precedence) ls →
  first_duplicate ls = None ↔ keys_increasing (precedence ∘ layer_kind) ls.
Proof.
  induction 1 as [|l ls Hs IH Hall]; [split; [constructor|done]|].
  rewrite keys_increasing_cons, <- IH. destruct ls as [|m ls]; [split; [|done]; by split; [|intros ? ?%elem_of_nil]|].
  simpl. rewrite Forall_forall in Hall. case_bool_decide as Hk.
  - split; [done|]. intros [_ Hlt]. specialize (Hlt m ltac:(by left)). simpl in Hlt.
    by rewrite Hk, cmp_refl in Hlt.
  - split; [|by intros []]. intros Hd. split; [done|]. intros y Hy.
    assert (cmp (precedence (layer_kind l)) (precedence (layer_kind m)) = Lt) as Hlm.
    { specialize (Hall m ltac:(by left)). unfold cle, by_precedence in Hall.
      destruct (cmp _ _) eqn:E; [|done..]. by apply cmp_eq, precedence_inj in E. }
    apply elem_of_cons in Hy as [->|Hy]; [done|].
    rewrite IH, keys_increasing_cons in Hd. eapply cmp_trans; [done|]. by apply Hd.
Qed.

Lemma ordered_unique ls1 ls2 :
  ls1 ≡ₚ ls2 → first_duplicate (sort_by by_precedence ls1) = None →
  sort_by by_precedence ls1 = sort_by by_precedence ls2.
Proof.
  intros Hp Hd. pose proof (comparator_by (precedence ∘ layer_kind)).
  apply first_duplicate_increasing in Hd; [|apply (sort_by_sorted by_precedence)].
  symmetry. apply (keys_increasing_sort (precedence ∘ layer_kind)); [done|].
  by rewrite sort_by_perm.
Qed.

Lemma first_duplicate_NoDup ls :
  first_duplicate (sort_by by_precedence ls) = None ↔ NoDup (map layer_kind ls).
Proof.
  pose proof (comparator_by (precedence ∘ layer_kind)).
  rewrite first_duplicate_increasing by apply (sort_by_sorted by_precedence).
  rewrite <- (Permutation_map layer_kind (sort_by_perm by_precedence ls)). split.
  - intros Hi%bset_wf_NoDup. apply (NoDup_fmap_1 precedence).
    change (NoDup (map precedence (map layer_kind (sort_by by_precedence ls)))).
    by rewrite map_map.
  - intros Hn. pose proof (sort_by_sorted by_precedence ls) as Hs. revert Hs Hn.
    generalize (sort_by by_precedence ls). induction 1 as [|l m Hs IH Hall]; [constructor|].
    simpl. inversion_clear 1 as [|? ? Hl Hm]. apply keys_increasing_cons. split; [by apply IH|].
    intros y Hy. rewrite Forall_forall in Hall. specialize (Hall y Hy). unfold cle, by_precedence in Hall.
    simpl. destruct (cmp _ _) eqn:E; [|done..]. apply cmp_eq, precedence_inj in E.
    destruct Hl. rewrite E. by apply list_elem_of_fmap_2.
Qed.

(** ** Evaluating the resolver *)

Section resolved.
Context {ConfigurationDigest : Type} (sha256 : bytes → ConfigurationDigest).

(** What the resolver builds from the layers in order, once they are admitted. *)
Definition resolved (o : list ConfigurationLayer) : ResolvedConfiguration ConfigurationDigest :=
  let profile := resolve_profile o in
  let policy := apply_policies policy_built_in o in
  let preferences := preferences_finish (apply_preferences (profile_defaults profile.1) o) policy in
  {| res_schema_version := CONFIGURATION_SCHEMA_VERSION;
     res_resolver_version := CONFIGURATION_RESOLVER_VERSION;
     res_profile := profile.1; res_profile_supplied_by := profile.2;
     res_preferences := preferences; res_policy := policy_finish policy;
     res_digest := canonical_configuration_digest sha256 CONFIGURATION_SCHEMA_VERSION
       CONFIGURATION_RESOLVER_VERSION profile.1 preferences (policy_finish policy) |}.

Lemma resolve_eq layers :
  resolve_configuration sha256 layers =
  (if (MAX_CONFIGURATION_FILE_LAYERS <? length layers)%nat then Err TooManyLayers else
   match first_duplicate (sort_by by_precedence layers) with
   | Some kind => Err (DuplicateLayer kind)
   | None => Ok (resolved (sort_by by_precedence layers))
   end).
Proof.
  unfold resolve_configuration, reject_if. destruct (_ <? _)%nat; [done|]. simpl.
  destruct (first_duplicate _); [done|]. unfold resolved.
  destruct (resolve_profile _) as [profile k]. by rewrite (foldl_pair
    (λ p l, preferences_apply p (layer_kind l) (layer_preferences l))
    (λ p l, policy_apply p (layer_kind l) (layer_policy l))).
Qed.

Lemma resolve_Ok layers r :
  resolve_configuration sha256 layers = Ok r →
  first_duplicate (sort_by by_precedence layers) = None ∧ r = resolved (sort_by by_precedence layers).
Proof. rewrite resolve_eq. repeat case_match; try done. by intros [= <-]. Qed.
End resolved.

(** The numbers and sets in force after the layers, in any order. *)

Lemma requests_perm {T} (f : ConfigurationPolicyOverrides → option T) ls1 ls2 :
  ls1 ≡ₚ ls2 → requests f ls1 ≡ₚ requests f ls2.
Proof. intros Hp. unfold requests. by rewrite Hp. Qed.

Lemma ceiling_perm b rs1 rs2 : rs1 ≡ₚ rs2 → ceiling b rs1 = ceiling b rs2.
Proof. intros Hp. unfold ceiling. apply (foldr_permutation eq Z.min b); [|done]. intros. lia. Qed.
Lemma floor_perm b rs1 rs2 : rs1 ≡ₚ rs2 → floor b rs1 = floor b rs2.
Proof. intros Hp. unfold floor. apply (foldr_permutation eq Z.max b); [|done]. intros. lia. Qed.
Lemma common_perm {T} `{EqDecision T} (b : list T) rs1 rs2 : rs1 ≡ₚ rs2 → common b rs1 = common b rs2.
Proof. intros Hp. unfold common. apply list_filter_iff. intros x. by rewrite Hp. Qed.

Lemma reference_policy_perm ls1 ls2 : ls1 ≡ₚ ls2 → reference_policy ls1 = reference_policy ls2.
Proof.
  intros Hp. unfold reference_policy. f_equal;
    first [by apply common_perm, requests_perm|by apply ceiling_perm, requests_perm
          |by apply floor_perm, requests_perm|apply bool_decide_ext; by rewrite (requests_perm _ _ _ Hp)].
Qed.

Lemma requests_wf {T} `{RustOrdLaws T} (f : ConfigurationPolicyOverrides → option (list T)) ls :
  (∀ l, l ∈ ls → opt_set_wf (f (layer_policy l))) → Forall bset_wf (requests f ls).
Proof.
  intros Hf. rewrite Forall_forall. intros r (l & Hl & Hr)%list_elem_of_omap.
  specialize (Hf l Hl). by rewrite Hr in Hf.
Qed.

(** One field of the accumulator after all the layers. *)
Section fields.
Context (p : PolicyAccumulator) (ls : list ConfigurationLayer).

(** The field's own step, on the layer's request. *)
Definition field_step {B T} (field : PolicyAccumulator → B) (f : ConfigurationPolicyOverrides → T)
    (step : B → T → ConfigurationLayerKind → B) : Prop :=
  ∀ p l, field (policy_apply p (layer_kind l) (layer_policy l)) =
         step (field p) (f (layer_policy l)) (layer_kind l).

Lemma field_all {B T} (field : PolicyAccumulator → B) (f : ConfigurationPolicyOverrides → T) step :
  field_step field f step →
  field (apply_policies p ls) =
  foldl (λ v l, step v (f (layer_policy l)) (layer_kind l)) (field p) ls.
Proof. intros Hf. apply foldl_field. intros. apply Hf. Qed.

Lemma ceiling_field (field : PolicyAccumulator → PolicyAccumulatorValue Z) f :
  field_step field f minimize →
  acc_effective (field (apply_policies p ls)) = ceiling (acc_effective (field p)) (requests f ls).
Proof. intros Hf. rewrite (field_all _ _ _ Hf). apply minimize_all. Qed.

Lemma floor_field (field : PolicyAccumulator → PolicyAccumulatorValue Z) f :
  field_step field f maximize →
  acc_effective (field (apply_policies p ls)) = floor (acc_effective (field p)) (requests f ls).
Proof. intros Hf. rewrite (field_all _ _ _ Hf). apply maximize_all. Qed.

Lemma common_field {T} `{RustOrdLaws T, !EqDecision T} (field : PolicyAccumulator → PolicyAccumulatorValue (list T)) f :
  field_step field f intersect_requested → Forall bset_wf (requests f ls) →
  acc_effective (field (apply_policies p ls)) = common (acc_effective (field p)) (requests f ls).
Proof. intros Hf Hw. rewrite (field_all _ _ _ Hf). by apply intersect_all. Qed.
End fields.

Lemma apply_policies_semantics ls :
  Forall layer_valid ls →
  policy_semantics (policy_finish (apply_policies policy_built_in ls)) = reference_policy ls.
Proof.
  intros Hv. rewrite Forall_forall in Hv.
  assert (Forall bset_wf (requests pol_allowed_languages ls)) as Hl
    by (apply requests_wf; intros l Hl; by destruct (valid_policy l (Hv l Hl)) as (? & ? & _)).
  assert (Forall bset_wf (requests pol_allowed_mcp_tool_profiles ls)) as Ht
    by (apply requests_wf; intros l Hl'; by destruct (valid_policy l (Hv l Hl')) as (? & ? & _)).
  unfold policy_semantics, reference_policy, policy_finish, value_finish. cbn [policy_effective
    eff_allowed_languages eff_allowed_mcp_tool_profiles eff_max_source_file_bytes eff_max_source_files
    eff_max_query_results eff_max_context_bytes eff_max_graph_depth eff_max_graph_results
    eff_deny_memory_writes eff_follow_symlinks eff_retention
    eff_retained_generations_per_source_slot eff_max_generation_candidates eff_max_rows eff_max_bytes].
  f_equal.
  - by apply (common_field policy_built_in ls pa_allowed_languages pol_allowed_languages).
  - by apply (common_field policy_built_in ls pa_allowed_mcp_tool_profiles pol_allowed_mcp_tool_profiles).
  - by apply (ceiling_field policy_built_in ls pa_max_source_file_bytes pol_max_source_file_bytes).
  - by apply (ceiling_field policy_built_in ls pa_max_source_files pol_max_source_files).
  - by apply (ceiling_field policy_built_in ls pa_max_query_results pol_max_query_results).
  - by apply (ceiling_field policy_built_in ls pa_max_context_bytes pol_max_context_bytes).
  - by apply (ceiling_field policy_built_in ls pa_max_graph_depth pol_max_graph_depth).
  - by apply (ceiling_field policy_built_in ls pa_max_graph_results pol_max_graph_results).
  - rewrite (field_all _ _ pa_deny_memory_writes pol_deny_memory_writes deny) by done. apply deny_all.
  - rewrite (field_all _ _ pa_follow_symlinks pol_follow_symlinks confirm_off) by done.
    apply confirm_off_all.
  - by apply (floor_field policy_built_in ls (ra_retained_generations_per_source_slot ∘ pa_retention)).
  - by apply (ceiling_field policy_built_in ls (ra_max_generation_candidates ∘ pa_retention)).
  - by apply (ceiling_field policy_built_in ls (ra_max_rows ∘ pa_retention)).
  - by apply (ceiling_field policy_built_in ls (ra_max_bytes ∘ pa_retention)).
Qed.

(** One effective policy is at least as restrictive as another. *)
Definition tighter (p q : PolicySemantics) : Prop :=
  sem_allowed_languages p ⊆ sem_allowed_languages q ∧
  sem_allowed_mcp_tool_profiles p ⊆ sem_allowed_mcp_tool_profiles q ∧
  sem_max_source_file_bytes p ≤ sem_max_source_file_bytes q ∧
  sem_max_source_files p ≤ sem_max_source_files q ∧
  sem_max_query_results p ≤ sem_max_query_results q ∧
  sem_max_context_bytes p ≤ sem_max_context_bytes q ∧
  sem_max_graph_depth p ≤ sem_max_graph_depth q ∧
  sem_max_graph_results p ≤ sem_max_graph_results q ∧
  (sem_deny_memory_writes q = true → sem_deny_memory_writes p = true) ∧
  (sem_follow_symlinks p = true → sem_follow_symlinks q = true) ∧
  sem_retained_generations_per_source_slot q ≤ sem_retained_generations_per_source_slot p ∧
  sem_max_generation_candidates p ≤ sem_max_generation_candidates q ∧
  sem_max_rows p ≤ sem_max_rows q ∧
  sem_max_bytes p ≤ sem_max_bytes q.

Lemma ceiling_app b rs1 rs2 : ceiling b (rs1 ++ rs2) ≤ ceiling b rs2.
Proof. unfold ceiling. induction rs1 as [|r rs1 IH]; simpl; lia. Qed.
Lemma floor_app b rs1 rs2 : floor b rs2 ≤ floor b (rs1 ++ rs2).
Proof. unfold floor. induction rs1 as [|r rs1 IH]; simpl; lia. Qed.
Lemma common_app {T} `{EqDecision T} (b : list T) rs1 rs2 : common b (rs1 ++ rs2) ⊆ common b rs2.
Proof.
  intros x. unfold common. rewrite !list_elem_of_filter, Forall_app. tauto.
Qed.

Lemma reference_policy_tighter new ls : tighter (reference_policy (new ++ ls)) (reference_policy ls).
Proof.
  unfold tighter, reference_policy, requests. simpl. rewrite !omap_app.
  split_and!; try apply common_app; try apply ceiling_app; try apply floor_app; [|done].
  rewrite !bool_decide_eq_true, elem_of_app. auto.
Qed.

(** ** Preferences *)

(** The request that wins for one field: the last layer, by precedence, that makes one. *)
Definition wins {T} (f : ConfigurationPreferenceOverrides → option T) (default : T)
    (ls : list ConfigurationLayer) (v : T) (k : ConfigurationLayerKind) : Prop :=
  (v = default ∧ k = NamedProfile ∧ ∀ l, l ∈ ls → f (layer_preferences l) = None) ∨
  ∃ l, l ∈ ls ∧ f (layer_preferences l) = Some v ∧ layer_kind l = k ∧
    ∀ l', l' ∈ ls → is_Some (f (layer_preferences l')) → precedence (layer_kind l') ≤ precedence k.

Lemma replace_all {T} (f : ConfigurationPreferenceOverrides → option T) default ls :
  StronglySorted (cle by_precedence) ls →
  let c := foldl (λ c l, replace c (f (layer_preferences l)) (layer_kind l))
             (Build_PreferenceCandidate default NamedProfile) ls in
  wins f default ls (cand_value c) (cand_supplied_by c).
Proof.
  intros Hs. induction ls as [|l ls IH] using rev_ind; simpl.
  { left. split_and!; try done. by intros l ?%elem_of_nil. }
  apply StronglySorted_app in Hs as (Hl & Hs & _).
  rewrite foldl_snoc. destruct (f (layer_preferences l)) as [v|] eqn:E; simpl.
  - right. exists l. split_and!; [apply elem_of_app; right; by left|done..|].
    intros l' Hl' _. apply elem_of_app in Hl' as [Hl'|Hl'%list_elem_of_singleton]; [|by subst].
    specialize (Hl l' l Hl' ltac:(by left)). by apply Z.compare_le_iff.
  - specialize (IH Hs). simpl in IH. destruct IH as [(Hv & Hk & Hn)|(m & Hm & Hv & Hk & Hmax)].
    + left. split_and!; [done..|]. intros l' [Hl'|Hl'%list_elem_of_singleton]%elem_of_app; [auto|by subst].
    + right. exists m. split_and!; [apply elem_of_app; by left|done..|].
      intros l' [Hl'|Hl'%list_elem_of_singleton]%elem_of_app Hsome; [auto|]. subst. rewrite E in Hsome. by destruct Hsome.
Qed.

Lemma wins_perm {T} (f : ConfigurationPreferenceOverrides → option T) default ls1 ls2 v k :
  ls1 ≡ₚ ls2 → wins f default ls1 v k → wins f default ls2 v k.
Proof. intros Hp. unfold wins. by setoid_rewrite Hp. Qed.

(** A resolved preference: the winning request, capped by the ceiling in force. *)
Definition resolves (f : ConfigurationPreferenceOverrides → option Z) (default : Z)
    (ls : list ConfigurationLayer) (ceiling : option (PolicyValue Z)) (p : ResolvedPreference Z) : Prop :=
  wins f default ls (requested p) (supplied_by p) ∧
  match ceiling with
  | None => effective p = requested p ∧ constrained_by p = []
  | Some c => effective p = Z.min (requested p) (policy_effective c) ∧
      constrained_by p = if policy_effective c <? requested p then constraining_layers c else []
  end.

(** ** Bounds of the values in force *)

Definition numbers (p : PolicySemantics) : list Z :=
  [sem_max_source_file_bytes p; sem_max_source_files p; sem_max_query_results p;
   sem_max_context_bytes p; sem_max_graph_depth p; sem_max_graph_results p;
   sem_retained_generations_per_source_slot p; sem_max_generation_candidates p;
   sem_max_rows p; sem_max_bytes p].

(** The absolute maxima of those numbers, in the same order. *)
Definition absolute_maxima : list Z :=
  [MAX_CONFIGURATION_SOURCE_FILE_BYTES; MAX_CONFIGURATION_SOURCE_FILES;
   MAX_CONFIGURATION_QUERY_RESULTS; MAX_CONFIGURATION_CONTEXT_BYTES;
   MAX_CONFIGURATION_GRAPH_DEPTH; MAX_CONFIGURATION_GRAPH_RESULTS;
   MAX_CONFIGURATION_RETAINED_GENERATIONS_PER_SOURCE_SLOT;
   MAX_CONFIGURATION_RETENTION_GENERATION_CANDIDATES; MAX_CONFIGURATION_RETENTION_ROWS;
   MAX_CONFIGURATION_RETENTION_BYTES].

Lemma requests_positive f m ls :
  (∀ l, l ∈ ls → positive_maximum (f (layer_policy l)) m) → Forall (λ r, 1 ≤ r ≤ m) (requests f ls).
Proof.
  intros Hf. rewrite Forall_forall. intros r (l & Hl & Hr)%list_elem_of_omap.
  specialize (Hf l Hl). by rewrite Hr in Hf.
Qed.

Lemma ceiling_bounds b m m' rs : 1 ≤ b ≤ m → Forall (λ r, 1 ≤ r ≤ m') rs → 1 ≤ ceiling b rs ≤ m.
Proof. intros Hb. unfold ceiling. induction 1; simpl; lia. Qed.
Lemma floor_bounds b m rs : 1 ≤ b ≤ m → Forall (λ r, 1 ≤ r ≤ m) rs → 1 ≤ floor b rs ≤ m.
Proof. intros Hb. unfold floor. induction 1; simpl; lia. Qed.

Lemma reference_policy_bounds ls :
  Forall layer_valid ls →
  Forall2 (λ v m, 1 ≤ v ≤ m) (numbers (reference_policy ls)) absolute_maxima.
Proof.
  intros Hv. rewrite Forall_forall in Hv.
  unfold numbers, reference_policy, absolute_maxima. simpl.
  repeat match goal with |- Forall2 _ (_ :: _) _ => constructor end; [..|constructor];
    (first [eapply ceiling_bounds|eapply floor_bounds]; [|apply requests_positive]);
    try (intros l Hl; destruct (valid_policy l (Hv l Hl)) as (?&?&?&?&?&?&?&?&?&?&?&?&?); eassumption);
    vm_compute; split; discriminate.
Qed.

Lemma wins_positive f default m ls v k :
  1 ≤ default ≤ m → (∀ l, l ∈ ls → positive_maximum (f (layer_preferences l)) m) →
  wins f default ls v k → 1 ≤ v ≤ m.
Proof.
  intros Hd Hf [(-> & _)|(l & Hl & Hv & _)]; [done|]. specialize (Hf l Hl). by rewrite Hv in Hf.
Qed.

Definition preference_numbers (p : EffectiveConfigurationPreferences) : list Z :=
  [effective (eff_query_results p); effective (eff_context_bytes p); effective (eff_graph_depth p);
   effective (eff_graph_results p); effective (eff_watcher_poll_interval_ms p)].

Lemma cap_effective c v : effective (cap c v) = Z.min (cand_value c) (acc_effective v).
Proof. unfold cap, uncapped. destruct (_ <? _) eqn:E; simpl; lia. Qed.

(** The candidate of each field, out of the accumulator. *)
Lemma candidate_wins {T} (field : PreferenceAccumulator → PreferenceCandidate T) f default profile ls :
  (∀ p l, field (preferences_apply p (layer_kind l) (layer_preferences l)) =
          replace (field p) (f (layer_preferences l)) (layer_kind l)) →
  field (profile_defaults profile) = Build_PreferenceCandidate default NamedProfile →
  StronglySorted (cle by_precedence) ls →
  wins f default ls (cand_value (field (apply_preferences (profile_defaults profile) ls)))
    (cand_supplied_by (field (apply_preferences (profile_defaults profile) ls))).
Proof.
  intros Hstep Hd Hs. unfold apply_preferences.
  rewrite (foldl_field field _ (λ c l, replace c (f (layer_preferences l)) (layer_kind l))) by
    (intros; apply Hstep).
  rewrite Hd. by apply replace_all.
Qed.

(** ** The canonical encoding is injective *)

(** Everything the digest identifies: the configuration without its provenance. *)
Definition semantics {D} (r : ResolvedConfiguration D)
    : Z * Z * ConfigurationProfile * list Z * (McpToolProfile * option McpToolProfile) * PolicySemantics :=
  (res_schema_version r, res_resolver_version r, res_profile r,
   preference_numbers (res_preferences r),
   (tool_requested (eff_mcp_tool_profile (res_preferences r)),
    tool_authorized (eff_mcp_tool_profile (res_preferences r))),
   policy_semantics (res_policy r)).

Definition hashed {D} (r : ResolvedConfiguration D) : bytes :=
  canonical_configuration_bytes (res_schema_version r) (res_resolver_version r) (res_profile r)
    (res_preferences r) (res_policy r).

Section mask.
Context {A : Type} (rank : A → Z) (rank_bounds : ∀ a, 0 ≤ rank a < 8).

Definition mask (m : Z) (s : list A) : Z := foldl (λ m a, Z.lor m (Z.shiftl 1 (rank a))) m s.

Lemma mask_testbit m s k :
  0 ≤ k → Z.testbit (mask m s) k = Z.testbit m k || existsb (λ a, rank a =? k) s.
Proof.
  intros Hk. unfold mask. revert m. induction s as [|a s IH]; intros m; simpl; [by rewrite orb_false_r|].
  rewrite IH, Z.lor_spec, orb_assoc. do 2 f_equal. rewrite Z.shiftl_1_l.
  rewrite Z.pow2_bits_eqb by apply rank_bounds. done.
Qed.

Lemma mask_mem s a : (∀ a b, rank a = rank b → a = b) → Z.testbit (mask 0 s) (rank a) = true ↔ a ∈ s.
Proof.
  intros Hinj. rewrite mask_testbit, Z.bits_0 by apply rank_bounds. simpl.
  rewrite existsb_exists. setoid_rewrite Z.eqb_eq. setoid_rewrite <- list_elem_of_In.
  split; [intros (b & Hb & Heq); by rewrite <- (Hinj _ _ Heq)|by eexists].
Qed.

Lemma mask_byte_inj `{RustOrdLaws A} s1 s2 :
  (∀ a b, rank a = rank b → a = b) → bset_wf s1 → bset_wf s2 →
  byte_of (mask 0 s1) = byte_of (mask 0 s2) → s1 = s2.
Proof.
  intros Hinj H1 H2 Hb%byte_of_inj. apply bset_ext; [done..|]. intros a.
  rewrite <- (mask_mem s1 a Hinj), <- (mask_mem s2 a Hinj).
  rewrite <- (Z.mod_pow2_bits_low (mask 0 s1) 8), <- (Z.mod_pow2_bits_low (mask 0 s2) 8) by apply rank_bounds.
  change (2 ^ 8) with 256. by rewrite Hb.
Qed.
End mask.

Lemma language_mask_eq s : language_mask s = mask language_rank 0 s.
Proof.
  unfold language_mask, mask. apply foldl_pointwise. by intros ? [].
Qed.
Lemma tool_profile_mask_eq s : tool_profile_mask s = mask tool_profile_rank 0 s.
Proof.
  unfold tool_profile_mask, mask. apply foldl_pointwise. by intros ? [].
Qed.

(** The fields fit the widths they are encoded at. *)
Record digestible {D} (r : ResolvedConfiguration D) : Prop := {
  dig_schema : in_u16 (res_schema_version r);
  dig_resolver : in_u16 (res_resolver_version r);
  dig_preferences : Forall in_u64 (preference_numbers (res_preferences r));
  dig_policy : Forall in_u64 (numbers (policy_semantics (res_policy r)));
  dig_languages : bset_wf (policy_effective (eff_allowed_languages (res_policy r)));
  dig_profiles : bset_wf (policy_effective (eff_allowed_mcp_tool_profiles (res_policy r)));
}.

Lemma u64_be_bytes_inj x y : in_u64 x → in_u64 y → u64_be_bytes x = u64_be_bytes y → x = y.
Proof.
  unfold in_u64, u64_max. intros ? ?. apply be_bytes_inj; change (256 ^ Z.of_nat 8) with 18446744073709551616; lia.
Qed.
Lemma u16_be_bytes_inj x y : in_u16 x → in_u16 y → u16_be_bytes x = u16_be_bytes y → x = y.
Proof. unfold in_u16, u16_max. intros ? ?. apply be_bytes_inj; change (256 ^ Z.of_nat 2) with 65536; lia. Qed.

Lemma u8_be_bytes_inj x y : 0 ≤ x < 256 → 0 ≤ y < 256 → u8_be_bytes x = u8_be_bytes y → x = y.
Proof. intros ? ? [= H%byte_of_inj]. rewrite !Z.mod_small in H; lia. Qed.

Lemma length_u64_be_bytes z : length (u64_be_bytes z) = 8%nat.
Proof. apply length_be_bytes. Qed.
Lemma length_u16_be_bytes z : length (u16_be_bytes z) = 2%nat.
Proof. apply length_be_bytes. Qed.

Lemma language_mask_inj s1 s2 :
  bset_wf s1 → bset_wf s2 → u8_be_bytes (language_mask s1) = u8_be_bytes (language_mask s2) → s1 = s2.
Proof.
  rewrite !language_mask_eq. intros H1 H2 [= H].
  refine (mask_byte_inj language_rank _ s1 s2 language_rank_inj H1 H2 H). by intros [].
Qed.

Lemma tool_profile_mask_inj s1 s2 :
  bset_wf s1 → bset_wf s2 →
  u8_be_bytes (tool_profile_mask s1) = u8_be_bytes (tool_profile_mask s2) → s1 = s2.
Proof.
  rewrite !tool_profile_mask_eq. intros H1 H2 [= H].
  refine (mask_byte_inj tool_profile_rank _ s1 s2 tool_profile_rank_inj H1 H2 H). by intros [].
Qed.

Lemma tool_tag_inj p1 p2 :
  u8_be_bytes (tool_profile_tag p1) = u8_be_bytes (tool_profile_tag p2) → p1 = p2.
Proof. destruct p1, p2; done. Qed.

Lemma authorized_tag_inj (p1 p2 : option McpToolProfile) :
  u8_be_bytes (match p1 with Some p => tool_profile_tag p | None => 0 end) =
  u8_be_bytes (match p2 with Some p => tool_profile_tag p | None => 0 end) → p1 = p2.
Proof. destruct p1 as [[]|], p2 as [[]|]; done. Qed.

Lemma flag_inj b1 b2 : u8_be_bytes (Z.b2z b1) = u8_be_bytes (Z.b2z b2) → b1 = b2.
Proof. destruct b1, b2; done. Qed.

(** Splits an equality of concatenated fixed-width fields. *)
Ltac split_fields H :=
  repeat match type of H with
  | _ ++ _ = _ ++ _ =>
      apply app_inj_1 in H as [? H]; [|by rewrite ?length_u64_be_bytes, ?length_u16_be_bytes]
  end.

Lemma hashed_inj {D} (r1 r2 : ResolvedConfiguration D) :
  digestible r1 → digestible r2 → hashed r1 = hashed r2 → semantics r1 = semantics r2.
Proof.
  intros [Hs1 Hr1 Hp1 Hn1 Hl1 Ht1] [Hs2 Hr2 Hp2 Hn2 Hl2 Ht2] H.
  unfold hashed, canonical_configuration_bytes in H. apply app_inv_head in H.
  unfold preference_numbers in *. unfold numbers, policy_semantics in Hn1, Hn2. simpl in Hn1, Hn2.
  rewrite !Forall_cons in *. destruct_and!. split_fields H.
  repeat match goal with
  | H : u64_be_bytes _ = u64_be_bytes _ |- _ => apply u64_be_bytes_inj in H; [|assumption..]
  | H : u16_be_bytes _ = u16_be_bytes _ |- _ =>
      first [apply u16_be_bytes_inj in H; [|assumption..]|clear H]
  | H : u8_be_bytes (language_mask _) = _ |- _ => apply language_mask_inj in H; [|assumption..]
  | H : u8_be_bytes (tool_profile_mask _) = _ |- _ => apply tool_profile_mask_inj in H; [|assumption..]
  | H : u8_be_bytes (tool_profile_tag _) = _ |- _ => apply tool_tag_inj in H
  | H : u8_be_bytes (match _ with _ => _ end) = _ |- _ => apply authorized_tag_inj in H
  | H : u8_be_bytes (Z.b2z _) = _ |- _ => apply flag_inj in H
  end.
  unfold semantics, policy_semantics, preference_numbers. destruct (res_profile r1), (res_profile r2).
  repeat match goal with H : _ = _ |- _ => rewrite H; clear H end. done.
Qed.

(** What the resolver produces fits the encoding. *)
Lemma filter_bset_wf {T} `{RustOrdLaws T, !EqDecision T} (b : list T) rs : bset_wf b → bset_wf (common b rs).
Proof. apply filter_wf. Qed.

Lemma resolved_policy {D} (sha : bytes → D) ls :
  Forall layer_valid ls → policy_semantics (res_policy (resolved sha ls)) = reference_policy ls.
Proof. apply apply_policies_semantics. Qed.

Lemma ordered_valid ls : Forall layer_valid ls → Forall layer_valid (sort_by by_precedence ls).
Proof. intros H. by rewrite sort_by_perm. Qed.

Lemma by_precedence_sorted ls : StronglySorted (cle by_precedence) (sort_by by_precedence ls).
Proof. pose proof (comparator_by (precedence ∘ layer_kind)). apply (sort_by_sorted by_precedence). Qed.

(** The numeric preferences of a resolved configuration, field by field. *)
Lemma resolved_preferences {D} (sha : bytes → D) ls :
  let o := sort_by by_precedence ls in
  let r := resolved sha o in
  let p := res_preferences r in
  resolves pref_query_results DEFAULT_CODE_SEARCH_RESULTS ls
    (Some (eff_max_query_results (res_policy r))) (eff_query_results p) ∧
  resolves pref_context_bytes DEFAULT_CONTEXT_BUILD_BUDGET_UNITS ls
    (Some (eff_max_context_bytes (res_policy r))) (eff_context_bytes p) ∧
  resolves pref_graph_depth DEFAULT_GRAPH_DEPTH ls
    (Some (eff_max_graph_depth (res_policy r))) (eff_graph_depth p) ∧
  resolves pref_graph_results DEFAULT_GRAPH_RESULTS ls
    (Some (eff_max_graph_results (res_policy r))) (eff_graph_results p) ∧
  resolves pref_watcher_poll_interval_ms DEFAULT_WATCHER_POLL_INTERVAL_MS ls None
    (eff_watcher_poll_interval_ms p) ∧
  wins pref_mcp_tool_profile Canonical ls (tool_requested (eff_mcp_tool_profile p))
    (tool_supplied_by (eff_mcp_tool_profile p)).
Proof.
  intros o r p. assert (∀ T (f : _ → option T) d v k, wins f d o v k → wins f d ls v k) as Hperm
    by (intros; eapply wins_perm; [apply sort_by_perm|done]).
  assert (∀ c v, requested (cap c v) = cand_value c ∧ supplied_by (cap c v) = cand_supplied_by c ∧
    effective (cap c v) = Z.min (requested (cap c v)) (acc_effective v) ∧
    constrained_by (cap c v) =
      if acc_effective v <? requested (cap c v) then acc_layers v else []) as Hcap.
  { intros c v. unfold cap, uncapped. destruct (_ <? cand_value c) eqn:E; simpl; rewrite ?E;
      split_and!; try done; lia. }
  unfold resolves, p, r. simpl. split_and!;
    repeat match goal with
    | |- effective (cap ?c ?v) = _ => apply (Hcap c v)
    | |- constrained_by (cap ?c ?v) = _ => apply (Hcap c v)
    | |- context [requested (cap ?c ?v)] => rewrite (proj1 (Hcap c v)), (proj1 (proj2 (Hcap c v)))
    end; try done; apply Hperm.
  - by apply (candidate_wins pr_query_results), by_precedence_sorted.
  - by apply (candidate_wins pr_context_bytes), by_precedence_sorted.
  - by apply (candidate_wins pr_graph_depth), by_precedence_sorted.
  - by apply (candidate_wins pr_graph_results), by_precedence_sorted.
  - by apply (candidate_wins pr_watcher_poll_interval_ms), by_precedence_sorted.
  - unfold authorize_tool_profile. case_match; simpl;
      by apply (candidate_wins pr_mcp_tool_profile), by_precedence_sorted.
Qed.

Lemma common_canonical rs :
  common [Canonical] rs = if bool_decide (Forall (λ r, Canonical ∈ r) rs) then [Canonical] else [].
Proof.
  unfold common. case_bool_decide; [by rewrite filter_cons_True|by rewrite filter_cons_False].
Qed.

Lemma authorize_canonical c allowed :
  acc_effective allowed = [Canonical] ∨ acc_effective allowed = [] →
  tool_authorized (authorize_tool_profile c allowed) =
  if bool_decide (cand_value c = Canonical ∧ acc_effective allowed = [Canonical])
  then Some Canonical else None.
Proof.
  intros Ha. unfold authorize_tool_profile. destruct c as [[] k]; destruct Ha as [-> | ->]; simpl;
    try done; by destruct k.
Qed.

Lemma authorize_requested c allowed : tool_requested (authorize_tool_profile c allowed) = cand_value c.
Proof. unfold authorize_tool_profile. by case_match. Qed.

Lemma resolved_tool_profile {D} (sha : bytes → D) ls :
  Forall layer_valid ls →
  let t := eff_mcp_tool_profile (res_preferences (resolved sha ls)) in
  tool_authorized t =
    if bool_decide (tool_requested t = Canonical ∧
                    Forall (λ s, Canonical ∈ s) (requests pol_allowed_mcp_tool_profiles ls))
    then Some Canonical else None.
Proof.
  intros Hv t. pose proof (f_equal sem_allowed_mcp_tool_profiles (apply_policies_semantics ls Hv)) as Hs.
  simpl in Hs. rewrite common_canonical in Hs. unfold t, resolved, preferences_finish.
  cbn [res_preferences eff_mcp_tool_profile].
  rewrite authorize_canonical, authorize_requested by (rewrite Hs; case_bool_decide; auto).
  rewrite Hs. repeat case_bool_decide; naive_solver.
Qed.

(** ** What is resolved is in range *)

Lemma in_u64_le m v : m ≤ u64_max → 1 ≤ v ≤ m → in_u64 v.
Proof. unfold in_u64. lia. Qed.

Definition preference_maxima : list Z :=
  [MAX_CONFIGURATION_QUERY_RESULTS; MAX_CONFIGURATION_CONTEXT_BYTES; MAX_CONFIGURATION_GRAPH_DEPTH;
   MAX_CONFIGURATION_GRAPH_RESULTS; MAX_CONFIGURATION_WATCHER_POLL_INTERVAL_MS].

Lemma resolves_bounds f default m ls c p :
  1 ≤ default ≤ m → (∀ l, l ∈ ls → positive_maximum (f (layer_preferences l)) m) →
  match c with Some c => 1 ≤ policy_effective c | None => True end →
  resolves f default ls c p → 1 ≤ effective p ≤ m.
Proof.
  intros Hd Hf Hc [Hw He]. pose proof (wins_positive _ _ _ _ _ _ Hd Hf Hw).
  destruct c as [c|]; destruct He as [-> _]; lia.
Qed.

Lemma watcher_positive_maximum v :
  match v with
  | Some v => MIN_CONFIGURATION_WATCHER_POLL_INTERVAL_MS ≤ v ≤ MAX_CONFIGURATION_WATCHER_POLL_INTERVAL_MS
  | None => True
  end → positive_maximum v MAX_CONFIGURATION_WATCHER_POLL_INTERVAL_MS.
Proof. destruct v; [|done]. unfold positive_maximum, MIN_CONFIGURATION_WATCHER_POLL_INTERVAL_MS. lia. Qed.

Lemma resolved_bounds {D} (sha : bytes → D) ls :
  Forall layer_valid ls →
  let r := resolved sha (sort_by by_precedence ls) in
  Forall2 (λ v m, 1 ≤ v ≤ m) (preference_numbers (res_preferences r)) preference_maxima ∧
  Forall2 (λ v m, 1 ≤ v ≤ m) (numbers (policy_semantics (res_policy r))) absolute_maxima.
Proof.
  intros Hv r. assert (Forall2 (λ v m, 1 ≤ v ≤ m) (numbers (policy_semantics (res_policy r))) absolute_maxima) as Hn.
  { unfold r. rewrite resolved_policy by by apply ordered_valid.
    apply reference_policy_bounds. by apply ordered_valid. }
  split; [|done]. unfold numbers, absolute_maxima in Hn. rewrite !Forall2_cons in Hn.
  destruct Hn as (_ & _ & Hq & Hc & Hd & Hg & _).
  rewrite Forall_forall in Hv. assert (∀ l, l ∈ ls → preferences_valid (layer_preferences l)) as Hp
    by (intros l Hl; apply (valid_preferences l (Hv l Hl))).
  destruct (resolved_preferences sha ls) as (H1 & H2 & H3 & H4 & H5 & _). fold r in H1, H2, H3, H4, H5.
  unfold preference_numbers, preference_maxima. rewrite !Forall2_cons.
  split; [|split; [|split; [|split; [|split]]]].
  - refine (resolves_bounds _ _ _ _ _ _ _ (λ l Hl, _) _ H1); [by vm_compute|apply (Hp l Hl)|apply Hq].
  - refine (resolves_bounds _ _ _ _ _ _ _ (λ l Hl, _) _ H2); [by vm_compute|apply (Hp l Hl)|apply Hc].
  - refine (resolves_bounds _ _ _ _ _ _ _ (λ l Hl, _) _ H3); [by vm_compute|apply (Hp l Hl)|apply Hd].
  - refine (resolves_bounds _ _ _ _ _ _ _ (λ l Hl, _) _ H4); [by vm_compute|apply (Hp l Hl)|apply Hg].
  - refine (resolves_bounds _ _ _ _ _ _ _ (λ l Hl, _) _ H5); [by vm_compute| |done].
    apply watcher_positive_maximum, (Hp l Hl).
  - constructor.
Qed.

Lemma bounds_in_u64 vs ms :
  Forall (λ m, m ≤ u64_max) ms → Forall2 (λ v m, 1 ≤ v ≤ m) vs ms → Forall in_u64 vs.
Proof.
  intros Hm. induction 1 as [|v m vs ms Hv _ IH]; [constructor|]. inversion_clear Hm.
  constructor; [by eapply in_u64_le|by apply IH].
Qed.

Lemma resolved_digestible {D} (sha : bytes → D) ls :
  Forall layer_valid ls → digestible (resolved sha (sort_by by_precedence ls)).
Proof.
  intros Hv. destruct (resolved_bounds sha ls Hv) as [Hp Hn].
  pose proof (resolved_policy sha _ (ordered_valid _ Hv)) as Hs.
  constructor.
  - unfold in_u16, u16_max. simpl. unfold CONFIGURATION_SCHEMA_VERSION. lia.
  - unfold in_u16, u16_max. simpl. unfold CONFIGURATION_RESOLVER_VERSION. lia.
  - eapply bounds_in_u64; [|exact Hp]. repeat constructor; by vm_compute.
  - eapply bounds_in_u64; [|exact Hn]. repeat constructor; by vm_compute.
  - apply (f_equal sem_allowed_languages) in Hs. simpl in *. rewrite Hs. apply filter_bset_wf.
    repeat constructor.
  - apply (f_equal sem_allowed_mcp_tool_profiles) in Hs. simpl in *. rewrite Hs. apply filter_bset_wf.
    repeat constructor.
Qed.

Lemma hashed_semantics {D} (r1 r2 : ResolvedConfiguration D) :
  semantics r1 = semantics r2 → hashed r1 = hashed r2.
Proof.
  unfold semantics, hashed, canonical_configuration_bytes, preference_numbers, policy_semantics.
  intros H. injection H. intros.
  repeat match goal with H : _ = _ |- _ => rewrite H; clear H end. by destruct (res_profile r1), (res_profile r2).
Qed.

(** ** Examples *)

Definition no_preferences : ConfigurationPreferenceOverrides :=
  Build_ConfigurationPreferenceOverrides None None None None None None.
Definition no_policy : ConfigurationPolicyOverrides :=
  Build_ConfigurationPolicyOverrides None None None None None None None None None None retention_default.

(** A user who wants fifty results and the minimal profile, and a repository that allows
    forty, in Rust alone. *)
Definition example_user : ConfigurationLayer :=
  {| layer_kind := User; layer_profile := Some Local;
     layer_preferences := Build_ConfigurationPreferenceOverrides (Some 50) None None None None (Some Minimal);
     layer_policy := no_policy |}.
Definition example_repository : ConfigurationLayer :=
  {| layer_kind := Repository; layer_profile := None; layer_preferences := no_preferences;
     layer_policy := Build_ConfigurationPolicyOverrides (Some [Rust]) None None None (Some 40) None None
       None (Some true) (Some false) retention_default |}.
Definition example_layers : list ConfigurationLayer := [example_repository; example_user].

Lemma example_layers_valid : Forall layer_valid example_layers ∧ Forall layer_valid [example_user].
Proof.
  assert (layer_valid example_user).
  { split; [done|done|by repeat split|by repeat split]. }
  assert (layer_valid example_repository).
  { split; [done|by intros []|by repeat split|]. repeat split; try done; repeat constructor. }
  by unfold example_layers; rewrite !Forall_cons, !Forall_nil.
Qed.

(** ** Properties *)

Section properties.
Context {ConfigurationDigest : Type} (sha256 : bytes → ConfigurationDigest).

Notation resolve := (resolve_configuration sha256).

(** C34: the effective policy is the reference policy: on validated layers a resolved
    configuration holds, for every ceiling, the least of the compiled one and the
    layers' requests, for the retention floor the greatest, for the sets of languages and
    tool profiles the members every layer allows, memory writes denied when any layer
    denies them, and symlinks never followed; every number lies between one and its
    absolute maximum. *)
Theorem resolve_policy_reference ls r :
  Forall layer_valid ls → resolve ls = Ok r →
  policy_semantics (res_policy r) = reference_policy ls ∧
  Forall2 (λ v m, 1 ≤ v ≤ m) (numbers (policy_semantics (res_policy r))) absolute_maxima.
Proof.
  intros Hv [_ ->]%resolve_Ok. split; [|by apply resolved_bounds].
  rewrite resolved_policy by by apply ordered_valid. apply reference_policy_perm, sort_by_perm.
Qed.

(** C35: policy is monotonic: adding layers, whatever their kind, precedence and position,
    can only make the effective policy tighter, never weaker. *)
Theorem resolve_policy_monotone ls ls' r r' :
  Forall layer_valid ls' → ls ⊆+ ls' → resolve ls = Ok r → resolve ls' = Ok r' →
  tighter (policy_semantics (res_policy r')) (policy_semantics (res_policy r)).
Proof.
  intros Hv [new Hp]%submseteq_Permutation [_ ->]%resolve_Ok [_ ->]%resolve_Ok.
  assert (Forall layer_valid ls) by (rewrite Hp in Hv; by apply Forall_app in Hv as []).
  rewrite !resolved_policy by by apply ordered_valid.
  rewrite !(reference_policy_perm _ _ (sort_by_perm _ _)).
  rewrite (reference_policy_perm ls' (new ++ ls)) by (by rewrite Hp, Permutation_app_comm).
  apply reference_policy_tighter.
Qed.

(** Resolution does not depend on the order the layers are supplied in: result,
    provenance, digest and error are the same for every permutation. *)
Theorem resolve_order_independent ls ls' :
  ls ≡ₚ ls' → resolve_configuration sha256 ls = resolve_configuration sha256 ls'.
Proof.
  intros Hp. rewrite !resolve_eq. rewrite (Permutation_length Hp).
  rewrite (first_duplicate_kinds _ _ (ordered_kinds _ _ Hp)).
  destruct (_ <? _)%nat; [done|]. destruct (first_duplicate _) eqn:E; [done|].
  rewrite (ordered_unique ls' ls); done.
Qed.

(** Preferences resolve by precedence under the policy: each numeric preference is
    the request of the highest-precedence layer that makes one (the profile's default
    when none does), attributed to that layer, and comes out as the lesser of the request
    and the effective ceiling, with the constraining layers exactly when the ceiling bit;
    all the effective numbers are between one and their maxima. *)
Theorem resolve_preferences_spec ls r :
  Forall layer_valid ls → resolve ls = Ok r →
  let p := res_preferences r in
  let c := res_policy r in
  resolves pref_query_results DEFAULT_CODE_SEARCH_RESULTS ls
    (Some (eff_max_query_results c)) (eff_query_results p) ∧
  resolves pref_context_bytes DEFAULT_CONTEXT_BUILD_BUDGET_UNITS ls
    (Some (eff_max_context_bytes c)) (eff_context_bytes p) ∧
  resolves pref_graph_depth DEFAULT_GRAPH_DEPTH ls
    (Some (eff_max_graph_depth c)) (eff_graph_depth p) ∧
  resolves pref_graph_results DEFAULT_GRAPH_RESULTS ls
    (Some (eff_max_graph_results c)) (eff_graph_results p) ∧
  resolves pref_watcher_poll_interval_ms DEFAULT_WATCHER_POLL_INTERVAL_MS ls None
    (eff_watcher_poll_interval_ms p) ∧
  Forall2 (λ v m, 1 ≤ v ≤ m) (preference_numbers p) preference_maxima.
Proof.
  intros Hv [_ ->]%resolve_Ok. destruct (resolved_preferences sha256 ls) as (? & ? & ? & ? & ? & _).
  do 5 (split; [done|]). by apply resolved_bounds.
Qed.

(** Tool-profile authorization: a request is authorized exactly when it is for the
    canonical profile and no layer's allow-list leaves that out; the minimal profile is
    never authorized, whatever the layers ask and allow. *)
Theorem tool_profile_authorization ls r :
  Forall layer_valid ls → resolve ls = Ok r →
  let t := eff_mcp_tool_profile (res_preferences r) in
  wins pref_mcp_tool_profile Canonical ls (tool_requested t) (tool_supplied_by t) ∧
  tool_authorized t ≠ Some Minimal ∧
  (tool_authorized t = Some Canonical ↔
   tool_requested t = Canonical ∧ Forall (λ s, Canonical ∈ s) (requests pol_allowed_mcp_tool_profiles ls)).
Proof.
  intros Hv [_ ->]%resolve_Ok t. destruct (resolved_preferences sha256 ls) as (_ & _ & _ & _ & _ & Hw).
  split; [exact Hw|]. unfold t. rewrite resolved_tool_profile by by apply ordered_valid.
  case_bool_decide as E; rewrite (requests_perm _ _ _ (sort_by_perm by_precedence ls)) in E;
    naive_solver.
Qed.

(** The digest identifies the semantics: it hashes the canonical bytes, and two
    resolved configurations have the same canonical bytes exactly when they agree on
    every value in force, whatever layers those values came from. *)
Theorem digest_identifies_semantics ls ls' r r' :
  Forall layer_valid ls → Forall layer_valid ls' → resolve ls = Ok r → resolve ls' = Ok r' →
  res_digest r = sha256 (hashed r) ∧ (hashed r = hashed r' ↔ semantics r = semantics r').
Proof.
  intros Hv Hv' [_ ->]%resolve_Ok [_ ->]%resolve_Ok. split; [done|]. split.
  - apply hashed_inj; by apply resolved_digestible.
  - apply hashed_semantics.
Qed.

(** Resolution succeeds exactly on layers of distinct kinds: validated layers are
    resolved when no kind repeats, and otherwise rejected, without a result. *)
Theorem resolve_succeeds ls :
  Forall layer_valid ls → (∃ r, resolve_configuration sha256 ls = Ok r) ↔ NoDup (map layer_kind ls).
Proof.
  intros Hv. rewrite <- first_duplicate_NoDup, resolve_eq. split; [intros [r Hr]; by repeat case_match|].
  intros Hd. rewrite Hd. destruct (_ <? _)%nat eqn:E; [|by eexists]. exfalso.
  apply first_duplicate_NoDup in Hd.
  apply Nat.ltb_lt in E. unfold MAX_CONFIGURATION_FILE_LAYERS in E. rewrite <- (length_map layer_kind) in E.
  enough (length (map layer_kind ls) ≤ length [User; Workspace; Repository; Environment; Cli])%nat
    by (simpl in *; lia).
  apply submseteq_length, NoDup_submseteq; [done|]. intros k (l & -> & Hl)%list_elem_of_fmap.
  rewrite Forall_forall in Hv. pose proof (valid_caller l (Hv l Hl)) as Hc.
  rewrite !elem_of_cons. destruct (layer_kind l); try done; tauto.
Qed.
End properties.

Definition example_resolved : ResolvedConfiguration bytes :=
  resolved id (sort_by by_precedence example_layers).

Lemma resolve_policy_reference_witness :
  policy_semantics (res_policy example_resolved) = reference_policy example_layers ∧
  Forall2 (λ v m, 1 ≤ v ≤ m) (numbers (policy_semantics (res_policy example_resolved))) absolute_maxima.
Proof.
  apply (resolve_policy_reference id example_layers example_resolved);
    [apply example_layers_valid|reflexivity].
Defined.

Lemma resolve_policy_monotone_witness :
  tighter (policy_semantics (res_policy example_resolved))
    (policy_semantics (res_policy (resolved (id : bytes → bytes) [example_user]))).
Proof.
  apply (resolve_policy_monotone id [example_user] example_layers);
    [apply example_layers_valid|apply (submseteq_cons _ _ _ (reflexivity _))|reflexivity|reflexivity].
Defined.

Lemma resolve_order_independent_witness :
  resolve_configuration (id : bytes → bytes) example_layers =
  resolve_configuration id [example_user; example_repository].
Proof. apply (resolve_order_independent id). apply Permutation_swap. Defined.

Lemma resolve_preferences_spec_witness :
  effective (eff_query_results (res_preferences example_resolved)) = 40 ∧
  Forall2 (λ v m, 1 ≤ v ≤ m) (preference_numbers (res_preferences example_resolved)) preference_maxima.
Proof.
  destruct (resolve_preferences_spec id example_layers example_resolved)
    as (_ & _ & _ & _ & _ & H); [apply example_layers_valid|reflexivity|]. split; [reflexivity|exact H].
Defined.

Lemma tool_profile_authorization_witness :
  tool_requested (eff_mcp_tool_profile (res_preferences example_resolved)) = Minimal ∧
  tool_authorized (eff_mcp_tool_profile (res_preferences example_resolved)) ≠ Some Minimal.
Proof.
  split; [reflexivity|].
  apply (tool_profile_authorization id example_layers example_resolved);
    [apply example_layers_valid|reflexivity].
Defined.

Lemma digest_identifies_semantics_witness :
  res_digest example_resolved = hashed example_resolved ∧
  (hashed example_resolved = hashed (resolved (id : bytes → bytes) [example_user]) ↔
   semantics example_resolved = semantics (resolved (id : bytes → bytes) [example_user])).
Proof.
  apply (digest_identifies_semantics id example_layers [example_user]);
    [apply example_layers_valid|apply example_layers_valid|reflexivity|reflexivity].
Defined.

Lemma resolve_succeeds_witness : ∃ r, resolve_configuration (id : bytes → bytes) example_layers = Ok r.
Proof.
  apply (resolve_succeeds id example_layers); [apply example_layers_valid|].
  repeat constructor; rewrite ?elem_of_cons, ?elem_of_nil; intuition discriminate.
Defined.
