(* ===== verification/GraphIdentity.v ===== *)
(** * Identities of the Rust graph

    Models the spans of [crates/repowitness-domain/src/evidence.rs], the declaration and
    site identities of [crates/repowitness-analysis/src/rust_graph/resolution/model.rs] and
    the relationships of [rust_graph/traversal/model.rs].  A source slot and an artifact
    digest are their bytes; a repository path is its bytes, which are all that its equality
    and order compare. *)

From Stdlib Require Import ZArith Lia ZifyBool.
From stdpp Require Import base numbers sorting list.
From S2P Require Import Prelude Ordering RepositoryPath.

Open Scope Z_scope.

(** ** Spans *)

Record ByteSpan := {
  span_start : Z;
  span_end : Z;
}.

Inductive ByteSpanError := EndBeforeStart (start end_ : Z).

Definition span_try_new (start end_ : Z) : result ByteSpanError ByteSpan :=
  if end_ <? start then Err (EndBeforeStart start end_)
  else Ok {| span_start := start; span_end := end_ |}.

Definition span_is_empty (s : ByteSpan) : bool := span_start s =? span_end s.

Definition span_contains (outer inner : ByteSpan) : bool :=
  (span_start outer <=? span_start inner) && (span_end inner <=? span_end outer).

(** ** Categories, ordered by declaration *)

Inductive RustSymbolKind :=
| Function | Method | Struct | Enum | Union | Trait | Module_ | TypeAlias | Constant | Static
| Macro | Interface | DefinedType | Variable_ | Class_.

Inductive RustGraphSiteKind := SiteImport | SiteReference | SiteCall | SiteMacroCall | SiteTestMarker.

Inductive RustGraphSiteEvidence := DirectSyntax | SyntaxHeuristic.

Inductive RustGraphResolutionEvidence :=
| QualifiedSyntax | LexicalSyntax | ImportSyntax | ExactNameHeuristic.

Inductive RustGraphEdgeKind := EdgeImport | EdgeReference | EdgeCall.

Definition symbol_kind_rank (k : RustSymbolKind) : Z :=
  match k with
  | Function => 0 | Method => 1 | Struct => 2 | Enum => 3 | Union => 4 | Trait => 5 | Module_ => 6
  | TypeAlias => 7 | Constant => 8 | Static => 9 | Macro => 10 | Interface => 11 | DefinedType => 12
  | Variable_ => 13 | Class_ => 14
  end.
Definition site_kind_rank (k : RustGraphSiteKind) : Z :=
  match k with
  | SiteImport => 0 | SiteReference => 1 | SiteCall => 2 | SiteMacroCall => 3 | SiteTestMarker => 4
  end.
Definition site_evidence_rank (e : RustGraphSiteEvidence) : Z :=
  match e with DirectSyntax => 0 | SyntaxHeuristic => 1 end.
Definition resolution_evidence_rank (e : RustGraphResolutionEvidence) : Z :=
  match e with
  | QualifiedSyntax => 0 | LexicalSyntax => 1 | ImportSyntax => 2 | ExactNameHeuristic => 3
  end.
Definition edge_kind_rank (k : RustGraphEdgeKind) : Z :=
  match k with EdgeImport => 0 | EdgeReference => 1 | EdgeCall => 2 end.

Lemma symbol_kind_rank_inj k1 k2 : symbol_kind_rank k1 = symbol_kind_rank k2 → k1 = k2.
Proof. by destruct k1, k2. Qed.
Lemma site_kind_rank_inj k1 k2 : site_kind_rank k1 = site_kind_rank k2 → k1 = k2.
Proof. by destruct k1, k2. Qed.
Lemma site_evidence_rank_inj e1 e2 : site_evidence_rank e1 = site_evidence_rank e2 → e1 = e2.
Proof. by destruct e1, e2. Qed.
Lemma resolution_evidence_rank_inj e1 e2 :
  resolution_evidence_rank e1 = resolution_evidence_rank e2 → e1 = e2.
Proof. by destruct e1, e2. Qed.
Lemma edge_kind_rank_inj k1 k2 : edge_kind_rank k1 = edge_kind_rank k2 → k1 = k2.
Proof. by destruct k1, k2. Qed.

#[export] Instance symbol_kind_ord : RustOrd RustSymbolKind := ord_by symbol_kind_rank.
#[export] Instance symbol_kind_ord_laws : RustOrdLaws RustSymbolKind :=
  ord_by_laws symbol_kind_rank symbol_kind_rank_inj.
#[export] Instance site_kind_ord : RustOrd RustGraphSiteKind := ord_by site_kind_rank.
#[export] Instance site_kind_ord_laws : RustOrdLaws RustGraphSiteKind :=
  ord_by_laws site_kind_rank site_kind_rank_inj.
#[export] Instance site_evidence_ord : RustOrd RustGraphSiteEvidence := ord_by site_evidence_rank.
#[export] Instance site_evidence_ord_laws : RustOrdLaws RustGraphSiteEvidence :=
  ord_by_laws site_evidence_rank site_evidence_rank_inj.
#[export] Instance resolution_evidence_ord : RustOrd RustGraphResolutionEvidence :=
  ord_by resolution_evidence_rank.
#[export] Instance resolution_evidence_ord_laws : RustOrdLaws RustGraphResolutionEvidence :=
  ord_by_laws resolution_evidence_rank resolution_evidence_rank_inj.
#[export] Instance edge_kind_ord : RustOrd RustGraphEdgeKind := ord_by edge_kind_rank.
#[export] Instance edge_kind_ord_laws : RustOrdLaws RustGraphEdgeKind :=
  ord_by_laws edge_kind_rank edge_kind_rank_inj.

Definition span_fields (s : ByteSpan) : Z * Z := (span_start s, span_end s).
Lemma span_fields_inj s1 s2 : span_fields s1 = span_fields s2 → s1 = s2.
Proof. destruct s1, s2. unfold span_fields. simpl. congruence. Qed.
#[export] Instance span_ord : RustOrd ByteSpan := ord_by span_fields.
#[export] Instance span_ord_laws : RustOrdLaws ByteSpan := ord_by_laws span_fields span_fields_inj.

(** ** Declarations and sites *)

Definition MAX_MEMORY_INTEROPERABLE_INTEGER : Z := 9007199254740991.

Inductive RustGraphResolutionError :=
| ResolutionInvalidLimits | InvalidOccurrence | DefinitionLimitExceeded | SiteLimitExceeded
| InputTextLimitExceeded | CandidateLimitExceeded | ResolutionOutputLimitExceeded
| DuplicateDefinition | DuplicateSite | ResolutionCountOverflow | ResolutionCancelled
| ResolutionDeadlineExceeded.

Record RustGraphDefinitionIdentity := {
  def_source_slot : bytes;
  def_path : bytes;
  def_artifact : bytes;
  def_fact_ordinal : Z;
  def_kind : RustSymbolKind;
  def_name_span : ByteSpan;
  def_declaration_span : ByteSpan;
}.

Record RustGraphSiteIdentity := {
  site_source_slot : bytes;
  site_path : bytes;
  site_artifact : bytes;
  site_ordinal : Z;
  site_kind : RustGraphSiteKind;
  site_occurrence_span : ByteSpan;
  site_target_span : ByteSpan;
}.

(** [component.ends_with(b".rs")]. *)
Definition ends_with (suffix bs : bytes) : bool :=
  bool_decide (drop (length bs - length suffix) bs = suffix).

Definition is_rust_path (path : bytes) : bool :=
  match last (split_slash path) with
  | Some component => ends_with (b_of ".rs") component && (3 <? length component)%nat
  | None => false
  end.

Definition definition_try_new (source_slot path artifact : bytes) (fact_ordinal : Z)
    (kind : RustSymbolKind) (name_span declaration_span : ByteSpan)
    : result RustGraphResolutionError RustGraphDefinitionIdentity :=
  if (MAX_MEMORY_INTEROPERABLE_INTEGER <? fact_ordinal) || negb (is_rust_path path)
     || span_is_empty name_span || negb (span_contains declaration_span name_span)
  then Err InvalidOccurrence
  else Ok {| def_source_slot := source_slot; def_path := path; def_artifact := artifact;
             def_fact_ordinal := fact_ordinal; def_kind := kind; def_name_span := name_span;
             def_declaration_span := declaration_span |}.

Definition site_try_new (source_slot path artifact : bytes) (ordinal : Z) (kind : RustGraphSiteKind)
    (occurrence_span target_span : ByteSpan)
    : result RustGraphResolutionError RustGraphSiteIdentity :=
  if negb (is_rust_path path) || span_is_empty target_span
     || negb (span_contains occurrence_span target_span)
  then Err InvalidOccurrence
  else Ok {| site_source_slot := source_slot; site_path := path; site_artifact := artifact;
             site_ordinal := ordinal; site_kind := kind; site_occurrence_span := occurrence_span;
             site_target_span := target_span |}.

(** The derived orders compare the fields in declaration order. *)

Definition definition_fields (d : RustGraphDefinitionIdentity)
    : bytes * (bytes * (bytes * (Z * (RustSymbolKind * (ByteSpan * ByteSpan))))) :=
  (def_source_slot d, (def_path d, (def_artifact d, (def_fact_ordinal d, (def_kind d,
    (def_name_span d, def_declaration_span d)))))).
Lemma definition_fields_inj d1 d2 : definition_fields d1 = definition_fields d2 → d1 = d2.
Proof. destruct d1, d2. unfold definition_fields. simpl. congruence. Qed.
#[export] Instance definition_ord : RustOrd RustGraphDefinitionIdentity := ord_by definition_fields.
#[export] Instance definition_ord_laws : RustOrdLaws RustGraphDefinitionIdentity :=
  ord_by_laws definition_fields definition_fields_inj.

Definition site_fields (s : RustGraphSiteIdentity)
    : bytes * (bytes * (bytes * (Z * (RustGraphSiteKind * (ByteSpan * ByteSpan))))) :=
  (site_source_slot s, (site_path s, (site_artifact s, (site_ordinal s, (site_kind s,
    (site_occurrence_span s, site_target_span s)))))).
Lemma site_fields_inj s1 s2 : site_fields s1 = site_fields s2 → s1 = s2.
Proof. destruct s1, s2. unfold site_fields. simpl. congruence. Qed.
#[export] Instance site_ord : RustOrd RustGraphSiteIdentity := ord_by site_fields.
#[export] Instance site_ord_laws : RustOrdLaws RustGraphSiteIdentity :=
  ord_by_laws site_fields site_fields_inj.

(** ** Relationships *)

Inductive RustGraphTraceError :=
| InvalidLimits | InvalidEdgeKinds | InvalidEdge | DuplicateEdge | InputEdgeLimitExceeded
| InputByteLimitExceeded | StartUnavailable | CountOverflow | Cancelled | DeadlineExceeded
| OutputLimitExceeded.

Definition from_site_kind (k : RustGraphSiteKind) : option RustGraphEdgeKind :=
  match k with
  | SiteImport => Some EdgeImport
  | SiteReference => Some EdgeReference
  | SiteCall => Some EdgeCall
  | SiteMacroCall | SiteTestMarker => None
  end.

Record RustGraphEdgeKinds := {
  kinds_import : bool;
  kinds_reference : bool;
  kinds_call : bool;
}.

Definition edge_kinds_ALL : RustGraphEdgeKinds := Build_RustGraphEdgeKinds true true true.

Definition edge_kinds_try_new (import reference call : bool)
    : result RustGraphTraceError RustGraphEdgeKinds :=
  if import || reference || call then Ok (Build_RustGraphEdgeKinds import reference call)
  else Err InvalidEdgeKinds.

Definition allows (ks : RustGraphEdgeKinds) (k : RustGraphEdgeKind) : bool :=
  match k with
  | EdgeImport => kinds_import ks
  | EdgeReference => kinds_reference ks
  | EdgeCall => kinds_call ks
  end.

Inductive RustGraphRelationshipCardinality :=
| Unique
| Ambiguous (candidate_count retained_candidates : Z) (candidates_truncated : bool).

Definition try_ambiguous (candidate_count retained_candidates : Z) (candidates_truncated : bool)
    : result RustGraphTraceError RustGraphRelationshipCardinality :=
  if (candidate_count <? 2) || (retained_candidates <? 2) || (candidate_count <? retained_candidates)
     || negb (Bool.eqb candidates_truncated (retained_candidates <? candidate_count))
  then Err InvalidEdge
  else Ok (Ambiguous candidate_count retained_candidates candidates_truncated).

Definition card_candidate_count (c : RustGraphRelationshipCardinality) : Z :=
  match c with Unique => 1 | Ambiguous n _ _ => n end.
Definition card_retained_candidates (c : RustGraphRelationshipCardinality) : Z :=
  match c with Unique => 1 | Ambiguous _ r _ => r end.
Definition card_candidates_truncated (c : RustGraphRelationshipCardinality) : bool :=
  match c with Unique => false | Ambiguous _ _ t => t end.
Definition is_ambiguous (c : RustGraphRelationshipCardinality) : bool :=
  match c with Unique => false | Ambiguous _ _ _ => true end.

(** [Unique] precedes [Ambiguous], whose fields are compared in order. *)
Definition card_fields (c : RustGraphRelationshipCardinality) : option (Z * (Z * Z)) :=
  match c with Unique => None | Ambiguous n r t => Some (n, (r, Z.b2z t)) end.
Lemma card_fields_inj c1 c2 : card_fields c1 = card_fields c2 → c1 = c2.
Proof. destruct c1 as [|n1 r1 t1], c2 as [|n2 r2 t2]; simpl; try done. by intros [= -> -> ?%Z.b2z_inj]; subst. Qed.
#[export] Instance card_ord : RustOrd RustGraphRelationshipCardinality := ord_by card_fields.
#[export] Instance card_ord_laws : RustOrdLaws RustGraphRelationshipCardinality :=
  ord_by_laws card_fields card_fields_inj.

Record RustGraphTraversalEdge := {
  edge_source : RustGraphDefinitionIdentity;
  edge_site : RustGraphSiteIdentity;
  edge_target : RustGraphDefinitionIdentity;
  edge_extraction_evidence : RustGraphSiteEvidence;
  edge_resolution_evidence : RustGraphResolutionEvidence;
  edge_cardinality : RustGraphRelationshipCardinality;
}.

Definition edge_try_new (source : RustGraphDefinitionIdentity) (site : RustGraphSiteIdentity)
    (target : RustGraphDefinitionIdentity) (extraction_evidence : RustGraphSiteEvidence)
    (resolution_evidence : RustGraphResolutionEvidence)
    (cardinality : RustGraphRelationshipCardinality)
    : result RustGraphTraceError RustGraphTraversalEdge :=
  if bool_decide (from_site_kind (site_kind site) = None)
     || negb (bool_decide (def_source_slot source = site_source_slot site))
     || negb (bool_decide (def_path source = site_path site))
     || negb (span_contains (def_declaration_span source) (site_occurrence_span site))
  then Err InvalidEdge
  else Ok {| edge_source := source; edge_site := site; edge_target := target;
             edge_extraction_evidence := extraction_evidence;
             edge_resolution_evidence := resolution_evidence; edge_cardinality := cardinality |}.

(** [kind()] panics on a site kind no constructed edge has; the option is the panic. *)
Definition edge_kind (e : RustGraphTraversalEdge) : option RustGraphEdgeKind :=
  from_site_kind (site_kind (edge_site e)).

(** What [edge_try_new] guarantees. *)
Record edge_wf (e : RustGraphTraversalEdge) : Prop := {
  edge_wf_kind : is_Some (edge_kind e);
  edge_wf_slot : def_source_slot (edge_source e) = site_source_slot (edge_site e);
  edge_wf_path : def_path (edge_source e) = site_path (edge_site e);
  edge_wf_span : span_contains (def_declaration_span (edge_source e))
                   (site_occurrence_span (edge_site e)) = true;
}.

Lemma edge_try_new_Ok source site target ee re c e :
  edge_try_new source site target ee re c = Ok e ↔
  e = Build_RustGraphTraversalEdge source site target ee re c ∧ edge_wf e.
Proof.
  unfold edge_try_new, edge_kind. split.
  - destruct (bool_decide _ || _ || _ || _) eqn:E; [done|]. intros [= <-]. split; [done|].
    rewrite !orb_false_iff, !negb_false_iff in E. destruct E as [[[Hk Hs] Hp] Hc].
    apply bool_decide_eq_false in Hk. apply bool_decide_eq_true in Hs, Hp.
    constructor; simpl; try done. unfold edge_kind. simpl. by destruct (from_site_kind _).
  - intros [-> [Hk Hs Hp Hc]]. unfold edge_kind in Hk. simpl in *.
    rewrite bool_decide_false by (intros Hn; rewrite Hn in Hk; by destruct Hk).
    by rewrite !bool_decide_true, Hc by done.
Qed.
