(* ===== verification/TraceSort.v ===== *)
(** * The cancellable sort of the graph traversal

    Models [cancellable_sort_indices] and [merge_runs] of
    [crates/repowitness-analysis/src/rust_graph/traversal/engine.rs]: chunks of 256 are
    sorted in place, then merged by doubling passes between the slice and a scratch
    buffer, with a check of the control at fixed points.  The sort is generic in its
    elements: the source sorts indexes through a comparison of what they point at. *)

From Stdlib Require Import ZArith Lia ZifyBool.
From stdpp Require Import base numbers sorting list.
From S2P Require Import Prelude Ordering GraphIdentity.

Open Scope Z_scope.

Definition SORT_CHUNK : Z := 256.

(** [slice.chunks(n)], and the ranges [start..start + n] of [step_by(n)]; the first
    argument bounds the number of chunks. *)
Fixpoint chunks_upto {A} (fuel n : nat) (xs : list A) : list (list A) :=
  match fuel, xs with
  | S fuel, _ :: _ => take n xs :: chunks_upto fuel n (drop n xs)
  | _, _ => []
  end.
Definition chunks {A} (n : nat) (xs : list A) : list (list A) := chunks_upto (length xs) n xs.

Section sort.
Context {A : Type} (compare : A → A → comparison).

Notation ctl := (ctl RustGraphTraceError).

(** The inner loop of [merge_runs], over [outputs] places: [left] and [right] are the
    indexes, [ls] and [rs] the elements of the two runs from them on. *)
Fixpoint merge_run (outputs : nat) (left right : Z) (ls rs : list A) : ctl (list A) :=
  match outputs with
  | O => mret []
  | S outputs =>
      (if Z.land (left + right) 255 =? 0 then check else mret ());;
      match ls, rs with
      | x :: ls', [] => rest ← merge_run outputs (left + 1) right ls' rs; mret (x :: rest)
      | x :: ls', y :: rs' =>
          match compare x y with
          | Gt => rest ← merge_run outputs left (right + 1) ls rs'; mret (y :: rest)
          | _ => rest ← merge_run outputs (left + 1) right ls' rs; mret (x :: rest)
          end
      | [], y :: rs' => rest ← merge_run outputs left (right + 1) ls rs'; mret (y :: rest)
      | [], [] => mret []
      end
  end.

(** The destination is overwritten entirely, one merged run after another. *)
Definition merge_runs (source : list A) (width : Z) : ctl (list A) :=
  run ← lift (ok_or (u64_checked_mul width 2) CountOverflow);
  acc ← ctl_fold (λ '(start, destination) slice,
      check;;
      let ls := take (Z.to_nat width) slice in
      let rs := drop (Z.to_nat width) slice in
      merged ← merge_run (length slice) start (start + Z.of_nat (length ls)) ls rs;
      mret (start + run, destination ++ merged))
    (0, []) (chunks (Z.to_nat run) source);
  mret acc.2.

(** The [while width < indexes.len()] loop; the result is the two buffers and
    [source_is_indexes]. *)
Fixpoint merge_passes (fuel : nat) (width : Z) (indexes scratch : list A) (source_is_indexes : bool)
    : ctl (list A * list A * bool) :=
  match fuel with
  | O => mret (indexes, scratch, source_is_indexes)
  | S fuel =>
      if width <? Z.of_nat (length indexes) then
        check;;
        buffers ← (if source_is_indexes
                   then scratch ← merge_runs indexes width; mret (indexes, scratch)
                   else indexes ← merge_runs scratch width; mret (indexes, scratch));
        width ← lift (ok_or (u64_checked_mul width 2) CountOverflow);
        merge_passes fuel width buffers.1 buffers.2 (negb source_is_indexes)
      else mret (indexes, scratch, source_is_indexes)
  end.

Definition cancellable_sort (indexes : list A) : ctl (list A) :=
  indexes ← ctl_fold (λ sorted chunk, check;; mret (sorted ++ sort_by compare chunk)) []
              (chunks (Z.to_nat SORT_CHUNK) indexes);
  if Z.of_nat (length indexes) <=? SORT_CHUNK then check;; mret indexes
  else
    let scratch := indexes in
    '(indexes, scratch, source_is_indexes) ←
      merge_passes (length indexes) SORT_CHUNK indexes scratch true;
    let indexes := if negb source_is_indexes then scratch else indexes in
    check;; mret indexes.
End sort.

(** ** Chunks *)

Section chunks.
Context {A : Type}.
Implicit Types xs : list A.

Lemma chunks_upto_enough f1 f2 n xs :
  (0 < n)%nat → (length xs ≤ f1)%nat → (length xs ≤ f2)%nat →
  chunks_upto f1 n xs = chunks_upto f2 n xs.
Proof.
  intros Hn. revert f2 xs. induction f1 as [|f1 IH]; intros f2 [|x xs] H1 H2; simpl in *; try lia.
  - by destruct f2.
  - by destruct f2.
  - destruct f2 as [|f2]; simpl in *; [lia|]. f_equal.
    apply IH; rewrite length_drop; simpl; lia.
Qed.

Lemma chunks_nil n : chunks n ([] : list A) = [].
Proof. done. Qed.

Lemma chunks_cons n xs :
  (0 < n)%nat → xs ≠ [] → chunks n xs = take n xs :: chunks n (drop n xs).
Proof.
  intros Hn Hx. unfold chunks at 1. destruct xs as [|x xs]; [done|]. simpl. f_equal.
  apply chunks_upto_enough; [done|..]; rewrite length_drop; simpl; lia.
Qed.

(** Induction along the chunks. *)
Lemma chunks_ind n (Hn : (0 < n)%nat) (P : list A → Prop) :
  P [] → (∀ xs, xs ≠ [] → P (drop n xs) → P xs) → ∀ xs, P xs.
Proof.
  intros H0 Hs xs. remember (length xs) as k eqn:Hk. revert xs Hk.
  induction (lt_wf k) as [k _ IH]. intros [|x xs] ->; [done|]. apply Hs; [done|].
  eapply IH; [|done]. rewrite length_drop. simpl. lia.
Qed.

Lemma concat_chunks n xs : (0 < n)%nat → concat (chunks n xs) = xs.
Proof.
  intros Hn. induction xs as [|xs Hx IH] using (chunks_ind n Hn); [done|].
  rewrite chunks_cons by done. simpl. rewrite IH. apply take_drop.
Qed.

Lemma chunks_single n xs : (length xs ≤ n)%nat → xs ≠ [] → (0 < n)%nat → chunks n xs = [xs].
Proof. intros. rewrite chunks_cons, take_ge, drop_ge by done. by rewrite chunks_nil. Qed.

(** Replacing every chunk by one of the same length keeps the chunking. *)
Lemma chunks_map n (f : list A → list A) xs :
  (0 < n)%nat → (∀ c, length (f c) = length c) →
  chunks n (concat (map f (chunks n xs))) = map f (chunks n xs).
Proof.
  intros Hn Hf. induction xs as [|xs Hx IH] using (chunks_ind n Hn); [done|].
  rewrite (chunks_cons n xs) by done. simpl.
  assert (f (take n xs) ≠ []) as Hne.
  { intros H%(f_equal length). rewrite Hf, length_take in H. destruct xs; simpl in *; [done|lia]. }
  rewrite chunks_cons by (first [done|by destruct (f (take n xs))]).
  destruct (decide (length xs ≤ n)%nat) as [Hle|Hgt].
  - rewrite (drop_ge xs), chunks_nil by done. simpl. rewrite app_nil_r.
    rewrite take_ge, drop_ge by (rewrite Hf, length_take; lia). done.
  - assert (length (f (take n xs)) = n) as Hlen by (rewrite Hf, length_take; lia).
    rewrite take_app_length', drop_app_length' by done. by rewrite IH.
Qed.

(** A chunk of twice the size is two chunks. *)
Lemma chunks_double n (P : list A → Prop) xs :
  (0 < n)%nat → P [] → Forall P (chunks n xs) →
  Forall (λ c, P (take n c) ∧ P (drop n c)) (chunks (n + n) xs).
Proof.
  intros Hn H0. assert (0 < n + n)%nat as Hnn by lia.
  induction xs as [|xs Hx IH] using (chunks_ind (n + n) Hnn); [constructor|].
  rewrite (chunks_cons (n + n)) by (done || lia). rewrite (chunks_cons n) by done. intros HP.
  inversion_clear HP as [|? ? H1 H2]. constructor.
  - rewrite take_take, Nat.min_l by lia. split; [done|].
    rewrite skipn_firstn_comm. replace (n + n - n)%nat with n by lia.
    destruct (decide (drop n xs = [])) as [->|Hd]; [by rewrite take_nil|].
    rewrite (chunks_cons n) in H2 by done. by inversion_clear H2.
  - apply IH. destruct (decide (drop n xs = [])) as [Hd|Hd].
    + rewrite <- drop_drop, Hd, drop_nil. constructor.
    + rewrite (chunks_cons n) in H2 by done. inversion_clear H2. by rewrite <- drop_drop.
Qed.
End chunks.

(** ** Merging *)

Section correct.
Context {A : Type} (compare : A → A → comparison) `{!Comparator compare}.

Notation sorted := (StronglySorted (cle compare)).

(** [merge_run] without the control. *)
Fixpoint merge_list (outputs : nat) (ls rs : list A) : list A :=
  match outputs with
  | O => []
  | S outputs =>
      match ls, rs with
      | x :: ls', [] => x :: merge_list outputs ls' rs
      | x :: ls', y :: rs' =>
          match compare x y with
          | Gt => y :: merge_list outputs ls rs'
          | _ => x :: merge_list outputs ls' rs
          end
      | [], y :: rs' => y :: merge_list outputs ls rs'
      | [], [] => []
      end
  end.

Lemma evals_merge_run n l r ls rs :
  evals (merge_run compare n l r ls rs) (Ok (merge_list n ls rs)).
Proof.
  revert l r ls rs. induction n as [|n IH]; intros l r ls rs; [apply evals_ret|]. simpl.
  eapply evals_bind; [destruct (Z.land _ _ =? 0); [apply evals_check|apply evals_ret]|].
  destruct ls as [|x ls], rs as [|y rs]; [apply evals_ret|..|destruct (compare x y)];
    (eapply evals_bind; [apply IH|apply evals_ret]).
Qed.

Lemma merge_list_perm n ls rs :
  n = (length ls + length rs)%nat → merge_list n ls rs ≡ₚ ls ++ rs.
Proof.
  revert ls rs. induction n as [|n IH]; intros [|x ls] [|y rs] Hn; simpl in *; try lia; try done.
  - rewrite IH by (simpl; lia). done.
  - rewrite IH by (simpl; lia). done.
  - destruct (compare x y).
    + rewrite IH by (simpl; lia). done.
    + rewrite IH by (simpl; lia). done.
    + rewrite IH by (simpl; lia). apply (Permutation_middle (x :: ls)).
Qed.

Lemma merge_list_sorted n ls rs :
  n = (length ls + length rs)%nat → sorted ls → sorted rs → sorted (merge_list n ls rs).
Proof.
  revert ls rs. induction n as [|n IH]; intros ls rs Hn Hl Hr; [constructor|]. simpl.
  destruct ls as [|x ls], rs as [|y rs]; [constructor|..]; simpl in Hn.
  - inversion_clear Hr as [|? ? Hr' Hy]. constructor; [apply IH; [simpl; lia|constructor|done]|].
    by rewrite merge_list_perm by (simpl; lia).
  - inversion_clear Hl as [|? ? Hl' Hx]. constructor; [apply IH; [simpl; lia|done|constructor]|].
    rewrite merge_list_perm by (simpl; lia). by rewrite app_nil_r.
  - destruct (compare x y) eqn:E.
    1,2: inversion_clear Hl as [|? ? Hl' Hx]; constructor; [apply IH; [simpl; lia|done|done]|];
      rewrite merge_list_perm by (simpl; lia); apply Forall_app; split; [done|];
      inversion_clear Hr as [|? ? Hr' Hy]; constructor; [unfold cle; congruence|];
      eapply Forall_impl; [exact Hy|]; intros z Hz; apply (cmpr_trans x y z); [congruence|exact Hz].
    inversion_clear Hr as [|? ? Hr' Hy]. constructor; [apply IH; [simpl; lia|done|done]|].
    rewrite merge_list_perm by (simpl; lia). apply Forall_app. split; [|done].
    assert (cle compare y x) as Hyx by (unfold cle; by rewrite (cmpr_antisym x y), E).
    inversion_clear Hl as [|? ? Hl' Hx]. constructor; [done|].
    eapply Forall_impl; [exact Hx|]. intros z Hz. by apply (cmpr_trans y x z).
Qed.

(** One pass over the slice, without the control. *)
Definition merge_halves (w : nat) (slice : list A) : list A :=
  merge_list (length slice) (take w slice) (drop w slice).
Definition merge_pass (w : nat) (source : list A) : list A :=
  concat (map (merge_halves w) (chunks (w + w) source)).

Lemma merge_halves_perm w slice : merge_halves w slice ≡ₚ slice.
Proof.
  unfold merge_halves. rewrite merge_list_perm; [by rewrite take_drop|].
  rewrite length_take, length_drop. lia.
Qed.

Lemma concat_map_perm (f : list A → list A) xss :
  (∀ c, f c ≡ₚ c) → concat (map f xss) ≡ₚ concat xss.
Proof. intros Hf. induction xss as [|xs xss IH]; [done|]. simpl. by rewrite IH, Hf. Qed.

Lemma merge_pass_perm w xs : (0 < w)%nat → merge_pass w xs ≡ₚ xs.
Proof.
  intros Hw. unfold merge_pass. rewrite concat_map_perm by apply merge_halves_perm.
  rewrite concat_chunks by lia. done.
Qed.

Definition runs_sorted (w : nat) (xs : list A) : Prop := Forall sorted (chunks w xs).

Lemma merge_pass_sorted w xs :
  (0 < w)%nat → runs_sorted w xs → runs_sorted (w + w) (merge_pass w xs).
Proof.
  intros Hw Hs. unfold runs_sorted, merge_pass. rewrite chunks_map; [|lia|].
  2:{ intros c. by rewrite merge_halves_perm. }
  apply Forall_map. eapply Forall_impl; [apply (chunks_double w sorted xs Hw); [constructor|exact Hs]|].
  intros slice [Hl Hr]. apply merge_list_sorted; [|done|done]. rewrite length_take, length_drop. lia.
Qed.

Lemma evals_merge_runs source w :
  (0 < w)%nat → 2 * Z.of_nat w ≤ u64_max →
  evals (merge_runs compare source (Z.of_nat w)) (Ok (merge_pass w source)).
Proof.
  intros Hw Hmax. unfold merge_runs.
  eapply (evals_bind _ _ (Z.of_nat w * 2)).
  { unfold u64_checked_mul. rewrite checked_in by lia. apply evals_lift. }
  replace (Z.to_nat (Z.of_nat w * 2)) with (w + w)%nat by lia. rewrite Nat2Z.id.
  set (pure := λ (acc : Z * list A) slice, (acc.1 + Z.of_nat w * 2, acc.2 ++ merge_halves w slice)).
  eapply (evals_bind _ _ (foldl pure (0, []) (chunks (w + w) source))).
  - rewrite <- (try_fold_pure (E := RustGraphTraceError) pure). apply evals_fold.
    intros [start destination] slice. eapply evals_bind; [apply evals_check|].
    eapply evals_bind; [apply evals_merge_run|apply evals_ret].
  - assert (∀ acc xss, (foldl pure acc xss).2 = acc.2 ++ concat (map (merge_halves w) xss)) as Hf.
    { intros acc xss. revert acc. induction xss as [|xs xss IH]; intros acc; simpl.
      - by rewrite app_nil_r.
      - rewrite IH. simpl. by rewrite app_assoc. }
    rewrite Hf. apply evals_ret.
Qed.

(** What the passes leave in the current buffer. *)
Definition current_buffer (b : list A * list A * bool) : list A := if b.2 then b.1.1 else b.1.2.

Lemma evals_merge_passes fuel w indexes scratch flag :
  (0 < w)%nat → length scratch = length indexes → (length indexes ≤ fuel + w)%nat →
  2 * Z.of_nat (length indexes) ≤ u64_max →
  runs_sorted w (current_buffer (indexes, scratch, flag)) →
  ∃ b, evals (merge_passes compare fuel (Z.of_nat w) indexes scratch flag) (Ok b) ∧
    sorted (current_buffer b) ∧ current_buffer b ≡ₚ current_buffer (indexes, scratch, flag).
Proof.
  revert w indexes scratch flag. induction fuel as [|fuel IH]; intros w ix sc flag Hw Hlen Hfuel Hmax Hs.
  - exists (ix, sc, flag). split; [apply evals_ret|]. split; [|done].
    set (b := current_buffer _) in *. assert (length b ≤ w)%nat as Hb
      by (unfold b, current_buffer; simpl; destruct flag; lia).
    destruct (decide (b = [])) as [->|Hne]; [constructor|].
    unfold runs_sorted in Hs. rewrite chunks_single in Hs by done. by inversion_clear Hs.
  - simpl. destruct (Z.of_nat w <? Z.of_nat (length ix)) eqn:Hlt.
    2:{ exists (ix, sc, flag). split; [apply evals_ret|]. split; [|done].
        set (b := current_buffer _) in *. assert (length b ≤ w)%nat as Hb
          by (unfold b, current_buffer; simpl; destruct flag; lia).
        destruct (decide (b = [])) as [->|Hne]; [constructor|].
        unfold runs_sorted in Hs. rewrite chunks_single in Hs by done. by inversion_clear Hs. }
    set (out := merge_pass w (current_buffer (ix, sc, flag))).
    assert (out ≡ₚ current_buffer (ix, sc, flag)) as Hperm by by apply merge_pass_perm.
    assert (length out = length ix) as Hout.
    { rewrite Hperm. unfold current_buffer. simpl. destruct flag; lia. }
    set (buffers := if flag then (ix, out) else (out, sc)).
    destruct (IH (w + w)%nat buffers.1 buffers.2 (negb flag)) as (b & Hb & Hsb & Hpb).
    + lia.
    + unfold buffers. destruct flag; simpl; lia.
    + unfold buffers. destruct flag; simpl; lia.
    + unfold buffers. destruct flag; simpl; lia.
    + replace (current_buffer _) with out; [by apply merge_pass_sorted|].
      unfold buffers, current_buffer. by destruct flag.
    + exists b. split; [|split; [done|]].
      * eapply evals_bind; [apply evals_check|]. eapply (evals_bind _ _ buffers).
        { unfold buffers. destruct flag; (eapply evals_bind; [apply evals_merge_runs; lia|apply evals_ret]). }
        eapply (evals_bind _ _ (Z.of_nat (w + w))).
        { replace (Z.of_nat (w + w)) with (Z.of_nat w * 2) by lia.
          unfold u64_checked_mul. rewrite checked_in by lia. apply evals_lift. }
        exact Hb.
      * rewrite Hpb, <- Hperm. unfold buffers, current_buffer. by destruct flag.
Qed.

Lemma initial_chunks xs :
  runs_sorted (Z.to_nat SORT_CHUNK) (concat (map (sort_by compare) (chunks (Z.to_nat SORT_CHUNK) xs))) ∧
  concat (map (sort_by compare) (chunks (Z.to_nat SORT_CHUNK) xs)) ≡ₚ xs.
Proof.
  assert (0 < Z.to_nat SORT_CHUNK)%nat as Hn by (unfold SORT_CHUNK; lia). split.
  - unfold runs_sorted. rewrite chunks_map; [|done|apply length_sort_by].
    apply Forall_map, Forall_true. intros c. by apply sort_by_sorted.
  - rewrite concat_map_perm by apply sort_by_perm. by rewrite concat_chunks.
Qed.

(** The sort, when the control never fires: sorted, a permutation, and total. *)
Lemma evals_cancellable_sort xs :
  2 * Z.of_nat (length xs) ≤ u64_max →
  ∃ ys, evals (cancellable_sort compare xs) (Ok ys) ∧ sorted ys ∧ ys ≡ₚ xs.
Proof.
  intros Hmax. set (first := concat (map (sort_by compare) (chunks (Z.to_nat SORT_CHUNK) xs))).
  destruct (initial_chunks xs) as [Hruns Hperm]. fold first in Hruns, Hperm.
  assert (evals (ctl_fold (λ sorted chunk, check;; mret (sorted ++ sort_by compare chunk)) []
    (chunks (Z.to_nat SORT_CHUNK) xs)) (Ok (E := RustGraphTraceError) first)) as Hfirst.
  { set (pure := λ (acc : list A) chunk, acc ++ sort_by compare chunk).
    assert (first = foldl pure [] (chunks (Z.to_nat SORT_CHUNK) xs)) as ->.
    { unfold first. generalize (chunks (Z.to_nat SORT_CHUNK) xs). intros xss.
      change (concat (map (sort_by compare) xss)) with ([] ++ concat (map (sort_by compare) xss)).
      generalize (@nil A). induction xss as [|c xss IH]; intros acc; simpl; [by rewrite app_nil_r|].
      rewrite <- IH. unfold pure. by rewrite app_assoc. }
    rewrite <- (try_fold_pure (E := RustGraphTraceError) pure). apply evals_fold.
    intros acc c. eapply evals_bind; [apply evals_check|apply evals_ret]. }
  assert (length first = length xs) as Hlen by by rewrite Hperm.
  destruct (Z.of_nat (length first) <=? SORT_CHUNK) eqn:Hle.
  - exists first. split; [|split; [|done]].
    + eapply evals_bind; [exact Hfirst|]. rewrite Hle. eapply evals_bind; [apply evals_check|apply evals_ret].
    + destruct (decide (first = [])) as [->|Hne]; [constructor|].
      unfold runs_sorted in Hruns. rewrite chunks_single in Hruns by (done || unfold SORT_CHUNK in *; lia).
      by inversion_clear Hruns.
  - destruct (evals_merge_passes (length first) (Z.to_nat SORT_CHUNK) first first true) as (b & Hb & Hs & Hp);
      [unfold SORT_CHUNK; lia|done|lia|lia|exact Hruns|].
    exists (current_buffer b). split; [|split; [done|by rewrite Hp]].
    eapply evals_bind; [exact Hfirst|]. rewrite Hle. eapply evals_bind.
    { rewrite Z2Nat.id in Hb by (unfold SORT_CHUNK; lia). exact Hb. }
    destruct b as [[ix sc] flag]. eapply evals_bind; [apply evals_check|].
    unfold current_buffer. simpl. destruct flag; apply evals_ret.
Qed.
End correct.

(** ** Under any control *)

Section control.
Context {A : Type} (compare : A → A → comparison).

Lemma steady_merge_run n l r ls rs : steady (merge_run compare n l r ls rs).
Proof.
  revert l r ls rs. induction n as [|n IH]; intros l r ls rs; [apply steady_ret|]. simpl.
  apply steady_bind; [destruct (_ =? 0); auto with steady|]. intros _.
  destruct ls as [|x ls], rs as [|y rs]; [apply steady_ret|..|destruct (compare x y)];
    (apply steady_bind; [apply IH|intros; apply steady_ret]).
Qed.

Lemma steady_merge_runs source width : steady (merge_runs compare source width).
Proof.
  unfold merge_runs. apply steady_bind; [apply steady_lift|]. intros run.
  apply steady_bind; [|intros; apply steady_ret]. apply steady_fold. intros [start destination] slice.
  apply steady_bind; [apply steady_check|]. intros _.
  apply steady_bind; [apply steady_merge_run|]. intros merged. apply steady_ret.
Qed.

Lemma steady_merge_passes fuel width ix sc flag : steady (merge_passes compare fuel width ix sc flag).
Proof.
  revert width ix sc flag. induction fuel as [|fuel IH]; intros width ix sc flag; [apply steady_ret|].
  simpl. destruct (width <? _); [|apply steady_ret].
  apply steady_bind; [apply steady_check|]. intros _. apply steady_bind.
  { destruct flag; (apply steady_bind; [apply steady_merge_runs|intros; apply steady_ret]). }
  intros buffers. apply steady_bind; [apply steady_lift|]. intros w. apply IH.
Qed.

Lemma steady_cancellable_sort xs : steady (cancellable_sort compare xs).
Proof.
  unfold cancellable_sort. apply steady_bind.
  { apply steady_fold. intros s c. apply steady_bind; [apply steady_check|]. intros _. apply steady_ret. }
  intros ix. destruct (_ <=? SORT_CHUNK).
  { apply steady_bind; [apply steady_check|]. intros _. apply steady_ret. }
  apply steady_bind; [apply steady_merge_passes|]. intros [[ix' sc] flag].
  apply steady_bind; [apply steady_check|]. intros _. apply steady_ret.
Qed.
End control.

#[export] Hint Resolve steady_merge_run steady_merge_runs steady_merge_passes
  steady_cancellable_sort : steady.

(** A comparator that tells distinct members apart leaves one possible answer. *)
Lemma evals_cancellable_sort_unique {A} (compare : A → A → comparison) `{!Comparator compare} xs :
  2 * Z.of_nat (length xs) ≤ u64_max →
  (∀ x y, x ∈ xs → y ∈ xs → compare x y = Eq → x = y) →
  evals (cancellable_sort compare xs) (Ok (sort_by compare xs)).
Proof.
  intros Hmax Hu. destruct (evals_cancellable_sort compare xs Hmax) as (ys & He & Hs & Hp).
  replace (sort_by compare xs) with ys; [done|].
  apply (sorted_perm_unique compare); [by rewrite sort_by_perm| |done|by apply sort_by_sorted].
  intros x y Hx Hy. rewrite Hp in Hx, Hy. by apply Hu.
Qed.

(** ** Property *)

(** C38: the cancellable sort sorts.  For a slice a Rust allocation can hold and any
    comparator that is a total preorder, under any control the sort either comes back with
    a sorted permutation of the slice, one and the same for every control, or stops with an
    answer the control gave: its doubling passes terminate, the buffers are swapped and
    copied back correctly, and the width never overflows. *)
Theorem cancellable_sort_sorts {A} (compare : A → A → comparison) (xs : list A) :
  Comparator compare → 2 * Z.of_nat (length xs) ≤ u64_max →
  ∃ ys, StronglySorted (cle compare) ys ∧ ys ≡ₚ xs ∧
    ∀ o, run o (cancellable_sort compare xs) = Ok ys ∨
         ∃ k e, o k = Some e ∧ run o (cancellable_sort compare xs) = Err e.
Proof.
  intros Hc Hmax. destruct (evals_cancellable_sort compare xs Hmax) as (ys & He & Hs & Hp).
  exists ys. split; [done|]. split; [done|]. intros o.
  apply steady_evals; [apply steady_cancellable_sort|exact He].
Qed.

(** A slice of two chunks and a bit, in the wrong order. *)
Definition example_slice : list Z := map (λ i, (Z.of_nat i * 37) mod 521) (seq 0 520).

Lemma cancellable_sort_sorts_witness :
  (∃ ys, StronglySorted (cle Z.compare) ys ∧ ys ≡ₚ example_slice ∧
    ∀ o, run o (cancellable_sort Z.compare example_slice) = Ok ys ∨
         ∃ k e, o k = Some e ∧ run o (cancellable_sort Z.compare example_slice) = Err e) ∧
  run never (cancellable_sort Z.compare example_slice) = Ok (sort_by Z.compare example_slice).
Proof.
  split; [|by vm_compute].
  apply (cancellable_sort_sorts Z.compare example_slice); [apply (ord_comparator (A := Z))|].
  vm_compute. discriminate.
Defined.
