(* ===== verification/Trace.v ===== *)
(** * Graph traversal

    Models [crates/repowitness-analysis/src/rust_graph/traversal/request.rs] (limits,
    coverage, request), [result.rs] (the trace) and [engine.rs] (admission of the
    relationships and the breadth-first traversal).  A vector of indexes into the borrowed
    slice is the list of the relationships it points at; the control is the oracle of the
    [ctl] monad. *)

From Stdlib Require Import ZArith Lia ZifyBool.
From stdpp Require Import base numbers sorting list.
From S2P Require Import Prelude Ordering GraphIdentity TraceSort.

Open Scope Z_scope.

(** ** Requests *)

Definition MAX_INPUT_EDGES : Z := 4000000.
Definition MAX_INPUT_BYTES : Z := 512 * 1024 * 1024.
Definition MAX_DEPTH : Z := 256.
Definition MAX_RESULTS : Z := 100000.
Definition MAX_VISITED_NODES : Z := 1000000.
Definition MAX_VISITED_EDGES : Z := 4000000.
Definition MAX_FRONTIER : Z := 1000000.
Definition MAX_OUTPUT_BYTES : Z := 256 * 1024 * 1024.

Record RustGraphTraceLimits := {
  max_input_edges : Z;
  max_input_bytes : Z;
  max_depth : Z;
  max_results : Z;
  max_visited_nodes : Z;
  max_visited_edges : Z;
  max_frontier : Z;
  max_output_bytes : Z;
}.

Definition limits_DEFAULT : RustGraphTraceLimits :=
  {| max_input_edges := 500000; max_input_bytes := 256 * 1024 * 1024; max_depth := 16;
     max_results := 10000; max_visited_nodes := 100000; max_visited_edges := 500000;
     max_frontier := 100000; max_output_bytes := 64 * 1024 * 1024 |}.

Definition limits_is_valid (l : RustGraphTraceLimits) : bool :=
  negb (max_input_edges l =? 0) && (max_input_edges l <=? MAX_INPUT_EDGES)
  && negb (max_input_bytes l =? 0) && (max_input_bytes l <=? MAX_INPUT_BYTES)
  && negb (max_depth l =? 0) && (max_depth l <=? MAX_DEPTH)
  && negb (max_results l =? 0) && (max_results l <=? MAX_RESULTS)
  && negb (max_visited_nodes l =? 0) && (max_visited_nodes l <=? MAX_VISITED_NODES)
  && negb (max_visited_edges l =? 0) && (max_visited_edges l <=? MAX_VISITED_EDGES)
  && negb (max_frontier l =? 0) && (max_frontier l <=? MAX_FRONTIER)
  && negb (max_output_bytes l =? 0) && (max_output_bytes l <=? MAX_OUTPUT_BYTES).

Definition trace_limits_try_new (max_input_edges max_input_bytes max_depth max_results
    max_visited_nodes max_visited_edges max_frontier max_output_bytes : Z)
    : result RustGraphTraceError RustGraphTraceLimits :=
  let limits := Build_RustGraphTraceLimits max_input_edges max_input_bytes max_depth max_results
                  max_visited_nodes max_visited_edges max_frontier max_output_bytes in
  if limits_is_valid limits then Ok limits else Err InvalidLimits.

Record RustGraphTraceCoverage := {
  unresolved_sites : Z;
  unsupported_sites : Z;
  ambiguous_sites : Z;
  truncated_sites : Z;
  unlinked_sites : Z;
  macro_sites : Z;
  conditional_sites : Z;
  heuristic_sites : Z;
}.

Definition has_unknown_impact (c : RustGraphTraceCoverage) : bool :=
  negb (unresolved_sites c =? 0) || negb (unsupported_sites c =? 0)
  || negb (truncated_sites c =? 0) || negb (unlinked_sites c =? 0) || negb (macro_sites c =? 0)
  || negb (conditional_sites c =? 0) || negb (heuristic_sites c =? 0).

Inductive RustGraphTraceDirection := Outbound | Inbound.

Inductive RustGraphTraceStart :=
| StartDefinition (definition : RustGraphDefinitionIdentity)
| StartSite (site : RustGraphSiteIdentity).

Record RustGraphTraceRequest := {
  req_edges : list RustGraphTraversalEdge;
  req_start : RustGraphTraceStart;
  req_direction : RustGraphTraceDirection;
  req_edge_kinds : RustGraphEdgeKinds;
  req_limits : RustGraphTraceLimits;
  req_coverage : RustGraphTraceCoverage;
}.

(** ** Results *)

Record RustGraphTraceTruncation := {
  trunc_depth : bool;
  trunc_visited_nodes : bool;
  trunc_visited_edges : bool;
  trunc_frontier : bool;
  trunc_results : bool;
}.

Definition truncation_default : RustGraphTraceTruncation :=
  Build_RustGraphTraceTruncation false false false false false.
Definition trunc_any (t : RustGraphTraceTruncation) : bool :=
  trunc_depth t || trunc_visited_nodes t || trunc_visited_edges t || trunc_frontier t
  || trunc_results t.

Record RustGraphTraceEdge := {
  trace_depth : Z;
  relationship : RustGraphTraversalEdge;
}.

Record RustGraphTraceResult := {
  res_edges : list RustGraphTraceEdge;
  res_visited_nodes : Z;
  res_visited_edges : Z;
  res_maximum_completed_depth : Z;
  res_truncation : RustGraphTraceTruncation;
  res_coverage : RustGraphTraceCoverage;
  res_input_bytes : Z;
  res_output_bytes : Z;
}.

(** ** Encoded sizes and comparisons *)

Definition TRACE_OUTPUT_FIXED_BYTES : Z := 96.
Definition TRACE_EDGE_FIXED_BYTES : Z := 20.
Definition DEFINITION_FIXED_BYTES : Z := 105.
Definition SITE_FIXED_BYTES : Z := 101.

Definition len_u64 (n : nat) : result RustGraphTraceError Z := ok_or (u64_of_len n) CountOverflow.

Definition encoded_definition_bytes (d : RustGraphDefinitionIdentity) : result RustGraphTraceError Z :=
  n ← len_u64 (length (def_path d));
  ok_or (u64_checked_add DEFINITION_FIXED_BYTES n) CountOverflow.

Definition encoded_relationship_bytes (e : RustGraphTraversalEdge) : result RustGraphTraceError Z :=
  source ← encoded_definition_bytes (edge_source e);
  target ← encoded_definition_bytes (edge_target e);
  n ← len_u64 (length (site_path (edge_site e)));
  site ← ok_or (u64_checked_add SITE_FIXED_BYTES n) CountOverflow;
  ok_or (match u64_checked_add source target with
         | Some bytes => match u64_checked_add bytes site with
                         | Some bytes => u64_checked_add bytes 16
                         | None => None
                         end
         | None => None
         end) CountOverflow.

Definition compare_by_site (l r : RustGraphTraversalEdge) : comparison :=
  then_with (cmp (edge_site l) (edge_site r))
  (then_with (cmp (edge_target l) (edge_target r))
  (then_with (cmp (edge_source l) (edge_source r))
  (then_with (cmp (edge_cardinality l) (edge_cardinality r))
  (then_with (cmp (edge_extraction_evidence l) (edge_extraction_evidence r))
    (cmp (edge_resolution_evidence l) (edge_resolution_evidence r)))))).

Definition compare_relationship (l r : RustGraphTraversalEdge) : comparison :=
  then_with (cmp (edge_kind l) (edge_kind r))
  (then_with (cmp (edge_resolution_evidence l) (edge_resolution_evidence r))
  (then_with (cmp (edge_extraction_evidence l) (edge_extraction_evidence r))
  (then_with (cmp (edge_source l) (edge_source r))
  (then_with (cmp (edge_site l) (edge_site r))
  (then_with (cmp (edge_target l) (edge_target r))
    (cmp (edge_cardinality l) (edge_cardinality r))))))).

Definition compare_outbound (l r : RustGraphTraversalEdge) : comparison :=
  then_with (cmp (edge_source l) (edge_source r)) (compare_relationship l r).
Definition compare_inbound (l r : RustGraphTraversalEdge) : comparison :=
  then_with (cmp (edge_target l) (edge_target r)) (compare_relationship l r).

Definition oriented_origin (d : RustGraphTraceDirection) (e : RustGraphTraversalEdge)
    : RustGraphDefinitionIdentity :=
  match d with Outbound => edge_source e | Inbound => edge_target e end.
Definition oriented_neighbor (d : RustGraphTraceDirection) (e : RustGraphTraversalEdge)
    : RustGraphDefinitionIdentity :=
  match d with Outbound => edge_target e | Inbound => edge_source e end.

(** [edge_kinds().allows(edge.kind())]. *)
Definition allowed (ks : RustGraphEdgeKinds) (e : RustGraphTraversalEdge) : bool :=
  match edge_kind e with Some k => allows ks k | None => false end.

Notation trace_ctl := (ctl RustGraphTraceError).

(** ** Admission *)

(** The inner loop of [validate_site_groups]: from [start + 1] while the site is that of
    [first]; [previous] is the relationship before.  Returns the size of the group and
    what follows it. *)
Fixpoint validate_group (first previous : RustGraphTraversalEdge) (size : nat)
    (rest : list RustGraphTraversalEdge) : trace_ctl (nat * list RustGraphTraversalEdge) :=
  match rest with
  | [] => mret (size, [])
  | current :: rest' =>
      if bool_decide (edge_site current = edge_site first) then
        check;;
        if negb (bool_decide (edge_source current = edge_source first))
           || negb (bool_decide (edge_extraction_evidence current = edge_extraction_evidence first))
           || negb (bool_decide (edge_cardinality current = edge_cardinality first))
        then throw InvalidEdge
        else if bool_decide (edge_target current = edge_target previous) then throw DuplicateEdge
        else validate_group first current (S size) rest'
      else mret (size, rest)
  end.

(** The outer loop; every turn consumes at least one relationship. *)
Fixpoint validate_site_groups (fuel : nat) (indexes : list RustGraphTraversalEdge) : trace_ctl () :=
  match fuel, indexes with
  | S fuel, first :: rest =>
      check;;
      group ← validate_group first first 1 rest;
      retained ← lift (ok_or (u32_of_len group.1) CountOverflow);
      lift (reject_if (negb (retained =? card_retained_candidates (edge_cardinality first))) InvalidEdge);;
      validate_site_groups fuel group.2
  | _, _ => mret ()
  end.

Record AdmittedEdges := {
  by_site : list RustGraphTraversalEdge;
  outbound : list RustGraphTraversalEdge;
  inbound : list RustGraphTraversalEdge;
  input_bytes : Z;
}.

Definition admit_edges (edges : list RustGraphTraversalEdge) (limits : RustGraphTraceLimits)
    : trace_ctl AdmittedEdges :=
  edge_count ← lift (len_u64 (length edges));
  lift (reject_if (max_input_edges limits <? edge_count) InputEdgeLimitExceeded);;
  input_bytes ← ctl_fold (λ total edge,
      check;;
      lift (n ← encoded_relationship_bytes edge;
            total ← ok_or (u64_checked_add total n) CountOverflow;
            reject_if (max_input_bytes limits <? total) InputByteLimitExceeded;;
            Ok total)) 0 edges;
  by_site ← cancellable_sort compare_by_site edges;
  validate_site_groups (length by_site) by_site;;
  outbound ← cancellable_sort compare_outbound by_site;
  inbound ← cancellable_sort compare_inbound by_site;
  check;;
  mret {| by_site := by_site; outbound := outbound; inbound := inbound; input_bytes := input_bytes |}.

Definition adjacent (a : AdmittedEdges) (definition : RustGraphDefinitionIdentity)
    (direction : RustGraphTraceDirection) : list RustGraphTraversalEdge :=
  equal_run (oriented_origin direction) definition
    (match direction with Outbound => outbound a | Inbound => inbound a end).

Definition matching_site (a : AdmittedEdges) (site : RustGraphSiteIdentity)
    : list RustGraphTraversalEdge :=
  equal_run edge_site site (by_site a).

(** ** The traversal *)

Record Traversal := {
  seen : list RustGraphDefinitionIdentity;
  current : list RustGraphDefinitionIdentity;
  next : list RustGraphDefinitionIdentity;
  results : list RustGraphTraceEdge;
  visited_edges : Z;
  maximum_completed_depth : Z;
  truncation : RustGraphTraceTruncation;
  output_bytes : Z;
  stop : bool;
}.

Definition with_seen v t := Build_Traversal v (current t) (next t) (results t) (visited_edges t)
  (maximum_completed_depth t) (truncation t) (output_bytes t) (stop t).
Definition with_current v t := Build_Traversal (seen t) v (next t) (results t) (visited_edges t)
  (maximum_completed_depth t) (truncation t) (output_bytes t) (stop t).
Definition with_next v t := Build_Traversal (seen t) (current t) v (results t) (visited_edges t)
  (maximum_completed_depth t) (truncation t) (output_bytes t) (stop t).
Definition with_results v t := Build_Traversal (seen t) (current t) (next t) v (visited_edges t)
  (maximum_completed_depth t) (truncation t) (output_bytes t) (stop t).
Definition with_visited_edges v t := Build_Traversal (seen t) (current t) (next t) (results t) v
  (maximum_completed_depth t) (truncation t) (output_bytes t) (stop t).
Definition with_completed v t := Build_Traversal (seen t) (current t) (next t) (results t)
  (visited_edges t) v (truncation t) (output_bytes t) (stop t).
Definition with_truncation v t := Build_Traversal (seen t) (current t) (next t) (results t)
  (visited_edges t) (maximum_completed_depth t) v (output_bytes t) (stop t).
Definition with_output_bytes v t := Build_Traversal (seen t) (current t) (next t) (results t)
  (visited_edges t) (maximum_completed_depth t) (truncation t) v (stop t).
Definition with_stop v t := Build_Traversal (seen t) (current t) (next t) (results t)
  (visited_edges t) (maximum_completed_depth t) (truncation t) (output_bytes t) v.

Definition set_depth (r : RustGraphTraceTruncation) := Build_RustGraphTraceTruncation true
  (trunc_visited_nodes r) (trunc_visited_edges r) (trunc_frontier r) (trunc_results r).
Definition set_visited_nodes (r : RustGraphTraceTruncation) := Build_RustGraphTraceTruncation
  (trunc_depth r) true (trunc_visited_edges r) (trunc_frontier r) (trunc_results r).
Definition set_visited_edges (r : RustGraphTraceTruncation) := Build_RustGraphTraceTruncation
  (trunc_depth r) (trunc_visited_nodes r) true (trunc_frontier r) (trunc_results r).
Definition set_frontier (r : RustGraphTraceTruncation) := Build_RustGraphTraceTruncation
  (trunc_depth r) (trunc_visited_nodes r) (trunc_visited_edges r) true (trunc_results r).
Definition set_results (r : RustGraphTraceTruncation) := Build_RustGraphTraceTruncation
  (trunc_depth r) (trunc_visited_nodes r) (trunc_visited_edges r) (trunc_frontier r) true.

Section traversal.
Context (request : RustGraphTraceRequest) (admitted : AdmittedEdges).

Let limits := req_limits request.
Let direction := req_direction request.

Definition traversal_new : result RustGraphTraceError Traversal :=
  reject_if (max_output_bytes limits <? TRACE_OUTPUT_FIXED_BYTES) OutputLimitExceeded;;
  Ok {| seen := []; current := []; next := []; results := []; visited_edges := 0;
        maximum_completed_depth := 0; truncation := truncation_default;
        output_bytes := TRACE_OUTPUT_FIXED_BYTES; stop := false |}.

Definition admit_visited_edge (t : Traversal) : result RustGraphTraceError (bool * Traversal) :=
  if max_visited_edges limits <=? visited_edges t then
    Ok (false, with_stop true (with_truncation (set_visited_edges (truncation t)) t))
  else
    n ← ok_or (u64_checked_add (visited_edges t) 1) CountOverflow;
    Ok (true, with_visited_edges n t).

Definition admit_node (definition : RustGraphDefinitionIdentity) (t : Traversal)
    : bool * Traversal :=
  if max_visited_nodes limits <=? default u64_max (u64_of_len (length (seen t))) then (false, t)
  else (true, with_seen (bset_insert definition (seen t)) t).

Definition add_output_bytes (n : Z) (t : Traversal) : result RustGraphTraceError Traversal :=
  total ← ok_or (u64_checked_add (output_bytes t) n) CountOverflow;
  reject_if (max_output_bytes limits <? total) OutputLimitExceeded;;
  Ok (with_output_bytes total t).

Definition push_result (depth : Z) (edge : RustGraphTraversalEdge) (t : Traversal)
    : result RustGraphTraceError Traversal :=
  n ← encoded_relationship_bytes edge;
  n ← ok_or (u64_checked_add TRACE_EDGE_FIXED_BYTES n) CountOverflow;
  t ← add_output_bytes n t;
  Ok (with_results (results t ++ [{| trace_depth := depth; relationship := edge |}]) t).

(** The part of a turn that admits a new neighbor: [None] is the [continue]. *)
Definition admit_neighbor (neighbor : RustGraphDefinitionIdentity) (t : Traversal)
    : bool * Traversal :=
  if bset_mem neighbor (seen t) then (true, t) else
  let '(admitted, t) := admit_node neighbor t in
  if negb admitted then (false, with_truncation (set_visited_nodes (truncation t)) t)
  else if max_frontier limits <=? Z.of_nat (length (next t))
  then (true, with_truncation (set_frontier (truncation t)) t)
  else (true, with_next (bset_insert neighbor (next t)) t).

Fixpoint process_selected_edges (selected : list RustGraphTraversalEdge) (depth : Z) (t : Traversal)
    : trace_ctl Traversal :=
  match selected with
  | [] => mret t
  | edge :: selected =>
      check;;
      if negb (bset_mem (oriented_origin direction edge) (seen t))
      then process_selected_edges selected depth t
      else
        let '(goes_on, t) := admit_neighbor (oriented_neighbor direction edge) t in
        if negb goes_on then process_selected_edges selected depth t
        else if max_results limits <=? Z.of_nat (length (results t)) then
          mret (with_stop true (with_truncation (set_results (truncation t)) t))
        else
          t ← lift (push_result depth edge t);
          process_selected_edges selected depth t
  end.

(** The loop over the relationships adjacent to one definition, or matching the starting
    site; it ends early when no more relationships may be visited. *)
Fixpoint select_edges (edges selected : list RustGraphTraversalEdge) (t : Traversal)
    : result RustGraphTraceError (list RustGraphTraversalEdge * Traversal) :=
  match edges with
  | [] => Ok (selected, t)
  | edge :: edges =>
      if negb (allowed (req_edge_kinds request) edge) then select_edges edges selected t
      else
        '(admitted, t) ← admit_visited_edge t;
        if negb admitted then Ok (selected, t) else select_edges edges (selected ++ [edge]) t
  end.

Fixpoint select_frontier (definitions : list RustGraphDefinitionIdentity)
    (selected : list RustGraphTraversalEdge) (t : Traversal)
    : trace_ctl (list RustGraphTraversalEdge * Traversal) :=
  match definitions with
  | [] => mret (selected, t)
  | definition :: definitions =>
      check;;
      '(selected, t) ← lift (select_edges (adjacent admitted definition direction) selected t);
      if stop t then mret (selected, t) else select_frontier definitions selected t
  end.

Fixpoint any_allowed (edges : list RustGraphTraversalEdge) : trace_ctl bool :=
  match edges with
  | [] => mret false
  | edge :: edges =>
      check;; if allowed (req_edge_kinds request) edge then mret true else any_allowed edges
  end.

(** [frontier_has_allowed_edges], over [self.next]. *)
Fixpoint frontier_has_allowed_edges (definitions : list RustGraphDefinitionIdentity) : trace_ctl bool :=
  match definitions with
  | [] => mret false
  | definition :: definitions =>
      check;;
      found ← any_allowed (adjacent admitted definition direction);
      if (found : bool) then mret true else frontier_has_allowed_edges definitions
  end.

Definition note_depth (t : Traversal) : trace_ctl Traversal :=
  more ← frontier_has_allowed_edges (next t);
  mret (if (more : bool) then with_truncation (set_depth (truncation t)) t else t).

(** [for depth in first_depth..=max_depth]; [turns] counts them down. *)
Fixpoint run_from_depth (turns : nat) (depth : Z) (t : Traversal) : trace_ctl Traversal :=
  match turns with
  | O => mret t
  | S turns =>
      check;;
      if bool_decide (current t = []) || stop t then mret t else
      let frontier := current t in
      let t := with_current [] t in
      '(selected, t) ← select_frontier frontier [] t;
      selected ← cancellable_sort compare_relationship selected;
      t ← process_selected_edges selected depth t;
      let t := if negb (stop t) then with_completed depth t else t in
      if depth =? max_depth limits then note_depth t
      else run_from_depth turns (depth + 1) (with_next [] (with_current (next t) t))
  end.

Definition depth_turns (first_depth : Z) : nat := Z.to_nat (max_depth limits - first_depth + 1).

(** The origins of the selected relationships of a site are admitted first. *)
Definition admit_origin (t : Traversal) (edge : RustGraphTraversalEdge) : Traversal :=
  let origin := oriented_origin direction edge in
  if bset_mem origin (seen t) then t else
  let '(admitted, t) := admit_node origin t in
  if negb admitted then with_truncation (set_visited_nodes (truncation t)) t else t.

(** [for index in matching]: a check per relationship, stopping with the budget. *)
Fixpoint select_site (edges selected : list RustGraphTraversalEdge) (t : Traversal)
    : trace_ctl (list RustGraphTraversalEdge * Traversal) :=
  match edges with
  | [] => mret (selected, t)
  | edge :: edges =>
      check;;
      if allowed (req_edge_kinds request) edge then
        '(admitted, t) ← lift (admit_visited_edge t);
        if negb admitted then mret (selected, t) else select_site edges (selected ++ [edge]) t
      else select_site edges selected t
  end.

Definition run_from_site (site : RustGraphSiteIdentity) (t : Traversal) : trace_ctl Traversal :=
  let matching := matching_site admitted site in
  lift (reject_if (bool_decide (matching = [])) StartUnavailable);;
  '(selected, t) ← select_site matching [] t;
  selected ← cancellable_sort compare_relationship selected;
  let t := foldl admit_origin t selected in
  t ← process_selected_edges selected 1 t;
  let t := if negb (stop t) && negb (bool_decide (selected = [])) then with_completed 1 t else t in
  if max_depth limits =? 1 then note_depth t
  else run_from_depth (depth_turns 2) 2 (with_next [] (with_current (next t) t)).

Definition traversal_finish (t : Traversal) : trace_ctl RustGraphTraceResult :=
  check;;
  visited_nodes ← lift (len_u64 (length (seen t)));
  mret {| res_edges := results t; res_visited_nodes := visited_nodes;
          res_visited_edges := visited_edges t;
          res_maximum_completed_depth := maximum_completed_depth t;
          res_truncation := truncation t; res_coverage := req_coverage request;
          res_input_bytes := input_bytes admitted; res_output_bytes := output_bytes t |}.
End traversal.

Definition trace_rust_graph (request : RustGraphTraceRequest) : trace_ctl RustGraphTraceResult :=
  check;;
  admitted ← admit_edges (req_edges request) (req_limits request);
  t ← lift (traversal_new request);
  t ← match req_start request with
      | StartDefinition definition =>
          let t := with_seen (bset_insert definition (seen t)) t in
          let t := with_current (bset_insert definition (current t)) t in
          run_from_depth request admitted (depth_turns request 1) 1 t
      | StartSite site => run_from_site request admitted site t
      end;
  check;;
  traversal_finish request admitted t.

(** ** The comparators *)

Definition by_site_key (e : RustGraphTraversalEdge) :=
  (edge_site e, (edge_target e, (edge_source e, (edge_cardinality e,
    (edge_extraction_evidence e, edge_resolution_evidence e))))).
Definition relationship_key (e : RustGraphTraversalEdge) :=
  (edge_kind e, (edge_resolution_evidence e, (edge_extraction_evidence e, (edge_source e,
    (edge_site e, (edge_target e, edge_cardinality e)))))).

Lemma compare_by_site_key l r : compare_by_site l r = cmp (by_site_key l) (by_site_key r).
Proof. reflexivity. Qed.
Lemma compare_relationship_key l r : compare_relationship l r = cmp (relationship_key l) (relationship_key r).
Proof. reflexivity. Qed.
Lemma compare_outbound_key l r :
  compare_outbound l r = cmp (edge_source l, relationship_key l) (edge_source r, relationship_key r).
Proof. reflexivity. Qed.
Lemma compare_inbound_key l r :
  compare_inbound l r = cmp (edge_target l, relationship_key l) (edge_target r, relationship_key r).
Proof. reflexivity. Qed.

Lemma by_site_key_inj l r : by_site_key l = by_site_key r → l = r.
Proof. destruct l, r. unfold by_site_key. simpl. congruence. Qed.
Lemma relationship_key_inj l r : relationship_key l = relationship_key r → l = r.
Proof. destruct l, r. unfold relationship_key. simpl. congruence. Qed.

#[export] Instance compare_by_site_comparator : Comparator compare_by_site := comparator_by by_site_key.
#[export] Instance compare_relationship_comparator : Comparator compare_relationship :=
  comparator_by relationship_key.
#[export] Instance compare_outbound_comparator : Comparator compare_outbound :=
  comparator_by (λ e, (edge_source e, relationship_key e)).
#[export] Instance compare_inbound_comparator : Comparator compare_inbound :=
  comparator_by (λ e, (edge_target e, relationship_key e)).

Lemma compare_by_site_eq l r : compare_by_site l r = Eq → l = r.
Proof. rewrite compare_by_site_key. intros H%cmp_eq. by apply by_site_key_inj. Qed.
Lemma compare_relationship_eq l r : compare_relationship l r = Eq → l = r.
Proof. rewrite compare_relationship_key. intros H%cmp_eq. by apply relationship_key_inj. Qed.
Lemma compare_outbound_eq l r : compare_outbound l r = Eq → l = r.
Proof. rewrite compare_outbound_key. intros H%cmp_eq. apply relationship_key_inj. exact (f_equal snd H). Qed.
Lemma compare_inbound_eq l r : compare_inbound l r = Eq → l = r.
Proof. rewrite compare_inbound_key. intros H%cmp_eq. apply relationship_key_inj. exact (f_equal snd H). Qed.

(** The indexes of a direction are sorted by the origin first. *)
Definition compare_oriented (d : RustGraphTraceDirection) : RustGraphTraversalEdge → RustGraphTraversalEdge → comparison :=
  match d with Outbound => compare_outbound | Inbound => compare_inbound end.

Lemma sorted_by_origin d es :
  StronglySorted (cle (compare_oriented d)) es →
  StronglySorted (cle (λ x y, cmp (oriented_origin d x) (oriented_origin d y))) es.
Proof.
  apply sorted_weaken. intros x y. unfold cle.
  destruct d; unfold compare_oriented, compare_outbound, compare_inbound, then_with; simpl;
    by destruct (cmp _ _).
Qed.

Lemma sorted_by_site es :
  StronglySorted (cle compare_by_site) es →
  StronglySorted (cle (λ x y, cmp (edge_site x) (edge_site y))) es.
Proof.
  apply sorted_weaken. intros x y. unfold cle, compare_by_site, then_with.
  by destruct (cmp (edge_site x) _).
Qed.

(** ** Sizes *)

Definition definition_size (d : RustGraphDefinitionIdentity) : Z :=
  DEFINITION_FIXED_BYTES + Z.of_nat (length (def_path d)).
Definition edge_size (e : RustGraphTraversalEdge) : Z :=
  definition_size (edge_source e) + definition_size (edge_target e)
  + (SITE_FIXED_BYTES + Z.of_nat (length (site_path (edge_site e)))) + 16.

Lemma encoded_definition_bytes_eq d :
  encoded_definition_bytes d =
  if definition_size d <=? u64_max then Ok (definition_size d) else Err CountOverflow.
Proof.
  unfold encoded_definition_bytes, len_u64, u64_of_len, u64_checked_add, definition_size,
    DEFINITION_FIXED_BYTES, checked, mbind, result_bind, ok_or.
  repeat (match goal with |- context [if ?c then _ else _] => destruct c eqn:? end; simpl); try done; lia.
Qed.

Lemma encoded_relationship_bytes_eq e :
  encoded_relationship_bytes e =
  if edge_size e <=? u64_max then Ok (edge_size e) else Err CountOverflow.
Proof.
  unfold encoded_relationship_bytes. rewrite !encoded_definition_bytes_eq.
  unfold edge_size, len_u64, u64_of_len, u64_checked_add.
  set (s := definition_size (edge_source e)). set (t := definition_size (edge_target e)).
  set (p := Z.of_nat (length (site_path (edge_site e)))).
  assert (0 <= s ∧ 0 <= t ∧ 0 <= p) as (Hs & Ht & Hp)
    by (unfold s, t, p, definition_size, DEFINITION_FIXED_BYTES; lia).
  clearbody s t p. unfold SITE_FIXED_BYTES, checked, mbind, result_bind, ok_or.
  repeat (match goal with |- context [if ?c then _ else _] => destruct c eqn:? end; simpl); try done; lia.
Qed.

(** The bytes of a list of relationships. *)
Definition total_size (es : list RustGraphTraversalEdge) : Z := foldr (λ e n, edge_size e + n) 0 es.

Lemma edge_size_pos e : 0 < edge_size e.
Proof. unfold edge_size, definition_size, DEFINITION_FIXED_BYTES, SITE_FIXED_BYTES. lia. Qed.

Lemma total_size_nonneg es : 0 ≤ total_size es.
Proof. induction es as [|e es IH]; simpl; [lia|]. pose proof (edge_size_pos e). lia. Qed.

Lemma total_size_elem e es : e ∈ es → edge_size e ≤ total_size es.
Proof.
  induction es as [|x es IH]; [by intros ?%elem_of_nil|]. simpl. pose proof (edge_size_pos x).
  intros [->|?%IH]%elem_of_cons; [|lia]. pose proof (total_size_nonneg es). lia.
Qed.

Lemma total_size_app es1 es2 : total_size (es1 ++ es2) = total_size es1 + total_size es2.
Proof. induction es1 as [|e es1 IH]; simpl; [done|]. rewrite IH. lia. Qed.

(** ** What admission accepts *)

(** The relationships of one site agree on everything but their targets, which differ, and
    are as many as their cardinality says were retained. *)
Definition same_site (f e : RustGraphTraversalEdge) : Prop := edge_site e = edge_site f.
#[export] Instance same_site_dec f e : Decision (same_site f e).
Proof. unfold same_site. apply _. Defined.

Definition agrees (f e : RustGraphTraversalEdge) : Prop :=
  edge_source e = edge_source f ∧ edge_extraction_evidence e = edge_extraction_evidence f ∧
  edge_cardinality e = edge_cardinality f.

Record consistent (es : list RustGraphTraversalEdge) : Prop := {
  con_agrees : ∀ f e, f ∈ es → e ∈ es → same_site f e → agrees f e;
  con_targets : NoDup (map (λ e, (edge_site e, edge_target e)) es);
  con_retained : ∀ f, f ∈ es →
    Z.of_nat (length (filter (same_site f) es)) = card_retained_candidates (edge_cardinality f);
}.

Lemma consistent_perm es es' : es ≡ₚ es' → consistent es → consistent es'.
Proof.
  intros Hp [Ha Ht Hr]. split.
  - intros f e. rewrite <- Hp. apply Ha.
  - by rewrite <- (Permutation_map _ Hp).
  - intros f. rewrite <- Hp. intros Hf. rewrite <- (Hr f Hf). by rewrite Hp.
Qed.

(** *** One group *)

Fixpoint check_group (first previous : RustGraphTraversalEdge) (grp : list RustGraphTraversalEdge)
    : result RustGraphTraceError () :=
  match grp with
  | [] => Ok ()
  | e :: grp =>
      if negb (bool_decide (edge_source e = edge_source first))
         || negb (bool_decide (edge_extraction_evidence e = edge_extraction_evidence first))
         || negb (bool_decide (edge_cardinality e = edge_cardinality first))
      then Err InvalidEdge
      else if bool_decide (edge_target e = edge_target previous) then Err DuplicateEdge
      else check_group first e grp
  end.

Lemma evals_validate_group first previous n grp others :
  Forall (same_site first) grp → (∀ e, head others = Some e → ¬ same_site first e) →
  evals (validate_group first previous n (grp ++ others))
    (check_group first previous grp;; Ok ((n + length grp)%nat, others)).
Proof.
  intros Hg Ho. revert previous n. induction Hg as [|e grp He Hg IH]; intros previous n; simpl.
  - destruct others as [|e others]; simpl; [rewrite Nat.add_0_r; apply evals_ret|].
    rewrite bool_decide_false by (by apply Ho). rewrite Nat.add_0_r. apply evals_ret.
  - rewrite bool_decide_true by done. eapply evals_bind; [apply evals_check|].
    destruct (_ || _); [apply evals_throw|]. destruct (bool_decide (edge_target e = _)); [apply evals_throw|].
    replace (n + S (length grp))%nat with (S n + length grp)%nat by lia. apply IH.
Qed.

Lemma check_group_Ok first previous grp :
  StronglySorted (cle compare_by_site) (previous :: grp) → same_site first previous →
  Forall (same_site first) grp →
  (check_group first previous grp = Ok () ↔
   Forall (agrees first) grp ∧ NoDup (map edge_target (previous :: grp))).
Proof.
  intros Hs Hp Hg. revert previous Hs Hp. induction Hg as [|e grp He Hg IH]; intros previous Hs Hp.
  { split; [|done]. intros _. split; [constructor|]. repeat constructor. by intros ?%elem_of_nil. }
  inversion_clear Hs as [|? ? Hs' Hall]. specialize (IH e Hs' He). simpl.
  unfold agrees. rewrite Forall_cons, !NoDup_cons.
  assert (edge_target e ≠ edge_target previous →
    edge_target previous ∉ edge_target e :: map edge_target grp) as Hnotin.
  { intros Hne. assert (∀ x, same_site first x → cle compare_by_site previous x →
      cmp (edge_target previous) (edge_target x) ≠ Gt) as Hle.
    { intros x Hx. unfold cle, compare_by_site, then_with. unfold same_site in *.
      rewrite Hp, Hx, cmp_refl. by destruct (cmp (edge_target previous) _). }
    assert (cmp (edge_target previous) (edge_target e) = Lt) as Hlt.
    { inversion_clear Hall. specialize (Hle e He ltac:(done)).
      destruct (cmp _ _) eqn:E; [|done..]. apply cmp_eq in E. by rewrite E in Hne. }
    rewrite elem_of_cons. intros [Heq|(x & Heq & Hx)%list_elem_of_fmap].
    { by rewrite Heq, cmp_refl in Hlt. }
    inversion_clear Hs' as [|? ? _ He']. rewrite Forall_forall in He', Hg. specialize (He' x Hx).
    pose proof (Hg x Hx) as Hxs. unfold cle, compare_by_site, then_with in He'.
    unfold same_site in *. rewrite He, Hxs, cmp_refl in He'. rewrite <- Heq in He'.
    rewrite (cmp_antisym (edge_target previous)), Hlt in He'. done. }
  destruct (negb _ || negb _ || negb _) eqn:E1.
  { split; [done|]. intros [[(Hs1 & Hs2 & Hs3) _] _]. by rewrite !bool_decide_true in E1 by done. }
  rewrite !orb_false_iff, !negb_false_iff, !bool_decide_eq_true in E1. destruct E1 as [[E1 E2] E3].
  case_bool_decide as Et.
  { split; [done|]. intros [_ [Hn _]]. destruct Hn. rewrite Et. by left. }
  rewrite IH. cbn [map]. rewrite NoDup_cons. unfold agrees. cbn [map] in Hnotin. intuition.
Qed.

Lemma check_group_Err first previous grp e :
  check_group first previous grp = Err e → e = InvalidEdge ∨ e = DuplicateEdge.
Proof.
  revert previous. induction grp as [|x grp IH]; intros previous; simpl; [done|].
  destruct (_ || _); [intros [= <-]; by left|].
  destruct (bool_decide (edge_target x = _)); [intros [= <-]; by right|]. apply IH.
Qed.

(** *** Splitting off the first group *)

Lemma sorted_split f rest :
  StronglySorted (cle compare_by_site) (f :: rest) →
  rest = filter (same_site f) rest ++ filter (λ e, ¬ same_site f e) rest ∧
  (∀ e, head (filter (λ e, ¬ same_site f e) rest) = Some e → ¬ same_site f e).
Proof.
  intros Hs%sorted_by_site. split.
  2:{ intros e He. apply head_Some_elem_of in He. by apply list_elem_of_filter in He as [? _]. }
  inversion_clear Hs as [|? ? Hs' Hall]. induction Hs' as [|e rest Hs' IH He]; [done|].
  inversion_clear Hall as [|? ? Hf Hall']. rewrite !filter_cons.
  destruct (decide (same_site f e)) as [Hsame|Hdiff].
  - rewrite decide_False by tauto. simpl. f_equal. by apply IH.
  - rewrite decide_True by done.
    rewrite (filter_all_false (same_site f)), filter_all_true; [done| |].
    + intros x Hx Hsame. apply Hdiff. rewrite Forall_forall in He, Hall'. specialize (He x Hx).
      unfold same_site, cle in *. rewrite <- Hsame in Hf |- *. 
      destruct (cmp (edge_site x) (edge_site e)) eqn:E; [by apply cmp_eq in E| |done].
      rewrite (cmp_antisym (edge_site x)), E in He. done.
    + rewrite Forall_forall. intros x Hx Hsame. apply Hdiff. rewrite Forall_forall in He.
      specialize (He x Hx). unfold same_site, cle in *. rewrite <- Hsame in Hf |- *.
      destruct (cmp (edge_site x) (edge_site e)) eqn:E; [by apply cmp_eq in E| |done].
      rewrite (cmp_antisym (edge_site x)), E in He. done.
Qed.

Lemma filter_site_split f g grp others :
  Forall (same_site f) grp → Forall (λ e, ¬ same_site f e) others →
  filter (same_site g) (f :: grp ++ others) =
  if decide (same_site f g) then f :: grp else filter (same_site g) others.
Proof.
  intros Hg Ho. assert (∀ x, same_site f x → same_site f g → same_site g x) as Htrans
    by (unfold same_site; congruence).
  assert (∀ x, same_site g x → same_site f g → same_site f x) as Hback
    by (unfold same_site; congruence).
  assert (∀ x, same_site f x → same_site g x → same_site f g) as Hmeet
    by (unfold same_site; congruence).
  destruct (decide (same_site f g)) as [Hfg|Hfg].
  - rewrite filter_cons_True by by apply Htrans. rewrite filter_app, (filter_all_true _ grp).
    + rewrite (filter_all_false _ others); [by rewrite app_nil_r|].
      eapply Forall_impl; [exact Ho|]. eauto.
    + rewrite Forall_forall in Hg. auto.
  - rewrite filter_cons_False by (intros H; by eapply Hfg, Hmeet). rewrite filter_app.
    rewrite (filter_all_false _ grp); [done|]. eapply Forall_impl; [exact Hg|]. eauto.
Qed.

Lemma consistent_split f grp others :
  Forall (same_site f) grp → Forall (λ e, ¬ same_site f e) others →
  consistent (f :: grp ++ others) ↔
  Forall (agrees f) grp ∧ NoDup (map edge_target (f :: grp)) ∧
  Z.of_nat (S (length grp)) = card_retained_candidates (edge_cardinality f) ∧ consistent others.
Proof.
  intros Hg Ho. assert (∀ e, e ∈ f :: grp → same_site f e) as Hin.
  { intros e [->|He]%elem_of_cons; [done|]. rewrite Forall_forall in Hg. by apply Hg. }
  assert (∀ e, e ∈ others → ¬ same_site f e) as Hout by by apply Forall_forall.
  assert (∀ g, g ∈ others → filter (same_site g) (f :: grp ++ others) = filter (same_site g) others) as Hfilter.
  { intros g Hgo. rewrite filter_site_split by done. rewrite decide_False; [done|]. by apply Hout. }
  assert (NoDup (map (λ e, (edge_site e, edge_target e)) (f :: grp)) ↔ NoDup (map edge_target (f :: grp))) as Hnd.
  { assert (map (λ e, (edge_site e, edge_target e)) (f :: grp) =
      map (pair (edge_site f)) (map edge_target (f :: grp))) as ->.
    { rewrite map_map. apply map_ext_in. intros e He%list_elem_of_In%Hin. by rewrite He. }
    split; [apply NoDup_fmap_1|]. apply NoDup_fmap_2. intros ? ? [=]. done. }
  split.
  - intros [Ha Ht Hr]. rewrite app_comm_cons, map_app, NoDup_app in Ht. destruct Ht as (Ht1 & _ & Ht2).
    split; [|split; [by apply Hnd|split]].
    + rewrite Forall_forall. intros e He. apply Ha; [by left|right; apply elem_of_app; by left|].
      apply Hin. by right.
    + rewrite <- (Hr f) by by left. rewrite filter_site_split by done. by rewrite decide_True.
    + split; [|done|].
      * intros g e Hgo Heo. apply Ha; right; apply elem_of_app; by right.
      * intros g Hgo. rewrite <- (Hr g) by (right; apply elem_of_app; by right). by rewrite Hfilter.
  - intros (Ha & Ht & Hr & [Ha' Ht' Hr']).
    assert (∀ e, e ∈ f :: grp → agrees f e) as Hagr.
    { intros e [->|He]%elem_of_cons; [done|]. rewrite Forall_forall in Ha. by apply Ha. }
    split.
    + intros g e Hgin Hein Hsame. rewrite app_comm_cons, elem_of_app in Hgin, Hein.
      destruct Hgin as [Hgin|Hgin], Hein as [Hein|Hein].
      * destruct (Hagr g Hgin) as (? & ? & ?), (Hagr e Hein) as (? & ? & ?). unfold agrees. split_and!; congruence.
      * exfalso. apply (Hout e Hein). pose proof (Hin g Hgin). unfold same_site in *. congruence.
      * exfalso. apply (Hout g Hgin). pose proof (Hin e Hein). unfold same_site in *. congruence.
      * by apply Ha'.
    + rewrite app_comm_cons, map_app, NoDup_app. split; [by apply Hnd|split; [|done]].
      intros p (e & -> & He)%list_elem_of_fmap (e' & Heq & He')%list_elem_of_fmap.
      apply (Hout e' He'). injection Heq as Heq _. pose proof (Hin e He). unfold same_site in *. congruence.
    + intros g Hgin. rewrite app_comm_cons, elem_of_app in Hgin. destruct Hgin as [Hgin|Hgin].
      * rewrite filter_site_split by done. rewrite decide_True by by apply Hin.
        destruct (Hagr g Hgin) as (_ & _ & ->). done.
      * rewrite Hfilter by done. by apply Hr'.
Qed.

Lemma sorted_filter {A} (c : A → A → Prop) (P : A → Prop) `{∀ x, Decision (P x)} xs :
  StronglySorted c xs → StronglySorted c (filter P xs).
Proof.
  induction 1 as [|x xs _ IH Hall]; [constructor|]. rewrite filter_cons. destruct (decide (P x)); [|done].
  constructor; [done|]. rewrite Forall_forall in *. intros y [_ Hy]%list_elem_of_filter. by apply Hall.
Qed.

Lemma validate_site_groups_spec fuel es :
  (length es ≤ fuel)%nat → Z.of_nat (length es) ≤ u32_max → StronglySorted (cle compare_by_site) es →
  ∃ r, evals (validate_site_groups fuel es) r ∧ (r = Ok () ↔ consistent es) ∧
    ∀ e, r = Err e → e = InvalidEdge ∨ e = DuplicateEdge.
Proof.
  revert es. induction fuel as [|fuel IH]; intros [|f rest] Hf Hmax Hs; simpl in Hf; try lia.
  1,2: exists (Ok ()); split; [apply evals_ret|]; split; [split; [intros _|done]|done];
    split; [by intros ? ? ?%elem_of_nil|constructor|by intros ? ?%elem_of_nil].
  destruct (sorted_split f rest Hs) as [Hsplit Hhead].
  set (grp := filter (same_site f) rest) in *. set (others := filter (λ e, ¬ same_site f e) rest) in *.
  assert (Forall (same_site f) grp) as Hg
    by (rewrite Forall_forall; intros e He; by apply list_elem_of_filter in He as [? _]).
  assert (Forall (λ e, ¬ same_site f e) others) as Ho
    by (rewrite Forall_forall; intros e He; by apply list_elem_of_filter in He as [? _]).
  assert (length rest = length grp + length others)%nat as Hlen by (rewrite <- length_app; by f_equal).
  pose proof (StronglySorted_inv Hs) as [Hs' Hall].
  assert (StronglySorted (cle compare_by_site) (f :: grp)) as Hsg.
  { constructor; [by apply sorted_filter|]. rewrite Forall_forall in *.
    intros e [_ He]%list_elem_of_filter. by apply Hall. }
  assert (consistent (f :: rest) ↔ consistent (f :: grp ++ others)) as Hcon by by rewrite <- Hsplit.
  destruct (IH others) as (r & Her & Hr & Herr); [lia|simpl in Hmax; lia|by apply sorted_filter|].
  pose proof (check_group_Ok f f grp Hsg eq_refl Hg) as Hcheck.
  exists (check_group f f grp;;
     reject_if (negb (Z.of_nat (S (length grp)) =? card_retained_candidates (edge_cardinality f))) InvalidEdge;; r).
  split; [|split].
  - simpl. eapply evals_bind; [apply evals_check|]. rewrite Hsplit.
    pose proof (evals_validate_group f f 1 grp others Hg Hhead) as Hev.
    destruct (check_group f f grp) as [[]|e]; [|by apply evals_bind_Err].
    eapply evals_bind; [exact Hev|]. simpl in Hmax. rewrite Hlen in Hmax.
    eapply (evals_bind _ _ (Z.of_nat (S (length grp)))).
    { unfold u32_of_len. cbn [fst]. replace (1 + length grp)%nat with (S (length grp)) by lia.
      rewrite checked_in by lia. apply evals_lift. }
    apply (evals_mbind _ _ _ (λ _, r)); [apply evals_lift|]. intros _. exact Her.
  - rewrite Hcon, consistent_split by done. rewrite <- Hr.
    remember (Z.of_nat (S (length grp))) as size eqn:Hsize.
    destruct (check_group f f grp) as [[]|e]; simpl.
    + unfold reject_if. destruct (negb _) eqn:E; simpl.
      * split; [done|]. intros (_ & _ & Hn & _). lia.
      * destruct (proj1 Hcheck eq_refl) as [Hc1 Hc2].
        split; [intros ->|by intros (_ & _ & _ & ?)]. split_and!; try done; lia.
    + split; [done|]. intros (Ha & Ht & _). discriminate (proj2 Hcheck (conj Ha Ht)).
  - intros e. destruct (check_group f f grp) as [[]|e'] eqn:Eg; simpl; [|intros [= <-]; by eapply check_group_Err].
    unfold reject_if. destruct (negb _); simpl; [intros [= <-]; by left|]. apply Herr.
Qed.

(** *** The admitted relationships *)

Definition admitted_of (edges : list RustGraphTraversalEdge) : AdmittedEdges :=
  let by_site := sort_by compare_by_site edges in
  {| by_site := by_site; outbound := sort_by compare_outbound by_site;
     inbound := sort_by compare_inbound by_site; input_bytes := total_size edges |}.

Definition limits_ok (l : RustGraphTraceLimits) : Prop :=
  1 ≤ max_input_edges l ≤ MAX_INPUT_EDGES ∧ 1 ≤ max_input_bytes l ≤ MAX_INPUT_BYTES ∧
  1 ≤ max_depth l ≤ MAX_DEPTH ∧ 1 ≤ max_results l ≤ MAX_RESULTS ∧
  1 ≤ max_visited_nodes l ≤ MAX_VISITED_NODES ∧ 1 ≤ max_visited_edges l ≤ MAX_VISITED_EDGES ∧
  1 ≤ max_frontier l ≤ MAX_FRONTIER ∧ 1 ≤ max_output_bytes l ≤ MAX_OUTPUT_BYTES.

(** Paths are short enough for the sizes of relationships to be [u64] with room to spare. *)
Definition representable (e : RustGraphTraversalEdge) : Prop := edge_size e ≤ u64_max - MAX_INPUT_BYTES.

(** What the limits and the groups ask of the input. *)
Record admissible (limits : RustGraphTraceLimits) (edges : list RustGraphTraversalEdge) : Prop := {
  adm_edges : Z.of_nat (length edges) ≤ max_input_edges limits;
  adm_bytes : total_size edges ≤ max_input_bytes limits;
  adm_consistent : consistent edges;
}.

Definition count_bytes (limits : RustGraphTraceLimits) (total : Z) (edge : RustGraphTraversalEdge)
    : result RustGraphTraceError Z :=
  n ← encoded_relationship_bytes edge;
  total ← ok_or (u64_checked_add total n) CountOverflow;
  reject_if (max_input_bytes limits <? total) InputByteLimitExceeded;;
  Ok total.

Lemma count_bytes_step limits total e :
  representable e → 0 ≤ total ≤ max_input_bytes limits → max_input_bytes limits ≤ MAX_INPUT_BYTES →
  count_bytes limits total e =
  if total + edge_size e <=? max_input_bytes limits then Ok (total + edge_size e)
  else Err InputByteLimitExceeded.
Proof.
  intros He Ht Hm. pose proof (edge_size_pos e). unfold representable in He.
  unfold count_bytes. rewrite encoded_relationship_bytes_eq.
  destruct (edge_size e <=? u64_max) eqn:E; [|unfold MAX_INPUT_BYTES in *; lia]. rstep.
  unfold u64_checked_add. rewrite checked_in by lia. rstep. unfold reject_if.
  destruct (max_input_bytes limits <? total + edge_size e) eqn:E2; rstep;
    destruct (total + edge_size e <=? _) eqn:E3; done || lia.
Qed.

Lemma count_bytes_all limits total edges :
  Forall representable edges → 0 ≤ total ≤ max_input_bytes limits → max_input_bytes limits ≤ MAX_INPUT_BYTES →
  try_fold (count_bytes limits) total edges =
  if total + total_size edges <=? max_input_bytes limits then Ok (total + total_size edges)
  else Err InputByteLimitExceeded.
Proof.
  intros Hr Ht Hm. revert total Ht. induction Hr as [|e edges He Hr IH]; intros total Ht; simpl.
  { rewrite Z.add_0_r. by destruct (total <=? _) eqn:?; [|lia]. }
  pose proof (edge_size_pos e). pose proof (total_size_nonneg edges). rewrite count_bytes_step by done.
  destruct (total + edge_size e <=? _) eqn:E; rstep.
  - rewrite IH by lia. by rewrite Z.add_assoc.
  - destruct (total + (_ + _) <=? _) eqn:E2; [lia|done].
Qed.

Lemma sorts_once {A} (compare : A → A → comparison) `{!Comparator compare} xs :
  Z.of_nat (length xs) ≤ MAX_INPUT_EDGES → (∀ x y, compare x y = Eq → x = y) →
  evals (cancellable_sort compare xs) (Ok (sort_by compare xs)).
Proof.
  intros Hl Hu. apply evals_cancellable_sort_unique; [done| |].
  - unfold MAX_INPUT_EDGES, u64_max in *. lia.
  - intros x y _ _. apply Hu.
Qed.

(** The order of the input is irrelevant. *)
Lemma sort_by_Permutation {A} (compare : A → A → comparison) `{!Comparator compare} xs ys :
  (∀ x y, compare x y = Eq → x = y) → xs ≡ₚ ys → sort_by compare xs = sort_by compare ys.
Proof.
  intros Hu Hp. apply (sorted_perm_unique compare); [by rewrite !sort_by_perm|by intros x y _ _; apply Hu|..];
    apply sort_by_sorted; apply _.
Qed.

Lemma total_size_perm es es' : es ≡ₚ es' → total_size es = total_size es'.
Proof. intros Hp. unfold total_size. apply (foldr_permutation eq _ 0); [|done]. intros. lia. Qed.

Lemma admitted_of_perm es es' : es ≡ₚ es' → admitted_of es = admitted_of es'.
Proof.
  intros Hp. unfold admitted_of. rewrite (total_size_perm _ _ Hp).
  by rewrite (sort_by_Permutation compare_by_site es es' compare_by_site_eq Hp).
Qed.

(** Admission depends on the relationships and not on their order: one result for all the
    orders, which is a value exactly when the limits and the groups allow it. *)
Lemma evals_admit_edges limits edges :
  limits_ok limits → Forall representable edges →
  ∃ r, (∀ edges', edges' ≡ₚ edges → evals (admit_edges edges' limits) r) ∧
    (admissible limits edges → r = Ok (admitted_of edges)) ∧
    (∀ a, r = Ok a → admissible limits edges ∧ a = admitted_of edges).
Proof.
  intros (He & Hb & _) Hr.
  destruct (decide (Z.of_nat (length edges) ≤ max_input_edges limits)) as [Hle|Hgt].
  2:{ exists (Err (if Z.of_nat (length edges) <=? u64_max then InputEdgeLimitExceeded else CountOverflow)).
      split; [|split; [by intros []|done]]. intros edges' Hp. apply Permutation_length in Hp as Hlen.
      unfold admit_edges, len_u64, u64_of_len. rewrite Hlen.
      destruct (Z.of_nat (length edges) <=? u64_max) eqn:E.
      - rewrite checked_in by lia. eapply evals_bind; [apply evals_lift|]. apply evals_bind_Err.
        unfold reject_if. destruct (_ <? _) eqn:E2; [apply evals_lift|lia].
      - rewrite (proj2 (checked_None _ _)) by lia. apply evals_bind_Err, evals_lift. }
  assert (∀ edges' r (rest : Z → trace_ctl AdmittedEdges), edges' ≡ₚ edges →
    evals (m ← ctl_fold (λ total edge, check;; lift (count_bytes limits total edge)) 0 edges'; rest m) r →
    evals (edge_count ← lift (len_u64 (length edges'));
      lift (reject_if (max_input_edges limits <? edge_count) InputEdgeLimitExceeded);;
      m ← ctl_fold (λ total edge, check;; lift (count_bytes limits total edge)) 0 edges'; rest m) r) as Hcount.
  { intros edges' r rest Hp Hev. apply Permutation_length in Hp. eapply evals_bind.
    - unfold len_u64, u64_of_len. rewrite checked_in by (unfold MAX_INPUT_EDGES, u64_max in *; lia). apply evals_lift.
    - eapply evals_bind; [unfold reject_if; destruct (_ <? _) eqn:E; [lia|apply evals_lift]|done]. }
  assert (∀ edges', edges' ≡ₚ edges →
    evals (ctl_fold (λ total edge, check;; lift (count_bytes limits total edge)) 0 edges')
      (if total_size edges <=? max_input_bytes limits then Ok (total_size edges) else Err InputByteLimitExceeded)) as Hbytes.
  { intros edges' Hp. rewrite <- (total_size_perm _ _ Hp).
    rewrite <- (Z.add_0_l (total_size edges')), <- count_bytes_all; [|by rewrite Hp|lia|lia].
    apply evals_fold. intros total e. eapply evals_bind; [apply evals_check|]. apply evals_lift. }
  destruct (total_size edges <=? max_input_bytes limits) eqn:Hsize.
  2:{ exists (Err InputByteLimitExceeded). split; [|split; [intros []; lia|done]].
      intros edges' Hp. apply Hcount; [done|]. apply evals_bind_Err. by apply Hbytes. }
  set (s := sort_by compare_by_site edges).
  assert (length s = length edges) as Hls by apply length_sort_by.
  destruct (validate_site_groups_spec (length s) s) as (v & Hv & Hcon & Herr);
    [done|unfold MAX_INPUT_EDGES, u32_max in *; lia|apply (sort_by_sorted compare_by_site)|].
  exists (v;; Ok (admitted_of edges)).
  assert (consistent edges ↔ consistent s) as Hcs
    by (split; apply consistent_perm; [symmetry|]; apply sort_by_perm).
  split; [|split].
  - intros edges' Hp. apply Hcount; [done|]. eapply evals_bind; [by apply Hbytes|].
    apply Permutation_length in Hp as Hlen.
    eapply evals_bind; [apply sorts_once; [apply _|lia|apply compare_by_site_eq]|].
    rewrite (sort_by_Permutation compare_by_site _ _ compare_by_site_eq Hp). fold s.
    apply (evals_mbind _ _ _ (λ _, Ok (admitted_of edges))); [exact Hv|]. intros _.
    eapply evals_bind; [apply sorts_once; [apply _|lia|apply compare_outbound_eq]|].
    eapply evals_bind; [apply sorts_once; [apply _|lia|apply compare_inbound_eq]|].
    eapply evals_bind; [apply evals_check|apply evals_ret].
  - intros [_ _ Hc]. rewrite Hcs in Hc. by apply Hcon in Hc as ->.
  - intros a Ha. destruct v as [[]|e]; [|done]. injection Ha as <-. split; [|done].
    split; [done|lia|]. by apply Hcs, Hcon.
Qed.

Lemma steady_validate_group first previous n rest : steady (validate_group first previous n rest).
Proof.
  revert previous n. induction rest as [|e rest IH]; intros previous n; simpl; [apply steady_ret|].
  case_bool_decide; [|apply steady_ret]. apply steady_bind; [apply steady_check|]. intros _.
  destruct (_ || _); [apply steady_throw|]. case_bool_decide; [apply steady_throw|]. apply IH.
Qed.

Lemma steady_validate_site_groups fuel es : steady (validate_site_groups fuel es).
Proof.
  revert es. induction fuel as [|fuel IH]; intros [|f rest]; simpl; try apply steady_ret.
  apply steady_bind; [apply steady_check|]. intros _.
  apply steady_bind; [apply steady_validate_group|]. intros g.
  apply steady_bind; [apply steady_lift|]. intros n. apply steady_bind; [apply steady_lift|]. intros _. apply IH.
Qed.
#[export] Hint Resolve steady_validate_group steady_validate_site_groups : steady.

Lemma steady_admit_edges edges limits : steady (admit_edges edges limits).
Proof. unfold admit_edges. solve_steady. Qed.
#[export] Hint Resolve steady_admit_edges : steady.

Lemma admissible_perm limits es es' : es ≡ₚ es' → admissible limits es → admissible limits es'.
Proof.
  intros Hp [Hn Hb Hc]. split; [by rewrite <- Hp|by rewrite <- (total_size_perm _ _ Hp)|by eapply consistent_perm].
Qed.

Lemma adjacent_filter edges d dir :
  adjacent (admitted_of edges) d dir ≡ₚ filter (λ e, oriented_origin dir e = d) edges ∧
  Forall (λ e, oriented_origin dir e = d) (adjacent (admitted_of edges) d dir).
Proof.
  unfold adjacent. 
  assert (∀ es, StronglySorted (cle (compare_oriented dir)) es → es ≡ₚ edges →
    equal_run (oriented_origin dir) d es ≡ₚ filter (λ e, oriented_origin dir e = d) edges ∧
    Forall (λ e, oriented_origin dir e = d) (equal_run (oriented_origin dir) d es)) as H.
  { intros es Hs Hp. rewrite equal_run_filter by by apply sorted_by_origin. split; [by rewrite Hp|].
    rewrite Forall_forall. by intros e [? _]%list_elem_of_filter. }
  destruct dir; apply H; simpl; [apply sort_by_sorted; apply _| |apply sort_by_sorted; apply _|];
    by rewrite !sort_by_perm.
Qed.

Lemma matching_site_filter edges s :
  matching_site (admitted_of edges) s ≡ₚ filter (λ e, edge_site e = s) edges.
Proof.
  unfold matching_site. simpl. rewrite equal_run_filter by (apply sorted_by_site, sort_by_sorted; apply _).
  by rewrite sort_by_perm.
Qed.
