(* ===== verification/TraceReference.v ===== *)
(** * The reference traversal

    Breadth-first levels over the allowed relationships, in terms of shortest paths: what a
    trace of [Trace] reports when no budget is exhausted. *)

From Stdlib Require Import ZArith Lia ZifyBool.
From stdpp Require Import base numbers sorting list.
From S2P Require Import Prelude Ordering GraphIdentity TraceSort Trace.

Open Scope Z_scope.

Section reference.
Context (edges : list RustGraphTraversalEdge) (direction : RustGraphTraceDirection)
  (kinds : RustGraphEdgeKinds) (base avoid : list RustGraphDefinitionIdentity).

Notation origin := (oriented_origin direction).
Notation neighbor := (oriented_neighbor direction).

(** [reach n v]: some path of [n] allowed relationships leads from the base to [v], without
    coming to a declaration to avoid. *)
Inductive reach : nat → RustGraphDefinitionIdentity → Prop :=
| ReachBase v : v ∈ base → reach 0 v
| ReachStep n e :
    reach n (origin e) → e ∈ edges → allowed kinds e = true → neighbor e ∉ avoid →
    reach (S n) (neighbor e).

(** The allowed relationships out of a set of declarations, in the order of the trace. *)
Definition level_edges (level : list RustGraphDefinitionIdentity) : list RustGraphTraversalEdge :=
  sort_by compare_relationship (filter (λ e, allowed kinds e = true ∧ origin e ∈ level) edges).

(** The declarations first met [n] relationships from the base, and those met up to it or to
    be avoided. *)
Fixpoint levels (n : nat) : list RustGraphDefinitionIdentity * list RustGraphDefinitionIdentity :=
  match n with
  | O => (bset_of_list base, bset_of_list (avoid ++ base))
  | S n =>
      let '(level, met) := levels n in
      let new := bset_of_list (filter (λ v, v ∉ met) (map neighbor (level_edges level))) in
      (new, bset_of_list (met ++ new))
  end.

(** The relationships out of the base are reported with the depth [first]. *)
Context (first : Z).

Definition level_results (n : nat) : list RustGraphTraceEdge :=
  map (Build_RustGraphTraceEdge (first + Z.of_nat n)) (level_edges (levels n).1).

(** The whole trace to a depth: level by level, each in the order of the relationships. *)
Definition reference_results (depth : nat) : list RustGraphTraceEdge :=
  concat (map level_results (seq 0 depth)).

Definition shortest (n : nat) (v : RustGraphDefinitionIdentity) : Prop :=
  reach n v ∧ ∀ m, (m < n)%nat → ¬ reach m v.

Lemma elem_of_level_edges level e :
  e ∈ level_edges level ↔ e ∈ edges ∧ allowed kinds e = true ∧ origin e ∈ level.
Proof. unfold level_edges. rewrite sort_by_perm, list_elem_of_filter. tauto. Qed.

Lemma levels_wf n : bset_wf (levels n).1 ∧ bset_wf (levels n).2.
Proof.
  destruct n; simpl; [split; apply bset_of_list_wf|]. destruct (levels n). simpl.
  split; apply bset_of_list_wf.
Qed.

Lemma levels_S n v :
  (v ∈ (levels (S n)).1 ↔ v ∉ (levels n).2 ∧ ∃ e, e ∈ level_edges (levels n).1 ∧ neighbor e = v) ∧
  (v ∈ (levels (S n)).2 ↔ v ∈ (levels n).2 ∨ v ∈ (levels (S n)).1).
Proof.
  simpl. destruct (levels n) as [level met]. simpl.
  rewrite !elem_of_bset_of_list, elem_of_app, elem_of_bset_of_list, list_elem_of_filter, list_elem_of_fmap.
  naive_solver.
Qed.

Lemma levels_spec n :
  (∀ v, v ∈ (levels n).1 ↔ shortest n v) ∧
  (∀ v, v ∈ (levels n).2 ↔ v ∈ avoid ∨ ∃ m, (m ≤ n)%nat ∧ reach m v).
Proof.
  induction n as [|n [IH1 IH2]].
  - assert (∀ v, v ∈ base ↔ reach 0 v) as Hb by (intros v; split; [apply ReachBase|by inversion 1]).
    simpl. split; intros v; rewrite elem_of_bset_of_list, ?elem_of_app, Hb.
    + split; [intros H; split; [done|lia]|by intros [? _]].
    + split; [intros [?|H]; [by left|right; by exists 0%nat]|]. intros [?|(m & Hm & H)]; [by left|].
      right. by replace m with 0%nat in H by lia.
  - assert (∀ v, v ∈ (levels (S n)).1 ↔ shortest (S n) v) as H1.
    { intros v. rewrite (proj1 (levels_S n v)), IH2. unfold shortest. split.
      - intros [Hnot (e & He & <-)]. apply elem_of_level_edges in He as (He & Ha & Ho). apply IH1 in Ho as [Ho _].
        split; [apply ReachStep; [done..|tauto]|]. intros m Hm Hr. apply Hnot. right. exists m. split; [lia|done].
      - intros [Hr Hmin]. inversion Hr as [|? e Ho He Ha Hav]; subst.
        split; [intros [?|(m & Hm & Hrm)]; [done|apply (Hmin m); [lia|done]]|]. exists e. split; [|done].
        apply elem_of_level_edges. split_and!; [done..|]. apply IH1. split; [done|].
        intros m Hm Hrm. apply (Hmin (S m)); [lia|]. by apply ReachStep. }
    split; [done|]. intros v. rewrite (proj2 (levels_S n v)), H1, IH2. split.
    + intros [[?|(m & Hm & Hr)]|[Hr _]]; [by left|right; exists m; split; [lia|done]|right; by exists (S n)].
    + intros [?|(m & Hm & Hr)]; [by left; left|].
      destruct (decide (v ∈ (levels n).2)) as [Hin|Hnin]; [left; by apply IH2|].
      right. assert (m = S n) as ->.
      { destruct (decide (m = S n)); [done|]. exfalso. apply Hnin, IH2. right. exists m. split; [lia|done]. }
      split; [done|]. intros k Hk Hrk. apply Hnin, IH2. right. exists k. split; [lia|done].
Qed.

Lemma level_incl n v : v ∈ (levels n).1 → v ∈ (levels n).2.
Proof. intros [Hr _]%levels_spec. apply levels_spec. right. by exists n. Qed.

(** A shortest path ends with a relationship out of a declaration one nearer. *)
Lemma shortest_step n v :
  shortest (S n) v → ∃ e, e ∈ edges ∧ allowed kinds e = true ∧ neighbor e = v ∧ shortest n (origin e).
Proof.
  intros [Hr Hmin]. inversion Hr as [|? e Ho He Ha Hav]; subst. exists e. split_and!; [done..|].
  split; [done|]. intros m Hm Hrm. apply (Hmin (S m)); [lia|]. by apply ReachStep.
Qed.

Lemma reach_shortest n v : reach n v → ∃ m, (m ≤ n)%nat ∧ shortest m v.
Proof.
  induction n as [n IH] using (well_founded_induction lt_wf). intros Hr.
  destruct (decide (v ∈ (levels n).1)) as [Hin|Hnin]; [exists n; split; [done|by apply levels_spec]|].
  destruct n as [|n].
  { exfalso. apply Hnin, levels_spec. split; [done|lia]. }
  assert (v ∈ (levels n).2) as [Hav|(m & Hm & Hrm)]%levels_spec.
  { assert (v ∈ (levels (S n)).2) as Hin by (apply levels_spec; right; exists (S n); auto).
    apply (levels_S n v) in Hin as [?|?]; done. }
  { inversion Hr; by subst. }
  destruct (IH m ltac:(lia) Hrm) as (k & Hk & Hs). exists k. split; [lia|done].
Qed.

Lemma shortest_unique n m v : shortest n v → shortest m v → n = m.
Proof.
  intros [H1 H2] [H3 H4]. destruct (lt_eq_lt_dec n m) as [[Hlt|Heq]|Hlt]; [|done|].
  - by destruct (H4 n).
  - by destruct (H2 m).
Qed.

Lemma reference_results_S n : reference_results (S n) = reference_results n ++ level_results n.
Proof.
  unfold reference_results. rewrite seq_S, map_app, concat_app. simpl. by rewrite app_nil_r.
Qed.

Lemma reference_results_prefix n k : (n ≤ k)%nat → reference_results n `prefix_of` reference_results k.
Proof.
  induction 1 as [|k Hle IH]; [done|]. rewrite reference_results_S. by apply prefix_app_r.
Qed.

Lemma levels_mono n k v : (n ≤ k)%nat → v ∈ (levels n).2 → v ∈ (levels k).2.
Proof.
  intros Hle [?|(m & ? & ?)]%levels_spec; apply levels_spec; [by left|].
  right. exists m. split; [lia|done].
Qed.

(** An empty level ends the traversal. *)
Lemma level_nil n k : (n ≤ k)%nat → (levels n).1 = [] → (levels k).1 = [] ∧ (levels k).2 = (levels n).2.
Proof.
  intros Hle Hn. induction Hle as [|k Hle [IH1 IH2]]; [done|].
  assert ((levels (S k)).1 = []) as H1.
  { destruct ((levels (S k)).1) as [|v l] eqn:E; [done|]. exfalso.
    assert (v ∈ (levels (S k)).1) as Hv by (rewrite E; left).
    apply (proj1 (levels_S k v)) in Hv as [_ (e & He & _)].
    apply elem_of_level_edges in He as (_ & _ & Ho). rewrite IH1 in Ho. by apply elem_of_nil in Ho. }
  split; [done|]. rewrite <- IH2. apply bset_ext; [apply levels_wf|apply levels_wf|].
  intros v. rewrite (proj2 (levels_S k v)), H1, elem_of_nil. tauto.
Qed.

Lemma level_edges_nil : level_edges [] = [].
Proof.
  unfold level_edges. rewrite filter_all_false; [done|]. rewrite Forall_forall.
  intros e _ [_ He]. by apply elem_of_nil in He.
Qed.

Lemma reference_results_end n k :
  (n ≤ k)%nat → (levels n).1 = [] → reference_results k = reference_results n.
Proof.
  intros Hle Hn. induction Hle as [|k Hle IH]; [done|]. rewrite reference_results_S, IH.
  destruct (level_nil n k Hle Hn) as [Hk _]. unfold level_results. rewrite Hk, level_edges_nil.
  apply app_nil_r.
Qed.

(** Membership in the reference trace is in terms of shortest paths. *)
Lemma elem_of_reference_results depth d e :
  Build_RustGraphTraceEdge d e ∈ reference_results depth ↔
  ∃ n, (n < depth)%nat ∧ d = first + Z.of_nat n ∧ e ∈ edges ∧ allowed kinds e = true ∧ shortest n (origin e).
Proof.
  unfold reference_results, level_results. rewrite list_elem_of_In, in_concat. split.
  - intros (l & (n & <- & Hn)%in_map_iff & (e' & [= <- <-] & He)%in_map_iff).
    apply in_seq in Hn. apply list_elem_of_In, elem_of_level_edges in He as (? & ? & Ho).
    exists n. split_and!; try done; [lia|..]; by apply levels_spec in Ho as [].
  - intros (n & Hn & -> & He & Ha & Hs). eexists. split; [apply in_map_iff; exists n; split; [done|apply in_seq; lia]|].
    apply in_map_iff. exists e. split; [done|]. apply list_elem_of_In, elem_of_level_edges.
    split_and!; [done..|]. by apply levels_spec.
Qed.
End reference.

#[global] Arguments levels : simpl never.
