(* ===== verification/TraceLoops.v ===== *)
(** * The loops of the traversal

    How the selection, processing and depth loops of [Trace] run: the budgets they keep,
    where what they report comes from, and that they follow the levels of [TraceReference]
    as long as nothing is left out. *)

From Stdlib Require Import ZArith Lia ZifyBool.
From stdpp Require Import base numbers sorting list.
From S2P Require Import Prelude Ordering GraphIdentity TraceSort Trace TraceReference.

Open Scope Z_scope.

(** The bytes a list of results takes. *)
Definition trace_size (rs : list RustGraphTraceEdge) : Z :=
  foldr (λ r n, TRACE_EDGE_FIXED_BYTES + edge_size (relationship r) + n) 0 rs.

Lemma trace_size_app rs1 rs2 : trace_size (rs1 ++ rs2) = trace_size rs1 + trace_size rs2.
Proof. induction rs1 as [|r rs1 IH]; simpl; [done|]. rewrite IH. lia. Qed.
Lemma trace_size_nonneg rs : 0 ≤ trace_size rs.
Proof.
  induction rs as [|r rs IH]; simpl; [lia|]. pose proof (edge_size_pos (relationship r)).
  unfold TRACE_EDGE_FIXED_BYTES. lia.
Qed.

(** No flag says that relationships were left out (the depth limit is the caller's choice). *)
Definition clean (r : RustGraphTraceTruncation) : bool :=
  negb (trunc_visited_nodes r) && negb (trunc_visited_edges r) && negb (trunc_frontier r)
  && negb (trunc_results r).

Section loops.
Context (request : RustGraphTraceRequest).
Context (Hlimits : limits_ok (req_limits request)).

Notation limits := (req_limits request).
Notation origin := (oriented_origin (req_direction request)).
Notation neighbor := (oriented_neighbor (req_direction request)).
Notation usable := (λ e, allowed (req_edge_kinds request) e = true).

(** *** Selection spends the budget of visited relationships *)

Definition spend (n : nat) (exhausted : bool) (t : Traversal) : Traversal :=
  let t := with_visited_edges (visited_edges t + Z.of_nat n) t in
  if exhausted then with_stop true (with_truncation (set_visited_edges (truncation t)) t) else t.

Lemma spend_0 t : spend 0 false t = t.
Proof. destruct t. unfold spend, with_visited_edges. simpl. by rewrite Z.add_0_r. Qed.

Lemma spend_spend n m x t : spend m x (spend n false t) = spend (n + m) x t.
Proof.
  unfold spend, with_visited_edges. simpl. rewrite Nat2Z.inj_add, Z.add_assoc. done.
Qed.

(** [taken] is what of [es] the budget allows; all of it unless the budget ran out. *)
Definition takes (es taken : list RustGraphTraversalEdge) (exhausted : bool) (t : Traversal) : Prop :=
  taken `prefix_of` es ∧ (exhausted = false → taken = es) ∧
  visited_edges t + Z.of_nat (length taken) ≤ max_visited_edges limits ∧
  (exhausted = true → max_visited_edges limits < visited_edges t + Z.of_nat (length es)).

Lemma admit_visited_edge_spec t :
  0 ≤ visited_edges t ≤ max_visited_edges limits →
  admit_visited_edge request t =
  if max_visited_edges limits <=? visited_edges t then Ok (false, spend 0 true t)
  else Ok (true, spend 1 false t).
Proof.
  assert (max_visited_edges limits ≤ u64_max) as Hmax.
  { destruct Hlimits as (_ & _ & _ & _ & _ & ? & _). unfold MAX_VISITED_EDGES, u64_max in *. lia. }
  intros Ht. unfold admit_visited_edge. destruct (_ <=? visited_edges t) eqn:Hb.
  - unfold spend. simpl. rewrite Z.add_0_r. by destruct t.
  - unfold u64_checked_add. rewrite checked_in by lia. done.
Qed.

Lemma takes_nil e es t :
  visited_edges t = max_visited_edges limits → takes (e :: es) [] true t.
Proof. intros H. split_and!; [apply prefix_nil|done|simpl; lia|simpl; lia]. Qed.
Lemma takes_end t : visited_edges t ≤ max_visited_edges limits → takes [] [] false t.
Proof. intros H. split_and!; [done|done|simpl; lia|done]. Qed.

Lemma takes_app es1 es2 taken1 taken2 x t :
  takes es1 taken1 false t → takes es2 taken2 x (spend (length taken1) false t) →
  takes (es1 ++ es2) (taken1 ++ taken2) x t.
Proof.
  intros (_ & H1 & _) (Hp & H2 & Hle & Hex). rewrite H1 in * by done. split_and!.
  - by apply prefix_app.
  - intros Hx. by rewrite H2.
  - rewrite length_app. simpl in *. lia.
  - rewrite length_app. intros Hx%Hex. simpl in *. lia.
Qed.

Lemma takes_more es1 es2 taken t : takes es1 taken true t → takes (es1 ++ es2) taken true t.
Proof.
  intros (Hp & _ & Hle & Hex). split_and!; [by apply prefix_app_r|done|done|].
  rewrite length_app. intros Hx%Hex. lia.
Qed.

Lemma spend_visited n x t : visited_edges (spend n x t) = visited_edges t + Z.of_nat n.
Proof. by destruct x. Qed.
Lemma spend_stop n x t : stop t = false → stop (spend n x t) = x.
Proof. intros H. by destruct x. Qed.

(** One more relationship within the budget. *)
Lemma takes_cons e es taken x t :
  visited_edges t < max_visited_edges limits → takes es taken x (spend 1 false t) →
  takes (e :: es) (e :: taken) x t ∧
  spend (length taken) x (spend 1 false t) = spend (length (e :: taken)) x t.
Proof.
  intros Hlt Ht. split; [|by rewrite spend_spend].
  apply (takes_app [e] es [e]); [|done]. split_and!; [done|done|simpl; lia|done].
Qed.

Lemma select_edges_spec es sel t :
  0 ≤ visited_edges t ≤ max_visited_edges limits →
  ∃ taken x, select_edges request es sel t = Ok (sel ++ taken, spend (length taken) x t) ∧
    takes (filter usable es) taken x t.
Proof.
  revert sel t. induction es as [|e es IH]; intros sel t Ht; cbn [select_edges].
  { exists [], false. cbn [length]. rewrite app_nil_r, spend_0. split; [done|]. apply takes_end. lia. }
  destruct (allowed (req_edge_kinds request) e) eqn:Ha; cbn [negb].
  2:{ rewrite filter_cons_False by congruence. by apply IH. }
  rewrite filter_cons_True by done. rewrite admit_visited_edge_spec by done.
  destruct (max_visited_edges limits <=? visited_edges t) eqn:Hb; rstep.
  - exists [], true. rewrite app_nil_r. split; [done|]. apply takes_nil. lia.
  - destruct (IH (sel ++ [e]) (spend 1 false t)) as (taken & x & -> & Ht2); [rewrite spend_visited; lia|].
    exists (e :: taken), x. destruct (takes_cons e _ taken x t ltac:(lia) Ht2) as [? ->].
    by rewrite <- app_assoc.
Qed.

Lemma select_frontier_wp admitted ds sel t R :
  0 ≤ visited_edges t ≤ max_visited_edges limits → stop t = false →
  wp (select_frontier request admitted ds sel t)
    (λ r, ∃ taken x, r = (sel ++ taken, spend (length taken) x t) ∧
      takes (concat (map (λ d, filter usable (adjacent admitted d (req_direction request))) ds)) taken x t) R.
Proof.
  revert sel t. induction ds as [|d ds IH]; intros sel t Ht Hst; simpl.
  { apply wp_ret. exists [], false. cbn [length]. rewrite app_nil_r, spend_0. split; [done|].
    apply takes_end. lia. }
  apply wp_check_bind.
  destruct (select_edges_spec (adjacent admitted d (req_direction request)) sel t Ht)
    as (taken & x & Heq & Htakes).
  eapply wp_lift_bind; [exact Heq|]. cbv beta iota. rewrite spend_stop by done. destruct x.
  - apply wp_ret. exists taken, true. split; [done|]. by apply takes_more.
  - eapply wp_mono; [apply IH|].
    + destruct Htakes as (_ & _ & ? & _). rewrite spend_visited. lia.
    + by apply spend_stop.
    + intros r (taken2 & x & -> & Ht2). exists (taken ++ taken2), x.
      rewrite app_assoc, length_app, spend_spend. split; [done|]. by apply takes_app.
Qed.

Lemma select_site_wp es sel t R :
  0 ≤ visited_edges t ≤ max_visited_edges limits →
  wp (select_site request es sel t)
    (λ r, ∃ taken x, r = (sel ++ taken, spend (length taken) x t) ∧ takes (filter usable es) taken x t) R.
Proof.
  revert sel t. induction es as [|e es IH]; intros sel t Ht; cbn [select_site].
  { apply wp_ret. exists [], false. cbn [length]. rewrite app_nil_r, spend_0. split; [done|].
    apply takes_end. lia. }
  apply wp_check_bind.
  destruct (allowed (req_edge_kinds request) e) eqn:Ha.
  2:{ rewrite filter_cons_False by congruence. by apply IH. }
  rewrite filter_cons_True by done. rewrite admit_visited_edge_spec by done.
  destruct (max_visited_edges limits <=? visited_edges t) eqn:Hb.
  - eapply wp_lift_bind; [done|]. cbn [negb].
    apply wp_ret. exists [], true. rewrite app_nil_r. split; [done|]. apply takes_nil. lia.
  - eapply wp_lift_bind; [done|]. cbn [negb].
    eapply wp_mono; [apply IH; rewrite spend_visited; lia|].
    intros r (taken & x & -> & Ht2). exists (e :: taken), x.
    destruct (takes_cons e _ taken x t ltac:(lia) Ht2) as [? ->]. by rewrite <- app_assoc.
Qed.

(** *** One relationship absorbed *)

(** What happens to the neighbor of a relationship. *)
Inductive admits (v : RustGraphDefinitionIdentity) (t : Traversal) : bool → Traversal → Prop :=
| AdmitsMet : v ∈ seen t → admits v t true t
| AdmitsFull : v ∉ seen t → Z.of_nat (length (seen t)) = max_visited_nodes limits →
    admits v t false (with_truncation (set_visited_nodes (truncation t)) t)
| AdmitsCrowded : v ∉ seen t → Z.of_nat (length (seen t)) < max_visited_nodes limits →
    Z.of_nat (length (next t)) = max_frontier limits →
    admits v t true (with_truncation (set_frontier (truncation t)) (with_seen (bset_insert v (seen t)) t))
| AdmitsNew : v ∉ seen t → Z.of_nat (length (seen t)) < max_visited_nodes limits →
    Z.of_nat (length (next t)) < max_frontier limits →
    admits v t true (with_next (bset_insert v (next t)) (with_seen (bset_insert v (seen t)) t)).

Definition pushed (depth : Z) (e : RustGraphTraversalEdge) (t : Traversal) : Traversal :=
  with_results (results t ++ [Build_RustGraphTraceEdge depth e])
    (with_output_bytes (output_bytes t + (TRACE_EDGE_FIXED_BYTES + edge_size e)) t).

(** [absorbs depth t es t']: the loop over [es] takes [t] to [t']. *)
Inductive absorbs (depth : Z) (t : Traversal) : list RustGraphTraversalEdge → Traversal → Prop :=
| AbsorbsNil : absorbs depth t [] t
| AbsorbsOrphan e es t' :
    origin e ∉ seen t → absorbs depth t es t' → absorbs depth t (e :: es) t'
| AbsorbsRefused e es t1 t' :
    admits (neighbor e) t false t1 → absorbs depth t1 es t' → absorbs depth t (e :: es) t'
| AbsorbsStop e es t1 :
    admits (neighbor e) t true t1 → Z.of_nat (length (results t1)) = max_results limits →
    absorbs depth t (e :: es) (with_stop true (with_truncation (set_results (truncation t1)) t1))
| AbsorbsPush e es t1 t' :
    origin e ∈ seen t → admits (neighbor e) t true t1 →
    Z.of_nat (length (results t1)) < max_results limits →
    output_bytes t1 + (TRACE_EDGE_FIXED_BYTES + edge_size e) ≤ max_output_bytes limits →
    absorbs depth (pushed depth e t1) es t' → absorbs depth t (e :: es) t'.

(** The sets are sets, every budget is kept, and the output is accounted for. *)
Record sound (t : Traversal) : Prop := {
  sound_seen : bset_wf (seen t);
  sound_next : bset_wf (next t);
  sound_nodes : Z.of_nat (length (seen t)) ≤ max_visited_nodes limits;
  sound_frontier : Z.of_nat (length (next t)) ≤ max_frontier limits;
  sound_results : Z.of_nat (length (results t)) ≤ max_results limits;
  sound_visited : 0 ≤ visited_edges t ≤ max_visited_edges limits;
  sound_accounting : output_bytes t = TRACE_OUTPUT_FIXED_BYTES + trace_size (results t);
  sound_output : output_bytes t ≤ max_output_bytes limits;
  sound_next_seen : ∀ v, v ∈ next t → v ∈ seen t;
}.

Lemma admit_neighbor_admits v t :
  sound t → let '(b, t1) := admit_neighbor request v t in admits v t b t1.
Proof.
  intros [Hs Hn Hnodes Hf _ _ _ _ _]. unfold admit_neighbor.
  destruct (bset_mem v (seen t)) eqn:Hm.
  { apply bset_mem_spec in Hm; [|done]. by constructor. }
  apply bset_mem_false in Hm; [|done]. unfold admit_node, u64_of_len.
  destruct Hlimits as (_ & _ & _ & _ & Hmax & _ & Hmf & _).
  rewrite checked_in by (unfold MAX_VISITED_NODES, u64_max in *; lia). simpl.
  destruct (_ <=? Z.of_nat (length (seen t))) eqn:Hb; simpl.
  { constructor; [done|]. lia. }
  destruct (_ <=? Z.of_nat (length (next t))) eqn:Hb2.
  - constructor; [done|lia|lia].
  - constructor; [done|lia|lia].
Qed.

Lemma admits_sound v t b t1 : sound t → admits v t b t1 → sound t1.
Proof.
  intros [Hs Hn Hnodes Hf Hr Hv Ha Ho Hi] [].
  - by split.
  - split; done.
  - split; simpl; try done.
    + by apply bset_insert_wf.
    + rewrite length_bset_insert by done. lia.
    + intros w Hw. apply elem_of_bset_insert. auto.
  - assert (v ∉ next t) by auto. split; simpl; try done.
    + by apply bset_insert_wf.
    + by apply bset_insert_wf.
    + rewrite length_bset_insert by done. lia.
    + rewrite length_bset_insert by done. lia.
    + intros w. rewrite !elem_of_bset_insert. naive_solver.
Qed.

Lemma admits_results v t b t1 : admits v t b t1 → results t1 = results t ∧ output_bytes t1 = output_bytes t.
Proof. by intros []. Qed.

Lemma pushed_sound depth e t :
  sound t → Z.of_nat (length (results t)) < max_results limits →
  output_bytes t + (TRACE_EDGE_FIXED_BYTES + edge_size e) ≤ max_output_bytes limits →
  sound (pushed depth e t).
Proof.
  intros [Hs Hn Hnodes Hf Hr Hv Ha Ho Hi] Hlt Hout. split; simpl; try done.
  - rewrite length_app. simpl. lia.
  - rewrite trace_size_app. simpl. lia.
Qed.

Lemma push_result_eq depth e t :
  sound t → representable e →
  push_result request depth e t =
  if output_bytes t + (TRACE_EDGE_FIXED_BYTES + edge_size e) <=? max_output_bytes limits
  then Ok (pushed depth e t) else Err OutputLimitExceeded.
Proof.
  intros [_ _ _ _ _ _ Ha Ho _] He. pose proof (edge_size_pos e). pose proof (trace_size_nonneg (results t)).
  destruct Hlimits as (_ & _ & _ & _ & _ & _ & _ & Hmo).
  unfold representable, MAX_INPUT_BYTES, MAX_OUTPUT_BYTES, TRACE_OUTPUT_FIXED_BYTES, u64_max in *.
  unfold push_result, add_output_bytes, u64_checked_add, TRACE_EDGE_FIXED_BYTES.
  rewrite encoded_relationship_bytes_eq. unfold u64_max in *.
  destruct (edge_size e <=? _) eqn:E; [|lia]. rstep. rewrite checked_in by lia. rstep.
  rewrite checked_in by lia. rstep. unfold reject_if.
  destruct (_ <? _) eqn:E2; destruct (_ + _ <=? _) eqn:E3; try lia; rstep; done.
Qed.

Lemma process_selected_edges_wp es depth t (R : RustGraphTraceError → Prop) :
  sound t → Forall representable es →
  (max_output_bytes limits < output_bytes t + trace_size (map (Build_RustGraphTraceEdge depth) es) →
    R OutputLimitExceeded) →
  wp (process_selected_edges request es depth t) (absorbs depth t es) R.
Proof.
  revert t. induction es as [|e es IH]; intros t Ht Hes HR; cbn [process_selected_edges].
  { apply wp_ret. apply AbsorbsNil. }
  apply Forall_cons in Hes as [He Hes]. apply wp_check_bind. simpl in HR.
  pose proof (edge_size_pos e). pose proof (trace_size_nonneg (map (Build_RustGraphTraceEdge depth) es)).
  assert (0 < TRACE_EDGE_FIXED_BYTES) by done.
  destruct (bset_mem (origin e) (seen t)) eqn:Ho; cbn [negb].
  2:{ apply bset_mem_false in Ho; [|apply Ht]. eapply wp_mono.
      - apply IH; [done..|]. intros. apply HR. lia.
      - intros t' H'. by apply AbsorbsOrphan. }
  apply bset_mem_spec in Ho; [|apply Ht].
  pose proof (admit_neighbor_admits (neighbor e) t Ht) as Hadm.
  destruct (admit_neighbor request (neighbor e) t) as [b t1].
  pose proof (admits_sound _ _ _ _ Ht Hadm) as Ht1. destruct b; cbn [negb].
  { pose proof (admits_results _ _ _ _ Hadm) as [_ Hout1].
  pose proof (sound_results _ Ht1).
  destruct (_ <=? Z.of_nat (length (results t1))) eqn:Hr.
  { apply wp_ret. apply AbsorbsStop; [done|lia]. }
  pose proof (push_result_eq depth e t1 Ht1 He) as Hp.
  destruct (_ <=? max_output_bytes limits) eqn:Hout.
  - eapply wp_lift_bind; [exact Hp|]. eapply wp_mono.
    + assert (sound (pushed depth e t1)) by (apply pushed_sound; [done|lia..]).
      apply IH; [done..|]. simpl. intros. apply HR. lia.
    + intros t' H'. apply (AbsorbsPush _ _ _ _ t1); [done|done|lia|lia|done].
  - eapply (wp_bind _ _ (λ _, False)); [|done]. apply wp_lift. rewrite Hp. apply HR. lia. }
  pose proof (admits_results _ _ _ _ Hadm) as [_ Hout1]. eapply wp_mono.
  - apply IH; [done..|]. intros. apply HR. lia.
  - intros t' H'. by eapply AbsorbsRefused.
Qed.

(** *** What the loop does *)

Lemma absorbs_sound depth t es t' : sound t → absorbs depth t es t' → sound t'.
Proof.
  intros Ht Habs. induction Habs; auto.
  - eauto using admits_sound.
  - eapply admits_sound in H; [|done]. by destruct H.
  - apply IHHabs. apply pushed_sound; [by eapply admits_sound|done..].
Qed.

Lemma absorbs_frame depth t es t' :
  absorbs depth t es t' →
  current t' = current t ∧ visited_edges t' = visited_edges t ∧
  maximum_completed_depth t' = maximum_completed_depth t ∧
  trunc_depth (truncation t') = trunc_depth (truncation t).
Proof.
  assert (∀ v t b t1, admits v t b t1 → current t1 = current t ∧ visited_edges t1 = visited_edges t ∧
    maximum_completed_depth t1 = maximum_completed_depth t ∧
    trunc_depth (truncation t1) = trunc_depth (truncation t)) as Hadm by by intros ???? [].
  induction 1 as [| |????? H1|???? H1|????? _ H1]; try apply Hadm in H1; naive_solver congruence.
Qed.

(** Whatever is met or reported comes from the relationships of the loop. *)
Lemma absorbs_sources depth t es t' :
  absorbs depth t es t' →
  (∃ taken, taken `sublist_of` es ∧ results t' = results t ++ map (Build_RustGraphTraceEdge depth) taken) ∧
  (∀ v, v ∈ seen t → v ∈ seen t') ∧
  (∀ v, v ∈ seen t' → v ∈ seen t ∨ v ∈ map neighbor es) ∧
  (∀ v, v ∈ next t' → v ∈ next t ∨ v ∈ map neighbor es).
Proof.
  assert (∀ v t b t1, admits v t b t1 → results t1 = results t ∧ (∀ w, w ∈ seen t → w ∈ seen t1) ∧
    (∀ w, w ∈ seen t1 → w ∈ seen t ∨ w = v) ∧ (∀ w, w ∈ next t1 → w ∈ next t ∨ w = v)) as Hadm.
  { intros v t0 b t1 []; simpl; split_and!; try done; intros w; rewrite ?elem_of_bset_insert; auto; tauto. }
  induction 1 as [t|t e es t' Ho Habs IH|t e es t1 t' H1 Habs IH|t e es t1 H1 Hr|t e es t1 t' Ho H1 Hr Hout Habs IH];
    try (apply Hadm in H1 as (Hr1 & Hm1 & Hs1 & Hn1)).
  - split_and!; [exists []; by rewrite app_nil_r|naive_solver..].
  - destruct IH as ((taken & Hsub & Hres) & Hm & Hs & Hn). split_and!.
    + exists taken. split; [by constructor|done].
    + done.
    + intros v ?%Hs. simpl. rewrite elem_of_cons. tauto.
    + intros v ?%Hn. simpl. rewrite elem_of_cons. tauto.
  - destruct IH as ((taken & Hsub & Hres) & Hm & Hs & Hn). split_and!.
    + exists taken. split; [by constructor|congruence].
    + auto.
    + intros v ?%Hs. simpl. rewrite elem_of_cons. naive_solver.
    + intros v ?%Hn. simpl. rewrite elem_of_cons. naive_solver.
  - simpl. split_and!; [exists []; split; [by apply sublist_nil_l|by rewrite app_nil_r]|done|..];
      intros v Hv; rewrite elem_of_cons; naive_solver.
  - destruct IH as ((taken & Hsub & Hres) & Hm & Hs & Hn). split_and!.
    + exists (e :: taken). split; [by constructor|]. rewrite Hres. simpl. rewrite Hr1, <- app_assoc. done.
    + auto.
    + intros v ?%Hs. simpl in *. rewrite elem_of_cons. naive_solver.
    + intros v ?%Hn. simpl in *. rewrite elem_of_cons. naive_solver.
Qed.

(** Unless it stops early, the loop reports what brings each declaration to [next]. *)
Lemma absorbs_next depth t es t' :
  absorbs depth t es t' → stop t' = false →
  ∀ v, v ∈ next t' → v ∈ next t ∨ ∃ e, Build_RustGraphTraceEdge depth e ∈ results t' ∧ neighbor e = v.
Proof.
  assert (∀ v t t1, admits v t false t1 → next t1 = next t) as Hrefused.
  { intros v t0 t1. remember false as b. by destruct 1. }
  assert (∀ v t t1, admits v t true t1 → ∀ w, w ∈ next t1 → w ∈ next t ∨ w = v) as Hadm.
  { intros v t0 t1 H w. destruct H; simpl; rewrite ?elem_of_bset_insert; tauto. }
  induction 1 as [t|t e es t' Ho Habs IH|t e es t1 t' H1 Habs IH|t e es t1 H1 Hr|t e es t1 t' Ho H1 Hr Hout Habs IH];
    intros Hst v Hv.
  - by left.
  - by apply IH.
  - rewrite <- (Hrefused _ _ _ H1). by apply IH.
  - done.
  - destruct (IH Hst v Hv) as [Hv1|?]; [|by right]. simpl in Hv1.
    destruct (Hadm _ _ _ H1 v Hv1) as [?| ->]; [by left|right]. exists e. split; [|done].
    destruct (absorbs_sources _ _ _ _ Habs) as ((taken & _ & ->) & _). simpl.
    rewrite !elem_of_app. left. right. by left.
Qed.

(** With nothing left out, every relationship is reported and every neighbor met. *)
Lemma absorbs_clean depth t es t' :
  sound t → absorbs depth t es t' → (∀ e, e ∈ es → origin e ∈ seen t) → clean (truncation t') = true →
  clean (truncation t) = true ∧ stop t' = stop t ∧
  results t' = results t ++ map (Build_RustGraphTraceEdge depth) es ∧
  (∀ v, v ∈ seen t' ↔ v ∈ seen t ∨ v ∈ map neighbor es) ∧
  (∀ v, v ∈ next t' ↔ v ∈ next t ∨ v ∉ seen t ∧ v ∈ map neighbor es).
Proof.
  assert (∀ v t t1, admits v t false t1 → clean (truncation t1) = false) as Hrefused.
  { intros v t0 t1. remember false as b. by destruct 1. }
  assert (∀ v t t1, sound t → admits v t true t1 → clean (truncation t1) = true →
    clean (truncation t) = true ∧ stop t1 = stop t ∧ results t1 = results t ∧
    (∀ w, w ∈ seen t1 ↔ w ∈ seen t ∨ w = v) ∧ (∀ w, w ∈ next t1 ↔ w ∈ next t ∨ w = v ∧ v ∉ seen t)) as Hadm.
  { intros v t0 t1 Ht0. remember true as b. destruct 1 as [Hin| |Hnin Hn Hf|Hnin Hn Hf]; try done; simpl.
    - intros Hc. split_and!; [done..|naive_solver|naive_solver].
    - unfold clean. simpl. rewrite andb_false_r. done.
    - intros Hc. split_and!; [done..|intros w; rewrite elem_of_bset_insert; tauto|].
      intros w. rewrite elem_of_bset_insert. naive_solver. }
  intros Ht Habs.
  induction Habs as [t|t e es t' Ho Habs IH|t e es t1 t' H1 Habs IH|t e es t1 H1 Hr|t e es t1 t' Ho H1 Hr Hout Habs IH];
    intros Hos Hc.
  - split_and!; [done|done|by rewrite app_nil_r|..]; intros v; simpl; rewrite elem_of_nil; tauto.
  - exfalso. apply Ho, Hos. left.
  - exfalso. destruct IH as [IH _]; [by eapply admits_sound| |done|by rewrite (Hrefused _ _ _ H1) in IH].
    intros e' He'. assert (seen t1 = seen t) as -> by (remember false as b; by destruct H1). apply Hos. by right.
  - exfalso. unfold clean in Hc. simpl in Hc. by rewrite andb_false_r in Hc.
  - pose proof (admits_sound _ _ _ _ Ht H1) as Ht1.
    assert (∀ w, w ∈ seen t → w ∈ seen t1) as Hmono.
    { intros w Hw. destruct H1; simpl; try done; apply elem_of_bset_insert; by right. }
    destruct IH as (Hc1 & Hst & Hres & Hs & Hn); [by apply pushed_sound| |done|].
    { intros e' He'. apply Hmono, Hos. by right. }
    destruct (Hadm _ _ _ Ht H1 Hc1) as (Hc0 & Hst1 & Hr1 & Hs1 & Hn1). simpl in *. split_and!.
    + done.
    + congruence.
    + rewrite Hres, Hr1, <- app_assoc. done.
    + intros v. rewrite Hs, Hs1, elem_of_cons. tauto.
    + intros v. rewrite Hn, Hs1, Hn1, elem_of_cons. destruct (decide (v = neighbor e)); naive_solver.
Qed.

(** *** One turn *)

Context (Hrep : Forall representable (req_edges request)).

Notation edges := (req_edges request).
Notation admitted := (admitted_of (req_edges request)).

Lemma frontier_edges ds :
  NoDup ds →
  concat (map (λ d, filter usable (adjacent admitted d (req_direction request))) ds) ≡ₚ
  filter (λ e, allowed (req_edge_kinds request) e = true ∧ origin e ∈ ds) edges.
Proof.
  induction 1 as [|d ds Hd Hnd IH]; simpl.
  { rewrite filter_all_false; [done|]. rewrite Forall_forall. intros e _ [_ He]. by apply elem_of_nil in He. }
  rewrite IH, (proj1 (adjacent_filter edges d (req_direction request))), list_filter_filter.
  apply filter_disjoint_app.
  - intros e. rewrite elem_of_cons. naive_solver.
  - intros e. naive_solver.
Qed.

Notation level := (level_edges edges (req_direction request) (req_edge_kinds request)).

(** The relationships a turn over a frontier chooses, in the order it considers them. *)
Record chosen (frontier : list RustGraphDefinitionIdentity) (t : Traversal)
    (es : list RustGraphTraversalEdge) (x : bool) : Prop := {
  chosen_from e : e ∈ es → e ∈ edges ∧ allowed (req_edge_kinds request) e = true ∧ origin e ∈ frontier;
  chosen_all : x = false → es = level frontier;
  chosen_budget : visited_edges t + Z.of_nat (length es) ≤ max_visited_edges limits;
  chosen_exhausted :
    x = true → max_visited_edges limits < visited_edges t + Z.of_nat (length (level frontier));
}.

(** A turn from [t], whose frontier is gone: the relationships chosen are absorbed. *)
Definition turn (frontier : list RustGraphDefinitionIdentity) (depth : Z) (t t' : Traversal) : Prop :=
  ∃ es x, chosen frontier t es x ∧ absorbs depth (spend (length es) x t) es t'.

Lemma chosen_of_taken frontier taken x t :
  NoDup frontier →
  takes (concat (map (λ d, filter usable (adjacent admitted d (req_direction request))) frontier)) taken x t →
  chosen frontier t (sort_by compare_relationship taken) x.
Proof.
  intros Hnd (Hp & Hx & Hle & Hex). pose proof (frontier_edges frontier Hnd) as Hfe. split.
  - intros e. rewrite sort_by_perm. intros He. apply (elem_of_prefix _ _ _ He) in Hp.
    rewrite Hfe, list_elem_of_filter in Hp. tauto.
  - intros Hx'. rewrite (Hx Hx'). apply sort_by_Permutation; [apply _|apply compare_relationship_eq|done].
  - by rewrite length_sort_by.
  - intros Hx'%Hex. unfold level_edges. by rewrite length_sort_by, <- Hfe.
Qed.

(** *** The depth flag *)

Definition has_more (ds : list RustGraphDefinitionIdentity) : bool :=
  existsb (λ d, existsb (allowed (req_edge_kinds request)) (adjacent admitted d (req_direction request))) ds.

Lemma evals_any_allowed es : evals (any_allowed request es) (Ok (existsb (allowed (req_edge_kinds request)) es)).
Proof.
  induction es as [|e es IH]; simpl; [apply evals_ret|].
  eapply evals_bind; [apply evals_check|]. by destruct (allowed _ e).
Qed.

Lemma evals_frontier ds : evals (frontier_has_allowed_edges request admitted ds) (Ok (has_more ds)).
Proof.
  induction ds as [|d ds IH]; simpl; [apply evals_ret|].
  eapply evals_bind; [apply evals_check|]. eapply evals_bind; [apply evals_any_allowed|].
  by destruct (existsb _ _).
Qed.

Lemma has_more_spec ds :
  has_more ds = true ↔ ∃ e, e ∈ edges ∧ allowed (req_edge_kinds request) e = true ∧ origin e ∈ ds.
Proof.
  unfold has_more. rewrite existsb_exists. split.
  - intros (d & Hd & (e & He & Ha)%existsb_exists). exists e.
    apply list_elem_of_In in Hd, He. rewrite (proj1 (adjacent_filter _ _ _)), list_elem_of_filter in He.
    destruct He as [<- He]. done.
  - intros (e & He & Ha & Ho). exists (origin e). rewrite <- list_elem_of_In. split; [done|].
    apply existsb_exists. exists e. split; [|done]. rewrite <- list_elem_of_In.
    by rewrite (proj1 (adjacent_filter _ _ _)), list_elem_of_filter.
Qed.

Lemma evals_note_depth t :
  evals (note_depth request admitted t)
    (Ok (if has_more (next t) then with_truncation (set_depth (truncation t)) t else t)).
Proof. eapply evals_bind; [apply evals_frontier|apply evals_ret]. Qed.

(** *** What the depths establish *)

Notation reported d e := (Build_RustGraphTraceEdge d e).

(** A declaration the trace begins with, or one that some reported relationship leads to. *)
Definition grounds (sbase : list RustGraphDefinitionIdentity) (rs : list RustGraphTraceEdge)
    (v : RustGraphDefinitionIdentity) : Prop :=
  v ∈ sbase ∨ ∃ d e, reported d e ∈ rs ∧ neighbor e = v.

(** Everything met or reported up to depth [k] is on a path from the start, and what is
    reported begins with what was reported before. *)
Record traced (sbase : list RustGraphDefinitionIdentity) (k : nat) (t : Traversal) : Prop := {
  traced_seen : ∀ v, v ∈ seen t → ∃ m, (m ≤ k)%nat ∧ reach edges (req_direction request) (req_edge_kinds request) sbase [] m v;
  traced_results : ∀ d e, reported d e ∈ results t → ∃ m, (m < k)%nat ∧ d = Z.of_nat m + 1 ∧ e ∈ edges ∧
    allowed (req_edge_kinds request) e = true ∧
    reach edges (req_direction request) (req_edge_kinds request) sbase [] m (origin e);
  traced_completed : 0 ≤ maximum_completed_depth t ≤ Z.of_nat k;
  traced_grounded rs1 d e rs2 : results t = rs1 ++ reported d e :: rs2 → grounds sbase rs1 (origin e);
}.

Lemma turn_sound frontier depth t t' : sound t → turn frontier depth t t' → sound t'.
Proof.
  intros Ht (es & x & [_ _ Hle _] & Habs). eapply absorbs_sound, Habs.
  destruct Ht. destruct x; split; simpl; try done; lia.
Qed.

Lemma grounds_app sbase rs1 rs2 v : grounds sbase rs1 v → grounds sbase (rs1 ++ rs2) v.
Proof. intros [?|(d & e & ? & ?)]; [by left|right]. exists d, e. rewrite elem_of_app. auto. Qed.

(** Reporting more relationships that start at grounded declarations. *)
Lemma grounded_app sbase rs depth taken :
  (∀ rs1 d e rs2, rs = rs1 ++ reported d e :: rs2 → grounds sbase rs1 (origin e)) →
  (∀ e, e ∈ taken → grounds sbase rs (origin e)) →
  ∀ rs1 d e rs2, rs ++ map (Build_RustGraphTraceEdge depth) taken = rs1 ++ reported d e :: rs2 →
    grounds sbase rs1 (origin e).
Proof.
  intros H1 H2 rs1 d e rs2 Heq. apply app_eq_app in Heq as (l & [[-> Hl]|[-> Hl]]).
  - destruct l as [|r l]; simpl in Hl.
    + rewrite app_nil_r in *. assert (reported d e ∈ map (Build_RustGraphTraceEdge depth) taken) as Hin
        by (rewrite <- Hl; left).
      apply list_elem_of_fmap in Hin as (e' & [= _ ->] & Hin). auto.
    + injection Hl as <- ->. by eapply H1.
  - apply grounds_app, H2. assert (reported d e ∈ map (Build_RustGraphTraceEdge depth) taken) as Hin
      by (rewrite Hl, elem_of_app; right; left).
    by apply list_elem_of_fmap in Hin as (e' & [= _ ->] & Hin).
Qed.

Lemma turn_traced sbase frontier k t t' :
  turn frontier (Z.of_nat k + 1) t t' → traced sbase k t →
  (∀ v, v ∈ frontier → reach edges (req_direction request) (req_edge_kinds request) sbase [] k v) →
  (∀ v, v ∈ frontier → grounds sbase (results t) v) →
  next t = [] →
  traced sbase (S k) t' ∧
  (∀ v, v ∈ next t' → reach edges (req_direction request) (req_edge_kinds request) sbase [] (S k) v) ∧
  (stop t' = false → ∀ v, v ∈ next t' → grounds sbase (results t') v).
Proof.
  intros (es & x & [Hes _ Hle _] & Habs) [H1 H2 H3 H4] Hf Hg Hn.
  destruct (absorbs_sources _ _ _ _ Habs) as ((taken & Hsub & Hres) & _ & Hs & Hnx).
  pose proof (absorbs_next _ _ _ _ Habs) as Hgn.
  destruct (absorbs_frame _ _ _ _ Habs) as (_ & _ & Hcomp & _).
  assert (∀ v, v ∈ map neighbor es →
    reach edges (req_direction request) (req_edge_kinds request) sbase [] (S k) v) as Hnew.
  { intros v (e & -> & He)%list_elem_of_fmap. apply Hes in He as (? & ? & ?).
    apply ReachStep; auto. apply not_elem_of_nil. }
  assert (seen (spend (length es) x t) = seen t ∧ next (spend (length es) x t) = next t ∧
    results (spend (length es) x t) = results t ∧
    maximum_completed_depth (spend (length es) x t) = maximum_completed_depth t) as (Es & En & Er & Ec)
    by by destruct x.
  rewrite Es, En, Er, Ec, Hn in *. split_and!; [split|..].
  - intros v [(m & ? & ?)%H1|Hv]%Hs; [exists m; split; [lia|done]|exists (S k); auto].
  - intros d e. rewrite Hres, elem_of_app. intros [(m & ? & ?)%H2|He]; [exists m; split; [lia|done]|].
    apply list_elem_of_fmap in He as (e' & [= -> ->] & He).
    apply (elem_of_sublist _ _ _ He), Hes in Hsub as (? & ? & ?). exists k. split_and!; auto.
  - lia.
  - rewrite Hres. apply grounded_app; [done|]. intros e He. apply Hg.
    by apply (elem_of_sublist _ _ _ He), Hes in Hsub as (_ & _ & ?).
  - intros v [Hv|Hv]%Hnx; [|auto]. by apply elem_of_nil in Hv.
  - intros Hst v Hv. destruct (Hgn Hst v Hv) as [?%elem_of_nil|(e & ? & ?)]; [done|right; eauto].
Qed.

(** *** Nothing is left out when there is room *)

(** [es] would not exhaust a budget: [met] and [front] bound the sets. *)
Record room (depth : Z) (met front : list RustGraphDefinitionIdentity)
    (es : list RustGraphTraversalEdge) (t : Traversal) : Prop := {
  room_seen : ∀ v, v ∈ seen t → v ∈ met;
  room_met : ∀ e, e ∈ es → neighbor e ∈ met;
  room_nodes : Z.of_nat (length met) ≤ max_visited_nodes limits;
  room_next : ∀ v, v ∈ next t → v ∈ front;
  room_front : ∀ e, e ∈ es → neighbor e ∉ seen t → neighbor e ∈ front;
  room_frontier : Z.of_nat (length front) ≤ max_frontier limits;
  room_results : Z.of_nat (length (results t) + length es) ≤ max_results limits;
}.

Lemma NoDup_subset_lt (v : RustGraphDefinitionIdentity) xs ys :
  bset_wf xs → v ∉ xs → v ∈ ys → (∀ w, w ∈ xs → w ∈ ys) → (length xs < length ys)%nat.
Proof.
  intros Hwf Hv Hy Hsub. assert (length (v :: xs) ≤ length ys)%nat; [|simpl in *; lia].
  apply submseteq_length, NoDup_submseteq.
  - constructor; [done|by apply bset_wf_NoDup].
  - intros w. rewrite elem_of_cons. naive_solver.
Qed.

Lemma admits_room v t b t1 met front :
  sound t → admits v t b t1 → (∀ w, w ∈ seen t → w ∈ met) → v ∈ met →
  Z.of_nat (length met) ≤ max_visited_nodes limits → (∀ w, w ∈ next t → w ∈ front) →
  (v ∉ seen t → v ∈ front) → Z.of_nat (length front) ≤ max_frontier limits →
  b = true ∧ truncation t1 = truncation t ∧
  (∀ w, w ∈ seen t1 → w ∈ met) ∧ (∀ w, w ∈ next t1 → w ∈ front) ∧ (∀ w, w ∈ seen t → w ∈ seen t1).
Proof.
  intros Ht Hadm Hs Hv Hm Hn Hf Hl. destruct Hadm as [Hin|Hnin Hfull|Hnin Hlt Hfull|Hnin Hlt Hlt2].
  - done.
  - exfalso. pose proof (NoDup_subset_lt v (seen t) met (sound_seen _ Ht) Hnin Hv Hs). lia.
  - exfalso. assert (v ∉ next t) as Hnn by (intros ?%(sound_next_seen _ Ht); done).
    pose proof (NoDup_subset_lt v (next t) front (sound_next _ Ht) Hnn (Hf Hnin) Hn). lia.
  - simpl. split_and!; try done; intros w; rewrite ?elem_of_bset_insert; naive_solver.
Qed.

Lemma absorbs_room depth met front es t t' :
  sound t → absorbs depth t es t' → room depth met front es t → (∀ e, e ∈ es → origin e ∈ seen t) →
  clean (truncation t') = clean (truncation t).
Proof.
  assert (∀ t e es t1 b, sound t → admits (neighbor e) t b t1 → room depth met front (e :: es) t →
    b = true ∧ truncation t1 = truncation t ∧ (∀ w, w ∈ seen t → w ∈ seen t1) ∧ results t1 = results t ∧
    (Z.of_nat (length (results t)) < max_results limits) ∧
    (∀ t2, seen t2 = seen t1 → next t2 = next t1 → length (results t2) = S (length (results t)) →
      room depth met front es t2)) as Hadm.
  { clear. intros t e es t1 b Ht Hadm [H1 H2 H3 H4 H5 H6 H7].
    destruct (admits_room _ _ _ _ met front Ht Hadm) as (-> & Htr & Hs & Hn & Hm); try done.
    - apply H2. left.
    - apply H5. left.
    - destruct (admits_results _ _ _ _ Hadm) as [Hr _]. simpl in H7. split_and!; try done; [lia|].
      intros t2 Es En Er. split; try done; rewrite ?Es, ?En, ?Er; try done.
      + intros e' He'. apply H2. by right.
      + intros e' He' Hnin. apply H5; [by right|]. intros Hin. by apply Hnin, Hm.
      + lia. }
  intros Ht Habs. induction Habs as [t|t e es t' Ho Habs IH|t e es t1 t' H1 Habs IH|t e es t1 H1 Hr|t e es t1 t' Ho H1 Hr Hout Habs IH];
    intros Hroom Hos.
  - done.
  - destruct Ho. apply Hos. left.
  - by destruct (Hadm _ _ _ _ _ Ht H1 Hroom).
  - destruct (Hadm _ _ _ _ _ Ht H1 Hroom) as (_ & _ & _ & Hr1 & Hlt & _). rewrite Hr1 in Hr. lia.
  - destruct (Hadm _ _ _ _ _ Ht H1 Hroom) as (_ & Htr & Hmono & Hr1 & Hlt & Hnext).
    rewrite IH; simpl; [by rewrite Htr|..].
    + apply pushed_sound; [by eapply admits_sound|done..].
    + apply Hnext; [done..|]. simpl. rewrite length_app, Hr1. simpl. lia.
    + intros e' He'. apply Hmono, Hos. by right.
Qed.

(** Flags are never lowered. *)
Lemma absorbs_clean_mono depth t es t' :
  absorbs depth t es t' → clean (truncation t') = true → clean (truncation t) = true.
Proof.
  assert (∀ v t b t1, admits v t b t1 → clean (truncation t1) = true → clean (truncation t) = true) as Hadm.
  { intros v t0 b t1 []; unfold clean; simpl; rewrite ?andb_false_r; try done. }
  induction 1; intros Hc; eauto.
  eapply Hadm; [done|]. unfold clean in *. simpl in Hc. by rewrite andb_false_r in Hc.
Qed.

Lemma spend_clean n x t : clean (truncation (spend n x t)) = true → x = false ∧ clean (truncation t) = true.
Proof.
  destruct x; [|done]. unfold clean, spend. simpl. rewrite andb_false_r. done.
Qed.

Lemma spend_sound n x t :
  sound t → visited_edges t + Z.of_nat n ≤ max_visited_edges limits → sound (spend n x t).
Proof. intros [] Hle. destruct x; split; simpl; try done; lia. Qed.

(** *** The levels of the reference, turn by turn *)

Context (base avoid : list RustGraphDefinitionIdentity) (k0 : nat)
  (reported0 : list RustGraphTraceEdge) (completed0 : Z).

Notation levels := (levels edges (req_direction request) (req_edge_kinds request) base avoid).
Notation first := (Z.of_nat k0 + 1).
Notation reference :=
  (reference_results edges (req_direction request) (req_edge_kinds request) base avoid first).

(** How many of the first [n] levels there is something on. *)
Definition inhabited_levels (n : nat) : nat := length (filter (λ m, (levels m).1 ≠ []) (seq 0 n)).

Lemma inhabited_levels_full n : (levels n).1 ≠ [] → inhabited_levels (S n) = S n.
Proof.
  intros Hn. unfold inhabited_levels. rewrite filter_all_true, length_seq; [done|].
  intros m Hm%elem_of_seq Hl.
  apply Hn. by destruct (level_nil _ _ _ _ _ m n ltac:(lia) Hl).
Qed.

Lemma inhabited_levels_end n k : (n ≤ k)%nat → (levels n).1 = [] → inhabited_levels k = inhabited_levels n.
Proof.
  intros Hle Hn. unfold inhabited_levels. replace k with (n + (k - n))%nat by lia.
  rewrite seq_app, filter_app, (filter_all_false _ (seq (0 + n) _)), app_nil_r; [done|].
  rewrite Forall_forall. intros m Hm%elem_of_seq Hl.
  apply Hl. by destruct (level_nil _ _ _ _ _ n m ltac:(lia) Hn).
Qed.

(** While nothing is left out, the traversal is the reference. *)
Record exact (n : nat) (t : Traversal) : Prop := {
  exact_stop : stop t = false;
  exact_seen : seen t = (levels n).2;
  exact_results : results t = reported0 ++ reference n;
  exact_visited : visited_edges t = Z.of_nat (length (results t));
  exact_completed : maximum_completed_depth t = completed0 + Z.of_nat (inhabited_levels n);
}.

Lemma turn_exact n frontier t t' :
  sound t → next t = [] → turn frontier (first + Z.of_nat n) t t' → clean (truncation t') = true →
  (clean (truncation t) = true → exact n t ∧ frontier = (levels n).1) →
  frontier ≠ [] → (base ≠ [] → completed0 = Z.of_nat k0) →
  let t2 := if negb (stop t') then with_completed (first + Z.of_nat n) t' else t' in
  exact (S n) t2 ∧ next t2 = (levels (S n)).1 ∧ clean (truncation t) = true.
Proof.
  intros Ht Hnext (es & x & [Hes Hall Hle _] & Habs) Hc Hex Hne Hbase.
  destruct (spend_clean _ _ _ (absorbs_clean_mono _ _ _ _ Habs Hc)) as [-> Hct].
  destruct (Hex Hct) as [[H1 H2 H3 H4 H5] ->]. rewrite (Hall eq_refl) in *. clear Hall Hex.
  destruct (absorbs_frame _ _ _ _ Habs) as (_ & Hv & _ & _).
  destruct (absorbs_clean _ _ _ _ (spend_sound _ _ _ Ht Hle) Habs) as (_ & Hst & Hr & Hs & Hn); [|done|].
  { intros e (_ & _ & Ho)%Hes. simpl. rewrite H2. by apply level_incl. }
  pose proof (absorbs_sound _ _ _ _ (spend_sound _ _ _ Ht Hle) Habs) as Ht'.
  simpl in *. rewrite Hst, H1. simpl.
  assert (seen t' = (levels (S n)).2) as Hseen.
  { apply bset_ext; [apply Ht'|apply levels_wf|]. intros v. rewrite Hs, H2.
    rewrite (proj2 (levels_S _ _ _ _ _ n v)), (proj1 (levels_S _ _ _ _ _ n v)), list_elem_of_fmap.
    destruct (decide (v ∈ (levels n).2)); naive_solver. }
  split_and!; [split; simpl; try done|..|done].
  - by rewrite Hst.
  - by rewrite Hr, H3, reference_results_S, <- app_assoc.
  - rewrite Hv, H4, Hr, length_app, length_map. lia.
  - rewrite inhabited_levels_full by done. rewrite Hbase; [lia|].
    intros ->. apply Hne. by destruct (level_nil edges (req_direction request) (req_edge_kinds request) [] avoid 0 n ltac:(lia) eq_refl).
  - apply bset_ext; [apply Ht'|apply levels_wf|]. intros v. rewrite Hn, Hnext, elem_of_nil, H2.
    rewrite (proj1 (levels_S _ _ _ _ _ n v)), list_elem_of_fmap. naive_solver.
Qed.

(** The budgets are enough for the reference down to level [n]. *)
Record fits (n : nat) : Prop := {
  fits_nodes : Z.of_nat (length (levels n).2) ≤ max_visited_nodes limits;
  fits_frontier m : (m ≤ n)%nat → Z.of_nat (length (levels m).1) ≤ max_frontier limits;
  fits_results : Z.of_nat (length (reported0 ++ reference n)) ≤ max_results limits;
  fits_edges : Z.of_nat (length (reported0 ++ reference n)) ≤ max_visited_edges limits;
  fits_output : TRACE_OUTPUT_FIXED_BYTES + trace_size (reported0 ++ reference n) ≤ max_output_bytes limits;
}.

Lemma turn_fits N n t es x :
  fits N → (n < N)%nat → sound t → next t = [] → exact n t → chosen (levels n).1 t es x →
  x = false ∧ es = level (levels n).1 ∧
  room (first + Z.of_nat n) (levels N).2 (levels (S n)).1 es (spend (length es) x t) ∧
  output_bytes t + trace_size (map (Build_RustGraphTraceEdge (first + Z.of_nat n)) es) ≤ max_output_bytes limits.
Proof.
  intros [F1 F2 F3 F4 F5] Hn Ht Hnext [H1 H2 H3 H4 H5] [_ Hall _ Hex].
  destruct (reference_results_prefix edges (req_direction request) (req_edge_kinds request) base avoid
    first (S n) N ltac:(lia)) as [rest Hrest].
  rewrite reference_results_S in Hrest. unfold level_results in Hrest.
  rewrite Hrest, app_assoc, app_assoc, <- H3, !length_app, length_map in *.
  rewrite !trace_size_app in F5. pose proof (trace_size_nonneg rest).
  destruct x; [specialize (Hex eq_refl); lia|]. rewrite (Hall eq_refl). split_and!; [done|done|split|].
  - intros v. simpl. rewrite H2. apply levels_mono. lia.
  - intros e He. apply (levels_mono _ _ _ _ _ (S n)); [lia|].
    apply (levels_S _ _ _ _ _ n). destruct (decide (neighbor e ∈ (levels n).2)); [by left|].
    right. apply (levels_S _ _ _ _ _ n). eauto.
  - done.
  - simpl. rewrite Hnext. intros v Hv. by apply elem_of_nil in Hv.
  - intros e He. simpl. rewrite H2. intros Hnin. apply (levels_S _ _ _ _ _ n). eauto.
  - apply F2. lia.
  - simpl. lia.
  - rewrite (sound_accounting _ Ht). lia.
Qed.

(** *** The depths *)

Context (sbase : list RustGraphDefinitionIdentity) (Hbase : base ≠ [] → completed0 = Z.of_nat k0).

Notation reaches := (reach edges (req_direction request) (req_edge_kinds request) sbase []).

(** The state before the turn that reports level [n]. *)
Record at_level (n : nat) (t : Traversal) : Prop := {
  at_sound : sound t;
  at_next : next t = [];
  at_frontier : bset_wf (current t);
  at_traced : traced sbase (k0 + n) t;
  at_reach v : v ∈ current t → reaches (k0 + n) v;
  at_exact : clean (truncation t) = true → exact n t ∧ current t = (levels n).1;
  at_flag : trunc_depth (truncation t) = false;
  at_grounded : stop t = false → ∀ v, v ∈ current t → grounds sbase (results t) v;
}.

(** The state after the levels before [n]. *)
Record outcome (n : nat) (t : Traversal) : Prop := {
  outcome_sound : sound t;
  outcome_traced : traced sbase (k0 + n) t;
  outcome_exact : clean (truncation t) = true → exact n t;
  outcome_flag : trunc_depth (truncation t) = true →
    ∃ e, e ∈ edges ∧ allowed (req_edge_kinds request) e = true ∧ reaches (k0 + n) (origin e);
  outcome_flag_exact : clean (truncation t) = true →
    trunc_depth (truncation t) = negb (bool_decide (level (levels n).1 = []));
}.

Lemma traced_mono j k t : (j ≤ k)%nat → traced sbase j t → traced sbase k t.
Proof.
  intros Hle [H1 H2 H3 H4]. split; [..|done].
  - intros v (m & ? & ?)%H1. exists m. split; [lia|done].
  - intros d e (m & ? & ?)%H2. exists m. split; [lia|done].
  - lia.
Qed.

(** Nothing left to follow. *)
Lemma outcome_early n N t :
  (n ≤ N)%nat → at_level n t → current t = [] ∨ stop t = true → outcome N t.
Proof.
  intros Hle [Hs Hn Hf Ht Hr Hx Hd _] Hend.
  assert (clean (truncation t) = true → exact n t ∧ (levels n).1 = []) as Hcl.
  { intros Hc. destruct (Hx Hc) as [He Hl]. split; [done|]. rewrite <- Hl.
    destruct Hend as [|Hst]; [done|]. by rewrite (exact_stop _ _ He) in Hst. }
  split; [done|eapply traced_mono; [|done]; lia|..].
  - intros [[H1 H2 H3 H4 H5] Hl]%Hcl.
    pose proof (level_nil edges (req_direction request) (req_edge_kinds request) base avoid n N Hle Hl) as [_ Hm].
    split; [done|by rewrite Hm|..|done|].
    + by rewrite (reference_results_end _ _ _ _ _ _ n N).
    + by rewrite (inhabited_levels_end n N).
  - by rewrite Hd.
  - intros [_ Hl]%Hcl. rewrite Hd.
    destruct (level_nil edges (req_direction request) (req_edge_kinds request) base avoid n N Hle Hl) as [-> _].
    by rewrite level_edges_nil.
Qed.

Lemma has_more_level ds : has_more ds = negb (bool_decide (level ds = [])).
Proof.
  destruct (has_more ds) eqn:Hm.
  - apply has_more_spec in Hm as (e & He). case_bool_decide as Hl; [|done].
    apply elem_of_level_edges in He. rewrite Hl in He. by apply elem_of_nil in He.
  - case_bool_decide as Hl; [done|]. exfalso.
    destruct (level ds) as [|e l] eqn:E; [done|].
    assert (e ∈ level ds) as He%elem_of_level_edges by (rewrite E; left).
    by rewrite (proj2 (has_more_spec ds) (ex_intro _ e He)) in Hm.
Qed.

Lemma turn_wp N n t (rest : Traversal → trace_ctl Traversal) Q :
  let R := λ e, e = OutputLimitExceeded ∧ ¬ fits N in
  at_level n t → stop t = false → (n < N)%nat → (fits N → clean (truncation t) = true) →
  (∀ t', turn (current t) (first + Z.of_nat n) (with_current [] t) t' →
    (fits N → clean (truncation t') = true) → wp (rest t') Q R) →
  wp ('(selected, t) ← select_frontier request admitted (current t) [] (with_current [] t);
      selected ← cancellable_sort compare_relationship selected;
      t ← process_selected_edges request selected (first + Z.of_nat n) t;
      rest t) Q R.
Proof.
  intros R [Hs Hn Hf Ht Hr Hx Hd _] Hstop HN Hfits Hrest. set (t0 := with_current [] t).
  assert (sound t0) as Hs0 by by destruct Hs.
  eapply wp_bind; [apply select_frontier_wp; [apply Hs0|done]|].
  intros ? (taken & x & -> & Htakes). cbv beta iota. rewrite app_nil_l.
  pose proof (chosen_of_taken (current t) taken x t0 (bset_wf_NoDup _ Hf) Htakes) as Hch.
  pose proof (chosen_budget _ _ _ _ Hch) as Hle. rewrite length_sort_by in Hle.
  eapply wp_evals_bind.
  { apply evals_cancellable_sort_unique; [apply _| |intros ????; apply compare_relationship_eq].
    destruct Hlimits as (_ & _ & _ & _ & _ & ? & _). pose proof (sound_visited _ Hs0).
    unfold MAX_VISITED_EDGES, u64_max in *. lia. }
  set (es := sort_by compare_relationship taken) in *.
  rewrite <- (length_sort_by compare_relationship taken : length es = _).
  assert (fits N → x = false ∧ room (first + Z.of_nat n) (levels N).2 (levels (S n)).1 es (spend (length es) x t0) ∧
    (∀ e, e ∈ es → origin e ∈ seen t) ∧ clean (truncation t) = true ∧
    output_bytes t + trace_size (map (Build_RustGraphTraceEdge (first + Z.of_nat n)) es) ≤ max_output_bytes limits) as Hroom.
  { intros HF. specialize (Hfits HF). destruct (Hx Hfits) as [He Hl]. rewrite Hl in Hch.
    assert (exact n t0) as He0 by by destruct He.
    destruct (turn_fits N n t0 es x HF HN Hs0 Hn He0 Hch) as (-> & _ & Hrm & Hout). split_and!; [done..| |done|done].
    intros e (_ & _ & Ho)%(chosen_from _ _ _ _ Hch). rewrite (exact_seen _ _ He). by apply level_incl. }
  eapply wp_bind.
  - apply process_selected_edges_wp.
    + apply spend_sound; [done|]. unfold es. by rewrite length_sort_by.
    + rewrite Forall_forall. intros e (He & _)%(chosen_from _ _ _ _ Hch). by eapply Forall_forall in Hrep.
    + intros Hgt. split; [done|]. intros (_ & _ & _ & _ & Hout)%Hroom. destruct x; simpl in Hgt; lia.
  - intros t' Habs. apply Hrest; [by exists es, x|]. intros (-> & Hrm & Hos & Hc & _)%Hroom.
    rewrite (absorbs_room _ _ _ _ _ _ (spend_sound _ _ _ Hs0 (chosen_budget _ _ _ _ Hch)) Habs Hrm); [done|exact Hos].
Qed.

(** After a turn: the next level is at hand. *)
Lemma turn_level n t t' :
  at_level n t → stop t = false → current t ≠ [] →
  turn (current t) (first + Z.of_nat n) (with_current [] t) t' →
  let t2 := if negb (stop t') then with_completed (first + Z.of_nat n) t' else t' in
  sound t2 ∧ traced sbase (k0 + S n) t2 ∧ (∀ v, v ∈ next t2 → reaches (k0 + S n) v) ∧
  (clean (truncation t2) = true → exact (S n) t2 ∧ next t2 = (levels (S n)).1) ∧
  trunc_depth (truncation t2) = false ∧
  (stop t2 = false → ∀ v, v ∈ next t2 → grounds sbase (results t2) v).
Proof.
  intros [Hs Hn Hf Ht Hr Hx Hd Hg] Hstop Hne Hturn t2.
  assert (sound (with_current [] t)) as Hs0 by by destruct Hs.
  assert (sound t') as Hs' by by eapply turn_sound.
  assert (traced sbase (k0 + n) (with_current [] t)) as Ht0 by by destruct Ht.
  assert (first + Z.of_nat n = Z.of_nat (k0 + n) + 1) as Hk by lia.
  destruct (turn_traced sbase (current t) (k0 + n) (with_current [] t) t') as (Ht' & Hnew & Hgn);
    [by rewrite <- Hk|done|done|by apply Hg|done|]. rewrite <- Nat.add_succ_r in Ht', Hnew.
  assert (clean (truncation t') = true → exact (S n) t2 ∧ next t2 = (levels (S n)).1) as Hex.
  { intros Hc. destruct (turn_exact n (current t) _ _ Hs0 Hn Hturn Hc) as (? & ? & _); [|done..].
    intros Hct. destruct (Hx Hct) as [[] ?]. done. }
  assert (trunc_depth (truncation t') = false) as Hflag.
  { destruct Hturn as (es & x & _ & Habs). destruct (absorbs_frame _ _ _ _ Habs) as (_ & _ & _ & ->).
    rewrite <- Hd. by destruct x. }
  unfold t2 in *. destruct (stop t') eqn:Hst'; cbn [negb] in *; [by rewrite Hst'|]. split_and!.
  - by destruct Hs'.
  - destruct Ht'. split; [done|done| |done]. simpl. lia.
  - done.
  - done.
  - done.
  - intros _. by apply Hgn.
Qed.

(** The depth flag is raised when the next level would have something to report. *)
Lemma outcome_last n t :
  sound t → traced sbase (k0 + n) t → (∀ v, v ∈ next t → reaches (k0 + n) v) →
  (clean (truncation t) = true → exact n t ∧ next t = (levels n).1) →
  trunc_depth (truncation t) = false →
  let t' := if has_more (next t) then with_truncation (set_depth (truncation t)) t else t in
  outcome n t' ∧ clean (truncation t') = clean (truncation t).
Proof.
  intros Hs Ht Hnx Hex Hflag t'. unfold t'. split; [|by destruct (has_more _)].
  destruct (has_more (next t)) eqn:Hm.
  - split; simpl.
    + by destruct Hs.
    + by destruct Ht.
    + intros Hc. destruct (Hex Hc) as [[] _]. done.
    + intros _. apply has_more_spec in Hm as (e & He & Ha & Ho). eauto.
    + intros Hc. destruct (Hex Hc) as [_ <-]. by rewrite <- has_more_level.
  - split; try done.
    + intros Hc. by apply Hex.
    + by rewrite Hflag.
    + intros Hc. destruct (Hex Hc) as [_ <-]. by rewrite <- has_more_level, Hm.
Qed.

Lemma run_from_depth_wp turns n t :
  (0 < turns)%nat → max_depth limits = Z.of_nat (k0 + (n + turns)) → at_level n t →
  (fits (n + turns) → clean (truncation t) = true) →
  wp (run_from_depth request admitted turns (first + Z.of_nat n) t)
    (λ t', outcome (n + turns) t' ∧ (fits (n + turns) → clean (truncation t') = true))
    (λ e, e = OutputLimitExceeded ∧ ¬ fits (n + turns)).
Proof.
  revert n t. induction turns as [|turns IH]; intros n t Hpos Hmax Hat Hfits; [lia|].
  cbn [run_from_depth]. apply wp_check_bind.
  case_bool_decide as Hcur; cbn [orb].
  { apply wp_ret. split; [|done]. eapply (outcome_early n); [lia|done|by left]. }
  destruct (stop t) eqn:Hstop.
  { apply wp_ret. split; [|done]. eapply (outcome_early n); [lia|done|by right]. }
  eapply turn_wp; [done..|lia|done|]. intros t' Hturn Hfits'.
  pose proof (turn_level n t t' Hat Hstop Hcur Hturn) as Hlevel. cbv zeta in Hlevel.
  assert (clean (truncation (if negb (stop t') then with_completed (first + Z.of_nat n) t' else t')) =
    clean (truncation t')) as Hcl by by destruct (stop t').
  set (t2 := if negb (stop t') then _ else _) in *. destruct Hlevel as (Hs & Ht & Hnx & Hex & Hflag & Hgn).
  destruct (_ =? max_depth limits) eqn:Hlast.
  - assert (turns = 0%nat) as -> by lia. replace (n + 1)%nat with (S n) in * by lia.
    eapply wp_evals; [apply evals_note_depth|].
    destruct (outcome_last (S n) t2 Hs Ht Hnx Hex Hflag) as [Hout Hclean].
    split; [exact Hout|]. rewrite Hclean, Hcl. exact Hfits'.
  - replace (n + S turns)%nat with (S n + turns)%nat in * by lia.
    replace (first + Z.of_nat n + 1) with (first + Z.of_nat (S n)) by lia.
    apply IH; [lia|lia| |].
    + split; simpl; try done.
      * destruct Hs. split; simpl; try done; [apply bset_nil_wf|lia|by intros v ?%elem_of_nil].
      * apply Hs.
      * by destruct Ht.
      * intros Hc. destruct (Hex Hc) as [[] ?]. done.
    + intros HF. simpl. rewrite Hcl. auto.
Qed.
End loops.
