(* ===== verification/TraceProperties.v ===== *)
(** * Traces as wholes

    The two starts of a traversal put together with [TraceLoops], and the properties of
    [trace_rust_graph]. *)

From Stdlib Require Import ZArith Lia ZifyBool.
From stdpp Require Import base numbers sorting list.
From S2P Require Import Prelude Ordering GraphIdentity TraceSort Trace TraceReference TraceLoops.

Open Scope Z_scope.

(** ** The two starts *)

Section starts.
Context (request : RustGraphTraceRequest).
Context (Hlimits : limits_ok (req_limits request)).
Context (Hrep : Forall representable (req_edges request)).

Notation edges := (req_edges request).
Notation direction := (req_direction request).
Notation kinds := (req_edge_kinds request).
Notation limits := (req_limits request).
Notation origin := (oriented_origin direction).
Notation neighbor := (oriented_neighbor direction).

(** The allowed relationships of a site, in the order of the trace. *)
Definition site_level (s : RustGraphSiteIdentity) : list RustGraphTraversalEdge :=
  sort_by compare_relationship (filter (λ e, allowed kinds e = true ∧ edge_site e = s) edges).

Lemma elem_of_site_level s e :
  e ∈ site_level s ↔ e ∈ edges ∧ allowed kinds e = true ∧ edge_site e = s.
Proof. unfold site_level. rewrite sort_by_perm, list_elem_of_filter. tauto. Qed.

(** Where the levels begin.  A site is reported by itself at depth 1, and the declarations
    it is reported to start from are met without being followed. *)
Definition start_skip : nat :=
  match req_start request with StartDefinition _ => 0 | StartSite _ => 1 end.
Definition start_reported : list RustGraphTraceEdge :=
  match req_start request with
  | StartDefinition _ => []
  | StartSite s => map (Build_RustGraphTraceEdge 1) (site_level s)
  end.
Definition start_completed : Z := if decide (start_reported = []) then 0 else 1.
(** The declarations the start begins with. *)
Definition start_origins : list RustGraphDefinitionIdentity :=
  match req_start request with
  | StartDefinition d => [d]
  | StartSite s => map origin (site_level s)
  end.
Definition start_avoid : list RustGraphDefinitionIdentity :=
  match req_start request with StartDefinition _ => [] | StartSite _ => start_origins end.
Definition start_base : list RustGraphDefinitionIdentity :=
  match req_start request with
  | StartDefinition d => [d]
  | StartSite s => filter (λ v, v ∉ start_origins) (map neighbor (site_level s))
  end.

Lemma start_base_completed : start_base ≠ [] → start_completed = Z.of_nat start_skip.
Proof.
  unfold start_base, start_completed, start_reported, start_skip.
  destruct (req_start request) as [d|s]; [by rewrite decide_True by done|].
  intros H. rewrite decide_False; [done|]. intros Hn%fmap_nil_inv. by rewrite Hn in H.
Qed.

Notation at_level := (at_level request start_base start_avoid start_skip start_reported start_completed start_origins).
Notation outcome := (outcome request start_base start_avoid start_skip start_reported start_completed start_origins).
Notation fits := (fits request start_base start_avoid start_skip start_reported).

(** *** The origins of a site *)

Lemma admit_origin_cases e t :
  sound request t →
  (origin e ∈ seen t ∧ admit_origin request t e = t) ∨
  (origin e ∉ seen t ∧ Z.of_nat (length (seen t)) = max_visited_nodes limits ∧
    admit_origin request t e = with_truncation (set_visited_nodes (truncation t)) t) ∨
  (origin e ∉ seen t ∧ sound request (with_seen (bset_insert (origin e) (seen t)) t) ∧
    admit_origin request t e = with_seen (bset_insert (origin e) (seen t)) t).
Proof.
  intros Ht. pose proof Ht as [Hs Hn Hnodes Hf Hr Hv Ha Ho Hi]. unfold admit_origin.
  destruct (bset_mem (origin e) (seen t)) eqn:Hm; [left; by apply bset_mem_spec in Hm|right].
  apply bset_mem_false in Hm; [|done]. unfold admit_node, u64_of_len.
  destruct Hlimits as (_ & _ & _ & _ & Hmax & _).
  rewrite checked_in by (unfold MAX_VISITED_NODES, u64_max in *; lia). simpl.
  destruct (_ <=? Z.of_nat (length (seen t))) eqn:Hb; simpl; [left; split_and!; [done|lia|done]|].
  right. split_and!; [done| |done]. split; simpl; try done.
  - by apply bset_insert_wf.
  - rewrite length_bset_insert by done. lia.
  - intros v Hv'. apply elem_of_bset_insert. auto.
Qed.

Lemma admit_origins (met : list RustGraphDefinitionIdentity) es t :
  sound request t →
  let t' := foldl (admit_origin request) t es in
  sound request t' ∧
  (∃ s r, t' = with_truncation r (with_seen s t) ∧ trunc_depth r = trunc_depth (truncation t)) ∧
  (∀ v, v ∈ seen t' → v ∈ seen t ∨ v ∈ map origin es) ∧
  (clean (truncation t') = true →
    clean (truncation t) = true ∧ ∀ v, v ∈ seen t' ↔ v ∈ seen t ∨ v ∈ map origin es) ∧
  ((∀ v, v ∈ seen t → v ∈ met) → (∀ e, e ∈ es → origin e ∈ met) →
    Z.of_nat (length met) ≤ max_visited_nodes limits → clean (truncation t') = clean (truncation t)).
Proof.
  revert t. induction es as [|e es IH]; intros t Ht; simpl.
  { split_and!; [done|exists (seen t), (truncation t); by destruct t|auto| |done].
    intros Hc. split; [done|]. intros v. rewrite elem_of_nil. tauto. }
  destruct (admit_origin_cases e t Ht) as [[Hin ->]|[(Hnin & Hfull & ->)|(Hnin & Ht1 & ->)]].
  - destruct (IH t Ht) as (Hs & Hfr & Hsrc & Hcl & Hroom). split_and!; [done|done|..].
    + intros v [?|?]%Hsrc; rewrite elem_of_cons; auto.
    + intros Hc. destruct (Hcl Hc) as [? Hiff]. split; [done|]. intros v. rewrite Hiff, elem_of_cons. naive_solver.
    + intros H1 H2 H3. apply Hroom; [done| |done]. intros e' He'. apply H2. by right.
  - destruct (IH (with_truncation (set_visited_nodes (truncation t)) t)) as (Hs & (s & r & Heq & Hr) & Hsrc & Hcl & Hroom);
      [by destruct Ht|]. simpl in *. split_and!; [done|exists s, r; rewrite Heq; by destruct t|..].
    + intros v [?|?]%Hsrc; rewrite elem_of_cons; auto.
    + intros Hc. by destruct (Hcl Hc).
    + intros H1 H2 H3. exfalso.
      pose proof (NoDup_subset_lt (origin e) (seen t) met (sound_seen _ _ Ht) Hnin (H2 e ltac:(left)) H1). lia.
  - destruct (IH _ Ht1) as (Hs & (s & r & Heq & Hr) & Hsrc & Hcl & Hroom). simpl in *. split_and!.
    + done.
    + exists s, r. rewrite Heq. by destruct t.
    + intros v [Hv|Hv]%Hsrc; rewrite elem_of_cons; [apply elem_of_bset_insert in Hv|]; tauto.
    + intros Hc. destruct (Hcl Hc) as [? Hiff]. split; [done|]. intros v.
      rewrite Hiff, elem_of_bset_insert, elem_of_cons. tauto.
    + intros H1 H2 H3. apply Hroom; [|intros e' He'; apply H2; by right|done].
      intros v [->|?]%elem_of_bset_insert; [|auto]. apply H2. left.
Qed.

(** *** The first depth of a site *)

Notation levels := (levels edges direction kinds start_base start_avoid).
Notation reaches := (reach edges direction kinds start_origins []).

(** The relationships of a site chosen within the budget. *)
Record site_chosen (s : RustGraphSiteIdentity) (es : list RustGraphTraversalEdge) (x : bool) : Prop := {
  site_from e : e ∈ es → e ∈ site_level s;
  site_all : x = false → es = site_level s;
  site_budget : Z.of_nat (length es) ≤ max_visited_edges limits;
  site_exhausted : x = true → max_visited_edges limits < Z.of_nat (length (site_level s));
}.

Lemma site_chosen_of_taken s taken x t :
  visited_edges t = 0 ->
  takes request (filter (λ e, allowed kinds e = true) (matching_site (admitted_of edges) s)) taken x t →
  site_chosen s (sort_by compare_relationship taken) x.
Proof.
  intros Hv (Hp & Hx & Hle & Hex). rewrite Hv in Hle, Hex.
  assert (filter (λ e, allowed kinds e = true) (matching_site (admitted_of edges) s) ≡ₚ
    filter (λ e, allowed kinds e = true ∧ edge_site e = s) edges) as Hm.
  { by rewrite matching_site_filter, list_filter_filter. }
  split.
  - intros e. rewrite sort_by_perm. intros He. apply (elem_of_prefix _ _ _ He) in Hp.
    unfold site_level. by rewrite sort_by_perm, <- Hm.
  - intros Hx'. rewrite (Hx Hx'). apply sort_by_Permutation; [apply _|apply compare_relationship_eq|done].
  - rewrite length_sort_by. lia.
  - intros Hx'%Hex. unfold site_level. rewrite length_sort_by, <- Hm. lia.
Qed.

(** The traversal as it begins. *)
Record fresh (t : Traversal) : Prop := {
  fresh_sound : sound request t;
  fresh_seen : seen t = [];
  fresh_next : next t = [];
  fresh_results : results t = [];
  fresh_visited : visited_edges t = 0;
  fresh_completed : maximum_completed_depth t = 0;
  fresh_truncation : truncation t = truncation_default;
  fresh_stop : stop t = false;
}.

(** The selected relationships of a site, absorbed. *)
Definition site_state (x : bool) (es : list RustGraphTraversalEdge) (t : Traversal) : Traversal :=
  foldl (admit_origin request) (spend (length es) x t) es.

Lemma site_state_frame s x es t :
  fresh t → site_chosen s es x →
  sound request (site_state x es t) ∧ next (site_state x es t) = [] ∧ results (site_state x es t) = [] ∧
  visited_edges (site_state x es t) = Z.of_nat (length es) ∧
  maximum_completed_depth (site_state x es t) = 0 ∧ stop (site_state x es t) = x ∧
  trunc_depth (truncation (site_state x es t)) = false ∧
  (∀ v, v ∈ seen (site_state x es t) → v ∈ map origin es) ∧
  (clean (truncation (site_state x es t)) = true →
    x = false ∧ ∀ v, v ∈ seen (site_state x es t) ↔ v ∈ map origin es).
Proof.
  intros [F1 F2 F3 F4 F5 F6 F7 F8] [_ _ Hle _].
  assert (sound request (spend (length es) x t)) as Hs by (apply spend_sound; [done|lia]).
  destruct (admit_origins [] es _ Hs) as (H1 & (sn & r & Heq & Hr) & H2 & H3 & _).
  assert (seen (spend (length es) x t) = seen t ∧ next (spend (length es) x t) = next t ∧
    results (spend (length es) x t) = results t ∧
    maximum_completed_depth (spend (length es) x t) = maximum_completed_depth t ∧
    trunc_depth (truncation (spend (length es) x t)) = trunc_depth (truncation t))
    as (Es & En & Er & Ec & Ed) by by destruct x.
  unfold site_state. split_and!; [done|by rewrite Heq; simpl; rewrite En|by rewrite Heq; simpl; rewrite Er|..].
  - rewrite Heq. transitivity (visited_edges (spend (length es) x t)); [done|].
    rewrite spend_visited. lia.
  - rewrite Heq. simpl. by rewrite Ec.
  - rewrite Heq. by apply (spend_stop _ x).
  - rewrite Heq. simpl. by rewrite Hr, Ed, F7.
  - intros v [Hv|?]%H2; [|done]. exfalso.
    rewrite Es, F2 in Hv. by apply elem_of_nil in Hv.
  - intros [Hc Hiff]%H3. apply spend_clean in Hc as [-> _]. split; [done|]. intros v. rewrite Hiff.
    simpl. rewrite F2, elem_of_nil. tauto.
Qed.

(** What holds when a level's declarations wait in [next]. *)
Record waiting (n : nat) (t : Traversal) : Prop := {
  waiting_sound : sound request t;
  waiting_traced : traced request start_origins (start_skip + n) t;
  waiting_next v : v ∈ next t → reaches (start_skip + n) v;
  waiting_exact : clean (truncation t) = true →
    exact request start_base start_avoid start_skip start_reported start_completed n t ∧
    next t = (levels n).1;
  waiting_flag : trunc_depth (truncation t) = false;
  waiting_grounded : stop t = false → ∀ v, v ∈ next t → grounds request start_origins (results t) v;
}.

Context (s : RustGraphSiteIdentity) (Hstart : req_start request = StartSite s).

Lemma site_origins : start_origins = map origin (site_level s).
Proof. unfold start_origins. by rewrite Hstart. Qed.
Lemma site_avoid : start_avoid = map origin (site_level s).
Proof. unfold start_avoid. rewrite Hstart. apply site_origins. Qed.
Lemma site_reported : start_reported = map (Build_RustGraphTraceEdge 1) (site_level s).
Proof. unfold start_reported. by rewrite Hstart. Qed.
Lemma site_skip : start_skip = 1%nat.
Proof. unfold start_skip. by rewrite Hstart. Qed.

Lemma elem_of_site_base v : v ∈ start_base ↔ v ∉ start_avoid ∧ v ∈ map neighbor (site_level s).
Proof.
  unfold start_base, start_avoid. rewrite Hstart. by rewrite list_elem_of_filter.
Qed.

Lemma site_traced es x t t' :
  fresh t → site_chosen s es x → absorbs request 1 (site_state x es t) es t' →
  traced request start_origins 1 t' ∧ maximum_completed_depth t' = 0 ∧
  (∀ v, v ∈ next t' → reaches 1 v) ∧
  (stop t' = false → ∀ v, v ∈ next t' → grounds request start_origins (results t') v).
Proof.
  intros Hf Hch Habs. destruct (site_state_frame s x es t Hf Hch) as (Hs & Hn & Hr & Hv & Hc & _ & _ & Hseen & _).
  destruct (absorbs_sources _ _ _ _ _ Habs) as ((taken & Hsub & Hres) & _ & Hs' & Hn').
  destruct (absorbs_frame _ _ _ _ _ Habs) as (_ & _ & Hcomp & _).
  assert (∀ e, e ∈ es → e ∈ edges ∧ allowed kinds e = true ∧ reaches 0 (origin e)) as Hes.
  { intros e He%(site_from _ _ _ Hch). pose proof He as (? & ? & _)%elem_of_site_level.
    split_and!; [done..|]. apply ReachBase. rewrite site_origins. by apply list_elem_of_fmap_2. }
  assert (∀ v, v ∈ map neighbor es → reaches 1 v) as Hnew.
  { intros v (e & -> & (? & ? & ?)%Hes)%list_elem_of_fmap. apply ReachStep; auto. apply not_elem_of_nil. }
  rewrite Hcomp, Hc. split_and!; [split|done|..].
  - intros v [Hv'%Hseen|Hv']%Hs'; [|exists 1%nat; auto].
    apply list_elem_of_fmap in Hv' as (e & -> & (? & ? & ?)%Hes). exists 0%nat. split; [lia|done].
  - intros d e. rewrite Hres, Hr. intros (e' & [= -> ->] & He)%list_elem_of_fmap.
    apply (elem_of_sublist _ _ _ He), Hes in Hsub as (? & ? & ?). exists 0%nat. split_and!; [lia|done..].
  - lia.
  - rewrite Hres, Hr. apply grounded_app; [by intros [] ???|]. intros e He. left. rewrite site_origins.
    apply (elem_of_sublist _ _ _ He), (site_from _ _ _ Hch) in Hsub. by apply list_elem_of_fmap_2.
  - intros v [Hv'|Hv']%Hn'; [|auto]. rewrite Hn in Hv'. by apply elem_of_nil in Hv'.
  - intros Hst v Hv'. destruct (absorbs_next _ _ _ _ _ Habs Hst v Hv') as [Hx|(e & ? & ?)]; [|right; eauto].
    rewrite Hn in Hx. by apply elem_of_nil in Hx.
Qed.

Lemma site_exact es x t t' :
  fresh t → site_chosen s es x → absorbs request 1 (site_state x es t) es t' → clean (truncation t') = true →
  let t2 := if negb (stop t') && negb (bool_decide (es = [])) then with_completed 1 t' else t' in
  exact request start_base start_avoid start_skip start_reported start_completed 0 t2 ∧ next t2 = (levels 0).1.
Proof.
  intros Hf Hch Habs Hc.
  destruct (site_state_frame s x es t Hf Hch) as (Hs & Hn & Hr & Hv & Hcd & Hst & _ & _ & Hseen).
  destruct (Hseen (absorbs_clean_mono _ _ _ _ _ Habs Hc)) as [-> Hsn]. rewrite (site_all _ _ _ Hch eq_refl) in *.
  destruct (absorbs_frame _ _ _ _ _ Habs) as (_ & Hv' & Hcd' & _).
  destruct (absorbs_clean _ _ _ _ _ Hs Habs) as (_ & Hst' & Hr' & Hs' & Hn'); [|done|].
  { intros e He. apply Hsn. by apply list_elem_of_fmap_2. }
  pose proof (absorbs_sound _ _ _ _ _ Hs Habs) as Ht'.
  rewrite Hst', Hst. cbn [negb andb].
  assert (seen t' = (levels 0).2) as Hl2.
  { apply bset_ext; [apply Ht'|apply levels_wf|]. intros v. unfold TraceReference.levels. simpl.
    rewrite elem_of_bset_of_list, elem_of_app, elem_of_site_base, Hs', Hsn, site_avoid.
    destruct (decide (v ∈ map origin (site_level s))); tauto. }
  assert (next t' = (levels 0).1) as Hl1.
  { apply bset_ext; [apply Ht'|apply levels_wf|]. intros v. unfold TraceReference.levels. simpl.
    rewrite elem_of_bset_of_list, elem_of_site_base, Hn', Hsn, Hn, elem_of_nil, site_avoid. tauto. }
  assert (results t' = start_reported) as Hres by by rewrite Hr', Hr, site_reported.
  assert (start_completed = if bool_decide (site_level s = []) then 0 else 1) as Hsc.
  { unfold start_completed. rewrite site_reported. case_bool_decide as He.
    - by rewrite He, decide_True by done.
    - rewrite decide_False; [done|]. by intros ?%fmap_nil_inv. }
  assert (visited_edges t' = Z.of_nat (length (results t'))) as Hvis.
  { rewrite Hv', Hv, Hres, site_reported. by rewrite length_map. }
  case_bool_decide as He; cbn [negb]; (split; [split|done]); simpl; try done.
  - by rewrite Hst'.
  - by rewrite app_nil_r.
  - by rewrite Hcd', Hcd, Hsc.
  - by rewrite Hst'.
  - by rewrite app_nil_r.
  - by rewrite Hsc.
Qed.

Lemma site_waiting es x t t' :
  fresh t → site_chosen s es x → absorbs request 1 (site_state x es t) es t' →
  let t2 := if negb (stop t') && negb (bool_decide (es = [])) then with_completed 1 t' else t' in
  waiting 0 t2 ∧ clean (truncation t2) = clean (truncation t').
Proof.
  intros Hf Hch Habs t2. destruct (site_traced es x t t' Hf Hch Habs) as (Ht & Hcd & Hnx & Hgn).
  destruct (site_state_frame s x es t Hf Hch) as (Hs & _ & _ & _ & _ & _ & Hfl & _).
  pose proof (absorbs_sound _ _ _ _ _ Hs Habs) as Hs'.
  destruct (absorbs_frame _ _ _ _ _ Habs) as (_ & _ & _ & Hflag). rewrite Hfl in Hflag.
  pose proof (site_exact es x t t' Hf Hch Habs) as Hex. cbv zeta in Hex. fold t2 in Hex.
  assert (clean (truncation t2) = clean (truncation t')) as Hcl by (unfold t2; by destruct (_ && _)).
  split; [|done]. split.
  - unfold t2. destruct (_ && _); [by destruct Hs'|done].
  - rewrite site_skip. unfold t2. destruct (_ && _); [|done]. destruct Ht. by split.
  - intros v Hv. rewrite site_skip. apply Hnx. unfold t2 in Hv. by destruct (_ && _).
  - intros Hc. apply Hex. by rewrite <- Hcl.
  - unfold t2. by destruct (_ && _).
  - intros Hst v Hv. unfold t2 in *. by destruct (_ && _); apply Hgn.
Qed.

Lemma site_fits N es x t :
  fresh t → site_chosen s es x → fits N →
  x = false ∧ room request 1 (levels N).2 (levels 0).1 es (site_state x es t) ∧
  (∀ e, e ∈ es → origin e ∈ seen (site_state x es t)) ∧ clean (truncation (site_state x es t)) = true ∧
  output_bytes (site_state x es t) + trace_size (map (Build_RustGraphTraceEdge 1) es) ≤ max_output_bytes limits.
Proof.
  intros Hf Hch [F1 F2 F3 F4 F5].
  rewrite site_reported, !length_app, length_map in F3, F4.
  rewrite site_reported, trace_size_app in F5. pose proof (trace_size_nonneg
    (reference_results edges direction kinds start_base start_avoid (Z.of_nat start_skip + 1) N)).
  destruct x; [pose proof (site_exhausted _ _ _ Hch eq_refl); lia|].
  assert (∀ v, v ∈ (levels 0).2 ↔ v ∈ start_avoid ∨ v ∈ start_base) as Hl.
  { intros v. unfold TraceReference.levels. simpl. by rewrite elem_of_bset_of_list, elem_of_app. }
  destruct (site_state_frame s false es t Hf Hch) as (Hs & Hn & Hr & _ & _ & _ & _ & Hseen & Hsc).
  rewrite (site_all _ _ _ Hch eq_refl) in *.
  assert (∀ e, e ∈ site_level s → origin e ∈ (levels N).2) as Hor.
  { intros e He. apply (levels_mono _ _ _ _ _ 0); [lia|]. apply Hl. left. rewrite site_avoid.
    by apply list_elem_of_fmap_2. }
  assert (clean (truncation (site_state false (site_level s) t)) = true) as Hc.
  { destruct (admit_origins (levels N).2 (site_level s) (spend (length (site_level s)) false t)) as (_ & _ & _ & _ & Hcl).
    - apply spend_sound; [apply Hf|]. rewrite (fresh_visited _ Hf). lia.
    - unfold site_state. rewrite Hcl; [simpl; by rewrite (fresh_truncation _ Hf)|..|done].
      + intros v. simpl. rewrite (fresh_seen _ Hf). by intros ?%elem_of_nil.
      + done. }
  destruct (Hsc Hc) as [_ Hsn]. split_and!; [done|split|..|done|].
  - intros v (e & -> & He)%Hsn%list_elem_of_fmap. auto.
  - intros e He. apply (levels_mono _ _ _ _ _ 0); [lia|]. apply Hl.
    destruct (decide (neighbor e ∈ start_avoid)); [by left|right]. apply elem_of_site_base.
    split; [done|]. by apply list_elem_of_fmap_2.
  - done.
  - rewrite Hn. by intros v ?%elem_of_nil.
  - intros e He Hnin. unfold TraceReference.levels. simpl. rewrite elem_of_bset_of_list. apply elem_of_site_base.
    rewrite Hsn in Hnin. rewrite site_avoid. split; [done|]. by apply list_elem_of_fmap_2.
  - apply F2. lia.
  - rewrite Hr. simpl. lia.
  - intros e He. apply Hsn. by apply list_elem_of_fmap_2.
  - rewrite (sound_accounting _ _ Hs), Hr. simpl. lia.
Qed.

Lemma waiting_at_level t : waiting 0 t → at_level 0 (with_next [] (with_current (next t) t)).
Proof.
  intros [Hs Ht Hn Hx Hf Hg]. split; simpl; try done.
  - destruct Hs. split; simpl; try done; [apply bset_nil_wf|lia|by intros v ?%elem_of_nil].
  - apply Hs.
  - by destruct Ht.
  - intros Hc. destruct (Hx Hc) as [[] ?]. done.
Qed.

Lemma run_from_site_wp N t :
  fresh t → matching_site (admitted_of edges) s ≠ [] → max_depth limits = Z.of_nat (start_skip + N) →
  wp (run_from_site request (admitted_of edges) s t)
    (λ t', outcome N t' ∧ (fits N → clean (truncation t') = true))
    (λ e, e = OutputLimitExceeded ∧ ¬ fits N).
Proof.
  intros Hf Hne Hmax. unfold run_from_site. rewrite bool_decide_false by done.
  eapply wp_lift_bind; [done|].
  pose proof (sound_visited _ _ (fresh_sound _ Hf)) as Hvis.
  eapply wp_bind; [by apply select_site_wp|].
  intros ? (taken & x & -> & Htakes). cbv beta iota. rewrite app_nil_l.
  pose proof (site_chosen_of_taken s taken x t (fresh_visited _ Hf) Htakes) as Hch.
  pose proof (site_budget _ _ _ Hch) as Hle. rewrite length_sort_by in Hle.
  eapply wp_evals_bind.
  { apply evals_cancellable_sort_unique; [apply _| |intros ????; apply compare_relationship_eq].
    destruct Hlimits as (_ & _ & _ & _ & _ & ? & _). unfold MAX_VISITED_EDGES, u64_max in *. lia. }
  rewrite <- (length_sort_by compare_relationship taken).
  set (es := sort_by compare_relationship taken) in *. fold (site_state x es t).
  destruct (site_state_frame s x es t Hf Hch) as (Hs & _).
  eapply wp_bind.
  { apply process_selected_edges_wp; [done|done|..].
    - rewrite Forall_forall. intros e (He & _)%(site_from _ _ _ Hch)%elem_of_site_level. by eapply Forall_forall in Hrep.
    - intros Hgt. split; [done|]. intros (_ & _ & _ & _ & Hout)%(site_fits N es x t Hf Hch). lia. }
  intros t' Habs. destruct (site_waiting es x t t' Hf Hch Habs) as [Hw Hcl].
  assert (fits N → clean (truncation t') = true) as Hfits.
  { intros HF. destruct (site_fits N es x t Hf Hch HF) as (_ & Hrm & Hos & Hc & _).
    by rewrite (absorbs_room _ _ _ _ _ _ _ Hs Habs Hrm Hos). }
  set (t2 := if negb (stop t') && _ then _ else _) in *.
  destruct (_ =? 1) eqn:Hd.
  - assert (N = 0%nat) as -> by (rewrite site_skip in Hmax; lia). destruct Hw as [W1 W2 W3 W4 W5 _].
    eapply wp_evals; [by apply evals_note_depth|].
    destruct (outcome_last request start_base start_avoid start_skip start_reported start_completed
      start_origins 0 t2 W1 W2 W3 W4 W5) as [Hout Hcl2].
    split; [exact Hout|]. rewrite Hcl2, Hcl. exact Hfits.
  - assert (0 < N)%nat as HN by (rewrite site_skip in Hmax; lia).
    unfold depth_turns. replace (Z.to_nat _) with N by (rewrite site_skip in Hmax; lia).
    replace 2 with (Z.of_nat start_skip + 1 + Z.of_nat 0) by by rewrite site_skip.
    apply (run_from_depth_wp request Hlimits Hrep start_base start_avoid start_skip start_reported
      start_completed start_origins start_base_completed N 0); [done|done|by apply waiting_at_level|].
    simpl. rewrite Hcl. exact Hfits.
Qed.
End starts.

(** ** The control can only stop a trace *)

Lemma steady_process_selected_edges request es depth t : steady (process_selected_edges request es depth t).
Proof.
  revert t. induction es as [|e es IH]; intros t; simpl; [apply steady_ret|].
  apply steady_bind; [apply steady_check|]. intros _. destruct (negb _); [apply IH|].
  destruct (admit_neighbor _ _ _) as [b t1]. destruct (negb b); [apply IH|].
  destruct (_ <=? _); [apply steady_ret|]. apply steady_bind; [apply steady_lift|done].
Qed.

Lemma steady_select_frontier request admitted ds sel t : steady (select_frontier request admitted ds sel t).
Proof.
  revert sel t. induction ds as [|d ds IH]; intros sel t; simpl; [apply steady_ret|].
  apply steady_bind; [apply steady_check|]. intros _.
  apply steady_bind; [apply steady_lift|]. intros [sel' t']. destruct (stop t'); [apply steady_ret|apply IH].
Qed.

Lemma steady_select_site request es sel t : steady (select_site request es sel t).
Proof.
  revert sel t. induction es as [|e es IH]; intros sel t; simpl; [apply steady_ret|].
  apply steady_bind; [apply steady_check|]. intros _. destruct (allowed _ e); [|apply IH].
  apply steady_bind; [apply steady_lift|]. intros [b t']. destruct (negb b); [apply steady_ret|apply IH].
Qed.

Lemma steady_any_allowed request es : steady (any_allowed request es).
Proof.
  induction es as [|e es IH]; simpl; [apply steady_ret|]. apply steady_bind; [apply steady_check|].
  intros _. destruct (allowed _ e); [apply steady_ret|done].
Qed.

Lemma steady_frontier request admitted ds : steady (frontier_has_allowed_edges request admitted ds).
Proof.
  induction ds as [|d ds IH]; simpl; [apply steady_ret|]. apply steady_bind; [apply steady_check|].
  intros _. apply steady_bind; [apply steady_any_allowed|]. intros []; [apply steady_ret|done].
Qed.
#[export] Hint Resolve steady_process_selected_edges steady_select_frontier steady_select_site
  steady_frontier : steady.

Lemma steady_note_depth request admitted t : steady (note_depth request admitted t).
Proof. unfold note_depth. solve_steady. Qed.
#[export] Hint Resolve steady_note_depth : steady.

Lemma steady_run_from_depth request admitted turns depth t : steady (run_from_depth request admitted turns depth t).
Proof.
  revert depth t. induction turns as [|turns IH]; intros depth t; simpl; [apply steady_ret|].
  apply steady_bind; [apply steady_check|]. intros _. destruct (_ || _); [apply steady_ret|].
  apply steady_bind; [apply steady_select_frontier|]. intros [sel t1].
  apply steady_bind; [apply steady_cancellable_sort|]. intros sel'.
  apply steady_bind; [apply steady_process_selected_edges|]. intros t2.
  destruct (_ =? _); [apply steady_note_depth|apply IH].
Qed.
#[export] Hint Resolve steady_run_from_depth : steady.

(** The trace after admission, which reads the relationships through the admitted lists only. *)
Definition trace_admitted (request : RustGraphTraceRequest) (admitted : AdmittedEdges) : trace_ctl RustGraphTraceResult :=
  t ← lift (traversal_new request);
  t ← match req_start request with
      | StartDefinition definition =>
          let t := with_seen (bset_insert definition (seen t)) t in
          let t := with_current (bset_insert definition (current t)) t in
          run_from_depth request admitted (depth_turns request 1) 1 t
      | StartSite site => run_from_site request admitted site t
      end;
  check;;
  traversal_finish request admitted t.

Lemma steady_trace_admitted request admitted : steady (trace_admitted request admitted).
Proof.
  unfold trace_admitted. apply steady_bind; [apply steady_lift|]. intros t. apply steady_bind.
  - destruct (req_start request) as [d|s]; [apply steady_run_from_depth|].
    unfold run_from_site. apply steady_bind; [apply steady_lift|]. intros _.
    apply steady_bind; [apply steady_select_site|]. intros [sel t1].
    apply steady_bind; [apply steady_cancellable_sort|]. intros sel'.
    apply steady_bind; [apply steady_process_selected_edges|]. intros t2.
    destruct (_ =? _); [apply steady_note_depth|apply steady_run_from_depth].
  - intros t'. unfold traversal_finish. solve_steady.
Qed.

Lemma steady_trace request : steady (trace_rust_graph request).
Proof.
  apply steady_bind; [apply steady_check|]. intros _.
  apply steady_bind; [apply steady_admit_edges|]. apply steady_trace_admitted.
Qed.

(** ** The trace *)

Section trace.
Context (request : RustGraphTraceRequest).
Context (Hlimits : limits_ok (req_limits request)).
Context (Hrep : Forall representable (req_edges request)).

Notation edges := (req_edges request).
Notation direction := (req_direction request).
Notation kinds := (req_edge_kinds request).
Notation limits := (req_limits request).

(** The levels followed within the depth limit. *)
Definition trace_levels : nat := Z.to_nat (max_depth limits) - start_skip request.

Definition trace_fits : Prop :=
  fits request (start_base request) (start_avoid request) (start_skip request) (start_reported request)
    trace_levels.

(** The site a trace starts from has to be there. *)
Definition available : Prop :=
  match req_start request with
  | StartDefinition _ => True
  | StartSite s => ∃ e, e ∈ edges ∧ edge_site e = s
  end.

Definition trace_result (t : Traversal) : RustGraphTraceResult :=
  {| res_edges := results t; res_visited_nodes := Z.of_nat (length (seen t));
     res_visited_edges := visited_edges t;
     res_maximum_completed_depth := maximum_completed_depth t;
     res_truncation := truncation t; res_coverage := req_coverage request;
     res_input_bytes := total_size edges; res_output_bytes := output_bytes t |}.

Notation outcome := (outcome request (start_base request) (start_avoid request) (start_skip request)
  (start_reported request) (start_completed request) (start_origins request)).

Lemma trace_levels_depth : max_depth limits = Z.of_nat (start_skip request + trace_levels).
Proof.
  destruct Hlimits as (_ & _ & Hd & _). unfold trace_levels, start_skip.
  destruct (req_start request); lia.
Qed.

Lemma matching_available s : req_start request = StartSite s →
  available ↔ matching_site (admitted_of edges) s ≠ [].
Proof.
  intros Hs. unfold available. rewrite Hs. split.
  - intros (e & He & Hes) Hn. assert (e ∈ matching_site (admitted_of edges) s) as Hin.
    { by rewrite matching_site_filter, list_elem_of_filter. }
    rewrite Hn in Hin. by apply elem_of_nil in Hin.
  - intros Hne. destruct (matching_site _ s) as [|e l] eqn:E; [done|].
    assert (e ∈ matching_site (admitted_of edges) s) as Hin by (rewrite E; left).
    rewrite matching_site_filter, list_elem_of_filter in Hin. destruct Hin. eauto.
Qed.

Definition initial : Traversal :=
  {| seen := []; current := []; next := []; results := []; visited_edges := 0;
     maximum_completed_depth := 0; truncation := truncation_default;
     output_bytes := TRACE_OUTPUT_FIXED_BYTES; stop := false |}.

Lemma initial_fresh : TRACE_OUTPUT_FIXED_BYTES ≤ max_output_bytes limits → fresh request initial.
Proof.
  intros Hout. destruct Hlimits as (_ & _ & _ & ? & ? & ? & ? & ?).
  split; [|done..]. split; simpl; try (done || lia).
  - apply bset_nil_wf.
  - apply bset_nil_wf.
Qed.

(** The traversal, once the relationships are admitted. *)
Lemma traversal_wp (rest : Traversal → trace_ctl RustGraphTraceResult) Q :
  let R := λ e, e = OutputLimitExceeded ∧ ¬ trace_fits in
  available →
  (∀ t, outcome trace_levels t → (trace_fits → clean (truncation t) = true) → wp (rest t) Q R) →
  wp (t ← lift (traversal_new request);
      t ← match req_start request with
          | StartDefinition definition =>
              let t := with_seen (bset_insert definition (seen t)) t in
              let t := with_current (bset_insert definition (current t)) t in
              run_from_depth request (admitted_of edges) (depth_turns request 1) 1 t
          | StartSite site => run_from_site request (admitted_of edges) site t
          end;
      rest t) Q R.
Proof.
  intros R Hav Hrest. destruct (decide (TRACE_OUTPUT_FIXED_BYTES ≤ max_output_bytes limits)) as [Hout|Hout].
  2:{ eapply (wp_bind _ _ (λ _, False)); [|done]. apply wp_lift. unfold traversal_new, reject_if.
      destruct (_ <? _) eqn:E; [|lia]. simpl. split; [done|]. intros [_ _ _ _ Hf].
      pose proof (trace_size_nonneg (start_reported request ++ reference_results edges direction kinds
        (start_base request) (start_avoid request) (Z.of_nat (start_skip request) + 1) trace_levels)). lia. }
  eapply (wp_lift_bind _ _ initial).
  { unfold traversal_new, reject_if. destruct (_ <? _) eqn:E; [lia|done]. }
  pose proof (initial_fresh Hout) as Hfresh. pose proof trace_levels_depth as Hdepth.
  eapply (wp_bind _ _ (λ t, outcome trace_levels t ∧ (trace_fits → clean (truncation t) = true)));
    [|intros t [H1 H2]; by apply Hrest].
  destruct (req_start request) as [d|s] eqn:Hstart.
  2:{ apply run_from_site_wp; try done. by apply matching_available. }
  assert (start_skip request = 0%nat) as Hskip by (unfold start_skip; by rewrite Hstart).
  assert (start_base request = [d]) as Hbase by (unfold start_base; by rewrite Hstart).
  assert (start_avoid request = []) as Havoid by (unfold start_avoid; by rewrite Hstart).
  assert (start_reported request = []) as Hreported by (unfold start_reported; by rewrite Hstart).
  assert (start_origins request = [d]) as Horigins by (unfold start_origins; by rewrite Hstart).
  assert (start_completed request = 0) as Hcompleted by (unfold start_completed; by rewrite Hreported).
  assert (0 < trace_levels)%nat as Hpos by (destruct Hlimits as (_ & _ & ? & _); lia).
  unfold depth_turns. replace (Z.to_nat _) with trace_levels by lia.
  replace 1 with (Z.of_nat (start_skip request) + 1 + Z.of_nat 0) by lia.
  apply (run_from_depth_wp request Hlimits Hrep _ _ _ _ _ _ (start_base_completed request) trace_levels 0);
    [done|done| |done].
  assert (reach edges direction kinds (start_origins request) [] 0 d) as Hreach.
  { apply ReachBase. rewrite Horigins. by left. }
  assert (bset_insert d [] = [d]) as Hsing by done.
  split; simpl; try done.
  - destruct Hfresh as [[] _ _ _ _ _ _ _]. split; simpl; try done.
    + repeat constructor.
    + destruct Hlimits as (_ & _ & _ & _ & ? & _). lia.
    + by intros v ?%elem_of_nil.
  - repeat constructor.
  - split; simpl; [|by intros ?? ?%elem_of_nil|lia|by intros [] ???].
    intros v ->%list_elem_of_singleton. exists 0%nat. split; [lia|done].
  - intros v ->%list_elem_of_singleton. by rewrite Hskip.
  - intros _. rewrite Hbase, Havoid. split; [split|]; simpl; try done.
    + by rewrite Hreported.
    + by rewrite Hcompleted.
  - intros _ v ->%list_elem_of_singleton. left. rewrite Horigins. by left.
Qed.

(** The trace that leaves nothing out: the levels of the reference down to the depth limit. *)
Definition reference_trace : RustGraphTraceResult :=
  let edges := req_edges request in
  let levels := levels edges direction kinds (start_base request) (start_avoid request) in
  let reported := start_reported request ++ reference_results edges direction kinds (start_base request)
    (start_avoid request) (Z.of_nat (start_skip request) + 1) trace_levels in
  {| res_edges := reported;
     res_visited_nodes := Z.of_nat (length (levels trace_levels).2);
     res_visited_edges := Z.of_nat (length reported);
     res_maximum_completed_depth := start_completed request +
       Z.of_nat (inhabited_levels request (start_base request) (start_avoid request) trace_levels);
     res_truncation := {| trunc_depth := negb (bool_decide (level_edges edges direction kinds (levels trace_levels).1 = []));
       trunc_visited_nodes := false; trunc_visited_edges := false; trunc_frontier := false; trunc_results := false |};
     res_coverage := req_coverage request;
     res_input_bytes := total_size edges;
     res_output_bytes := TRACE_OUTPUT_FIXED_BYTES + trace_size reported |}.

Lemma outcome_reference t :
  outcome trace_levels t → clean (truncation t) = true → trace_result t = reference_trace.
Proof.
  intros [Hs _ Hx _ Hf] Hc. destruct (Hx Hc) as [H1 H2 H3 H4 H5]. unfold trace_result, reference_trace.
  rewrite H2, H4, H5, (sound_accounting _ _ Hs), <- H3. f_equal. specialize (Hf Hc).
  unfold clean in Hc. destruct (truncation t) as [? [] [] [] []]; try done. simpl in Hf. by rewrite Hf.
Qed.

Lemma traversal_finish_wp t (R : RustGraphTraceError → Prop) :
  outcome trace_levels t → wp (check;; traversal_finish request (admitted_of edges) t) (λ r, r = trace_result t) R.
Proof.
  intros [Hs _ _ _ _]. apply wp_check_bind. apply wp_check_bind.
  eapply wp_lift_bind; [|by apply wp_ret]. unfold len_u64, u64_of_len.
  pose proof (sound_nodes _ _ Hs). destruct Hlimits as (_ & _ & _ & _ & ? & _).
  rewrite checked_in by (unfold MAX_VISITED_NODES, u64_max in *; lia). done.
Qed.

(** How a trace comes out when the control never fires. *)
Lemma trace_wp :
  wp (trace_rust_graph request)
    (λ r, admissible limits edges ∧ available ∧ ∃ t, r = trace_result t ∧ outcome trace_levels t ∧
      (trace_fits → clean (truncation t) = true))
    (λ e, admissible limits edges → available → e = OutputLimitExceeded ∧ ¬ trace_fits).
Proof.
  unfold trace_rust_graph. apply wp_check_bind.
  destruct (evals_admit_edges limits edges Hlimits Hrep) as (r & He & Hok & Hinv).
  specialize (He edges (reflexivity _)). destruct r as [a|e].
  2:{ intros n. unfold mbind, ctl_bind. specialize (He n). destruct (admit_edges _ _ _ _) as [[]|]; [done|].
      injection He as ->. intros Hadm. by specialize (Hok Hadm). }
  destruct (Hinv a eq_refl) as [Hadm ->]. eapply wp_evals_bind; [exact He|].
  assert (available ∨ ∃ s, req_start request = StartSite s ∧ matching_site (admitted_of edges) s = [])
    as [Hav|(s & Hstart & Hn)].
  { unfold available. destruct (req_start request) as [d|s] eqn:Hstart; [by left|].
    pose proof (matching_available s Hstart) as Hm. unfold available in Hm. rewrite Hstart in Hm.
    destruct (matching_site (admitted_of edges) s) eqn:E; [right; eauto|left]. by apply Hm. }
  2:{ assert (¬ available) as Hna by (rewrite (matching_available s Hstart); naive_solver).
      rewrite Hstart. intros n. unfold mbind, ctl_bind, lift. destruct (traversal_new request) as [t|e]; [|done].
      unfold run_from_site. rewrite Hn. done. }
  eapply wp_conseq.
  - apply (traversal_wp (λ t, check;; traversal_finish request (admitted_of edges) t)
      (λ r, ∃ t, r = trace_result t ∧ outcome trace_levels t ∧ (trace_fits → clean (truncation t) = true)) Hav).
    intros t Ho Hc. eapply wp_mono; [by apply traversal_finish_wp|]. intros r ->. eauto.
  - done.
  - done.
Qed.
End trace.

(** ** A small graph *)

Module sample.
Definition span (a b : Z) : ByteSpan := {| span_start := a; span_end := b |}.
Definition decl (n : Z) : RustGraphDefinitionIdentity :=
  {| def_source_slot := b_of "s"; def_path := b_of "a.rs"; def_artifact := b_of "k"; def_fact_ordinal := n;
     def_kind := Function; def_name_span := span (100 * n + 3) (100 * n + 5);
     def_declaration_span := span (100 * n) (100 * n + 90) |}.
Definition call_site (n i : Z) : RustGraphSiteIdentity :=
  {| site_source_slot := b_of "s"; site_path := b_of "a.rs"; site_artifact := b_of "k"; site_ordinal := 10 * n + i;
     site_kind := SiteCall; site_occurrence_span := span (100 * n + 10 + i) (100 * n + 20 + i);
     site_target_span := span (100 * n + 10 + i) (100 * n + 12 + i) |}.
Definition call (n i m : Z) (c : RustGraphRelationshipCardinality) : RustGraphTraversalEdge :=
  {| edge_source := decl n; edge_site := call_site n i; edge_target := decl m;
     edge_extraction_evidence := DirectSyntax; edge_resolution_evidence := LexicalSyntax;
     edge_cardinality := c |}.

(** 0 calls 1; 1 calls 2 or 3; 3 calls 0; 2 calls 4. *)
Definition edges : list RustGraphTraversalEdge :=
  [call 1 0 2 (Ambiguous 2 2 false); call 3 0 0 Unique; call 0 0 1 Unique;
   call 1 0 3 (Ambiguous 2 2 false); call 2 0 4 Unique].
Definition limits (depth results : Z) : RustGraphTraceLimits :=
  {| max_input_edges := 10; max_input_bytes := 10000; max_depth := depth; max_results := results;
     max_visited_nodes := 10; max_visited_edges := 10; max_frontier := 10; max_output_bytes := 10000 |}.
Definition coverage : RustGraphTraceCoverage := Build_RustGraphTraceCoverage 0 0 0 0 0 0 0 0.
Definition request (start : RustGraphTraceStart) (direction : RustGraphTraceDirection) (depth results : Z)
    : RustGraphTraceRequest :=
  {| req_edges := edges; req_start := start; req_direction := direction;
     req_edge_kinds := edge_kinds_ALL; req_limits := limits depth results; req_coverage := coverage |}.

Definition from_0 : RustGraphTraceRequest := request (StartDefinition (decl 0)) Outbound 2 10.
Definition to_4 : RustGraphTraceRequest := request (StartDefinition (decl 4)) Inbound 9 2.
Definition from_site : RustGraphTraceRequest := request (StartSite (call_site 1 0)) Outbound 5 10.

Definition result_of (r : RustGraphTraceRequest) : RustGraphTraceResult :=
  match run never (trace_rust_graph r) with Ok t => t | Err _ => reference_trace r end.

Lemma from_0_limits : limits_ok (req_limits from_0).
Proof. unfold limits_ok. vm_compute. intuition discriminate. Qed.
Lemma to_4_limits : limits_ok (req_limits to_4).
Proof. unfold limits_ok. vm_compute. intuition discriminate. Qed.
Lemma from_site_limits : limits_ok (req_limits from_site).
Proof. unfold limits_ok. vm_compute. intuition discriminate. Qed.
Lemma representable_edges : Forall representable edges.
Proof. repeat constructor; vm_compute; discriminate. Qed.
End sample.

(** ** Properties *)

Section outcomes.
Context (request : RustGraphTraceRequest) (o : nat → option RustGraphTraceError).
Context (Hlimits : limits_ok (req_limits request)).
Context (Hrep : Forall representable (req_edges request)).

(** What a trace that returns was. *)
Lemma trace_returns r :
  run o (trace_rust_graph request) = Ok r →
  admissible (req_limits request) (req_edges request) ∧ available request ∧
  ∃ t, r = trace_result request t ∧
    outcome request (start_base request) (start_avoid request) (start_skip request)
      (start_reported request) (start_completed request) (start_origins request) (trace_levels request) t.
Proof.
  intros Hrun. pose proof (wp_run _ _ _ _ (steady_trace request) (trace_wp request Hlimits Hrep) Hrun)
    as (H1 & H2 & t & H3 & H4 & _). eauto.
Qed.

Lemma trace_clean r :
  run o (trace_rust_graph request) = Ok r → clean (res_truncation r) = true → r = reference_trace request.
Proof.
  intros (_ & _ & t & -> & Hout)%trace_returns Hc. by apply outcome_reference.
Qed.

(** The relationships a complete trace from a declaration reports. *)
Lemma clean_definition_results d r :
  req_start request = StartDefinition d →
  run o (trace_rust_graph request) = Ok r → clean (res_truncation r) = true →
  ∀ k e, {| trace_depth := k; relationship := e |} ∈ res_edges r ↔
    ∃ n, Z.of_nat n < max_depth (req_limits request) ∧ k = Z.of_nat n + 1 ∧
      (e ∈ req_edges request ∧ allowed (req_edge_kinds request) e = true) ∧
      shortest (req_edges request) (req_direction request) (req_edge_kinds request) [d] [] n
        (oriented_origin (req_direction request) e).
Proof.
  intros Hstart Hrun Hc k e. rewrite (trace_clean r Hrun Hc).
  assert (trace_levels request = Z.to_nat (max_depth (req_limits request))) as Hn.
  { unfold trace_levels, start_skip. rewrite Hstart. lia. }
  assert (0 ≤ max_depth (req_limits request)) as Hmax by (destruct Hlimits as (_ & _ & ? & _); lia).
  unfold reference_trace, start_reported, start_skip, start_base, start_avoid. cbn zeta.
  rewrite Hstart, Hn. simpl. rewrite elem_of_reference_results. split.
  - intros (n & Hlt & -> & He & Ha & Hs). exists n. split_and!; [lia|lia|done..].
  - intros (n & Hlt & -> & [He Ha] & Hs). exists n. split_and!; [lia|lia|done..].
Qed.
End outcomes.

Lemma sample_admissible :
  admissible (req_limits sample.from_0) (req_edges sample.from_0).
Proof.
  destruct (trace_returns sample.from_0 never sample.from_0_limits sample.representable_edges
    (sample.result_of sample.from_0)) as [H _]; [vm_compute; reflexivity|exact H].
Qed.

Lemma sample_fits : trace_fits sample.from_0.
Proof.
  assert (trace_levels sample.from_0 = 2%nat) as Hn by (vm_compute; reflexivity).
  unfold trace_fits. rewrite Hn. split.
  2:{ intros m Hm. assert (m = 0%nat ∨ m = 1%nat ∨ m = 2%nat) as [ -> | [ -> | -> ] ] by lia; vm_compute; discriminate. }
  all: vm_compute; discriminate.
Qed.

(** C1: a complete trace is the breadth-first reference.  When a trace returns and none of
    the visited-node, visited-edge, frontier and result flags is raised, it is the reference
    trace, field by field: the relationships level by level, each level in the order of the
    relationships and with its depth, every count, the depth reached, the depth flag and the
    bytes.  It holds for both starts, both directions and any control. *)
Theorem complete_trace_is_reference (request : RustGraphTraceRequest) o r :
  limits_ok (req_limits request) → Forall representable (req_edges request) →
  run o (trace_rust_graph request) = Ok r → clean (res_truncation r) = true →
  r = reference_trace request.
Proof. intros Hl Hr. by apply (trace_clean request o). Qed.

Lemma complete_trace_is_reference_witness :
  clean (res_truncation (sample.result_of sample.from_site)) = true ∧
  sample.result_of sample.from_site = reference_trace sample.from_site.
Proof.
  split; [vm_compute; reflexivity|].
  apply (complete_trace_is_reference sample.from_site never);
    [apply sample.from_site_limits|apply sample.representable_edges|vm_compute; reflexivity|vm_compute; reflexivity].
Defined.

(** A complete trace from a declaration reports shortest paths.  It reports a
    relationship at a depth exactly when the relationship is allowed and a shortest path of
    one relationship less leads from the start to its origin, within the depth limit; and the
    depth flag is raised exactly when some allowed relationship starts at a declaration that
    far away. *)
Theorem complete_trace_shortest_paths (request : RustGraphTraceRequest) d o r :
  limits_ok (req_limits request) → Forall representable (req_edges request) →
  req_start request = StartDefinition d →
  run o (trace_rust_graph request) = Ok r → clean (res_truncation r) = true →
  let distance := shortest (req_edges request) (req_direction request) (req_edge_kinds request) [d] [] in
  let allowed e := e ∈ req_edges request ∧ allowed (req_edge_kinds request) e = true in
  (∀ k e, {| trace_depth := k; relationship := e |} ∈ res_edges r ↔
     ∃ n, Z.of_nat n < max_depth (req_limits request) ∧ k = Z.of_nat n + 1 ∧ allowed e ∧
       distance n (oriented_origin (req_direction request) e)) ∧
  (trunc_depth (res_truncation r) = true ↔
     ∃ e, allowed e ∧ distance (Z.to_nat (max_depth (req_limits request))) (oriented_origin (req_direction request) e)).
Proof.
  intros Hl Hr Hstart Hrun Hc distance allow. split.
  { by apply (clean_definition_results request o). }
  rewrite (trace_clean request o Hl Hr r Hrun Hc).
  assert (trace_levels request = Z.to_nat (max_depth (req_limits request))) as Hn.
  { unfold trace_levels, start_skip. rewrite Hstart. lia. }
  unfold reference_trace, start_reported, start_skip, start_base, start_avoid. cbn zeta.
  rewrite Hstart, Hn. simpl.
  case_bool_decide as Hnil; simpl; (split; [|intros (e & [He Ha] & Hs)]); try done.
  - assert (e ∈ @nil RustGraphTraversalEdge) as []%elem_of_nil.
    rewrite <- Hnil. apply elem_of_level_edges. split_and!; [done..|]. by apply levels_spec.
  - intros _. destruct (level_edges _ _ _ _) as [|e l] eqn:E in Hnil; [done|].
    assert (e ∈ e :: l) as Hin by left. rewrite <- E in Hin.
    apply elem_of_level_edges in Hin as (He & Ha & Ho). exists e. split; [done|]. by apply levels_spec.
Qed.

Lemma complete_trace_shortest_paths_witness :
  ∃ n, Z.of_nat n < 2 ∧ 2 = Z.of_nat n + 1 ∧
    shortest sample.edges Outbound edge_kinds_ALL [sample.decl 0] [] n (sample.decl 1).
Proof.
  destruct (complete_trace_shortest_paths sample.from_0 (sample.decl 0) never (sample.result_of sample.from_0))
    as [H _]; [apply sample.from_0_limits|apply sample.representable_edges|reflexivity|
      vm_compute; reflexivity|vm_compute; reflexivity|].
  destruct (proj1 (H 2 (sample.call 1 0 3 (Ambiguous 2 2 false)))) as (n & H1 & H2 & _ & H3).
  - assert (res_edges (sample.result_of sample.from_0) = map (λ '(d, e), Build_RustGraphTraceEdge d e)
      [(1, sample.call 0 0 1 Unique); (2, sample.call 1 0 2 (Ambiguous 2 2 false));
       (2, sample.call 1 0 3 (Ambiguous 2 2 false))]) as -> by (vm_compute; reflexivity).
    simpl. repeat constructor.
  - exists n. split_and!; [exact H1|exact H2|exact H3].
Defined.

(** C2: a trace completes when the reference fits.  If the input is admissible, the start is
    available and the reference trace is within the limits (its nodes, its largest level, its
    relationships and its bytes), then under any control the trace is the reference or stops
    with an answer of the control: nothing is left out, and no error arises. *)
Theorem trace_completes (request : RustGraphTraceRequest) o :
  limits_ok (req_limits request) → Forall representable (req_edges request) →
  admissible (req_limits request) (req_edges request) → available request → trace_fits request →
  run o (trace_rust_graph request) = Ok (reference_trace request) ∨
  ∃ k e, o k = Some e ∧ run o (trace_rust_graph request) = Err e.
Proof.
  intros Hl Hr Hadm Hav Hfits. pose proof (trace_wp request Hl Hr) as Hw.
  destruct (steady_run (trace_rust_graph request) o (steady_trace request)) as [->|?]; [left|by right].
  specialize (Hw 0%nat). unfold run. destruct (trace_rust_graph request never 0%nat) as [[r n]|e].
  - destruct Hw as (_ & _ & t & -> & Hout & Hc). by rewrite (outcome_reference request t Hout (Hc Hfits)).
  - by destruct (Hw Hadm Hav).
Qed.

Lemma trace_completes_witness :
  run never (trace_rust_graph sample.from_0) = Ok (reference_trace sample.from_0) ∨
  ∃ k e, never k = Some e ∧ run never (trace_rust_graph sample.from_0) = Err e.
Proof.
  apply (trace_completes sample.from_0 never);
    [apply sample.from_0_limits|apply sample.representable_edges|apply sample_admissible|exact I|apply sample_fits].
Defined.

(** C3: a trace never invents and never exceeds.  Whatever it leaves out, under any start and
    control: each relationship it reports is an allowed one of the input, at a depth within
    the limit, starts at a declaration that many relationships (less one) from the start, and
    starts where the trace starts or where a relationship reported before it leads; the reported relationships, the visited declarations and relationships, and the bytes
    are within the limits; and the bytes are those of what is reported. *)
Theorem trace_sound_and_bounded (request : RustGraphTraceRequest) o r :
  limits_ok (req_limits request) → Forall representable (req_edges request) →
  run o (trace_rust_graph request) = Ok r →
  let limits := req_limits request in
  (∀ k e, {| trace_depth := k; relationship := e |} ∈ res_edges r →
     e ∈ req_edges request ∧ allowed (req_edge_kinds request) e = true ∧ 1 ≤ k ≤ max_depth limits ∧
     reach (req_edges request) (req_direction request) (req_edge_kinds request) (start_origins request) []
       (Z.to_nat (k - 1)) (oriented_origin (req_direction request) e)) ∧
  (∀ before k e after, res_edges r = before ++ {| trace_depth := k; relationship := e |} :: after →
     grounds request (start_origins request) before (oriented_origin (req_direction request) e)) ∧
  Z.of_nat (length (res_edges r)) ≤ max_results limits ∧
  res_visited_nodes r ≤ max_visited_nodes limits ∧
  0 ≤ res_visited_edges r ≤ max_visited_edges limits ∧
  0 ≤ res_maximum_completed_depth r ≤ max_depth limits ∧
  res_output_bytes r = TRACE_OUTPUT_FIXED_BYTES + trace_size (res_edges r) ∧
  res_output_bytes r ≤ max_output_bytes limits ∧
  res_input_bytes r = total_size (req_edges request) ∧ res_input_bytes r ≤ max_input_bytes limits.
Proof.
  intros Hl Hr Hrun limits.
  destruct (trace_returns request o Hl Hr r Hrun) as (Hadm & _ & t & -> & Hout).
  pose proof (trace_levels_depth request Hl) as Hd. destruct Hout as [Hs [_ Hrep Hcd Hground] _ _ _]. simpl.
  split_and!; try apply Hs; try lia.
  - intros k e (m & Hm & -> & He & Ha & Hreach)%Hrep. split_and!; [done|done|lia|unfold limits; lia|].
    by replace (Z.to_nat (Z.of_nat m + 1 - 1)) with m by lia.
  - intros before k e after. apply Hground.
  - unfold limits. lia.
  - apply Hadm.
Qed.

Lemma trace_sound_and_bounded_witness :
  trunc_results (res_truncation (sample.result_of sample.to_4)) = true ∧
  Z.of_nat (length (res_edges (sample.result_of sample.to_4))) ≤ 2.
Proof.
  split; [vm_compute; reflexivity|].
  apply (trace_sound_and_bounded sample.to_4 never (sample.result_of sample.to_4));
    [apply sample.to_4_limits|apply sample.representable_edges|vm_compute; reflexivity].
Defined.

(** Why a trace returns or fails when the control never fires.  A trace that returns had
    admissible input and a start that is there; on admissible input with the start in place
    the only error is that the output limit is exceeded, and then the reference does not fit
    the limits. *)
Theorem trace_outcome (request : RustGraphTraceRequest) :
  limits_ok (req_limits request) → Forall representable (req_edges request) →
  match run never (trace_rust_graph request) with
  | Ok _ => admissible (req_limits request) (req_edges request) ∧ available request
  | Err e => admissible (req_limits request) (req_edges request) → available request →
      e = OutputLimitExceeded ∧ ¬ trace_fits request
  end.
Proof.
  intros Hl Hr. pose proof (trace_wp request Hl Hr 0%nat) as Hw. unfold run.
  destruct (trace_rust_graph request never 0%nat) as [[r n]|e]; [|exact Hw].
  by destruct Hw as (? & ? & _).
Qed.

Lemma trace_outcome_witness :
  admissible (req_limits sample.from_0) (req_edges sample.from_0) ∧ available sample.from_0.
Proof.
  exact (trace_outcome sample.from_0 sample.from_0_limits sample.representable_edges).
Defined.

Definition with_edges (es : list RustGraphTraversalEdge) (r : RustGraphTraceRequest) : RustGraphTraceRequest :=
  {| req_edges := es; req_start := req_start r; req_direction := req_direction r;
     req_edge_kinds := req_edge_kinds r; req_limits := req_limits r; req_coverage := req_coverage r |}.

Lemma trace_admitted_with_edges es request admitted :
  trace_admitted (with_edges es request) admitted = trace_admitted request admitted.
Proof. reflexivity. Qed.

Lemma evals_trace request r :
  evals (admit_edges (req_edges request) (req_limits request)) r →
  evals (trace_rust_graph request) (a ← r; run never (trace_admitted request a)).
Proof.
  intros Hr. unfold trace_rust_graph. eapply evals_bind; [apply evals_check|].
  apply evals_mbind; [done|]. intros a. apply steady_evals_run, steady_trace_admitted.
Qed.

(** The order of the input is irrelevant.  Relationships supplied in another order give
    the same trace, or the same error, under a control that never fires. *)
Theorem trace_order_independent (request : RustGraphTraceRequest) es :
  limits_ok (req_limits request) → Forall representable (req_edges request) → es ≡ₚ req_edges request →
  run never (trace_rust_graph (with_edges es request)) = run never (trace_rust_graph request).
Proof.
  intros Hl Hr Hp. destruct (evals_admit_edges (req_limits request) (req_edges request) Hl Hr) as (r & He & _ & Hinv).
  rewrite (evals_run _ _ (evals_trace (with_edges es request) r (He es Hp))).
  by rewrite (evals_run _ _ (evals_trace request r (He _ (reflexivity _)))).
Qed.

Lemma trace_order_independent_witness :
  run never (trace_rust_graph (with_edges (reverse sample.edges) sample.from_0)) =
  run never (trace_rust_graph sample.from_0).
Proof.
  apply (trace_order_independent sample.from_0);
    [apply sample.from_0_limits|apply sample.representable_edges|apply reverse_Permutation].
Defined.

(** Admission accepts exactly the consistent input within the limits.  When the control
    never fires, admission succeeds exactly when the relationships and their bytes are within
    the limits, the relationships of a site agree on source, evidence and cardinality, have
    distinct targets and are as many as the cardinality retains; the lists it answers are the
    relationships sorted by site, and stably from there by source and by target. *)
Theorem admission_spec edges limits a :
  limits_ok limits → Forall representable edges →
  run never (admit_edges edges limits) = Ok a ↔ admissible limits edges ∧ a = admitted_of edges.
Proof.
  intros Hl Hr. destruct (evals_admit_edges limits edges Hl Hr) as (r & He & Hok & Hinv).
  rewrite (evals_run _ _ (He edges (reflexivity _))). split; [apply Hinv|].
  intros [Hadm ->]. by apply Hok.
Qed.

Lemma admission_spec_witness :
  run never (admit_edges sample.edges (sample.limits 2 10)) = Ok (admitted_of sample.edges) ∧
  run never (admit_edges (tail sample.edges) (sample.limits 2 10)) ≠ Ok (admitted_of (tail sample.edges)).
Proof.
  split.
  - apply (admission_spec sample.edges (sample.limits 2 10) (admitted_of sample.edges));
      [apply sample.from_0_limits|apply sample.representable_edges|].
    split; [apply sample_admissible|reflexivity].
  - vm_compute. discriminate.
Defined.
