(* ===== verification/Impact.v ===== *)
(** * Inbound impact

    Models [crates/repowitness-analysis/src/rust_graph/traversal/impact.rs] with the impact
    records of [result.rs]: the strongest class and the least depth at which an inbound
    trace meets each declaration. *)

From Stdlib Require Import ZArith Lia ZifyBool.
From stdpp Require Import base numbers sorting list.
From S2P Require Import Prelude Ordering GraphIdentity TraceSort Trace TraceReference TraceLoops TraceProperties.

Open Scope Z_scope.

(** ** Data *)

Inductive RustGraphImpactClass := DirectlyConnected | Possible | Unknown.

Definition impact_class_rank (c : RustGraphImpactClass) : Z :=
  match c with DirectlyConnected => 0 | Possible => 1 | Unknown => 2 end.
Lemma impact_class_rank_inj c1 c2 : impact_class_rank c1 = impact_class_rank c2 → c1 = c2.
Proof. by destruct c1, c2. Qed.
#[export] Instance impact_class_ord : RustOrd RustGraphImpactClass := ord_by impact_class_rank.
#[export] Instance impact_class_ord_laws : RustOrdLaws RustGraphImpactClass :=
  ord_by_laws impact_class_rank impact_class_rank_inj.

Record RustGraphImpact := {
  impact_class : RustGraphImpactClass;
  impact_definition : RustGraphDefinitionIdentity;
  minimum_depth : Z;
}.

Record RustGraphImpactRequest := {
  impact_edges : list RustGraphTraversalEdge;
  impact_start : RustGraphDefinitionIdentity;
  impact_edge_kinds : RustGraphEdgeKinds;
  impact_limits : RustGraphTraceLimits;
  impact_coverage : RustGraphTraceCoverage;
}.

Record RustGraphImpactResult := {
  impact_trace : RustGraphTraceResult;
  impacted : list RustGraphImpact;
  unknown_coverage : bool;
  impact_output_bytes : Z;
}.

Definition trace_request (r : RustGraphImpactRequest) : RustGraphTraceRequest :=
  {| req_edges := impact_edges r; req_start := StartDefinition (impact_start r); req_direction := Inbound;
     req_edge_kinds := impact_edge_kinds r; req_limits := impact_limits r; req_coverage := impact_coverage r |}.

(** ** Analysis *)

Definition IMPACT_OUTPUT_FIXED_BYTES : Z := 64.
Definition IMPACT_ITEM_FIXED_BYTES : Z := 8.

Definition propagated_class (parent : RustGraphImpactClass) (relationship : RustGraphTraversalEdge)
    : RustGraphImpactClass :=
  if negb (bool_decide (parent = DirectlyConnected))
     || is_ambiguous (edge_cardinality relationship)
     || bool_decide (edge_extraction_evidence relationship = SyntaxHeuristic)
     || bool_decide (edge_resolution_evidence relationship = ExactNameHeuristic)
  then Possible else DirectlyConnected.

Notation strength := (RustGraphImpactClass * Z)%type.
Notation strengths := (list (RustGraphDefinitionIdentity * strength)).

(** [entry(..).and_modify(..).or_insert((class, depth))]. *)
Definition strengthen (definition : RustGraphDefinitionIdentity) (class : RustGraphImpactClass) (depth : Z)
    (strongest : strengths) : strengths :=
  bmap_insert definition
    (match bmap_get definition strongest with
     | Some (current_class, current_depth) =>
         (match cmp class current_class with Lt => class | _ => current_class end, Z.min current_depth depth)
     | None => (class, depth)
     end) strongest.

(** One turn of the loop over the traced relationships. *)
Definition absorb_traced (state : strengths * bool) (traced : RustGraphTraceEdge)
    : result RustGraphTraceError (strengths * bool) :=
  let '(strongest, relationship_unknown) := state in
  match bmap_get (edge_target (relationship traced)) strongest with
  | None => Err InvalidEdge
  | Some (parent_class, _) =>
      let class := propagated_class parent_class (relationship traced) in
      Ok (strengthen (edge_source (relationship traced)) class (trace_depth traced) strongest,
          relationship_unknown || card_candidates_truncated (edge_cardinality (relationship traced)))
  end.

Definition compare_impact (l r : RustGraphImpact) : comparison :=
  then_with (cmp (minimum_depth l) (minimum_depth r))
  (then_with (cmp (impact_class l) (impact_class r))
    (cmp (impact_definition l) (impact_definition r))).

Definition count_impact (limits : RustGraphTraceLimits) (output_bytes : Z) (item : RustGraphImpact)
    : result RustGraphTraceError Z :=
  definition_bytes ← encoded_definition_bytes (impact_definition item);
  output_bytes ← ok_or (match u64_checked_add output_bytes IMPACT_ITEM_FIXED_BYTES with
                        | Some bytes => u64_checked_add bytes definition_bytes
                        | None => None
                        end) CountOverflow;
  reject_if (max_output_bytes limits <? output_bytes) OutputLimitExceeded;;
  Ok output_bytes.

(** What follows the trace. *)
Definition classify (request : RustGraphImpactRequest) (trace : RustGraphTraceResult)
    : result RustGraphTraceError RustGraphImpactResult :=
  let start := impact_start request in
  '(strongest, relationship_unknown) ←
    try_fold absorb_traced ([(start, (DirectlyConnected, 0))], false) (res_edges trace);
  let items := map (λ '(definition, (class, depth)), Build_RustGraphImpact class definition depth)
                 (filter (λ '(definition, _), definition ≠ start) strongest) in
  let items := sort_by compare_impact items in
  output_bytes ← ok_or (u64_checked_add (res_output_bytes trace) IMPACT_OUTPUT_FIXED_BYTES) CountOverflow;
  output_bytes ← try_fold (count_impact (impact_limits request)) output_bytes items;
  Ok {| impact_trace := trace; impacted := items;
        unknown_coverage := has_unknown_impact (res_coverage trace) || trunc_any (res_truncation trace)
                            || relationship_unknown;
        impact_output_bytes := output_bytes |}.

Definition analyze_rust_graph_impact (request : RustGraphImpactRequest) : trace_ctl RustGraphImpactResult :=
  trace ← trace_rust_graph (trace_request request);
  lift (classify request trace).

(** ** The loop over the trace *)

Section absorbing.
Context (start : RustGraphDefinitionIdentity).

(** A relationship that passes a direct connection on. *)
Definition solid (e : RustGraphTraversalEdge) : bool :=
  negb (is_ambiguous (edge_cardinality e))
  && negb (bool_decide (edge_extraction_evidence e = SyntaxHeuristic))
  && negb (bool_decide (edge_resolution_evidence e = ExactNameHeuristic)).

(** A path of solid reported relationships leads to the start. *)
Inductive directly (rs : list RustGraphTraceEdge) : RustGraphDefinitionIdentity → Prop :=
| DirectlyStart : directly rs start
| DirectlyStep r : r ∈ rs → solid (relationship r) = true → directly rs (edge_target (relationship r)) →
    directly rs (edge_source (relationship r)).

Lemma directly_mono rs rs' v : (∀ r, r ∈ rs → r ∈ rs') → directly rs v → directly rs' v.
Proof. intros Hsub. induction 1; [apply DirectlyStart|apply DirectlyStep; auto]. Qed.

Lemma propagated_class_cases parent e :
  propagated_class parent e =
  if bool_decide (parent = DirectlyConnected) && solid e then DirectlyConnected else Possible.
Proof.
  unfold propagated_class, solid. by repeat case_bool_decide; destruct (is_ambiguous _).
Qed.

(** What is recorded of a declaration after some relationships: the start is direct at depth
    0; any other was the source of a relationship, its depth is the least of those, and it is
    direct only with a direct path. *)
Record recorded (rs : list RustGraphTraceEdge) (v : RustGraphDefinitionIdentity) (c : RustGraphImpactClass)
    (d : Z) : Prop := {
  recorded_start : v = start → c = DirectlyConnected ∧ d = 0;
  recorded_class : c = DirectlyConnected ∧ directly rs v ∨ c = Possible;
  recorded_depth : v ≠ start →
    (∃ r, r ∈ rs ∧ edge_source (relationship r) = v ∧ trace_depth r = d) ∧
    ∀ r, r ∈ rs → edge_source (relationship r) = v → d ≤ trace_depth r;
}.

Record absorbed (rs : list RustGraphTraceEdge) (m : strengths) (unknown : bool) : Prop := {
  absorbed_wf : bmap_wf m;
  absorbed_start : is_Some (bmap_get start m);
  absorbed_sources r : r ∈ rs → is_Some (bmap_get (edge_source (relationship r)) m);
  absorbed_recorded v c d : bmap_get v m = Some (c, d) → recorded rs v c d;
  absorbed_unknown :
    unknown = existsb (λ r, card_candidates_truncated (edge_cardinality (relationship r))) rs;
}.

Lemma absorbed_nil : absorbed [] [(start, (DirectlyConnected, 0))] false.
Proof.
  split; simpl; [repeat constructor|by rewrite cmp_refl|by intros r ?%elem_of_nil| |done].
  intros v c d. destruct (cmp v start) eqn:E; [|done..]. apply cmp_eq in E as ->.
  intros [= <- <-]. split; [done|left; split; [done|apply DirectlyStart]|done].
Qed.

Lemma absorb_traced_step rs m u r :
  absorbed rs m u → Forall (λ r, 0 ≤ trace_depth r) (rs ++ [r]) →
  is_Some (bmap_get (edge_target (relationship r)) m) →
  ∃ m' u', absorb_traced (m, u) r = Ok (m', u') ∧ absorbed (rs ++ [r]) m' u'.
Proof.
  intros [Hwf Hst Hsrc Hrec Hu] Hdepth [[pc pd] Hp]. unfold absorb_traced. rewrite Hp.
  eexists _, _. split; [done|]. unfold strengthen. set (v := edge_source (relationship r)).
  set (entry := match bmap_get v m with Some _ => _ | None => _ end).
  assert (∀ w, w ∈ rs → w ∈ rs ++ [r]) as Hincl by (intros; rewrite elem_of_app; by left).
  split.
  - by apply bmap_insert_wf.
  - rewrite bmap_get_insert by done. by case_decide.
  - intros r'. rewrite elem_of_app, list_elem_of_singleton, bmap_get_insert by done. intros Hr.
    case_decide as Hd; [done|]. destruct Hr as [?| ->]; [auto|done].
  - intros w c d. rewrite bmap_get_insert by done. case_decide as Hw; cycle 1.
    { intros Hget. destruct (Hrec w c d Hget) as [R1 R2 R3]. split; [done|..].
      - destruct R2 as [[? ?]|?]; [left; split; [done|by eapply directly_mono]|by right].
      - intros Hne. destruct (R3 Hne) as [(r' & ? & ? & ?) Hmin]. split; [exists r'; auto|].
        intros r''. rewrite elem_of_app, list_elem_of_singleton. intros [?| ->] ?; [auto|done]. }
    subst w. intros Hentry. injection Hentry as Hentry.
    assert (propagated_class pc (relationship r) = DirectlyConnected ∧ directly (rs ++ [r]) v ∨
      propagated_class pc (relationship r) = Possible) as Hcl.
    { rewrite propagated_class_cases. case_bool_decide as Hpc; simpl; [|by right].
      destruct (solid (relationship r)) eqn:Hs; [left; split; [done|]|by right]. subst pc.
      apply DirectlyStep; [rewrite elem_of_app; right; by left|done|].
      apply (directly_mono rs); [done|]. by destruct (Hrec _ _ _ Hp) as [_ [[_ ?]|?] _]. }
    rewrite Forall_app, Forall_singleton in Hdepth. destruct Hdepth as [_ Hdr].
    destruct (bmap_get v m) as [[c0 d0]|] eqn:Hget.
    + destruct (Hrec v c0 d0 Hget) as [R1 R2 R3]. injection Hentry as <- <-. split.
      * intros Hv. destruct (R1 Hv) as [-> ->]. split; [|lia].
        by destruct Hcl as [[-> _]| ->].
      * destruct (cmp _ c0) eqn:Hc; [|destruct Hcl as [?|?]; [by left|by right]|];
          (destruct R2 as [[? ?]|?]; [left; split; [done|by eapply directly_mono]|by right]).
      * intros Hne. destruct (R3 Hne) as [(r' & ? & ? & ?) Hmin]. split.
        { destruct (Z.min_spec d0 (trace_depth r)) as [[_ ->]|[_ ->]]; [exists r'; auto|].
          exists r. rewrite elem_of_app, list_elem_of_singleton. auto. }
        intros r''. rewrite elem_of_app, list_elem_of_singleton. intros [?| ->] ?; [|lia].
        assert (d0 ≤ trace_depth r'') by auto. lia.
    + injection Hentry as <- <-. split.
      * intros Hv. rewrite Hv in Hget. rewrite Hget in Hst. by destruct Hst.
      * destruct Hcl as [?|?]; [by left|by right].
      * intros Hne. split; [exists r; rewrite elem_of_app, list_elem_of_singleton; auto|].
        intros r''. rewrite elem_of_app, list_elem_of_singleton. intros [Hin| ->] Hv; [|lia].
        apply Hsrc in Hin. rewrite Hv, Hget in Hin. by destruct Hin.
  - rewrite existsb_app, Hu. simpl. by rewrite orb_false_r.
Qed.

(** Each relationship leads to the start or to the source of one before it. *)
Definition connected (rs : list RustGraphTraceEdge) : Prop :=
  ∀ before r after, rs = before ++ r :: after →
    edge_target (relationship r) = start ∨
    ∃ r', r' ∈ before ∧ edge_source (relationship r') = edge_target (relationship r).

Lemma absorb_all past rs m u :
  absorbed past m u → connected (past ++ rs) → Forall (λ r, 0 ≤ trace_depth r) (past ++ rs) →
  ∃ m' u', try_fold absorb_traced (m, u) rs = Ok (m', u') ∧ absorbed (past ++ rs) m' u'.
Proof.
  revert past m u. induction rs as [|r rs IH]; intros past m u Habs Hc Hd.
  { rewrite app_nil_r. eauto. }
  destruct (absorb_traced_step past m u r Habs) as (m' & u' & Heq & Habs').
  - rewrite cons_middle, app_assoc, Forall_app in Hd. by destruct Hd.
  - destruct (Hc past r rs eq_refl) as [->|(r' & Hr' & <-)]; [by destruct Habs|by apply (absorbed_sources _ _ _ Habs)].
  - rewrite (cons_middle r past rs), (app_assoc past [r] rs) in *. destruct (IH _ _ _ Habs' Hc Hd) as (m2 & u2 & Hf & Ha).
    exists m2, u2. split; [|done]. cbn [try_fold]. rewrite Heq. exact Hf.
Qed.
End absorbing.

(** ** The projection *)

Definition impact_key (i : RustGraphImpact) := (minimum_depth i, (impact_class i, impact_definition i)).
Lemma compare_impact_key l r : compare_impact l r = cmp (impact_key l) (impact_key r).
Proof. reflexivity. Qed.
#[export] Instance compare_impact_comparator : Comparator compare_impact := comparator_by impact_key.

Section impact.
Context (request : RustGraphImpactRequest).
Context (Hlimits : limits_ok (impact_limits request)).
Context (Hrep : Forall representable (impact_edges request)).

Notation start := (impact_start request).
Notation limits := (impact_limits request).

Definition items_of (m : strengths) : list RustGraphImpact :=
  map (λ '(definition, (class, depth)), Build_RustGraphImpact class definition depth)
    (filter (λ '(definition, _), definition ≠ start) m).

Lemma elem_of_items m i : bmap_wf m →
  i ∈ items_of m ↔ impact_definition i ≠ start ∧
    bmap_get (impact_definition i) m = Some (impact_class i, minimum_depth i).
Proof.
  intros Hwf. unfold items_of. rewrite list_elem_of_fmap. split.
  - intros ([v [c d]] & -> & [Hne Hin]%list_elem_of_filter). simpl. split; [done|]. exact (proj2 (bmap_get_elem v (c, d) m Hwf) Hin).
  - intros [Hne Hin%bmap_get_elem]; [|done]. exists (impact_definition i, (impact_class i, minimum_depth i)). split; [by destruct i|].
    apply list_elem_of_filter. split; [exact Hne|exact Hin].
Qed.

Lemma items_NoDup m : bmap_wf m → NoDup (map impact_definition (items_of m)).
Proof.
  intros Hwf%bset_wf_NoDup. unfold items_of. rewrite map_map.
  induction m as [|[v [c d]] m IH]; [constructor|]. csimpl in *. apply NoDup_cons in Hwf as [Hn Hwf].
  rewrite filter_cons. case_decide; [|by apply IH]. csimpl. constructor; [|by apply IH].
  intros ([w [c' d']] & Hw & [_ Hin]%list_elem_of_filter)%list_elem_of_fmap. apply Hn.
  simpl in Hw. subst. apply list_elem_of_fmap. by exists (w, (c', d')).
Qed.

Definition impact_size (items : list RustGraphImpact) : Z :=
  foldr (λ i n, IMPACT_ITEM_FIXED_BYTES + definition_size (impact_definition i) + n) 0 items.

Lemma impact_size_nonneg items : 0 ≤ impact_size items.
Proof.
  induction items as [|i items IH]; simpl; [lia|].
  unfold IMPACT_ITEM_FIXED_BYTES, definition_size, DEFINITION_FIXED_BYTES. lia.
Qed.

Lemma impact_size_perm items items' : items ≡ₚ items' → impact_size items = impact_size items'.
Proof. intros Hp. unfold impact_size. apply (foldr_permutation eq _ 0); [|done]. intros. lia. Qed.

(** Counting the items: the sum, or the limit error. *)
Lemma count_impacts n items :
  0 ≤ n ≤ max_output_bytes limits + IMPACT_OUTPUT_FIXED_BYTES →
  Forall (λ i, definition_size (impact_definition i) ≤ MAX_INPUT_BYTES) items →
  try_fold (count_impact limits) n items =
    if bool_decide (items = []) || (n + impact_size items <=? max_output_bytes limits)
    then Ok (n + impact_size items) else Err OutputLimitExceeded.
Proof.
  destruct Hlimits as (_ & _ & _ & _ & _ & _ & _ & Hout).
  intros Hn Hall. revert n Hn. induction Hall as [|i items Hi Hall IH]; intros n Hn.
  { simpl. by rewrite Z.add_0_r. }
  assert (0 ≤ definition_size (impact_definition i)) by (unfold definition_size, DEFINITION_FIXED_BYTES; lia).
  pose proof (impact_size_nonneg items). rewrite bool_decide_false by done. cbn [try_fold orb].
  assert (count_impact limits n i =
    if n + (IMPACT_ITEM_FIXED_BYTES + definition_size (impact_definition i)) <=? max_output_bytes limits
    then Ok (n + (IMPACT_ITEM_FIXED_BYTES + definition_size (impact_definition i))) else Err OutputLimitExceeded) as ->.
  { unfold count_impact. rewrite encoded_definition_bytes_eq.
    unfold MAX_OUTPUT_BYTES, MAX_INPUT_BYTES, IMPACT_OUTPUT_FIXED_BYTES, IMPACT_ITEM_FIXED_BYTES, u64_max in *.
    destruct (definition_size _ <=? _) eqn:E; [|lia]. rstep. unfold u64_checked_add, u64_max.
    rewrite !checked_in by lia. rstep. unfold reject_if. rewrite Z.add_assoc.
    by destruct (_ <? _) eqn:E1, (_ <=? max_output_bytes limits) eqn:E2; try lia. }
  simpl impact_size. destruct (_ <=? max_output_bytes limits) eqn:E; rstep.
  - rewrite IH by (unfold IMPACT_ITEM_FIXED_BYTES, IMPACT_OUTPUT_FIXED_BYTES in *; lia).
    rewrite !Z.add_assoc. case_bool_decide as Hnil; [|done]. subst items. simpl in *.
    rewrite !Z.add_0_r. rewrite Z.add_assoc in E. by rewrite E.
  - match goal with |- _ = (if ?b then _ else _) => replace b with false by lia end. done.
Qed.

(** The classification of a trace. *)
Lemma classify_eq t :
  connected start (res_edges t) → Forall (λ r, 0 ≤ trace_depth r) (res_edges t) →
  Forall (λ r, edge_size (relationship r) ≤ MAX_INPUT_BYTES) (res_edges t) →
  0 ≤ res_output_bytes t ≤ max_output_bytes limits →
  ∃ m, absorbed start (res_edges t) m (existsb (λ r, card_candidates_truncated (edge_cardinality (relationship r))) (res_edges t)) ∧
    classify request t =
      let items := sort_by compare_impact (items_of m) in
      let output := res_output_bytes t + IMPACT_OUTPUT_FIXED_BYTES + impact_size items in
      if bool_decide (items = []) || (output <=? max_output_bytes limits) then
        Ok {| impact_trace := t; impacted := items;
              unknown_coverage := has_unknown_impact (res_coverage t) || trunc_any (res_truncation t)
                || existsb (λ r, card_candidates_truncated (edge_cardinality (relationship r))) (res_edges t);
              impact_output_bytes := output |}
      else Err OutputLimitExceeded.
Proof.
  intros Hc Hd Hsz Ho.
  destruct (absorb_all start [] (res_edges t) _ _ (absorbed_nil start) Hc Hd) as (m & u & Hf & Habs).
  pose proof (absorbed_unknown _ _ _ _ Habs) as Hu. simpl in Habs, Hu. subst u. exists m. split; [exact Habs|].
  unfold classify. rewrite Hf. rstep. fold (items_of m).
  destruct Hlimits as (_ & _ & _ & _ & _ & _ & _ & Hmax).
  unfold u64_checked_add. rewrite checked_in by (unfold MAX_OUTPUT_BYTES, IMPACT_OUTPUT_FIXED_BYTES, u64_max in *; lia).
  rstep. rewrite count_impacts.
  - cbv zeta. by destruct (bool_decide _ || _).
  - unfold IMPACT_OUTPUT_FIXED_BYTES. lia.
  - rewrite Forall_forall. intros i. rewrite elem_of_sort_by, elem_of_items by apply (absorbed_wf _ _ _ _ Habs).
    intros [Hne Hget]. apply (absorbed_recorded _ _ _ _ Habs) in Hget as [_ _ Hdep].
    destruct (Hdep Hne) as [(r & Hr & <- & _) _]. rewrite Forall_forall in Hsz. specialize (Hsz r Hr).
    unfold edge_size, definition_size, DEFINITION_FIXED_BYTES, SITE_FIXED_BYTES in *. lia.
Qed.

(** What the trace of the request provides. *)
Lemma impact_trace_facts o t :
  run o (trace_rust_graph (trace_request request)) = Ok t →
  connected start (res_edges t) ∧ Forall (λ r, 0 ≤ trace_depth r) (res_edges t) ∧
  Forall (λ r, edge_size (relationship r) ≤ MAX_INPUT_BYTES) (res_edges t) ∧
  0 ≤ res_output_bytes t ≤ max_output_bytes limits.
Proof.
  intros Hrun. destruct (trace_returns (trace_request request) o Hlimits Hrep t Hrun) as (Hadm & _ & tr & -> & Hout).
  destruct Hout as [Hs [_ Hres _ Hground] _ _ _]. simpl. split_and!.
  - intros before [d e] after Heq. destruct (Hground before d e after Heq) as [Hin|(d' & e' & Hin & Hn)].
    + left. by apply list_elem_of_singleton in Hin.
    + right. exists {| trace_depth := d'; relationship := e' |}. split; [done|]. exact Hn.
  - rewrite Forall_forall. intros [d e] (n & _ & -> & _)%Hres. simpl. lia.
  - rewrite Forall_forall. intros [d e] (n & _ & _ & He & _)%Hres. simpl.
    pose proof (total_size_elem e _ He) as Hle. pose proof (adm_bytes _ _ Hadm) as Hb.
    destruct Hlimits as (_ & ? & _). simpl in *. lia.
  - rewrite (sound_accounting _ _ Hs). pose proof (trace_size_nonneg (results tr)). unfold TRACE_OUTPUT_FIXED_BYTES. lia.
  - apply Hs.
Qed.

Lemma run_analyze o :
  run o (analyze_rust_graph_impact request) = (t ← run o (trace_rust_graph (trace_request request)); classify request t).
Proof.
  unfold analyze_rust_graph_impact, run, mbind, ctl_bind, result_bind, lift.
  destruct (trace_rust_graph _ o 0%nat) as [[t n]|e]; [|done]. by destruct (classify request t).
Qed.

(** An analysis that returns: its trace and the record it is read from. *)
Lemma analysis_returns o r :
  run o (analyze_rust_graph_impact request) = Ok r →
  run o (trace_rust_graph (trace_request request)) = Ok (impact_trace r) ∧
  ∃ m u, absorbed start (res_edges (impact_trace r)) m u ∧
    impacted r = sort_by compare_impact (items_of m) ∧
    unknown_coverage r = has_unknown_impact (res_coverage (impact_trace r)) || trunc_any (res_truncation (impact_trace r)) || u ∧
    impact_output_bytes r = res_output_bytes (impact_trace r) + IMPACT_OUTPUT_FIXED_BYTES + impact_size (impacted r) ∧
    (impacted r ≠ [] → impact_output_bytes r ≤ max_output_bytes limits).
Proof.
  rewrite run_analyze. destruct (run o (trace_rust_graph _)) as [t|e] eqn:Ht; [|done]. rstep. intros Hr.
  destruct (impact_trace_facts o t Ht) as (H1 & H2 & H3 & H4).
  destruct (classify_eq t H1 H2 H3 H4) as (m & Habs & Heq). rewrite Heq in Hr. cbv zeta in Hr.
  destruct (bool_decide _ || _) eqn:Hb; [|done]. injection Hr as <-. simpl. split; [done|].
  eexists m, _. split_and!; [exact Habs|done|done|done|]. intros Hne.
  rewrite bool_decide_false in Hb by done. simpl in Hb. lia.
Qed.

Lemma elem_of_impacted m i : bmap_wf m →
  i ∈ sort_by compare_impact (items_of m) ↔ impact_definition i ≠ start ∧
    bmap_get (impact_definition i) m = Some (impact_class i, minimum_depth i).
Proof. intros Hwf. by rewrite elem_of_sort_by, elem_of_items. Qed.
End impact.

(** ** Complete traces *)

Lemma distance_0 edges direction kinds d v : shortest edges direction kinds [d] [] 0 v ↔ v = d.
Proof.
  split.
  - intros [Hr _]. inversion Hr as [? Hin|]; subst. by apply list_elem_of_singleton in Hin.
  - intros ->. split; [apply ReachBase; by left|lia].
Qed.

Section complete.
Context (request : RustGraphImpactRequest) (o : nat → option RustGraphTraceError).
Context (Hlimits : limits_ok (impact_limits request)).
Context (Hrep : Forall representable (impact_edges request)).
Context (r : RustGraphImpactResult).
Context (Hrun : run o (analyze_rust_graph_impact request) = Ok r).
Context (Hclean : clean (res_truncation (impact_trace r)) = true).

Notation distance := (shortest (impact_edges request) Inbound (impact_edge_kinds request) [impact_start request] []).

Lemma complete_traced t :
  t ∈ res_edges (impact_trace r) ↔
  ∃ n, Z.of_nat n < max_depth (impact_limits request) ∧ trace_depth t = Z.of_nat n + 1 ∧
    (relationship t ∈ impact_edges request ∧ allowed (impact_edge_kinds request) (relationship t) = true) ∧
    distance n (edge_target (relationship t)).
Proof.
  destruct t as [k e]. destruct (analysis_returns request Hlimits Hrep o r Hrun) as [Ht _].
  exact (clean_definition_results (trace_request request) o Hlimits Hrep (impact_start request) (impact_trace r)
    eq_refl Ht Hclean k e).
Qed.

(** A declaration [n + 1] away is reported at that depth, and at none less. *)
Lemma complete_reported n v :
  distance (S n) v → Z.of_nat n < max_depth (impact_limits request) →
  ∃ t, t ∈ res_edges (impact_trace r) ∧ edge_source (relationship t) = v ∧ trace_depth t = Z.of_nat (S n).
Proof.
  intros (e & He & Ha & Hv & Ho)%shortest_step Hn. exists {| trace_depth := Z.of_nat (S n); relationship := e |}.
  split_and!; [|exact Hv|done]. apply complete_traced. exists n. simpl. split_and!; [done|lia|done|done|exact Ho].
Qed.

Lemma complete_depth t :
  t ∈ res_edges (impact_trace r) → edge_source (relationship t) ≠ impact_start request →
  ∃ n, distance (S n) (edge_source (relationship t)) ∧ Z.of_nat (S n) ≤ trace_depth t ≤ max_depth (impact_limits request).
Proof.
  intros (n & Hn & Hd & [He Ha] & Hs)%complete_traced Hne.
  destruct (reach_shortest (impact_edges request) Inbound (impact_edge_kinds request) [impact_start request] []
    (S n) (edge_source (relationship t))) as (m & Hm & Hsm).
  { destruct Hs as [Hr _]. exact (ReachStep _ _ _ _ _ n (relationship t) Hr He Ha ltac:(apply not_elem_of_nil)). }
  destruct m as [|m]; [by apply distance_0 in Hsm|]. exists m. split; [done|lia].
Qed.
End complete.

(** ** Properties *)

(** C36: what an inbound impact analysis reports is true of its trace.  Each impacted
    declaration is another than the start, once; its depth is the least depth at which the
    trace reports a relationship from it; it is directly connected only if a path of
    reported unambiguous, non-heuristic relationships leads from it to the start, and
    possible otherwise; every source of a reported relationship but the start is there; the
    list is sorted by depth, class and declaration; and unknown coverage is flagged exactly
    when the coverage, a truncation or a truncated candidate list says so. *)
Theorem impact_sound (request : RustGraphImpactRequest) o r :
  limits_ok (impact_limits request) → Forall representable (impact_edges request) →
  run o (analyze_rust_graph_impact request) = Ok r →
  let rs := res_edges (impact_trace r) in
  let start := impact_start request in
  run o (trace_rust_graph (trace_request request)) = Ok (impact_trace r) ∧
  NoDup (map impact_definition (impacted r)) ∧ StronglySorted (cle compare_impact) (impacted r) ∧
  (∀ i, i ∈ impacted r →
    impact_definition i ≠ start ∧
    (impact_class i = DirectlyConnected ∧ directly start rs (impact_definition i) ∨ impact_class i = Possible) ∧
    (∃ t, t ∈ rs ∧ edge_source (relationship t) = impact_definition i ∧ trace_depth t = minimum_depth i) ∧
    (∀ t, t ∈ rs → edge_source (relationship t) = impact_definition i → minimum_depth i ≤ trace_depth t)) ∧
  (∀ t, t ∈ rs → edge_source (relationship t) ≠ start →
    ∃ i, i ∈ impacted r ∧ impact_definition i = edge_source (relationship t)) ∧
  (unknown_coverage r = true ↔ has_unknown_impact (impact_coverage request) = true ∨
    trunc_any (res_truncation (impact_trace r)) = true ∨
    ∃ t, t ∈ rs ∧ card_candidates_truncated (edge_cardinality (relationship t)) = true).
Proof.
  intros Hl Hr Hrun rs start.
  destruct (analysis_returns request Hl Hr o r Hrun) as (Ht & m & u & Habs & Hi & Hu & _).
  pose proof Habs as [Hwf Hst Hsrc Hrec Hunk].
  assert (res_coverage (impact_trace r) = impact_coverage request) as Hcov.
  { destruct (trace_returns (trace_request request) o Hl Hr _ Ht) as (_ & _ & tr & -> & _). done. }
  split_and!; [done|..].
  - rewrite Hi. rewrite (Permutation_map impact_definition (sort_by_perm compare_impact (items_of request m))).
    by apply items_NoDup.
  - rewrite Hi. apply sort_by_sorted, _.
  - intros i. rewrite Hi, elem_of_impacted by done. intros [Hne Hget].
    destruct (Hrec _ _ _ Hget) as [_ Hc Hd]. destruct (Hd Hne). split_and!; done.
  - intros t Hin Hne. destruct (Hsrc t Hin) as [[c d] Hget].
    exists {| impact_class := c; impact_definition := edge_source (relationship t); minimum_depth := d |}.
    split; [|done]. by rewrite Hi, elem_of_impacted.
  - rewrite Hu, Hunk, Hcov, !orb_true_iff, existsb_exists. setoid_rewrite <- list_elem_of_In. tauto.
Qed.

(** C37: a complete impact analysis finds every affected declaration at its distance.  When
    the trace leaves nothing out, a declaration other than the start is listed at a depth
    exactly when that depth is within the limit and is the length of a shortest path of
    allowed relationships from it to the start. *)
Theorem impact_complete (request : RustGraphImpactRequest) o r :
  limits_ok (impact_limits request) → Forall representable (impact_edges request) →
  run o (analyze_rust_graph_impact request) = Ok r → clean (res_truncation (impact_trace r)) = true →
  ∀ v k, v ≠ impact_start request →
  (∃ i, i ∈ impacted r ∧ impact_definition i = v ∧ minimum_depth i = k) ↔
  ∃ n, k = Z.of_nat n ∧ k ≤ max_depth (impact_limits request) ∧
    shortest (impact_edges request) Inbound (impact_edge_kinds request) [impact_start request] [] n v.
Proof.
  intros Hl Hr Hrun Hc v k Hne.
  destruct (analysis_returns request Hl Hr o r Hrun) as (_ & m & u & [Hwf _ Hsrc Hrec _] & Hi & _).
  assert (∀ i, i ∈ impacted r → impact_definition i = v → ∃ n, minimum_depth i = Z.of_nat n ∧
    minimum_depth i ≤ max_depth (impact_limits request) ∧
    shortest (impact_edges request) Inbound (impact_edge_kinds request) [impact_start request] [] n v) as Hfwd.
  { intros i Hin <-. rewrite Hi, elem_of_impacted in Hin by done. destruct Hin as [_ Hget].
    destruct (Hrec _ _ _ Hget) as [_ _ Hd]. destruct (Hd Hne) as [(t & Ht & Hsv & Hdt) Hmin].
    destruct (complete_depth request o Hl Hr r Hrun Hc t Ht) as (n & Hs & Hle); [by rewrite Hsv|].
    rewrite Hsv in Hs. destruct (complete_reported request o Hl Hr r Hrun Hc n _ Hs) as (t' & Ht' & Hv' & Hd'); [lia|].
    specialize (Hmin t' Ht' Hv'). exists (S n). split_and!; [lia|lia|done]. }
  split.
  - intros (i & Hin & Hv & <-). destruct (Hfwd i Hin Hv) as (n & ? & ? & ?). eauto.
  - intros (n & -> & Hle & Hs). destruct n as [|n]; [by apply distance_0 in Hs|].
    destruct (complete_reported request o Hl Hr r Hrun Hc n v Hs) as (t & Ht & Hv & Hd); [lia|].
    destruct (Hsrc t Ht) as [[c d] Hget]. rewrite Hv in Hget.
    set (i := {| impact_class := c; impact_definition := v; minimum_depth := d |}).
    assert (i ∈ impacted r) as Hin by by rewrite Hi, elem_of_impacted.
    exists i. split_and!; [done|done|]. destruct (Hfwd i Hin eq_refl) as (n' & Hd' & _ & Hs').
    by rewrite Hd', (shortest_unique _ _ _ _ _ _ _ _ Hs' Hs).
Qed.

(** After its trace, an impact analysis can only exceed the output limit.  The loop
    always finds the class of the declaration a relationship leads to, no count overflows;
    the bytes are those of the trace, a fixed part and each declaration, and they are within
    the limit whenever a declaration is impacted. *)
Theorem impact_total (request : RustGraphImpactRequest) o t :
  limits_ok (impact_limits request) → Forall representable (impact_edges request) →
  run o (trace_rust_graph (trace_request request)) = Ok t →
  run o (analyze_rust_graph_impact request) = Err OutputLimitExceeded ∨
  ∃ r, run o (analyze_rust_graph_impact request) = Ok r ∧ impact_trace r = t ∧
    impact_output_bytes r = res_output_bytes t + IMPACT_OUTPUT_FIXED_BYTES + impact_size (impacted r) ∧
    (impacted r ≠ [] → impact_output_bytes r ≤ max_output_bytes (impact_limits request)).
Proof.
  intros Hl Hr Ht. destruct (impact_trace_facts request Hl Hr o t Ht) as (H1 & H2 & H3 & H4).
  destruct (classify_eq request Hl t H1 H2 H3 H4) as (m & _ & Heq). cbv zeta in Heq.
  assert (run o (analyze_rust_graph_impact request) = classify request t) as Hrun by by rewrite run_analyze, Ht.
  destruct (bool_decide _ || _) eqn:Hb; rewrite Heq in Hrun; [right|by left].
  eexists. split; [exact Hrun|]. destruct (analysis_returns request Hl Hr o _ Hrun) as (_ & _ & _ & _ & _ & _ & Ho & Hle).
  done.
Qed.

(** ** Examples *)

Module impact_sample.
Definition request (edges : list RustGraphTraversalEdge) (start output : Z) : RustGraphImpactRequest :=
  {| impact_edges := edges; impact_start := sample.decl start; impact_edge_kinds := edge_kinds_ALL;
     impact_limits := {| max_input_edges := 10; max_input_bytes := 10000; max_depth := 9; max_results := 10;
       max_visited_nodes := 10; max_visited_edges := 10; max_frontier := 10; max_output_bytes := output |};
     impact_coverage := sample.coverage |}.

(** What reaches declaration 4. *)
Definition on_4 : RustGraphImpactRequest := request sample.edges 4 10000.

Definition no_result (r : RustGraphImpactRequest) : RustGraphImpactResult :=
  {| impact_trace := reference_trace (trace_request r); impacted := []; unknown_coverage := true; impact_output_bytes := 0 |}.
Definition result_of (r : RustGraphImpactRequest) : RustGraphImpactResult :=
  match run never (analyze_rust_graph_impact r) with Ok t => t | Err _ => no_result r end.

Lemma on_4_limits : limits_ok (impact_limits on_4).
Proof. unfold limits_ok. vm_compute. intuition discriminate. Qed.

(** 1 calls 0; 3 calls 0 or 9, and calls 1; 2 calls 3. *)
Definition upgraded : list RustGraphTraversalEdge :=
  [sample.call 1 0 0 Unique; sample.call 3 0 0 (Ambiguous 2 2 false); sample.call 3 0 9 (Ambiguous 2 2 false);
   sample.call 3 1 1 Unique; sample.call 2 0 3 Unique].
End impact_sample.

(** Classes are not propagated again when a declaration turns out to be directly connected
    after it was used: 2 calls 3 calls 1 calls 0, each unambiguously, yet 2 is only possible. *)
Lemma direct_path_reported_possible :
  let r := impact_sample.result_of (impact_sample.request impact_sample.upgraded 0 10000) in
  map (λ i, (def_fact_ordinal (impact_definition i), impact_class i)) (impacted r) =
    [(1, DirectlyConnected); (3, DirectlyConnected); (2, Possible)] ∧
  directly (sample.decl 0) (res_edges (impact_trace r)) (sample.decl 2).
Proof.
  intros r. split; [vm_compute; reflexivity|].
  assert (res_edges (impact_trace r) = map (λ '(d, e), Build_RustGraphTraceEdge d e)
    [(1, sample.call 1 0 0 Unique); (1, sample.call 3 0 0 (Ambiguous 2 2 false));
     (2, sample.call 2 0 3 Unique); (2, sample.call 3 1 1 Unique)]) as -> by (vm_compute; reflexivity).
  apply (DirectlyStep _ _ (Build_RustGraphTraceEdge 2 (sample.call 2 0 3 Unique))); [simpl; repeat constructor|done|].
  apply (DirectlyStep _ _ (Build_RustGraphTraceEdge 2 (sample.call 3 1 1 Unique))); [simpl; repeat constructor|done|].
  apply (DirectlyStep _ _ (Build_RustGraphTraceEdge 1 (sample.call 1 0 0 Unique))); [simpl; repeat constructor|done|].
  apply DirectlyStart.
Qed.

(** The output limit is tested per impacted declaration only: with none, the fixed part goes
    over it unnoticed. *)
Lemma empty_impact_exceeds_limit :
  run never (analyze_rust_graph_impact (impact_sample.request [] 0 100)) =
  Ok (impact_sample.result_of (impact_sample.request [] 0 100)) ∧
  impact_output_bytes (impact_sample.result_of (impact_sample.request [] 0 100)) = 160.
Proof. split; vm_compute; reflexivity. Qed.

Lemma impact_sound_witness :
  NoDup (map impact_definition (impacted (impact_sample.result_of impact_sample.on_4))).
Proof.
  apply (impact_sound impact_sample.on_4 never (impact_sample.result_of impact_sample.on_4));
    [apply impact_sample.on_4_limits|apply sample.representable_edges|vm_compute; reflexivity].
Defined.

Lemma impact_complete_witness :
  (∃ i, i ∈ impacted (impact_sample.result_of impact_sample.on_4) ∧
    impact_definition i = sample.decl 0 ∧ minimum_depth i = 3) ↔
  ∃ n, 3 = Z.of_nat n ∧ 3 ≤ 9 ∧ shortest sample.edges Inbound edge_kinds_ALL [sample.decl 4] [] n (sample.decl 0).
Proof.
  apply (impact_complete impact_sample.on_4 never (impact_sample.result_of impact_sample.on_4));
    [apply impact_sample.on_4_limits|apply sample.representable_edges|vm_compute; reflexivity|
     vm_compute; reflexivity|discriminate].
Defined.

Lemma impact_total_witness :
  run never (analyze_rust_graph_impact impact_sample.on_4) = Err OutputLimitExceeded ∨
  ∃ r, run never (analyze_rust_graph_impact impact_sample.on_4) = Ok r ∧
    impact_trace r = impact_trace (impact_sample.result_of impact_sample.on_4) ∧
    impact_output_bytes r = res_output_bytes (impact_trace (impact_sample.result_of impact_sample.on_4))
      + IMPACT_OUTPUT_FIXED_BYTES + impact_size (impacted r) ∧
    (impacted r ≠ [] → impact_output_bytes r ≤ max_output_bytes (impact_limits impact_sample.on_4)).
Proof.
  apply (impact_total impact_sample.on_4 never);
    [apply impact_sample.on_4_limits|apply sample.representable_edges|vm_compute; reflexivity].
Defined.
