(* ===== verification/ResolutionSyntax.v ===== *)
(** * The text grammar of the resolver

    Models the parsers of [crates/repowitness-analysis/src/rust_graph/resolution/support.rs]:
    paths, imports and the terminal turbofish.  A [&str] is its UTF-8 bytes; an offset found
    in it is a character boundary, since what is searched for is ASCII. *)

From Stdlib Require Import ZArith Lia ZifyBool.
From Stdlib Require Import Strings.Byte.
From stdpp Require Import base numbers list.
From S2P Require Import Prelude.

Open Scope Z_scope.

(** ** What the code uses of [str] *)

Definition contains_byte (b : byte) (s : bytes) : bool := existsb (λ c, bool_decide (c = b)) s.

(** [str::contains(&str)], and [str::contains([char; n])] for ASCII characters. *)
Fixpoint contains_str (needle s : bytes) : bool :=
  starts_with needle s || match s with [] => false | _ :: s => contains_str needle s end.
Definition contains_any (needles : bytes) (s : bytes) : bool :=
  existsb (λ c, existsb (λ b, bool_decide (c = b)) needles) s.

Definition ends_with_byte (b : byte) (s : bytes) : bool := bool_decide (last s = Some b).

(** [u8::is_ascii_whitespace], by which [split_ascii_whitespace] splits. *)
Definition is_ascii_whitespace (b : byte) : bool :=
  match Byte.to_N b with 32%N | 9%N | 10%N | 12%N | 13%N => true | _ => false end.

Fixpoint split_ascii_whitespace_acc (word : bytes) (s : bytes) : list bytes :=
  let emit words := match word with [] => words | _ => word :: words end in
  match s with
  | [] => emit []
  | b :: s =>
      if is_ascii_whitespace b then emit (split_ascii_whitespace_acc [] s)
      else split_ascii_whitespace_acc (word ++ [b]) s
  end.
Definition split_ascii_whitespace (s : bytes) : list bytes := split_ascii_whitespace_acc [] s.

(** [char::is_whitespace]: the White_Space characters, as UTF-8. *)
Definition whitespace_here (s : bytes) : bool :=
  match map Byte.to_N (take 3 s) with
  | 9%N :: _ | 10%N :: _ | 11%N :: _ | 12%N :: _ | 13%N :: _ | 32%N :: _ => true
  | 194%N :: 133%N :: _ | 194%N :: 160%N :: _ => true
  | 225%N :: 154%N :: 128%N :: _ => true
  | 226%N :: 128%N :: b :: _ =>
      ((128 <=? b) && (b <=? 138) || (b =? 168) || (b =? 169) || (b =? 175))%N
  | 226%N :: 129%N :: 159%N :: _ => true
  | 227%N :: 128%N :: 128%N :: _ => true
  | _ => false
  end.
Fixpoint contains_whitespace (s : bytes) : bool :=
  whitespace_here s || match s with [] => false | _ :: s => contains_whitespace s end.

Definition colons : bytes := b_of "::".

(** [str::split("::")]. *)
Fixpoint split_colons_acc (word : bytes) (s : bytes) : list bytes :=
  match s with
  | [] => [word]
  | x3a :: x3a :: s => word :: split_colons_acc [] s
  | b :: s => split_colons_acc (word ++ [b]) s
  end.
Definition split_colons (s : bytes) : list bytes := split_colons_acc [] s.

(** [str::rsplit_once("::")]. *)
Fixpoint rsplit_once (s : bytes) : option (bytes * bytes) :=
  match s with
  | [] => None
  | b :: s' =>
      match rsplit_once s' with
      | Some (prefix, suffix) => Some (b :: prefix, suffix)
      | None => match strip_prefix colons s with Some suffix => Some ([], suffix) | None => None end
      end
  end.

(** [str::rfind]. *)
Fixpoint rfind (needle s : bytes) : option nat :=
  match s with
  | [] => if starts_with needle [] then Some 0%nat else None
  | b :: s' =>
      match rfind needle s' with
      | Some n => Some (S n)
      | None => if starts_with needle s then Some 0%nat else None
      end
  end.

(** ** The parsers *)

Definition is_alphabetic (b : byte) : bool :=
  let n := Byte.to_N b in ((65 <=? n) && (n <=? 90) || (97 <=? n) && (n <=? 122))%N.
Definition is_digit (b : byte) : bool := let n := Byte.to_N b in ((48 <=? n) && (n <=? 57))%N.
Definition is_underscore (b : byte) : bool := bool_decide (b = x5f).

Definition is_identifier (value : bytes) : bool :=
  let value := default value (strip_prefix (b_of "r#") value) in
  match value with
  | [] => false
  | first :: rest =>
      (is_underscore first || is_alphabetic first)
      && forallb (λ b, is_underscore b || is_alphabetic b || is_digit b) rest
  end.

Definition path_punctuation : bytes := b_of "{}*!.()[]&=".

Definition parse_path (raw : bytes) : option (bytes * bool * bool) :=
  if bool_decide (raw = []) || contains_whitespace raw || contains_any path_punctuation raw
     || starts_with (b_of "self::") raw || starts_with (b_of "super::") raw
  then None
  else
    let '(path, same_slot) :=
      match strip_prefix (b_of "crate::") raw with
      | Some path => (path, true)
      | None => match strip_prefix colons raw with
                | Some path => (path, false)
                | None => (raw, false)
                end
      end in
    if bool_decide (path = []) || negb (forallb is_identifier (split_colons path)) then None
    else Some (path, same_slot, negb (contains_str colons path)).

Record ParsedImport := {
  import_target : bytes;
  import_alias : option bytes;
  import_same_slot : bool;
}.

(** [target.rsplit("::").next()]. *)
Definition last_component (target : bytes) : bytes :=
  match rsplit_once target with Some (_, suffix) => suffix | None => target end.

Definition parse_import (raw : bytes) : option ParsedImport :=
  match
    match split_ascii_whitespace raw with
    | [target] => Some (target, None)
    | [target; keyword; alias] => if bool_decide (keyword = b_of "as") then Some (target, Some alias) else None
    | _ => None
    end
  with
  | None => None
  | Some (raw_target, explicit_alias) =>
      match parse_path raw_target with
      | None => None
      | Some (target, same_slot, _) =>
          match
            match explicit_alias with
            | Some alias =>
                if bool_decide (alias = b_of "_") then Some None
                else if is_identifier alias then Some (Some alias) else None
            | None =>
                let alias := last_component target in
                Some (if bool_decide (alias = b_of "self") then None else Some alias)
            end
          with
          | None => None
          | Some alias => Some {| import_target := target; import_alias := alias; import_same_slot := same_slot |}
          end
      end
  end.

(** One character of the scan for balanced angle brackets, a [u32] depth. *)
Definition turbofish_depth (depth : option Z) (character : byte) : option Z :=
  match depth with
  | None => None
  | Some depth =>
      if bool_decide (character = x3c) then checked u32_max (depth + 1)
      else if bool_decide (character = x3e) then checked u32_max (depth - 1)
      else Some depth
  end.

Definition strip_terminal_turbofish (raw : bytes) : option bytes :=
  match rfind (b_of "::<") raw with
  | None => None
  | Some marker =>
      let suffix := drop (marker + 2) raw in
      if negb (ends_with_byte x3e suffix) then None
      else match foldl turbofish_depth (Some 0) suffix with
           | None => None
           | Some depth => if (depth =? 0) && negb (Nat.eqb marker 0) then Some (take marker raw) else None
           end
  end.
