(* ===== verification/SymbolFacts.v ===== *)
(** * Declaration facts

    Models the facts of [crates/repowitness-analysis/src/rust_source.rs] with their
    validation ([rust_source/analyzer.rs]) and the fingerprint of a declaration
    ([rust_correspondence.rs]): what a persisted analysis must satisfy to be read back, and
    to be reused for an exact source.  SHA-256 is a parameter; [usize] is 64 bits wide, so
    the conversions between [u64] and [usize] are the identity.  A [&str] is its UTF-8
    bytes. *)

From Stdlib Require Import ZArith Lia ZifyBool.
From Stdlib Require Import Strings.Byte.
From stdpp Require Import base numbers sorting list.
From S2P Require Import Prelude Ordering GraphIdentity.

Open Scope Z_scope.

(** ** Stable spellings of the declaration categories *)

Definition symbol_kind_str (k : RustSymbolKind) : bytes :=
  match k with
  | Function => b_of "function"
  | Method => b_of "method"
  | Struct => b_of "struct"
  | Enum => b_of "enum"
  | Union => b_of "union"
  | Trait => b_of "trait"
  | Module_ => b_of "module"
  | TypeAlias => b_of "type_alias"
  | Constant => b_of "constant"
  | Static => b_of "static"
  | Macro => b_of "macro"
  | Interface => b_of "interface"
  | DefinedType => b_of "defined_type"
  | Variable_ => b_of "variable"
  | Class_ => b_of "class"
  end.

Definition symbol_kind_from_stable_str (value : bytes) : option RustSymbolKind :=
  if decide (value = b_of "function") then Some Function
  else if decide (value = b_of "method") then Some Method
  else if decide (value = b_of "struct") then Some Struct
  else if decide (value = b_of "enum") then Some Enum
  else if decide (value = b_of "union") then Some Union
  else if decide (value = b_of "trait") then Some Trait
  else if decide (value = b_of "module") then Some Module_
  else if decide (value = b_of "type_alias") then Some TypeAlias
  else if decide (value = b_of "constant") then Some Constant
  else if decide (value = b_of "static") then Some Static
  else if decide (value = b_of "macro") then Some Macro
  else if decide (value = b_of "interface") then Some Interface
  else if decide (value = b_of "defined_type") then Some DefinedType
  else if decide (value = b_of "variable") then Some Variable_
  else if decide (value = b_of "class") then Some Class_
  else None.

(** ** Limits and errors *)

Definition FACT_MAX_SOURCE_BYTES : Z := 8 * 1024 * 1024.
Definition FACT_MAX_SYNTAX_NODES : Z := 1000000.
Definition FACT_MAX_SYNTAX_DEPTH : Z := 256.
Definition MAX_SYMBOL_FACTS : Z := 100000.
Definition MAX_SYMBOL_NAME_BYTES : Z := 1024.
Definition MAX_QUALIFIED_NAME_BYTES : Z := 4096.

Record RustAnalysisLimits := {
  fact_max_source_bytes : Z;
  fact_max_syntax_nodes : Z;
  fact_max_syntax_depth : Z;
  max_symbol_facts : Z;
  max_symbol_name_bytes : Z;
  max_qualified_name_bytes : Z;
}.

Inductive RustAnalysisError :=
| AnalysisInvalidLimits | SourceLimitExceeded | GrammarUnavailable | ParseFailed
| AnalysisCancelled | AnalysisDeadlineExceeded | NodeLimitExceeded | DepthLimitExceeded
| FactLimitExceeded | NameLimitExceeded | QualifiedNameLimitExceeded | InvalidIdentifierEncoding
| InvalidSourceSpan | InvalidAnalysisArtifact.

Definition analysis_limits_DEFAULT : RustAnalysisLimits :=
  {| fact_max_source_bytes := FACT_MAX_SOURCE_BYTES; fact_max_syntax_nodes := FACT_MAX_SYNTAX_NODES;
     fact_max_syntax_depth := FACT_MAX_SYNTAX_DEPTH; max_symbol_facts := MAX_SYMBOL_FACTS;
     max_symbol_name_bytes := MAX_SYMBOL_NAME_BYTES;
     max_qualified_name_bytes := MAX_QUALIFIED_NAME_BYTES |}.

Definition analysis_limits_try_new (source_bytes syntax_nodes syntax_depth symbol_facts
    symbol_name_bytes qualified_name_bytes : Z) : result RustAnalysisError RustAnalysisLimits :=
  if (source_bytes =? 0) || (FACT_MAX_SOURCE_BYTES <? source_bytes)
     || (syntax_nodes =? 0) || (FACT_MAX_SYNTAX_NODES <? syntax_nodes)
     || (syntax_depth =? 0) || (FACT_MAX_SYNTAX_DEPTH <? syntax_depth)
     || (symbol_facts =? 0) || (MAX_SYMBOL_FACTS <? symbol_facts)
     || (symbol_name_bytes =? 0) || (MAX_SYMBOL_NAME_BYTES <? symbol_name_bytes)
     || (qualified_name_bytes =? 0) || (MAX_QUALIFIED_NAME_BYTES <? qualified_name_bytes)
  then Err AnalysisInvalidLimits
  else Ok {| fact_max_source_bytes := source_bytes; fact_max_syntax_nodes := syntax_nodes;
             fact_max_syntax_depth := syntax_depth; max_symbol_facts := symbol_facts;
             max_symbol_name_bytes := symbol_name_bytes;
             max_qualified_name_bytes := qualified_name_bytes |}.

(** ** Facts *)

Record RustOccurrenceFingerprint := {
  fp_declaration : bytes;
  fp_name_elided : bytes;
}.

#[export] Instance fingerprint_eq_dec : EqDecision RustOccurrenceFingerprint.
Proof. solve_decision. Defined.

Record RustSymbolFact := {
  fact_kind : RustSymbolKind;
  fact_name : bytes;
  fact_qualified_name : bytes;
  fact_name_span : ByteSpan;
  fact_declaration_span : ByteSpan;
  fact_correspondence : option RustOccurrenceFingerprint;
}.

#[export] Instance fact_eq_dec : EqDecision RustSymbolFact.
Proof. solve_decision. Defined.

Definition validate_fact_structure (fact : RustSymbolFact) (limits : RustAnalysisLimits)
    : result RustAnalysisError () :=
  if bool_decide (fact_name fact = []) || bool_decide (fact_qualified_name fact = [])
     || (max_symbol_name_bytes limits <? len (fact_name fact))
     || (max_qualified_name_bytes limits <? len (fact_qualified_name fact))
     || (span_start (fact_name_span fact) <? span_start (fact_declaration_span fact))
     || (span_end (fact_declaration_span fact) <? span_end (fact_name_span fact))
  then Err InvalidAnalysisArtifact
  else Ok ().

Definition fact_try_new_inner (kind : RustSymbolKind) (name qualified_name : bytes)
    (name_span declaration_span : ByteSpan) (correspondence : option RustOccurrenceFingerprint)
    (limits : RustAnalysisLimits) : result RustAnalysisError RustSymbolFact :=
  let fact := {| fact_kind := kind; fact_name := name; fact_qualified_name := qualified_name;
                 fact_name_span := name_span; fact_declaration_span := declaration_span;
                 fact_correspondence := correspondence |} in
  validate_fact_structure fact limits;;
  Ok fact.

Definition fact_try_new (kind : RustSymbolKind) (name qualified_name : bytes)
    (name_span declaration_span : ByteSpan) (limits : RustAnalysisLimits)
    : result RustAnalysisError RustSymbolFact :=
  fact_try_new_inner kind name qualified_name name_span declaration_span None limits.

Definition fact_try_new_with_correspondence (kind : RustSymbolKind) (name qualified_name : bytes)
    (name_span declaration_span : ByteSpan) (correspondence : RustOccurrenceFingerprint)
    (limits : RustAnalysisLimits) : result RustAnalysisError RustSymbolFact :=
  fact_try_new_inner kind name qualified_name name_span declaration_span (Some correspondence) limits.

(** ** The fingerprint of a declaration *)

Inductive RustCorrespondenceError :=
| CorrInvalidOccurrence | CorrCandidateLimitExceeded | InvalidCandidateCount | DuplicateCandidate.

Definition MAX_CORRESPONDENCE_NAME_BYTES : Z := 256.
Definition MAX_CORRESPONDENCE_QUALIFIED_NAME_BYTES : Z := 1024.

(** [char::is_control]: the characters of category Cc, as UTF-8. *)
Definition control_here (s : bytes) : bool :=
  match map Byte.to_N (take 2 s) with
  | 194%N :: b :: _ => ((128 <=? b) && (b <=? 159))%N
  | b :: _ => ((b <=? 31) || (b =? 127))%N
  | [] => false
  end.
Fixpoint contains_control (s : bytes) : bool :=
  control_here s || match s with [] => false | _ :: s => contains_control s end.

(** [str::strip_suffix]. *)
Definition strip_suffix (suffix text : bytes) : option bytes :=
  let n := (length text - length suffix)%nat in
  if bool_decide (drop n text = suffix) then Some (take n text) else None.

(** The container of a declaration: its qualified name less [::] and the name. *)
Definition validate_names (name qualified_name : bytes) : result RustCorrespondenceError bytes :=
  if bool_decide (name = []) || (MAX_CORRESPONDENCE_NAME_BYTES <? len name)
     || bool_decide (qualified_name = [])
     || (MAX_CORRESPONDENCE_QUALIFIED_NAME_BYTES <? len qualified_name)
     || contains_control name || contains_control qualified_name
  then Err CorrInvalidOccurrence
  else if bool_decide (qualified_name = name) then Ok []
  else ok_or
         (prefix ← strip_suffix name qualified_name;
          container ← strip_suffix (b_of "::") prefix;
          if bool_decide (container = []) then None else Some container)
         CorrInvalidOccurrence.

Definition NAME_ELIDED_DOMAIN : bytes :=
  b_of "RepoWitness" ++ [x00] ++ b_of "rust-correspondence" ++ [x00] ++ b_of "name-elided" ++ [x00]
  ++ b_of "v1" ++ [x00].
Definition NAME_MARKER : bytes := b_of "<repowitness-symbol-name>".

(** What [update_length_prefixed] appends to the hashed bytes. *)
Definition length_prefixed (value : bytes) : bytes :=
  u64_be_bytes (default u64_max (u64_of_len (length value))) ++ value.

(** The bytes hashed with the name taken out. *)
Definition name_elided_bytes (kind : RustSymbolKind) (container before after : bytes) : bytes :=
  NAME_ELIDED_DOMAIN ++ length_prefixed (symbol_kind_str kind) ++ length_prefixed container
  ++ length_prefixed before ++ length_prefixed NAME_MARKER ++ length_prefixed after.

Section fingerprint.
Context (sha256 : bytes → bytes).

Definition fingerprint_rust_occurrence (source : bytes) (fact : RustSymbolFact)
    : result RustCorrespondenceError RustOccurrenceFingerprint :=
  let declaration_start := span_start (fact_declaration_span fact) in
  let declaration_end := span_end (fact_declaration_span fact) in
  let name_start := span_start (fact_name_span fact) in
  let name_end := span_end (fact_name_span fact) in
  declaration ← ok_or (slice_get source declaration_start declaration_end) CorrInvalidOccurrence;
  if (name_start <? declaration_start) || (declaration_end <? name_end)
     || negb (bool_decide (slice_get source name_start name_end = Some (fact_name fact)))
  then Err CorrInvalidOccurrence
  else
    container ← validate_names (fact_name fact) (fact_qualified_name fact);
    before ← ok_or (slice_get source declaration_start name_start) CorrInvalidOccurrence;
    after ← ok_or (slice_get source name_end declaration_end) CorrInvalidOccurrence;
    Ok {| fp_declaration := sha256 declaration;
          fp_name_elided := sha256 (name_elided_bytes (fact_kind fact) container before after) |}.

(** ** Analyses of one source *)

Definition validate_reusable_fact (fact : RustSymbolFact) (source : bytes) (limits : RustAnalysisLimits)
    : result RustAnalysisError () :=
  validate_fact_structure fact limits;;
  let name_start := span_start (fact_name_span fact) in
  let name_end := span_end (fact_name_span fact) in
  let declaration_end := span_end (fact_declaration_span fact) in
  if (len source <? declaration_end)
     || negb (bool_decide (slice_get source name_start name_end = Some (fact_name fact)))
  then Err InvalidAnalysisArtifact
  else
    match fact_correspondence fact with
    | None => Ok ()
    | Some expected =>
        actual ← map_err (λ _, InvalidAnalysisArtifact) (fingerprint_rust_occurrence source fact);
        if negb (bool_decide (actual = expected)) then Err InvalidAnalysisArtifact else Ok ()
    end.

Record RustSourceAnalysis := {
  analysis_facts : list RustSymbolFact;
  analysis_visited_nodes : Z;
  analysis_syntax_error_nodes : Z;
  analysis_known_parser_limitation_nodes : Z;
}.

Definition analysis_try_from_parts (facts : list RustSymbolFact)
    (visited_nodes syntax_error_nodes known_parser_limitation_nodes : Z) (limits : RustAnalysisLimits)
    : result RustAnalysisError RustSourceAnalysis :=
  fact_count ← ok_or (u32_of_len (length facts)) InvalidAnalysisArtifact;
  if (visited_nodes =? 0) || (fact_max_syntax_nodes limits <? visited_nodes)
     || (visited_nodes <? syntax_error_nodes) || (syntax_error_nodes <? known_parser_limitation_nodes)
     || (max_symbol_facts limits <? fact_count)
  then Err InvalidAnalysisArtifact
  else
    try_fold (λ _ fact, validate_fact_structure fact limits) () facts;;
    Ok {| analysis_facts := facts; analysis_visited_nodes := visited_nodes;
          analysis_syntax_error_nodes := syntax_error_nodes;
          analysis_known_parser_limitation_nodes := known_parser_limitation_nodes |}.

Definition validate_for_reuse (a : RustSourceAnalysis) (source : bytes) (limits : RustAnalysisLimits)
    : result RustAnalysisError () :=
  source_bytes ← ok_or (u64_of_len (length source)) InvalidAnalysisArtifact;
  if (fact_max_source_bytes limits <? source_bytes)
     || (analysis_visited_nodes a =? 0)
     || (fact_max_syntax_nodes limits <? analysis_visited_nodes a)
     || (analysis_visited_nodes a <? analysis_syntax_error_nodes a)
     || (analysis_syntax_error_nodes a <? analysis_known_parser_limitation_nodes a)
     || (max_symbol_facts limits <? Z.of_nat (length (analysis_facts a)))
  then Err InvalidAnalysisArtifact
  else try_fold (λ _ fact, validate_reusable_fact fact source limits) () (analysis_facts a).
End fingerprint.

(** ** Theorems *)

Lemma slice_get_Some s a b t :
  0 ≤ a → slice_get s a b = Some t ↔ ∃ p q, s = p ++ t ++ q ∧ len p = a ∧ len (p ++ t) = b.
Proof.
  intros Ha. unfold slice_get, len. split.
  - destruct (_ && _) eqn:E; [|done]. intros [= <-].
    exists (take (Z.to_nat a) s), (drop (Z.to_nat (b - a)) (drop (Z.to_nat a) s)).
    rewrite !take_drop, length_app, !length_take, length_drop. repeat split; lia.
  - intros (p & q & -> & <- & <-). rewrite !length_app.
    rewrite (proj2 (andb_true_iff _ _)) by lia. f_equal. rewrite Nat2Z.id, drop_app_length.
    replace (Z.to_nat _) with (length t) by lia. apply take_app_length.
Qed.

Lemma strip_suffix_Some suffix text prefix :
  strip_suffix suffix text = Some prefix ↔ text = prefix ++ suffix.
Proof.
  unfold strip_suffix. split.
  - case_bool_decide as Hd; [|done]. intros [= <-]. by rewrite <- Hd at 2; rewrite take_drop.
  - intros ->. rewrite length_app.
    replace (length prefix + length suffix - length suffix)%nat with (length prefix) by lia.
    by rewrite drop_app_length, bool_decide_true, take_app_length.
Qed.

(** A name and a qualified name within their bounds and free of control characters. *)
Record names_admissible (name qualified_name : bytes) : Prop := {
  adm_name : name ≠ [];
  adm_qualified : qualified_name ≠ [];
  adm_name_len : len name ≤ MAX_CORRESPONDENCE_NAME_BYTES;
  adm_qualified_len : len qualified_name ≤ MAX_CORRESPONDENCE_QUALIFIED_NAME_BYTES;
  adm_name_control : contains_control name = false;
  adm_qualified_control : contains_control qualified_name = false;
}.

(** The container either is empty, of a declaration at the top, or precedes [::name]. *)
Definition contained (container name qualified_name : bytes) : Prop :=
  if decide (container = []) then qualified_name = name
  else qualified_name = container ++ b_of "::" ++ name.

Lemma contained_inj container container' name qualified_name :
  contained container name qualified_name → contained container' name qualified_name →
  container = container'.
Proof.
  unfold contained. repeat case_decide; subst; try done.
  - intros -> H2%(f_equal length). rewrite length_app in H2. simpl in H2. lia.
  - intros -> H2%(f_equal length). rewrite length_app in H2. simpl in H2. lia.
  - intros ->. by intros ?%app_inv_tail.
Qed.

Lemma validate_names_Ok name qualified_name container :
  validate_names name qualified_name = Ok container ↔
  names_admissible name qualified_name ∧ contained container name qualified_name.
Proof.
  unfold validate_names. split.
  - destruct (_ || _) eqn:E; [done|].
    rewrite !orb_false_iff, !bool_decide_eq_false in E. destruct E as (((((? & ?) & ?) & ?) & ?) & ?).
    assert (names_admissible name qualified_name) as Hadm by (constructor; lia || done).
    case_bool_decide as Hq; [intros [= <-]; split; [done|]; unfold contained; by rewrite decide_True|].
    intros H'. split; [done|]. unfold ok_or in H'.
    destruct (strip_suffix name qualified_name) as [prefix|] eqn:E1; [|done]. simpl in H'.
    destruct (strip_suffix (b_of "::") prefix) as [c|] eqn:E2; [|done]. simpl in H'.
    apply strip_suffix_Some in E1 as ->, E2 as ->.
    case_bool_decide; [done|]. injection H' as <-. unfold contained.
    rewrite decide_False by done. by rewrite <- app_assoc.
  - intros [[Hn Hq Hl Hql Hc Hqc] Hcon]. rewrite (bool_decide_false _ Hn), (bool_decide_false _ Hq), Hc, Hqc.
    rewrite (proj2 (Z.ltb_ge _ _) Hl), (proj2 (Z.ltb_ge _ _) Hql). cbn [orb].
    unfold contained in Hcon. case_decide as D.
    + subst container. by rewrite bool_decide_true.
    + rewrite Hcon, app_assoc, bool_decide_false.
      2:{ intros Heq%(f_equal length). rewrite !length_app in Heq. simpl in Heq. lia. }
      rewrite (proj2 (strip_suffix_Some name _ (container ++ b_of "::")) eq_refl).
      cbn [mbind option_bind].
      rewrite (proj2 (strip_suffix_Some (b_of "::") _ container) eq_refl).
      cbn [mbind option_bind]. by rewrite bool_decide_false.
Qed.

(** Where a declaration stands in its source: its name between the text before and after. *)
Definition located (source : bytes) (fact : RustSymbolFact) (before after : bytes) : Prop :=
  ∃ p q, source = p ++ before ++ fact_name fact ++ after ++ q
    ∧ span_start (fact_declaration_span fact) = len p
    ∧ span_start (fact_name_span fact) = len (p ++ before)
    ∧ span_end (fact_name_span fact) = len (p ++ before ++ fact_name fact)
    ∧ span_end (fact_declaration_span fact) = len (p ++ before ++ fact_name fact ++ after).

Lemma slice_get_at p t q a b : a = len p → b = len (p ++ t) → slice_get (p ++ t ++ q) a b = Some t.
Proof. intros -> ->. apply slice_get_Some; [apply len_nonneg|]. by exists p, q. Qed.

Lemma prefix_of_source source p q p' q' :
  source = p ++ q → source = p' ++ q' → len p = len p' → p = p'.
Proof. intros -> Heq Hl. apply app_inj_1 in Heq as [? _]; [done|]. unfold len in Hl. lia. Qed.

Section fingerprint_theorems.
Context (sha256 : bytes → bytes).

Lemma fingerprint_Ok source fact fp :
  0 ≤ span_start (fact_declaration_span fact) →
  fingerprint_rust_occurrence sha256 source fact = Ok fp ↔
  ∃ before after container, located source fact before after
    ∧ names_admissible (fact_name fact) (fact_qualified_name fact)
    ∧ contained container (fact_name fact) (fact_qualified_name fact)
    ∧ fp = {| fp_declaration := sha256 (before ++ fact_name fact ++ after);
              fp_name_elided := sha256 (name_elided_bytes (fact_kind fact) container before after) |}.
Proof.
  intros Hpos. unfold fingerprint_rust_occurrence, located. split.
  - destruct (slice_get source (span_start (fact_declaration_span fact)) (span_end (fact_declaration_span fact)))
      as [decl|] eqn:E1; [|by rstep]. rstep.
    destruct (_ || _) eqn:E2; [by rstep|].
    rewrite !orb_false_iff, negb_false_iff, bool_decide_eq_true in E2. destruct E2 as [[Hs He] En].
    destruct (validate_names _ _) as [c|] eqn:E3; [|by rstep]. apply validate_names_Ok in E3 as [Ha Hc]. rstep.
    destruct (slice_get source _ (span_start _)) as [before|] eqn:E4; [|by rstep]. rstep.
    destruct (slice_get source (span_end _) _) as [after|] eqn:E5; [|by rstep]. rstep.
    intros [= <-].
    apply slice_get_Some in En as (p1 & q1 & Hsrc & Hp1 & Hn1); [|lia].
    apply slice_get_Some in E4 as (p2 & q2 & Hsrc2 & Hp2 & Hn2); [|lia].
    pose proof (len_nonneg p1). pose proof (len_nonneg (fact_name fact)).
    apply slice_get_Some in E5 as (p3 & q3 & Hsrc3 & Hp3 & Hn3); [|rewrite len_app in Hn1; lia].
    apply slice_get_Some in E1 as (p4 & q4 & Hsrc4 & Hp4 & Hn4); [|done].
    pose proof (prefix_of_source _ _ _ _ _ Hsrc (eq_trans Hsrc2 (app_assoc _ _ _))
      ltac:(rewrite Hp1, Hn2; done)) as ->.
    pose proof (prefix_of_source _ _ _ _ _ Hsrc3 (eq_trans Hsrc (app_assoc _ _ _))
      ltac:(rewrite Hp3, Hn1; done)) as ->.
    pose proof (prefix_of_source _ _ _ _ _ Hsrc4 Hsrc2 ltac:(rewrite Hp4, Hp2; done)) as ->.
    assert (decl = before ++ fact_name fact ++ after) as ->.
    { rewrite Hsrc3, <- !app_assoc in Hsrc4. apply app_inv_head in Hsrc4.
      rewrite !(app_assoc before), !(app_assoc (before ++ _)) in Hsrc4.
      apply app_inj_1 in Hsrc4 as [<- _]; [by rewrite <- !app_assoc|].
      rewrite !len_app in *. unfold len in *. rewrite !length_app. lia. }
    exists before, after, c. split_and!; [|done..]. exists p2, q3.
    rewrite Hsrc3 at 1. rewrite !len_app, <- !app_assoc in *. split_and!; [done|lia..].
  - intros (before & after & c & (p & q & Hsrc & H1 & H2 & H3 & H4) & Ha & Hc & ->).
    assert (∀ t u v a b, a = len t → b = len (t ++ u) → source = t ++ u ++ v →
              slice_get source a b = Some u) as Hget.
    { intros t u v a b -> -> ->. by apply slice_get_at. }
    rewrite (Hget p (before ++ fact_name fact ++ after) q _ _ H1 H4) by (by rewrite Hsrc, <- !app_assoc).
    rewrite (Hget (p ++ before) (fact_name fact) (after ++ q) _ _ H2)
      by (rewrite ?H3, ?Hsrc, <- !app_assoc; done).
    rewrite (Hget p before (fact_name fact ++ after ++ q) _ _ H1 H2 Hsrc).
    rewrite (Hget (p ++ before ++ fact_name fact) after q _ _ H3)
      by (rewrite ?H4, ?Hsrc, <- !app_assoc; done).
    rewrite (proj2 (validate_names_Ok _ _ c) (conj Ha Hc)). rstep.
    rewrite H1, H2, H3, H4, !len_app, bool_decide_true by done.
    pose proof (len_nonneg before). pose proof (len_nonneg after).
    rewrite (proj2 (orb_false_iff _ _)); [done|]. split; [|done]. rewrite orb_false_iff. lia.
Qed.
End fingerprint_theorems.

Lemma located_inj source fact before after before' after' :
  located source fact before after → located source fact before' after' →
  before = before' ∧ after = after'.
Proof.
  intros (p & q & Hs & H1 & H2 & H3 & H4) (p' & q' & Hs' & H1' & H2' & H3' & H4').
  pose proof (prefix_of_source _ _ _ _ _ Hs Hs' ltac:(lia)) as <-.
  rewrite Hs in Hs'. apply app_inv_head in Hs'. rewrite !len_app in *. unfold len in *.
  apply app_inj_1 in Hs' as [-> Hs']; [|lia]. apply app_inv_head in Hs'.
  apply app_inj_1 in Hs' as [-> _]; [done|lia].
Qed.

(** A declaration is located exactly when its spans nest inside the source and the name span
    covers the name. *)
Lemma located_iff source fact :
  0 ≤ span_start (fact_declaration_span fact) →
  (∃ before after, located source fact before after) ↔
  span_start (fact_declaration_span fact) ≤ span_start (fact_name_span fact)
  ∧ span_end (fact_name_span fact) ≤ span_end (fact_declaration_span fact) ≤ len source
  ∧ slice_get source (span_start (fact_name_span fact)) (span_end (fact_name_span fact))
    = Some (fact_name fact).
Proof.
  intros Hpos. split.
  - intros (before & after & p & q & Hs & H1 & H2 & H3 & H4).
    rewrite H1, H2, H3, H4, Hs, !len_app.
    pose proof (len_nonneg before). pose proof (len_nonneg after). pose proof (len_nonneg q).
    split; [lia|]. split; [lia|]. rewrite app_assoc. apply slice_get_at; [by rewrite len_app|].
    by rewrite <- app_assoc, !len_app.
  - intros (Hst & [Hen Hl] & (p & q & Hs & Hp & Hn)%slice_get_Some); [|lia].
    set (a := Z.to_nat (span_start (fact_declaration_span fact))).
    set (b := Z.to_nat (span_end (fact_declaration_span fact) - span_end (fact_name_span fact))).
    exists (drop a p), (take b q), (take a p), (drop b q).
    rewrite !app_assoc, take_drop, <- !app_assoc, take_drop.
    rewrite Hs, !len_app in *. unfold len in *. rewrite !length_take in *.
    subst a b. split_and!; [done|lia..].
Qed.

(** [length_prefixed] can be read back: no value is confused with what follows it. *)
Lemma length_prefixed_inj v w x y :
  len v ≤ u64_max → len w ≤ u64_max →
  length_prefixed v ++ x = length_prefixed w ++ y → v = w ∧ x = y.
Proof.
  assert (∀ s, len s ≤ u64_max → u64_of_len (length s) = Some (len s)) as Hu.
  { intros s Hs. apply checked_in. split; [apply len_nonneg|done]. }
  intros Hv Hw. unfold length_prefixed. rewrite !Hu by done. simpl default.
  rewrite <- !app_assoc. intros [H1 H2]%app_inj_1; [|unfold u64_be_bytes; by rewrite !length_be_bytes].
  apply be_bytes_inj in H1.
  - apply app_inj_1 in H2; [done|]. unfold len in H1. lia.
  - pose proof (len_nonneg v). change (256 ^ Z.of_nat 8) with (u64_max + 1). lia.
  - pose proof (len_nonneg w). change (256 ^ Z.of_nat 8) with (u64_max + 1). lia.
Qed.

Lemma symbol_kind_from_str_str k : symbol_kind_from_stable_str (symbol_kind_str k) = Some k.
Proof. by destruct k. Qed.
Lemma symbol_kind_str_inj k k' : symbol_kind_str k = symbol_kind_str k' → k = k'.
Proof. intros H%(f_equal symbol_kind_from_stable_str). rewrite !symbol_kind_from_str_str in H. congruence. Qed.

(** The two identities a fingerprint carries, in terms of the source text. *)
Definition name_elided_identity (fact : RustSymbolFact) (container before after : bytes) :=
  (fact_kind fact, container, before, after).

Lemma name_elided_bytes_inj k c b a k' c' b' a' :
  len c ≤ u64_max → len c' ≤ u64_max → len b ≤ u64_max → len b' ≤ u64_max →
  len a ≤ u64_max → len a' ≤ u64_max →
  name_elided_bytes k c b a = name_elided_bytes k' c' b' a' → k = k' ∧ c = c' ∧ b = b' ∧ a = a'.
Proof.
  intros Hc Hc' Hb Hb' Ha Ha' H. unfold name_elided_bytes in H. apply app_inv_head in H.
  apply length_prefixed_inj in H as [Hk%symbol_kind_str_inj H]; [|by destruct k|by destruct k'].
  apply length_prefixed_inj in H as [-> H]; [|done..].
  apply length_prefixed_inj in H as [-> H]; [|done..]. apply app_inv_head in H.
  rewrite <- (app_nil_r (length_prefixed a)), <- (app_nil_r (length_prefixed a')) in H.
  by apply length_prefixed_inj in H as [-> _].
Qed.

Lemma contained_len container name qualified_name :
  contained container name qualified_name → len container ≤ len qualified_name.
Proof.
  unfold contained. case_decide as D.
  - intros ->. rewrite D. apply len_nonneg.
  - intros ->. rewrite len_app. pose proof (len_nonneg (b_of "::" ++ name)). lia.
Qed.

Lemma located_len source fact before after :
  located source fact before after → len source ≤ u64_max → len before ≤ u64_max ∧ len after ≤ u64_max.
Proof.
  intros (p & q & -> & _) H. rewrite !len_app in H.
  pose proof (len_nonneg p). pose proof (len_nonneg q). pose proof (len_nonneg before).
  pose proof (len_nonneg after). pose proof (len_nonneg (fact_name fact)). lia.
Qed.

(** Two fingerprinted declarations have the same name-elided digest exactly when they have the
    same kind, the same container and the same text before and after the name, and the same
    declaration digest exactly when their declarations are the same bytes: nothing else of the
    sources or the spans enters the fingerprint, and no two different inputs are confused by the
    length-prefixed encoding. *)
Theorem fingerprint_identity (sha256 : bytes → bytes)
    (sha256_collision_free : ∀ x y, sha256 x = sha256 y → x = y)
    source source' fact fact' fp fp' before before' after after' container container' :
  len source ≤ u64_max → len source' ≤ u64_max →
  0 ≤ span_start (fact_declaration_span fact) → 0 ≤ span_start (fact_declaration_span fact') →
  located source fact before after → located source' fact' before' after' →
  contained container (fact_name fact) (fact_qualified_name fact) →
  contained container' (fact_name fact') (fact_qualified_name fact') →
  fingerprint_rust_occurrence sha256 source fact = Ok fp →
  fingerprint_rust_occurrence sha256 source' fact' = Ok fp' →
  (fp_name_elided fp = fp_name_elided fp' ↔
     name_elided_identity fact container before after = name_elided_identity fact' container' before' after')
  ∧ (fp_declaration fp = fp_declaration fp' ↔
     before ++ fact_name fact ++ after = before' ++ fact_name fact' ++ after').
Proof.
  intros Hl Hl' Hpos Hpos' Hloc Hloc' Hcon Hcon' Hfp Hfp'.
  apply fingerprint_Ok in Hfp as (b & a & c & Hloc1 & [_ _ _ Hq _ _] & Hcon1 & ->); [|done].
  apply fingerprint_Ok in Hfp' as (b' & a' & c' & Hloc1' & [_ _ _ Hq' _ _] & Hcon1' & ->); [|done].
  destruct (located_inj _ _ _ _ _ _ Hloc Hloc1) as [-> ->].
  destruct (located_inj _ _ _ _ _ _ Hloc' Hloc1') as [-> ->].
  rewrite (contained_inj _ _ _ _ Hcon Hcon1), (contained_inj _ _ _ _ Hcon' Hcon1').
  pose proof (contained_len _ _ _ Hcon1). pose proof (contained_len _ _ _ Hcon1').
  destruct (located_len _ _ _ _ Hloc Hl), (located_len _ _ _ _ Hloc' Hl').
  unfold MAX_CORRESPONDENCE_QUALIFIED_NAME_BYTES, u64_max, name_elided_identity in *. simpl. split; split.
  - intros (-> & -> & -> & ->)%sha256_collision_free%name_elided_bytes_inj; unfold u64_max; try done; lia.
  - by intros [= -> -> -> ->].
  - apply sha256_collision_free.
  - by intros ->.
Qed.

(** What [validate_for_reuse] promises of each fact. *)
Definition reusable (sha256 : bytes → bytes) (source : bytes) (limits : RustAnalysisLimits)
    (fact : RustSymbolFact) : Prop :=
  fact_name fact ≠ [] ∧ fact_qualified_name fact ≠ []
  ∧ len (fact_name fact) ≤ max_symbol_name_bytes limits
  ∧ len (fact_qualified_name fact) ≤ max_qualified_name_bytes limits
  ∧ (∃ before after, located source fact before after)
  ∧ ∀ fp, fact_correspondence fact = Some fp → fingerprint_rust_occurrence sha256 source fact = Ok fp.

Lemma validate_fact_structure_Ok fact limits :
  validate_fact_structure fact limits = Ok () ↔
  fact_name fact ≠ [] ∧ fact_qualified_name fact ≠ []
  ∧ len (fact_name fact) ≤ max_symbol_name_bytes limits
  ∧ len (fact_qualified_name fact) ≤ max_qualified_name_bytes limits
  ∧ span_start (fact_declaration_span fact) ≤ span_start (fact_name_span fact)
  ∧ span_end (fact_name_span fact) ≤ span_end (fact_declaration_span fact).
Proof.
  unfold validate_fact_structure. destruct (_ || _) eqn:E.
  - split; [done|]. intros (H1 & H2 & H3 & H4 & H5 & H6).
    rewrite (bool_decide_false _ H1), (bool_decide_false _ H2) in E. lia.
  - rewrite !orb_false_iff, !bool_decide_eq_false in E. split; [|done]. intros _. split_and!; try tauto; lia.
Qed.

Lemma validate_reusable_fact_Ok sha256 fact source limits :
  0 ≤ span_start (fact_declaration_span fact) →
  validate_reusable_fact sha256 fact source limits = Ok () ↔ reusable sha256 source limits fact.
Proof.
  intros Hpos. unfold validate_reusable_fact, reusable. rewrite located_iff by done.
  destruct (validate_fact_structure fact limits) as [[]|e] eqn:E; rstep.
  - apply validate_fact_structure_Ok in E as (H1 & H2 & H3 & H4 & H5 & H6).
    destruct (_ || _) eqn:E2.
    + split; [done|]. intros (_ & _ & _ & _ & (_ & [_ Hd] & Hs) & _).
      rewrite Hs, bool_decide_true in E2 by done. simpl in E2. lia.
    + rewrite orb_false_iff, negb_false_iff, bool_decide_eq_true in E2. destruct E2 as [Hd Hs].
      destruct (fact_correspondence fact) as [fp|]; [|split; [|done]; intros _; split_and!; done || lia].
      destruct (fingerprint_rust_occurrence sha256 source fact) as [actual|e]; rstep.
      * case_bool_decide; simpl; split; try done.
        -- intros _. split_and!; try done; try lia. naive_solver.
        -- intros (_ & _ & _ & _ & _ & Hfp). specialize (Hfp _ eq_refl). congruence.
      * split; [done|]. intros (_ & _ & _ & _ & _ & Hfp). by specialize (Hfp _ eq_refl).
  - split; [done|]. intros (H1 & H2 & H3 & H4 & (H5 & [H6 _] & _) & _).
    rewrite (proj2 (validate_fact_structure_Ok fact limits)) in E by done. done.
Qed.

Lemma try_fold_unit {E A} (body : A → result E ()) xs :
  try_fold (λ _ x, body x) () xs = Ok () ↔ Forall (λ x, body x = Ok ()) xs.
Proof.
  induction xs as [|x xs IH]; simpl; [split; [constructor|done]|].
  rewrite Forall_cons. destruct (body x) as [[]|e]; rstep; [rewrite IH|]; naive_solver.
Qed.

(** C22: A persisted analysis is reused for a source exactly when its counts are consistent and within
    the limits and every fact is a declaration of that very source: its spans nest inside it, the
    name span covers the name, and a persisted fingerprint is the one the source gives now. *)
Theorem validate_for_reuse_spec (sha256 : bytes → bytes) a source limits :
  len source ≤ u64_max →
  Forall (λ fact, 0 ≤ span_start (fact_declaration_span fact)) (analysis_facts a) →
  validate_for_reuse sha256 a source limits = Ok () ↔
  len source ≤ fact_max_source_bytes limits
  ∧ analysis_visited_nodes a ≠ 0
  ∧ analysis_visited_nodes a ≤ fact_max_syntax_nodes limits
  ∧ analysis_known_parser_limitation_nodes a ≤ analysis_syntax_error_nodes a
      ≤ analysis_visited_nodes a
  ∧ Z.of_nat (length (analysis_facts a)) ≤ max_symbol_facts limits
  ∧ Forall (reusable sha256 source limits) (analysis_facts a).
Proof.
  intros Hl Hpos. unfold validate_for_reuse, u64_of_len.
  rewrite checked_in by (pose proof (len_nonneg source); unfold len in *; lia). rstep. fold (len source).
  destruct (_ || _) eqn:E; [split; [done|lia]|]. rewrite !orb_false_iff in E.
  rewrite try_fold_unit, Forall_forall, (Forall_forall (reusable _ _ _)).
  rewrite Forall_forall in Hpos. split.
  - intros H. split_and!; try lia. intros f Hf. apply validate_reusable_fact_Ok; auto.
  - intros (_ & _ & _ & _ & _ & H) f Hf. apply validate_reusable_fact_Ok; auto.
Qed.

Module facts_sample.
Definition source : bytes := b_of "mod m { fn old() {} }".
Definition renamed : bytes := b_of "mod m { fn newer() {} }".
Definition fact (name : bytes) (last : Z) : RustSymbolFact :=
  {| fact_kind := Function; fact_name := name; fact_qualified_name := b_of "m::" ++ name;
     fact_name_span := Build_ByteSpan 11 (11 + len name);
     fact_declaration_span := Build_ByteSpan 8 last; fact_correspondence := None |}.
Definition before : bytes := b_of "fn ".
Definition after : bytes := b_of "() {}".
Definition fp (name : bytes) : RustOccurrenceFingerprint :=
  {| fp_declaration := before ++ name ++ after;
     fp_name_elided := name_elided_bytes Function (b_of "m") before after |}.
End facts_sample.

Lemma fingerprint_identity_witness :
  (fp_name_elided (facts_sample.fp (b_of "old")) = fp_name_elided (facts_sample.fp (b_of "newer")) ↔
     name_elided_identity (facts_sample.fact (b_of "old") 19) (b_of "m") facts_sample.before facts_sample.after
     = name_elided_identity (facts_sample.fact (b_of "newer") 21) (b_of "m") facts_sample.before facts_sample.after)
  ∧ (fp_declaration (facts_sample.fp (b_of "old")) = fp_declaration (facts_sample.fp (b_of "newer")) ↔
     facts_sample.before ++ b_of "old" ++ facts_sample.after
     = facts_sample.before ++ b_of "newer" ++ facts_sample.after).
Proof.
  apply (fingerprint_identity (λ s, s) (λ x y H, H) facts_sample.source facts_sample.renamed
    (facts_sample.fact (b_of "old") 19) (facts_sample.fact (b_of "newer") 21)
    (facts_sample.fp (b_of "old")) (facts_sample.fp (b_of "newer"))
    facts_sample.before facts_sample.before facts_sample.after facts_sample.after (b_of "m") (b_of "m"));
    try (vm_compute; done);
    exists (b_of "mod m { "), (b_of " }"); vm_compute; done.
Defined.

Definition facts_sample_analysis : RustSourceAnalysis :=
  {| analysis_facts := [facts_sample.fact (b_of "old") 19]; analysis_visited_nodes := 9;
     analysis_syntax_error_nodes := 0; analysis_known_parser_limitation_nodes := 0 |}.

Lemma validate_for_reuse_spec_witness :
  validate_for_reuse (λ s, s) facts_sample_analysis facts_sample.source analysis_limits_DEFAULT = Ok ()
  ∧ Forall (reusable (λ s, s) facts_sample.source analysis_limits_DEFAULT)
      (analysis_facts facts_sample_analysis).
Proof.
  split; [vm_compute; done|].
  apply (validate_for_reuse_spec (λ s, s) facts_sample_analysis facts_sample.source analysis_limits_DEFAULT);
    [vm_compute; done|repeat constructor; vm_compute; done|vm_compute; done].
Defined.
