(* ===== verification/Correspondence.v ===== *)
(** * Correspondence of declarations across generations

    Models [crates/repowitness-analysis/src/rust_correspondence.rs]: the resolution of one
    historical declaration against a complete bounded set of current candidates.  Digests are
    opaque bytes; a path is its bytes. *)

From Stdlib Require Import ZArith Lia ZifyBool.
From stdpp Require Import base numbers sorting list.
From S2P Require Import Prelude Ordering GraphIdentity SymbolFacts.

Open Scope Z_scope.

Definition MAX_RUST_CORRESPONDENCE_CANDIDATES : nat := 16.

Inductive RustPathContinuity := NoContinuity | GitExactMove.
Inductive RustAutomaticCorrespondence := Renamed | Moved.
Inductive RustCorrespondenceIndeterminateReason := CandidateOverflow | MissingSubjectFingerprint.

#[export] Instance continuity_eq_dec : EqDecision RustPathContinuity.
Proof. solve_decision. Defined.

Record RustCorrespondenceSubject := {
  sub_path : bytes;
  sub_kind : RustSymbolKind;
  sub_name : bytes;
  sub_qualified_name : bytes;
  sub_container : bytes;
  sub_declaration : bytes;
  sub_name_elided : option bytes;
}.

Definition subject_try_new (path : bytes) (kind : RustSymbolKind) (name qualified_name declaration : bytes)
    (name_elided : option bytes) : result RustCorrespondenceError RustCorrespondenceSubject :=
  container ← validate_names name qualified_name;
  Ok {| sub_path := path; sub_kind := kind; sub_name := name; sub_qualified_name := qualified_name;
        sub_container := container; sub_declaration := declaration; sub_name_elided := name_elided |}.

Record RustCorrespondenceCandidate := {
  cand_path : bytes;
  cand_artifact : bytes;
  cand_fact_ordinal : Z;
  cand_kind : RustSymbolKind;
  cand_name : bytes;
  cand_qualified_name : bytes;
  cand_container : bytes;
  cand_fingerprint : RustOccurrenceFingerprint;
  cand_path_continuity : RustPathContinuity;
}.

Definition candidate_try_from_fact (path artifact : bytes) (fact_ordinal : Z) (fact : RustSymbolFact)
    (path_continuity : RustPathContinuity) : result RustCorrespondenceError RustCorrespondenceCandidate :=
  if MAX_MEMORY_INTEROPERABLE_INTEGER <? fact_ordinal then Err CorrInvalidOccurrence
  else
    fingerprint ← ok_or (fact_correspondence fact) CorrInvalidOccurrence;
    container ← validate_names (fact_name fact) (fact_qualified_name fact);
    Ok {| cand_path := path; cand_artifact := artifact; cand_fact_ordinal := fact_ordinal;
          cand_kind := fact_kind fact; cand_name := fact_name fact;
          cand_qualified_name := fact_qualified_name fact; cand_container := container;
          cand_fingerprint := fingerprint; cand_path_continuity := path_continuity |}.

Inductive RustCorrespondenceResolution :=
| Exact (target : RustCorrespondenceCandidate)
| Automatic (relationship : RustAutomaticCorrespondence) (target : RustCorrespondenceCandidate)
| Changed (target : RustCorrespondenceCandidate)
| NeedsReview (candidates : list RustCorrespondenceCandidate)
| Missing
| Indeterminate (reason : RustCorrespondenceIndeterminateReason).

(** ** The five predicates *)

Section matching.
Context (subject : RustCorrespondenceSubject) (candidate : RustCorrespondenceCandidate).

Definition name_elided_match : bool :=
  match sub_name_elided subject with
  | Some fingerprint => bool_decide (fp_name_elided (cand_fingerprint candidate) = fingerprint)
  | None => false
  end.

Definition exact_match : bool :=
  bool_decide (cand_path candidate = sub_path subject)
  && bool_decide (cand_kind candidate = sub_kind subject)
  && bool_decide (cand_name candidate = sub_name subject)
  && bool_decide (cand_qualified_name candidate = sub_qualified_name subject)
  && bool_decide (fp_declaration (cand_fingerprint candidate) = sub_declaration subject).

Definition rename_match : bool :=
  bool_decide (cand_path candidate = sub_path subject)
  && bool_decide (cand_kind candidate = sub_kind subject)
  && bool_decide (cand_container candidate = sub_container subject)
  && negb (bool_decide (cand_name candidate = sub_name subject))
  && name_elided_match.

Definition move_match : bool :=
  negb (bool_decide (cand_path candidate = sub_path subject))
  && bool_decide (cand_path_continuity candidate = GitExactMove)
  && bool_decide (cand_kind candidate = sub_kind subject)
  && bool_decide (cand_name candidate = sub_name subject)
  && bool_decide (cand_qualified_name candidate = sub_qualified_name subject)
  && bool_decide (fp_declaration (cand_fingerprint candidate) = sub_declaration subject).

Definition changed_match : bool :=
  bool_decide (cand_path candidate = sub_path subject)
  && bool_decide (cand_kind candidate = sub_kind subject)
  && bool_decide (cand_name candidate = sub_name subject)
  && bool_decide (cand_qualified_name candidate = sub_qualified_name subject)
  && negb (bool_decide (fp_declaration (cand_fingerprint candidate) = sub_declaration subject)).

Definition plausible_match : bool :=
  bool_decide (cand_kind candidate = sub_kind subject)
  && (bool_decide (cand_path candidate = sub_path subject)
      || bool_decide (cand_container candidate = sub_container subject)
      || bool_decide (fp_declaration (cand_fingerprint candidate) = sub_declaration subject)
      || name_elided_match
      || bool_decide (cand_path_continuity candidate = GitExactMove)).
End matching.

(** ** Resolution *)

Definition candidate_order (left right : RustCorrespondenceCandidate) : comparison :=
  then_with (then_with (cmp (cand_path left) (cand_path right))
                       (cmp (cand_artifact left) (cand_artifact right)))
            (cmp (cand_fact_ordinal left) (cand_fact_ordinal right)).

Definition same_candidate_identity (left right : RustCorrespondenceCandidate) : bool :=
  bool_decide (cand_path left = cand_path right)
  && bool_decide (cand_artifact left = cand_artifact right)
  && bool_decide (cand_fact_ordinal left = cand_fact_ordinal right).

Definition matches (candidates : list RustCorrespondenceCandidate)
    (predicate : RustCorrespondenceCandidate → bool) : list RustCorrespondenceCandidate :=
  filter (λ candidate, predicate candidate = true) candidates.

Definition unique_or_review (candidates : list RustCorrespondenceCandidate)
    (unique : RustCorrespondenceCandidate → RustCorrespondenceResolution)
    : option RustCorrespondenceResolution :=
  match candidates with
  | [] => None
  | [candidate] => Some (unique candidate)
  | _ => Some (NeedsReview candidates)
  end.

Definition resolve_rust_correspondence (subject : RustCorrespondenceSubject)
    (candidates : list RustCorrespondenceCandidate) (candidate_count_before_limit : Z)
    : result RustCorrespondenceError RustCorrespondenceResolution :=
  if (MAX_RUST_CORRESPONDENCE_CANDIDATES <? length candidates)%nat then Err CorrCandidateLimitExceeded
  else
    supplied_count ← ok_or (u64_of_len (length candidates)) InvalidCandidateCount;
    if candidate_count_before_limit <? supplied_count then Err InvalidCandidateCount
    else
      let ordered := sort_by candidate_order candidates in
      if any_adjacent same_candidate_identity ordered then Err DuplicateCandidate
      else if supplied_count <? candidate_count_before_limit then Ok (Indeterminate CandidateOverflow)
      else
        let exact := matches ordered (exact_match subject) in
        match unique_or_review exact Exact with
        | Some resolution => Ok resolution
        | None =>
            let renames := matches ordered (rename_match subject) in
            let moves := matches ordered (move_match subject) in
            let automatic := map (pair Renamed) renames ++ map (pair Moved) moves in
            let automatic := sort_by (λ left right, candidate_order left.2 right.2) automatic in
            let automatic := dedup_by (λ left right, same_candidate_identity left.2 right.2) automatic in
            match automatic with
            | [(relationship, target)] => Ok (Automatic relationship target)
            | _ :: _ :: _ => Ok (NeedsReview (map snd automatic))
            | [] =>
                let changed := matches ordered (changed_match subject) in
                match unique_or_review changed Changed with
                | Some resolution => Ok resolution
                | None =>
                    let plausible := matches ordered (plausible_match subject) in
                    if negb (bool_decide (plausible = [])) then Ok (NeedsReview plausible)
                    else if bool_decide (sub_name_elided subject = None)
                    then Ok (Indeterminate MissingSubjectFingerprint)
                    else Ok Missing
                end
            end
        end.

(** ** Theorems *)

Definition candidate_key (c : RustCorrespondenceCandidate) : bytes * (bytes * Z) :=
  (cand_path c, (cand_artifact c, cand_fact_ordinal c)).

Lemma candidate_order_key l r : candidate_order l r = cmp (candidate_key l) (candidate_key r).
Proof. unfold candidate_order. apply then_with_assoc. Qed.

Lemma same_candidate_key l r : same_candidate_identity l r = true ↔ candidate_key l = candidate_key r.
Proof.
  unfold same_candidate_identity, candidate_key. rewrite !andb_true_iff, !bool_decide_eq_true.
  split; [by intros [[-> ->] ->]|by intros [= -> -> ->]].
Qed.

Definition ordered_candidates (cs : list RustCorrespondenceCandidate) : list RustCorrespondenceCandidate :=
  sort_by candidate_order cs.

Lemma ordered_candidates_key cs :
  ordered_candidates cs = sort_by (λ l r, cmp (candidate_key l) (candidate_key r)) cs.
Proof. apply sort_by_ext, candidate_order_key. Qed.

Lemma elem_of_ordered c cs : c ∈ ordered_candidates cs ↔ c ∈ cs.
Proof. apply elem_of_sort_by. Qed.

Lemma duplicate_candidates cs :
  any_adjacent same_candidate_identity (ordered_candidates cs) = false ↔ NoDup (map candidate_key cs).
Proof. rewrite ordered_candidates_key. apply any_adjacent_sort, same_candidate_key. Qed.

Lemma ordered_increasing cs :
  NoDup (map candidate_key cs) → keys_increasing candidate_key (ordered_candidates cs).
Proof. rewrite ordered_candidates_key. apply keys_increasing_NoDup_sort. Qed.

(** *** What each outcome says of the candidates *)

(** The relationships between a subject and a candidate that the tiers of evidence stand for. *)
Section evidence.
Context (subject : RustCorrespondenceSubject).

Definition same_declaration (c : RustCorrespondenceCandidate) : Prop :=
  fp_declaration (cand_fingerprint c) = sub_declaration subject.
Definition same_elided (c : RustCorrespondenceCandidate) : Prop :=
  sub_name_elided subject = Some (fp_name_elided (cand_fingerprint c)).
Definition same_naming (c : RustCorrespondenceCandidate) : Prop :=
  cand_kind c = sub_kind subject ∧ cand_name c = sub_name subject
  ∧ cand_qualified_name c = sub_qualified_name subject.

Definition unchanged (c : RustCorrespondenceCandidate) : Prop :=
  cand_path c = sub_path subject ∧ same_naming c ∧ same_declaration c.
Definition renamed_from (c : RustCorrespondenceCandidate) : Prop :=
  cand_path c = sub_path subject ∧ cand_kind c = sub_kind subject
  ∧ cand_container c = sub_container subject ∧ cand_name c ≠ sub_name subject ∧ same_elided c.
Definition moved_from (c : RustCorrespondenceCandidate) : Prop :=
  cand_path c ≠ sub_path subject ∧ cand_path_continuity c = GitExactMove
  ∧ same_naming c ∧ same_declaration c.
Definition automatic (c : RustCorrespondenceCandidate) : Prop := renamed_from c ∨ moved_from c.
Definition changed_in_place (c : RustCorrespondenceCandidate) : Prop :=
  cand_path c = sub_path subject ∧ same_naming c ∧ ¬ same_declaration c.
Definition plausible (c : RustCorrespondenceCandidate) : Prop :=
  cand_kind c = sub_kind subject ∧
  (cand_path c = sub_path subject ∨ cand_container c = sub_container subject
   ∨ same_declaration c ∨ same_elided c ∨ cand_path_continuity c = GitExactMove).

Definition automatic_match (c : RustCorrespondenceCandidate) : bool :=
  rename_match subject c || move_match subject c.

Lemma name_elided_match_spec c : name_elided_match subject c = true ↔ same_elided c.
Proof.
  unfold name_elided_match, same_elided.
  destruct (sub_name_elided subject); rewrite ?bool_decide_eq_true; naive_solver.
Qed.

Ltac evidence_tac :=
  rewrite ?andb_true_iff, ?orb_true_iff, ?negb_true_iff, ?name_elided_match_spec,
    ?bool_decide_eq_true, ?bool_decide_eq_false; unfold same_naming, same_declaration; tauto.

Lemma exact_match_spec c : exact_match subject c = true ↔ unchanged c.
Proof. unfold exact_match, unchanged. evidence_tac. Qed.
Lemma rename_match_spec c : rename_match subject c = true ↔ renamed_from c.
Proof. unfold rename_match, renamed_from. evidence_tac. Qed.
Lemma move_match_spec c : move_match subject c = true ↔ moved_from c.
Proof. unfold move_match, moved_from. evidence_tac. Qed.
Lemma automatic_match_spec c : automatic_match c = true ↔ automatic c.
Proof. unfold automatic_match, automatic. by rewrite orb_true_iff, rename_match_spec, move_match_spec. Qed.
Lemma changed_match_spec c : changed_match subject c = true ↔ changed_in_place c.
Proof. unfold changed_match, changed_in_place. evidence_tac. Qed.
Lemma plausible_match_spec c : plausible_match subject c = true ↔ plausible c.
Proof. unfold plausible_match, plausible. evidence_tac. Qed.
End evidence.

Section describes.
Context (subject : RustCorrespondenceSubject) (cs : list RustCorrespondenceCandidate).

Definition nothing (P : RustCorrespondenceCandidate → Prop) : Prop := ∀ c, c ∈ cs → ¬ P c.
Definition only (P : RustCorrespondenceCandidate → Prop) (t : RustCorrespondenceCandidate) : Prop :=
  t ∈ cs ∧ ∀ c, c ∈ cs → P c ↔ c = t.
Definition several (P : RustCorrespondenceCandidate → Prop) (l : list RustCorrespondenceCandidate) : Prop :=
  keys_increasing candidate_key l ∧ ∀ c, c ∈ l ↔ c ∈ cs ∧ P c.

(** The strongest tier of evidence with a match decides: exact, then automatic, then changed
    occurrences, each of which needs a single match; then whatever is plausible. *)
Definition describes (count : Z) (r : RustCorrespondenceResolution) : Prop :=
  match r with
  | Indeterminate CandidateOverflow => Z.of_nat (length cs) < count
  | _ => count = Z.of_nat (length cs) ∧
      match r with
      | Exact t => only (unchanged subject) t
      | Automatic Renamed t =>
          nothing (unchanged subject) ∧ only (automatic subject) t ∧ renamed_from subject t
      | Automatic Moved t =>
          nothing (unchanged subject) ∧ only (automatic subject) t ∧ moved_from subject t
      | Changed t =>
          nothing (unchanged subject) ∧ nothing (automatic subject) ∧ only (changed_in_place subject) t
      | NeedsReview l =>
          ((2 ≤ length l)%nat ∧ several (unchanged subject) l)
          ∨ (nothing (unchanged subject) ∧ (2 ≤ length l)%nat ∧ several (automatic subject) l)
          ∨ (nothing (unchanged subject) ∧ nothing (automatic subject)
             ∧ (2 ≤ length l)%nat ∧ several (changed_in_place subject) l)
          ∨ (nothing (unchanged subject) ∧ nothing (automatic subject)
             ∧ nothing (changed_in_place subject) ∧ l ≠ [] ∧ several (plausible subject) l)
      | Missing => nothing (plausible subject) ∧ is_Some (sub_name_elided subject)
      | Indeterminate _ => nothing (plausible subject) ∧ sub_name_elided subject = None
      end
  end.
End describes.

Lemma matches_several cs p P :
  NoDup (map candidate_key cs) → (∀ c, p c = true ↔ P c) →
  several cs P (matches (ordered_candidates cs) p).
Proof.
  intros Hnd HP. split; [by apply keys_increasing_filter, ordered_increasing|].
  intros c. unfold matches. rewrite list_elem_of_filter, elem_of_ordered, HP. tauto.
Qed.

Lemma several_nil cs P : several cs P [] → nothing cs P.
Proof. intros [_ H] c Hc Hp. by eapply (not_elem_of_nil c), H. Qed.

Lemma several_one cs P t : several cs P [t] → only cs P t.
Proof.
  intros [_ H]. split; [apply (H t); by left|].
  intros c Hc. rewrite <- (list_elem_of_singleton c t), H. tauto.
Qed.

(** Renames stay on the path and moves leave it, so the two never name the same candidate and
    the deduplication removes nothing. *)
Lemma rename_not_move subject c : rename_match subject c = true → move_match subject c = true → False.
Proof.
  unfold rename_match, move_match. rewrite !andb_true_iff, !negb_true_iff, !bool_decide_eq_true, !bool_decide_eq_false.
  tauto.
Qed.

Lemma automatic_perm subject cs :
  map (pair Renamed) (matches cs (rename_match subject)) ++ map (pair Moved) (matches cs (move_match subject))
  ≡ₚ map (λ c, (if rename_match subject c then Renamed else Moved, c)) (matches cs (automatic_match subject)).
Proof.
  unfold matches. induction cs as [|c cs IH]; [done|]. rewrite !filter_cons.
  pose proof (rename_not_move subject c) as Hd. unfold automatic_match.
  destruct (rename_match subject c) eqn:E1, (move_match subject c) eqn:E2; cbn [orb];
    repeat (case_decide; try done); csimpl; rewrite ?E1; [by destruct Hd|by rewrite IH|].
  by rewrite <- Permutation_middle, IH.
Qed.

Lemma automatic_sorted subject cs :
  NoDup (map candidate_key cs) →
  dedup_by (λ l r, same_candidate_identity l.2 r.2)
    (sort_by (λ l r, candidate_order l.2 r.2)
      (map (pair Renamed) (matches (ordered_candidates cs) (rename_match subject))
       ++ map (pair Moved) (matches (ordered_candidates cs) (move_match subject))))
  = map (λ c, (if rename_match subject c then Renamed else Moved, c))
      (matches (ordered_candidates cs) (automatic_match subject)).
Proof.
  intros Hnd. set (l := map _ (matches _ (automatic_match subject))).
  assert (keys_increasing (λ x, candidate_key x.2) l) as Hinc.
  { unfold keys_increasing, l. rewrite map_map. by apply keys_increasing_filter, ordered_increasing. }
  rewrite (sort_by_ext _ (λ x y, cmp (candidate_key x.2) (candidate_key y.2)))
    by (intros; apply candidate_order_key).
  rewrite (keys_increasing_sort _ l); [|done|by rewrite automatic_perm].
  apply (dedup_by_keys (λ x, candidate_key x.2)); [|done]. intros x y. apply same_candidate_key.
Qed.

(** Every tier is plausible. *)
Lemma tiers_plausible subject c :
  unchanged subject c ∨ automatic subject c ∨ changed_in_place subject c → plausible subject c.
Proof.
  unfold automatic, unchanged, renamed_from, moved_from, changed_in_place, plausible, same_naming. tauto.
Qed.

(** The supplied candidates a resolution accepts. *)
Definition candidates_admissible (cs : list RustCorrespondenceCandidate) (count : Z) : Prop :=
  (length cs ≤ MAX_RUST_CORRESPONDENCE_CANDIDATES)%nat ∧ Z.of_nat (length cs) ≤ count
  ∧ NoDup (map candidate_key cs).

Lemma supplied_count (cs : list RustCorrespondenceCandidate) :
  (length cs ≤ MAX_RUST_CORRESPONDENCE_CANDIDATES)%nat → u64_of_len (length cs) = Some (Z.of_nat (length cs)).
Proof. unfold MAX_RUST_CORRESPONDENCE_CANDIDATES. intros. apply checked_in. unfold u64_max. lia. Qed.

Lemma resolution_describes subject cs count :
  candidates_admissible cs count →
  ∃ r, resolve_rust_correspondence subject cs count = Ok r ∧ describes subject cs count r.
Proof.
  intros (Hl & Hc & Hnd). unfold resolve_rust_correspondence, describes.
  rewrite (proj2 (Nat.ltb_ge _ _) Hl), supplied_count by done. rstep.
  rewrite (proj2 (Z.ltb_ge _ _) Hc). fold (ordered_candidates cs).
  rewrite (proj2 (duplicate_candidates cs) Hnd).
  destruct (Z.ltb_spec (Z.of_nat (length cs)) count) as [Hlt|Hge]; [by eexists|].
  assert (count = Z.of_nat (length cs)) as -> by lia. clear Hc Hge Hl.
  rewrite automatic_sorted by done.
  pose proof (matches_several cs _ _ Hnd (exact_match_spec subject)) as He.
  pose proof (matches_several cs _ _ Hnd (automatic_match_spec subject)) as Ha.
  pose proof (matches_several cs _ _ Hnd (changed_match_spec subject)) as Hch.
  pose proof (matches_several cs _ _ Hnd (plausible_match_spec subject)) as Hp.
  destruct (matches _ (exact_match subject)) as [|e1 [|e2 es]]; simpl unique_or_review.
  2:{ eexists. split; [done|]. split; [done|]. by apply several_one. }
  2:{ eexists. split; [done|]. split; [done|]. left. split; [simpl; lia|done]. }
  apply several_nil in He.
  destruct (matches _ (automatic_match subject)) as [|a1 [|a2 as_]]; cbn [map].
  2:{ eexists. split; [done|]. split; [done|]. apply several_one in Ha as Ho.
      assert (automatic subject a1) as Hm by (apply (proj2 Ho a1); [apply Ho|done]).
      destruct (rename_match subject a1) eqn:E; (split; [done|]); (split; [done|]).
      - by apply rename_match_spec.
      - destruct Hm as [Hm|]; [|done]. apply rename_match_spec in Hm. congruence. }
  2:{ eexists. split; [done|]. split; [done|]. right; left. split; [done|].
      rewrite map_map. simpl. rewrite map_id. split; [lia|done]. }
  apply several_nil in Ha.
  destruct (matches _ (changed_match subject)) as [|c1 [|c2 cs']]; simpl unique_or_review.
  2:{ eexists. split; [done|]. split; [done|]. by apply several_one in Hch. }
  2:{ eexists. split; [done|]. split; [done|]. do 2 right; left.
      refine (conj He (conj Ha (conj _ Hch))). simpl. lia. }
  apply several_nil in Hch.
  case_bool_decide as Hpl; simpl.
  - rewrite Hpl in Hp. apply several_nil in Hp. case_bool_decide as Hn; eexists; (split; [done|]); (split; [done|]);
      (split; [done|]); [done|]. by destruct (sub_name_elided subject).
  - eexists. split; [done|]. split; [done|]. do 3 right. done.
Qed.

Section determined.
Context (subject : RustCorrespondenceSubject) (cs : list RustCorrespondenceCandidate).


Lemma only_nothing p t : only cs p t → nothing cs p → False.
Proof. intros [Ht H] Hn. by apply (Hn t Ht), H. Qed.

Lemma several_nothing p l : several cs p l → l ≠ [] → nothing cs p → False.
Proof.
  intros [_ H] Hl Hn. destruct l as [|c l]; [done|].
  destruct (proj1 (H c)) as [Hc Hp]; [by left|]. by apply (Hn c).
Qed.

Lemma only_unique p t t' : only cs p t → only cs p t' → t = t'.
Proof. intros [Ht H] [Ht' H']. apply (H' t Ht). by apply (H t Ht). Qed.

Lemma several_unique p l l' : several cs p l → several cs p l' → l = l'.
Proof.
  intros [Hk H] [Hk' H']. rewrite <- (keys_increasing_sort candidate_key l l Hk) by done.
  apply keys_increasing_sort; [done|]. apply NoDup_Permutation.
  - apply (NoDup_fmap_1 candidate_key). by apply bset_wf_NoDup.
  - apply (NoDup_fmap_1 candidate_key). by apply bset_wf_NoDup.
  - intros c. by rewrite H, H'.
Qed.

Lemma only_several p t l : only cs p t → several cs p l → (2 ≤ length l)%nat → False.
Proof.
  intros Ho Hs Hl. assert (several cs p [t]) as H1.
  { destruct Ho as [Ht Ho]. split; [apply keys_increasing_cons; split; [constructor|by intros ? ?%elem_of_nil]|].
    intros c. rewrite list_elem_of_singleton. split; [intros ->|intros [Hc Hp]]; [|by apply Ho].
    split; [done|]. by apply Ho. }
  rewrite (several_unique p l [t] Hs H1) in Hl. simpl in Hl. lia.
Qed.

Lemma plausible_nothing :
  nothing cs (plausible subject) →
  nothing cs (unchanged subject) ∧ nothing cs (automatic subject) ∧ nothing cs (changed_in_place subject).
Proof.
  intros H. split_and!; intros c Hc Hp; apply (H c Hc), tiers_plausible; tauto.
Qed.

(** Two descriptions at different tiers contradict each other. *)
Ltac tier_conflict :=
  match goal with
  | H1 : only cs ?p _, H2 : nothing cs ?p |- _ => destruct (only_nothing _ _ H1 H2)
  | H1 : several cs ?p ?l, H2 : nothing cs ?p, H3 : ?l ≠ [] |- _ => destruct (several_nothing _ _ H1 H3 H2)
  | H1 : several cs ?p ?l, H2 : nothing cs ?p, H3 : (2 ≤ length ?l)%nat |- _ =>
      destruct l; [simpl in H3; lia|]; by destruct (several_nothing _ _ H1 ltac:(done) H2)
  | H1 : only cs ?p ?t, H2 : several cs ?p ?l, H3 : (2 ≤ length ?l)%nat |- _ =>
      destruct (only_several _ _ _ H1 H2 H3)
  | H1 : only cs ?p ?t, H2 : only cs ?p ?t', H3 : renamed_from _ ?t, H4 : moved_from _ ?t' |- _ =>
      pose proof (only_unique _ _ _ H1 H2); subst; destruct (proj1 H4 (proj1 H3))
  end.

(** The description determines the outcome. *)
Lemma describes_unique count r r' :
  describes subject cs count r → describes subject cs count r' → r = r'.
Proof.
  unfold describes. intros H H'.
  assert (nothing cs (plausible subject) →
          nothing cs (unchanged subject) ∧ nothing cs (automatic subject)
          ∧ nothing cs (changed_in_place subject)) as Hpn by apply plausible_nothing.
  destruct r as [t|[] t|t|l| |[]], r' as [t'|[] t'|t'|l'| |[]]; try done;
    repeat match goal with
    | H : _ ∧ _ |- _ => destruct H
    | H : _ ∨ _ |- _ => destruct H
    | H : is_Some _ |- _ => destruct H
    | Hn : nothing cs (plausible subject), H : nothing cs (plausible subject) → _ |- _ =>
        specialize (H Hn)
    end; try lia; try congruence; try tier_conflict; f_equal; eauto using only_unique, several_unique.
Qed.
End determined.

Lemma describes_perm subject cs cs' count r :
  cs ≡ₚ cs' → describes subject cs count r → describes subject cs' count r.
Proof.
  intros Hp.
  assert (∀ p, nothing cs p → nothing cs' p) as Hn.
  { intros p H c Hc. apply H. by rewrite Hp. }
  assert (∀ p t, only cs p t → only cs' p t) as Ho.
  { intros p t [Ht H]. split; [by rewrite <- Hp|]. intros c Hc. apply H. by rewrite Hp. }
  assert (∀ p l, several cs p l → several cs' p l) as Hs.
  { intros p l [Hk H]. split; [done|]. intros c. by rewrite H, Hp. }
  unfold describes. rewrite (Permutation_length Hp).
  destruct r as [t|[] t|t|l| |[]]; naive_solver.
Qed.

Lemma candidates_admissible_perm cs cs' count :
  cs ≡ₚ cs' → candidates_admissible cs count → candidates_admissible cs' count.
Proof. intros Hp (? & ? & ?). unfold candidates_admissible. by rewrite <- Hp. Qed.

(** C7: A correspondence is resolved exactly on a bounded candidate set whose count is not smaller than
    it and whose identities are distinct, and the outcome is then the one the evidence describes:
    nothing is concluded from an incomplete set; otherwise the strongest tier with a match decides
    (exact, then renamed or moved, then changed, then plausible), one match names its target, more ask
    for a review of precisely the matching candidates in order, and none at all means missing, or
    indeterminate when the subject has no fingerprint. *)
Theorem correspondence_spec subject cs count r :
  resolve_rust_correspondence subject cs count = Ok r ↔
  candidates_admissible cs count ∧ describes subject cs count r.
Proof.
  split.
  - intros Hr. assert (candidates_admissible cs count) as Ha.
    { unfold resolve_rust_correspondence in Hr. fold (ordered_candidates cs) in Hr.
      destruct (Nat.ltb_spec MAX_RUST_CORRESPONDENCE_CANDIDATES (length cs)) as [|Hl]; [done|].
      rewrite supplied_count in Hr by done. cbn [ok_or mbind result_bind] in Hr.
      destruct (Z.ltb_spec count (Z.of_nat (length cs))) as [|Hc]; [done|].
      destruct (any_adjacent _ _) eqn:E; [done|]. apply duplicate_candidates in E. done. }
    split; [done|]. destruct (resolution_describes subject cs count Ha) as (r' & Hr' & Hd). congruence.
  - intros [Ha Hd]. destruct (resolution_describes subject cs count Ha) as (r' & Hr' & Hd').
    rewrite Hr'. f_equal. exact (describes_unique subject cs count r' r Hd' Hd).
Qed.

(** The outcome, errors included, does not depend on the order in which the candidates are
    supplied. *)
Theorem correspondence_order_independent subject cs cs' count :
  cs ≡ₚ cs' → resolve_rust_correspondence subject cs count = resolve_rust_correspondence subject cs' count.
Proof.
  intros Hp. destruct (decide (NoDup (map candidate_key cs))) as [Hnd|Hnd].
  - assert (ordered_candidates cs = ordered_candidates cs') as He.
    { rewrite !ordered_candidates_key. symmetry. apply (keys_increasing_sort candidate_key); [by apply keys_increasing_NoDup_sort|].
      by rewrite sort_by_perm. }
    unfold resolve_rust_correspondence. fold (ordered_candidates cs) (ordered_candidates cs').
    by rewrite He, (Permutation_length Hp).
  - assert (¬ NoDup (map candidate_key cs')) as Hnd' by (by rewrite <- Hp).
    assert (∀ l, ¬ NoDup (map candidate_key l) →
              any_adjacent same_candidate_identity (sort_by candidate_order l) = true) as Hdup.
    { intros l Hl. destruct (any_adjacent _ _) eqn:E; [done|]. by apply duplicate_candidates in E. }
    unfold resolve_rust_correspondence. by rewrite !Hdup, (Permutation_length Hp).
Qed.

Module correspondence_sample.
Definition cand (path name elided : bytes) (ordinal : Z) : RustCorrespondenceCandidate :=
  {| cand_path := path; cand_artifact := []; cand_fact_ordinal := ordinal; cand_kind := Function;
     cand_name := name; cand_qualified_name := name; cand_container := [];
     cand_fingerprint := {| fp_declaration := name; fp_name_elided := elided |};
     cand_path_continuity := NoContinuity |}.
Definition subject : RustCorrespondenceSubject :=
  {| sub_path := b_of "a.rs"; sub_kind := Function; sub_name := b_of "f"; sub_qualified_name := b_of "f";
     sub_container := []; sub_declaration := b_of "f"; sub_name_elided := Some (b_of "e") |}.
Definition renamed := cand (b_of "a.rs") (b_of "g") (b_of "e") 1.
Definition other := cand (b_of "a.rs") (b_of "h") (b_of "x") 0.
End correspondence_sample.
Import correspondence_sample.

Example renamed_found :
  resolve_rust_correspondence subject [renamed; other] 2 = Ok (Automatic Renamed renamed).
Proof. vm_compute. reflexivity. Qed.
Example two_renames_reviewed :
  resolve_rust_correspondence subject [renamed; cand (b_of "a.rs") (b_of "k") (b_of "e") 0] 2
  = Ok (NeedsReview [cand (b_of "a.rs") (b_of "k") (b_of "e") 0; renamed]).
Proof. vm_compute. reflexivity. Qed.

Lemma correspondence_order_independent_witness :
  resolve_rust_correspondence subject [renamed; other] 2 = Ok (Automatic Renamed renamed)
  ∧ resolve_rust_correspondence subject [renamed; other] 2 = resolve_rust_correspondence subject [other; renamed] 2.
Proof.
  split; [vm_compute; reflexivity|].
  apply (correspondence_order_independent subject [renamed; other] [other; renamed] 2). apply Permutation_swap.
Defined.
