(* ===== verification/GraphSites.v ===== *)
(** * Raw graph sites and their persisted artifact

    Models the sites of [crates/repowitness-analysis/src/rust_graph.rs], their validation
    against a source ([rust_graph/extraction.rs]) and the reconstruction of a persisted
    artifact ([rust_graph/reconstruction.rs]) under the injected checkpoint.  [usize] is 64
    bits wide; a [&str] is its UTF-8 bytes. *)

From Stdlib Require Import ZArith Lia ZifyBool.
From stdpp Require Import base numbers sorting list.
From S2P Require Import Prelude Ordering GraphIdentity SymbolFacts.

Open Scope Z_scope.

Definition SITE_MAX_SOURCE_BYTES : Z := 8 * 1024 * 1024.
Definition SITE_MAX_SYNTAX_NODES : Z := 1000000.
Definition SITE_MAX_SYNTAX_DEPTH : Z := 256.
Definition MAX_GRAPH_SITES : Z := 250000.
Definition MAX_NAME_BYTES : Z := 1024.
Definition MAX_PATH_BYTES : Z := 16384.
Definition MAX_OWNED_TEXT_BYTES : Z := 64 * 1024 * 1024.

Record RustGraphAnalysisLimits := {
  site_max_source_bytes : Z;
  site_max_syntax_nodes : Z;
  site_max_syntax_depth : Z;
  max_graph_sites : Z;
  max_name_bytes : Z;
  max_path_bytes : Z;
  max_owned_text_bytes : Z;
}.

Inductive RustGraphAnalysisError :=
| SiteInvalidLimits | SiteSourceLimitExceeded | InvalidSourceEncoding | SiteGrammarUnavailable
| SiteParseFailed | SiteCancelled | SiteDeadlineExceeded | SiteNodeLimitExceeded
| SiteDepthLimitExceeded | GraphSiteLimitExceeded | SiteNameLimitExceeded | PathLimitExceeded
| OwnedTextLimitExceeded | SiteInvalidSourceSpan | InvalidSyntaxShape | InvalidAnalysisShape.

Definition site_limits_DEFAULT : RustGraphAnalysisLimits :=
  {| site_max_source_bytes := SITE_MAX_SOURCE_BYTES; site_max_syntax_nodes := SITE_MAX_SYNTAX_NODES;
     site_max_syntax_depth := SITE_MAX_SYNTAX_DEPTH; max_graph_sites := MAX_GRAPH_SITES;
     max_name_bytes := MAX_NAME_BYTES; max_path_bytes := MAX_PATH_BYTES;
     max_owned_text_bytes := MAX_OWNED_TEXT_BYTES |}.

Definition site_limits_is_valid (l : RustGraphAnalysisLimits) : bool :=
  negb (site_max_source_bytes l =? 0) && (site_max_source_bytes l <=? SITE_MAX_SOURCE_BYTES)
  && negb (site_max_syntax_nodes l =? 0) && (site_max_syntax_nodes l <=? SITE_MAX_SYNTAX_NODES)
  && negb (site_max_syntax_depth l =? 0) && (site_max_syntax_depth l <=? SITE_MAX_SYNTAX_DEPTH)
  && negb (max_graph_sites l =? 0) && (max_graph_sites l <=? MAX_GRAPH_SITES)
  && negb (max_name_bytes l =? 0) && (max_name_bytes l <=? MAX_NAME_BYTES)
  && negb (max_path_bytes l =? 0) && (max_path_bytes l <=? MAX_PATH_BYTES)
  && negb (max_owned_text_bytes l =? 0) && (max_owned_text_bytes l <=? MAX_OWNED_TEXT_BYTES).

Definition site_limits_try_new (source_bytes syntax_nodes syntax_depth graph_sites name_bytes path_bytes
    owned_text_bytes : Z) : result RustGraphAnalysisError RustGraphAnalysisLimits :=
  let limits := {| site_max_source_bytes := source_bytes; site_max_syntax_nodes := syntax_nodes;
                   site_max_syntax_depth := syntax_depth; max_graph_sites := graph_sites;
                   max_name_bytes := name_bytes; max_path_bytes := path_bytes;
                   max_owned_text_bytes := owned_text_bytes |} in
  if site_limits_is_valid limits then Ok limits else Err SiteInvalidLimits.

(** ** Sites *)

Record RustGraphEnclosingDefinition := {
  encl_kind : RustSymbolKind;
  encl_name : bytes;
  encl_qualified_name : bytes;
  encl_name_span : ByteSpan;
  encl_declaration_span : ByteSpan;
}.

#[export] Instance enclosing_eq_dec : EqDecision RustGraphEnclosingDefinition.
Proof. solve_decision. Defined.

Definition enclosing_try_new (kind : RustSymbolKind) (name qualified_name : bytes)
    (name_span declaration_span : ByteSpan) (limits : RustGraphAnalysisLimits)
    : result RustGraphAnalysisError RustGraphEnclosingDefinition :=
  if negb (site_limits_is_valid limits) || bool_decide (name = []) || (max_name_bytes limits <? len name)
  then Err SiteNameLimitExceeded
  else if bool_decide (qualified_name = []) || (max_path_bytes limits <? len qualified_name)
  then Err PathLimitExceeded
  else if (span_start name_span <? span_start declaration_span)
          || (span_end declaration_span <? span_end name_span)
          || (site_max_source_bytes limits <? span_end name_span)
          || (site_max_source_bytes limits <? span_end declaration_span)
          || negb (span_end name_span - span_start name_span =? len name)
  then Err SiteInvalidSourceSpan
  else Ok {| encl_kind := kind; encl_name := name; encl_qualified_name := qualified_name;
             encl_name_span := name_span; encl_declaration_span := declaration_span |}.

Record RustGraphSite := {
  raw_ordinal : Z;
  raw_kind : RustGraphSiteKind;
  raw_evidence : RustGraphSiteEvidence;
  raw_occurrence_span : ByteSpan;
  raw_target_span : ByteSpan;
  raw_target : bytes;
  raw_enclosing_definition : option RustGraphEnclosingDefinition;
}.

#[export] Instance graph_site_eq_dec : EqDecision RustGraphSite.
Proof. solve_decision. Defined.

Definition graph_site_try_new (ordinal : Z) (kind : RustGraphSiteKind) (evidence : RustGraphSiteEvidence)
    (occurrence_span target_span : ByteSpan) (target : bytes)
    (enclosing_definition : option RustGraphEnclosingDefinition) (limits : RustGraphAnalysisLimits)
    : result RustGraphAnalysisError RustGraphSite :=
  if negb (site_limits_is_valid limits) || bool_decide (target = []) || (max_path_bytes limits <? len target)
  then Err PathLimitExceeded
  else if (span_start target_span <? span_start occurrence_span)
          || (span_end occurrence_span <? span_end target_span)
          || (site_max_source_bytes limits <? span_end occurrence_span)
          || negb (span_end target_span - span_start target_span =? len target)
  then Err SiteInvalidSourceSpan
  else Ok {| raw_ordinal := ordinal; raw_kind := kind; raw_evidence := evidence;
             raw_occurrence_span := occurrence_span; raw_target_span := target_span;
             raw_target := target; raw_enclosing_definition := enclosing_definition |}.

(** ** Validation against a source *)

Definition range_contains (outer inner : Z * Z) : bool :=
  (outer.1 <=? inner.1) && (inner.2 <=? outer.2).

Definition checked_span_range (span : ByteSpan) (source : bytes) : result RustGraphAnalysisError (Z * Z) :=
  if (len source <? span_end span) || (span_end span <? span_start span) then Err SiteInvalidSourceSpan
  else Ok (span_start span, span_end span).

Definition validate_enclosing_definition (definition : RustGraphEnclosingDefinition) (source : bytes)
    : result RustGraphAnalysisError () :=
  declaration ← checked_span_range (encl_declaration_span definition) source;
  name ← checked_span_range (encl_name_span definition) source;
  if bool_decide (encl_name definition = []) || bool_decide (encl_qualified_name definition = [])
     || negb (range_contains declaration name)
     || negb (bool_decide (slice_get source name.1 name.2 = Some (encl_name definition)))
  then Err SiteInvalidSourceSpan
  else Ok ().

Definition validate_site (site : RustGraphSite) (source : bytes) : result RustGraphAnalysisError () :=
  occurrence ← checked_span_range (raw_occurrence_span site) source;
  target ← checked_span_range (raw_target_span site) source;
  if bool_decide (raw_target site = []) || negb (range_contains occurrence target)
     || negb (bool_decide (slice_get source target.1 target.2 = Some (raw_target site)))
  then Err SiteInvalidSourceSpan
  else match raw_enclosing_definition site with
       | Some enclosing => validate_enclosing_definition enclosing source
       | None => Ok ()
       end.

(** ** The persisted artifact *)

Definition owned_text_bytes (site : RustGraphSite) : result RustGraphAnalysisError Z :=
  total ← ok_or (u64_of_len (length (raw_target site))) OwnedTextLimitExceeded;
  match raw_enclosing_definition site with
  | None => Ok total
  | Some enclosing =>
      name ← ok_or (u64_of_len (length (encl_name enclosing))) OwnedTextLimitExceeded;
      ok_or (value ← u64_checked_add total name;
             qualified ← u64_of_len (length (encl_qualified_name enclosing));
             u64_checked_add value qualified) OwnedTextLimitExceeded
  end.

Record RustGraphSiteAnalysis := {
  artifact_sites : list RustGraphSite;
  artifact_visited_nodes : Z;
  artifact_syntax_error_nodes : Z;
  artifact_max_observed_depth : Z;
  artifact_owned_text_bytes : Z;
}.

Definition validate_metadata (site_count : nat) (visited_nodes syntax_error_nodes max_observed_depth : Z)
    (limits : RustGraphAnalysisLimits) : result RustGraphAnalysisError () :=
  if negb (site_limits_is_valid limits) || (visited_nodes =? 0)
     || (site_max_syntax_nodes limits <? visited_nodes) || (visited_nodes <? syntax_error_nodes)
     || (site_max_syntax_depth limits <? max_observed_depth)
     || match u32_of_len site_count with Some count => max_graph_sites limits <? count | None => true end
  then Err InvalidAnalysisShape
  else Ok ().

Definition try_from_parts_with_checkpoint (sites : list RustGraphSite)
    (visited_nodes syntax_error_nodes max_observed_depth owned_text : Z) (limits : RustGraphAnalysisLimits)
    : ctl RustGraphAnalysisError RustGraphSiteAnalysis :=
  check;;
  lift (validate_metadata (length sites) visited_nodes syntax_error_nodes max_observed_depth limits);;
  calculated ← ctl_fold (λ calculated '(index, site),
      check;;
      expected_ordinal ← lift (ok_or (u32_of_len index) InvalidAnalysisShape);
      if negb (raw_ordinal site =? expected_ordinal) then throw InvalidAnalysisShape
      else owned ← lift (owned_text_bytes site);
           lift (ok_or (u64_checked_add calculated owned) OwnedTextLimitExceeded))
    0 (zip (seq 0 (length sites)) sites);
  check;;
  if negb (calculated =? owned_text) || (max_owned_text_bytes limits <? owned_text)
  then throw InvalidAnalysisShape
  else mret {| artifact_sites := sites; artifact_visited_nodes := visited_nodes;
               artifact_syntax_error_nodes := syntax_error_nodes;
               artifact_max_observed_depth := max_observed_depth;
               artifact_owned_text_bytes := owned_text |}.

(** ** Theorems *)

(** The text a site owns. *)
Definition site_text (site : RustGraphSite) : Z :=
  len (raw_target site) +
  match raw_enclosing_definition site with
  | Some enclosing => len (encl_name enclosing) + len (encl_qualified_name enclosing)
  | None => 0
  end.

Definition sites_text (sites : list RustGraphSite) : Z := foldr (λ site, Z.add (site_text site)) 0 sites.

Lemma site_text_nonneg site : 0 ≤ site_text site.
Proof.
  unfold site_text. pose proof (len_nonneg (raw_target site)).
  destruct (raw_enclosing_definition site) as [e|]; [|lia].
  pose proof (len_nonneg (encl_name e)). pose proof (len_nonneg (encl_qualified_name e)). lia.
Qed.

Lemma sites_text_nonneg sites : 0 ≤ sites_text sites.
Proof. induction sites as [|s sites IH]; simpl; [done|]. pose proof (site_text_nonneg s). lia. Qed.

Lemma owned_text_bytes_eq site :
  owned_text_bytes site = if site_text site <=? u64_max then Ok (site_text site) else Err OwnedTextLimitExceeded.
Proof.
  unfold owned_text_bytes, site_text, u64_of_len, u64_checked_add. fold (len (raw_target site)).
  pose proof (len_nonneg (raw_target site)).
  destruct (raw_enclosing_definition site) as [e|].
  - fold (len (encl_name e)) (len (encl_qualified_name e)).
    pose proof (len_nonneg (encl_name e)). pose proof (len_nonneg (encl_qualified_name e)).
    destruct (checked _ (len (raw_target site))) as [t|] eqn:E1; rstep;
      [apply checked_Some in E1 as [-> ?]|apply checked_None in E1; case_match; [lia|done]].
    destruct (checked _ (len (encl_name e))) as [n|] eqn:E2; rstep;
      [apply checked_Some in E2 as [-> ?]|apply checked_None in E2; case_match; [lia|done]].
    destruct (checked _ (len (raw_target site) + _)) as [v|] eqn:E3; cbn [mbind option_bind];
      [apply checked_Some in E3 as [-> ?]|apply checked_None in E3; rstep; case_match; [lia|done]].
    destruct (checked _ (len (encl_qualified_name e))) as [q|] eqn:E4; cbn [mbind option_bind];
      [apply checked_Some in E4 as [-> ?]|apply checked_None in E4; rstep; case_match; [lia|done]].
    destruct (checked _ _) as [r|] eqn:E5; rstep.
    + apply checked_Some in E5 as [-> ?]. rewrite Z.add_assoc. case_match; [done|lia].
    + apply checked_None in E5. case_match; [lia|done].
  - rewrite Z.add_0_r. destruct (checked _ _) as [t|] eqn:E1; rstep.
    + apply checked_Some in E1 as [-> ?]. case_match; [done|lia].
    + apply checked_None in E1. case_match; [lia|done].
Qed.

(** One turn of the reconstruction's loop, without the checkpoint. *)
Definition count_site (calculated : Z) (entry : nat * RustGraphSite) : result RustGraphAnalysisError Z :=
  expected_ordinal ← ok_or (u32_of_len entry.1) InvalidAnalysisShape;
  if negb (raw_ordinal entry.2 =? expected_ordinal) then Err InvalidAnalysisShape
  else owned ← owned_text_bytes entry.2; ok_or (u64_checked_add calculated owned) OwnedTextLimitExceeded.

(** The sites are numbered from [n] in order. *)
Definition numbered (n : nat) (sites : list RustGraphSite) : Prop :=
  ∀ i site, sites !! i = Some site → raw_ordinal site = Z.of_nat (n + i) ∧ Z.of_nat (n + i) ≤ u32_max.

Lemma numbered_cons n site sites :
  numbered n (site :: sites) ↔ (raw_ordinal site = Z.of_nat n ∧ Z.of_nat n ≤ u32_max) ∧ numbered (S n) sites.
Proof.
  unfold numbered. split.
  - intros H. split; [specialize (H 0%nat site eq_refl); by rewrite Nat.add_0_r in H|].
    intros i s Hs. specialize (H (S i) s Hs). by rewrite Nat.add_succ_r in H.
  - intros [[H1 H1'] H2] [|i] s Hs; simpl in Hs.
    + injection Hs as ->. by rewrite Nat.add_0_r.
    + rewrite Nat.add_succ_r. by apply (H2 i).
Qed.

Lemma count_sites n calculated sites total :
  0 ≤ calculated →
  try_fold count_site calculated (zip (seq n (length sites)) sites) = Ok total ↔
  numbered n sites ∧ total = calculated + sites_text sites ∧ (sites = [] ∨ total ≤ u64_max).
Proof.
  revert n calculated. induction sites as [|site sites IH]; intros n calculated Hpos.
  { simpl. split; [|intros (_ & -> & _); f_equal; lia].
    intros [= <-]. split_and!; [by intros i s|lia|by left]. }
  cbn [length seq zip zip_with try_fold sites_text foldr]. rewrite numbered_cons. fold (sites_text sites).
  pose proof (site_text_nonneg site). pose proof (sites_text_nonneg sites).
  remember (count_site calculated (n, site)) as r eqn:Hr. unfold count_site in Hr.
  rewrite owned_text_bytes_eq in Hr. unfold u32_of_len, u64_checked_add in Hr. cbn [fst snd] in Hr. subst r.
  destruct (checked u32_max _) as [o|] eqn:E1; rstep;
    [apply checked_Some in E1 as [-> ?]|apply checked_None in E1; split; [done|]; intros [[[_ ?] _] _]; lia].
  destruct (Z.eqb_spec (raw_ordinal site) (Z.of_nat n)) as [Ho|Ho]; rstep; [|split; [done|]; tauto].
  destruct (Z.leb_spec (site_text site) u64_max); rstep; [|split; [done|]; intros (_ & -> & [|]); [done|lia]].
  destruct (checked u64_max _) as [c|] eqn:E2; rstep.
  - apply checked_Some in E2 as [-> ?]. rewrite IH by lia. split.
    + intros (Hn & -> & Hb). split; [split; [lia|done]|]. split; [lia|right]. destruct Hb as [->|]; simpl in *; lia.
    + intros ([_ Hn] & -> & [|Hb]); [done|]. split_and!; [done|lia|right; lia].
  - apply checked_None in E2. split; [done|]. intros (_ & -> & [|]); [done|lia].
Qed.

Lemma reconstruction_steady sites visited errors depth text limits :
  steady (try_from_parts_with_checkpoint sites visited errors depth text limits).
Proof. unfold try_from_parts_with_checkpoint. solve_steady. Qed.

Lemma reconstruction_evals sites visited errors depth text limits :
  evals (try_from_parts_with_checkpoint sites visited errors depth text limits)
    (validate_metadata (length sites) visited errors depth limits;;
     calculated ← try_fold count_site 0 (zip (seq 0 (length sites)) sites);
     if negb (calculated =? text) || (max_owned_text_bytes limits <? text)
     then Err InvalidAnalysisShape
     else Ok {| artifact_sites := sites; artifact_visited_nodes := visited;
                artifact_syntax_error_nodes := errors; artifact_max_observed_depth := depth;
                artifact_owned_text_bytes := text |}).
Proof.
  unfold try_from_parts_with_checkpoint. eapply evals_bind; [apply evals_check|].
  apply evals_mbind; [apply evals_lift|]. intros [].
  apply evals_mbind.
  - apply evals_fold. intros calculated [index site]. eapply evals_bind; [apply evals_check|].
    apply evals_mbind; [apply evals_lift|]. intros expected. simpl.
    destruct (negb _); [apply evals_throw|]. apply evals_mbind; [apply evals_lift|]. intros owned. apply evals_lift.
  - intros calculated. eapply evals_bind; [apply evals_check|].
    destruct (_ || _); [apply evals_throw|apply evals_ret].
Qed.

(** C23: An artifact is reconstructed, if the control lets it, exactly from consistent parts: valid
    limits, nodes visited within them, no more errors than nodes, a depth and a number of sites within
    the limits, sites numbered consecutively from zero, and an owned-text total that is the true sum
    over the sites, within its limit. *)
Theorem reconstruction_spec sites visited errors depth text limits a :
  run never (try_from_parts_with_checkpoint sites visited errors depth text limits) = Ok a ↔
  site_limits_is_valid limits = true
  ∧ visited ≠ 0 ∧ errors ≤ visited ≤ site_max_syntax_nodes limits ∧ depth ≤ site_max_syntax_depth limits
  ∧ Z.of_nat (length sites) ≤ max_graph_sites limits
  ∧ (∀ i site, sites !! i = Some site → raw_ordinal site = Z.of_nat i)
  ∧ text = sites_text sites ∧ text ≤ max_owned_text_bytes limits
  ∧ a = {| artifact_sites := sites; artifact_visited_nodes := visited;
           artifact_syntax_error_nodes := errors; artifact_max_observed_depth := depth;
           artifact_owned_text_bytes := text |}.
Proof.
  rewrite (evals_run _ _ (reconstruction_evals sites visited errors depth text limits)).
  unfold validate_metadata, u32_of_len.
  destruct (site_limits_is_valid limits) eqn:Hv; cbn [negb orb]; [|split; [done|]; by intros []].
  assert (max_graph_sites limits ≤ MAX_GRAPH_SITES ∧ max_owned_text_bytes limits ≤ MAX_OWNED_TEXT_BYTES) as [Hg Ho].
  { unfold site_limits_is_valid in Hv. lia. }
  unfold MAX_GRAPH_SITES, MAX_OWNED_TEXT_BYTES in *.
  destruct (checked u32_max (Z.of_nat (length sites))) as [c|] eqn:Ec;
    [apply checked_Some in Ec as [-> Hc]|apply checked_None in Ec; rewrite !orb_true_r; rstep;
     split; [done|]; unfold u32_max in *; lia].
  destruct (_ || _) eqn:Em; rstep; [split; [done|lia]|]. rewrite !orb_false_iff in Em.
  assert (numbered 0 sites ↔ ∀ i site, sites !! i = Some site → raw_ordinal site = Z.of_nat i) as Hnum.
  { unfold numbered. split; [intros H i s Hs; by apply (H i s Hs)|]. intros H i s Hs.
    split; [by apply H|]. apply lookup_lt_Some in Hs. simpl. lia. }
  destruct (try_fold _ _ _) as [total|e] eqn:Et; rstep.
  - apply count_sites in Et as (Hn & -> & _); [|done]. rewrite Z.add_0_l.
    destruct (_ || _) eqn:Eo; [split; [done|]; lia|]. rewrite orb_false_iff in Eo. split.
    + intros [= <-]. split_and!; try done; try lia. exact (proj1 Hnum Hn).
    + intros (_ & _ & _ & _ & _ & _ & _ & _ & ->). done.
  - split; [done|]. intros (_ & _ & _ & _ & _ & Hn & -> & Hb & _).
    rewrite (proj2 (count_sites 0 0 sites (sites_text sites) ltac:(done))) in Et; [done|].
    split; [by apply Hnum|]. split; [done|right; unfold u64_max; lia].
Qed.
