(* ===== verification/Resolver.v ===== *)
(** * The relationship resolver

    Models [crates/repowitness-analysis/src/rust_graph/resolution/]: admission of the
    definitions and sites of one generation ([resolver.rs]), the definition and import
    indexes, the rules that select the candidates of each site, and the bounded output with
    its coverage ([support.rs], [outcome.rs], [model.rs]).

    The code refers to definitions and sites by their index in the input slices; here an
    index is the occurrence it points at.  Admission refuses two occurrences of one identity
    before an index is compared, so the two agree wherever it matters. *)

From Stdlib Require Import ZArith Lia ZifyBool.
From Stdlib Require Import Strings.Byte.
From stdpp Require Import base numbers sorting list.
From S2P Require Import Prelude Ordering GraphIdentity ResolutionSyntax SymbolFacts GraphSites.

Open Scope Z_scope.

(** ** Limits *)

Definition MAX_DEFINITIONS : Z := 250000.
Definition MAX_SITES : Z := 250000.
Definition MAX_CANDIDATES_PER_SITE : Z := 4096.
Definition MAX_TOTAL_CANDIDATES : Z := 1000000.
Definition MAX_INPUT_TEXT_BYTES : Z := 256 * 1024 * 1024.
Definition MAX_OUTPUT_BYTES : Z := 256 * 1024 * 1024.

Record RustGraphResolutionLimits := {
  max_definitions : Z;
  max_sites : Z;
  max_candidates_per_site : Z;
  max_total_candidates : Z;
  max_input_text_bytes : Z;
  max_resolution_output_bytes : Z;
}.

Definition resolution_limits_DEFAULT : RustGraphResolutionLimits :=
  {| max_definitions := 100000; max_sites := 250000; max_candidates_per_site := 64;
     max_total_candidates := 500000; max_input_text_bytes := 128 * 1024 * 1024;
     max_resolution_output_bytes := 128 * 1024 * 1024 |}.

Definition resolution_limits_is_valid (l : RustGraphResolutionLimits) : bool :=
  negb (max_definitions l =? 0) && (max_definitions l <=? MAX_DEFINITIONS)
  && negb (max_sites l =? 0) && (max_sites l <=? MAX_SITES)
  && (2 <=? max_candidates_per_site l) && (max_candidates_per_site l <=? MAX_CANDIDATES_PER_SITE)
  && negb (max_total_candidates l =? 0) && (max_total_candidates l <=? MAX_TOTAL_CANDIDATES)
  && negb (max_input_text_bytes l =? 0) && (max_input_text_bytes l <=? MAX_INPUT_TEXT_BYTES)
  && negb (max_resolution_output_bytes l =? 0) && (max_resolution_output_bytes l <=? MAX_OUTPUT_BYTES).

Definition resolution_limits_try_new (definitions sites candidates_per_site total_candidates
    input_text_bytes output_bytes : Z) : result RustGraphResolutionError RustGraphResolutionLimits :=
  let limits := {| max_definitions := definitions; max_sites := sites;
                   max_candidates_per_site := candidates_per_site;
                   max_total_candidates := total_candidates; max_input_text_bytes := input_text_bytes;
                   max_resolution_output_bytes := output_bytes |} in
  if resolution_limits_is_valid limits then Ok limits else Err ResolutionInvalidLimits.

(** ** Occurrences *)

Record RustGraphDefinitionOccurrence := {
  occ_source_slot : bytes;
  occ_path : bytes;
  occ_artifact : bytes;
  occ_fact_ordinal : Z;
  occ_fact : RustSymbolFact;
}.

#[export] Instance definition_occurrence_eq_dec : EqDecision RustGraphDefinitionOccurrence.
Proof. solve_decision. Defined.

Definition definition_occurrence_try_new (source_slot path artifact : bytes) (fact_ordinal : Z)
    (fact : RustSymbolFact) : result RustGraphResolutionError RustGraphDefinitionOccurrence :=
  if (MAX_MEMORY_INTEROPERABLE_INTEGER <? fact_ordinal) || negb (is_rust_path path) then Err InvalidOccurrence
  else Ok {| occ_source_slot := source_slot; occ_path := path; occ_artifact := artifact;
             occ_fact_ordinal := fact_ordinal; occ_fact := fact |}.

Definition definition_identity (d : RustGraphDefinitionOccurrence) : RustGraphDefinitionIdentity :=
  {| def_source_slot := occ_source_slot d; def_path := occ_path d; def_artifact := occ_artifact d;
     def_fact_ordinal := occ_fact_ordinal d; def_kind := fact_kind (occ_fact d);
     def_name_span := fact_name_span (occ_fact d);
     def_declaration_span := fact_declaration_span (occ_fact d) |}.

Record RustGraphSiteOccurrence := {
  socc_source_slot : bytes;
  socc_path : bytes;
  socc_artifact : bytes;
  socc_site : RustGraphSite;
}.

#[export] Instance site_occurrence_eq_dec : EqDecision RustGraphSiteOccurrence.
Proof. solve_decision. Defined.

Definition site_occurrence_try_new (source_slot path artifact : bytes) (site : RustGraphSite)
    : result RustGraphResolutionError RustGraphSiteOccurrence :=
  if negb (is_rust_path path) then Err InvalidOccurrence
  else Ok {| socc_source_slot := source_slot; socc_path := path; socc_artifact := artifact;
             socc_site := site |}.

Definition site_identity (s : RustGraphSiteOccurrence) : RustGraphSiteIdentity :=
  {| site_source_slot := socc_source_slot s; site_path := socc_path s; site_artifact := socc_artifact s;
     site_ordinal := raw_ordinal (socc_site s); site_kind := raw_kind (socc_site s);
     site_occurrence_span := raw_occurrence_span (socc_site s);
     site_target_span := raw_target_span (socc_site s) |}.

(** ** Orders and identities *)

Definition span_order (left right : ByteSpan) : comparison :=
  then_with (cmp (span_start left) (span_start right)) (cmp (span_end left) (span_end right)).

Definition definition_ordering (left right : RustGraphDefinitionOccurrence) : comparison :=
  then_with (then_with (then_with (then_with (then_with (then_with
    (cmp (occ_source_slot left) (occ_source_slot right))
    (cmp (occ_path left) (occ_path right)))
    (cmp (occ_artifact left) (occ_artifact right)))
    (cmp (occ_fact_ordinal left) (occ_fact_ordinal right)))
    (cmp (fact_kind (occ_fact left)) (fact_kind (occ_fact right))))
    (span_order (fact_name_span (occ_fact left)) (fact_name_span (occ_fact right))))
    (span_order (fact_declaration_span (occ_fact left)) (fact_declaration_span (occ_fact right))).

Definition site_ordering (left right : RustGraphSiteOccurrence) : comparison :=
  then_with (then_with (then_with (then_with (then_with (then_with
    (cmp (socc_source_slot left) (socc_source_slot right))
    (cmp (socc_path left) (socc_path right)))
    (cmp (socc_artifact left) (socc_artifact right)))
    (cmp (raw_ordinal (socc_site left)) (raw_ordinal (socc_site right))))
    (cmp (raw_kind (socc_site left)) (raw_kind (socc_site right))))
    (span_order (raw_occurrence_span (socc_site left)) (raw_occurrence_span (socc_site right))))
    (span_order (raw_target_span (socc_site left)) (raw_target_span (socc_site right))).

Definition same_definition_identity (left right : RustGraphDefinitionOccurrence) : bool :=
  bool_decide (occ_source_slot left = occ_source_slot right)
  && bool_decide (occ_path left = occ_path right)
  && bool_decide (occ_artifact left = occ_artifact right)
  && bool_decide (occ_fact_ordinal left = occ_fact_ordinal right).

Definition same_site_identity (left right : RustGraphSiteOccurrence) : bool :=
  bool_decide (socc_source_slot left = socc_source_slot right)
  && bool_decide (socc_path left = socc_path right)
  && bool_decide (socc_artifact left = socc_artifact right)
  && bool_decide (raw_ordinal (socc_site left) = raw_ordinal (socc_site right)).

(** ** Outcomes *)

Inductive RustGraphUnresolvedReason :=
| NoCandidate | UnsupportedSiteKind | UnsupportedImportShape | DynamicOrMethodCall
| UnsupportedQualifiedSyntax.

#[export] Instance unresolved_reason_eq_dec : EqDecision RustGraphUnresolvedReason.
Proof. solve_decision. Defined.

Record RustGraphResolutionCandidate := {
  candidate_target : RustGraphDefinitionIdentity;
  candidate_evidence : RustGraphResolutionEvidence;
}.

Inductive RustGraphResolutionOutcome :=
| Unresolved (reason : RustGraphUnresolvedReason)
| UniqueOutcome (candidate : RustGraphResolutionCandidate)
| AmbiguousOutcome (candidates : list RustGraphResolutionCandidate).

Record RustGraphSiteResolution := {
  resolved_site : RustGraphSiteIdentity;
  resolved_outcome : RustGraphResolutionOutcome;
  candidate_count : Z;
  candidates_truncated : bool;
}.

Record RustGraphResolutionCoverage := {
  cov_definitions : Z;
  cov_sites : Z;
  cov_unresolved : Z;
  cov_unique : Z;
  cov_ambiguous : Z;
  cov_unsupported : Z;
  cov_truncated_sites : Z;
  cov_retained_candidates : Z;
}.

Record RustGraphResolution := {
  resolution_outcomes : list RustGraphSiteResolution;
  resolution_coverage : RustGraphResolutionCoverage;
  resolution_input_text_bytes : Z;
  resolution_output_bytes : Z;
}.

(** ** Admission *)

Notation ctl := (ctl RustGraphResolutionError).

Definition len_u64 (value : nat) : result RustGraphResolutionError Z :=
  ok_or (u64_of_len value) ResolutionCountOverflow.

Definition increment (value : Z) : result RustGraphResolutionError Z :=
  ok_or (checked u32_max (value + 1)) ResolutionCountOverflow.

Definition add_text (total : Z) (bytes : nat) (limits : RustGraphResolutionLimits)
    : result RustGraphResolutionError Z :=
  n ← len_u64 bytes;
  total ← ok_or (u64_checked_add total n) ResolutionCountOverflow;
  if max_input_text_bytes limits <? total then Err InputTextLimitExceeded else Ok total.

Record AdmittedInput := {
  definition_order : list RustGraphDefinitionOccurrence;
  site_order : list RustGraphSiteOccurrence;
  input_text_bytes : Z;
}.

(** The [windows(2)] loops: every pair of neighbours is checked for one identity. *)
Fixpoint reject_adjacent {A} (same : A → A → bool) (e : RustGraphResolutionError) (xs : list A) : ctl () :=
  match xs with
  | x :: (y :: _) as xs' => check;; if same x y then throw e else reject_adjacent same e xs'
  | _ => mret ()
  end.

Definition admit_definition (limits : RustGraphResolutionLimits) (text_bytes : Z)
    (definition : RustGraphDefinitionOccurrence) : result RustGraphResolutionError Z :=
  text_bytes ← add_text text_bytes (length (occ_path definition)) limits;
  text_bytes ← add_text text_bytes (length (fact_name (occ_fact definition))) limits;
  add_text text_bytes (length (fact_qualified_name (occ_fact definition))) limits.

Definition admit_site (limits : RustGraphResolutionLimits) (text_bytes : Z) (site : RustGraphSiteOccurrence)
    : result RustGraphResolutionError Z :=
  let raw := socc_site site in
  if (span_start (raw_target_span raw) <? span_start (raw_occurrence_span raw))
     || (span_end (raw_occurrence_span raw) <? span_end (raw_target_span raw))
  then Err InvalidOccurrence
  else
    text_bytes ← add_text text_bytes (length (socc_path site)) limits;
    text_bytes ← add_text text_bytes (length (raw_target raw)) limits;
    match raw_enclosing_definition raw with
    | None => Ok text_bytes
    | Some enclosing =>
        text_bytes ← add_text text_bytes (length (encl_name enclosing)) limits;
        add_text text_bytes (length (encl_qualified_name enclosing)) limits
    end.

Definition admit_inputs (definitions : list RustGraphDefinitionOccurrence)
    (sites : list RustGraphSiteOccurrence) (limits : RustGraphResolutionLimits) : ctl AdmittedInput :=
  definition_count ← lift (ok_or (u32_of_len (length definitions)) DefinitionLimitExceeded);
  lift (reject_if (max_definitions limits <? definition_count) DefinitionLimitExceeded);;
  site_count ← lift (ok_or (u32_of_len (length sites)) SiteLimitExceeded);
  lift (reject_if (max_sites limits <? site_count) SiteLimitExceeded);;
  text_bytes ← ctl_fold (λ text_bytes definition, check;; lift (admit_definition limits text_bytes definition))
                 0 definitions;
  text_bytes ← ctl_fold (λ text_bytes site, check;; lift (admit_site limits text_bytes site)) text_bytes sites;
  let definition_order := sort_by definition_ordering definitions in
  reject_adjacent same_definition_identity DuplicateDefinition definition_order;;
  let site_order := sort_by site_ordering sites in
  reject_adjacent same_site_identity DuplicateSite site_order;;
  check;;
  mret {| definition_order := definition_order; site_order := site_order; input_text_bytes := text_bytes |}.

(** ** Indexes *)

Record DefinitionIndex := {
  by_qualified : list (bytes * list RustGraphDefinitionOccurrence);
  by_name : list (bytes * list RustGraphDefinitionOccurrence);
}.

(** [map.entry(key).or_default().push(value)]. *)
Definition entry_push {K V} `{RustOrd K} (key : K) (value : V) (m : list (K * list V)) : list (K * list V) :=
  bmap_insert key (default [] (bmap_get key m) ++ [value]) m.

Definition build_definition_index (order : list RustGraphDefinitionOccurrence) : ctl DefinitionIndex :=
  index ← ctl_fold (λ index definition,
      check;;
      mret {| by_qualified := entry_push (fact_qualified_name (occ_fact definition)) definition (by_qualified index);
              by_name := entry_push (fact_name (occ_fact definition)) definition (by_name index) |})
    {| by_qualified := []; by_name := [] |} order;
  check;;
  mret index.

Record ImportBinding := {
  binding_alias : bytes;
  binding_target : bytes;
  binding_same_slot : bool;
  binding_module_scope : option bytes;
}.

#[export] Instance import_binding_eq_dec : EqDecision ImportBinding.
Proof. solve_decision. Defined.

Definition FileKey : Type := bytes * (bytes * bytes).
Definition file_key (site : RustGraphSiteOccurrence) : FileKey :=
  (socc_source_slot site, (socc_artifact site, socc_path site)).

Definition binding_ordering (left right : ImportBinding) : comparison :=
  then_with (then_with (then_with
    (cmp (binding_alias left) (binding_alias right))
    (cmp (binding_target left) (binding_target right)))
    (cmp (Z.b2z (binding_same_slot left)) (Z.b2z (binding_same_slot right))))
    (cmp (binding_module_scope left) (binding_module_scope right)).

(** The binding an import site contributes; [None] where the loop continues. *)
Definition import_binding (site : RustGraphSite) : option ImportBinding :=
  if negb (bool_decide (raw_kind site = SiteImport)) then None
  else
    parsed ← parse_import (raw_target site);
    alias ← import_alias parsed;
    module_scope ← match raw_enclosing_definition site with
                   | None => Some None
                   | Some enclosing => if bool_decide (encl_kind enclosing = Module_)
                                       then Some (Some (encl_qualified_name enclosing)) else None
                   end;
    Some {| binding_alias := alias; binding_target := import_target parsed;
            binding_same_slot := import_same_slot parsed; binding_module_scope := module_scope |}.

Definition build_import_index (order : list RustGraphSiteOccurrence)
    : ctl (list (FileKey * list ImportBinding)) :=
  imports ← ctl_fold (λ imports occurrence,
      check;;
      mret match import_binding (socc_site occurrence) with
           | Some binding => entry_push (file_key occurrence) binding imports
           | None => imports
           end) [] order;
  imports ← ctl_fold (λ done entry,
      check;;
      let bindings := sort_by binding_ordering entry.2 in
      let bindings := dedup_by (λ left right, bool_decide (left = right)) bindings in
      mret (done ++ [(entry.1, bindings)])) [] imports;
  check;;
  mret imports.

(** ** Candidates of one site *)

Inductive EligibleDefinitions := AnyDefinition | FreeFunctions.

Definition is_eligible (definition : RustGraphDefinitionOccurrence) (eligible : EligibleDefinitions) : bool :=
  match eligible with
  | AnyDefinition => true
  | FreeFunctions => bool_decide (fact_kind (occ_fact definition) = Function)
  end.

Definition CandidateRef : Type := RustGraphDefinitionOccurrence * RustGraphResolutionEvidence.

Record CandidateSet := {
  set_candidates : list CandidateRef;
  set_unresolved_reason : RustGraphUnresolvedReason;
}.

Definition no_candidates (reason : RustGraphUnresolvedReason) : CandidateSet :=
  {| set_candidates := []; set_unresolved_reason := reason |}.

(** [source_slot.is_none_or(|slot| definition.source_slot() == slot)]. *)
Definition in_slot (source_slot : option bytes) (definition : RustGraphDefinitionOccurrence) : bool :=
  match source_slot with
  | None => true
  | Some slot => bool_decide (occ_source_slot definition = slot)
  end.

Definition add_qualified_matches (candidates : list CandidateRef) (qualified_name : bytes)
    (source_slot : option bytes) (evidence : RustGraphResolutionEvidence) (eligible : EligibleDefinitions)
    (index : DefinitionIndex) : ctl (list CandidateRef) :=
  match bmap_get qualified_name (by_qualified index) with
  | None => mret candidates
  | Some matches =>
      ctl_fold (λ candidates definition,
          check;;
          mret (if in_slot source_slot definition && is_eligible definition eligible
                then candidates ++ [(definition, evidence)] else candidates))
        candidates matches
  end.

Definition add_name_matches (candidates : list CandidateRef) (name : bytes)
    (evidence : RustGraphResolutionEvidence) (eligible : EligibleDefinitions) (index : DefinitionIndex)
    : ctl (list CandidateRef) :=
  match bmap_get name (by_name index) with
  | None => mret candidates
  | Some matches =>
      ctl_fold (λ candidates definition,
          check;;
          mret (if is_eligible definition eligible then candidates ++ [(definition, evidence)] else candidates))
        candidates matches
  end.

(** [retain] with the definition retained last: runs of one definition keep their first. *)
Fixpoint retain_first (previous : option RustGraphDefinitionOccurrence) (candidates : list CandidateRef)
    : list CandidateRef :=
  match candidates with
  | [] => []
  | candidate :: candidates =>
      if bool_decide (previous = Some candidate.1) then retain_first (Some candidate.1) candidates
      else candidate :: retain_first (Some candidate.1) candidates
  end.

Definition candidate_ordering (left right : CandidateRef) : comparison :=
  then_with (definition_ordering left.1 right.1) (cmp left.2 right.2).

Definition finish_candidates (candidates : list CandidateRef) (unresolved_reason : RustGraphUnresolvedReason)
    : ctl CandidateSet :=
  let candidates := sort_by candidate_ordering candidates in
  let candidates := retain_first None candidates in
  check;;
  mret {| set_candidates := candidates; set_unresolved_reason := unresolved_reason |}.

(** [scope.rsplit_once("::").map(|(parent, _)| parent)]. *)
Definition parent_scope (scope : bytes) : option bytes :=
  match rsplit_once scope with Some (parent, _) => Some parent | None => None end.

(** The [while let Some(current) = scope] loops take each scope to its parent, a shorter text;
    the length of the first scope bounds the turns. *)
Fixpoint module_scope_loop (fuel : nat) (site : RustGraphSiteOccurrence) (index : DefinitionIndex)
    (prefix : option bytes) : ctl (option bytes) :=
  match fuel, prefix with
  | S fuel, Some candidate_scope =>
      check;;
      if match bmap_get candidate_scope (by_qualified index) with
         | Some matches =>
             existsb (λ definition,
               bool_decide (occ_source_slot definition = socc_source_slot site)
               && bool_decide (occ_path definition = socc_path site)
               && bool_decide (fact_kind (occ_fact definition) = Module_)) matches
         | None => false
         end
      then mret (Some candidate_scope)
      else module_scope_loop fuel site index (parent_scope candidate_scope)
  | _, _ => mret None
  end.

Definition reference_module_scope (site : RustGraphSiteOccurrence) (index : DefinitionIndex)
    : ctl (option bytes) :=
  match raw_enclosing_definition (socc_site site) with
  | None => mret None
  | Some enclosing =>
      if bool_decide (encl_kind enclosing = Module_) then mret (Some (encl_qualified_name enclosing))
      else module_scope_loop (S (length (encl_qualified_name enclosing))) site index
             (parent_scope (encl_qualified_name enclosing))
  end.

Fixpoint lexical_loop (fuel : nat) (site : RustGraphSiteOccurrence) (name : bytes)
    (eligible : EligibleDefinitions) (index : DefinitionIndex) (scope : option bytes)
    : ctl (option (list CandidateRef)) :=
  match fuel, scope with
  | S fuel, Some current =>
      check;;
      let qualified := current ++ colons ++ name in
      candidates ← add_qualified_matches [] qualified (Some (socc_source_slot site)) LexicalSyntax eligible index;
      match candidates with
      | [] => lexical_loop fuel site name eligible index (parent_scope current)
      | _ => mret (Some candidates)
      end
  | _, _ => mret None
  end.

Definition lexical_matches (site : RustGraphSiteOccurrence) (name : bytes) (eligible : EligibleDefinitions)
    (index : DefinitionIndex) : ctl (list CandidateRef) :=
  let scope := encl_qualified_name <$> raw_enclosing_definition (socc_site site) in
  found ← lexical_loop (S (length (default [] scope))) site name eligible index scope;
  match found with
  | Some candidates => mret candidates
  | None => add_qualified_matches [] name (Some (socc_source_slot site)) LexicalSyntax eligible index
  end.

(** [same_slot.then_some(site.source_slot())]. *)
Definition slot_if (same_slot : bool) (site : RustGraphSiteOccurrence) : option bytes :=
  if same_slot then Some (socc_source_slot site) else None.

Definition resolve_import (site : RustGraphSiteOccurrence) (index : DefinitionIndex) : ctl CandidateSet :=
  match parse_import (raw_target (socc_site site)) with
  | None => mret (no_candidates UnsupportedImportShape)
  | Some import =>
      candidates ← add_qualified_matches [] (import_target import) (slot_if (import_same_slot import) site)
                     ImportSyntax AnyDefinition index;
      finish_candidates candidates NoCandidate
  end.

Definition resolve_reference_target (site : RustGraphSiteOccurrence) (target : bytes) (index : DefinitionIndex)
    (imports : list (FileKey * list ImportBinding)) (eligible : EligibleDefinitions) : ctl CandidateSet :=
  match parse_path target with
  | None => mret (no_candidates UnsupportedQualifiedSyntax)
  | Some (path, same_slot, bare) =>
      if negb bare then
        candidates ← add_qualified_matches [] path (slot_if same_slot site) QualifiedSyntax eligible index;
        finish_candidates candidates NoCandidate
      else
        candidates ← lexical_matches site path eligible index;
        candidates ← match bmap_get (file_key site) imports with
                     | None => mret candidates
                     | Some bindings =>
                         module_scope ← reference_module_scope site index;
                         ctl_fold (λ candidates binding,
                             check;;
                             add_qualified_matches candidates (binding_target binding)
                               (slot_if (binding_same_slot binding) site) ImportSyntax eligible index)
                           candidates
                           (filter (λ binding, binding_alias binding = path
                                               ∧ binding_module_scope binding = module_scope) bindings)
                     end;
        candidates ← match candidates with
                     | [] => add_name_matches candidates path ExactNameHeuristic eligible index
                     | _ => mret candidates
                     end;
        finish_candidates candidates NoCandidate
  end.

(** The loop returns at the first method it meets. *)
Fixpoint first_method (site : RustGraphSiteOccurrence) (same_slot : bool)
    (matches : list RustGraphDefinitionOccurrence) : ctl bool :=
  match matches with
  | [] => mret false
  | definition :: matches =>
      check;;
      if bool_decide (fact_kind (occ_fact definition) = Method)
         && (negb same_slot || bool_decide (occ_source_slot definition = socc_source_slot site))
      then mret true
      else first_method site same_slot matches
  end.

Definition exact_method_candidate_exists (site : RustGraphSiteOccurrence) (target : bytes)
    (index : DefinitionIndex) : ctl bool :=
  match parse_path target with
  | None => mret false
  | Some (path, same_slot, bare) =>
      match bmap_get path (if bare then by_name index else by_qualified index) with
      | None => mret false
      | Some matches => first_method site same_slot matches
      end
  end.

(** Call spellings left to another evidence provider. *)
Definition is_dynamic_call (raw : bytes) : bool :=
  contains_byte x2e raw || starts_with [x3c] raw || contains_byte x28 raw || contains_byte x5b raw.

Definition call_target (raw : bytes) : bytes := default raw (strip_terminal_turbofish raw).

Definition resolve_call (site : RustGraphSiteOccurrence) (index : DefinitionIndex)
    (imports : list (FileKey * list ImportBinding)) : ctl CandidateSet :=
  let raw := raw_target (socc_site site) in
  if is_dynamic_call raw then mret (no_candidates DynamicOrMethodCall)
  else
    let target := call_target raw in
    resolved ← resolve_reference_target site target index imports FreeFunctions;
    match set_candidates resolved with
    | [] =>
        exists_ ← exact_method_candidate_exists site target index;
        mret (if (exists_ : bool)
              then {| set_candidates := set_candidates resolved; set_unresolved_reason := DynamicOrMethodCall |}
              else resolved)
    | _ => mret resolved
    end.

Definition resolve_site (site : RustGraphSiteOccurrence) (index : DefinitionIndex)
    (imports : list (FileKey * list ImportBinding)) : ctl CandidateSet :=
  match raw_kind (socc_site site) with
  | SiteMacroCall | SiteTestMarker => mret (no_candidates UnsupportedSiteKind)
  | SiteImport => resolve_import site index
  | SiteReference =>
      resolve_reference_target site (raw_target (socc_site site)) index imports AnyDefinition
  | SiteCall => resolve_call site index imports
  end.

(** ** Bounded output *)

Definition RESOLUTION_OUTPUT_BYTES : Z := 64.
Definition SITE_OUTPUT_FIXED_BYTES : Z := 121.
Definition CANDIDATE_OUTPUT_FIXED_BYTES : Z := 106.

Record OutputBuilder := {
  out_outcomes : list RustGraphSiteResolution;
  out_output_bytes : Z;
  out_unresolved : Z;
  out_unique : Z;
  out_ambiguous : Z;
  out_unsupported : Z;
  out_truncated_sites : Z;
  out_retained_candidates : Z;
}.

Section output.
Context (limits : RustGraphResolutionLimits).

Definition output_new : result RustGraphResolutionError OutputBuilder :=
  if max_resolution_output_bytes limits <? RESOLUTION_OUTPUT_BYTES then Err ResolutionOutputLimitExceeded
  else Ok {| out_outcomes := []; out_output_bytes := RESOLUTION_OUTPUT_BYTES; out_unresolved := 0;
             out_unique := 0; out_ambiguous := 0; out_unsupported := 0; out_truncated_sites := 0;
             out_retained_candidates := 0 |}.

Definition add_resolution_bytes (output_bytes bytes : Z) : result RustGraphResolutionError Z :=
  output_bytes ← ok_or (u64_checked_add output_bytes bytes) ResolutionCountOverflow;
  if max_resolution_output_bytes limits <? output_bytes then Err ResolutionOutputLimitExceeded
  else Ok output_bytes.

(** The loop over the retained candidates: their bytes, and their identities with evidence. *)
Definition push_candidate (acc : Z * list RustGraphResolutionCandidate) (candidate : CandidateRef)
    : ctl (Z * list RustGraphResolutionCandidate) :=
  let definition := candidate.1 in
  check;;
  output_bytes ← lift (add_resolution_bytes acc.1 CANDIDATE_OUTPUT_FIXED_BYTES);
  path_bytes ← lift (len_u64 (length (occ_path definition)));
  output_bytes ← lift (add_resolution_bytes output_bytes path_bytes);
  mret (output_bytes,
        acc.2 ++ [{| candidate_target := definition_identity definition; candidate_evidence := candidate.2 |}]).

Definition output_push (b : OutputBuilder) (site : RustGraphSiteOccurrence) (candidates : CandidateSet)
    : ctl OutputBuilder :=
  check;;
  total ← lift (ok_or (u32_of_len (length (set_candidates candidates))) ResolutionCountOverflow);
  let retained_limit := max_candidates_per_site limits in
  let truncated := retained_limit <? Z.of_nat (length (set_candidates candidates)) in
  let retained := take (Z.to_nat retained_limit) (set_candidates candidates) in
  retained_count ← lift (len_u64 (length retained));
  retained_candidates ← lift (ok_or (u64_checked_add (out_retained_candidates b) retained_count)
                                    ResolutionCountOverflow);
  lift (reject_if (max_total_candidates limits <? retained_candidates) CandidateLimitExceeded);;
  output_bytes ← lift (add_resolution_bytes (out_output_bytes b) SITE_OUTPUT_FIXED_BYTES);
  path_bytes ← lift (len_u64 (length (socc_path site)));
  output_bytes ← lift (add_resolution_bytes output_bytes path_bytes);
  owned ← ctl_fold push_candidate (output_bytes, []) retained;
  let reason := set_unresolved_reason candidates in
  counted ← match owned.2 with
            | [] =>
                unresolved ← lift (increment (out_unresolved b));
                unsupported ← (if bool_decide (reason = NoCandidate) then mret (out_unsupported b)
                               else lift (increment (out_unsupported b)));
                mret (Unresolved reason, (unresolved, out_unique b, out_ambiguous b, unsupported))
            | [candidate] =>
                if negb truncated then
                  unique ← lift (increment (out_unique b));
                  mret (UniqueOutcome candidate,
                        (out_unresolved b, unique, out_ambiguous b, out_unsupported b))
                else
                  ambiguous ← lift (increment (out_ambiguous b));
                  mret (AmbiguousOutcome owned.2,
                        (out_unresolved b, out_unique b, ambiguous, out_unsupported b))
            | _ =>
                ambiguous ← lift (increment (out_ambiguous b));
                mret (AmbiguousOutcome owned.2,
                      (out_unresolved b, out_unique b, ambiguous, out_unsupported b))
            end;
  truncated_sites ← (if (truncated : bool) then lift (increment (out_truncated_sites b))
                     else mret (out_truncated_sites b));
  let '(outcome, (unresolved, unique, ambiguous, unsupported)) := counted in
  mret {| out_outcomes := out_outcomes b ++ [{| resolved_site := site_identity site;
                                                resolved_outcome := outcome; candidate_count := total;
                                                candidates_truncated := truncated |}];
          out_output_bytes := owned.1; out_unresolved := unresolved; out_unique := unique;
          out_ambiguous := ambiguous; out_unsupported := unsupported;
          out_truncated_sites := truncated_sites; out_retained_candidates := retained_candidates |}.

Definition output_finish (b : OutputBuilder) (definitions sites : nat) (input_text_bytes : Z)
    : ctl RustGraphResolution :=
  check;;
  definitions ← lift (ok_or (u32_of_len definitions) ResolutionCountOverflow);
  sites ← lift (ok_or (u32_of_len sites) ResolutionCountOverflow);
  mret {| resolution_outcomes := out_outcomes b;
          resolution_coverage :=
            {| cov_definitions := definitions; cov_sites := sites; cov_unresolved := out_unresolved b;
               cov_unique := out_unique b; cov_ambiguous := out_ambiguous b;
               cov_unsupported := out_unsupported b; cov_truncated_sites := out_truncated_sites b;
               cov_retained_candidates := out_retained_candidates b |};
          resolution_input_text_bytes := input_text_bytes;
          resolution_output_bytes := out_output_bytes b |}.
End output.

Definition resolve_rust_graph_sites (definitions : list RustGraphDefinitionOccurrence)
    (sites : list RustGraphSiteOccurrence) (limits : RustGraphResolutionLimits) : ctl RustGraphResolution :=
  check;;
  admitted ← admit_inputs definitions sites limits;
  index ← build_definition_index (definition_order admitted);
  imports ← build_import_index (site_order admitted);
  output ← lift (output_new limits);
  output ← ctl_fold (λ output site,
      check;;
      candidates ← resolve_site site index imports;
      output_push limits output site candidates) output (site_order admitted);
  check;;
  output_finish output (length definitions) (length sites) (input_text_bytes admitted).
