(* ===== verification/ResolverReference.v ===== *)
(** * What the resolver computes

    The resolver of [Resolver.v] without its indexes and its control: a pure function of the
    sorted definitions and sites, and the evaluation of every operation to it.  A lookup in
    an index is a filter of the sorted definitions. *)

From Stdlib Require Import ZArith Lia ZifyBool.
From stdpp Require Import base numbers sorting list.
From S2P Require Import Prelude Ordering GraphIdentity ResolutionSyntax SymbolFacts GraphSites Resolver.

Open Scope Z_scope.

(** ** Grouping *)

Section group.
Context {K V : Type} `{RustOrdLaws K}.

Definition group_from (m : list (K * list V)) (kvs : list (K * V)) : list (K * list V) :=
  foldl (λ m kv, entry_push kv.1 kv.2 m) m kvs.
Definition group (kvs : list (K * V)) : list (K * list V) := group_from [] kvs.

Definition values_of (k : K) (kvs : list (K * V)) : list V := (filter (λ kv, kv.1 = k) kvs).*2.

Lemma values_of_app k kvs kvs' : values_of k (kvs ++ kvs') = values_of k kvs ++ values_of k kvs'.
Proof. unfold values_of. by rewrite filter_app, fmap_app. Qed.

Lemma group_from_spec m kvs k :
  bmap_wf m → bmap_wf (group_from m kvs)
  ∧ default [] (bmap_get k (group_from m kvs)) = default [] (bmap_get k m) ++ values_of k kvs.
Proof.
  revert m. induction kvs as [|[k' v] kvs IH]; intros m Hm.
  { split; [done|]. by rewrite app_nil_r. }
  cbn [group_from foldl fst snd]. fold (group_from (entry_push k' v m) kvs).
  destruct (IH (entry_push k' v m)) as [Hwf Hget]; [by apply bmap_insert_wf|].
  split; [done|]. rewrite Hget. unfold entry_push. rewrite bmap_get_insert by done.
  change ((k', v) :: kvs) with ([(k', v)] ++ kvs). rewrite values_of_app, app_assoc. f_equal.
  unfold values_of. rewrite filter_cons, filter_nil. cbn [fst].
  case_decide as Hk; case_decide as Hk'; try congruence; simpl; [by subst|by rewrite app_nil_r].
Qed.

Lemma group_wf kvs : bmap_wf (group kvs).
Proof.
  destruct kvs as [|kv kvs]; [constructor|]. by apply (group_from_spec [] (kv :: kvs) kv.1); constructor.
Qed.

(** Looking a key up gives the values pushed under it, in order. *)
Lemma group_get kvs k : default [] (bmap_get k (group kvs)) = values_of k kvs.
Proof. unfold group. by rewrite (proj2 (group_from_spec [] kvs k ltac:(constructor))). Qed.
End group.

Lemma values_of_map {A K V} `{EqDecision K} (f : A → K * V) (k : K) xs :
  (filter (λ kv, kv.1 = k) (map f xs)).*2 = map (λ x, (f x).2) (filter (λ x, (f x).1 = k) xs).
Proof.
  induction xs as [|x xs IH]; [done|]. cbn [map]. destruct (decide ((f x).1 = k)).
  - rewrite !filter_cons_True by done. csimpl. by rewrite IH.
  - by rewrite !filter_cons_False by done.
Qed.

(** A loop that appends what each element contributes. *)
Lemma foldl_append {A B} (p : A → bool) (f : A → B) acc xs :
  foldl (λ acc x, if p x then acc ++ [f x] else acc) acc xs = acc ++ map f (filter (λ x, p x = true) xs).
Proof.
  revert acc. induction xs as [|x xs IH]; intros acc; [by rewrite app_nil_r|]. simpl.
  rewrite IH, filter_cons. destruct (p x); simpl; [by rewrite <- app_assoc|done].
Qed.

(** ** The reference *)

Section reference.
Context (definitions : list RustGraphDefinitionOccurrence) (sites : list RustGraphSiteOccurrence).

Definition index_of : DefinitionIndex :=
  {| by_qualified := group (map (λ d, (fact_qualified_name (occ_fact d), d)) definitions);
     by_name := group (map (λ d, (fact_name (occ_fact d), d)) definitions) |}.

Definition site_bindings : list (FileKey * ImportBinding) :=
  omap (λ s, pair (file_key s) <$> import_binding (socc_site s)) sites.

Definition normalize_bindings (bindings : list ImportBinding) : list ImportBinding :=
  dedup_by (λ left right, bool_decide (left = right)) (sort_by binding_ordering bindings).

Definition imports_of : list (FileKey * list ImportBinding) :=
  map (λ entry, (entry.1, normalize_bindings entry.2)) (group site_bindings).

Definition qualified_candidates (q : bytes) (slot : option bytes) (ev : RustGraphResolutionEvidence)
    (el : EligibleDefinitions) : list CandidateRef :=
  map (λ d, (d, ev)) (filter (λ d, fact_qualified_name (occ_fact d) = q
                                   ∧ in_slot slot d && is_eligible d el = true) definitions).

Definition named_candidates (name : bytes) (ev : RustGraphResolutionEvidence) (el : EligibleDefinitions)
    : list CandidateRef :=
  map (λ d, (d, ev)) (filter (λ d, fact_name (occ_fact d) = name ∧ is_eligible d el = true) definitions).

Definition is_module_of (site : RustGraphSiteOccurrence) (scope : bytes) (d : RustGraphDefinitionOccurrence) : bool :=
  bool_decide (fact_qualified_name (occ_fact d) = scope)
  && bool_decide (occ_source_slot d = socc_source_slot site) && bool_decide (occ_path d = socc_path site)
  && bool_decide (fact_kind (occ_fact d) = Module_).

Fixpoint ref_module_scope (fuel : nat) (site : RustGraphSiteOccurrence) (prefix : option bytes) : option bytes :=
  match fuel, prefix with
  | S fuel, Some scope =>
      if existsb (is_module_of site scope) definitions then Some scope
      else ref_module_scope fuel site (parent_scope scope)
  | _, _ => None
  end.

Definition ref_reference_module_scope (site : RustGraphSiteOccurrence) : option bytes :=
  match raw_enclosing_definition (socc_site site) with
  | None => None
  | Some e =>
      if bool_decide (encl_kind e = Module_) then Some (encl_qualified_name e)
      else ref_module_scope (S (length (encl_qualified_name e))) site (parent_scope (encl_qualified_name e))
  end.

Fixpoint ref_lexical (fuel : nat) (site : RustGraphSiteOccurrence) (name : bytes) (el : EligibleDefinitions)
    (scope : option bytes) : option (list CandidateRef) :=
  match fuel, scope with
  | S fuel, Some current =>
      match qualified_candidates (current ++ colons ++ name) (Some (socc_source_slot site)) LexicalSyntax el with
      | [] => ref_lexical fuel site name el (parent_scope current)
      | candidates => Some candidates
      end
  | _, _ => None
  end.

Definition ref_lexical_matches (site : RustGraphSiteOccurrence) (name : bytes) (el : EligibleDefinitions)
    : list CandidateRef :=
  let scope := encl_qualified_name <$> raw_enclosing_definition (socc_site site) in
  match ref_lexical (S (length (default [] scope))) site name el scope with
  | Some candidates => candidates
  | None => qualified_candidates name (Some (socc_source_slot site)) LexicalSyntax el
  end.

Definition ref_imported (site : RustGraphSiteOccurrence) (name : bytes) (el : EligibleDefinitions)
    : list CandidateRef :=
  concat (map (λ binding, qualified_candidates (binding_target binding)
                            (slot_if (binding_same_slot binding) site) ImportSyntax el)
    (filter (λ binding, binding_alias binding = name
                        ∧ binding_module_scope binding = ref_reference_module_scope site)
       (default [] (bmap_get (file_key site) imports_of)))).

Definition ref_finish (candidates : list CandidateRef) (reason : RustGraphUnresolvedReason) : CandidateSet :=
  {| set_candidates := retain_first None (sort_by candidate_ordering candidates);
     set_unresolved_reason := reason |}.

Definition ref_bare (site : RustGraphSiteOccurrence) (name : bytes) (el : EligibleDefinitions)
    : list CandidateRef :=
  match ref_lexical_matches site name el ++ ref_imported site name el with
  | [] => named_candidates name ExactNameHeuristic el
  | candidates => candidates
  end.

Definition ref_target (site : RustGraphSiteOccurrence) (target : bytes) (el : EligibleDefinitions)
    : CandidateSet :=
  match parse_path target with
  | None => no_candidates UnsupportedQualifiedSyntax
  | Some (path, same_slot, bare) =>
      ref_finish (if negb bare then qualified_candidates path (slot_if same_slot site) QualifiedSyntax el
                  else ref_bare site path el) NoCandidate
  end.

Definition ref_method_exists (site : RustGraphSiteOccurrence) (target : bytes) : bool :=
  match parse_path target with
  | None => false
  | Some (path, same_slot, bare) =>
      existsb (λ d, bool_decide ((if bare then fact_name (occ_fact d) else fact_qualified_name (occ_fact d)) = path)
                    && bool_decide (fact_kind (occ_fact d) = Method)
                    && (negb same_slot || bool_decide (occ_source_slot d = socc_source_slot site))) definitions
  end.

Definition ref_site (site : RustGraphSiteOccurrence) : CandidateSet :=
  let raw := raw_target (socc_site site) in
  match raw_kind (socc_site site) with
  | SiteMacroCall | SiteTestMarker => no_candidates UnsupportedSiteKind
  | SiteImport =>
      match parse_import raw with
      | None => no_candidates UnsupportedImportShape
      | Some import =>
          ref_finish (qualified_candidates (import_target import) (slot_if (import_same_slot import) site)
                        ImportSyntax AnyDefinition) NoCandidate
      end
  | SiteReference => ref_target site raw AnyDefinition
  | SiteCall =>
      if is_dynamic_call raw then no_candidates DynamicOrMethodCall
      else
        let resolved := ref_target site (call_target raw) FreeFunctions in
        match set_candidates resolved with
        | [] => if ref_method_exists site (call_target raw) then no_candidates DynamicOrMethodCall else resolved
        | _ => resolved
        end
  end.

(** ** Evaluation to the reference *)

Lemma get_qualified q :
  default [] (bmap_get q (by_qualified index_of)) = filter (λ d, fact_qualified_name (occ_fact d) = q) definitions.
Proof. simpl. rewrite group_get. unfold values_of. rewrite values_of_map, map_id. by apply list_filter_iff. Qed.

Lemma get_name q :
  default [] (bmap_get q (by_name index_of)) = filter (λ d, fact_name (occ_fact d) = q) definitions.
Proof. simpl. rewrite group_get. unfold values_of. rewrite values_of_map, map_id. by apply list_filter_iff. Qed.

Lemma evals_definition_index : evals (build_definition_index definitions) (Ok index_of).
Proof.
  unfold build_definition_index. eapply evals_bind; [|apply evals_check_bind, evals_ret].
  set (f := λ index d, {| by_qualified := entry_push (fact_qualified_name (occ_fact d)) d (by_qualified index);
                          by_name := entry_push (fact_name (occ_fact d)) d (by_name index) |}).
  replace index_of with (foldl f {| by_qualified := []; by_name := [] |} definitions).
  { apply evals_fold_pure. intros index d. apply evals_check_bind, evals_ret. }
  assert (∀ ds index, foldl f index ds =
    {| by_qualified := group_from (by_qualified index) (map (λ d, (fact_qualified_name (occ_fact d), d)) ds);
       by_name := group_from (by_name index) (map (λ d, (fact_name (occ_fact d), d)) ds) |}) as Hf.
  { induction ds as [|d ds IH]; intros index; [by destruct index|]. simpl. by rewrite IH. }
  apply Hf.
Qed.

Lemma evals_import_index : evals (build_import_index sites) (Ok imports_of).
Proof.
  unfold build_import_index.
  set (f := λ imports occurrence, match import_binding (socc_site occurrence) with
                                  | Some binding => entry_push (file_key occurrence) binding imports
                                  | None => imports
                                  end).
  eapply (evals_bind _ _ (foldl f [] sites)).
  { apply evals_fold_pure. intros imports s. apply evals_check_bind, evals_ret. }
  eapply (evals_bind _ _ _ (Ok imports_of)); [|apply evals_check_bind, evals_ret].
  replace imports_of with (foldl (λ done entry, done ++ [(entry.1, normalize_bindings entry.2)]) [] (foldl f [] sites)).
  { apply evals_fold_pure. intros done entry. apply evals_check_bind, evals_ret. }
  assert (foldl f [] sites = group site_bindings) as ->.
  { unfold group, site_bindings. generalize (@nil (FileKey * list ImportBinding)).
    induction sites as [|s ss IH]; intros m; [done|]. simpl. rewrite IH. unfold f.
    by destruct (import_binding (socc_site s)). }
  unfold imports_of. generalize (group site_bindings). intros m.
  assert (∀ acc, foldl (λ done entry, done ++ [(entry.1, normalize_bindings entry.2)]) acc m
                 = acc ++ map (λ entry, (entry.1, normalize_bindings entry.2)) m) as Hf.
  { induction m as [|e m IH]; intros acc; simpl; [by rewrite app_nil_r|]. by rewrite IH, <- app_assoc. }
  by rewrite Hf.
Qed.

Lemma evals_add_qualified candidates q slot ev el :
  evals (add_qualified_matches candidates q slot ev el index_of)
    (Ok (candidates ++ qualified_candidates q slot ev el)).
Proof.
  unfold add_qualified_matches, qualified_candidates.
  assert (∀ ds, evals (E := RustGraphResolutionError) (ctl_fold (λ candidates definition,
      check;; mret (if in_slot slot definition && is_eligible definition el
                    then candidates ++ [(definition, ev)] else candidates)) candidates ds)
    (Ok (candidates ++ map (λ d, (d, ev)) (filter (λ d, in_slot slot d && is_eligible d el = true) ds)))) as Hf.
  { intros ds. rewrite <- (foldl_append (λ d, in_slot slot d && is_eligible d el)).
    apply evals_fold_pure. intros c d. apply evals_check_bind, evals_ret. }
  pose proof (get_qualified q) as Hg.
  replace (filter (λ d, fact_qualified_name (occ_fact d) = q ∧ _) definitions)
    with (filter (λ d, in_slot slot d && is_eligible d el = true)
            (filter (λ d, fact_qualified_name (occ_fact d) = q) definitions)).
  2:{ rewrite list_filter_filter. apply list_filter_iff. intros d. tauto. }
  rewrite <- Hg. destruct (bmap_get q _) as [l|]; [apply Hf|]. rewrite app_nil_r. apply evals_ret.
Qed.

Lemma evals_add_name candidates name ev el :
  evals (add_name_matches candidates name ev el index_of) (Ok (candidates ++ named_candidates name ev el)).
Proof.
  unfold add_name_matches, named_candidates.
  assert (∀ ds, evals (E := RustGraphResolutionError) (ctl_fold (λ candidates definition,
      check;; mret (if is_eligible definition el then candidates ++ [(definition, ev)] else candidates)) candidates ds)
    (Ok (candidates ++ map (λ d, (d, ev)) (filter (λ d, is_eligible d el = true) ds)))) as Hf.
  { intros ds. rewrite <- (foldl_append (λ d, is_eligible d el)).
    apply evals_fold_pure. intros c d. apply evals_check_bind, evals_ret. }
  pose proof (get_name name) as Hg.
  replace (filter (λ d, fact_name (occ_fact d) = name ∧ _) definitions)
    with (filter (λ d, is_eligible d el = true) (filter (λ d, fact_name (occ_fact d) = name) definitions)).
  2:{ rewrite list_filter_filter. apply list_filter_iff. intros d. tauto. }
  rewrite <- Hg. destruct (bmap_get name _) as [l|]; [apply Hf|]. rewrite app_nil_r. apply evals_ret.
Qed.

Lemma evals_module_scope_loop fuel site prefix :
  evals (module_scope_loop fuel site index_of prefix) (Ok (ref_module_scope fuel site prefix)).
Proof.
  revert prefix. induction fuel as [|fuel IH]; intros [scope|]; try apply evals_ret.
  cbn [module_scope_loop ref_module_scope]. apply evals_check_bind.
  replace (match bmap_get scope (by_qualified index_of) with Some matches => existsb _ matches | None => false end)
    with (existsb (is_module_of site scope) definitions).
  { destruct (existsb _ _); [apply evals_ret|apply IH]. }
  set (t := λ d, bool_decide (occ_source_slot d = socc_source_slot site)
                 && bool_decide (occ_path d = socc_path site) && bool_decide (fact_kind (occ_fact d) = Module_)).
  trans (existsb t (default [] (bmap_get scope (by_qualified index_of)))); [|by destruct (bmap_get _ _)].
  rewrite get_qualified. induction definitions as [|d ds IHd]; [done|].
  simpl. rewrite filter_cons, IHd. unfold is_module_of, t. case_decide as Hd.
  - by rewrite (bool_decide_true _ Hd).
  - by rewrite (bool_decide_false _ Hd).
Qed.

Lemma evals_module_scope site :
  evals (reference_module_scope site index_of) (Ok (ref_reference_module_scope site)).
Proof.
  unfold reference_module_scope, ref_reference_module_scope.
  destruct (raw_enclosing_definition _) as [e|]; [|apply evals_ret].
  destruct (bool_decide _); [apply evals_ret|apply evals_module_scope_loop].
Qed.

Lemma evals_lexical_loop fuel site name el scope :
  evals (lexical_loop fuel site name el index_of scope) (Ok (ref_lexical fuel site name el scope)).
Proof.
  revert scope. induction fuel as [|fuel IH]; intros [scope|]; try apply evals_ret.
  cbn [lexical_loop ref_lexical]. apply evals_check_bind.
  eapply evals_bind; [apply evals_add_qualified|]. rewrite app_nil_l.
  destruct (qualified_candidates _ _ _ _); [apply IH|apply evals_ret].
Qed.

Lemma evals_lexical_matches site name el :
  evals (lexical_matches site name el index_of) (Ok (ref_lexical_matches site name el)).
Proof.
  unfold lexical_matches, ref_lexical_matches. eapply evals_bind; [apply evals_lexical_loop|].
  destruct (ref_lexical _ _ _ _ _); [apply evals_ret|apply evals_add_qualified].
Qed.

Lemma evals_finish candidates reason : evals (finish_candidates candidates reason) (Ok (ref_finish candidates reason)).
Proof. unfold finish_candidates. apply evals_check_bind, evals_ret. Qed.

Lemma foldl_concat {A B} (f : A → list B) acc xs : foldl (λ acc x, acc ++ f x) acc xs = acc ++ concat (map f xs).
Proof.
  revert acc. induction xs as [|x xs IH]; intros acc; simpl; [by rewrite app_nil_r|]. by rewrite IH, app_assoc.
Qed.

Lemma evals_target site target el :
  evals (resolve_reference_target site target index_of imports_of el) (Ok (ref_target site target el)).
Proof.
  unfold resolve_reference_target, ref_target.
  destruct (parse_path target) as [[[path same_slot] bare]|]; [|apply evals_ret].
  destruct bare; cbn [negb].
  2:{ eapply evals_bind; [apply evals_add_qualified|]. apply evals_finish. }
  eapply evals_bind; [apply evals_lexical_matches|].
  eapply (evals_bind _ _ (ref_lexical_matches site path el ++ ref_imported site path el)).
  { unfold ref_imported. destruct (bmap_get (file_key site) imports_of) as [bindings|]; cbn [default].
    - eapply evals_bind; [apply evals_module_scope|].
      rewrite <- (foldl_concat (λ binding, qualified_candidates (binding_target binding)
        (slot_if (binding_same_slot binding) site) ImportSyntax el)).
      apply evals_fold_pure. intros c b. apply evals_check_bind, evals_add_qualified.
    - rewrite filter_nil, app_nil_r. apply evals_ret. }
  unfold ref_bare. destruct (ref_lexical_matches _ _ _ ++ _) as [|c cs].
  - eapply evals_bind; [apply evals_add_name|apply evals_finish].
  - eapply evals_bind; [apply evals_ret|apply evals_finish].
Qed.

Lemma evals_first_method site same_slot ds :
  evals (first_method site same_slot ds)
    (Ok (existsb (λ d, bool_decide (fact_kind (occ_fact d) = Method)
           && (negb same_slot || bool_decide (occ_source_slot d = socc_source_slot site))) ds)).
Proof.
  induction ds as [|d ds IH]; [apply evals_ret|]. cbn [first_method existsb]. apply evals_check_bind.
  destruct (_ && _); [apply evals_ret|apply IH].
Qed.

Lemma existsb_filter {A} (P : A → Prop) `{∀ x, Decision (P x)} (t : A → bool) xs :
  existsb t (filter P xs) = existsb (λ x, bool_decide (P x) && t x) xs.
Proof.
  induction xs as [|x xs IH]; [done|]. rewrite filter_cons. simpl. rewrite <- IH.
  case_decide as Hx; [by rewrite bool_decide_true|by rewrite bool_decide_false].
Qed.

Lemma evals_method_exists site target :
  evals (exact_method_candidate_exists site target index_of) (Ok (ref_method_exists site target)).
Proof.
  unfold exact_method_candidate_exists, ref_method_exists.
  destruct (parse_path target) as [[[path same_slot] bare]|]; [|apply evals_ret].
  set (t := λ d, bool_decide (fact_kind (occ_fact d) = Method)
                 && (negb same_slot || bool_decide (occ_source_slot d = socc_source_slot site))).
  set (m := bmap_get path _).
  assert (existsb t (default [] m) =
    existsb (λ d, bool_decide ((if bare then fact_name (occ_fact d) else fact_qualified_name (occ_fact d)) = path)
                  && bool_decide (fact_kind (occ_fact d) = Method)
                  && (negb same_slot || bool_decide (occ_source_slot d = socc_source_slot site))) definitions) as <-.
  { unfold m. destruct bare; [rewrite get_name|rewrite get_qualified]; rewrite existsb_filter; unfold t.
    all: induction definitions as [|d ds IH]; [done|]; cbn [existsb]; by rewrite IH, andb_assoc. }
  destruct m as [ds|]; [apply evals_first_method|apply evals_ret].
Qed.

Lemma evals_resolve_site site : evals (resolve_site site index_of imports_of) (Ok (ref_site site)).
Proof.
  unfold resolve_site, ref_site. destruct (raw_kind _); try apply evals_ret.
  - unfold resolve_import. destruct (parse_import _) as [import|]; [|apply evals_ret].
    eapply evals_bind; [apply evals_add_qualified|]. apply evals_finish.
  - apply evals_target.
  - unfold resolve_call. destruct (is_dynamic_call _); [apply evals_ret|].
    eapply evals_bind; [apply evals_target|].
    destruct (set_candidates (ref_target _ _ _)) as [|c cs] eqn:E; [|apply evals_ret].
    eapply evals_bind; [apply evals_method_exists|].
    destruct (ref_method_exists _ _); apply evals_ret.
Qed.
End reference.

Lemma steady_add_qualified candidates q slot ev el index :
  steady (add_qualified_matches candidates q slot ev el index).
Proof. unfold add_qualified_matches. solve_steady. Qed.
Lemma steady_add_name candidates name ev el index : steady (add_name_matches candidates name ev el index).
Proof. unfold add_name_matches. solve_steady. Qed.
Lemma steady_finish_candidates candidates reason : steady (finish_candidates candidates reason).
Proof. unfold finish_candidates. solve_steady. Qed.
#[export] Hint Resolve steady_add_qualified steady_add_name steady_finish_candidates : steady.

Lemma steady_module_scope_loop fuel site index prefix : steady (module_scope_loop fuel site index prefix).
Proof. revert prefix. induction fuel; intros [scope|]; simpl; solve_steady. Qed.
Lemma steady_lexical_loop fuel site name el index scope : steady (lexical_loop fuel site name el index scope).
Proof. revert scope. induction fuel; intros [s|]; simpl; solve_steady. Qed.
Lemma steady_first_method site same_slot ds : steady (first_method site same_slot ds).
Proof. induction ds; simpl; solve_steady. Qed.
#[export] Hint Resolve steady_module_scope_loop steady_lexical_loop steady_first_method : steady.

Lemma steady_target site target index imports el : steady (resolve_reference_target site target index imports el).
Proof. unfold resolve_reference_target, lexical_matches, reference_module_scope. solve_steady. Qed.
#[export] Hint Resolve steady_target : steady.

Lemma steady_resolve_site site index imports : steady (resolve_site site index imports).
Proof. unfold resolve_site, resolve_import, resolve_call, exact_method_candidate_exists. solve_steady. Qed.
#[export] Hint Resolve steady_resolve_site : steady.
