(* ===== verification/ResolverProperties.v ===== *)
(** * What the resolver guarantees

    The candidates of a site as a relation between the site and the definitions that
    support it, and the theorems: the resolver computes that relation, its result is
    well formed and within its limits, and does not depend on the order of its input. *)

From Stdlib Require Import ZArith Lia ZifyBool.
From Stdlib Require Import Strings.Byte.
From stdpp Require Import base numbers sorting list.
From S2P Require Import Prelude Ordering GraphIdentity ResolutionSyntax SymbolFacts GraphSites Resolver ResolverReference.

Open Scope Z_scope.

(** ** Orders and identities *)

Lemma span_order_cmp l r : span_order l r = cmp l r.
Proof. done. Qed.

Lemma definition_ordering_identity l r : definition_ordering l r = cmp (definition_identity l) (definition_identity r).
Proof. unfold definition_ordering. by rewrite !then_with_assoc. Qed.

Lemma site_ordering_identity l r : site_ordering l r = cmp (site_identity l) (site_identity r).
Proof. unfold site_ordering. by rewrite !then_with_assoc. Qed.

(** The part of an identity that must be unique. *)
Definition definition_key (d : RustGraphDefinitionOccurrence) : bytes * (bytes * (bytes * Z)) :=
  (occ_source_slot d, (occ_path d, (occ_artifact d, occ_fact_ordinal d))).
Definition site_key (s : RustGraphSiteOccurrence) : bytes * (bytes * (bytes * Z)) :=
  (socc_source_slot s, (socc_path s, (socc_artifact s, raw_ordinal (socc_site s)))).

Lemma same_definition_key l r : same_definition_identity l r = true ↔ definition_key l = definition_key r.
Proof.
  unfold same_definition_identity, definition_key. rewrite !andb_true_iff, !bool_decide_eq_true.
  split; [by intros [[[-> ->] ->] ->]|by intros [= -> -> -> ->]].
Qed.

Lemma same_site_key l r : same_site_identity l r = true ↔ site_key l = site_key r.
Proof.
  unfold same_site_identity, site_key. rewrite !andb_true_iff, !bool_decide_eq_true.
  split; [by intros [[[-> ->] ->] ->]|by intros [= -> -> -> ->]].
Qed.

Lemma then_with_cle a b : then_with a b ≠ Gt → a ≠ Gt.
Proof. by destruct a. Qed.

Lemma definition_ordering_key l r : definition_ordering l r ≠ Gt → cmp (definition_key l) (definition_key r) ≠ Gt.
Proof.
  unfold definition_ordering. intros H%then_with_cle%then_with_cle%then_with_cle.
  by rewrite !then_with_assoc in H.
Qed.

Lemma site_ordering_key l r : site_ordering l r ≠ Gt → cmp (site_key l) (site_key r) ≠ Gt.
Proof.
  unfold site_ordering. intros H%then_with_cle%then_with_cle%then_with_cle.
  by rewrite !then_with_assoc in H.
Qed.

#[export] Instance definition_ordering_comparator : Comparator definition_ordering.
Proof.
  split; intros; rewrite ?definition_ordering_identity in *; [apply cmp_antisym|].
  by eapply (cmpr_trans (c := cmp)).
Qed.
#[export] Instance site_ordering_comparator : Comparator site_ordering.
Proof.
  split; intros; rewrite ?site_ordering_identity in *; [apply cmp_antisym|].
  by eapply (cmpr_trans (c := cmp)).
Qed.

Definition sorted_definitions (ds : list RustGraphDefinitionOccurrence) := sort_by definition_ordering ds.
Definition sorted_sites (ss : list RustGraphSiteOccurrence) := sort_by site_ordering ss.

Lemma sorted_definitions_keys ds : StronglySorted (cle (λ x y, cmp (definition_key x) (definition_key y))) (sorted_definitions ds).
Proof. apply (sorted_weaken _ _ _ definition_ordering_key), sort_by_sorted, _. Qed.
Lemma sorted_sites_keys ss : StronglySorted (cle (λ x y, cmp (site_key x) (site_key y))) (sorted_sites ss).
Proof. apply (sorted_weaken _ _ _ site_ordering_key), sort_by_sorted, _. Qed.

Lemma definition_key_identity l r : definition_identity l = definition_identity r → definition_key l = definition_key r.
Proof. unfold definition_identity, definition_key. by intros [= -> -> -> -> _ _ _]. Qed.

(** Neighbours in a list sorted by a prefix of the order. *)
Lemma adjacent_distinct {A K} `{RustOrdLaws K} (key : A → K) (same : A → A → bool) xs ys :
  (∀ x y, same x y = true ↔ key x = key y) → xs ≡ₚ ys →
  StronglySorted (cle (λ x y, cmp (key x) (key y))) xs →
  any_adjacent same xs = false ↔ NoDup (map key ys).
Proof.
  intros Hs Hp Hsort. pose proof (comparator_by key).
  rewrite (any_adjacent_keys key same Hs xs Hsort), <- Hp. split.
  - apply bset_wf_NoDup.
  - intros Hnd. replace xs with (sort_by (λ x y, cmp (key x) (key y)) xs);
      [by apply keys_increasing_NoDup_sort|].
    apply (sorted_perm_unique (λ x y, cmp (key x) (key y))).
    + apply sort_by_perm.
    + intros x y Hx Hy Heq%cmp_eq.
      by apply (keys_increasing_inj key _ x y (keys_increasing_NoDup_sort key xs Hnd)).
    + by apply sort_by_sorted.
    + done.
Qed.

(** ** The candidate list

    [finish_candidates] keeps each definition once, with its strongest evidence, in the
    order of the identities. *)

Definition listing (supports : RustGraphDefinitionOccurrence → RustGraphResolutionEvidence → Prop)
    (candidates : list CandidateRef) : Prop :=
  keys_increasing (λ c, definition_identity c.1) candidates
  ∧ ∀ d ev, (d, ev) ∈ candidates ↔ supports d ev ∧ ∀ ev', supports d ev' → cmp ev ev' ≠ Gt.

Lemma candidate_ordering_key x y :
  candidate_ordering x y = cmp (definition_identity x.1, x.2) (definition_identity y.1, y.2).
Proof. unfold candidate_ordering. by rewrite definition_ordering_identity. Qed.

Lemma retain_first_spec prev xs :
  (∀ x y : CandidateRef, x ∈ xs → y ∈ xs → definition_identity x.1 = definition_identity y.1 → x.1 = y.1) →
  (∀ p x, prev = Some p → x ∈ xs → definition_identity p = definition_identity x.1 → p = x.1) →
  StronglySorted (cle candidate_ordering) xs →
  (∀ p x, prev = Some p → x ∈ xs → cmp (definition_identity p) (definition_identity x.1) ≠ Gt) →
  keys_increasing (λ c, definition_identity c.1) (retain_first prev xs)
  ∧ (∀ p x, prev = Some p → x ∈ retain_first prev xs → cmp (definition_identity p) (definition_identity x.1) = Lt)
  ∧ ∀ d ev, (d, ev) ∈ retain_first prev xs ↔
      (d, ev) ∈ xs ∧ prev ≠ Some d ∧ ∀ ev', (d, ev') ∈ xs → cmp ev ev' ≠ Gt.
Proof.
  revert prev. induction xs as [|[d0 ev0] xs IH]; intros prev Hinj Hprev Hs Hle.
  { split_and!; [constructor|by intros ? ? ? ?%elem_of_nil|]. intros d ev. split; [by intros ?%elem_of_nil|].
    by intros [?%elem_of_nil _]. }
  inversion_clear Hs as [|? ? Hs' Hall]. rewrite Forall_forall in Hall.
  assert (∀ x, x ∈ xs → cmp (definition_identity d0) (definition_identity x.1) ≠ Gt
            ∧ (d0 = x.1 → cmp ev0 x.2 ≠ Gt)) as Hd0.
  { intros x Hx%Hall. unfold cle in Hx. rewrite candidate_ordering_key in Hx. unfold cmp, pair_ord, then_with in Hx.
    cbn [fst snd] in Hx. split; [by destruct (cmp _ _)|]. intros ->. by rewrite cmp_refl in Hx. }
  destruct (IH (Some d0)) as (Hk & Hgt & Hin); [by intros; apply Hinj; [right..|]| | done | |].
  { intros p x [= <-] Hx Heq. by apply (Hinj (d0, ev0) x); [left|right|]. }
  { intros p x [= <-] Hx. by apply Hd0. }
  assert (∀ d ev, (d, ev) ∈ retain_first (Some d0) xs → d ≠ d0) as Hne.
  { intros d ev (_ & Hn & _)%Hin ->. by apply Hn. }
  cbn [retain_first fst]. case_bool_decide as Hp.
  - subst prev. split_and!; [done|intros p x [= <-] Hx; by apply Hgt|].
    intros d ev. rewrite Hin. split.
    + intros (Hx & Hn & Hm). split_and!; [by right|done|].
      intros ev' [[= -> ->]|Hx']%elem_of_cons; [done|by apply Hm].
    + intros ([[= -> ->]|Hx]%elem_of_cons & Hn & Hm); [done|]. split_and!; [done..|].
      intros ev' Hx'. apply Hm. by right.
  - split_and!.
    + apply keys_increasing_cons. split; [done|]. intros y Hy. by apply (Hgt d0).
    + intros p x -> Hx. apply elem_of_cons in Hx as [->|Hx].
      * cbn [fst]. specialize (Hle p (d0, ev0) eq_refl ltac:(by left)). cbn [fst] in Hle.
        destruct (cmp _ _) eqn:E; [|done|done]. apply cmp_eq in E.
        destruct Hp. f_equal. by apply (Hprev p (d0, ev0)); [|left|].
      * specialize (Hgt d0 x eq_refl Hx). specialize (Hle p (d0, ev0) eq_refl ltac:(by left)). cbn [fst] in Hle.
        destruct (cmp (definition_identity p) (definition_identity d0)) eqn:E; [|by eapply cmp_trans|done].
        apply cmp_eq in E. by rewrite E.
    + intros d ev. rewrite elem_of_cons, Hin, elem_of_cons. split.
      * intros [[= -> ->]|(Hx & Hn & Hm)].
        -- split_and!; [by left|done|]. intros ev' [[= ->]|Hx]%elem_of_cons; [by rewrite cmp_refl|].
           by apply (Hd0 (d0, ev')).
        -- split_and!; [by right| |].
           ++ intros ->. specialize (Hgt d0 (d, ev) eq_refl ltac:(by apply Hin)).
              specialize (Hle d (d0, ev0) eq_refl ltac:(by left)). cbn [fst] in *.
              by rewrite (cmp_antisym (definition_identity d0)), Hgt in Hle.
           ++ intros ev' [[= -> ->]|Hx']%elem_of_cons; [done|by apply Hm].
      * intros ([[= -> ->]|Hx] & Hn & Hm); [by left|].
        destruct (decide (d = d0)) as [->|Hd]; [|right; split_and!; [done|congruence|]; intros; apply Hm; by right].
        left. f_equal. specialize (Hm ev0 ltac:(by left)). pose proof (proj2 (Hd0 _ Hx) eq_refl) as Hm'.
        cbn [snd] in Hm'. rewrite cmp_antisym in Hm'. destruct (cmp ev ev0) eqn:E; [by apply cmp_eq|done|done].
Qed.

Lemma finish_listing candidates reason :
  (∀ x y : CandidateRef, x ∈ candidates → y ∈ candidates → definition_identity x.1 = definition_identity y.1 → x.1 = y.1) →
  listing (λ d ev, (d, ev) ∈ candidates) (set_candidates (ref_finish candidates reason)).
Proof.
  intros Hinj. simpl. assert (Comparator candidate_ordering) as Hc.
  { pose proof (comparator_by (λ c : CandidateRef, (definition_identity c.1, c.2))) as [Ha Ht].
    split; intros x y; [|intros z]; rewrite !candidate_ordering_key; [apply Ha|apply Ht]. }
  destruct (retain_first_spec None (sort_by candidate_ordering candidates)) as (Hk & _ & Hin).
  - intros x y. rewrite !elem_of_sort_by. apply Hinj.
  - done.
  - by apply sort_by_sorted.
  - done.
  - split; [done|]. intros d ev. rewrite Hin. setoid_rewrite elem_of_sort_by. naive_solver.
Qed.

Lemma elem_of_concat {A} (x : A) ls : x ∈ concat ls ↔ ∃ l, x ∈ l ∧ l ∈ ls.
Proof.
  induction ls as [|l ls IH]; simpl.
  - split; [by intros ?%not_elem_of_nil|]. by intros (? & _ & ?%not_elem_of_nil).
  - rewrite elem_of_app, IH. setoid_rewrite elem_of_cons. naive_solver.
Qed.

(** ** Support

    What makes a definition a candidate of a site, read off the sets of definitions and
    sites. *)

(** The scope and its parents, innermost first. *)
Fixpoint scopes (fuel : nat) (scope : option bytes) : list bytes :=
  match fuel, scope with
  | S fuel, Some current => current :: scopes fuel (parent_scope current)
  | _, _ => []
  end.

Lemma rsplit_once_length s prefix suffix :
  rsplit_once s = Some (prefix, suffix) → (length prefix < length s)%nat.
Proof.
  revert prefix suffix. induction s as [|b s IH]; intros prefix suffix; cbn [rsplit_once length]; [done|].
  destruct (rsplit_once s) as [[p q]|].
  - intros [= <- <-]. specialize (IH p q eq_refl). simpl. lia.
  - destruct (strip_prefix colons (b :: s)); [|done]. intros [= <- <-]. simpl. lia.
Qed.

Lemma parent_scope_length scope parent :
  parent_scope scope = Some parent → (length parent < length scope)%nat.
Proof.
  unfold parent_scope. destruct (rsplit_once scope) as [[p q]|] eqn:E; [|done].
  intros [= <-]. by apply rsplit_once_length in E.
Qed.

(** Fuel beyond the length of the scope changes nothing: the loops over scopes end by themselves. *)
Lemma scopes_enough fuel fuel' scope :
  (length (default [] scope) < fuel)%nat → (length (default [] scope) < fuel')%nat →
  scopes fuel scope = scopes fuel' scope.
Proof.
  revert fuel' scope. induction fuel as [|fuel IH]; intros [|fuel'] [s|] H H'; cbn in H, H'; try done; try lia.
  cbn [scopes].
  f_equal. destruct (parent_scope s) as [p|] eqn:E; [|by destruct fuel, fuel'].
  apply parent_scope_length in E. apply IH; simpl; lia.
Qed.

Section supports.
Context (definitions : list RustGraphDefinitionOccurrence) (sites : list RustGraphSiteOccurrence).

Definition matches_path (q : bytes) (slot : option bytes) (el : EligibleDefinitions)
    (d : RustGraphDefinitionOccurrence) : Prop :=
  d ∈ definitions ∧ fact_qualified_name (occ_fact d) = q ∧ in_slot slot d = true ∧ is_eligible d el = true.

(** The qualified names a bare name may stand for, nearest scope first. *)
Definition visible_names (site : RustGraphSiteOccurrence) (name : bytes) : list bytes :=
  let scope := encl_qualified_name <$> raw_enclosing_definition (socc_site site) in
  map (λ s, s ++ colons ++ name) (scopes (S (length (default [] scope))) scope) ++ [name].

Definition nearest (site : RustGraphSiteOccurrence) (names : list bytes) (el : EligibleDefinitions)
    (d : RustGraphDefinitionOccurrence) : Prop :=
  ∃ before q after, names = before ++ q :: after
    ∧ (∀ q' d', q' ∈ before → ¬ matches_path q' (Some (socc_source_slot site)) el d')
    ∧ matches_path q (Some (socc_source_slot site)) el d.

Definition imported (site : RustGraphSiteOccurrence) (name : bytes) (el : EligibleDefinitions)
    (d : RustGraphDefinitionOccurrence) : Prop :=
  ∃ s b, s ∈ sites ∧ import_binding (socc_site s) = Some b ∧ file_key s = file_key site
    ∧ binding_alias b = name ∧ binding_module_scope b = ref_reference_module_scope definitions site
    ∧ matches_path (binding_target b) (slot_if (binding_same_slot b) site) el d.

(** The text a site refers by, and the definitions it may refer to. *)
Definition reference_of (site : RustGraphSiteOccurrence) : option (bytes * EligibleDefinitions) :=
  let raw := raw_target (socc_site site) in
  match raw_kind (socc_site site) with
  | SiteReference => Some (raw, AnyDefinition)
  | SiteCall => if is_dynamic_call raw then None else Some (call_target raw, FreeFunctions)
  | _ => None
  end.

Inductive supports (site : RustGraphSiteOccurrence) (d : RustGraphDefinitionOccurrence)
    : RustGraphResolutionEvidence → Prop :=
| support_import import :
    raw_kind (socc_site site) = SiteImport →
    parse_import (raw_target (socc_site site)) = Some import →
    matches_path (import_target import) (slot_if (import_same_slot import) site) AnyDefinition d →
    supports site d ImportSyntax
| support_qualified target el path same_slot :
    reference_of site = Some (target, el) → parse_path target = Some (path, same_slot, false) →
    matches_path path (slot_if same_slot site) el d →
    supports site d QualifiedSyntax
| support_lexical target el name same_slot :
    reference_of site = Some (target, el) → parse_path target = Some (name, same_slot, true) →
    nearest site (visible_names site name) el d →
    supports site d LexicalSyntax
| support_imported target el name same_slot :
    reference_of site = Some (target, el) → parse_path target = Some (name, same_slot, true) →
    imported site name el d →
    supports site d ImportSyntax
| support_name target el name same_slot :
    reference_of site = Some (target, el) → parse_path target = Some (name, same_slot, true) →
    (∀ d', ¬ nearest site (visible_names site name) el d') → (∀ d', ¬ imported site name el d') →
    d ∈ definitions → fact_name (occ_fact d) = name → is_eligible d el = true →
    supports site d ExactNameHeuristic.

Lemma elem_of_qualified q slot ev el d ev' :
  (d, ev') ∈ qualified_candidates definitions q slot ev el ↔ ev' = ev ∧ matches_path q slot el d.
Proof.
  unfold qualified_candidates, matches_path. rewrite list_elem_of_fmap. setoid_rewrite list_elem_of_filter.
  setoid_rewrite andb_true_iff. naive_solver.
Qed.

Lemma qualified_nil q slot ev el :
  qualified_candidates definitions q slot ev el = [] ↔ ∀ d, ¬ matches_path q slot el d.
Proof.
  split.
  - intros He d Hd. pose proof (proj2 (elem_of_qualified q slot ev el d ev) (conj eq_refl Hd)) as Hin.
    rewrite He in Hin. by apply not_elem_of_nil in Hin.
  - intros Hn. destruct (qualified_candidates _ _ _ _ _) as [|[d ev'] l] eqn:E; [done|].
    exfalso. apply (Hn d). eapply (proj1 (elem_of_qualified q slot ev el d ev')). rewrite E. by left.
Qed.

Lemma nearest_cons site q names el d :
  nearest site (q :: names) el d ↔
  matches_path q (Some (socc_source_slot site)) el d
  ∨ (∀ d', ¬ matches_path q (Some (socc_source_slot site)) el d') ∧ nearest site names el d.
Proof.
  unfold nearest. split.
  - intros ([|q' before] & q0 & after & Heq & Hn & Hm); simplify_eq/=; [by left|right].
    split; [intros d'; apply Hn; by left|]. exists before, q0, after. split_and!; [done| |done].
    intros q1 d' Hq1. apply Hn. by right.
  - intros [Hm|[Hn (before & q0 & after & -> & Hb & Hm)]].
    + exists [], q, names. split_and!; [done|by intros ? ? ?%elem_of_nil|done].
    + exists (q :: before), q0, after. split_and!; [done| |done].
      intros q' d' [->|Hq']%elem_of_cons; [apply Hn|by apply Hb].
Qed.

Lemma nearest_nil site el d : ¬ nearest site [] el d.
Proof. intros ([|? ?] & ? & ? & ? & _); done. Qed.

Lemma elem_of_lexical fuel site name el scope d ev :
  (d, ev) ∈ default (qualified_candidates definitions name (Some (socc_source_slot site)) LexicalSyntax el)
              (ref_lexical definitions fuel site name el scope) ↔
  ev = LexicalSyntax ∧ nearest site (map (λ s, s ++ colons ++ name) (scopes fuel scope) ++ [name]) el d.
Proof.
  assert (∀ q, (d, ev) ∈ qualified_candidates definitions q (Some (socc_source_slot site)) LexicalSyntax el ↔
            ev = LexicalSyntax ∧ nearest site [q] el d) as Hone.
  { intros q. rewrite elem_of_qualified, nearest_cons. pose proof (nearest_nil site el d). tauto. }
  revert scope. induction fuel as [|fuel IH]; intros [s|]; try apply Hone.
  cbn [ref_lexical scopes map app]. rewrite nearest_cons.
  destruct (qualified_candidates definitions (s ++ colons ++ name) (Some (socc_source_slot site)) LexicalSyntax el)
    as [|c cs] eqn:E.
  - rewrite IH. pose proof (proj1 (qualified_nil _ _ _ _) E) as Hn. split; [naive_solver|]. intros [-> [Hm|[_ Hm]]]; [|done].
    by destruct (Hn d).
  - cbn [from_option id]. rewrite <- E, elem_of_qualified. split; [naive_solver|]. intros [-> [Hm|[Hn _]]]; [done|].
    rewrite (proj2 (qualified_nil _ _ LexicalSyntax _) Hn) in E. done.
Qed.

Lemma elem_of_lexical_matches site name el d ev :
  (d, ev) ∈ ref_lexical_matches definitions site name el ↔
  ev = LexicalSyntax ∧ nearest site (visible_names site name) el d.
Proof.
  unfold ref_lexical_matches, visible_names. cbv zeta. rewrite <- elem_of_lexical.
  by destruct (ref_lexical _ _ _ _ _ _).
Qed.

Lemma dedup_from_elem {A} (same : A → A → bool) (Hsame : ∀ x y, same x y = true → x = y) kept xs x :
  x ∈ kept :: dedup_from same kept xs ↔ x ∈ kept :: xs.
Proof.
  revert kept. induction xs as [|y xs IH]; intros kept; [done|]. simpl. destruct (same y kept) eqn:E.
  - apply Hsame in E as ->. rewrite IH, !elem_of_cons. tauto.
  - rewrite elem_of_cons, IH. by rewrite !elem_of_cons.
Qed.

Lemma elem_of_normalized bs b : b ∈ normalize_bindings bs ↔ b ∈ bs.
Proof.
  unfold normalize_bindings. rewrite <- (elem_of_sort_by binding_ordering b bs).
  destruct (sort_by binding_ordering bs) as [|x xs]; [done|]. apply dedup_from_elem.
  intros l r. apply bool_decide_eq_true.
Qed.

Lemma imports_get key :
  default [] (bmap_get key (imports_of sites)) = normalize_bindings (values_of key (site_bindings sites)).
Proof.
  rewrite <- group_get. unfold imports_of. generalize (group (site_bindings sites)). intros m.
  assert (bmap_get key (map (λ entry, (entry.1, normalize_bindings entry.2)) m)
          = normalize_bindings <$> bmap_get key m) as ->.
  { induction m as [|[k v] m IH]; [done|]. simpl. by destruct (cmp key k). }
  by destruct (bmap_get key m).
Qed.

Lemma elem_of_imported site name el d ev :
  (d, ev) ∈ ref_imported definitions sites site name el ↔ ev = ImportSyntax ∧ imported site name el d.
Proof.
  unfold ref_imported, imported. rewrite elem_of_concat. setoid_rewrite list_elem_of_fmap.
  rewrite imports_get. split.
  - intros (l & Hd & b & -> & Hb). apply list_elem_of_filter in Hb as [[Ha Hm] Hb].
    rewrite elem_of_normalized in Hb. unfold values_of, site_bindings in Hb.
    apply list_elem_of_fmap in Hb as ([k b'] & -> & Hb). apply list_elem_of_filter in Hb as [Hk Hb].
    cbn [fst snd] in *. apply list_elem_of_omap in Hb as (s & Hs & Hb).
    destruct (import_binding (socc_site s)) as [b0|] eqn:E; simpl in Hb; [|done]. simplify_eq.
    apply elem_of_qualified in Hd as [-> Hd]. split; [done|]. exists s, b'.
    split_and!; try done. unfold file_key. congruence.
  - intros [-> (s & b & Hs & Hb & Hk & Ha & Hm & Hd)].
    eexists. split; [by apply elem_of_qualified|]. exists b. split; [done|].
    apply list_elem_of_filter. split; [done|]. apply elem_of_normalized. unfold values_of, site_bindings.
    apply list_elem_of_fmap. exists (file_key site, b). split; [done|]. apply list_elem_of_filter. split; [done|].
    apply list_elem_of_omap. exists s. rewrite Hb. split; [done|]. simpl. by rewrite Hk.
Qed.

Lemma elem_of_bare site name el d ev :
  (d, ev) ∈ ref_bare definitions sites site name el ↔
  (ev = LexicalSyntax ∧ nearest site (visible_names site name) el d)
  ∨ (ev = ImportSyntax ∧ imported site name el d)
  ∨ (ev = ExactNameHeuristic ∧ (∀ d', ¬ nearest site (visible_names site name) el d')
     ∧ (∀ d', ¬ imported site name el d') ∧ d ∈ definitions ∧ fact_name (occ_fact d) = name
     ∧ is_eligible d el = true).
Proof.
  assert ((d, ev) ∈ named_candidates definitions name ExactNameHeuristic el ↔
          ev = ExactNameHeuristic ∧ d ∈ definitions ∧ fact_name (occ_fact d) = name ∧ is_eligible d el = true) as Hn.
  { unfold named_candidates. rewrite list_elem_of_fmap. setoid_rewrite list_elem_of_filter. naive_solver. }
  assert (∀ d ev, (d, ev) ∈ ref_lexical_matches definitions site name el ++ ref_imported definitions sites site name el ↔
    (ev = LexicalSyntax ∧ nearest site (visible_names site name) el d)
    ∨ (ev = ImportSyntax ∧ imported site name el d)) as Ha.
  { intros d0 ev0. by rewrite elem_of_app, elem_of_lexical_matches, elem_of_imported. }
  unfold ref_bare. destruct (ref_lexical_matches _ _ _ _ ++ _) as [|[d1 ev1] cs] eqn:E.
  - assert (∀ d', ¬ nearest site (visible_names site name) el d') as H1.
    { intros d' Hd'. eapply not_elem_of_nil, (Ha d' LexicalSyntax). by left. }
    assert (∀ d', ¬ imported site name el d') as H2.
    { intros d' Hd'. eapply not_elem_of_nil, (Ha d' ImportSyntax). by right. }
    rewrite Hn. naive_solver.
  - rewrite Ha. split; [tauto|]. intros [H|[H|(_ & H1 & H2 & _)]]; [tauto..|].
    specialize (Ha d1 ev1). destruct (proj1 Ha ltac:(by left)) as [[_ H]|[_ H]]; [by destruct (H1 d1)|by destruct (H2 d1)].
Qed.

(** The candidates of a site before they are ordered. *)
Definition raw_candidates (site : RustGraphSiteOccurrence) : list CandidateRef :=
  match raw_kind (socc_site site) with
  | SiteImport =>
      match parse_import (raw_target (socc_site site)) with
      | Some import => qualified_candidates definitions (import_target import)
                         (slot_if (import_same_slot import) site) ImportSyntax AnyDefinition
      | None => []
      end
  | _ =>
      match reference_of site with
      | Some (target, el) =>
          match parse_path target with
          | Some (path, same_slot, false) =>
              qualified_candidates definitions path (slot_if same_slot site) QualifiedSyntax el
          | Some (name, _, true) => ref_bare definitions sites site name el
          | None => []
          end
      | None => []
      end
  end.

Lemma elem_of_raw_candidates site d ev : (d, ev) ∈ raw_candidates site ↔ supports site d ev.
Proof.
  unfold raw_candidates, reference_of. split.
  - destruct (raw_kind (socc_site site)) eqn:Ek; try by intros ?%not_elem_of_nil.
    + destruct (parse_import _) as [import|] eqn:Ei; [|by intros ?%not_elem_of_nil].
      intros [-> Hm]%elem_of_qualified. by eapply support_import.
    + destruct (parse_path _) as [[[path same_slot] [|]]|] eqn:Ep; [| |by intros ?%not_elem_of_nil].
      all: assert (reference_of site = Some (raw_target (socc_site site), AnyDefinition)) as Hr
        by (unfold reference_of; by rewrite Ek).
      * intros [[-> H]|[[-> H]|(-> & H1 & H2 & H3 & H4 & H5)]]%elem_of_bare;
          [by eapply support_lexical|by eapply support_imported|by eapply support_name].
      * intros [-> Hm]%elem_of_qualified. by eapply support_qualified.
    + destruct (is_dynamic_call _) eqn:Ed; [by intros ?%not_elem_of_nil|].
      destruct (parse_path _) as [[[path same_slot] [|]]|] eqn:Ep; [| |by intros ?%not_elem_of_nil].
      all: assert (reference_of site = Some (call_target (raw_target (socc_site site)), FreeFunctions)) as Hr
        by (unfold reference_of; by rewrite Ek, Ed).
      * intros [[-> H]|[[-> H]|(-> & H1 & H2 & H3 & H4 & H5)]]%elem_of_bare;
          [by eapply support_lexical|by eapply support_imported|by eapply support_name].
      * intros [-> Hm]%elem_of_qualified. by eapply support_qualified.
  - fold (reference_of site). intros [import Hk Hi Hm|target el path ss Hr Hp Hm|target el name ss Hr Hp Hm|
      target el name ss Hr Hp Hm|target el name ss Hr Hp H1 H2 H3 H4 H5].
    + rewrite Hk, Hi. by apply elem_of_qualified.
    + assert (raw_kind (socc_site site) ≠ SiteImport) as Hk
        by (intros Hk; unfold reference_of in Hr; by rewrite Hk in Hr).
      rewrite Hr, Hp. destruct (raw_kind _); try done; by apply elem_of_qualified.
    + assert (raw_kind (socc_site site) ≠ SiteImport) as Hk
        by (intros Hk; unfold reference_of in Hr; by rewrite Hk in Hr).
      rewrite Hr, Hp. destruct (raw_kind _); try done; apply elem_of_bare; tauto.
    + assert (raw_kind (socc_site site) ≠ SiteImport) as Hk
        by (intros Hk; unfold reference_of in Hr; by rewrite Hk in Hr).
      rewrite Hr, Hp. destruct (raw_kind _); try done; apply elem_of_bare; tauto.
    + assert (raw_kind (socc_site site) ≠ SiteImport) as Hk
        by (intros Hk; unfold reference_of in Hr; by rewrite Hk in Hr).
      rewrite Hr, Hp. destruct (raw_kind _); try done; apply elem_of_bare; tauto.
Qed.
End supports.

(** Distinct identities tell the definitions apart. *)
Definition distinct (definitions : list RustGraphDefinitionOccurrence) : Prop :=
  NoDup (map definition_key definitions).

Lemma NoDup_key_inj {A K} `{RustOrdLaws K} (key : A → K) xs x y :
  NoDup (map key xs) → x ∈ xs → y ∈ xs → key x = key y → x = y.
Proof.
  intros Hnd Hx Hy. apply (keys_increasing_inj key _ x y (keys_increasing_NoDup_sort key xs Hnd));
    by apply elem_of_sort_by.
Qed.

Lemma supports_definition definitions sites site d ev : supports definitions sites site d ev → d ∈ definitions.
Proof. by intros [? ? ? Hm|? ? ? ? ? ? Hm|? ? ? ? ? ? (? & ? & ? & _ & _ & Hm)|? ? ? ? ? ? (? & ? & _ & _ & _ & _ & _ & Hm)|]; try apply Hm. Qed.

Lemma set_candidates_ref_site definitions sites site :
  set_candidates (ref_site definitions sites site) = set_candidates (ref_finish (raw_candidates definitions sites site) NoCandidate).
Proof.
  unfold ref_site, raw_candidates, reference_of, ref_target.
  destruct (raw_kind (socc_site site)); try done.
  - by destruct (parse_import _).
  - by destruct (parse_path _) as [[[path same_slot] [|]]|].
  - destruct (is_dynamic_call _); [done|].
    destruct (parse_path _) as [[[path same_slot] [|]]|]; cbn [negb].
    all: match goal with |- context [match set_candidates ?l with [] => _ | _ :: _ => _ end] =>
           destruct (set_candidates l) eqn:E end.
    all: try (destruct (ref_method_exists _ _ _)); simpl in *; try done; by rewrite E.
Qed.

Lemma site_listing definitions sites site :
  distinct definitions →
  listing (supports definitions sites site) (set_candidates (ref_site definitions sites site)).
Proof.
  intros Hd. rewrite set_candidates_ref_site.
  destruct (finish_listing (raw_candidates definitions sites site) NoCandidate) as [Hk Hin].
  - intros [x ex] [y ey] Hx%elem_of_raw_candidates%supports_definition Hy%elem_of_raw_candidates%supports_definition.
    intros Heq%definition_key_identity. by apply (NoDup_key_inj definition_key definitions).
  - split; [done|]. intros d ev. rewrite Hin. setoid_rewrite elem_of_raw_candidates. done.
Qed.

(** Why a site without candidates has none. *)
Definition method_exists (definitions : list RustGraphDefinitionOccurrence) (site : RustGraphSiteOccurrence)
    (target : bytes) : Prop :=
  ∃ path same_slot bare d, parse_path target = Some (path, same_slot, bare) ∧ d ∈ definitions
    ∧ (if bare : bool then fact_name (occ_fact d) else fact_qualified_name (occ_fact d)) = path
    ∧ fact_kind (occ_fact d) = Method
    ∧ (same_slot = true → occ_source_slot d = socc_source_slot site).

Lemma ref_method_exists_spec definitions site target :
  ref_method_exists definitions site target = true ↔ method_exists definitions site target.
Proof.
  unfold ref_method_exists, method_exists. destruct (parse_path target) as [[[path same_slot] bare]|].
  - rewrite existsb_exists. setoid_rewrite <- list_elem_of_In. setoid_rewrite andb_true_iff.
    setoid_rewrite andb_true_iff. setoid_rewrite orb_true_iff. setoid_rewrite bool_decide_eq_true.
    destruct same_slot; naive_solver.
  - split; [done|]. by intros (? & ? & ? & ? & ? & _).
Qed.

Definition reason_of (definitions : list RustGraphDefinitionOccurrence) (site : RustGraphSiteOccurrence)
    (reason : RustGraphUnresolvedReason) : Prop :=
  let raw := raw_target (socc_site site) in
  match reason with
  | UnsupportedSiteKind => raw_kind (socc_site site) = SiteMacroCall ∨ raw_kind (socc_site site) = SiteTestMarker
  | UnsupportedImportShape => raw_kind (socc_site site) = SiteImport ∧ parse_import raw = None
  | DynamicOrMethodCall =>
      raw_kind (socc_site site) = SiteCall
      ∧ (is_dynamic_call raw = true ∨ method_exists definitions site (call_target raw))
  | UnsupportedQualifiedSyntax => ∃ target el, reference_of site = Some (target, el) ∧ parse_path target = None
  | NoCandidate =>
      raw_kind (socc_site site) = SiteImport ∧ is_Some (parse_import raw)
      ∨ ∃ target el, reference_of site = Some (target, el) ∧ is_Some (parse_path target)
                     ∧ (el = FreeFunctions → ¬ method_exists definitions site target)
  end.

Lemma site_reason definitions sites site :
  set_candidates (ref_site definitions sites site) = [] →
  reason_of definitions site (set_unresolved_reason (ref_site definitions sites site)).
Proof.
  unfold ref_site, reason_of, ref_target, reference_of.
  destruct (raw_kind (socc_site site)) eqn:Ek; simpl; try tauto.
  - destruct (parse_import _) as [import|]; simpl; [|done]. intros _. left. split; [done|]. by eexists.
  - destruct (parse_path _) as [[[path same_slot] bare]|] eqn:Ep; simpl; [|by eexists _, _].
    intros _. right. eexists _, _. split_and!; [done|by rewrite Ep; eexists|done].
  - destruct (is_dynamic_call _) eqn:Ed; simpl; [tauto|].
    pose proof (ref_method_exists_spec definitions site (call_target (raw_target (socc_site site)))) as Hm.
    destruct (parse_path (call_target _)) as [[[path same_slot] bare]|] eqn:Ep; simpl.
    + destruct (retain_first _ _) eqn:E; simpl; [|by rewrite E].
      destruct (ref_method_exists _ _ _); simpl; [intros _; split; [done|]; right; by apply Hm|].
      intros _. right. eexists _, _. split_and!; [done|by rewrite Ep; eexists|].
      intros _ Hx. by apply Hm in Hx.
    + unfold ref_method_exists. rewrite Ep. simpl. intros _. by eexists _, _.
Qed.
