(* ===== verification/ResolverResult.v ===== *)
(** * The result of a resolution

    Admission and bounded output of the resolver ([Resolver.v]) as pure conditions and
    sums, and the theorems on its complete result: when there is one, what it is, that it
    is well formed, and that the order of the input does not matter. *)

From Stdlib Require Import ZArith Lia ZifyBool.
From Stdlib Require Import Strings.Byte.
From stdpp Require Import base numbers sorting list.
From S2P Require Import Prelude Ordering GraphIdentity ResolutionSyntax SymbolFacts GraphSites Resolver ResolverReference ResolverProperties.

Open Scope Z_scope.

(** ** Metered loops *)

Definition total {A} (w : A → Z) (xs : list A) : Z := foldr (λ x, Z.add (w x)) 0 xs.

Lemma total_app {A} (w : A → Z) xs ys : total w (xs ++ ys) = total w xs + total w ys.
Proof. induction xs as [|x xs IH]; simpl; [done|]. rewrite IH. lia. Qed.

Lemma total_nonneg {A} (w : A → Z) xs : (∀ x, 0 ≤ w x) → 0 ≤ total w xs.
Proof. intros Hw. induction xs as [|x xs IH]; simpl; [done|]. specialize (Hw x). lia. Qed.

Lemma total_perm {A} (w : A → Z) xs ys : xs ≡ₚ ys → total w xs = total w ys.
Proof. induction 1; simpl; lia. Qed.

Lemma total_count {A} (p : A → bool) xs : 0 ≤ total (λ x, Z.b2z (p x)) xs ≤ Z.of_nat (length xs).
Proof. induction xs as [|x xs IH]; simpl; [done|]. destruct (p x); simpl; lia. Qed.

(** A loop that adds each element's weight to a meter fails as soon as the meter exceeds its
    maximum, so it succeeds exactly when the total stays within it. *)
Lemma metered_fold {E A} (body : Z → A → result E Z) (P : A → Prop) (w : A → Z) max xs t t' :
  (∀ t x t', 0 ≤ t ≤ max → body t x = Ok t' ↔ P x ∧ t' = t + w x ∧ t' ≤ max) → (∀ x, 0 ≤ w x) →
  0 ≤ t ≤ max →
  try_fold body t xs = Ok t' ↔ Forall P xs ∧ t' = t + total w xs ∧ t' ≤ max.
Proof.
  intros Hb Hw. revert t. induction xs as [|x xs IH]; intros t Ht; simpl.
  - split; [intros [= <-]; split_and!; [constructor|lia..]|intros (_ & -> & _); f_equal; lia].
  - rewrite Forall_cons. pose proof (Hw x). pose proof (total_nonneg w xs Hw).
    destruct (body t x) as [t1|e] eqn:Ex; rstep.
    + apply Hb in Ex as (Hp & -> & Hm); [|done]. rewrite IH by lia.
      rewrite Z.add_assoc. tauto.
    + split; [done|]. intros ([Hp _] & -> & Hm).
      rewrite (proj2 (Hb t x (t + w x) Ht)) in Ex; [done|]. split; [done|lia].
Qed.

(** ** Admission *)

(** Limits as [try_new] builds them: valid unsigned numbers. *)
Record limits_wf (l : RustGraphResolutionLimits) : Prop := {
  wf_definitions : 0 < max_definitions l ≤ MAX_DEFINITIONS;
  wf_sites : 0 < max_sites l ≤ MAX_SITES;
  wf_per_site : 2 ≤ max_candidates_per_site l ≤ MAX_CANDIDATES_PER_SITE;
  wf_total : 0 < max_total_candidates l ≤ MAX_TOTAL_CANDIDATES;
  wf_text : 0 < max_input_text_bytes l ≤ MAX_INPUT_TEXT_BYTES;
  wf_output : 0 < max_resolution_output_bytes l ≤ MAX_OUTPUT_BYTES;
}.

(** The limits [try_new] accepts, of unsigned arguments, are the well-formed ones. *)
Lemma resolution_limits_try_new_Ok a b c d e f l :
  0 ≤ a → 0 ≤ b → 0 ≤ c → 0 ≤ d → 0 ≤ e → 0 ≤ f →
  resolution_limits_try_new a b c d e f = Ok l ↔ l = Build_RustGraphResolutionLimits a b c d e f ∧ limits_wf l.
Proof.
  intros. unfold resolution_limits_try_new. destruct (resolution_limits_is_valid _) eqn:Hv.
  - unfold resolution_limits_is_valid in Hv. cbn in Hv. split; [|by intros [-> _]].
    intros [= <-]. split; [done|]. constructor; cbn; lia.
  - split; [done|]. intros [-> [W1 W2 W3 W4 W5 W6]]. cbn in *. unfold resolution_limits_is_valid in Hv. cbn in Hv. lia.
Qed.

Lemma resolution_limits_default_wf : limits_wf resolution_limits_DEFAULT.
Proof. constructor; vm_compute; done. Qed.

Definition definition_text (d : RustGraphDefinitionOccurrence) : Z :=
  len (occ_path d) + len (fact_name (occ_fact d)) + len (fact_qualified_name (occ_fact d)).

Definition site_input_text (s : RustGraphSiteOccurrence) : Z :=
  len (socc_path s) + len (raw_target (socc_site s)) +
  match raw_enclosing_definition (socc_site s) with
  | Some e => len (encl_name e) + len (encl_qualified_name e)
  | None => 0
  end.

Definition target_nested (s : RustGraphSiteOccurrence) : Prop :=
  span_start (raw_occurrence_span (socc_site s)) ≤ span_start (raw_target_span (socc_site s))
  ∧ span_end (raw_target_span (socc_site s)) ≤ span_end (raw_occurrence_span (socc_site s)).

Definition input_text (definitions : list RustGraphDefinitionOccurrence) (sites : list RustGraphSiteOccurrence) : Z :=
  total definition_text definitions + total site_input_text sites.

(** The inputs a resolution accepts. *)
Record admissible (limits : RustGraphResolutionLimits) (definitions : list RustGraphDefinitionOccurrence)
    (sites : list RustGraphSiteOccurrence) : Prop := {
  adm_definitions : Z.of_nat (length definitions) ≤ max_definitions limits;
  adm_sites : Z.of_nat (length sites) ≤ max_sites limits;
  adm_nested : Forall target_nested sites;
  adm_text : input_text definitions sites ≤ max_input_text_bytes limits;
  adm_distinct : distinct definitions;
  adm_distinct_sites : NoDup (map site_key sites);
}.

Definition admitted_input (definitions : list RustGraphDefinitionOccurrence) (sites : list RustGraphSiteOccurrence)
    : AdmittedInput :=
  {| definition_order := sorted_definitions definitions; site_order := sorted_sites sites;
     input_text_bytes := input_text definitions sites |}.

Lemma definition_text_nonneg d : 0 ≤ definition_text d.
Proof.
  unfold definition_text. pose proof (len_nonneg (occ_path d)). pose proof (len_nonneg (fact_name (occ_fact d))).
  pose proof (len_nonneg (fact_qualified_name (occ_fact d))). lia.
Qed.

Lemma site_input_text_nonneg s : 0 ≤ site_input_text s.
Proof.
  unfold site_input_text. pose proof (len_nonneg (socc_path s)). pose proof (len_nonneg (raw_target (socc_site s))).
  destruct (raw_enclosing_definition _) as [e|]; [|lia].
  pose proof (len_nonneg (encl_name e)). pose proof (len_nonneg (encl_qualified_name e)). lia.
Qed.

Section admission.
Context (limits : RustGraphResolutionLimits) (wf : limits_wf limits).

Lemma add_text_Ok t s t' :
  0 ≤ t ≤ max_input_text_bytes limits →
  add_text t (length s) limits = Ok t' ↔ t' = t + len (s : bytes) ∧ t' ≤ max_input_text_bytes limits.
Proof using wf.
  intros Ht. destruct wf as [_ _ _ _ Hm _]. unfold MAX_INPUT_TEXT_BYTES in Hm.
  unfold add_text, len_u64, u64_of_len, u64_checked_add. fold (len s). pose proof (len_nonneg s).
  destruct (checked u64_max (len s)) as [n|] eqn:E1; rstep.
  - apply checked_Some in E1 as [-> ?]. destruct (checked u64_max (t + len s)) as [t1|] eqn:E2; rstep.
    + apply checked_Some in E2 as [-> ?]. case_match; split; try done; try lia.
      * intros [= <-]. lia.
      * intros [-> _]. done.
    + apply checked_None in E2. split; [done|]. unfold u64_max in *. lia.
  - apply checked_None in E1. split; [done|]. unfold u64_max in *. lia.
Qed.

Lemma add_text_Err t s e :
  0 ≤ t ≤ max_input_text_bytes limits →
  add_text t (length s) limits = Err e → max_input_text_bytes limits < t + len (s : bytes).
Proof using wf.
  intros Ht He. destruct (Z.lt_ge_cases (max_input_text_bytes limits) (t + len s)) as [|Hle]; [done|].
  by rewrite (proj2 (add_text_Ok t s _ Ht) (conj eq_refl Hle)) in He.
Qed.

Lemma admit_definition_Ok t d t' :
  0 ≤ t ≤ max_input_text_bytes limits →
  admit_definition limits t d = Ok t' ↔ True ∧ t' = t + definition_text d ∧ t' ≤ max_input_text_bytes limits.
Proof using wf.
  intros Ht. unfold admit_definition, definition_text.
  pose proof (len_nonneg (occ_path d)). pose proof (len_nonneg (fact_name (occ_fact d))).
  pose proof (len_nonneg (fact_qualified_name (occ_fact d))).
  destruct (add_text t _ limits) as [t1|] eqn:E1; rstep;
    [apply add_text_Ok in E1 as [-> ?]; [|done]|].
  2:{ apply add_text_Err in E1; [|done]. split; [done|lia]. }
  destruct (add_text _ (length (fact_name _)) limits) as [t2|] eqn:E2; rstep;
    [apply add_text_Ok in E2 as [-> ?]; [|lia]|].
  2:{ apply add_text_Err in E2; [|lia]. split; [done|lia]. }
  rewrite add_text_Ok by lia. lia.
Qed.

Lemma admit_site_Ok t s t' :
  0 ≤ t ≤ max_input_text_bytes limits →
  admit_site limits t s = Ok t' ↔ target_nested s ∧ t' = t + site_input_text s ∧ t' ≤ max_input_text_bytes limits.
Proof using wf.
  intros Ht. unfold admit_site, site_input_text, target_nested.
  pose proof (len_nonneg (socc_path s)). pose proof (len_nonneg (raw_target (socc_site s))).
  destruct (_ || _) eqn:En; [split; [done|lia]|]. rewrite orb_false_iff in En.
  assert (∀ e : RustGraphEnclosingDefinition, 0 ≤ len (encl_name e) + len (encl_qualified_name e)
            ∧ 0 ≤ len (encl_name e)) as He.
  { intros e. pose proof (len_nonneg (encl_name e)). pose proof (len_nonneg (encl_qualified_name e)). lia. }
  set (tail := match raw_enclosing_definition (socc_site s) with Some e => _ | None => 0 end).
  assert (0 ≤ tail) by (unfold tail; destruct (raw_enclosing_definition _) as [e|]; [apply (He e)|lia]).
  destruct (add_text t _ limits) as [t1|] eqn:E1; rstep;
    [apply add_text_Ok in E1 as [-> ?]; [|done]|].
  2:{ apply add_text_Err in E1; [|done]. split; [done|lia]. }
  destruct (add_text _ (length (raw_target _)) limits) as [t2|] eqn:E2; rstep;
    [apply add_text_Ok in E2 as [-> ?]; [|lia]|].
  2:{ apply add_text_Err in E2; [|lia]. split; [done|lia]. }
  subst tail. destruct (raw_enclosing_definition _) as [e|].
  - destruct (He e). pose proof (len_nonneg (encl_qualified_name e)).
    destruct (add_text _ (length (encl_name e)) limits) as [t3|] eqn:E3; rstep;
      [apply add_text_Ok in E3 as [-> ?]; [|lia]; rewrite add_text_Ok by lia; lia|].
    apply add_text_Err in E3; [|lia]. split; [done|lia].
  - split; [intros [= <-]; lia|intros (_ & -> & _); f_equal; lia].
Qed.

Definition admit_pure (definitions : list RustGraphDefinitionOccurrence) (sites : list RustGraphSiteOccurrence)
    : result RustGraphResolutionError AdmittedInput :=
  definition_count ← ok_or (u32_of_len (length definitions)) DefinitionLimitExceeded;
  reject_if (max_definitions limits <? definition_count) DefinitionLimitExceeded;;
  site_count ← ok_or (u32_of_len (length sites)) SiteLimitExceeded;
  reject_if (max_sites limits <? site_count) SiteLimitExceeded;;
  text_bytes ← try_fold (admit_definition limits) 0 definitions;
  text_bytes ← try_fold (admit_site limits) text_bytes sites;
  reject_if (any_adjacent same_definition_identity (sorted_definitions definitions)) DuplicateDefinition;;
  reject_if (any_adjacent same_site_identity (sorted_sites sites)) DuplicateSite;;
  Ok {| definition_order := sorted_definitions definitions; site_order := sorted_sites sites;
        input_text_bytes := text_bytes |}.

Lemma evals_reject_adjacent {A} (same : A → A → bool) e xs :
  evals (reject_adjacent same e xs) (reject_if (any_adjacent same xs) e).
Proof.
  induction xs as [|x [|y xs] IH]; [apply evals_ret|apply evals_ret|].
  cbn [reject_adjacent any_adjacent]. apply evals_check_bind. destruct (same x y); [apply evals_throw|exact IH].
Qed.

Lemma evals_admit definitions sites : evals (admit_inputs definitions sites limits) (admit_pure definitions sites).
Proof.
  unfold admit_inputs, admit_pure.
  repeat (apply evals_mbind; [first [apply evals_lift | apply evals_reject_adjacent
    | apply evals_fold; intros ? ?; apply evals_check_bind, evals_lift]|intros ?]).
  apply evals_check_bind, evals_ret.
Qed.

Lemma admit_pure_Ok definitions sites a :
  admit_pure definitions sites = Ok a ↔ admissible limits definitions sites ∧ a = admitted_input definitions sites.
Proof using wf.
  destruct wf as [Hd Hs _ _ Ht _]. unfold MAX_DEFINITIONS, MAX_SITES in *.
  unfold admit_pure, reject_if, u32_of_len.
  destruct (checked u32_max (Z.of_nat (length definitions))) as [c|] eqn:E1; rstep;
    [apply checked_Some in E1 as [-> ?]
    |apply checked_None in E1; split; [done|]; intros [[H _ _ _ _ _] _]; unfold u32_max in *; lia].
  destruct (Z.ltb_spec (max_definitions limits) (Z.of_nat (length definitions))) as [|Hld]; rstep;
    [split; [done|]; intros [[H' _ _ _ _ _] _]; lia|].
  destruct (checked u32_max (Z.of_nat (length sites))) as [c|] eqn:E2; rstep;
    [apply checked_Some in E2 as [-> ?]
    |apply checked_None in E2; split; [done|]; intros [[_ H' _ _ _ _] _]; unfold u32_max in *; lia].
  destruct (Z.ltb_spec (max_sites limits) (Z.of_nat (length sites))) as [|Hls]; rstep;
    [split; [done|]; intros [[_ H' _ _ _ _] _]; lia|].
  pose proof (total_nonneg definition_text definitions definition_text_nonneg) as Hnd.
  pose proof (total_nonneg site_input_text sites site_input_text_nonneg) as Hns.
  assert (∀ t', try_fold (admit_definition limits) 0 definitions = Ok t' ↔
    Forall (λ _, True) definitions ∧ t' = 0 + total definition_text definitions ∧ t' ≤ max_input_text_bytes limits) as Hfd.
  { intros t'. apply metered_fold; [apply admit_definition_Ok|apply definition_text_nonneg|lia]. }
  destruct (try_fold (admit_definition limits) 0 definitions) as [t|] eqn:E3; rstep.
  2:{ split; [done|]. intros [[_ _ _ H' _ _] _]. unfold input_text in H'.
      destruct (Hfd (total definition_text definitions)) as [_ Hx]. discriminate Hx.
      split_and!; [by apply Forall_true|lia..]. }
  destruct (proj1 (Hfd t) eq_refl) as (_ & -> & Htd). rewrite Z.add_0_l in *.
  assert (∀ t', try_fold (admit_site limits) (total definition_text definitions) sites = Ok t' ↔
    Forall target_nested sites ∧ t' = total definition_text definitions + total site_input_text sites
    ∧ t' ≤ max_input_text_bytes limits) as Hfs.
  { intros t'. apply metered_fold; [apply admit_site_Ok|apply site_input_text_nonneg|lia]. }
  destruct (try_fold (admit_site limits) _ sites) as [t|] eqn:E4; rstep.
  2:{ split; [done|]. intros [[_ _ Hn H' _ _] _]. destruct (Hfs (input_text definitions sites)) as [_ Hx].
      discriminate Hx. done. }
  destruct (proj1 (Hfs t) eq_refl) as (Hn & -> & Hts).
  pose proof (adjacent_distinct definition_key same_definition_identity _ definitions same_definition_key
    (sort_by_perm _ definitions) (sorted_definitions_keys definitions)) as Had.
  pose proof (adjacent_distinct site_key same_site_identity _ sites same_site_key
    (sort_by_perm _ sites) (sorted_sites_keys sites)) as Has.
  destruct (any_adjacent same_definition_identity _) eqn:E5; rstep.
  { split; [done|]. intros [[_ _ _ _ H' _] _]. by apply Had in H'. }
  destruct (any_adjacent same_site_identity _) eqn:E6; rstep.
  { split; [done|]. intros [[_ _ _ _ _ H'] _]. by apply Has in H'. }
  split.
  - intros [= <-]. split; [|done]. constructor; try done; [by apply Had|by apply Has].
  - by intros [_ ->].
Qed.

Lemma steady_reject_adjacent {A} (same : A → A → bool) e xs : steady (reject_adjacent same e xs).
Proof. induction xs as [|x [|y xs] IH]; [apply steady_ret..|]. cbn [reject_adjacent]. solve_steady. Qed.
Hint Resolve steady_reject_adjacent : steady.

Lemma steady_admit definitions sites : steady (admit_inputs definitions sites limits).
Proof. unfold admit_inputs. solve_steady. Qed.
End admission.
#[export] Hint Resolve steady_reject_adjacent steady_admit : steady.

(** ** Output *)

Definition resolution_candidate (c : CandidateRef) : RustGraphResolutionCandidate :=
  {| candidate_target := definition_identity c.1; candidate_evidence := c.2 |}.

Section output.
Context (limits : RustGraphResolutionLimits).

(** A site with the candidates resolved for it. *)
Definition Resolved : Type := RustGraphSiteOccurrence * CandidateSet.

Definition is_truncated (x : Resolved) : bool :=
  max_candidates_per_site limits <? Z.of_nat (length (set_candidates x.2)).

Definition retained (x : Resolved) : list CandidateRef :=
  take (Z.to_nat (max_candidates_per_site limits)) (set_candidates x.2).

Definition outcome_of (x : Resolved) : RustGraphResolutionOutcome :=
  match map resolution_candidate (retained x) with
  | [] => Unresolved (set_unresolved_reason x.2)
  | [candidate] => if is_truncated x then AmbiguousOutcome [candidate] else UniqueOutcome candidate
  | candidates => AmbiguousOutcome candidates
  end.

Definition resolution_of (x : Resolved) : RustGraphSiteResolution :=
  {| resolved_site := site_identity x.1; resolved_outcome := outcome_of x;
     candidate_count := Z.of_nat (length (set_candidates x.2)); candidates_truncated := is_truncated x |}.

Definition is_unresolved (x : Resolved) : bool :=
  match outcome_of x with Unresolved _ => true | _ => false end.
Definition is_unique (x : Resolved) : bool :=
  match outcome_of x with UniqueOutcome _ => true | _ => false end.
Definition is_ambiguous_outcome (x : Resolved) : bool :=
  match outcome_of x with AmbiguousOutcome _ => true | _ => false end.
Definition is_unsupported (x : Resolved) : bool :=
  match outcome_of x with Unresolved reason => negb (bool_decide (reason = NoCandidate)) | _ => false end.

Definition candidate_bytes (c : CandidateRef) : Z := CANDIDATE_OUTPUT_FIXED_BYTES + len (occ_path c.1).
Definition site_bytes (x : Resolved) : Z :=
  SITE_OUTPUT_FIXED_BYTES + len (socc_path x.1) + total candidate_bytes (retained x).

Definition tally (p : Resolved → bool) (xs : list Resolved) : Z := total (λ x, Z.b2z (p x)) xs.
Definition retained_total (xs : list Resolved) : Z := total (λ x, Z.of_nat (length (retained x))) xs.
Definition output_total (xs : list Resolved) : Z := RESOLUTION_OUTPUT_BYTES + total site_bytes xs.

(** The output after the sites [xs]. *)
Definition built (xs : list Resolved) : OutputBuilder :=
  {| out_outcomes := map resolution_of xs; out_output_bytes := output_total xs;
     out_unresolved := tally is_unresolved xs; out_unique := tally is_unique xs;
     out_ambiguous := tally is_ambiguous_outcome xs; out_unsupported := tally is_unsupported xs;
     out_truncated_sites := tally is_truncated xs; out_retained_candidates := retained_total xs |}.

Definition fits (xs : list Resolved) : Prop :=
  output_total xs ≤ max_resolution_output_bytes limits ∧ retained_total xs ≤ max_total_candidates limits.

Lemma candidate_bytes_nonneg c : 0 ≤ candidate_bytes c.
Proof. unfold candidate_bytes, CANDIDATE_OUTPUT_FIXED_BYTES. pose proof (len_nonneg (occ_path c.1)). lia. Qed.
Lemma site_bytes_nonneg x : 0 ≤ site_bytes x.
Proof.
  unfold site_bytes, SITE_OUTPUT_FIXED_BYTES. pose proof (len_nonneg (socc_path x.1)).
  pose proof (total_nonneg _ (retained x) candidate_bytes_nonneg). lia.
Qed.
Lemma retained_total_nonneg xs : 0 ≤ retained_total xs.
Proof. apply total_nonneg. lia. Qed.
Lemma output_total_nonneg xs : RESOLUTION_OUTPUT_BYTES ≤ output_total xs.
Proof. unfold output_total. pose proof (total_nonneg _ xs site_bytes_nonneg). lia. Qed.

Lemma fits_app xs ys : fits (xs ++ ys) → fits xs.
Proof.
  unfold fits, output_total, retained_total. rewrite !total_app.
  pose proof (total_nonneg _ ys site_bytes_nonneg). pose proof (retained_total_nonneg ys).
  unfold retained_total in *. lia.
Qed.

(** *** One site *)

Context (wf : limits_wf limits).

Lemma add_bytes_Ok t n t' :
  0 ≤ t → 0 ≤ n → t ≤ max_resolution_output_bytes limits →
  add_resolution_bytes limits t n = Ok t' ↔ t' = t + n ∧ t' ≤ max_resolution_output_bytes limits.
Proof using wf.
  intros Ht Hn Hm. destruct wf as [_ _ _ _ _ Ho]. unfold MAX_OUTPUT_BYTES in Ho.
  unfold add_resolution_bytes, u64_checked_add.
  destruct (checked u64_max (t + n)) as [t1|] eqn:E; rstep.
  - apply checked_Some in E as [-> ?]. case_match; split; try done; try lia; [intros [= <-]; lia|by intros [-> _]].
  - apply checked_None in E. split; [done|]. unfold u64_max in *. lia.
Qed.

Lemma add_bytes_Err t n e :
  0 ≤ t → 0 ≤ n → t ≤ max_resolution_output_bytes limits →
  add_resolution_bytes limits t n = Err e → max_resolution_output_bytes limits < t + n.
Proof using wf.
  intros Ht Hn Hm He. destruct (Z.lt_ge_cases (max_resolution_output_bytes limits) (t + n)) as [|Hle]; [done|].
  by rewrite (proj2 (add_bytes_Ok t n _ Ht Hn Hm) (conj eq_refl Hle)) in He.
Qed.

(** A length the output limit admits is a [u64]. *)
Lemma len_u64_Ok (s : bytes) : len s ≤ u64_max → len_u64 (length s) = Ok (len s).
Proof. intros H. unfold len_u64, u64_of_len. rewrite checked_in; [done|]. split; [apply len_nonneg|done]. Qed.

Definition push_path (t fixed : Z) (path : bytes) : result RustGraphResolutionError Z :=
  t ← add_resolution_bytes limits t fixed; n ← len_u64 (length path); add_resolution_bytes limits t n.

Lemma push_path_Ok t fixed path t' :
  0 ≤ t ≤ max_resolution_output_bytes limits → 0 ≤ fixed →
  push_path t fixed path = Ok t' ↔ t' = t + fixed + len path ∧ t' ≤ max_resolution_output_bytes limits.
Proof using wf.
  intros Ht Hf. pose proof (len_nonneg path) as Hp. unfold push_path.
  destruct (add_resolution_bytes limits t fixed) as [t1|] eqn:E; rstep.
  - apply add_bytes_Ok in E as [-> Hm]; [|lia..]. unfold len_u64, u64_of_len. fold (len path).
    destruct (checked u64_max (len path)) as [n|] eqn:En; rstep.
    + apply checked_Some in En as [-> _]. by apply add_bytes_Ok; lia.
    + apply checked_None in En. destruct wf as [_ _ _ _ _ Ho]. unfold MAX_OUTPUT_BYTES, u64_max in *.
      split; [done|lia].
  - apply add_bytes_Err in E; [|lia..]. split; [done|lia].
Qed.

Lemma push_path_Err t fixed path e :
  0 ≤ t ≤ max_resolution_output_bytes limits → 0 ≤ fixed →
  push_path t fixed path = Err e → max_resolution_output_bytes limits < t + fixed + len path.
Proof using wf.
  intros Ht Hf He. destruct (Z.lt_ge_cases (max_resolution_output_bytes limits) (t + fixed + len path)) as [|Hle]; [done|].
  by rewrite (proj2 (push_path_Ok t fixed path _ Ht Hf) (conj eq_refl Hle)) in He.
Qed.

Definition push_candidate_pure (acc : Z * list RustGraphResolutionCandidate) (c : CandidateRef)
    : result RustGraphResolutionError (Z * list RustGraphResolutionCandidate) :=
  t ← push_path acc.1 CANDIDATE_OUTPUT_FIXED_BYTES (occ_path c.1); Ok (t, acc.2 ++ [resolution_candidate c]).

Lemma evals_push_candidate acc c : evals (push_candidate limits acc c) (push_candidate_pure acc c).
Proof.
  unfold push_candidate, push_candidate_pure, push_path. apply evals_check_bind.
  destruct (add_resolution_bytes _ _ _) as [t|e]; rstep; [|apply evals_bind_Err, evals_lift].
  eapply evals_bind; [apply evals_lift|].
  destruct (len_u64 _) as [n|e]; rstep; [|apply evals_bind_Err, evals_lift].
  eapply evals_bind; [apply evals_lift|].
  destruct (add_resolution_bytes _ _ _) as [t'|e]; rstep; [|apply evals_bind_Err, evals_lift].
  eapply evals_bind; [apply evals_lift|]. apply evals_ret.
Qed.

Lemma push_candidates_Ok t acc cs r :
  0 ≤ t ≤ max_resolution_output_bytes limits →
  try_fold push_candidate_pure (t, acc) cs = Ok r ↔
  r = (t + total candidate_bytes cs, acc ++ map resolution_candidate cs)
  ∧ t + total candidate_bytes cs ≤ max_resolution_output_bytes limits.
Proof using wf.
  revert t acc. induction cs as [|c cs IH]; intros t acc Ht; simpl.
  - rewrite app_nil_r, Z.add_0_r. split; [intros [= <-]; split; [done|lia]|by intros [-> _]].
  - pose proof (total_nonneg _ cs candidate_bytes_nonneg).
    replace (push_candidate_pure (t, acc) c)
      with (t ← push_path t CANDIDATE_OUTPUT_FIXED_BYTES (occ_path c.1);
            Ok (E := RustGraphResolutionError) (t, acc ++ [resolution_candidate c])) by done.
    pose proof (len_nonneg (occ_path c.1)).
    replace (t + (candidate_bytes c + total candidate_bytes cs))
      with (t + CANDIDATE_OUTPUT_FIXED_BYTES + len (occ_path c.1) + total candidate_bytes cs)
      by (unfold candidate_bytes; lia).
    destruct (push_path t _ _) as [t1|] eqn:E; rstep.
    + apply push_path_Ok in E as [-> ?]; [|done|done].
      rewrite IH by (unfold CANDIDATE_OUTPUT_FIXED_BYTES in *; lia).
      by rewrite <- app_assoc.
    + apply push_path_Err in E; [|done|done]. split; [done|lia].
Qed.

(** The counters of a builder after one more outcome. *)
Definition counted_outcome (b : OutputBuilder) (x : Resolved)
    : result RustGraphResolutionError (RustGraphResolutionOutcome * (Z * Z * Z * Z)) :=
  match outcome_of x with
  | Unresolved reason =>
      unresolved ← increment (out_unresolved b);
      unsupported ← (if bool_decide (reason = NoCandidate) then Ok (out_unsupported b)
                     else increment (out_unsupported b));
      Ok (Unresolved reason, (unresolved, out_unique b, out_ambiguous b, unsupported))
  | UniqueOutcome c =>
      unique ← increment (out_unique b);
      Ok (UniqueOutcome c, (out_unresolved b, unique, out_ambiguous b, out_unsupported b))
  | AmbiguousOutcome cs =>
      ambiguous ← increment (out_ambiguous b);
      Ok (AmbiguousOutcome cs, (out_unresolved b, out_unique b, ambiguous, out_unsupported b))
  end.

Definition push_pure (b : OutputBuilder) (x : Resolved) : result RustGraphResolutionError OutputBuilder :=
  count ← ok_or (u32_of_len (length (set_candidates x.2))) ResolutionCountOverflow;
  retained_count ← len_u64 (length (retained x));
  retained_candidates ← ok_or (u64_checked_add (out_retained_candidates b) retained_count) ResolutionCountOverflow;
  reject_if (max_total_candidates limits <? retained_candidates) CandidateLimitExceeded;;
  output_bytes ← push_path (out_output_bytes b) SITE_OUTPUT_FIXED_BYTES (socc_path x.1);
  owned ← try_fold push_candidate_pure (output_bytes, []) (retained x);
  counted ← counted_outcome b x;
  truncated_sites ← (if is_truncated x then increment (out_truncated_sites b) else Ok (out_truncated_sites b));
  Ok {| out_outcomes := out_outcomes b ++ [{| resolved_site := site_identity x.1;
                                              resolved_outcome := counted.1; candidate_count := count;
                                              candidates_truncated := is_truncated x |}];
        out_output_bytes := owned.1; out_unresolved := counted.2.1.1.1; out_unique := counted.2.1.1.2;
        out_ambiguous := counted.2.1.2; out_unsupported := counted.2.2;
        out_truncated_sites := truncated_sites; out_retained_candidates := retained_candidates |}.

Lemma owned_candidates cs t acc t' owned :
  try_fold push_candidate_pure (t, acc) cs = Ok (t', owned) → owned = acc ++ map resolution_candidate cs.
Proof.
  revert t acc. induction cs as [|c cs IH]; intros t acc; cbn [try_fold map].
  - intros [= _ <-]. by rewrite app_nil_r.
  - unfold push_candidate_pure at 2. cbn [fst snd]. destruct (push_path _ _ _) as [t1|]; rstep; [|done].
    intros ->%IH. by rewrite <- app_assoc.
Qed.

Lemma evals_output_push b x : evals (output_push limits b x.1 x.2) (push_pure b x).
Proof.
  unfold output_push, push_pure, push_path. apply evals_check_bind.
  fold (is_truncated x) (retained x).
  apply evals_mbind; [apply evals_lift|]. intros count.
  apply evals_mbind; [apply evals_lift|]. intros retained_count.
  apply evals_mbind; [apply evals_lift|]. intros retained_candidates.
  apply evals_mbind; [apply evals_lift|]. intros [].
  destruct (add_resolution_bytes _ _ _) as [t|e]; rstep; [|apply evals_bind_Err, evals_lift].
  eapply evals_bind; [apply evals_lift|].
  destruct (len_u64 _) as [n|e]; rstep; [|apply evals_bind_Err, evals_lift].
  eapply evals_bind; [apply evals_lift|].
  destruct (add_resolution_bytes _ _ _) as [t'|e]; rstep; [|apply evals_bind_Err, evals_lift].
  eapply evals_bind; [apply evals_lift|].
  pose proof (evals_fold (push_candidate limits) push_candidate_pure (t', []) (retained x) evals_push_candidate) as Hf.
  destruct (try_fold push_candidate_pure (t', []) (retained x)) as [[t2 owned]|e] eqn:Eo; rstep;
    [|by apply evals_bind_Err].
  eapply evals_bind; [exact Hf|]. cbn [fst snd]. apply owned_candidates in Eo. rewrite app_nil_l in Eo.
  eapply (evals_mbind _ _ (counted_outcome b x)).
  { unfold counted_outcome, outcome_of. rewrite <- Eo. destruct owned as [|c [|c' cs]].
    - apply evals_mbind; [apply evals_lift|]. intros u.
      apply evals_mbind; [|intros u'; apply evals_ret].
      destruct (bool_decide _); [apply evals_ret|apply evals_lift].
    - destruct (is_truncated x); cbn [negb]; (apply evals_mbind; [apply evals_lift|intros u; apply evals_ret]).
    - apply evals_mbind; [apply evals_lift|intros u; apply evals_ret]. }
  intros [outcome [[[u1 u2] u3] u4]].
  apply evals_mbind; [destruct (is_truncated x); [apply evals_lift|apply evals_ret]|].
  intros ts. apply evals_ret.
Qed.

Lemma increment_Ok v : 0 ≤ v < u32_max → increment v = Ok (v + 1).
Proof. intros H. unfold increment. rewrite checked_in by lia. done. Qed.

Lemma tally_snoc p xs x : tally p (xs ++ [x]) = tally p xs + Z.b2z (p x).
Proof. unfold tally. rewrite total_app. simpl. lia. Qed.

Lemma tally_increment p xs x :
  Z.of_nat (length xs) < u32_max → p x = true → increment (tally p xs) = Ok (tally p (xs ++ [x])).
Proof.
  intros Hl Hp. rewrite tally_snoc, Hp. apply increment_Ok. unfold tally.
  pose proof (total_count p xs). lia.
Qed.

Lemma tally_keep p xs x : p x = false → tally p (xs ++ [x]) = tally p xs.
Proof. intros Hp. rewrite tally_snoc, Hp. simpl. lia. Qed.

Lemma counted_built xs x :
  Z.of_nat (length xs) < u32_max →
  counted_outcome (built xs) x =
  Ok (outcome_of x, (tally is_unresolved (xs ++ [x]), tally is_unique (xs ++ [x]),
                     tally is_ambiguous_outcome (xs ++ [x]), tally is_unsupported (xs ++ [x]))).
Proof.
  intros Hl. unfold counted_outcome. simpl.
  assert (∀ p, p x = true → increment (tally p xs) = Ok (tally p (xs ++ [x]))) as Hi by (intros; by apply tally_increment).
  assert (∀ p, p x = false → tally p xs = tally p (xs ++ [x])) as Hk by (intros; symmetry; by apply tally_keep).
  destruct (outcome_of x) as [reason|c|cs] eqn:Eo.
  - rewrite (Hi is_unresolved) by (unfold is_unresolved; by rewrite Eo). rstep.
    rewrite (Hk is_unique), (Hk is_ambiguous_outcome)
      by (unfold is_unique, is_ambiguous_outcome; by rewrite Eo).
    case_bool_decide as Hr; rstep.
    + rewrite (Hk is_unsupported); [done|]. unfold is_unsupported. rewrite Eo. by rewrite bool_decide_true.
    + rewrite (Hi is_unsupported); [done|]. unfold is_unsupported. rewrite Eo. by rewrite bool_decide_false.
  - rewrite (Hi is_unique) by (unfold is_unique; by rewrite Eo). rstep.
    by rewrite (Hk is_unresolved), (Hk is_ambiguous_outcome), (Hk is_unsupported)
      by (unfold is_unresolved, is_ambiguous_outcome, is_unsupported; by rewrite Eo).
  - rewrite (Hi is_ambiguous_outcome) by (unfold is_ambiguous_outcome; by rewrite Eo). rstep.
    by rewrite (Hk is_unresolved), (Hk is_unique), (Hk is_unsupported)
      by (unfold is_unresolved, is_unique, is_unsupported; by rewrite Eo).
Qed.

Lemma fits_snoc xs x :
  fits (xs ++ [x]) ↔
  output_total xs + site_bytes x ≤ max_resolution_output_bytes limits
  ∧ retained_total xs + Z.of_nat (length (retained x)) ≤ max_total_candidates limits.
Proof. unfold fits, output_total, retained_total. rewrite !total_app. simpl. lia. Qed.

Lemma built_snoc xs x :
  built (xs ++ [x]) =
  {| out_outcomes := map resolution_of xs ++ [resolution_of x];
     out_output_bytes := output_total xs + SITE_OUTPUT_FIXED_BYTES + len (socc_path x.1)
                         + total candidate_bytes (retained x);
     out_unresolved := tally is_unresolved (xs ++ [x]); out_unique := tally is_unique (xs ++ [x]);
     out_ambiguous := tally is_ambiguous_outcome (xs ++ [x]);
     out_unsupported := tally is_unsupported (xs ++ [x]);
     out_truncated_sites := tally is_truncated (xs ++ [x]);
     out_retained_candidates := retained_total xs + Z.of_nat (length (retained x)) |}.
Proof.
  unfold built, output_total, retained_total. rewrite map_app, !total_app. f_equal; simpl; unfold site_bytes; lia.
Qed.

Lemma push_pure_Ok xs x b :
  fits xs → Z.of_nat (length xs) < u32_max → Z.of_nat (length (set_candidates x.2)) ≤ u32_max →
  push_pure (built xs) x = Ok b ↔ fits (xs ++ [x]) ∧ b = built (xs ++ [x]).
Proof using wf.
  intros [Ho Hr] Hl Hc. rewrite fits_snoc, built_snoc. unfold push_pure, u32_of_len.
  rewrite checked_in by lia. rstep.
  pose proof (retained_total_nonneg xs). pose proof (output_total_nonneg xs).
  destruct wf as [_ _ _ Ht _ Hm]. unfold MAX_TOTAL_CANDIDATES, MAX_OUTPUT_BYTES, RESOLUTION_OUTPUT_BYTES in *.
  assert (Z.of_nat (length (retained x)) ≤ u32_max) as Hrx by (unfold retained; rewrite length_take; lia).
  unfold len_u64, u64_of_len, u64_checked_add. cbn [out_retained_candidates built].
  rewrite checked_in by (unfold u32_max, u64_max in *; lia). rstep.
  rewrite checked_in by (unfold u32_max, u64_max in *; lia). rstep.
  unfold reject_if. destruct (Z.ltb_spec (max_total_candidates limits) (retained_total xs + Z.of_nat (length (retained x))));
    rstep; [split; [done|]; lia|].
  change (out_output_bytes (built xs)) with (output_total xs).
  pose proof (len_nonneg (socc_path x.1)). pose proof (total_nonneg _ (retained x) candidate_bytes_nonneg) as Hcb.
  unfold site_bytes.
  destruct (push_path _ _ _) as [t|e] eqn:Ep; rstep.
  2:{ apply push_path_Err in Ep; [|lia|done]. split; [done|]. intros [[] _]. unfold SITE_OUTPUT_FIXED_BYTES in *. lia. }
  apply push_path_Ok in Ep as [-> Hp]; [|lia|done].
  assert (0 ≤ output_total xs + SITE_OUTPUT_FIXED_BYTES + len (socc_path x.1)
          ≤ max_resolution_output_bytes limits) as Hb by (unfold SITE_OUTPUT_FIXED_BYTES in *; lia).
  destruct (try_fold push_candidate_pure _ _) as [owned|e] eqn:Ec; rstep.
  - apply push_candidates_Ok in Ec as [-> Hf]; [|done]. rewrite counted_built by done. rstep. cbn [fst snd].
    assert ((if is_truncated x then increment (out_truncated_sites (built xs)) else Ok (out_truncated_sites (built xs)))
            = Ok (tally is_truncated (xs ++ [x]))) as ->.
    { simpl. destruct (is_truncated x) eqn:Et; [by apply tally_increment|by rewrite tally_keep]. }
    rstep. split; [intros [= <-]|by intros [_ ->]]. split; [split; lia|]. done.
  - split; [done|]. intros [[Hx _] _]. destruct (push_candidates_Ok _ [] (retained x) (output_total xs + SITE_OUTPUT_FIXED_BYTES + len (socc_path x.1) + total candidate_bytes (retained x), map resolution_candidate (retained x)) Hb) as [_ Hi].
    rewrite Hi in Ec; [done|]. split; [done|lia].
Qed.

(** *** All sites *)

Lemma push_all_Ok (xs ys : list Resolved) b :
  fits xs → Z.of_nat (length (xs ++ ys)) ≤ u32_max →
  Forall (λ x, Z.of_nat (length (set_candidates x.2)) ≤ u32_max) ys →
  try_fold push_pure (built xs) ys = Ok b ↔ fits (xs ++ ys) ∧ b = built (xs ++ ys).
Proof using wf.
  revert xs. induction ys as [|y ys IH]; intros xs Hf Hl Hc.
  - rewrite app_nil_r. simpl. split; [by intros [= <-]|by intros [_ ->]].
  - rewrite Forall_cons in Hc. destruct Hc as [Hy Hc]. cbn [try_fold].
    rewrite length_app in Hl. cbn [length] in Hl.
    destruct (push_pure (built xs) y) as [b1|e] eqn:Ep; rstep.
    + apply push_pure_Ok in Ep as [Hf1 ->]; [|done|lia|done].
      rewrite IH; [by rewrite <- app_assoc|done| |done]. rewrite !length_app. simpl. lia.
    + split; [done|]. intros [Hf1 _]. change (y :: ys) with ([y] ++ ys) in Hf1. rewrite app_assoc in Hf1.
      apply fits_app in Hf1.
      rewrite (proj2 (push_pure_Ok xs y (built (xs ++ [y])) Hf ltac:(lia) Hy)) in Ep; [done|]. done.
Qed.

Lemma steady_push_candidate acc c : steady (push_candidate limits acc c).
Proof. unfold push_candidate. solve_steady. Qed.
Hint Resolve steady_push_candidate : steady.

Lemma steady_output_push b site cs : steady (output_push limits b site cs).
Proof.
  unfold output_push. solve_steady.
Qed.
End output.
#[export] Hint Resolve steady_output_push : steady.

(** ** The complete result *)

Definition resolved_sites (definitions : list RustGraphDefinitionOccurrence) (sites : list RustGraphSiteOccurrence)
    : list Resolved :=
  map (λ s, (s, ref_site (sorted_definitions definitions) (sorted_sites sites) s)) (sorted_sites sites).

Definition reference_resolution (limits : RustGraphResolutionLimits)
    (definitions : list RustGraphDefinitionOccurrence) (sites : list RustGraphSiteOccurrence) : RustGraphResolution :=
  let xs := resolved_sites definitions sites in
  {| resolution_outcomes := map (resolution_of limits) xs;
     resolution_coverage :=
       {| cov_definitions := Z.of_nat (length definitions); cov_sites := Z.of_nat (length sites);
          cov_unresolved := tally (is_unresolved limits) xs; cov_unique := tally (is_unique limits) xs;
          cov_ambiguous := tally (is_ambiguous_outcome limits) xs;
          cov_unsupported := tally (is_unsupported limits) xs;
          cov_truncated_sites := tally (is_truncated limits) xs;
          cov_retained_candidates := retained_total limits xs |};
     resolution_input_text_bytes := input_text definitions sites;
     resolution_output_bytes := output_total limits xs |}.

Lemma distinct_sorted ds : distinct ds → distinct (sorted_definitions ds).
Proof. unfold distinct, sorted_definitions. by rewrite sort_by_perm. Qed.

Lemma listing_length ds supp L :
  listing supp L → (∀ d ev, supp d ev → d ∈ ds) → (length L ≤ length ds)%nat.
Proof.
  intros [Hk Hin] Hs. assert (NoDup (map fst L)) as Hnd.
  { apply (NoDup_fmap_1 definition_identity). apply bset_wf_NoDup in Hk.
    change (NoDup (map definition_identity (map fst L))). by rewrite map_map. }
  assert (length L = length (map fst L)) as -> by (symmetry; apply length_map). apply submseteq_length, NoDup_submseteq; [exact Hnd|].
  intros d ([d' ev] & -> & Hd)%list_elem_of_fmap. apply Hin in Hd as [Hd _]. by apply (Hs d' ev).
Qed.

(** The resolver without its control. *)
Definition finished (definitions sites : nat) (text : Z) (b : OutputBuilder) : RustGraphResolution :=
  {| resolution_outcomes := out_outcomes b;
     resolution_coverage :=
       {| cov_definitions := Z.of_nat definitions; cov_sites := Z.of_nat sites;
          cov_unresolved := out_unresolved b; cov_unique := out_unique b; cov_ambiguous := out_ambiguous b;
          cov_unsupported := out_unsupported b; cov_truncated_sites := out_truncated_sites b;
          cov_retained_candidates := out_retained_candidates b |};
     resolution_input_text_bytes := text;
     resolution_output_bytes := out_output_bytes b |}.

Definition resolve_pure (limits : RustGraphResolutionLimits) (definitions : list RustGraphDefinitionOccurrence)
    (sites : list RustGraphSiteOccurrence) : result RustGraphResolutionError RustGraphResolution :=
  admitted ← admit_pure limits definitions sites;
  if max_resolution_output_bytes limits <? RESOLUTION_OUTPUT_BYTES then Err ResolutionOutputLimitExceeded
  else b ← try_fold (push_pure limits) (built limits []) (resolved_sites definitions sites);
       Ok (finished (length definitions) (length sites) (input_text_bytes admitted) b).

Lemma admissible_u32 limits definitions sites :
  limits_wf limits → admissible limits definitions sites →
  Z.of_nat (length definitions) ≤ u32_max ∧ Z.of_nat (length sites) ≤ u32_max.
Proof.
  intros [W1 W2 _ _ _ _] [H1 H2 _ _ _ _]. unfold MAX_DEFINITIONS, MAX_SITES, u32_max in *. lia.
Qed.

Lemma evals_push_sites limits definitions sites b ss :
  evals (ctl_fold (λ output site,
           check;; candidates ← resolve_site site (index_of definitions) (imports_of sites);
           output_push limits output site candidates) b ss)
    (try_fold (push_pure limits) b (map (λ s, (s, ref_site definitions sites s)) ss)).
Proof.
  revert b. induction ss as [|s ss IH]; intros b; [apply evals_ret|]. cbn [ctl_fold map try_fold].
  apply evals_mbind; [|apply IH]. apply evals_check_bind. eapply evals_bind; [apply evals_resolve_site|].
  apply (evals_output_push limits b (s, _)).
Qed.

Lemma evals_resolve limits definitions sites :
  limits_wf limits →
  evals (resolve_rust_graph_sites definitions sites limits) (resolve_pure limits definitions sites).
Proof.
  intros Hwf. unfold resolve_rust_graph_sites, resolve_pure. apply evals_check_bind.
  destruct (admit_pure limits definitions sites) as [a|e] eqn:Ea; rstep.
  2:{ apply evals_bind_Err. rewrite <- Ea. apply evals_admit. }
  eapply evals_bind; [rewrite <- Ea; apply evals_admit|].
  apply (admit_pure_Ok limits Hwf) in Ea as [Hadm ->].
  destruct (admissible_u32 _ _ _ Hwf Hadm) as [Hd Hs].
  eapply evals_bind; [apply evals_definition_index|]. eapply evals_bind; [apply evals_import_index|].
  unfold output_new. destruct (_ <? _); [apply evals_bind_Err, evals_lift|].
  eapply evals_bind; [apply (evals_lift (Ok (built limits [])))|].
  apply evals_mbind; [apply evals_push_sites|].
  intros b. apply evals_check_bind. unfold output_finish. apply evals_check_bind. unfold u32_of_len.
  rewrite !checked_in by lia. eapply evals_bind; [apply evals_lift|].
  eapply evals_bind; [apply evals_lift|]. apply evals_ret.
Qed.

Lemma steady_resolve definitions sites limits : steady (resolve_rust_graph_sites definitions sites limits).
Proof.
  unfold resolve_rust_graph_sites, build_definition_index, build_import_index, output_finish. solve_steady.
Qed.

Lemma candidate_counts definitions sites :
  distinct definitions → Z.of_nat (length definitions) ≤ u32_max →
  Forall (λ x : Resolved, Z.of_nat (length (set_candidates x.2)) ≤ u32_max) (resolved_sites definitions sites).
Proof.
  intros Hd Hl. rewrite Forall_forall. intros x (s & -> & _)%list_elem_of_fmap. cbn [snd].
  pose proof (listing_length (sorted_definitions definitions) _ _
    (site_listing (sorted_definitions definitions) (sorted_sites sites) s (distinct_sorted _ Hd))
    (supports_definition _ _ _)) as Hll.
  assert (length (sorted_definitions definitions) = length definitions) as Hld by apply length_sort_by. lia.
Qed.

(** The resolver succeeds exactly on admissible inputs whose result fits the limits, with the
    reference result. *)
Lemma resolution_exact limits definitions sites r :
  limits_wf limits →
  run never (resolve_rust_graph_sites definitions sites limits) = Ok r ↔
  admissible limits definitions sites ∧ fits limits (resolved_sites definitions sites)
  ∧ r = reference_resolution limits definitions sites.
Proof.
  intros Hwf. rewrite (evals_run _ _ (evals_resolve limits definitions sites Hwf)). unfold resolve_pure.
  destruct (admit_pure limits definitions sites) as [a|e] eqn:Ea; rstep.
  2:{ split; [done|]. intros (Hadm & _ & _).
      by rewrite (proj2 (admit_pure_Ok limits Hwf definitions sites _) (conj Hadm eq_refl)) in Ea. }
  apply (admit_pure_Ok limits Hwf) in Ea as [Hadm ->].
  destruct (admissible_u32 _ _ _ Hwf Hadm) as [Hd Hs].
  set (xs := resolved_sites definitions sites).
  assert (fits limits [] ↔ RESOLUTION_OUTPUT_BYTES ≤ max_resolution_output_bytes limits) as Hf0.
  { unfold fits, output_total, retained_total. simpl. destruct Hwf. lia. }
  destruct (Z.ltb_spec (max_resolution_output_bytes limits) RESOLUTION_OUTPUT_BYTES) as [Hlt|Hge].
  { split; [done|]. intros (_ & Hf & _). apply (fits_app limits []), Hf0 in Hf. lia. }
  assert (length xs = length sites) as Hlx.
  { unfold xs, resolved_sites. rewrite length_map. apply length_sort_by. }
  pose proof (λ b, push_all_Ok limits Hwf [] xs b (proj2 Hf0 Hge) ltac:(rewrite app_nil_l, Hlx; lia)
    (candidate_counts definitions sites (adm_distinct _ _ _ Hadm) Hd)) as Hall.
  destruct (try_fold _ _ xs) as [b|e]; rstep.
  - destruct (proj1 (Hall b) eq_refl) as [Hf ->]. split; [intros [= <-]; done|]. by intros (_ & _ & ->).
  - split; [done|]. intros (_ & Hf & _). discriminate (proj2 (Hall (built limits xs)) (conj Hf eq_refl)).
Qed.
