(* ===== verification/ResolverTheorems.v ===== *)
(** * Theorems on the resolver

    What a complete resolution says of the program it describes: each site's outcome is
    the one its support dictates, candidates are admitted definitions of the right kind and
    slot, the cardinalities are those the traversal accepts, the coverage adds up, the
    limits are exact and the order of the input is irrelevant. *)

From Stdlib Require Import ZArith Lia ZifyBool.
From Stdlib Require Import Strings.Byte.
From stdpp Require Import base numbers sorting list.
From S2P Require Import Prelude Ordering GraphIdentity ResolutionSyntax SymbolFacts GraphSites Resolver ResolverReference ResolverProperties ResolverResult.

Open Scope Z_scope.

(** ** Support does not depend on the order *)

Section perm.
Context (ds ds' : list RustGraphDefinitionOccurrence) (ss ss' : list RustGraphSiteOccurrence).
Context (Hd : ds ≡ₚ ds') (Hs : ss ≡ₚ ss').

Lemma existsb_perm {A} (t : A → bool) xs ys : xs ≡ₚ ys → existsb t xs = existsb t ys.
Proof.
  induction 1; simpl; [done|congruence| |congruence]. by rewrite !orb_assoc, (orb_comm (t x)).
Qed.

Lemma module_scope_perm site : ref_reference_module_scope ds site = ref_reference_module_scope ds' site.
Proof using Hd.
  assert (∀ fuel p, ref_module_scope ds fuel site p = ref_module_scope ds' fuel site p) as Hf.
  { induction fuel as [|fuel IH]; intros [p|]; [done..| |done]. cbn [ref_module_scope].
    by rewrite IH, (existsb_perm _ _ _ Hd). }
  unfold ref_reference_module_scope. destruct (raw_enclosing_definition _); [|done]. by rewrite Hf.
Qed.

Lemma matches_path_perm q slot el d : matches_path ds q slot el d ↔ matches_path ds' q slot el d.
Proof using Hd. unfold matches_path. by rewrite Hd. Qed.

Lemma nearest_perm site names el d : nearest ds site names el d ↔ nearest ds' site names el d.
Proof using Hd. unfold nearest. by setoid_rewrite matches_path_perm. Qed.

Lemma imported_perm site name el d : imported ds ss site name el d ↔ imported ds' ss' site name el d.
Proof using Hd Hs.
  unfold imported. setoid_rewrite matches_path_perm. setoid_rewrite Hs. by rewrite module_scope_perm.
Qed.

Lemma supports_perm_1 site d ev : supports ds ss site d ev → supports ds' ss' site d ev.
Proof using Hd Hs.
  intros [? ? ? Hm|? ? ? ? ? ? Hm|? ? ? ? ? ? Hm|? ? ? ? ? ? Hm|? ? ? ? ? ? H1 H2 H3 H4 H5].
  - eapply support_import; [done..|]. by apply matches_path_perm.
  - eapply support_qualified; [done..|]. by apply matches_path_perm.
  - eapply support_lexical; [done..|]. by apply nearest_perm.
  - eapply support_imported; [done..|]. by apply imported_perm.
  - eapply support_name; [done..| | | |done|done].
    + intros d' Hn. by apply (H1 d'), nearest_perm.
    + intros d' Hn. by apply (H2 d'), imported_perm.
    + by rewrite <- Hd.
Qed.

Lemma method_exists_perm_1 site target : method_exists ds site target → method_exists ds' site target.
Proof using Hd. unfold method_exists. by setoid_rewrite Hd. Qed.
End perm.

Lemma supports_perm ds ds' ss ss' site d ev :
  ds ≡ₚ ds' → ss ≡ₚ ss' → supports ds ss site d ev ↔ supports ds' ss' site d ev.
Proof. intros Hd Hs. split; by apply supports_perm_1. Qed.

Lemma method_exists_perm ds ds' site target :
  ds ≡ₚ ds' → method_exists ds site target ↔ method_exists ds' site target.
Proof. intros Hd. split; by apply method_exists_perm_1. Qed.

Lemma reason_perm ds ds' site reason : ds ≡ₚ ds' → reason_of ds site reason → reason_of ds' site reason.
Proof.
  intros Hd. pose proof (λ t, method_exists_perm ds ds' site t Hd) as Hm. unfold reason_of.
  destruct reason; try tauto.
  - intros [H|(t & el & H1 & H2 & H3)]; [by left|right]. exists t, el. split_and!; [done..|].
    intros He Hx. by apply (H3 He), Hm.
  - rewrite Hm. tauto.
Qed.

Lemma listing_iff supp supp' L : (∀ d ev, supp d ev ↔ supp' d ev) → listing supp L → listing supp' L.
Proof. intros He [Hk Hin]. split; [done|]. intros d ev. rewrite Hin. by setoid_rewrite He. Qed.

(** ** What the outcome of one site says *)

(** The listing of the supporting definitions decides the outcome. *)
Definition site_outcome (limits : RustGraphResolutionLimits) (ds : list RustGraphDefinitionOccurrence)
    (ss : list RustGraphSiteOccurrence) (s : RustGraphSiteOccurrence) (o : RustGraphSiteResolution) : Prop :=
  ∃ L, listing (supports ds ss s) L
    ∧ resolved_site o = site_identity s
    ∧ candidate_count o = Z.of_nat (length L)
    ∧ candidates_truncated o = (max_candidates_per_site limits <? Z.of_nat (length L))
    ∧ match resolved_outcome o with
      | Unresolved reason => L = [] ∧ reason_of ds s reason
      | UniqueOutcome c => ∃ x, L = [x] ∧ c = resolution_candidate x
      | AmbiguousOutcome cs =>
          (2 ≤ length L)%nat
          ∧ cs = map resolution_candidate (take (Z.to_nat (max_candidates_per_site limits)) L)
      end.

Lemma resolution_of_outcome limits ds ss s :
  limits_wf limits → distinct ds →
  site_outcome limits ds ss s
    (resolution_of limits (s, ref_site (sorted_definitions ds) (sorted_sites ss) s)).
Proof.
  intros [_ _ Hp _ _ _] Hd. set (x := ref_site _ _ s).
  exists (set_candidates x).
  split.
  { apply (listing_iff (supports (sorted_definitions ds) (sorted_sites ss) s)).
    - intros d ev. apply supports_perm; apply sort_by_perm.
    - apply site_listing. by apply distinct_sorted. }
  split_and!; [done..|]. unfold resolution_of, outcome_of, retained, is_truncated.
  cbn [resolved_outcome fst snd].
  destruct (set_candidates x) as [|c1 [|c2 cs]] eqn:E.
  - rewrite take_nil. cbn [map]. split; [done|].
    apply (reason_perm (sorted_definitions ds)); [apply sort_by_perm|]. by apply (site_reason _ (sorted_sites ss)).
  - destruct (Z.to_nat (max_candidates_per_site limits)) as [|n] eqn:En; [lia|].
    cbn [take map]. rewrite take_nil. cbn [map length].
    replace (max_candidates_per_site limits <? Z.of_nat 1) with false by lia. by exists c1.
  - destruct (Z.to_nat (max_candidates_per_site limits)) as [|[|n]] eqn:En; [lia|lia|].
    cbn [take map]. split; [simpl; lia|done].
Qed.

Lemma resolution_outcomes_spec limits ds ss r :
  limits_wf limits → run never (resolve_rust_graph_sites ds ss limits) = Ok r →
  Forall2 (site_outcome limits ds ss) (sorted_sites ss) (resolution_outcomes r).
Proof.
  intros Hwf Hr. apply (resolution_exact limits ds ss r Hwf) in Hr as (Hadm & _ & ->).
  simpl. unfold resolved_sites. rewrite map_map, Forall2_fmap_r. apply Forall_Forall2_diag.
  rewrite Forall_forall. intros s _. apply resolution_of_outcome; [done|]. apply Hadm.
Qed.

Lemma run_never_of o limits ds ss r :
  run o (resolve_rust_graph_sites ds ss limits) = Ok r → run never (resolve_rust_graph_sites ds ss limits) = Ok r.
Proof.
  intros Hr. destruct (steady_run _ o (steady_resolve ds ss limits)) as [H|(k & e & _ & H)]; congruence.
Qed.

(** ** Theorems *)

(** C4: When a resolution returns, whatever the control did, it reports one outcome per site, in the
    order of the sites' identities, and each is dictated by the definitions that support the site:
    their listing, once each with the strongest evidence and in order of identity, is counted
    exactly; empty means unresolved, for a reason that holds; a single definition is the unique
    candidate; several are ambiguous, and the least of them up to the limit are reported. *)
Theorem resolution_refines_support limits ds ss o r :
  limits_wf limits → run o (resolve_rust_graph_sites ds ss limits) = Ok r →
  Forall2 (site_outcome limits ds ss) (sorted_sites ss) (resolution_outcomes r).
Proof. intros Hwf Hr%run_never_of. by apply resolution_outcomes_spec. Qed.

(** C5: The resolver returns, unless its control stops it, exactly when the definitions and sites are
    within their counts and text limit, no identity occurs twice, every target lies inside its
    occurrence, and the candidates and output bytes of the full result fit: no limit is off by one
    and no intermediate overflow refuses an input whose result is within the limits. *)
Theorem resolution_succeeds_exactly limits ds ss :
  limits_wf limits →
  (∃ r, run never (resolve_rust_graph_sites ds ss limits) = Ok r) ↔
  (Z.of_nat (length ds) ≤ max_definitions limits ∧ Z.of_nat (length ss) ≤ max_sites limits
   ∧ Forall target_nested ss ∧ input_text ds ss ≤ max_input_text_bytes limits
   ∧ NoDup (map definition_key ds) ∧ NoDup (map site_key ss)
   ∧ output_total limits (resolved_sites ds ss) ≤ max_resolution_output_bytes limits
   ∧ retained_total limits (resolved_sites ds ss) ≤ max_total_candidates limits).
Proof.
  intros Hwf. split.
  - intros (r & Hr). apply (resolution_exact limits ds ss r Hwf) in Hr as ([] & [] & _). tauto.
  - intros (? & ? & ? & ? & ? & ? & ? & ?). eexists. apply (resolution_exact _ _ _ _ Hwf).
    split; [by constructor|]. by split.
Qed.

(** C6: The result does not depend on the order in which definitions and sites are supplied. *)
Theorem resolution_order_independent limits ds ds' ss ss' o r :
  limits_wf limits → ds ≡ₚ ds' → ss ≡ₚ ss' →
  run o (resolve_rust_graph_sites ds ss limits) = Ok r →
  run never (resolve_rust_graph_sites ds' ss' limits) = Ok r.
Proof.
  intros Hwf Hd Hs Hr%run_never_of. apply (resolution_exact _ _ _ _ Hwf) in Hr as (Hadm & Hf & ->).
  destruct Hadm as [A1 A2 A3 A4 A5 A6].
  assert (sorted_definitions ds = sorted_definitions ds') as Ed.
  { apply (sorted_perm_unique definition_ordering).
    - unfold sorted_definitions. by rewrite !sort_by_perm.
    - intros x y. unfold sorted_definitions. rewrite !elem_of_sort_by, definition_ordering_identity.
      intros Hx Hy Heq%cmp_eq%definition_key_identity. by apply (NoDup_key_inj definition_key ds).
    - apply sort_by_sorted, _.
    - apply sort_by_sorted, _. }
  assert (sorted_sites ss = sorted_sites ss') as Es.
  { apply (sorted_perm_unique site_ordering).
    - unfold sorted_sites. by rewrite !sort_by_perm.
    - intros x y. unfold sorted_sites. rewrite !elem_of_sort_by, site_ordering_identity.
      intros Hx Hy Heq%cmp_eq. apply (NoDup_key_inj site_key ss); [done..|].
      unfold site_identity, site_key in *. congruence.
    - apply sort_by_sorted, _.
    - apply sort_by_sorted, _. }
  assert (resolved_sites ds ss = resolved_sites ds' ss') as Er by (unfold resolved_sites; by rewrite Ed, Es).
  assert (input_text ds ss = input_text ds' ss') as Et.
  { unfold input_text. by rewrite (total_perm _ _ _ Hd), (total_perm _ _ _ Hs). }
  apply (resolution_exact _ _ _ _ Hwf). split; [|split].
  - constructor; [by rewrite <- Hd|by rewrite <- Hs|by rewrite <- Hs|by rewrite <- Et| |by rewrite <- Hs].
    unfold distinct in *. by rewrite <- Hd.
  - by rewrite <- Er.
  - unfold reference_resolution. by rewrite Er, Et, (Permutation_length Hd), (Permutation_length Hs).
Qed.

(** The coverage of a resolution adds up: it counts the supplied definitions and sites, every site
    is exactly one of unresolved, unique and ambiguous, unsupported sites are among the unresolved and
    truncated ones among the ambiguous, and the retained candidates are those of the outcomes. *)
Theorem resolution_coverage_exact limits ds ss o r :
  limits_wf limits → run o (resolve_rust_graph_sites ds ss limits) = Ok r →
  cov_definitions (resolution_coverage r) = Z.of_nat (length ds)
  ∧ cov_sites (resolution_coverage r) = Z.of_nat (length ss)
  ∧ length (resolution_outcomes r) = length ss
  ∧ cov_unresolved (resolution_coverage r) + cov_unique (resolution_coverage r)
    + cov_ambiguous (resolution_coverage r) = cov_sites (resolution_coverage r)
  ∧ 0 ≤ cov_unsupported (resolution_coverage r) ≤ cov_unresolved (resolution_coverage r)
  ∧ 0 ≤ cov_truncated_sites (resolution_coverage r) ≤ cov_ambiguous (resolution_coverage r)
  ∧ cov_retained_candidates (resolution_coverage r)
    = total (λ x, match resolved_outcome x with
                  | Unresolved _ => 0 | UniqueOutcome _ => 1 | AmbiguousOutcome cs => Z.of_nat (length cs) end)
        (resolution_outcomes r).
Proof.
  intros Hwf Hr%run_never_of. apply (resolution_exact _ _ _ _ Hwf) in Hr as (_ & _ & ->). simpl.
  assert (length (resolved_sites ds ss) = length ss) as Hl.
  { unfold resolved_sites. rewrite length_map. apply length_sort_by. }
  split; [done|]. split; [done|]. rewrite length_map, Hl. split; [done|]. rewrite <- Hl. clear Hl.
  destruct Hwf as [_ _ Hp _ _ _].
  assert (∀ x, (is_truncated limits x = true → is_ambiguous_outcome limits x = true)
    ∧ Z.of_nat (length (retained limits x)) = match outcome_of limits x with
        Unresolved _ => 0 | UniqueOutcome _ => 1 | AmbiguousOutcome cs => Z.of_nat (length cs) end) as Hx.
  { intros x. unfold is_truncated, is_ambiguous_outcome, outcome_of, retained, is_truncated.
    destruct (set_candidates x.2) as [|c1 [|c2 cs]].
    - rewrite take_nil. simpl. split; [lia|done].
    - destruct (Z.to_nat (max_candidates_per_site limits)) as [|n] eqn:En; [lia|]. cbn [take map length].
      rewrite take_nil. replace (max_candidates_per_site limits <? Z.of_nat 1) with false by lia. by split.
    - destruct (Z.to_nat (max_candidates_per_site limits)) as [|[|n]] eqn:En; [lia|lia|].
      cbn [take map]. split; [done|]. simpl. by rewrite length_map. }
  unfold tally, retained_total. induction (resolved_sites ds ss) as [|x xs IH]; simpl; [done|].
  destruct IH as (IH1 & IH2 & IH3 & IH4), (Hx x) as [Ht Hr]. rewrite IH4, Hr.
  unfold is_ambiguous_outcome, is_unresolved, is_unique, is_unsupported in *.
  destruct (outcome_of limits x), (is_truncated limits x); try discriminate (Ht eq_refl);
    try case_bool_decide; simpl in *; lia.
Qed.

(** Every outcome's cardinality is one the graph traversal accepts: an unresolved site counts no
    candidate, a unique one exactly one, and an ambiguous one passes the constructor of ambiguous
    relationships with its total, its retained candidates and its truncation. *)
Theorem resolution_cardinality limits ds ss o r x :
  limits_wf limits → run o (resolve_rust_graph_sites ds ss limits) = Ok r →
  x ∈ resolution_outcomes r →
  match resolved_outcome x with
  | Unresolved _ => candidate_count x = 0 ∧ candidates_truncated x = false
  | UniqueOutcome _ => candidate_count x = 1 ∧ candidates_truncated x = false
  | AmbiguousOutcome cs =>
      try_ambiguous (candidate_count x) (Z.of_nat (length cs)) (candidates_truncated x)
      = Ok (Ambiguous (candidate_count x) (Z.of_nat (length cs)) (candidates_truncated x))
  end.
Proof.
  intros Hwf Hr%run_never_of Hx. apply (resolution_outcomes_spec _ _ _ _ Hwf) in Hr.
  apply list_elem_of_lookup in Hx as [i Hx].
  destruct (Forall2_lookup_r _ _ _ _ _ Hr Hx) as (s & _ & L & _ & _ & Hc & Ht & Ho).
  destruct Hwf as [_ _ Hp _ _ _]. rewrite Hc, Ht. destruct (resolved_outcome x) as [reason|c|cs].
  - destruct Ho as [-> _]. simpl. split; [done|lia].
  - destruct Ho as (c' & -> & _). simpl. split; [done|lia].
  - destruct Ho as [Hl ->]. unfold try_ambiguous. rewrite length_map, length_take.
    set (n := length L) in *. set (m := max_candidates_per_site limits) in *.
    replace (Z.of_nat (Z.to_nat m `min` n)) with (Z.min m (Z.of_nat n)) by lia.
    replace (negb (Bool.eqb _ _)) with false; [|destruct (Z.ltb_spec m (Z.of_nat n)), (Z.ltb_spec (Z.min m (Z.of_nat n)) (Z.of_nat n)); simpl; lia].
    rewrite (proj2 (Z.ltb_ge _ _)) by lia. rewrite (proj2 (Z.ltb_ge _ _)) by lia.
    by rewrite (proj2 (Z.ltb_ge _ _)) by lia.
Qed.

(** The candidates an outcome reports. *)
Definition outcome_candidates (x : RustGraphResolutionOutcome) : list RustGraphResolutionCandidate :=
  match x with Unresolved _ => [] | UniqueOutcome c => [c] | AmbiguousOutcome cs => cs end.

Lemma is_eligible_function d : is_eligible d FreeFunctions = true → fact_kind (occ_fact d) = Function.
Proof. apply bool_decide_eq_true. Qed.

(** No relationship is invented: every reported candidate is the identity of a supplied definition;
    the candidates of a call are free functions; macro calls and test markers have none; a lexical
    candidate is in the site's own slot, and so is a qualified one of a path that starts at the
    crate; and the exact-name heuristic, never reported as anything stronger, applies only to a site
    that no lexical scope and no import supports. *)
Theorem resolution_candidates_safe limits ds ss o r :
  limits_wf limits → run o (resolve_rust_graph_sites ds ss limits) = Ok r →
  Forall2 (λ s x, ∀ c, c ∈ outcome_candidates (resolved_outcome x) →
    ∃ d, d ∈ ds ∧ candidate_target c = definition_identity d
      ∧ (raw_kind (socc_site s) = SiteCall → def_kind (candidate_target c) = Function)
      ∧ (raw_kind (socc_site s) ≠ SiteMacroCall ∧ raw_kind (socc_site s) ≠ SiteTestMarker)
      ∧ (candidate_evidence c = LexicalSyntax → def_source_slot (candidate_target c) = socc_source_slot s)
      ∧ (candidate_evidence c = QualifiedSyntax → ∀ target el path,
           reference_of s = Some (target, el) → parse_path target = Some (path, true, false) →
           def_source_slot (candidate_target c) = socc_source_slot s)
      ∧ (candidate_evidence c = ExactNameHeuristic → ∀ d' ev, supports ds ss s d' ev → ev = ExactNameHeuristic))
    (sorted_sites ss) (resolution_outcomes r).
Proof.
  intros Hwf Hr%run_never_of. apply (resolution_outcomes_spec _ _ _ _ Hwf) in Hr.
  eapply Forall2_impl; [exact Hr|]. clear. intros s x (L & [_ Hin] & _ & _ & _ & Ho) c Hc.
  assert (∃ y, y ∈ L ∧ c = resolution_candidate y) as ([d ev] & Hy & ->).
  { destruct (resolved_outcome x) as [reason|c'|cs]; simpl in Hc.
    - by apply not_elem_of_nil in Hc.
    - destruct Ho as (y & -> & ->). apply list_elem_of_singleton in Hc as ->. exists y. split; [by left|done].
    - destruct Ho as [_ ->]. apply list_elem_of_fmap in Hc as (y & -> & Hy). exists y. split; [|done].
      by apply elem_of_take in Hy as (i & ?%list_elem_of_lookup_2 & _). }
  apply Hin in Hy as [Hsup _]. exists d. split; [by eapply supports_definition|]. split; [done|].
  cbn [resolution_candidate candidate_target candidate_evidence definition_identity def_kind def_source_slot fst snd].
  assert (∀ target el, raw_kind (socc_site s) = SiteCall → reference_of s = Some (target, el) → el = FreeFunctions) as Hel.
  { intros target el Hk. unfold reference_of. rewrite Hk. destruct (is_dynamic_call _); [done|]. by intros [= _ <-]. }
  assert (∀ target el, reference_of s = Some (target, el) →
            raw_kind (socc_site s) ≠ SiteMacroCall ∧ raw_kind (socc_site s) ≠ SiteTestMarker) as Hnm.
  { intros target el. unfold reference_of. by destruct (raw_kind (socc_site s)). }
  destruct Hsup as [import Hk Hi Hm|target el path ss' Hr Hp Hm|target el name ss' Hr Hp Hm|
    target el name ss' Hr Hp Hm|target el name ss' Hr Hp H1 H2 H3 H4 H5].
  - rewrite Hk. split_and!; done.
  - destruct Hm as (Hd & Hq & Hsl & Hel'). split; [|split; [by eapply Hnm|split_and!; try done]].
    + intros Hk. rewrite (Hel _ _ Hk Hr) in Hel'. by apply is_eligible_function.
    + intros _ target' el' path' Hr' Hp'. simplify_eq. simpl in Hsl. by apply bool_decide_eq_true in Hsl.
  - destruct Hm as (before & q & after & _ & _ & Hd & Hq & Hsl & Hel').
    split; [|split; [by eapply Hnm|split_and!; try done]].
    + intros Hk. rewrite (Hel _ _ Hk Hr) in Hel'. by apply is_eligible_function.
    + intros _. by apply bool_decide_eq_true in Hsl.
  - destruct Hm as (s' & b & _ & _ & _ & _ & _ & Hd & Hq & Hsl & Hel').
    split; [|split; [by eapply Hnm|split_and!; try done]].
    intros Hk. rewrite (Hel _ _ Hk Hr) in Hel'. by apply is_eligible_function.
  - split; [|split; [by eapply Hnm|split_and!; try done]].
    + intros Hk. rewrite (Hel _ _ Hk Hr) in H5. by apply is_eligible_function.
    + intros _ d' ev [import Hk|? ? ? ? Hr' Hp'|? ? ? ? Hr' Hp' Hn|? ? ? ? Hr' Hp' Hn|]; [| | | |done].
      * unfold reference_of in Hr. by rewrite Hk in Hr.
      * simplify_eq.
      * simplify_eq. by destruct (H1 d').
      * simplify_eq. by destruct (H2 d').
Qed.

(** ** A small program *)

Module resolver_sample.
Definition sp := Build_ByteSpan.
Definition definition (o : Z) (k : RustSymbolKind) (name qualified : bytes) : RustGraphDefinitionOccurrence :=
  {| occ_source_slot := b_of "s"; occ_path := b_of "a.rs"; occ_artifact := b_of "A"; occ_fact_ordinal := o;
     occ_fact := {| fact_kind := k; fact_name := name; fact_qualified_name := qualified;
                    fact_name_span := sp 0 1; fact_declaration_span := sp 0 100; fact_correspondence := None |} |}.
Definition inside (k : RustSymbolKind) (name qualified : bytes) : option RustGraphEnclosingDefinition :=
  Some {| encl_kind := k; encl_name := name; encl_qualified_name := qualified; encl_name_span := sp 0 1;
          encl_declaration_span := sp 0 100 |}.
Definition site (o : Z) (k : RustGraphSiteKind) (target : bytes) (e : option RustGraphEnclosingDefinition)
    : RustGraphSiteOccurrence :=
  {| socc_source_slot := b_of "s"; socc_path := b_of "a.rs"; socc_artifact := b_of "A";
     socc_site := {| raw_ordinal := o; raw_kind := k; raw_evidence := DirectSyntax;
                     raw_occurrence_span := sp 0 9; raw_target_span := sp 0 9; raw_target := target;
                     raw_enclosing_definition := e |} |}.

(** [mod m { fn f(); impl T { fn g(); } }  fn f();] *)
Definition module_m := definition 0 Module_ (b_of "m") (b_of "m").
Definition inner_f := definition 1 Function (b_of "f") (b_of "m::f").
Definition outer_f := definition 2 Function (b_of "f") (b_of "f").
Definition method_g := definition 3 Method (b_of "g") (b_of "m::T::g").
Definition definitions := [outer_f; module_m; inner_f; method_g].

Definition in_h := inside Function (b_of "h") (b_of "m::h").
Definition sites :=
  [site 3 SiteCall (b_of "g") None; site 0 SiteCall (b_of "f") in_h;
   site 1 SiteImport (b_of "crate::m::f as z") None; site 2 SiteCall (b_of "z") None].

Definition result : RustGraphResolution :=
  match run never (resolve_rust_graph_sites definitions sites resolution_limits_DEFAULT) with
  | Ok r => r
  | Err _ => reference_resolution resolution_limits_DEFAULT [] []
  end.

Lemma resolved : run never (resolve_rust_graph_sites definitions sites resolution_limits_DEFAULT) = Ok result.
Proof. vm_compute. reflexivity. Qed.
End resolver_sample.
Import resolver_sample.

Example sample_outcomes :
  map resolved_outcome (resolution_outcomes result) =
  [UniqueOutcome (resolution_candidate (inner_f, LexicalSyntax));
   UniqueOutcome (resolution_candidate (inner_f, ImportSyntax));
   UniqueOutcome (resolution_candidate (inner_f, ImportSyntax));
   Unresolved DynamicOrMethodCall].
Proof. vm_compute. reflexivity. Qed.

(** A path of one component after [crate::] is looked up like a bare name: inside module [m] the
    call [crate::f()] resolves to [m::f], not to [f] at the root of the crate. *)
Lemma crate_path_resolves_in_module :
  match run never (resolve_rust_graph_sites definitions [site 0 SiteCall (b_of "crate::f") in_h]
                     resolution_limits_DEFAULT) with
  | Ok r => map resolved_outcome (resolution_outcomes r)
  | Err _ => []
  end = [UniqueOutcome (resolution_candidate (inner_f, LexicalSyntax))].
Proof. vm_compute. reflexivity. Qed.

Lemma resolution_refines_support_witness :
  Forall2 (site_outcome resolution_limits_DEFAULT definitions sites) (sorted_sites sites) (resolution_outcomes result).
Proof. exact (resolution_refines_support _ _ _ never _ resolution_limits_default_wf resolver_sample.resolved). Defined.

Lemma resolution_succeeds_exactly_witness :
  (∃ r, run never (resolve_rust_graph_sites definitions sites resolution_limits_DEFAULT) = Ok r)
  ∧ output_total resolution_limits_DEFAULT (resolved_sites definitions sites)
    ≤ max_resolution_output_bytes resolution_limits_DEFAULT.
Proof.
  assert (∃ r, run never (resolve_rust_graph_sites definitions sites resolution_limits_DEFAULT) = Ok r) as H
    by (exists result; exact resolver_sample.resolved).
  split; [exact H|]. apply (resolution_succeeds_exactly _ _ _ resolution_limits_default_wf), H.
Defined.

Lemma resolution_order_independent_witness :
  run never (resolve_rust_graph_sites [inner_f; outer_f; module_m; method_g] sites resolution_limits_DEFAULT)
  = Ok result.
Proof.
  refine (resolution_order_independent _ definitions _ sites sites never _ resolution_limits_default_wf _
            (Permutation_refl _) resolver_sample.resolved).
  symmetry. exact (Permutation_middle [outer_f; module_m] [method_g] inner_f).
Defined.

Lemma resolution_coverage_exact_witness :
  cov_unresolved (resolution_coverage result) + cov_unique (resolution_coverage result)
  + cov_ambiguous (resolution_coverage result) = cov_sites (resolution_coverage result)
  ∧ cov_unique (resolution_coverage result) = 3.
Proof.
  split; [|vm_compute; reflexivity].
  apply (resolution_coverage_exact _ _ _ never _ resolution_limits_default_wf resolver_sample.resolved).
Defined.

Definition sample_resolution : RustGraphSiteResolution :=
  resolution_of resolution_limits_DEFAULT
    (site 0 SiteCall (b_of "f") in_h, {| set_candidates := [(inner_f, LexicalSyntax)];
                                         set_unresolved_reason := NoCandidate |}).

Lemma resolution_cardinality_witness :
  candidate_count sample_resolution = 1 ∧ candidates_truncated sample_resolution = false.
Proof.
  apply (resolution_cardinality _ _ _ never _ sample_resolution resolution_limits_default_wf resolver_sample.resolved).
  vm_compute. left.
Defined.

Lemma resolution_candidates_safe_witness :
  ∃ s x, s ∈ sites ∧ x ∈ resolution_outcomes result
    ∧ resolved_outcome x = UniqueOutcome (resolution_candidate (inner_f, LexicalSyntax))
    ∧ ∃ d, d ∈ definitions ∧ definition_identity inner_f = definition_identity d.
Proof.
  pose proof (resolution_candidates_safe _ _ _ never _ resolution_limits_default_wf resolver_sample.resolved) as H.
  exists (site 0 SiteCall (b_of "f") in_h), sample_resolution.
  split; [right; left|]. split; [vm_compute; left|]. split; [vm_compute; reflexivity|].
  destruct (Forall2_lookup_lr _ _ _ 0%nat (site 0 SiteCall (b_of "f") in_h) sample_resolution H)
    with (c := resolution_candidate (inner_f, LexicalSyntax)) as (d & Hd & He & _);
    [vm_compute; reflexivity|vm_compute; reflexivity|vm_compute; left|].
  exists d. split; [exact Hd|exact He].
Defined.
