(* ===== verification/Utf8.v ===== *)
(** * UTF-8 text

    What the source uses of [std::str]: validation of bytes as UTF-8, the characters of a
    [&str] with the lengths of their encodings, and the offsets that are character
    boundaries.  A character is its Unicode scalar value; a [&str] is the list of its
    characters, and its bytes are their encodings. *)

From Stdlib Require Import ZArith Lia ZifyBool.
From Stdlib Require Import Strings.Byte.
From stdpp Require Import base numbers list.
From S2P Require Import Prelude Ordering.

Open Scope Z_scope.

Notation char := Z.
Notation str := (list char).

Definition scalar (c : char) : Prop := 0 ≤ c < 0xD800 ∨ 0xE000 ≤ c ≤ 0x10FFFF.

(** [char::len_utf8] and [char::len_utf16]. *)
Definition len_utf8 (c : char) : Z :=
  if c <? 0x80 then 1 else if c <? 0x800 then 2 else if c <? 0x10000 then 3 else 4.
Definition len_utf16 (c : char) : Z := if c <? 0x10000 then 1 else 2.

Definition encode_char (c : char) : bytes :=
  map byte_of
    (if c <? 0x80 then [c]
     else if c <? 0x800 then [0xC0 + c / 64; 0x80 + c mod 64]
     else if c <? 0x10000 then [0xE0 + c / 4096; 0x80 + (c / 64) mod 64; 0x80 + c mod 64]
     else [0xF0 + c / 262144; 0x80 + (c / 4096) mod 64; 0x80 + (c / 64) mod 64; 0x80 + c mod 64]).

Fixpoint as_bytes (s : str) : bytes :=
  match s with
  | [] => []
  | c :: s => encode_char c ++ as_bytes s
  end.

(** [str::len]. *)
Definition str_len (s : str) : Z := len (as_bytes s).

(** A byte in a range. *)
Definition between (low high : Z) (b : byte) : bool := (low <=? byte_rank b) && (byte_rank b <=? high).

(** The well-formed byte sequences of the Unicode standard (Table 3-7). *)
Definition decode_char (bs : bytes) : option (char * bytes) :=
  match bs with
  | [] => None
  | b0 :: r0 =>
      if between 0 0x7F b0 then Some (byte_rank b0, r0)
      else match r0 with
      | [] => None
      | b1 :: r1 =>
          if between 0xC2 0xDF b0 then
            if between 0x80 0xBF b1
            then Some ((byte_rank b0 - 0xC0) * 64 + (byte_rank b1 - 0x80), r1) else None
          else match r1 with
          | [] => None
          | b2 :: r2 =>
              let b1_three := if byte_rank b0 =? 0xE0 then between 0xA0 0xBF b1
                              else if byte_rank b0 =? 0xED then between 0x80 0x9F b1
                              else between 0x80 0xBF b1 in
              if between 0xE0 0xEF b0 then
                if b1_three && between 0x80 0xBF b2
                then Some ((byte_rank b0 - 0xE0) * 4096 + (byte_rank b1 - 0x80) * 64
                           + (byte_rank b2 - 0x80), r2) else None
              else match r2 with
              | [] => None
              | b3 :: r3 =>
                  let b1_four := if byte_rank b0 =? 0xF0 then between 0x90 0xBF b1
                                 else if byte_rank b0 =? 0xF4 then between 0x80 0x8F b1
                                 else between 0x80 0xBF b1 in
                  if between 0xF0 0xF4 b0 && b1_four && between 0x80 0xBF b2 && between 0x80 0xBF b3
                  then Some ((byte_rank b0 - 0xF0) * 262144 + (byte_rank b1 - 0x80) * 4096
                             + (byte_rank b2 - 0x80) * 64 + (byte_rank b3 - 0x80), r3)
                  else None
              end
          end
      end
  end.

Fixpoint decode_chars (fuel : nat) (bs : bytes) : option str :=
  match bs, fuel with
  | [], _ => Some []
  | _, O => None
  | _, S fuel =>
      '(c, rest) ← decode_char bs;
      s ← decode_chars fuel rest;
      Some (c :: s)
  end.

(** [std::str::from_utf8]: a character takes at least one byte, so the length is fuel
    enough. *)
Definition from_utf8 (bs : bytes) : option str := decode_chars (length bs) bs.

(** ** Decoding inverts encoding *)

Lemma byte_is b z : byte_rank b = z → b = byte_of z.
Proof. intros <-. by rewrite byte_of_rank. Qed.

(** Brings the ranges of the bytes in sight into the context. *)
Ltac byte_ranges :=
  repeat match goal with
  | b : byte |- _ =>
      lazymatch goal with _ : (0 ≤ byte_rank b < 256)%Z |- _ => fail | _ => pose proof (byte_rank_range b) end
  end.

Ltac split_tests :=
  repeat match goal with
  | H : context [if ?c then _ else _] |- _ => destruct c eqn:?; try discriminate H
  | H : context [match ?l with [] => _ | _ :: _ => _ end] |- _ => destruct l; try discriminate H
  end.

Lemma decode_char_sound bs c rest :
  decode_char bs = Some (c, rest) → scalar c ∧ bs = encode_char c ++ rest.
Proof.
  unfold decode_char, between. intros H. split_tests; injection H as <- <-; byte_ranges.
  all: split; [unfold scalar; lia|]. all: unfold encode_char.
  all: repeat match goal with
       | |- context [if ?x <? ?y then _ else _] => destruct (Z.ltb_spec x y); try lia
       end; simpl.
  all: repeat f_equal; apply byte_is; Z.to_euclidean_division_equations; lia.
Qed.

(** The base-64 digits of a scalar value. *)
Lemma base64_digits c :
  c = c / 64 * 64 + c mod 64 ∧ c / 64 = c / 4096 * 64 + c / 64 mod 64
  ∧ c / 4096 = c / 262144 * 64 + c / 4096 mod 64
  ∧ 0 ≤ c mod 64 < 64 ∧ 0 ≤ c / 64 mod 64 < 64 ∧ 0 ≤ c / 4096 mod 64 < 64.
Proof.
  replace (c / 262144) with (c / 4096 / 64) by (by rewrite Z.div_div).
  replace (c / 4096) with (c / 64 / 64) by (by rewrite Z.div_div).
  pose proof (Z.div_mod c 64). pose proof (Z.div_mod (c / 64) 64). pose proof (Z.div_mod (c / 64 / 64) 64).
  split_and!; try lia; apply Z.mod_pos_bound; lia.
Qed.

Lemma decode_char_complete c rest :
  scalar c → decode_char (encode_char c ++ rest) = Some (c, rest).
Proof.
  unfold encode_char, scalar. intros Hc. pose proof (base64_digits c).
  repeat match goal with |- context [if ?t then _ else _] => destruct t eqn:? end;
    cbn [map app decode_char]; unfold between; rewrite !byte_rank_of by lia.
  all: repeat match goal with
       | |- context [if ?t then _ else _] =>
           lazymatch t with
           | context [if _ then _ else _] => fail
           | _ => let E := fresh in destruct t eqn:E; try (exfalso; lia)
           end
       end.
  all: do 2 f_equal; lia.
Qed.

Lemma encode_char_length c : len (encode_char c) = len_utf8 c.
Proof.
  unfold encode_char, len_utf8, len. by repeat case_match.
Qed.

Lemma encode_char_nonempty c : (0 < length (encode_char c))%nat.
Proof. unfold encode_char. repeat case_match; simpl; lia. Qed.

Lemma decode_chars_spec fuel bs s :
  (length bs ≤ fuel)%nat → decode_chars fuel bs = Some s ↔ Forall scalar s ∧ bs = as_bytes s.
Proof.
  revert bs s. induction fuel as [|fuel IH]; intros bs s Hf.
  - destruct bs; [|simpl in Hf; lia]. destruct s as [|c s]; simpl; [by split|].
    split; [done|]. intros [_ Heq]. pose proof (encode_char_nonempty c).
    destruct (encode_char c); simpl in *; [lia|done].
  - destruct bs as [|b bs].
    { destruct s as [|c s]; simpl; [by split|]. split; [done|]. intros [_ Heq].
      pose proof (encode_char_nonempty c). destruct (encode_char c); simpl in *; [lia|done]. }
    cbn [decode_chars]. split.
    + intros H. destruct (decode_char (b :: bs)) as [[c rest]|] eqn:E; [|done]. simpl in H.
      apply decode_char_sound in E as [Hc Heq]. rewrite Heq in Hf |- *.
      destruct (decode_chars fuel rest) as [s'|] eqn:E'; [|done]. injection H as <-.
      apply IH in E' as [Hs ->].
      * split; [by constructor|done].
      * rewrite length_app in Hf. pose proof (encode_char_nonempty c). lia.
    + intros [Hs Heq]. destruct s as [|c s]; [done|]. simpl in Heq. rewrite Heq in Hf |- *.
      inversion_clear Hs as [|? ? Hc Hs']. rewrite decode_char_complete by done. simpl.
      assert (decode_chars fuel (as_bytes s) = Some s) as ->; [|done].
      apply IH; [|done]. rewrite length_app in Hf. pose proof (encode_char_nonempty c). lia.
Qed.

(** Bytes are accepted exactly when they encode scalar values, and the text is what they
    encode. *)
Lemma from_utf8_spec bs s : from_utf8 bs = Some s ↔ Forall scalar s ∧ bs = as_bytes s.
Proof. by apply decode_chars_spec. Qed.

Lemma as_bytes_app s t : as_bytes (s ++ t) = as_bytes s ++ as_bytes t.
Proof. induction s as [|c s IH]; [done|]. simpl. by rewrite IH, app_assoc. Qed.

Lemma as_bytes_inj s t : Forall scalar s → Forall scalar t → as_bytes s = as_bytes t → s = t.
Proof.
  intros Hs Ht Heq. assert (from_utf8 (as_bytes s) = Some s) as H1 by by apply from_utf8_spec.
  assert (from_utf8 (as_bytes t) = Some t) as H2 by by apply from_utf8_spec.
  rewrite Heq in H1. congruence.
Qed.

Lemma str_len_app s t : str_len (s ++ t) = str_len s + str_len t.
Proof. unfold str_len. rewrite as_bytes_app. unfold len. rewrite length_app. lia. Qed.

Lemma str_len_cons c s : str_len (c :: s) = len (encode_char c) + str_len s.
Proof. unfold str_len, len. simpl. rewrite length_app. lia. Qed.

Lemma str_len_nonneg s : 0 ≤ str_len s.
Proof. unfold str_len, len. lia. Qed.
