(* ===== verification/WireFormat.v ===== *)
(** * The Protobuf wire format of SCIP messages

    Models the readers at the end of [crates/repowitness-analysis/src/scip_wire.rs]
    ([read_varint], [read_length_delimited], [skip_exact]) and the field loop that every
    message parser of the file opens with.  The grammar of the format ([varint_of],
    [payload_at], [message_of]) is stated beside them, and the readers accept exactly it.

    A cursor is an offset into the message, a [usize]. *)

From Stdlib Require Import ZArith Lia ZifyBool.
From Stdlib Require Import Strings.Byte.
From stdpp Require Import base numbers list.
From S2P Require Import Prelude Ordering.

Open Scope Z_scope.

Inductive ScipWireError :=
| ScipInvalidLimits | InputTooLarge | Truncated | VarintOverflow | UnsupportedWireType
| FieldTooLarge | TooManyDocuments | DuplicateMetadata | MetadataNotFirst | InvalidMetadata
| UnsupportedProtocolVersion | UnsupportedTextEncoding | InvalidDocumentHeader | InvalidUtf8
| UnsupportedPositionEncoding | TooManyDocumentEntries | SourceNotInManifest
| SourceDigestMismatch | SourceNotUtf8 | InvalidSourceRange | InvalidOccurrenceRange
| InvalidOccurrence | InvalidSymbolInformation | InvalidRelationship | TooManyRelationships
| ScipCancelled | ScipDeadlineExceeded | ConsumerRejected.

#[export] Instance ScipWireError_eq_dec : EqDecision ScipWireError.
Proof. solve_decision. Defined.

Definition WIRE_VARINT : Z := 0.
Definition WIRE_FIXED64 : Z := 1.
Definition WIRE_LENGTH_DELIMITED : Z := 2.
Definition WIRE_FIXED32 : Z := 5.

(** [u32::checked_add], [usize::checked_add] on a 64-bit platform, and the narrowing
    conversions the parsers use. *)
Definition u32_checked_add (a b : Z) : option Z := checked u32_max (a + b).
Definition u32_try_from (v : Z) : option Z := checked u32_max v.

(** ** Readers *)

(** The loop over [(0..64).step_by(7)]: the first argument lists the shifts to come. *)
Fixpoint varint_loop (shifts : list Z) (input : bytes) (cursor value : Z)
    : result ScipWireError (Z * Z) :=
  match shifts with
  | [] => Err VarintOverflow
  | shift :: shifts =>
      b ← ok_or (input !! Z.to_nat cursor) Truncated;
      cursor ← ok_or (u64_checked_add cursor 1) Truncated;
      let payload := Z.land (byte_rank b) 0x7f in
      if (shift =? 63) && (1 <? payload) then Err VarintOverflow
      else
        let value := Z.lor value (Z.land (Z.shiftl payload shift) u64_max) in
        if Z.land (byte_rank b) 0x80 =? 0 then Ok (value, cursor)
        else varint_loop shifts input cursor value
  end.

Definition read_varint (input : bytes) (cursor : Z) : result ScipWireError (Z * Z) :=
  varint_loop [0; 7; 14; 21; 28; 35; 42; 49; 56; 63] input cursor 0.

Definition read_length_delimited (input : bytes) (cursor maximum : Z)
    : result ScipWireError (bytes * Z) :=
  '(length, cursor) ← read_varint input cursor;
  if maximum <? length then Err FieldTooLarge
  else
    end_ ← ok_or (u64_checked_add cursor length) Truncated;
    value ← ok_or (slice_get input cursor end_) Truncated;
    Ok (value, end_).

Definition skip_exact (input : bytes) (cursor length : Z) : result ScipWireError Z :=
  end_ ← ok_or (u64_checked_add cursor length) Truncated;
  match slice_get input cursor end_ with
  | None => Err Truncated
  | Some _ => Ok end_
  end.

(** The arms that close every [match] on a field: its payload is read and dropped. *)
Definition skip_field (maximum : Z) (input : bytes) (wire cursor : Z) : result ScipWireError Z :=
  if wire =? WIRE_VARINT then '(_, cursor) ← read_varint input cursor; Ok cursor
  else if wire =? WIRE_FIXED64 then skip_exact input cursor 8
  else if wire =? WIRE_LENGTH_DELIMITED then
    '(_, cursor) ← read_length_delimited input cursor maximum; Ok cursor
  else if wire =? WIRE_FIXED32 then skip_exact input cursor 4
  else Err UnsupportedWireType.

(** The head of a field: [tag >> 3] as [u32] and [tag & 7] as [u8]. *)
Definition read_tag (input : bytes) (cursor : Z) : result ScipWireError (Z * Z * Z) :=
  '(tag, cursor) ← read_varint input cursor;
  field ← ok_or (u32_try_from (Z.shiftr tag 3)) UnsupportedWireType;
  let wire := Z.land tag 7 in
  if field =? 0 then Err UnsupportedWireType else Ok (field, wire, cursor).

(** The [while cursor < input.len()] loop of a message parser; [step] is its [match] on
    [(field, wire)], and [wire_error] carries an error of the framing to the error type of
    the parser.  Each turn reads a tag, so the cursor advances and [length input] turns are
    enough. *)
Section loop.
Context {E S : Type} (wire_error : ScipWireError → E).
Context (input : bytes) (step : S → Z → Z → Z → ctl E (S * Z)).

Fixpoint field_loop (fuel : nat) (cursor : Z) (s : S) : ctl E S :=
  match fuel with
  | O => mret s
  | Datatypes.S fuel =>
      if cursor <? len input then
        check;;
        '(field, wire, cursor) ← lift (map_err wire_error (read_tag input cursor));
        '(s, cursor) ← step s field wire cursor;
        field_loop fuel cursor s
      else mret s
  end.

Definition message_loop (s : S) : ctl E S := field_loop (length input) 0 s.
End loop.

(** ** The grammar *)

(** Little-endian groups of seven bits, all but the last byte marked by the high bit. *)
Fixpoint varint_form (bs : bytes) : Prop :=
  match bs with
  | [] => False
  | [b] => byte_rank b < 128
  | b :: bs => 128 ≤ byte_rank b ∧ varint_form bs
  end.

Fixpoint varint_value (bs : bytes) : Z :=
  match bs with
  | [] => 0
  | b :: bs => byte_rank b mod 128 + 128 * varint_value bs
  end.

(** A varint of a 64-bit value takes at most ten bytes; shorter encodings padded with zero
    groups are varints too. *)
Definition varint_of (bs : bytes) (v : Z) : Prop :=
  varint_form bs ∧ (length bs ≤ 10)%nat ∧ v = varint_value bs ∧ v ≤ u64_max.

Inductive payload :=
| PVarint (v : Z)
| PFixed64 (bs : bytes)
| PBytes (bs : bytes)
| PFixed32 (bs : bytes).

#[export] Instance payload_eq_dec : EqDecision payload.
Proof. solve_decision. Defined.

Definition wire_type (p : payload) : Z :=
  match p with
  | PVarint _ => WIRE_VARINT
  | PFixed64 _ => WIRE_FIXED64
  | PBytes _ => WIRE_LENGTH_DELIMITED
  | PFixed32 _ => WIRE_FIXED32
  end.

Inductive payload_of : bytes → payload → Prop :=
| payload_varint bs v : varint_of bs v → payload_of bs (PVarint v)
| payload_fixed64 bs : length bs = 8%nat → payload_of bs (PFixed64 bs)
| payload_bytes pre bs : varint_of pre (len bs) → payload_of (pre ++ bs) (PBytes bs)
| payload_fixed32 bs : length bs = 4%nat → payload_of bs (PFixed32 bs).

Notation wire_field := (Z * payload)%type.

(** A message is a sequence of fields, each a tag followed by its payload. *)
Inductive message_of : bytes → list wire_field → Prop :=
| message_nil : message_of [] []
| message_cons tag bs rest field p fs :
    varint_of tag (8 * field + wire_type p) → 1 ≤ field ≤ u32_max → payload_of bs p →
    message_of rest fs → message_of (tag ++ bs ++ rest) ((field, p) :: fs).

(** The bytes [bs] of [input] between two offsets. *)
Definition seg (input : bytes) (c : Z) (bs : bytes) (c' : Z) : Prop :=
  ∃ pre post, input = pre ++ bs ++ post ∧ c = len pre ∧ c' = len pre + len bs.

Definition payload_at (input : bytes) (c : Z) (p : payload) (c' : Z) : Prop :=
  ∃ bs, seg input c bs c' ∧ payload_of bs p.

(** A slice is at most [isize::MAX] bytes long. *)
Definition slice_ok (input : bytes) : Prop := len input ≤ 9223372036854775807.

Definition within_input (input : bytes) (c : Z) : Prop := 0 ≤ c ≤ len input.

(** ** Slices *)

Lemma seg_nil input c : within_input input c → seg input c [] c.
Proof.
  intros Hc. exists (take (Z.to_nat c) input), (drop (Z.to_nat c) input).
  rewrite app_nil_l, take_drop. unfold within_input, len in *. rewrite length_take. simpl.
  split; [done|]. lia.
Qed.

Lemma seg_within input c bs c' : seg input c bs c' → within_input input c ∧ within_input input c'.
Proof.
  intros (pre & post & -> & -> & ->). unfold within_input. rewrite !len_app.
  pose proof (len_nonneg pre). pose proof (len_nonneg bs). pose proof (len_nonneg post). lia.
Qed.

Lemma seg_length input c bs c' : seg input c bs c' → c' = c + len bs.
Proof. by intros (pre & post & -> & -> & ->). Qed.

Lemma seg_app input c bs1 bs2 c' :
  seg input c (bs1 ++ bs2) c' ↔ ∃ m, seg input c bs1 m ∧ seg input m bs2 c'.
Proof.
  split.
  - intros (pre & post & -> & -> & ->). exists (len pre + len bs1). split.
    + exists pre, (bs2 ++ post). by rewrite <- !app_assoc.
    + exists (pre ++ bs1), post. rewrite !len_app, <- !app_assoc. split; [done|]. lia.
  - intros (m & (pre & post & -> & -> & ->) & (pre' & post' & Heq & Hl & ->)).
    rewrite (app_assoc pre bs1) in Heq. apply app_inj_1 in Heq as [<- ->];
      [|rewrite length_app; unfold len in *; lia].
    exists pre, post'. rewrite <- app_assoc. split_and!; [done..|]. rewrite !len_app. lia.
Qed.

Lemma seg_cons input c b bs c' :
  seg input c (b :: bs) c' ↔ input !! Z.to_nat c = Some b ∧ 0 ≤ c ∧ seg input (c + 1) bs c'.
Proof.
  change (b :: bs) with ([b] ++ bs). rewrite seg_app. split.
  - intros (m & Hb & Hbs). pose proof (seg_length _ _ _ _ Hb) as ->.
    destruct Hb as (pre & post & -> & -> & _). split_and!; [|apply len_nonneg|done].
    unfold len. rewrite Nat2Z.id, lookup_app_r, Nat.sub_diag by lia. done.
  - intros (Hb & Hc & Hbs). exists (c + 1). split; [|done].
    pose proof (take_drop_middle input (Z.to_nat c) b Hb) as Ht.
    exists (take (Z.to_nat c) input), (drop (S (Z.to_nat c)) input). split; [done|].
    apply lookup_lt_Some in Hb. unfold len. rewrite length_take. simpl. lia.
Qed.

(** The bytes read do not depend on what follows them. *)
Lemma seg_det input c bs bs' c' : seg input c bs c' → seg input c bs' c' → bs = bs'.
Proof.
  intros (pre & post & -> & -> & ->) (pre' & post' & Heq & Hl & Hl').
  apply app_inj_1 in Heq as [<- Heq]; [|unfold len in *; lia].
  apply app_inj_1 in Heq as [<- _]; [done|unfold len in *; lia].
Qed.

Lemma slice_get_seg input c c' bs :
  0 ≤ c → slice_get input c c' = Some bs ↔ seg input c bs c'.
Proof.
  intros Hc. unfold slice_get. destruct ((c <=? c') && (c' <=? len input)) eqn:E.
  - assert (c ≤ c' ∧ c' ≤ len input) as [H1 H2] by lia. clear E. split.
    + intros [= <-]. exists (take (Z.to_nat c) input), (drop (Z.to_nat c') input).
      assert (drop (Z.to_nat c') input = drop (Z.to_nat (c' - c)) (drop (Z.to_nat c) input)) as ->.
      { rewrite drop_drop. f_equal. lia. }
      rewrite !take_drop. split; [done|]. unfold len in *.
      rewrite !length_take, length_drop. lia.
    + intros (pre & post & -> & -> & ->). f_equal. unfold len.
      rewrite Nat2Z.id, drop_app_length. apply take_app_length'. lia.
  - split; [done|]. intros (pre & post & -> & -> & ->). rewrite !len_app in E.
    pose proof (len_nonneg bs). pose proof (len_nonneg post). lia.
Qed.

(** ** Varints *)

Lemma byte_payload b : Z.land (byte_rank b) 0x7f = byte_rank b mod 128.
Proof. change 0x7f with (Z.ones 7). by rewrite Z.land_ones. Qed.

Lemma byte_continues b : (Z.land (byte_rank b) 0x80 =? 0) = (byte_rank b <? 128).
Proof. by destruct b. Qed.

Lemma varint_value_nonneg bs : 0 ≤ varint_value bs.
Proof.
  induction bs as [|b bs IH]; simpl; [done|]. pose proof (Z.mod_pos_bound (byte_rank b) 128). lia.
Qed.

Lemma lor_shift v p k :
  0 ≤ k → 0 ≤ v < 2 ^ k → 0 ≤ p → p * 2 ^ k ≤ u64_max →
  Z.lor v (Z.land (Z.shiftl p k) u64_max) = v + p * 2 ^ k.
Proof.
  intros Hk Hv Hp Hmax. rewrite Z.shiftl_mul_pow2 by done.
  change u64_max with (Z.ones 64). rewrite Z.land_ones by done.
  rewrite (Z.mod_small (p * 2 ^ k)) by (change (2 ^ 64) with (u64_max + 1); nia).
  assert (Z.land v (p * 2 ^ k) = 0) as Hland.
  { apply Z.bits_inj'. intros n Hn. rewrite Z.land_spec, Z.bits_0.
    destruct (Z.lt_ge_cases n k) as [Hlt|Hge].
    - by rewrite Z.mul_pow2_bits_low, andb_false_r.
    - replace (Z.testbit v n) with false; [done|]. symmetry. apply Z.testbit_false; [done|].
      rewrite Z.div_small; [done|]. split; [lia|].
      apply Z.lt_le_trans with (2 ^ k); [lia|]. by apply Z.pow_le_mono_r. }
  by rewrite Z.add_nocarry_lxor, Z.lxor_lor.
Qed.

(** The shifts that remain before the turn of index [i]. *)
Definition shifts_from (i : nat) : list Z := drop i [0; 7; 14; 21; 28; 35; 42; 49; 56; 63].

Lemma shifts_from_cons i : (i < 10)%nat → shifts_from i = 7 * Z.of_nat i :: shifts_from (S i).
Proof. intros Hi. do 10 (destruct i as [|i]; [done|]). lia. Qed.

Lemma varint_loop_spec i input c value v c' :
  slice_ok input → within_input input c → (i ≤ 10)%nat → 0 ≤ value < 2 ^ (7 * Z.of_nat i) →
  varint_loop (shifts_from i) input c value = Ok (v, c') ↔
  ∃ bs, seg input c bs c' ∧ varint_form bs ∧ (length bs + i ≤ 10)%nat
        ∧ v = value + varint_value bs * 2 ^ (7 * Z.of_nat i) ∧ v ≤ u64_max.
Proof.
  intros Hin. remember (10 - i)%nat as k eqn:Hk. revert i c value Hk.
  induction k as [|k IH]; intros i c value Hk Hc Hi Hval.
  - assert (i = 10)%nat as -> by lia. simpl. split; [done|].
    intros ([|b bs] & _ & Hf & Hl & _); simpl in *; [done|lia].
  - rewrite shifts_from_cons by lia. cbn [varint_loop].
    destruct (input !! Z.to_nat c) as [b|] eqn:Hb; rstep.
    2:{ split; [done|]. intros ([|b bs] & Hs & Hf & _); [done|].
        apply seg_cons in Hs as [Hs _]. congruence. }
    assert (within_input input (c + 1)) as Hc'.
    { apply lookup_lt_Some in Hb. unfold within_input, len in *. lia. }
    unfold u64_checked_add. rewrite (checked_in _ (c + 1)); rstep.
    2:{ unfold within_input, slice_ok, u64_max in *. lia. }
    rewrite byte_payload, byte_continues.
    set (p := byte_rank b mod 128). pose proof (Z.mod_pos_bound (byte_rank b) 128 ltac:(lia)) as Hp.
    fold p in Hp. pose proof (byte_rank_range b) as Hr.
    assert (2 ^ (7 * Z.of_nat (S i)) = 128 * 2 ^ (7 * Z.of_nat i)) as Hpow.
    { rewrite <- (Z.pow_add_r 2 7) by lia. f_equal. lia. }
    set (w := 2 ^ (7 * Z.of_nat i)) in *.
    assert (0 < w ∧ w ≤ 2 ^ 63 ∧ (i = 9%nat ∧ w = 2 ^ 63 ∨ i ≠ 9%nat ∧ w ≤ 2 ^ 56)) as (Hw & Hw63 & Hwi).
    { unfold w. do 10 (destruct i as [|i]; [vm_compute; intuition congruence|]). lia. }
    destruct ((7 * Z.of_nat i =? 63) && (1 <? p)) eqn:Hov.
    { split; [done|]. intros ([|b' bs] & Hs & Hf & Hl & -> & Hv); [done|].
      apply seg_cons in Hs as (Hb' & _ & _). assert (b' = b) as -> by congruence.
      cbn [varint_value] in Hv. fold p in Hv. pose proof (varint_value_nonneg bs).
      unfold u64_max in Hv. nia. }
    rewrite lor_shift by (fold w; unfold u64_max; nia). fold w.
    destruct (Z.ltb_spec (byte_rank b) 128) as [Hlast|Hmore].
    + split.
      * intros [= <- <-]. exists [b]. split_and!; [|done|simpl; lia|simpl; fold p; lia|unfold u64_max; nia].
        apply seg_cons. split_and!; [done|apply Hc|by apply seg_nil].
      * intros ([|b' [|b2 bs]] & Hs & Hf & Hl & -> & Hv); [done|..].
        -- apply seg_cons in Hs as (Hb' & _ & Hs). assert (b' = b) as -> by congruence.
           apply seg_length in Hs. simpl. fold p. do 2 f_equal; unfold len in *; simpl in *; lia.
        -- apply seg_cons in Hs as (Hb' & _ & _). assert (b' = b) as -> by congruence.
           destruct Hf as [Hf _]. lia.
    + rewrite (IH (S i)) by (done || lia || (rewrite Hpow; nia)). rewrite Hpow. split.
      * intros (bs & Hs & Hf & Hl & -> & Hv). exists (b :: bs). split_and!; [..|simpl; fold p; lia|done].
        -- apply seg_cons. by split_and!; [|apply Hc|].
        -- by destruct bs.
        -- simpl. lia.
      * intros ([|b' bs] & Hs & Hf & Hl & -> & Hv); [done|].
        apply seg_cons in Hs as (Hb' & _ & Hs). assert (b' = b) as -> by congruence.
        exists bs. simpl in Hl, Hv |- *. fold p in Hv |- *. split_and!; [done| |lia..].
        destruct bs; [simpl in Hf; lia|]. by destruct Hf.
Qed.

Lemma read_varint_spec input c v c' :
  slice_ok input → within_input input c →
  read_varint input c = Ok (v, c') ↔ ∃ bs, seg input c bs c' ∧ varint_of bs v.
Proof.
  intros Hin Hc. etrans; [apply (varint_loop_spec 0); (done || lia)|]. unfold varint_of.
  change (2 ^ (7 * Z.of_nat 0)) with 1.
  split; intros (bs & H); exists bs; rewrite ?Nat.add_0_r, ?Z.mul_1_r, ?Z.add_0_l in *; tauto.
Qed.

(** ** Payloads and tags *)

Section readers.
Context (input : bytes) (Hin : slice_ok input).

Lemma cursor_add c n :
  within_input input c → 0 ≤ n ≤ u32_max → u64_checked_add c n = Some (c + n).
Proof. intros [??] ?. apply checked_in. unfold slice_ok, u64_max, u32_max in *. lia. Qed.

(** A reader that takes [n] bytes. *)
Lemma take_bytes c n bs c' :
  within_input input c → 0 ≤ n ≤ u32_max →
  (end_ ← ok_or (u64_checked_add c n) Truncated;
   value ← ok_or (slice_get input c end_) Truncated; Ok (value, end_)) = Ok (bs, c') ↔
  seg input c bs c' ∧ len bs = n.
Proof.
  intros Hc Hn. rewrite cursor_add by done. rstep.
  destruct (slice_get input c (c + n)) as [value|] eqn:E; rstep.
  - apply slice_get_seg in E; [|apply Hc]. pose proof (seg_length _ _ _ _ E) as Hl. split.
    + intros [= <- <-]. split; [done|]. lia.
    + intros [Hs Hn']. pose proof (seg_length _ _ _ _ Hs) as ->. rewrite Hn' in Hs |- *.
      f_equal. f_equal. by eapply seg_det.
  - split; [done|]. intros [Hs <-]. pose proof (seg_length _ _ _ _ Hs) as ->.
    apply slice_get_seg in Hs; [|apply Hc]. congruence.
Qed.

Lemma read_length_delimited_spec c maximum bs c' :
  within_input input c → maximum ≤ u32_max →
  read_length_delimited input c maximum = Ok (bs, c') ↔
  payload_at input c (PBytes bs) c' ∧ len bs ≤ maximum.
Proof.
  intros Hc Hm. unfold read_length_delimited. rewrite bind_Ok. split.
  - intros ([n m] & Hv%read_varint_spec & H); [|done..]. destruct (Z.ltb_spec maximum n); [done|].
    destruct Hv as (pre & Hpre & Hv). pose proof (seg_within _ _ _ _ Hpre) as [_ Hm'].
    assert (0 ≤ n) by (destruct Hv as (_ & _ & -> & _); apply varint_value_nonneg).
    apply take_bytes in H as [Hs Hl]; [|done|lia]. split; [|lia].
    exists (pre ++ bs). split; [apply seg_app; by exists m|]. constructor. by rewrite Hl.
  - intros [(all & Hs & Hp) Hl]. inversion Hp as [| |pre bs' Hv|]; subst.
    apply seg_app in Hs as (m & Hpre & Hbs). exists (len bs, m). split.
    + apply read_varint_spec; [done..|]. by exists pre.
    + rewrite (proj2 (Z.ltb_ge _ _)) by done. pose proof (seg_within _ _ _ _ Hpre) as [_ Hm'].
      apply take_bytes; [done| |done]. pose proof (len_nonneg bs). lia.
Qed.

Lemma skip_exact_spec c n c' :
  within_input input c → 0 ≤ n ≤ u32_max →
  skip_exact input c n = Ok c' ↔ ∃ bs, seg input c bs c' ∧ len bs = n.
Proof.
  intros Hc Hn. unfold skip_exact. split.
  - intros H. destruct (ok_or (u64_checked_add c n) Truncated) as [m|] eqn:E1; [|done]. simpl in H.
    destruct (slice_get input c m) as [bs|] eqn:E2; [|done]. exists bs. apply (take_bytes c n); [done..|].
    rewrite E1. simpl. rewrite E2. simpl. congruence.
  - intros (bs & H). apply (take_bytes c n) in H; [|done..].
    destruct (ok_or (u64_checked_add c n) Truncated) as [m|]; [|done]. simpl in H |- *.
    destruct (slice_get input c m); [|done]. simpl in H. congruence.
Qed.

Lemma payload_varint_at c v c' :
  within_input input c → read_varint input c = Ok (v, c') ↔ payload_at input c (PVarint v) c'.
Proof.
  intros Hc. rewrite read_varint_spec by done. split; intros (bs & Hs & Hv); exists bs; (split; [done|]).
  - by constructor.
  - by inversion Hv.
Qed.

(** The payloads the closing arms accept. *)
Definition ignorable (maximum : Z) (p : payload) : bool :=
  match p with PBytes bs => len bs <=? maximum | _ => true end.

Lemma skip_field_spec maximum wire c c' :
  within_input input c → maximum ≤ u32_max →
  skip_field maximum input wire c = Ok c' ↔
  ∃ p, wire = wire_type p ∧ payload_at input c p c' ∧ ignorable maximum p = true.
Proof.
  intros Hc Hm. unfold skip_field.
  destruct (Z.eqb_spec wire WIRE_VARINT) as [->|H0]; [|destruct (Z.eqb_spec wire WIRE_FIXED64) as [->|H1];
    [|destruct (Z.eqb_spec wire WIRE_LENGTH_DELIMITED) as [->|H2];
      [|destruct (Z.eqb_spec wire WIRE_FIXED32) as [->|H5]]]].
  - rewrite bind_Ok. split.
    + intros ([v m] & Hv & [= <-]). exists (PVarint v). split_and!; [done| |done]. by apply payload_varint_at.
    + intros ([v| | |] & Hw & Hp & _); try done. exists (v, c'). split; [|done]. by apply payload_varint_at.
  - rewrite skip_exact_spec by done. split.
    + intros (bs & Hs & Hl). exists (PFixed64 bs). split_and!; [done| |done]. exists bs. split; [done|].
      constructor. unfold len in Hl. lia.
    + intros ([| bs| |] & Hw & (bs' & Hs & Hp) & _); try done. inversion Hp; subst. exists bs.
      unfold len. split; [done|]. lia.
  - rewrite bind_Ok. split.
    + intros ([bs m] & Hv & [= <-]). apply read_length_delimited_spec in Hv as [Hp Hl]; [|done..].
      exists (PBytes bs). split_and!; [done..|]. simpl. lia.
    + intros ([| |bs |] & Hw & Hp & Hi); try done. exists (bs, c'). split; [|done].
      apply read_length_delimited_spec; [done..|]. simpl in Hi. split; [done|]. lia.
  - rewrite skip_exact_spec by done. split.
    + intros (bs & Hs & Hl). exists (PFixed32 bs). split_and!; [done| |done]. exists bs. split; [done|].
      constructor. unfold len in Hl. lia.
    + intros ([| | |bs] & Hw & (bs' & Hs & Hp) & _); try done. inversion Hp; subst. exists bs.
      unfold len. split; [done|]. lia.
  - split; [done|]. by intros ([] & -> & _).
Qed.

Lemma wire_type_range p : 0 ≤ wire_type p < 8.
Proof. by destruct p. Qed.

(** A tag carries a positive field number and three bits of wire type. *)
Lemma read_tag_spec c field wire c' :
  within_input input c →
  read_tag input c = Ok (field, wire, c') ↔
  1 ≤ field ≤ u32_max ∧ 0 ≤ wire < 8 ∧ ∃ bs, seg input c bs c' ∧ varint_of bs (8 * field + wire).
Proof.
  intros Hc. unfold read_tag. rewrite bind_Ok. split.
  - intros ([tag m] & (bs & Hs & Hv)%read_varint_spec & H); [|done..].
    destruct (u32_try_from (Z.shiftr tag 3)) as [f|] eqn:Ef; [|done]. rstep.
    simpl in H. destruct (Z.eqb_spec f 0); [done|]. injection H as <- <- <-.
    apply checked_Some in Ef as [-> Hf]. change 7 with (Z.ones 3). rewrite Z.land_ones by done.
    rewrite Z.shiftr_div_pow2 in * by done. change (2 ^ 3) with 8 in *.
    split_and!; [Z.to_euclidean_division_equations; lia..|]. exists bs. split; [done|]. by rewrite <- Z.div_mod.
  - intros (Hf & Hw & bs & Hs & Hv). exists (8 * field + wire, c').
    split; [apply read_varint_spec; [done..|by exists bs]|].
    assert (Z.shiftr (8 * field + wire) 3 = field) as ->.
    { rewrite Z.shiftr_div_pow2 by done. change (2 ^ 3) with 8. Z.to_euclidean_division_equations; lia. }
    assert (Z.land (8 * field + wire) 7 = wire) as ->.
    { change 7 with (Z.ones 3). rewrite Z.land_ones by done. change (2 ^ 3) with 8. Z.to_euclidean_division_equations; lia. }
    unfold u32_try_from. rewrite checked_in by lia. simpl. by destruct (Z.eqb_spec field 0); [lia|].
Qed.
End readers.

(** ** Messages

    A parser's loop is described by what it has gathered from the fields seen so far, and by
    which sequences of fields it admits: it succeeds exactly on the encodings of admitted
    sequences. *)

Class FieldReader {E S} (input : bytes) (step : S → Z → Z → Z → ctl E (S * Z))
    (admits : list wire_field → bool) (gather : list wire_field → S) : Prop := {
  reader_steady s field wire c : steady (step s field wire c);
  reader_nil : admits [] = true;
  reader_prefix fs f : admits (fs ++ [f]) = true → admits fs = true;
  reader_step fs field wire c s' c' :
    within_input input c → 1 ≤ field ≤ u32_max → admits fs = true →
    run never (step (gather fs) field wire c) = Ok (s', c') ↔
    ∃ p, wire = wire_type p ∧ payload_at input c p c'
         ∧ admits (fs ++ [(field, p)]) = true ∧ s' = gather (fs ++ [(field, p)]);
}.

Lemma varint_form_nonempty bs : varint_form bs → 0 < len bs.
Proof. destruct bs; [done|]. unfold len. simpl. lia. Qed.

Section steady.
Context {E S : Type} (wire_error : ScipWireError → E).
Context (input : bytes) (step : S → Z → Z → Z → ctl E (S * Z)).
Context (Hstep : ∀ s field wire c, steady (step s field wire c)).

Lemma steady_field_loop fuel c s : steady (field_loop wire_error input step fuel c s).
Proof.
  revert c s. induction fuel as [|fuel IH]; intros c s; simpl; [apply steady_ret|].
  destruct (c <? len input); solve_steady; auto.
Qed.

Lemma steady_message_loop s : steady (message_loop wire_error input step s).
Proof. apply steady_field_loop. Qed.
End steady.

#[export] Hint Extern 1 (steady (message_loop _ _ _ _)) =>
  apply steady_message_loop; intros : steady.

Section message.
Context {E S : Type} (wire_error : ScipWireError → E).
Context (input : bytes) (step : S → Z → Z → Z → ctl E (S * Z)).
Context (admits : list wire_field → bool) (gather : list wire_field → S).
Context (Hin : slice_ok input) `{!FieldReader input step admits gather}.

Lemma admits_prefix fs fs' : admits (fs ++ fs') = true → admits fs = true.
Proof.
  induction fs' as [|f fs' IH] using rev_ind; [by rewrite app_nil_r|].
  rewrite app_assoc. intros H%reader_prefix. auto.
Qed.

Lemma field_loop_spec fuel c fs s' :
  within_input input c → len input - c ≤ Z.of_nat fuel → admits fs = true →
  run never (field_loop wire_error input step fuel c (gather fs)) = Ok s' ↔
  ∃ bs fs', seg input c bs (len input) ∧ message_of bs fs' ∧ admits (fs ++ fs') = true
            ∧ s' = gather (fs ++ fs').
Proof.
  revert c fs. induction fuel as [|fuel IH]; intros c fs Hc Hfuel Hfs.
  all: assert (c = len input → (Ok (E := E) (gather fs) = Ok s' ↔
      ∃ bs fs', seg input c bs (len input) ∧ message_of bs fs' ∧ admits (fs ++ fs') = true
                ∧ s' = gather (fs ++ fs'))) as Hend.
  1,3: intros ->; split;
    [ intros [= <-]; exists [], []; rewrite app_nil_r;
      split_and!; [by apply seg_nil|constructor|done..]
    | intros (bs & fs' & Hs & Hm & _ & ->); apply seg_length in Hs;
      destruct Hm as [|tag bs rest field p fs' (Hf%varint_form_nonempty & _)]; [by rewrite app_nil_r|];
      rewrite !len_app in Hs; pose proof (len_nonneg bs); pose proof (len_nonneg rest); lia ].
  { apply Hend. unfold within_input in Hc. lia. }
  cbn [field_loop]. destruct (Z.ltb_spec c (len input)) as [Hlt|Hge];
    [clear Hend|apply Hend; unfold within_input in Hc; lia].
  assert (∀ k s, steady (field_loop wire_error input step fuel k s)) as Hsl
    by (intros; apply steady_field_loop, reader_steady).
  assert (∀ s f w k, steady (step s f w k)) as Hss by (intros; apply reader_steady).
  rewrite run_never_check, run_never_lift_bind by (solve_steady; auto).
  rewrite bind_Ok. split.
  - intros ([[field wire] m] & Htag0 & H). apply map_err_Ok, read_tag_spec in Htag0 as (Hf & Hw & tag & Htag & Hv); [|done..].
    pose proof (seg_within _ _ _ _ Htag) as [_ Hm].
    rewrite run_never_bind in H by (solve_steady; auto).
    apply bind_Ok in H as ([s m'] & Hstep & H).
    apply reader_step in Hstep as (p & -> & (bs & Hbs & Hp) & Hok & ->); [|done..].
    pose proof (seg_within _ _ _ _ Hbs) as [_ Hm'].
    pose proof (seg_length _ _ _ _ Htag). pose proof (seg_length _ _ _ _ Hbs).
    pose proof (varint_form_nonempty _ (proj1 Hv)). pose proof (len_nonneg bs).
    apply IH in H as (rest & fs' & Hrest & Hm'' & Hok' & ->); [|done|lia|done].
    rewrite <- app_assoc in Hok' |- *. exists (tag ++ bs ++ rest), ((field, p) :: fs').
    split_and!; [|by constructor|done..].
    apply seg_app. exists m. split; [done|]. apply seg_app. by exists m'.
  - intros (all & fs' & Hs & Hm & Hok & ->).
    destruct Hm as [|tag bs rest field p fs' Hv Hf Hp Hrest].
    { apply seg_length in Hs. unfold len in *. simpl in *. lia. }
    apply seg_app in Hs as (m & Htag & Hs). apply seg_app in Hs as (m' & Hbs & Hs).
    pose proof (seg_within _ _ _ _ Htag) as [_ Hm]. pose proof (seg_within _ _ _ _ Hbs) as [_ Hm'].
    pose proof (seg_length _ _ _ _ Htag). pose proof (seg_length _ _ _ _ Hbs).
    pose proof (varint_form_nonempty _ (proj1 Hv)). pose proof (len_nonneg bs).
    assert (admits (fs ++ [(field, p)]) = true) as Hok1.
    { apply (admits_prefix _ fs'). by rewrite <- app_assoc. }
    exists (field, wire_type p, m). split.
    { apply map_err_Ok, read_tag_spec; [done..|]. pose proof (wire_type_range p). split_and!; [lia..|]. by exists tag. }
    rewrite run_never_bind by (solve_steady; auto). apply bind_Ok.
    exists (gather (fs ++ [(field, p)]), m'). split.
    { apply reader_step; [done..|]. exists p. split_and!; [done| |done..]. by exists bs. }
    apply IH; [done|lia|done|]. exists rest, fs'. rewrite <- app_assoc. done.
Qed.

Lemma message_loop_spec s' :
  run never (message_loop wire_error input step (gather [])) = Ok s' ↔
  ∃ fs, message_of input fs ∧ admits fs = true ∧ s' = gather fs.
Proof.
  unfold message_loop. rewrite field_loop_spec; [..|apply reader_nil].
  2:{ pose proof (len_nonneg input). unfold within_input. lia. }
  2:{ unfold len. lia. }
  simpl. split.
  - intros (bs & fs & Hs & Hm & Hok & ->). exists fs.
    assert (bs = input) as ->; [|done]. eapply seg_det; [done|]. exists [], [].
    by rewrite app_nil_r.
  - intros (fs & Hm & Hok & ->). exists input, fs. split; [|done]. exists [], [].
    by rewrite app_nil_r.
Qed.
End message.

(** ** The grammar is unambiguous *)

Lemma varint_prefix bs bs' rest rest' :
  varint_form bs → varint_form bs' → bs ++ rest = bs' ++ rest' → bs = bs' ∧ rest = rest'.
Proof.
  revert bs'. induction bs as [|b bs IH]; [done|]. intros [|b' bs'] Hf Hf' Heq; [done|].
  injection Heq as -> Heq. destruct bs as [|b1 bs], bs' as [|b1' bs'].
  - done.
  - simpl in Hf, Hf'. lia.
  - simpl in Hf, Hf'. lia.
  - destruct (IH (b1' :: bs') (proj2 Hf) (proj2 Hf') Heq) as [-> ->]. done.
Qed.

Lemma payload_prefix bs bs' p p' rest rest' :
  payload_of bs p → payload_of bs' p' → wire_type p = wire_type p' → bs ++ rest = bs' ++ rest' →
  p = p' ∧ rest = rest'.
Proof.
  intros Hp Hp' Hw Heq.
  destruct Hp as [bs v Hv|bs Hl|pre bs Hv|bs Hl]; destruct Hp' as [bs' v' Hv'|bs' Hl'|pre' bs' Hv'|bs' Hl'];
    try done; try destruct Hv as (Hf & _ & Hv & _); try destruct Hv' as (Hf' & _ & Hv' & _).
  - destruct (varint_prefix _ _ _ _ Hf Hf' Heq) as [-> ->]. by subst.
  - by apply app_inj_1 in Heq as [-> ->]; [|congruence].
  - rewrite <- !app_assoc in Heq. destruct (varint_prefix _ _ _ _ Hf Hf' Heq) as [-> Heq'].
    by apply app_inj_1 in Heq' as [-> ->]; [|unfold len in *; lia].
  - by apply app_inj_1 in Heq as [-> ->]; [|congruence].
Qed.

(** A message is the encoding of one sequence of fields only. *)
Lemma message_of_det input fs fs' : message_of input fs → message_of input fs' → fs = fs'.
Proof.
  intros Hm. revert fs'. induction Hm as [|tag bs rest field p fs Hv Hfield Hp Hm IH];
    intros fs' Hm'; inversion Hm' as [|tag' bs' rest' field' p' fs0 Hv' Hfield' Hp' Hm0 Heq]; subst fs'.
  - done.
  - by destruct tag'; [destruct (proj1 Hv')|].
  - by destruct tag; [destruct (proj1 Hv)|].
  - symmetry in Heq. destruct Hv as (Hf & _ & Hv & _), Hv' as (Hf' & _ & Hv' & _).
    destruct (varint_prefix _ _ _ _ Hf Hf' Heq) as [-> Heq'].
    pose proof (wire_type_range p). pose proof (wire_type_range p').
    assert (field = field' ∧ wire_type p = wire_type p') as [-> Hw] by lia.
    destruct (payload_prefix _ _ _ _ _ _ Hp Hp' Hw Heq') as [-> ->].
    f_equal. by apply IH.
Qed.

(** ** Canonical encodings *)

(** [push_varint], the encoder the tests of the source use; ten turns encode any [u64]. *)
Fixpoint push_varint (fuel : nat) (value : Z) : bytes :=
  match fuel with
  | O => []
  | S fuel =>
      if 0x80 <=? value
      then byte_of (Z.lor (Z.land value 0x7f) 0x80) :: push_varint fuel (Z.shiftr value 7)
      else [byte_of value]
  end.

Lemma push_varint_form fuel value :
  0 ≤ value < 2 ^ (7 * Z.of_nat fuel) → (0 < fuel)%nat →
  varint_form (push_varint fuel value) ∧ (length (push_varint fuel value) ≤ fuel)%nat
  ∧ varint_value (push_varint fuel value) = value.
Proof.
  revert value. induction fuel as [|fuel IH]; intros value Hv Hf; [lia|]. cbn [push_varint].
  destruct (Z.leb_spec 0x80 value) as [Hge|Hlt].
  - assert (Z.lor (Z.land value 0x7f) 0x80 = value mod 128 + 128) as ->.
    { change 0x7f with (Z.ones 7). rewrite Z.land_ones by done.
      apply (lor_shift (value mod 128) 1 7); [done| |done|done]. apply Z.mod_pos_bound. done. }
    rewrite Z.shiftr_div_pow2 by done. change (2 ^ 7) with 128.
    replace (7 * Z.of_nat (S fuel)) with (7 * Z.of_nat fuel + 7) in Hv by lia.
    rewrite Z.pow_add_r in Hv by lia. change (2 ^ 7) with 128 in Hv.
    assert (0 < fuel)%nat as Hf' by (destruct fuel; [simpl in Hv|]; lia).
    destruct (IH (value / 128)) as (IH1 & IH2 & IH3);
      [split; [apply Z.div_pos; lia|apply Z.div_lt_upper_bound; lia]|done|].
    pose proof (Z.mod_pos_bound value 128 ltac:(lia)) as Hm.
    assert (byte_rank (byte_of (value mod 128 + 128)) = value mod 128 + 128) as Hb
      by (apply byte_rank_of; lia).
    split_and!.
    + cbn [varint_form]. rewrite Hb. destruct (push_varint fuel (value / 128)) eqn:E; [done|].
      split; [lia|done].
    + simpl. lia.
    + cbn [varint_value]. rewrite IH3, Hb. Z.to_euclidean_division_equations. lia.
  - simpl. rewrite byte_rank_of by lia. rewrite Z.mod_small by lia. split_and!; lia.
Qed.

(** ** Readers of one payload *)

Section arms.
Context {S : Type} (input : bytes) (Hin : slice_ok input).

Lemma bytes_arm c maximum (update : bytes → result ScipWireError S) s' c' :
  within_input input c → maximum ≤ u32_max →
  ('(value, cursor) ← read_length_delimited input c maximum; s ← update value; Ok (s, cursor)) = Ok (s', c') ↔
  ∃ bs, payload_at input c (PBytes bs) c' ∧ len bs ≤ maximum ∧ update bs = Ok s'.
Proof.
  intros Hc Hm. rewrite bind_Ok. split.
  - intros ([bs m] & [Hp Hl]%read_length_delimited_spec & H); [|done..].
    apply bind_Ok in H as (s & Hs & [= <- <-]). eauto.
  - intros (bs & Hp & Hl & Hu). exists (bs, c'). split; [by apply read_length_delimited_spec|].
    apply bind_Ok. eauto.
Qed.

Lemma varint_arm c (update : Z → result ScipWireError S) s' c' :
  within_input input c →
  ('(value, cursor) ← read_varint input c; s ← update value; Ok (s, cursor)) = Ok (s', c') ↔
  ∃ v, payload_at input c (PVarint v) c' ∧ update v = Ok s'.
Proof.
  intros Hc. rewrite bind_Ok. split.
  - intros ([v m] & Hp%payload_varint_at & H); [|done..]. apply bind_Ok in H as (s & Hs & [= <- <-]). eauto.
  - intros (v & Hp & Hu). exists (v, c'). split; [by apply payload_varint_at|]. apply bind_Ok. eauto.
Qed.
End arms.
