(* ===== verification/SourceRange.v ===== *)
(** * Source positions of SCIP ranges

    Models the conversion of a producer's line and character position to an exact byte
    offset, [validate_scip_source_range] and its helpers in
    [crates/repowitness-analysis/src/scip_wire.rs].  A position is resolved against the
    characters of the source, whose lines end in LF or CRLF. *)

From Stdlib Require Import ZArith Lia ZifyBool.
From stdpp Require Import base numbers list.
From S2P Require Import Prelude Ordering Utf8 GraphIdentity WireFormat.

Open Scope Z_scope.

Inductive ScipWirePositionEncoding := PositionUtf8 | PositionUtf16 | PositionUtf32.

#[export] Instance position_encoding_eq_dec : EqDecision ScipWirePositionEncoding.
Proof. solve_decision. Defined.

Record ScipWireSourcePosition := {
  position_line : Z;
  position_character : Z;
}.

Record ScipWireSourceRange := {
  range_start : ScipWireSourcePosition;
  range_end : ScipWireSourcePosition;
}.

#[export] Instance position_eq_dec : EqDecision ScipWireSourcePosition.
Proof. solve_decision. Defined.
#[export] Instance range_eq_dec : EqDecision ScipWireSourceRange.
Proof. solve_decision. Defined.

Definition LF : char := 10.
Definition CR : char := 13.

(** [str::split_inclusive('\n')]. *)
Fixpoint split_inclusive (s : str) : list str :=
  match s with
  | [] => []
  | c :: s =>
      if c =? LF then [c] :: split_inclusive s
      else match split_inclusive s with
           | [] => [[c]]
           | line :: lines => (c :: line) :: lines
           end
  end.

(** [str::strip_suffix] and [str::ends_with]. *)
Definition strip_str_suffix (suffix s : str) : option str :=
  let n := (length s - length suffix)%nat in
  if bool_decide (drop n s = suffix) then Some (take n s) else None.
Definition ends_with (suffix s : str) : bool :=
  match strip_str_suffix suffix s with Some _ => true | None => false end.

Definition strip_line_end (line : str) : str :=
  match strip_str_suffix [CR; LF] line with
  | Some line => line
  | None => match strip_str_suffix [LF] line with Some line => line | None => line end
  end.

(** The loop over the enumerated lines: the line asked for, if it is met, with the offset
    and the line count at the end. *)
Fixpoint scan_lines (requested index start line_count : Z) (lines : list str)
    : result ScipWireError (option (Z * str) * Z * Z) :=
  match lines with
  | [] => Ok (None, start, line_count)
  | line :: lines =>
      line_count ← ok_or (u64_checked_add index 1) InvalidSourceRange;
      if index =? requested then Ok (Some (start, strip_line_end line), start, line_count)
      else
        start ← ok_or (u64_checked_add start (str_len line)) InvalidSourceRange;
        scan_lines requested (index + 1) start line_count lines
  end.

Definition source_line (source : str) (requested : Z) : result ScipWireError (Z * str) :=
  if bool_decide (source = []) then
    if requested =? 0 then Ok (0, source) else Err InvalidSourceRange
  else
    '(found, start, line_count) ← scan_lines requested 0 0 0 (split_inclusive source);
    match found with
    | Some line => Ok line
    | None =>
        if ends_with [LF] source && (requested =? line_count) then Ok (start, [])
        else Err InvalidSourceRange
    end.

(** The loop over [char_indices]. *)
Fixpoint unit_loop (unit_count : char → Z) (requested offset units : Z) (line : str)
    : result ScipWireError Z :=
  match line with
  | [] => if units =? requested then Ok offset else Err InvalidSourceRange
  | c :: line =>
      if units =? requested then Ok offset
      else
        units ← ok_or (u64_checked_add units (unit_count c)) InvalidSourceRange;
        if requested <? units then Err InvalidSourceRange
        else unit_loop unit_count requested (offset + len_utf8 c) units line
  end.

Definition unit_offset_to_byte_offset (line : str) (requested : Z) (unit_count : char → Z)
    : result ScipWireError Z :=
  unit_loop unit_count requested 0 0 line.

(** [str::is_char_boundary]: some prefix of the characters ends there. *)
Definition is_char_boundary (line : str) (index : Z) : bool :=
  existsb (λ n, str_len (take n line) =? index) (seq 0 (S (length line))).

Definition line_character_to_byte_offset (line : str) (character : Z)
    (encoding : ScipWirePositionEncoding) : result ScipWireError Z :=
  match encoding with
  | PositionUtf8 =>
      if (str_len line <? character) || negb (is_char_boundary line character)
      then Err InvalidSourceRange else Ok character
  | PositionUtf16 => unit_offset_to_byte_offset line character len_utf16
  | PositionUtf32 => unit_offset_to_byte_offset line character (λ _, 1)
  end.

Definition source_position_to_byte_offset (source : str) (position : ScipWireSourcePosition)
    (encoding : ScipWirePositionEncoding) : result ScipWireError Z :=
  '(line_start, line) ← source_line source (position_line position);
  relative ← line_character_to_byte_offset line (position_character position) encoding;
  ok_or (u64_checked_add line_start relative) InvalidSourceRange.

Definition validate_scip_source_range (range : ScipWireSourceRange)
    (encoding : ScipWirePositionEncoding) (source_bytes : bytes) : result ScipWireError ByteSpan :=
  source ← ok_or (from_utf8 source_bytes) SourceNotUtf8;
  start ← source_position_to_byte_offset source (range_start range) encoding;
  end_ ← source_position_to_byte_offset source (range_end range) encoding;
  if end_ <? start then Err InvalidSourceRange
  else map_err (λ _, InvalidSourceRange) (span_try_new start end_).

(** ** What a position means *)

Fixpoint newlines (s : str) : Z :=
  match s with
  | [] => 0
  | c :: s => (if c =? LF then 1 else 0) + newlines s
  end.

(** The text of a line is followed by its terminator or by the end of the source. *)
Definition line_end (text after : str) : Prop :=
  after = [] ∨ (∃ r, after = LF :: r ∧ last text ≠ Some CR) ∨ (∃ r, after = CR :: LF :: r).

(** [text], at the offset [o], is the line of index [n]. *)
Definition line_at (s : str) (n o : Z) (text : str) : Prop :=
  ∃ before after, s = before ++ text ++ after ∧ newlines before = n
    ∧ (before = [] ∨ last before = Some LF) ∧ LF ∉ text ∧ line_end text after
    ∧ o = str_len before.

(** The code units a character takes in a producer's encoding. *)
Definition unit_count (encoding : ScipWirePositionEncoding) (c : char) : Z :=
  match encoding with
  | PositionUtf8 => len_utf8 c
  | PositionUtf16 => len_utf16 c
  | PositionUtf32 => 1
  end.

Fixpoint units (encoding : ScipWirePositionEncoding) (s : str) : Z :=
  match s with
  | [] => 0
  | c :: s => unit_count encoding c + units encoding s
  end.

(** The offset [o] of a position: so many code units into the line, at the edge of a
    character. *)
Definition resolves (source : str) (encoding : ScipWirePositionEncoding)
    (position : ScipWireSourcePosition) (o : Z) : Prop :=
  ∃ start a b, line_at source (position_line position) start (a ++ b)
    ∧ units encoding a = position_character position ∧ o = start + str_len a.

(** ** Characters of a line *)

Lemma unit_count_pos encoding c : 1 ≤ unit_count encoding c ≤ len_utf8 c.
Proof. destruct encoding; simpl; unfold len_utf8, len_utf16; repeat case_match; lia. Qed.

Lemma units_nonneg encoding s : 0 ≤ units encoding s.
Proof. induction s as [|c s IH]; simpl; [lia|]. pose proof (unit_count_pos encoding c). lia. Qed.

Lemma units_app encoding s t : units encoding (s ++ t) = units encoding s + units encoding t.
Proof. induction s as [|c s IH]; simpl; lia. Qed.

Lemma str_len_units s : str_len s = units PositionUtf8 s.
Proof. induction s as [|c s IH]; [done|]. rewrite str_len_cons, encode_char_length, IH. done. Qed.

Lemma units_le_len encoding s : units encoding s ≤ str_len s.
Proof.
  induction s as [|c s IH]; [done|]. rewrite str_len_cons, encode_char_length. simpl.
  pose proof (unit_count_pos encoding c). lia.
Qed.

Lemma unit_loop_spec encoding requested offset k line o :
  0 ≤ k → k + units encoding line ≤ u64_max →
  unit_loop (unit_count encoding) requested offset k line = Ok o ↔
  ∃ a b, line = a ++ b ∧ k + units encoding a = requested ∧ o = offset + str_len a.
Proof.
  revert offset k. induction line as [|c line IH]; intros offset k Hk Hmax; cbn [unit_loop].
  - destruct (Z.eqb_spec k requested) as [->|Hne]; split; try done.
    + intros [= <-]. exists [], []. split_and!; [done|simpl; lia|unfold str_len, len; simpl; lia].
    + intros ([|] & b & Heq & _ & ->); [|done]. unfold str_len, len. simpl. f_equal. lia.
    + intros ([|] & b & Heq & Hu & ->); [|done]. simpl in Hu. lia.
  - cbn [units] in Hmax. pose proof (unit_count_pos encoding c) as Hc.
    pose proof (units_nonneg encoding line) as Hl.
    destruct (Z.eqb_spec k requested) as [->|Hne].
    { split.
      - intros [= <-]. exists [], (c :: line). split_and!; [done|simpl; lia|unfold str_len, len; simpl; lia].
      - intros ([|c' a] & b & Heq & Hu & ->); [unfold str_len, len; simpl; f_equal; lia|].
        injection Heq as <- ->. simpl in Hu. pose proof (units_nonneg encoding a). lia. }
    unfold u64_checked_add. rewrite checked_in by (unfold u64_max in *; lia). rstep.
    destruct (Z.ltb_spec requested (k + unit_count encoding c)) as [Hlt|Hge].
    { split; [done|]. intros ([|c' a] & b & Heq & Hu & ->); [simpl in Hu; lia|].
      injection Heq as <- ->. simpl in Hu. pose proof (units_nonneg encoding a). lia. }
    rewrite IH by lia. split.
    + intros (a & b & -> & Hu & ->). exists (c :: a), b. rewrite str_len_cons, encode_char_length. simpl.
      split_and!; [done|lia..].
    + intros ([|c' a] & b & Heq & Hu & ->); [simpl in Hu; lia|]. injection Heq as <- ->.
      exists a, b. rewrite str_len_cons, encode_char_length. simpl in Hu. split_and!; [done|lia..].
Qed.

Lemma is_char_boundary_spec line index :
  is_char_boundary line index = true ↔ ∃ a b, line = a ++ b ∧ str_len a = index.
Proof.
  unfold is_char_boundary. rewrite existsb_exists. split.
  - intros (n & _ & Hn). exists (take n line), (drop n line). rewrite take_drop. split; [done|]. lia.
  - intros (a & b & -> & <-). exists (length a). rewrite in_seq, take_app_length, length_app. lia.
Qed.

(** In every encoding the offset of a character is the length of the characters before it. *)
Lemma line_character_spec line character encoding o :
  str_len line ≤ u64_max →
  line_character_to_byte_offset line character encoding = Ok o ↔
  ∃ a b, line = a ++ b ∧ units encoding a = character ∧ o = str_len a.
Proof.
  intros Hmax. destruct encoding; simpl.
  2,3: unfold unit_offset_to_byte_offset.
  2: pose proof (unit_loop_spec PositionUtf16 character 0 0 line o) as H;
    pose proof (units_le_len PositionUtf16 line).
  3: pose proof (unit_loop_spec PositionUtf32 character 0 0 line o) as H;
    pose proof (units_le_len PositionUtf32 line).
  2,3: setoid_rewrite Z.add_0_l in H; apply H; unfold u64_max in *; lia.
  setoid_rewrite <- str_len_units. destruct (is_char_boundary line character) eqn:E; simpl.
  - apply is_char_boundary_spec in E as (a & b & -> & <-). rewrite str_len_app.
    pose proof (str_len_nonneg b). destruct (Z.ltb_spec (str_len a + str_len b) (str_len a)); [lia|]. simpl.
    split; [intros [= <-]; by exists a, b|]. intros (a' & b' & _ & Ha & ->). by rewrite Ha.
  - rewrite orb_true_r. split; [done|]. intros (a & b & Heq & Ha & _).
    assert (is_char_boundary line character = true); [|congruence]. apply is_char_boundary_spec. by exists a, b.
Qed.

(** ** Lines of a source *)

Lemma newlines_app s t : newlines (s ++ t) = newlines s + newlines t.
Proof. induction s as [|c s IH]; simpl; lia. Qed.

Lemma newlines_none s : LF ∉ s → newlines s = 0.
Proof.
  induction s as [|c s IH]; [done|]. intros [Hc Hs]%not_elem_of_cons. simpl.
  rewrite IH by done. destruct (Z.eqb_spec c LF); [congruence|]. lia.
Qed.

Lemma newlines_nonneg s : 0 ≤ newlines s.
Proof. induction s as [|c s IH]; simpl; [lia|]. destruct (c =? LF); lia. Qed.

(** Texts without a newline before the same newline are the same. *)
Lemma first_newline a b x y :
  LF ∉ a → LF ∉ b → a ++ LF :: x = b ++ LF :: y → a = b ∧ x = y.
Proof.
  revert b. induction a as [|c a IH]; intros [|d b] Ha Hb Heq.
  - by injection Heq.
  - injection Heq as <- _. by destruct Hb; left.
  - injection Heq as -> _. by destruct Ha; left.
  - injection Heq as -> Heq. rewrite not_elem_of_cons in Ha, Hb.
    destruct (IH b) as [-> ->]; tauto.
Qed.

(** The lines of a source, with their terminators. *)
Inductive lines_of : str → list str → Prop :=
| lines_nil : lines_of [] []
| lines_last body : body ≠ [] → LF ∉ body → lines_of body [body]
| lines_line body rest lines :
    LF ∉ body → lines_of rest lines → lines_of (body ++ LF :: rest) ((body ++ [LF]) :: lines).

Lemma split_inclusive_lines s : lines_of s (split_inclusive s).
Proof.
  induction s as [|c s IH]; [constructor|]. simpl. destruct (Z.eqb_spec c LF) as [->|Hne].
  - apply (lines_line [] s); [apply not_elem_of_nil|done].
  - destruct IH as [|body Hb Hl|body rest lines Hl Hm].
    + apply lines_last; [done|]. rewrite list_elem_of_singleton. congruence.
    + apply lines_last; [done|]. rewrite not_elem_of_cons. split; [congruence|done].
    + apply (lines_line (c :: body) rest); [|done]. rewrite not_elem_of_cons. split; [congruence|done].
Qed.

Lemma strip_suffix_app suffix s : strip_str_suffix suffix (s ++ suffix) = Some s.
Proof.
  unfold strip_str_suffix. rewrite length_app, Nat.add_sub, drop_app_length, take_app_length.
  by rewrite bool_decide_eq_true_2.
Qed.

Lemma strip_str_suffix_Some suffix s t : strip_str_suffix suffix s = Some t → s = t ++ suffix.
Proof.
  unfold strip_str_suffix. case_bool_decide as H; [|done]. intros [= <-].
  rewrite <- H at 2. by rewrite take_drop.
Qed.

Lemma ends_with_spec suffix s : ends_with suffix s = true ↔ ∃ t, s = t ++ suffix.
Proof.
  unfold ends_with. split.
  - destruct (strip_str_suffix suffix s) as [t|] eqn:E; [|done]. intros _. exists t.
    by apply strip_str_suffix_Some.
  - intros [t ->]. by rewrite strip_suffix_app.
Qed.

(** The terminator of a line is cut off. *)
Lemma strip_line_text body : LF ∉ body → strip_line_end body = body.
Proof.
  intros Hb. unfold strip_line_end.
  destruct (strip_str_suffix [CR; LF] body) as [t|] eqn:E1.
  { apply strip_str_suffix_Some in E1 as ->. destruct Hb. apply elem_of_app. right. right. by left. }
  destruct (strip_str_suffix [LF] body) as [t|] eqn:E2; [|done].
  apply strip_str_suffix_Some in E2 as ->. destruct Hb. apply elem_of_app. right. by left.
Qed.

Lemma strip_line_spec body text :
  LF ∉ body →
  strip_line_end (body ++ [LF]) = text ↔ (body = text ∧ last text ≠ Some CR) ∨ body = text ++ [CR].
Proof.
  intros Hb. unfold strip_line_end.
  destruct (strip_str_suffix [CR; LF] (body ++ [LF])) as [t|] eqn:E.
  - apply strip_str_suffix_Some in E. change [CR; LF] with ([CR] ++ [LF]) in E. rewrite app_assoc in E.
    apply app_inj_tail in E as [-> _]. split.
    + intros ->. by right.
    + intros [[<- Hlast]|Heq]; [by rewrite last_snoc in Hlast|]. by apply app_inj_tail in Heq as [-> _].
  - rewrite strip_suffix_app. split.
    + intros <-. left. split; [done|]. intros (t & ->)%last_Some.
      rewrite <- app_assoc in E. simpl in E.
      by rewrite (strip_suffix_app [CR; LF]) in E.
    + intros [[-> _]| ->]; [done|]. rewrite <- app_assoc in E. simpl in E.
      by rewrite (strip_suffix_app [CR; LF]) in E.
Qed.

Lemma line_at_last body n o text :
  LF ∉ body → line_at body n o text ↔ n = 0 ∧ o = 0 ∧ text = body.
Proof.
  intros Hb. split.
  - intros (before & after & -> & <- & Hbe & Ht & He & ->). rewrite !not_elem_of_app in Hb.
    destruct Hb as (Hbb & _ & Hba). destruct Hbe as [->|(t & ->)%last_Some].
    2:{ destruct Hbb. apply elem_of_app. right. by left. }
    destruct He as [->|[(r & -> & _)|(r & ->)]].
    + by rewrite app_nil_r.
    + destruct Hba. by left.
    + destruct Hba. right. by left.
  - intros (-> & -> & ->). exists [], []. rewrite app_nil_r. split_and!; try done; by left.
Qed.

Lemma line_at_line body rest n o text :
  LF ∉ body →
  line_at (body ++ LF :: rest) n o text ↔
  (n = 0 ∧ o = 0 ∧ strip_line_end (body ++ [LF]) = text)
  ∨ (1 ≤ n ∧ line_at rest (n - 1) (o - str_len (body ++ [LF])) text).
Proof.
  intros Hb. rewrite strip_line_spec by done. split.
  - intros (before & after & Heq & Hn & Hbe & Ht & He & ->).
    destruct Hbe as [->|(t & ->)%last_Some].
    + left. split_and!; [done..|]. simpl in Heq. destruct He as [->|[(r & -> & Hl)|(r & ->)]].
      * rewrite app_nil_r in Heq. destruct Ht. rewrite <- Heq. apply elem_of_app. right. by left.
      * apply first_newline in Heq as [-> _]; [|done..]. by left.
      * change (CR :: LF :: r) with ([CR] ++ LF :: r) in Heq. rewrite app_assoc in Heq.
        apply first_newline in Heq as [-> _]; [by right|done|].
        rewrite not_elem_of_app, list_elem_of_singleton. done.
    + assert (LF ∈ t ++ [LF]) as Hin by (apply elem_of_app; right; by left).
      apply list_elem_of_split_l in Hin as (body' & before & Hsplit & Hb').
      rewrite Hsplit, <- app_assoc in Heq. simpl in Heq.
      apply first_newline in Heq as [-> ->]; [|done..].
      rewrite Hsplit, newlines_app, (newlines_none body') in Hn by done. simpl in Hn.
      pose proof (newlines_nonneg before). rewrite Hsplit.
      right. split; [lia|]. exists before, after. split_and!; try done; [lia| |].
      * destruct before as [|c before _] using rev_ind; [by left|]. right.
        rewrite app_comm_cons, app_assoc in Hsplit. apply app_inj_tail in Hsplit as [_ <-].
        by rewrite last_snoc.
      * change (body' ++ LF :: before) with (body' ++ [LF] ++ before).
        rewrite (app_assoc body'), str_len_app. lia.
  - intros [(-> & -> & [[-> Hl]| ->])|(Hn & before & after & -> & Hnl & Hbe & Ht & He & Ho)].
    + exists [], (LF :: rest). split_and!; try done; [by left|]. right; left. eauto.
    + exists [], (CR :: LF :: rest). rewrite <- app_assoc. split_and!; try done; [by left| |].
      * rewrite not_elem_of_app in Hb. tauto.
      * right; right. eauto.
    + exists (body ++ LF :: before), after. rewrite <- app_assoc. simpl. split_and!; try done.
      * rewrite newlines_app. simpl. rewrite newlines_none by done. lia.
      * right. destruct Hbe as [->|Hbe]; [by rewrite last_snoc|].
        rewrite last_app, last_cons. by rewrite Hbe.
      * change (body ++ LF :: before) with (body ++ [LF] ++ before).
        rewrite (app_assoc body), str_len_app. lia.
Qed.

(** ** Resolving a line *)

(** What [source_line] concludes once the loop is over. *)
Definition line_found (source : str) (requested : Z) (scanned : option (Z * str) * Z * Z)
    : result ScipWireError (Z * str) :=
  let '(found, start, line_count) := scanned in
  match found with
  | Some line => Ok line
  | None =>
      if ends_with [LF] source && (requested =? line_count) then Ok (start, [])
      else Err InvalidSourceRange
  end.

Lemma ends_with_snoc s c : ends_with [LF] (s ++ [c]) = (c =? LF).
Proof.
  apply eq_bool_prop_intro. rewrite !Is_true_true, ends_with_spec, Z.eqb_eq. split.
  - intros [t H]. by apply app_inj_tail in H as [_ ->].
  - intros ->. by exists s.
Qed.

Lemma line_found_tail before rest requested (r : result ScipWireError _) :
  rest ≠ [] → r ≫= line_found (before ++ rest) requested = r ≫= line_found rest requested.
Proof.
  intros Hr. destruct r as [[[found start] count]|e]; [|done]. simpl. destruct rest as [|c rest _] using rev_ind; [done|].
  by rewrite app_assoc, !ends_with_snoc.
Qed.

Lemma scan_lines_spec lines : ∀ s requested index start line_count o text,
  lines_of s lines → lines ≠ [] → 0 ≤ index ≤ requested → 0 ≤ start →
  index + Z.of_nat (length lines) ≤ u64_max → start + str_len s ≤ u64_max →
  scan_lines requested index start line_count lines ≫= line_found s requested = Ok (o, text) ↔
  line_at s (requested - index) (o - start) text.
Proof.
  induction lines as [|line lines IH]; [done|].
  intros s requested index start line_count o text Hs _ Hi Hst Hl Hlen. cbn [scan_lines length] in *.
  unfold u64_checked_add. rewrite (checked_in _ (index + 1)) by lia. rstep.
  inversion Hs as [|body Hne Hb|body rest lines' Hb Hr]; subst.
  - rewrite line_at_last by done. destruct (Z.eqb_spec index requested) as [->|Hne'].
    + simpl. rewrite strip_line_text by done. split; [intros [= <- <-]; split_and!; (done || lia)|].
      intros (_ & Ho & ->). do 2 f_equal. lia.
    + rewrite checked_in by (pose proof (str_len_nonneg line); lia). rstep. simpl.
      destruct (ends_with [LF] line) eqn:E; simpl.
      { apply ends_with_spec in E as [t ->]. destruct Hb. apply elem_of_app. right. by left. }
      split; [done|]. intros (? & _). lia.
  - rewrite line_at_line by done. destruct (Z.eqb_spec index requested) as [->|Hne'].
    + simpl. split; [intros [= <- <-]; left; split_and!; (done || lia)|].
      intros [(_ & Ho & <-)|[? _]]; [|lia]. do 2 f_equal. lia.
    + change (body ++ LF :: rest) with (body ++ [LF] ++ rest) in Hlen |- *.
      rewrite (app_assoc body), str_len_app in Hlen. pose proof (str_len_nonneg rest).
      pose proof (str_len_nonneg (body ++ [LF])).
      rewrite checked_in by lia. rstep.
      assert (requested - index - 1 = requested - (index + 1)) as -> by lia.
      assert (o - start - str_len (body ++ [LF]) = o - (start + str_len (body ++ [LF]))) as -> by lia.
      destruct lines as [|line lines].
      * inversion Hr; subst. simpl. rewrite line_at_last by apply not_elem_of_nil.
        rewrite ends_with_snoc. simpl. destruct (Z.eqb_spec requested (index + 1)) as [->|Hne1].
        -- split; [intros [= <- <-]; right; split_and!; (done || lia)|].
           intros [[? _]|(_ & _ & Ho & ->)]; [lia|]. do 2 f_equal. lia.
        -- split; [done|]. intros [[? _]|(_ & ? & _)]; lia.
      * assert (rest ≠ []) as Hne1 by (by intros ->; inversion Hr; destruct body0).
        rewrite app_assoc, line_found_tail by done.
        rewrite (IH rest) by (done || lia). intuition lia.
Qed.

Lemma lines_of_length s lines : lines_of s lines → Z.of_nat (length lines) ≤ str_len s.
Proof.
  induction 1 as [|body Hne Hb|body rest lines Hb Hr IH]; [done|..].
  - destruct body as [|c body]; [done|]. rewrite str_len_cons. pose proof (encode_char_nonempty c).
    pose proof (str_len_nonneg body). unfold len. simpl. lia.
  - change (body ++ LF :: rest) with (body ++ [LF] ++ rest). rewrite !str_len_app.
    pose proof (str_len_nonneg body). change (str_len [LF]) with 1. simpl. lia.
Qed.

(** A line is found exactly when the source has it. *)
Lemma source_line_spec source requested o text :
  str_len source < u64_max → 0 ≤ requested →
  source_line source requested = Ok (o, text) ↔ line_at source requested o text.
Proof.
  intros Hlen Hr. unfold source_line. case_bool_decide as Hs.
  - subst source. rewrite line_at_last by apply not_elem_of_nil.
    destruct (Z.eqb_spec requested 0); split; [by intros [= <- <-]|by intros (_ & -> & ->)|done|].
    by intros (? & _).
  - pose proof (split_inclusive_lines source) as Hl. pose proof (lines_of_length _ _ Hl).
    rewrite <- (Z.sub_0_r requested) at 2. rewrite <- (Z.sub_0_r o) at 2.
    apply scan_lines_spec; try done; try lia. by intros E; rewrite E in Hl; inversion Hl.
Qed.

Lemma line_at_within source n o text : line_at source n o text → 0 ≤ o ∧ o + str_len text ≤ str_len source.
Proof.
  intros (before & after & -> & _ & _ & _ & _ & ->). rewrite !str_len_app.
  pose proof (str_len_nonneg before). pose proof (str_len_nonneg after). lia.
Qed.

Lemma source_position_spec source position encoding o :
  str_len source < u64_max → 0 ≤ position_line position →
  source_position_to_byte_offset source position encoding = Ok o ↔ resolves source encoding position o.
Proof.
  intros Hlen Hl. unfold source_position_to_byte_offset, resolves. rewrite bind_Ok. split.
  - intros ([start line] & Hline & H). apply source_line_spec in Hline; [|done..].
    pose proof (line_at_within _ _ _ _ Hline) as [Hs Hw].
    apply bind_Ok in H as (r & Hr & H). apply line_character_spec in Hr as (a & b & -> & Hu & ->); [|lia].
    rewrite str_len_app in Hw. pose proof (str_len_nonneg a). pose proof (str_len_nonneg b).
    unfold u64_checked_add in H. rewrite checked_in in H by lia. injection H as <-. by exists start, a, b.
  - intros (start & a & b & Hline & Hu & ->). pose proof (line_at_within _ _ _ _ Hline) as [Hs Hw].
    rewrite str_len_app in Hw. pose proof (str_len_nonneg a). pose proof (str_len_nonneg b).
    exists (start, a ++ b). split; [by apply source_line_spec|]. apply bind_Ok. exists (str_len a). split.
    + apply line_character_spec; [rewrite str_len_app; lia|]. by exists a, b.
    + unfold u64_checked_add. by rewrite checked_in by lia.
Qed.

Lemma resolves_unique source encoding position o o' :
  str_len source < u64_max → 0 ≤ position_line position →
  resolves source encoding position o → resolves source encoding position o' → o = o'.
Proof.
  intros Hlen Hl H1 H2. apply source_position_spec in H1, H2; [|done..]. congruence.
Qed.

Lemma resolves_within source encoding position o :
  resolves source encoding position o → 0 ≤ o ≤ str_len source.
Proof.
  intros (start & a & b & [Hs Hw]%line_at_within & _ & ->). rewrite str_len_app in Hw.
  pose proof (str_len_nonneg a). pose proof (str_len_nonneg b). lia.
Qed.

Definition range_wf (range : ScipWireSourceRange) : Prop :=
  0 ≤ position_line (range_start range) ∧ 0 ≤ position_line (range_end range).

Lemma source_range_spec range encoding source_bytes span :
  slice_ok source_bytes → range_wf range →
  validate_scip_source_range range encoding source_bytes = Ok span ↔
  ∃ source, source_bytes = as_bytes source ∧ Forall scalar source
    ∧ resolves source encoding (range_start range) (span_start span)
    ∧ resolves source encoding (range_end range) (span_end span)
    ∧ span_start span ≤ span_end span.
Proof.
  intros Hin [Hs He]. unfold validate_scip_source_range. rewrite bind_Ok.
  assert (∀ s, source_bytes = as_bytes s → str_len s < u64_max) as Hlen.
  { intros s ->. unfold slice_ok, str_len, u64_max in *. lia. }
  split.
  - intros (source & Hu & H). destruct (from_utf8 source_bytes) as [s|] eqn:E; [|done]. injection Hu as ->.
    apply from_utf8_spec in E as [Hsc Hb]. specialize (Hlen _ Hb).
    apply bind_Ok in H as (start & Hst & H). apply bind_Ok in H as (end_ & Hen & H).
    apply source_position_spec in Hst, Hen; [|done..].
    destruct (Z.ltb_spec end_ start) as [|Hle]; [done|]. unfold span_try_new in H.
    rewrite (proj2 (Z.ltb_ge _ _)) in H by done. injection H as <-. by exists source.
  - intros (source & Hb & Hsc & Hst & Hen & Hle). exists source. specialize (Hlen _ Hb).
    rewrite (proj2 (from_utf8_spec _ source)) by done. split; [done|].
    apply bind_Ok. exists (span_start span). split; [by apply source_position_spec|].
    apply bind_Ok. exists (span_end span). split; [by apply source_position_spec|].
    unfold span_try_new. rewrite (proj2 (Z.ltb_ge _ _)) by done. by destruct span.
Qed.

(** A producer range is admitted exactly when the source is UTF-8, both positions fall on a
    line of it at the edge of a character, and the range is not reversed; the span is then the
    exact byte offsets of the two positions, whatever the unit the producer counts in. *)
Theorem source_range_exact range encoding source_bytes span :
  slice_ok source_bytes → range_wf range →
  validate_scip_source_range range encoding source_bytes = Ok span ↔
  ∃ source, source_bytes = as_bytes source ∧ Forall scalar source
    ∧ resolves source encoding (range_start range) (span_start span)
    ∧ resolves source encoding (range_end range) (span_end span)
    ∧ span_start span ≤ span_end span.
Proof. apply source_range_spec. Qed.

Module range_sample.
Definition position (line character : Z) : ScipWireSourcePosition :=
  {| position_line := line; position_character := character |}.
Definition range (l1 c1 l2 c2 : Z) : ScipWireSourceRange :=
  {| range_start := position l1 c1; range_end := position l2 c2 |}.
(** An ASCII letter, a character of four bytes and two UTF-16 units, and a CRLF line. *)
Definition source : str := [97; 0x1F680; 98; LF; 120; 121; CR; LF].
End range_sample.

Example utf16_span :
  validate_scip_source_range (range_sample.range 0 1 0 3) PositionUtf16 (as_bytes range_sample.source)
  = Ok {| span_start := 1; span_end := 5 |}.
Proof. vm_compute. reflexivity. Qed.
Example crlf_span :
  validate_scip_source_range (range_sample.range 1 0 1 2) PositionUtf8 (as_bytes range_sample.source)
  = Ok {| span_start := 7; span_end := 9 |}.
Proof. vm_compute. reflexivity. Qed.

Lemma source_range_exact_witness :
  resolves range_sample.source PositionUtf16 (range_sample.position 0 3) 5.
Proof.
  assert (∃ source, as_bytes range_sample.source = as_bytes source ∧ Forall scalar source
    ∧ resolves source PositionUtf16 (range_sample.position 0 1) 1
    ∧ resolves source PositionUtf16 (range_sample.position 0 3) 5 ∧ 1 ≤ 5) as (s & Hb & Hs & _ & H & _).
  { apply (source_range_exact (range_sample.range 0 1 0 3) PositionUtf16 (as_bytes range_sample.source)
      {| span_start := 1; span_end := 5 |}).
    - vm_compute. discriminate.
    - split; vm_compute; discriminate.
    - vm_compute. reflexivity. }
  apply as_bytes_inj in Hb as <-; [done| |done].
  unfold range_sample.source, LF, CR. repeat (apply Forall_cons; split; [unfold scalar; lia|]). constructor.
Defined.
