(* ===== verification/ScipWire.v ===== *)
(** * SCIP messages

    Models the message parsers of [crates/repowitness-analysis/src/scip_wire.rs]: the
    metadata, the header of a document, occurrences with their ranges, symbol information
    with its relationships, the decoding of one document against its pinned source, and the
    scan of the outer index.  A [&str] is its UTF-8 bytes; SHA-256 is a parameter; a callback
    threads the state of its caller. *)

From Stdlib Require Import ZArith Lia ZifyBool.
From stdpp Require Import base numbers list.
From S2P Require Import Prelude Ordering RepositoryPath SourceManifest Utf8 GraphIdentity WireFormat SourceRange.

Open Scope Z_scope.

Definition MAX_INPUT_BYTES : Z := 256 * 1024 * 1024.
Definition MAX_DOCUMENTS : Z := 100000.
Definition MAX_SCIP_DOCUMENT_BYTES : Z := 2 * 1024 * 1024.
Definition MAX_DOCUMENT_BYTES : Z := MAX_SCIP_DOCUMENT_BYTES.
Definition MAX_METADATA_BYTES : Z := 64 * 1024.
Definition MAX_IGNORED_FIELD_BYTES : Z := 1024 * 1024.
Definition MAX_DOCUMENT_OCCURRENCES : Z := 250000.
Definition MAX_DOCUMENT_SYMBOLS : Z := 50000.
Definition MAX_SYMBOL_BYTES : Z := 16 * 1024.
Definition MAX_SYMBOL_RELATIONSHIPS : Z := 10000.

Definition METADATA_FIELD : Z := 1.
Definition DOCUMENT_FIELD : Z := 2.
Definition METADATA_PROTOCOL_VERSION_FIELD : Z := 1.
Definition METADATA_TEXT_ENCODING_FIELD : Z := 4.
Definition SUPPORTED_PROTOCOL_VERSION : Z := 0.

Inductive ScipWireTextEncoding := TextUtf8 | TextUtf16.

#[export] Instance text_encoding_eq_dec : EqDecision ScipWireTextEncoding.
Proof. solve_decision. Defined.

(** [std::str::from_utf8(value).map_err(|_| InvalidUtf8)?]. *)
Definition utf8_text (value : bytes) : result ScipWireError bytes :=
  match from_utf8 value with Some _ => Ok value | None => Err InvalidUtf8 end.

(** [if slot.replace(value).is_some() { return Err(e) }]: a singular field is set once. *)
Definition replace_once {A} (slot : option A) (value : A) (e : ScipWireError)
    : result ScipWireError (option A) :=
  match slot with Some _ => Err e | None => Ok (Some value) end.

(** ** Scalars *)

Definition decode_text_encoding (value : Z) : result ScipWireError ScipWireTextEncoding :=
  if value =? 1 then Ok TextUtf8
  else if value =? 2 then Ok TextUtf16
  else Err UnsupportedTextEncoding.

Definition decode_position_encoding (value : Z) : result ScipWireError ScipWirePositionEncoding :=
  if value =? 1 then Ok PositionUtf8
  else if value =? 2 then Ok PositionUtf16
  else if value =? 3 then Ok PositionUtf32
  else Err UnsupportedPositionEncoding.

Definition decode_bool (value : Z) : result ScipWireError bool :=
  if value =? 0 then Ok false
  else if value =? 1 then Ok true
  else Err InvalidRelationship.

(** [i32::try_from], then [u32::try_from]. *)
Definition decode_nonnegative_i32 (value : Z) : result ScipWireError Z :=
  value ← ok_or (checked 2147483647 value) InvalidOccurrenceRange;
  ok_or (u32_try_from value) InvalidOccurrenceRange.

(** ** Document headers *)

Record ScipWireDocumentHeader := {
  relative_path : bytes;
  language : option bytes;
  position_encoding : option ScipWirePositionEncoding;
  occurrences : Z;
  symbols : Z;
}.

(** The variables of the loop. *)
Record HeaderState := {
  hs_path : option bytes;
  hs_language : option bytes;
  hs_encoding : option ScipWirePositionEncoding;
  hs_occurrences : Z;
  hs_symbols : Z;
}.

Definition count_entry (count maximum : Z) : result ScipWireError Z :=
  count ← ok_or (u32_checked_add count 1) TooManyDocumentEntries;
  if maximum <? count then Err TooManyDocumentEntries else Ok count.

Definition header_field (input : bytes) (s : HeaderState) (field wire cursor : Z)
    : result ScipWireError (HeaderState * Z) :=
  if ((field =? 1) || (field =? 4)) && (wire =? WIRE_LENGTH_DELIMITED) then
    '(value, cursor) ← read_length_delimited input cursor MAX_METADATA_BYTES;
    s ← (value ← utf8_text value;
         if field =? 1 then
           path ← replace_once (hs_path s) value InvalidDocumentHeader;
           Ok {| hs_path := path; hs_language := hs_language s; hs_encoding := hs_encoding s;
                 hs_occurrences := hs_occurrences s; hs_symbols := hs_symbols s |}
         else
           language ← replace_once (hs_language s) value InvalidDocumentHeader;
           Ok {| hs_path := hs_path s; hs_language := language; hs_encoding := hs_encoding s;
                 hs_occurrences := hs_occurrences s; hs_symbols := hs_symbols s |});
    Ok (s, cursor)
  else if ((field =? 2) || (field =? 3)) && (wire =? WIRE_LENGTH_DELIMITED) then
    '(_, cursor) ← read_length_delimited input cursor MAX_DOCUMENT_BYTES;
    s ← (if field =? 2 then
           count ← count_entry (hs_occurrences s) MAX_DOCUMENT_OCCURRENCES;
           Ok {| hs_path := hs_path s; hs_language := hs_language s; hs_encoding := hs_encoding s;
                 hs_occurrences := count; hs_symbols := hs_symbols s |}
         else
           count ← count_entry (hs_symbols s) MAX_DOCUMENT_SYMBOLS;
           Ok {| hs_path := hs_path s; hs_language := hs_language s; hs_encoding := hs_encoding s;
                 hs_occurrences := hs_occurrences s; hs_symbols := count |});
    Ok (s, cursor)
  else if (field =? 6) && (wire =? WIRE_VARINT) then
    '(value, cursor) ← read_varint input cursor;
    s ← (value ← ok_or (u32_try_from value) InvalidDocumentHeader;
         value ← decode_position_encoding value;
         encoding ← replace_once (hs_encoding s) value InvalidDocumentHeader;
         Ok {| hs_path := hs_path s; hs_language := hs_language s; hs_encoding := encoding;
               hs_occurrences := hs_occurrences s; hs_symbols := hs_symbols s |});
    Ok (s, cursor)
  else if (1 <=? field) && (field <=? 6) then Err InvalidDocumentHeader
  else
    cursor ← skip_field MAX_IGNORED_FIELD_BYTES input wire cursor;
    Ok (s, cursor).

Definition header_init : HeaderState :=
  {| hs_path := None; hs_language := None; hs_encoding := None; hs_occurrences := 0; hs_symbols := 0 |}.

Definition header_finish (s : HeaderState) : result ScipWireError ScipWireDocumentHeader :=
  path ← ok_or (hs_path s) InvalidDocumentHeader;
  Ok {| relative_path := path; language := hs_language s; position_encoding := hs_encoding s;
        occurrences := hs_occurrences s; symbols := hs_symbols s |}.

Definition parse_scip_document_header (input : bytes) : ctl ScipWireError ScipWireDocumentHeader :=
  check;;
  s ← message_loop id input (λ s field wire cursor, lift (header_field input s field wire cursor))
        header_init;
  lift (header_finish s).

Definition is_go_document_with_omitted_position_encoding (h : ScipWireDocumentHeader) : bool :=
  bool_decide (position_encoding h = None) && bool_decide (language h = Some (b_of "go")).

(** ** Metadata *)

Record ScipWireMetadata := {
  protocol_version : Z;
  text_encoding : ScipWireTextEncoding;
  scip_go_producer : bool;
}.

Definition tool_info_field (input : bytes) (name : option bytes) (field wire cursor : Z)
    : result ScipWireError (option bytes * Z) :=
  if (field =? 1) && (wire =? WIRE_LENGTH_DELIMITED) then
    '(value, cursor) ← read_length_delimited input cursor MAX_METADATA_BYTES;
    name ← (value ← utf8_text value; replace_once name value InvalidMetadata);
    Ok (name, cursor)
  else if ((field =? 2) || (field =? 3)) && (wire =? WIRE_LENGTH_DELIMITED) then
    '(_, cursor) ← read_length_delimited input cursor MAX_METADATA_BYTES;
    name ← Ok name;
    Ok (name, cursor)
  else if (1 <=? field) && (field <=? 3) then Err InvalidMetadata
  else
    cursor ← skip_field MAX_METADATA_BYTES input wire cursor;
    Ok (name, cursor).

Definition parse_scip_tool_info_is_scip_go (input : bytes) : ctl ScipWireError bool :=
  name ← message_loop id input (λ name field wire cursor, lift (tool_info_field input name field wire cursor))
           None;
  mret (bool_decide (name = Some (b_of "scip-go"))).

Record MetadataState := {
  ms_protocol_version_explicit : bool;
  ms_text_encoding : option ScipWireTextEncoding;
  ms_scip_go_producer : bool;
  ms_tool_info_present : bool;
}.

Definition metadata_init : MetadataState :=
  {| ms_protocol_version_explicit := false; ms_text_encoding := None; ms_scip_go_producer := false;
     ms_tool_info_present := false |}.

Definition metadata_field (input : bytes) (s : MetadataState) (field wire cursor : Z)
    : ctl ScipWireError (MetadataState * Z) :=
  if (field =? METADATA_PROTOCOL_VERSION_FIELD) && (wire =? WIRE_VARINT) then
    lift
      ('(value, cursor) ← read_varint input cursor;
       s ← (value ← ok_or (u32_try_from value) UnsupportedProtocolVersion;
            if negb (value =? SUPPORTED_PROTOCOL_VERSION) then Err UnsupportedProtocolVersion
            else if ms_protocol_version_explicit s then Err InvalidMetadata
            else Ok {| ms_protocol_version_explicit := true; ms_text_encoding := ms_text_encoding s;
                       ms_scip_go_producer := ms_scip_go_producer s;
                       ms_tool_info_present := ms_tool_info_present s |});
       Ok (s, cursor))
  else if (field =? METADATA_TEXT_ENCODING_FIELD) && (wire =? WIRE_VARINT) then
    lift
      ('(value, cursor) ← read_varint input cursor;
       s ← (value ← ok_or (u32_try_from value) UnsupportedTextEncoding;
            value ← decode_text_encoding value;
            text_encoding ← replace_once (ms_text_encoding s) value InvalidMetadata;
            Ok {| ms_protocol_version_explicit := ms_protocol_version_explicit s;
                  ms_text_encoding := text_encoding; ms_scip_go_producer := ms_scip_go_producer s;
                  ms_tool_info_present := ms_tool_info_present s |});
       Ok (s, cursor))
  else if (field =? 2) && (wire =? WIRE_LENGTH_DELIMITED) then
    if ms_tool_info_present s then throw InvalidMetadata
    else
      '(raw, cursor) ← lift (read_length_delimited input cursor MAX_METADATA_BYTES);
      s ← (scip_go_producer ← parse_scip_tool_info_is_scip_go raw;
           mret {| ms_protocol_version_explicit := ms_protocol_version_explicit s;
                   ms_text_encoding := ms_text_encoding s; ms_scip_go_producer := scip_go_producer;
                   ms_tool_info_present := true |});
      mret (s, cursor)
  else if (field =? METADATA_PROTOCOL_VERSION_FIELD) || (field =? 2)
          || (field =? METADATA_TEXT_ENCODING_FIELD) then throw InvalidMetadata
  else
    cursor ← lift (skip_field MAX_METADATA_BYTES input wire cursor);
    mret (s, cursor).

Definition metadata_finish (s : MetadataState) : result ScipWireError ScipWireMetadata :=
  text_encoding ← ok_or (ms_text_encoding s) InvalidMetadata;
  Ok {| protocol_version := SUPPORTED_PROTOCOL_VERSION; text_encoding := text_encoding;
        scip_go_producer := ms_scip_go_producer s |}.

Definition parse_scip_metadata (input : bytes) : ctl ScipWireError ScipWireMetadata :=
  check;;
  s ← message_loop id input (metadata_field input) metadata_init;
  lift (metadata_finish s).

(** ** Occurrence ranges *)

Record LegacyRange := {
  legacy_values : list Z;
  legacy_count : Z;
}.

Definition legacy_default : LegacyRange := {| legacy_values := [0; 0; 0; 0]; legacy_count := 0 |}.

Definition legacy_push (r : LegacyRange) (value : Z) : result ScipWireError LegacyRange :=
  let index := Z.to_nat (legacy_count r) in
  ok_or (legacy_values r !! index) InvalidOccurrenceRange;;
  count ← ok_or (checked 255 (legacy_count r + 1)) InvalidOccurrenceRange;
  Ok {| legacy_values := <[index := value]> (legacy_values r); legacy_count := count |}.

Definition legacy_value (r : LegacyRange) (index : nat) : Z := default 0 (legacy_values r !! index).

Definition legacy_finish (r : LegacyRange) : result ScipWireError (option ScipWireSourceRange) :=
  let value := legacy_value r in
  let position line character := {| position_line := line; position_character := character |} in
  if legacy_count r =? 0 then Ok None
  else if legacy_count r =? 3 then
    Ok (Some {| range_start := position (value 0%nat) (value 1%nat);
                range_end := position (value 0%nat) (value 2%nat) |})
  else if legacy_count r =? 4 then
    Ok (Some {| range_start := position (value 0%nat) (value 1%nat);
                range_end := position (value 2%nat) (value 3%nat) |})
  else Err InvalidOccurrenceRange.

(** The variables of [parse_range_components::<COMPONENTS>]. *)
Record ComponentState := {
  cs_values : list Z;
  cs_seen : list bool;
}.

Definition component_field (input : bytes) (expected : Z) (s : ComponentState) (field wire cursor : Z)
    : result ScipWireError (ComponentState * Z) :=
  if (field <=? expected) && (wire =? WIRE_VARINT) then
    let index := Z.to_nat (field - 1) in
    if default false (cs_seen s !! index) then Err InvalidOccurrenceRange
    else
      '(value, cursor) ← read_varint input cursor;
      s ← (value ← decode_nonnegative_i32 value;
           Ok {| cs_values := <[index := value]> (cs_values s); cs_seen := <[index := true]> (cs_seen s) |});
      Ok (s, cursor)
  else
    cursor ← skip_field MAX_DOCUMENT_BYTES input wire cursor;
    Ok (s, cursor).

Definition components_init (components : nat) : ComponentState :=
  {| cs_values := replicate components 0; cs_seen := replicate components false |}.

Definition parse_range_components (components : nat) (input : bytes) (expected : Z)
    : ctl ScipWireError (option (list Z)) :=
  s ← message_loop id input (λ s field wire cursor, lift (component_field input expected s field wire cursor))
        (components_init components);
  mret (if forallb id (cs_seen s) then Some (cs_values s) else None).

Definition parse_single_line_range (input : bytes) : ctl ScipWireError ScipWireSourceRange :=
  values ← parse_range_components 3 input 3;
  match values with
  | Some [line; start; end_] =>
      mret {| range_start := {| position_line := line; position_character := start |};
              range_end := {| position_line := line; position_character := end_ |} |}
  | _ => throw InvalidOccurrenceRange
  end.

Definition parse_multi_line_range (input : bytes) : ctl ScipWireError ScipWireSourceRange :=
  values ← parse_range_components 4 input 4;
  match values with
  | Some [start_line; start_character; end_line; end_character] =>
      mret {| range_start := {| position_line := start_line; position_character := start_character |};
              range_end := {| position_line := end_line; position_character := end_character |} |}
  | _ => throw InvalidOccurrenceRange
  end.

(** The loop over a packed payload; each turn reads a varint, so its length is fuel enough. *)
Fixpoint packed_loop (fuel : nat) (packed : bytes) (cursor : Z) (legacy : LegacyRange)
    : ctl ScipWireError LegacyRange :=
  match fuel with
  | O => mret legacy
  | S fuel =>
      if cursor <? len packed then
        check;;
        '(value, cursor) ← lift (read_varint packed cursor);
        legacy ← lift (value ← decode_nonnegative_i32 value; legacy_push legacy value);
        packed_loop fuel packed cursor legacy
      else mret legacy
  end.

Record RangeState := {
  rs_legacy : LegacyRange;
  rs_typed : option ScipWireSourceRange;
}.

Definition range_init : RangeState := {| rs_legacy := legacy_default; rs_typed := None |}.

Definition occurrence_range_field (input : bytes) (s : RangeState) (field wire cursor : Z)
    : ctl ScipWireError (RangeState * Z) :=
  if (field =? 1) && (wire =? WIRE_VARINT) then
    lift
      ('(value, cursor) ← read_varint input cursor;
       s ← (value ← decode_nonnegative_i32 value;
            legacy ← legacy_push (rs_legacy s) value;
            Ok {| rs_legacy := legacy; rs_typed := rs_typed s |});
       Ok (s, cursor))
  else if (field =? 1) && (wire =? WIRE_LENGTH_DELIMITED) then
    '(packed, cursor) ← lift (read_length_delimited input cursor MAX_DOCUMENT_BYTES);
    s ← (legacy ← packed_loop (length packed) packed 0 (rs_legacy s);
         mret {| rs_legacy := legacy; rs_typed := rs_typed s |});
    mret (s, cursor)
  else if (field =? 8) && (wire =? WIRE_LENGTH_DELIMITED) then
    '(raw, cursor) ← lift (read_length_delimited input cursor MAX_DOCUMENT_BYTES);
    s ← (range ← parse_single_line_range raw;
         lift (typed ← replace_once (rs_typed s) range InvalidOccurrenceRange;
               Ok {| rs_legacy := rs_legacy s; rs_typed := typed |}));
    mret (s, cursor)
  else if (field =? 9) && (wire =? WIRE_LENGTH_DELIMITED) then
    '(raw, cursor) ← lift (read_length_delimited input cursor MAX_DOCUMENT_BYTES);
    s ← (range ← parse_multi_line_range raw;
         lift (typed ← replace_once (rs_typed s) range InvalidOccurrenceRange;
               Ok {| rs_legacy := rs_legacy s; rs_typed := typed |}));
    mret (s, cursor)
  else
    cursor ← lift (skip_field MAX_DOCUMENT_BYTES input wire cursor);
    mret (s, cursor).

Definition range_finish (s : RangeState) : result ScipWireError ScipWireSourceRange :=
  legacy ← legacy_finish (rs_legacy s);
  match rs_typed s, legacy with
  | Some typed, Some legacy =>
      if bool_decide (typed = legacy) then Ok typed else Err InvalidOccurrenceRange
  | Some typed, None => Ok typed
  | None, Some legacy => Ok legacy
  | None, None => Err InvalidOccurrenceRange
  end.

Definition parse_scip_occurrence_range (input : bytes) : ctl ScipWireError ScipWireSourceRange :=
  check;;
  s ← message_loop id input (occurrence_range_field input) range_init;
  lift (range_finish s).

(** ** Occurrences *)

Record ScipWireOccurrence := {
  occ_range : ScipWireSourceRange;
  occ_symbol : option bytes;
  occ_roles : Z;
}.

Record OccurrenceState := {
  os_symbol : option bytes;
  os_roles : option Z;
}.

Definition occurrence_init : OccurrenceState := {| os_symbol := None; os_roles := None |}.

(** A symbol: valid UTF-8, not empty, and set once. *)
Definition symbol_once (slot : option bytes) (value : bytes) (e : ScipWireError)
    : result ScipWireError (option bytes) :=
  value ← utf8_text value;
  if bool_decide (value = []) then Err e else replace_once slot value e.

Definition occurrence_field (input : bytes) (s : OccurrenceState) (field wire cursor : Z)
    : result ScipWireError (OccurrenceState * Z) :=
  if (field =? 2) && (wire =? WIRE_LENGTH_DELIMITED) then
    '(value, cursor) ← read_length_delimited input cursor MAX_SYMBOL_BYTES;
    s ← (symbol ← symbol_once (os_symbol s) value InvalidOccurrence;
         Ok {| os_symbol := symbol; os_roles := os_roles s |});
    Ok (s, cursor)
  else if (field =? 3) && (wire =? WIRE_VARINT) then
    '(value, cursor) ← read_varint input cursor;
    s ← (value ← decode_nonnegative_i32 value;
         roles ← replace_once (os_roles s) value InvalidOccurrence;
         Ok {| os_symbol := os_symbol s; os_roles := roles |});
    Ok (s, cursor)
  else if (field =? 2) || (field =? 3) then Err InvalidOccurrence
  else
    cursor ← skip_field MAX_DOCUMENT_BYTES input wire cursor;
    Ok (s, cursor).

Definition parse_scip_occurrence (input : bytes) : ctl ScipWireError ScipWireOccurrence :=
  range ← parse_scip_occurrence_range input;
  s ← message_loop id input (λ s field wire cursor, lift (occurrence_field input s field wire cursor))
        occurrence_init;
  mret {| occ_range := range; occ_symbol := os_symbol s; occ_roles := default 0 (os_roles s) |}.

(** ** Relationships and symbol information *)

Record ScipWireRelationship := {
  rel_symbol : bytes;
  rel_is_reference : bool;
  rel_is_implementation : bool;
  rel_is_type_definition : bool;
  rel_is_definition : bool;
}.

Record RelationshipState := {
  ls_symbol : option bytes;
  ls_reference : option bool;
  ls_implementation : option bool;
  ls_type_definition : option bool;
  ls_definition : option bool;
}.

Definition relationship_init : RelationshipState :=
  {| ls_symbol := None; ls_reference := None; ls_implementation := None; ls_type_definition := None;
     ls_definition := None |}.

Definition relationship_flag (s : RelationshipState) (field : Z) (value : bool)
    : result ScipWireError RelationshipState :=
  if field =? 2 then
    flag ← replace_once (ls_reference s) value InvalidRelationship;
    Ok {| ls_symbol := ls_symbol s; ls_reference := flag; ls_implementation := ls_implementation s;
          ls_type_definition := ls_type_definition s; ls_definition := ls_definition s |}
  else if field =? 3 then
    flag ← replace_once (ls_implementation s) value InvalidRelationship;
    Ok {| ls_symbol := ls_symbol s; ls_reference := ls_reference s; ls_implementation := flag;
          ls_type_definition := ls_type_definition s; ls_definition := ls_definition s |}
  else if field =? 4 then
    flag ← replace_once (ls_type_definition s) value InvalidRelationship;
    Ok {| ls_symbol := ls_symbol s; ls_reference := ls_reference s;
          ls_implementation := ls_implementation s; ls_type_definition := flag;
          ls_definition := ls_definition s |}
  else if field =? 5 then
    flag ← replace_once (ls_definition s) value InvalidRelationship;
    Ok {| ls_symbol := ls_symbol s; ls_reference := ls_reference s;
          ls_implementation := ls_implementation s; ls_type_definition := ls_type_definition s;
          ls_definition := flag |}
  else Err InvalidRelationship.

Definition relationship_field (input : bytes) (s : RelationshipState) (field wire cursor : Z)
    : result ScipWireError (RelationshipState * Z) :=
  if (field =? 1) && (wire =? WIRE_LENGTH_DELIMITED) then
    '(value, cursor) ← read_length_delimited input cursor MAX_SYMBOL_BYTES;
    s ← (symbol ← symbol_once (ls_symbol s) value InvalidRelationship;
         Ok {| ls_symbol := symbol; ls_reference := ls_reference s;
               ls_implementation := ls_implementation s; ls_type_definition := ls_type_definition s;
               ls_definition := ls_definition s |});
    Ok (s, cursor)
  else if (2 <=? field) && (field <=? 5) && (wire =? WIRE_VARINT) then
    '(value, cursor) ← read_varint input cursor;
    s ← (value ← decode_bool value; relationship_flag s field value);
    Ok (s, cursor)
  else if (1 <=? field) && (field <=? 5) then Err InvalidRelationship
  else
    cursor ← skip_field MAX_DOCUMENT_BYTES input wire cursor;
    Ok (s, cursor).

Definition relationship_finish (s : RelationshipState) : result ScipWireError ScipWireRelationship :=
  symbol ← ok_or (ls_symbol s) InvalidRelationship;
  let relationship :=
    {| rel_symbol := symbol; rel_is_reference := default false (ls_reference s);
       rel_is_implementation := default false (ls_implementation s);
       rel_is_type_definition := default false (ls_type_definition s);
       rel_is_definition := default false (ls_definition s) |} in
  if negb (rel_is_reference relationship) && negb (rel_is_implementation relationship)
     && negb (rel_is_type_definition relationship) && negb (rel_is_definition relationship)
  then Err InvalidRelationship
  else Ok relationship.

Definition parse_scip_relationship (input : bytes) : ctl ScipWireError ScipWireRelationship :=
  check;;
  s ← message_loop id input (λ s field wire cursor, lift (relationship_field input s field wire cursor))
        relationship_init;
  lift (relationship_finish s).

Record ScipWireSymbolInformation := {
  info_symbol : bytes;
  info_relationships : Z;
}.

Definition count_relationship (count : Z) : result ScipWireError Z :=
  relationships ← ok_or (u32_checked_add count 1) TooManyRelationships;
  if MAX_SYMBOL_RELATIONSHIPS <? relationships then Err TooManyRelationships else Ok relationships.

Section symbol_information.
Context {A : Type} (on_relationship : ScipWireRelationship → A → result ScipWireError A).

(** The variables of the loop with the state of the callback. *)
Record SymbolState := {
  ss_symbol : option bytes;
  ss_relationships : Z;
  ss_consumer : A;
}.

Definition symbol_field (input : bytes) (s : SymbolState) (field wire cursor : Z)
    : ctl ScipWireError (SymbolState * Z) :=
  if (field =? 1) && (wire =? WIRE_LENGTH_DELIMITED) then
    lift
      ('(value, cursor) ← read_length_delimited input cursor MAX_SYMBOL_BYTES;
       s ← (symbol ← symbol_once (ss_symbol s) value InvalidSymbolInformation;
            Ok {| ss_symbol := symbol; ss_relationships := ss_relationships s;
                  ss_consumer := ss_consumer s |});
       Ok (s, cursor))
  else if (field =? 4) && (wire =? WIRE_LENGTH_DELIMITED) then
    '(raw, cursor) ← lift (read_length_delimited input cursor MAX_DOCUMENT_BYTES);
    s ← (relationship ← parse_scip_relationship raw;
         lift
           (relationships ← count_relationship (ss_relationships s);
            consumer ← on_relationship relationship (ss_consumer s);
            Ok {| ss_symbol := ss_symbol s; ss_relationships := relationships; ss_consumer := consumer |}));
    mret (s, cursor)
  else if (field =? 1) || (field =? 4) then throw InvalidSymbolInformation
  else
    cursor ← lift (skip_field MAX_DOCUMENT_BYTES input wire cursor);
    mret (s, cursor).

Definition parse_scip_symbol_information (input : bytes) (consumer : A)
    : ctl ScipWireError (ScipWireSymbolInformation * A) :=
  check;;
  s ← message_loop id input (symbol_field input)
        {| ss_symbol := None; ss_relationships := 0; ss_consumer := consumer |};
  symbol ← lift (ok_or (ss_symbol s) InvalidSymbolInformation);
  mret ({| info_symbol := symbol; info_relationships := ss_relationships s |}, ss_consumer s).
End symbol_information.

(** ** Documents against their source *)

Record ScipWireValidatedOccurrence := {
  vo_ordinal : Z;
  vo_span : ByteSpan;
  vo_symbol : option bytes;
  vo_roles : Z;
}.

Record ScipWireDecodedDocument := {
  dd_path : RepositoryPath;
  dd_position_encoding : ScipWirePositionEncoding;
  dd_occurrences : Z;
}.

Definition validate_scip_document_path (header : ScipWireDocumentHeader) (limits : RepositoryPathLimits)
    : result ScipWireError RepositoryPath :=
  map_err (λ _, InvalidDocumentHeader) (try_from_bytes (relative_path header) limits).

Section source.
Context {D : Type} `{EqDecision D} (sha256 : bytes → D).

Notation Manifest := (SourceManifest RepositoryPath SourceFileKind D).
Notation Entry := (SourceManifestEntry RepositoryPath SourceFileKind D).

(** [entries.binary_search_by(|candidate| candidate.path().cmp(&path))] on a slice sorted by
    path: the entry of that path, if there is one. *)
Definition find_entry (entries : list Entry) (p : RepositoryPath) : option Entry :=
  List.find (λ e, match path_cmp (path e) p with Eq => true | _ => false end) entries.

Definition validate_scip_document_source (header : ScipWireDocumentHeader) (manifest : Manifest)
    (path_limits : RepositoryPathLimits) (source_bytes : bytes) : result ScipWireError Entry :=
  p ← validate_scip_document_path header path_limits;
  entry ← ok_or (find_entry (entries manifest) p) SourceNotInManifest;
  if negb (bool_decide (file_type entry = Regular)) then Err SourceNotInManifest
  else
    let actual := sha256 source_bytes in
    if negb (bool_decide (content_digest entry = actual)) then Err SourceDigestMismatch
    else Ok entry.

Section decode.
Context {A : Type} (on_occurrence : ScipWireValidatedOccurrence → A → result ScipWireError A).

(** The occurrence counter with the state of the callback. *)
Record DocumentState := {
  ds_occurrences : Z;
  ds_consumer : A;
}.

Definition document_field (input source_bytes : bytes) (encoding : ScipWirePositionEncoding)
    (s : DocumentState) (field wire cursor : Z) : ctl ScipWireError (DocumentState * Z) :=
  if (field =? 2) && (wire =? WIRE_LENGTH_DELIMITED) then
    '(raw, cursor) ← lift (read_length_delimited input cursor MAX_DOCUMENT_BYTES);
    s ← (occurrence ← parse_scip_occurrence raw;
         lift
           (span ← validate_scip_source_range (occ_range occurrence) encoding source_bytes;
            let ordinal := ds_occurrences s in
            occurrences ← count_entry (ds_occurrences s) MAX_DOCUMENT_OCCURRENCES;
            consumer ← on_occurrence {| vo_ordinal := ordinal; vo_span := span;
                                        vo_symbol := occ_symbol occurrence;
                                        vo_roles := occ_roles occurrence |} (ds_consumer s);
            Ok {| ds_occurrences := occurrences; ds_consumer := consumer |}));
    mret (s, cursor)
  else if ((field =? 1) || (field =? 3) || (field =? 4) || (field =? 5)) && (wire =? WIRE_LENGTH_DELIMITED)
  then
    '(_, cursor) ← lift (read_length_delimited input cursor MAX_DOCUMENT_BYTES);
    s ← mret s;
    mret (s, cursor)
  else if (field =? 6) && (wire =? WIRE_VARINT) then
    '(_, cursor) ← lift (read_varint input cursor);
    s ← mret s;
    mret (s, cursor)
  else if (1 <=? field) && (field <=? 6) then throw InvalidDocumentHeader
  else
    cursor ← lift (skip_field MAX_DOCUMENT_BYTES input wire cursor);
    mret (s, cursor).

Definition decode_scip_document (input : bytes) (manifest : Manifest) (path_limits : RepositoryPathLimits)
    (source_bytes : bytes) (encoding : ScipWirePositionEncoding) (consumer : A)
    : ctl ScipWireError (ScipWireDecodedDocument * A) :=
  header ← parse_scip_document_header input;
  p ← lift (validate_scip_document_path header path_limits);
  lift (validate_scip_document_source header manifest path_limits source_bytes);;
  s ← message_loop id input (document_field input source_bytes encoding)
        {| ds_occurrences := 0; ds_consumer := consumer |};
  mret ({| dd_path := p; dd_position_encoding := encoding; dd_occurrences := ds_occurrences s |},
        ds_consumer s).
End decode.
End source.

(** ** The outer index *)

Record ScipWireLimits := {
  max_input_bytes : Z;
  max_documents : Z;
  max_document_bytes : Z;
  max_metadata_bytes : Z;
  max_ignored_field_bytes : Z;
}.

Definition scip_limits_DEFAULT : ScipWireLimits :=
  {| max_input_bytes := MAX_INPUT_BYTES; max_documents := MAX_DOCUMENTS;
     max_document_bytes := MAX_DOCUMENT_BYTES; max_metadata_bytes := MAX_METADATA_BYTES;
     max_ignored_field_bytes := MAX_IGNORED_FIELD_BYTES |}.

Definition scip_limits_is_valid (l : ScipWireLimits) : bool :=
  negb (max_input_bytes l =? 0) && (max_input_bytes l <=? MAX_INPUT_BYTES)
  && negb (max_documents l =? 0) && (max_documents l <=? MAX_DOCUMENTS)
  && negb (max_document_bytes l =? 0) && (max_document_bytes l <=? MAX_DOCUMENT_BYTES)
  && negb (max_metadata_bytes l =? 0) && (max_metadata_bytes l <=? MAX_METADATA_BYTES)
  && negb (max_ignored_field_bytes l =? 0) && (max_ignored_field_bytes l <=? MAX_IGNORED_FIELD_BYTES).

Definition scip_limits_try_new (input_bytes documents document_bytes metadata_bytes ignored_field_bytes : Z)
    : result ScipWireError ScipWireLimits :=
  let limits := {| max_input_bytes := input_bytes; max_documents := documents;
                   max_document_bytes := document_bytes; max_metadata_bytes := metadata_bytes;
                   max_ignored_field_bytes := ignored_field_bytes |} in
  if scip_limits_is_valid limits then Ok limits else Err ScipInvalidLimits.

Record ScipWireDocument := {
  doc_ordinal : Z;
  doc_bytes : bytes;
}.

Record ScipWireSummary := {
  sum_metadata_present : bool;
  sum_documents : Z;
  sum_ignored_fields : Z;
}.

(** The callbacks may fail with more than an error of the scan, so the scan is in the error
    type [E] of its caller, into which [wire_error] carries its own errors. *)
Section scan.
Context {E A : Type} (wire_error : ScipWireError → E).
Context (on_metadata : bytes → A → ctl E A) (on_document : ScipWireDocument → A → ctl E A).

Record ScanState := {
  sc_metadata_present : bool;
  sc_documents : Z;
  sc_ignored_fields : Z;
  sc_consumer : A;
}.

Definition scan_field (input : bytes) (limits : ScipWireLimits) (s : ScanState) (field wire cursor : Z)
    : ctl E (ScanState * Z) :=
  if (field =? METADATA_FIELD) && (wire =? WIRE_LENGTH_DELIMITED) then
    if sc_metadata_present s then throw (wire_error DuplicateMetadata)
    else if negb (cursor =? 1) then throw (wire_error MetadataNotFirst)
    else
      '(bs, cursor) ← lift (map_err wire_error (read_length_delimited input cursor (max_metadata_bytes limits)));
      consumer ← on_metadata bs (sc_consumer s);
      mret ({| sc_metadata_present := true; sc_documents := sc_documents s;
               sc_ignored_fields := sc_ignored_fields s; sc_consumer := consumer |}, cursor)
  else if (field =? DOCUMENT_FIELD) && (wire =? WIRE_LENGTH_DELIMITED) then
    if negb (sc_metadata_present s) then throw (wire_error MetadataNotFirst)
    else if sc_documents s =? max_documents limits then throw (wire_error TooManyDocuments)
    else
      '(bs, cursor) ← lift (map_err wire_error (read_length_delimited input cursor (max_document_bytes limits)));
      let ordinal := sc_documents s in
      documents ← lift (ok_or (u32_checked_add (sc_documents s) 1) (wire_error TooManyDocuments));
      consumer ← on_document {| doc_ordinal := ordinal; doc_bytes := bs |} (sc_consumer s);
      mret ({| sc_metadata_present := sc_metadata_present s; sc_documents := documents;
               sc_ignored_fields := sc_ignored_fields s; sc_consumer := consumer |}, cursor)
  else if negb ((wire =? WIRE_VARINT) || (wire =? WIRE_FIXED64) || (wire =? WIRE_LENGTH_DELIMITED)
                || (wire =? WIRE_FIXED32)) then throw (wire_error UnsupportedWireType)
  else if negb (sc_metadata_present s) then throw (wire_error MetadataNotFirst)
  else
    cursor ← lift (map_err wire_error (skip_field (max_ignored_field_bytes limits) input wire cursor));
    ignored ← lift (ok_or (u32_checked_add (sc_ignored_fields s) 1) (wire_error FieldTooLarge));
    mret ({| sc_metadata_present := sc_metadata_present s; sc_documents := sc_documents s;
             sc_ignored_fields := ignored; sc_consumer := sc_consumer s |}, cursor).

Definition scan_scip_wire (input : bytes) (limits : ScipWireLimits) (consumer : A)
    : ctl E (ScipWireSummary * A) :=
  input_bytes ← lift (ok_or (u64_of_len (length input)) (wire_error InputTooLarge));
  if max_input_bytes limits <? input_bytes then throw (wire_error InputTooLarge)
  else
    check;;
    s ← message_loop wire_error input (scan_field input limits)
          {| sc_metadata_present := false; sc_documents := 0; sc_ignored_fields := 0;
             sc_consumer := consumer |};
    if negb (sc_metadata_present s) then throw (wire_error MetadataNotFirst)
    else mret ({| sum_metadata_present := sc_metadata_present s; sum_documents := sc_documents s;
                  sum_ignored_fields := sc_ignored_fields s |}, sc_consumer s).
End scan.
