(* ===== verification/FieldReaders.v ===== *)
(** * Describing a message parser by its fields

    Shared lemmas for the parsers of [crates/repowitness-analysis/src/scip_wire.rs]: what
    each arm of a parser's [match] contributes to the set of messages it admits and to the
    value it gathers, in terms of the fields of the message. *)

From Stdlib Require Import ZArith Lia ZifyBool.
From stdpp Require Import base numbers list.
From S2P Require Import Prelude Ordering Utf8 WireFormat ScipWire.

Open Scope Z_scope.

(** The payloads of one field number, in order. *)
Definition values (n : Z) (fs : list wire_field) : list payload :=
  omap (λ f, if f.1 =? n then Some f.2 else None) fs.

Definition once (n : Z) (fs : list wire_field) : bool := (length (values n fs) <=? 1)%nat.

Definition occurs (n : Z) (fs : list wire_field) : Z := Z.of_nat (length (values n fs)).

(** The content of a payload of the expected wire type. *)
Definition payload_bytes (p : payload) : bytes := match p with PBytes bs => bs | _ => [] end.
Definition payload_int (p : payload) : Z := match p with PVarint v => v | _ => 0 end.

(** The value of a singular field. *)
Definition slot {A} (content : payload → A) (n : Z) (fs : list wire_field) : option A :=
  content <$> head (values n fs).

(** A payload of text within a length. *)
Definition valid_utf8 (bs : bytes) : bool := match from_utf8 bs with Some _ => true | None => false end.
Definition text_within (maximum : Z) (p : payload) : bool :=
  match p with PBytes bs => (len bs <=? maximum) && valid_utf8 bs | _ => false end.
Definition bytes_within (maximum : Z) (p : payload) : bool :=
  match p with PBytes bs => len bs <=? maximum | _ => false end.

(** A symbol is text within its bound, and not empty. *)
Definition symbol_within (p : payload) : bool :=
  text_within MAX_SYMBOL_BYTES p && negb (bool_decide (payload_bytes p = [])).

Lemma values_nil n : values n [] = [].
Proof. done. Qed.

Lemma values_app n fs fs' : values n (fs ++ fs') = values n fs ++ values n fs'.
Proof. unfold values. by rewrite omap_app. Qed.

Lemma values_snoc n fs m p : values n (fs ++ [(m, p)]) = values n fs ++ (if m =? n then [p] else []).
Proof. rewrite values_app. f_equal. unfold values. csimpl. by destruct (m =? n). Qed.

Lemma values_snoc_other n fs m p : m ≠ n → values n (fs ++ [(m, p)]) = values n fs.
Proof. intros Hm. rewrite values_snoc, (proj2 (Z.eqb_neq m n)) by done. apply app_nil_r. Qed.

Lemma values_snoc_same n fs p : values n (fs ++ [(n, p)]) = values n fs ++ [p].
Proof. by rewrite values_snoc, Z.eqb_refl. Qed.

Lemma once_prefix n fs f : once n (fs ++ [f]) = true → once n fs = true.
Proof. unfold once. rewrite values_app, length_app. lia. Qed.

Lemma occurs_prefix n fs f : occurs n fs ≤ occurs n (fs ++ [f]).
Proof. unfold occurs. rewrite values_app, length_app. lia. Qed.

(** Setting a singular field. *)
Lemma replace_slot {A} (content : payload → A) n fs p e s' :
  replace_once (slot content n fs) (content p) e = Ok s' ↔
  once n (fs ++ [(n, p)]) = true ∧ s' = slot content n (fs ++ [(n, p)]).
Proof.
  unfold slot, once. rewrite values_snoc_same.
  destruct (values n fs) as [|p' ps]; simpl; [naive_solver|].
  rewrite length_app. simpl. split; [done|]. intros [? _]. lia.
Qed.

Lemma slot_other {A} (content : payload → A) n fs m p :
  m ≠ n → slot content n (fs ++ [(m, p)]) = slot content n fs.
Proof. intros. unfold slot. by rewrite values_snoc_other. Qed.

Lemma once_other n fs m p : m ≠ n → once n (fs ++ [(m, p)]) = once n fs.
Proof. intros. unfold once. by rewrite values_snoc_other. Qed.

Lemma occurs_other n fs m p : m ≠ n → occurs n (fs ++ [(m, p)]) = occurs n fs.
Proof. intros. unfold occurs. by rewrite values_snoc_other. Qed.

Lemma occurs_same n fs p : occurs n (fs ++ [(n, p)]) = occurs n fs + 1.
Proof. unfold occurs. rewrite values_snoc_same, length_app. simpl. lia. Qed.

Lemma once_same n fs p : once n (fs ++ [(n, p)]) = negb (0 <? occurs n fs).
Proof. unfold once, occurs. rewrite values_snoc_same, length_app. simpl. lia. Qed.

Lemma slot_first {A} (content : payload → A) n fs p :
  (0 <? occurs n fs) = false → slot content n (fs ++ [(n, p)]) = Some (content p).
Proof.
  unfold occurs, slot. rewrite values_snoc_same. destruct (values n fs); [done|]. simpl. lia.
Qed.

Lemma occurs_nonneg n fs : 0 ≤ occurs n fs.
Proof. unfold occurs. lia. Qed.

Lemma utf8_text_Ok bs t : utf8_text bs = Ok t ↔ t = bs ∧ valid_utf8 bs = true.
Proof. unfold utf8_text, valid_utf8. destruct (from_utf8 bs); naive_solver. Qed.

Lemma symbol_once_Ok fs n bs e s' :
  symbol_once (slot payload_bytes n fs) bs e = Ok s' ↔
  valid_utf8 bs = true ∧ bs ≠ [] ∧ once n (fs ++ [(n, PBytes bs)]) = true
  ∧ s' = slot payload_bytes n (fs ++ [(n, PBytes bs)]).
Proof.
  unfold symbol_once. rewrite bind_Ok. setoid_rewrite utf8_text_Ok. split.
  - intros (t & [-> Hv] & H). case_bool_decide as Hb; [done|].
    apply (replace_slot payload_bytes n fs (PBytes bs)) in H. tauto.
  - intros (Hv & Hb & H). exists bs. split; [done|]. rewrite bool_decide_eq_false_2 by done.
    by apply (replace_slot payload_bytes n fs (PBytes bs)).
Qed.

(** ** The steps of an update

    Each equivalence peels the first step off an update that succeeds. *)

Section updates.
Context {S : Type} (fs : list wire_field) (s : S).

Lemma step_utf8 bs (k : bytes → result ScipWireError S) :
  (t ← utf8_text bs; k t) = Ok s ↔ valid_utf8 bs = true ∧ k bs = Ok s.
Proof. rewrite bind_Ok. setoid_rewrite utf8_text_Ok. naive_solver. Qed.

Lemma step_replace {A} (content : payload → A) n p e (k : option A → result ScipWireError S) :
  (x ← replace_once (slot content n fs) (content p) e; k x) = Ok s ↔
  once n (fs ++ [(n, p)]) = true ∧ k (slot content n (fs ++ [(n, p)])) = Ok s.
Proof. rewrite bind_Ok. setoid_rewrite replace_slot. naive_solver. Qed.

Lemma step_text n bs e (k : option bytes → result ScipWireError S) :
  (x ← replace_once (slot payload_bytes n fs) bs e; k x) = Ok s ↔
  once n (fs ++ [(n, PBytes bs)]) = true ∧ k (slot payload_bytes n (fs ++ [(n, PBytes bs)])) = Ok s.
Proof. apply (step_replace payload_bytes n (PBytes bs)). Qed.

Lemma step_symbol n bs e (k : option bytes → result ScipWireError S) :
  (x ← symbol_once (slot payload_bytes n fs) bs e; k x) = Ok s ↔
  (valid_utf8 bs = true ∧ negb (bool_decide (bs = [])) = true ∧ once n (fs ++ [(n, PBytes bs)]) = true)
  ∧ k (slot payload_bytes n (fs ++ [(n, PBytes bs)])) = Ok s.
Proof.
  rewrite bind_Ok. setoid_rewrite symbol_once_Ok. rewrite negb_true_iff, bool_decide_eq_false. naive_solver.
Qed.

Lemma step_count n maximum (k : Z → result ScipWireError S) :
  maximum ≤ u32_max →
  (x ← count_entry (occurs n fs) maximum; k x) = Ok s ↔
  occurs n fs + 1 ≤ maximum ∧ k (occurs n fs + 1) = Ok s.
Proof.
  intros Hm. unfold count_entry, u32_checked_add, checked.
  assert (0 ≤ occurs n fs) by (unfold occurs; lia).
  destruct ((0 <=? occurs n fs + 1) && (occurs n fs + 1 <=? u32_max)) eqn:E; simpl; [|split; [done|lia]].
  destruct (Z.ltb_spec maximum (occurs n fs + 1)); simpl; split; [done|lia|by intros; split; [lia|]|tauto].
Qed.

Lemma step_i32 v (k : Z → result ScipWireError S) :
  (x ← decode_nonnegative_i32 v; k x) = Ok s ↔ 0 ≤ v ≤ 2147483647 ∧ k v = Ok s.
Proof.
  unfold decode_nonnegative_i32, u32_try_from, checked.
  destruct ((0 <=? v) && (v <=? 2147483647)) eqn:E; simpl; [|split; [done|lia]].
  assert ((0 <=? v) && (v <=? u32_max) = true) as -> by (unfold u32_max; lia). simpl.
  split; [|tauto]. by split; [lia|].
Qed.
End updates.

(** Drops the fields another field number does not touch. *)
Ltac other_fields :=
  repeat match goal with
  | |- context [slot ?x ?n (?fs ++ [(?m, ?p)])] => rewrite (slot_other x n fs m p) by lia
  | |- context [once ?n (?fs ++ [(?m, ?p)])] => rewrite (once_other n fs m p) by lia
  | |- context [occurs ?n (?fs ++ [(?m, ?p)])] => rewrite (occurs_other n fs m p) by lia
  end.

(** Closes the equivalence of a peeled update with what the fields admit: [r] is the record
    the arm builds. *)
Ltac close_arm unfold_gather :=
  cbn [bytes_within text_within ignorable payload_bytes payload_int];
  lazymatch goal with
  | |- context [Ok ?r = Ok ?s'] =>
      lazymatch goal with
      | |- context [s' = ?g] =>
          replace r with g
            by (unfold_gather; rewrite ?occurs_same; other_fields; done)
      end
  end;
  rewrite ?occurs_same; other_fields;
  split; [intros; destruct_and?; simplify_eq; split; [(done || lia)|done] | intros [? ->]; split_and!; (done || lia)].

(** ** One arm of a parser *)

Section arms.
Context {S : Type} (input : bytes) (Hin : slice_ok input).
Context (admits : list wire_field → bool) (gather : list wire_field → S).
Context (fs : list wire_field) (field c : Z) (Hc : within_input input c).

(** What a step over the field [field] with payloads of one wire type must do. *)
Definition arm_spec (wire : Z) (r : result ScipWireError (S * Z)) : Prop :=
  ∀ s' c', r = Ok (s', c') ↔
    ∃ p, wire = wire_type p ∧ payload_at input c p c'
         ∧ admits (fs ++ [(field, p)]) = true ∧ s' = gather (fs ++ [(field, p)]).

Lemma arm_bytes maximum (update : bytes → result ScipWireError S) :
  maximum ≤ u32_max →
  (∀ bs s', len bs ≤ maximum ∧ update bs = Ok s' ↔
     admits (fs ++ [(field, PBytes bs)]) = true ∧ s' = gather (fs ++ [(field, PBytes bs)])) →
  arm_spec WIRE_LENGTH_DELIMITED
    ('(value, cursor) ← read_length_delimited input c maximum; s ← update value; Ok (s, cursor)).
Proof.
  intros Hm H s' c'. rewrite bytes_arm by done. split.
  - intros (bs & Hp & Hu). apply H in Hu. by exists (PBytes bs).
  - intros ([| |bs|] & Hw & Hp & Hu); try done. apply H in Hu. by exists bs.
Qed.

Lemma arm_varint (update : Z → result ScipWireError S) :
  (∀ v s', update v = Ok s' ↔
     admits (fs ++ [(field, PVarint v)]) = true ∧ s' = gather (fs ++ [(field, PVarint v)])) →
  arm_spec WIRE_VARINT ('(value, cursor) ← read_varint input c; s ← update value; Ok (s, cursor)).
Proof.
  intros H s' c'. rewrite varint_arm by done. split.
  - intros (v & Hp & Hu). apply H in Hu. by exists (PVarint v).
  - intros ([v| | |] & Hw & Hp & Hu); try done. apply H in Hu. by exists v.
Qed.

Lemma arm_reject wire e :
  (∀ p, wire = wire_type p → admits (fs ++ [(field, p)]) = false) → arm_spec wire (Err e).
Proof.
  intros H s' c'. split; [done|]. intros (p & Hw & _ & Ha & _). rewrite H in Ha by done. done.
Qed.

Lemma arm_skip wire maximum :
  maximum ≤ u32_max →
  (∀ p, wire = wire_type p → admits (fs ++ [(field, p)]) = ignorable maximum p) →
  (∀ p, wire = wire_type p → gather (fs ++ [(field, p)]) = gather fs) →
  arm_spec wire (cursor ← skip_field maximum input wire c; Ok (gather fs, cursor)).
Proof.
  intros Hm Ha Hg s' c'. rewrite bind_Ok. split.
  - intros (m & (p & Hw & Hp & Hi)%skip_field_spec & [= <- <-]); [|done..].
    exists p. by rewrite Ha, Hg.
  - intros (p & Hw & Hp & Hi & ->). exists c'. rewrite Hg by done. split; [|done].
    apply skip_field_spec; [done..|]. exists p. by rewrite <- Ha.
Qed.
End arms.

(** A parser some of whose arms consult the control. *)
Lemma controlled_reader {S} (input : bytes) (step : S → Z → Z → Z → ctl ScipWireError (S * Z)) admits gather :
  (∀ s field wire c, steady (step s field wire c)) →
  admits [] = true → (∀ fs f, admits (fs ++ [f]) = true → admits fs = true) →
  (∀ fs field wire c, within_input input c → 1 ≤ field ≤ u32_max → admits fs = true →
     arm_spec input admits gather fs field c wire (run never (step (gather fs) field wire c))) →
  FieldReader input step admits gather.
Proof. intros Hst Hn Hp Hs. split; [done..|]. intros fs field wire c s' c' Hc Hf Ha. by apply Hs. Qed.

(** Such arms, without the control. *)
Lemma run_never_arm {V S} (r : result ScipWireError (V * Z)) (m : V → ctl ScipWireError S) :
  (∀ v, steady (m v)) →
  run never ('(value, cursor) ← lift r; s ← m value; mret (s, cursor)) =
  '(value, cursor) ← r; s ← run never (m value); Ok (s, cursor).
Proof.
  intros Hm. rewrite run_never_lift_bind.
  2:{ intros [v c]. apply steady_bind; [done|]. intros; apply steady_ret. }
  destruct r as [[v c]|e]; [|done]. simpl. rewrite run_never_bind; [done|]. intros; apply steady_ret.
Qed.

Lemma run_never_skip {S} (r : result ScipWireError Z) (s : S) :
  run never (cursor ← lift r; mret (s, cursor)) = cursor ← r; Ok (s, cursor).
Proof. rewrite run_never_lift_bind; [done|]. intros; apply steady_ret. Qed.

(** ** Readers in the error type of a caller *)

Section mapped.
Context {E : Type} (wire_error : ScipWireError → E).

Lemma mapped_bytes {R} input c maximum (k : bytes → Z → ctl E R) r :
  slice_ok input → within_input input c → maximum ≤ u32_max → (∀ bs m, steady (k bs m)) →
  run never ('(bs, cursor) ← lift (map_err wire_error (read_length_delimited input c maximum)); k bs cursor) = Ok r ↔
  ∃ bs m, payload_at input c (PBytes bs) m ∧ len bs ≤ maximum ∧ run never (k bs m) = Ok r.
Proof.
  intros Hin Hc Hm Hk. rewrite run_never_lift_bind by (intros []; auto). rewrite bind_Ok. split.
  - intros ([bs m] & H & Hr). apply map_err_Ok, read_length_delimited_spec in H as [Hp Hl]; [|done..]. eauto.
  - intros (bs & m & Hp & Hl & Hr). exists (bs, m). split; [|done].
    by apply map_err_Ok, read_length_delimited_spec.
Qed.

Lemma mapped_skip {R} input c maximum wire (k : Z → ctl E R) r :
  slice_ok input → within_input input c → maximum ≤ u32_max → (∀ m, steady (k m)) →
  run never (cursor ← lift (map_err wire_error (skip_field maximum input wire c)); k cursor) = Ok r ↔
  ∃ p m, wire = wire_type p ∧ payload_at input c p m ∧ ignorable maximum p = true ∧ run never (k m) = Ok r.
Proof.
  intros Hin Hc Hm Hk. rewrite run_never_lift_bind by done. rewrite bind_Ok. split.
  - intros (m & H & Hr). apply map_err_Ok, skip_field_spec in H as (p & Hw & Hp & Hi); [|done..]. eauto 6.
  - intros (p & m & Hw & Hp & Hi & Hr). exists m. split; [|done]. apply map_err_Ok, skip_field_spec; eauto.
Qed.
End mapped.

(** A parser whose [match] does not consult the control. *)
Lemma pure_reader {S} (input : bytes) (step : S → Z → Z → Z → result ScipWireError (S * Z)) admits gather :
  admits [] = true → (∀ fs f, admits (fs ++ [f]) = true → admits fs = true) →
  (∀ fs field wire c, within_input input c → 1 ≤ field ≤ u32_max → admits fs = true →
     arm_spec input admits gather fs field c wire (step (gather fs) field wire c)) →
  FieldReader input (λ s field wire cursor, lift (step s field wire cursor)) admits gather.
Proof.
  intros Hn Hp Hs. split; [|done|done|].
  - intros s field wire c. apply steady_lift.
  - intros fs field wire c s' c' Hc Hf Ha. rewrite run_never_lift. by apply Hs.
Qed.

(** Decides the comparisons of numerals, and simplifies the tests they stand in. *)
Ltac closed_tests :=
  repeat match goal with
  | |- context [?t] =>
      lazymatch t with (?a =? ?b) => idtac | (?a <=? ?b) => idtac | (?a <? ?b) => idtac end;
      let v := eval vm_compute in t in
      lazymatch v with true => idtac | false => idtac end;
      change t with v
  end;
  cbn [andb orb negb fst snd].

(** Decides the comparisons of a number that is none of those listed. *)
Ltac open_tests x :=
  repeat match goal with
  | |- context [x =? ?b] => rewrite (proj2 (Z.eqb_neq x b)) by lia
  | |- context [?b <=? x] => rewrite (proj2 (Z.leb_le b x)) by lia
  | |- context [x <=? ?b] => rewrite (proj2 (Z.leb_gt x b)) by lia
  end;
  cbn [andb orb negb fst snd].

(** Splits the test of an arm on the wire type. *)
Ltac split_wire :=
  match goal with
  | |- context [?w =? ?t] => is_var w; destruct (Z.eqb_spec w t) as [->|?]; closed_tests
  end.

Lemma forallb_snoc {A} (p : A → bool) xs x : forallb p (xs ++ [x]) = forallb p xs && p x.
Proof. rewrite forallb_app. simpl. by rewrite andb_true_r. Qed.

(** The arm that rejects the other wire types of a known field; [Ha] says what is admitted. *)
Ltac reject_arm Ha :=
  apply arm_reject; intros [] Hw; rewrite Ha; cbn in Hw |- *; first [done | lia | congruence].

(** The arm that drops an unknown field. *)
Ltac skip_arm Ha unfold_gather :=
  apply arm_skip;
  [done..| |]; intros p _; [rewrite Ha; other_fields; lia|unfold_gather; by other_fields].
