(* ===== verification/ScipMessages.v ===== *)
(** * What the SCIP message parsers admit

    For each message parser of [crates/repowitness-analysis/src/scip_wire.rs], the sequences
    of fields it admits, stated field by field, and the value it gathers from them; a parser
    returns a value exactly on the encodings of admitted fields. *)

From Stdlib Require Import ZArith Lia ZifyBool.
From stdpp Require Import base numbers list.
From S2P Require Import Prelude Ordering Utf8 GraphIdentity WireFormat SourceRange ScipWire FieldReaders.

Open Scope Z_scope.

(** ** Tool information *)

Definition tool_info_ok (f : wire_field) : bool :=
  if f.1 =? 1 then text_within MAX_METADATA_BYTES f.2
  else if (f.1 =? 2) || (f.1 =? 3) then bytes_within MAX_METADATA_BYTES f.2
  else ignorable MAX_METADATA_BYTES f.2.

Definition tool_info_admits (fs : list wire_field) : bool := forallb tool_info_ok fs && once 1 fs.

Lemma tool_info_reader input :
  slice_ok input →
  FieldReader input (λ name field wire cursor, lift (tool_info_field input name field wire cursor))
    tool_info_admits (slot payload_bytes 1).
Proof.
  intros Hin. apply pure_reader; [done|..].
  { intros fs f. unfold tool_info_admits. rewrite forallb_snoc. pose proof (once_prefix 1 fs f). lia. }
  intros fs field wire c Hc Hf [Hok H1]%andb_true_iff. unfold tool_info_field.
  assert (∀ p, tool_info_admits (fs ++ [(field, p)]) = tool_info_ok (field, p) && once 1 (fs ++ [(field, p)])) as Ha.
  { intros p. unfold tool_info_admits. by rewrite forallb_snoc, Hok. }
  unfold tool_info_ok in Ha. cbn [fst snd] in Ha.
  destruct (Z.eqb_spec field 1) as [->|]; [|destruct (Z.eqb_spec field 2) as [->|];
    [|destruct (Z.eqb_spec field 3) as [->|]]].
  all: revert Ha; try (open_tests field); closed_tests; intros Ha; try split_wire.
  1: { apply arm_bytes; [done..|]. intros bs s'. rewrite Ha, bind_Ok. setoid_rewrite utf8_text_Ok.
    pose proof (replace_slot payload_bytes 1 fs (PBytes bs) InvalidMetadata s') as Hr. cbn in Hr |- *.
    split.
    - intros (Hl & t & [-> Hv] & Hs). apply Hr in Hs as [-> ->]. rewrite Hv. split; [lia|done].
    - intros [H ->]. split; [lia|]. exists bs. split; [split; [done|lia]|]. apply Hr. split; [lia|done]. }
  1,3,5: reject_arm Ha.
  3: skip_arm Ha idtac.
  all: apply arm_bytes; [done..|]; intros bs s'; rewrite Ha; other_fields; cbn.
  all: rewrite H1; split; [intros [Hl [= <-]]|intros [H ->]]; split; (done || lia).
Qed.

Definition tool_info_is_scip_go (fs : list wire_field) : bool :=
  bool_decide (slot payload_bytes 1 fs = Some (b_of "scip-go")).

Lemma steady_tool_info input : steady (parse_scip_tool_info_is_scip_go input).
Proof. unfold parse_scip_tool_info_is_scip_go. solve_steady. Qed.
#[export] Hint Resolve steady_tool_info : steady.

Lemma tool_info_spec input b :
  slice_ok input →
  run never (parse_scip_tool_info_is_scip_go input) = Ok b ↔
  ∃ fs, message_of input fs ∧ tool_info_admits fs = true ∧ b = tool_info_is_scip_go fs.
Proof.
  intros Hin. pose proof (tool_info_reader input Hin). unfold parse_scip_tool_info_is_scip_go.
  rewrite run_never_bind, bind_Ok by (intros; apply steady_ret).
  change None with (slot payload_bytes 1 []). setoid_rewrite (message_loop_spec id); [|done..]. split.
  - intros (s & (fs & Hm & Ha & ->) & [= <-]). by exists fs.
  - intros (fs & Hm & Ha & ->). eexists. split; [by exists fs|done].
Qed.

(** ** Document headers *)

Definition position_of (p : payload) : ScipWirePositionEncoding :=
  match decode_position_encoding (payload_int p) with Ok e => e | Err _ => PositionUtf8 end.

Definition header_ok (f : wire_field) : bool :=
  if (f.1 =? 1) || (f.1 =? 4) then text_within MAX_METADATA_BYTES f.2
  else if (f.1 =? 2) || (f.1 =? 3) then bytes_within MAX_DOCUMENT_BYTES f.2
  else if f.1 =? 5 then false
  else if f.1 =? 6 then match f.2 with PVarint v => (1 <=? v) && (v <=? 3) | _ => false end
  else ignorable MAX_IGNORED_FIELD_BYTES f.2.

Definition header_admits (fs : list wire_field) : bool :=
  forallb header_ok fs && once 1 fs && once 4 fs && once 6 fs
  && (occurs 2 fs <=? MAX_DOCUMENT_OCCURRENCES) && (occurs 3 fs <=? MAX_DOCUMENT_SYMBOLS).

Definition header_gather (fs : list wire_field) : HeaderState :=
  {| hs_path := slot payload_bytes 1 fs; hs_language := slot payload_bytes 4 fs;
     hs_encoding := slot position_of 6 fs; hs_occurrences := occurs 2 fs; hs_symbols := occurs 3 fs |}.

Lemma step_position {S} v (k : ScipWirePositionEncoding → result ScipWireError S) s :
  (value ← ok_or (u32_try_from v) InvalidDocumentHeader; e ← decode_position_encoding value; k e) = Ok s ↔
  1 ≤ v ≤ 3 ∧ k (position_of (PVarint v)) = Ok s.
Proof.
  unfold position_of, decode_position_encoding, u32_try_from, checked. simpl.
  destruct ((0 <=? v) && (v <=? u32_max)) eqn:E; simpl; [|split; [done|unfold u32_max in *; lia]].
  repeat case_match; simplify_eq/=; split; intros; destruct_and?; (done || lia || (split; [lia|done])).
Qed.

Lemma header_reader input :
  slice_ok input →
  FieldReader input (λ s field wire cursor, lift (header_field input s field wire cursor))
    header_admits header_gather.
Proof.
  intros Hin. apply pure_reader; [done|..].
  { intros fs f. unfold header_admits. rewrite forallb_snoc.
    pose proof (once_prefix 1 fs f). pose proof (once_prefix 4 fs f). pose proof (once_prefix 6 fs f).
    pose proof (occurs_prefix 2 fs f). pose proof (occurs_prefix 3 fs f). lia. }
  intros fs field wire c Hc Hf Hfs. unfold header_field.
  assert (∀ p, header_admits (fs ++ [(field, p)]) =
    header_ok (field, p) && once 1 (fs ++ [(field, p)]) && once 4 (fs ++ [(field, p)])
    && once 6 (fs ++ [(field, p)]) && (occurs 2 (fs ++ [(field, p)]) <=? MAX_DOCUMENT_OCCURRENCES)
    && (occurs 3 (fs ++ [(field, p)]) <=? MAX_DOCUMENT_SYMBOLS)) as Ha.
  { intros p. unfold header_admits in Hfs |- *. rewrite forallb_snoc. destruct (forallb header_ok fs); [done|].
    by simpl in Hfs. }
  unfold header_admits in Hfs. repeat rewrite andb_true_iff in Hfs. destruct Hfs as [[[[[Hok H1] H4] H6] H2] H3].
  unfold header_ok in Ha. cbn [fst snd] in Ha.
  destruct (Z.eqb_spec field 1) as [->|]; [|destruct (Z.eqb_spec field 2) as [->|];
    [|destruct (Z.eqb_spec field 3) as [->|]; [|destruct (Z.eqb_spec field 4) as [->|];
      [|destruct (Z.eqb_spec field 5) as [->|]; [|destruct (Z.eqb_spec field 6) as [->|]]]]]].
  all: revert Ha; try (open_tests field); closed_tests; intros Ha; try split_wire.
  all: try (reject_arm Ha).
  6: skip_arm Ha ltac:(unfold header_gather).
  all: cbn [hs_path hs_language hs_encoding hs_occurrences hs_symbols header_gather].
  1,4: apply arm_bytes; [done..|]; intros bs s'; rewrite Ha, step_utf8, step_text;
    close_arm ltac:(unfold header_gather).
  1,2: apply arm_bytes; [done..|]; intros bs s'; rewrite Ha, step_count by done;
    close_arm ltac:(unfold header_gather).
  apply arm_varint; [done..|]. intros v s'. rewrite Ha.
  rewrite step_position, (step_replace fs s' position_of 6 (PVarint v)).
  close_arm ltac:(unfold header_gather).
Qed.

Lemma steady_document_header input : steady (parse_scip_document_header input).
Proof. unfold parse_scip_document_header. solve_steady. Qed.
#[export] Hint Resolve steady_document_header : steady.

(** A document header is returned exactly for the encodings of admitted fields: one path, at most
    one language and one known position encoding, no inline text, and entries within their bounds,
    which the header counts. *)
Lemma document_header_spec input h :
  slice_ok input →
  run never (parse_scip_document_header input) = Ok h ↔
  ∃ fs, message_of input fs ∧ header_admits fs = true
    ∧ slot payload_bytes 1 fs = Some (relative_path h) ∧ language h = slot payload_bytes 4 fs
    ∧ position_encoding h = slot position_of 6 fs
    ∧ occurrences h = occurs 2 fs ∧ symbols h = occurs 3 fs.
Proof.
  intros Hin. pose proof (header_reader input Hin) as Hr. unfold parse_scip_document_header.
  rewrite run_never_check by solve_steady. rewrite run_never_bind, bind_Ok by solve_steady.
  change header_init with (header_gather []). setoid_rewrite (message_loop_spec id); [|done..].
  setoid_rewrite run_never_lift. unfold header_finish. split.
  - intros (s & (fs & Hm & Ha & ->) & H). cbn in H. destruct (slot payload_bytes 1 fs) eqn:E; [|done].
    injection H as <-. by exists fs.
  - intros (fs & Hm & Ha & Hp & Hl & He & Ho & Hsy). exists (header_gather fs). split; [by exists fs|].
    cbn. rewrite Hp, <- Hl, <- He, <- Ho, <- Hsy. by destruct h.
Qed.

(** ** Metadata *)

Definition text_encoding_of (p : payload) : ScipWireTextEncoding :=
  match decode_text_encoding (payload_int p) with Ok e => e | Err _ => TextUtf8 end.

Lemma step_text_encoding {S} v (k : ScipWireTextEncoding → result ScipWireError S) s :
  (value ← ok_or (u32_try_from v) UnsupportedTextEncoding; e ← decode_text_encoding value; k e) = Ok s ↔
  1 ≤ v ≤ 2 ∧ k (text_encoding_of (PVarint v)) = Ok s.
Proof.
  unfold text_encoding_of, decode_text_encoding, u32_try_from, checked. simpl.
  destruct ((0 <=? v) && (v <=? u32_max)) eqn:E; simpl; [|split; [done|unfold u32_max in *; lia]].
  repeat case_match; simplify_eq/=; split; intros; destruct_and?; (done || lia || (split; [lia|done])).
Qed.

(** The nested parser's verdict on a tool-information payload. *)
Definition tool_info_verdict (p : payload) : result ScipWireError bool :=
  run never (parse_scip_tool_info_is_scip_go (payload_bytes p)).

Definition metadata_ok (f : wire_field) : bool :=
  if f.1 =? 1 then match f.2 with PVarint v => v =? SUPPORTED_PROTOCOL_VERSION | _ => false end
  else if f.1 =? 2 then bytes_within MAX_METADATA_BYTES f.2 && is_ok (tool_info_verdict f.2)
  else if f.1 =? 4 then match f.2 with PVarint v => (1 <=? v) && (v <=? 2) | _ => false end
  else ignorable MAX_METADATA_BYTES f.2.

Definition metadata_admits (fs : list wire_field) : bool :=
  forallb metadata_ok fs && once 1 fs && once 2 fs && once 4 fs.

Definition metadata_gather (fs : list wire_field) : MetadataState :=
  {| ms_protocol_version_explicit := 0 <? occurs 1 fs;
     ms_text_encoding := slot text_encoding_of 4 fs;
     ms_scip_go_producer :=
       match slot tool_info_verdict 2 fs with Some (Ok b) => b | _ => false end;
     ms_tool_info_present := 0 <? occurs 2 fs |}.

Lemma steady_metadata_field input s field wire c : steady (metadata_field input s field wire c).
Proof. unfold metadata_field. solve_steady. Qed.
#[export] Hint Resolve steady_metadata_field : steady.

Lemma metadata_reader input :
  slice_ok input → FieldReader input (metadata_field input) metadata_admits metadata_gather.
Proof.
  intros Hin. apply controlled_reader; [apply steady_metadata_field|done|..].
  { intros fs f. unfold metadata_admits. rewrite forallb_snoc.
    pose proof (once_prefix 1 fs f). pose proof (once_prefix 2 fs f). pose proof (once_prefix 4 fs f). lia. }
  intros fs field wire c Hc Hf Hfs. unfold metadata_field.
  assert (∀ p, metadata_admits (fs ++ [(field, p)]) =
    metadata_ok (field, p) && once 1 (fs ++ [(field, p)]) && once 2 (fs ++ [(field, p)])
    && once 4 (fs ++ [(field, p)])) as Ha.
  { intros p. unfold metadata_admits in Hfs |- *. rewrite forallb_snoc. destruct (forallb metadata_ok fs); [done|].
    by simpl in Hfs. }
  unfold metadata_admits in Hfs. repeat rewrite andb_true_iff in Hfs. destruct Hfs as [[[Hok H1] H2] H4].
  unfold metadata_ok in Ha. cbn [fst snd] in Ha.
  destruct (Z.eqb_spec field 1) as [->|]; [|destruct (Z.eqb_spec field 2) as [->|];
    [|destruct (Z.eqb_spec field 4) as [->|]]].
  all: revert Ha; change METADATA_PROTOCOL_VERSION_FIELD with 1; change METADATA_TEXT_ENCODING_FIELD with 4;
    try (open_tests field); closed_tests; intros Ha; try split_wire.
  all: rewrite ?run_never_lift, ?run_never_throw, ?run_never_skip.
  all: try (reject_arm Ha).
  4: skip_arm Ha ltac:(unfold metadata_gather).
  all: cbn [ms_protocol_version_explicit ms_text_encoding ms_scip_go_producer ms_tool_info_present metadata_gather].
  - apply arm_varint; [done..|]. intros v s'. rewrite Ha, once_same. other_fields. rewrite H2, H4.
    pose proof (occurs_nonneg 1 fs). unfold u32_try_from, checked, metadata_gather. rewrite occurs_same.
    other_fields. destruct (Z.ltb_spec 0 (occurs 1 fs + 1)); [|lia]. change SUPPORTED_PROTOCOL_VERSION with 0.
    destruct (Z.eqb_spec v 0) as [->|Hv]; simpl.
    + destruct (0 <? occurs 1 fs); simpl; [by split; [|intros []]|].
      split; [by intros [= <-]|by intros [_ ->]].
    + destruct ((0 <=? v) && (v <=? u32_max)); simpl; [|by split; [|intros []]].
      destruct (Z.eqb_spec v 0); [done|]. by split; [|intros []].
  - destruct (0 <? occurs 2 fs) eqn:E.
    { apply arm_reject. intros p _. rewrite Ha, once_same, E. simpl. by rewrite andb_false_r. }
    rewrite run_never_arm by solve_steady. apply arm_bytes; [done..|]. intros bs s'.
    rewrite Ha, once_same, E. other_fields. rewrite H1, H4, run_never_bind, bind_Ok by solve_steady.
    unfold metadata_gather. rewrite slot_first, occurs_same by done. other_fields.
    pose proof (occurs_nonneg 2 fs). destruct (Z.ltb_spec 0 (occurs 2 fs + 1)); [|lia].
    unfold tool_info_verdict. simpl. destruct (run never (parse_scip_tool_info_is_scip_go bs)) as [b|e]; simpl.
    + split; [intros (Hl & b' & [= <-] & [= <-]); split; [lia|done]|].
      intros [? ->]. split; [lia|]. by exists b.
    + split; [by intros (_ & b & ? & _)|]. intros [? _]. lia.
  - apply arm_varint; [done..|]. intros v s'.
    rewrite Ha, step_text_encoding, (step_replace fs s' text_encoding_of 4 (PVarint v)).
    close_arm ltac:(unfold metadata_gather).
Qed.

Lemma steady_metadata input : steady (parse_scip_metadata input).
Proof. unfold parse_scip_metadata. solve_steady. Qed.
#[export] Hint Resolve steady_metadata : steady.

Lemma metadata_spec input m :
  slice_ok input →
  run never (parse_scip_metadata input) = Ok m ↔
  ∃ fs, message_of input fs ∧ metadata_admits fs = true
    ∧ slot text_encoding_of 4 fs = Some (text_encoding m)
    ∧ protocol_version m = SUPPORTED_PROTOCOL_VERSION
    ∧ scip_go_producer m = ms_scip_go_producer (metadata_gather fs).
Proof.
  intros Hin. pose proof (metadata_reader input Hin) as Hr. unfold parse_scip_metadata.
  rewrite run_never_check by solve_steady. rewrite run_never_bind, bind_Ok by solve_steady.
  change metadata_init with (metadata_gather []). setoid_rewrite (message_loop_spec id); [|done..].
  setoid_rewrite run_never_lift. unfold metadata_finish. split.
  - intros (s & (fs & Hm & Ha & ->) & H). cbn in H. destruct (slot text_encoding_of 4 fs) eqn:E; [|done].
    injection H as <-. exists fs. by rewrite E.
  - intros (fs & Hm & Ha & He & Hp & Hg). exists (metadata_gather fs). split; [by exists fs|].
    unfold metadata_gather in Hg |- *. cbn in Hg |- *. rewrite He, <- Hg. simpl. rewrite <- Hp. by destruct m.
Qed.
