(* ===== verification/ScipOccurrences.v ===== *)
(** * Occurrences of a SCIP document

    What the parsers of ranges and occurrences of
    [crates/repowitness-analysis/src/scip_wire.rs] admit: typed ranges with each component
    once, legacy ranges of three or four integers given singly or packed, and their
    agreement. *)

From Stdlib Require Import ZArith Lia ZifyBool.
From stdpp Require Import base numbers list.
From S2P Require Import Prelude Ordering Utf8 GraphIdentity WireFormat SourceRange ScipWire FieldReaders.

Open Scope Z_scope.

Definition is_i32 (v : Z) : bool := (0 <=? v) && (v <=? 2147483647).

(** The integers a field carries as varints. *)
Definition numbers (n : Z) (fs : list wire_field) : list Z :=
  omap (λ f, if f.1 =? n then match f.2 with PVarint v => Some v | _ => None end else None) fs.

Lemma numbers_snoc n fs m p :
  numbers n (fs ++ [(m, p)]) =
  numbers n fs ++ (if m =? n then match p with PVarint v => [v] | _ => [] end else []).
Proof. unfold numbers. rewrite omap_app. f_equal. csimpl. destruct (m =? n); [by destruct p|done]. Qed.

(** ** Typed ranges *)

Definition components (n : nat) : list Z := map (λ i, Z.of_nat i + 1) (seq 0 n).

Definition component_ok (n : nat) (f : wire_field) : bool :=
  match f.2 with
  | PVarint v => if f.1 <=? Z.of_nat n then is_i32 v else true
  | p => ignorable MAX_DOCUMENT_BYTES p
  end.

Definition component_admits (n : nat) (fs : list wire_field) : bool :=
  forallb (component_ok n) fs && forallb (λ i, (length (numbers i fs) <=? 1)%nat) (components n).

Definition component_gather (n : nat) (fs : list wire_field) : ComponentState :=
  {| cs_values := map (λ i, default 0 (head (numbers i fs))) (components n);
     cs_seen := map (λ i, negb (bool_decide (numbers i fs = []))) (components n) |}.

Lemma components_lookup n i : (i < n)%nat → components n !! i = Some (Z.of_nat i + 1).
Proof.
  intros Hi. unfold components. rewrite list_lookup_fmap, lookup_seq_lt by done. by rewrite Nat.add_0_l.
Qed.

Lemma map_const_seq {A} (x : A) k n : map (λ _, x) (seq k n) = replicate n x.
Proof. revert k. induction n as [|n IH]; intros k; [done|]. simpl. by rewrite IH. Qed.

Lemma elem_of_components n z : z ∈ components n ↔ 1 ≤ z ≤ Z.of_nat n.
Proof.
  unfold components. rewrite list_elem_of_fmap. split.
  - intros (i & -> & Hi%elem_of_seq). lia.
  - intros Hz. exists (Z.to_nat (z - 1)). rewrite elem_of_seq. lia.
Qed.

(** Updating one component. *)
Lemma insert_component {A} n i (f g : Z → A) :
  (i < n)%nat → (∀ z, z ≠ Z.of_nat i + 1 → f z = g z) →
  <[i := g (Z.of_nat i + 1)]> (map f (components n)) = map g (components n).
Proof.
  intros Hi Hfg. apply list_eq. intros j. destruct (decide (i = j)) as [<-|Hne].
  - rewrite list_lookup_insert_eq by (unfold components; rewrite !length_map, length_seq; done).
    rewrite list_lookup_fmap, components_lookup by done. done.
  - rewrite list_lookup_insert_ne by done. rewrite !list_lookup_fmap.
    destruct (decide (j < n)%nat) as [Hj|Hj].
    + rewrite components_lookup by done. simpl. f_equal. apply Hfg. lia.
    + rewrite lookup_ge_None_2; [done|]. unfold components. rewrite length_map, length_seq. lia.
Qed.

Lemma component_reader n input :
  slice_ok input →
  FieldReader input (λ s field wire cursor, lift (component_field input (Z.of_nat n) s field wire cursor))
    (component_admits n) (component_gather n).
Proof.
  intros Hin. apply pure_reader.
  { unfold component_admits. simpl. by apply forallb_forall. }
  { intros fs f. unfold component_admits. rewrite forallb_snoc, !andb_true_iff, !forallb_forall.
    intros [[Hok _] H]. split; [done|]. intros i Hi. specialize (H i Hi). destruct f as [m p].
    rewrite numbers_snoc, length_app in H. lia. }
  intros fs field wire c Hc Hf Hfs. unfold component_field.
  pose proof Hfs as [Hok Honce]%andb_true_iff. rewrite forallb_forall in Honce.
  assert (∀ p, (∀ i, i ∈ components n → numbers i (fs ++ [(field, p)]) = numbers i fs) →
    component_admits n (fs ++ [(field, p)]) = component_ok n (field, p)
    ∧ component_gather n (fs ++ [(field, p)]) = component_gather n fs) as Hsame.
  { intros p Hp. unfold component_admits, component_gather. rewrite forallb_snoc, Hok. simpl.
    assert (forallb (λ i, (length (numbers i (fs ++ [(field, p)])) <=? 1)%nat) (components n) = true) as ->.
    { apply forallb_forall. intros i Hi. rewrite Hp by (by apply list_elem_of_In). by apply Honce. }
    rewrite andb_true_r. split; [done|]. f_equal; apply map_ext_in; intros i Hi; by rewrite Hp by (by apply list_elem_of_In). }
  destruct ((field <=? Z.of_nat n) && (wire =? WIRE_VARINT)) eqn:Et.
  - assert (field ≤ Z.of_nat n ∧ wire = WIRE_VARINT) as [Hn ->] by lia. clear Et.
    set (index := Z.to_nat (field - 1)). assert (index < n)%nat as Hi by lia.
    assert (Z.of_nat index + 1 = field) as Hidx by lia.
    assert (field ∈ components n) as Hin' by (apply elem_of_components; lia).
    assert (∀ v, component_admits n (fs ++ [(field, PVarint v)]) = is_i32 v && bool_decide (numbers field fs = [])) as Ha.
    { intros v. unfold component_admits. rewrite forallb_snoc, Hok. unfold component_ok at 1. simpl.
      rewrite (proj2 (Z.leb_le _ _)) by done. f_equal. case_bool_decide as Hnil.
      - apply forallb_forall. intros i Hi'. rewrite numbers_snoc. destruct (Z.eqb_spec field i) as [->|].
        + by rewrite Hnil.
        + rewrite app_nil_r. by apply Honce.
      - apply not_true_iff_false. rewrite forallb_forall. intros H.
        specialize (H field (proj1 (list_elem_of_In _ _) Hin')). rewrite numbers_snoc, Z.eqb_refl, length_app in H.
        destruct (numbers field fs); [done|]. simpl in H. lia. }
    unfold component_gather at 2. cbn [cs_seen cs_values].
    rewrite list_lookup_fmap, components_lookup, Hidx by done. simpl.
    case_bool_decide as Hnil; simpl.
    2:{ apply arm_reject. intros [v| | |] Hw; try done. by rewrite Ha, andb_false_r. }
    apply arm_varint; [done..|]. intros v s'. rewrite Ha, step_i32, andb_true_r.
    assert ({| cs_values := <[index := v]> (cs_values (component_gather n fs));
               cs_seen := <[index := true]> (cs_seen (component_gather n fs)) |}
            = component_gather n (fs ++ [(field, PVarint v)])) as Hgather.
    { assert (∀ z, z ≠ Z.of_nat index + 1 → numbers z (fs ++ [(field, PVarint v)]) = numbers z fs) as Hext.
      { intros z Hz. rewrite numbers_snoc, (proj2 (Z.eqb_neq field z)) by lia. apply app_nil_r. }
      unfold component_gather. cbn [cs_values cs_seen]. f_equal.
      - rewrite <- (insert_component n index (λ i, default 0 (head (numbers i fs)))
                     (λ i, default 0 (head (numbers i (fs ++ [(field, PVarint v)]))))); [|done|by intros; rewrite Hext].
        cbv beta. by rewrite Hidx, numbers_snoc, Z.eqb_refl, Hnil.
      - rewrite <- (insert_component n index (λ i, negb (bool_decide (numbers i fs = [])))
                     (λ i, negb (bool_decide (numbers i (fs ++ [(field, PVarint v)]) = [])))); [|done|by intros; rewrite Hext].
        cbv beta. by rewrite Hidx, numbers_snoc, Z.eqb_refl, Hnil. }
    unfold component_gather in Hgather at 1 2. cbn [cs_values cs_seen] in Hgather. rewrite Hgather.
    unfold is_i32. split; [intros [? [= <-]]; split; [lia|done]|intros [? ->]; split; [lia|done]].
  - assert (∀ p, wire = wire_type p → ∀ i, i ∈ components n → numbers i (fs ++ [(field, p)]) = numbers i fs) as Hnum.
    { intros p Hw i Hi%elem_of_components. rewrite numbers_snoc.
      destruct (Z.eqb_spec field i) as [->|]; [|by rewrite app_nil_r].
      destruct p; rewrite ?app_nil_r; [|done..]. simpl in Hw. lia. }
    apply arm_skip; [done..| |]; intros p Hw; destruct (Hsame p (Hnum p Hw)) as [Ha Hg]; [|done].
    rewrite Ha. unfold component_ok. cbn [fst snd]. destruct p; [|done..]. simpl in Hw |- *.
    destruct (Z.leb_spec field (Z.of_nat n)); [lia|done].
Qed.

Lemma steady_range_components n input expected : steady (parse_range_components n input expected).
Proof. unfold parse_range_components. solve_steady. Qed.
#[export] Hint Resolve steady_range_components : steady.

(** Every component must be present, zeros included. *)
Lemma range_components_spec n input values :
  slice_ok input →
  run never (parse_range_components n input (Z.of_nat n)) = Ok (Some values) ↔
  ∃ fs, message_of input fs ∧ component_admits n fs = true
    ∧ map (λ i, numbers i fs) (components n) = map (λ v, [v]) values.
Proof.
  intros Hin. pose proof (component_reader n input Hin). unfold parse_range_components.
  rewrite run_never_bind, bind_Ok by solve_steady.
  assert (components_init n = component_gather n []) as Hinit.
  { unfold components_init, component_gather, components. rewrite !map_map. simpl. by rewrite !map_const_seq. }
  rewrite Hinit. setoid_rewrite (message_loop_spec id); [|done..].
  assert (∀ fs, component_admits n fs = true →
    (forallb id (cs_seen (component_gather n fs)) = true ∧ cs_values (component_gather n fs) = values) ↔
    map (λ i, numbers i fs) (components n) = map (λ v, [v]) values) as Hvals.
  { intros fs [_ Honce]%andb_true_iff. unfold component_gather. cbn [cs_seen cs_values].
    rewrite forallb_forall in Honce. generalize dependent (components n). intros cs Hcs. clear -Hcs.
    revert values. induction cs as [|c cs IH]; intros [|v values]; simpl.
    1: done.
    1: split; [by intros [_ ?]|done].
    1: split; [by intros [_ ?]|done].
    assert (∀ values, forallb id (map (λ i, negb (bool_decide (numbers i fs = []))) cs) = true
      ∧ map (λ i, default 0 (head (numbers i fs))) cs = values ↔
      map (λ i, numbers i fs) cs = map (λ v, [v]) values) as IH' by (apply IH; intros; apply Hcs; by right).
    specialize (Hcs c (or_introl eq_refl)). rewrite andb_true_iff.
    destruct (numbers c fs) as [|x [|y l]]; simpl in Hcs |- *;
      [by split; [intros [[]]|] | |done].
    split.
    - intros [[_ Hall] [= -> Hv]]. f_equal. by apply IH'.
    - intros [= -> Hv]. apply IH' in Hv as [? ->]. done. }
  split.
  - intros (s & (fs & Hm & Ha & ->) & Hrun). exists fs. split_and!; [done..|]. apply Hvals; [done|].
    rewrite run_never_ret in Hrun. destruct (forallb id _); [by injection Hrun|done].
  - intros (fs & Hm & Ha & Hv). apply Hvals in Hv as [Hall Hv]; [|done].
    eexists. split; [by exists fs|]. by rewrite run_never_ret, Hall, Hv.
Qed.

Definition make_range (l1 c1 l2 c2 : Z) : ScipWireSourceRange :=
  {| range_start := {| position_line := l1; position_character := c1 |};
     range_end := {| position_line := l2; position_character := c2 |} |}.

Lemma steady_single input : steady (parse_single_line_range input).
Proof. unfold parse_single_line_range. solve_steady. Qed.
Lemma steady_multi input : steady (parse_multi_line_range input).
Proof. unfold parse_multi_line_range. solve_steady. Qed.
#[export] Hint Resolve steady_single steady_multi : steady.

Lemma single_line_spec input r :
  slice_ok input →
  run never (parse_single_line_range input) = Ok r ↔
  ∃ fs line start end_, message_of input fs ∧ component_admits 3 fs = true
    ∧ numbers 1 fs = [line] ∧ numbers 2 fs = [start] ∧ numbers 3 fs = [end_]
    ∧ r = make_range line start line end_.
Proof.
  intros Hin. unfold parse_single_line_range. rewrite run_never_bind, bind_Ok by solve_steady. split.
  - intros ([[|l [|s [|e [|]]]]|] & Hv & [=]); subst r. apply (range_components_spec 3) in Hv as (fs & Hm & Ha & Hv); [|done].
    injection Hv as H1 H2 H3. by exists fs, l, s, e.
  - intros (fs & l & s & e & Hm & Ha & H1 & H2 & H3 & ->). exists (Some [l; s; e]). split; [|done].
    apply (range_components_spec 3); [done|]. exists fs. split_and!; [done..|].
    change (map _ (components 3)) with [numbers 1 fs; numbers 2 fs; numbers 3 fs]. by rewrite H1, H2, H3.
Qed.

Lemma multi_line_spec input r :
  slice_ok input →
  run never (parse_multi_line_range input) = Ok r ↔
  ∃ fs l1 c1 l2 c2, message_of input fs ∧ component_admits 4 fs = true
    ∧ numbers 1 fs = [l1] ∧ numbers 2 fs = [c1] ∧ numbers 3 fs = [l2] ∧ numbers 4 fs = [c2]
    ∧ r = make_range l1 c1 l2 c2.
Proof.
  intros Hin. unfold parse_multi_line_range. rewrite run_never_bind, bind_Ok by solve_steady. split.
  - intros ([[|l1 [|c1 [|l2 [|c2 [|]]]]]|] & Hv & [=]); subst r.
    apply (range_components_spec 4) in Hv as (fs & Hm & Ha & Hv); [|done].
    injection Hv as H1 H2 H3 H4. by exists fs, l1, c1, l2, c2.
  - intros (fs & l1 & c1 & l2 & c2 & Hm & Ha & H1 & H2 & H3 & H4 & ->). exists (Some [l1; c1; l2; c2]).
    split; [|done]. apply (range_components_spec 4); [done|]. exists fs. split_and!; [done..|].
    change (map _ (components 4)) with [numbers 1 fs; numbers 2 fs; numbers 3 fs; numbers 4 fs].
    by rewrite H1, H2, H3, H4.
Qed.

(** ** Legacy ranges *)

(** The accumulator after some integers. *)
Definition legacy_of (vs : list Z) : LegacyRange :=
  {| legacy_values := vs ++ replicate (4 - length vs) 0; legacy_count := Z.of_nat (length vs) |}.

Lemma legacy_push_spec vs v r :
  (length vs ≤ 4)%nat →
  legacy_push (legacy_of vs) v = Ok r ↔ (length vs < 4)%nat ∧ r = legacy_of (vs ++ [v]).
Proof.
  intros Hl. destruct vs as [|a [|b [|c [|d [|]]]]]; simpl in Hl; try lia;
    unfold legacy_push, legacy_of; simpl; (split; [intros [= <-] || done|intros [? ->]]); (done || lia || (split; [lia|done])).
Qed.

(** The integers pushed one by one. *)
Fixpoint legacy_push_all (r : LegacyRange) (vs : list Z) : result ScipWireError LegacyRange :=
  match vs with
  | [] => Ok r
  | v :: vs => v ← decode_nonnegative_i32 v; r ← legacy_push r v; legacy_push_all r vs
  end.

Lemma legacy_push_all_spec us vs r :
  (length us ≤ 4)%nat →
  legacy_push_all (legacy_of us) vs = Ok r ↔
  forallb is_i32 vs = true ∧ (length us + length vs ≤ 4)%nat ∧ r = legacy_of (us ++ vs).
Proof.
  revert us. induction vs as [|v vs IH]; intros us Hu; simpl.
  - rewrite app_nil_r. split; [intros [= <-]; split_and!; (done || lia)|]. by intros (_ & _ & ->).
  - rewrite step_i32, bind_Ok. setoid_rewrite legacy_push_spec; [|done]. unfold is_i32 at 1.
    change (v :: vs) with ([v] ++ vs). rewrite (app_assoc us).
    destruct (decide (length us < 4)%nat) as [Hlt|Hge].
    + split.
      * intros (Hv & r' & [_ ->] & H). apply IH in H as (Hall & Hl & ->); [|rewrite length_app; simpl; lia].
        rewrite length_app in Hl. simpl in Hl. split_and!; [lia|lia|done].
      * intros (Hall & Hl & ->). split; [lia|]. eexists. split; [done|]. apply IH; rewrite ?length_app; simpl; [lia|].
        split_and!; [lia|lia|done].
    + split; [intros (_ & r' & [? _] & _); lia|]. intros (_ & Hl & _). lia.
Qed.

(** A packed payload is a sequence of varints. *)
Inductive packed_of : bytes → list Z → Prop :=
| packed_nil : packed_of [] []
| packed_cons bs v rest vs : varint_of bs v → packed_of rest vs → packed_of (bs ++ rest) (v :: vs).

(** The sequence, computed. *)
Fixpoint packed_list (fuel : nat) (packed : bytes) (cursor : Z) : result ScipWireError (list Z) :=
  match fuel with
  | O => Ok []
  | S fuel =>
      if cursor <? len packed then
        '(value, cursor) ← read_varint packed cursor;
        vs ← packed_list fuel packed cursor;
        Ok (value :: vs)
      else Ok []
  end.

Definition packed_values (packed : bytes) : option (list Z) :=
  match packed_list (length packed) packed 0 with Ok vs => Some vs | Err _ => None end.

Lemma packed_list_spec packed fuel c vs :
  slice_ok packed → within_input packed c → len packed - c ≤ Z.of_nat fuel →
  packed_list fuel packed c = Ok vs ↔ ∃ bs, seg packed c bs (len packed) ∧ packed_of bs vs.
Proof.
  intros Hin. revert c vs. induction fuel as [|fuel IH]; intros c vs Hc Hf.
  all: assert (c = len packed → (Ok (E := ScipWireError) [] = Ok vs ↔
      ∃ bs, seg packed c bs (len packed) ∧ packed_of bs vs)) as Hend.
  1,3: intros ->; split;
    [ intros [= <-]; exists []; split; [by apply seg_nil|constructor]
    | intros (bs & Hs & Hp); apply seg_length in Hs;
      destruct Hp as [|bs v rest vs (Hb%varint_form_nonempty & _)]; [done|];
      rewrite len_app in Hs; pose proof (len_nonneg rest); lia ].
  { apply Hend. unfold within_input in Hc. lia. }
  cbn [packed_list]. destruct (Z.ltb_spec c (len packed)) as [Hlt|Hge];
    [clear Hend|apply Hend; unfold within_input in Hc; lia].
  rewrite bind_Ok. split.
  - intros ([v m] & (bs & Hs & Hv)%read_varint_spec & Hrest); [|done..].
    pose proof (seg_within _ _ _ _ Hs) as [_ Hm]. pose proof (seg_length _ _ _ _ Hs).
    pose proof (varint_form_nonempty _ (proj1 Hv)).
    apply bind_Ok in Hrest as (vs' & (rest & Hr & Hp)%IH & [= <-]); [|done|lia].
    exists (bs ++ rest). split; [apply seg_app; by exists m|by constructor].
  - intros (all & Hs & Hp). destruct Hp as [|bs v rest vs Hv Hp].
    { apply seg_length in Hs. unfold len in *. simpl in *. lia. }
    apply seg_app in Hs as (m & Hb & Hr). pose proof (seg_within _ _ _ _ Hb) as [_ Hm].
    pose proof (seg_length _ _ _ _ Hb). pose proof (varint_form_nonempty _ (proj1 Hv)).
    exists (v, m). split; [apply read_varint_spec; [done..|by exists bs]|].
    apply bind_Ok. exists vs. split; [|done]. apply IH; [done|lia|by exists rest].
Qed.

Lemma packed_values_spec packed vs :
  slice_ok packed → packed_values packed = Some vs ↔ packed_of packed vs.
Proof.
  intros Hin. unfold packed_values. pose proof (len_nonneg packed).
  assert (packed_list (length packed) packed 0 = Ok vs ↔ packed_of packed vs) as Hiff.
  { rewrite packed_list_spec; [|done|unfold within_input; lia|unfold len; lia]. split.
    - intros (bs & Hs & Hp). assert (bs = packed) as ->; [|done]. eapply seg_det; [done|].
      exists [], []. by rewrite app_nil_r.
    - intros Hp. exists packed. split; [|done]. exists [], []. by rewrite app_nil_r. }
  rewrite <- Hiff. destruct (packed_list _ _ _); split; congruence.
Qed.

Lemma steady_packed_loop fuel packed c legacy : steady (packed_loop fuel packed c legacy).
Proof. revert c legacy. induction fuel as [|fuel IH]; intros c legacy; simpl; solve_steady; auto. Qed.
#[export] Hint Resolve steady_packed_loop : steady.

(** The loop reads the sequence and pushes each integer; it fails if either does. *)
Lemma packed_loop_spec fuel packed c legacy r :
  run never (packed_loop fuel packed c legacy) = Ok r ↔
  ∃ vs, packed_list fuel packed c = Ok vs ∧ legacy_push_all legacy vs = Ok r.
Proof.
  revert c legacy. induction fuel as [|fuel IH]; intros c legacy; cbn [packed_loop packed_list].
  { split; [intros [= <-]; by exists []|by intros (vs & [= <-] & [= <-])]. }
  destruct (c <? len packed).
  2:{ split; [intros [= <-]; by exists []|by intros (vs & [= <-] & [= <-])]. }
  rewrite run_never_check, run_never_lift_bind by solve_steady.
  destruct (read_varint packed c) as [[v c']|e]; [|split; [done|by intros (? & ? & _)]].
  rewrite bind_Ok. split.
  - intros ([v0 c0] & [= <- <-] & H). rewrite run_never_lift_bind in H by solve_steady.
    apply bind_Ok in H as (l & Hl & H). apply bind_Ok in Hl as (v' & Hv & Hl).
    apply IH in H as (vs & Hvs & Hr). exists (v :: vs). rstep. rewrite Hvs. split; [done|].
    simpl. rewrite Hv. simpl. by rewrite Hl.
  - intros (vs0 & Hvs & Hr). exists (v, c'). split; [done|].
    rewrite run_never_lift_bind by solve_steady.
    apply bind_Ok in Hvs as ([v0 c0] & [= <- <-] & Hvs). apply bind_Ok in Hvs as (vs & Hvs & [= <-]).
    simpl in Hr. apply bind_Ok in Hr as (v' & Hv & Hr). apply bind_Ok in Hr as (l & Hl & Hr).
    apply bind_Ok. exists l. split; [apply bind_Ok; by exists v'|]. apply IH. by exists vs.
Qed.

(** ** Occurrence ranges *)

Definition field_ints (f : wire_field) : list Z :=
  if f.1 =? 1 then
    match f.2 with PVarint v => [v] | PBytes bs => default [] (packed_values bs) | _ => [] end
  else [].

Definition field_typed (f : wire_field) : option ScipWireSourceRange :=
  match f.2 with
  | PBytes bs =>
      if f.1 =? 8 then ok_value (run never (parse_single_line_range bs))
      else if f.1 =? 9 then ok_value (run never (parse_multi_line_range bs))
      else None
  | _ => None
  end.

(** The integers and the typed ranges of an occurrence. *)
Definition legacy_ints (fs : list wire_field) : list Z := flat_map field_ints fs.
Definition typed_ranges (fs : list wire_field) : list ScipWireSourceRange := omap field_typed fs.

Definition range_field_ok (f : wire_field) : bool :=
  match f.2 with
  | PVarint v => if f.1 =? 1 then is_i32 v else true
  | PBytes bs =>
      (len bs <=? MAX_DOCUMENT_BYTES)
      && (if f.1 =? 1 then match packed_values bs with Some vs => forallb is_i32 vs | None => false end
          else if (f.1 =? 8) || (f.1 =? 9) then bool_decide (is_Some (field_typed f))
          else true)
  | _ => true
  end.

Definition range_admits (fs : list wire_field) : bool :=
  forallb range_field_ok fs && (length (legacy_ints fs) <=? 4)%nat && (length (typed_ranges fs) <=? 1)%nat.

Definition range_gather (fs : list wire_field) : RangeState :=
  {| rs_legacy := legacy_of (legacy_ints fs); rs_typed := head (typed_ranges fs) |}.

Lemma legacy_ints_snoc fs f : legacy_ints (fs ++ [f]) = legacy_ints fs ++ field_ints f.
Proof. unfold legacy_ints. rewrite flat_map_app. simpl. by rewrite app_nil_r. Qed.

Lemma typed_ranges_snoc fs f : typed_ranges (fs ++ [f]) = typed_ranges fs ++ option_list (field_typed f).
Proof. unfold typed_ranges. rewrite omap_app. f_equal. Qed.

Lemma steady_range_field input s field wire c : steady (occurrence_range_field input s field wire c).
Proof. unfold occurrence_range_field. solve_steady. Qed.
#[export] Hint Resolve steady_range_field : steady.

(** Setting the typed range. *)
Lemma step_typed {S} (ranges : list ScipWireSourceRange) r e (k : option ScipWireSourceRange → result ScipWireError S) s :
  (x ← replace_once (head ranges) r e; k x) = Ok s ↔
  (length (ranges ++ [r]) <=? 1)%nat = true ∧ k (head (ranges ++ [r])) = Ok s.
Proof.
  destruct ranges as [|a ranges]; simpl; [tauto|]. rewrite length_app. simpl. split; [done|]. intros [? _]. lia.
Qed.

(** The arm of a typed range, whichever its parser [m]. *)
Lemma typed_arm input fs field c (m : bytes → ctl ScipWireError ScipWireSourceRange) :
  slice_ok input → within_input input c → (∀ bs, steady (m bs)) →
  (∀ bs, range_admits (fs ++ [(field, PBytes bs)]) =
     (len bs <=? MAX_DOCUMENT_BYTES) && bool_decide (is_Some (ok_value (run never (m bs))))
     && (length (typed_ranges fs ++ option_list (ok_value (run never (m bs)))) <=? 1)%nat) →
  (∀ bs, range_gather (fs ++ [(field, PBytes bs)]) =
     {| rs_legacy := legacy_of (legacy_ints fs);
        rs_typed := head (typed_ranges fs ++ option_list (ok_value (run never (m bs)))) |}) →
  arm_spec input range_admits range_gather fs field c WIRE_LENGTH_DELIMITED
    (run never
      ('(raw, cursor) ← lift (read_length_delimited input c MAX_DOCUMENT_BYTES);
       s ← (range ← m raw;
            lift (typed ← replace_once (head (typed_ranges fs)) range InvalidOccurrenceRange;
                  Ok {| rs_legacy := legacy_of (legacy_ints fs); rs_typed := typed |}));
       mret (s, cursor))).
Proof.
  intros Hin Hc Hm Ha Hg. rewrite run_never_arm by solve_steady. apply arm_bytes; [done..|]. intros bs s'.
  rewrite Ha, Hg, run_never_bind, bind_Ok by solve_steady. setoid_rewrite run_never_lift.
  destruct (run never (m bs)) as [r|e]; unfold option_list; cbn [ok_value option_rect].
  - rewrite bool_decide_eq_true_2 by done. split.
    + intros (Hlen & r' & [= <-] & [H [= <-]]%step_typed). split; [lia|done].
    + intros [H ->]. split; [lia|]. exists r. split; [done|]. apply step_typed. split; [lia|done].
  - rewrite bool_decide_eq_false_2 by (by intros [? ?]). split; [by intros (_ & ? & ? & _)|].
    intros [H _]. lia.
Qed.

Lemma occurrence_range_reader input :
  slice_ok input → FieldReader input (occurrence_range_field input) range_admits range_gather.
Proof.
  intros Hin. apply controlled_reader; [apply steady_range_field|done|..].
  { intros fs f. unfold range_admits. rewrite forallb_snoc, legacy_ints_snoc, typed_ranges_snoc, !length_app. lia. }
  intros fs field wire c Hc Hf Hfs. unfold occurrence_range_field.
  assert (∀ p, range_admits (fs ++ [(field, p)]) =
    range_field_ok (field, p) && (length (legacy_ints fs ++ field_ints (field, p)) <=? 4)%nat
    && (length (typed_ranges fs ++ option_list (field_typed (field, p))) <=? 1)%nat) as Ha.
  { intros p. unfold range_admits in Hfs |- *. rewrite forallb_snoc, legacy_ints_snoc, typed_ranges_snoc.
    destruct (forallb range_field_ok fs); [done|]. by simpl in Hfs. }
  assert (∀ p, range_gather (fs ++ [(field, p)]) =
    {| rs_legacy := legacy_of (legacy_ints fs ++ field_ints (field, p));
       rs_typed := head (typed_ranges fs ++ option_list (field_typed (field, p))) |}) as Hg.
  { intros p. unfold range_gather. by rewrite legacy_ints_snoc, typed_ranges_snoc. }
  unfold range_admits in Hfs. repeat rewrite andb_true_iff in Hfs. destruct Hfs as [[Hok Hl] Ht].
  assert (length (legacy_ints fs) ≤ 4)%nat as Hl4 by lia.
  unfold range_field_ok, field_ints, field_typed in Ha, Hg. cbn [fst snd] in Ha, Hg.
  destruct (Z.eqb_spec field 1) as [->|]; [|destruct (Z.eqb_spec field 8) as [->|];
    [|destruct (Z.eqb_spec field 9) as [->|]]].
  all: revert Ha Hg; try (open_tests field); closed_tests; intros Ha Hg.
  all: repeat split_wire; rewrite ?run_never_lift, ?run_never_skip.
  3,5,7,8: apply arm_skip; [done..| |]; intros p Hw; [rewrite Ha|rewrite Hg];
    destruct p; simpl in Hw |- *; try done; rewrite ?app_nil_r, ?Hl, ?Ht, ?andb_true_r; done.
  all: cbn [rs_legacy rs_typed range_gather].
  - apply arm_varint; [done..|]. intros v s'. rewrite Ha, Hg, step_i32, bind_Ok. setoid_rewrite legacy_push_spec; [|done].
    unfold is_i32. cbn. rewrite app_nil_r, length_app. cbn. split.
    + intros (Hv & r & [Hlt ->] & [= <-]). split; [lia|done].
    + intros [H ->]. split; [lia|]. eexists. split; [split; [lia|done]|done].
  - rewrite run_never_arm by solve_steady. apply arm_bytes; [done..|]. intros bs s'.
    rewrite Ha, Hg, run_never_bind, bind_Ok by solve_steady. setoid_rewrite packed_loop_spec.
    unfold packed_values. cbn [option_list]. rewrite app_nil_r, Ht, andb_true_r.
    destruct (packed_list (length bs) bs 0) as [vs|e]; simpl.
    + rewrite length_app. split.
      * intros (Hlen & r & (vs' & [= <-] & Hr) & [= <-]).
        apply legacy_push_all_spec in Hr as (Hall & Hle & ->); [|done]. split; [lia|done].
      * intros [H ->]. split; [lia|]. eexists. split; [|done]. exists vs. split; [done|].
        apply legacy_push_all_spec; [done|]. split_and!; [lia|lia|done].
    + split; [by intros (_ & r & (? & ? & _) & _)|]. intros [? _]. lia.
  - apply typed_arm; [done|done|solve_steady|..]; intros bs; rewrite ?Ha, ?Hg, app_nil_r; [by rewrite Hl, andb_true_r|done].
  - apply typed_arm; [done|done|solve_steady|..]; intros bs; rewrite ?Ha, ?Hg, app_nil_r; [by rewrite Hl, andb_true_r|done].
Qed.

Lemma steady_occurrence_range input : steady (parse_scip_occurrence_range input).
Proof. unfold parse_scip_occurrence_range. solve_steady. Qed.
#[export] Hint Resolve steady_occurrence_range : steady.

(** Three integers give a range on one line, four a range over lines. *)
Definition legacy_range (vs : list Z) : option ScipWireSourceRange :=
  match vs with
  | [line; start; end_] => Some (make_range line start line end_)
  | [l1; c1; l2; c2] => Some (make_range l1 c1 l2 c2)
  | _ => None
  end.

(** The range of an occurrence: typed, legacy, or both in agreement. *)
Definition range_of (fs : list wire_field) (r : ScipWireSourceRange) : Prop :=
  (typed_ranges fs = [] ∧ legacy_range (legacy_ints fs) = Some r)
  ∨ (typed_ranges fs = [r] ∧ (legacy_ints fs = [] ∨ legacy_range (legacy_ints fs) = Some r)).

Lemma legacy_finish_of vs :
  (length vs ≤ 4)%nat →
  legacy_finish (legacy_of vs) =
  match vs with
  | [] => Ok None
  | _ => match legacy_range vs with Some r => Ok (Some r) | None => Err InvalidOccurrenceRange end
  end.
Proof. intros Hl. do 5 (destruct vs as [|? vs]; [done|]). simpl in Hl. lia. Qed.

Lemma range_finish_spec fs r :
  range_admits fs = true → range_finish (range_gather fs) = Ok r ↔ range_of fs r.
Proof.
  unfold range_admits. rewrite !andb_true_iff. intros [[_ Hl] Ht].
  unfold range_finish, range_gather, range_of. cbn [rs_legacy rs_typed].
  rewrite legacy_finish_of by lia.
  destruct (typed_ranges fs) as [|t [|]]; [..|simpl in Ht; lia];
    (destruct (legacy_ints fs) as [|v vs]; [|destruct (legacy_range (v :: vs)) as [l|]]);
    cbn [mbind result_bind head]; try case_bool_decide; naive_solver.
Qed.

Lemma occurrence_range_spec input r :
  slice_ok input →
  run never (parse_scip_occurrence_range input) = Ok r ↔
  ∃ fs, message_of input fs ∧ range_admits fs = true ∧ range_of fs r.
Proof.
  intros Hin. pose proof (occurrence_range_reader input Hin). unfold parse_scip_occurrence_range.
  rewrite run_never_check by solve_steady. rewrite run_never_bind, bind_Ok by solve_steady.
  change range_init with (range_gather []). setoid_rewrite (message_loop_spec id); [|done..].
  setoid_rewrite run_never_lift. split.
  - intros (s & (fs & Hm & Ha & ->) & Hr). exists fs. by rewrite <- range_finish_spec.
  - intros (fs & Hm & Ha & Hr). exists (range_gather fs). split; [by exists fs|]. by apply range_finish_spec.
Qed.

(** ** Occurrences *)

Definition occurrence_ok (f : wire_field) : bool :=
  if f.1 =? 2 then symbol_within f.2
  else if f.1 =? 3 then match f.2 with PVarint v => is_i32 v | _ => false end
  else ignorable MAX_DOCUMENT_BYTES f.2.

Definition occurrence_admits (fs : list wire_field) : bool :=
  forallb occurrence_ok fs && once 2 fs && once 3 fs.

Definition occurrence_gather (fs : list wire_field) : OccurrenceState :=
  {| os_symbol := slot payload_bytes 2 fs; os_roles := slot payload_int 3 fs |}.

Lemma occurrence_reader input :
  slice_ok input →
  FieldReader input (λ s field wire cursor, lift (occurrence_field input s field wire cursor))
    occurrence_admits occurrence_gather.
Proof.
  intros Hin. apply pure_reader; [done|..].
  { intros fs f. unfold occurrence_admits. rewrite forallb_snoc.
    pose proof (once_prefix 2 fs f). pose proof (once_prefix 3 fs f). lia. }
  intros fs field wire c Hc Hf Hfs. unfold occurrence_field.
  assert (∀ p, occurrence_admits (fs ++ [(field, p)]) =
    occurrence_ok (field, p) && once 2 (fs ++ [(field, p)]) && once 3 (fs ++ [(field, p)])) as Ha.
  { intros p. unfold occurrence_admits in Hfs |- *. rewrite forallb_snoc.
    destruct (forallb occurrence_ok fs); [done|]. by simpl in Hfs. }
  unfold occurrence_admits in Hfs. repeat rewrite andb_true_iff in Hfs. destruct Hfs as [[Hok H2] H3].
  unfold occurrence_ok, symbol_within in Ha. cbn [fst snd] in Ha.
  destruct (Z.eqb_spec field 2) as [->|]; [|destruct (Z.eqb_spec field 3) as [->|]].
  all: revert Ha; try (open_tests field); closed_tests; intros Ha; try split_wire.
  all: try (reject_arm Ha).
  3: skip_arm Ha ltac:(unfold occurrence_gather).
  all: cbn [os_symbol os_roles occurrence_gather].
  - apply arm_bytes; [done..|]. intros bs s'. rewrite Ha, step_symbol. close_arm ltac:(unfold occurrence_gather).
  - apply arm_varint; [done..|]. intros v s'. rewrite Ha, step_i32, (step_replace fs s' payload_int 3 (PVarint v)).
    unfold is_i32. close_arm ltac:(unfold occurrence_gather).
Qed.

Lemma steady_occurrence input : steady (parse_scip_occurrence input).
Proof. unfold parse_scip_occurrence. solve_steady. Qed.
#[export] Hint Resolve steady_occurrence : steady.

(** What the fields of an occurrence say. *)
Record occurrence_of (fs : list wire_field) (o : ScipWireOccurrence) : Prop := {
  of_range_admits : range_admits fs = true;
  of_occurrence_admits : occurrence_admits fs = true;
  of_range : range_of fs (occ_range o);
  of_symbol : occ_symbol o = slot payload_bytes 2 fs;
  of_roles : occ_roles o = default 0 (slot payload_int 3 fs);
}.

(** An occurrence is returned exactly for the encodings of fields that give one range, as three or
    four legacy integers (single or packed), as one typed range with each component once, or as both in
    agreement, with at most one symbol that is non-empty text within its bound and at most one role
    set; every integer is a non-negative [i32]. *)
Lemma occurrence_spec input o :
  slice_ok input →
  run never (parse_scip_occurrence input) = Ok o ↔ ∃ fs, message_of input fs ∧ occurrence_of fs o.
Proof.
  intros Hin. pose proof (occurrence_reader input Hin). unfold parse_scip_occurrence.
  rewrite run_never_bind, bind_Ok by solve_steady. setoid_rewrite occurrence_range_spec; [|done]. split.
  - intros (r & (fs & Hm & Hr & Hrange) & Hrun). rewrite run_never_bind, bind_Ok in Hrun by solve_steady.
    destruct Hrun as (s & Hs & [= <-]). change occurrence_init with (occurrence_gather []) in Hs.
    apply (message_loop_spec id _ _ occurrence_admits occurrence_gather Hin) in Hs as (fs' & Hm' & Ha & ->).
    rewrite <- (message_of_det _ _ _ Hm Hm') in *. by exists fs.
  - intros (fs & Hm & [Hr Ha Hrange Hs Hro]). exists (occ_range o). split; [by exists fs|].
    rewrite run_never_bind, bind_Ok by solve_steady. exists (occurrence_gather fs). split.
    + change occurrence_init with (occurrence_gather []). apply (message_loop_spec id _ _ occurrence_admits occurrence_gather Hin). by exists fs.
    + rewrite run_never_ret. simpl. rewrite <- Hs, <- Hro. by destruct o.
Qed.

(** ** Occurrence ranges are in range *)

Lemma numbers_i32 n fs i v :
  component_admits n fs = true → 1 ≤ i ≤ Z.of_nat n → v ∈ numbers i fs → 0 ≤ v.
Proof.
  intros [Hok _]%andb_true_iff Hi Hv. unfold numbers in Hv. apply list_elem_of_omap in Hv as ([m p] & Hf & Hv).
  rewrite forallb_forall in Hok. specialize (Hok (m, p) (proj1 (list_elem_of_In _ _) Hf)).
  unfold component_ok in Hok. cbn in Hok, Hv. destruct (Z.eqb_spec m i) as [->|]; [|done].
  destruct p; [|done..]. injection Hv as <-. rewrite (proj2 (Z.leb_le _ _)) in Hok by lia. unfold is_i32 in Hok. lia.
Qed.

Lemma slice_ok_within bs maximum : len bs ≤ maximum → maximum ≤ u32_max → slice_ok bs.
Proof. unfold slice_ok, u32_max. lia. Qed.

Lemma legacy_ints_i32 fs : range_admits fs = true → ∀ v, v ∈ legacy_ints fs → 0 ≤ v.
Proof.
  unfold range_admits. rewrite !andb_true_iff, forallb_forall. intros [[Hok _] _] v Hv.
  unfold legacy_ints in Hv. apply list_elem_of_In, in_flat_map in Hv as ([m p] & Hf & Hv).
  specialize (Hok (m, p) Hf). unfold field_ints, range_field_ok in *. cbn in *.
  destruct (Z.eqb_spec m 1) as [->|]; [|done]. destruct p as [w| |bs|]; [..|done]; [|done|].
  - destruct Hv as [->|[]]. unfold is_i32 in Hok. lia.
  - apply andb_true_iff in Hok as [_ Hok]. cbn in Hok. destruct (packed_values bs) as [vs|]; [|done].
    cbn in Hv. rewrite forallb_forall in Hok. specialize (Hok v Hv). unfold is_i32 in Hok. lia.
Qed.

Lemma typed_ranges_wf fs r : range_admits fs = true → r ∈ typed_ranges fs → range_wf r.
Proof.
  unfold range_admits. rewrite !andb_true_iff, forallb_forall. intros [[Hok _] _] Hr.
  unfold typed_ranges in Hr. apply list_elem_of_omap in Hr as ([m p] & Hf & Hr).
  specialize (Hok (m, p) (proj1 (list_elem_of_In _ _) Hf)).
  unfold field_typed, range_field_ok in *. cbn in *. destruct p as [w| |bs|]; [done|done| |done].
  apply andb_true_iff in Hok as [Hl _].
  assert (slice_ok bs) as Hin by (apply (slice_ok_within _ MAX_DOCUMENT_BYTES); [lia|done]).
  destruct (m =? 8).
  - destruct (run never (parse_single_line_range bs)) eqn:E; [|done]. injection Hr as ->.
    apply single_line_spec in E as (fs' & l & s & e & _ & Ha & H1 & _ & _ & ->); [|done].
    pose proof (numbers_i32 _ _ 1 l Ha) as Hn. rewrite H1 in Hn. split; simpl; apply Hn; (lia || by left).
  - destruct (m =? 9); [|done]. destruct (run never (parse_multi_line_range bs)) eqn:E; [|done]. injection Hr as ->.
    apply multi_line_spec in E as (fs' & l1 & c1 & l2 & c2 & _ & Ha & H1 & _ & H3 & _ & ->); [|done].
    pose proof (numbers_i32 _ _ 1 l1 Ha) as Hn1. pose proof (numbers_i32 _ _ 3 l2 Ha) as Hn3.
    rewrite H1 in Hn1. rewrite H3 in Hn3. split; simpl; [apply Hn1|apply Hn3]; (lia || by left).
Qed.

Lemma occurrence_range_wf fs o : occurrence_of fs o → range_wf (occ_range o).
Proof.
  intros [Hadm _ [[_ Hr]|[Ht _]] _ _].
  - pose proof (legacy_ints_i32 fs Hadm) as Hi. unfold legacy_range in Hr.
    destruct (legacy_ints fs) as [|a [|b [|c [|d [|]]]]]; try done; injection Hr as <-; split; simpl; apply Hi;
      rewrite !elem_of_cons; tauto.
  - apply (typed_ranges_wf fs); [done|]. rewrite Ht. by left.
Qed.
