(* ===== verification/ScipSymbols.v ===== *)
(** * Symbols of a SCIP document

    What the parsers of relationships and symbol information of
    [crates/repowitness-analysis/src/scip_wire.rs] admit, and the relationships they yield to
    their caller. *)

From Stdlib Require Import ZArith Lia ZifyBool.
From stdpp Require Import base numbers list.
From S2P Require Import Prelude Ordering Utf8 WireFormat ScipWire FieldReaders.

Open Scope Z_scope.

(** ** Relationships *)

Definition payload_flag (p : payload) : bool := payload_int p =? 1.

Definition relationship_ok (f : wire_field) : bool :=
  if f.1 =? 1 then symbol_within f.2
  else if (2 <=? f.1) && (f.1 <=? 5) then
    match f.2 with PVarint v => (0 <=? v) && (v <=? 1) | _ => false end
  else ignorable MAX_DOCUMENT_BYTES f.2.

Definition relationship_admits (fs : list wire_field) : bool :=
  forallb relationship_ok fs && once 1 fs && once 2 fs && once 3 fs && once 4 fs && once 5 fs.

Definition relationship_gather (fs : list wire_field) : RelationshipState :=
  {| ls_symbol := slot payload_bytes 1 fs; ls_reference := slot payload_flag 2 fs;
     ls_implementation := slot payload_flag 3 fs; ls_type_definition := slot payload_flag 4 fs;
     ls_definition := slot payload_flag 5 fs |}.

Lemma step_bool {S} v (k : bool → result ScipWireError S) s :
  (x ← decode_bool v; k x) = Ok s ↔ 0 ≤ v ≤ 1 ∧ k (payload_flag (PVarint v)) = Ok s.
Proof.
  unfold decode_bool, payload_flag. simpl. destruct (Z.eqb_spec v 0) as [->|]; simpl.
  - split; [by intros; split; [lia|]|tauto].
  - destruct (Z.eqb_spec v 1) as [->|]; simpl; [split; [by intros; split; [lia|]|tauto]|].
    split; [done|]. lia.
Qed.

Lemma relationship_reader input :
  slice_ok input →
  FieldReader input (λ s field wire cursor, lift (relationship_field input s field wire cursor))
    relationship_admits relationship_gather.
Proof.
  intros Hin. apply pure_reader; [done|..].
  { intros fs f. unfold relationship_admits. rewrite forallb_snoc.
    pose proof (once_prefix 1 fs f). pose proof (once_prefix 2 fs f). pose proof (once_prefix 3 fs f).
    pose proof (once_prefix 4 fs f). pose proof (once_prefix 5 fs f). lia. }
  intros fs field wire c Hc Hf Hfs. unfold relationship_field.
  assert (∀ p, relationship_admits (fs ++ [(field, p)]) =
    relationship_ok (field, p) && once 1 (fs ++ [(field, p)]) && once 2 (fs ++ [(field, p)])
    && once 3 (fs ++ [(field, p)]) && once 4 (fs ++ [(field, p)]) && once 5 (fs ++ [(field, p)])) as Ha.
  { intros p. unfold relationship_admits in Hfs |- *. rewrite forallb_snoc.
    destruct (forallb relationship_ok fs); [done|]. by simpl in Hfs. }
  unfold relationship_admits in Hfs. repeat rewrite andb_true_iff in Hfs.
  destruct Hfs as [[[[[Hok H1] H2] H3] H4] H5].
  unfold relationship_ok, symbol_within in Ha. cbn [fst snd] in Ha. unfold relationship_flag.
  destruct (Z.eqb_spec field 1) as [->|]; [|destruct (Z.eqb_spec field 2) as [->|];
    [|destruct (Z.eqb_spec field 3) as [->|]; [|destruct (Z.eqb_spec field 4) as [->|];
      [|destruct (Z.eqb_spec field 5) as [->|]]]]].
  all: revert Ha; try (open_tests field); closed_tests; intros Ha; try split_wire.
  all: try (reject_arm Ha).
  6: skip_arm Ha ltac:(unfold relationship_gather).
  all: cbn [ls_symbol ls_reference ls_implementation ls_type_definition ls_definition relationship_gather].
  1: apply arm_bytes; [done..|]; intros bs s'; rewrite Ha, step_symbol; close_arm ltac:(unfold relationship_gather).
  all: apply arm_varint; [done..|]; intros v s';
    rewrite Ha, step_bool, (step_replace fs s' payload_flag _ (PVarint v));
    close_arm ltac:(unfold relationship_gather).
Qed.

Lemma steady_relationship input : steady (parse_scip_relationship input).
Proof. unfold parse_scip_relationship. solve_steady. Qed.
#[export] Hint Resolve steady_relationship : steady.

(** A flag of a relationship; an absent one is unset. *)
Definition flag (n : Z) (fs : list wire_field) : bool := default false (slot payload_flag n fs).

Record relationship_of (fs : list wire_field) (r : ScipWireRelationship) : Prop := {
  rof_admits : relationship_admits fs = true;
  rof_symbol : slot payload_bytes 1 fs = Some (rel_symbol r);
  rof_reference : rel_is_reference r = flag 2 fs;
  rof_implementation : rel_is_implementation r = flag 3 fs;
  rof_type_definition : rel_is_type_definition r = flag 4 fs;
  rof_definition : rel_is_definition r = flag 5 fs;
  rof_kind : flag 2 fs || flag 3 fs || flag 4 fs || flag 5 fs = true;
}.

(** A relationship is returned exactly for the encodings of a target symbol and flags at
    least one of which is set. *)
Lemma relationship_spec input r :
  slice_ok input →
  run never (parse_scip_relationship input) = Ok r ↔ ∃ fs, message_of input fs ∧ relationship_of fs r.
Proof.
  intros Hin. pose proof (relationship_reader input Hin). unfold parse_scip_relationship.
  rewrite run_never_check by solve_steady. rewrite run_never_bind, bind_Ok by solve_steady.
  change relationship_init with (relationship_gather []). setoid_rewrite (message_loop_spec id); [|done..].
  setoid_rewrite run_never_lift. unfold relationship_finish. split.
  - intros (s & (fs & Hm & Ha & ->) & Hr). cbn in Hr. exists fs. split; [done|].
    destruct (slot payload_bytes 1 fs) eqn:E; [|done]. cbn in Hr. fold (flag 2 fs) (flag 3 fs) (flag 4 fs) (flag 5 fs) in Hr.
    destruct (negb (flag 2 fs) && negb (flag 3 fs) && negb (flag 4 fs) && negb (flag 5 fs)) eqn:Hk; [done|].
    injection Hr as <-. split; try done. lia.
  - intros (fs & Hm & [Ha Hs H2 H3 H4 H5 Hk]). exists (relationship_gather fs). split; [by exists fs|].
    cbn. rewrite Hs. cbn. fold (flag 2 fs) (flag 3 fs) (flag 4 fs) (flag 5 fs).
    destruct (negb (flag 2 fs) && negb (flag 3 fs) && negb (flag 4 fs) && negb (flag 5 fs)) eqn:Hk'; [lia|].
    rewrite <- H2, <- H3, <- H4, <- H5. by destruct r.
Qed.

(** ** Symbol information *)

(** The relationship a field carries. *)
Definition relationship_verdict (p : payload) : result ScipWireError ScipWireRelationship :=
  run never (parse_scip_relationship (payload_bytes p)).

Definition relationships_in (fs : list wire_field) : list ScipWireRelationship :=
  omap (λ p, ok_value (relationship_verdict p)) (values 4 fs).

Definition information_ok (f : wire_field) : bool :=
  if f.1 =? 1 then symbol_within f.2
  else if f.1 =? 4 then bytes_within MAX_DOCUMENT_BYTES f.2 && is_ok (relationship_verdict f.2)
  else ignorable MAX_DOCUMENT_BYTES f.2.

Section information.
Context {A : Type} (on_relationship : ScipWireRelationship → A → result ScipWireError A) (consumer : A).

(** The consumer's state after the relationships, in order. *)
Definition consumed (fs : list wire_field) : result ScipWireError A :=
  try_fold (λ a r, on_relationship r a) consumer (relationships_in fs).

Definition information_admits (fs : list wire_field) : bool :=
  forallb information_ok fs && once 1 fs && (occurs 4 fs <=? MAX_SYMBOL_RELATIONSHIPS) && is_ok (consumed fs).

Definition information_gather (fs : list wire_field) : SymbolState (A := A) :=
  {| ss_symbol := slot payload_bytes 1 fs; ss_relationships := occurs 4 fs;
     ss_consumer := default consumer (ok_value (consumed fs)) |}.

Lemma relationships_in_other fs m p : m ≠ 4 → relationships_in (fs ++ [(m, p)]) = relationships_in fs.
Proof. intros. unfold relationships_in. by rewrite values_snoc_other. Qed.

Lemma relationships_in_same fs p :
  relationships_in (fs ++ [(4, p)]) = relationships_in fs ++ option_list (ok_value (relationship_verdict p)).
Proof. unfold relationships_in. rewrite values_snoc_same, omap_app. f_equal. Qed.

Lemma consumed_other fs m p : m ≠ 4 → consumed (fs ++ [(m, p)]) = consumed fs.
Proof. intros. unfold consumed. by rewrite relationships_in_other. Qed.

Lemma step_relationships {S} n (k : Z → result ScipWireError S) s :
  0 ≤ n → (x ← count_relationship n; k x) = Ok s ↔ n + 1 ≤ MAX_SYMBOL_RELATIONSHIPS ∧ k (n + 1) = Ok s.
Proof.
  intros Hn. unfold count_relationship, u32_checked_add, checked.
  destruct ((0 <=? n + 1) && (n + 1 <=? u32_max)) eqn:E; simpl.
  - destruct (Z.ltb_spec MAX_SYMBOL_RELATIONSHIPS (n + 1)); simpl; split; [done|lia|by intros; split; [lia|]|tauto].
  - split; [done|]. unfold u32_max, MAX_SYMBOL_RELATIONSHIPS in *. lia.
Qed.

Lemma steady_symbol_field input s field wire c : steady (symbol_field on_relationship input s field wire c).
Proof. unfold symbol_field. solve_steady. Qed.
#[local] Hint Resolve steady_symbol_field : steady.

Lemma symbol_reader input :
  slice_ok input → FieldReader input (symbol_field on_relationship input) information_admits information_gather.
Proof.
  intros Hin. apply controlled_reader; [apply steady_symbol_field|done|..].
  { intros fs [m p]. unfold information_admits. rewrite forallb_snoc.
    pose proof (once_prefix 1 fs (m, p)). pose proof (occurs_prefix 4 fs (m, p)).
    assert (is_ok (consumed (fs ++ [(m, p)])) = true → is_ok (consumed fs) = true); [|lia].
    unfold consumed. destruct (decide (m = 4)) as [->|]; [|by rewrite relationships_in_other].
    rewrite relationships_in_same, try_fold_app. by destruct (try_fold _ _ _). }
  intros fs field wire c Hc Hf Hfs. unfold symbol_field.
  assert (∀ p, information_admits (fs ++ [(field, p)]) =
    information_ok (field, p) && once 1 (fs ++ [(field, p)])
    && (occurs 4 (fs ++ [(field, p)]) <=? MAX_SYMBOL_RELATIONSHIPS) && is_ok (consumed (fs ++ [(field, p)]))) as Ha.
  { intros p. unfold information_admits in Hfs |- *. rewrite forallb_snoc.
    destruct (forallb information_ok fs); [done|]. by simpl in Hfs. }
  unfold information_admits in Hfs. repeat rewrite andb_true_iff in Hfs. destruct Hfs as [[[Hok H1] H4] Hcon].
  unfold information_ok, symbol_within in Ha. cbn [fst snd] in Ha.
  destruct (Z.eqb_spec field 1) as [->|]; [|destruct (Z.eqb_spec field 4) as [->|]].
  all: revert Ha; try (open_tests field); closed_tests; intros Ha; repeat split_wire.
  all: rewrite ?run_never_lift, ?run_never_throw, ?run_never_skip.
  all: try (reject_arm Ha).
  all: cbn [ss_symbol ss_relationships ss_consumer information_gather].
  - apply arm_bytes; [done..|]. intros bs s'. rewrite Ha, step_symbol.
    rewrite consumed_other by done. close_arm ltac:(unfold information_gather; rewrite consumed_other by done).
  - rewrite run_never_arm by solve_steady. apply arm_bytes; [done..|]. intros bs s'. rewrite Ha, occurs_same.
    rewrite run_never_bind, bind_Ok by solve_steady. setoid_rewrite run_never_lift.
    setoid_rewrite step_relationships; [|apply occurs_nonneg]. other_fields. rewrite H1.
    unfold information_gather. rewrite occurs_same. other_fields.
    unfold consumed. rewrite relationships_in_same, try_fold_app. fold (consumed fs).
    unfold relationship_verdict. cbn [payload_bytes bytes_within].
    destruct (consumed fs) as [a|]; [|done]. cbn [mbind result_bind ok_value from_option].
    destruct (run never (parse_scip_relationship bs)) as [r|e]; cbn.
    + destruct (on_relationship r a) as [a'|e'] eqn:E; cbn.
      * split; [|intros [? ->]; split; [lia|]; exists r; rewrite E; split; [done|]; split; [lia|done]].
        intros (Hl & r' & [= <-] & Hn & Hr). rewrite E in Hr. injection Hr as <-. split; [lia|done].
      * split; [|intros [? _]; lia]. intros (Hl & r' & [= <-] & Hn & Hr). by rewrite E in Hr.
    + split; [by intros (_ & r & ? & _)|]. intros [? _]. lia.
  - apply arm_skip; [done..| |]; intros p _.
    + rewrite Ha, consumed_other by lia. other_fields. lia.
    + unfold information_gather. rewrite consumed_other by lia. by other_fields.
Qed.

Lemma steady_symbol_information input :
  steady (parse_scip_symbol_information on_relationship input consumer).
Proof. unfold parse_scip_symbol_information. solve_steady. Qed.

(** Symbol information is returned exactly for the encodings of one source symbol and a
    bounded number of relationships the consumer accepts, in order. *)
Lemma symbol_information_spec input info a :
  slice_ok input →
  run never (parse_scip_symbol_information on_relationship input consumer) = Ok (info, a) ↔
  ∃ fs, message_of input fs ∧ information_admits fs = true
    ∧ slot payload_bytes 1 fs = Some (info_symbol info) ∧ info_relationships info = occurs 4 fs
    ∧ consumed fs = Ok a.
Proof.
  intros Hin. pose proof (symbol_reader input Hin). unfold parse_scip_symbol_information.
  rewrite run_never_check by solve_steady. rewrite run_never_bind, bind_Ok by solve_steady.
  change {| ss_symbol := None; ss_relationships := 0; ss_consumer := consumer |} with (information_gather []).
  setoid_rewrite (message_loop_spec id); [|done..]. split.
  - intros (s & (fs & Hm & Ha & ->) & Hr). exists fs. split; [done|]. split; [done|].
    cbn in Hr. unfold information_admits in Ha. destruct (consumed fs) as [a'|e]; [|simpl in Ha; lia].
    destruct (slot payload_bytes 1 fs); [|done]. by injection Hr as <- <-.
  - intros (fs & Hm & Ha & Hs & Hn & Hc). exists (information_gather fs). split; [by exists fs|].
    cbn. rewrite Hs, Hc. cbn. rewrite <- Hn. by destruct info.
Qed.
End information.
#[export] Hint Resolve steady_symbol_information : steady.

(** The number of relationships counted is the number yielded. *)
Lemma relationships_in_occurs fs :
  forallb information_ok fs = true → Z.of_nat (length (relationships_in fs)) = occurs 4 fs.
Proof.
  induction fs as [|[m p] fs IH] using rev_ind; [done|]. rewrite forallb_snoc, andb_true_iff. intros [Hfs Hp].
  specialize (IH Hfs). destruct (decide (m = 4)) as [->|Hm].
  - rewrite relationships_in_same, occurs_same, length_app, Nat2Z.inj_add, IH. f_equal.
    unfold information_ok in Hp. cbn in Hp. destruct (relationship_verdict p); [done|]. simpl in Hp. lia.
  - by rewrite relationships_in_other, occurs_other.
Qed.
