(* ===== verification/ScipDocuments.v ===== *)
(** * Decoding a SCIP document against its source

    What [decode_scip_document] of [crates/repowitness-analysis/src/scip_wire.rs] admits: a
    document whose path names a regular file of the pinned manifest with exactly the digest
    of the supplied bytes, and whose occurrences all resolve in those bytes; and what it
    yields, in order. *)

From Stdlib Require Import ZArith Lia ZifyBool.
From stdpp Require Import base numbers list.
From S2P Require Import Prelude Ordering RepositoryPath SourceManifest Utf8 GraphIdentity WireFormat.
From S2P Require Import SourceRange ScipWire FieldReaders ScipMessages ScipOccurrences.

Open Scope Z_scope.

(** ** Sources *)

Section source.
Context {D : Type} `{EqDecision D} (sha256 : bytes → D).

Notation Manifest := (SourceManifest RepositoryPath SourceFileKind D).
Notation Entry := (SourceManifestEntry RepositoryPath SourceFileKind D).

(** A manifest in the order its constructor gives it: distinct paths, increasing. *)
Definition paths_sorted (m : Manifest) : Prop :=
  keys_increasing (λ e, path_bytes (path e)) (entries m).

Lemma path_cmp_Eq p q : path_cmp p q = Eq ↔ path_bytes p = path_bytes q.
Proof. unfold path_cmp. apply cmp_eq. Qed.

Lemma find_entry_spec (m : Manifest) p e :
  paths_sorted m →
  find_entry (entries m) p = Some e ↔ e ∈ entries m ∧ path_bytes (path e) = path_bytes p.
Proof.
  intros Hs. unfold find_entry. split.
  - intros [He Ht]%find_some. rewrite list_elem_of_In. split; [done|].
    apply path_cmp_Eq. by destruct (path_cmp _ _).
  - intros [He Hp]. destruct (List.find _ (entries m)) as [e'|] eqn:E.
    + apply find_some in E as [He' Ht]. f_equal.
      assert (path_bytes (path e') = path_bytes p) as Hp' by (apply path_cmp_Eq; by destruct (path_cmp _ _)).
      eapply (keys_increasing_inj (λ e, path_bytes (path e))); [done|by apply list_elem_of_In|done|].
      cbv beta. congruence.
    + pose proof (find_none _ _ E e (proj1 (list_elem_of_In _ _) He)) as Hn. cbv beta in Hn.
      by rewrite (proj2 (path_cmp_Eq _ _) Hp) in Hn.
Qed.

(** The source of a document: its entry in the manifest, a regular file of this content. *)
Definition source_of (m : Manifest) (limits : RepositoryPathLimits) (text source_bytes : bytes)
    (p : RepositoryPath) (e : Entry) : Prop :=
  try_from_bytes text limits = Ok p ∧ e ∈ entries m ∧ path_bytes (path e) = path_bytes p
  ∧ file_type e = Regular ∧ content_digest e = sha256 source_bytes.

Lemma validate_source_spec header (m : Manifest) limits source_bytes p e :
  paths_sorted m →
  (validate_scip_document_path header limits = Ok p
   ∧ validate_scip_document_source sha256 header m limits source_bytes = Ok e) ↔
  source_of m limits (relative_path header) source_bytes p e.
Proof.
  intros Hs. unfold source_of, validate_scip_document_source, validate_scip_document_path.
  rewrite map_err_Ok. split.
  - intros [Hp H]. rewrite Hp in H. simpl in H. split; [done|].
    destruct (find_entry (entries m) p) as [e'|] eqn:E; [|done]. simpl in H.
    apply find_entry_spec in E as [He Hpath]; [|done].
    case_bool_decide; [|done]. simpl in H. case_bool_decide; [|done]. injection H as <-. done.
  - intros (Hp & He & Hpath & Hk & Hd). split; [done|]. rewrite Hp. simpl.
    rewrite (proj2 (find_entry_spec m p e Hs)) by done. simpl.
    by rewrite !bool_decide_eq_true_2.
Qed.

(** ** Occurrence evidence *)

Section decode.
Context {A : Type} (on_occurrence : ScipWireValidatedOccurrence → A → result ScipWireError A).
Context (source_bytes : bytes) (encoding : ScipWirePositionEncoding) (consumer : A).

Definition occurrence_verdict (p : payload) : result ScipWireError ScipWireOccurrence :=
  run never (parse_scip_occurrence (payload_bytes p)).

Definition validate_occurrence (ordinal : Z) (p : payload) : result ScipWireError ScipWireValidatedOccurrence :=
  o ← occurrence_verdict p;
  span ← validate_scip_source_range (occ_range o) encoding source_bytes;
  Ok {| vo_ordinal := ordinal; vo_span := span; vo_symbol := occ_symbol o; vo_roles := occ_roles o |}.

(** The occurrences of the document, validated and handed to the consumer one by one. *)
Definition evidence (fs : list wire_field) : result ScipWireError (Z * A) :=
  try_fold (λ '(n, a) p, vo ← validate_occurrence n p; a ← on_occurrence vo a; Ok (n + 1, a))
    (0, consumer) (values 2 fs).

Definition document_ok (f : wire_field) : bool :=
  if (1 <=? f.1) && (f.1 <=? 5) then bytes_within MAX_DOCUMENT_BYTES f.2
  else if f.1 =? 6 then match f.2 with PVarint _ => true | _ => false end
  else ignorable MAX_DOCUMENT_BYTES f.2.

Definition document_admits (fs : list wire_field) : bool :=
  forallb document_ok fs && (occurs 2 fs <=? MAX_DOCUMENT_OCCURRENCES) && is_ok (evidence fs).

Definition document_gather (fs : list wire_field) : DocumentState (A := A) :=
  {| ds_occurrences := occurs 2 fs;
     ds_consumer := default consumer (snd <$> ok_value (evidence fs)) |}.

Lemma evidence_other fs m p : m ≠ 2 → evidence (fs ++ [(m, p)]) = evidence fs.
Proof. intros. unfold evidence. by rewrite values_snoc_other. Qed.

Lemma evidence_same fs p :
  evidence (fs ++ [(2, p)]) =
  '(n, a) ← evidence fs; vo ← validate_occurrence n p; a ← on_occurrence vo a; Ok (n + 1, a).
Proof.
  unfold evidence. rewrite values_snoc_same, try_fold_app. simpl.
  destruct (try_fold _ _ _) as [[n a]|e]; [|done]. simpl.
  destruct (validate_occurrence n p) as [vo|]; [|done]. simpl. by destruct (on_occurrence vo a).
Qed.

Lemma evidence_count fs n a : evidence fs = Ok (n, a) → n = occurs 2 fs.
Proof.
  revert n a. induction fs as [|[m p] fs IH] using rev_ind; intros n a; [by intros [= <- _]|].
  destruct (decide (m = 2)) as [->|Hm].
  - rewrite evidence_same, occurs_same, bind_Ok. intros ([n' a'] & He & H). apply IH in He as ->.
    apply bind_Ok in H as (vo & _ & H). apply bind_Ok in H as (a'' & _ & [= <- <-]). done.
  - rewrite evidence_other, occurs_other by done. apply IH.
Qed.

Lemma steady_document_field input s field wire c :
  steady (document_field on_occurrence input source_bytes encoding s field wire c).
Proof. unfold document_field. solve_steady. Qed.
#[local] Hint Resolve steady_document_field : steady.

Lemma document_reader input :
  slice_ok input →
  FieldReader input (document_field on_occurrence input source_bytes encoding) document_admits document_gather.
Proof.
  intros Hin. apply controlled_reader; [apply steady_document_field|done|..].
  { intros fs [m p]. unfold document_admits. rewrite forallb_snoc. pose proof (occurs_prefix 2 fs (m, p)).
    assert (is_ok (evidence (fs ++ [(m, p)])) = true → is_ok (evidence fs) = true); [|lia].
    destruct (decide (m = 2)) as [->|]; [|by rewrite evidence_other].
    rewrite evidence_same. by destruct (evidence fs). }
  intros fs field wire c Hc Hf Hfs. unfold document_field.
  assert (∀ p, document_admits (fs ++ [(field, p)]) =
    document_ok (field, p) && (occurs 2 (fs ++ [(field, p)]) <=? MAX_DOCUMENT_OCCURRENCES)
    && is_ok (evidence (fs ++ [(field, p)]))) as Ha.
  { intros p. unfold document_admits in Hfs |- *. rewrite forallb_snoc.
    destruct (forallb document_ok fs); [done|]. by simpl in Hfs. }
  unfold document_admits in Hfs. repeat rewrite andb_true_iff in Hfs. destruct Hfs as [[Hok H2] Hev].
  unfold document_ok in Ha. cbn [fst snd] in Ha.
  destruct (Z.eqb_spec field 2) as [->|Hf2].
  { revert Ha; closed_tests; intros Ha; split_wire.
    2:{ rewrite run_never_throw. reject_arm Ha. }
    rewrite run_never_arm by solve_steady. apply arm_bytes; [done..|]. intros bs s'.
    rewrite Ha, occurs_same, evidence_same, run_never_bind, bind_Ok by solve_steady.
    unfold document_gather. rewrite occurs_same, evidence_same.
    destruct (evidence fs) as [[n a]|e] eqn:Ee; [|done]. pose proof (evidence_count _ _ _ Ee) as ->.
    cbn [mbind result_bind bytes_within ds_occurrences ds_consumer ok_value option_fmap option_map fmap snd from_option].
    unfold validate_occurrence, occurrence_verdict. cbn [payload_bytes].
    destruct (run never (parse_scip_occurrence bs)) as [o|e]; cbn [mbind result_bind].
    2:{ split; [by intros (_ & ? & ? & _)|]. intros [? _]. simpl in *. lia. }
    setoid_rewrite run_never_lift. cbv zeta.
    destruct (validate_scip_source_range (occ_range o) encoding source_bytes) as [span|e] eqn:Espan;
      cbn [mbind result_bind].
    2:{ split; [intros (_ & o' & [= <-] & H); by rewrite Espan in H|]. intros [? _]. simpl in *. lia. }
    match goal with |- context [on_occurrence ?vo a] => set (v := vo) end.
    change (id a) with a. destruct (on_occurrence v a) as [a'|e] eqn:Ev; cbn.
    - split.
      + intros (Hl & o' & [= <-] & H). rewrite Espan in H. simpl in H. apply step_count in H as [Hn H]; [|done].
        fold v in H. rewrite Ev in H. injection H as <-. split; [lia|done].
      + intros [H ->]. split; [lia|]. exists o. split; [done|]. rewrite Espan. simpl. apply step_count; [done|].
        fold v. rewrite Ev. split; [lia|done].
    - split; [|intros [? _]; lia].
      intros (Hl & o' & [= <-] & H). rewrite Espan in H. simpl in H. apply step_count in H as [Hn H]; [|done].
      fold v in H. by rewrite Ev in H. }
  assert (∀ p, evidence (fs ++ [(field, p)]) = evidence fs) as Heq by (intros; by apply evidence_other).
  destruct (Z.eqb_spec field 6) as [->|Hf6].
  { revert Ha; closed_tests; intros Ha; split_wire.
    2:{ rewrite run_never_throw. reject_arm Ha. }
    rewrite (run_never_arm _ (λ _, mret (document_gather fs))) by solve_steady.
    apply arm_varint; [done..|]. intros v s'. rewrite Ha, Heq. other_fields. unfold document_gather.
    rewrite Heq. other_fields. simpl.
    split; [intros [= <-]; split; [lia|done]|by intros [_ ->]]. }
  destruct (decide (field < 6)) as [Hlt|Hge].
  { assert (field = 1 ∨ field = 3 ∨ field = 4 ∨ field = 5) as [-> | [-> | [-> | ->]]] by lia.
    all: revert Ha; closed_tests; intros Ha; split_wire; [|rewrite run_never_throw; reject_arm Ha].
    all: rewrite (run_never_arm _ (λ _, mret (document_gather fs))) by solve_steady.
    all: apply arm_bytes; [done..|]; intros bs s'; rewrite Ha, Heq; other_fields; unfold document_gather;
      rewrite Heq; other_fields; simpl.
    all: split; [intros [? [= <-]]; split; [lia|done]|intros [? ->]; split; [lia|done]]. }
  revert Ha. open_tests field. intros Ha. rewrite run_never_skip.
  apply arm_skip; [done..| |]; intros p _.
  - rewrite Ha, Heq. other_fields. lia.
  - unfold document_gather. rewrite Heq. by other_fields.
Qed.

(** What a payload says of the occurrence of an ordinal: its fields, and the exact span of
    its range in the source. *)
Definition validates (ordinal : Z) (p : payload) (vo : ScipWireValidatedOccurrence) : Prop :=
  ∃ fs o source, message_of (payload_bytes p) fs ∧ occurrence_of fs o
    ∧ source_bytes = as_bytes source ∧ Forall scalar source
    ∧ resolves source encoding (range_start (occ_range o)) (span_start (vo_span vo))
    ∧ resolves source encoding (range_end (occ_range o)) (span_end (vo_span vo))
    ∧ span_start (vo_span vo) ≤ span_end (vo_span vo)
    ∧ vo_ordinal vo = ordinal ∧ vo_symbol vo = occ_symbol o ∧ vo_roles vo = occ_roles o.

Inductive validated : Z → list payload → list ScipWireValidatedOccurrence → Prop :=
| validated_nil n : validated n [] []
| validated_cons n p ps vo vos :
    validates n p vo → validated (n + 1) ps vos → validated n (p :: ps) (vo :: vos).

Lemma validate_occurrence_spec n p vo :
  slice_ok source_bytes → slice_ok (payload_bytes p) →
  validate_occurrence n p = Ok vo ↔ validates n p vo.
Proof.
  intros Hsrc Hin. unfold validate_occurrence, occurrence_verdict. rewrite bind_Ok. split.
  - intros (o & (fs & Hm & Ho)%occurrence_spec & H); [|done]. apply bind_Ok in H as (span & Hsp & [= <-]).
    apply source_range_spec in Hsp as (source & H1 & H2 & H3 & H4 & H5); [|done|by eapply occurrence_range_wf].
    exists fs, o, source. by split_and!.
  - intros (fs & o & source & Hm & Ho & H1 & H2 & H3 & H4 & H5 & H6 & H7 & H8). exists o.
    split; [apply occurrence_spec; [done|by exists fs]|]. apply bind_Ok. exists (vo_span vo). split.
    + apply source_range_spec; [done|by eapply occurrence_range_wf|]. by exists source.
    + rewrite <- H6, <- H7, <- H8. by destruct vo.
Qed.

Lemma evidence_fold ps n a n' a' :
  slice_ok source_bytes → (∀ p, p ∈ ps → slice_ok (payload_bytes p)) →
  try_fold (λ '(n, a) p, vo ← validate_occurrence n p; a ← on_occurrence vo a; Ok (n + 1, a)) (n, a) ps
    = Ok (n', a') ↔
  ∃ vos, validated n ps vos ∧ n' = n + Z.of_nat (length vos)
    ∧ try_fold (λ a vo, on_occurrence vo a) a vos = Ok a'.
Proof.
  intros Hsrc. revert n a. induction ps as [|p ps IH]; intros n a Hps; cbn [try_fold].
  - split.
    + intros [= <- <-]. exists []. split_and!; [constructor|simpl; lia|done].
    + intros (vos & Hv & -> & Hf). inversion Hv; subst. injection Hf as <-. do 2 f_equal. simpl. lia.
  - assert (slice_ok (payload_bytes p)) as Hp by (apply Hps; by left).
    assert (∀ q, q ∈ ps → slice_ok (payload_bytes q)) as Hps' by (intros; apply Hps; by right).
    rewrite bind_Ok. split.
    + intros ([n1 a1] & H & Hrest). apply bind_Ok in H as (vo & Hvo & H). apply bind_Ok in H as (a2 & Ha2 & [= <- <-]).
      apply IH in Hrest as (vos & Hv & -> & Hf); [|done]. exists (vo :: vos). split_and!.
      * constructor; [by apply validate_occurrence_spec|done].
      * simpl. lia.
      * simpl. by rewrite Ha2.
    + intros (vos & Hv & -> & Hf). inversion Hv as [|? ? ? vo vos' Hvo Hvos]; subst. simpl in Hf.
      apply bind_Ok in Hf as (a1 & Ha1 & Hf). exists (n + 1, a1). split.
      * apply bind_Ok. exists vo. split; [by apply validate_occurrence_spec|]. rewrite Ha1. done.
      * apply IH; [done|]. exists vos'. split_and!; [done|simpl; lia|done].
Qed.

(** An admitted header admits the fields of the document. *)
Lemma header_document fs : header_admits fs = true → forallb document_ok fs = true ∧ occurs 2 fs <= MAX_DOCUMENT_OCCURRENCES.
Proof.
  unfold header_admits. rewrite !andb_true_iff. intros [[[[[Hok _] _] _] Hn] _]. split; [|lia].
  rewrite forallb_forall in Hok |- *. intros [m p] Hf. specialize (Hok _ Hf). revert Hok.
  unfold header_ok, document_ok. cbn [fst snd].
  destruct (Z.eqb_spec m 1) as [->|]; [|destruct (Z.eqb_spec m 2) as [->|]; [|destruct (Z.eqb_spec m 3) as [->|];
    [|destruct (Z.eqb_spec m 4) as [->|]; [|destruct (Z.eqb_spec m 5) as [->|]; [|destruct (Z.eqb_spec m 6) as [->|]]]]]].
  all: closed_tests; destruct p; cbn; try done;
    unfold MAX_METADATA_BYTES, MAX_IGNORED_FIELD_BYTES, MAX_DOCUMENT_BYTES, MAX_SCIP_DOCUMENT_BYTES; try lia.
  all: destruct ((1 <=? m) && (m <=? 5)) eqn:E; [|lia..]; lia.
Qed.

Lemma header_payloads fs p : header_admits fs = true → p ∈ values 2 fs → slice_ok (payload_bytes p).
Proof.
  unfold header_admits. rewrite !andb_true_iff, forallb_forall. intros [[[[[Hok _] _] _] _] _] Hp.
  unfold values in Hp. apply list_elem_of_omap in Hp as ([m q] & Hf & Hp). cbn in Hp.
  destruct (Z.eqb_spec m 2) as [->|]; [|done]. injection Hp as ->.
  specialize (Hok (2, p) (proj1 (list_elem_of_In _ _) Hf)). unfold header_ok in Hok. cbn in Hok.
  destruct p as [| |bs|]; [done|done| |done]. cbn in Hok |- *. apply (slice_ok_within _ MAX_DOCUMENT_BYTES); [lia|done].
Qed.
End decode.
End source.
#[export] Hint Resolve steady_document_field : steady.

(** What a document decodes to: its fields make a header whose path names the source, and
    every occurrence is validated evidence. *)
Record document_of {D} `{EqDecision D} (sha256 : bytes → D)
    (m : SourceManifest RepositoryPath SourceFileKind D) (limits : RepositoryPathLimits)
    (source_bytes : bytes) (encoding : ScipWirePositionEncoding) (fs : list wire_field)
    (d : ScipWireDecodedDocument) (vos : list ScipWireValidatedOccurrence) : Prop := {
  dof_header : header_admits fs = true;
  dof_source : ∃ text e, slot payload_bytes 1 fs = Some text
                 ∧ source_of sha256 m limits text source_bytes (dd_path d) e;
  dof_occurrences : validated source_bytes encoding 0 (values 2 fs) vos;
  dof_encoding : dd_position_encoding d = encoding;
  dof_count : dd_occurrences d = Z.of_nat (length vos);
}.

Section theorem.
Context {D : Type} `{EqDecision D} (sha256 : bytes → D) {A : Type}.
Context (on_occurrence : ScipWireValidatedOccurrence → A → result ScipWireError A).

Lemma steady_decode_document input m limits source_bytes encoding (consumer : A) :
  steady (decode_scip_document sha256 on_occurrence input m limits source_bytes encoding consumer).
Proof. unfold decode_scip_document. solve_steady. Qed.

Lemma decode_document_spec input m limits source_bytes encoding (consumer : A) d a :
  slice_ok input → slice_ok source_bytes → paths_sorted m →
  run never (decode_scip_document sha256 on_occurrence input m limits source_bytes encoding consumer) = Ok (d, a) ↔
  ∃ fs vos, message_of input fs ∧ document_of sha256 m limits source_bytes encoding fs d vos
    ∧ try_fold (λ a vo, on_occurrence vo a) consumer vos = Ok a.
Proof.
  intros Hin Hsrc Hm. unfold decode_scip_document.
  pose proof (document_reader on_occurrence source_bytes encoding consumer input Hin) as Hreader.
  rewrite run_never_bind, bind_Ok by solve_steady. setoid_rewrite document_header_spec; [|done]. split.
  - intros (h & (fs & Hmsg & Hh & Hpath & _) & Hrun).
    rewrite run_never_lift_bind in Hrun by solve_steady. apply bind_Ok in Hrun as (p & Hp & Hrun).
    rewrite run_never_lift_bind in Hrun by solve_steady. apply bind_Ok in Hrun as (e & He & Hrun).
    rewrite run_never_bind in Hrun by solve_steady. apply bind_Ok in Hrun as (s & Hs & [= <- <-]).
    change {| ds_occurrences := 0; ds_consumer := consumer |}
      with (document_gather on_occurrence source_bytes encoding consumer []) in Hs.
    apply (message_loop_spec id _ _ _ _ Hin) in Hs as (fs' & Hmsg' & Ha & ->).
    rewrite <- (message_of_det _ _ _ Hmsg Hmsg') in *. clear fs' Hmsg'.
    unfold document_admits in Ha. apply andb_true_iff in Ha as [_ Hev].
    unfold document_gather. destruct (evidence _ _ _ _ fs) as [[n a]|] eqn:E; [|done].
    apply evidence_fold in E as (vos & Hv & Hn & Hf); [|done|by intros; eapply header_payloads].
    exists fs, vos. split_and!; [done| |done]. split; [done| |done|done|].
    + exists (relative_path h), e. split; [done|]. by apply (validate_source_spec sha256 h).
    + simpl. pose proof (evidence_count on_occurrence source_bytes encoding consumer fs n a) as Hc.
      rewrite <- Hc, Hn; [lia|]. apply evidence_fold; [done|by intros; eapply header_payloads|]. by exists vos.
  - intros (fs & vos & Hmsg & [Hh (text & e & Htext & Hsource) Hv Henc Hcount] & Hf).
    pose proof Hsource as Hsource'.
    exists {| relative_path := text; language := slot payload_bytes 4 fs; position_encoding := slot position_of 6 fs;
              occurrences := occurs 2 fs; symbols := occurs 3 fs |}.
    split; [by exists fs|].
    apply (validate_source_spec sha256 {| relative_path := text; language := slot payload_bytes 4 fs;
      position_encoding := slot position_of 6 fs; occurrences := occurs 2 fs; symbols := occurs 3 fs |})
      in Hsource as [Hp He]; [|done].
    rewrite run_never_lift_bind by solve_steady. apply bind_Ok. exists (dd_path d). split; [done|].
    rewrite run_never_lift_bind by solve_steady. apply bind_Ok. exists e. split; [done|].
    rewrite run_never_bind by solve_steady. apply bind_Ok.
    assert (evidence on_occurrence source_bytes encoding consumer fs = Ok (Z.of_nat (length vos), a)) as Hev.
    { apply evidence_fold; [done|by intros; eapply header_payloads|]. by exists vos. }
    exists (document_gather on_occurrence source_bytes encoding consumer fs). split.
    + change {| ds_occurrences := 0; ds_consumer := consumer |}
        with (document_gather on_occurrence source_bytes encoding consumer []).
      apply (message_loop_spec id _ _ _ _ Hin). exists fs. split_and!; [done| |done].
      unfold document_admits. destruct (header_document fs Hh) as [-> Hn]. rewrite Hev. simpl. lia.
    + rewrite run_never_ret. unfold document_gather. rewrite Hev. simpl.
      rewrite <- (evidence_count _ _ _ _ _ _ _ Hev), <- Hcount, <- Henc. by destruct d.
Qed.
End theorem.
