(* ===== verification/ScipOverlay.v ===== *)
(** * The SCIP precision overlay

    Models [crates/repowitness-analysis/src/scip_overlay.rs], which turns a SCIP index into
    batches of provider-neutral facts staged one document at a time, with the facts
    themselves ([crates/repowitness-domain/src/scip_overlay.rs]).  The source lookup is an
    argument: the immutable bytes of a path, or none.

    The scan of the index fails with a wire error, beside which its state may record the
    error of the consumer; the two are only looked at together, at the end.  The model
    carries their combination: a wire error is mapped, an error of the consumer is kept. *)

From Stdlib Require Import ZArith Lia ZifyBool.
From stdpp Require Import base numbers list.
From S2P Require Import Prelude Ordering RepositoryPath SourceManifest Utf8 GraphIdentity WireFormat.
From S2P Require Import SourceRange ScipWire.

Open Scope Z_scope.

(** ** Facts *)

Definition MAX_SCIP_SYMBOL_BYTES : Z := 16 * 1024.

(** A [ScipSymbol] is its text. *)
Notation ScipSymbol := bytes.

Inductive ScipSymbolError := SymbolEmpty | SymbolTooLong.

Definition scip_symbol_try_new (value : bytes) : result ScipSymbolError ScipSymbol :=
  bytes ← ok_or (u64_of_len (length value)) SymbolTooLong;
  if bool_decide (value = []) then Err SymbolEmpty
  else if MAX_SCIP_SYMBOL_BYTES <? bytes then Err SymbolTooLong
  else Ok value.

(** [ScipSymbolRoles] is its bits. *)
Definition roles_is_definition (bits : Z) : bool := negb (Z.land bits 0x1 =? 0).
Definition roles_is_import (bits : Z) : bool := negb (Z.land bits 0x2 =? 0).

Record ScipRelationshipKinds := {
  kind_reference : bool;
  kind_implementation : bool;
  kind_type_definition : bool;
  kind_definition : bool;
}.

Inductive ScipRelationshipError := NoKind.

Definition relationship_kinds_try_new (reference implementation type_definition definition : bool)
    : result ScipRelationshipError ScipRelationshipKinds :=
  if negb reference && negb implementation && negb type_definition && negb definition then Err NoKind
  else Ok {| kind_reference := reference; kind_implementation := implementation;
             kind_type_definition := type_definition; kind_definition := definition |}.

Record ScipRelationship := {
  scip_source : ScipSymbol;
  scip_target : ScipSymbol;
  scip_kinds : ScipRelationshipKinds;
}.

Record ScipOccurrence (D : Type) := {
  so_path : RepositoryPath;
  so_content : D;
  so_span : ByteSpan;
  so_ordinal : Z;
  so_symbol : option ScipSymbol;
  so_roles : Z;
}.
Arguments so_path {D} _.
Arguments so_content {D} _.
Arguments so_span {D} _.
Arguments so_ordinal {D} _.
Arguments so_symbol {D} _.
Arguments so_roles {D} _.

(** ** The overlay *)

Definition WIRE_DOCUMENT_SYMBOLS_FIELD : Z := 3.
Definition MAX_DOCUMENT_RELATIONSHIPS : Z := 250000.
Definition MAX_DOCUMENT_OWNED_SYMBOL_BYTES : Z := 16 * 1024 * 1024.

Record ScipOverlayDocument (D : Type) := {
  od_path : RepositoryPath;
  od_content : D;
  od_occurrences : list (ScipOccurrence D);
  od_relationships : list ScipRelationship;
}.
Arguments od_path {D} _.
Arguments od_content {D} _.
Arguments od_occurrences {D} _.
Arguments od_relationships {D} _.

Inductive ScipSourceTextEncoding := SourceTextUtf8 | SourceTextUtf16.

Record ScipOverlayIndexSummary := {
  ix_documents : Z;
  ix_ignored_external_documents : Z;
  ix_occurrences : Z;
  ix_relationships : Z;
  ix_source_text_encoding : ScipSourceTextEncoding;
}.

Inductive ScipOverlayDocumentError :=
| OverlayInvalidInput | OverlaySourceMismatch | OverlayUnsupportedSourceEncoding | OverlayCancelled
| OverlayDeadlineExceeded | OverlayResourceLimit.

#[export] Instance overlay_error_eq_dec : EqDecision ScipOverlayDocumentError.
Proof. solve_decision. Defined.

Definition map_text_encoding (encoding : ScipWireTextEncoding) : ScipSourceTextEncoding :=
  match encoding with TextUtf8 => SourceTextUtf8 | TextUtf16 => SourceTextUtf16 end.

Definition map_wire_error (error : ScipWireError) : ScipOverlayDocumentError :=
  match error with
  | ScipCancelled => OverlayCancelled
  | ScipDeadlineExceeded => OverlayDeadlineExceeded
  | InputTooLarge | FieldTooLarge | TooManyDocuments | TooManyDocumentEntries
  | TooManyRelationships => OverlayResourceLimit
  | SourceNotInManifest | SourceDigestMismatch => OverlaySourceMismatch
  | UnsupportedTextEncoding => OverlayUnsupportedSourceEncoding
  | _ => OverlayInvalidInput
  end.

(** The answers of the control, as the wire parsers see them. *)
Definition wire_answer (error : ScipOverlayDocumentError) : option ScipWireError :=
  match error with
  | OverlayCancelled => Some ScipCancelled
  | OverlayDeadlineExceeded => Some ScipDeadlineExceeded
  | _ => None
  end.

(** A wire parser with its errors mapped. *)
Definition mapped {A} (m : ctl ScipWireError A) : ctl ScipOverlayDocumentError A :=
  ctl_map_err map_wire_error wire_answer m.

Definition reserve_owned_symbol_bytes (total : Z) (symbol : ScipSymbol)
    : result ScipOverlayDocumentError Z :=
  bytes ← ok_or (u64_of_len (length symbol)) OverlayResourceLimit;
  next ← ok_or (u64_checked_add total bytes) OverlayResourceLimit;
  if MAX_DOCUMENT_OWNED_SYMBOL_BYTES <? next then Err OverlayResourceLimit else Ok next.

(** *** Relationships of a document *)

Record RelationshipsState := {
  rl_relationships : list ScipRelationship;
  rl_owned_symbol_bytes : Z;
}.

Definition push_relationship (source : ScipSymbol) (s : RelationshipsState)
    (relationship : ScipWireRelationship) : result ScipOverlayDocumentError RelationshipsState :=
  if Z.of_nat (length (rl_relationships s)) =? MAX_DOCUMENT_RELATIONSHIPS then Err OverlayResourceLimit
  else
    target ← map_err (λ _, OverlayInvalidInput) (scip_symbol_try_new (rel_symbol relationship));
    owned ← reserve_owned_symbol_bytes (rl_owned_symbol_bytes s) source;
    owned ← reserve_owned_symbol_bytes owned target;
    kinds ← map_err (λ _, OverlayInvalidInput)
      (relationship_kinds_try_new (rel_is_reference relationship) (rel_is_implementation relationship)
         (rel_is_type_definition relationship) (rel_is_definition relationship));
    Ok {| rl_relationships := rl_relationships s ++
                                [{| scip_source := source; scip_target := target; scip_kinds := kinds |}];
          rl_owned_symbol_bytes := owned |}.

Definition relationships_field (raw_document : bytes) (s : RelationshipsState) (field wire cursor : Z)
    : ctl ScipOverlayDocumentError (RelationshipsState * Z) :=
  if (field =? WIRE_DOCUMENT_SYMBOLS_FIELD) && (wire =? WIRE_LENGTH_DELIMITED) then
    '(raw, cursor) ← lift (map_err map_wire_error
      (read_length_delimited raw_document cursor MAX_SCIP_DOCUMENT_BYTES));
    '(information, raw_relationships) ←
      mapped (parse_scip_symbol_information (λ relationship raws, Ok (raws ++ [relationship])) raw []);
    s ← lift
      (if negb (info_relationships information =? Z.of_nat (length raw_relationships)) then Err OverlayInvalidInput
       else
         source ← map_err (λ _, OverlayInvalidInput) (scip_symbol_try_new (info_symbol information));
         try_fold (push_relationship source) s raw_relationships);
    mret (s, cursor)
  else
    cursor ← lift (map_err map_wire_error (skip_field MAX_SCIP_DOCUMENT_BYTES raw_document wire cursor));
    mret (s, cursor).

Definition decode_document_relationships (raw_document : bytes) (owned_symbol_bytes : Z)
    : ctl ScipOverlayDocumentError (list ScipRelationship) :=
  s ← message_loop map_wire_error raw_document (relationships_field raw_document)
        {| rl_relationships := []; rl_owned_symbol_bytes := owned_symbol_bytes |};
  mret (rl_relationships s).

(** *** One document *)

Section document.
Context {D : Type} `{EqDecision D} (sha256 : bytes → D).

Notation Manifest := (SourceManifest RepositoryPath SourceFileKind D).

(** The callback that collects occurrences, with the symbol bytes it has reserved. *)
Definition collect_occurrence (p : RepositoryPath) (content : D) (occurrence : ScipWireValidatedOccurrence)
    (acc : Z * list (ScipOccurrence D)) : result ScipWireError (Z * list (ScipOccurrence D)) :=
  symbol ← match vo_symbol occurrence with
           | None => Ok None
           | Some value => symbol ← map_err (λ _, InvalidOccurrence) (scip_symbol_try_new value); Ok (Some symbol)
           end;
  owned ← match symbol with
          | Some symbol => map_err (λ _, FieldTooLarge) (reserve_owned_symbol_bytes acc.1 symbol)
          | None => Ok acc.1
          end;
  Ok (owned, acc.2 ++ [{| so_path := p; so_content := content; so_span := vo_span occurrence;
                          so_ordinal := vo_ordinal occurrence; so_symbol := symbol;
                          so_roles := vo_roles occurrence |}]).

Definition decode_scip_overlay_document_with_position_encoding (raw_document : bytes) (manifest : Manifest)
    (path_limits : RepositoryPathLimits) (source_bytes : bytes) (encoding : ScipWirePositionEncoding)
    : ctl ScipOverlayDocumentError (ScipOverlayDocument D) :=
  header ← mapped (parse_scip_document_header raw_document);
  p ← lift (map_err map_wire_error (validate_scip_document_path header path_limits));
  entry ← lift (map_err map_wire_error
    (validate_scip_document_source sha256 header manifest path_limits source_bytes));
  let content := content_digest entry in
  '(_, (owned, occurrences)) ←
    mapped (decode_scip_document sha256 (collect_occurrence p content) raw_document manifest path_limits
              source_bytes encoding (0, []));
  relationships ← decode_document_relationships raw_document owned;
  mret {| od_path := p; od_content := content; od_occurrences := occurrences;
          od_relationships := relationships |}.

Definition decode_scip_overlay_document (raw_document : bytes) (manifest : Manifest)
    (path_limits : RepositoryPathLimits) (source_bytes : bytes)
    : ctl ScipOverlayDocumentError (ScipOverlayDocument D) :=
  header ← mapped (parse_scip_document_header raw_document);
  encoding ← lift (map_err map_wire_error
    (ok_or (position_encoding header) UnsupportedPositionEncoding));
  decode_scip_overlay_document_with_position_encoding raw_document manifest path_limits source_bytes encoding.

(** *** The index *)

Section index.
Context (manifest : Manifest) (path_limits : RepositoryPathLimits).
Context (source_lookup : RepositoryPath → option bytes).
Context {B : Type} (on_document : ScipOverlayDocument D → B → result ScipOverlayDocumentError B).

(** [ScipIndexStreamState] with the metadata and the producer flag its callbacks share, and
    the state of the sink. *)
Record ScipIndexStreamState := {
  st_metadata : option ScipWireMetadata;
  st_scip_go_producer : bool;
  st_staged_documents : Z;
  st_ignored_external_documents : Z;
  st_occurrences : Z;
  st_relationships : Z;
  st_sink : B;
}.

Definition on_metadata (raw_metadata : bytes) (s : ScipIndexStreamState)
    : ctl ScipOverlayDocumentError ScipIndexStreamState :=
  parsed ← mapped (parse_scip_metadata raw_metadata);
  if negb (bool_decide (text_encoding parsed = TextUtf8)) then throw (map_wire_error UnsupportedTextEncoding)
  else
    mret {| st_metadata := Some parsed; st_scip_go_producer := scip_go_producer parsed;
            st_staged_documents := st_staged_documents s;
            st_ignored_external_documents := st_ignored_external_documents s;
            st_occurrences := st_occurrences s; st_relationships := st_relationships s;
            st_sink := st_sink s |}.

(** [reserve_document]: the totals after a document. *)
Definition reserve_document (s : ScipIndexStreamState) (document : ScipOverlayDocument D)
    : result ScipOverlayDocumentError (Z * Z) :=
  occurrences ← ok_or (u64_of_len (length (od_occurrences document))) OverlayResourceLimit;
  relationships ← ok_or (u64_of_len (length (od_relationships document))) OverlayResourceLimit;
  occurrences ← ok_or (u64_checked_add (st_occurrences s) occurrences) OverlayResourceLimit;
  relationships ← ok_or (u64_checked_add (st_relationships s) relationships) OverlayResourceLimit;
  Ok (occurrences, relationships).

Definition external_path (s : ScipIndexStreamState) (header : ScipWireDocumentHeader) : bool :=
  st_scip_go_producer s && starts_with (b_of "../") (relative_path header).

(** The encoding of a document: declared, or the known omission of one producer. *)
Definition document_encoding (s : ScipIndexStreamState) (header : ScipWireDocumentHeader)
    : option ScipWirePositionEncoding :=
  match position_encoding header with
  | Some encoding => Some encoding
  | None =>
      if st_scip_go_producer s && is_go_document_with_omitted_position_encoding header
      then Some PositionUtf8 else None
  end.

Definition stage (raw_document : ScipWireDocument) (s : ScipIndexStreamState)
    : ctl ScipOverlayDocumentError ScipIndexStreamState :=
  observed_documents ← lift (ok_or
    (u32_checked_add (st_staged_documents s) (st_ignored_external_documents s)) OverlayResourceLimit);
  if negb (doc_ordinal raw_document =? observed_documents) then throw OverlayInvalidInput
  else
    header ← mapped (parse_scip_document_header (doc_bytes raw_document));
    if external_path s header then
      ignored ← lift (ok_or (u32_checked_add (st_ignored_external_documents s) 1) OverlayResourceLimit);
      mret {| st_metadata := st_metadata s; st_scip_go_producer := st_scip_go_producer s;
              st_staged_documents := st_staged_documents s; st_ignored_external_documents := ignored;
              st_occurrences := st_occurrences s; st_relationships := st_relationships s;
              st_sink := st_sink s |}
    else
      p ← lift (map_err map_wire_error (validate_scip_document_path header path_limits));
      source_bytes ← lift (ok_or (source_lookup p) (map_wire_error SourceNotInManifest));
      encoding ← lift (ok_or (document_encoding s header) (map_wire_error UnsupportedPositionEncoding));
      document ← decode_scip_overlay_document_with_position_encoding (doc_bytes raw_document) manifest
                   path_limits source_bytes encoding;
      '(occurrences, relationships) ← lift (reserve_document s document);
      sink ← lift (on_document document (st_sink s));
      staged ← lift (ok_or (u32_checked_add (st_staged_documents s) 1) OverlayResourceLimit);
      mret {| st_metadata := st_metadata s; st_scip_go_producer := st_scip_go_producer s;
              st_staged_documents := staged;
              st_ignored_external_documents := st_ignored_external_documents s;
              st_occurrences := occurrences; st_relationships := relationships; st_sink := sink |}.

Definition stream_init (sink : B) : ScipIndexStreamState :=
  {| st_metadata := None; st_scip_go_producer := false; st_staged_documents := 0;
     st_ignored_external_documents := 0; st_occurrences := 0; st_relationships := 0; st_sink := sink |}.

Definition decode_scip_overlay_index (input : bytes) (sink : B)
    : ctl ScipOverlayDocumentError (ScipOverlayIndexSummary * B) :=
  '(summary, s) ← scan_scip_wire map_wire_error on_metadata stage input scip_limits_DEFAULT (stream_init sink);
  lift
    (metadata ← ok_or (st_metadata s) OverlayInvalidInput;
     observed_documents ← ok_or
       (u32_checked_add (st_staged_documents s) (st_ignored_external_documents s)) OverlayResourceLimit;
     if negb (protocol_version metadata =? 0) || negb (sum_documents summary =? observed_documents)
     then Err OverlayInvalidInput
     else
       Ok ({| ix_documents := st_staged_documents s;
              ix_ignored_external_documents := st_ignored_external_documents s;
              ix_occurrences := st_occurrences s; ix_relationships := st_relationships s;
              ix_source_text_encoding := map_text_encoding (text_encoding metadata) |}, st_sink s)).
End index.
End document.
