(* ===== verification/ScipScan.v ===== *)
(** * Scanning a SCIP index

    What [scan_scip_wire] of [crates/repowitness-analysis/src/scip_wire.rs] accepts: one
    metadata message at the very start, then fields among which the documents are handed to
    the caller in order, each with its ordinal; everything else is skipped within a bound.
    The callbacks are arguments. *)

From Stdlib Require Import ZArith Lia ZifyBool.
From Stdlib Require Import Strings.Byte.
From stdpp Require Import base numbers list.
From S2P Require Import Prelude Ordering WireFormat ScipWire FieldReaders.

Open Scope Z_scope.

Section scan.
Context {E A : Type} (wire_error : ScipWireError → E).
Context (on_metadata : bytes → A → ctl E A) (on_document : ScipWireDocument → A → ctl E A).
Context (Hmetadata : ∀ bs a, steady (on_metadata bs a)) (Hdocument : ∀ d a, steady (on_document d a)).
Context (limits : ScipWireLimits) (Hlimits : scip_limits_is_valid limits = true).
Context (Hdocuments : 0 ≤ max_documents limits).

(** The payloads of the document fields, in order. *)
Definition document_payload (f : wire_field) : option bytes :=
  match f.2 with PBytes bs => if f.1 =? DOCUMENT_FIELD then Some bs else None | _ => None end.
Definition documents_in (fs : list wire_field) : list bytes := omap document_payload fs.

Definition ignored_in (fs : list wire_field) : Z :=
  Z.of_nat (length fs) - Z.of_nat (length (documents_in fs)).

(** A field that may follow the metadata. *)
Definition index_field_ok (f : wire_field) : bool :=
  match f.2 with
  | PBytes bs =>
      if f.1 =? METADATA_FIELD then false
      else if f.1 =? DOCUMENT_FIELD then len bs <=? max_document_bytes limits
      else len bs <=? max_ignored_field_bytes limits
  | _ => true
  end.

(** The documents handed over, numbered from zero. *)
Definition hand_over (a : A) (documents : list bytes) : result E (Z * A) :=
  try_fold (λ '(n, a) bs, a ← run never (on_document {| doc_ordinal := n; doc_bytes := bs |} a); Ok (n + 1, a))
    (0, a) documents.

Section after_metadata.
Context (a : A).

Definition scan_admits (fs : list wire_field) : bool :=
  forallb index_field_ok fs && (Z.of_nat (length (documents_in fs)) <=? max_documents limits)
  && (ignored_in fs <=? u32_max) && is_ok (hand_over a (documents_in fs)).

Definition scan_gather (fs : list wire_field) : ScanState (A := A) :=
  {| sc_metadata_present := true; sc_documents := Z.of_nat (length (documents_in fs));
     sc_ignored_fields := ignored_in fs;
     sc_consumer := default a (snd <$> ok_value (hand_over a (documents_in fs))) |}.
End after_metadata.

Lemma valid_limits :
  max_input_bytes limits ≤ u32_max ∧ max_documents limits ≤ u32_max ∧ max_document_bytes limits ≤ u32_max
  ∧ max_metadata_bytes limits ≤ u32_max ∧ max_ignored_field_bytes limits ≤ u32_max.
Proof.
  revert Hlimits. unfold scip_limits_is_valid, MAX_INPUT_BYTES, MAX_DOCUMENTS, MAX_DOCUMENT_BYTES,
    MAX_SCIP_DOCUMENT_BYTES, MAX_METADATA_BYTES, MAX_IGNORED_FIELD_BYTES, u32_max. lia.
Qed.

Lemma documents_in_snoc fs f :
  documents_in (fs ++ [f]) = documents_in fs ++ match document_payload f with Some bs => [bs] | None => [] end.
Proof. unfold documents_in. rewrite omap_app. simpl. by destruct (document_payload f). Qed.

Lemma documents_in_other fs f : document_payload f = None → documents_in (fs ++ [f]) = documents_in fs.
Proof. intros Hf. by rewrite documents_in_snoc, Hf, app_nil_r. Qed.

Lemma ignored_in_other fs f : document_payload f = None → ignored_in (fs ++ [f]) = ignored_in fs + 1.
Proof. intros Hf. unfold ignored_in. rewrite documents_in_other, length_app by done. simpl. lia. Qed.

Lemma ignored_in_document fs f bs : document_payload f = Some bs → ignored_in (fs ++ [f]) = ignored_in fs.
Proof. intros Hf. unfold ignored_in. rewrite documents_in_snoc, Hf, !length_app. simpl. lia. Qed.

Lemma ignored_in_nonneg fs : 0 ≤ ignored_in fs.
Proof.
  unfold ignored_in, documents_in. induction fs as [|f fs IH]; [done|]. csimpl.
  destruct (document_payload f); csimpl; lia.
Qed.

Lemma hand_over_snoc a ds bs :
  hand_over a (ds ++ [bs]) =
  '(n, a) ← hand_over a ds;
  a ← run never (on_document {| doc_ordinal := n; doc_bytes := bs |} a); Ok (n + 1, a).
Proof.
  unfold hand_over. rewrite try_fold_app. simpl.
  destruct (try_fold _ _ _) as [[n a']|e]; [|done]. simpl. by destruct (run never _).
Qed.

Lemma hand_over_count a ds n a' : hand_over a ds = Ok (n, a') → n = Z.of_nat (length ds).
Proof.
  revert n a'. induction ds as [|bs ds IH] using rev_ind; intros n a'; [by intros [= <- _]|].
  rewrite hand_over_snoc, bind_Ok. intros ([m b] & H & H'). apply IH in H as ->.
  apply bind_Ok in H' as (b' & _ & [= <- <-]). rewrite length_app. simpl. lia.
Qed.

Lemma steady_scan_field input s field wire c :
  steady (scan_field wire_error on_metadata on_document input limits s field wire c).
Proof. unfold scan_field. solve_steady; auto. Qed.
#[local] Hint Resolve steady_scan_field : steady.

Lemma scan_admits_snoc a fs f :
  scan_admits a fs = true →
  scan_admits a (fs ++ [f]) =
    index_field_ok f && (Z.of_nat (length (documents_in (fs ++ [f]))) <=? max_documents limits)
    && (ignored_in (fs ++ [f]) <=? u32_max) && is_ok (hand_over a (documents_in (fs ++ [f]))).
Proof.
  unfold scan_admits. rewrite forallb_snoc, !andb_true_iff. intros [[[-> _] _] _]. done.
Qed.

Lemma scan_admits_prefix a fs f : scan_admits a (fs ++ [f]) = true → scan_admits a fs = true.
Proof.
  unfold scan_admits. rewrite forallb_snoc, !andb_true_iff. intros [[[[Hok _] Hd] Hi] Hh].
  destruct (document_payload f) as [bs|] eqn:Ef.
  - rewrite documents_in_snoc, Ef in Hd, Hh. rewrite (ignored_in_document fs f bs) in Hi by done.
    rewrite length_app in Hd. split_and!; [done|lia|done|].
    rewrite hand_over_snoc in Hh. by destruct (hand_over a (documents_in fs)).
  - rewrite documents_in_other in Hd, Hh by done. rewrite ignored_in_other in Hi by done. split_and!; lia || done.
Qed.

(** A field the scan drops. *)
Lemma scan_gather_other a fs f :
  document_payload f = None →
  scan_gather a (fs ++ [f]) =
    {| sc_metadata_present := true; sc_documents := sc_documents (scan_gather a fs);
       sc_ignored_fields := sc_ignored_fields (scan_gather a fs) + 1;
       sc_consumer := sc_consumer (scan_gather a fs) |}.
Proof. intros Hf. unfold scan_gather. by rewrite documents_in_other, ignored_in_other by done. Qed.

Lemma scan_gather_document a fs f bs n b :
  document_payload f = Some bs → hand_over a (documents_in fs ++ [bs]) = Ok (n, b) →
  scan_gather a (fs ++ [f]) =
    {| sc_metadata_present := true; sc_documents := sc_documents (scan_gather a fs) + 1;
       sc_ignored_fields := sc_ignored_fields (scan_gather a fs); sc_consumer := b |}.
Proof.
  intros Hf Hh. unfold scan_gather. rewrite (ignored_in_document fs f bs), documents_in_snoc, Hf, Hh by done.
  rewrite length_app. simpl. f_equal. lia.
Qed.

Section step.
Context (a : A) (input : bytes) (Hin : slice_ok input).
Context (fs : list wire_field) (c : Z) (Hc : within_input input c) (Hfs : scan_admits a fs = true).

Definition scan_step_spec (field wire : Z) (m : ctl E (ScanState (A := A) * Z)) : Prop :=
  ∀ s' c', run never m = Ok (s', c') ↔
    ∃ p, wire = wire_type p ∧ payload_at input c p c'
         ∧ scan_admits a (fs ++ [(field, p)]) = true ∧ s' = scan_gather a (fs ++ [(field, p)]).

Lemma scan_step_reject field wire e :
  (∀ p, wire = wire_type p → index_field_ok (field, p) = false) → scan_step_spec field wire (throw e).
Proof.
  intros H s' c'. rewrite run_never_throw. split; [done|]. intros (p & Hw & _ & Ha & _).
  rewrite scan_admits_snoc in Ha by done. by rewrite (H p Hw) in Ha.
Qed.

Lemma scan_step_skip field wire :
  (∀ p, wire = wire_type p → document_payload (field, p) = None
        ∧ index_field_ok (field, p) = ignorable (max_ignored_field_bytes limits) p) →
  scan_step_spec field wire
    (cursor ← lift (map_err wire_error (skip_field (max_ignored_field_bytes limits) input wire c));
     ignored ← lift (ok_or (u32_checked_add (ignored_in fs) 1) (wire_error FieldTooLarge));
     mret ({| sc_metadata_present := true; sc_documents := sc_documents (scan_gather a fs);
              sc_ignored_fields := ignored; sc_consumer := sc_consumer (scan_gather a fs) |}, cursor)).
Proof.
  intros H s' c'. destruct valid_limits as (_ & _ & _ & _ & Hmi).
  rewrite mapped_skip by (done || intros; solve_steady). pose proof (ignored_in_nonneg fs) as Hn.
  assert (∀ p, wire = wire_type p → scan_admits a (fs ++ [(field, p)]) =
    ignorable (max_ignored_field_bytes limits) p && (ignored_in fs + 1 <=? u32_max)) as Ha.
  { intros p Hw. destruct (H p Hw) as [Hd Ho]. rewrite scan_admits_snoc, Ho, documents_in_other, ignored_in_other by done.
    revert Hfs. unfold scan_admits. rewrite !andb_true_iff. intros [[[_ Hl] _] Hh]. rewrite Hl, Hh. lia. }
  setoid_rewrite (run_never_lift_bind (ok_or _ _)); [|intros; solve_steady].
  split; intros (p & H'); exists p.
  - destruct H' as (m & Hw & Hp & Hi & Hr). apply bind_Ok in Hr as (k & Hk & [= <- <-]).
    unfold u32_checked_add, ok_or in Hk. destruct (checked _ _) eqn:Ek; [|done].
    apply checked_Some in Ek as [-> Ek]. injection Hk as <-.
    rewrite (Ha p Hw), scan_gather_other by (by apply H). split_and!; (done || lia).
  - destruct H' as (Hw & Hp & Hok & ->). rewrite (Ha p Hw) in Hok. exists c'. split_and!; [done..|lia|].
    unfold u32_checked_add. rewrite checked_in by lia. simpl. by rewrite scan_gather_other by (by apply H).
Qed.

Lemma scan_step_document e :
  scan_step_spec DOCUMENT_FIELD WIRE_LENGTH_DELIMITED
    (if sc_documents (scan_gather a fs) =? max_documents limits then throw e
     else
       '(bs, cursor) ← lift (map_err wire_error (read_length_delimited input c (max_document_bytes limits)));
       documents ← lift (ok_or (u32_checked_add (sc_documents (scan_gather a fs)) 1) e);
       consumer ← on_document {| doc_ordinal := sc_documents (scan_gather a fs); doc_bytes := bs |}
                    (sc_consumer (scan_gather a fs));
       mret ({| sc_metadata_present := true; sc_documents := documents;
                sc_ignored_fields := ignored_in fs; sc_consumer := consumer |}, cursor)).
Proof.
  intros s' c'. destruct valid_limits as (_ & Hmd & Hmb & _).
  pose proof Hfs as Hfs'. unfold scan_admits in Hfs'. rewrite !andb_true_iff in Hfs'. destruct Hfs' as [[[_ Hl] Hi] Hh].
  destruct (hand_over a (documents_in fs)) as [[n b]|] eqn:Eh; [|done].
  pose proof (hand_over_count _ _ _ _ Eh) as ->.
  set (n := Z.of_nat (length (documents_in fs))) in *.
  assert (∀ p, WIRE_LENGTH_DELIMITED = wire_type p → ∃ bs, p = PBytes bs) as Hbytes by (intros [] ?; eauto; done).
  assert (∀ bs, scan_admits a (fs ++ [(DOCUMENT_FIELD, PBytes bs)]) =
    (len bs <=? max_document_bytes limits) && (n + 1 <=? max_documents limits)
    && is_ok (run never (on_document {| doc_ordinal := n; doc_bytes := bs |} b))) as Ha.
  { intros bs. rewrite scan_admits_snoc, (ignored_in_document fs _ bs), documents_in_snoc by done.
    cbn [document_payload fst snd]. change (DOCUMENT_FIELD =? DOCUMENT_FIELD) with true. cbv iota.
    rewrite length_app, Nat2Z.inj_add, hand_over_snoc, Eh, Hi. cbn. fold n.
    destruct (run never _); simpl; lia. }
  cbn [sc_documents sc_consumer scan_gather]. rewrite Eh. fold n. cbn [ok_value option_fmap option_map fmap snd from_option]. change (id b) with b.
  destruct (Z.eqb_spec n (max_documents limits)) as [Hn|Hn].
  { rewrite run_never_throw. split; [done|]. intros (p & Hw & _ & Hok & _). destruct (Hbytes p Hw) as [bs ->].
    rewrite Ha in Hok. lia. }
  rewrite mapped_bytes by (done || intros; solve_steady).
  unfold u32_checked_add. setoid_rewrite checked_in; [|lia].
  setoid_rewrite (run_never_lift_bind (ok_or _ _)); [|intros; solve_steady]. cbn [ok_or mbind result_bind].
  setoid_rewrite run_never_bind; [|intros; solve_steady]. setoid_rewrite bind_Ok. setoid_rewrite run_never_ret.
  assert (∀ bs b', run never (on_document {| doc_ordinal := n; doc_bytes := bs |} b) = Ok b' →
    scan_gather a (fs ++ [(DOCUMENT_FIELD, PBytes bs)]) =
    {| sc_metadata_present := true; sc_documents := n + 1; sc_ignored_fields := ignored_in fs; sc_consumer := b' |}) as Hg.
  { intros bs b' Hb. rewrite (scan_gather_document a fs _ bs (n + 1) b'); [done..|].
    rewrite hand_over_snoc, Eh. cbn. fold n. by rewrite Hb. }
  split.
  - intros (bs & m & Hp & Hb & b' & Hr & [= <- <-]). exists (PBytes bs). rewrite Ha, Hr, (Hg bs b') by done.
    split_and!; [done|done|simpl; lia|done].
  - intros (p & Hw & Hp & Hok & ->). destruct (Hbytes p Hw) as [bs ->]. rewrite Ha in Hok.
    destruct (run never (on_document _ _)) as [b'|] eqn:Er; [|simpl in Hok; lia].
    exists bs, c'. split_and!; [done|simpl in Hok; lia|]. exists b'. split; [done|]. by rewrite (Hg bs b').
Qed.
End step.

Lemma scan_reader a input :
  slice_ok input →
  FieldReader input (scan_field wire_error on_metadata on_document input limits) (scan_admits a) (scan_gather a).
Proof.
  intros Hin. split; [apply steady_scan_field|unfold scan_admits, ignored_in, u32_max; simpl; lia|apply scan_admits_prefix|].
  intros fs field wire c s' c' Hc Hf Ha.
  enough (scan_step_spec a input fs c field wire
    (scan_field wire_error on_metadata on_document input limits (scan_gather a fs) field wire c)) as H by apply H.
  unfold scan_field. cbn [sc_metadata_present scan_gather negb].
  destruct (Z.eqb_spec wire WIRE_LENGTH_DELIMITED) as [->|Hw]; rewrite ?andb_true_r, ?andb_false_r.
  - destruct (Z.eqb_spec field METADATA_FIELD) as [->|H1]; [by apply scan_step_reject; [|intros []]|].
    destruct (Z.eqb_spec field DOCUMENT_FIELD) as [->|H2]; [by apply scan_step_document|].
    apply scan_step_skip; [done..|]. intros [] Hp; try done. unfold document_payload, index_field_ok. cbn.
    by rewrite (proj2 (Z.eqb_neq _ _) H1), (proj2 (Z.eqb_neq _ _) H2).
  - assert (∀ p, wire = wire_type p → document_payload (field, p) = None
        ∧ index_field_ok (field, p) = ignorable (max_ignored_field_bytes limits) p) as Hs by (by intros [] ->).
    destruct (negb _) eqn:Hv; [|by apply scan_step_skip].
    apply scan_step_reject; [done|]. by intros [] ->.
Qed.

(** An index: the one-byte tag of the metadata, its payload, and the fields that follow. *)
Definition index_of (input meta : bytes) (fs : list wire_field) : Prop :=
  ∃ bs rest, input = x0a :: bs ++ rest ∧ payload_of bs (PBytes meta) ∧ message_of rest fs.

Lemma seg_whole input bs : seg input 0 bs (len input) ↔ bs = input.
Proof.
  split.
  - intros H. eapply seg_det; [done|]. exists [], []. by rewrite app_nil_r.
  - intros ->. exists [], []. by rewrite app_nil_r.
Qed.

Lemma message_of_length bs fs : message_of bs fs → Z.of_nat (length fs) ≤ len bs.
Proof.
  induction 1 as [|tag bs rest field p fs (Hf%varint_form_nonempty & _) _ _ _ IH]; [done|].
  rewrite !len_app. pose proof (len_nonneg bs). simpl. lia.
Qed.

Lemma seg_full input c bs : 0 ≤ c → seg input c bs (len input) → within_input input c ∧ len bs = len input - c.
Proof. intros Hc Hs. pose proof (seg_within _ _ _ _ Hs). apply seg_length in Hs. split; [tauto|lia]. Qed.

(** The one-byte tag of a metadata message. *)
Lemma metadata_tag input :
  slice_ok input →
  read_tag input 0 = Ok (METADATA_FIELD, WIRE_LENGTH_DELIMITED, 1) ↔ seg input 0 [x0a] 1.
Proof.
  intros Hin. assert (within_input input 0) by (pose proof (len_nonneg input); unfold within_input; lia).
  rewrite read_tag_spec by done. split.
  - intros (_ & _ & bs & Hs & Hf & _ & Hv & _). pose proof (seg_length _ _ _ _ Hs) as Hl.
    destruct bs as [|b [|b' bs]]; unfold len in Hl; simpl in Hl; [lia| |lia].
    unfold varint_value in Hv. simpl in Hf. pose proof (byte_rank_range b).
    rewrite Z.mod_small in Hv by lia. replace b with x0a in Hs; [done|].
    rewrite <- (byte_of_rank b). unfold METADATA_FIELD, WIRE_LENGTH_DELIMITED in Hv. by replace (byte_rank b) with 10 by lia.
  - intros Hs. split_and!; [done..|]. exists [x0a]. split; [done|]. split_and!; [done|simpl; lia|done|done].
Qed.

Definition scan_init (a : A) : ScanState (A := A) :=
  {| sc_metadata_present := false; sc_documents := 0; sc_ignored_fields := 0; sc_consumer := a |}.

(** The first field must be the metadata, behind a tag of one byte. *)
Lemma first_field a input field wire c s' c' :
  slice_ok input → within_input input c →
  run never (scan_field wire_error on_metadata on_document input limits (scan_init a) field wire c) = Ok (s', c') ↔
  field = METADATA_FIELD ∧ wire = WIRE_LENGTH_DELIMITED ∧ c = 1 ∧
  ∃ meta b, payload_at input c (PBytes meta) c' ∧ len meta ≤ max_metadata_bytes limits
            ∧ run never (on_metadata meta a) = Ok b ∧ s' = scan_gather b [].
Proof.
  intros Hin Hc. destruct valid_limits as (_ & _ & _ & Hmm & _). unfold scan_field. cbn [sc_metadata_present scan_init negb].
  destruct (Z.eqb_spec field METADATA_FIELD) as [->|H1], (Z.eqb_spec wire WIRE_LENGTH_DELIMITED) as [->|H2]; cbn [andb].
  2-4: repeat case_match; rewrite ?run_never_throw; (split; [done|intros (? & ? & _); done]).
  destruct (Z.eqb_spec c 1) as [->|H3]; cbn [negb]; [|rewrite run_never_throw; by split; [|intros (_ & _ & ? & _)]].
  rewrite mapped_bytes by (done || intros; solve_steady; auto).
  setoid_rewrite run_never_bind; [|intros; solve_steady]. split.
  - intros (meta & m & Hp & Hl & (b & Hb & [= <- <-])%bind_Ok). split_and!; [done..|]. exists meta, b. by split_and!.
  - intros (_ & _ & _ & meta & b & Hp & Hl & Hb & ->). exists meta, c'. split_and!; [done..|].
    apply bind_Ok. by exists b.
Qed.

Lemma scan_loop a input s' :
  slice_ok input →
  (run never (message_loop wire_error input
     (scan_field wire_error on_metadata on_document input limits) (scan_init a)) = Ok s'
   ∧ sc_metadata_present s' = true) ↔
  ∃ meta fs b, index_of input meta fs ∧ len meta ≤ max_metadata_bytes limits
    ∧ run never (on_metadata meta a) = Ok b ∧ scan_admits b fs = true ∧ s' = scan_gather b fs.
Proof.
  intros Hin. set (step := scan_field wire_error on_metadata on_document input limits).
  assert (∀ s f w c, steady (step s f w c)) as Hstep by apply steady_scan_field.
  unfold message_loop. destruct (length input) as [|n] eqn:Hlen.
  { apply nil_length_inv in Hlen as ->. split; [by intros [[= <-] ?]|].
    by intros (meta & fs & b & (bs & rest & ? & _) & _). }
  cbn [field_loop]. rewrite (proj2 (Z.ltb_lt 0 (len input))) by (unfold len; lia).
  assert (∀ n c s, steady (field_loop wire_error input step n c s)) as Hloop
    by (intros; by apply steady_field_loop).
  rewrite run_never_check, run_never_lift_bind by (solve_steady; auto).
  assert (within_input input 0) as H0 by (unfold within_input, len; lia). split.
  - intros [H Hpresent]. apply bind_Ok in H as ([[field wire] c] & Htag%map_err_Ok & H).
    pose proof Htag as Htag'. apply read_tag_spec in Htag' as (_ & _ & tag & Hseg & _); [|done..].
    pose proof (seg_within _ _ _ _ Hseg) as [_ Hc].
    rewrite run_never_bind in H by (solve_steady; auto). apply bind_Ok in H as ([s c'] & H & Hrest).
    apply first_field in H as (-> & -> & -> & meta & b & (bs & Hbs & Hp) & Hl & Hb & ->); [|done..].
    apply metadata_tag in Htag; [|done]. pose proof (seg_length _ _ _ _ Hbs). pose proof (len_nonneg bs).
    pose proof (seg_within _ _ _ _ Hbs) as [_ Hc'].
    pose proof (scan_reader b input Hin) as Hreader.
    apply (field_loop_spec wire_error input step (scan_admits b) (scan_gather b) Hin n c' []) in Hrest
      as (rest & fs & Hrest & Hm & Ha & ->); [|done|unfold len in *; lia|by apply Hreader].
    exists meta, fs, b. split_and!; [|done..]. exists bs, rest. split_and!; [|done..].
    symmetry. apply seg_whole. change (x0a :: bs ++ rest) with ([x0a] ++ bs ++ rest).
    apply seg_app. exists 1. split; [done|]. apply seg_app. by exists c'.
  - intros (meta & fs & b & (bs & rest & Hi & Hp & Hm) & Hl & Hb & Ha & ->). split; [|done].
    symmetry in Hi. apply seg_whole in Hi. change (x0a :: bs ++ rest) with ([x0a] ++ bs ++ rest) in Hi.
    apply seg_app in Hi as (c & Htag & Hi). pose proof (seg_length _ _ _ _ Htag) as Hc. change (len [x0a]) with 1 in Hc.
    assert (c = 1) as -> by lia. apply seg_app in Hi as (c' & Hbs & Hrest).
    pose proof (seg_within _ _ _ _ Hbs) as [Hc1 Hc']. pose proof (seg_length _ _ _ _ Hbs). pose proof (len_nonneg bs).
    apply bind_Ok. exists (METADATA_FIELD, WIRE_LENGTH_DELIMITED, 1).
    split; [by apply map_err_Ok, metadata_tag|]. rewrite run_never_bind by (solve_steady; auto).
    apply bind_Ok. exists (scan_gather b [], c'). split.
    + apply first_field; [done..|]. split_and!; [done..|]. exists meta, b. split_and!; [by exists bs|done..].
    + pose proof (scan_reader b input Hin) as Hreader.
      apply (field_loop_spec wire_error input step (scan_admits b) (scan_gather b) Hin n c' []);
        [done|unfold len in *; lia|by apply Hreader|]. by exists rest, fs.
Qed.

Lemma steady_scan input a : steady (scan_scip_wire wire_error on_metadata on_document input limits a).
Proof. unfold scan_scip_wire. solve_steady. Qed.

(** An index within the limits, whose metadata is accepted, and whose documents are. *)
Record scanned (input : bytes) (a : A) (summary : ScipWireSummary) (a' : A) (meta : bytes)
    (fs : list wire_field) (b : A) : Prop := {
  scanned_index : index_of input meta fs;
  scanned_input : len input ≤ max_input_bytes limits;
  scanned_metadata : len meta ≤ max_metadata_bytes limits ∧ run never (on_metadata meta a) = Ok b;
  scanned_fields : Forall (λ f, index_field_ok f = true) fs;
  scanned_documents : Z.of_nat (length (documents_in fs)) ≤ max_documents limits;
  scanned_consumer : hand_over b (documents_in fs) = Ok (Z.of_nat (length (documents_in fs)), a');
  scanned_summary : summary = {| sum_metadata_present := true;
                                 sum_documents := Z.of_nat (length (documents_in fs));
                                 sum_ignored_fields := ignored_in fs |};
}.

Lemma scan_spec input a summary a' :
  slice_ok input →
  run never (scan_scip_wire wire_error on_metadata on_document input limits a) = Ok (summary, a') ↔
  ∃ meta fs b, scanned input a summary a' meta fs b.
Proof.
  intros Hin. unfold scan_scip_wire, u64_of_len. rewrite checked_in by (unfold slice_ok, len, u64_max in *; lia).
  rewrite run_never_lift_bind by solve_steady. cbn [ok_or mbind result_bind]. fold (len input).
  destruct valid_limits as (Hmx & _).
  destruct (Z.ltb_spec (max_input_bytes limits) (len input)) as [Hbig|Hsmall].
  { rewrite run_never_throw. split; [done|]. intros (meta & fs & b & []). lia. }
  rewrite run_never_check, run_never_bind by solve_steady. fold (scan_init a). rewrite bind_Ok. split.
  - intros (s & Hs & H). destruct (sc_metadata_present s) eqn:Hp; cbn [negb] in H; [|by rewrite run_never_throw in H].
    injection H as <- <-. destruct (proj1 (scan_loop a input s Hin) (conj Hs Hp))
      as (meta & fs & b & Hidx & Hl & Hb & Ha & ->).
    exists meta, fs, b. unfold scan_admits in Ha. rewrite !andb_true_iff in Ha. destruct Ha as [[[Hok Hd] Hi] Hh].
    destruct (hand_over b (documents_in fs)) as [[n a']|] eqn:Eh; [|done]. pose proof (hand_over_count _ _ _ _ Eh) as ->.
    split; [done..| |lia| |done].
    + by rewrite forallb_forall in Hok; apply List.Forall_forall.
    + rewrite Eh. unfold scan_gather. cbn. by rewrite Eh.
  - intros (meta & fs & b & [Hidx Hlen [Hl Hb] Hok Hd Hh ->]). exists (scan_gather b fs).
    assert (ignored_in fs ≤ u32_max) as Hig.
    { destruct Hidx as (bs & rest & -> & Hp & Hm%message_of_length). unfold ignored_in.
      change (x0a :: bs ++ rest) with ([x0a] ++ bs ++ rest) in Hlen. rewrite !len_app in Hlen.
      pose proof (len_nonneg bs). change (len [x0a]) with 1 in Hlen. lia. }
    destruct (proj2 (scan_loop a input (scan_gather b fs) Hin)) as [-> ->].
    { exists meta, fs, b. split_and!; [done..| |done]. unfold scan_admits. rewrite Hh, !andb_true_iff.
      split_and!; [|lia..|done]. by apply forallb_forall, List.Forall_forall. }
    split; [done|]. cbn [negb]. rewrite run_never_ret. unfold scan_gather. cbn. by rewrite Hh.
Qed.
End scan.
