(* ===== verification/ScipRelations.v ===== *)
(** * Relationships of a SCIP overlay document

    What [decode_document_relationships] of
    [crates/repowitness-analysis/src/scip_overlay.rs] makes of the symbols of a document:
    every relationship of every symbol, in order, within the bounds on their number and on
    the symbol bytes they own.  What the wire parser has admitted already satisfies the
    constructors of the domain facts. *)

From Stdlib Require Import ZArith Lia ZifyBool.
From stdpp Require Import base numbers list.
From S2P Require Import Prelude Ordering Utf8 WireFormat ScipWire FieldReaders ScipSymbols ScipOverlay.

Open Scope Z_scope.

(** ** Controls *)

Lemma steady_mapped {A} (m : ctl ScipWireError A) : steady m → steady (mapped m).
Proof. apply steady_map_err. by intros [] e [= <-]. Qed.
#[export] Hint Resolve steady_mapped : steady.

Lemma run_never_mapped {A} (m : ctl ScipWireError A) :
  run never (mapped m) = map_err map_wire_error (run never m).
Proof. apply run_never_map_err. Qed.

Lemma steady_relationships_field raw s field wire c : steady (relationships_field raw s field wire c).
Proof. unfold relationships_field. solve_steady. Qed.
#[export] Hint Resolve steady_relationships_field : steady.

Lemma steady_document_relationships raw owned : steady (decode_document_relationships raw owned).
Proof. unfold decode_document_relationships. solve_steady. Qed.
#[export] Hint Resolve steady_document_relationships : steady.

(** ** Domain facts *)

Definition symbol_valid (s : bytes) : Prop := s ≠ [] ∧ len s ≤ MAX_SCIP_SYMBOL_BYTES.

Definition relationship_valid (r : ScipWireRelationship) : Prop :=
  symbol_valid (rel_symbol r)
  ∧ rel_is_reference r || rel_is_implementation r || rel_is_type_definition r || rel_is_definition r = true.

Definition domain_relationship (source : bytes) (r : ScipWireRelationship) : ScipRelationship :=
  {| scip_source := source; scip_target := rel_symbol r;
     scip_kinds := {| kind_reference := rel_is_reference r; kind_implementation := rel_is_implementation r;
                      kind_type_definition := rel_is_type_definition r; kind_definition := rel_is_definition r |} |}.

(** The symbol bytes a list of relationships owns: each has its own copy of its source. *)
Definition symbol_bytes (rs : list ScipRelationship) : Z :=
  foldr (λ r n, len (scip_source r) + len (scip_target r) + n) 0 rs.

Lemma symbol_bytes_app rs rs' : symbol_bytes (rs ++ rs') = symbol_bytes rs + symbol_bytes rs'.
Proof. induction rs as [|r rs IH]; simpl; [done|]. rewrite IH. lia. Qed.

Lemma symbol_bytes_nonneg rs : 0 ≤ symbol_bytes rs.
Proof.
  induction rs as [|r rs IH]; simpl; [done|].
  pose proof (len_nonneg (scip_source r)). pose proof (len_nonneg (scip_target r)). lia.
Qed.

Lemma symbol_try_new_Ok s : symbol_valid s → scip_symbol_try_new s = Ok s.
Proof.
  intros [Hs Hl]. unfold scip_symbol_try_new, u64_of_len. fold (len s).
  rewrite checked_in by (pose proof (len_nonneg s); unfold MAX_SCIP_SYMBOL_BYTES, u64_max in *; lia). rstep.
  rewrite bool_decide_eq_false_2 by done. by rewrite (proj2 (Z.ltb_ge _ _)).
Qed.

Lemma kinds_try_new_Ok a b c d :
  a || b || c || d = true →
  relationship_kinds_try_new a b c d =
    Ok {| kind_reference := a; kind_implementation := b; kind_type_definition := c; kind_definition := d |}.
Proof. by destruct a, b, c, d. Qed.

Lemma reserve_Ok total s n :
  0 ≤ total → reserve_owned_symbol_bytes total s = Ok n ↔ n = total + len s ∧ n ≤ MAX_DOCUMENT_OWNED_SYMBOL_BYTES.
Proof.
  intros Ht. unfold reserve_owned_symbol_bytes, u64_of_len, u64_checked_add. fold (len s).
  pose proof (len_nonneg s). unfold checked, MAX_DOCUMENT_OWNED_SYMBOL_BYTES.
  destruct ((0 <=? len s) && (len s <=? u64_max)) eqn:E1; rstep; [|unfold u64_max in *; split; [done|lia]].
  destruct ((0 <=? total + len s) && (total + len s <=? u64_max)) eqn:E2; rstep; [|unfold u64_max in *; split; [done|lia]].
  destruct (Z.ltb_spec (16 * 1024 * 1024) (total + len s)); split; [done|lia|intros [= <-]; lia|by intros [-> _]].
Qed.

Definition within_bounds (s : RelationshipsState) : Prop :=
  Z.of_nat (length (rl_relationships s)) ≤ MAX_DOCUMENT_RELATIONSHIPS
  ∧ 0 ≤ rl_owned_symbol_bytes s ≤ MAX_DOCUMENT_OWNED_SYMBOL_BYTES.

#[export] Instance within_bounds_decision s : Decision (within_bounds s).
Proof. unfold within_bounds. apply _. Defined.

Definition extended (s : RelationshipsState) (rs : list ScipRelationship) : RelationshipsState :=
  {| rl_relationships := rl_relationships s ++ rs;
     rl_owned_symbol_bytes := rl_owned_symbol_bytes s + symbol_bytes rs |}.

Lemma extended_nil s : extended s [] = s.
Proof. destruct s. unfold extended. simpl. by rewrite app_nil_r, Z.add_0_r. Qed.

Lemma extended_app s rs rs' : extended (extended s rs) rs' = extended s (rs ++ rs').
Proof. unfold extended. simpl. by rewrite <- app_assoc, symbol_bytes_app, Z.add_assoc. Qed.

Lemma within_bounds_prefix s rs rs' :
  within_bounds s → within_bounds (extended s (rs ++ rs')) → within_bounds (extended s rs).
Proof.
  unfold within_bounds. simpl. rewrite symbol_bytes_app, !length_app.
  pose proof (symbol_bytes_nonneg rs). pose proof (symbol_bytes_nonneg rs'). lia.
Qed.

(** One relationship is added when the bounds still hold with it. *)
Lemma push_relationship_spec source s r s' :
  symbol_valid source → relationship_valid r → within_bounds s →
  push_relationship source s r = Ok s' ↔
  s' = extended s [domain_relationship source r] ∧ within_bounds s'.
Proof.
  intros Hs [Ht Hk] [Hn Ho]. unfold push_relationship. rewrite symbol_try_new_Ok, kinds_try_new_Ok by done. rstep.
  pose proof (len_nonneg source). pose proof (len_nonneg (rel_symbol r)).
  destruct (Z.eqb_spec (Z.of_nat (length (rl_relationships s))) MAX_DOCUMENT_RELATIONSHIPS) as [E|E].
  { split; [done|]. intros [-> [Hn' _]]. simpl in Hn'. rewrite length_app in Hn'. simpl in Hn'. lia. }
  setoid_rewrite bind_Ok. unfold within_bounds. split.
  - intros (n & Hn1%reserve_Ok & H'); [|lia]. apply bind_Ok in H' as (m & Hn2%reserve_Ok & [= <-]); [|lia].
    simpl. rewrite length_app. simpl. split; [unfold extended; simpl; f_equal; lia|lia].
  - intros [-> Hb]. simpl in Hb. exists (rl_owned_symbol_bytes s + len source). split; [apply reserve_Ok; lia|].
    apply bind_Ok. exists (rl_owned_symbol_bytes s + len source + len (rel_symbol r)).
    split; [apply reserve_Ok; lia|]. unfold extended. simpl. do 2 f_equal. lia.
Qed.

Lemma push_relationships_spec source rs s s' :
  symbol_valid source → Forall relationship_valid rs → within_bounds s →
  try_fold (push_relationship source) s rs = Ok s' ↔
  s' = extended s (domain_relationship source <$> rs) ∧ within_bounds s'.
Proof.
  intros Hs Hrs. revert s. induction Hrs as [|r rs Hr Hrs IH]; intros s Hb; cbn [try_fold].
  - csimpl. rewrite extended_nil. split; [by intros [= <-]|by intros [-> _]].
  - csimpl. change (domain_relationship source r :: ?x) with ([domain_relationship source r] ++ x).
    rewrite <- extended_app, bind_Ok. split.
    + intros (s1 & [-> Hb1]%push_relationship_spec & H); [|done..]. by apply IH.
    + intros [-> Hb']. exists (extended s [domain_relationship source r]).
      assert (within_bounds (extended s [domain_relationship source r])).
      { rewrite extended_app in Hb'. by eapply within_bounds_prefix. }
      split; [by apply push_relationship_spec|by apply IH].
Qed.

(** ** The symbols of a document *)

(** What the symbol information of a payload says: its source symbol and relationships. *)
Record information_of (fs : list wire_field) (info : ScipWireSymbolInformation)
    (raws : list ScipWireRelationship) : Prop := {
  iof_fields : forallb information_ok fs = true;
  iof_once : once 1 fs = true;
  iof_count : occurs 4 fs ≤ MAX_SYMBOL_RELATIONSHIPS;
  iof_symbol : slot payload_bytes 1 fs = Some (info_symbol info);
  iof_relationships : info_relationships info = occurs 4 fs;
  iof_raws : raws = relationships_in fs;
}.

Definition information_verdict (bs : bytes) : result ScipWireError (ScipWireSymbolInformation * list ScipWireRelationship) :=
  run never (parse_scip_symbol_information (λ relationship raws, Ok (raws ++ [relationship])) bs []).

Lemma collected (raws rs : list ScipWireRelationship) :
  try_fold (E := ScipWireError) (λ a r, Ok (a ++ [r])) raws rs = Ok (raws ++ rs).
Proof.
  revert raws. induction rs as [|r rs IH]; intros raws; cbn [try_fold]; [by rewrite app_nil_r|].
  cbn. by rewrite IH, <- app_assoc.
Qed.

Lemma information_verdict_spec bs info raws :
  slice_ok bs →
  information_verdict bs = Ok (info, raws) ↔ ∃ fs, message_of bs fs ∧ information_of fs info raws.
Proof.
  intros Hin. unfold information_verdict. rewrite symbol_information_spec by done.
  unfold information_admits, consumed. setoid_rewrite collected. simpl. split.
  - intros (fs & Hm & Ha & Hs & Hn & [= <-]). exists fs. split; [done|]. split; done || lia.
  - intros (fs & Hm & [Hok H1 H4 Hs Hn ->]). exists fs. split_and!; done || lia.
Qed.

Lemma values_in n fs p : p ∈ values n fs → (n, p) ∈ fs.
Proof.
  unfold values. intros ([m q] & Hf & Hp)%list_elem_of_omap. cbn in Hp.
  destruct (Z.eqb_spec m n) as [->|]; [|done]. by injection Hp as ->.
Qed.

Lemma slot_value {A} (content : payload → A) n fs x : slot content n fs = Some x → ∃ p, (n, p) ∈ fs ∧ x = content p.
Proof.
  unfold slot. destruct (values n fs) as [|p ps] eqn:E; [done|]. intros [= <-].
  exists p. split; [|done]. apply values_in. rewrite E. by left.
Qed.

Lemma symbol_within_valid p : symbol_within p = true → symbol_valid (payload_bytes p).
Proof.
  unfold symbol_within, text_within, symbol_valid. destruct p as [| |bs|]; [done..| |done]. simpl.
  rewrite !andb_true_iff, negb_true_iff, bool_decide_eq_false. unfold MAX_SYMBOL_BYTES, MAX_SCIP_SYMBOL_BYTES.
  intros [[? _] ?]. split; [done|lia].
Qed.

(** The payload of a field of an admitted message. *)
Lemma forallb_field {A} (ok : A → bool) (fs : list A) f : forallb ok fs = true → f ∈ fs → ok f = true.
Proof. rewrite forallb_forall. intros H Hf. by apply H, list_elem_of_In. Qed.

Lemma relationship_of_valid fs r : relationship_of fs r → relationship_valid r.
Proof.
  intros [Ha (p & Hp & Hs)%slot_value H2 H3 H4 H5 Hk]. unfold relationship_admits in Ha.
  rewrite !andb_true_iff in Ha. destruct Ha as [[[[[Hok _] _] _] _] _].
  apply (forallb_field _ _ _ Hok) in Hp as Hf. split; [rewrite Hs; by apply symbol_within_valid|].
  by rewrite H2, H3, H4, H5.
Qed.

Lemma slice_ok_small bs n : len bs ≤ n → n ≤ u32_max → slice_ok bs.
Proof. unfold slice_ok, u32_max. lia. Qed.

(** Whatever symbol information the wire parser returns, its facts can be constructed. *)
Lemma information_of_valid fs info raws :
  information_of fs info raws →
  symbol_valid (info_symbol info) ∧ Forall relationship_valid raws
  ∧ info_relationships info = Z.of_nat (length raws).
Proof.
  intros [Hok H1 H4 (p & Hp & Hs)%slot_value Hn ->]. split_and!.
  - rewrite Hs. apply (forallb_field _ _ _ Hok) in Hp. by apply symbol_within_valid.
  - apply Forall_forall. intros r (q & Hq & Hr)%list_elem_of_omap.
    apply values_in, (forallb_field _ _ _ Hok) in Hq. unfold information_ok in Hq. cbn in Hq.
    destruct (relationship_verdict q) as [r'|] eqn:Eq; [|done]. injection Hr as ->.
    apply andb_true_iff in Hq as [Hq _]. destruct q as [| |bs|]; try done. cbn in Hq.
    apply relationship_spec in Eq as (gs & _ & Hgs); [by eapply relationship_of_valid|].
    apply (slice_ok_small _ MAX_DOCUMENT_BYTES); [simpl; lia|done].
  - by rewrite relationships_in_occurs.
Qed.

(** The symbol fields of a document, and the relationships they contribute, in order. *)
Definition symbol_payload (f : wire_field) : option bytes :=
  match f.2 with PBytes bs => if f.1 =? WIRE_DOCUMENT_SYMBOLS_FIELD then Some bs else None | _ => None end.

Definition contribution (bs : bytes) : list ScipRelationship :=
  match information_verdict bs with
  | Ok (info, raws) => domain_relationship (info_symbol info) <$> raws
  | Err _ => []
  end.

Definition relations_in (fs : list wire_field) : list ScipRelationship :=
  omap symbol_payload fs ≫= contribution.

Definition relations_ok (f : wire_field) : bool :=
  ignorable MAX_SCIP_DOCUMENT_BYTES f.2
  && match symbol_payload f with Some bs => is_ok (information_verdict bs) | None => true end.

Section relations.
Context (raw_document : bytes) (Hin : slice_ok raw_document).
Context (owned : Z) (Howned : 0 ≤ owned ≤ MAX_DOCUMENT_OWNED_SYMBOL_BYTES).

Definition relations_init : RelationshipsState := {| rl_relationships := []; rl_owned_symbol_bytes := owned |}.
Definition relations_gather (fs : list wire_field) : RelationshipsState := extended relations_init (relations_in fs).
Definition relations_admits (fs : list wire_field) : bool :=
  forallb relations_ok fs && bool_decide (within_bounds (relations_gather fs)).

Lemma relations_in_snoc fs f :
  relations_in (fs ++ [f]) = relations_in fs ++ match symbol_payload f with Some bs => contribution bs | None => [] end.
Proof.
  unfold relations_in. rewrite omap_app, bind_app. f_equal. csimpl.
  destruct (symbol_payload f); csimpl; [|done]. by rewrite app_nil_r.
Qed.

Lemma relations_gather_snoc fs f :
  relations_gather (fs ++ [f]) =
  extended (relations_gather fs) match symbol_payload f with Some bs => contribution bs | None => [] end.
Proof. unfold relations_gather. by rewrite relations_in_snoc, extended_app. Qed.

Lemma relations_admits_snoc fs f :
  relations_admits fs = true →
  relations_admits (fs ++ [f]) = relations_ok f
    && bool_decide (within_bounds (extended (relations_gather fs)
         match symbol_payload f with Some bs => contribution bs | None => [] end)).
Proof.
  unfold relations_admits. rewrite forallb_snoc, relations_gather_snoc. by intros [-> _]%andb_true_iff.
Qed.

Lemma init_within : within_bounds relations_init.
Proof. split; [done|]. done. Qed.

Lemma relations_admits_prefix fs f : relations_admits (fs ++ [f]) = true → relations_admits fs = true.
Proof.
  unfold relations_admits. rewrite forallb_snoc, !andb_true_iff, !bool_decide_eq_true. intros [[-> _] Hb].
  split; [done|]. unfold relations_gather in *. rewrite relations_in_snoc in Hb.
  eapply within_bounds_prefix; [apply init_within|done].
Qed.

(** The state after the symbols of one payload. *)
Lemma add_information bs (s s' : RelationshipsState) (m c' : Z) :
  slice_ok bs → within_bounds s →
  run never
    ('(information, raws) ←
       mapped (parse_scip_symbol_information (λ relationship raws, Ok (raws ++ [relationship])) bs []);
     s ← lift
       (if negb (info_relationships information =? Z.of_nat (length raws)) then Err OverlayInvalidInput
        else
          source ← map_err (λ _, OverlayInvalidInput) (scip_symbol_try_new (info_symbol information));
          try_fold (push_relationship source) s raws);
     mret (s, m)) = Ok (s', c') ↔
  c' = m ∧ is_ok (information_verdict bs) = true ∧ s' = extended s (contribution bs) ∧ within_bounds s'.
Proof.
  intros Hbs Hs. rewrite run_never_bind by solve_steady. rewrite run_never_mapped. fold (information_verdict bs).
  unfold contribution. destruct (information_verdict bs) as [[info raws]|e] eqn:E; [|by split; [|intros (_ & ? & _)]].
  apply information_verdict_spec in E as (fs & _ & (Hsrc & Hraws & Hn)%information_of_valid); [|done].
  cbn [map_err mbind result_bind is_ok]. rewrite Hn, Z.eqb_refl. cbn [negb].
  rewrite symbol_try_new_Ok by done. cbn [map_err mbind result_bind].
  rewrite run_never_lift_bind by solve_steady. split.
  - intros (s1 & H%push_relationships_spec & [= <- <-])%bind_Ok; done.
  - intros (-> & _ & H). apply push_relationships_spec in H; [|done..]. rewrite H. done.
Qed.

Lemma relations_reader :
  FieldReader raw_document (relationships_field raw_document) relations_admits relations_gather.
Proof.
  split; [apply steady_relationships_field| |apply relations_admits_prefix|].
  { apply bool_decide_eq_true. unfold relations_gather. rewrite extended_nil. apply init_within. }
  intros fs field wire c s' c' Hc Hf Ha. setoid_rewrite relations_admits_snoc; [|done].
  unfold relationships_field.
  assert (within_bounds (relations_gather fs)) as Hb.
  { revert Ha. unfold relations_admits. rewrite andb_true_iff, bool_decide_eq_true. by intros [_ ?]. }
  assert (∀ p, symbol_payload (field, p) = None → relations_ok (field, p) = ignorable MAX_SCIP_DOCUMENT_BYTES p) as Hok.
  { intros p Hp. unfold relations_ok. by rewrite Hp, andb_true_r. }
  destruct ((field =? WIRE_DOCUMENT_SYMBOLS_FIELD) && (wire =? WIRE_LENGTH_DELIMITED)) eqn:E.
  - apply andb_true_iff in E as [->%Z.eqb_eq ->%Z.eqb_eq].
    rewrite mapped_bytes by (done || intros; solve_steady). split.
    + intros (bs & m & Hp & Hl & H). apply add_information in H as (-> & Hv & -> & Hb');
        [|by eapply slice_ok_small|done].
      exists (PBytes bs). rewrite relations_gather_snoc. split_and!; [done..| |done]. unfold relations_ok. cbn.
      rewrite Hv, bool_decide_eq_true_2 by done. lia.
    + intros ([| |bs|] & Hw & Hp & [Hr Hb']%andb_true_iff & ->); try done.
      apply bool_decide_eq_true in Hb'. unfold relations_ok in Hr. cbn in Hr, Hb' |- *. apply andb_true_iff in Hr as [Hl Hv].
      assert (len bs ≤ MAX_SCIP_DOCUMENT_BYTES) by lia.
      exists bs, c'. rewrite relations_gather_snoc. split_and!; [done..|]. apply add_information; [by eapply slice_ok_small|done|done].
  - assert (∀ p, wire = wire_type p → symbol_payload (field, p) = None) as Hnone.
    { intros [] ->; try done. unfold symbol_payload. cbn. by destruct (field =? _). }
    rewrite mapped_skip by (done || intros; solve_steady). split.
    + intros (p & m & Hw & Hp & Hi & [= <- <-]). exists p. rewrite relations_gather_snoc, Hnone, Hok, Hi, extended_nil by auto.
      split_and!; [done..| |done]. by apply andb_true_iff, conj, bool_decide_eq_true.
    + intros (p & Hw & Hp & [Hi _]%andb_true_iff & ->). exists p, c'.
      rewrite relations_gather_snoc, Hnone, extended_nil by done. rewrite Hok in Hi by auto. done.
Qed.

(** The relationships of a document are those of its symbols, in order, within both bounds. *)
Lemma document_relationships_spec rs :
  run never (decode_document_relationships raw_document owned) = Ok rs ↔
  ∃ fs, message_of raw_document fs ∧ forallb relations_ok fs = true ∧ rs = relations_in fs
    ∧ Z.of_nat (length rs) ≤ MAX_DOCUMENT_RELATIONSHIPS
    ∧ owned + symbol_bytes rs ≤ MAX_DOCUMENT_OWNED_SYMBOL_BYTES.
Proof.
  unfold decode_document_relationships. rewrite run_never_bind, bind_Ok by solve_steady.
  assert (relations_gather [] = {| rl_relationships := []; rl_owned_symbol_bytes := owned |}) as <-
    by apply extended_nil.
  pose proof relations_reader as Hreader. setoid_rewrite (message_loop_spec map_wire_error); [|done..]. split.
  - intros (s & (fs & Hm & Ha & ->) & [= <-]). exists fs. unfold relations_admits in Ha.
    apply andb_true_iff in Ha as [Hok [Hn Ho]%bool_decide_eq_true]. simpl in Hn, Ho. split_and!; [done..|lia].
  - intros (fs & Hm & Hok & -> & Hn & Ho). exists (relations_gather fs). split; [|done]. exists fs.
    split_and!; [done| |done]. unfold relations_admits. apply andb_true_iff, conj; [done|].
    apply bool_decide_eq_true. pose proof (symbol_bytes_nonneg (relations_in fs)). split; simpl; lia.
Qed.
End relations.
