(* ===== verification/ScipImport.v ===== *)
(** * Importing a SCIP index

    What [decode_scip_overlay_document_with_position_encoding] and
    [decode_scip_overlay_index] of [crates/repowitness-analysis/src/scip_overlay.rs] stage:
    the exact facts of each document whose bytes are pinned by the manifest, in order, and a
    summary that counts them. *)

From Stdlib Require Import ZArith Lia ZifyBool.
From Stdlib Require Import Strings.Byte.
From stdpp Require Import base numbers list.
From S2P Require Import Prelude Ordering RepositoryPath SourceManifest Utf8 GraphIdentity WireFormat.
From S2P Require Import SourceRange ScipWire FieldReaders ScipMessages ScipOccurrences ScipSymbols.
From S2P Require Import ScipDocuments ScipOverlay ScipScan ScipRelations.

Open Scope Z_scope.

(** ** One document *)

Section document.
Context {D : Type} `{EqDecision D} (sha256 : bytes → D).

Notation Manifest := (SourceManifest RepositoryPath SourceFileKind D).

(** The fact of a validated occurrence. *)
Definition occurrence_fact (p : RepositoryPath) (content : D) (vo : ScipWireValidatedOccurrence) : ScipOccurrence D :=
  {| so_path := p; so_content := content; so_span := vo_span vo; so_ordinal := vo_ordinal vo;
     so_symbol := vo_symbol vo; so_roles := vo_roles vo |}.

(** The symbol bytes the occurrences own. *)
Definition occurrence_bytes (vos : list ScipWireValidatedOccurrence) : Z :=
  foldr (λ vo n, from_option len 0 (vo_symbol vo) + n) 0 vos.

Lemma occurrence_bytes_nonneg vos : 0 ≤ occurrence_bytes vos.
Proof.
  induction vos as [|vo vos IH]; simpl; [done|]. destruct (vo_symbol vo) as [s|]; simpl; [|done].
  pose proof (len_nonneg s). lia.
Qed.

Definition occurrence_valid (vo : ScipWireValidatedOccurrence) : Prop :=
  match vo_symbol vo with Some s => symbol_valid s | None => True end.

Lemma occurrence_of_valid fs o :
  occurrence_of fs o → match occ_symbol o with Some s => symbol_valid s | None => True end.
Proof.
  intros [_ Ha _ Hs _]. rewrite Hs. destruct (slot payload_bytes 2 fs) as [s|] eqn:E; [|done].
  apply slot_value in E as (p & Hp & ->). unfold occurrence_admits in Ha. rewrite !andb_true_iff in Ha.
  destruct Ha as [[Hok _] _]. apply (forallb_field _ _ _ Hok) in Hp. by apply symbol_within_valid.
Qed.

Lemma validated_valid source_bytes encoding n ps vos :
  validated source_bytes encoding n ps vos → Forall occurrence_valid vos.
Proof.
  induction 1 as [|n p ps vo vos (fs & o & source & _ & Ho & _ & _ & _ & _ & _ & _ & Hs & _) _ IH]; [done|].
  constructor; [|done]. unfold occurrence_valid. rewrite Hs. by eapply occurrence_of_valid.
Qed.

Lemma collect_occurrence_spec p content vo owned occs r :
  occurrence_valid vo → 0 ≤ owned ≤ MAX_DOCUMENT_OWNED_SYMBOL_BYTES →
  collect_occurrence p content vo (owned, occs) = Ok r ↔
  r = (owned + from_option len 0 (vo_symbol vo), occs ++ [occurrence_fact p content vo])
  ∧ r.1 ≤ MAX_DOCUMENT_OWNED_SYMBOL_BYTES.
Proof.
  unfold occurrence_valid, collect_occurrence, occurrence_fact. intros Hv Ho.
  destruct (vo_symbol vo) as [s|]; cbn [from_option fst snd].
  - rewrite symbol_try_new_Ok by done. rstep. rewrite bind_Ok. setoid_rewrite map_err_Ok. split.
    + intros (n & [-> Hn]%reserve_Ok & [= <-]); [done|lia].
    + intros [-> Hn]. eexists. split; [apply reserve_Ok; [lia|by split]|done].
  - cbn. rewrite Z.add_0_r. split; [intros [= <-]; split; [done|simpl; lia]|by intros [-> _]].
Qed.

Lemma collect_spec p content vos owned occs r :
  Forall occurrence_valid vos → 0 ≤ owned ≤ MAX_DOCUMENT_OWNED_SYMBOL_BYTES →
  try_fold (λ a vo, collect_occurrence p content vo a) (owned, occs) vos = Ok r ↔
  r = (owned + occurrence_bytes vos, occs ++ (occurrence_fact p content <$> vos))
  ∧ r.1 ≤ MAX_DOCUMENT_OWNED_SYMBOL_BYTES.
Proof.
  intros Hvs. revert owned occs. induction Hvs as [|vo vos Hv Hvs IH]; intros owned occs Ho; cbn [try_fold].
  - csimpl. rewrite app_nil_r, Z.add_0_r. split; [intros [= <-]; split; [done|simpl; lia]|by intros [-> _]].
  - rewrite bind_Ok. setoid_rewrite collect_occurrence_spec; [|done..].
    pose proof (occurrence_bytes_nonneg vos).
    assert (0 ≤ from_option len 0 (vo_symbol vo)) as Hn by (destruct (vo_symbol vo) as [s|]; [apply (len_nonneg s)|done]).
    csimpl. rewrite Z.add_assoc. split.
    + intros ([n l] & [[= -> ->] Hle] & H'). simpl in Hle. apply IH in H'; [|lia]. by rewrite <- app_assoc in H'.
    + intros [-> Hle]. simpl in Hle. eexists. split; [split; [done|simpl; lia]|].
      apply IH; [lia|]. by rewrite <- app_assoc.
Qed.

(** The facts of a document: the exact content of its source, every occurrence as evidence,
    and every relationship of its symbols, within the bound on owned symbol bytes. *)
Record overlay_of (m : Manifest) (limits : RepositoryPathLimits) (source_bytes : bytes)
    (encoding : ScipWirePositionEncoding) (fs : list wire_field) (doc : ScipOverlayDocument D) : Prop := {
  ovl_document : ∃ d vos, document_of sha256 m limits source_bytes encoding fs d vos
                   ∧ od_path doc = dd_path d ∧ od_content doc = sha256 source_bytes
                   ∧ od_occurrences doc = occurrence_fact (od_path doc) (od_content doc) <$> vos
                   ∧ occurrence_bytes vos + symbol_bytes (od_relationships doc) ≤ MAX_DOCUMENT_OWNED_SYMBOL_BYTES;
  ovl_relationships : forallb relations_ok fs = true ∧ od_relationships doc = relations_in fs;
  ovl_count : Z.of_nat (length (od_relationships doc)) ≤ MAX_DOCUMENT_RELATIONSHIPS;
}.

Lemma steady_overlay_document_with raw m limits source_bytes encoding :
  steady (decode_scip_overlay_document_with_position_encoding sha256 raw m limits source_bytes encoding).
Proof.
  unfold decode_scip_overlay_document_with_position_encoding. solve_steady.
  all: apply steady_mapped, steady_decode_document.
Qed.

Lemma overlay_document_spec raw (m : Manifest) limits source_bytes encoding doc :
  slice_ok raw → slice_ok source_bytes → paths_sorted m →
  run never (decode_scip_overlay_document_with_position_encoding sha256 raw m limits source_bytes encoding) = Ok doc ↔
  ∃ fs, message_of raw fs ∧ overlay_of m limits source_bytes encoding fs doc.
Proof.
  intros Hin Hsrc Hm. unfold decode_scip_overlay_document_with_position_encoding.
  assert (∀ p (c : D), steady (mapped (decode_scip_document sha256 (collect_occurrence p c) raw m limits source_bytes encoding
    (0, [])))) as Hst by (intros; apply steady_mapped, steady_decode_document).
  assert (0 ≤ 0 ≤ MAX_DOCUMENT_OWNED_SYMBOL_BYTES) as H0 by done.
  rewrite run_never_bind by (solve_steady; auto). rewrite run_never_mapped, bind_Ok. setoid_rewrite map_err_Ok. split.
  - intros (h & (fs & Hmsg & Hh & Hpath & _)%document_header_spec & Hr); [|done].
    rewrite run_never_lift_bind in Hr by (solve_steady; auto). apply bind_Ok in Hr as (p & Hp%map_err_Ok & Hr).
    rewrite run_never_lift_bind in Hr by (solve_steady; auto). apply bind_Ok in Hr as (e & He%map_err_Ok & Hr).
    destruct (proj1 (validate_source_spec sha256 h m limits source_bytes p e Hm) (conj Hp He)) as (Ht & _ & _ & _ & Hc).
    rewrite run_never_bind in Hr by (solve_steady; auto). rewrite run_never_mapped in Hr.
    apply bind_Ok in Hr as ([d [owned occs]] & Hd%map_err_Ok & Hr).
    apply decode_document_spec in Hd as (fs' & vos & Hmsg' & Hd & Hf); [|done..].
    rewrite <- (message_of_det _ _ _ Hmsg Hmsg') in *. clear fs' Hmsg'.
    pose proof (validated_valid _ _ _ _ _ (dof_occurrences _ _ _ _ _ _ _ _ Hd)) as Hvos.
    apply collect_spec in Hf as [[= -> ->] Hle]; [|done..]. simpl in Hle, Hr.
    rewrite run_never_bind in Hr by solve_steady. apply bind_Ok in Hr as (rs & Hrs & [= <-]).
    pose proof (occurrence_bytes_nonneg vos).
    apply document_relationships_spec in Hrs as (fs' & Hmsg' & Hok & -> & Hn & Ho); [|done|lia].
    rewrite <- (message_of_det _ _ _ Hmsg Hmsg') in *.
    assert (dd_path d = p) as Hdp.
    { destruct (dof_source _ _ _ _ _ _ _ _ Hd) as (text & e' & Ht' & Hs' & _). congruence. }
    exists fs. split; [done|]. split; [|done|done]. exists d, vos. rewrite Hc. by split_and!.
  - intros (fs & Hmsg & [(d & vos & Hd & Hdp & Hc & Hoc & Hle) [Hok Hrs] Hn]).
    pose proof Hd as [Hh (text & e & Htext & Hsource) Hv _ _]. pose proof (validated_valid _ _ _ _ _ Hv) as Hvos.
    exists {| relative_path := text; language := slot payload_bytes 4 fs; position_encoding := slot position_of 6 fs;
              occurrences := occurs 2 fs; symbols := occurs 3 fs |}.
    split; [by apply document_header_spec; [|exists fs]|].
    assert (content_digest e = od_content doc) as He by (rewrite Hc; apply Hsource).
    apply (validate_source_spec sha256 {| relative_path := text; language := slot payload_bytes 4 fs;
      position_encoding := slot position_of 6 fs; occurrences := occurs 2 fs; symbols := occurs 3 fs |})
      in Hsource as [Hp' He']; [|done].
    rewrite run_never_lift_bind by (solve_steady; auto). rewrite Hp'. cbn [map_err mbind result_bind].
    rewrite run_never_lift_bind by (solve_steady; auto). rewrite He'. cbn [map_err mbind result_bind].
    rewrite run_never_bind by (solve_steady; auto). rewrite run_never_mapped. apply bind_Ok.
    pose proof (symbol_bytes_nonneg (od_relationships doc)). pose proof (occurrence_bytes_nonneg vos).
    exists (d, (occurrence_bytes vos, od_occurrences doc)). split.
    + apply map_err_Ok, decode_document_spec; [done..|]. exists fs, vos. split_and!; [done..|].
      apply collect_spec; [done..|]. rewrite He, <- Hdp, Hoc. simpl. split; [done|lia].
    + cbv beta iota. rewrite run_never_bind by solve_steady. apply bind_Ok. exists (od_relationships doc). split.
      * apply document_relationships_spec; [done|lia|]. exists fs. by rewrite <- Hrs.
      * rewrite run_never_ret, He, <- Hdp. by destruct doc.
Qed.
End document.
#[export] Hint Resolve steady_overlay_document_with : steady.

(** ** The documents of an index *)

Section index.
Context {D : Type} `{EqDecision D} (sha256 : bytes → D).

Notation Manifest := (SourceManifest RepositoryPath SourceFileKind D).
Notation Document := (ScipOverlayDocument D).

Context (m : Manifest) (Hm : paths_sorted m) (limits : RepositoryPathLimits).
Context (source_lookup : RepositoryPath → option bytes).
Context (Hlookup : ∀ p bs, source_lookup p = Some bs → slice_ok bs).
Context {B : Type} (on_document : Document → B → result ScipOverlayDocumentError B).

Notation State := (ScipIndexStreamState (B := B)).

(** The position encoding of a document: the one it declares, or UTF-8 for the Go documents
    of the one producer known to omit it. *)
Definition encoding_of (go : bool) (fs : list wire_field) : option ScipWirePositionEncoding :=
  match slot position_of 6 fs with
  | Some encoding => Some encoding
  | None => if go && bool_decide (slot payload_bytes 4 fs = Some (b_of "go")) then Some PositionUtf8 else None
  end.

(** What becomes of a document: it lies outside the repository and is ignored ([None]), or
    its facts are staged. *)
Definition staged_as (go : bool) (raw : bytes) (o : option Document) : Prop :=
  ∃ fs text, message_of raw fs ∧ header_admits fs = true ∧ slot payload_bytes 1 fs = Some text
    ∧ match o with
      | None => go && starts_with (b_of "../") text = true
      | Some doc =>
          go && starts_with (b_of "../") text = false
          ∧ ∃ source_bytes encoding, source_lookup (od_path doc) = Some source_bytes
              ∧ encoding_of go fs = Some encoding ∧ overlay_of sha256 m limits source_bytes encoding fs doc
      end.

Definition occurrences_of (os : list (option Document)) : Z :=
  foldr (λ o n, from_option (λ d, Z.of_nat (length (od_occurrences d))) 0 o + n) 0 os.
Definition relationships_of (os : list (option Document)) : Z :=
  foldr (λ o n, from_option (λ d, Z.of_nat (length (od_relationships d))) 0 o + n) 0 os.
Definition staged_count (os : list (option Document)) : Z := Z.of_nat (length (omap id os)).
Definition ignored_count (os : list (option Document)) : Z := Z.of_nat (length os) - staged_count os.

(** The state after the documents [os], the sink then being [b]. *)
Definition advanced (s : State) (os : list (option Document)) (b : B) : State :=
  {| st_metadata := st_metadata s; st_scip_go_producer := st_scip_go_producer s;
     st_staged_documents := st_staged_documents s + staged_count os;
     st_ignored_external_documents := st_ignored_external_documents s + ignored_count os;
     st_occurrences := st_occurrences s + occurrences_of os;
     st_relationships := st_relationships s + relationships_of os; st_sink := b |}.

Definition deliver (b : B) (os : list (option Document)) : result ScipOverlayDocumentError B :=
  try_fold (λ b d, on_document d b) b (omap id os).

Lemma deliver_app b os os' : deliver b (os ++ os') = b' ← deliver b os; deliver b' os'.
Proof. unfold deliver. by rewrite omap_app, try_fold_app. Qed.

(** The counters before the document of ordinal [n]. *)
Record counted (n : Z) (s : State) : Prop := {
  cnt_documents : st_staged_documents s + st_ignored_external_documents s = n;
  cnt_nonneg : 0 ≤ st_staged_documents s ∧ 0 ≤ st_ignored_external_documents s;
  cnt_occurrences : 0 ≤ st_occurrences s ≤ n * MAX_DOCUMENT_OCCURRENCES;
  cnt_relationships : 0 ≤ st_relationships s ≤ n * MAX_DOCUMENT_RELATIONSHIPS;
}.

Lemma validated_length source_bytes encoding n ps vos :
  validated source_bytes encoding n ps vos → length vos = length ps.
Proof. induction 1; simpl; congruence. Qed.

(** The facts of a document are bounded. *)
Lemma overlay_of_bounds source_bytes encoding fs doc :
  overlay_of sha256 m limits source_bytes encoding fs doc →
  Z.of_nat (length (od_occurrences doc)) ≤ MAX_DOCUMENT_OCCURRENCES
  ∧ Z.of_nat (length (od_relationships doc)) ≤ MAX_DOCUMENT_RELATIONSHIPS.
Proof.
  intros [(d & vos & [Hh _ Hv _ _] & _ & _ & -> & _) _ Hn]. split; [|done].
  rewrite length_fmap, (validated_length _ _ _ _ _ Hv). unfold header_admits in Hh.
  change (Z.of_nat (length (values 2 fs))) with (occurs 2 fs). lia.
Qed.

Lemma staged_as_bounds go raw o :
  staged_as go raw o →
  0 ≤ occurrences_of [o] ≤ MAX_DOCUMENT_OCCURRENCES ∧ 0 ≤ relationships_of [o] ≤ MAX_DOCUMENT_RELATIONSHIPS.
Proof.
  intros (fs & text & _ & _ & _ & H). destruct o as [doc|]; [|done].
  destruct H as (_ & src & enc & _ & _ & H%overlay_of_bounds). simpl. lia.
Qed.

Lemma counted_advanced n s go raw o b :
  counted n s → staged_as go raw o → counted (n + 1) (advanced s [o] b).
Proof.
  intros [H1 H2 H3 H4] Ho%staged_as_bounds.
  split; cbn [advanced st_staged_documents st_ignored_external_documents st_occurrences st_relationships].
  3-4: unfold MAX_DOCUMENT_OCCURRENCES, MAX_DOCUMENT_RELATIONSHIPS in *; lia.
  all: unfold ignored_count, staged_count; destruct o; cbn; lia.
Qed.

Lemma steady_stage d s : steady (stage sha256 m limits source_lookup on_document d s).
Proof. unfold stage. solve_steady. Qed.
#[local] Hint Resolve steady_stage : steady.

Lemma steady_on_metadata raw s : steady (on_metadata (B := B) raw s).
Proof. unfold on_metadata. solve_steady. Qed.

Lemma header_of h (fs : list wire_field) go (s : State) :
  st_scip_go_producer s = go → position_encoding h = slot position_of 6 fs → language h = slot payload_bytes 4 fs →
  document_encoding s h = encoding_of go fs.
Proof.
  intros <- Hp Hl. unfold document_encoding, encoding_of, is_go_document_with_omitted_position_encoding.
  rewrite <- Hp, <- Hl. destruct (position_encoding h); [done|]. by rewrite (bool_decide_eq_true_2 (None = None)).
Qed.

Lemma checked_u32 n : 0 ≤ n ≤ MAX_DOCUMENTS → u32_checked_add n 1 = Some (n + 1).
Proof. intros Hn. apply checked_in. unfold MAX_DOCUMENTS, u32_max in *. lia. Qed.

(** Counting the facts of a document. *)
Lemma reserve_document_Ok n (s : State) (doc : Document) :
  counted n s → n ≤ MAX_DOCUMENTS →
  Z.of_nat (length (od_occurrences doc)) ≤ MAX_DOCUMENT_OCCURRENCES →
  Z.of_nat (length (od_relationships doc)) ≤ MAX_DOCUMENT_RELATIONSHIPS →
  reserve_document s doc = Ok (st_occurrences s + occurrences_of [Some doc], st_relationships s + relationships_of [Some doc]).
Proof.
  intros [_ _ H3 H4] Hn Ho Hr. unfold MAX_DOCUMENTS, MAX_DOCUMENT_OCCURRENCES, MAX_DOCUMENT_RELATIONSHIPS in *.
  unfold reserve_document, u64_of_len, u64_checked_add.
  rewrite (checked_in _ (Z.of_nat (length (od_occurrences doc)))) by (unfold u64_max; lia). rstep.
  rewrite (checked_in _ (Z.of_nat (length (od_relationships doc)))) by (unfold u64_max; lia). rstep.
  rewrite checked_in by (unfold u64_max; lia). rstep. rewrite checked_in by (unfold u64_max; lia). rstep.
  unfold occurrences_of, relationships_of. simpl. by rewrite !Z.add_0_r.
Qed.

(** One document of the index. *)
Lemma stage_spec n raw (s s' : State) :
  slice_ok raw → counted n s → n < MAX_DOCUMENTS →
  run never (stage sha256 m limits source_lookup on_document {| doc_ordinal := n; doc_bytes := raw |} s) = Ok s' ↔
  ∃ o b, staged_as (st_scip_go_producer s) raw o ∧ deliver (st_sink s) [o] = Ok b ∧ s' = advanced s [o] b.
Proof.
  intros Hin Hs Hn. pose proof Hs as [H1 H2 _ _]. unfold stage. cbn [doc_ordinal doc_bytes].
  set (go := st_scip_go_producer s).
  assert (u32_checked_add (st_staged_documents s) (st_ignored_external_documents s) = Some n) as ->.
  { unfold u32_checked_add. rewrite H1. apply checked_in. unfold u32_max, MAX_DOCUMENTS in *. lia. }
  rewrite run_never_lift_bind by (intros; solve_steady). rstep. rewrite Z.eqb_refl. cbn [negb].
  rewrite run_never_bind by (intros; solve_steady). rewrite run_never_mapped, bind_Ok. setoid_rewrite map_err_Ok. split.
  - intros (h & (fs & Hmsg & Hh & Hpath & Hlang & Hpos & _)%document_header_spec & Hr); [|done].
    unfold external_path in Hr. fold go in Hr.
    destruct (go && starts_with (b_of "../") (relative_path h)) eqn:Eext.
    + rewrite checked_u32, run_never_lift_bind in Hr by (lia || intros; solve_steady). injection Hr as <-.
      exists None, (st_sink s). split_and!; [by exists fs, (relative_path h)|done|].
      unfold advanced, ignored_count, staged_count. simpl. f_equal; lia.
    + rewrite run_never_lift_bind in Hr by (intros; solve_steady). apply bind_Ok in Hr as (p & Hp%map_err_Ok & Hr).
      rewrite run_never_lift_bind in Hr by (intros; solve_steady).
      destruct (source_lookup p) as [src|] eqn:Esrc; [|done]. cbn [ok_or mbind result_bind] in Hr.
      rewrite run_never_lift_bind in Hr by (intros; solve_steady).
      rewrite (header_of h fs go) in Hr by done.
      destruct (encoding_of go fs) as [enc|] eqn:Eenc; [|done]. cbn [ok_or mbind result_bind] in Hr.
      rewrite run_never_bind in Hr by (intros; solve_steady). apply bind_Ok in Hr as (doc & Hdoc & Hr).
      apply overlay_document_spec in Hdoc as (fs' & Hmsg' & Hdoc); [|done|by eapply Hlookup|done].
      rewrite <- (message_of_det _ _ _ Hmsg Hmsg') in *.
      destruct (overlay_of_bounds _ _ _ _ Hdoc) as [Hob Hrb].
      rewrite (reserve_document_Ok n), run_never_lift_bind in Hr by (done || lia || intros; solve_steady).
      cbn [mbind result_bind] in Hr. rewrite run_never_lift_bind in Hr by (intros; solve_steady).
      apply bind_Ok in Hr as (b & Hb & Hr). rewrite checked_u32, run_never_lift_bind in Hr by (lia || intros; solve_steady).
      injection Hr as <-. exists (Some doc), b. split_and!.
      * exists fs, (relative_path h). split_and!; [done..|]. exists src, enc. split_and!; [|done..].
        destruct Hdoc as [(d & vos & [_ (text & e & Ht & Hp' & _) _ _ _] & -> & _) _ _].
        unfold validate_scip_document_path in Hp. apply map_err_Ok in Hp. congruence.
      * unfold deliver. cbn. by rewrite Hb.
      * unfold advanced, ignored_count, staged_count. cbn -[occurrences_of relationships_of]. f_equal; lia.
  - intros (o & b & (fs & text & Hmsg & Hh & Htext & Ho) & Hb & ->).
    set (h := {| relative_path := text; language := slot payload_bytes 4 fs; position_encoding := slot position_of 6 fs;
                 occurrences := occurs 2 fs; symbols := occurs 3 fs |}).
    exists h. split; [apply document_header_spec; [done|]; by exists fs|].
    unfold external_path. fold go. cbn [relative_path h]. destruct o as [doc|].
    + destruct Ho as (-> & src & enc & Hsrc & Henc & Hdoc). pose proof (overlay_of_bounds _ _ _ _ Hdoc) as [Hob Hrb].
      assert (validate_scip_document_path h limits = Ok (od_path doc)) as Hp.
      { destruct Hdoc as [(d & vos & [_ (text' & e & Ht & Hp' & _) _ _ _] & -> & _) _ _].
        apply map_err_Ok. cbn. congruence. }
      rewrite Hp, run_never_lift_bind by (intros; solve_steady). cbn [map_err mbind result_bind].
      rewrite Hsrc, run_never_lift_bind by (intros; solve_steady). cbn [ok_or mbind result_bind].
      rewrite (header_of h fs go), Henc, run_never_lift_bind by (done || intros; solve_steady). cbn [ok_or mbind result_bind].
      rewrite run_never_bind by (intros; solve_steady). apply bind_Ok. exists doc. split.
      { apply overlay_document_spec; [done|by eapply Hlookup|done|]. by exists fs. }
      rewrite (reserve_document_Ok n), run_never_lift_bind by (done || lia || intros; solve_steady).
      cbn [mbind result_bind]. rewrite run_never_lift_bind by (intros; solve_steady). apply bind_Ok.
      exists b. split; [unfold deliver in Hb; cbn in Hb; by destruct (on_document doc (st_sink s))|].
      rewrite checked_u32, run_never_lift_bind by (lia || intros; solve_steady). cbn [ok_or mbind result_bind].
      rewrite run_never_ret. unfold advanced, ignored_count, staged_count. cbn -[occurrences_of relationships_of].
      do 2 f_equal; lia.
    + rewrite Ho, checked_u32, run_never_lift_bind by (lia || intros; solve_steady). cbn [ok_or mbind result_bind].
      rewrite run_never_ret. injection Hb as ->. unfold advanced, ignored_count, staged_count.
      cbn -[occurrences_of relationships_of]. unfold occurrences_of, relationships_of. simpl. do 2 f_equal; lia.
Qed.

Lemma advanced_nil (s : State) : advanced s [] (st_sink s) = s.
Proof.
  unfold advanced, ignored_count, staged_count, occurrences_of, relationships_of. simpl. destruct s. f_equal; simpl; lia.
Qed.

Lemma advanced_cons (s : State) o os b b' : advanced (advanced s [o] b) os b' = advanced s (o :: os) b'.
Proof.
  unfold advanced, ignored_count. cbn [st_metadata st_scip_go_producer st_staged_documents st_ignored_external_documents
    st_occurrences st_relationships st_sink].
  unfold occurrences_of, relationships_of, staged_count. destruct o; csimpl; f_equal; lia.
Qed.

(** Every document of the index, in order. *)
Lemma stages_spec raws n (s : State) r :
  Forall slice_ok raws → counted n s → n + Z.of_nat (length raws) ≤ MAX_DOCUMENTS →
  try_fold (λ '(n, s) raw, s ← run never (stage sha256 m limits source_lookup on_document
                                            {| doc_ordinal := n; doc_bytes := raw |} s); Ok (n + 1, s)) (n, s) raws = Ok r ↔
  ∃ os b, Forall2 (staged_as (st_scip_go_producer s)) raws os ∧ deliver (st_sink s) os = Ok b
    ∧ r = (n + Z.of_nat (length raws), advanced s os b).
Proof.
  intros Hraws. revert n s. induction Hraws as [|raw raws Hraw Hraws IH]; intros n s Hs Hn; cbn [try_fold].
  - split.
    + intros [= <-]. exists [], (st_sink s). split_and!; [constructor|done|]. rewrite advanced_nil. f_equal. simpl. lia.
    + intros (os & b & ->%Forall2_nil_inv_l & [= <-] & ->). rewrite advanced_nil. do 2 f_equal. simpl. lia.
  - simpl length in *. rewrite bind_Ok. split.
    + intros ([n1 s1] & (s2 & Hs2 & [= <- <-])%bind_Ok & Hr).
      apply stage_spec in Hs2 as (o & b & Ho & Hb & ->); [|done|done|lia].
      apply IH in Hr as (os & b' & Hos & Hb' & ->); [|by eapply counted_advanced|lia].
      exists (o :: os), b'. split_and!; [by constructor| |rewrite advanced_cons; f_equal; lia].
      change (o :: os) with ([o] ++ os). by rewrite deliver_app, Hb.
    + intros (os' & b' & (o & os & Ho & Hos & ->)%Forall2_cons_inv_l & Hb & ->).
      change (o :: os) with ([o] ++ os) in Hb. rewrite deliver_app in Hb. apply bind_Ok in Hb as (b & Hb & Hb').
      exists (n + 1, advanced s [o] b). split.
      * apply bind_Ok. exists (advanced s [o] b). split; [|done]. apply stage_spec; [done|done|lia|]. by exists o, b.
      * apply IH; [by eapply counted_advanced|lia|]. exists os, b'. split_and!; [done..|].
        rewrite advanced_cons. f_equal. lia.
Qed.

(** An imported index: UTF-8 metadata of the supported version, and documents each of which
    lies outside the repository or is staged with its exact facts. *)
Record imported (input : bytes) (sink : B) (summary : ScipOverlayIndexSummary) (sink' : B)
    (meta : bytes) (mfs fs : list wire_field) (os : list (option Document)) : Prop := {
  imp_index : index_of input meta fs;
  imp_input : len input ≤ MAX_INPUT_BYTES ∧ len meta ≤ MAX_METADATA_BYTES;
  imp_metadata : message_of meta mfs ∧ metadata_admits mfs = true ∧ slot text_encoding_of 4 mfs = Some TextUtf8;
  imp_fields : Forall (λ f, index_field_ok scip_limits_DEFAULT f = true) fs;
  imp_count : Z.of_nat (length (documents_in fs)) ≤ MAX_DOCUMENTS;
  imp_documents : Forall2 (staged_as (ms_scip_go_producer (metadata_gather mfs))) (documents_in fs) os;
  imp_sink : deliver sink os = Ok sink';
  imp_summary : summary = {| ix_documents := staged_count os; ix_ignored_external_documents := ignored_count os;
                             ix_occurrences := occurrences_of os; ix_relationships := relationships_of os;
                             ix_source_text_encoding := SourceTextUtf8 |};
}.

Lemma steady_index input sink :
  steady (decode_scip_overlay_index sha256 m limits source_lookup on_document input sink).
Proof.
  unfold decode_scip_overlay_index. apply steady_bind; [|intros []; solve_steady].
  apply steady_scan; [apply steady_on_metadata|apply steady_stage].
Qed.

(** The state after accepted metadata of a producer. *)
Definition started (go : bool) (s : State) : State :=
  {| st_metadata := Some {| text_encoding := TextUtf8; protocol_version := SUPPORTED_PROTOCOL_VERSION;
                            scip_go_producer := go |};
     st_scip_go_producer := go; st_staged_documents := st_staged_documents s;
     st_ignored_external_documents := st_ignored_external_documents s;
     st_occurrences := st_occurrences s; st_relationships := st_relationships s; st_sink := st_sink s |}.

Lemma on_metadata_spec raw (s s' : State) :
  slice_ok raw →
  run never (on_metadata raw s) = Ok s' ↔
  ∃ mfs, message_of raw mfs ∧ metadata_admits mfs = true ∧ slot text_encoding_of 4 mfs = Some TextUtf8
    ∧ s' = started (ms_scip_go_producer (metadata_gather mfs)) s.
Proof.
  intros Hin. unfold on_metadata. rewrite run_never_bind by (intros; solve_steady).
  rewrite run_never_mapped, bind_Ok. setoid_rewrite map_err_Ok. split.
  - intros (p & (mfs & Hmsg & Ha & Ht & Hv & Hg)%metadata_spec & Hr); [|done]. exists mfs.
    case_bool_decide as Hu; [|done]. injection Hr as <-. rewrite Hu in Ht. split_and!; [done..|].
    destruct p as [v e g]. simpl in *. by subst.
  - intros (mfs & Hmsg & Ha & Ht & ->).
    exists {| text_encoding := TextUtf8; protocol_version := SUPPORTED_PROTOCOL_VERSION;
              scip_go_producer := ms_scip_go_producer (metadata_gather mfs) |}.
    split; [apply metadata_spec; [done|]; by exists mfs|done].
Qed.

Lemma documents_in_slices fs :
  Forall (λ f, index_field_ok scip_limits_DEFAULT f = true) fs → Forall slice_ok (documents_in fs).
Proof.
  intros Hfs. apply Forall_forall. intros bs ([n p] & Hf & Hp)%list_elem_of_omap.
  rewrite Forall_forall in Hfs. specialize (Hfs _ Hf). unfold document_payload in Hp. unfold index_field_ok in Hfs.
  cbn [fst snd] in *. destruct p as [| |bs'|]; try done. destruct (Z.eqb_spec n DOCUMENT_FIELD) as [->|]; [|done].
  injection Hp as ->. apply (slice_ok_small _ MAX_DOCUMENT_BYTES); [|done].
  change (DOCUMENT_FIELD =? METADATA_FIELD) with false in Hfs. cbv iota in Hfs. simpl in Hfs. lia.
Qed.

Lemma index_of_meta_slice input meta fs : index_of input meta fs → slice_ok input → slice_ok meta.
Proof.
  intros (bs & rest & -> & Hp & _). inversion Hp; subst. unfold slice_ok.
  change (x0a :: ?x ++ rest) with ([x0a] ++ x ++ rest). rewrite !len_app. change (len [x0a]) with 1.
  pose proof (len_nonneg pre). pose proof (len_nonneg rest). lia.
Qed.

Lemma observed_documents go raws os :
  Forall2 (staged_as go) raws os → Z.of_nat (length raws) ≤ MAX_DOCUMENTS →
  u32_checked_add (0 + staged_count os) (0 + ignored_count os) = Some (Z.of_nat (length raws)).
Proof.
  intros Hos Hn. unfold ignored_count. rewrite (Forall2_length _ _ _ Hos) in *.
  replace (Z.of_nat (length os)) with (0 + staged_count os + (0 + (Z.of_nat (length os) - staged_count os))) at 2 by lia.
  apply checked_in. unfold MAX_DOCUMENTS, u32_max in *. lia.
Qed.

Lemma index_spec input sink summary sink' :
  slice_ok input →
  run never (decode_scip_overlay_index sha256 m limits source_lookup on_document input sink) = Ok (summary, sink') ↔
  ∃ meta mfs fs os, imported input sink summary sink' meta mfs fs os.
Proof.
  intros Hin. unfold decode_scip_overlay_index. rewrite run_never_bind, bind_Ok by (intros []; solve_steady).
  set (init := stream_init sink).
  assert (∀ x s, run never (scan_scip_wire map_wire_error on_metadata (stage sha256 m limits source_lookup on_document)
      input scip_limits_DEFAULT init) = Ok (x, s) ↔ _) as Hscan
    by (intros; apply scan_spec; (done || apply steady_on_metadata || apply steady_stage)).
  assert (∀ go, counted 0 (started go init)) as Hcounted by (by intros; split; simpl).
  split.
  - intros ([x s] & (meta & fs & b & [Hidx Hlen [Hml Hb] Hok Hd Hh ->])%Hscan & Hr). rewrite run_never_lift in Hr.
    apply on_metadata_spec in Hb as (mfs & Hmsg & Ha & Ht & ->); [|by eapply index_of_meta_slice].
    apply stages_spec in Hh as (os & b & Hos & Hb & [= ->]); [|by apply documents_in_slices|done|simpl in Hd; lia].
    exists meta, mfs, fs, os. simpl in Hd. pose proof (observed_documents _ _ _ Hos Hd) as Hobs.
    cbn -[staged_count ignored_count] in Hr. rewrite Hobs in Hr. cbn [ok_or mbind result_bind] in Hr.
    rewrite Z.eqb_refl in Hr. injection Hr as <- <-. by split.
  - intros (meta & mfs & fs & os & [Hidx [Hl1 Hl2] (Hmsg & Ha & Ht) Hok Hd Hos Hb ->]).
    set (go := ms_scip_go_producer (metadata_gather mfs)) in *.
    exists ({| sum_metadata_present := true; sum_documents := Z.of_nat (length (documents_in fs));
               sum_ignored_fields := ignored_in fs |}, advanced (started go init) os sink').
    split.
    + apply Hscan. exists meta, fs, (started go init). split; [done..| |done|done| |done].
      * split; [done|]. apply on_metadata_spec; [by eapply index_of_meta_slice|]. by exists mfs.
      * apply stages_spec; [by apply documents_in_slices|done|lia|]. by exists os, sink'.
    + rewrite run_never_lift. pose proof (observed_documents _ _ _ Hos Hd) as Hobs.
      cbn -[staged_count ignored_count]. rewrite Hobs. cbn [ok_or mbind result_bind]. by rewrite Z.eqb_refl.
Qed.
End index.
