(* ===== verification/ScipTheorems.v ===== *)
(** * Theorems on SCIP ingestion

    The properties of the decoders of [crates/repowitness-analysis/src/scip_wire.rs] and
    [crates/repowitness-analysis/src/scip_overlay.rs], with an index that is imported. *)

From Stdlib Require Import ZArith Lia ZifyBool.
From Stdlib Require Import Strings.Byte.
From stdpp Require Import base numbers list.
From S2P Require Import Prelude Ordering RepositoryPath SourceManifest Utf8 GraphIdentity WireFormat.
From S2P Require Import SourceRange ScipWire FieldReaders ScipMessages ScipOccurrences ScipSymbols.
From S2P Require Import ScipDocuments ScipOverlay ScipScan ScipRelations ScipImport.

Open Scope Z_scope.

(** ** An index

    One document of one file, with an occurrence and a relationship, and a document outside
    the repository, by the producer that omits encodings. *)

(** [field], the encoder the tests of the source use. *)
Definition field (number wire : Z) (value : bytes) : bytes :=
  push_varint 10 (Z.lor (Z.shiftl number 3) wire)
  ++ (if wire =? WIRE_LENGTH_DELIMITED then push_varint 10 (len value) else []) ++ value.

Definition text (number : Z) (value : bytes) : bytes := field number WIRE_LENGTH_DELIMITED value.

Definition example_source : bytes := b_of "abc".
Definition example_occurrence : bytes := text 1 [x00; x01; x02] ++ text 2 (b_of "Item") ++ field 3 0 [x01].
Definition example_relationship : bytes := text 1 (b_of "Base") ++ field 3 0 [x01].
Definition example_symbol : bytes := text 1 (b_of "Item") ++ text 4 example_relationship.
Definition example_document : bytes :=
  text 1 (b_of "src/lib.go") ++ text 4 (b_of "go") ++ text 2 example_occurrence ++ text 3 example_symbol.
Definition example_external : bytes := text 1 (b_of "../go/src/fmt.go").
Definition example_metadata : bytes := text 2 (text 1 (b_of "scip-go")) ++ field 4 0 [x01].
Definition example_index : bytes :=
  text 1 example_metadata ++ text 2 example_document ++ text 3 (b_of "external symbol") ++ text 2 example_external.

Definition example_path : RepositoryPath := {| path_bytes := b_of "src/lib.go"; byte_count := 10; component_count := 2 |}.
Definition example_limits : RepositoryPathLimits := {| max_bytes := 128; max_components := 8 |}.
Definition example_manifest : SourceManifest RepositoryPath SourceFileKind bytes :=
  {| entries := [{| path := example_path; file_type := Regular; content_digest := example_source |}];
     count := 1; limit := 1 |}.
Definition example_lookup (p : RepositoryPath) : option bytes :=
  if path_eqb p example_path then Some example_source else None.

Definition example_facts : ScipOverlayDocument bytes :=
  {| od_path := example_path; od_content := example_source;
     od_occurrences := [{| so_path := example_path; so_content := example_source;
                           so_span := {| span_start := 1; span_end := 2 |}; so_ordinal := 0;
                           so_symbol := Some (b_of "Item"); so_roles := 1 |}];
     od_relationships := [{| scip_source := b_of "Item"; scip_target := b_of "Base";
                             scip_kinds := {| kind_reference := false; kind_implementation := true;
                                              kind_type_definition := false; kind_definition := false |} |}] |}.

Definition example_summary : ScipOverlayIndexSummary :=
  {| ix_documents := 1; ix_ignored_external_documents := 1; ix_occurrences := 1; ix_relationships := 1;
     ix_source_text_encoding := SourceTextUtf8 |}.

(** The sink that keeps every document. *)
Definition keep {D} (document : ScipOverlayDocument D) (documents : list (ScipOverlayDocument D))
    : result ScipOverlayDocumentError (list (ScipOverlayDocument D)) :=
  Ok (documents ++ [document]).

Definition import (o : nat → option ScipOverlayDocumentError) (input : bytes) :=
  run o (decode_scip_overlay_index id example_manifest example_limits example_lookup keep input []).

Example example_imported : import never example_index = Ok (example_summary, [example_facts]).
Proof. vm_compute. reflexivity. Qed.

(** Metadata after a document is refused, and so is a trailing byte. *)
Example metadata_first : import never (text 2 example_document ++ text 1 example_metadata) = Err OverlayInvalidInput.
Proof. vm_compute. reflexivity. Qed.
Example trailing_byte : import never (example_index ++ [x08]) = Err OverlayInvalidInput.
Proof. vm_compute. reflexivity. Qed.

(** ** The index *)

Section import.
Context {D : Type} `{EqDecision D} (sha256 : bytes → D).
Context (m : SourceManifest RepositoryPath SourceFileKind D) (limits : RepositoryPathLimits).
Context (source_lookup : RepositoryPath → option bytes).
Context {B : Type} (on_document : ScipOverlayDocument D → B → result ScipOverlayDocumentError B).

(** C39: The import of an index is exact.  Whatever the control answers, an import that succeeds has read
    UTF-8 metadata of the supported version at the very start and then documents, each of which is
    either outside the repository (only for the producer known to write such paths) or staged with
    exactly its occurrences, resolved in the pinned bytes of a regular manifest file of that digest, and
    its relationships; the summary counts them, and the sink has received them in order.  Conversely
    every such index within the limits is imported when the control does not stop the work, and
    otherwise the control only stops it. *)
Theorem scip_index_import_exact input (sink : B) summary sink' :
  slice_ok input → paths_sorted m → (∀ p bs, source_lookup p = Some bs → slice_ok bs) →
  let import o := run o (decode_scip_overlay_index sha256 m limits source_lookup on_document input sink) in
  (∀ o, import o = Ok (summary, sink') →
     ∃ meta mfs fs os, imported sha256 m limits source_lookup on_document input sink summary sink' meta mfs fs os)
  ∧ (∀ o meta mfs fs os,
       imported sha256 m limits source_lookup on_document input sink summary sink' meta mfs fs os →
       import o = Ok (summary, sink') ∨ ∃ k e, o k = Some e ∧ import o = Err e).
Proof.
  intros Hin Hm Hlookup import. split.
  - intros o Ho. apply index_spec; [done..|]. eapply steady_run_Ok; [apply steady_index|done].
  - intros o meta mfs fs os Himp.
    destruct (steady_run (decode_scip_overlay_index sha256 m limits source_lookup on_document input sink) o)
      as [H|H]; [apply steady_index| |by right].
    left. unfold import. rewrite H. apply index_spec; [done..|]. by exists meta, mfs, fs, os.
Qed.
End import.

Lemma scip_index_import_exact_witness :
  import (λ k, if (200 <=? k)%nat then Some OverlayDeadlineExceeded else None) example_index
    = Ok (example_summary, [example_facts])
  ∧ ∃ meta mfs fs os,
      imported id example_manifest example_limits example_lookup keep example_index []
        example_summary [example_facts] meta mfs fs os.
Proof.
  assert (∀ p bs, example_lookup p = Some bs → slice_ok bs) as Hlookup.
  { unfold example_lookup. intros p bs H. destruct (path_eqb p example_path); [|done]. by injection H as <-. }
  split; [vm_compute; reflexivity|].
  apply (proj1 (scip_index_import_exact id example_manifest example_limits example_lookup keep example_index []
    example_summary [example_facts] ltac:(done) ltac:(repeat constructor) Hlookup)
    (λ k, if (200 <=? k)%nat then Some OverlayDeadlineExceeded else None)).
  vm_compute. reflexivity.
Defined.

(** ** Documents *)

(** C40: A document is decoded exactly when its fields form one admitted header whose path names a regular
    file of the manifest with the digest of the supplied bytes, every occurrence has a range (given by
    three or four legacy integers, by one typed range, or by both in agreement) that resolves in those
    bytes, and the caller accepts the evidence in order; the result names the path, the encoding and the
    number of occurrences, and the caller is handed each one's exact span, symbol and roles. *)
Theorem scip_document_evidence_exact {D} `{EqDecision D} (sha256 : bytes → D) {A}
    (on_occurrence : ScipWireValidatedOccurrence → A → result ScipWireError A) input m limits source_bytes encoding
    (consumer : A) d a :
  slice_ok input → slice_ok source_bytes → paths_sorted m →
  run never (decode_scip_document sha256 on_occurrence input m limits source_bytes encoding consumer) = Ok (d, a) ↔
  ∃ fs vos, message_of input fs ∧ document_of sha256 m limits source_bytes encoding fs d vos
    ∧ try_fold (λ a vo, on_occurrence vo a) consumer vos = Ok a.
Proof. apply decode_document_spec. Qed.

Lemma scip_document_evidence_exact_witness :
  let d := {| dd_path := example_path; dd_position_encoding := PositionUtf16; dd_occurrences := 1 |} in
  let vo := {| vo_ordinal := 0; vo_span := {| span_start := 1; span_end := 2 |}; vo_symbol := Some (b_of "Item");
               vo_roles := 1 |} in
  ∃ fs vos, message_of example_document fs
    ∧ document_of id example_manifest example_limits example_source PositionUtf16 fs d vos
    ∧ try_fold (λ a vo, Ok (E := ScipWireError) (a ++ [vo])) [] vos = Ok [vo].
Proof.
  intros d vo.
  apply (scip_document_evidence_exact id (λ vo a, Ok (a ++ [vo])) example_document example_manifest example_limits
    example_source PositionUtf16 [] d [vo]); [done|done|repeat constructor|].
  vm_compute. reflexivity.
Defined.

(** ** Varints *)

(** Reading a varint is exact and inverts the encoder: at any offset of any slice a value and the
    next offset are returned exactly for the little-endian groups of seven bits of a 64-bit value, of
    at most ten bytes, that stand there; and whatever surrounds it, the encoding of a 64-bit value is
    read back to its end. *)
Theorem scip_varint_roundtrip :
  (∀ input c v c', slice_ok input → within_input input c →
     read_varint input c = Ok (v, c') ↔ ∃ bs, seg input c bs c' ∧ varint_of bs v)
  ∧ (∀ before after v, slice_ok (before ++ push_varint 10 v ++ after) → in_u64 v →
       read_varint (before ++ push_varint 10 v ++ after) (len before) = Ok (v, len (before ++ push_varint 10 v))).
Proof.
  split; [apply read_varint_spec|]. intros before after v Hin Hv.
  apply read_varint_spec; [done|unfold within_input; rewrite len_app; pose proof (len_nonneg before);
    pose proof (len_nonneg (push_varint 10 v ++ after)); lia|].
  exists (push_varint 10 v). split; [exists before, after; by rewrite len_app|].
  destruct (push_varint_form 10 v) as (Hf & Hl & Hval); [unfold in_u64, u64_max in Hv; lia|lia|].
  split_and!; [done|done|done|apply Hv].
Qed.

Lemma scip_varint_roundtrip_witness :
  read_varint (b_of "ab" ++ push_varint 10 u64_max ++ b_of "c") 2 = Ok (u64_max, 12)
  ∧ read_varint [xff; xff; xff; xff; xff; xff; xff; xff; xff; x02] 0 = Err VarintOverflow.
Proof.
  split; [|vm_compute; reflexivity].
  apply (proj2 scip_varint_roundtrip (b_of "ab") (b_of "c") u64_max); vm_compute; [|split]; discriminate.
Defined.

(** ** Canonical typed ranges

    A canonical encoder leaves out scalar components that are zero.  A typed range on the first
    line is then refused, although with the zero written out it is accepted. *)
Example canonical_range_rejected :
  run never (parse_scip_occurrence_range (text 8 (field 2 0 [x04] ++ field 3 0 [x07]))) = Err InvalidOccurrenceRange
  ∧ run never (parse_scip_occurrence_range (text 8 (field 1 0 [x00] ++ field 2 0 [x04] ++ field 3 0 [x07])))
    = Ok {| range_start := {| position_line := 0; position_character := 4 |}; range_end := {| position_line := 0; position_character := 7 |} |}.
Proof. split; vm_compute; reflexivity. Qed.

(** The arm of [decode_scip_document] for the inline text of a document is never reached: the header
    of the document has already been refused. *)
Lemma inline_text_rejected input h :
  slice_ok input → (∃ fs p, message_of input fs ∧ (5, p) ∈ fs) → run never (parse_scip_document_header input) ≠ Ok h.
Proof.
  intros Hin (fs & p & Hm & Hp) (fs' & Hm' & Ha & _)%document_header_spec; [|done].
  rewrite <- (message_of_det _ _ _ Hm Hm') in Ha. unfold header_admits in Ha. rewrite !andb_true_iff in Ha.
  destruct Ha as [[[[[Hok _] _] _] _] _]. by apply (forallb_field _ _ _ Hok) in Hp.
Qed.
