(* ===== verification/EvidenceContext.v ===== *)
(** * Evidence-balanced context allocation

    Models [crates/repowitness-analysis/src/evidence_context.rs] with its vocabulary
    ([crates/repowitness-domain/src/evidence_context.rs]): the grouping of exact duplicates
    and the whole-item allocation of a budget, one item per evidence tier and round.
    Identities and digests are their bytes, the payload of a candidate is a parameter, and
    the control (a cancellation flag and a deadline) is the oracle of the [ctl] monad. *)

From Stdlib Require Import ZArith Lia ZifyBool.
From Stdlib Require Import Strings.Byte.
From stdpp Require Import base numbers list.
From S2P Require Import Prelude Ordering.

Open Scope Z_scope.

(** ** Vocabulary *)

Definition MAX_EVIDENCE_CONTEXT_CANDIDATES : Z := 10000.
Definition MAX_EVIDENCE_CONTEXT_BUDGET_UNITS : Z := 1048576.
Definition DEFAULT_EVIDENCE_CONTEXT_BUDGET_UNITS : Z := 64 * 1024.

Inductive EvidenceContextProfile := EvidenceBalancedV1.

Inductive EvidenceContextTier :=
| Anchor | PreciseOverlay | Syntax | Structural | References | Memory | History | Unresolved.

#[export] Instance tier_eq_dec : EqDecision EvidenceContextTier.
Proof. solve_decision. Defined.

Inductive EvidenceContextProviderAvailability := ProviderAvailable | ProviderUnavailable.

#[export] Instance availability_eq_dec : EqDecision EvidenceContextProviderAvailability.
Proof. solve_decision. Defined.

Inductive EvidenceContextError :=
| InvalidBudget | ContextInvalidInput | InvalidCandidate | CountNotRepresentable
| ContextCancelled | ContextDeadlineExceeded.

#[export] Instance context_error_eq_dec : EqDecision EvidenceContextError.
Proof. solve_decision. Defined.

Record EvidenceContextProviderCoverage := {
  coverage_tier : EvidenceContextTier;
  coverage_availability : EvidenceContextProviderAvailability;
  coverage_candidate_count : Z;
}.

Inductive EvidenceContextProviderCoverageError := InvalidOutcome.

Definition coverage_try_new (tier : EvidenceContextTier) (availability : EvidenceContextProviderAvailability)
    (candidate_count : Z) : result EvidenceContextProviderCoverageError EvidenceContextProviderCoverage :=
  if bool_decide (tier = Anchor)
     || negb (eqb (bool_decide (availability = ProviderAvailable)) (negb (candidate_count =? 0)))
  then Err InvalidOutcome
  else Ok {| coverage_tier := tier; coverage_availability := availability;
             coverage_candidate_count := candidate_count |}.

Record EvidenceContextProviderAttribution := {
  attr_provider : bytes;
  attr_tier : EvidenceContextTier;
  attr_rank : Z;
}.

Record EvidenceContextScope := {
  scope_repository : bytes;
  scope_connected_workspace : bytes;
  scope_workspace_view : Z;
  scope_source_slot : bytes;
  scope_source_epoch : Z;
  scope_generation : Z;
  scope_snapshot : bytes;
  scope_manifest : bytes;
}.

#[export] Instance scope_eq_dec : EqDecision EvidenceContextScope.
Proof. solve_decision. Defined.

Inductive EvidenceContextScopeError := InvalidIdentity.

Definition scope_try_new (repository connected_workspace : bytes) (workspace_view : Z) (source_slot : bytes)
    (source_epoch generation : Z) (snapshot manifest : bytes) : result EvidenceContextScopeError EvidenceContextScope :=
  if (workspace_view <=? 0) || (source_epoch =? 0) || (generation <=? 0) then Err InvalidIdentity
  else Ok {| scope_repository := repository; scope_connected_workspace := connected_workspace;
             scope_workspace_view := workspace_view; scope_source_slot := source_slot;
             scope_source_epoch := source_epoch; scope_generation := generation;
             scope_snapshot := snapshot; scope_manifest := manifest |}.

(** [EvidenceContextBudget] is its units. *)
Definition budget_try_new (units : Z) : result EvidenceContextError Z :=
  if (units =? 0) || (MAX_EVIDENCE_CONTEXT_BUDGET_UNITS <? units) then Err InvalidBudget else Ok units.

Definition EVIDENCE_TIERS : list EvidenceContextTier :=
  [PreciseOverlay; Syntax; Structural; References; Memory; History; Unresolved].

Definition tier_index (tier : EvidenceContextTier) : nat :=
  match tier with
  | Anchor => 0 | PreciseOverlay => 1 | Syntax => 2 | Structural => 3
  | References => 4 | Memory => 5 | History => 6 | Unresolved => 7
  end.

Definition tier_lane (tier : EvidenceContextTier) : option nat :=
  match tier with
  | Anchor => None | PreciseOverlay => Some 0 | Syntax => Some 1 | Structural => Some 2
  | References => Some 3 | Memory => Some 4 | History => Some 5 | Unresolved => Some 6
  end%nat.

(** The derived order of the tiers, in the order of their declaration. *)
#[export] Instance tier_ord : RustOrd EvidenceContextTier := ord_by (λ t, Z.of_nat (tier_index t)).

(** ** Candidates *)

Section context.
Context {T : Type}.

Record EvidenceContextCandidate := {
  cand_scope : EvidenceContextScope;
  cand_tier : EvidenceContextTier;
  cand_provider_rank : Z;
  cand_estimated_units : Z;
  cand_identity : bytes;
  cand_attributions : list EvidenceContextProviderAttribution;
  cand_payload : T;
}.

Definition candidate_try_new (scope : EvidenceContextScope) (tier : EvidenceContextTier)
    (provider_rank estimated_units : Z) (identity provider : bytes) (payload : T)
    : result EvidenceContextError EvidenceContextCandidate :=
  if (provider_rank =? 0) || (estimated_units =? 0) then Err InvalidCandidate
  else Ok {| cand_scope := scope; cand_tier := tier; cand_provider_rank := provider_rank;
             cand_estimated_units := estimated_units; cand_identity := identity;
             cand_attributions := [{| attr_provider := provider; attr_tier := tier; attr_rank := provider_rank |}];
             cand_payload := payload |}.

(** [.min()] of the providers; a candidate always has one, so the [expect] never panics. *)
Definition primary_provider (c : EvidenceContextCandidate) : option bytes :=
  foldl (λ least a,
      match least with
      | None => Some (attr_provider a)
      | Some p => Some (match cmp (attr_provider a) p with Lt => attr_provider a | _ => p end)
      end) None (cand_attributions c).

Definition attribution_ordering (l r : EvidenceContextProviderAttribution) : comparison :=
  then_with (then_with (cmp (attr_provider l) (attr_provider r)) (cmp (attr_tier l) (attr_tier r)))
    (cmp (attr_rank l) (attr_rank r)).

Definition is_less {A} `{RustOrd A} (x y : A) : bool := match cmp x y with Lt => true | _ => false end.

(** What a duplicate of the group makes of its tier, rank and payload. *)
Definition merged_choice (c duplicate : EvidenceContextCandidate) : EvidenceContextTier * Z * T :=
  if is_less (cand_tier duplicate) (cand_tier c)
     || (bool_decide (cand_tier duplicate = cand_tier c) && is_less (primary_provider duplicate) (primary_provider c))
  then (cand_tier duplicate, cand_provider_rank duplicate, cand_payload duplicate)
  else if bool_decide (cand_tier duplicate = cand_tier c)
  then (cand_tier c, Z.min (cand_provider_rank c) (cand_provider_rank duplicate), cand_payload c)
  else (cand_tier c, cand_provider_rank c, cand_payload c).

Definition shares_provider (c duplicate : EvidenceContextCandidate) : bool :=
  existsb (λ existing, existsb (λ incoming, bool_decide (attr_provider existing = attr_provider incoming))
                         (cand_attributions duplicate)) (cand_attributions c).

Definition merge_duplicate (c duplicate : EvidenceContextCandidate)
    : result EvidenceContextError EvidenceContextCandidate :=
  if negb (cand_estimated_units c =? cand_estimated_units duplicate) || shares_provider c duplicate
  then Err InvalidCandidate
  else
    let '(tier, rank, payload) := merged_choice c duplicate in
    Ok {| cand_scope := cand_scope c; cand_tier := tier; cand_provider_rank := rank;
          cand_estimated_units := cand_estimated_units c; cand_identity := cand_identity c;
          cand_attributions := sort_by attribution_ordering (cand_attributions c ++ cand_attributions duplicate);
          cand_payload := payload |}.

(** ** The input of an allocation *)

Record EvidenceContextInput := {
  input_scope : EvidenceContextScope;
  input_anchor : option EvidenceContextCandidate;
  input_candidates : list EvidenceContextCandidate;
  input_provider_coverage : list EvidenceContextProviderCoverage;
}.

(** One turn of the grouping loop, over the identities seen and the groups. *)
Definition group_candidate (s : list bytes * list (bytes * EvidenceContextCandidate)) (c : EvidenceContextCandidate)
    : result EvidenceContextError (list bytes * list (bytes * EvidenceContextCandidate)) :=
  let '(identities, grouped) := s in
  let inserted := negb (bset_mem (cand_identity c) identities) in
  let identities := bset_insert (cand_identity c) identities in
  match bmap_get (cand_identity c) grouped with
  | None =>
      if negb inserted then Err InvalidCandidate
      else Ok (identities, bmap_insert (cand_identity c) c grouped)
  | Some group =>
      merged ← merge_duplicate group c;
      Ok (identities, bmap_insert (cand_identity c) merged grouped)
  end.

Definition input_try_new (scope : EvidenceContextScope) (anchor : option EvidenceContextCandidate)
    (candidates : list EvidenceContextCandidate) : result EvidenceContextError EvidenceContextInput :=
  let mismatched c := negb (bool_decide (cand_scope c = scope)) in
  if match anchor with
     | Some c => negb (bool_decide (cand_tier c = Anchor)) || mismatched c
     | None => false
     end
     || (MAX_EVIDENCE_CONTEXT_CANDIDATES <? Z.of_nat (length candidates))
     || existsb (λ c, bool_decide (cand_tier c = Anchor) || mismatched c) candidates
  then Err ContextInvalidInput
  else
    let identities := match anchor with Some c => bset_insert (cand_identity c) [] | None => [] end in
    '(_, grouped) ← try_fold group_candidate (identities, []) candidates;
    Ok {| input_scope := scope; input_anchor := anchor; input_candidates := grouped.*2;
          input_provider_coverage := [] |}.

(** [coverage.iter().any(|coverage| !tiers.insert(coverage.tier()))]. *)
Fixpoint repeats_tier (tiers : list EvidenceContextTier) (coverage : list EvidenceContextProviderCoverage) : bool :=
  match coverage with
  | [] => false
  | c :: coverage =>
      if bset_mem (coverage_tier c) tiers then true
      else repeats_tier (bset_insert (coverage_tier c) tiers) coverage
  end.

Definition with_provider_coverage (input : EvidenceContextInput) (coverage : list EvidenceContextProviderCoverage)
    : result EvidenceContextError EvidenceContextInput :=
  if repeats_tier [] coverage then Err ContextInvalidInput
  else Ok {| input_scope := input_scope input; input_anchor := input_anchor input;
             input_candidates := input_candidates input; input_provider_coverage := coverage |}.

(** ** Allocation *)

Record EvidenceContextOmission := {
  omission_tier : EvidenceContextTier;
  omission_count : Z;
}.

Record EvidenceContextResult := {
  result_profile : EvidenceContextProfile;
  result_scope : EvidenceContextScope;
  result_budget : Z;
  result_used_units : Z;
  result_items : list EvidenceContextCandidate;
  result_provider_coverage : list EvidenceContextProviderCoverage;
  result_omissions : list EvidenceContextOmission;
}.

(** [EvidenceAllocation]: the variables that change, beside those of the request. *)
Record EvidenceAllocation := {
  alloc_used_units : Z;
  alloc_items : list EvidenceContextCandidate;
  alloc_omissions : list Z;
}.

Definition allocation_new : EvidenceAllocation :=
  {| alloc_used_units := 0; alloc_items := []; alloc_omissions := repeat 0 8 |}.

Definition omit (a : EvidenceAllocation) (tier : EvidenceContextTier) : result EvidenceContextError EvidenceAllocation :=
  count ← ok_or (u64_checked_add (default 0 (alloc_omissions a !! tier_index tier)) 1) CountNotRepresentable;
  Ok {| alloc_used_units := alloc_used_units a; alloc_items := alloc_items a;
        alloc_omissions := <[tier_index tier := count]> (alloc_omissions a) |}.

Definition try_admit (budget : Z) (a : EvidenceAllocation) (candidate : EvidenceContextCandidate)
    : ctl EvidenceContextError (EvidenceAllocation * bool) :=
  check;;
  next ← lift (ok_or (u64_checked_add (alloc_used_units a) (cand_estimated_units candidate)) CountNotRepresentable);
  if budget <? next then
    a ← lift (omit a (cand_tier candidate));
    mret (a, false)
  else
    mret ({| alloc_used_units := next; alloc_items := alloc_items a ++ [candidate];
             alloc_omissions := alloc_omissions a |}, true).

(** The inner loop: candidates are popped until one is admitted. *)
Fixpoint admit_from_lane (budget : Z) (a : EvidenceAllocation) (lane : list EvidenceContextCandidate)
    : ctl EvidenceContextError (EvidenceAllocation * list EvidenceContextCandidate * bool) :=
  match lane with
  | [] => mret (a, [], false)
  | candidate :: lane =>
      '(a, admitted) ← try_admit budget a candidate;
      if admitted : bool then mret (a, lane, true) else admit_from_lane budget a lane
  end.

Notation Lanes := (list (list EvidenceContextCandidate)).

Definition admit_tier (budget : Z) (s : EvidenceAllocation * Lanes * bool) (tier : EvidenceContextTier)
    : ctl EvidenceContextError (EvidenceAllocation * Lanes * bool) :=
  let '(a, lanes, admitted) := s in
  let index := default 0%nat (tier_lane tier) in
  '(a, lane, ok) ← admit_from_lane budget a (default [] (lanes !! index));
  mret (a, <[index := lane]> lanes, admitted || ok).

Definition admit_round (budget : Z) (a : EvidenceAllocation) (lanes : Lanes)
    : ctl EvidenceContextError (EvidenceAllocation * Lanes * bool) :=
  ctl_fold (admit_tier budget) (a, lanes, false) EVIDENCE_TIERS.

(** [while admit_round(...)? {}].  A round that admits removes a candidate from a lane, so
    one more turn than there are candidates is enough. *)
Fixpoint admit_rounds (fuel : nat) (budget : Z) (a : EvidenceAllocation) (lanes : Lanes)
    : ctl EvidenceContextError EvidenceAllocation :=
  match fuel with
  | O => mret a
  | S fuel =>
      '(a, lanes, admitted) ← admit_round budget a lanes;
      if admitted : bool then admit_rounds fuel budget a lanes else mret a
  end.

Definition lane_ordering (l r : EvidenceContextCandidate) : comparison :=
  then_with (then_with (cmp (cand_provider_rank l) (cand_provider_rank r))
               (cmp (cand_estimated_units l) (cand_estimated_units r)))
    (cmp (cand_identity l) (cand_identity r)).

Definition push_lane (lanes : Lanes) (c : EvidenceContextCandidate) : result EvidenceContextError Lanes :=
  lane ← ok_or (tier_lane (cand_tier c)) ContextInvalidInput;
  Ok (<[lane := default [] (lanes !! lane) ++ [c]]> lanes).

Definition omissions_of (counts : list Z) : list EvidenceContextOmission :=
  omap (λ '(tier, count), if count =? 0 then None else Some {| omission_tier := tier; omission_count := count |})
    (zip (Anchor :: EVIDENCE_TIERS) counts).

Definition compile_evidence_context (profile : EvidenceContextProfile) (input : EvidenceContextInput) (budget : Z)
    : ctl EvidenceContextError EvidenceContextResult :=
  check;;
  lanes ← lift (try_fold push_lane (repeat [] 7) (input_candidates input));
  let lanes := sort_by lane_ordering <$> lanes in
  a ← match input_anchor input with
      | Some anchor => '(a, _) ← try_admit budget allocation_new anchor; mret a
      | None => mret allocation_new
      end : ctl EvidenceContextError EvidenceAllocation;
  a ← admit_rounds (S (length (input_candidates input))) budget a lanes;
  mret {| result_profile := profile; result_scope := input_scope input; result_budget := budget;
          result_used_units := alloc_used_units a; result_items := alloc_items a;
          result_provider_coverage := input_provider_coverage input;
          result_omissions := omissions_of (alloc_omissions a) |}.
End context.
Arguments EvidenceContextCandidate T : clear implicits.
Arguments EvidenceContextInput T : clear implicits.
Arguments EvidenceContextResult T : clear implicits.
Arguments EvidenceAllocation T : clear implicits.
