(* ===== verification/EvidenceAllocation.v ===== *)
(** * What an evidence-balanced allocation admits

    Properties of [compile_evidence_context]
    ([crates/repowitness-analysis/src/evidence_context.rs]): every candidate is admitted whole
    or counted as omitted, the budget is respected, nothing that still fits is left out, and
    the tiers take turns. *)

From Stdlib Require Import ZArith Lia ZifyBool.
From Stdlib Require Import Strings.Byte.
From stdpp Require Import base numbers sorting sets list.
From S2P Require Import Prelude Ordering EvidenceContext.

Open Scope Z_scope.

(** ** Lanes *)

Lemma insert_lookup_concat {A} (ls : list (list A)) i l l' :
  ls !! i = Some l → ∃ rest, concat ls ≡ₚ l ++ rest ∧ concat (<[i := l']> ls) ≡ₚ l' ++ rest.
Proof.
  revert i. induction ls as [|l0 ls IH]; intros [|i] Hi; [done..| |]; simpl in *.
  - injection Hi as ->. by exists (concat ls).
  - destruct (IH i Hi) as (rest & H1 & H2). exists (l0 ++ rest). rewrite H1, H2, !app_assoc.
    split; apply Permutation_app; (done || apply Permutation_app_comm).
Qed.

Lemma tier_lane_index t i : tier_lane t = Some i ↔ tier_index t = S i.
Proof. destruct t; simpl; split; intros H; (done || by injection H as <-). Qed.

Lemma tier_index_inj t t' : tier_index t = tier_index t' → t = t'.
Proof. by destruct t, t'. Qed.

Section allocation.
Context {T : Type}.
Notation Candidate := (EvidenceContextCandidate T).
Notation Allocation := (EvidenceAllocation T).

Definition units_of (cs : list Candidate) : Z := foldr (λ c n, cand_estimated_units c + n) 0 cs.
Definition tier_count (t : EvidenceContextTier) (cs : list Candidate) : Z :=
  Z.of_nat (length (filter (λ c, cand_tier c = t) cs)).

Lemma units_of_app cs cs' : units_of (cs ++ cs') = units_of cs + units_of cs'.
Proof. induction cs as [|c cs IH]; simpl; [done|]. rewrite IH. lia. Qed.

Lemma tier_count_app t cs cs' : tier_count t (cs ++ cs') = tier_count t cs + tier_count t cs'.
Proof. unfold tier_count. rewrite filter_app, length_app. lia. Qed.

Lemma tier_count_length t cs : 0 ≤ tier_count t cs ≤ Z.of_nat (length cs).
Proof. unfold tier_count. pose proof (length_filter (λ c, cand_tier c = t) cs). lia. Qed.

Lemma tier_count_snoc t cs c : tier_count t (cs ++ [c]) = tier_count t cs + (if bool_decide (cand_tier c = t) then 1 else 0).
Proof.
  rewrite tier_count_app. f_equal. unfold tier_count. rewrite filter_cons, filter_nil. case_bool_decide.
  - by rewrite decide_True.
  - by rewrite decide_False.
Qed.

Lemma tier_counts_insert cs c :
  <[tier_index (cand_tier c) := tier_count (cand_tier c) cs + 1]> ((λ t, tier_count t cs) <$> Anchor :: EVIDENCE_TIERS) =
  (λ t, tier_count t (cs ++ [c])) <$> Anchor :: EVIDENCE_TIERS.
Proof.
  unfold EVIDENCE_TIERS. csimpl. rewrite !tier_count_snoc. destruct (cand_tier c); simpl; by rewrite !Z.add_0_r.
Qed.

Notation Lanes := (list (list Candidate)).

Definition lane_of (lanes : Lanes) (t : EvidenceContextTier) : list Candidate :=
  default [] (tier_lane t ≫= (lanes !!.)).

(** Seven lanes, each of the candidates of its tier. *)
Record lanes_wf (lanes : Lanes) : Prop := {
  lanes_length : length lanes = 7%nat;
  lanes_tier t : Forall (λ c, cand_tier c = t) (lane_of lanes t);
}.

(** What has been admitted of a tier, followed by what is left of its lane, is in the order
    of its lane. *)
Definition in_order (a : Allocation) (lanes : Lanes) : Prop :=
  ∀ t, t ≠ Anchor → StronglySorted (cle lane_ordering) (filter (λ c, cand_tier c = t) (alloc_items a) ++ lane_of lanes t).

(** The tiers of one round, each at most once, in the order of the tiers. *)
Definition tiers_increasing (round : list Candidate) : Prop :=
  StronglySorted (λ c c', (tier_index (cand_tier c) < tier_index (cand_tier c'))%nat) round.

Lemma lane_of_insert (lanes : Lanes) t t' i lane :
  length lanes = 7%nat → tier_lane t = Some i →
  lane_of (<[i := lane]> lanes) t' = if decide (t' = t) then lane else lane_of lanes t'.
Proof.
  intros Hl Hi. unfold lane_of. destruct (decide (t' = t)) as [->|Hne].
  - rewrite Hi. simpl. rewrite list_lookup_insert_eq; [done|]. rewrite Hl. destruct t; simpl in Hi; (done || injection Hi; lia).
  - destruct (tier_lane t') as [i'|] eqn:E; [|done]. simpl. rewrite list_lookup_insert_ne; [done|].
    intros ->. apply Hne, tier_index_inj. apply tier_lane_index in Hi, E. congruence.
Qed.

Lemma sorted_remove {A} (R : A → A → Prop) xs skipped ys :
  StronglySorted R (xs ++ skipped ++ ys) → StronglySorted R (xs ++ ys).
Proof.
  intros H. induction xs as [|x xs IH]; simpl in *.
  - induction skipped as [|s skipped IH]; [done|]. simpl in H. inversion H; subst. auto.
  - inversion H as [|? ? Hs Hf]; subst. constructor; [auto|].
    apply Forall_app in Hf as [? [_ ?]%Forall_app]. by apply Forall_app.
Qed.

Lemma in_order_step a a' lanes t i skipped c lane :
  lanes_wf lanes → in_order a lanes → tier_lane t = Some i → lane_of lanes t = skipped ++ c :: lane →
  alloc_items a' = alloc_items a ++ [c] → in_order a' (<[i := lane]> lanes).
Proof.
  intros [Hlen Ht] Ho Hi Hlane Hit t' Ht'. specialize (Ho t' Ht'). rewrite Hit, filter_app, filter_cons, filter_nil.
  rewrite (lane_of_insert lanes t) by done. specialize (Ht t). rewrite Hlane, Forall_app, Forall_cons in Ht.
  destruct Ht as (_ & Htc & _). destruct (decide (t' = t)) as [->|Hne].
  - rewrite decide_True by done. rewrite Hlane in Ho. apply (sorted_remove _ _ skipped) in Ho. by rewrite <- app_assoc.
  - rewrite decide_False by congruence. by rewrite app_nil_r.
Qed.

Lemma in_order_drop a a' lanes t i :
  lanes_wf lanes → in_order a lanes → tier_lane t = Some i → alloc_items a' = alloc_items a →
  in_order a' (<[i := []]> lanes).
Proof.
  intros [Hlen _] Ho Hi Hit t' Ht'. specialize (Ho t' Ht'). rewrite Hit, (lane_of_insert lanes t) by done.
  destruct (decide (t' = t)) as [->|]; [|done]. rewrite <- (app_nil_r (lane_of lanes t)) in Ho. by apply sorted_remove in Ho.
Qed.

Lemma lanes_wf_insert lanes t i lane skipped :
  lanes_wf lanes → tier_lane t = Some i → lane_of lanes t = skipped ++ lane → lanes_wf (<[i := lane]> lanes).
Proof.
  intros [Hlen Ht] Hi Hlane. split; [by rewrite length_insert|]. intros t'. rewrite (lane_of_insert lanes t) by done.
  destruct (decide (t' = t)) as [->|]; [|done]. specialize (Ht t). rewrite Hlane, Forall_app in Ht. by destruct Ht.
Qed.

Lemma lane_of_lookup lanes t i : lanes_wf lanes → tier_lane t = Some i → lanes !! i = Some (lane_of lanes t).
Proof.
  intros [Hlen _] Hi. unfold lane_of. rewrite Hi. simpl. destruct (lanes !! i) eqn:E; [done|].
  apply lookup_ge_None in E. rewrite Hlen in E. destruct t; simpl in Hi; (done || injection Hi; lia).
Qed.

Lemma tiers_increasing_snoc round c :
  tiers_increasing round → (∀ c', c' ∈ round → (tier_index (cand_tier c') < tier_index (cand_tier c))%nat) →
  tiers_increasing (round ++ [c]).
Proof.
  intros Hs Hc. induction Hs as [|c0 round Hs IH Hf]; simpl; [by repeat constructor|].
  constructor; [apply IH; intros; apply Hc; by right|]. apply Forall_app. split; [done|].
  constructor; [|done]. apply Hc. by left.
Qed.

Lemma lane_of_tier (lanes : Lanes) t : lane_of lanes t ≠ [] → t ∈ EVIDENCE_TIERS.
Proof. unfold lane_of, EVIDENCE_TIERS. destruct t; simpl; [done|intros _; set_solver..]. Qed.

Lemma empty_lanes (lanes : Lanes) :
  lanes_wf lanes → (∀ t, t ∈ EVIDENCE_TIERS → lane_of lanes t = []) → concat lanes = [].
Proof.
  intros [Hlen _] H. unfold lane_of in H.
  do 7 (destruct lanes as [|? lanes]; [done|]). destruct lanes; [|done].
  pose proof (H PreciseOverlay ltac:(set_solver)). pose proof (H Syntax ltac:(set_solver)).
  pose proof (H Structural ltac:(set_solver)). pose proof (H References ltac:(set_solver)).
  pose proof (H Memory ltac:(set_solver)). pose proof (H History ltac:(set_solver)).
  pose proof (H Unresolved ltac:(set_solver)). simpl in *. by subst.
Qed.

(** ** The allocation *)

Context (budget : Z) (all : list Candidate).
Context (Hbudget : 0 ≤ budget) (Hall : Z.of_nat (length all) < u64_max).
Context (Hunits : Forall (λ c, 0 < cand_estimated_units c) all).

(** The one failure: the units of some candidate on top of the budget are beyond 64 bits. *)
Definition unrepresentable (e : EvidenceContextError) : Prop :=
  e = CountNotRepresentable ∧ ∃ c, c ∈ all ∧ u64_max < budget + cand_estimated_units c.

(** The state of an allocation that has yet to consider [rest] and has passed over [omitted]. *)
Record allocated (a : Allocation) (rest omitted : list Candidate) : Prop := {
  al_all : alloc_items a ++ omitted ++ rest ≡ₚ all;
  al_used : alloc_used_units a = units_of (alloc_items a);
  al_budget : alloc_used_units a ≤ budget;
  al_omissions : alloc_omissions a = (λ t, tier_count t omitted) <$> Anchor :: EVIDENCE_TIERS;
  al_full : Forall (λ c, budget < alloc_used_units a + cand_estimated_units c) omitted;
}.

Lemma allocated_rest a rest rest' omitted :
  rest ≡ₚ rest' → allocated a rest omitted → allocated a rest' omitted.
Proof. intros Hr [Ha ? ? ? ?]. split; try done. by rewrite <- Hr. Qed.

Lemma units_of_nonneg cs : (∀ c, c ∈ cs → c ∈ all) → 0 ≤ units_of cs.
Proof.
  intros H. induction cs as [|c cs IH]; simpl; [done|].
  rewrite Forall_forall in Hunits. pose proof (Hunits c (H c ltac:(left))).
  assert (0 ≤ units_of cs) by (apply IH; intros; apply H; by right). lia.
Qed.

Lemma alloc_new_allocated : allocated allocation_new all [].
Proof. by split. Qed.

Lemma omit_allocated a c rest omitted :
  allocated a (c :: rest) omitted → budget < alloc_used_units a + cand_estimated_units c →
  ∃ a', omit a (cand_tier c) = Ok a' ∧ alloc_items a' = alloc_items a ∧ allocated a' rest (omitted ++ [c]).
Proof.
  intros [Ha Hu Hb Ho Hf] Hc. unfold omit.
  assert (alloc_omissions a !! tier_index (cand_tier c) = Some (tier_count (cand_tier c) omitted)) as Hi
    by (rewrite Ho; by destruct (cand_tier c)).
  rewrite Hi. simpl. pose proof (tier_count_length (cand_tier c) omitted).
  assert (length omitted ≤ length all)%nat.
  { apply Permutation_length in Ha. rewrite !length_app in Ha. lia. }
  unfold u64_checked_add. rewrite checked_in by lia. simpl. eexists. split; [done|]. simpl. split; [done|].
  split; simpl; [by rewrite <- app_assoc|done|done| |].
  - rewrite Ho. apply tier_counts_insert.
  - apply Forall_app. by split; [|constructor].
Qed.

(** One candidate is admitted whole when it fits, and passed over otherwise. *)
Lemma try_admit_wp a c rest omitted :
  allocated a (c :: rest) omitted →
  wp (try_admit budget a c)
    (λ '(a', ok),
       if ok : bool then alloc_items a' = alloc_items a ++ [c] ∧ allocated a' rest omitted
       else alloc_items a' = alloc_items a ∧ allocated a' rest (omitted ++ [c]))
    unrepresentable.
Proof.
  intros Hal. pose proof Hal as [Ha Hu Hb Ho Hf].
  assert (c ∈ all) as Hc by (rewrite <- Ha; set_solver).
  pose proof (proj1 (Forall_forall _ _) Hunits c Hc) as Hpos. cbn beta in Hpos.
  assert (0 ≤ units_of (alloc_items a)) by (apply units_of_nonneg; intros; rewrite <- Ha; set_solver).
  apply wp_check_bind. unfold u64_checked_add.
  destruct (checked u64_max (alloc_used_units a + cand_estimated_units c)) as [next|] eqn:En.
  2: { apply checked_None in En. intros n. split; [done|]. exists c. split; [done|lia]. }
  apply checked_Some in En as [-> _]. eapply wp_lift_bind; [done|].
  destruct (Z.ltb_spec budget (alloc_used_units a + cand_estimated_units c)) as [Hlt|Hge].
  - destruct (omit_allocated a c rest omitted Hal Hlt) as (a' & Hom & Hit & Hal').
    eapply wp_lift_bind; [done|]. by apply wp_ret.
  - apply wp_ret. simpl. split; [done|]. split; simpl; [|rewrite units_of_app; simpl; lia|lia|done|].
    + rewrite <- app_assoc. rewrite <- Ha. apply Permutation_app_head. simpl.
      by rewrite Permutation_middle.
    + eapply Forall_impl; [done|]. simpl. lia.
Qed.

(** A lane is popped until one of its candidates is admitted. *)
Lemma admit_from_lane_wp lane a rest omitted :
  allocated a (lane ++ rest) omitted →
  wp (admit_from_lane budget a lane)
    (λ '(a', lane', ok), ∃ skipped omitted',
       allocated a' (lane' ++ rest) omitted'
       ∧ if ok : bool then ∃ c, lane = skipped ++ c :: lane' ∧ alloc_items a' = alloc_items a ++ [c]
         else lane' = [] ∧ alloc_items a' = alloc_items a)
    unrepresentable.
Proof.
  revert a omitted. induction lane as [|c lane IH]; intros a omitted Hal; cbn [admit_from_lane].
  - apply wp_ret. by exists [], omitted.
  - eapply wp_bind; [by apply try_admit_wp|]. intros [a1 []] [Hit Hal1].
    + apply wp_ret. exists [], omitted. split; [done|]. by exists c.
    + eapply wp_mono; [by eapply IH|]. intros [[a2 lane2] ok] (skipped & omitted' & Hal2 & H).
      exists (c :: skipped), omitted'. split; [done|]. destruct ok.
      * destruct H as (c' & -> & Hit'). exists c'. split; [done|]. congruence.
      * destruct H as [-> Hit']. split; [done|congruence].
Qed.

(** The state within a round that began with [a0] and [lanes0], has yet to visit the tiers
    [ts] and has admitted [round]. *)
Record in_round (a0 : Allocation) (lanes0 : Lanes) (a : Allocation) (lanes : Lanes) (ts : list EvidenceContextTier)
    (omitted round : list Candidate) : Prop := {
  rnd_allocated : allocated a (concat lanes) omitted;
  rnd_wf : lanes_wf lanes;
  rnd_order : in_order a lanes;
  rnd_items : alloc_items a = alloc_items a0 ++ round;
  rnd_tiers : tiers_increasing round;
  rnd_next : ∀ c t, c ∈ round → t ∈ ts → (tier_index (cand_tier c) < tier_index t)%nat;
  rnd_ahead : ∀ t, t ∈ ts → lane_of lanes t = lane_of lanes0 t;
  rnd_visited : ∀ t, t ∈ EVIDENCE_TIERS → t ∉ ts → lane_of lanes t = [] ∨ ∃ c, c ∈ round ∧ cand_tier c = t;
  rnd_from : ∀ c, c ∈ round → lane_of lanes0 (cand_tier c) ≠ [];
  rnd_length : (length (concat lanes) + length round ≤ length (concat lanes0))%nat;
  rnd_ts : StronglySorted (λ t t', (tier_index t < tier_index t')%nat) ts ∧ (∀ t, t ∈ ts → t ∈ EVIDENCE_TIERS);
}.

Lemma evidence_tier_lane t : t ∈ EVIDENCE_TIERS → ∃ i, tier_lane t = Some i.
Proof. intros Ht. destruct t; simpl; [|eauto..]. exfalso. set_solver. Qed.

(** A tier that had nothing left to admit. *)
Lemma in_round_drop a0 lanes0 a lanes t ts omitted omitted' round a' i rest :
  in_round a0 lanes0 a lanes (t :: ts) omitted round → tier_lane t = Some i →
  alloc_items a' = alloc_items a → concat lanes ≡ₚ lane_of lanes t ++ rest → concat (<[i := []]> lanes) ≡ₚ rest →
  allocated a' rest omitted' → in_round a0 lanes0 a' (<[i := []]> lanes) ts omitted' round.
Proof.
  intros [Hal Hwf Ho Hit Htiers Hnext Hahead Hvis Hfrom Hlen [Hss Hts]] Hi Hit' Hc Hc' Hal'.
  pose proof Hwf as [Hl7 _]. inversion Hss as [|? ? Hss' Hlt]; subst. rewrite Forall_forall in Hlt. split.
  - by apply (allocated_rest _ rest).
  - eapply (lanes_wf_insert _ _ _ _ (lane_of lanes t)); [done..|by rewrite app_nil_r].
  - by eapply in_order_drop.
  - congruence.
  - done.
  - intros c t' Hc1 Ht'. apply Hnext; [done|by right].
  - intros t' Ht'. rewrite (lane_of_insert lanes t) by done. destruct (decide (t' = t)) as [->|]; [|apply Hahead; by right].
    specialize (Hlt t Ht'). lia.
  - intros t' Ht' Hn. rewrite (lane_of_insert lanes t) by done. destruct (decide (t' = t)) as [->|Hne]; [by left|].
    apply Hvis; [done|]. by intros [|]%elem_of_cons.
  - done.
  - apply Permutation_length in Hc, Hc'. rewrite length_app in Hc. lia.
  - split; [done|]. intros t' Ht'. apply Hts. by right.
Qed.

(** A tier that admitted one candidate. *)
Lemma in_round_admit a0 lanes0 a lanes t ts omitted omitted' round a' i rest skipped c lane :
  in_round a0 lanes0 a lanes (t :: ts) omitted round → tier_lane t = Some i →
  lane_of lanes t = skipped ++ c :: lane → alloc_items a' = alloc_items a ++ [c] →
  concat lanes ≡ₚ lane_of lanes t ++ rest → concat (<[i := lane]> lanes) ≡ₚ lane ++ rest →
  allocated a' (lane ++ rest) omitted' → in_round a0 lanes0 a' (<[i := lane]> lanes) ts omitted' (round ++ [c]).
Proof.
  intros [Hal Hwf Ho Hit Htiers Hnext Hahead Hvis Hfrom Hlen [Hss Hts]] Hi Hlane Hit' Hc Hc' Hal'.
  pose proof Hwf as [Hl7 Htier]. inversion Hss as [|? ? Hss' Hlt]; subst. rewrite Forall_forall in Hlt.
  assert (cand_tier c = t) as Hct.
  { specialize (Htier t). rewrite Hlane, Forall_app, Forall_cons in Htier. tauto. }
  split.
  - by apply (allocated_rest _ (lane ++ rest)).
  - eapply (lanes_wf_insert _ _ _ _ (skipped ++ [c])); [done..|by rewrite <- app_assoc].
  - by eapply in_order_step.
  - by rewrite Hit', Hit, app_assoc.
  - apply tiers_increasing_snoc; [done|]. rewrite Hct. intros c' Hc0. apply Hnext; [done|by left].
  - intros c' t' [Hc0| ->%list_elem_of_singleton]%elem_of_app Ht'; [apply Hnext; [done|by right]|].
    rewrite Hct. by apply Hlt.
  - intros t' Ht'. rewrite (lane_of_insert lanes t) by done. destruct (decide (t' = t)) as [->|]; [|apply Hahead; by right].
    specialize (Hlt t Ht'). lia.
  - intros t' Ht' Hn. rewrite (lane_of_insert lanes t) by done. destruct (decide (t' = t)) as [->|Hne].
    + right. exists c. split; [apply elem_of_app; right; by left|done].
    + destruct (Hvis t') as [H|(c' & H1 & H2)]; [done|by intros [|]%elem_of_cons|by left|].
      right. exists c'. split; [apply elem_of_app; by left|done].
  - intros c' [Hc0| ->%list_elem_of_singleton]%elem_of_app; [by apply Hfrom|].
    rewrite Hct, <- Hahead, Hlane by (by left). by destruct skipped.
  - apply Permutation_length in Hc, Hc'. rewrite Hlane in Hc. rewrite !length_app in *. simpl in *. lia.
  - split; [done|]. intros t' Ht'. apply Hts. by right.
Qed.

(** A round admits at most one candidate of each tier, in the order of the tiers. *)
Lemma admit_round_wp a lanes omitted :
  allocated a (concat lanes) omitted → lanes_wf lanes → in_order a lanes →
  wp (admit_round budget a lanes)
    (λ '(a', lanes', admitted), ∃ omitted' round,
       in_round a lanes a' lanes' [] omitted' round ∧ admitted = negb (bool_decide (round = [])))
    unrepresentable.
Proof.
  intros Hal Hwf Ho. unfold admit_round.
  eapply wp_mono; [apply (wp_fold _ (λ '(a', lanes', admitted) ts, ∃ omitted' round,
    in_round a lanes a' lanes' ts omitted' round ∧ admitted = negb (bool_decide (round = []))))|by intros [[] ]].
  - exists omitted, []. split; [|done]. split; try done; try set_solver.
    + by rewrite app_nil_r.
    + constructor.
    + simpl. lia.
    + split; [repeat constructor|done].
  - intros [[a1 lanes1] adm] t ts (om & round & Hr & ->). unfold admit_tier.
    destruct (evidence_tier_lane t) as [i Hi]; [apply (rnd_ts _ _ _ _ _ _ _ Hr); by left|]. rewrite Hi. simpl default.
    pose proof (rnd_wf _ _ _ _ _ _ _ Hr) as Hwf1.
    pose proof (lane_of_lookup _ _ _ Hwf1 Hi) as Hlook. rewrite Hlook. simpl default.
    destruct (insert_lookup_concat lanes1 i _ [] Hlook) as (rest & Hc & Hc0).
    eapply wp_bind; [apply (admit_from_lane_wp _ _ rest om)|].
    { apply (allocated_rest _ (concat lanes1)); [done|apply Hr]. }
    intros [[a2 lane2] ok] (skipped & om2 & Hal2 & H2). apply wp_ret.
    destruct ok.
    + destruct H2 as (c & Hlane & Hit). exists om2, (round ++ [c]). split.
      * destruct (insert_lookup_concat lanes1 i _ lane2 Hlook) as (rest' & Hd & Hd').
        assert (rest' ≡ₚ rest) as Hrest by (apply (Permutation_app_inv_l (lane_of lanes1 t)); by rewrite <- Hd, <- Hc).
        eapply in_round_admit; [done..|]. eapply allocated_rest; [|done]. by rewrite Hrest.
      * rewrite orb_true_r. by rewrite bool_decide_eq_false_2 by (by destruct round).
    + destruct H2 as [-> Hit]. exists om2, round. split; [|by rewrite orb_false_r].
      eapply in_round_drop; [done..|].  done.
Qed.

(** Each round only gives a turn to tiers that had one in the round before. *)
Fixpoint turns (rounds : list (list Candidate)) : Prop :=
  match rounds with
  | round :: ((next :: _) as rest) =>
      (∀ c, c ∈ next → ∃ c', c' ∈ round ∧ cand_tier c' = cand_tier c) ∧ turns rest
  | _ => True
  end.

Definition tiers_sorted (items : list Candidate) : Prop :=
  ∀ t, t ≠ Anchor → StronglySorted (cle lane_ordering) (filter (λ c, cand_tier c = t) items).

Lemma in_order_sorted a lanes : in_order a lanes → tiers_sorted (alloc_items a).
Proof.
  intros H t Ht. specialize (H t Ht). rewrite <- (app_nil_r (filter _ _)).
  eapply (sorted_remove _ _ (lane_of lanes t)). by rewrite app_nil_r.
Qed.

(** The rounds run until no candidate is left. *)
Lemma admit_rounds_wp fuel a lanes omitted :
  (length (concat lanes) < fuel)%nat →
  allocated a (concat lanes) omitted → lanes_wf lanes → in_order a lanes →
  wp (admit_rounds fuel budget a lanes)
    (λ a', ∃ omitted' rounds,
       allocated a' [] omitted' ∧ alloc_items a' = alloc_items a ++ concat rounds ∧ tiers_sorted (alloc_items a')
       ∧ Forall tiers_increasing rounds ∧ turns rounds
       ∧ match rounds with round :: _ => ∀ c, c ∈ round → lane_of lanes (cand_tier c) ≠ [] | [] => True end)
    unrepresentable.
Proof.
  revert a lanes omitted. induction fuel as [|fuel IH]; intros a lanes omitted Hfuel Hal Hwf Ho; [lia|].
  cbn [admit_rounds]. eapply wp_bind; [by eapply admit_round_wp|].
  intros [[a1 lanes1] admitted] (om & round & Hr & ->). destruct Hr as [Hal1 Hwf1 Ho1 Hit1 Ht1 _ _ Hvis Hfrom Hlen _].
  case_bool_decide as Hround; cbn [negb].
  - subst round. apply wp_ret. exists om, []. rewrite app_nil_r in Hit1 |- *.
    rewrite (empty_lanes lanes1) in Hal1; [|done|].
    + split_and!; try done. by eapply in_order_sorted.
    + intros t Ht. destruct (Hvis t Ht) as [|(c & Hc & _)]; [set_solver|done|set_solver].
  - assert (length (concat lanes1) < fuel)%nat by (destruct round; [done|]; simpl in *; lia).
    eapply wp_mono; [by eapply IH|]. intros a2 (om2 & rounds & Hal2 & Hit2 & Hs2 & Hti2 & Htu2 & Hfirst).
    exists om2, (round :: rounds). split_and!; [done| |done|by constructor| |done].
    + rewrite Hit2, Hit1. simpl. by rewrite app_assoc.
    + destruct rounds as [|next rounds]; [done|]. split; [|done]. intros c Hc.
      pose proof (Hfirst c Hc) as Hne. destruct (Hvis (cand_tier c)) as [|(c' & Hc' & E)];
        [by eapply lane_of_tier|set_solver|done|by exists c'].
Qed.
End allocation.
