(* ===== verification/EvidenceCompile.v ===== *)
(** * The compilation of an evidence context

    The lanes [compile_evidence_context] builds
    ([crates/repowitness-analysis/src/evidence_context.rs]), and the whole compilation from
    the allocation of [EvidenceAllocation]: what it returns, and that only the control can
    stop it. *)

From Stdlib Require Import ZArith Lia ZifyBool.
From Stdlib Require Import Strings.Byte.
From stdpp Require Import base numbers sorting sets list.
From S2P Require Import Prelude Ordering EvidenceContext EvidenceAllocation.

Open Scope Z_scope.

(** ** Comparators *)

#[export] Instance tier_ord_laws : RustOrdLaws EvidenceContextTier.
Proof. apply ord_by_laws. intros t t' H%Nat2Z.inj. by apply tier_index_inj. Qed.

Definition lane_key {T} (c : EvidenceContextCandidate T) : Z * Z * bytes :=
  (cand_provider_rank c, cand_estimated_units c, cand_identity c).

#[export] Instance lane_ordering_comparator {T} : Comparator (lane_ordering (T := T)) := comparator_by lane_key.

Definition attribution_key (a : EvidenceContextProviderAttribution) : bytes * EvidenceContextTier * Z :=
  (attr_provider a, attr_tier a, attr_rank a).

#[export] Instance attribution_ordering_comparator : Comparator attribution_ordering := comparator_by attribution_key.

Lemma attribution_ordering_Eq a a' : attribution_ordering a a' = Eq → a = a'.
Proof.
  intros H. assert (attribution_key a = attribution_key a') as Hk by (apply cmp_eq, H).
  destruct a, a'. unfold attribution_key in Hk. simpl in Hk. congruence.
Qed.

Section compile.
Context {T : Type}.
Notation Candidate := (EvidenceContextCandidate T).
Notation Lanes := (list (list Candidate)).

(** ** Building the lanes *)

Lemma lane_of_sorted (lanes : Lanes) t : lane_of (sort_by lane_ordering <$> lanes) t = sort_by lane_ordering (lane_of lanes t).
Proof.
  unfold lane_of. destruct (tier_lane t) as [i|]; [|done]. simpl. rewrite list_lookup_fmap. by destruct (lanes !! i).
Qed.

Lemma concat_sorted (lanes : Lanes) : concat (sort_by lane_ordering <$> lanes) ≡ₚ concat lanes.
Proof. induction lanes as [|l lanes IH]; [done|]. simpl. by rewrite IH, sort_by_perm. Qed.

Lemma push_lane_spec (lanes : Lanes) c :
  length lanes = 7%nat → cand_tier c ≠ Anchor →
  ∃ lanes', push_lane lanes c = Ok lanes' ∧ length lanes' = 7%nat ∧ concat lanes' ≡ₚ concat lanes ++ [c]
            ∧ ∀ t, lane_of lanes' t = lane_of lanes t ++ filter (λ c, cand_tier c = t) [c].
Proof.
  intros Hl Ht. destruct (tier_lane (cand_tier c)) as [i|] eqn:Hi; [|by destruct (cand_tier c)].
  unfold push_lane. rewrite Hi. simpl. eexists. split; [done|]. split; [by rewrite length_insert|].
  assert (lanes !! i = Some (lane_of lanes (cand_tier c))) as Hlook.
  { unfold lane_of. rewrite Hi. simpl. destruct (lanes !! i) eqn:E; [done|]. apply lookup_ge_None in E.
    rewrite Hl in E. destruct (cand_tier c); simpl in Hi; (done || injection Hi; lia). }
  rewrite Hlook. simpl. split.
  - destruct (insert_lookup_concat lanes i _ (lane_of lanes (cand_tier c) ++ [c]) Hlook) as (rest & -> & ->).
    rewrite <- !app_assoc. apply Permutation_app_head, Permutation_app_comm.
  - intros t. rewrite (lane_of_insert lanes (cand_tier c)) by done. rewrite filter_cons, filter_nil.
    destruct (decide (t = cand_tier c)) as [->|]; [by rewrite decide_True|].
    by rewrite decide_False, app_nil_r by congruence.
Qed.

Lemma push_lanes_spec (cs : list Candidate) (lanes : Lanes) :
  length lanes = 7%nat → Forall (λ c, cand_tier c ≠ Anchor) cs →
  ∃ lanes', try_fold push_lane lanes cs = Ok lanes' ∧ length lanes' = 7%nat ∧ concat lanes' ≡ₚ concat lanes ++ cs
            ∧ ∀ t, lane_of lanes' t = lane_of lanes t ++ filter (λ c, cand_tier c = t) cs.
Proof.
  intros Hl Hcs. revert lanes Hl. induction Hcs as [|c cs Hc _ IH]; intros lanes Hl.
  - exists lanes. split_and!; [done..|by rewrite app_nil_r|]. intros t. by rewrite filter_nil, app_nil_r.
  - destruct (push_lane_spec lanes c Hl Hc) as (l1 & E1 & Hl1 & Hp1 & Ht1).
    destruct (IH l1 Hl1) as (l2 & E2 & Hl2 & Hp2 & Ht2).
    exists l2. split_and!; [|done| |].
    + cbn [try_fold]. by rewrite E1.
    + rewrite Hp2, Hp1, <- app_assoc. done.
    + intros t. rewrite Ht2, Ht1, <- app_assoc. f_equal. rewrite !filter_cons, filter_nil. by case_decide.
Qed.

(** Every candidate of a tier is in its lane, sorted. *)
Lemma lanes_built (cs : list Candidate) :
  Forall (λ c, cand_tier c ≠ Anchor) cs →
  ∃ lanes, try_fold push_lane (repeat [] 7) cs = Ok lanes ∧ concat (sort_by lane_ordering <$> lanes) ≡ₚ cs
           ∧ lanes_wf (sort_by lane_ordering <$> lanes)
           ∧ ∀ t, lane_of (sort_by lane_ordering <$> lanes) t = sort_by lane_ordering (filter (λ c, cand_tier c = t) cs).
Proof.
  intros Hcs. destruct (push_lanes_spec cs (repeat [] 7) eq_refl Hcs) as (lanes & E & Hl & Hp & Ht).
  assert (∀ t, lane_of (sort_by lane_ordering <$> lanes) t = sort_by lane_ordering (filter (λ c, cand_tier c = t) cs)) as Hs.
  { intros t. rewrite lane_of_sorted, Ht. by destruct t. }
  exists lanes. split_and!; [done| | |done].
  - by rewrite concat_sorted, Hp.
  - split; [by rewrite length_fmap|]. intros t. rewrite Hs, sort_by_perm, Forall_forall.
    by intros c [? _]%list_elem_of_filter.
Qed.

(** ** The compilation *)

Definition input_members (input : EvidenceContextInput T) : list Candidate :=
  option_list (input_anchor input) ++ input_candidates input.

Record input_wf (input : EvidenceContextInput T) : Prop := {
  inp_anchor : ∀ c, input_anchor input = Some c → cand_tier c = Anchor;
  inp_tiers : Forall (λ c, cand_tier c ≠ Anchor) (input_candidates input);
  inp_length : Z.of_nat (length (input_members input)) < u64_max;
  inp_units : Forall (λ c, 0 < cand_estimated_units c) (input_members input);
}.

(** What was passed over, tier by tier. *)
Definition omissions_by_tier (omitted : list Candidate) : list EvidenceContextOmission :=
  omap (λ t, if tier_count t omitted =? 0 then None
             else Some {| omission_tier := t; omission_count := tier_count t omitted |}) (Anchor :: EVIDENCE_TIERS).

Lemma omissions_of_counts omitted :
  omissions_of ((λ t, tier_count t omitted) <$> Anchor :: EVIDENCE_TIERS) = omissions_by_tier omitted.
Proof.
  unfold omissions_of, omissions_by_tier. generalize (Anchor :: EVIDENCE_TIERS). intros ts.
  induction ts as [|t ts IH]; [done|]. csimpl. rewrite IH. by destruct (_ =? 0).
Qed.

Record compiled (profile : EvidenceContextProfile) (input : EvidenceContextInput T) (budget : Z)
    (r : EvidenceContextResult T) (omitted : list Candidate) (rounds : list (list Candidate)) : Prop := {
  cp_request : result_profile r = profile ∧ result_scope r = input_scope input ∧ result_budget r = budget
               ∧ result_provider_coverage r = input_provider_coverage input;
  cp_all : result_items r ++ omitted ≡ₚ input_members input;
  cp_used : result_used_units r = units_of (result_items r);
  cp_budget : result_used_units r ≤ budget;
  cp_omissions : result_omissions r = omissions_by_tier omitted;
  cp_full : Forall (λ c, budget < result_used_units r + cand_estimated_units c) omitted;
  cp_items : result_items r =
             option_list (c ← input_anchor input; if budget <? cand_estimated_units c then None else Some c) ++ concat rounds;
  cp_sorted : tiers_sorted (result_items r);
  cp_increasing : Forall tiers_increasing rounds;
  cp_turns : turns rounds;
}.

Lemma steady_try_admit budget a (c : Candidate) : steady (try_admit budget a c).
Proof. unfold try_admit. solve_steady. Qed.
Hint Resolve steady_try_admit : steady.

Lemma steady_admit_from_lane budget lane (a : EvidenceAllocation T) : steady (admit_from_lane budget a lane).
Proof. revert a. induction lane as [|c lane IH]; intros a; cbn [admit_from_lane]; solve_steady. Qed.
Hint Resolve steady_admit_from_lane : steady.

Lemma steady_admit_round budget (a : EvidenceAllocation T) lanes : steady (admit_round budget a lanes).
Proof. unfold admit_round, admit_tier. solve_steady. Qed.
Hint Resolve steady_admit_round : steady.

Lemma steady_admit_rounds budget fuel (a : EvidenceAllocation T) lanes : steady (admit_rounds fuel budget a lanes).
Proof. revert a lanes. induction fuel as [|fuel IH]; intros a lanes; cbn [admit_rounds]; solve_steady. Qed.
Hint Resolve steady_admit_rounds : steady.

Lemma steady_compile profile (input : EvidenceContextInput T) budget : steady (compile_evidence_context profile input budget).
Proof. unfold compile_evidence_context. solve_steady. Qed.

Section requested.
Context (profile : EvidenceContextProfile) (input : EvidenceContextInput T) (budget : Z).
Context (Hbudget : 0 ≤ budget) (Hwf : input_wf input).

Notation admitted_anchor :=
  (option_list (c ← input_anchor input; if budget <? cand_estimated_units c then None else Some c)).
Notation allocated_ := (allocated budget (input_members input)).

(** The anchor is considered before every candidate. *)
Lemma admit_anchor_wp :
  wp (match input_anchor input with
      | Some anchor => '(a, _) ← try_admit budget allocation_new anchor; mret a
      | None => mret allocation_new
      end)
    (λ a, ∃ omitted, allocated_ a (input_candidates input) omitted ∧ alloc_items a = admitted_anchor)
    (unrepresentable budget (input_members input)).
Proof.
  pose proof (alloc_new_allocated budget (input_members input) Hbudget) as Hnew.
  assert (input_members input = option_list (input_anchor input) ++ input_candidates input) as Hm by done.
  rewrite Hm in Hnew at 2. destruct (input_anchor input) as [c|]; simpl in Hnew |- *.
  - eapply wp_bind; [by apply (try_admit_wp _ _ Hbudget (inp_length _ Hwf) (inp_units _ Hwf) _ c (input_candidates input) [])|].
    intros [a ok] Ha.
    assert (ok = negb (budget <? cand_estimated_units c)) as ->.
    { destruct ok, Ha as [Hit [_ Hu Hb _ Hf]]; rewrite Hu, Hit in *; simpl in *.
      - destruct (Z.ltb_spec budget (cand_estimated_units c)); [lia|done].
      - inversion Hf; subst. destruct (Z.ltb_spec budget (cand_estimated_units c)); [done|lia]. }
    apply wp_ret. destruct (budget <? cand_estimated_units c); simpl in *; destruct Ha as [Hit Hal]; eauto.
  - apply wp_ret. by exists [].
Qed.

Lemma anchor_in_order (a : EvidenceAllocation T) lanes :
  alloc_items a = admitted_anchor →
  (∀ t, lane_of lanes t = sort_by lane_ordering (filter (λ c, cand_tier c = t) (input_candidates input))) →
  in_order a lanes.
Proof.
  intros Hit Hlanes t Ht. assert (filter (λ c, cand_tier c = t) (alloc_items a) = []) as ->.
  { rewrite Hit. destruct (input_anchor input) as [c|] eqn:E; [|done]. simpl. destruct (_ <? _); [done|].
    simpl. rewrite filter_cons_False, filter_nil; [done|]. rewrite (inp_anchor _ Hwf c E). congruence. }
  simpl. rewrite Hlanes. apply sort_by_sorted, _.
Qed.

Lemma compile_wp :
  wp (compile_evidence_context profile input budget) (λ r, ∃ omitted rounds, compiled profile input budget r omitted rounds)
    (unrepresentable budget (input_members input)).
Proof.
  unfold compile_evidence_context. apply wp_check_bind.
  destruct (lanes_built (input_candidates input) (inp_tiers _ Hwf)) as (lanes & El & Hp & Hlw & Ht).
  eapply wp_lift_bind; [exact El|]. eapply wp_bind; [apply admit_anchor_wp|]. intros a (om & Hal & Hit).
  eapply wp_bind.
  { apply (admit_rounds_wp budget (input_members input) Hbudget (inp_length _ Hwf) (inp_units _ Hwf) _ a _ om).
    - rewrite Hp. lia.
    - eapply allocated_rest; [|done]. by rewrite Hp.
    - done.
    - by apply anchor_in_order. }
  intros a' (om' & rounds & [Ha Hu Hb Ho Hf] & Hit' & Hs & Hi & Htu & _). apply wp_ret.
  exists om', rounds. split; simpl; try done.
  - by rewrite app_nil_r in Ha.
  - by rewrite Ho, omissions_of_counts.
  - by rewrite Hit', Hit.
Qed.

(** What the compilation comes to when nothing stops it. *)
Lemma compile_outcome :
  match run never (compile_evidence_context profile input budget) with
  | Ok r => ∃ omitted rounds, compiled profile input budget r omitted rounds
  | Err e => unrepresentable budget (input_members input) e
  end.
Proof.
  pose proof (compile_wp 0%nat) as Hw. unfold run.
  by destruct (compile_evidence_context profile input budget never 0%nat) as [[r n]|e].
Qed.

Lemma compile_returns :
  Forall (λ c, budget + cand_estimated_units c ≤ u64_max) (input_members input) →
  ∃ r omitted rounds,
    run never (compile_evidence_context profile input budget) = Ok r ∧ compiled profile input budget r omitted rounds.
Proof.
  intros Hu. pose proof compile_outcome as Hw. destruct (run never _) as [r|e]; [destruct Hw as (om & rounds & Hc); by exists r, om, rounds|].
  destruct Hw as (_ & c & Hc & Hlt). rewrite Forall_forall in Hu. specialize (Hu c Hc). lia.
Qed.

Lemma compile_under_control o :
  run o (compile_evidence_context profile input budget) = run never (compile_evidence_context profile input budget)
  ∨ ∃ k e, o k = Some e ∧ run o (compile_evidence_context profile input budget) = Err e.
Proof. apply steady_run, steady_compile. Qed.
End requested.
End compile.
