(* ===== verification/EvidenceGrouping.v ===== *)
(** * The grouping of duplicate candidates

    [EvidenceContextInput::try_new] ([crates/repowitness-analysis/src/evidence_context.rs])
    keeps one candidate per identity.  When it succeeds, what a group retains of its members,
    and how much of it depends on the order they arrive in. *)

From Stdlib Require Import ZArith Lia ZifyBool.
From Stdlib Require Import Strings.Byte.
From stdpp Require Import base numbers sorting sets list.
From S2P Require Import Prelude Ordering EvidenceContext EvidenceAllocation EvidenceCompile.

Open Scope Z_scope.

(** ** Pairs of a list *)

Lemma fop_snoc {A} (R : A → A → Prop) xs y :
  ForallOrdPairs R (xs ++ [y]) ↔ ForallOrdPairs R xs ∧ Forall (λ x, R x y) xs.
Proof.
  induction xs as [|x xs IH]; simpl.
  - split; [intros _; split; constructor|intros _; repeat constructor].
  - split.
    + inversion_clear 1 as [|? ? Hx Hxs]. apply IH in Hxs as [? ?].
      apply Forall_app in Hx as [Hx Hy]. inversion_clear Hy. split; by constructor.
    + intros [H1 H2]. inversion_clear H1 as [|? ? Hx Hxs]. inversion_clear H2 as [|? ? Hy Hys].
      constructor; [|by apply IH]. apply Forall_app. split; [done|]. by constructor.
Qed.

Lemma fop_perm {A} (R : A → A → Prop) xs ys :
  (∀ x y, R x y → R y x) → xs ≡ₚ ys → ForallOrdPairs R xs → ForallOrdPairs R ys.
Proof.
  intros Hsym. induction 1 as [|x xs ys Hp IH|x y xs|? ? ? ? IH1 ? IH2]; intros Hf; [done| | |auto].
  - inversion_clear Hf as [|? ? Hx Hxs]. constructor; [by rewrite <- Hp|auto].
  - inversion_clear Hf as [|? ? Hx Hxs]. inversion_clear Hxs as [|? ? Hy Hys]. inversion_clear Hx as [|? ? Hxy Hx'].
    constructor; [constructor; [by apply Hsym|done]|]. by constructor.
Qed.

Section grouping.
Context {T : Type}.
Notation Candidate := (EvidenceContextCandidate T).

Definition members (identity : bytes) (cs : list Candidate) : list Candidate :=
  filter (λ c, cand_identity c = identity) cs.

(** A candidate as [candidate_try_new] makes it: attributed to its one provider. *)
Definition one_provider (c : Candidate) : Prop :=
  ∃ p, cand_attributions c = [{| attr_provider := p; attr_tier := cand_tier c; attr_rank := cand_provider_rank c |}].

(** Two candidates that may be reported together. *)
Definition compatible (c c' : Candidate) : Prop :=
  cand_identity c = cand_identity c' → cand_estimated_units c = cand_estimated_units c' ∧ shares_provider c c' = false.

(** What a group [g] retains of its members. *)
Record group_of (ms : list Candidate) (g : Candidate) : Prop := {
  grp_scope : Forall (λ m, cand_scope m = cand_scope g) ms;
  grp_identity : Forall (λ m, cand_identity m = cand_identity g) ms;
  grp_units : Forall (λ m, cand_estimated_units m = cand_estimated_units g) ms;
  grp_attributions : cand_attributions g = sort_by attribution_ordering (concat (cand_attributions <$> ms));
  grp_tier : Forall (λ m, (tier_index (cand_tier g) ≤ tier_index (cand_tier m))%nat) ms;
  grp_payload : ∃ m, m ∈ ms ∧ cand_tier m = cand_tier g ∧ cand_payload m = cand_payload g;
  grp_rank : ∃ m, m ∈ ms ∧ cand_tier m = cand_tier g ∧ cand_provider_rank m = cand_provider_rank g;
}.

(** ** Attributions *)

Lemma sort_attributions_perm l l' : l ≡ₚ l' → sort_by attribution_ordering l = sort_by attribution_ordering l'.
Proof.
  intros Hp. apply (sorted_perm_unique attribution_ordering).
  - by rewrite !sort_by_perm.
  - intros x y _ _. apply attribution_ordering_Eq.
  - by apply sort_by_sorted, _.
  - by apply sort_by_sorted, _.
Qed.

Lemma shares_provider_spec (c c' : Candidate) :
  shares_provider c c' = true ↔
  ∃ a a', a ∈ cand_attributions c ∧ a' ∈ cand_attributions c' ∧ attr_provider a = attr_provider a'.
Proof.
  unfold shares_provider. rewrite existsb_exists. split.
  - intros (a & Ha & (a' & Ha' & E%bool_decide_eq_true_1)%existsb_exists). exists a, a'. by rewrite <- !list_elem_of_In in *.
  - intros (a & a' & Ha & Ha' & E). exists a. split; [by apply list_elem_of_In|]. apply existsb_exists. exists a'.
    split; [by apply list_elem_of_In|]. by apply bool_decide_eq_true.
Qed.

Lemma shares_provider_sym (c c' : Candidate) : shares_provider c c' = shares_provider c' c.
Proof. apply eq_true_iff_eq. rewrite !shares_provider_spec. naive_solver. Qed.

Lemma compatible_sym c c' : compatible c c' → compatible c' c.
Proof. intros H E. destruct (H (eq_sym E)). by rewrite shares_provider_sym. Qed.

(** A group shares a provider with a candidate when one of its members does. *)
Lemma group_shares ms g c :
  group_of ms g → shares_provider g c = false ↔ Forall (λ m, shares_provider m c = false) ms.
Proof.
  intros [_ _ _ Ha _ _ _]. rewrite Forall_forall. rewrite <- not_true_iff_false, shares_provider_spec. split.
  - intros Hn m Hm. apply not_true_iff_false. rewrite shares_provider_spec. intros (a & a' & H1 & H2 & E). apply Hn.
    exists a, a'. split; [|done]. rewrite Ha, elem_of_sort_by. apply list_elem_of_In, in_concat.
    exists (cand_attributions m). split; [apply list_elem_of_In, list_elem_of_fmap; eauto|by apply list_elem_of_In].
  - intros Hn (a & a' & H1 & H2 & E). rewrite Ha, elem_of_sort_by in H1. apply list_elem_of_In, in_concat in H1.
    destruct H1 as (l & (m & -> & Hm)%list_elem_of_In%list_elem_of_fmap & H1%list_elem_of_In).
    specialize (Hn m Hm). apply not_true_iff_false in Hn. apply Hn, shares_provider_spec. eauto.
Qed.

(** ** Merging *)

Lemma group_singleton c : one_provider c → group_of [c] c.
Proof.
  intros [p Hp]. split; try by repeat constructor.
  - simpl. by rewrite app_nil_r, Hp.
  - exists c. split; [by left|done].
  - exists c. split; [by left|done].
Qed.

Lemma is_less_tier t t' : is_less t t' = bool_decide (tier_index t < tier_index t')%nat.
Proof.
  unfold is_less, cmp, tier_ord, ord_by, cmp, Z_ord. case_bool_decide; destruct (Z.compare_spec (Z.of_nat (tier_index t)) (Z.of_nat (tier_index t'))); (done || lia).
Qed.

(** The choice keeps to the least tier, and to what its members say. *)
Lemma merged_choice_spec (g c : Candidate) tier rank payload :
  merged_choice g c = (tier, rank, payload) →
  (tier_index tier ≤ tier_index (cand_tier g))%nat ∧ (tier_index tier ≤ tier_index (cand_tier c))%nat
  ∧ (tier = cand_tier g ∧ payload = cand_payload g ∨ tier = cand_tier c ∧ payload = cand_payload c)
  ∧ (tier = cand_tier g ∧ rank = cand_provider_rank g ∨ tier = cand_tier c ∧ rank = cand_provider_rank c).
Proof.
  unfold merged_choice. rewrite is_less_tier.
  repeat case_bool_decide; simpl; repeat case_match; intros [= <- <- <-];
    repeat match goal with H : cand_tier c = cand_tier g |- _ => rewrite H in * end; try (split_and!; [lia|lia|tauto..]).
  destruct (Z.min_spec (cand_provider_rank g) (cand_provider_rank c)) as [[_ ->]|[_ ->]]; split_and!; (lia || tauto).
Qed.

Lemma merge_spec ms g c :
  group_of ms g → cand_identity c = cand_identity g → cand_scope c = cand_scope g →
  if decide (Forall (λ m, cand_estimated_units m = cand_estimated_units c ∧ shares_provider m c = false) ms)
  then ∃ g', merge_duplicate g c = Ok g' ∧ cand_identity g' = cand_identity g ∧ group_of (ms ++ [c]) g'
  else merge_duplicate g c = Err InvalidCandidate.
Proof.
  intros Hg Hid Hsc. pose proof (group_shares ms g c Hg) as Hsh.
  destruct Hg as [Hs Hi Hu Ha Ht (mp & Hmp & Hmpt & Hpay) (mr & Hmr & Hmrt & Hrank)].
  assert (Forall (λ m, cand_estimated_units m = cand_estimated_units c) ms ↔ cand_estimated_units g = cand_estimated_units c) as Hun.
  { rewrite Forall_forall in Hu. rewrite Forall_forall. split; [intros H; rewrite <- (H mp Hmp); by rewrite (Hu mp Hmp)|].
    intros E m Hm. by rewrite (Hu m Hm). }
  unfold merge_duplicate. destruct (decide _) as [Hc|Hc].
  - apply Forall_and in Hc as [Hc1%Hun Hc2%Hsh]. rewrite Hc1, Hc2, Z.eqb_refl. cbn [negb orb].
    destruct (merged_choice g c) as [[tier rank] payload] eqn:E. apply merged_choice_spec in E as (H1 & H2 & H3 & H4).
    eexists. split; [done|]. split; [done|]. split; simpl.
    + apply Forall_app. split; [done|by repeat constructor].
    + apply Forall_app. split; [done|by repeat constructor].
    + apply Forall_app. rewrite Hc1 in Hu. split; [done|by repeat constructor].
    + apply sort_attributions_perm. rewrite Ha, fmap_app, concat_app, sort_by_perm. simpl. by rewrite app_nil_r.
    + apply Forall_app. split; [|by repeat constructor]. eapply Forall_impl; [done|]. simpl. lia.
    + destruct H3 as [[-> ->]|[-> ->]]; [exists mp|exists c]; split_and!; try done; set_solver.
    + destruct H4 as [[-> ->]|[-> ->]]; [exists mr|exists c]; split_and!; try done; set_solver.
  - rewrite Forall_and, Hun, <- Hsh in Hc. destruct (Z.eqb_spec (cand_estimated_units g) (cand_estimated_units c)); [|done].
    simpl. destruct (shares_provider g c); [done|]. by destruct Hc.
Qed.

(** ** The grouping loop *)

Lemma members_snoc identity cs c :
  members identity (cs ++ [c]) = members identity cs ++ (if decide (cand_identity c = identity) then [c] else []).
Proof. unfold members. rewrite filter_app, filter_cons, filter_nil. done. Qed.

Lemma elem_of_members identity cs c : c ∈ members identity cs ↔ cand_identity c = identity ∧ c ∈ cs.
Proof. unfold members. by rewrite list_elem_of_filter. Qed.

Lemma group_nonempty ms g : group_of ms g → ms ≠ [].
Proof. intros [_ _ _ _ _ (m & Hm & _) _] ->. set_solver. Qed.

(** Being compatible with all is a matter of the members of the same identity. *)
Lemma compatible_members cs c :
  Forall (λ x, compatible x c) cs ↔
  Forall (λ m, cand_estimated_units m = cand_estimated_units c ∧ shares_provider m c = false) (members (cand_identity c) cs).
Proof.
  rewrite !Forall_forall. split.
  - intros H m [Hid Hm]%elem_of_members. by apply H.
  - intros H x Hx Hid. apply H, elem_of_members. done.
Qed.

(** The candidates may be grouped beside the identities [taken]. *)
Definition groupable (taken : list bytes) (cs : list Candidate) : Prop :=
  Forall (λ c, cand_identity c ∉ taken) cs ∧ ForallOrdPairs compatible cs.

Record grouping (taken : list bytes) (cs : list Candidate) (s : list bytes * list (bytes * Candidate)) : Prop := {
  gr_identities : bset_wf s.1;
  gr_seen id : id ∈ s.1 ↔ id ∈ taken ∨ ∃ c, c ∈ cs ∧ cand_identity c = id;
  gr_map : bmap_wf s.2;
  gr_groups id : match bmap_get id s.2 with
                 | None => members id cs = []
                 | Some g => cand_identity g = id ∧ group_of (members id cs) g
                 end;
}.

Lemma groupable_snoc taken cs c :
  groupable taken (cs ++ [c]) ↔
  groupable taken cs ∧ cand_identity c ∉ taken ∧ Forall (λ x, compatible x c) cs.
Proof. unfold groupable. rewrite Forall_app, fop_snoc, Forall_singleton. tauto. Qed.

(** A group, new or extended, takes its place in the map. *)
Lemma grouping_insert taken cs s c g :
  grouping taken cs s → cand_identity g = cand_identity c → group_of (members (cand_identity c) (cs ++ [c])) g →
  grouping taken (cs ++ [c]) (bset_insert (cand_identity c) s.1, bmap_insert (cand_identity c) g s.2).
Proof.
  intros [Hi Hs Hm Hg] Hid Hgo. split; simpl.
  - by apply bset_insert_wf.
  - intros id. rewrite elem_of_bset_insert, Hs. set_solver.
  - by apply bmap_insert_wf.
  - intros id. rewrite bmap_get_insert by done. destruct (decide (id = cand_identity c)) as [->|Hne]; [done|].
    specialize (Hg id). rewrite members_snoc, decide_False, app_nil_r by congruence. exact Hg.
Qed.

Context (scope : EvidenceContextScope).

Lemma group_candidate_spec taken cs s c :
  groupable taken cs → grouping taken cs s → one_provider c → Forall (λ x, cand_scope x = scope) (cs ++ [c]) →
  match group_candidate s c with
  | Ok s' => groupable taken (cs ++ [c]) ∧ grouping taken (cs ++ [c]) s'
  | Err e => e = InvalidCandidate ∧ ¬ groupable taken (cs ++ [c])
  end.
Proof.
  intros Hok Hst Hone Hsc. destruct s as [ids grouped]. pose proof Hst as [Hi Hs Hm Hg]. simpl in *.
  unfold group_candidate. specialize (Hg (cand_identity c)). pose proof (compatible_members cs c) as Hcm.
  pose proof (members_snoc (cand_identity c) cs c) as Hmem. rewrite decide_True in Hmem by done.
  pose proof (groupable_snoc taken cs c) as Hsnoc. rewrite Hcm in Hsnoc. destruct (bmap_get (cand_identity c) grouped) as [g|] eqn:Eg.
  - destruct Hg as [Hid Hgo]. pose proof (group_nonempty _ _ Hgo) as Hne.
    assert (cand_identity c ∉ taken) as Hnt.
    { destruct (members (cand_identity c) cs) as [|m ms] eqn:Em; [done|].
      assert (m ∈ members (cand_identity c) cs) as [<- Hmc]%elem_of_members by (rewrite Em; left).
      destruct Hok as [Hf _]. rewrite Forall_forall in Hf. by apply Hf. }
    assert (cand_scope c = cand_scope g) as Hscg.
    { destruct Hgo as [Hgs _ _ _ _ (m & Hmm & _) _]. rewrite Forall_forall in Hgs, Hsc. rewrite <- (Hgs m Hmm).
      apply elem_of_members in Hmm as [_ Hmm]. rewrite !Hsc; [done|set_solver..]. }
    pose proof (merge_spec _ g c Hgo (eq_sym Hid) Hscg) as Hmerge. destruct (decide _) as [Hc|Hc].
    + destruct Hmerge as (g' & -> & Hid' & Hgo'). simpl. split; [by apply Hsnoc|].
      apply (grouping_insert taken cs (ids, grouped) c g'); [done|congruence|by rewrite Hmem].
    + rewrite Hmerge. simpl. split; [done|]. rewrite Hsnoc. tauto.
  - rewrite Hg in Hmem, Hsnoc. destruct (bset_mem (cand_identity c) ids) eqn:Em; simpl.
    + split; [done|]. rewrite Hsnoc. apply bset_mem_spec, Hs in Em; [|done]. destruct Em as [Em|(c' & Hc' & E)]; [tauto|].
      assert (c' ∈ members (cand_identity c) cs) as Habs by (by apply elem_of_members). rewrite Hg in Habs. set_solver.
    + apply bset_mem_false in Em; [|done]. rewrite Hs in Em. split; [apply Hsnoc; split_and!; [done|tauto|constructor]|].
      apply (grouping_insert taken cs (ids, grouped) c c); [done|done|]. rewrite Hmem. by apply group_singleton.
Qed.

Lemma group_candidates_spec taken cs :
  bset_wf taken → Forall one_provider cs → Forall (λ x, cand_scope x = scope) cs →
  match try_fold group_candidate (taken, []) cs with
  | Ok s => groupable taken cs ∧ grouping taken cs s
  | Err e => e = InvalidCandidate ∧ ¬ groupable taken cs
  end.
Proof.
  intros Ht. induction cs as [|c cs IH] using rev_ind; intros Hone Hsc.
  - simpl. split; [by repeat constructor|]. split; simpl; [done|set_solver|constructor|done].
  - apply Forall_app in Hone as [Hone Hone']. pose proof Hsc as Hsc'. apply Forall_app in Hsc' as [Hsc1 _].
    rewrite try_fold_app. specialize (IH Hone Hsc1).
    destruct (try_fold group_candidate (taken, []) cs) as [s|e]; simpl.
    + destruct IH as [Hok Hst]. inversion_clear Hone' as [|? ? Hc _].
      pose proof (group_candidate_spec taken cs s c Hok Hst Hc Hsc) as H.
      by destruct (group_candidate s c).
    + destruct IH as [-> Hn]. split; [done|]. rewrite groupable_snoc. tauto.
Qed.

(** ** The input *)

Context (anchor : option Candidate).

(** What [try_new] demands of its candidates, one by one. *)
Definition admissible (cs : list Candidate) : Prop :=
  (∀ c, anchor = Some c → cand_tier c = Anchor ∧ cand_scope c = scope)
  ∧ Z.of_nat (length cs) ≤ MAX_EVIDENCE_CONTEXT_CANDIDATES
  ∧ Forall (λ c, cand_tier c ≠ Anchor ∧ cand_scope c = scope) cs.

Definition anchor_identities : list bytes := option_list (cand_identity <$> anchor).

(** The input [try_new] makes of the candidates. *)
Record grouped_input (cs : list Candidate) (input : EvidenceContextInput T) : Prop := {
  gi_scope : input_scope input = scope;
  gi_anchor : input_anchor input = anchor;
  gi_coverage : input_provider_coverage input = [];
  gi_increasing : keys_increasing cand_identity (input_candidates input);
  gi_every : ∀ c, c ∈ cs → ∃ g, g ∈ input_candidates input ∧ cand_identity g = cand_identity c;
  gi_groups : ∀ g, g ∈ input_candidates input → group_of (members (cand_identity g) cs) g;
}.

Lemma inadmissible_spec cs :
  match anchor with
  | Some c => negb (bool_decide (cand_tier c = Anchor)) || negb (bool_decide (cand_scope c = scope))
  | None => false
  end
  || (MAX_EVIDENCE_CONTEXT_CANDIDATES <? Z.of_nat (length cs))
  || existsb (λ c, bool_decide (cand_tier c = Anchor) || negb (bool_decide (cand_scope c = scope))) cs = false
  ↔ admissible cs.
Proof.
  unfold admissible. rewrite !orb_false_iff, Z.ltb_ge. rewrite Logic.and_assoc. f_equiv; [|f_equiv].
  - destruct anchor as [c|]; [|naive_solver]. rewrite orb_false_iff, !negb_false_iff, !bool_decide_eq_true. naive_solver.
  - rewrite <- not_true_iff_false, existsb_exists, Forall_forall. split.
    + intros Hn c Hc. split; [intros E|apply dec_stable; intros E]; apply Hn; exists c;
        (split; [by apply list_elem_of_In|]); rewrite orb_true_iff, negb_true_iff, bool_decide_eq_true, bool_decide_eq_false; tauto.
    + intros H (c & Hc%list_elem_of_In & E). destruct (H c Hc) as [H1 H2].
      rewrite orb_true_iff, negb_true_iff, bool_decide_eq_true, bool_decide_eq_false in E. tauto.
Qed.

Lemma grouping_keys taken cs s :
  grouping taken cs s → cand_identity <$> s.2.*2 = s.2.*1.
Proof.
  intros [_ _ Hm Hg]. rewrite <- list_fmap_compose. apply list_fmap_ext. intros i [id g] Hl. simpl.
  specialize (Hg id). rewrite (proj2 (bmap_get_elem id g s.2 Hm)) in Hg; [by destruct Hg|by eapply list_elem_of_lookup_2].
Qed.

Lemma input_try_new_spec cs :
  Forall one_provider cs →
  match input_try_new scope anchor cs with
  | Ok input => admissible cs ∧ groupable anchor_identities cs ∧ grouped_input cs input
  | Err ContextInvalidInput => ¬ admissible cs
  | Err e => e = InvalidCandidate ∧ admissible cs ∧ ¬ groupable anchor_identities cs
  end.
Proof.
  intros Hone. pose proof (inadmissible_spec cs) as Hadm. unfold input_try_new. destruct (_ || _ || _).
  { intros Ha. by apply Hadm in Ha. }
  assert (admissible cs) as Ha by (by apply Hadm). pose proof Ha as (_ & _ & Hcs). 
  assert (match anchor with Some c => bset_insert (cand_identity c) [] | None => [] end = anchor_identities) as ->
    by (unfold anchor_identities; by destruct anchor).
  pose proof (group_candidates_spec anchor_identities cs) as H.
  assert (bset_wf anchor_identities) as Hwf by (unfold anchor_identities; destruct anchor; repeat constructor).
  specialize (H Hwf Hone ltac:(eapply Forall_impl; [exact Hcs|]; by intros c [_ ?])).
  destruct (try_fold _ _ _) as [s|e]; simpl; [|by destruct H as [-> H]].
  destruct H as [Hok Hst]. destruct s as [ids grouped]. pose proof (grouping_keys _ _ _ Hst) as Hk. pose proof Hst as [_ _ Hm Hg].
  simpl in *. split_and!; [done..|]. split; simpl; try done.
  - unfold keys_increasing. change (map cand_identity) with (fmap (M := list) (cand_identity (T := T))). by rewrite Hk.
  - intros c Hc. specialize (Hg (cand_identity c)). destruct (bmap_get (cand_identity c) grouped) as [g|] eqn:E.
    + exists g. destruct Hg as [Hid _]. split; [|done]. apply bmap_get_elem in E; [|done]. apply list_elem_of_fmap. by exists (cand_identity c, g).
    + assert (c ∈ members (cand_identity c) cs) as Habs by (by apply elem_of_members). rewrite Hg in Habs. set_solver.
  - intros g ([id g'] & -> & Hin)%list_elem_of_fmap. simpl. specialize (Hg id).
    rewrite (proj2 (bmap_get_elem id g' grouped Hm) Hin) in Hg. destruct Hg as [-> Hg]. exact Hg.
Qed.

(** ** The order of arrival *)

#[export] Instance members_perm identity : Proper ((≡ₚ) ==> (≡ₚ)) (members identity).
Proof. intros cs cs' Hp. unfold members. by rewrite Hp. Qed.

Lemma grouping_admissible_perm cs cs' : cs ≡ₚ cs' → admissible cs → admissible cs'.
Proof. unfold admissible. by intros ->. Qed.

Lemma groupable_perm taken cs cs' : cs ≡ₚ cs' → groupable taken cs → groupable taken cs'.
Proof. intros Hp [H1 H2]. split; [by rewrite <- Hp|]. eapply fop_perm; [|done..]. apply compatible_sym. Qed.

(** What of a group does not depend on the order of its members. *)
Definition same_group (g g' : Candidate) : Prop :=
  cand_scope g = cand_scope g' ∧ cand_identity g = cand_identity g' ∧ cand_estimated_units g = cand_estimated_units g'
  ∧ cand_tier g = cand_tier g' ∧ cand_attributions g = cand_attributions g'.

Lemma group_of_same ms ms' g g' : ms ≡ₚ ms' → group_of ms g → group_of ms' g' → same_group g g'.
Proof.
  intros Hp [Hs Hi Hu Ha Ht (m & Hm & Hmt & _) _] Hg'. destruct Hg' as [Hs' Hi' Hu' Ha' Ht' (m' & Hm' & Hmt' & _) _].
  rewrite <- Hp in Hs', Hi', Hu', Ht', Hm'. rewrite Forall_forall in *. unfold same_group.
  split_and!; [by rewrite <- (Hs m Hm), Hs'|by rewrite <- (Hi m Hm), Hi'|by rewrite <- (Hu m Hm), Hu'| |].
  - apply tier_index_inj. specialize (Ht m' Hm'). specialize (Ht' m Hm). rewrite Hmt' in Ht. rewrite Hmt in Ht'. lia.
  - rewrite Ha, Ha'. apply sort_attributions_perm. by rewrite Hp.
Qed.

Lemma group_of_unique ms ms' g g' :
  ms ≡ₚ ms' → NoDup (cand_tier <$> ms) → group_of ms g → group_of ms' g' → g = g'.
Proof.
  intros Hp Hnd Hg Hg'. destruct (group_of_same _ _ _ _ Hp Hg Hg') as (E1 & E2 & E3 & E4 & E5).
  assert (∀ m m', m ∈ ms → m' ∈ ms → cand_tier m = cand_tier m' → m = m') as Hinj.
  { clear -Hnd. induction ms as [|x ms IH]; [set_solver|]. rewrite fmap_cons, NoDup_cons in Hnd. destruct Hnd as [Hx Hnd].
    intros m m' [->|Hm]%elem_of_cons [->|Hm']%elem_of_cons E; [done| | |by apply IH];
      destruct Hx; apply list_elem_of_fmap; eauto. }
  destruct Hg as [_ _ _ _ _ (m1 & H1 & T1 & P1) (m2 & H2 & T2 & R2)], Hg' as [_ _ _ _ _ (m3 & H3 & T3 & P3) (m4 & H4 & T4 & R4)].
  rewrite <- Hp in H3, H4. rewrite (Hinj m3 m1) in P3 by (done || congruence). rewrite (Hinj m4 m2) in R4 by (done || congruence).
  destruct g, g'. simpl in *. congruence.
Qed.

(** Inputs grouped from permuted candidates correspond group by group. *)
Lemma grouped_input_every cs cs' input input' g :
  cs ≡ₚ cs' → grouped_input cs input → grouped_input cs' input' → g ∈ input_candidates input →
  ∃ g', g' ∈ input_candidates input' ∧ cand_identity g' = cand_identity g ∧ group_of (members (cand_identity g) cs') g'.
Proof.
  intros Hp Hi Hi' Hg. pose proof (gi_groups _ _ Hi g Hg) as Hgo. destruct (grp_payload _ _ Hgo) as (m & [Hm Hmc]%elem_of_members & _).
  rewrite Hp in Hmc. destruct (gi_every _ _ Hi' m Hmc) as (g' & Hg' & E). exists g'.
  split_and!; [done|congruence|]. rewrite <- Hm, <- E. by apply (gi_groups _ _ Hi').
Qed.

Lemma grouped_input_identities cs cs' input input' :
  cs ≡ₚ cs' → grouped_input cs input → grouped_input cs' input' →
  cand_identity <$> input_candidates input = cand_identity <$> input_candidates input'.
Proof.
  intros Hp Hi Hi'. apply (bset_ext (A := bytes)); [apply Hi|apply Hi'|]. intros id. rewrite !list_elem_of_fmap. split.
  - intros (g & -> & Hg). destruct (grouped_input_every _ _ _ _ g Hp Hi Hi' Hg) as (g' & Hg' & E & _). by exists g'.
  - intros (g & -> & Hg). symmetry in Hp. destruct (grouped_input_every _ _ _ _ g Hp Hi' Hi Hg) as (g' & Hg' & E & _). by exists g'.
Qed.

Lemma grouped_input_same cs cs' input input' :
  cs ≡ₚ cs' → grouped_input cs input → grouped_input cs' input' →
  Forall2 same_group (input_candidates input) (input_candidates input').
Proof.
  intros Hp Hi Hi'. pose proof (grouped_input_identities _ _ _ _ Hp Hi Hi') as Hids.
  apply Forall2_same_length_lookup. split; [by rewrite <- (length_fmap cand_identity), Hids, length_fmap|].
  intros i g g' Hg Hg'. assert (cand_identity g = cand_identity g') as E.
  { apply (f_equal (.!! i)) in Hids. rewrite !list_lookup_fmap, Hg, Hg' in Hids. by injection Hids. }
  apply list_elem_of_lookup_2 in Hg, Hg'. 
  eapply group_of_same; [|exact (gi_groups _ _ Hi g Hg)|exact (gi_groups _ _ Hi' g' Hg')]. by rewrite E, Hp.
Qed.

Lemma grouped_input_unique cs cs' input input' :
  cs ≡ₚ cs' → (∀ identity, NoDup (cand_tier <$> members identity cs)) → grouped_input cs input → grouped_input cs' input' →
  input = input'.
Proof.
  intros Hp Hnd Hi Hi'. assert (input_candidates input = input_candidates input') as Hc.
  { apply (keys_increasing_ext cand_identity); [apply Hi|apply Hi'|]. intros g. split; intros Hg.
    - destruct (grouped_input_every _ _ _ _ g Hp Hi Hi' Hg) as (g' & Hg' & E & Hgo).
      rewrite (group_of_unique (members (cand_identity g) cs) (members (cand_identity g) cs') g g'); [done|by rewrite Hp|done|by apply Hi|done].
    - pose proof (Permutation_sym Hp) as Hp'. destruct (grouped_input_every _ _ _ _ g Hp' Hi' Hi Hg) as (g' & Hg' & E & Hgo).
      rewrite <- (group_of_unique (members (cand_identity g) cs) (members (cand_identity g) cs') g' g); [done|by rewrite Hp|done|done|by apply Hi']. }
  destruct Hi as [H1 H2 H3 _ _ _], Hi' as [H1' H2' H3' _ _ _], input, input'. simpl in *. congruence.
Qed.

(** The candidate that a group has its tier and units from. *)
Lemma grouped_from cs input g :
  grouped_input cs input → g ∈ input_candidates input →
  ∃ c, c ∈ cs ∧ cand_identity c = cand_identity g ∧ cand_tier c = cand_tier g ∧ cand_estimated_units c = cand_estimated_units g.
Proof.
  intros [_ _ _ _ _ Hg] Hin. destruct (Hg g Hin) as [_ _ Hgu _ _ (m & Hm & Ht & _) _]. rewrite Forall_forall in Hgu.
  exists m. pose proof Hm as [? ?]%elem_of_members. split_and!; auto.
Qed.

(** What holds of the units of the candidates holds of those of the groups. *)
Lemma grouped_units (P : Z → Prop) cs input :
  grouped_input cs input → Forall (λ c, P (cand_estimated_units c)) (option_list anchor ++ cs) →
  Forall (λ c, P (cand_estimated_units c)) (input_members input).
Proof.
  intros Hi [Hu1 Hu2]%Forall_app. unfold input_members. rewrite (gi_anchor _ _ Hi). apply Forall_app. split; [done|].
  rewrite Forall_forall in Hu2 |- *. intros g Hin. destruct (grouped_from _ _ _ Hi Hin) as (c & Hc & _ & _ & <-). by apply Hu2.
Qed.

(** The groups of well-formed candidates are well-formed. *)
Lemma grouped_input_wf cs input :
  admissible cs → grouped_input cs input → Forall (λ c, 0 < cand_estimated_units c) (option_list anchor ++ cs) →
  input_wf input ∧ input_members input = option_list anchor ++ input_candidates input.
Proof.
  intros (Ha & Hlen & Hcs) Hi Hu. pose proof Hi as [Hs Han _ Hk He Hg].
  assert (length (input_candidates input) ≤ length cs)%nat as Hle.
  { rewrite <- (length_fmap cand_identity), <- (length_fmap (cand_identity (T := T)) cs).
    apply submseteq_length, NoDup_submseteq; [exact (bset_wf_NoDup _ Hk)|]. intros id (g & -> & Hin)%list_elem_of_fmap.
    destruct (grouped_from _ _ _ Hi Hin) as (c & Hc & <- & _). apply list_elem_of_fmap. eauto. }
  split; [|unfold input_members; by rewrite Han]. split.
  - intros c E. apply Ha. congruence.
  - rewrite Forall_forall in Hcs |- *. intros g Hin. destruct (grouped_from _ _ _ Hi Hin) as (c & Hc & _ & <- & _). by apply Hcs.
  - unfold input_members. rewrite Han, length_app. unfold MAX_EVIDENCE_CONTEXT_CANDIDATES, u64_max in *.
    destruct anchor; simpl; lia.
  - by eapply grouped_units.
Qed.
End grouping.
