(* ===== verification/EvidenceTheorems.v ===== *)
(** * Evidence contexts: what callers rely on

    The properties of [EvidenceContextInput::try_new] and [compile_evidence_context]
    ([crates/repowitness-analysis/src/evidence_context.rs]) taken together, for every
    admissible set of candidates. *)

From Stdlib Require Import ZArith Lia ZifyBool.
From Stdlib Require Import Strings.Byte.
From stdpp Require Import base numbers sorting sets list.
From S2P Require Import Prelude Ordering EvidenceContext EvidenceAllocation EvidenceCompile EvidenceGrouping.

Open Scope Z_scope.

Section theorems.
Context {T : Type}.
Notation Candidate := (EvidenceContextCandidate T).

(** The units of a candidate that the sums of an allocation can hold. *)
Definition affordable (budget : Z) (c : Candidate) : Prop :=
  0 < cand_estimated_units c ∧ budget + cand_estimated_units c ≤ u64_max.

Lemma grouped_request scope anchor (cs : list Candidate) input :
  Forall one_provider cs → input_try_new scope anchor cs = Ok input →
  Forall (λ c, 0 < cand_estimated_units c) (option_list anchor ++ cs) →
  grouped_input scope anchor cs input ∧ input_wf input ∧ input_members input = option_list anchor ++ input_candidates input.
Proof.
  intros Hone Hi Hu. pose proof (input_try_new_spec scope anchor cs Hone) as Hspec. rewrite Hi in Hspec.
  destruct Hspec as (Ha & _ & Hg). split; [done|]. by eapply grouped_input_wf.
Qed.

Lemma input_compiles scope anchor (cs : list Candidate) input profile budget :
  Forall one_provider cs → input_try_new scope anchor cs = Ok input → 0 ≤ budget →
  Forall (affordable budget) (option_list anchor ++ cs) →
  ∃ r omitted rounds, run never (compile_evidence_context profile input budget) = Ok r
                      ∧ input_anchor input = anchor ∧ input_members input = option_list anchor ++ input_candidates input
                      ∧ compiled profile input budget r omitted rounds.
Proof.
  intros Hone Hi Hb Hu. destruct (grouped_request scope anchor cs input Hone Hi) as (Hg & Hwf & Hm).
  { eapply Forall_impl; [exact Hu|]. by intros c [? _]. }
  destruct (compile_returns profile input budget Hb Hwf) as (r & om & rounds & Hr & Hc).
  { apply (grouped_units scope anchor (λ units, budget + units ≤ u64_max) cs input Hg). eapply Forall_impl; [exact Hu|]. by intros c [_ ?]. }
  exists r, om, rounds. split_and!; [done|apply Hg|done..].
Qed.

(** C8: the allocation of a grouped input, whose candidates have one provider each and some
    units, admits or counts as omitted every candidate and the anchor, whole; what it admits
    stays within the budget; the omissions are counted tier by tier; and nothing omitted would
    still fit.  It fails only when the control stops it or when the units of some candidate do
    not fit 64 bits on top of the budget, and then the error says that a count is not
    representable; so it succeeds whenever the units of each do fit. *)
Theorem context_allocation_exact scope anchor (cs : list Candidate) input profile budget :
  Forall one_provider cs → input_try_new scope anchor cs = Ok input → 0 ≤ budget →
  Forall (λ c, 0 < cand_estimated_units c) (option_list anchor ++ cs) →
  (∀ o, run o (compile_evidence_context profile input budget) = run never (compile_evidence_context profile input budget)
        ∨ ∃ k e, o k = Some e ∧ run o (compile_evidence_context profile input budget) = Err e)
  ∧ match run never (compile_evidence_context profile input budget) with
    | Ok r => ∃ omitted,
        result_items r ++ omitted ≡ₚ option_list anchor ++ input_candidates input
        ∧ result_used_units r = units_of (result_items r) ∧ result_used_units r ≤ budget
        ∧ result_omissions r = omissions_by_tier omitted
        ∧ Forall (λ c, budget < result_used_units r + cand_estimated_units c) omitted
    | Err e => e = CountNotRepresentable
               ∧ ∃ c, c ∈ option_list anchor ++ input_candidates input ∧ u64_max < budget + cand_estimated_units c
    end
  ∧ (Forall (affordable budget) (option_list anchor ++ cs) → ∃ r, run never (compile_evidence_context profile input budget) = Ok r).
Proof.
  intros Hone Hi Hb Hu. destruct (grouped_request scope anchor cs input Hone Hi Hu) as (Hg & Hwf & Hm).
  split; [apply compile_under_control|]. split.
  - pose proof (compile_outcome profile input budget Hb Hwf) as Ho. destruct (run never _) as [r|e].
    + destruct Ho as (om & rounds & []). exists om. split_and!; try done. congruence.
    + unfold unrepresentable in Ho. by rewrite Hm in Ho.
  - intros Ha. destruct (input_compiles scope anchor cs input profile budget Hone Hi Hb Ha) as (r & _ & _ & Hr & _). by exists r.
Qed.

(** C9: the anchor comes first when it fits; the rest is admitted in rounds: in each, at most
    one candidate of a tier, in the order of the tiers, and only of tiers that had a turn in
    the round before; the candidates of a tier are admitted in the order of provider rank,
    units and identity. *)
Theorem context_rounds_balanced scope anchor (cs : list Candidate) input profile budget :
  Forall one_provider cs → input_try_new scope anchor cs = Ok input → 0 ≤ budget →
  Forall (affordable budget) (option_list anchor ++ cs) →
  ∃ r rounds,
    run never (compile_evidence_context profile input budget) = Ok r
    ∧ result_items r =
        option_list (c ← anchor; if budget <? cand_estimated_units c then None else Some c) ++ concat rounds
    ∧ Forall (λ round, StronglySorted (λ c c', (tier_index (cand_tier c) < tier_index (cand_tier c'))%nat) round) rounds
    ∧ turns rounds
    ∧ (∀ t, t ≠ Anchor → StronglySorted (cle lane_ordering) (filter (λ c, cand_tier c = t) (result_items r))).
Proof.
  intros Hone Hi Hb Hu.
  destruct (input_compiles scope anchor cs input profile budget Hone Hi Hb Hu) as (r & om & rounds & Hr & Han & Hm & Hc).
  exists r, rounds. destruct Hc. rewrite Han in cp_items. by split_and!.
Qed.

(** C10: candidates are grouped exactly when each is of the scope and not of the anchor's tier
    and those of one identity agree on their units and have no provider in common, nor the
    identity of the anchor; the groups come in the order of their identities, and a group
    keeps the least tier of its members, the payload and rank of members of that tier, and
    all the attributions, sorted. *)
Theorem context_grouping_exact scope anchor (cs : list Candidate) :
  Forall one_provider cs →
  match input_try_new scope anchor cs with
  | Ok input =>
      admissible scope anchor cs
      ∧ Forall (λ c, Some (cand_identity c) ≠ cand_identity <$> anchor) cs ∧ ForallOrdPairs compatible cs
      ∧ input_scope input = scope ∧ input_anchor input = anchor
      ∧ keys_increasing cand_identity (input_candidates input)
      ∧ (∀ c, c ∈ cs → ∃ g, g ∈ input_candidates input ∧ cand_identity g = cand_identity c)
      ∧ ∀ g, g ∈ input_candidates input → group_of (members (cand_identity g) cs) g
  | Err ContextInvalidInput => ¬ admissible scope anchor cs
  | Err e => e = InvalidCandidate ∧ admissible scope anchor cs
             ∧ ¬ (Forall (λ c, Some (cand_identity c) ≠ cand_identity <$> anchor) cs ∧ ForallOrdPairs compatible cs)
  end.
Proof.
  intros Hone. pose proof (input_try_new_spec scope anchor cs Hone) as H.
  assert (∀ c : Candidate, cand_identity c ∉ anchor_identities anchor ↔ Some (cand_identity c) ≠ cand_identity <$> anchor) as Hid.
  { intros c. unfold anchor_identities. destruct anchor as [a|]; simpl; [|split; [done|intros _ ?%elem_of_nil; done]].
    rewrite list_elem_of_singleton. split; [intros Hn [= E]; auto|intros Hn E; apply Hn; congruence]. }
  assert (groupable (anchor_identities anchor) cs ↔
          Forall (λ c, Some (cand_identity c) ≠ cand_identity <$> anchor) cs ∧ ForallOrdPairs compatible cs) as Hgr.
  { unfold groupable. by setoid_rewrite Hid. }
  destruct (input_try_new scope anchor cs) as [input|e].
  - destruct H as (Ha & [? ?]%Hgr & [? ? _ ? ? ?]). by split_and!.
  - destruct e; try exact H; destruct H as (He & Ha & Hn); (discriminate He || (split_and!; [done..|by intros Hg%Hgr])).
Qed.

(** The order candidates arrive in decides neither whether they are grouped nor the error,
    nor of a group its units, tier or attributions; and it decides nothing at all when the
    candidates of one identity are of different tiers. *)
Theorem context_grouping_order scope anchor (cs cs' : list Candidate) :
  Forall one_provider cs → cs ≡ₚ cs' →
  match input_try_new scope anchor cs, input_try_new scope anchor cs' with
  | Ok input, Ok input' =>
      Forall2 same_group (input_candidates input) (input_candidates input')
      ∧ ((∀ identity, NoDup (cand_tier <$> members identity cs)) → input = input')
  | Err e, Err e' => e = e'
  | _, _ => False
  end.
Proof.
  intros Hone Hp. pose proof Hone as Hone'. rewrite Hp in Hone'.
  pose proof (input_try_new_spec scope anchor cs Hone) as H. pose proof (input_try_new_spec scope anchor cs' Hone') as H'.
  pose proof (grouping_admissible_perm scope anchor _ _ Hp). pose proof (grouping_admissible_perm scope anchor _ _ (Permutation_sym Hp)).
  pose proof (groupable_perm (anchor_identities anchor) _ _ Hp).
  pose proof (groupable_perm (anchor_identities anchor) _ _ (Permutation_sym Hp)).
  destruct (input_try_new scope anchor cs) as [input|e], (input_try_new scope anchor cs') as [input'|e'].
  - destruct H as (_ & _ & Hi), H' as (_ & _ & Hi'). split; [by eapply grouped_input_same|]. intros. by eapply grouped_input_unique.
  - destruct H as (? & ? & _). destruct e'; naive_solver.
  - destruct H' as (? & ? & _). destruct e; naive_solver.
  - destruct e, e'; naive_solver.
Qed.
End theorems.

(** ** Concrete requests *)

Definition ex_scope : EvidenceContextScope :=
  {| scope_repository := [x01]; scope_connected_workspace := [x02]; scope_workspace_view := 1; scope_source_slot := [x03];
     scope_source_epoch := 1; scope_generation := 1; scope_snapshot := [x04]; scope_manifest := [x05] |}.

(** A candidate of one provider. *)
Definition ex_candidate (tier : EvidenceContextTier) (rank units : Z) (identity provider : byte) (payload : nat)
    : EvidenceContextCandidate nat :=
  {| cand_scope := ex_scope; cand_tier := tier; cand_provider_rank := rank; cand_estimated_units := units;
     cand_identity := [identity]; cand_attributions := [{| attr_provider := [provider]; attr_tier := tier; attr_rank := rank |}];
     cand_payload := payload |}.

Lemma ex_one_provider tier rank units identity provider payload :
  one_provider (ex_candidate tier rank units identity provider payload).
Proof. by exists [provider]. Qed.

(** The request of the first test of [evidence_context.rs]: an anchor and two rounds. *)
Definition ex_anchor : EvidenceContextCandidate nat := ex_candidate Anchor 1 2 x00 x00 0.
Definition ex_candidates : list (EvidenceContextCandidate nat) :=
  [ex_candidate References 1 2 x04 x04 4; ex_candidate Syntax 2 2 x03 x03 3; ex_candidate PreciseOverlay 1 2 x01 x01 1;
   ex_candidate Syntax 1 2 x02 x02 2; ex_candidate Memory 1 9 x05 x05 5].

Definition ex_input : EvidenceContextInput nat :=
  default {| input_scope := ex_scope; input_anchor := None; input_candidates := []; input_provider_coverage := [] |}
    (ok_value (input_try_new ex_scope (Some ex_anchor) ex_candidates)).

Example ex_compiled :
  match run never (compile_evidence_context EvidenceBalancedV1 ex_input 10) with
  | Ok r => (cand_payload <$> result_items r, result_used_units r, omission_tier <$> result_omissions r)
            = ([0; 1; 2; 4; 3]%nat, 10, [Memory])
  | Err _ => False
  end.
Proof. vm_compute. reflexivity. Qed.

Lemma ex_affordable : Forall (affordable 10) (option_list (Some ex_anchor) ++ ex_candidates).
Proof. repeat constructor; simpl; unfold u64_max; lia. Qed.

(** A candidate whose units fit 64 bits alone, but not on top of what is admitted already. *)
Definition ex_vast : list (EvidenceContextCandidate nat) := [ex_candidate Syntax 1 u64_max x01 x00 1].
Definition ex_vast_input : EvidenceContextInput nat :=
  match input_try_new ex_scope (Some ex_anchor) ex_vast with Ok input => input | Err _ => ex_input end.

Lemma context_allocation_exact_witness :
  (∃ r omitted,
     run never (compile_evidence_context EvidenceBalancedV1 ex_input 10) = Ok r
     ∧ result_items r ++ omitted ≡ₚ option_list (Some ex_anchor) ++ input_candidates ex_input
     ∧ result_used_units r = units_of (result_items r) ∧ result_used_units r ≤ 10
     ∧ result_omissions r = omissions_by_tier omitted
     ∧ Forall (λ c, 10 < result_used_units r + cand_estimated_units c) omitted)
  ∧ run never (compile_evidence_context EvidenceBalancedV1 ex_vast_input 10) = Err CountNotRepresentable
  ∧ ∃ c, c ∈ option_list (Some ex_anchor) ++ input_candidates ex_vast_input ∧ u64_max < 10 + cand_estimated_units c.
Proof.
  split.
  - destruct (context_allocation_exact ex_scope (Some ex_anchor) ex_candidates ex_input EvidenceBalancedV1 10) as (_ & H & Hr).
    + repeat constructor; apply ex_one_provider.
    + vm_compute. reflexivity.
    + lia.
    + eapply Forall_impl; [apply ex_affordable|]. by intros c [? _].
    + destruct (Hr ex_affordable) as [r Er]. rewrite Er in H. destruct H as (omitted & H). exists r, omitted. split; [exact Er|exact H].
  - split; [vm_compute; reflexivity|].
    destruct (context_allocation_exact ex_scope (Some ex_anchor) ex_vast ex_vast_input EvidenceBalancedV1 10) as (_ & H & _).
    + repeat constructor; apply ex_one_provider.
    + vm_compute. reflexivity.
    + lia.
    + repeat constructor; vm_compute; reflexivity.
    + destruct (run never _) as [r|e] eqn:E; [vm_compute in E; discriminate E|]. apply H.
Defined.

Lemma context_rounds_balanced_witness :
  ∃ r rounds,
    run never (compile_evidence_context EvidenceBalancedV1 ex_input 10) = Ok r
    ∧ result_items r =
        option_list (c ← Some ex_anchor; if 10 <? cand_estimated_units c then None else Some c) ++ concat rounds
    ∧ Forall (λ round, StronglySorted (λ c c', (tier_index (cand_tier c) < tier_index (cand_tier c'))%nat) round) rounds
    ∧ turns rounds
    ∧ (∀ t, t ≠ Anchor → StronglySorted (cle lane_ordering) (filter (λ c, cand_tier c = t) (result_items r))).
Proof.
  apply (context_rounds_balanced ex_scope (Some ex_anchor) ex_candidates ex_input EvidenceBalancedV1 10).
  - repeat constructor; apply ex_one_provider.
  - vm_compute. reflexivity.
  - lia.
  - apply ex_affordable.
Defined.

(** Two reports of one identity: the candidate of the lesser tier is kept. *)
Definition ex_reports : list (EvidenceContextCandidate nat) :=
  [ex_candidate Syntax 1 2 x01 x00 0; ex_candidate PreciseOverlay 3 2 x01 x01 1; ex_candidate Memory 1 2 x02 x00 2].

Lemma context_grouping_exact_witness :
  ∃ input, input_try_new ex_scope (Some ex_anchor) ex_reports = Ok input
           ∧ cand_payload <$> input_candidates input = [1; 2]%nat
           ∧ ∀ g, g ∈ input_candidates input → group_of (members (cand_identity g) ex_reports) g.
Proof.
  pose proof (context_grouping_exact ex_scope (Some ex_anchor) ex_reports) as H.
  eexists. split; [vm_compute; reflexivity|]. split; [reflexivity|].
  destruct H as (_ & _ & _ & _ & _ & _ & _ & H).
  - repeat constructor; apply ex_one_provider.
  - exact H.
Defined.

Lemma context_grouping_order_witness :
  match input_try_new ex_scope (Some ex_anchor) ex_reports, input_try_new ex_scope (Some ex_anchor) (rev ex_reports) with
  | Ok input, Ok input' =>
      Forall2 same_group (input_candidates input) (input_candidates input')
      ∧ ((∀ identity, NoDup (cand_tier <$> members identity ex_reports)) → input = input')
  | Err e, Err e' => e = e'
  | _, _ => False
  end.
Proof.
  apply (context_grouping_order ex_scope (Some ex_anchor) ex_reports (rev ex_reports)).
  - repeat constructor; apply ex_one_provider.
  - apply Permutation_rev.
Defined.

(** ** Reports of one tier

    Among duplicates of one tier the rank and the payload kept depend on the order they
    arrive in, although ADR-0036 has no arrival order affect the output. *)

(** The rank: that of the first provider is replaced when it arrives second, and met with
    the other's when it arrives first. *)
Example rank_depends_on_arrival :
  let x := ex_candidate Syntax 5 2 x01 x01 0 in
  let y := ex_candidate Syntax 1 2 x01 x02 0 in
  let ranks cs := map_err (λ _, ()) (input ← input_try_new ex_scope None cs; Ok (cand_provider_rank <$> input_candidates input)) in
  ranks [x; y] = Ok [1] ∧ ranks [y; x] = Ok [5].
Proof. by vm_compute. Qed.

(** The payload: the first provider is looked for among the attributions of every tier. *)
Example payload_depends_on_arrival :
  let w := ex_candidate Syntax 1 2 x01 x00 0 in
  let x := ex_candidate PreciseOverlay 1 2 x01 x01 1 in
  let y := ex_candidate PreciseOverlay 1 2 x01 x02 2 in
  let payloads cs := map_err (λ _, ()) (input ← input_try_new ex_scope None cs; Ok (cand_payload <$> input_candidates input)) in
  payloads [w; y; x] = Ok [2%nat] ∧ payloads [w; x; y] = Ok [1%nat].
Proof. by vm_compute. Qed.
