(* ===== verification/IdentityText.v ===== *)
(** * Texts of identities and digests

    The canonical scalars of a memory record
    ([crates/repowitness-application/src/memory_record_id_text.rs]: Crockford Base32) and of a
    repository ([repository_identity_text.rs]: uppercase Base16), and the lowercase
    hexadecimal of the digests in a memory file
    ([crates/repowitness-local/src/memory_format/canonical.rs]).  A [ [u8; N] ] is its bytes. *)

From Stdlib Require Import ZArith Lia ZifyBool.
From Stdlib Require Import Strings.Byte.
From stdpp Require Import base numbers list.
From S2P Require Import Prelude Ordering PathText.

Open Scope Z_scope.

(** ** Numbers in a base *)

(** The value of digits, the most significant first. *)
Definition digits_value (base : Z) (ds : list Z) : Z := foldl (λ v d, v * base + d) 0 ds.

(** [u128::from_be_bytes]. *)
Definition from_be_bytes (bs : bytes) : Z := digits_value 256 (byte_rank <$> bs).

Section digits.
Context (base : Z) (Hbase : 0 < base).

Lemma digits_value_snoc ds d : digits_value base (ds ++ [d]) = digits_value base ds * base + d.
Proof. unfold digits_value. by rewrite foldl_app. Qed.

Lemma digits_value_bounds ds :
  Forall (λ d, 0 ≤ d < base) ds → 0 ≤ digits_value base ds < base ^ Z.of_nat (length ds).
Proof.
  induction ds as [|d ds IH] using rev_ind; [intros _; split; [done|by apply Z.lt_0_1]|].
  rewrite Forall_app, Forall_singleton, digits_value_snoc, length_app. intros [H Hd]. specialize (IH H).
  replace (Z.of_nat (length ds + length [d])) with (Z.of_nat (length ds) + 1) by (simpl; lia).
  rewrite Z.pow_add_r, Z.pow_1_r by lia. nia.
Qed.

Lemma digits_value_app ds ds' :
  digits_value base (ds ++ ds') = digits_value base ds * base ^ Z.of_nat (length ds') + digits_value base ds'.
Proof.
  induction ds' as [|d ds' IH] using rev_ind; [rewrite app_nil_r; change (base ^ Z.of_nat (length [])) with 1; change (digits_value base []) with 0; lia|].
  rewrite app_assoc, !digits_value_snoc, IH, length_app.
  replace (Z.of_nat (length ds' + length [d])) with (Z.of_nat (length ds') + 1) by (simpl; lia).
  rewrite Z.pow_add_r, Z.pow_1_r by lia. lia.
Qed.
End digits.

Lemma be_bytes_from_be bs : be_bytes (length bs) (from_be_bytes bs) = bs.
Proof.
  unfold from_be_bytes. induction bs as [|b bs IH] using rev_ind; [done|].
  rewrite length_app, Nat.add_1_r, fmap_app. simpl fmap. rewrite digits_value_snoc.
  pose proof (byte_rank_range b). cbn [be_bytes].
  rewrite Z.div_add_l, Z.div_small, Z.add_0_r, IH by lia. f_equal. f_equal.
  rewrite <- (byte_of_rank b) at 2. unfold byte_of. by rewrite Z.add_comm, Z.mod_add by lia.
Qed.

Lemma from_be_bytes_bounds bs : 0 ≤ from_be_bytes bs < 256 ^ Z.of_nat (length bs).
Proof.
  unfold from_be_bytes. rewrite <- (length_fmap byte_rank). apply digits_value_bounds; [lia|].
  apply Forall_fmap, Forall_true. intros b. apply byte_rank_range.
Qed.

Lemma from_be_to_be n z : 0 ≤ z < 256 ^ Z.of_nat n → from_be_bytes (be_bytes n z) = z.
Proof.
  intros Hz. apply (be_bytes_inj n); [|done|].
  - pose proof (from_be_bytes_bounds (be_bytes n z)) as H. by rewrite length_be_bytes in H.
  - pose proof (be_bytes_from_be (be_bytes n z)) as H. by rewrite length_be_bytes in H.
Qed.

(** ** Memory record identities *)

Definition ID_PREFIX : bytes := b_of "mem_".
Definition PAYLOAD_BYTES : nat := 26.
Definition CROCKFORD_BASE32 : bytes := b_of "0123456789ABCDEFGHJKMNPQRSTVWXYZ".
Definition MEMORY_RECORD_ID_TEXT_BYTES : nat := 30.
Definition u128_max : Z := 2 ^ 128 - 1.

Inductive MemoryRecordIdTextError :=
| IdInvalidLength (actual_bytes : Z) | IdInvalidPrefix | IdInvalidBase32 | IdOutOfRange.

#[export] Instance id_text_error_eq_dec : EqDecision MemoryRecordIdTextError.
Proof. solve_decision. Defined.

Definition encode_digit (d : Z) : byte := nth (Z.to_nat d) CROCKFORD_BASE32 x00.

(** The loop over the payload from its end, five bits at a time. *)
Fixpoint encode_digits (n : nat) (value : Z) : bytes :=
  match n with
  | O => []
  | S n => encode_digits n (Z.shiftr value 5) ++ [encode_digit (Z.land value 31)]
  end.

Definition record_id_encode (record_id : bytes) : bytes :=
  ID_PREFIX ++ encode_digits PAYLOAD_BYTES (from_be_bytes record_id).

Definition decode_digit (b : byte) : result MemoryRecordIdTextError Z :=
  ok_or ((λ p, Z.of_nat p.1) <$> list_find (b =.) CROCKFORD_BASE32) IdInvalidBase32.

Definition decode_turn (decoded : Z) (p : nat * byte) : result MemoryRecordIdTextError Z :=
  let '(index, byte) := p in
  digit ← decode_digit byte;
  if (index =? 0)%nat && (7 <? digit) then Err IdOutOfRange
  else ok_or (v ← checked u128_max (decoded * 32); checked u128_max (v + digit)) IdOutOfRange.

(** [u128::to_be_bytes]. *)
Definition u128_be_bytes (z : Z) : bytes := be_bytes 16 z.

Definition record_id_decode (text : bytes) : result MemoryRecordIdTextError bytes :=
  if negb (length text =? MEMORY_RECORD_ID_TEXT_BYTES)%nat
  then Err (IdInvalidLength (default u64_max (u64_of_len (length text))))
  else
    payload ← ok_or (strip_prefix ID_PREFIX text) IdInvalidPrefix;
    decoded ← try_fold decode_turn 0 (zip (seq 0 (length payload)) payload);
    Ok (u128_be_bytes decoded).

(** A digit of the alphabet, and the alphabet's digits. *)
Lemma decode_encode_digit d : 0 ≤ d < 32 → decode_digit (encode_digit d) = Ok d.
Proof.
  intros Hd. assert (d ∈ Z.of_nat <$> seq 0 32) as Hin.
  { apply list_elem_of_fmap. exists (Z.to_nat d). rewrite elem_of_seq. lia. }
  clear Hd. revert d Hin. rewrite <- Forall_forall. apply (bool_decide_unpack _). vm_compute. exact I.
Qed.

Lemma decode_digit_Ok b d : decode_digit b = Ok d → 0 ≤ d < 32 ∧ encode_digit d = b.
Proof.
  intros H. assert (match decode_digit b with Ok d => bool_decide (0 ≤ d < 32 ∧ encode_digit d = b) | Err _ => true end = true) as Hall.
  { clear H. by destruct b. }
  rewrite H in Hall. by apply bool_decide_eq_true_1 in Hall.
Qed.

Lemma decode_digit_error b e : decode_digit b = Err e → e = IdInvalidBase32.
Proof. unfold decode_digit. destruct (list_find _ _); simpl; congruence. Qed.

Lemma encode_digits_value ds :
  Forall (λ d, 0 ≤ d < 32) ds → encode_digits (length ds) (digits_value 32 ds) = encode_digit <$> ds.
Proof.
  induction ds as [|d ds IH] using rev_ind; [done|].
  rewrite Forall_app, Forall_singleton. intros [H Hd]. rewrite length_app, Nat.add_1_r, fmap_app, digits_value_snoc.
  cbn [encode_digits]. rewrite Z.shiftr_div_pow2 by lia. change (2 ^ 5) with 32.
  change 31 with (Z.ones 5). rewrite Z.land_ones by lia. change (2 ^ 5) with 32.
  rewrite Z.div_add_l, Z.div_small, Z.add_0_r, IH by (done || lia).
  rewrite (Z.add_comm _ d), Z.mod_add, Z.mod_small by lia. done.
Qed.

(** Every number has digits. *)
Lemma encode_digits_digits n v :
  0 ≤ v → ∃ ds, length ds = n ∧ Forall (λ d, 0 ≤ d < 32) ds ∧ encode_digits n v = encode_digit <$> ds
                 ∧ digits_value 32 ds = v mod 32 ^ Z.of_nat n.
Proof.
  revert v. induction n as [|n IH]; intros v Hv; [exists []; by rewrite Z.mod_1_r|].
  destruct (IH (Z.shiftr v 5)) as (ds & Hl & Hf & He & Hval); [by apply Z.shiftr_nonneg|].
  exists (ds ++ [Z.land v 31]). change 31 with (Z.ones 5). rewrite Z.land_ones by lia. change (2 ^ 5) with 32.
  pose proof (Z.mod_pos_bound v 32). rewrite length_app, Forall_app, Forall_singleton, fmap_app, digits_value_snoc, Hval.
  split_and!; [simpl; lia|done|lia|lia| |].
  - cbn [encode_digits]. rewrite He. change 31 with (Z.ones 5). rewrite Z.land_ones by lia. done.
  - rewrite Z.shiftr_div_pow2 by lia. change (2 ^ 5) with 32. rewrite Nat2Z.inj_succ, Z.pow_succ_r by lia.
    rewrite (Z.mul_comm 32 (32 ^ _)), (Z.mul_comm (_ ^ _) 32), Z.rem_mul_r by lia. lia.
Qed.

(** ** The decoding loop *)

Definition id_digits (ds : list Z) : Prop := Forall (λ d, 0 ≤ d < 32) ds ∧ match ds with d :: _ => d ≤ 7 | [] => True end.

Lemma id_digits_value ds : id_digits ds → (length ds ≤ 26)%nat → 0 ≤ digits_value 32 ds ≤ u128_max.
Proof.
  intros [Hf Hd] Hl. destruct ds as [|d ds]; [by split; vm_compute|]. inversion_clear Hf as [|? ? Hd' Hf'].
  change (d :: ds) with ([d] ++ ds). rewrite digits_value_app by lia. pose proof (digits_value_bounds 32 ltac:(lia) ds Hf').
  assert (32 ^ Z.of_nat (length ds) ≤ 32 ^ 25) as Hp by (apply Z.pow_le_mono_r; simpl in Hl; lia).
  change (digits_value 32 [d]) with (0 * 32 + d).
  assert (8 * 32 ^ 25 = u128_max + 1) by reflexivity. nia.
Qed.

Lemma zip_seq_snoc (bs : bytes) b : zip (seq 0 (length (bs ++ [b]))) (bs ++ [b]) = zip (seq 0 (length bs)) bs ++ [(length bs, b)].
Proof. rewrite length_app, Nat.add_1_r, seq_S, zip_with_app by (by rewrite length_seq). done. Qed.

Lemma decode_turns_Ok payload v :
  (length payload ≤ 26)%nat →
  try_fold decode_turn 0 (zip (seq 0 (length payload)) payload) = Ok v ↔
  ∃ ds, payload = encode_digit <$> ds ∧ id_digits ds ∧ v = digits_value 32 ds.
Proof.
  revert v. induction payload as [|b payload IH] using rev_ind; intros v Hl.
  { split; [intros [= <-]; by exists []|]. intros ([|d ds] & E & _ & ->); done. }
  rewrite zip_seq_snoc, try_fold_app. rewrite length_app in Hl. simpl in Hl. split.
  - intros H. apply bind_Ok in H as (v0 & H0 & H1). apply IH in H0 as (ds & -> & Hid & ->); [|lia].
    rewrite length_fmap in *. simpl in H1. inv_ok. rename select (decode_digit b = Ok _) into Hd. apply decode_digit_Ok in Hd as [Hd <-].
    destruct (_ && _) eqn:E0; [done|]. unfold ok_or in *.
    destruct (checked u128_max (digits_value 32 ds * 32)) as [v1|] eqn:E1; [|done]. apply checked_Some in E1 as [-> _]. simpl in *.
    destruct (checked u128_max _) as [v2|] eqn:E2; [|done]. apply checked_Some in E2 as [-> _]. inv_ok.
    eexists (ds ++ [_]). rewrite fmap_app, digits_value_snoc. split_and!; [done| |done].
    destruct Hid as [Hf Hh]. split; [rewrite Forall_app, Forall_singleton; done|]. destruct ds; simpl in *; lia.
  - intros (ds & E & [Hf Hh] & ->). destruct ds as [|d ds _] using rev_ind; [by destruct payload|].
    rewrite fmap_app in E. simpl in E. apply app_inj_tail in E as [-> ->]. rewrite Forall_app, Forall_singleton in Hf. destruct Hf as [Hf Hd].
    rewrite length_fmap in *. assert (id_digits ds) as Hid by (split; [done|destruct ds; simpl in *; [done|lia]]).
    assert (id_digits (ds ++ [d])) as Hid' by (split; [by rewrite Forall_app, Forall_singleton|done]).
    rewrite (proj2 (IH (digits_value 32 ds) ltac:(lia))) by eauto. simpl. rewrite decode_encode_digit by done. simpl.
    assert ((length ds =? 0)%nat && (7 <? d) = false) as ->.
    { destruct ds; simpl in *; [lia|done]. }
    pose proof (id_digits_value _ Hid' ltac:(rewrite length_app; simpl; lia)) as Hv.
    pose proof (digits_value_bounds 32 ltac:(lia) ds Hf). rewrite digits_value_snoc in Hv |- *.
    unfold ok_or. rewrite checked_in by lia. simpl. by rewrite checked_in by lia.
Qed.

Lemma u128_bytes : 256 ^ 16 = u128_max + 1.
Proof. reflexivity. Qed.

(** Every identity is read back from its text. *)
Lemma record_id_round_trip id : length id = 16%nat → record_id_decode (record_id_encode id) = Ok id.
Proof.
  intros Hl. unfold record_id_encode, record_id_decode. pose proof (from_be_bytes_bounds id) as Hb. rewrite Hl in Hb.
  destruct (encode_digits_digits PAYLOAD_BYTES (from_be_bytes id)) as (ds & Hlen & Hf & He & Hv); [lia|].
  rewrite Z.mod_small in Hv by (change (256 ^ Z.of_nat 16) with (2 ^ 128) in Hb; change (32 ^ Z.of_nat PAYLOAD_BYTES) with (2 ^ 130); lia).
  rewrite He, length_app, length_fmap, Hlen. change (negb _) with false. cbv iota. rewrite strip_prefix_app. simpl.
  rewrite (proj2 (decode_turns_Ok (encode_digit <$> ds) (from_be_bytes id) ltac:(rewrite length_fmap, Hlen; unfold PAYLOAD_BYTES; lia))).
  { pose proof (be_bytes_from_be id) as Hbe. rewrite Hl in Hbe. change (Ok (E := MemoryRecordIdTextError) (be_bytes 16 (from_be_bytes id)) = Ok id). by rewrite Hbe. }
  exists ds. split_and!; [done| |done]. split; [done|]. destruct ds as [|d ds]; [done|]. inversion_clear Hf as [|? ? Hd Hf'].
  pose proof (digits_value_bounds 32 ltac:(lia) ds Hf') as Hb'.
  change (d :: ds) with ([d] ++ ds) in Hv. rewrite digits_value_app in Hv by lia.
  change (digits_value 32 [d]) with (0 * 32 + d) in Hv. injection Hlen as Hlen. rewrite Hlen in *.
  change (32 ^ Z.of_nat 25) with (2 ^ 125) in *. change (256 ^ Z.of_nat 16) with (8 * 2 ^ 125) in *. nia.
Qed.

(** Only the text of an identity is read. *)
Lemma record_id_canonical text id :
  record_id_decode text = Ok id → length id = 16%nat ∧ text = record_id_encode id.
Proof.
  unfold record_id_decode. destruct (length text =? MEMORY_RECORD_ID_TEXT_BYTES)%nat eqn:El; [|done]. apply Nat.eqb_eq in El.
  cbv iota. simpl negb. cbv iota. intros H. inv_ok. rename select (strip_prefix _ _ = Some _) into Hp. apply strip_prefix_Some in Hp as ->.
  rename select (try_fold _ _ _ = Ok _) into Hd. rewrite length_app in El. change (length ID_PREFIX) with 4%nat in El.
  unfold MEMORY_RECORD_ID_TEXT_BYTES in El. apply decode_turns_Ok in Hd as (ds & -> & Hid & ->); [|lia].
  rewrite length_fmap in El. pose proof (id_digits_value ds Hid ltac:(lia)) as Hv.
  split; [apply length_be_bytes|]. unfold record_id_encode, u128_be_bytes. f_equal.
  rewrite from_be_to_be by (change (256 ^ Z.of_nat 16) with (u128_max + 1); lia).
  replace PAYLOAD_BYTES with (length ds) by (unfold PAYLOAD_BYTES; lia). symmetry. apply encode_digits_value, Hid.
Qed.

(** ** Repository identities *)

Definition IDENTITY_PREFIX : bytes := b_of "rwi1:h:".
Definition REPOSITORY_IDENTITY_TEXT_BYTES : nat := 71.

Inductive RepositoryIdentityTextError :=
| RepoInvalidLength (actual_bytes : Z) | RepoInvalidPrefix | RepoInvalidBase16.

#[export] Instance repo_text_error_eq_dec : EqDecision RepositoryIdentityTextError.
Proof. solve_decision. Defined.

Definition identity_encode (identity : bytes) : bytes := IDENTITY_PREFIX ++ flat_map encode_byte identity.

(** The loop over [chunks_exact(2)]; the digits of [decode_nibble] are those of a path's. *)
Fixpoint identity_pairs (payload : bytes) : result RepositoryIdentityTextError bytes :=
  match payload with
  | h :: l :: rest =>
      high ← ok_or (decode_nibble h) RepoInvalidBase16;
      low ← ok_or (decode_nibble l) RepoInvalidBase16;
      bs ← identity_pairs rest;
      Ok (join_nibbles high low :: bs)
  | _ => Ok []
  end.

Definition identity_decode (text : bytes) : result RepositoryIdentityTextError bytes :=
  if negb (length text =? REPOSITORY_IDENTITY_TEXT_BYTES)%nat
  then Err (RepoInvalidLength (default u64_max (u64_of_len (length text))))
  else
    payload ← ok_or (strip_prefix IDENTITY_PREFIX text) RepoInvalidPrefix;
    identity_pairs payload.

(** The payloads read are those a path's text has. *)
Lemma identity_pairs_Ok payload bs : identity_pairs payload = Ok bs ↔ decode_pairs payload = Ok bs.
Proof.
  revert bs. induction payload as [|x|h l payload IH] using pair_ind; intros bs; [by split; intros [= <-]..|].
  simpl. destruct (decode_nibble h); [|done]. simpl. destruct (decode_nibble l); [|done]. simpl.
  rewrite !bind_Ok. split; intros (bs0 & H0 & [= <-]); exists bs0; split; [by apply IH|done|by apply IH|done].
Qed.

Lemma identity_decode_Ok text identity :
  identity_decode text = Ok identity ↔ length identity = 32%nat ∧ text = identity_encode identity.
Proof.
  unfold identity_decode, identity_encode. split.
  - destruct (length text =? REPOSITORY_IDENTITY_TEXT_BYTES)%nat eqn:El; [|done]. apply Nat.eqb_eq in El. simpl negb. cbv iota.
    intros H. apply bind_Ok in H as (payload & Hp & H%identity_pairs_Ok). unfold ok_or in Hp.
    destruct (strip_prefix IDENTITY_PREFIX text) as [p|] eqn:E; [|done]. injection Hp as <-.
    apply strip_prefix_Some in E as ->. rewrite length_app in El. change (length IDENTITY_PREFIX) with 7%nat in El.
    unfold REPOSITORY_IDENTITY_TEXT_BYTES in El. assert (length p = 64%nat) as Hl by lia.
    apply encode_decode_payload in H; [|by rewrite Hl]. subst p. rewrite length_flat_map_encode in Hl. split; [lia|done].
  - intros [Hl ->]. rewrite length_app, length_flat_map_encode, Hl. change (negb _) with false. cbv iota.
    rewrite strip_prefix_app. simpl. apply identity_pairs_Ok, decode_encode_payload.
Qed.

(** ** Lowercase hexadecimal *)

Definition HEX : bytes := b_of "0123456789abcdef".

Definition decode_lower_hex_nibble (b : byte) : option Z :=
  if (48 <=? byte_rank b) && (byte_rank b <=? 57) then Some (byte_rank b - 48)
  else if (97 <=? byte_rank b) && (byte_rank b <=? 102) then Some (byte_rank b - 97 + 10)
  else None.

Fixpoint lower_hex_pairs (value : bytes) : option bytes :=
  match value with
  | h :: l :: rest =>
      high ← decode_lower_hex_nibble h;
      scaled ← checked 255 (high * 16);
      low ← decode_lower_hex_nibble l;
      output ← checked 255 (scaled + low);
      decoded ← lower_hex_pairs rest;
      Some (byte_of output :: decoded)
  | _ => Some []
  end.

Definition decode_lower_hex (n : nat) (value : bytes) : option bytes :=
  if negb (length value =? n * 2)%nat then None else lower_hex_pairs value.

Definition lower_hex_byte (b : byte) : bytes :=
  [nth (Z.to_nat (Z.shiftr (byte_rank b) 4)) HEX x00; nth (Z.to_nat (Z.land (byte_rank b) 15)) HEX x00].

Definition encode_lower_hex (bs : bytes) : bytes := flat_map lower_hex_byte bs.

Lemma length_encode_lower_hex bs : length (encode_lower_hex bs) = (length bs * 2)%nat.
Proof. induction bs as [|b bs IH]; [done|]. simpl. by rewrite IH. Qed.

Lemma lower_hex_byte_pairs b rest : lower_hex_pairs (lower_hex_byte b ++ rest) = cons b <$> lower_hex_pairs rest.
Proof. destruct b; simpl; by destruct (lower_hex_pairs rest). Qed.

Lemma lower_hex_pairs_encode bs : lower_hex_pairs (encode_lower_hex bs) = Some bs.
Proof.
  induction bs as [|b bs IH]; [done|]. unfold encode_lower_hex. cbn [flat_map].
  fold (encode_lower_hex bs). by rewrite lower_hex_byte_pairs, IH.
Qed.

(** A digit determines its character. *)
Lemma lower_hex_nibble_inv b d : decode_lower_hex_nibble b = Some d → 0 ≤ d < 16 ∧ b = nth (Z.to_nat d) HEX x00.
Proof. destruct b; vm_compute; intros H; try discriminate H; injection H as <-; by repeat split. Qed.

Lemma lower_hex_byte_of h l : 0 ≤ h < 16 → 0 ≤ l < 16 →
  lower_hex_byte (byte_of (h * 16 + l)) = [nth (Z.to_nat h) HEX x00; nth (Z.to_nat l) HEX x00].
Proof.
  intros Hh Hl. unfold lower_hex_byte. rewrite byte_rank_of by lia. rewrite Z.shiftr_div_pow2 by lia.
  change (2 ^ 4) with 16. change 15 with (Z.ones 4). rewrite Z.land_ones by lia. change (2 ^ 4) with 16.
  by rewrite Z.div_add_l, Z.div_small, Z.add_0_r, (Z.add_comm _ l), Z.mod_add, Z.mod_small by lia.
Qed.

Lemma lower_hex_pairs_Some value bs :
  Nat.even (length value) = true → lower_hex_pairs value = Some bs → value = encode_lower_hex bs.
Proof.
  revert bs. induction value as [|x|h l value IH] using pair_ind; intros bs Hev Hd; [by injection Hd as <-|done|].
  cbn [lower_hex_pairs] in Hd. apply bind_Some in Hd as (high & [Hh ->]%lower_hex_nibble_inv & Hd).
  apply bind_Some in Hd as (? & [-> _]%checked_Some & Hd). apply bind_Some in Hd as (low & [Hl ->]%lower_hex_nibble_inv & Hd).
  apply bind_Some in Hd as (? & [-> _]%checked_Some & Hd). apply bind_Some in Hd as (rest & Hr & [= <-]).
  unfold encode_lower_hex. cbn [flat_map]. rewrite lower_hex_byte_of by done. simpl. do 2 f_equal. by apply IH.
Qed.

Lemma decode_lower_hex_Some n value bs :
  decode_lower_hex n value = Some bs ↔ length bs = n ∧ value = encode_lower_hex bs.
Proof.
  unfold decode_lower_hex. split.
  - destruct (length value =? n * 2)%nat eqn:El; [|done]. apply Nat.eqb_eq in El. simpl. intros H.
    assert (Nat.even (length value) = true) as Hev by (rewrite El, Nat.even_mul; by apply orb_true_r).
    apply lower_hex_pairs_Some in H as ->; [|done]. rewrite length_encode_lower_hex in El. split; [lia|done].
  - intros [Hl ->]. rewrite length_encode_lower_hex, Hl, Nat.eqb_refl. apply lower_hex_pairs_encode.
Qed.

(** ** Claims *)

(** The text of a memory record identity, and nothing else, is read back as that
    identity: 26 digits of five bits carry its 128 bits without an alias. *)
Theorem record_id_text_exact text id :
  record_id_decode text = Ok id ↔ length id = 16%nat ∧ text = record_id_encode id.
Proof.
  split; [apply record_id_canonical|]. intros [Hl ->]. by apply record_id_round_trip.
Qed.

Example record_id_golden :
  record_id_encode (be_bytes 16 0x000102030405060708090a0b0c0d0e0f) = b_of "mem_00041061050R3GG28A1C60T3GF"
  ∧ record_id_decode (b_of "mem_80000000000000000000000000") = Err IdOutOfRange
  ∧ record_id_decode (b_of "mem_0000000000000000000000000I") = Err IdInvalidBase32.
Proof. by vm_compute. Qed.

#[global] Arguments record_id_encode : simpl never.
#[global] Arguments record_id_decode : simpl never.
#[global] Arguments identity_encode : simpl never.
#[global] Arguments identity_decode : simpl never.
#[global] Arguments encode_lower_hex : simpl never.
#[global] Arguments decode_lower_hex : simpl never.
