(* ===== verification/MemoryRecord.v ===== *)
(** * Memory records

    Models [crates/repowitness-domain/src/memory.rs] with [memory/model.rs] and
    [memory/record.rs]: the validated values of an engineering-memory record and the
    construction of a record under an accepted profile.  A validated text is its characters,
    an identity or digest its bytes. *)

From Stdlib Require Import ZArith Lia ZifyBool.
From Stdlib Require Import Strings.Byte.
From stdpp Require Import base numbers sorting list.
From S2P Require Import Prelude Ordering Utf8 RepositoryPath GraphIdentity.

Open Scope Z_scope.

(** ** Bounds and errors *)

Definition MEMORY_RECORD_SCHEMA_VERSION : Z := 1.
Definition MEMORY_RECORD_PROFILE_V2_SCHEMA_VERSION : Z := 2.
Definition MEMORY_RECORD_CURRENT_SCHEMA_VERSION : Z := MEMORY_RECORD_PROFILE_V2_SCHEMA_VERSION.
Definition MAX_MEMORY_SOURCE_BYTES : Z := 8 * 1024 * 1024.
Definition MAX_MEMORY_PARENTS : Z := 8.
Definition MAX_MEMORY_EVIDENCE : Z := 16.
Definition MAX_MEMORY_RELATIONSHIPS : Z := 16.
Definition MAX_MEMORY_COMMITS : Z := 16.
Definition MAX_TITLE_BYTES : Z := 256.
Definition MAX_BODY_BYTES : Z := 16 * 1024.
Definition MAX_ACTOR_BYTES : Z := 128.
Definition MAX_PRODUCER_BYTES : Z := 128.
Definition MAX_NAME_BYTES : Z := 256.
Definition MAX_QUALIFIED_BYTES : Z := 1024.

Inductive MemoryTextField :=
| FieldTitle | FieldBody | FieldActorId | FieldAuditActorId | FieldSymbolName | FieldQualifiedName
| FieldProducerId | FieldProducerVersion.

Inductive MemoryIntegerField := EvidenceIndex | FactOrdinal | RecordedAtUnixMillis.

Inductive MemoryCollectionField := Parents | Evidence | Relationships | Commits.

Inductive MemoryRecordError :=
| InvalidSchemaVersion | InvalidRecordId | InvalidDisplayRevision
| InvalidText (field : MemoryTextField) | InvalidInteger (field : MemoryIntegerField)
| InvalidCollection (field : MemoryCollectionField)
| InvalidValidity | InvalidEvidence | InvalidTombstone.

#[export] Instance text_field_eq_dec : EqDecision MemoryTextField.
Proof. solve_decision. Defined.
#[export] Instance integer_field_eq_dec : EqDecision MemoryIntegerField.
Proof. solve_decision. Defined.
#[export] Instance collection_field_eq_dec : EqDecision MemoryCollectionField.
Proof. solve_decision. Defined.
#[export] Instance record_error_eq_dec : EqDecision MemoryRecordError.
Proof. solve_decision. Defined.

(** ** Integers *)

Definition display_revision_try_new (value : Z) : result MemoryRecordError Z :=
  if value =? 0 then Err InvalidDisplayRevision else Ok value.

Definition evidence_index_try_new (value : Z) : result MemoryRecordError Z :=
  if MAX_MEMORY_INTEROPERABLE_INTEGER <? value then Err (InvalidInteger EvidenceIndex) else Ok value.

Definition fact_ordinal_try_new (value : Z) : result MemoryRecordError Z :=
  if MAX_MEMORY_INTEROPERABLE_INTEGER <? value then Err (InvalidInteger FactOrdinal) else Ok value.

Definition i64_max : Z := 9223372036854775807.

Definition recorded_at_try_new (value : Z) : result MemoryRecordError Z :=
  if i64_max <? value then Err (InvalidInteger RecordedAtUnixMillis) else Ok value.

(** ** Texts *)

(** [(1..=limit).contains(&value.len())]. *)
Definition bounded_text (value : str) (limit : Z) : bool := (1 <=? str_len value) && (str_len value <=? limit).

Definition valid_title (value : str) : bool :=
  bounded_text value MAX_TITLE_BYTES
  && negb (existsb (λ c, existsb (Z.eqb c) [0; 0x0A; 0x0D; 0x85; 0x2028; 0x2029]) value).

Definition valid_body (value : str) : bool :=
  bounded_text value MAX_BODY_BYTES
  && negb (existsb (λ b, bool_decide (b = x00) || bool_decide (b = x0d)) (as_bytes value)).

Definition valid_source_name (value : str) (limit : Z) : bool :=
  bounded_text value limit
  && negb (existsb (λ b, bool_decide (b = x00) || bool_decide (b = x0a) || bool_decide (b = x0d)) (as_bytes value)).

Definition valid_printable_ascii (value : str) (limit : Z) : bool :=
  bounded_text value limit && forallb (between 0x20 0x7E) (as_bytes value).

Definition valid_actor (value : str) : bool := valid_printable_ascii value MAX_ACTOR_BYTES.
Definition valid_symbol_name (value : str) : bool := valid_source_name value MAX_NAME_BYTES.
Definition valid_qualified_name (value : str) : bool := valid_source_name value MAX_QUALIFIED_BYTES.
Definition valid_producer (value : str) : bool := valid_printable_ascii value MAX_PRODUCER_BYTES.

(** [define_memory_text!]: the [try_new] of each text type. *)
Definition memory_text_try_new (field : MemoryTextField) (validator : str → bool) (value : str) : result MemoryRecordError str :=
  if negb (validator value) then Err (InvalidText field) else Ok value.

Definition title_try_new := memory_text_try_new FieldTitle valid_title.
Definition body_try_new := memory_text_try_new FieldBody valid_body.
Definition actor_id_try_new := memory_text_try_new FieldActorId valid_actor.
Definition audit_actor_id_try_new := memory_text_try_new FieldAuditActorId valid_actor.
Definition symbol_name_try_new := memory_text_try_new FieldSymbolName valid_symbol_name.
Definition qualified_name_try_new := memory_text_try_new FieldQualifiedName valid_qualified_name.
Definition producer_id_try_new := memory_text_try_new FieldProducerId valid_producer.
Definition producer_version_try_new := memory_text_try_new FieldProducerVersion valid_producer.

(** ** Categories *)

Inductive MemoryKind := Decision | Failure | Fact | Procedure | Episode | Preference | Policy.

Definition is_v1 (k : MemoryKind) : bool := match k with Decision | Failure => true | _ => false end.
Definition is_v2 (k : MemoryKind) : bool :=
  match k with Decision | Failure | Fact | Procedure | Episode | Preference | Policy => true end.

Inductive MemoryProvenanceOrigin := Human.
Inductive MemoryActorKind := LocalAsserted.
Inductive MemoryAssurance := LocallyApproved.

Inductive MemoryLifecycle :=
| Active | NeedsReview | Stale | Contradicted | Superseded | Quarantined | Tombstoned.

Inductive MemoryRelationshipKind := Contradicts | Supersedes.

Inductive RustMemorySymbolKind :=
| MemFunction | MemMethod | MemStruct | MemEnum | MemUnion | MemTrait | MemModule | MemTypeAlias
| MemConstant | MemStatic | MemMacro.

#[export] Instance kind_eq_dec : EqDecision MemoryKind.
Proof. solve_decision. Defined.
#[export] Instance lifecycle_eq_dec : EqDecision MemoryLifecycle.
Proof. solve_decision. Defined.
#[export] Instance relationship_kind_eq_dec : EqDecision MemoryRelationshipKind.
Proof. solve_decision. Defined.

(** ** Commits and validity *)

Inductive MemoryCommitId := Sha1 (object : bytes) | Sha256 (object : bytes).

Inductive MemoryObjectFormat := FormatSha1 | FormatSha256.

Definition object_format (c : MemoryCommitId) : MemoryObjectFormat :=
  match c with Sha1 _ => FormatSha1 | Sha256 _ => FormatSha256 end.

Definition commit_as_bytes (c : MemoryCommitId) : bytes := match c with Sha1 bs | Sha256 bs => bs end.

Inductive MemoryObservationSource := ObservedGit (commit : MemoryCommitId) | ObservedWorktree (snapshot : bytes).

#[export] Instance commit_eq_dec : EqDecision MemoryCommitId.
Proof. solve_decision. Defined.

(** The derived orders: the variant first, then its fields. *)
Definition commit_key (c : MemoryCommitId) : Z * bytes := match c with Sha1 bs => (0, bs) | Sha256 bs => (1, bs) end.
#[export] Instance commit_ord : RustOrd MemoryCommitId := ord_by commit_key.

Inductive MemoryValidity :=
| ValidCommits (introduced_by invalidated_by : list MemoryCommitId)
| ValidWorktree (source_snapshot : bytes).

(** [has_duplicates], of a sorted slice. *)
Definition has_duplicates {A} `{EqDecision A} (values : list A) : bool := any_adjacent (λ x y, bool_decide (x = y)) values.

(** [binary_search(x).is_ok()]: the partition point holds the element. *)
Definition binary_search {A} `{RustOrd A} (x : A) (values : list A) : bool :=
  match drop (partition_point (λ y, match cmp y x with Lt => true | _ => false end) values) values with
  | y :: _ => match cmp y x with Eq => true | _ => false end
  | [] => false
  end.

Definition try_commits (introduced_by invalidated_by : list MemoryCommitId) : result MemoryRecordError MemoryValidity :=
  if bool_decide (introduced_by = []) || (MAX_MEMORY_COMMITS <? Z.of_nat (length introduced_by))
     || (MAX_MEMORY_COMMITS <? Z.of_nat (length invalidated_by))
  then Err (InvalidCollection Commits)
  else
    let introduced_by := sort_by cmp introduced_by in
    let invalidated_by := sort_by cmp invalidated_by in
    if has_duplicates introduced_by || has_duplicates invalidated_by
       || existsb (λ commit, binary_search commit invalidated_by) introduced_by
    then Err InvalidValidity
    else Ok (ValidCommits introduced_by invalidated_by).

(** ** Evidence *)

Record MemoryScope := {
  scope_of_repository : bytes;
  subject_evidence : Z;
}.

Record MemoryProvenance := {
  prov_origin : MemoryProvenanceOrigin;
  prov_actor_kind : MemoryActorKind;
  prov_actor_id : str;
}.

Record RustSymbolMemoryEvidence := {
  ev_source_snapshot : bytes;
  ev_path : RepositoryPath;
  ev_content : bytes;
  ev_artifact : bytes;
  ev_fact_ordinal : Z;
  ev_symbol_kind : RustMemorySymbolKind;
  ev_name : str;
  ev_qualified_name : str;
  ev_name_span : ByteSpan;
  ev_declaration_span : ByteSpan;
  ev_declaration_digest : bytes;
  ev_producer_id : str;
  ev_producer_version : str;
}.

(** [ByteSpan::len]. *)
Definition span_len (s : ByteSpan) : Z := span_end s - span_start s.

(** [RustSymbolMemoryEvidence::try_new]. *)
Definition evidence_try_new (e : RustSymbolMemoryEvidence) : result MemoryRecordError RustSymbolMemoryEvidence :=
  let name_span := ev_name_span e in
  let declaration_span := ev_declaration_span e in
  if span_is_empty name_span || span_is_empty declaration_span
     || (MAX_MEMORY_SOURCE_BYTES <? span_end name_span) || (MAX_MEMORY_SOURCE_BYTES <? span_end declaration_span)
     || (span_start name_span <? span_start declaration_span) || (span_end declaration_span <? span_end name_span)
     || negb (span_len name_span =? str_len (ev_name e))
  then Err InvalidEvidence
  else Ok e.

(** [MemoryEvidence] has one class. *)
Notation MemoryEvidence := RustSymbolMemoryEvidence.

Record MemoryRelationship := {
  rel_kind : MemoryRelationshipKind;
  rel_record_id : bytes;
  rel_revision_digest : bytes;
}.

#[export] Instance relationship_eq_dec : EqDecision MemoryRelationship.
Proof. solve_decision. Defined.

Definition relationship_key (r : MemoryRelationship) : Z * bytes * bytes :=
  (match rel_kind r with Contradicts => 0 | Supersedes => 1 end, rel_record_id r, rel_revision_digest r).
#[export] Instance relationship_ord : RustOrd MemoryRelationship := ord_by relationship_key.

(** ** Records *)

Record MemoryRecordHeader := {
  hdr_record_id : bytes;
  hdr_display_revision : Z;
  hdr_parents : list bytes;
}.

Definition header_try_new (record_id : bytes) (display_revision : Z) (parents : list bytes)
    : result MemoryRecordError MemoryRecordHeader :=
  if MAX_MEMORY_PARENTS <? Z.of_nat (length parents) then Err (InvalidCollection Parents)
  else
    let parents := sort_by cmp parents in
    if has_duplicates parents then Err (InvalidCollection Parents)
    else Ok {| hdr_record_id := record_id; hdr_display_revision := display_revision; hdr_parents := parents |}.

Record MemoryClaim := {
  claim_kind : MemoryKind;
  claim_title : str;
  claim_body : str;
}.

Record MemoryRecord := {
  rec_schema_version : Z;
  rec_header : MemoryRecordHeader;
  rec_claim : MemoryClaim;
  rec_scope : MemoryScope;
  rec_provenance : MemoryProvenance;
  rec_assurance : MemoryAssurance;
  rec_lifecycle : MemoryLifecycle;
  rec_validity : MemoryValidity;
  rec_evidence : list MemoryEvidence;
  rec_relationships : list MemoryRelationship;
  rec_tombstone : bool;
}.

Definition try_new_profile (schema_version : Z) (header : MemoryRecordHeader) (claim : MemoryClaim) (scope : MemoryScope)
    (provenance : MemoryProvenance) (assurance : MemoryAssurance) (lifecycle : MemoryLifecycle) (validity : MemoryValidity)
    (evidence : list MemoryEvidence) (relationships : list MemoryRelationship) (tombstone : bool)
    : result MemoryRecordError MemoryRecord :=
  if negb (schema_version =? MEMORY_RECORD_SCHEMA_VERSION) && negb (schema_version =? MEMORY_RECORD_PROFILE_V2_SCHEMA_VERSION)
  then Err InvalidSchemaVersion
  else if (schema_version =? MEMORY_RECORD_SCHEMA_VERSION) && negb (is_v1 (claim_kind claim))
          || (schema_version =? MEMORY_RECORD_PROFILE_V2_SCHEMA_VERSION) && negb (is_v2 (claim_kind claim))
  then Err InvalidSchemaVersion
  else if bool_decide (evidence = []) || (MAX_MEMORY_EVIDENCE <? Z.of_nat (length evidence))
  then Err (InvalidCollection Evidence)
  else if Z.of_nat (length evidence) <=? subject_evidence scope
  then Err (InvalidInteger EvidenceIndex)
  else if MAX_MEMORY_RELATIONSHIPS <? Z.of_nat (length relationships)
  then Err (InvalidCollection Relationships)
  else
    let relationships := sort_by cmp relationships in
    if has_duplicates relationships then Err (InvalidCollection Relationships)
    else
      let valid_tombstone :=
        if tombstone then bool_decide (lifecycle = Tombstoned) && negb (bool_decide (hdr_parents header = []))
        else negb (bool_decide (lifecycle = Tombstoned)) in
      if negb valid_tombstone then Err InvalidTombstone
      else Ok {| rec_schema_version := schema_version; rec_header := header; rec_claim := claim; rec_scope := scope;
                 rec_provenance := provenance; rec_assurance := assurance; rec_lifecycle := lifecycle;
                 rec_validity := validity; rec_evidence := evidence; rec_relationships := relationships;
                 rec_tombstone := tombstone |}.

(** [MemoryRecord::try_new]: the first profile. *)
Definition record_try_new := try_new_profile MEMORY_RECORD_SCHEMA_VERSION.

(** ** Sorted collections *)

Lemma commit_key_inj c c' : commit_key c = commit_key c' → c = c'.
Proof. destruct c, c'; simpl; congruence. Qed.
#[export] Instance commit_ord_laws : RustOrdLaws MemoryCommitId := ord_by_laws commit_key commit_key_inj.

Lemma memory_relationship_key_inj r r' : relationship_key r = relationship_key r' → r = r'.
Proof. destruct r as [[] ? ?], r' as [[] ? ?]; unfold relationship_key; simpl; congruence. Qed.
#[export] Instance relationship_ord_laws : RustOrdLaws MemoryRelationship := ord_by_laws relationship_key memory_relationship_key_inj.

Section collections.
Context {A : Type} `{RustOrdLaws A} `{EqDecision A}.
Implicit Types (xs : list A).

Lemma has_duplicates_sort xs : has_duplicates (sort_by cmp xs) = false ↔ NoDup xs.
Proof.
  unfold has_duplicates. rewrite (any_adjacent_sort (λ x : A, x)); [by rewrite map_id|]. intros x y. apply bool_decide_eq_true.
Qed.

Lemma sort_increasing xs : NoDup xs → bset_wf (sort_by cmp xs).
Proof.
  intros Hn. pose proof (keys_increasing_NoDup_sort (λ x : A, x) xs) as Hk. rewrite map_id in Hk. specialize (Hk Hn).
  unfold keys_increasing in Hk. by rewrite map_id in Hk.
Qed.

Lemma sort_of_increasing xs : bset_wf xs → sort_by cmp xs = xs.
Proof.
  intros Hw. apply (keys_increasing_sort (λ x : A, x)); [|done]. unfold keys_increasing. by rewrite map_id.
Qed.

Lemma binary_search_spec x xs : bset_wf xs → binary_search x xs = true ↔ x ∈ xs.
Proof.
  unfold bset_wf, binary_search. induction 1 as [|y xs Hs IH Hall]; [simpl; split; [done|by intros ?%elem_of_nil]|].
  cbn [partition_point]. rewrite Forall_forall in Hall. rewrite elem_of_cons. destruct (cmp y x) eqn:E; simpl.
  - rewrite E. apply cmp_eq in E as ->. tauto.
  - rewrite IH. split; [auto|]. intros [->|]; [by rewrite cmp_refl in E|done].
  - rewrite E. split; [done|]. intros [->|Hx]; [by rewrite cmp_refl in E|].
    apply Hall in Hx. unfold clt in Hx. congruence.
Qed.
End collections.

(** ** What a validity holds *)

Record validity_wf (v : MemoryValidity) : Prop := {
  vw_commits i d : v = ValidCommits i d →
    i ≠ [] ∧ Z.of_nat (length i) ≤ MAX_MEMORY_COMMITS ∧ Z.of_nat (length d) ≤ MAX_MEMORY_COMMITS
    ∧ bset_wf i ∧ bset_wf d ∧ ∀ c, c ∈ i → c ∈ d → False;
}.

(** [try_commits] succeeds exactly on bounded, repetition-free and disjoint commits, which it
    sorts. *)
Lemma try_commits_Ok i d v :
  try_commits i d = Ok v ↔
  i ≠ [] ∧ Z.of_nat (length i) ≤ MAX_MEMORY_COMMITS ∧ Z.of_nat (length d) ≤ MAX_MEMORY_COMMITS
  ∧ NoDup i ∧ NoDup d ∧ (∀ c, c ∈ i → c ∈ d → False) ∧ v = ValidCommits (sort_by cmp i) (sort_by cmp d).
Proof.
  unfold try_commits. rewrite <- (has_duplicates_sort i), <- (has_duplicates_sort d).
  case_bool_decide as Hi; simpl; [split; [done|by intros []]|].
  destruct (Z.ltb_spec MAX_MEMORY_COMMITS (Z.of_nat (length i))); simpl; [split; [done|lia]|].
  destruct (Z.ltb_spec MAX_MEMORY_COMMITS (Z.of_nat (length d))); simpl; [split; [done|lia]|].
  destruct (has_duplicates (sort_by cmp i)) eqn:Ei; simpl; [naive_solver|].
  destruct (has_duplicates (sort_by cmp d)) eqn:Ed; simpl; [naive_solver|]. apply has_duplicates_sort in Ed.
  destruct (existsb _ _) eqn:Ex.
  - split; [done|]. intros (_ & _ & _ & _ & _ & Hd & _). apply existsb_exists in Ex as (c & Hc%list_elem_of_In & Hb).
    apply binary_search_spec in Hb; [|by apply sort_increasing]. rewrite elem_of_sort_by in Hc, Hb. by destruct (Hd c).
  - assert (∀ c, c ∈ i → c ∈ d → False) as Hd.
    { intros c Hc Hc'. apply not_true_iff_false in Ex. apply Ex, existsb_exists. exists c. rewrite <- list_elem_of_In, elem_of_sort_by.
      split; [done|]. apply binary_search_spec; [by apply sort_increasing|by rewrite elem_of_sort_by]. }
    split; [intros [= <-]; by split_and!|]. by intros (_ & _ & _ & _ & _ & _ & ->).
Qed.

Lemma try_commits_wf i d v : try_commits i d = Ok v → validity_wf v.
Proof.
  intros (Hi & Hli & Hld & Hni & Hnd & Hd & ->)%try_commits_Ok. split. intros i' d' [= <- <-]. rewrite !length_sort_by.
  split_and!; try done; [|by apply sort_increasing..|].
  - intros E%(f_equal length). rewrite length_sort_by in E. by destruct i.
  - intros c. rewrite !elem_of_sort_by. apply Hd.
Qed.

(** A well-formed validity is its own construction. *)
Lemma try_commits_fixed i d : validity_wf (ValidCommits i d) → try_commits i d = Ok (ValidCommits i d).
Proof.
  intros [H]. destruct (H i d eq_refl) as (Hi & Hli & Hld & Hwi & Hwd & Hd). apply try_commits_Ok.
  rewrite !sort_of_increasing by done. split_and!; try done; by apply bset_wf_NoDup.
Qed.

(** ** What a record holds *)

Record header_wf (h : MemoryRecordHeader) : Prop := {
  hw_revision : 0 < hdr_display_revision h;
  hw_parents : Z.of_nat (length (hdr_parents h)) ≤ MAX_MEMORY_PARENTS;
  hw_increasing : bset_wf (hdr_parents h);
}.

Lemma header_try_new_Ok record_id revision parents h :
  header_try_new record_id revision parents = Ok h ↔
  Z.of_nat (length parents) ≤ MAX_MEMORY_PARENTS ∧ NoDup parents
  ∧ h = {| hdr_record_id := record_id; hdr_display_revision := revision; hdr_parents := sort_by cmp parents |}.
Proof.
  unfold header_try_new. rewrite <- (has_duplicates_sort parents).
  destruct (Z.ltb_spec MAX_MEMORY_PARENTS (Z.of_nat (length parents))); [split; [done|lia]|].
  destruct (has_duplicates (sort_by cmp parents)); [naive_solver|]. split; [intros [= <-]; by split_and!|]. by intros (_ & _ & ->).
Qed.

Lemma header_try_new_wf record_id revision parents h :
  0 < revision → header_try_new record_id revision parents = Ok h → header_wf h.
Proof.
  intros Hr (Hl & Hn & ->)%header_try_new_Ok. split; simpl; [done|by rewrite length_sort_by|by apply sort_increasing].
Qed.

Lemma header_fixed h : header_wf h → header_try_new (hdr_record_id h) (hdr_display_revision h) (hdr_parents h) = Ok h.
Proof.
  intros [Hr Hl Hi]. apply header_try_new_Ok. rewrite sort_of_increasing by done.
  split_and!; [done|by apply bset_wf_NoDup|by destruct h].
Qed.

(** The rules of a record beside those of its parts. *)
Record profile_admits (schema_version : Z) (header : MemoryRecordHeader) (claim : MemoryClaim) (scope : MemoryScope)
    (lifecycle : MemoryLifecycle) (evidence : list MemoryEvidence) (relationships : list MemoryRelationship)
    (tombstone : bool) : Prop := {
  pa_kind : schema_version = 1 ∧ claim_kind claim ∈ [Decision; Failure] ∨ schema_version = 2;
  pa_evidence : 1 ≤ Z.of_nat (length evidence) ≤ MAX_MEMORY_EVIDENCE;
  pa_subject : subject_evidence scope < Z.of_nat (length evidence);
  pa_relationships : Z.of_nat (length relationships) ≤ MAX_MEMORY_RELATIONSHIPS ∧ NoDup relationships;
  pa_tombstone : tombstone = true ↔ lifecycle = Tombstoned;
  pa_history : tombstone = true → hdr_parents header ≠ [];
}.

Lemma is_v1_spec k : is_v1 k = true ↔ k ∈ [Decision; Failure].
Proof.
  rewrite !elem_of_cons, elem_of_nil. destruct k; simpl; split; intros H; try done; [by left|by right; left|..];
    by destruct H as [H|[H|H]].
Qed.

(** [try_new_profile] constructs exactly the records its profile admits, their relationships
    sorted. *)
Lemma try_new_profile_Ok v h c s p a l val ev rels t r :
  try_new_profile v h c s p a l val ev rels t = Ok r ↔
  profile_admits v h c s l ev rels t
  ∧ r = {| rec_schema_version := v; rec_header := h; rec_claim := c; rec_scope := s; rec_provenance := p;
           rec_assurance := a; rec_lifecycle := l; rec_validity := val; rec_evidence := ev;
           rec_relationships := sort_by cmp rels; rec_tombstone := t |}.
Proof.
  unfold try_new_profile, MEMORY_RECORD_SCHEMA_VERSION, MEMORY_RECORD_PROFILE_V2_SCHEMA_VERSION.
  assert (is_v2 (claim_kind c) = true) as -> by (by destruct (claim_kind c)). rewrite andb_false_r, orb_false_r.
  destruct (_ && negb (v =? 2)) eqn:Ev; [split; [done|intros [[[[? _]|?] _ _ _ _ _] _]; lia]|].
  destruct ((v =? 1) && negb (is_v1 (claim_kind c))) eqn:Ek.
  { split; [done|]. intros [[[[-> Hk%is_v1_spec]|?] _ _ _ _ _] _]; [|lia]. rewrite Hk in Ek. done. }
  assert (v = 1 ∧ claim_kind c ∈ [Decision; Failure] ∨ v = 2) as Hk.
  { destruct (Z.eqb_spec v 1) as [->|]; [left|right; lia]. simpl in Ek. rewrite negb_false_iff, is_v1_spec in Ek. done. }
  case_bool_decide as He; [simpl; split; [done|intros [[_ He' _ _ _ _] _]; subst; simpl in He'; lia]|]. simpl.
  destruct (Z.ltb_spec MAX_MEMORY_EVIDENCE (Z.of_nat (length ev))); [split; [done|intros [[] _]; lia]|].
  destruct (Z.leb_spec (Z.of_nat (length ev)) (subject_evidence s)); [split; [done|intros [[] _]; lia]|].
  destruct (Z.ltb_spec MAX_MEMORY_RELATIONSHIPS (Z.of_nat (length rels))); [split; [done|intros [[] _]; lia]|].
  pose proof (has_duplicates_sort rels) as Hn.
  destruct (has_duplicates (sort_by cmp rels)).
  { split; [done|]. intros [[_ _ _ [_ Hr] _ _] _]. by apply Hn in Hr. }
  destruct (if t then _ else _) eqn:Et; simpl.
  - split; [intros [= <-]; split; [|done]|by intros [_ ->]].
    split; try done; [destruct ev; simpl in *; [done|lia]|split; [done|by apply Hn]| |].
    + destruct t; [rewrite andb_true_iff, bool_decide_eq_true in Et; tauto|].
      rewrite negb_true_iff, bool_decide_eq_false in Et. done.
    + intros ->. rewrite andb_true_iff, negb_true_iff, bool_decide_eq_false in Et. tauto.
  - split; [done|]. intros [[_ _ _ _ Ht Hh] _]. destruct t.
    + rewrite bool_decide_true, bool_decide_false in Et by first [by apply Ht|by apply Hh]. done.
    + rewrite negb_false_iff, bool_decide_eq_true in Et. apply Ht in Et. done.
Qed.
