(* ===== verification/MemoryValidity.v ===== *)
(** * Project validity and lifecycle of memory

    Models [crates/repowitness-domain/src/memory_revalidation.rs], the evaluation of a
    record's validity from attributed ancestry outcomes, and [memory_policy.rs], the lifecycle
    transitions and the retention rules.  An [expect] or [unreachable!] is a [None] that the
    theorems exclude. *)

From Stdlib Require Import ZArith Lia ZifyBool.
From Stdlib Require Import Strings.Byte.
From stdpp Require Import base numbers sorting relations list.
From S2P Require Import Prelude Ordering MemoryRecord.

Open Scope Z_scope.

(** ** Ancestry checks *)

Definition MAX_MEMORY_ANCESTRY_CHECKS : Z := 2 * MAX_MEMORY_COMMITS.

Inductive MemoryAncestryOutcome := OutcomeAncestor | OutcomeNotAncestor | OutcomeIndeterminate.

Record MemoryAncestryCheck := {
  check_ancestor : MemoryCommitId;
  check_descendant : MemoryCommitId;
  check_outcome : MemoryAncestryOutcome;
}.

Inductive MemoryRevalidationTarget :=
| TargetGit (commit : MemoryCommitId)
| TargetWorktree (source_snapshot : bytes) (head : option MemoryCommitId).

Definition ancestry_target (t : MemoryRevalidationTarget) : option MemoryCommitId :=
  match t with TargetGit commit => Some commit | TargetWorktree _ head => head end.

Inductive MemoryProjectValidity := ProjectValid | ProjectNotApplicable | ProjectIndeterminate.

#[export] Instance project_validity_eq_dec : EqDecision MemoryProjectValidity.
Proof. solve_decision. Defined.

Inductive MemoryValidityEvaluationError := TooManyChecks | InvalidChecks.

Inductive SideOutcome := Reachable | NoneReachable | SideIndeterminate.

#[export] Instance side_outcome_eq_dec : EqDecision SideOutcome.
Proof. solve_decision. Defined.

Definition find_check (commit : MemoryCommitId) (checks : list MemoryAncestryCheck) : option MemoryAncestryCheck :=
  find (λ check, bool_decide (check_ancestor check = commit)) checks.

(** The loop over the commits, with whether an outcome was indeterminate. *)
Fixpoint aggregate_loop (commits : list MemoryCommitId) (checks : list MemoryAncestryCheck) (indeterminate : bool)
    : option SideOutcome :=
  match commits with
  | [] => Some (if indeterminate then SideIndeterminate else NoneReachable)
  | commit :: commits =>
      outcome ← check_outcome <$> find_check commit checks;
      match outcome with
      | OutcomeAncestor => Some Reachable
      | OutcomeNotAncestor => aggregate_loop commits checks indeterminate
      | OutcomeIndeterminate => aggregate_loop commits checks true
      end
  end.

Definition aggregate_side (commits : list MemoryCommitId) (checks : list MemoryAncestryCheck) : option SideOutcome :=
  aggregate_loop commits checks false.

(** [checks.iter().enumerate().any(...)]: a check repeats the ancestor of a prior one. *)
Fixpoint repeats_ancestor (prior checks : list MemoryAncestryCheck) : bool :=
  match checks with
  | [] => false
  | check :: checks =>
      existsb (λ p, bool_decide (check_ancestor p = check_ancestor check)) prior
      || repeats_ancestor (prior ++ [check]) checks
  end.

Definition validate_checks (introduced_by invalidated_by : list MemoryCommitId) (descendant : MemoryCommitId)
    (checks : list MemoryAncestryCheck) : result MemoryValidityEvaluationError () :=
  let expected := (length introduced_by + length invalidated_by)%nat in
  if negb (length checks =? expected)%nat
     || existsb (λ check, negb (bool_decide (check_descendant check = descendant))) checks
     || repeats_ancestor [] checks
     || existsb (λ commit, negb (existsb (λ check, bool_decide (check_ancestor check = commit)) checks))
          (introduced_by ++ invalidated_by)
  then Err InvalidChecks
  else Ok ().

Definition evaluate_memory_project_validity (validity : MemoryValidity) (target : MemoryRevalidationTarget)
    (checks : list MemoryAncestryCheck) : option (result MemoryValidityEvaluationError MemoryProjectValidity) :=
  if MAX_MEMORY_ANCESTRY_CHECKS <? Z.of_nat (length checks) then Some (Err TooManyChecks)
  else
    match validity with
    | ValidWorktree source_snapshot =>
        if negb (bool_decide (length checks = 0%nat)) then Some (Err InvalidChecks)
        else Some (Ok match target with
                      | TargetWorktree target_snapshot _ =>
                          if bool_decide (source_snapshot = target_snapshot) then ProjectValid else ProjectNotApplicable
                      | TargetGit _ => ProjectNotApplicable
                      end)
    | ValidCommits introduced_by invalidated_by =>
        match ancestry_target target with
        | None => Some (if bool_decide (length checks = 0%nat) then Ok ProjectIndeterminate else Err InvalidChecks)
        | Some descendant =>
            match validate_checks introduced_by invalidated_by descendant checks with
            | Err e => Some (Err e)
            | Ok _ =>
                introduction ← aggregate_side introduced_by checks;
                invalidation ← aggregate_side invalidated_by checks;
                if bool_decide (invalidation = Reachable) then Some (Ok ProjectNotApplicable)
                else if bool_decide (introduction = NoneReachable) then Some (Ok ProjectNotApplicable)
                else if bool_decide (introduction = SideIndeterminate) then Some (Ok ProjectIndeterminate)
                else match invalidation with
                     | SideIndeterminate => Some (Ok ProjectIndeterminate)
                     | NoneReachable => Some (Ok ProjectValid)
                     | Reachable => None
                     end
            end
        end
    end.

(** ** Lifecycle policy *)

Inductive MemoryLifecycleReason :=
| ReviewApproved | SourceInvalidated | ReasonContradicted | ReasonSuperseded | TrustConcern | RetentionDue.

Inductive MemoryLifecycleTransitionError := InvalidTransition | SuccessorRequired.

Inductive MemoryRetentionDisposition := Retain | Review | Archive | Tombstone.

Record MemoryLifecyclePolicy := {
  review_after_ms : option Z;
  archive_after_ms : option Z;
  tombstone_after_ms : option Z;
}.

(** [option.is_some_and(|limit| limit < bound)]. *)
Definition is_below (o : option Z) (bound : Z) : bool := match o with Some limit => limit <? bound | None => false end.

Definition policy_try_new (review_after_ms archive_after_ms tombstone_after_ms : option Z) : option MemoryLifecyclePolicy :=
  if match review_after_ms with
     | Some review => is_below archive_after_ms review || is_below tombstone_after_ms review
     | None => false
     end
  then None
  else if match archive_after_ms with Some archive => is_below tombstone_after_ms archive | None => false end
  then None
  else Some {| review_after_ms := review_after_ms; archive_after_ms := archive_after_ms;
               tombstone_after_ms := tombstone_after_ms |}.

Definition is_due (o : option Z) (age_ms : Z) : bool := match o with Some threshold => threshold <=? age_ms | None => false end.

Definition evaluate_retention (policy : MemoryLifecyclePolicy) (current : MemoryLifecycle) (age_ms : Z)
    : MemoryRetentionDisposition :=
  if bool_decide (current = Tombstoned) then Tombstone
  else if is_due (tombstone_after_ms policy) age_ms then Tombstone
  else if is_due (archive_after_ms policy) age_ms then Archive
  else if is_due (review_after_ms policy) age_ms then Review
  else Retain.

Definition transition_memory_lifecycle (current : MemoryLifecycle) (reason : MemoryLifecycleReason) (successor_present : bool)
    : result MemoryLifecycleTransitionError MemoryLifecycle :=
  match current, reason with
  | NeedsReview, ReviewApproved => Ok Active
  | Active, SourceInvalidated => Ok Stale
  | Active, ReasonContradicted => Ok Contradicted
  | Tombstoned, _ => Err InvalidTransition
  | (Active | NeedsReview), TrustConcern => Ok Quarantined
  | _, RetentionDue => Ok Tombstoned
  | Active, ReasonSuperseded => if successor_present then Ok Superseded else Err SuccessorRequired
  | _, ReasonSuperseded => if successor_present then Err InvalidTransition else Err SuccessorRequired
  | _, _ => Err InvalidTransition
  end.

Inductive MemoryUseEligibility := UseCurrent | UseReviewOnly | UseExcluded.

Definition evaluate_memory_use (kind : MemoryKind) (lifecycle : MemoryLifecycle) (independently_verified : bool)
    : MemoryUseEligibility :=
  match lifecycle with
  | Active =>
      if bool_decide (kind = Procedure) && independently_verified then UseCurrent
      else if negb (bool_decide (kind = Procedure)) then UseCurrent
      else UseReviewOnly
  | NeedsReview | Stale | Contradicted | Superseded => UseReviewOnly
  | Quarantined | Tombstoned => UseExcluded
  end.

(** ** Complete checks *)

(** Exactly one check for each commit, against the target. *)
Record checks_complete (introduced_by invalidated_by : list MemoryCommitId) (descendant : MemoryCommitId)
    (checks : list MemoryAncestryCheck) : Prop := {
  cc_descendant : Forall (λ check, check_descendant check = descendant) checks;
  cc_ancestors : check_ancestor <$> checks ≡ₚ introduced_by ++ invalidated_by;
}.

Lemma repeats_ancestor_spec prior checks :
  repeats_ancestor prior checks = false ↔
  NoDup (check_ancestor <$> checks) ∧ ∀ p c, p ∈ prior → c ∈ checks → check_ancestor p ≠ check_ancestor c.
Proof.
  revert prior. induction checks as [|check checks IH]; intros prior; simpl.
  - split; [intros _; split; [constructor|by intros ? ? _ ?%elem_of_nil]|done].
  - rewrite orb_false_iff, IH, NoDup_cons, <- not_true_iff_false, existsb_exists. split.
    + intros (Hn & Hnd & Hp). split_and!; [|done|].
      * intros (c & E & Hc)%list_elem_of_fmap. eapply (Hp check c); [apply elem_of_app; right; by left|done|done].
      * intros p c Hp' [->|Hc]%elem_of_cons E; [|eapply (Hp p c); [apply elem_of_app; by left|done..]].
        apply Hn. exists p. split; [by apply list_elem_of_In|]. by apply bool_decide_eq_true.
    + intros ((Hn & Hnd) & Hp). split_and!; [|done|].
      * intros (p & Hin%list_elem_of_In & E%bool_decide_eq_true_1). eapply (Hp p check); [done|by left|done].
      * intros p c [Hp'|Hp']%elem_of_app Hc E; [eapply (Hp p c); [done|by right|done]|].
        apply list_elem_of_singleton in Hp' as ->. apply Hn. apply list_elem_of_fmap. by exists c.
Qed.

Lemma validate_checks_spec i d t checks :
  NoDup (i ++ d) →
  match validate_checks i d t checks with
  | Ok _ => checks_complete i d t checks
  | Err e => e = InvalidChecks ∧ ¬ checks_complete i d t checks
  end.
Proof.
  intros Hnd. assert (validate_checks i d t checks = Ok () ∨ validate_checks i d t checks = Err InvalidChecks) as Hc.
  { unfold validate_checks. destruct (_ || _); auto. }
  assert (validate_checks i d t checks = Ok () ↔ checks_complete i d t checks) as Hiff.
  { unfold validate_checks. rewrite <- length_app.
    assert (∀ b : bool, (if b then Err InvalidChecks else Ok ()) = Ok () ↔ b = false) as -> by (by intros []).
    rewrite !orb_false_iff, negb_false_iff, Nat.eqb_eq, repeats_ancestor_spec. split.
    - intros [[[Hl Hd] [Hr _]] Hm]. split.
      + rewrite Forall_forall. intros c Hin. apply dec_stable. intros Hne. apply not_true_iff_false in Hd. apply Hd, existsb_exists.
        exists c. split; [by apply list_elem_of_In|]. by rewrite bool_decide_eq_false_2.
      + symmetry. apply submseteq_length_Permutation; [|by rewrite length_fmap, Hl]. apply NoDup_submseteq; [done|].
        intros c Hin. apply dec_stable. intros Hne. apply not_true_iff_false in Hm. apply Hm, existsb_exists.
        exists c. split; [by apply list_elem_of_In|]. rewrite negb_true_iff, <- not_true_iff_false, existsb_exists.
        intros (k & Hk%list_elem_of_In & E%bool_decide_eq_true_1). apply Hne, list_elem_of_fmap. by exists k.
    - intros [Hd Hp]. split_and!.
      + apply Permutation_length in Hp. by rewrite length_fmap in Hp.
      + rewrite <- not_true_iff_false, existsb_exists. intros (c & Hin%list_elem_of_In & E). rewrite Forall_forall in Hd.
        rewrite bool_decide_eq_true_2 in E; [done|by apply Hd].
      + by rewrite Hp.
      + by intros ? ? ?%elem_of_nil.
      + rewrite <- not_true_iff_false, existsb_exists. intros (c & Hin%list_elem_of_In & E%negb_true_iff).
        rewrite <- Hp in Hin. apply list_elem_of_fmap in Hin as (k & -> & Hk).
        apply not_true_iff_false in E. apply E, existsb_exists. exists k. split; [by apply list_elem_of_In|].
        by apply bool_decide_eq_true. }
  destruct Hc as [Hc|Hc]; rewrite Hc in Hiff |- *; [by apply Hiff|]. split; [done|]. by rewrite <- Hiff.
Qed.

(** ** Histories

    A history says of every commit whether it is an ancestor of the target.  It agrees with
    the checks when every conclusive outcome is true of it. *)

Definition agrees (history : MemoryCommitId → bool) (checks : list MemoryAncestryCheck) : Prop :=
  ∀ check, check ∈ checks →
    match check_outcome check with
    | OutcomeAncestor => history (check_ancestor check) = true
    | OutcomeNotAncestor => history (check_ancestor check) = false
    | OutcomeIndeterminate => True
    end.

(** The record applies in a history: it was introduced and not invalidated. *)
Definition applies (history : MemoryCommitId → bool) (introduced_by invalidated_by : list MemoryCommitId) : Prop :=
  (∃ c, c ∈ introduced_by ∧ history c = true) ∧ ∀ c, c ∈ invalidated_by → history c = false.

Definition outcome_of (commit : MemoryCommitId) (checks : list MemoryAncestryCheck) : option MemoryAncestryOutcome :=
  check_outcome <$> find_check commit checks.

(** The history in which what is not known of a commit is [unknown]. *)
Definition completed (checks : list MemoryAncestryCheck) (unknown : MemoryCommitId → bool) (c : MemoryCommitId) : bool :=
  match outcome_of c checks with
  | Some OutcomeAncestor => true
  | Some OutcomeNotAncestor => false
  | _ => unknown c
  end.

Lemma find_check_Some checks check :
  NoDup (check_ancestor <$> checks) → check ∈ checks → find_check (check_ancestor check) checks = Some check.
Proof.
  unfold find_check. induction checks as [|c checks IH]; [by intros _ ?%elem_of_nil|].
  rewrite fmap_cons, NoDup_cons. intros [Hn Hnd] [->|Hin]%elem_of_cons; simpl; [by rewrite bool_decide_eq_true_2|].
  rewrite bool_decide_eq_false_2; [by apply IH|]. intros E. apply Hn. rewrite E. apply list_elem_of_fmap. eauto.
Qed.

Section complete.
Context (i d : list MemoryCommitId) (t : MemoryCommitId) (checks : list MemoryAncestryCheck).
Context (Hnodup : NoDup (i ++ d)) (Hcomplete : checks_complete i d t checks).

Lemma complete_nodup : NoDup (check_ancestor <$> checks).
Proof. by rewrite (cc_ancestors _ _ _ _ Hcomplete). Qed.

Lemma complete_outcome c : c ∈ i ++ d → ∃ check, check ∈ checks ∧ check_ancestor check = c ∧ outcome_of c checks = Some (check_outcome check).
Proof.
  rewrite <- (cc_ancestors _ _ _ _ Hcomplete). intros (check & -> & Hin)%list_elem_of_fmap.
  exists check. split_and!; [done..|]. unfold outcome_of. by rewrite find_check_Some by (done || apply complete_nodup).
Qed.

Lemma completed_agrees unknown : agrees (completed checks unknown) checks.
Proof.
  intros check Hin. unfold completed, outcome_of. rewrite find_check_Some by (done || apply complete_nodup). simpl.
  by destruct (check_outcome check).
Qed.

Lemma agrees_outcome history c :
  agrees history checks → c ∈ i ++ d →
  match outcome_of c checks with Some OutcomeAncestor => history c = true | Some OutcomeNotAncestor => history c = false
                               | Some OutcomeIndeterminate => True | None => False end.
Proof.
  intros Ha (check & Hin & <- & ->)%complete_outcome. specialize (Ha check Hin). by destruct (check_outcome check).
Qed.

(** One side is the disjunction of its outcomes, in three values. *)
Lemma aggregate_loop_spec commits b :
  (∀ c, c ∈ commits → c ∈ i ++ d) →
  match aggregate_loop commits checks b with
  | Some Reachable => ∃ c, c ∈ commits ∧ outcome_of c checks = Some OutcomeAncestor
  | Some NoneReachable => b = false ∧ ∀ c, c ∈ commits → outcome_of c checks = Some OutcomeNotAncestor
  | Some SideIndeterminate =>
      (∀ c, c ∈ commits → outcome_of c checks ≠ Some OutcomeAncestor)
      ∧ (b = true ∨ ∃ c, c ∈ commits ∧ outcome_of c checks = Some OutcomeIndeterminate)
  | None => False
  end.
Proof.
  revert b. induction commits as [|c commits IH]; intros b Hin; simpl.
  - destruct b; [split; [by intros ? ?%elem_of_nil|by left]|split; [done|by intros ? ?%elem_of_nil]].
  - pose proof (Hin c ltac:(by left)) as (check & _ & _ & Ho)%complete_outcome.
    assert (∀ c', c' ∈ commits → c' ∈ i ++ d) as Hin' by (intros; apply Hin; by right).
    unfold outcome_of in Ho at 1. rewrite Ho. simpl. pose proof (eq_refl (outcome_of c checks)) as Hoc. unfold outcome_of in Hoc at 2.
    rewrite Ho in Hoc. destruct (check_outcome check).
    + exists c. split; [by left|done].
    + specialize (IH b Hin'). destruct (aggregate_loop commits checks b) as [[]|]; [| | |done].
      * destruct IH as (c' & ? & ?). exists c'. split; [by right|done].
      * destruct IH as [-> IH]. split; [done|]. intros c' [->|]%elem_of_cons; auto.
      * destruct IH as [IH1 IH2]. split; [intros c' [->|]%elem_of_cons; [congruence|auto]|].
        destruct IH2 as [|(c' & ? & ?)]; [by left|right; exists c'; split; [by right|done]].
    + specialize (IH true Hin'). destruct (aggregate_loop commits checks true) as [[]|]; [| | |done].
      * destruct IH as (c' & ? & ?). exists c'. split; [by right|done].
      * by destruct IH.
      * destruct IH as [IH1 IH2]. split; [intros c' [->|]%elem_of_cons; [congruence|auto]|].
        right. exists c. split; [by left|done].
Qed.
End complete.

(** ** The evaluation *)

(** What a three-valued conclusion says of the histories that agree with the checks. *)
Definition conclusion_of (validity : MemoryProjectValidity) (i d : list MemoryCommitId) (checks : list MemoryAncestryCheck) : Prop :=
  match validity with
  | ProjectValid => ∀ history, agrees history checks → applies history i d
  | ProjectNotApplicable => ∀ history, agrees history checks → ¬ applies history i d
  | ProjectIndeterminate =>
      (∃ history, agrees history checks ∧ applies history i d) ∧ ∃ history, agrees history checks ∧ ¬ applies history i d
  end.

Section evaluation.
Context (i d : list MemoryCommitId) (t : MemoryCommitId) (checks : list MemoryAncestryCheck).
Context (Hnodup : NoDup (i ++ d)) (Hcomplete : checks_complete i d t checks).

Lemma in_introduced c : c ∈ i → c ∈ i ++ d. Proof. intros. apply elem_of_app. by left. Qed.
Lemma in_invalidated c : c ∈ d → c ∈ i ++ d. Proof. intros. apply elem_of_app. by right. Qed.

(** When nothing known is against it, the record applies once what is not known is settled
    in its favour; and not when it is settled against it. *)
Lemma favourable_applies :
  (∃ c, c ∈ i ∧ outcome_of c checks ≠ Some OutcomeNotAncestor) → (∀ c, c ∈ d → outcome_of c checks ≠ Some OutcomeAncestor) →
  ∃ history, agrees history checks ∧ applies history i d.
Proof.
  intros (c & Hc & Ho) Hd. exists (completed checks (λ c, bool_decide (c ∈ i))). split; [by eapply completed_agrees|]. split.
  - exists c. split; [done|]. unfold completed. destruct (outcome_of c checks) as [[]|]; try done; by apply bool_decide_eq_true.
  - intros c' Hc'. specialize (Hd c' Hc'). unfold completed.
    assert (c' ∉ i) by (intros Hi; rewrite NoDup_app in Hnodup; destruct Hnodup as (_ & Hdis & _); by apply (Hdis c' Hi)).
    destruct (outcome_of c' checks) as [[]|]; try done; by apply bool_decide_eq_false.
Qed.

Lemma unfavourable_excluded :
  (∀ c, c ∈ i → outcome_of c checks ≠ Some OutcomeAncestor) ∨ (∃ c, c ∈ d ∧ outcome_of c checks ≠ Some OutcomeNotAncestor) →
  ∃ history, agrees history checks ∧ ¬ applies history i d.
Proof.
  intros [Hi|(c & Hc & Ho)].
  - exists (completed checks (λ _, false)). split; [by eapply completed_agrees|]. intros [(c & Hc & Hh) _]. specialize (Hi c Hc).
    unfold completed in Hh. by destruct (outcome_of c checks) as [[]|].
  - exists (completed checks (λ _, true)). split; [by eapply completed_agrees|]. intros [_ Hd]. specialize (Hd c Hc).
    unfold completed in Hd. by destruct (outcome_of c checks) as [[]|].
Qed.

Lemma evaluate_complete target :
  ancestry_target target = Some t → Z.of_nat (length checks) ≤ MAX_MEMORY_ANCESTRY_CHECKS →
  ∃ v, evaluate_memory_project_validity (ValidCommits i d) target checks = Some (Ok v) ∧ conclusion_of v i d checks.
Proof.
  intros Ht Hl. unfold evaluate_memory_project_validity. destruct (Z.ltb_spec MAX_MEMORY_ANCESTRY_CHECKS (Z.of_nat (length checks))); [lia|].
  rewrite Ht. pose proof (validate_checks_spec i d t checks Hnodup) as Hv.
  destruct (validate_checks i d t checks); [clear Hv|by destruct Hv]. unfold aggregate_side.
  pose proof (aggregate_loop_spec i d t checks Hnodup Hcomplete i false in_introduced) as Hi.
  pose proof (aggregate_loop_spec i d t checks Hnodup Hcomplete d false in_invalidated) as Hd.
  assert (∀ history c o, agrees history checks → c ∈ i ++ d → outcome_of c checks = Some o →
            match o with OutcomeAncestor => history c = true | OutcomeNotAncestor => history c = false | _ => True end) as Hag.
  { intros history c o Ha Hc Ho. pose proof (agrees_outcome i d t checks Hnodup Hcomplete history c Ha Hc) as Hout. by rewrite Ho in Hout. }
  destruct (aggregate_loop i checks false) as [intro|]; [|done]. destruct (aggregate_loop d checks false) as [inv|]; [|done]. simpl.
  destruct inv; simpl.
  - eexists. split; [done|]. intros history Ha [_ Hn]. destruct Hd as (c & Hc & Ho).
    pose proof (Hag history c _ Ha (in_invalidated c Hc) Ho) as Hh. simpl in Hh. rewrite Hn in Hh by done. done.
  - destruct Hd as [_ Hd]. destruct intro; simpl; (eexists; split; [done|]).
    + intros history Ha. destruct Hi as (c & Hc & Ho). split.
      * exists c. split; [done|]. by apply (Hag history c _ Ha (in_introduced c Hc) Ho).
      * intros c' Hc'. by apply (Hag history c' _ Ha (in_invalidated c' Hc') (Hd c' Hc')).
    + intros history Ha [(c & Hc & Hh) _]. destruct Hi as [_ Hi].
      pose proof (Hag history c _ Ha (in_introduced c Hc) (Hi c Hc)) as Hh'. simpl in Hh'. congruence.
    + destruct Hi as [Hi [|(c & Hc & Ho)]]; [done|]. split; [|by apply unfavourable_excluded; left].
      apply favourable_applies; [exists c; split; congruence|]. intros c' Hc'. rewrite Hd by done. done.
  - destruct Hd as [Hd [|(c & Hc & Ho)]]; [done|]. destruct intro; simpl; (eexists; split; [done|]).
    + destruct Hi as (c' & Hc' & Ho'). split; [apply favourable_applies; [exists c'; split; congruence|done]|].
      apply unfavourable_excluded. right. exists c. split; congruence.
    + intros history Ha [(c' & Hc' & Hh) _]. destruct Hi as [_ Hi].
      pose proof (Hag history c' _ Ha (in_introduced c' Hc') (Hi c' Hc')) as Hh'. simpl in Hh'. congruence.
    + destruct Hi as [Hi [|(c' & Hc' & Ho')]]; [done|]. split; [|by apply unfavourable_excluded; left].
      apply favourable_applies; [exists c'; split; congruence|done].
Qed.
End evaluation.

Lemma validity_wf_NoDup i d : validity_wf (ValidCommits i d) → i ≠ [] ∧ NoDup (i ++ d) ∧ Z.of_nat (length (i ++ d)) ≤ MAX_MEMORY_ANCESTRY_CHECKS.
Proof.
  intros [H]. destruct (H i d eq_refl) as (Hi & Hli & Hld & Hwi & Hwd & Hdis). split_and!; [done| |].
  - apply NoDup_app. split_and!; [by apply bset_wf_NoDup|intros c Hc Hc'; by apply (Hdis c)|by apply bset_wf_NoDup].
  - rewrite length_app. unfold MAX_MEMORY_ANCESTRY_CHECKS. lia.
Qed.

(** C11: the validity of a record in a project is the best conclusion its ancestry checks
    allow: valid when the record applies in every history that agrees with them, not
    applicable when it applies in none, indeterminate when they leave both open; checks that
    are not exactly one for each commit are refused, and the evaluation never panics. *)
Theorem project_validity_exact i d target t checks :
  validity_wf (ValidCommits i d) → ancestry_target target = Some t →
  match evaluate_memory_project_validity (ValidCommits i d) target checks with
  | Some (Ok v) => checks_complete i d t checks ∧ conclusion_of v i d checks
  | Some (Err TooManyChecks) => MAX_MEMORY_ANCESTRY_CHECKS < Z.of_nat (length checks)
  | Some (Err InvalidChecks) => ¬ checks_complete i d t checks
  | None => False
  end.
Proof.
  intros Hwf Ht. destruct (validity_wf_NoDup i d Hwf) as (Hi & Hnd & Hl).
  pose proof (validate_checks_spec i d t checks Hnd) as Hv.
  destruct (MAX_MEMORY_ANCESTRY_CHECKS <? Z.of_nat (length checks)) eqn:El.
  { unfold evaluate_memory_project_validity. rewrite El. lia. }
  destruct (validate_checks i d t checks) as [[]|e] eqn:Ev.
  - by destruct (evaluate_complete i d t checks Hnd Hv target Ht ltac:(lia)) as (v & -> & Hc).
  - destruct Hv as [-> Hv]. unfold evaluate_memory_project_validity. by rewrite El, Ht, Ev.
Qed.

(** ** Lifecycles *)

(** One transition of a lifecycle, for some reason. *)
Definition lifecycle_step (s s' : MemoryLifecycle) : Prop :=
  ∃ reason successor_present, transition_memory_lifecycle s reason successor_present = Ok s'.

Definition lifecycle_rank (s : MemoryLifecycle) : nat :=
  match s with NeedsReview => 0 | Active => 1 | Stale | Contradicted | Superseded | Quarantined => 2 | Tombstoned => 3 end.

(** A lifecycle only moves forward: every transition raises its rank, so that no state is
    ever returned to and at most three transitions are ever made; a tombstone is final; and
    only a reviewed record is, or becomes, active. *)
Theorem lifecycle_forward n s s' :
  nsteps lifecycle_step n s s' →
  (n + lifecycle_rank s ≤ lifecycle_rank s')%nat ∧ (n ≤ 3)%nat
  ∧ (s = Tombstoned → n = 0%nat)
  ∧ (s' = Active → n ≠ 0%nat →
     s = NeedsReview ∧ ∀ reason successor, transition_memory_lifecycle s reason successor = Ok s' → reason = ReviewApproved).
Proof.
  assert (∀ s s', lifecycle_step s s' → (lifecycle_rank s < lifecycle_rank s')%nat) as Hstep.
  { intros x y (reason & b & H). destruct x, reason, b; simpl in H; try discriminate H; injection H as <-; simpl; lia. }
  intros H. assert (n + lifecycle_rank s ≤ lifecycle_rank s')%nat as Hr.
  { induction H as [|n x y z Hxy _ IH]; [done|]. apply Hstep in Hxy. lia. }
  assert (lifecycle_rank s' ≤ 3)%nat by (destruct s'; simpl; lia). split_and!; [done|lia|intros ->; simpl in Hr; lia|].
  intros -> Hn. simpl in Hr. assert (s = NeedsReview) as -> by (destruct s; simpl in Hr; (done || lia)).
  split; [done|]. intros reason b E. by destruct reason, b.
Qed.

Lemma lifecycle_forward_witness :
  nsteps lifecycle_step 2 NeedsReview Stale ∧ (2 + lifecycle_rank NeedsReview ≤ lifecycle_rank Stale)%nat.
Proof.
  assert (nsteps lifecycle_step 2 NeedsReview Stale) as H.
  { eapply nsteps_l; [by exists ReviewApproved, false|]. eapply nsteps_l; [by exists SourceInvalidated, false|]. apply nsteps_O. }
  split; [exact H|]. apply (lifecycle_forward 2 NeedsReview Stale H).
Defined.

Definition disposition_rank (x : MemoryRetentionDisposition) : nat :=
  match x with Retain => 0 | Review => 1 | Archive => 2 | Tombstone => 3 end.

(** Retention never relents with age. *)
Lemma retention_monotone policy current age age' :
  age ≤ age' → (disposition_rank (evaluate_retention policy current age) ≤ disposition_rank (evaluate_retention policy current age'))%nat.
Proof.
  intros Hage. unfold evaluate_retention. case_bool_decide; [done|].
  assert (∀ o, is_due o age = true → is_due o age' = true) as Hdue by (intros [?|]; simpl; lia).
  pose proof (Hdue (tombstone_after_ms policy)). pose proof (Hdue (archive_after_ms policy)). pose proof (Hdue (review_after_ms policy)).
  repeat match goal with |- context [is_due ?o ?a] => destruct (is_due o a) eqn:? end; simpl; first [lia|naive_solver].
Qed.

(** ** Witnesses *)

Definition val_commit (b : byte) : MemoryCommitId := Sha1 (repeat b 20).

Definition val_checks (introduced invalidated : MemoryAncestryOutcome) : list MemoryAncestryCheck :=
  [{| check_ancestor := val_commit x11; check_descendant := val_commit x33; check_outcome := introduced |};
   {| check_ancestor := val_commit x22; check_descendant := val_commit x33; check_outcome := invalidated |}].

Lemma val_wf : validity_wf (ValidCommits [val_commit x11] [val_commit x22]).
Proof. by apply (try_commits_wf [val_commit x11] [val_commit x22]). Qed.

Lemma project_validity_exact_witness :
  (let checks := val_checks OutcomeAncestor OutcomeNotAncestor in
   evaluate_memory_project_validity (ValidCommits [val_commit x11] [val_commit x22]) (TargetGit (val_commit x33)) checks = Some (Ok ProjectValid)
   ∧ checks_complete [val_commit x11] [val_commit x22] (val_commit x33) checks
   ∧ conclusion_of ProjectValid [val_commit x11] [val_commit x22] checks)
  ∧ (let checks := val_checks OutcomeAncestor OutcomeIndeterminate in
     conclusion_of ProjectIndeterminate [val_commit x11] [val_commit x22] checks).
Proof.
  split.
  - split; [vm_compute; reflexivity|].
    exact (project_validity_exact [val_commit x11] [val_commit x22] (TargetGit (val_commit x33)) (val_commit x33)
             (val_checks OutcomeAncestor OutcomeNotAncestor) val_wf eq_refl).
  - exact (proj2 (project_validity_exact [val_commit x11] [val_commit x22] (TargetGit (val_commit x33)) (val_commit x33)
             (val_checks OutcomeAncestor OutcomeIndeterminate) val_wf eq_refl)).
Defined.
