(* ===== verification/MemoryProjection.v ===== *)
(** * Memory projections

    Models [crates/repowitness-application/src/memory_projection.rs]: the selection of the
    approved head of a record among its versions, and the effective state of the selected
    version from its lifecycle, its project validity and the outcomes of its evidence. *)

From Stdlib Require Import ZArith Lia ZifyBool.
From Stdlib Require Import Strings.Byte.
From stdpp Require Import base numbers sorting list.
From S2P Require Import Prelude Ordering MemoryRecord MemoryValidity.

Open Scope Z_scope.

Definition MAX_MEMORY_PROJECTION_VERSIONS : Z := 4096.

Record MemoryVersionHeadInput := {
  ver_revision : bytes;
  ver_record : MemoryRecord;
  ver_locally_approved : bool;
}.

Inductive MemoryHeadState := NoApprovedVersion | HeadSelected | HeadConflicted | HeadIndeterminate.

Record MemoryHeadSelection := {
  sel_state : MemoryHeadState;
  sel_revision : option bytes;
  sel_approved_version_count : Z;
  sel_head_count : Z;
  sel_missing_parent_count : Z;
}.

Inductive MemoryEvidenceOutcome :=
| EvExact | EvCorresponded | EvChanged | EvNeedsReview | EvMissing | EvIndeterminate.

#[export] Instance evidence_outcome_eq_dec : EqDecision MemoryEvidenceOutcome.
Proof. solve_decision. Defined.

Inductive MemoryEffectiveState :=
| StateCurrent | StateNotApplicable | StateStale | StateNeedsReview | StateIndeterminate | StateConflicted
| StateContradicted | StateSuperseded | StateQuarantined | StateTombstoned.

Inductive MemoryProjectionValidityState := ValidityValid | ValidityInvalid | ValidityIndeterminate | ValidityNotEvaluated.

Inductive MemoryProjectionEvidenceState :=
| AggregateExact | AggregateCorresponded | AggregateChanged | AggregateAmbiguous | AggregateMissing
| AggregateIndeterminate | AggregateNotEvaluated.

Inductive MemoryProjectionReason :=
| ReasonEvidenceExact | ReasonEvidenceCorresponded | ReasonEvidenceChanged | ReasonEvidenceAmbiguous
| ReasonEvidenceMissing | ReasonEvidenceIndeterminate | ReasonProjectNotApplicable | ReasonProjectIndeterminate
| ReasonAuthoredNeedsReview | ReasonAuthoredStale | ReasonAuthoredContradicted | ReasonAuthoredSuperseded
| ReasonAuthoredQuarantined | ReasonAuthoredTombstoned.

Record MemoryProjectionDecision := {
  dec_effective_state : MemoryEffectiveState;
  dec_validity_state : MemoryProjectionValidityState;
  dec_evidence_state : MemoryProjectionEvidenceState;
  dec_reason : MemoryProjectionReason;
  dec_evidence_count : Z;
  dec_resolved_count : Z;
  dec_review_count : Z;
  dec_indeterminate_count : Z;
}.

Inductive MemoryProjectionError := TooManyVersions | InvalidVersionSet | ProjectionCountNotRepresentable | InvalidEvaluation.

Definition projection_count (value : nat) : result MemoryProjectionError Z :=
  ok_or (u32_of_len value) ProjectionCountNotRepresentable.

(** ** Head selection *)

Definition head_selection (state : MemoryHeadState) (selected_revision : option bytes)
    (approved_version_count head_count missing_parent_count : nat) : result MemoryProjectionError MemoryHeadSelection :=
  approved ← projection_count approved_version_count;
  heads ← projection_count head_count;
  missing ← projection_count missing_parent_count;
  Ok {| sel_state := state; sel_revision := selected_revision; sel_approved_version_count := approved;
        sel_head_count := heads; sel_missing_parent_count := missing |}.

Definition version_record_id (version : MemoryVersionHeadInput) : bytes := hdr_record_id (rec_header (ver_record version)).
Definition version_parents (version : MemoryVersionHeadInput) : list bytes := hdr_parents (rec_header (ver_record version)).

(** The loop that collects the revisions, of one record and without repetition. *)
Definition collect_revision (record_id : bytes) (all_revisions : list bytes) (version : MemoryVersionHeadInput)
    : result MemoryProjectionError (list bytes) :=
  if negb (bool_decide (version_record_id version = record_id)) || bset_mem (ver_revision version) all_revisions
  then Err InvalidVersionSet
  else Ok (bset_insert (ver_revision version) all_revisions).

(** One parent of an approved version. *)
Definition collect_parent (all_revisions approved_revisions : list bytes) (s : list bytes * list bytes) (parent : bytes)
    : list bytes * list bytes :=
  let '(referenced_approved, missing_parents) := s in
  (if bset_mem parent approved_revisions then bset_insert parent referenced_approved else referenced_approved,
   if bset_mem parent all_revisions then missing_parents else bset_insert parent missing_parents).

(** Both uses of [heads[0]] index before anything is decided about the head, so the function
    panics, here the [None], when there is no head: [then_some] evaluates its argument. *)
Definition select_memory_head (versions : list MemoryVersionHeadInput)
    : option (result MemoryProjectionError MemoryHeadSelection) :=
  if MAX_MEMORY_PROJECTION_VERSIONS <? Z.of_nat (length versions) then Some (Err TooManyVersions)
  else
    match versions with
    | [] => Some (head_selection NoApprovedVersion None 0 0 0)
    | first :: _ =>
        let record_id := version_record_id first in
        match try_fold (collect_revision record_id) [] versions with
        | Err e => Some (Err e)
        | Ok all_revisions =>
        let approved := filter (λ version, ver_locally_approved version = true) versions in
        if bool_decide (length approved = 0%nat) then Some (head_selection NoApprovedVersion None 0 0 0)
        else
          let approved_revisions := bset_of_list (ver_revision <$> approved) in
          let '(referenced_approved, missing_parents) :=
            foldl (λ s version, foldl (collect_parent all_revisions approved_revisions) s (version_parents version)) ([], []) approved in
          let heads := filter (λ revision, bset_mem revision referenced_approved = false) approved_revisions in
          let approved_count := length approved in
          let head_count := length heads in
          let missing_count := length missing_parents in
          if (0 <? missing_count)%nat || bool_decide (head_count = 0%nat)
          then
            first_head ← heads !! 0%nat;
            Some (head_selection HeadIndeterminate (if (head_count =? 1)%nat then Some first_head else None)
                    approved_count head_count missing_count)
          else if (1 <? head_count)%nat then Some (head_selection HeadConflicted None approved_count head_count 0)
          else
            first_head ← heads !! 0%nat;
            Some (head_selection HeadSelected (Some first_head) approved_count 1 0)
        end
    end.

(** ** Effective state *)

Definition decision (effective_state : MemoryEffectiveState) (validity_state : MemoryProjectionValidityState)
    (evidence_state : MemoryProjectionEvidenceState) (reason : MemoryProjectionReason)
    (evidence_count resolved_count review_count indeterminate_count : nat) : result MemoryProjectionError MemoryProjectionDecision :=
  evidence ← projection_count evidence_count;
  resolved ← projection_count resolved_count;
  review ← projection_count review_count;
  indeterminate ← projection_count indeterminate_count;
  Ok {| dec_effective_state := effective_state; dec_validity_state := validity_state; dec_evidence_state := evidence_state;
        dec_reason := reason; dec_evidence_count := evidence; dec_resolved_count := resolved; dec_review_count := review;
        dec_indeterminate_count := indeterminate |}.

Definition contains (o : MemoryEvidenceOutcome) (evidence : list MemoryEvidenceOutcome) : bool := bool_decide (o ∈ evidence).

Definition evaluate_valid_evidence (evidence : list MemoryEvidenceOutcome) : result MemoryProjectionError MemoryProjectionDecision :=
  let evidence_count := length evidence in
  let resolved := length (filter (λ o, o = EvExact ∨ o = EvCorresponded) evidence) in
  let review := length (filter (λ o, o = EvNeedsReview) evidence) in
  let indeterminate := length (filter (λ o, o = EvIndeterminate) evidence) in
  let '(effective, aggregate, reason) :=
    if contains EvIndeterminate evidence then (StateIndeterminate, AggregateIndeterminate, ReasonEvidenceIndeterminate)
    else if contains EvNeedsReview evidence then (StateNeedsReview, AggregateAmbiguous, ReasonEvidenceAmbiguous)
    else if contains EvChanged evidence then (StateStale, AggregateChanged, ReasonEvidenceChanged)
    else if contains EvMissing evidence then (StateStale, AggregateMissing, ReasonEvidenceMissing)
    else if contains EvCorresponded evidence then (StateCurrent, AggregateCorresponded, ReasonEvidenceCorresponded)
    else (StateCurrent, AggregateExact, ReasonEvidenceExact) in
  decision effective ValidityValid aggregate reason evidence_count resolved review indeterminate.

(** An active lifecycle is evaluated separately: the [unreachable!] is the [None]. *)
Definition authored_state (lifecycle : MemoryLifecycle) : option (MemoryEffectiveState * MemoryProjectionReason) :=
  match lifecycle with
  | NeedsReview => Some (StateNeedsReview, ReasonAuthoredNeedsReview)
  | Stale => Some (StateStale, ReasonAuthoredStale)
  | Contradicted => Some (StateContradicted, ReasonAuthoredContradicted)
  | Superseded => Some (StateSuperseded, ReasonAuthoredSuperseded)
  | Quarantined => Some (StateQuarantined, ReasonAuthoredQuarantined)
  | Tombstoned => Some (StateTombstoned, ReasonAuthoredTombstoned)
  | Active => None
  end.

Definition authored_lifecycle_decision (lifecycle : MemoryLifecycle) (evidence_count : nat)
    : option (result MemoryProjectionError MemoryProjectionDecision) :=
  '(effective_state, reason) ← authored_state lifecycle;
  Some (decision effective_state ValidityNotEvaluated AggregateNotEvaluated reason evidence_count 0 0 0).

Definition evaluate_memory_projection (record : MemoryRecord) (project_validity : option MemoryProjectValidity)
    (evidence : list MemoryEvidenceOutcome) : option (result MemoryProjectionError MemoryProjectionDecision) :=
  let cited := length (rec_evidence record) in
  if MAX_MEMORY_EVIDENCE <? Z.of_nat cited then Some (Err InvalidEvaluation)
  else if (rec_schema_version record =? 2) && bool_decide (claim_kind (rec_claim record) = Procedure)
          && bool_decide (rec_lifecycle record = Active)
  then Some (decision StateNeedsReview ValidityNotEvaluated AggregateNotEvaluated ReasonAuthoredNeedsReview cited 0 0 0)
  else if negb (bool_decide (rec_lifecycle record = Active)) then
    if negb (bool_decide (project_validity = None)) || negb (bool_decide (evidence = []))
    then Some (Err InvalidEvaluation)
    else authored_lifecycle_decision (rec_lifecycle record) cited
  else
    Some match project_validity with
         | Some ProjectNotApplicable =>
             if bool_decide (evidence = [])
             then decision StateNotApplicable ValidityInvalid AggregateNotEvaluated ReasonProjectNotApplicable cited 0 0 0
             else Err InvalidEvaluation
         | Some ProjectIndeterminate =>
             if bool_decide (evidence = [])
             then decision StateIndeterminate ValidityIndeterminate AggregateNotEvaluated ReasonProjectIndeterminate cited 0 0 0
             else Err InvalidEvaluation
         | Some ProjectValid => if (length evidence =? cited)%nat then evaluate_valid_evidence evidence else Err InvalidEvaluation
         | None => Err InvalidEvaluation
         end.

(** ** The approved heads *)

Section heads.
Context (versions : list MemoryVersionHeadInput).

Definition approved_versions : list MemoryVersionHeadInput := filter (λ version, ver_locally_approved version = true) versions.

(** An approved revision that no approved version names as a parent. *)
Definition is_head (revision : bytes) : Prop :=
  (∃ a, a ∈ approved_versions ∧ ver_revision a = revision) ∧ ∀ b, b ∈ approved_versions → revision ∉ version_parents b.

(** A parent of an approved version that is not among the versions. *)
Definition is_missing (parent : bytes) : Prop :=
  (∃ a, a ∈ approved_versions ∧ parent ∈ version_parents a) ∧ ∀ v, v ∈ versions → ver_revision v ≠ parent.

(** Approved versions each of which another one names as a parent: no head at all. *)
Definition headless : Prop := approved_versions ≠ [] ∧ ∀ revision, ¬ is_head revision.

(** The versions of one record, each once. *)
Definition one_journal : Prop :=
  (∀ v v', v ∈ versions → v' ∈ versions → version_record_id v = version_record_id v') ∧ NoDup (ver_revision <$> versions).
End heads.

(** What the selection makes of the approved versions, the heads and the missing parents. *)
Definition head_of (approved_count : nat) (heads missing : list bytes)
    : option (result MemoryProjectionError MemoryHeadSelection) :=
  if bool_decide (approved_count = 0%nat) then Some (head_selection NoApprovedVersion None 0 0 0)
  else
    match heads with
    | [] => None
    | first_head :: others =>
        let first := if bool_decide (others = []) then Some first_head else None in
        Some (if (0 <? length missing)%nat then head_selection HeadIndeterminate first approved_count (length heads) (length missing)
              else if bool_decide (others = []) then head_selection HeadSelected first approved_count 1 0
              else head_selection HeadConflicted None approved_count (length heads) 0)
    end.

Lemma collect_revisions_spec record_id versions :
  match try_fold (collect_revision record_id) [] versions with
  | Ok s => bset_wf s ∧ (∀ r, r ∈ s ↔ r ∈ ver_revision <$> versions)
            ∧ Forall (λ v, version_record_id v = record_id) versions ∧ NoDup (ver_revision <$> versions)
  | Err e => e = InvalidVersionSet
             ∧ ¬ (Forall (λ v, version_record_id v = record_id) versions ∧ NoDup (ver_revision <$> versions))
  end.
Proof.
  induction versions as [|v versions IH] using rev_ind; [split_and!; [constructor|done|done|constructor]|].
  assert (Forall (λ v, version_record_id v = record_id) (versions ++ [v]) ∧ NoDup (ver_revision <$> versions ++ [v]) ↔
          (Forall (λ v, version_record_id v = record_id) versions ∧ NoDup (ver_revision <$> versions))
          ∧ version_record_id v = record_id ∧ ver_revision v ∉ ver_revision <$> versions) as Hnd.
  { rewrite Forall_app, Forall_singleton, fmap_app, NoDup_app. simpl. split.
    - intros ([? ?] & ? & Hd & _). split_and!; try done. intros Hin. apply (Hd _ Hin). by left.
    - intros ([? ?] & ? & Hn). split_and!; try done; [by intros x Hx ->%list_elem_of_singleton|apply NoDup_singleton]. }
  rewrite try_fold_app.
  destruct (try_fold (collect_revision record_id) [] versions) as [s|e]; simpl; [|destruct IH as [-> IH]; split; [done|]; tauto].
  destruct IH as (Hw & Hs & Hf & Hn). unfold collect_revision at 1.
  case_bool_decide as Hid; simpl; [|split; [done|]; tauto]. destruct (bset_mem (ver_revision v) s) eqn:Em; simpl.
  - split; [done|]. apply bset_mem_spec, Hs in Em; [|done]. tauto.
  - apply bset_mem_false in Em; [|done]. rewrite Hs in Em. split_and!; [by apply bset_insert_wf| |by apply Hnd..].
    intros r. rewrite elem_of_bset_insert, Hs, fmap_app, elem_of_app. simpl. rewrite list_elem_of_singleton. tauto.
Qed.

Lemma foldl_nested {A B S} (f : S → B → S) (g : A → list B) s (xs : list A) :
  foldl (λ s x, foldl f s (g x)) s xs = foldl f s (concat (g <$> xs)).
Proof. revert s. induction xs as [|x xs IH]; intros s; [done|]. simpl. by rewrite foldl_app, IH. Qed.

Lemma collect_parents_spec all approved ps s :
  bset_wf all → bset_wf approved → bset_wf s.1 → bset_wf s.2 →
  let s' := foldl (collect_parent all approved) s ps in
  bset_wf s'.1 ∧ bset_wf s'.2
  ∧ (∀ r, r ∈ s'.1 ↔ r ∈ s.1 ∨ r ∈ ps ∧ r ∈ approved) ∧ (∀ r, r ∈ s'.2 ↔ r ∈ s.2 ∨ r ∈ ps ∧ r ∉ all).
Proof.
  intros Ha Hp. revert s. induction ps as [|p ps IH]; intros [s1 s2] H1 H2; simpl.
  { split_and!; [done|done|intros r..]; rewrite elem_of_nil; tauto. }
  simpl in H1, H2. destruct (IH (collect_parent all approved (s1, s2) p)) as (W1 & W2 & E1 & E2); simpl.
  - destruct (bset_mem p approved); [by apply bset_insert_wf|done].
  - destruct (bset_mem p all); [done|by apply bset_insert_wf].
  - simpl in E1, E2. split_and!; [done|done|intros r; rewrite E1|intros r; rewrite E2]; rewrite elem_of_cons.
    + destruct (bset_mem p approved) eqn:E; [apply bset_mem_spec in E; [|done]|apply bset_mem_false in E; [|done]];
        rewrite ?elem_of_bset_insert; naive_solver.
    + destruct (bset_mem p all) eqn:E; [apply bset_mem_spec in E; [|done]|apply bset_mem_false in E; [|done]];
        rewrite ?elem_of_bset_insert; naive_solver.
Qed.

Lemma elem_of_parents p (vs : list MemoryVersionHeadInput) : p ∈ concat (version_parents <$> vs) ↔ ∃ v, v ∈ vs ∧ p ∈ version_parents v.
Proof.
  rewrite list_elem_of_In, in_concat. split.
  - intros (l & (v & -> & Hv)%list_elem_of_In%list_elem_of_fmap & Hp). exists v. split; [done|by apply list_elem_of_In].
  - intros (v & Hv & Hp). exists (version_parents v). split; [|by apply list_elem_of_In].
    apply list_elem_of_In, list_elem_of_fmap. eauto.
Qed.

(** The selection depends on the heads and the missing parents alone. *)
Lemma select_memory_head_spec versions :
  if MAX_MEMORY_PROJECTION_VERSIONS <? Z.of_nat (length versions) then select_memory_head versions = Some (Err TooManyVersions)
  else
    (¬ one_journal versions ∧ select_memory_head versions = Some (Err InvalidVersionSet))
    ∨ (one_journal versions ∧ ∃ heads missing,
       bset_wf heads ∧ bset_wf missing ∧ (∀ r, r ∈ heads ↔ is_head versions r) ∧ (∀ p, p ∈ missing ↔ is_missing versions p)
       ∧ select_memory_head versions = head_of (length (approved_versions versions)) heads missing).
Proof.
  unfold select_memory_head. destruct (_ <? _); [done|]. destruct versions as [|first versions].
  { right. split; [split; [by intros ? ? ?%elem_of_nil|constructor]|]. assert (∀ a, a ∈ approved_versions [] → False) as Hno by (intros a [_ ?%elem_of_nil]%list_elem_of_filter; done).
    exists [], []. split_and!; [constructor|constructor|intros r..|done].
    - split; [by intros ?%elem_of_nil|intros [(a & Ha & _) _]; by apply Hno in Ha].
    - split; [by intros ?%elem_of_nil|intros [(a & Ha & _) _]; by apply Hno in Ha]. }
  set (vs := first :: versions). pose proof (collect_revisions_spec (version_record_id first) vs) as Hc.
  assert (one_journal vs ↔ Forall (λ v, version_record_id v = version_record_id first) vs ∧ NoDup (ver_revision <$> vs)) as Hj.
  { unfold one_journal. rewrite Forall_forall. split.
    - intros [H ?]. split; [|done]. intros v Hv. apply H; [done|by left].
    - intros [H ?]. split; [|done]. intros v v' Hv Hv'. by rewrite (H v Hv), (H v' Hv'). }
  destruct (try_fold _ _ _) as [all|e]; [|left; destruct Hc as [-> Hc]; split; [by rewrite Hj|done]].
  right. destruct Hc as (Hw & Hall & Hf & Hn). split; [by apply Hj|].
  fold (approved_versions vs). rewrite foldl_nested.
  set (approved := bset_of_list (ver_revision <$> approved_versions vs)).
  assert (bset_wf approved) as Hwa by apply bset_of_list_wf.
  pose proof (collect_parents_spec all approved (concat (version_parents <$> approved_versions vs)) ([], []) Hw Hwa bset_nil_wf bset_nil_wf) as Hp.
  destruct (foldl _ _ _) as [referenced missing]. simpl in Hp. destruct Hp as (W1 & W2 & E1 & E2).
  eexists (filter (λ revision, bset_mem revision referenced = false) approved), missing. split_and!; [by apply filter_wf|done| | |].
  - intros r. rewrite list_elem_of_filter, bset_mem_false by done. unfold approved. rewrite elem_of_bset_of_list.
    rewrite E1, elem_of_nil, elem_of_parents. unfold approved. rewrite elem_of_bset_of_list. unfold is_head. rewrite list_elem_of_fmap. split.
    + intros [Hr (a & -> & Ha)]. split; [eauto|]. intros b Hb Hpar. apply Hr. right. split; [eauto|]. by exists a.
    + intros [(a & Ha & <-) Hr]. split; [|by exists a]. intros [[]|[(b & Hb & Hpar) _]]. by apply (Hr b).
  - intros p. rewrite E2, elem_of_nil, elem_of_parents, Hall. unfold is_missing. split.
    + intros [[]|[Hp Hm]]. split; [done|]. intros v Hv <-. apply Hm, list_elem_of_fmap. eauto.
    + intros [Hp Hm]. right. split; [done|]. intros (v & -> & Hv)%list_elem_of_fmap. by apply (Hm v).
  - unfold head_of. case_bool_decide; [done|]. destruct (filter _ approved) as [|h [|h' heads]], missing as [|m missing]; done.
Qed.

(** ** Counts *)

Lemma projection_count_Ok n : Z.of_nat n ≤ u32_max → projection_count n = Ok (Z.of_nat n).
Proof. intros H. unfold projection_count, u32_of_len. by rewrite checked_in by lia. Qed.

Lemma length_concat_parents (vs : list MemoryVersionHeadInput) :
  Forall (λ v, header_wf (rec_header (ver_record v))) vs →
  Z.of_nat (length (concat (version_parents <$> vs))) ≤ MAX_MEMORY_PARENTS * Z.of_nat (length vs).
Proof.
  unfold MAX_MEMORY_PARENTS. induction 1 as [|v vs [_ Hl _] _ IH]; [done|]. rewrite fmap_cons. cbn [concat]. rewrite length_app. cbn [length].
  assert (Z.of_nat (length (version_parents v)) ≤ 8) as Hp by exact Hl. lia.
Qed.

Lemma count_bounds versions (heads missing : list bytes) :
  Z.of_nat (length versions) ≤ MAX_MEMORY_PROJECTION_VERSIONS →
  Forall (λ v, header_wf (rec_header (ver_record v))) versions →
  bset_wf heads → bset_wf missing → (∀ r, r ∈ heads ↔ is_head versions r) → (∀ p, p ∈ missing ↔ is_missing versions p) →
  Z.of_nat (length (approved_versions versions)) ≤ u32_max ∧ Z.of_nat (length heads) ≤ u32_max ∧ Z.of_nat (length missing) ≤ u32_max.
Proof.
  unfold MAX_MEMORY_PROJECTION_VERSIONS, u32_max. intros Hl Hf Wh Wm Hh Hm.
  pose proof (length_filter (λ version, ver_locally_approved version = true) versions) as Ha. fold (approved_versions versions) in Ha.
  assert (length heads ≤ length (approved_versions versions))%nat.
  { rewrite <- (length_fmap ver_revision (approved_versions versions)). apply submseteq_length, NoDup_submseteq; [by apply bset_wf_NoDup|].
    intros r [(a & Hr & <-) _]%Hh. apply list_elem_of_fmap. by exists a. }
  assert (length missing ≤ length (concat (version_parents <$> versions)))%nat.
  { apply submseteq_length, NoDup_submseteq; [by apply bset_wf_NoDup|]. intros p [(a & Hp & Hpar) _]%Hm.
    apply elem_of_parents. exists a. split; [|done]. by apply list_elem_of_filter in Hp as [_ ?]. }
  pose proof (length_concat_parents versions Hf). unfold MAX_MEMORY_PARENTS in *. lia.
Qed.

Lemma bset_nil_iff (s : list bytes) : length s = 0%nat ↔ ∀ x, x ∉ s.
Proof.
  destruct s as [|y s]; simpl; [split; [intros _ x; apply not_elem_of_nil|done]|].
  split; [done|]. intros H. destruct (H y). by left.
Qed.

(** What a selection states of the versions. *)
Definition selection_of (versions : list MemoryVersionHeadInput) (sel : MemoryHeadSelection) : Prop :=
  match sel_state sel with
  | NoApprovedVersion => approved_versions versions = [] ∧ sel_revision sel = None
  | HeadSelected => (∀ p, ¬ is_missing versions p) ∧ ∃ r, sel_revision sel = Some r ∧ ∀ r', is_head versions r' ↔ r' = r
  | HeadConflicted => (∀ p, ¬ is_missing versions p) ∧ sel_revision sel = None
                      ∧ ∃ r r', r ≠ r' ∧ is_head versions r ∧ is_head versions r'
  | HeadIndeterminate => (∃ p, is_missing versions p) ∧ (∃ r, is_head versions r)
                         ∧ ∀ r, sel_revision sel = Some r ↔ ∀ r', is_head versions r' ↔ r' = r
  end.

(** The first of the heads when it is the only one. *)
Lemma single_head (h : bytes) (others : list bytes) r :
  NoDup (h :: others) → (if bool_decide (others = []) then Some h else None) = Some r ↔ ∀ r', r' ∈ h :: others ↔ r' = r.
Proof.
  intros Hn. case_bool_decide as Ho.
  - subst. setoid_rewrite list_elem_of_singleton. split; [intros [= ->]; done|]. intros H. f_equal. symmetry. by apply H.
  - split; [done|]. intros H. destruct others as [|h' others]; [done|]. apply NoDup_cons in Hn as [[] _].
    rewrite (proj1 (H h)) by (by left). rewrite (proj1 (H h')) by (right; by left). by left.
Qed.

Lemma head_of_spec versions (heads missing : list bytes) :
  bset_wf heads → bset_wf missing → (∀ r, r ∈ heads ↔ is_head versions r) → (∀ p, p ∈ missing ↔ is_missing versions p) →
  Z.of_nat (length (approved_versions versions)) ≤ u32_max → Z.of_nat (length heads) ≤ u32_max → Z.of_nat (length missing) ≤ u32_max →
  match head_of (length (approved_versions versions)) heads missing with
  | Some (Ok sel) => ¬ headless versions ∧ selection_of versions sel
  | Some (Err _) => False
  | None => headless versions
  end.
Proof.
  intros Wh Wm Hh Hm L1 L2 L3. unfold head_of, head_selection, headless. pose proof (bset_wf_NoDup _ Wh) as Hnd.
  case_bool_decide as Ha; [apply length_zero_iff_nil in Ha; rstep; by split; [intros [? _]|]|].
  assert (approved_versions versions ≠ []) as Hne by (intros E; by rewrite E in Ha).
  destruct heads as [|h others]; [split; [done|]; intros r Hr%Hh; by apply elem_of_nil in Hr|].
  assert (is_head versions h) as Hhead by (apply Hh; by left).
  assert (¬ (approved_versions versions ≠ [] ∧ ∀ r, ¬ is_head versions r)) as Hsome by (intros [_ Hno]; by apply (Hno h)).
  pose proof (λ r, single_head h others r Hnd) as Hsingle. setoid_rewrite Hh in Hsingle.
  destruct (Nat.ltb_spec 0 (length missing)) as [Hlt|Hge].
  { rewrite !projection_count_Ok by done. rstep. split; [done|]. unfold selection_of. cbn [sel_state sel_revision].
    split_and!; [|by exists h|done]. destruct missing as [|p missing]; [simpl in Hlt; lia|]. exists p. apply Hm. by left. }
  assert (∀ p, ¬ is_missing versions p) as Hnm by (intros p Hp%Hm; by apply (proj1 (bset_nil_iff missing) ltac:(lia) p)).
  case_bool_decide as Ho; rewrite !projection_count_Ok by done; rstep; (split; [done|]); unfold selection_of; cbn [sel_state sel_revision].
  - split; [done|]. exists h. split; [done|]. by apply Hsingle.
  - split_and!; [done|done|]. destruct others as [|h' others]; [done|]. exists h, h'. split_and!; [|done|apply Hh; by right; left].
    intros ->. apply NoDup_cons in Hnd as [[] _]. by left.
Qed.

(** C12: the head of a memory record is selected exactly when its approved versions have one
    that none of them names as a parent and no parent is unknown; several heads are a
    conflict, and an unknown parent leaves the selection indeterminate; the selection panics
    exactly when there are approved versions and each is named as a parent by another
    (approved parents in a cycle); only versions of two records, a repeated revision or more
    than 4096 versions are refused. *)
Theorem memory_head_exact versions :
  Forall (λ v, header_wf (rec_header (ver_record v))) versions →
  match select_memory_head versions with
  | Some (Ok sel) => one_journal versions ∧ ¬ headless versions ∧ selection_of versions sel
  | Some (Err TooManyVersions) => MAX_MEMORY_PROJECTION_VERSIONS < Z.of_nat (length versions)
  | Some (Err e) => e = InvalidVersionSet ∧ ¬ one_journal versions
  | None => Z.of_nat (length versions) ≤ MAX_MEMORY_PROJECTION_VERSIONS ∧ one_journal versions ∧ headless versions
  end.
Proof.
  intros Hf. pose proof (select_memory_head_spec versions) as H.
  destruct (Z.ltb_spec MAX_MEMORY_PROJECTION_VERSIONS (Z.of_nat (length versions))); [by rewrite H|].
  destruct H as [[Hn ->]|(Hj & heads & missing & Wh & Wm & Hh & Hm & ->)]; [done|].
  destruct (count_bounds versions heads missing) as (L1 & L2 & L3); [done..|].
  pose proof (head_of_spec versions heads missing Wh Wm Hh Hm L1 L2 L3) as Hs.
  by destruct (head_of _ _ _) as [[sel|e]|]; [|done|].
Qed.

(** Which version is selected does not depend on the order the versions are listed in. *)
Theorem memory_head_order_independent versions versions' :
  versions ≡ₚ versions' → select_memory_head versions = select_memory_head versions'.
Proof.
  intros Hp. pose proof (select_memory_head_spec versions) as H. pose proof (select_memory_head_spec versions') as H'.
  assert (one_journal versions ↔ one_journal versions') as Hj by (unfold one_journal; by setoid_rewrite Hp).
  assert (approved_versions versions ≡ₚ approved_versions versions') as Ha by (unfold approved_versions; by rewrite Hp).
  rewrite <- (Permutation_length Hp) in H'. destruct (_ <? _); [by rewrite H, H'|].
  destruct H as [[Hn ->]|(Hy & heads & missing & Wh & Wm & Hh & Hm & ->)];
    destruct H' as [[Hn' ->]|(Hy' & heads' & missing' & Wh' & Wm' & Hh' & Hm' & ->)]; [done|by destruct Hn; apply Hj|by destruct Hn'; apply Hj|].
  rewrite <- (Permutation_length Ha).
  rewrite (bset_ext heads heads'), (bset_ext missing missing'); [done|done|done| |done|done|].
  - intros p. rewrite Hm, Hm'. unfold is_missing. by setoid_rewrite Ha; setoid_rewrite Hp.
  - intros r. rewrite Hh, Hh'. unfold is_head. by setoid_rewrite Ha.
Qed.

(** ** The effective state *)

(** The inputs of an evaluation fit the record's lifecycle. *)
Definition evaluation_fits (record : MemoryRecord) (project_validity : option MemoryProjectValidity)
    (evidence : list MemoryEvidenceOutcome) : Prop :=
  match rec_lifecycle record, project_validity with
  | Active, Some ProjectValid => length evidence = length (rec_evidence record)
  | Active, Some _ => evidence = []
  | Active, None => False
  | _, _ => project_validity = None ∧ evidence = []
  end.

(** A procedure of the second profile, which is never current by itself. *)
Definition unverified_procedure (record : MemoryRecord) : Prop :=
  rec_schema_version record = 2 ∧ claim_kind (rec_claim record) = Procedure ∧ rec_lifecycle record = Active.

Lemma decision_Ok e v a r n1 n2 n3 n4 :
  Z.of_nat n1 ≤ u32_max → (n2 ≤ n1)%nat → (n3 ≤ n1)%nat → (n4 ≤ n1)%nat →
  decision e v a r n1 n2 n3 n4 = Ok {| dec_effective_state := e; dec_validity_state := v; dec_evidence_state := a; dec_reason := r;
    dec_evidence_count := Z.of_nat n1; dec_resolved_count := Z.of_nat n2; dec_review_count := Z.of_nat n3;
    dec_indeterminate_count := Z.of_nat n4 |}.
Proof. intros. unfold decision. rewrite !projection_count_Ok by lia. done. Qed.

Lemma outcome_partition (evidence : list MemoryEvidenceOutcome) :
  (length (filter (λ o, o = EvExact ∨ o = EvCorresponded) evidence) + length (filter (λ o, o = EvNeedsReview) evidence)
   + length (filter (λ o, o = EvIndeterminate) evidence) + length (filter (λ o, o = EvChanged ∨ o = EvMissing) evidence)
   = length evidence)%nat.
Proof.
  induction evidence as [|o evidence IH]; [done|]. rewrite !filter_cons. destruct o; repeat case_decide; simpl; naive_solver lia.
Qed.

Lemma evaluate_valid_evidence_spec evidence :
  Z.of_nat (length evidence) ≤ MAX_MEMORY_EVIDENCE →
  ∃ d, evaluate_valid_evidence evidence = Ok d ∧ dec_evidence_count d = Z.of_nat (length evidence)
       ∧ dec_validity_state d = ValidityValid
       ∧ dec_resolved_count d = Z.of_nat (length (filter (λ o, o = EvExact ∨ o = EvCorresponded) evidence))
       ∧ dec_resolved_count d + dec_review_count d + dec_indeterminate_count d ≤ dec_evidence_count d
       ∧ match dec_effective_state d with
         | StateIndeterminate => EvIndeterminate ∈ evidence
         | StateNeedsReview => EvIndeterminate ∉ evidence ∧ EvNeedsReview ∈ evidence
         | StateStale => EvIndeterminate ∉ evidence ∧ EvNeedsReview ∉ evidence ∧ (EvChanged ∈ evidence ∨ EvMissing ∈ evidence)
         | StateCurrent => Forall (λ o, o = EvExact ∨ o = EvCorresponded) evidence
         | _ => False
         end.
Proof.
  unfold MAX_MEMORY_EVIDENCE. intros Hl. pose proof (outcome_partition evidence) as Hp. unfold evaluate_valid_evidence, contains.
  repeat case_bool_decide; rewrite decision_Ok by (unfold u32_max; lia); eexists; (split; [reflexivity|]); simpl;
    (split; [done|]); (split; [done|]); (split; [done|]); (split; [lia|]); try tauto.
  all: rewrite Forall_forall; intros o Ho; destruct o; first [by left|by right|done].
Qed.

Lemma authored_state_Some lifecycle :
  lifecycle ≠ Active → ∃ s r, authored_state lifecycle = Some (s, r) ∧ s ≠ StateCurrent.
Proof. destruct lifecycle; intros H; [done|eexists _, _; split; [reflexivity|done]..]. Qed.

Lemma fits_authored record project_validity evidence :
  rec_lifecycle record ≠ Active →
  evaluation_fits record project_validity evidence ↔ project_validity = None ∧ evidence = [].
Proof. unfold evaluation_fits. by destruct (rec_lifecycle record). Qed.

(** C13: the effective state of a record is decided exactly when validity and evidence fit
    its lifecycle; it is current just when the record is active and not an unverified
    procedure, applies to the project, and every citation was found exact or by
    correspondence; the counts account for the citations. *)
Theorem memory_projection_exact record project_validity evidence :
  Z.of_nat (length (rec_evidence record)) ≤ MAX_MEMORY_EVIDENCE →
  match evaluate_memory_projection record project_validity evidence with
  | Some (Ok d) =>
      (unverified_procedure record ∨ evaluation_fits record project_validity evidence)
      ∧ (dec_effective_state d = StateCurrent ↔
         rec_lifecycle record = Active ∧ ¬ unverified_procedure record ∧ project_validity = Some ProjectValid
         ∧ Forall (λ o, o = EvExact ∨ o = EvCorresponded) evidence)
      ∧ dec_evidence_count d = Z.of_nat (length (rec_evidence record))
      ∧ dec_resolved_count d + dec_review_count d + dec_indeterminate_count d ≤ dec_evidence_count d
      ∧ (dec_effective_state d = StateCurrent → dec_resolved_count d = dec_evidence_count d)
  | Some (Err e) => e = InvalidEvaluation ∧ ¬ evaluation_fits record project_validity evidence
  | None => False
  end.
Proof.
  intros Hl. unfold evaluate_memory_projection.
  destruct (Z.ltb_spec MAX_MEMORY_EVIDENCE (Z.of_nat (length (rec_evidence record)))); [lia|].
  assert (Z.of_nat (length (rec_evidence record)) ≤ u32_max) as Hu by (unfold MAX_MEMORY_EVIDENCE, u32_max in *; lia).
  assert ((rec_schema_version record =? 2) && bool_decide (claim_kind (rec_claim record) = Procedure)
          && bool_decide (rec_lifecycle record = Active) = true ↔ unverified_procedure record) as Hproc.
  { unfold unverified_procedure. rewrite !andb_true_iff, Z.eqb_eq, !bool_decide_eq_true. tauto. }
  destruct (_ && _ && _).
  { rewrite decision_Ok by lia. simpl. split_and!; [left; by apply Hproc| |done|lia|done]. split; [done|].
    intros (_ & Hn & _). destruct Hn. by apply Hproc. }
  assert (¬ unverified_procedure record) as Hnp by (by rewrite <- Hproc). clear Hproc.
  destruct (decide (rec_lifecycle record = Active)) as [El|El].
  2: { rewrite (bool_decide_eq_false_2 _ El). simpl. pose proof (fits_authored record project_validity evidence El) as Hfit.
       destruct (negb _ || negb _) eqn:Eb; simpl.
       - split; [done|]. rewrite Hfit. intros [-> ->]. done.
       - rewrite orb_false_iff, !negb_false_iff, !bool_decide_eq_true in Eb.
         destruct (authored_state_Some _ El) as (s & r & Hs & Hc). unfold authored_lifecycle_decision. rewrite Hs. simpl.
         rewrite decision_Ok by lia. simpl. split_and!; [right; by apply Hfit| |done|lia|done]. split; [done|]. by intros [? _]. }
  rewrite (bool_decide_eq_true_2 _ El). unfold evaluation_fits. rewrite El. simpl.
  destruct project_validity as [[]|]; simpl.
  - destruct (Nat.eqb_spec (length evidence) (length (rec_evidence record))) as [Hle|]; [|done].
    destruct (evaluate_valid_evidence_spec evidence ltac:(lia)) as (d & -> & Hc & _ & Hr & Hs & Hst).
    split_and!; [by right| |congruence|done|].
    + split; [intros E; rewrite E in Hst; by split_and!|]. intros (_ & _ & _ & Hf). rewrite Forall_forall in Hf.
      assert (∀ o, o ∈ evidence → o ≠ EvIndeterminate ∧ o ≠ EvNeedsReview ∧ o ≠ EvChanged ∧ o ≠ EvMissing) as Hno
        by (intros o [->| ->]%Hf; done).
      destruct (dec_effective_state d); naive_solver.
    + intros E. rewrite E in Hst. rewrite Hr, Hc, filter_all_true; [done|]. by apply Forall_forall.
  - case_bool_decide; [|done]. rewrite decision_Ok by lia. simpl. split_and!; [by right|naive_solver|done|lia|done].
  - case_bool_decide; [|done]. rewrite decision_Ok by lia. simpl. split_and!; [by right|naive_solver|done|lia|done].
  - split; [done|by intros []].
Qed.

(** A current memory applies: when a record is found current under the validity its
    ancestry checks give it, it was introduced and not invalidated in every history that
    agrees with the checks, and nothing it cites is missing, changed or undecided. *)
Theorem current_memory_applies record i d target t checks validity evidence decided :
  Z.of_nat (length (rec_evidence record)) ≤ MAX_MEMORY_EVIDENCE →
  rec_validity record = ValidCommits i d → validity_wf (ValidCommits i d) → ancestry_target target = Some t →
  evaluate_memory_project_validity (rec_validity record) target checks = Some (Ok validity) →
  evaluate_memory_projection record (Some validity) evidence = Some (Ok decided) →
  dec_effective_state decided = StateCurrent →
  rec_lifecycle record = Active ∧ (∀ history, agrees history checks → applies history i d)
  ∧ ∀ o, o ∈ evidence → o = EvExact ∨ o = EvCorresponded.
Proof.
  intros Hl Hv Hwf Ht He Hp Hc. unfold evaluate_memory_projection in Hp.
  destruct (Z.ltb_spec MAX_MEMORY_EVIDENCE (Z.of_nat (length (rec_evidence record)))); [lia|].
  destruct (_ && _ && _).
  { rewrite decision_Ok in Hp by (unfold MAX_MEMORY_EVIDENCE, u32_max in *; lia). injection Hp as <-. done. }
  case_bool_decide as Hact; simpl in Hp; [|done].
  assert (validity = ProjectValid) as ->.
  { assert (Z.of_nat (length (rec_evidence record)) ≤ u32_max) by (unfold MAX_MEMORY_EVIDENCE, u32_max in *; lia).
    destruct validity; [done|..]; case_bool_decide; try done; rewrite decision_Ok in Hp by lia; injection Hp as <-; done. }
  split; [done|]. split.
  - rewrite Hv in He. destruct (validity_wf_NoDup i d Hwf) as (_ & Hnd & _).
    assert (checks_complete i d t checks ∧ Z.of_nat (length checks) ≤ MAX_MEMORY_ANCESTRY_CHECKS) as [Hcc Hlen].
    { unfold evaluate_memory_project_validity in He. rewrite Ht in He. pose proof (validate_checks_spec i d t checks Hnd) as Hval.
      destruct (Z.ltb_spec MAX_MEMORY_ANCESTRY_CHECKS (Z.of_nat (length checks))); [done|].
      destruct (validate_checks i d t checks); [done|by destruct Hval]. }
    destruct (evaluate_complete i d t checks Hnd Hcc target Ht Hlen) as (v & Ev & Hcon).
    rewrite He in Ev. injection Ev as <-. exact Hcon.
  - destruct (Nat.eqb_spec (length evidence) (length (rec_evidence record))) as [E|]; [|done].
    destruct (evaluate_valid_evidence_spec evidence ltac:(lia)) as (d' & Ed & _ & _ & _ & _ & Hst).
    rewrite Ed in Hp. injection Hp as ->. rewrite Hc in Hst. by apply Forall_forall.
Qed.

(** ** Witnesses *)

Definition mem_span (first last : Z) : GraphIdentity.ByteSpan := {| GraphIdentity.span_start := first; GraphIdentity.span_end := last |}.

Definition mem_path : RepositoryPath.RepositoryPath :=
  {| RepositoryPath.path_bytes := b_of "src/lib.rs"; RepositoryPath.byte_count := 10; RepositoryPath.component_count := 2 |}.

Definition mem_evidence : MemoryEvidence :=
  {| ev_source_snapshot := repeat x22 32; ev_path := mem_path; ev_content := repeat x33 32; ev_artifact := repeat x44 32;
     ev_fact_ordinal := 0; ev_symbol_kind := MemFunction; ev_name := [0x66]; ev_qualified_name := [0x66];
     ev_name_span := mem_span 3 4; ev_declaration_span := mem_span 0 20; ev_declaration_digest := repeat x55 32;
     ev_producer_id := [0x70]; ev_producer_version := [0x31] |}.

Definition mem_header (parents : list bytes) : MemoryRecordHeader :=
  {| hdr_record_id := repeat x01 16; hdr_display_revision := 1; hdr_parents := parents |}.

Definition mem_record (parents : list bytes) : MemoryRecord :=
  {| rec_schema_version := 2; rec_header := mem_header parents;
     rec_claim := {| claim_kind := Decision; claim_title := [0x54]; claim_body := [0x42] |};
     rec_scope := {| scope_of_repository := repeat x66 32; subject_evidence := 0 |};
     rec_provenance := {| prov_origin := Human; prov_actor_kind := LocalAsserted; prov_actor_id := [0x61] |};
     rec_assurance := LocallyApproved; rec_lifecycle := Active;
     rec_validity := ValidCommits [val_commit x11] [val_commit x22];
     rec_evidence := [mem_evidence]; rec_relationships := []; rec_tombstone := false |}.

(** A version and its approved child. *)
Definition mem_versions : list MemoryVersionHeadInput :=
  [{| ver_revision := [x0a]; ver_record := mem_record []; ver_locally_approved := true |};
   {| ver_revision := [x0b]; ver_record := mem_record [[x0a]]; ver_locally_approved := true |}].

Lemma mem_header_wf parents : bset_wf parents → Z.of_nat (length parents) ≤ 8 → header_wf (mem_header parents).
Proof. by split. Qed.

Lemma memory_head_exact_witness :
  ∃ sel, select_memory_head mem_versions = Some (Ok sel) ∧ sel_revision sel = Some [x0b]
         ∧ one_journal mem_versions ∧ ¬ headless mem_versions ∧ selection_of mem_versions sel.
Proof.
  eexists. split; [vm_compute; reflexivity|]. split; [reflexivity|].
  apply (memory_head_exact mem_versions). constructor; [|constructor; [|constructor]]; apply mem_header_wf; first [done|repeat constructor].
Defined.

(** Two approved versions that name each other, which no head ends: a panic. *)
Definition cyclic_versions : list MemoryVersionHeadInput :=
  [{| ver_revision := [x0a]; ver_record := mem_record [[x0b]]; ver_locally_approved := true |};
   {| ver_revision := [x0b]; ver_record := mem_record [[x0a]]; ver_locally_approved := true |}].

Example headless_selection_panics : select_memory_head cyclic_versions = None.
Proof. vm_compute. reflexivity. Qed.

(** A missing parent does not prevent it. *)
Example headless_missing_panics :
  select_memory_head ({| ver_revision := [x0c]; ver_record := mem_record [[x0a]; [x0c]; [x0d]]; ver_locally_approved := true |}
                      :: cyclic_versions) = None.
Proof. vm_compute. reflexivity. Qed.

Lemma memory_head_order_independent_witness : select_memory_head mem_versions = select_memory_head (rev mem_versions).
Proof. apply memory_head_order_independent, Permutation_rev. Defined.

Lemma memory_projection_exact_witness :
  match evaluate_memory_projection (mem_record []) (Some ProjectValid) [EvExact] with
  | Some (Ok d) => dec_effective_state d = StateCurrent ∧ dec_resolved_count d = dec_evidence_count d
  | _ => False
  end.
Proof.
  pose proof (memory_projection_exact (mem_record []) (Some ProjectValid) [EvExact]) as H.
  destruct (evaluate_memory_projection (mem_record []) (Some ProjectValid) [EvExact]) as [[d|e]|] eqn:E;
    [|vm_compute in E; discriminate E..].
  assert (dec_effective_state d = StateCurrent) as Hc by (vm_compute in E; by injection E as <-).
  split; [exact Hc|]. apply H; [by vm_compute|exact Hc].
Defined.

Lemma current_memory_applies_witness :
  rec_lifecycle (mem_record []) = Active
  ∧ (∀ history, agrees history (val_checks OutcomeAncestor OutcomeNotAncestor) → applies history [val_commit x11] [val_commit x22])
  ∧ ∀ o, o ∈ [EvExact] → o = EvExact ∨ o = EvCorresponded.
Proof.
  eapply (current_memory_applies (mem_record []) [val_commit x11] [val_commit x22] (TargetGit (val_commit x33)) (val_commit x33)
            (val_checks OutcomeAncestor OutcomeNotAncestor) ProjectValid [EvExact]).
  - by vm_compute.
  - reflexivity.
  - apply val_wf.
  - reflexivity.
  - vm_compute. reflexivity.
  - vm_compute. reflexivity.
  - reflexivity.
Defined.
