(* ===== verification/MemoryFormat.v ===== *)
(** * Memory files

    Models [crates/repowitness-local/src/memory_format.rs] with [memory_format/canonical.rs]
    and [memory_format/yaml.rs]: the transfer objects of a memory record, their conversion
    from and to the domain, canonical serialization and identity, the preflight over a YAML
    stream, and the emission of YAML.  The parsers and serializers (YAML, JSON, RFC 8785) and
    SHA-256 are third-party code and parameters.  A text that the code reads byte by byte is
    its bytes, one it passes on its characters. *)

From Stdlib Require Import ZArith Lia ZifyBool.
From Stdlib Require Import Strings.Byte.
From stdpp Require Import base numbers sorting list.
From S2P Require Import Prelude Ordering Utf8 RepositoryPath PathText GraphIdentity IdentityText MemoryRecord.

Open Scope Z_scope.

Definition MAX_MEMORY_YAML_BYTES : Z := 64 * 1024.
Definition MAX_CANONICAL_MEMORY_BYTES : Z := 256 * 1024.
Definition MAX_MEMORY_YAML_EVENTS : Z := 4096.
Definition MAX_MEMORY_YAML_NODES : Z := 2048.
Definition MAX_MEMORY_YAML_DEPTH : Z := 8.
Definition PATH_TEXT_LIMIT : Z := MAX_MEMORY_YAML_BYTES.
Definition PATH_LIMITS : RepositoryPathLimits := {| max_bytes := 32764; max_components := 32764 |}.

Inductive MemoryFormatError :=
| InputTooLarge | InvalidYaml | InvalidRecord (error : MemoryRecordError) | InvalidCanonicalRecord
| CanonicalizationFailed | GenerationFailed | FormatCancelled | FormatDeadlineExceeded.

#[export] Instance format_error_eq_dec : EqDecision MemoryFormatError.
Proof. solve_decision. Defined.

(** [iter().map(f).collect::<Result<Vec<_>, _>>()]. *)
Fixpoint collect_results {E A B} (f : A → result E B) (xs : list A) : result E (list B) :=
  match xs with
  | [] => Ok []
  | x :: xs => y ← f x; ys ← collect_results f xs; Ok (y :: ys)
  end.

(** [From<MemoryRecordError>], applied by [?]. *)
Definition invalid {A} (r : result MemoryRecordError A) : result MemoryFormatError A := map_err InvalidRecord r.

(** ** Transfer objects *)

Inductive MemoryKindDto := DtoDecision | DtoFailure | DtoFact | DtoProcedure | DtoEpisode | DtoPreference | DtoPolicy.
Inductive ProvenanceOriginDto := DtoHuman.
Inductive ActorKindDto := DtoLocalAsserted.
Inductive AssuranceDto := DtoLocallyApproved.
Inductive LifecycleDto :=
| DtoActive | DtoNeedsReview | DtoStale | DtoContradicted | DtoSuperseded | DtoQuarantined | DtoTombstoned.
Inductive ObjectFormatDto := DtoSha1 | DtoSha256.
Inductive EvidenceKindDto := DtoRustSymbol.
Inductive SymbolKindDto :=
| DtoFunction | DtoMethod | DtoStruct | DtoEnum | DtoUnion | DtoTrait | DtoModule | DtoTypeAlias | DtoConstant
| DtoStatic | DtoMacro.
Inductive RelationshipKindDto := DtoContradicts | DtoSupersedes.

Record ScopeDto := { sd_repository_id : bytes; sd_subject_evidence : Z }.
Record ProvenanceDto := { pd_origin : ProvenanceOriginDto; pd_actor_kind : ActorKindDto; pd_actor_id : str }.
Record CommitIdDto := { cd_object_format : ObjectFormatDto; cd_object_id : bytes }.

Inductive ValidityDto :=
| DtoCommits (introduced_by invalidated_by : list CommitIdDto)
| DtoWorktree (source_snapshot_digest : bytes).

Record RustSymbolEvidenceDto := {
  ed_kind : EvidenceKindDto;
  ed_source_snapshot_digest : bytes;
  ed_path : bytes;
  ed_content_digest : bytes;
  ed_artifact_digest : bytes;
  ed_fact_ordinal : Z;
  ed_symbol_kind : SymbolKindDto;
  ed_name : str;
  ed_qualified_name : str;
  ed_name_start : Z;
  ed_name_length : Z;
  ed_declaration_start : Z;
  ed_declaration_length : Z;
  ed_declaration_digest : bytes;
  ed_producer_id : str;
  ed_producer_version : str;
}.

Record RelationshipDto := { rd_kind : RelationshipKindDto; rd_record_id : bytes; rd_revision_digest : bytes }.

(** [CanonicalMemoryRecordDto] and [PersistedCanonicalMemoryRecordDto]: what is serialized. *)
Record CanonicalMemoryRecordDto := {
  md_schema_version : Z;
  md_record_id : bytes;
  md_parent_revision_digests : list bytes;
  md_kind : MemoryKindDto;
  md_title : str;
  md_body : str;
  md_scope : ScopeDto;
  md_provenance : ProvenanceDto;
  md_assurance : AssuranceDto;
  md_lifecycle : LifecycleDto;
  md_validity : ValidityDto;
  md_evidence : list RustSymbolEvidenceDto;
  md_relationships : list RelationshipDto;
  md_tombstone : bool;
}.

(** [MemoryRecordDto]: the same with the display revision. *)
Record MemoryRecordDto := {
  md_semantic : CanonicalMemoryRecordDto;
  md_display_revision : Z;
}.

(** ** Categories *)

Definition memory_kind (k : MemoryKindDto) : MemoryKind :=
  match k with
  | DtoDecision => Decision | DtoFailure => Failure | DtoFact => Fact | DtoProcedure => Procedure
  | DtoEpisode => Episode | DtoPreference => Preference | DtoPolicy => Policy
  end.

Definition memory_kind_dto (k : MemoryKind) : MemoryKindDto :=
  match k with
  | Decision => DtoDecision | Failure => DtoFailure | Fact => DtoFact | Procedure => DtoProcedure
  | Episode => DtoEpisode | Preference => DtoPreference | Policy => DtoPolicy
  end.

Definition provenance_origin (o : ProvenanceOriginDto) : MemoryProvenanceOrigin := match o with DtoHuman => Human end.
Definition provenance_origin_dto (o : MemoryProvenanceOrigin) : ProvenanceOriginDto := match o with Human => DtoHuman end.
Definition actor_kind (k : ActorKindDto) : MemoryActorKind := match k with DtoLocalAsserted => LocalAsserted end.
Definition actor_kind_dto (k : MemoryActorKind) : ActorKindDto := match k with LocalAsserted => DtoLocalAsserted end.
Definition assurance (a : AssuranceDto) : MemoryAssurance := match a with DtoLocallyApproved => LocallyApproved end.
Definition assurance_dto (a : MemoryAssurance) : AssuranceDto := match a with LocallyApproved => DtoLocallyApproved end.

Definition lifecycle (l : LifecycleDto) : MemoryLifecycle :=
  match l with
  | DtoActive => Active | DtoNeedsReview => NeedsReview | DtoStale => Stale | DtoContradicted => Contradicted
  | DtoSuperseded => Superseded | DtoQuarantined => Quarantined | DtoTombstoned => Tombstoned
  end.

Definition lifecycle_dto (l : MemoryLifecycle) : LifecycleDto :=
  match l with
  | Active => DtoActive | NeedsReview => DtoNeedsReview | Stale => DtoStale | Contradicted => DtoContradicted
  | Superseded => DtoSuperseded | Quarantined => DtoQuarantined | Tombstoned => DtoTombstoned
  end.

Definition symbol_kind (k : SymbolKindDto) : RustMemorySymbolKind :=
  match k with
  | DtoFunction => MemFunction | DtoMethod => MemMethod | DtoStruct => MemStruct | DtoEnum => MemEnum
  | DtoUnion => MemUnion | DtoTrait => MemTrait | DtoModule => MemModule | DtoTypeAlias => MemTypeAlias
  | DtoConstant => MemConstant | DtoStatic => MemStatic | DtoMacro => MemMacro
  end.

Definition symbol_kind_dto (k : RustMemorySymbolKind) : SymbolKindDto :=
  match k with
  | MemFunction => DtoFunction | MemMethod => DtoMethod | MemStruct => DtoStruct | MemEnum => DtoEnum
  | MemUnion => DtoUnion | MemTrait => DtoTrait | MemModule => DtoModule | MemTypeAlias => DtoTypeAlias
  | MemConstant => DtoConstant | MemStatic => DtoStatic | MemMacro => DtoMacro
  end.

Definition relationship_kind (k : RelationshipKindDto) : MemoryRelationshipKind :=
  match k with DtoContradicts => Contradicts | DtoSupersedes => Supersedes end.
Definition relationship_kind_dto (k : MemoryRelationshipKind) : RelationshipKindDto :=
  match k with Contradicts => DtoContradicts | Supersedes => DtoSupersedes end.

(** ** Into the domain *)

(** [decode_lower_hex::<N>(...).ok_or(InvalidYaml)]. *)
Definition digest_of (n : nat) (text : bytes) : result MemoryFormatError bytes := ok_or (decode_lower_hex n text) InvalidYaml.

Definition commit_into_domain (commit : CommitIdDto) : result MemoryFormatError MemoryCommitId :=
  match cd_object_format commit with
  | DtoSha1 => object ← digest_of 20 (cd_object_id commit); Ok (Sha1 object)
  | DtoSha256 => object ← digest_of 32 (cd_object_id commit); Ok (Sha256 object)
  end.

Definition validity_into_domain (validity : ValidityDto) : result MemoryFormatError MemoryValidity :=
  match validity with
  | DtoCommits introduced_by invalidated_by =>
      introduced_by ← collect_results commit_into_domain introduced_by;
      invalidated_by ← collect_results commit_into_domain invalidated_by;
      invalid (try_commits introduced_by invalidated_by)
  | DtoWorktree source_snapshot_digest =>
      snapshot ← digest_of 32 source_snapshot_digest;
      Ok (ValidWorktree snapshot)
  end.

Definition memory_span (start length : Z) : result MemoryFormatError ByteSpan :=
  if (MAX_MEMORY_INTEROPERABLE_INTEGER <? start) || (length =? 0) || (MAX_MEMORY_INTEROPERABLE_INTEGER <? length)
  then Err (InvalidRecord InvalidEvidence)
  else
    end_ ← ok_or (end_ ← u64_checked_add start length; if end_ <=? MAX_MEMORY_SOURCE_BYTES then Some end_ else None)
             (InvalidRecord InvalidEvidence);
    map_err (λ _, InvalidRecord InvalidEvidence) (span_try_new start end_).

Definition evidence_into_domain (evidence : RustSymbolEvidenceDto) : result MemoryFormatError MemoryEvidence :=
  source_snapshot ← digest_of 32 (ed_source_snapshot_digest evidence);
  path ← map_err (λ _, InvalidYaml) (decode (ed_path evidence) PATH_TEXT_LIMIT PATH_LIMITS);
  content ← digest_of 32 (ed_content_digest evidence);
  artifact ← digest_of 32 (ed_artifact_digest evidence);
  fact_ordinal ← invalid (fact_ordinal_try_new (ed_fact_ordinal evidence));
  name ← invalid (symbol_name_try_new (ed_name evidence));
  qualified_name ← invalid (qualified_name_try_new (ed_qualified_name evidence));
  name_span ← memory_span (ed_name_start evidence) (ed_name_length evidence);
  declaration_span ← memory_span (ed_declaration_start evidence) (ed_declaration_length evidence);
  declaration_digest ← digest_of 32 (ed_declaration_digest evidence);
  producer_id ← invalid (producer_id_try_new (ed_producer_id evidence));
  producer_version ← invalid (producer_version_try_new (ed_producer_version evidence));
  invalid (evidence_try_new
    {| ev_source_snapshot := source_snapshot; ev_path := path; ev_content := content; ev_artifact := artifact;
       ev_fact_ordinal := fact_ordinal; ev_symbol_kind := symbol_kind (ed_symbol_kind evidence); ev_name := name;
       ev_qualified_name := qualified_name; ev_name_span := name_span; ev_declaration_span := declaration_span;
       ev_declaration_digest := declaration_digest; ev_producer_id := producer_id; ev_producer_version := producer_version |}).

Definition relationship_into_domain (relationship : RelationshipDto) : result MemoryFormatError MemoryRelationship :=
  record_id ← map_err (λ _, InvalidRecord InvalidRecordId) (record_id_decode (rd_record_id relationship));
  revision_digest ← digest_of 32 (rd_revision_digest relationship);
  Ok {| rel_kind := relationship_kind (rd_kind relationship); rel_record_id := record_id; rel_revision_digest := revision_digest |}.

Definition dto_into_domain (dto : MemoryRecordDto) : result MemoryFormatError MemoryRecord :=
  let d := md_semantic dto in
  if negb (md_schema_version d =? MEMORY_RECORD_SCHEMA_VERSION) && negb (md_schema_version d =? MEMORY_RECORD_PROFILE_V2_SCHEMA_VERSION)
  then Err (InvalidRecord InvalidSchemaVersion)
  else
    record_id ← map_err (λ _, InvalidRecord InvalidRecordId) (record_id_decode (md_record_id d));
    display_revision ← invalid (display_revision_try_new (md_display_revision dto));
    parents ← collect_results (digest_of 32) (md_parent_revision_digests d);
    header ← invalid (header_try_new record_id display_revision parents);
    title ← invalid (title_try_new (md_title d));
    body ← invalid (body_try_new (md_body d));
    let claim := {| claim_kind := memory_kind (md_kind d); claim_title := title; claim_body := body |} in
    repository ← map_err (λ _, InvalidYaml) (identity_decode (sd_repository_id (md_scope d)));
    subject ← invalid (evidence_index_try_new (sd_subject_evidence (md_scope d)));
    let scope := {| scope_of_repository := repository; subject_evidence := subject |} in
    actor_id ← invalid (actor_id_try_new (pd_actor_id (md_provenance d)));
    let provenance := {| prov_origin := provenance_origin (pd_origin (md_provenance d));
                         prov_actor_kind := actor_kind (pd_actor_kind (md_provenance d)); prov_actor_id := actor_id |} in
    validity ← validity_into_domain (md_validity d);
    evidence ← collect_results evidence_into_domain (md_evidence d);
    relationships ← collect_results relationship_into_domain (md_relationships d);
    invalid (try_new_profile (md_schema_version d) header claim scope provenance (assurance (md_assurance d))
               (lifecycle (md_lifecycle d)) validity evidence relationships (md_tombstone d)).

(** ** From the domain *)

Definition commit_into_dto (commit : MemoryCommitId) : CommitIdDto :=
  {| cd_object_format := match object_format commit with FormatSha1 => DtoSha1 | FormatSha256 => DtoSha256 end;
     cd_object_id := encode_lower_hex (commit_as_bytes commit) |}.

Definition validity_into_dto (validity : MemoryValidity) : ValidityDto :=
  match validity with
  | ValidCommits introduced_by invalidated_by =>
      DtoCommits (commit_into_dto <$> introduced_by) (commit_into_dto <$> invalidated_by)
  | ValidWorktree source_snapshot => DtoWorktree (encode_lower_hex source_snapshot)
  end.

Definition evidence_into_dto (evidence : MemoryEvidence) : result MemoryFormatError RustSymbolEvidenceDto :=
  path ← map_err (λ _, GenerationFailed) (encode (ev_path evidence) PATH_TEXT_LIMIT);
  Ok {| ed_kind := DtoRustSymbol; ed_source_snapshot_digest := encode_lower_hex (ev_source_snapshot evidence);
        ed_path := encoded path; ed_content_digest := encode_lower_hex (ev_content evidence);
        ed_artifact_digest := encode_lower_hex (ev_artifact evidence); ed_fact_ordinal := ev_fact_ordinal evidence;
        ed_symbol_kind := symbol_kind_dto (ev_symbol_kind evidence); ed_name := ev_name evidence;
        ed_qualified_name := ev_qualified_name evidence;
        ed_name_start := span_start (ev_name_span evidence); ed_name_length := span_len (ev_name_span evidence);
        ed_declaration_start := span_start (ev_declaration_span evidence);
        ed_declaration_length := span_len (ev_declaration_span evidence);
        ed_declaration_digest := encode_lower_hex (ev_declaration_digest evidence);
        ed_producer_id := ev_producer_id evidence; ed_producer_version := ev_producer_version evidence |}.

Definition relationship_into_dto (relationship : MemoryRelationship) : RelationshipDto :=
  {| rd_kind := relationship_kind_dto (rel_kind relationship); rd_record_id := record_id_encode (rel_record_id relationship);
     rd_revision_digest := encode_lower_hex (rel_revision_digest relationship) |}.

Definition check_record_schema (record : MemoryRecord) : result MemoryFormatError () :=
  if negb (rec_schema_version record =? MEMORY_RECORD_SCHEMA_VERSION)
     && negb (rec_schema_version record =? MEMORY_RECORD_PROFILE_V2_SCHEMA_VERSION)
  then Err GenerationFailed else Ok ().

Definition domain_into_dto (record : MemoryRecord) : result MemoryFormatError MemoryRecordDto :=
  check_record_schema record;;
  evidence ← collect_results evidence_into_dto (rec_evidence record);
  Ok {| md_display_revision := hdr_display_revision (rec_header record);
        md_semantic :=
          {| md_schema_version := rec_schema_version record; md_record_id := record_id_encode (hdr_record_id (rec_header record));
             md_parent_revision_digests := encode_lower_hex <$> hdr_parents (rec_header record);
             md_kind := memory_kind_dto (claim_kind (rec_claim record)); md_title := claim_title (rec_claim record);
             md_body := claim_body (rec_claim record);
             md_scope := {| sd_repository_id := identity_encode (scope_of_repository (rec_scope record));
                            sd_subject_evidence := subject_evidence (rec_scope record) |};
             md_provenance := {| pd_origin := provenance_origin_dto (prov_origin (rec_provenance record));
                                 pd_actor_kind := actor_kind_dto (prov_actor_kind (rec_provenance record));
                                 pd_actor_id := prov_actor_id (rec_provenance record) |};
             md_assurance := assurance_dto (rec_assurance record); md_lifecycle := lifecycle_dto (rec_lifecycle record);
             md_validity := validity_into_dto (rec_validity record); md_evidence := evidence;
             md_relationships := relationship_into_dto <$> rec_relationships record; md_tombstone := rec_tombstone record |} |}.
#[global] Arguments digest_of : simpl never.
#[global] Arguments memory_span : simpl never.
