(* ===== verification/MemoryRoundTrip.v ===== *)
(** * Reading back a memory record

    The conversions between a record and its transfer object
    ([crates/repowitness-local/src/memory_format/canonical.rs]) are inverse to each other on
    the records the domain constructs. *)

From Stdlib Require Import ZArith Lia ZifyBool.
From Stdlib Require Import Strings.Byte.
From stdpp Require Import base numbers sorting list.
From S2P Require Import Prelude Ordering Utf8 RepositoryPath PathText GraphIdentity IdentityText MemoryRecord MemoryFormat.

Open Scope Z_scope.

(** ** Well-formed parts *)

(** A text its constructor accepts. *)
Definition text_ok (validator : str → bool) (value : str) : Prop := validator value = true.

Definition commit_wf (c : MemoryCommitId) : Prop :=
  match c with Sha1 object => length object = 20%nat | Sha256 object => length object = 32%nat end.

Record evidence_wf (e : MemoryEvidence) : Prop := {
  ew_digests : length (ev_source_snapshot e) = 32%nat ∧ length (ev_content e) = 32%nat ∧ length (ev_artifact e) = 32%nat
               ∧ length (ev_declaration_digest e) = 32%nat;
  ew_path : RepositoryPath.wf (ev_path e);
  ew_ordinal : ev_fact_ordinal e ≤ MAX_MEMORY_INTEROPERABLE_INTEGER;
  ew_texts : text_ok valid_symbol_name (ev_name e) ∧ text_ok valid_qualified_name (ev_qualified_name e)
             ∧ text_ok valid_producer (ev_producer_id e) ∧ text_ok valid_producer (ev_producer_version e);
  ew_spans : 0 ≤ span_start (ev_name_span e) ∧ 0 ≤ span_start (ev_declaration_span e)
             ∧ span_start (ev_name_span e) ≤ span_end (ev_name_span e)
             ∧ span_start (ev_declaration_span e) ≤ span_end (ev_declaration_span e);
  ew_valid : evidence_try_new e = Ok e;
}.

Record relationship_wf (r : MemoryRelationship) : Prop := {
  rw_record_id : length (rel_record_id r) = 16%nat;
  rw_digest : length (rel_revision_digest r) = 32%nat;
}.

(** A record of the domain: its parts are values of their types and its constructor returned
    it. *)
Record record_wf (r : MemoryRecord) : Prop := {
  wf_record_id : length (hdr_record_id (rec_header r)) = 16%nat;
  wf_header : header_wf (rec_header r);
  wf_parents : Forall (λ p, length p = 32%nat) (hdr_parents (rec_header r));
  wf_claim : text_ok valid_title (claim_title (rec_claim r)) ∧ text_ok valid_body (claim_body (rec_claim r));
  wf_scope : length (scope_of_repository (rec_scope r)) = 32%nat ∧ subject_evidence (rec_scope r) ≤ MAX_MEMORY_INTEROPERABLE_INTEGER;
  wf_actor : text_ok valid_actor (prov_actor_id (rec_provenance r));
  wf_validity : validity_wf (rec_validity r)
                ∧ match rec_validity r with
                  | ValidCommits i d => Forall commit_wf i ∧ Forall commit_wf d
                  | ValidWorktree snapshot => length snapshot = 32%nat
                  end;
  wf_evidence : Forall evidence_wf (rec_evidence r);
  wf_relationships : Forall relationship_wf (rec_relationships r) ∧ bset_wf (rec_relationships r);
  wf_profile : profile_admits (rec_schema_version r) (rec_header r) (rec_claim r) (rec_scope r) (rec_lifecycle r) (rec_evidence r)
                 (rec_relationships r) (rec_tombstone r);
}.

(** ** Conversions of parts *)

Lemma collect_results_fmap {E A B} (f : A → result E B) (g : B → A) ys :
  Forall (λ y, f (g y) = Ok y) ys → collect_results f (g <$> ys) = Ok ys.
Proof. induction 1 as [|y ys Hy _ IH]; [done|]. rewrite fmap_cons. cbn [collect_results]. rewrite Hy. simpl. by rewrite IH. Qed.

Lemma collect_results_Ok {E A B} (f : A → result E B) xs ys :
  collect_results f xs = Ok ys ↔ Forall2 (λ x y, f x = Ok y) xs ys.
Proof.
  revert ys. induction xs as [|x xs IH]; intros ys; cbn [collect_results].
  - split; [intros [= <-]; constructor|intros H; by inversion H].
  - rewrite bind_Ok. split.
    + intros (y & Hy & H). apply bind_Ok in H as (ys' & Hys%IH & [= <-]). by constructor.
    + intros H. inversion H as [|? y ? ys' Hy Hys]; subst. exists y. split; [done|]. apply IH in Hys. by rewrite Hys.
Qed.

Lemma collect_results_Err {E A B} (f : A → result E B) xs e :
  collect_results f xs = Err e → ∃ x, x ∈ xs ∧ f x = Err e.
Proof.
  induction xs as [|x xs IH]; [done|]. cbn [collect_results]. destruct (f x) as [y|e'] eqn:Efx; simpl.
  - destruct (collect_results f xs); simpl; [done|]. intros [= ->]. destruct IH as (x' & ? & ?); [done|]. exists x'. split; [by right|done].
  - intros [= ->]. exists x. split; [by left|done].
Qed.

Lemma digest_of_encode n bs : length bs = n → digest_of n (encode_lower_hex bs) = Ok bs.
Proof. intros H. unfold digest_of. by rewrite (proj2 (decode_lower_hex_Some n _ bs)). Qed.

Lemma digest_of_Ok n text bs : digest_of n text = Ok bs ↔ length bs = n ∧ text = encode_lower_hex bs.
Proof.
  rewrite <- decode_lower_hex_Some. unfold digest_of, ok_or. destruct (decode_lower_hex n text); naive_solver.
Qed.

Lemma digests_of_encode n bss :
  Forall (λ bs, length bs = n) bss → collect_results (digest_of n) (encode_lower_hex <$> bss) = Ok bss.
Proof. intros H. apply collect_results_fmap. eapply Forall_impl; [done|]. apply digest_of_encode. Qed.

Lemma memory_text_Ok field validator value value' :
  memory_text_try_new field validator value = Ok value' ↔ text_ok validator value ∧ value' = value.
Proof. unfold memory_text_try_new, text_ok. destruct (validator value); naive_solver. Qed.

Lemma memory_text_ok field validator value : text_ok validator value → memory_text_try_new field validator value = Ok value.
Proof. intros H. by apply memory_text_Ok. Qed.

Lemma commit_round_trip c : commit_wf c → commit_into_domain (commit_into_dto c) = Ok c.
Proof. destruct c; intros H; unfold commit_into_domain; simpl; rewrite digest_of_encode by done; done. Qed.

Lemma commit_into_domain_wf dto c : commit_into_domain dto = Ok c → commit_wf c ∧ dto = commit_into_dto c.
Proof.
  unfold commit_into_domain. destruct dto as [[] object]; simpl; intros H; apply bind_Ok in H as (bs & [Hl ->]%digest_of_Ok & [= <-]); done.
Qed.

Lemma validity_round_trip v :
  validity_wf v → match v with ValidCommits i d => Forall commit_wf i ∧ Forall commit_wf d | ValidWorktree s => length s = 32%nat end →
  validity_into_domain (validity_into_dto v) = Ok v.
Proof.
  intros Hv Hc. destruct v as [i d|s]; simpl.
  - destruct Hc as [Hi Hd]. rewrite !collect_results_fmap; [|by (eapply Forall_impl; [done|]; apply commit_round_trip)..].
    simpl. unfold invalid. by rewrite try_commits_fixed.
  - by rewrite digest_of_encode.
Qed.

Lemma relationship_round_trip r : relationship_wf r → relationship_into_domain (relationship_into_dto r) = Ok r.
Proof.
  intros [Hi Hd]. unfold relationship_into_domain, relationship_into_dto. cbn [rd_record_id rd_revision_digest rd_kind].
  rewrite (record_id_round_trip _ Hi). rstep. rewrite digest_of_encode by done. rstep. destruct r as [[] ? ?]; done.
Qed.

Lemma memory_span_round_trip s :
  0 ≤ span_start s → span_start s < span_end s → span_end s ≤ MAX_MEMORY_SOURCE_BYTES → memory_span (span_start s) (span_len s) = Ok s.
Proof.
  unfold memory_span, span_len, MAX_MEMORY_SOURCE_BYTES, MAX_MEMORY_INTEROPERABLE_INTEGER, u64_checked_add. intros H0 H1 H2.
  replace (_ || _ || _) with false by lia. replace (span_start s + (span_end s - span_start s)) with (span_end s) by lia.
  rewrite checked_in by (unfold u64_max; lia). simpl. rewrite (proj2 (Z.leb_le _ _)) by lia. simpl.
  unfold span_try_new. rewrite (proj2 (Z.ltb_ge _ _)) by lia. by destruct s.
Qed.

(** A path has no more components than bytes. *)
Lemma length_split_slash bs : foldr (λ c n, S (length c + n)) 0%nat (split_slash bs) = S (length bs).
Proof.
  induction bs as [|b bs IH]; [done|]. simpl. case_bool_decide; simpl; [by rewrite IH|].
  destruct (split_slash bs) as [|c cs] eqn:E; [by destruct (split_slash_nonempty bs)|]. simpl in *. lia.
Qed.

Lemma components_bound bs : Forall (λ c, c ≠ []) (split_slash bs) → (length (split_slash bs) ≤ length bs)%nat.
Proof.
  intros Hf. pose proof (length_split_slash bs) as Hl. pose proof (split_slash_nonempty bs).
  assert (2 * length (split_slash bs) ≤ S (length bs))%nat; [|destruct (split_slash bs); simpl in *; [done|lia]].
  rewrite <- Hl. clear -Hf. induction Hf as [|c cs Hc _ IH]; [simpl; lia|]. destruct c; [done|]. simpl. lia.
Qed.

(** The limit on a path's text is exactly that on its bytes. *)
Lemma path_round_trip p text :
  RepositoryPath.wf p → encode p PATH_TEXT_LIMIT = Ok text → decode (encoded text) PATH_TEXT_LIMIT PATH_LIMITS = Ok p.
Proof.
  intros Hp He. pose proof He as [-> Hl]%encode_Ok. apply decode_complete; [|done]. apply try_from_bytes_rebuild; [done|].
  unfold PATH_TEXT_LIMIT, MAX_MEMORY_YAML_BYTES in Hl. unfold within. simpl. split; [lia|].
  assert (Forall (λ c, c ≠ []) (split_slash (path_bytes p))) as Hc%components_bound; [|lia].
  eapply Forall_impl; [apply (wf_components _ Hp)|]. by intros c [? _].
Qed.

Lemma evidence_round_trip e dto : evidence_wf e → evidence_into_dto e = Ok dto → evidence_into_domain dto = Ok e.
Proof.
  intros [(D1 & D2 & D3 & D4) Hp Ho (T1 & T2 & T3 & T4) (S1 & S2 & S3 & S4) Hv] H.
  unfold evidence_into_dto in H. apply bind_Ok in H as (text & Ht%map_err_Ok & [= <-]).
  pose proof Hv as Hv'. unfold evidence_try_new, span_is_empty in Hv'. destruct (_ || _) eqn:Ev; [done|]. clear Hv'.
  unfold evidence_into_domain. simpl. rewrite !digest_of_encode by done. simpl.
  rewrite (path_round_trip _ _ Hp Ht). simpl. unfold fact_ordinal_try_new. destruct (_ <? ev_fact_ordinal e) eqn:Eo; [lia|]. simpl.
  unfold symbol_name_try_new, qualified_name_try_new, producer_id_try_new, producer_version_try_new.
  rewrite !memory_text_ok by done. simpl. rewrite !memory_span_round_trip by lia. simpl.
  assert (symbol_kind (symbol_kind_dto (ev_symbol_kind e)) = ev_symbol_kind e) as -> by (by destruct (ev_symbol_kind e)).
  destruct e; simpl in *. unfold invalid. by rewrite Hv.
Qed.

(** Generation fails only on a path too long for a memory file. *)
Lemma evidence_into_dto_spec e :
  RepositoryPath.wf (ev_path e) →
  match evidence_into_dto e with
  | Ok _ => Z.of_nat (length (path_bytes (ev_path e))) ≤ max_bytes PATH_LIMITS
  | Err err => err = GenerationFailed ∧ max_bytes PATH_LIMITS < Z.of_nat (length (path_bytes (ev_path e)))
  end.
Proof.
  intros Hp. unfold evidence_into_dto. destruct (encode (ev_path e) PATH_TEXT_LIMIT) as [t|err] eqn:E; simpl.
  - apply encode_Ok in E as [_ Hl]. unfold PATH_TEXT_LIMIT, MAX_MEMORY_YAML_BYTES in Hl. lia.
  - split; [done|]. destruct (Z.ltb_spec 32764 (Z.of_nat (length (path_bytes (ev_path e))))) as [|Hle]; [done|].
    assert (∃ t, encode (ev_path e) PATH_TEXT_LIMIT = Ok t) as [t Ht]; [|congruence].
    eexists. apply encode_Ok. split; [reflexivity|]. unfold PATH_TEXT_LIMIT, MAX_MEMORY_YAML_BYTES, u64_max. lia.
Qed.

(** ** Records *)

Lemma domain_into_dto_spec r :
  record_wf r →
  match domain_into_dto r with
  | Ok _ => Forall (λ e, Z.of_nat (length (path_bytes (ev_path e))) ≤ max_bytes PATH_LIMITS) (rec_evidence r)
  | Err e => e = GenerationFailed ∧ ∃ e, e ∈ rec_evidence r ∧ max_bytes PATH_LIMITS < Z.of_nat (length (path_bytes (ev_path e)))
  end.
Proof.
  intros Hwf. pose proof (wf_evidence _ Hwf) as Hev. unfold domain_into_dto, check_record_schema.
  assert (rec_schema_version r = 1 ∨ rec_schema_version r = 2) as Hs by (destruct (pa_kind _ _ _ _ _ _ _ _ (wf_profile _ Hwf)) as [[? _]|?]; auto).
  replace (_ && _) with false by (unfold MEMORY_RECORD_SCHEMA_VERSION, MEMORY_RECORD_PROFILE_V2_SCHEMA_VERSION; lia). rstep.
  rewrite Forall_forall in Hev. destruct (collect_results evidence_into_dto (rec_evidence r)) as [dtos|err] eqn:E; rstep.
  - apply collect_results_Ok in E. rewrite Forall_forall. intros e He. apply list_elem_of_lookup in He as [k Hk].
    destruct (Forall2_lookup_l _ _ _ _ _ E Hk) as (dto & _ & Hd).
    pose proof (evidence_into_dto_spec e (ew_path _ (Hev e (list_elem_of_lookup_2 _ _ _ Hk)))) as Hspec. by rewrite Hd in Hspec.
  - apply collect_results_Err in E as (e & He & Hd). pose proof (evidence_into_dto_spec e (ew_path _ (Hev e He))) as Hspec.
    rewrite Hd in Hspec. destruct Hspec as [-> ?]. split; [done|]. by exists e.
Qed.

Lemma memory_kind_round_trip k : memory_kind (memory_kind_dto k) = k. Proof. by destruct k. Qed.
Lemma lifecycle_round_trip l : lifecycle (lifecycle_dto l) = l. Proof. by destruct l. Qed.

Lemma evidences_round_trip es dtos :
  Forall evidence_wf es → collect_results evidence_into_dto es = Ok dtos → collect_results evidence_into_domain dtos = Ok es.
Proof.
  intros Hwf H%collect_results_Ok. apply collect_results_Ok. induction H as [|e dto es dtos Hd _ IH]; [constructor|].
  inversion_clear Hwf. constructor; [by apply evidence_round_trip|auto].
Qed.

(** Every record of the domain is read back from its transfer object. *)
Lemma record_round_trip r dto : record_wf r → domain_into_dto r = Ok dto → dto_into_domain dto = Ok r.
Proof.
  intros Hwf H. unfold domain_into_dto in H. apply bind_Ok in H as ([] & Hcheck & H). apply bind_Ok in H as (dtos & Hev & [= <-]).
  unfold dto_into_domain. cbn [md_semantic md_schema_version]. unfold check_record_schema in Hcheck.
  destruct (_ && _); [done|]. clear Hcheck.
  cbn [md_record_id md_parent_revision_digests md_kind md_title md_body md_scope md_provenance md_assurance md_lifecycle md_validity
       md_evidence md_relationships md_tombstone md_display_revision sd_repository_id sd_subject_evidence pd_origin pd_actor_kind pd_actor_id].
  rewrite (record_id_round_trip _ (wf_record_id _ Hwf)). rstep. unfold display_revision_try_new, evidence_index_try_new.
  pose proof (hw_revision _ (wf_header _ Hwf)). destruct (Z.eqb_spec (hdr_display_revision (rec_header r)) 0); [lia|]. unfold invalid. rstep.
  rewrite (digests_of_encode _ _ (wf_parents _ Hwf)). rstep. rewrite (header_fixed _ (wf_header _ Hwf)). rstep.
  destruct (wf_claim _ Hwf) as [Ht Hb]. unfold title_try_new, body_try_new, actor_id_try_new.
  rewrite !memory_text_ok by first [done|apply (wf_actor _ Hwf)]. rstep. destruct (wf_scope _ Hwf) as [Hr Hs].
  rewrite (proj2 (identity_decode_Ok _ _) (conj Hr eq_refl)). rstep. rewrite (proj2 (Z.ltb_ge _ _) Hs). rstep.
  destruct (wf_validity _ Hwf) as [Hv Hc]. rewrite (validity_round_trip _ Hv Hc). rstep.
  rewrite (evidences_round_trip _ _ (wf_evidence _ Hwf) Hev). rstep. destruct (wf_relationships _ Hwf) as [Hrel Hrs].
  rewrite collect_results_fmap by (eapply Forall_impl; [exact Hrel|apply relationship_round_trip]). rstep.
  rewrite memory_kind_round_trip, lifecycle_round_trip. pose proof (wf_profile _ Hwf) as Hp.
  rewrite (proj2 (try_new_profile_Ok _ _ _ _ _ _ _ _ _ _ _ r)); [done|]. rewrite (sort_of_increasing _ Hrs).
  clear -Hp. destruct r as [v h c s p a l val ev rels t], c as [k ti bo], s as [rp su], p as [o ak ai], o, ak, a. by split.
Qed.

(** ** What is read is well formed *)

(** The unsigned integers of a transfer object, at their types. *)
Record evidence_typed (dto : RustSymbolEvidenceDto) : Prop := {
  et_name : 0 ≤ ed_name_start dto ∧ 0 ≤ ed_name_length dto;
  et_declaration : 0 ≤ ed_declaration_start dto ∧ 0 ≤ ed_declaration_length dto;
}.

Record dto_typed (dto : MemoryRecordDto) : Prop := {
  dt_revision : 0 ≤ md_display_revision dto;
  dt_evidence : Forall evidence_typed (md_evidence (md_semantic dto));
}.

Lemma memory_span_Ok start length s : memory_span start length = Ok s → s = {| span_start := start; span_end := start + length |}.
Proof.
  unfold memory_span. destruct (_ || _); [done|]. destruct (u64_checked_add start length) as [stop|] eqn:Es; [|done].
  apply checked_Some in Es as [-> _]. simpl. destruct (_ <=? _); [|done]. simpl. unfold span_try_new. destruct (_ <? _); [done|]. by intros [= <-].
Qed.

Lemma evidence_into_domain_wf dto e :
  evidence_typed dto → evidence_into_domain dto = Ok e →
  evidence_wf e ∧ Z.of_nat (length (path_bytes (ev_path e))) ≤ max_bytes PATH_LIMITS.
Proof.
  intros [[Hn Hnl] [Hd Hdl]] H. unfold evidence_into_domain in H.
  apply bind_Ok in H as (snapshot & [Ls _]%digest_of_Ok & H). apply bind_Ok in H as (path & Hp%map_err_Ok & H).
  apply bind_Ok in H as (content & [Lc _]%digest_of_Ok & H). apply bind_Ok in H as (artifact & [La _]%digest_of_Ok & H).
  apply bind_Ok in H as (ordinal & Ho%map_err_Ok & H). apply bind_Ok in H as (name & [Tn ->]%map_err_Ok%memory_text_Ok & H).
  apply bind_Ok in H as (qualified & [Tq ->]%map_err_Ok%memory_text_Ok & H). apply bind_Ok in H as (ns & ->%memory_span_Ok & H).
  apply bind_Ok in H as (ds & ->%memory_span_Ok & H). apply bind_Ok in H as (digest & [Ld _]%digest_of_Ok & H).
  apply bind_Ok in H as (producer & [Tp ->]%map_err_Ok%memory_text_Ok & H).
  apply bind_Ok in H as (version & [Tv ->]%map_err_Ok%memory_text_Ok & H). apply map_err_Ok in H.
  apply decode_Ok in Hp as (_ & _ & (Hw & _ & Hl)%try_from_bytes_wf).
  pose proof H as He. unfold evidence_try_new in He. destruct (_ || _); [done|]. injection He as <-.
  unfold fact_ordinal_try_new in Ho. destruct (Z.ltb_spec MAX_MEMORY_INTEROPERABLE_INTEGER (ed_fact_ordinal dto)); [done|]. injection Ho as <-.
  split; [|apply Hl]. split; simpl; try done; lia.
Qed.

Lemma evidences_into_domain_wf dtos es :
  Forall evidence_typed dtos → collect_results evidence_into_domain dtos = Ok es →
  Forall evidence_wf es ∧ Forall (λ e, Z.of_nat (length (path_bytes (ev_path e))) ≤ max_bytes PATH_LIMITS) es.
Proof.
  intros Ht H%collect_results_Ok. induction H as [|dto e dtos es He _ IH]; [by split|].
  inversion_clear Ht as [|? ? Hd Hds]. apply evidence_into_domain_wf in He as [? ?]; [|done]. destruct (IH Hds). split; by constructor.
Qed.

Lemma commits_into_domain_wf dtos cs : collect_results commit_into_domain dtos = Ok cs → Forall commit_wf cs.
Proof. intros H%collect_results_Ok. induction H as [|dto c dtos cs [Hc _]%commit_into_domain_wf _ IH]; by constructor. Qed.

Lemma digests_of_wf n texts bss : collect_results (digest_of n) texts = Ok bss → Forall (λ bs, length bs = n) bss.
Proof. intros H%collect_results_Ok. induction H as [|dto c dtos cs [Hc _]%digest_of_Ok _ IH]; by constructor. Qed.

Lemma relationship_into_domain_wf dto r : relationship_into_domain dto = Ok r → relationship_wf r.
Proof.
  unfold relationship_into_domain. intros H. apply bind_Ok in H as (id & [Hi _]%map_err_Ok%record_id_canonical & H).
  apply bind_Ok in H as (digest & [Hd _]%digest_of_Ok & [= <-]). by split.
Qed.

Lemma validity_into_domain_wf dto v :
  validity_into_domain dto = Ok v →
  validity_wf v ∧ match v with ValidCommits i d => Forall commit_wf i ∧ Forall commit_wf d | ValidWorktree s => length s = 32%nat end.
Proof.
  destruct dto as [i d|snapshot]; unfold validity_into_domain; intros H.
  - apply bind_Ok in H as (i' & Hi%commits_into_domain_wf & H). apply bind_Ok in H as (d' & Hd%commits_into_domain_wf & H).
    apply map_err_Ok in H. split; [by eapply try_commits_wf|]. apply try_commits_Ok in H as (_ & _ & _ & _ & _ & _ & ->).
    rewrite Forall_forall in Hi, Hd. rewrite !Forall_forall. setoid_rewrite elem_of_sort_by. auto.
  - apply bind_Ok in H as (s & [Hs _]%digest_of_Ok & [= <-]). split; [|done]. by split.
Qed.

(** A record read from a transfer object is one of the domain, and can be written again. *)
Lemma dto_into_domain_wf dto r :
  dto_typed dto → dto_into_domain dto = Ok r → record_wf r ∧ ∃ dto', domain_into_dto r = Ok dto'.
Proof.
  intros [Hrev Hevs] H. unfold dto_into_domain in H. cbv zeta in H. destruct (_ && _); [done|].
  apply bind_Ok in H as (id & [Hi _]%map_err_Ok%record_id_canonical & H). apply bind_Ok in H as (rev & Hr%map_err_Ok & H).
  apply bind_Ok in H as (parents & Hps%digests_of_wf & H). apply bind_Ok in H as (h & Hh%map_err_Ok & H).
  apply bind_Ok in H as (title & [Ht ->]%map_err_Ok%memory_text_Ok & H).
  apply bind_Ok in H as (body & [Hb ->]%map_err_Ok%memory_text_Ok & H).
  apply bind_Ok in H as (repository & [Hrepo _]%map_err_Ok%identity_decode_Ok & H).
  apply bind_Ok in H as (subject & Hs%map_err_Ok & H). apply bind_Ok in H as (actor & [Ha ->]%map_err_Ok%memory_text_Ok & H).
  apply bind_Ok in H as (v & [Hv Hvc]%validity_into_domain_wf & H). apply bind_Ok in H as (es & [He Hel]%evidences_into_domain_wf & H); [|done].
  apply bind_Ok in H as (rels & Hrels%collect_results_Ok & H). apply map_err_Ok, try_new_profile_Ok in H as [Hp ->].
  unfold display_revision_try_new in Hr. destruct (Z.eqb_spec (md_display_revision dto) 0); [done|]. injection Hr as <-.
  unfold evidence_index_try_new in Hs. destruct (Z.ltb_spec MAX_MEMORY_INTEROPERABLE_INTEGER (sd_subject_evidence (md_scope (md_semantic dto)))); [done|].
  injection Hs as <-. pose proof (header_try_new_wf _ (md_display_revision dto) _ _ ltac:(lia) Hh) as Hhw. apply header_try_new_Ok in Hh as (_ & _ & ->).
  pose proof (pa_relationships _ _ _ _ _ _ _ _ Hp) as [Hrl Hrn].
  assert (Forall relationship_wf rels) as Hrw.
  { clear -Hrels. induction Hrels as [|d r ds rs Hr%relationship_into_domain_wf _ IH]; by constructor. }
  match goal with |- record_wf ?r ∧ _ => assert (record_wf r) as Hwf end.
  { split; simpl; try done.
    - rewrite Forall_forall in Hps |- *. intros p. rewrite elem_of_sort_by. apply Hps.
    - split; [|by apply sort_increasing]. rewrite Forall_forall in Hrw |- *. intros p. rewrite elem_of_sort_by. apply Hrw.
    - destruct Hp. split; try done. split; [by rewrite length_sort_by|]. apply bset_wf_NoDup, sort_increasing. done. }
  split; [done|]. pose proof (domain_into_dto_spec _ Hwf) as Hd. destruct (domain_into_dto _) as [dto'|e]; [by exists dto'|].
  exfalso. destruct Hd as (_ & e' & Hin & Hlt). simpl in Hin. rewrite Forall_forall in Hel. specialize (Hel e' Hin). lia.
Qed.

(** ** Properties *)

(** A memory record survives its transfer object.  The object of a record of the domain is
    read back as that record, parents, evidence, relationships, validity and texts included;
    the only records without one have a piece of evidence whose path is longer than a memory
    file can hold, and generation then fails. *)
Theorem memory_record_round_trip (r : MemoryRecord) :
  record_wf r →
  match domain_into_dto r with
  | Ok dto => dto_into_domain dto = Ok r
  | Err e => e = GenerationFailed ∧ ∃ e, e ∈ rec_evidence r ∧ max_bytes PATH_LIMITS < Z.of_nat (length (path_bytes (ev_path e)))
  end.
Proof.
  intros Hwf. pose proof (domain_into_dto_spec r Hwf) as Hd. destruct (domain_into_dto r) as [dto|e] eqn:E; [|done].
  by eapply record_round_trip.
Qed.

(** C19: whatever a transfer object holds, reading it either fails or constructs a record that
    meets every rule of the domain - identities and digests of their lengths, bounded texts,
    sorted collections without repetition, disjoint commits, spans inside the file, a
    tombstone exactly when the lifecycle says so - and whose own object is read back as it. *)
Theorem memory_record_well_formed (dto : MemoryRecordDto) (r : MemoryRecord) :
  dto_typed dto → dto_into_domain dto = Ok r →
  record_wf r ∧ ∃ dto', domain_into_dto r = Ok dto' ∧ dto_into_domain dto' = Ok r.
Proof.
  intros Ht H. destruct (dto_into_domain_wf dto r Ht H) as (Hwf & dto' & Hd). split; [done|].
  exists dto'. split; [done|]. by apply record_round_trip.
Qed.

Definition example_dto : MemoryRecordDto :=
  let digest := encode_lower_hex (repeat x07 32) in
  {| md_display_revision := 2;
     md_semantic :=
       {| md_schema_version := 2; md_record_id := b_of "mem_00041061050R3GG28A1C60T3GF";
          md_parent_revision_digests := [encode_lower_hex (repeat x02 32); encode_lower_hex (repeat x01 32)];
          md_kind := DtoProcedure; md_title := [0x52; 0xFC; 0x6E]; md_body := [0x61; 0x0A; 0x22];
          md_scope := {| sd_repository_id := identity_encode (repeat x09 32); sd_subject_evidence := 0 |};
          md_provenance := {| pd_origin := DtoHuman; pd_actor_kind := DtoLocalAsserted; pd_actor_id := [0x71] |};
          md_assurance := DtoLocallyApproved; md_lifecycle := DtoTombstoned;
          md_validity := DtoCommits [{| cd_object_format := DtoSha256; cd_object_id := digest |};
                                     {| cd_object_format := DtoSha1; cd_object_id := encode_lower_hex (repeat x03 20) |}] [];
          md_evidence := [{| ed_kind := DtoRustSymbol; ed_source_snapshot_digest := digest; ed_path := b_of "rwp1:h:612F62";
                             ed_content_digest := digest; ed_artifact_digest := digest; ed_fact_ordinal := 4; ed_symbol_kind := DtoFunction;
                             ed_name := [0x66]; ed_qualified_name := [0x6D; 0x3A; 0x3A; 0x66]; ed_name_start := 13; ed_name_length := 1;
                             ed_declaration_start := 10; ed_declaration_length := 9; ed_declaration_digest := digest;
                             ed_producer_id := [0x70]; ed_producer_version := [0x31] |}];
          md_relationships := [{| rd_kind := DtoSupersedes; rd_record_id := b_of "mem_00041061050R3GG28A1C60T3GF";
                                  rd_revision_digest := digest |}];
          md_tombstone := true |} |}.

Lemma example_dto_typed : dto_typed example_dto.
Proof. split; [done|]. repeat constructor; done. Qed.

(** The parents and commits of the object come out sorted. *)
Definition example_record : option MemoryRecord := ok_value (dto_into_domain example_dto).

Lemma example_record_read : ∃ r, example_record = Some r ∧ dto_into_domain example_dto = Ok r.
Proof. unfold example_record. destruct (dto_into_domain example_dto) as [r|e] eqn:E; [by exists r|by vm_compute in E]. Qed.

Lemma memory_record_round_trip_witness :
  ∃ r dto, example_record = Some r ∧ domain_into_dto r = Ok dto ∧ dto_into_domain dto = Ok r
           ∧ hdr_parents (rec_header r) = [repeat x01 32; repeat x02 32].
Proof.
  destruct example_record_read as (r & Hr & Hd). destruct (dto_into_domain_wf _ _ example_dto_typed Hd) as (Hwf & dto & Hdto).
  exists r, dto. split; [done|]. split; [done|]. split.
  - pose proof (memory_record_round_trip r Hwf) as H. rewrite Hdto in H. exact H.
  - vm_compute in Hr. injection Hr as <-. reflexivity.
Defined.

Lemma memory_record_well_formed_witness :
  ∃ r, example_record = Some r ∧ record_wf r ∧ ∃ dto', domain_into_dto r = Ok dto' ∧ dto_into_domain dto' = Ok r.
Proof.
  destruct example_record_read as (r & Hr & Hd). exists r. split; [done|].
  exact (memory_record_well_formed example_dto r example_dto_typed Hd).
Defined.
