(* ===== verification/MemoryCanonical.v ===== *)
(** * Canonical memory records

    Models the entry points of [crates/repowitness-local/src/memory_format/canonical.rs] and
    the preflight of [memory_format.rs]: canonical serialization and identity, the journal
    reader, the rejection of YAML extensions and the parser of memory files.  The scanner, the
    parser and the deserializer of YAML, the serializer and the deserializer of JSON and
    SHA-256 are third-party code and parameters. *)

From Stdlib Require Import ZArith Lia ZifyBool.
From Stdlib Require Import Strings.Byte.
From stdpp Require Import base numbers sorting list.
From S2P Require Import Prelude Ordering Utf8 RepositoryPath PathText GraphIdentity IdentityText MemoryRecord MemoryFormat MemoryRoundTrip.

Open Scope Z_scope.

(** ** Canonical bytes *)

(** [CanonicalMemoryOutput::write]. *)
Definition canonical_write (output chunk : bytes) : option bytes :=
  let remaining := Z.max 0 (MAX_CANONICAL_MEMORY_BYTES - len output) in
  if remaining <? len chunk then None else Some (output ++ chunk).

Fixpoint canonical_writes (output : bytes) (chunks : list bytes) : option bytes :=
  match chunks with
  | [] => Some output
  | chunk :: chunks => output ← canonical_write output chunk; canonical_writes output chunks
  end.

(** [ParsedMemoryRecord]. *)
Record ParsedMemoryRecord := {
  parsed_record : MemoryRecord;
  parsed_canonical_json : bytes;
  parsed_digest : bytes;
}.

(** The transfer object of a journal entry under a display revision. *)
Definition with_revision (persisted : CanonicalMemoryRecordDto) (display_revision : Z) : MemoryRecordDto :=
  {| md_semantic := persisted; md_display_revision := display_revision |}.

(** What [digest_canonical_bytes_for_schema] hashes. *)
Definition DIGEST_DOMAIN : bytes := b_of "RepoWitness" ++ [x00] ++ b_of "memory-record" ++ [x00].

Definition digest_message (canonical : bytes) (schema_version length : Z) : bytes :=
  DIGEST_DOMAIN ++ u32_be_bytes schema_version ++ u64_be_bytes length ++ canonical.

(** ** The preflight of a YAML stream *)

(** The tokens the scanner's loop tells apart. *)
Inductive TokenType :=
| VersionDirective | TagDirective | ReservedDirective | Anchor | Alias | Tag | OtherToken.

Inductive Event :=
| EventNothing | StreamStart | StreamEnd
| DocumentStart (version : bool) | DocumentEnd
| EventAlias
| Scalar (anchor : Z) (has_tag : bool)
| SequenceStart (anchor : Z) (has_tag : bool) | SequenceEnd
| MappingStart (anchor : Z) (has_tag : bool) | MappingEnd
| Comment.

Record YamlPreflight := {
  pf_events : Z;
  pf_nodes : Z;
  pf_depth : Z;
  pf_documents : Z;
}.

Definition preflight_default : YamlPreflight := {| pf_events := 0; pf_nodes := 0; pf_depth := 0; pf_documents := 0 |}.

Definition increment_bounded (value limit : Z) : result MemoryFormatError Z :=
  value ← ok_or (u64_checked_add value 1) InvalidYaml;
  if limit <? value then Err InvalidYaml else Ok value.

Definition observe_node (p : YamlPreflight) (anchor : Z) (has_tag opens_collection : bool) : result MemoryFormatError YamlPreflight :=
  if negb (anchor =? 0) || has_tag then Err InvalidYaml
  else
    nodes ← increment_bounded (pf_nodes p) MAX_MEMORY_YAML_NODES;
    depth ← (if opens_collection then increment_bounded (pf_depth p) MAX_MEMORY_YAML_DEPTH else Ok (pf_depth p));
    Ok {| pf_events := pf_events p; pf_nodes := nodes; pf_depth := depth; pf_documents := pf_documents p |}.

Definition close_collection (p : YamlPreflight) : result MemoryFormatError YamlPreflight :=
  depth ← ok_or (checked u64_max (pf_depth p - 1)) InvalidYaml;
  Ok {| pf_events := pf_events p; pf_nodes := pf_nodes p; pf_depth := depth; pf_documents := pf_documents p |}.

(** [YamlPreflight::observe], after its check of the control. *)
Definition observe_event (p : YamlPreflight) (event : Event) : result MemoryFormatError YamlPreflight :=
  events ← increment_bounded (pf_events p) MAX_MEMORY_YAML_EVENTS;
  let p := {| pf_events := events; pf_nodes := pf_nodes p; pf_depth := pf_depth p; pf_documents := pf_documents p |} in
  match event with
  | DocumentStart version =>
      if (version : bool) then Err InvalidYaml
      else
        documents ← increment_bounded (pf_documents p) 1;
        Ok {| pf_events := pf_events p; pf_nodes := pf_nodes p; pf_depth := pf_depth p; pf_documents := documents |}
  | EventAlias => Err InvalidYaml
  | Scalar anchor tag => observe_node p anchor tag false
  | SequenceStart anchor tag | MappingStart anchor tag => observe_node p anchor tag true
  | SequenceEnd | MappingEnd => close_collection p
  | EventNothing | StreamStart | StreamEnd | DocumentEnd | Comment => Ok p
  end.

Definition observe (p : YamlPreflight) (event : Event) : ctl MemoryFormatError YamlPreflight := check;; lift (observe_event p event).

Definition is_extension (token : TokenType) : bool :=
  match token with
  | VersionDirective | TagDirective | ReservedDirective | Anchor | Alias | Tag => true
  | OtherToken => false
  end.

Section format.
Context (sha256 : bytes → bytes).
(** The writes of the canonicalizer, none when it fails; and the reader of JSON. *)
Context (json_writes : CanonicalMemoryRecordDto → option (list bytes)) (from_json : bytes → option CanonicalMemoryRecordDto).
(** The tokens of a text and whether the scanner failed; its events, the failures [None]; and
    the deserializer with the options of the source. *)
Context (scan : str → list TokenType * bool) (parse_events : str → list (option Event)) (from_yaml : bytes → option MemoryRecordDto).

Definition canonical_memory_json (record : MemoryRecord) : ctl MemoryFormatError bytes :=
  check;;
  dto ← lift (domain_into_dto record);
  output ← lift (ok_or (chunks ← json_writes (md_semantic dto); canonical_writes [] chunks) CanonicalizationFailed);
  check;;
  mret output.

Definition digest_canonical_bytes_for_schema (canonical : bytes) (schema_version : Z) : result MemoryFormatError bytes :=
  length ← ok_or (u64_of_len (length canonical)) CanonicalizationFailed;
  Ok (sha256 (digest_message canonical schema_version length)).

Definition canonical_memory_digest (record : MemoryRecord) : ctl MemoryFormatError bytes :=
  canonical ← canonical_memory_json record;
  check;;
  lift (digest_canonical_bytes_for_schema canonical (rec_schema_version record)).

Definition parse_persisted_canonical_memory_record (input : bytes) (display_revision : Z) (expected_digest : bytes)
    : ctl MemoryFormatError ParsedMemoryRecord :=
  check;;
  if bool_decide (input = []) || (MAX_CANONICAL_MEMORY_BYTES <? len input) then throw InvalidCanonicalRecord
  else
    persisted ← lift (ok_or (from_json input) InvalidCanonicalRecord);
    check;;
    record ← lift (dto_into_domain (with_revision persisted display_revision));
    canonical_json ← canonical_memory_json record;
    if negb (bool_decide (canonical_json = input)) then throw InvalidCanonicalRecord
    else
      digest ← lift (digest_canonical_bytes_for_schema canonical_json (rec_schema_version record));
      if negb (bool_decide (digest = expected_digest)) then throw InvalidCanonicalRecord
      else
        check;;
        mret {| parsed_record := record; parsed_canonical_json := canonical_json; parsed_digest := digest |}.

(** The loop over the tokens. *)
Definition reject_extension (_ : ()) (token : TokenType) : ctl MemoryFormatError () :=
  check;; if is_extension token then throw InvalidYaml else mret ().

(** One turn of the loop over the parser. *)
Definition observe_parsed (p : YamlPreflight) (parsed : option Event) : ctl MemoryFormatError YamlPreflight :=
  event ← lift (ok_or parsed InvalidYaml);
  observe p event.

Definition reject_yaml_extensions (input : str) : ctl MemoryFormatError () :=
  let scanned := scan input in
  ctl_fold reject_extension () scanned.1;;
  if scanned.2 then throw InvalidYaml
  else
    preflight ← ctl_fold observe_parsed preflight_default (parse_events input);
    if negb (pf_depth preflight =? 0) || negb (pf_documents preflight =? 1) then throw InvalidYaml else mret ().

Definition parse_memory_record (input : bytes) : ctl MemoryFormatError ParsedMemoryRecord :=
  check;;
  if MAX_MEMORY_YAML_BYTES <? len input then throw InputTooLarge
  else if existsb (λ b, bool_decide (b = x0d)) input then throw InvalidYaml
  else
    text ← lift (ok_or (from_utf8 input) InvalidYaml);
    reject_yaml_extensions text;;
    check;;
    dto ← lift (ok_or (from_yaml input) InvalidYaml);
    check;;
    record ← lift (dto_into_domain dto);
    canonical_json ← canonical_memory_json record;
    digest ← lift (digest_canonical_bytes_for_schema canonical_json (rec_schema_version record));
    mret {| parsed_record := record; parsed_canonical_json := canonical_json; parsed_digest := digest |}.
End format.

(** ** The preflight *)

(** An event of the profile, its node count, document count and change of depth. *)
Definition plain_event (event : Event) : bool :=
  match event with
  | DocumentStart version => negb version
  | EventAlias => false
  | Scalar anchor tag | SequenceStart anchor tag | MappingStart anchor tag => (anchor =? 0) && negb tag
  | _ => true
  end.

Definition is_node (event : Event) : bool :=
  match event with Scalar _ _ | SequenceStart _ _ | MappingStart _ _ => true | _ => false end.

Definition is_document (event : Event) : bool := match event with DocumentStart _ => true | _ => false end.

Definition depth_change (event : Event) : Z :=
  match event with SequenceStart _ _ | MappingStart _ _ => 1 | SequenceEnd | MappingEnd => -1 | _ => 0 end.

Definition count (f : Event → bool) (events : list Event) : Z := Z.of_nat (length (filter (λ e, f e = true) events)).
Definition nesting (events : list Event) : Z := foldr (λ e n, depth_change e + n) 0 events.

(** A stream within the profile's bounds: its depth stays in range after every event. *)
Record bounded_stream (events : list Event) : Prop := {
  bs_plain : Forall (λ e, plain_event e = true) events;
  bs_events : Z.of_nat (length events) ≤ MAX_MEMORY_YAML_EVENTS;
  bs_nodes : count is_node events ≤ MAX_MEMORY_YAML_NODES;
  bs_documents : count is_document events ≤ 1;
  bs_depth : ∀ before after, events = before ++ after → 0 ≤ nesting before ≤ MAX_MEMORY_YAML_DEPTH;
}.

Definition preflight_of (events : list Event) : YamlPreflight :=
  {| pf_events := Z.of_nat (length events); pf_nodes := count is_node events; pf_depth := nesting events;
     pf_documents := count is_document events |}.

Lemma count_snoc f events e : count f (events ++ [e]) = count f events + (if f e then 1 else 0).
Proof. unfold count. rewrite filter_app, length_app, filter_cons, filter_nil. destruct (f e); simpl; lia. Qed.

Lemma count_nonneg f events : 0 ≤ count f events.
Proof. unfold count. lia. Qed.

Lemma nesting_snoc events e : nesting (events ++ [e]) = nesting events + depth_change e.
Proof. unfold nesting. induction events as [|x xs IH]; simpl in *; lia. Qed.

Lemma bounded_snoc events e :
  bounded_stream (events ++ [e]) ↔
  bounded_stream events ∧ plain_event e = true ∧ Z.of_nat (length events) + 1 ≤ MAX_MEMORY_YAML_EVENTS
  ∧ count is_node (events ++ [e]) ≤ MAX_MEMORY_YAML_NODES ∧ count is_document (events ++ [e]) ≤ 1
  ∧ 0 ≤ nesting (events ++ [e]) ≤ MAX_MEMORY_YAML_DEPTH.
Proof.
  split.
  - intros [Hp Hl Hn Hd Hdep]. rewrite length_app in Hl. simpl in Hl. apply Forall_app in Hp as [Hp Hpe]. inversion_clear Hpe.
    split_and!; try done; try lia; [|by apply (Hdep (events ++ [e]) []); rewrite app_nil_r..].
    rewrite !count_snoc in *. split; try done; try lia; [destruct (is_node e); lia|destruct (is_document e); lia|].
    intros before after ->. apply (Hdep before (after ++ [e])). by rewrite <- app_assoc.
  - intros ([Hp Hl Hn Hd Hdep] & He & Hle & Hne & Hde & Hnest). split; try done.
    + apply Forall_app. split; [done|]. by constructor.
    + rewrite length_app. simpl. lia.
    + intros before after Heq. destruct (decide (after = [])) as [->|Hne'].
      * rewrite app_nil_r in Heq. by subst before.
      * destruct (exists_last Hne') as (after' & e' & ->). rewrite app_assoc in Heq. apply app_inj_tail in Heq as [Heq _]. by eapply Hdep.
Qed.

Lemma increment_bounded_spec value limit :
  0 ≤ value ≤ limit → limit < u64_max → increment_bounded value limit = if value + 1 <=? limit then Ok (value + 1) else Err InvalidYaml.
Proof.
  intros Hv Hl. unfold increment_bounded, u64_checked_add. rewrite checked_in by lia. rstep.
  destruct (Z.ltb_spec limit (value + 1)), (Z.leb_spec (value + 1) limit); done || lia.
Qed.

Ltac accepted := match goal with Hok : ∀ p q : YamlPreflight, _ ↔ _ |- _ => apply Hok; split; [split_and!; lia|f_equal; simpl; lia] end.
Ltac refused := match goal with Herr : ¬ _ ↔ ¬ _ |- _ => split; [done|apply Herr; intros (? & ? & ? & ?); lia] end.

(** One event, after a bounded stream. *)
Lemma observe_event_spec events e :
  bounded_stream events →
  match observe_event (preflight_of events) e with
  | Ok p => bounded_stream (events ++ [e]) ∧ p = preflight_of (events ++ [e])
  | Err err => err = InvalidYaml ∧ ¬ bounded_stream (events ++ [e])
  end.
Proof.
  intros Hb. pose proof (bounded_snoc events e) as Hiff. unfold preflight_of. rewrite !count_snoc, !nesting_snoc, length_app in *.
  pose proof (bs_events _ Hb). pose proof (bs_nodes _ Hb). pose proof (bs_documents _ Hb).
  pose proof (bs_depth _ Hb events [] (eq_sym (app_nil_r _))). pose proof (count_nonneg is_node events).
  pose proof (count_nonneg is_document events). unfold observe_event. cbn [pf_events pf_nodes pf_depth pf_documents].
  unfold MAX_MEMORY_YAML_EVENTS, MAX_MEMORY_YAML_NODES, MAX_MEMORY_YAML_DEPTH in *.
  rewrite (increment_bounded_spec (Z.of_nat (length events))) by (unfold u64_max; lia).
  destruct (Z.leb_spec (Z.of_nat (length events) + 1) 4096) as [Hl|Hl]; rstep;
    [|split; [done|]; intros (_ & _ & ? & _)%Hiff; lia].
  assert (∀ p q, bounded_stream (events ++ [e]) ∧ p = q ↔ (plain_event e = true ∧ count is_node events + (if is_node e then 1 else 0) ≤ 2048
    ∧ count is_document events + (if is_document e then 1 else 0) ≤ 1 ∧ 0 ≤ nesting events + depth_change e ≤ 8) ∧ p = q :> YamlPreflight) as Hok by (intros p q; rewrite Hiff; tauto).
  assert (¬ bounded_stream (events ++ [e]) ↔ ¬ (plain_event e = true ∧ count is_node events + (if is_node e then 1 else 0) ≤ 2048
    ∧ count is_document events + (if is_document e then 1 else 0) ≤ 1 ∧ 0 ≤ nesting events + depth_change e ≤ 8)) as Herr by (rewrite Hiff; tauto).
  clear Hiff.
  destruct e as [| | |version| | |anchor tag|anchor tag| |anchor tag| |]; cbn [is_node is_document depth_change plain_event] in *;
    unfold observe_node, close_collection, MAX_MEMORY_YAML_NODES, MAX_MEMORY_YAML_DEPTH; cbn [pf_events pf_nodes pf_depth pf_documents].
  all: try by accepted.
  all: try by refused.
  - destruct version; [refused|]. rewrite increment_bounded_spec by (unfold u64_max; lia).
    destruct (Z.leb_spec (count is_document events + 1) 1); rstep; [accepted|refused].
  - destruct (negb _ || tag) eqn:Et; [refused|]. rewrite increment_bounded_spec by (unfold u64_max; lia).
    destruct (Z.leb_spec (count is_node events + 1) 2048); rstep; [accepted|refused].
  - destruct (negb _ || tag) eqn:Et; [refused|]. rewrite !increment_bounded_spec by (unfold u64_max; lia).
    destruct (Z.leb_spec (count is_node events + 1) 2048); rstep; [|refused].
    destruct (Z.leb_spec (nesting events + 1) 8); rstep; [accepted|refused].
  - unfold checked. destruct ((0 <=? nesting events - 1) && _) eqn:Ed; rstep; [accepted|unfold u64_max in Ed; refused].
  - destruct (negb _ || tag) eqn:Et; [refused|]. rewrite !increment_bounded_spec by (unfold u64_max; lia).
    destruct (Z.leb_spec (count is_node events + 1) 2048); rstep; [|refused].
    destruct (Z.leb_spec (nesting events + 1) 8); rstep; [accepted|refused].
  - unfold checked. destruct ((0 <=? nesting events - 1) && _) eqn:Ed; rstep; [accepted|unfold u64_max in Ed; refused].
Qed.

Lemma bounded_nil : bounded_stream [].
Proof. split; try done. intros before after Heq. symmetry in Heq. apply app_nil in Heq as [-> _]. done. Qed.

Lemma bounded_prefix before after : bounded_stream (before ++ after) → bounded_stream before.
Proof.
  induction after as [|e after IH] using rev_ind; [by rewrite app_nil_r|]. rewrite app_assoc, bounded_snoc. intros [? _]. auto.
Qed.

(** A whole stream of events. *)
Lemma try_fold_observe before events :
  bounded_stream before →
  match try_fold observe_event (preflight_of before) events with
  | Ok p => bounded_stream (before ++ events) ∧ p = preflight_of (before ++ events)
  | Err err => err = InvalidYaml ∧ ¬ bounded_stream (before ++ events)
  end.
Proof.
  revert before. induction events as [|e events IH]; intros before Hb; simpl; [by rewrite app_nil_r|].
  pose proof (observe_event_spec before e Hb) as He. destruct (observe_event _ e) as [p|err]; simpl.
  - destruct He as [He ->]. specialize (IH (before ++ [e]) He). by rewrite <- app_assoc in IH.
  - destruct He as [-> He]. split; [done|]. intros H. apply He. rewrite cons_middle, app_assoc in H. by apply bounded_prefix in H.
Qed.

(** A parsed stream is observed up to the parser's failure. *)
Lemma try_fold_parsed before parsed :
  bounded_stream before →
  match try_fold (λ p parsed, event ← ok_or parsed InvalidYaml; observe_event p event) (preflight_of before) parsed with
  | Ok p => ∃ events, parsed = Some <$> events ∧ bounded_stream (before ++ events) ∧ p = preflight_of (before ++ events)
  | Err err => err = InvalidYaml ∧ ∀ events, parsed = Some <$> events → ¬ bounded_stream (before ++ events)
  end.
Proof.
  revert before. induction parsed as [|[e|] parsed IH]; intros before Hb; simpl.
  - exists []. by rewrite app_nil_r.
  - pose proof (observe_event_spec before e Hb) as He. destruct (observe_event _ e) as [p|err]; simpl.
    + destruct He as [He ->]. specialize (IH (before ++ [e]) He). destruct (try_fold _ _ _) as [p|err].
      * destruct IH as (events & -> & H). exists (e :: events). by rewrite <- app_assoc in H.
      * destruct IH as [-> IH]. split; [done|]. intros [|e' events]; simpl; [done|]. intros [= <- Htail]. rewrite cons_middle, app_assoc. by apply IH.
    + destruct He as [-> He]. split; [done|]. intros [|e' events]; simpl; [done|]. intros [= <- _] H. apply He.
      rewrite cons_middle, app_assoc in H. by apply bounded_prefix in H.
  - split; [done|]. by intros [|].
Qed.

(** What the preflight admits: one balanced and bounded document without extensions. *)
Record admitted_text (scanned : list TokenType * bool) (parsed : list (option Event)) : Prop := {
  at_tokens : Forall (λ t, t = OtherToken) scanned.1;
  at_scanned : scanned.2 = false;
  at_stream : ∃ events, parsed = Some <$> events ∧ bounded_stream events ∧ nesting events = 0 ∧ count is_document events = 1;
}.

Lemma try_fold_extensions tokens :
  try_fold (λ _ token, if is_extension token then Err InvalidYaml else Ok ()) () tokens
  = if forallb (λ t, negb (is_extension t)) tokens then Ok () else Err InvalidYaml.
Proof. induction tokens as [|t tokens IH]; [done|]. simpl. destruct (is_extension t); simpl; [done|apply IH]. Qed.

Section preflight.
Context (scan : str → list TokenType * bool) (parse_events : str → list (option Event)).

Lemma steady_observe_parsed p parsed : steady (observe_parsed p parsed).
Proof. unfold observe_parsed, observe. solve_steady. Qed.

Lemma steady_preflight text : steady (reject_yaml_extensions scan parse_events text).
Proof.
  unfold reject_yaml_extensions. cbv zeta. apply steady_bind; [|intros []].
  - apply steady_fold. intros [] t. unfold reject_extension. solve_steady.
  - destruct (scan text).2; [solve_steady|]. apply steady_bind; [apply steady_fold, steady_observe_parsed|]. intros p. solve_steady.
Qed.

Lemma evals_preflight text :
  ∃ r, evals (reject_yaml_extensions scan parse_events text) r ∧
  match r with
  | Ok _ => admitted_text (scan text) (parse_events text)
  | Err e => e = InvalidYaml ∧ ¬ admitted_text (scan text) (parse_events text)
  end.
Proof.
  unfold reject_yaml_extensions. cbv zeta. eexists. split.
  - eapply evals_mbind.
    + apply (evals_fold _ (λ _ token, if is_extension token then Err InvalidYaml else Ok ())). intros [] t.
      unfold reject_extension. apply evals_check_bind. by destruct (is_extension t).
    + intros []. instantiate (1 := λ _, if (scan text).2 then Err InvalidYaml else
        (preflight ← try_fold (λ p parsed, event ← ok_or parsed InvalidYaml; observe_event p event) (preflight_of []) (parse_events text);
        if negb (pf_depth preflight =? 0) || negb (pf_documents preflight =? 1) then Err InvalidYaml else Ok ())).
      destruct (scan text).2; [apply evals_throw|]. eapply evals_mbind.
      * apply evals_fold. intros p parsed. unfold observe_parsed. eapply evals_mbind; [apply evals_lift|]. intros e.
        unfold observe. apply evals_check_bind, evals_lift.
      * intros p. by destruct (_ || _).
  - rewrite try_fold_extensions. destruct (forallb _ (scan text).1) eqn:Ef; rstep.
    2: { split; [done|]. intros [Ht _ _]. apply not_true_iff_false in Ef. apply Ef, forallb_forall. rewrite Forall_forall in Ht.
         intros t Hin%list_elem_of_In. by rewrite (Ht t Hin). }
    assert (Forall (λ t, t = OtherToken) (scan text).1) as Ht.
    { rewrite forallb_forall in Ef. rewrite Forall_forall. intros t Hin. rewrite list_elem_of_In in Hin. specialize (Ef t Hin). by destruct t. }
    destruct (scan text).2 eqn:Es; [split; [done|]; intros [_ ? _]; congruence|].
    pose proof (try_fold_parsed [] (parse_events text) bounded_nil) as Hf. destruct (try_fold _ _ _) as [p|err]; rstep.
    + destruct Hf as (events & Hp & Hb & ->). simpl app. cbn [pf_depth pf_documents preflight_of].
      destruct (negb (nesting events =? 0) || _) eqn:En.
      * split; [done|]. intros [_ _ (events' & Hp' & _ & Hn & Hd)]. rewrite Hp in Hp'. apply (inj (fmap Some)) in Hp' as ->. lia.
      * split; [done..|]. exists events. split_and!; try done; lia.
    + destruct Hf as [-> Hf]. split; [done|]. intros [_ _ (events' & Hp' & Hb & _)]. by eapply Hf.
Qed.
End preflight.

(** The preflight admits exactly the texts of the profile.  Under any control it succeeds
    only when the scanner met no directive, anchor, alias or tag and the parser's events are
    one balanced document within the bounds of events, nodes and depth; otherwise it fails as
    [InvalidYaml], or as the control said. *)
Theorem yaml_preflight_exact (scan : str → list TokenType * bool) (parse_events : str → list (option Event)) (text : str)
    (control : nat → option MemoryFormatError) :
  match run control (reject_yaml_extensions scan parse_events text) with
  | Ok _ => admitted_text (scan text) (parse_events text)
  | Err e => e = InvalidYaml ∧ ¬ admitted_text (scan text) (parse_events text) ∨ ∃ k, control k = Some e
  end.
Proof.
  destruct (evals_preflight scan parse_events text) as (r & He & Hr).
  destruct (steady_evals _ r control (steady_preflight scan parse_events text) He) as [->|(k & e & Hk & ->)].
  - destruct r; [done|by left].
  - right. by exists k.
Qed.

(** The depth bound is exact: eight open collections are admitted, nine are not. *)
Definition nested_events (n : nat) : list (option Event) :=
  Some <$> [StreamStart; DocumentStart false] ++ repeat (SequenceStart 0 false) n ++ repeat SequenceEnd n ++ [DocumentEnd; StreamEnd].

Example preflight_depth :
  run never (reject_yaml_extensions (λ _, ([OtherToken], false)) (λ _, nested_events 8) []) = Ok ()
  ∧ run never (reject_yaml_extensions (λ _, ([OtherToken], false)) (λ _, nested_events 9) []) = Err InvalidYaml.
Proof. by vm_compute. Qed.
