(* ===== verification/MemoryJournal.v ===== *)
(** * The memory journal

    What [MemoryCanonical] reads and identifies: canonical bytes are restored to the record
    they were written from, and identify it up to its display revision. *)

From Stdlib Require Import ZArith Lia ZifyBool.
From Stdlib Require Import Strings.Byte.
From stdpp Require Import base numbers sorting list.
From S2P Require Import Prelude Ordering Utf8 RepositoryPath PathText GraphIdentity IdentityText MemoryRecord MemoryFormat MemoryRoundTrip MemoryCanonical.

Open Scope Z_scope.

(** ** Writing *)

Lemma canonical_writes_spec output chunks r :
  len output ≤ MAX_CANONICAL_MEMORY_BYTES →
  canonical_writes output chunks = Some r ↔ r = output ++ concat chunks ∧ len r ≤ MAX_CANONICAL_MEMORY_BYTES.
Proof.
  revert output. induction chunks as [|chunk chunks IH]; intros output Hl; simpl.
  - rewrite app_nil_r. split; [intros [= <-]; done|by intros [-> _]].
  - unfold canonical_write. destruct (Z.ltb_spec (Z.max 0 (MAX_CANONICAL_MEMORY_BYTES - len output)) (len chunk)) as [Hc|Hc]; simpl.
    + split; [done|]. intros [-> H]. rewrite !len_app in H. pose proof (len_nonneg (concat chunks)). lia.
    + rewrite IH by (rewrite len_app; lia). by rewrite app_assoc.
Qed.

(** The integers a transfer object holds are those RFC 8785 represents. *)
Record interoperable (dto : CanonicalMemoryRecordDto) : Prop := {
  io_version : in_u32 (md_schema_version dto);
  io_subject : sd_subject_evidence (md_scope dto) ≤ MAX_MEMORY_INTEROPERABLE_INTEGER;
  io_evidence : Forall (λ e, ed_fact_ordinal e ≤ MAX_MEMORY_INTEROPERABLE_INTEGER ∧ ed_name_start e ≤ MAX_MEMORY_INTEROPERABLE_INTEGER
                             ∧ ed_name_length e ≤ MAX_MEMORY_INTEROPERABLE_INTEGER
                             ∧ ed_declaration_start e ≤ MAX_MEMORY_INTEROPERABLE_INTEGER
                             ∧ ed_declaration_length e ≤ MAX_MEMORY_INTEROPERABLE_INTEGER) (md_evidence dto);
}.

Lemma evidence_into_dto_fields e dto :
  evidence_into_dto e = Ok dto →
  ed_fact_ordinal dto = ev_fact_ordinal e ∧ ed_name_start dto = span_start (ev_name_span e)
  ∧ ed_name_length dto = span_len (ev_name_span e) ∧ ed_declaration_start dto = span_start (ev_declaration_span e)
  ∧ ed_declaration_length dto = span_len (ev_declaration_span e).
Proof. unfold evidence_into_dto. intros H. by apply bind_Ok in H as (path & _ & [= <-]). Qed.

Lemma record_schema r : record_wf r → rec_schema_version r = 1 ∨ rec_schema_version r = 2.
Proof. intros Hwf. destruct (pa_kind _ _ _ _ _ _ _ _ (wf_profile _ Hwf)) as [[? _]|?]; auto. Qed.

Lemma domain_into_dto_fields r dto :
  domain_into_dto r = Ok dto →
  md_display_revision dto = hdr_display_revision (rec_header r) ∧ md_schema_version (md_semantic dto) = rec_schema_version r
  ∧ sd_subject_evidence (md_scope (md_semantic dto)) = subject_evidence (rec_scope r)
  ∧ collect_results evidence_into_dto (rec_evidence r) = Ok (md_evidence (md_semantic dto)).
Proof. unfold domain_into_dto. intros H. apply bind_Ok in H as ([] & _ & H). apply bind_Ok in H as (es & He & [= <-]). done. Qed.

Lemma record_interoperable r dto : record_wf r → domain_into_dto r = Ok dto → interoperable (md_semantic dto).
Proof.
  intros Hwf (_ & Hv & Hs & He)%domain_into_dto_fields. split.
  - rewrite Hv. unfold in_u32, u32_max. destruct (record_schema r Hwf); lia.
  - rewrite Hs. apply (wf_scope _ Hwf).
  - pose proof (wf_evidence _ Hwf) as Hev. apply collect_results_Ok in He. induction He as [|e d es ds Hd _ IH]; [constructor|].
    inversion_clear Hev as [|? ? Hw Hws]. constructor; [|auto]. destruct (evidence_into_dto_fields _ _ Hd) as (-> & -> & -> & -> & ->).
    pose proof (ew_ordinal _ Hw). destruct (ew_spans _ Hw) as (? & ? & ? & ?). pose proof (ew_valid _ Hw) as Ht.
    unfold evidence_try_new in Ht. destruct (_ || _) eqn:E; [done|]. unfold span_len, MAX_MEMORY_SOURCE_BYTES, MAX_MEMORY_INTEROPERABLE_INTEGER in *. lia.
Qed.

(** A record under another display revision. *)
Definition redisplayed (r : MemoryRecord) (revision : Z) : MemoryRecord :=
  {| rec_schema_version := rec_schema_version r;
     rec_header := {| hdr_record_id := hdr_record_id (rec_header r); hdr_display_revision := revision;
                      hdr_parents := hdr_parents (rec_header r) |};
     rec_claim := rec_claim r; rec_scope := rec_scope r; rec_provenance := rec_provenance r; rec_assurance := rec_assurance r;
     rec_lifecycle := rec_lifecycle r; rec_validity := rec_validity r; rec_evidence := rec_evidence r;
     rec_relationships := rec_relationships r; rec_tombstone := rec_tombstone r |}.

Lemma redisplayed_wf r revision : 0 < revision → record_wf r → record_wf (redisplayed r revision).
Proof.
  intros Hr [? [? ? ?] ? ? ? ? ? ? ? [? ? ? ? ? ?]]. split; try done.
Qed.

Lemma redisplayed_same r : redisplayed r (hdr_display_revision (rec_header r)) = r.
Proof. by destruct r as [? [] ? ? ? ? ? ? ? ? ?]. Qed.

(** The semantic object does not depend on the display revision. *)
Lemma domain_into_dto_redisplayed r revision dto :
  domain_into_dto r = Ok dto → domain_into_dto (redisplayed r revision) = Ok (with_revision (md_semantic dto) revision).
Proof. unfold domain_into_dto. intros H. apply bind_Ok in H as ([] & Hc & H). apply bind_Ok in H as (es & He & [= <-]).
  change (check_record_schema (redisplayed r revision)) with (check_record_schema r). rewrite Hc. simpl. by rewrite He. Qed.

Lemma with_revision_same dto : with_revision (md_semantic dto) (md_display_revision dto) = dto.
Proof. by destruct dto. Qed.

Lemma read_revision dto r : dto_into_domain dto = Ok r → hdr_display_revision (rec_header r) = md_display_revision dto.
Proof.
  unfold dto_into_domain. cbv zeta. destruct (_ && _); [done|]. intros H.
  apply bind_Ok in H as (id & _ & H). apply bind_Ok in H as (rev & Hr%map_err_Ok & H). apply bind_Ok in H as (parents & _ & H).
  apply bind_Ok in H as (h & (_ & _ & ->)%map_err_Ok%header_try_new_Ok & H). do 8 apply bind_Ok in H as (? & _ & H).
  apply map_err_Ok, try_new_profile_Ok in H as [_ ->]. simpl. unfold display_revision_try_new in Hr. by destruct (_ =? 0); [|injection Hr as <-].
Qed.

(** The canonical bytes of a semantic object. *)
Definition canonical_of (json_writes : CanonicalMemoryRecordDto → option (list bytes)) (semantic : CanonicalMemoryRecordDto) : option bytes :=
  chunks ← json_writes semantic; canonical_writes [] chunks.

Section journal.
Context (sha256 : bytes → bytes).
Context (json_writes : CanonicalMemoryRecordDto → option (list bytes)) (from_json : bytes → option CanonicalMemoryRecordDto).
(** The JSON reader reads what the canonicalizer writes of interoperable integers, reads no
    empty text, and its integers are unsigned. *)
Context (json_reads : ∀ dto chunks, interoperable dto → json_writes dto = Some chunks → from_json (concat chunks) = Some dto).
Context (json_empty : from_json [] = None).
Context (json_typed : ∀ input dto, from_json input = Some dto → Forall evidence_typed (md_evidence dto)).

Local Notation canonical := (canonical_memory_json json_writes).
Local Notation parse_persisted := (parse_persisted_canonical_memory_record sha256 json_writes from_json).

(** The outcome of [canonical_memory_json]. *)
Definition canonical_result (r : MemoryRecord) : result MemoryFormatError bytes :=
  dto ← domain_into_dto r; ok_or (canonical_of json_writes (md_semantic dto)) CanonicalizationFailed.

Lemma steady_canonical r : steady (canonical r).
Proof. unfold canonical_memory_json. solve_steady. Qed.

Lemma evals_canonical r : evals (canonical r) (canonical_result r).
Proof.
  unfold canonical_memory_json, canonical_result. apply evals_check_bind. eapply evals_mbind; [apply evals_lift|]. intros dto.
  assert (ok_or (canonical_of json_writes (md_semantic dto)) CanonicalizationFailed
    = ok_or (canonical_of json_writes (md_semantic dto)) CanonicalizationFailed ≫= Ok) as -> by (by destruct (ok_or _ _)).
  eapply evals_mbind; [apply evals_lift|]. intros output. by apply evals_check_bind.
Qed.

Lemma canonical_of_Some semantic c :
  canonical_of json_writes semantic = Some c ↔
  ∃ chunks, json_writes semantic = Some chunks ∧ c = concat chunks ∧ len c ≤ MAX_CANONICAL_MEMORY_BYTES.
Proof.
  unfold canonical_of. destruct (json_writes semantic) as [chunks|]; simpl; [|naive_solver].
  rewrite canonical_writes_spec by done. naive_solver.
Qed.

(** Canonical bytes are read back as the object they were written from. *)
Lemma canonical_result_reads r c :
  record_wf r → canonical_result r = Ok c →
  ∃ dto, domain_into_dto r = Ok dto ∧ from_json c = Some (md_semantic dto) ∧ c ≠ [] ∧ len c ≤ MAX_CANONICAL_MEMORY_BYTES.
Proof.
  intros Hwf H. unfold canonical_result in H. apply bind_Ok in H as (dto & Hd & H). exists dto. split; [done|].
  unfold ok_or in H. destruct (canonical_of _ _) as [c'|] eqn:E; [|done]. injection H as ->.
  apply canonical_of_Some in E as (chunks & Hc & -> & Hl). pose proof (json_reads _ _ (record_interoperable _ _ Hwf Hd) Hc) as Hr.
  split_and!; try done. intros Hn. rewrite Hn in Hr. congruence.
Qed.

Lemma digest_message_length c :
  len c ≤ MAX_CANONICAL_MEMORY_BYTES →
  ∀ v, digest_canonical_bytes_for_schema sha256 c v = Ok (sha256 (digest_message c v (len c))).
Proof.
  intros Hl v. unfold digest_canonical_bytes_for_schema, u64_of_len. rewrite checked_in; [done|].
  unfold len, MAX_CANONICAL_MEMORY_BYTES, u64_max in *. lia.
Qed.

(** The outcome of [canonical_memory_digest]. *)
Definition digest_result (r : MemoryRecord) : result MemoryFormatError bytes :=
  c ← canonical_result r; digest_canonical_bytes_for_schema sha256 c (rec_schema_version r).

Lemma evals_digest r : evals (canonical_memory_digest sha256 json_writes r) (digest_result r).
Proof.
  unfold canonical_memory_digest, digest_result. eapply evals_mbind; [apply evals_canonical|]. intros c.
  apply evals_check_bind, evals_lift.
Qed.

Lemma digest_result_Ok r d :
  record_wf r → digest_result r = Ok d →
  ∃ c, canonical_result r = Ok c ∧ len c ≤ MAX_CANONICAL_MEMORY_BYTES ∧ d = sha256 (digest_message c (rec_schema_version r) (len c)).
Proof.
  intros Hwf H. apply bind_Ok in H as (c & Hc & H). destruct (canonical_result_reads _ _ Hwf Hc) as (_ & _ & _ & _ & Hl).
  rewrite digest_message_length in H by done. injection H as <-. by exists c.
Qed.

Lemma digest_message_inj c c' v v' :
  in_u32 v → in_u32 v' → digest_message c v (len c) = digest_message c' v' (len c') → v = v' ∧ c = c'.
Proof.
  unfold digest_message. intros Hv Hv' H. apply app_inv_head in H. apply app_inj_1 in H as [H1 H]; [|by unfold u32_be_bytes; rewrite !length_be_bytes].
  apply app_inj_1 in H as [_ H2]; [|by unfold u64_be_bytes; rewrite !length_be_bytes]. split; [|done].
  unfold u32_be_bytes, in_u32, u32_max in *. apply be_bytes_inj in H1; [done|simpl; lia..].
Qed.

(** Canonical bytes determine the record up to its display revision. *)
Lemma canonical_result_inj r r' c :
  record_wf r → record_wf r' → canonical_result r = Ok c → canonical_result r' = Ok c →
  r = redisplayed r' (hdr_display_revision (rec_header r)).
Proof.
  intros Hwf Hwf' H H'. destruct (canonical_result_reads _ _ Hwf H) as (dto & Hd & Hj & _).
  destruct (canonical_result_reads _ _ Hwf' H') as (dto' & Hd' & Hj' & _). rewrite Hj in Hj'. injection Hj' as Hs.
  pose proof (redisplayed_wf r' (hdr_display_revision (rec_header r)) (hw_revision _ (wf_header _ Hwf)) Hwf') as Hwf''.
  pose proof (domain_into_dto_redisplayed r' (hdr_display_revision (rec_header r)) dto' Hd') as Hd''.
  rewrite <- Hs in Hd''. destruct (domain_into_dto_fields _ _ Hd) as (Hr & _). rewrite <- Hr in Hd'' at 2. rewrite with_revision_same in Hd''.
  pose proof (record_round_trip _ _ Hwf Hd) as Hrt. rewrite (record_round_trip _ _ Hwf'' Hd'') in Hrt. by injection Hrt as <-.
Qed.

Lemma canonical_result_redisplayed r revision c : canonical_result r = Ok c → canonical_result (redisplayed r revision) = Ok c.
Proof.
  unfold canonical_result. intros H. apply bind_Ok in H as (dto & Hd & H).
  rewrite (domain_into_dto_redisplayed _ revision _ Hd). exact H.
Qed.

(** The pure journal reader. *)
Definition persisted_result (input : bytes) (revision : Z) (expected : bytes) : result MemoryFormatError ParsedMemoryRecord :=
  if bool_decide (input = []) || (MAX_CANONICAL_MEMORY_BYTES <? len input) then Err InvalidCanonicalRecord
  else
    persisted ← ok_or (from_json input) InvalidCanonicalRecord;
    record ← dto_into_domain (with_revision persisted revision);
    c ← canonical_result record;
    if negb (bool_decide (c = input)) then Err InvalidCanonicalRecord
    else
      digest ← digest_canonical_bytes_for_schema sha256 c (rec_schema_version record);
      if negb (bool_decide (digest = expected)) then Err InvalidCanonicalRecord
      else Ok {| parsed_record := record; parsed_canonical_json := c; parsed_digest := digest |}.

Lemma steady_persisted input revision expected : steady (parse_persisted input revision expected).
Proof.
  unfold parse_persisted_canonical_memory_record. apply steady_bind; [apply steady_check|intros []].
  destruct (_ || _); [solve_steady|]. apply steady_bind; [solve_steady|intros dto].
  apply steady_bind; [solve_steady|intros []]. apply steady_bind; [solve_steady|intros r].
  apply steady_bind; [apply steady_canonical|intros c]. solve_steady.
Qed.

Lemma evals_persisted input revision expected :
  evals (parse_persisted input revision expected) (persisted_result input revision expected).
Proof.
  unfold parse_persisted_canonical_memory_record, persisted_result. apply evals_check_bind.
  destruct (_ || _); [apply evals_throw|]. eapply evals_mbind; [apply evals_lift|]. intros dto. apply evals_check_bind.
  eapply evals_mbind; [apply evals_lift|]. intros r. eapply evals_mbind; [apply evals_canonical|]. intros c.
  destruct (negb _); [apply evals_throw|]. eapply evals_mbind; [apply evals_lift|]. intros d.
  destruct (negb _); [apply evals_throw|]. by apply evals_check_bind.
Qed.

(** A journal entry: the canonical bytes of a record under its digest. *)
Record journal_entry (input : bytes) (revision : Z) (expected : bytes) (p : ParsedMemoryRecord) : Prop := {
  je_record : record_wf (parsed_record p);
  je_revision : hdr_display_revision (rec_header (parsed_record p)) = revision;
  je_canonical : run never (canonical (parsed_record p)) = Ok input;
  je_json : parsed_canonical_json p = input;
  je_digest : parsed_digest p = expected
              ∧ expected = sha256 (digest_message input (rec_schema_version (parsed_record p)) (len input));
}.

Lemma persisted_result_spec input revision expected p :
  0 ≤ revision → persisted_result input revision expected = Ok p ↔ journal_entry input revision expected p.
Proof.
  intros Hrev. unfold persisted_result. split.
  - destruct (_ || _) eqn:Eb; [done|]. intros H. apply bind_Ok in H as (dto & Hj & H). unfold ok_or in Hj.
    destruct (from_json input) as [dto'|] eqn:Ej; [|done]. injection Hj as ->. apply bind_Ok in H as (r & Hr & H).
    apply bind_Ok in H as (c & Hc & H). destruct (bool_decide (c = input)) eqn:Ec; simpl in H; [|done].
    apply bool_decide_eq_true in Ec as ->. rewrite digest_message_length in H by lia. simpl in H.
    destruct (bool_decide (_ = expected)) eqn:Ed; simpl in H; [|done]. apply bool_decide_eq_true in Ed. injection H as <-.
    destruct (dto_into_domain_wf _ r (Build_dto_typed (with_revision dto revision) Hrev (json_typed _ _ Ej)) Hr) as (Hwf & dto' & Hd).
    split; simpl; try done.
    + apply (read_revision _ _ Hr).
    + by rewrite <- Hc, (evals_run _ _ (evals_canonical r)).
  - intros [Hwf Hr Hc Hj [Hd He]]. rewrite (evals_run _ _ (evals_canonical _)) in Hc.
    destruct (canonical_result_reads _ _ Hwf Hc) as (dto & Hdto & Hf & Hne & Hl).
    rewrite bool_decide_eq_false_2 by done. simpl. rewrite (proj2 (Z.ltb_ge _ _) Hl). rewrite Hf. simpl.
    destruct (domain_into_dto_fields _ _ Hdto) as (Hdr & _). rewrite Hr in Hdr. rewrite <- Hdr, with_revision_same.
    rewrite (record_round_trip _ _ Hwf Hdto). simpl. rewrite Hc. simpl. rewrite bool_decide_eq_true_2 by done. simpl.
    rewrite digest_message_length by done. simpl. rewrite bool_decide_eq_true_2 by done. simpl. rewrite <- He, <- Hd, <- Hj. by destruct p.
Qed.
End journal.

(** ** Memory files *)

Section files.
Context (sha256 : bytes → bytes) (json_writes : CanonicalMemoryRecordDto → option (list bytes)).
Context (scan : str → list TokenType * bool) (parse_events : str → list (option Event)) (from_yaml : bytes → option MemoryRecordDto).

Local Notation parse := (parse_memory_record sha256 json_writes scan parse_events from_yaml).

Lemma steady_parse input : steady (parse input).
Proof.
  unfold parse_memory_record. apply steady_bind; [apply steady_check|intros []]. destruct (_ <? _); [solve_steady|].
  destruct (existsb _ _); [solve_steady|]. apply steady_bind; [solve_steady|intros text].
  apply steady_bind; [apply steady_preflight|intros []]. apply steady_bind; [solve_steady|intros []].
  apply steady_bind; [solve_steady|intros dto]. apply steady_bind; [solve_steady|intros []].
  apply steady_bind; [solve_steady|intros r]. apply steady_bind; [apply steady_canonical|intros c]. solve_steady.
Qed.

(** What a parsed file tells. *)
Definition parsed_file (input : bytes) (p : ParsedMemoryRecord) : Prop :=
  len input ≤ MAX_MEMORY_YAML_BYTES ∧ x0d ∉ input
  ∧ (∃ text, Forall scalar text ∧ input = as_bytes text ∧ admitted_text (scan text) (parse_events text))
  ∧ record_wf (parsed_record p)
  ∧ run never (canonical_memory_json json_writes (parsed_record p)) = Ok (parsed_canonical_json p)
  ∧ len (parsed_canonical_json p) ≤ MAX_CANONICAL_MEMORY_BYTES
  ∧ run never (canonical_memory_digest sha256 json_writes (parsed_record p)) = Ok (parsed_digest p).

Lemma canonical_result_len r c : canonical_result json_writes r = Ok c → len c ≤ MAX_CANONICAL_MEMORY_BYTES.
Proof.
  intros H. apply bind_Ok in H as (dto & _ & H). unfold ok_or in H. destruct (canonical_of _ _) eqn:E; [|done].
  injection H as ->. by apply canonical_of_Some in E as (? & _ & _ & Hl).
Qed.

Lemma wp_parse input :
  (∀ input dto, from_yaml input = Some dto → dto_typed dto) → wp (parse input) (parsed_file input) (λ _, True).
Proof.
  intros Hy. unfold parse_memory_record. apply wp_check_bind.
  destruct (Z.ltb_spec MAX_MEMORY_YAML_BYTES (len input)) as [|Hl]; [by apply wp_throw|].
  destruct (existsb _ _) eqn:Ex; [by apply wp_throw|].
  assert (x0d ∉ input) as Hcr.
  { intros Hin%list_elem_of_In. apply not_true_iff_false in Ex. apply Ex, existsb_exists. by exists x0d. }
  unfold ok_or. destruct (from_utf8 input) as [text|] eqn:Et; [|by eapply (wp_bind _ _ (λ _, False)); [by apply wp_lift|done]].
  eapply wp_lift_bind; [done|]. apply from_utf8_spec in Et as [Hs Hi].
  eapply (wp_bind _ _ (λ _, admitted_text (scan text) (parse_events text))).
  { destruct (evals_preflight scan parse_events text) as (r & He & Hr). intros n. specialize (He n). by destruct (reject_yaml_extensions _ _ _ _ _) as [[[] ?]|], r; simplify_eq. }
  intros [] Ha. apply wp_check_bind. destruct (from_yaml input) as [dto|] eqn:Ey; [|by eapply (wp_bind _ _ (λ _, False)); [by apply wp_lift|done]].
  eapply wp_lift_bind; [done|]. apply wp_check_bind.
  destruct (dto_into_domain dto) as [r|e] eqn:Er; [|by eapply (wp_bind _ _ (λ _, False)); [by apply wp_lift|done]].
  eapply wp_lift_bind; [done|]. destruct (dto_into_domain_wf dto r (Hy _ _ Ey) Er) as (Hwf & _).
  eapply (wp_bind _ _ (λ c, canonical_result json_writes r = Ok c)).
  { intros n. pose proof (evals_canonical json_writes r n) as He. by destruct (canonical_memory_json _ _ _ _) as [[c ?]|]. }
  intros c Hc. pose proof (canonical_result_len r c Hc) as Hlc. rewrite digest_message_length by done. eapply wp_lift_bind; [done|].
  apply wp_ret. split_and!; simpl; try done; [by exists text| |].
  - by rewrite (evals_run _ _ (evals_canonical json_writes r)).
  - rewrite (evals_run _ _ (evals_digest sha256 json_writes r)). unfold digest_result. rewrite Hc. simpl. by apply digest_message_length.
Qed.
End files.

(** ** Properties *)

(** C20: the journal reader accepts exactly canonical entries.  Bytes are read under an expected
    digest and a display revision as [p] exactly when [p] holds a well-formed record with that
    revision whose canonical serialization is those very bytes and the digest is that of the
    record's domain-separated message; so a record that was written is restored, and nothing
    else is.  A control can only stop the reader. *)
Theorem persisted_memory_exact (sha256 : bytes → bytes) (json_writes : CanonicalMemoryRecordDto → option (list bytes))
    (from_json : bytes → option CanonicalMemoryRecordDto) (input : bytes) (revision : Z) (expected : bytes) (p : ParsedMemoryRecord) :
  (∀ dto chunks, interoperable dto → json_writes dto = Some chunks → from_json (concat chunks) = Some dto) →
  from_json [] = None →
  (∀ input dto, from_json input = Some dto → Forall evidence_typed (md_evidence dto)) →
  0 ≤ revision →
  let reading := parse_persisted_canonical_memory_record sha256 json_writes from_json input revision expected in
  (run never reading = Ok p ↔ journal_entry sha256 json_writes input revision expected p)
  ∧ ∀ control, run control reading = run never reading ∨ ∃ k e, control k = Some e ∧ run control reading = Err e.
Proof.
  intros Hj He Ht Hr reading. unfold reading. clear reading. split.
  - rewrite (evals_run _ _ (evals_persisted sha256 json_writes from_json _ _ _)). by apply persisted_result_spec.
  - intros control. apply steady_run, steady_persisted.
Qed.

(** The digest of a memory record identifies its meaning.  When SHA-256 does not collide,
    two records have the same digest exactly when they differ in nothing but the display
    revision. *)
Theorem memory_digest_identity (sha256 : bytes → bytes) (json_writes : CanonicalMemoryRecordDto → option (list bytes))
    (from_json : bytes → option CanonicalMemoryRecordDto) (r r' : MemoryRecord) (d d' : bytes) :
  (∀ dto chunks, interoperable dto → json_writes dto = Some chunks → from_json (concat chunks) = Some dto) →
  from_json [] = None → (∀ x y, sha256 x = sha256 y → x = y) →
  record_wf r → record_wf r' →
  run never (canonical_memory_digest sha256 json_writes r) = Ok d →
  run never (canonical_memory_digest sha256 json_writes r') = Ok d' →
  d = d' ↔ r = redisplayed r' (hdr_display_revision (rec_header r)).
Proof.
  intros Hj He Hsha Hwf Hwf'. rewrite !(evals_run _ _ (evals_digest sha256 json_writes _)). intros Hd Hd'.
  destruct (digest_result_Ok _ _ _ Hj He _ _ Hwf Hd) as (c & Hc & _ & ->).
  destruct (digest_result_Ok _ _ _ Hj He _ _ Hwf' Hd') as (c' & Hc' & _ & ->). split.
  - intros H%Hsha%digest_message_inj; [|unfold in_u32, u32_max; (destruct (record_schema r Hwf), (record_schema r' Hwf')); lia..].
    destruct H as [_ ->]. by eapply canonical_result_inj.
  - intros Hrr. assert (c = c') as ->; [|by rewrite Hrr]. apply (canonical_result_redisplayed json_writes _ (hdr_display_revision (rec_header r))) in Hc'.
    rewrite <- Hrr in Hc'. rewrite Hc in Hc'. by injection Hc'.
Qed.

(** C21: a memory file that is parsed is one of the profile.  Under any control the bytes are at
    most 64 KiB of valid UTF-8 without carriage returns, their text passed the preflight, and
    the result is a well-formed record with its bounded canonical bytes and its digest, the
    one [canonical_memory_digest] computes. *)
Theorem memory_file_safe (sha256 : bytes → bytes) (json_writes : CanonicalMemoryRecordDto → option (list bytes))
    (scan : str → list TokenType * bool) (parse_events : str → list (option Event)) (from_yaml : bytes → option MemoryRecordDto)
    (input : bytes) (control : nat → option MemoryFormatError) (p : ParsedMemoryRecord) :
  (∀ input dto, from_yaml input = Some dto → dto_typed dto) →
  run control (parse_memory_record sha256 json_writes scan parse_events from_yaml input) = Ok p →
  len input ≤ MAX_MEMORY_YAML_BYTES ∧ x0d ∉ input
  ∧ (∃ text, Forall scalar text ∧ input = as_bytes text ∧ admitted_text (scan text) (parse_events text))
  ∧ record_wf (parsed_record p)
  ∧ run never (canonical_memory_json json_writes (parsed_record p)) = Ok (parsed_canonical_json p)
  ∧ len (parsed_canonical_json p) ≤ MAX_CANONICAL_MEMORY_BYTES
  ∧ run never (canonical_memory_digest sha256 json_writes (parsed_record p)) = Ok (parsed_digest p).
Proof.
  intros Hy H. exact (wp_run _ _ control p (steady_parse _ _ _ _ _ input) (wp_parse _ _ _ _ _ input Hy) H).
Qed.

(** ** Witnesses

    A canonicalizer that knows one object. *)

#[export] Instance evidence_dto_eq_dec : EqDecision RustSymbolEvidenceDto.
Proof. assert (EqDecision EvidenceKindDto) by solve_decision. assert (EqDecision SymbolKindDto) by solve_decision. solve_decision. Defined.
#[export] Instance validity_dto_eq_dec : EqDecision ValidityDto.
Proof. assert (EqDecision ObjectFormatDto) by solve_decision. assert (EqDecision CommitIdDto) by solve_decision. solve_decision. Defined.
#[export] Instance relationship_dto_eq_dec : EqDecision RelationshipDto.
Proof. assert (EqDecision RelationshipKindDto) by solve_decision. solve_decision. Defined.
#[export] Instance provenance_dto_eq_dec : EqDecision ProvenanceDto.
Proof. assert (EqDecision ProvenanceOriginDto) by solve_decision. assert (EqDecision ActorKindDto) by solve_decision. solve_decision. Defined.
#[export] Instance scope_dto_eq_dec : EqDecision ScopeDto.
Proof. solve_decision. Defined.
#[export] Instance memory_kind_dto_eq_dec : EqDecision MemoryKindDto.
Proof. solve_decision. Defined.
#[export] Instance lifecycle_dto_eq_dec : EqDecision LifecycleDto.
Proof. solve_decision. Defined.
#[export] Instance assurance_dto_eq_dec : EqDecision AssuranceDto.
Proof. solve_decision. Defined.
#[export] Instance semantic_dto_eq_dec : EqDecision CanonicalMemoryRecordDto.
Proof. solve_decision. Defined.

Lemma example_read : { r | dto_into_domain example_dto = Ok r }.
Proof. destruct (dto_into_domain example_dto) as [r|e] eqn:E; [by exists r|exfalso; by vm_compute in E]. Defined.

Definition journal_record : MemoryRecord := proj1_sig example_read.

Lemma journal_record_wf : record_wf journal_record.
Proof. apply (dto_into_domain_wf _ _ example_dto_typed (proj2_sig example_read)). Qed.

Definition journal_dto : CanonicalMemoryRecordDto :=
  match domain_into_dto journal_record with Ok dto => md_semantic dto | Err _ => md_semantic example_dto end.

Definition example_json : bytes := b_of "{record}".
Definition example_writes (dto : CanonicalMemoryRecordDto) : option (list bytes) :=
  if bool_decide (dto = journal_dto) then Some [b_of "{rec"; b_of "ord}"] else None.
Definition example_from_json (input : bytes) : option CanonicalMemoryRecordDto :=
  if bool_decide (input = example_json) then Some journal_dto else None.

Lemma example_reads dto chunks :
  interoperable dto → example_writes dto = Some chunks → example_from_json (concat chunks) = Some dto.
Proof. intros _. unfold example_writes. case_bool_decide as H; [|done]. intros [= <-]. subst. reflexivity. Qed.

Lemma journal_dto_typed : Forall evidence_typed (md_evidence journal_dto).
Proof. vm_compute. repeat constructor; discriminate. Qed.

Lemma example_from_json_typed input dto : example_from_json input = Some dto → Forall evidence_typed (md_evidence dto).
Proof. unfold example_from_json. case_bool_decide; [|done]. intros [= <-]. apply journal_dto_typed. Qed.

Definition journal_parsed : ParsedMemoryRecord :=
  {| parsed_record := journal_record; parsed_canonical_json := example_json;
     parsed_digest := digest_message example_json 2 (len example_json) |}.

Lemma journal_canonical : run never (canonical_memory_json example_writes journal_record) = Ok example_json.
Proof. vm_compute. reflexivity. Qed.

Lemma persisted_memory_exact_witness :
  run never (parse_persisted_canonical_memory_record id example_writes example_from_json example_json 2
               (digest_message example_json 2 (len example_json))) = Ok journal_parsed.
Proof.
  apply (persisted_memory_exact id example_writes example_from_json example_json 2 _ journal_parsed example_reads eq_refl example_from_json_typed);
    [lia|]. split; [apply journal_record_wf|by vm_compute|apply journal_canonical|done|done].
Defined.

Lemma memory_digest_identity_witness :
  digest_message example_json 2 (len example_json) = digest_message example_json 2 (len example_json)
  ↔ journal_record = redisplayed (redisplayed journal_record 7) (hdr_display_revision (rec_header journal_record)).
Proof.
  apply (memory_digest_identity id example_writes example_from_json journal_record (redisplayed journal_record 7) _ _ example_reads);
    [done|done|apply journal_record_wf|apply redisplayed_wf; [lia|apply journal_record_wf]|by vm_compute..].
Defined.

(** A file whose tokens are plain and whose events are one empty mapping. *)
Definition example_events : list (option Event) :=
  Some <$> [StreamStart; DocumentStart false; MappingStart 0 false; MappingEnd; DocumentEnd; StreamEnd].

Lemma memory_file_safe_witness :
  run never (parse_memory_record id example_writes (λ _, ([OtherToken], false)) (λ _, example_events) (λ _, Some example_dto) (b_of "{}"))
    = Ok journal_parsed
  ∧ record_wf (parsed_record journal_parsed) ∧ len (parsed_canonical_json journal_parsed) ≤ MAX_CANONICAL_MEMORY_BYTES.
Proof.
  assert (run never (parse_memory_record id example_writes (λ _, ([OtherToken], false)) (λ _, example_events) (λ _, Some example_dto) (b_of "{}"))
    = Ok journal_parsed) as H by (vm_compute; reflexivity).
  split; [exact H|].
  destruct (memory_file_safe id example_writes (λ _, ([OtherToken], false)) (λ _, example_events) (λ _, Some example_dto) (b_of "{}") never
              journal_parsed) as (_ & _ & _ & Hw & _ & Hl & _); [|exact H|by split].
  intros ? ? [= <-]. apply example_dto_typed.
Defined.
