(* ===== verification/MemoryYaml.v ===== *)
(** * The YAML presentation of a memory record

    Models [crates/repowitness-local/src/memory_format/yaml.rs] with [MemoryYamlOutput] of
    [memory_format.rs]: the quoting of a text and the emission of a record, line by line, into
    a bounded output.  A [String] is its characters. *)

From Stdlib Require Import ZArith Lia ZifyBool.
From Stdlib Require Import Strings.Byte Strings.String.
From Stdlib Require DecimalString.
From stdpp Require Import base numbers sorting list.
From S2P Require Import Prelude Ordering Utf8 RepositoryPath PathText GraphIdentity IdentityText MemoryRecord MemoryFormat MemoryRoundTrip.

Open Scope Z_scope.

(** The characters of an ASCII text, and of a literal. *)
Definition chars_of (text : bytes) : str := byte_rank <$> text.
Definition txt (s : string) : str := chars_of (b_of s).
Arguments txt s%_string_scope.

(** ** Pieces of a line *)

(** [format!] of an integer: its decimal digits. *)
Definition decimal (n : Z) : str := txt (DecimalString.NilZero.string_of_uint (N.to_uint (Z.to_N n))).

Definition hex_char (n : Z) : char := byte_rank (nth (Z.to_nat n) HEX x00).

(** One character of [yaml_quoted]. *)
Definition yaml_char (c : char) : str :=
  if c =? 0x22 then [0x5C; 0x22]
  else if c =? 0x5C then [0x5C; 0x5C]
  else if c =? 0x08 then [0x5C; 0x62]
  else if c =? 0x0C then [0x5C; 0x66]
  else if c =? 0x0A then [0x5C; 0x6E]
  else if c =? 0x0D then [0x5C; 0x72]
  else if c =? 0x09 then [0x5C; 0x74]
  else if c =? 0x2028 then txt "\u2028"
  else if c =? 0x2029 then txt "\u2029"
  else if (c <=? 0x1F) || ((0x7F <=? c) && (c <=? 0x9F))
  then txt "\u00" ++ [hex_char (Z.shiftr c 4); hex_char (Z.land c 0x0F)]
  else [c].

Definition yaml_quoted (value : str) : str := [0x22] ++ flat_map yaml_char value ++ [0x22].

Definition memory_kind_text (kind : MemoryKindDto) : str :=
  match kind with
  | DtoDecision => txt "decision" | DtoFailure => txt "failure" | DtoFact => txt "fact" | DtoProcedure => txt "procedure"
  | DtoEpisode => txt "episode" | DtoPreference => txt "preference" | DtoPolicy => txt "policy"
  end.
Definition provenance_origin_text (origin : ProvenanceOriginDto) : str := match origin with DtoHuman => txt "human" end.
Definition actor_kind_text (kind : ActorKindDto) : str := match kind with DtoLocalAsserted => txt "local_asserted" end.
Definition assurance_text (assurance : AssuranceDto) : str := match assurance with DtoLocallyApproved => txt "locally_approved" end.
Definition lifecycle_text (lifecycle : LifecycleDto) : str :=
  match lifecycle with
  | DtoActive => txt "active" | DtoNeedsReview => txt "needs_review" | DtoStale => txt "stale"
  | DtoContradicted => txt "contradicted" | DtoSuperseded => txt "superseded" | DtoQuarantined => txt "quarantined"
  | DtoTombstoned => txt "tombstoned"
  end.
Definition object_format_text (format : ObjectFormatDto) : str :=
  match format with DtoSha1 => txt "sha1" | DtoSha256 => txt "sha256" end.
Definition evidence_kind_text (kind : EvidenceKindDto) : str := match kind with DtoRustSymbol => txt "rust_symbol" end.
Definition symbol_kind_text (kind : SymbolKindDto) : str :=
  match kind with
  | DtoFunction => txt "function" | DtoMethod => txt "method" | DtoStruct => txt "struct" | DtoEnum => txt "enum"
  | DtoUnion => txt "union" | DtoTrait => txt "trait" | DtoModule => txt "module" | DtoTypeAlias => txt "type_alias"
  | DtoConstant => txt "constant" | DtoStatic => txt "static" | DtoMacro => txt "macro"
  end.
Definition relationship_kind_text (kind : RelationshipKindDto) : str :=
  match kind with DtoContradicts => txt "contradicts" | DtoSupersedes => txt "supersedes" end.
Definition bool_text (b : bool) : str := if b then txt "true" else txt "false".

(** ** The output *)

(** [MemoryYamlOutput::write_str]. *)
Definition write_str (text value : str) : option str :=
  let remaining := Z.max 0 (MAX_MEMORY_YAML_BYTES - str_len text) in
  if remaining <? str_len value then None else Some (text ++ value).

(** [writeln!] writes the pieces of its arguments and the end of the line. *)
Fixpoint write_pieces (text : str) (pieces : list str) : option str :=
  match pieces with
  | [] => Some text
  | piece :: pieces => text ← write_str text piece; write_pieces text pieces
  end.

Definition write_yaml_line (output : str) (pieces : list str) : result MemoryFormatError str :=
  ok_or (write_pieces output (pieces ++ [[0x0A]])) GenerationFailed.

(** A statement of the writer takes the output and leaves it. *)
Definition step : Type := str → ctl MemoryFormatError str.

Definition line (pieces : list str) : step := λ output, lift (write_yaml_line output pieces).
Definition check_control : step := λ output, check;; mret output.
Definition seq_ (s s' : step) : step := λ output, output ← s output; s' output.
Definition for_each {A} (body : A → step) (xs : list A) : step := λ output, ctl_fold (λ output x, body x output) output xs.

Declare Scope step_scope.
Delimit Scope step_scope with step.
Infix ";>" := seq_ (at level 60, right associativity) : step_scope.
Open Scope step_scope.

Definition write_commit_ids (commits : list CommitIdDto) : step :=
  for_each (λ commit,
    check_control ;>
    line [txt "    - object_format: "; object_format_text (cd_object_format commit)] ;>
    line [txt "      object_id: "; yaml_quoted (chars_of (cd_object_id commit))]) commits.

Definition write_validity (validity : ValidityDto) : step :=
  match validity with
  | DtoCommits introduced_by invalidated_by =>
      line [txt "  kind: commits"] ;>
      line [txt "  introduced_by:"] ;>
      write_commit_ids introduced_by ;>
      if bool_decide (invalidated_by = []) then line [txt "  invalidated_by: []"]
      else line [txt "  invalidated_by:"] ;> write_commit_ids invalidated_by
  | DtoWorktree source_snapshot_digest =>
      line [txt "  kind: worktree"] ;>
      line [txt "  source_snapshot_digest: "; yaml_quoted (chars_of source_snapshot_digest)]
  end.

Definition write_evidence (evidence : RustSymbolEvidenceDto) : step :=
  check_control ;>
  line [txt "  - kind: "; evidence_kind_text (ed_kind evidence)] ;>
  line [txt "    source_snapshot_digest: "; yaml_quoted (chars_of (ed_source_snapshot_digest evidence))] ;>
  line [txt "    path: "; chars_of (ed_path evidence)] ;>
  line [txt "    content_digest: "; yaml_quoted (chars_of (ed_content_digest evidence))] ;>
  line [txt "    artifact_digest: "; yaml_quoted (chars_of (ed_artifact_digest evidence))] ;>
  line [txt "    fact_ordinal: "; decimal (ed_fact_ordinal evidence)] ;>
  line [txt "    symbol_kind: "; symbol_kind_text (ed_symbol_kind evidence)] ;>
  line [txt "    name: "; yaml_quoted (ed_name evidence)] ;>
  line [txt "    qualified_name: "; yaml_quoted (ed_qualified_name evidence)] ;>
  line [txt "    name_start: "; decimal (ed_name_start evidence)] ;>
  line [txt "    name_length: "; decimal (ed_name_length evidence)] ;>
  line [txt "    declaration_start: "; decimal (ed_declaration_start evidence)] ;>
  line [txt "    declaration_length: "; decimal (ed_declaration_length evidence)] ;>
  line [txt "    declaration_digest: "; yaml_quoted (chars_of (ed_declaration_digest evidence))] ;>
  line [txt "    producer_id: "; yaml_quoted (ed_producer_id evidence)] ;>
  line [txt "    producer_version: "; yaml_quoted (ed_producer_version evidence)].

Definition write_relationship (relationship : RelationshipDto) : step :=
  check_control ;>
  line [txt "  - kind: "; relationship_kind_text (rd_kind relationship)] ;>
  line [txt "    record_id: "; chars_of (rd_record_id relationship)] ;>
  line [txt "    revision_digest: "; yaml_quoted (chars_of (rd_revision_digest relationship))].

(** The body of [generate_memory_yaml]. *)
Definition write_record (record : MemoryRecordDto) : step :=
  let d := md_semantic record in
  line [txt "schema_version: "; decimal (md_schema_version d)] ;>
  line [txt "record_id: "; chars_of (md_record_id d)] ;>
  line [txt "display_revision: "; decimal (md_display_revision record)] ;>
  (if bool_decide (md_parent_revision_digests d = []) then line [txt "parent_revision_digests: []"]
   else line [txt "parent_revision_digests:"] ;>
        for_each (λ digest, check_control ;> line [txt "  - "; yaml_quoted (chars_of digest)]) (md_parent_revision_digests d)) ;>
  line [txt "kind: "; memory_kind_text (md_kind d)] ;>
  line [txt "title: "; yaml_quoted (md_title d)] ;>
  line [txt "body: "; yaml_quoted (md_body d)] ;>
  line [txt "scope:"] ;>
  line [txt "  repository_id: "; chars_of (sd_repository_id (md_scope d))] ;>
  line [txt "  subject_evidence: "; decimal (sd_subject_evidence (md_scope d))] ;>
  line [txt "provenance:"] ;>
  line [txt "  origin: "; provenance_origin_text (pd_origin (md_provenance d))] ;>
  line [txt "  actor_kind: "; actor_kind_text (pd_actor_kind (md_provenance d))] ;>
  line [txt "  actor_id: "; yaml_quoted (pd_actor_id (md_provenance d))] ;>
  line [txt "assurance: "; assurance_text (md_assurance d)] ;>
  line [txt "lifecycle: "; lifecycle_text (md_lifecycle d)] ;>
  line [txt "validity:"] ;>
  write_validity (md_validity d) ;>
  line [txt "evidence:"] ;>
  for_each write_evidence (md_evidence d) ;>
  (if bool_decide (md_relationships d = []) then line [txt "relationships: []"]
   else line [txt "relationships:"] ;> for_each write_relationship (md_relationships d)) ;>
  line [txt "tombstone: "; bool_text (md_tombstone d)] ;>
  check_control.

Definition generate_memory_yaml (record : MemoryRecord) : ctl MemoryFormatError bytes :=
  check;;
  record ← lift (domain_into_dto record);
  output ← write_record record [];
  mret (as_bytes output).

(** ** The document

    The lines of a record, as the specification: every text is quoted on a line of its own. *)

Definition yaml_list {A} (indent name : str) (xs : list A) (lines : A → list str) : list str :=
  match xs with [] => [indent ++ name ++ txt ": []"] | _ => (indent ++ name ++ txt ":") :: flat_map lines xs end.

Definition entry (name : str) (value : str) : str := name ++ txt ": " ++ value.
Definition quoted_entry (name : str) (value : str) : str := entry name (yaml_quoted value).

Definition commit_lines (c : CommitIdDto) : list str :=
  [txt "    - " ++ entry (txt "object_format") (object_format_text (cd_object_format c));
   txt "      " ++ quoted_entry (txt "object_id") (chars_of (cd_object_id c))].

Definition validity_lines (v : ValidityDto) : list str :=
  match v with
  | DtoCommits introduced_by invalidated_by =>
      [txt "  kind: commits"; txt "  introduced_by:"] ++ flat_map commit_lines introduced_by
      ++ yaml_list (txt "  ") (txt "invalidated_by") invalidated_by commit_lines
  | DtoWorktree digest => [txt "  kind: worktree"; txt "  " ++ quoted_entry (txt "source_snapshot_digest") (chars_of digest)]
  end.

Definition evidence_lines (e : RustSymbolEvidenceDto) : list str :=
  (txt "  - " ++ entry (txt "kind") (evidence_kind_text (ed_kind e)))
  :: map (app (txt "    "))
       [quoted_entry (txt "source_snapshot_digest") (chars_of (ed_source_snapshot_digest e));
        entry (txt "path") (chars_of (ed_path e));
        quoted_entry (txt "content_digest") (chars_of (ed_content_digest e));
        quoted_entry (txt "artifact_digest") (chars_of (ed_artifact_digest e));
        entry (txt "fact_ordinal") (decimal (ed_fact_ordinal e));
        entry (txt "symbol_kind") (symbol_kind_text (ed_symbol_kind e));
        quoted_entry (txt "name") (ed_name e);
        quoted_entry (txt "qualified_name") (ed_qualified_name e);
        entry (txt "name_start") (decimal (ed_name_start e));
        entry (txt "name_length") (decimal (ed_name_length e));
        entry (txt "declaration_start") (decimal (ed_declaration_start e));
        entry (txt "declaration_length") (decimal (ed_declaration_length e));
        quoted_entry (txt "declaration_digest") (chars_of (ed_declaration_digest e));
        quoted_entry (txt "producer_id") (ed_producer_id e);
        quoted_entry (txt "producer_version") (ed_producer_version e)].

Definition relationship_lines (r : RelationshipDto) : list str :=
  [txt "  - " ++ entry (txt "kind") (relationship_kind_text (rd_kind r));
   txt "    " ++ entry (txt "record_id") (chars_of (rd_record_id r));
   txt "    " ++ quoted_entry (txt "revision_digest") (chars_of (rd_revision_digest r))].

Definition yaml_lines (record : MemoryRecordDto) : list str :=
  let d := md_semantic record in
  [entry (txt "schema_version") (decimal (md_schema_version d));
   entry (txt "record_id") (chars_of (md_record_id d));
   entry (txt "display_revision") (decimal (md_display_revision record))]
  ++ yaml_list [] (txt "parent_revision_digests") (md_parent_revision_digests d) (λ digest, [txt "  - " ++ yaml_quoted (chars_of digest)])
  ++ [entry (txt "kind") (memory_kind_text (md_kind d));
      quoted_entry (txt "title") (md_title d);
      quoted_entry (txt "body") (md_body d);
      txt "scope:";
      txt "  " ++ entry (txt "repository_id") (chars_of (sd_repository_id (md_scope d)));
      txt "  " ++ entry (txt "subject_evidence") (decimal (sd_subject_evidence (md_scope d)));
      txt "provenance:";
      txt "  " ++ entry (txt "origin") (provenance_origin_text (pd_origin (md_provenance d)));
      txt "  " ++ entry (txt "actor_kind") (actor_kind_text (pd_actor_kind (md_provenance d)));
      txt "  " ++ quoted_entry (txt "actor_id") (pd_actor_id (md_provenance d));
      entry (txt "assurance") (assurance_text (md_assurance d));
      entry (txt "lifecycle") (lifecycle_text (md_lifecycle d));
      txt "validity:"]
  ++ validity_lines (md_validity d)
  ++ [txt "evidence:"] ++ flat_map evidence_lines (md_evidence d)
  ++ yaml_list [] (txt "relationships") (md_relationships d) relationship_lines
  ++ [entry (txt "tombstone") (bool_text (md_tombstone d))].

(** Every line ends with a line feed. *)
Definition document (lines : list str) : str := flat_map (λ l, l ++ [0x0A]) lines.

(** ** Bounded writing *)

Lemma write_pieces_spec text pieces :
  str_len text ≤ MAX_MEMORY_YAML_BYTES →
  write_pieces text pieces =
  if str_len (text ++ concat pieces) <=? MAX_MEMORY_YAML_BYTES then Some (text ++ concat pieces) else None.
Proof.
  revert text. induction pieces as [|piece pieces IH]; intros text Hl; simpl.
  - rewrite app_nil_r. by rewrite (proj2 (Z.leb_le _ _) Hl).
  - unfold write_str. pose proof (str_len_nonneg (concat pieces)). rewrite !str_len_app.
    destruct (Z.ltb_spec (Z.max 0 (MAX_MEMORY_YAML_BYTES - str_len text)) (str_len piece)); simpl.
    + by rewrite (proj2 (Z.leb_gt _ _)) by lia.
    + rewrite IH by (rewrite str_len_app; lia). by rewrite !str_len_app, <- app_assoc, Z.add_assoc.
Qed.

(** A step writes some lines, within the bound. *)
Definition writes (s : step) (lines : list str) : Prop :=
  (∀ output, steady (s output)) ∧
  ∀ output, str_len output ≤ MAX_MEMORY_YAML_BYTES →
    evals (s output) (if str_len (output ++ document lines) <=? MAX_MEMORY_YAML_BYTES then Ok (output ++ document lines) else Err GenerationFailed).

Lemma writes_line pieces l : concat pieces = l → writes (line pieces) [l].
Proof.
  intros <-. split; [intros output; apply steady_lift|]. intros output Hl. unfold line, write_yaml_line.
  rewrite write_pieces_spec, concat_app by done. simpl concat. unfold document. simpl flat_map. rewrite !app_nil_r.
  destruct (_ <=? _); apply evals_lift.
Qed.

Lemma writes_line1 a : writes (line [a]) [a].
Proof. apply writes_line, app_nil_r. Qed.
Lemma writes_line2 a b : writes (line [a; b]) [a ++ b].
Proof. apply writes_line. simpl. by rewrite app_nil_r. Qed.

Lemma writes_check : writes check_control [].
Proof.
  split; [intros output; unfold check_control; solve_steady|]. intros output Hl. unfold document. simpl flat_map. rewrite app_nil_r.
  rewrite (proj2 (Z.leb_le _ _) Hl). by apply evals_check_bind.
Qed.

Lemma document_app ls ls' : document (ls ++ ls') = document ls ++ document ls'.
Proof. apply flat_map_app. Qed.

Lemma writes_seq s s' ls ls' : writes s ls → writes s' ls' → writes (s ;> s') (ls ++ ls').
Proof.
  intros [Hs Hw] [Hs' Hw']. split; [intros output; by apply steady_bind|]. intros output Hl. specialize (Hw output Hl).
  rewrite document_app, app_assoc. unfold seq_.
  destruct (Z.leb_spec (str_len (output ++ document ls)) MAX_MEMORY_YAML_BYTES) as [Hle|Hgt].
  - eapply evals_bind; [exact Hw|]. by apply Hw'.
  - rewrite (str_len_app _ (document ls')). pose proof (str_len_nonneg (document ls')). rewrite (proj2 (Z.leb_gt _ _)) by lia.
    by apply evals_bind_Err.
Qed.

Lemma writes_nil output : str_len output ≤ MAX_MEMORY_YAML_BYTES →
  evals (mret output) (if str_len (output ++ document []) <=? MAX_MEMORY_YAML_BYTES then Ok (output ++ document []) else Err GenerationFailed).
Proof. intros Hl. unfold document. simpl. rewrite app_nil_r, (proj2 (Z.leb_le _ _) Hl). apply evals_ret. Qed.

Lemma writes_for_each {A} (body : A → step) (lines : A → list str) xs :
  (∀ x, writes (body x) (lines x)) → writes (for_each body xs) (flat_map lines xs).
Proof.
  intros Hb. induction xs as [|x xs IH].
  - split; [intros output; apply steady_ret|]. apply writes_nil.
  - exact (writes_seq _ _ _ _ (Hb x) IH).
Qed.

Lemma writes_list {A} (body : A → step) (lines : A → list str) (xs : list A) (indent name : str) s s' `{!base.Decision (xs = [])} :
  (∀ x, writes (body x) (lines x)) → writes s [indent ++ name ++ txt ": []"] → writes s' [indent ++ name ++ txt ":"] →
  writes (if bool_decide (xs = []) then s else s' ;> for_each body xs) (yaml_list indent name xs lines).
Proof.
  intros Hb Hs Hs'. case_bool_decide as Hx; [by subst|]. destruct xs as [|x xs]; [done|].
  apply (writes_seq _ _ _ _ Hs'). by apply writes_for_each.
Qed.

Lemma writes_eq s ls ls' : writes s ls → ls = ls' → writes s ls'.
Proof. by intros H <-. Qed.

(** Steps over a sequence of lines and checks. *)
Ltac solve_writes :=
  eapply writes_eq; [repeat first [apply writes_seq | apply writes_check | apply writes_line1 | apply writes_line2]|reflexivity].

Lemma writes_commit c :
  writes (check_control ;> line [txt "    - object_format: "; object_format_text (cd_object_format c)]
          ;> line [txt "      object_id: "; yaml_quoted (chars_of (cd_object_id c))]) (commit_lines c).
Proof. solve_writes. Qed.

Lemma writes_commit_ids commits : writes (write_commit_ids commits) (flat_map commit_lines commits).
Proof. apply writes_for_each, writes_commit. Qed.

Lemma writes_validity v : writes (write_validity v) (validity_lines v).
Proof.
  destruct v as [i d|digest]; [|solve_writes]. unfold write_validity, validity_lines.
  eapply writes_eq.
  - apply writes_seq; [by apply writes_line|]. apply writes_seq; [by apply writes_line|]. apply writes_seq; [apply writes_commit_ids|].
    apply (writes_list _ commit_lines _ (txt "  ") (txt "invalidated_by")); [apply writes_commit|by apply writes_line1..].
  - done.
Qed.

Lemma writes_evidence e : writes (write_evidence e) (evidence_lines e).
Proof. unfold write_evidence. solve_writes. Qed.

Lemma writes_relationship r : writes (write_relationship r) (relationship_lines r).
Proof. unfold write_relationship. solve_writes. Qed.

Lemma writes_parent digest :
  writes (check_control ;> line [txt "  - "; yaml_quoted (chars_of digest)]) [txt "  - " ++ yaml_quoted (chars_of digest)].
Proof. solve_writes. Qed.

Lemma writes_record record : writes (write_record record) (yaml_lines record).
Proof.
  unfold write_record. cbv zeta. eapply writes_eq.
  - repeat first
      [ apply writes_seq | apply writes_check | apply writes_validity | apply (writes_for_each write_evidence), writes_evidence
      | apply (writes_list _ (λ digest, [txt "  - " ++ yaml_quoted (chars_of digest)]) _ [] (txt "parent_revision_digests"));
          [intros; apply writes_parent|by apply writes_line1..]
      | apply (writes_list _ relationship_lines _ [] (txt "relationships")); [apply writes_relationship|by apply writes_line1..]
      | apply writes_line1 | apply writes_line2 ].
  - reflexivity.
Qed.

(** The outcome of the generation. *)
Definition yaml_result (record : MemoryRecord) : result MemoryFormatError bytes :=
  record ← domain_into_dto record;
  let output := document (yaml_lines record) in
  if str_len output <=? MAX_MEMORY_YAML_BYTES then Ok (as_bytes output) else Err GenerationFailed.

Lemma steady_yaml record : steady (generate_memory_yaml record).
Proof.
  unfold generate_memory_yaml. apply steady_bind; [apply steady_check|intros []]. apply steady_bind; [apply steady_lift|intros dto].
  apply steady_bind; [apply (writes_record dto)|]. intros output. apply steady_ret.
Qed.

Lemma evals_yaml record : evals (generate_memory_yaml record) (yaml_result record).
Proof.
  unfold generate_memory_yaml, yaml_result. apply evals_check_bind. eapply evals_mbind; [apply evals_lift|]. intros dto. cbv zeta.
  pose proof (proj2 (writes_record dto) [] ltac:(done)) as H. simpl app in H. destruct (_ <=? _).
  - eapply evals_bind; [exact H|]. apply evals_ret.
  - by apply evals_bind_Err.
Qed.

(** ** Quoted texts

    The reader of a double-quoted scalar on one line, with the escapes of YAML 1.2 that the
    writer uses. *)

Definition hex_value (c : char) : option Z :=
  if (48 <=? c) && (c <=? 57) then Some (c - 48) else if (97 <=? c) && (c <=? 102) then Some (c - 87) else None.

Definition simple_escape (c : char) : option char :=
  if c =? 0x22 then Some 0x22 else if c =? 0x5C then Some 0x5C else if c =? 0x62 then Some 0x08
  else if c =? 0x66 then Some 0x0C else if c =? 0x6E then Some 0x0A else if c =? 0x72 then Some 0x0D
  else if c =? 0x74 then Some 0x09 else None.

Fixpoint unquote (s : str) : option (str * str) :=
  match s with
  | [] => None
  | c :: s =>
      if c =? 0x22 then Some ([], s)
      else if c =? 0x5C then
        match s with
        | 0x75 :: h1 :: h2 :: h3 :: h4 :: s =>
            a ← hex_value h1; b ← hex_value h2; c ← hex_value h3; d ← hex_value h4;
            p ← unquote s; Some (((a * 16 + b) * 16 + c) * 16 + d :: p.1, p.2)
        | e :: s => x ← simple_escape e; p ← unquote s; Some (x :: p.1, p.2)
        | [] => None
        end
      else p ← unquote s; Some (c :: p.1, p.2)
  end.

(** A character of a line: neither a control nor a line separator. *)
Definition printable (c : char) : Prop := 0x20 ≤ c ∧ ¬ 0x7F ≤ c ≤ 0x9F ∧ c ≠ 0x2028 ∧ c ≠ 0x2029.

Lemma control_cases (P : char → Prop) :
  (∀ c, c ∈ (Z.of_nat <$> seq 0 32) ++ (Z.of_nat <$> seq 127 33) → P c) → ∀ c, 0 ≤ c ≤ 0x1F ∨ 0x7F ≤ c ≤ 0x9F → P c.
Proof.
  intros H c Hc. apply H. rewrite elem_of_app, !list_elem_of_fmap.
  destruct Hc; [left|right]; exists (Z.to_nat c); rewrite elem_of_seq; lia.
Qed.

(** An escaped character is read back whatever follows it. *)
Lemma unquote_control c rest : 0 ≤ c ≤ 0x1F ∨ 0x7F ≤ c ≤ 0x9F → unquote (yaml_char c ++ rest) = p ← unquote rest; Some (c :: p.1, p.2).
Proof.
  revert c. apply (control_cases (λ c, unquote (yaml_char c ++ rest) = p ← unquote rest; Some (c :: p.1, p.2))).
  apply Forall_forall. vm_compute seq. cbn [fmap list_fmap app]. repeat (constructor; [reflexivity|]). constructor.
Qed.

Lemma unquote_char c rest : 0 ≤ c → unquote (yaml_char c ++ rest) = p ← unquote rest; Some (c :: p.1, p.2).
Proof.
  intros Hc. destruct (Z.leb_spec c 0x1F); [apply unquote_control; lia|].
  destruct ((0x7F <=? c) && (c <=? 0x9F)) eqn:Er; [apply unquote_control; lia|].
  unfold yaml_char. rewrite Er. destruct (Z.eqb_spec c 0x22) as [->|]; [done|]. destruct (Z.eqb_spec c 0x5C) as [->|]; [done|].
  rewrite !(proj2 (Z.eqb_neq c _)) by lia. destruct (Z.eqb_spec c 0x2028) as [->|]; [done|]. destruct (Z.eqb_spec c 0x2029) as [->|]; [done|].
  rewrite (proj2 (Z.leb_gt c 0x1F)) by lia. cbn [orb app unquote]. by rewrite !(proj2 (Z.eqb_neq c _)) by lia.
Qed.

Lemma printable_ascii c : 0x20 ≤ c ≤ 0x7E → printable c.
Proof. unfold printable. lia. Qed.

(** A literal is printable by computation. *)
Definition printable_b (c : char) : bool := (0x20 <=? c) && (c <=? 0x7E).
Lemma printable_literal s : forallb printable_b s = true → Forall printable s.
Proof.
  rewrite forallb_forall, Forall_forall. intros H c Hc%list_elem_of_In. specialize (H c Hc). unfold printable_b in H.
  apply printable_ascii. lia.
Qed.

Lemma printable_control c : 0 ≤ c ≤ 0x1F ∨ 0x7F ≤ c ≤ 0x9F → Forall printable (yaml_char c).
Proof.
  revert c. apply (control_cases (λ c, Forall printable (yaml_char c))). apply Forall_forall.
  vm_compute seq. cbn [fmap list_fmap app]. repeat (constructor; [by apply printable_literal|]). constructor.
Qed.

Lemma printable_hex n : n < 16 → printable (hex_char n).
Proof.
  intros Hn. unfold hex_char. assert (Z.to_nat n < 16)%nat as Hl by lia. revert Hl. generalize (Z.to_nat n). intros k Hk.
  apply printable_ascii. do 16 (destruct k as [|k]; [by vm_compute|]). lia.
Qed.

Lemma printable_char c : Forall printable (yaml_char c).
Proof.
  destruct (Z.ltb_spec c 0).
  { unfold yaml_char. rewrite !(proj2 (Z.eqb_neq c _)) by lia. rewrite (proj2 (Z.leb_le c 0x1F)) by lia. cbn [orb].
    apply Forall_app. split; [by apply printable_literal|].
    constructor; [|constructor; [|constructor]]; apply printable_hex; [rewrite Z.shiftr_div_pow2 by lia; change (2 ^ 4) with 16; apply Z.div_lt_upper_bound; lia|].
    change 0x0F with (Z.ones 4). rewrite Z.land_ones by lia. apply Z.mod_pos_bound. lia. }
  destruct (Z.leb_spec c 0x1F); [apply printable_control; lia|].
  destruct ((0x7F <=? c) && (c <=? 0x9F)) eqn:Er; [apply printable_control; lia|].
  unfold yaml_char. rewrite Er. repeat match goal with |- context [?a =? ?b] => destruct (Z.eqb_spec a b) end; try by apply printable_literal.
  rewrite (proj2 (Z.leb_gt c 0x1F)) by lia. cbn [orb]. constructor; [|constructor]. unfold printable. lia.
Qed.

Lemma printable_quoted value : Forall printable (yaml_quoted value).
Proof.
  unfold yaml_quoted. apply Forall_app. split; [by apply printable_literal|]. apply Forall_app. split; [|by apply printable_literal].
  induction value as [|c value IH]; [constructor|]. simpl. apply Forall_app. split; [apply printable_char|done].
Qed.

(** The reader of a quoted text. *)
Definition read_quoted (s : str) : option (str * str) :=
  match s with c :: s => if c =? 0x22 then unquote s else None | [] => None end.

Lemma unquote_text value rest : Forall scalar value → unquote (flat_map yaml_char value ++ 0x22 :: rest) = Some (value, rest).
Proof.
  induction 1 as [|c value Hc _ IH]; [done|]. cbn [flat_map]. rewrite <- app_assoc, unquote_char by (unfold scalar in Hc; lia).
  by rewrite IH.
Qed.

(** ** Printable lines *)

Definition printable_text (text : bytes) : Prop := Forall printable (chars_of text).

Lemma printable_app s t : Forall printable s → Forall printable t → Forall printable (s ++ t).
Proof. intros. by apply Forall_app. Qed.

Lemma printable_hex_payload bs : printable_text (flat_map encode_byte bs).
Proof.
  unfold printable_text, chars_of. induction bs as [|b bs IH]; [constructor|]. cbn [flat_map]. rewrite fmap_app.
  apply printable_app; [|done]. apply printable_literal. by destruct b; vm_compute.
Qed.

Lemma printable_record_id id : length id = 16%nat → printable_text (record_id_encode id).
Proof.
  intros Hl. unfold printable_text, chars_of, record_id_encode. rewrite fmap_app. apply printable_app; [by apply printable_literal|].
  destruct (encode_digits_digits PAYLOAD_BYTES (from_be_bytes id)) as (ds & _ & Hf & -> & _); [apply from_be_bytes_bounds|].
  induction Hf as [|d ds Hd _ IH]; [constructor|]. simpl. constructor; [|done]. clear IH. unfold encode_digit.
  assert (Z.to_nat d < 32)%nat as Hk by lia. revert Hk. generalize (Z.to_nat d). intros k Hk.
  apply printable_ascii. do 32 (destruct k as [|k]; [by vm_compute|]). lia.
Qed.

Lemma printable_identity identity : printable_text (identity_encode identity).
Proof.
  unfold printable_text, chars_of, identity_encode. rewrite fmap_app.
  apply printable_app; [by apply printable_literal|apply printable_hex_payload].
Qed.

Lemma printable_decimal n : Forall printable (decimal n).
Proof.
  unfold decimal, txt, chars_of, b_of. generalize (N.to_uint (Z.to_N n)). intros u.
  assert (∀ u, Forall printable (byte_rank <$> list_byte_of_string (DecimalString.NilEmpty.string_of_uint u))) as H.
  { clear u. induction u; [constructor|..]; (constructor; [by apply printable_ascii; vm_compute|done]). }
  destruct u; try apply H. by apply printable_literal.
Qed.

(** The texts a writer does not quote. *)
Record unquoted_printable (record : MemoryRecordDto) : Prop := {
  up_record_id : printable_text (md_record_id (md_semantic record));
  up_repository : printable_text (sd_repository_id (md_scope (md_semantic record)));
  up_paths : Forall (λ e, printable_text (ed_path e)) (md_evidence (md_semantic record));
  up_relationships : Forall (λ r, printable_text (rd_record_id r)) (md_relationships (md_semantic record));
}.

Lemma domain_into_dto_printable r dto : record_wf r → domain_into_dto r = Ok dto → unquoted_printable dto.
Proof.
  intros Hwf H. unfold domain_into_dto in H. apply bind_Ok in H as ([] & _ & H). apply bind_Ok in H as (es & He & [= <-]). split; simpl.
  - apply printable_record_id, (wf_record_id _ Hwf).
  - apply printable_identity.
  - apply collect_results_Ok in He. induction He as [|e d es' ds Hd _ IH]; [constructor|]. constructor; [|done].
    unfold evidence_into_dto in Hd. apply bind_Ok in Hd as (path & [-> _]%map_err_Ok%encode_Ok & [= <-]). 
    change (printable_text (PREFIX ++ flat_map encode_byte (path_bytes (ev_path e)))).
    unfold printable_text, chars_of. rewrite fmap_app. apply printable_app; [by apply printable_literal|apply printable_hex_payload].
  - apply Forall_fmap. eapply Forall_impl; [apply (wf_relationships _ Hwf)|]. intros rel [Hl _]. by apply printable_record_id.
Qed.

Lemma printable_entry name value : Forall printable name → Forall printable value → Forall printable (entry name value).
Proof. intros. unfold entry. apply printable_app; [done|]. apply printable_app; [by apply printable_literal|done]. Qed.

Lemma printable_quoted_entry name value : Forall printable name → Forall printable (quoted_entry name value).
Proof. intros. apply printable_entry; [done|apply printable_quoted]. Qed.

Notation printable_lines := (Forall (Forall printable)).

(** Splits a list of lines into its literals, quoted texts, integers and hypotheses. *)
Ltac solve_printable :=
  repeat first
    [ assumption | apply printable_quoted_entry | apply printable_quoted | apply printable_entry | apply printable_decimal
    | by apply printable_literal | apply printable_app | apply (Forall_nil_2 (Forall printable)) | apply (Forall_cons_2 (Forall printable)) ].

Lemma printable_list {A} indent name (xs : list A) lines :
  Forall printable indent → Forall printable name → Forall (λ x, printable_lines (lines x)) xs → printable_lines (yaml_list indent name xs lines).
Proof.
  intros Hi Hn Hx. unfold yaml_list. destruct xs as [|x xs]; [solve_printable|]. apply Forall_cons_2; [solve_printable|].
  induction Hx as [|y ys Hy _ IH]; [apply Forall_nil_2|]. by apply Forall_app.
Qed.

Lemma printable_flat_map {A} (xs : list A) (lines : A → list str) :
  Forall (λ x, printable_lines (lines x)) xs → printable_lines (flat_map lines xs).
Proof. induction 1 as [|y ys Hy _ IH]; [apply Forall_nil_2|]. by apply Forall_app. Qed.

Lemma printable_commit c : printable_lines (commit_lines c).
Proof. unfold commit_lines. assert (Forall printable (object_format_text (cd_object_format c))) by (by destruct (cd_object_format c); apply printable_literal). solve_printable. Qed.

Lemma printable_validity v : printable_lines (validity_lines v).
Proof.
  destruct v as [i d|digest]; unfold validity_lines; [|solve_printable].
  apply Forall_app; split; [solve_printable|]. apply Forall_app; split.
  - apply printable_flat_map, Forall_true, printable_commit.
  - apply printable_list; [solve_printable..|]. apply Forall_true, printable_commit.
Qed.

Lemma printable_evidence e : printable_text (ed_path e) → printable_lines (evidence_lines e).
Proof.
  unfold printable_text. intros Hp. unfold evidence_lines. cbn [map].
  assert (Forall printable (evidence_kind_text (ed_kind e))) by (by destruct (ed_kind e); apply printable_literal).
  assert (Forall printable (symbol_kind_text (ed_symbol_kind e))) by (by destruct (ed_symbol_kind e); apply printable_literal).
  solve_printable.
Qed.

Lemma printable_relationship r : printable_text (rd_record_id r) → printable_lines (relationship_lines r).
Proof.
  unfold printable_text. intros Hp. unfold relationship_lines.
  assert (Forall printable (relationship_kind_text (rd_kind r))) by (by destruct (rd_kind r); apply printable_literal). solve_printable.
Qed.

Lemma printable_yaml_lines record : unquoted_printable record → printable_lines (yaml_lines record).
Proof.
  intros [Hi Hr Hp Hrel]. unfold yaml_lines. cbv zeta. unfold printable_text in Hi, Hr. set (d := md_semantic record) in *.
  assert (Forall printable (memory_kind_text (md_kind d))) by (by destruct (md_kind d); apply printable_literal).
  assert (Forall printable (provenance_origin_text (pd_origin (md_provenance d)))) by (by destruct (pd_origin _); apply printable_literal).
  assert (Forall printable (actor_kind_text (pd_actor_kind (md_provenance d)))) by (by destruct (pd_actor_kind _); apply printable_literal).
  assert (Forall printable (assurance_text (md_assurance d))) by (by destruct (md_assurance d); apply printable_literal).
  assert (Forall printable (lifecycle_text (md_lifecycle d))) by (by destruct (md_lifecycle d); apply printable_literal).
  assert (Forall printable (bool_text (md_tombstone d))) by (by destruct (md_tombstone d); apply printable_literal).
  repeat (apply Forall_app; split).
  - solve_printable.
  - apply printable_list; [solve_printable..|]. apply Forall_true. intros digest. solve_printable.
  - solve_printable.
  - apply printable_validity.
  - solve_printable.
  - apply printable_flat_map. eapply Forall_impl; [exact Hp|]. intros e. apply printable_evidence.
  - apply printable_list; [solve_printable..|]. eapply Forall_impl; [exact Hrel|]. intros r. apply printable_relationship.
  - solve_printable.
Qed.

(** ** Properties *)

(** A quoted text is read back and stays on its line.  Reading [yaml_quoted value] with the
    escapes of YAML gives the very characters of [value] and leaves what follows, whatever the
    value holds; and the quoted text contains no control character, line feed or line
    separator, so that a title or a body cannot add a line to a memory file. *)
Theorem yaml_text_read_back (value rest : str) :
  Forall scalar value →
  read_quoted (yaml_quoted value ++ rest) = Some (value, rest) ∧ Forall printable (yaml_quoted value).
Proof.
  intros Hv. split; [|apply printable_quoted]. unfold yaml_quoted. rewrite <- !app_assoc. by apply unquote_text.
Qed.

(** A generated memory file is exactly its lines.  Under any control a record of the domain
    is either written as the lines of its transfer object, each of printable characters and
    ended by one line feed, within 64 KiB; or generation fails because they do not fit, or a
    path does not; or the control stopped it. *)
Theorem memory_yaml_exact (r : MemoryRecord) (control : nat → option MemoryFormatError) :
  record_wf r →
  match run control (generate_memory_yaml r) with
  | Ok file => ∃ dto, domain_into_dto r = Ok dto ∧ file = as_bytes (document (yaml_lines dto))
                      ∧ len file ≤ MAX_MEMORY_YAML_BYTES ∧ printable_lines (yaml_lines dto)
  | Err e =>
      e = GenerationFailed
      ∧ ((∃ e, e ∈ rec_evidence r ∧ max_bytes PATH_LIMITS < Z.of_nat (length (path_bytes (ev_path e))))
         ∨ ∃ dto, domain_into_dto r = Ok dto ∧ MAX_MEMORY_YAML_BYTES < str_len (document (yaml_lines dto)))
      ∨ ∃ k, control k = Some e
  end.
Proof.
  intros Hwf. destruct (steady_evals _ _ control (steady_yaml r) (evals_yaml r)) as [->|(k & e & Hk & ->)]; [|by right; exists k].
  unfold yaml_result. pose proof (domain_into_dto_spec r Hwf) as Hd. destruct (domain_into_dto r) as [dto|e] eqn:E; rstep; cbv zeta.
  - destruct (Z.leb_spec (str_len (document (yaml_lines dto))) MAX_MEMORY_YAML_BYTES) as [Hl|Hl].
    + exists dto. split; [done|]. split; [done|]. split; [exact Hl|]. by apply printable_yaml_lines, (domain_into_dto_printable r).
    + left. split; [done|]. right. by exists dto.
  - destruct Hd as [-> Hd]. left. split; [done|]. by left.
Qed.

(** A hostile title. *)
Definition hostile_title : str := txt "a" ++ [0x22; 0x0A; 0x85; 0x2028; 0x5C; 0x1F600].

Lemma yaml_text_read_back_witness :
  read_quoted (yaml_quoted hostile_title ++ txt "rest") = Some (hostile_title, txt "rest")
  ∧ Forall printable (yaml_quoted hostile_title).
Proof.
  apply (yaml_text_read_back hostile_title (txt "rest")). unfold hostile_title. change (txt "a") with [97]. cbn [app].
  repeat (apply Forall_cons_2; [unfold scalar; lia|]). apply Forall_nil_2.
Defined.

Example hostile_title_quoted :
  as_bytes (yaml_quoted hostile_title) = [x22] ++ b_of "a\" ++ [x22] ++ b_of "\n\u0085\u2028\\" ++ [xf0; x9f; x98; x80; x22].
Proof. by vm_compute. Qed.

Lemma memory_yaml_exact_witness :
  ∃ r dto file, example_record = Some r ∧ domain_into_dto r = Ok dto ∧ run never (generate_memory_yaml r) = Ok file
                ∧ file = as_bytes (document (yaml_lines dto)) ∧ length (yaml_lines dto) = 48%nat.
Proof.
  destruct example_record_read as (r & Hr & Hd). destruct (dto_into_domain_wf _ _ example_dto_typed Hd) as (Hwf & dto & Hdto).
  pose proof (memory_yaml_exact r never Hwf) as H.
  assert (∃ file, run never (generate_memory_yaml r) = Ok file) as (file & Hf).
  { clear -Hr. vm_compute in Hr. injection Hr as <-. eexists. vm_compute. reflexivity. }
  rewrite Hf in H. destruct H as (dto' & Hdto' & -> & _). exists r, dto', (as_bytes (document (yaml_lines dto'))).
  split_and!; try done. clear -Hr Hdto'. vm_compute in Hr. injection Hr as <-. vm_compute in Hdto'. injection Hdto' as <-. reflexivity.
Defined.
