(* ===== verification/WatchHints.v ===== *)
(** * The watcher's dirty-path hints

    Models [crates/repowitness-local/src/watch_reconciliation/hints.rs]: the bounded
    accumulation of the paths a file watcher reports, which degrades to a complete
    reconciliation instead of losing one.  A method that takes [&mut self] returns its result
    with the state it leaves. *)

From Stdlib Require Import ZArith Lia ZifyBool.
From Stdlib Require Import Strings.Byte.
From stdpp Require Import base numbers sorting list.
From S2P Require Import Prelude Ordering.

Open Scope Z_scope.

(** ** Limits *)

Definition MAX_WATCHER_HINT_PATHS : Z := 65536.
Definition MAX_WATCHER_HINT_PATH_BYTES : Z := 64 * 1024 * 1024.
Definition DEFAULT_WATCHER_HINT_PATHS : Z := 4096.
Definition DEFAULT_WATCHER_HINT_PATH_BYTES : Z := 4 * 1024 * 1024.

Record WatcherHintLimits := {
  hint_max_paths : Z;
  hint_max_path_bytes : Z;
}.

Definition HINT_DEFAULT : WatcherHintLimits :=
  {| hint_max_paths := DEFAULT_WATCHER_HINT_PATHS; hint_max_path_bytes := DEFAULT_WATCHER_HINT_PATH_BYTES |}.

Inductive WatcherHintLimitError :=
| ZeroPathLimit | PathLimitTooLarge | ZeroPathByteLimit | PathByteLimitTooLarge.

Definition hint_limits_try_new (max_paths max_path_bytes : Z) : result WatcherHintLimitError WatcherHintLimits :=
  if max_paths =? 0 then Err ZeroPathLimit
  else if MAX_WATCHER_HINT_PATHS <? max_paths then Err PathLimitTooLarge
  else if max_path_bytes =? 0 then Err ZeroPathByteLimit
  else if MAX_WATCHER_HINT_PATH_BYTES <? max_path_bytes then Err PathByteLimitTooLarge
  else Ok {| hint_max_paths := max_paths; hint_max_path_bytes := max_path_bytes |}.

(** ** Causes, counters and outcomes *)

Definition PATH_COUNT_OVERFLOW : Z := 1.
Definition PATH_BYTE_OVERFLOW : Z := Z.shiftl 1 1.
Definition UNSUPPORTED_EVENT : Z := Z.shiftl 1 2.
Definition COUNTER_OVERFLOW : Z := Z.shiftl 1 3.

(** [WatcherFullReconciliationCauses], a set of bits. *)
Definition cause_present (causes cause : Z) : bool := negb (Z.land causes cause =? 0).
Definition causes_is_empty (causes : Z) : bool := causes =? 0.
Definition causes_insert (causes cause : Z) : Z := Z.lor causes cause.

Record WatcherHintCounters := {
  observed_events : Z;
  duplicate_hints : Z;
  coalesced_hints : Z;
  overflow_events : Z;
  unsupported_events : Z;
}.

Definition zero_counters : WatcherHintCounters :=
  {| observed_events := 0; duplicate_hints := 0; coalesced_hints := 0; overflow_events := 0; unsupported_events := 0 |}.

Inductive WatcherHintAdmission :=
| Retained | Duplicate | PathCountOverflow | PathByteOverflow | UnsupportedEvent | HintCounterOverflow
| FullReconciliationAlreadyRequired.

(** [increment]: whether the counter advanced, and its new value. *)
Definition increment (counter : Z) : bool * Z :=
  let next := u64_saturating_add counter 1 in (negb (next =? counter), next).

Section hints.
(** A repository path, its order and [byte_count]. *)
Context {P : Type} `{RustOrd P} (byte_count : P → Z).

Record WatcherHintBatch := {
  batch_paths : list P;
  batch_full_reconciliation_required : bool;
  batch_causes : Z;
}.

Record WatcherHintAccumulator := {
  acc_limits : WatcherHintLimits;
  acc_paths : list P;
  retained_path_count : Z;
  retained_path_bytes : Z;
  acc_causes : Z;
  acc_counters : WatcherHintCounters;
}.

Implicit Types (s : WatcherHintAccumulator).

Definition hints_new (limits : WatcherHintLimits) : WatcherHintAccumulator :=
  {| acc_limits := limits; acc_paths := []; retained_path_count := 0; retained_path_bytes := 0; acc_causes := 0;
     acc_counters := zero_counters |}.

Definition with_counters s (counters : WatcherHintCounters) : WatcherHintAccumulator :=
  {| acc_limits := acc_limits s; acc_paths := acc_paths s; retained_path_count := retained_path_count s;
     retained_path_bytes := retained_path_bytes s; acc_causes := acc_causes s; acc_counters := counters |}.

Definition require_full s (cause : Z) : WatcherHintAccumulator :=
  {| acc_limits := acc_limits s; acc_paths := []; retained_path_count := 0; retained_path_bytes := 0;
     acc_causes := causes_insert (acc_causes s) cause; acc_counters := acc_counters s |}.

Definition counter_overflow s : WatcherHintAdmission * WatcherHintAccumulator :=
  (HintCounterOverflow, require_full s COUNTER_OVERFLOW).

(** [if !increment(&mut self.counters.<field>)], one function for each field. *)
Definition count_observed s : bool * WatcherHintAccumulator :=
  let c := acc_counters s in
  let '(advanced, value) := increment (observed_events c) in
  (advanced, with_counters s {| observed_events := value; duplicate_hints := duplicate_hints c; coalesced_hints := coalesced_hints c;
                                overflow_events := overflow_events c; unsupported_events := unsupported_events c |}).

Definition count_duplicate s : bool * WatcherHintAccumulator :=
  let c := acc_counters s in
  let '(advanced, value) := increment (duplicate_hints c) in
  (advanced, with_counters s {| observed_events := observed_events c; duplicate_hints := value; coalesced_hints := coalesced_hints c;
                                overflow_events := overflow_events c; unsupported_events := unsupported_events c |}).

Definition count_coalesced s : bool * WatcherHintAccumulator :=
  let c := acc_counters s in
  let '(advanced, value) := increment (coalesced_hints c) in
  (advanced, with_counters s {| observed_events := observed_events c; duplicate_hints := duplicate_hints c; coalesced_hints := value;
                                overflow_events := overflow_events c; unsupported_events := unsupported_events c |}).

Definition count_overflow s : bool * WatcherHintAccumulator :=
  let c := acc_counters s in
  let '(advanced, value) := increment (overflow_events c) in
  (advanced, with_counters s {| observed_events := observed_events c; duplicate_hints := duplicate_hints c;
                                coalesced_hints := coalesced_hints c; overflow_events := value;
                                unsupported_events := unsupported_events c |}).

Definition count_unsupported s : bool * WatcherHintAccumulator :=
  let c := acc_counters s in
  let '(advanced, value) := increment (unsupported_events c) in
  (advanced, with_counters s {| observed_events := observed_events c; duplicate_hints := duplicate_hints c;
                                coalesced_hints := coalesced_hints c; overflow_events := overflow_events c;
                                unsupported_events := value |}).

Definition overflow s (cause : Z) (admission : WatcherHintAdmission) : WatcherHintAdmission * WatcherHintAccumulator :=
  let s := require_full s cause in
  let '(advanced, s) := count_overflow s in
  if negb advanced then (HintCounterOverflow, require_full s COUNTER_OVERFLOW) else (admission, s).

Definition retain_new_path s (path : P) : WatcherHintAdmission * WatcherHintAccumulator :=
  match checked u32_max (retained_path_count s + 1) with
  | None => overflow s PATH_COUNT_OVERFLOW PathCountOverflow
  | Some next_count =>
      if hint_max_paths (acc_limits s) <? next_count then overflow s PATH_COUNT_OVERFLOW PathCountOverflow
      else
        match u64_checked_add (retained_path_bytes s) (byte_count path) with
        | None => overflow s PATH_BYTE_OVERFLOW PathByteOverflow
        | Some next_bytes =>
            if hint_max_path_bytes (acc_limits s) <? next_bytes then overflow s PATH_BYTE_OVERFLOW PathByteOverflow
            else
              (Retained,
               {| acc_limits := acc_limits s; acc_paths := bset_insert path (acc_paths s); retained_path_count := next_count;
                  retained_path_bytes := next_bytes; acc_causes := acc_causes s; acc_counters := acc_counters s |})
        end
  end.

Definition record_hint s (path : P) : WatcherHintAdmission * WatcherHintAccumulator :=
  let '(advanced, s) := count_observed s in
  if negb advanced then counter_overflow s
  else if negb (causes_is_empty (acc_causes s)) then
    let '(advanced, s) := count_coalesced s in
    if negb advanced then counter_overflow s else (FullReconciliationAlreadyRequired, s)
  else if bset_mem path (acc_paths s) then
    let '(advanced, s) := count_duplicate s in
    if negb advanced then counter_overflow s else (Duplicate, s)
  else retain_new_path s path.

Definition record_unsupported_event s : WatcherHintAdmission * WatcherHintAccumulator :=
  let '(advanced, s) := count_observed s in
  if negb advanced then counter_overflow s
  else
    let '(advanced, s) := count_unsupported s in
    if negb advanced then counter_overflow s else (UnsupportedEvent, require_full s UNSUPPORTED_EVENT).

Definition drain s : WatcherHintBatch * WatcherHintAccumulator :=
  let causes := acc_causes s in
  let full_reconciliation_required := negb (causes_is_empty causes) in
  let paths := if full_reconciliation_required then [] else acc_paths s in
  ({| batch_paths := paths; batch_full_reconciliation_required := full_reconciliation_required; batch_causes := causes |},
   {| acc_limits := acc_limits s; acc_paths := []; retained_path_count := 0; retained_path_bytes := 0; acc_causes := 0;
      acc_counters := acc_counters s |}).
End hints.

(** ** Events *)

Section properties.
Context {P : Type} `{RustOrdLaws P} (byte_count : P → Z).

Inductive HintEvent := HintPath (path : P) | HintUnsupported | HintDrain.

Definition hint_step (s : WatcherHintAccumulator (P := P)) (e : HintEvent) : WatcherHintAccumulator :=
  match e with
  | HintPath path => (record_hint byte_count s path).2
  | HintUnsupported => (record_unsupported_event s).2
  | HintDrain => (drain s).2
  end.

Definition hints_run (s : WatcherHintAccumulator) (es : list HintEvent) : WatcherHintAccumulator := foldl hint_step s es.

(** The paths reported by events, as a set, and their bytes. *)
Definition reported (es : list HintEvent) : list P :=
  bset_of_list (omap (λ e, match e with HintPath path => Some path | _ => None end) es).
Definition total_bytes (ps : list P) : Z := foldr (λ p n, byte_count p + n) 0 ps.

(** The events an accumulator can hold as paths. *)
Record held (limits : WatcherHintLimits) (es : list HintEvent) : Prop := {
  held_supported : HintUnsupported ∉ es;
  held_paths : Z.of_nat (length (reported es)) ≤ hint_max_paths limits;
  held_bytes : total_bytes (reported es) ≤ hint_max_path_bytes limits;
}.

(** What [hint_limits_try_new] returns. *)
Definition hint_limits_wf (limits : WatcherHintLimits) : Prop :=
  0 < hint_max_paths limits ≤ MAX_WATCHER_HINT_PATHS ∧ 0 < hint_max_path_bytes limits ≤ MAX_WATCHER_HINT_PATH_BYTES.

Context (Hbytes : ∀ p, 0 ≤ byte_count p).

Lemma total_bytes_nonneg ps : 0 ≤ total_bytes ps.
Proof. induction ps as [|p ps IH]; simpl; [done|]. pose proof (Hbytes p). lia. Qed.

Lemma total_bytes_insert p ps : bset_wf ps → p ∉ ps → total_bytes (bset_insert p ps) = total_bytes ps + byte_count p.
Proof.
  intros Hw Hp. induction ps as [|q ps IH]; [simpl; lia|]. apply not_elem_of_cons in Hp as [Hne Hp]. cbn [bset_insert].
  destruct (cmp p q) eqn:E; [by apply cmp_eq in E|simpl; lia|]. simpl. rewrite IH; [lia| |done]. by inversion Hw.
Qed.

Lemma bset_insert_same p ps : bset_wf ps → p ∈ ps → bset_insert p ps = ps.
Proof.
  intros Hw Hp. apply bset_ext; [by apply bset_insert_wf|done|]. intros x. rewrite elem_of_bset_insert. naive_solver.
Qed.

Lemma reported_wf es : bset_wf (reported es).
Proof. apply bset_of_list_wf. Qed.

Lemma reported_path es p : reported (es ++ [HintPath p]) = bset_insert p (reported es).
Proof. unfold reported, bset_of_list. by rewrite omap_app, foldl_app. Qed.

Lemma reported_unsupported es : reported (es ++ [HintUnsupported]) = reported es.
Proof. unfold reported, bset_of_list. rewrite omap_app, foldl_app. done. Qed.

Lemma held_prefix limits es e : held limits (es ++ [e]) → held limits es.
Proof.
  intros [Hu Hp Hb]. rewrite not_elem_of_app in Hu. destruct Hu as [Hu He].
  destruct e as [p| |]; [|by rewrite reported_unsupported in *|].
  - rewrite reported_path in *. destruct (decide (p ∈ reported es)) as [Hin|Hin].
    + rewrite bset_insert_same in * by (done || apply reported_wf). done.
    + rewrite length_bset_insert in Hp by (done || apply reported_wf).
      rewrite total_bytes_insert in Hb by (done || apply reported_wf). pose proof (Hbytes p). split; [done|lia..].
  - unfold reported in *. rewrite omap_app in *. simpl in *. by rewrite app_nil_r in *.
Qed.

(** ** The counters *)

Definition counters_within (c : WatcherHintCounters) (n : Z) : Prop :=
  Forall (λ k, 0 ≤ k ≤ Z.min n u64_max)
    [observed_events c; duplicate_hints c; coalesced_hints c; overflow_events c; unsupported_events c].

Lemma increment_spec c : 0 ≤ c ≤ u64_max → increment c = (c <? u64_max, Z.min u64_max (c + 1)).
Proof. intros Hc. unfold increment, u64_saturating_add. f_equal. destruct (Z.ltb_spec c u64_max); lia. Qed.

(** Every counting step raises one counter, and fails only when it is at its end. *)
Definition counts (count : WatcherHintAccumulator (P := P) → bool * WatcherHintAccumulator) : Prop :=
  ∀ s n, counters_within (acc_counters s) n →
  ∃ advanced c, count s = (advanced, with_counters s c) ∧ counters_within c (n + 1) ∧ (advanced = false → u64_max ≤ n).

Ltac solve_counts :=
  intros s n Hc; unfold counters_within in *; inversion_clear Hc as [|? ? H1 Hc1]; inversion_clear Hc1 as [|? ? H2 Hc2];
  inversion_clear Hc2 as [|? ? H3 Hc3]; inversion_clear Hc3 as [|? ? H4 Hc4]; inversion_clear Hc4 as [|? ? H5 _];
  do 2 eexists; split; [cbv zeta; rewrite increment_spec by lia; reflexivity|];
  split; [repeat (apply Forall_cons_2; [simpl; lia|]); apply Forall_nil_2|intros ?; lia].

Lemma counts_observed : counts count_observed. Proof. unfold count_observed. solve_counts. Qed.
Lemma counts_duplicate : counts count_duplicate. Proof. unfold count_duplicate. solve_counts. Qed.
Lemma counts_coalesced : counts count_coalesced. Proof. unfold count_coalesced. solve_counts. Qed.
Lemma counts_overflow : counts count_overflow. Proof. unfold count_overflow. solve_counts. Qed.
Lemma counts_unsupported : counts count_unsupported. Proof. unfold count_unsupported. solve_counts. Qed.

Lemma counters_within_mono c n m : n ≤ m → counters_within c n → counters_within c m.
Proof. intros Hn Hc. eapply Forall_impl; [exact Hc|]. simpl. intros k. lia. Qed.

(** ** The invariant

    [es] are the events since the last drain; [n] bounds what the counters have counted. *)

Record hints_inv (limits : WatcherHintLimits) (s : WatcherHintAccumulator (P := P)) (es : list HintEvent) (n : Z) : Prop := {
  hi_limits : acc_limits s = limits;
  hi_counters : counters_within (acc_counters s) n;
  hi_paths : acc_causes s = 0 →
    acc_paths s = reported es ∧ retained_path_count s = Z.of_nat (length (reported es))
    ∧ retained_path_bytes s = total_bytes (reported es) ∧ held limits es;
  hi_full : acc_causes s ≠ 0 → 0 < acc_causes s ∧ (n < u64_max → ¬ held limits es);
}.

(** Requiring a complete reconciliation is always sound, and exact when the events cannot be
    held. *)
Lemma require_full_inv limits s cause es n :
  acc_limits s = limits → counters_within (acc_counters s) n → 0 ≤ acc_causes s → 0 < cause →
  (n < u64_max → ¬ held limits es) → hints_inv limits (require_full s cause) es n.
Proof.
  intros Hl Hc Hca Hcause Hheld.
  assert (0 < acc_causes (require_full s cause)) as Hpos.
  { simpl. unfold causes_insert. apply Z.le_neq. split; [apply Z.lor_nonneg; lia|]. intros E. symmetry in E. apply Z.lor_eq_0_iff in E. lia. }
  split; [done|done|intros E; lia|]. intros _. by split.
Qed.

Lemma hints_inv_causes limits s es n : hints_inv limits s es n → 0 ≤ acc_causes s.
Proof. intros Hi. destruct (decide (acc_causes s = 0)) as [->|Hne]; [done|]. destruct (hi_full _ _ _ _ Hi Hne). lia. Qed.

Lemma overflow_inv limits s cause admission es n :
  acc_limits s = limits → counters_within (acc_counters s) n → 0 ≤ acc_causes s → 0 < cause → ¬ held limits es →
  hints_inv limits (overflow s cause admission).2 es (n + 1).
Proof.
  intros Hl Hc Hca Hcause Hheld. unfold overflow.
  destruct (counts_overflow (require_full s cause) n) as (advanced & c & -> & Hc' & Ha); [done|].
  assert (0 ≤ causes_insert (acc_causes s) cause) by (unfold causes_insert; apply Z.lor_nonneg; lia).
  pose proof (require_full_inv limits s cause es n Hl Hc Hca Hcause (λ _, Hheld)) as [Hl' _ Hp Hf].
  destruct advanced; simpl.
  - split; try done. intros Hne. destruct (Hf Hne). by split.
  - by apply require_full_inv.
Qed.

(** ** One event *)

Lemma held_unsupported limits es : ¬ held limits (es ++ [HintUnsupported]).
Proof. intros [Hu _ _]. apply Hu, elem_of_app. right. by left. Qed.

Lemma hints_inv_weaken limits s es n m : n ≤ m → hints_inv limits s es n → hints_inv limits s es m.
Proof.
  intros Hn [Hl Hc Hp Hf]. split; [done|by eapply counters_within_mono|done|]. intros Hne. destruct (Hf Hne) as [? Hh].
  split; [done|]. intros ?. apply Hh. lia.
Qed.

Lemma retain_new_path_inv limits s es n p :
  hint_limits_wf limits → hints_inv limits s es n → acc_causes s = 0 → p ∉ reported es →
  hints_inv limits (retain_new_path byte_count s p).2 (es ++ [HintPath p]) (n + 1).
Proof.
  intros [Hmp Hmb] Hi Hz Hp. destruct (hi_paths _ _ _ _ Hi Hz) as (Hps & Hn & Hb & Hheld). pose proof (hi_limits _ _ _ _ Hi) as Hl.
  pose proof (hi_counters _ _ _ _ Hi) as Hc. unfold MAX_WATCHER_HINT_PATHS, MAX_WATCHER_HINT_PATH_BYTES in *.
  pose proof (reported_wf es) as Hw. pose proof (length_bset_insert p _ Hw Hp) as Hlen. pose proof (total_bytes_insert p _ Hw Hp) as Htot.
  pose proof (total_bytes_nonneg (reported es)). pose proof (Hbytes p). unfold retain_new_path. rewrite Hn, Hb, Hl.
  pose proof (held_paths _ _ Hheld). rewrite checked_in by (unfold u32_max; lia).
  destruct (Z.ltb_spec (hint_max_paths limits) (Z.of_nat (length (reported es)) + 1)) as [Hover|Hok].
  { apply overflow_inv; try done; [lia|]. intros [_ Hh _]. rewrite reported_path, Hlen in Hh. lia. }
  assert (∀ o, (o = None ∨ o = Some (total_bytes (reported es) + byte_count p)) →
    (o = None → u64_max < total_bytes (reported es) + byte_count p) →
    hints_inv limits
      (match o with
       | None => overflow s PATH_BYTE_OVERFLOW PathByteOverflow
       | Some next_bytes =>
           if hint_max_path_bytes limits <? next_bytes then overflow s PATH_BYTE_OVERFLOW PathByteOverflow
           else (Retained,
                 {| acc_limits := limits; acc_paths := bset_insert p (acc_paths s);
                    retained_path_count := Z.of_nat (length (reported es)) + 1; retained_path_bytes := next_bytes;
                    acc_causes := acc_causes s; acc_counters := acc_counters s |})
       end).2 (es ++ [HintPath p]) (n + 1)) as Hgoal.
  { intros o Ho Hnone. assert (hint_max_path_bytes limits < total_bytes (reported es) + byte_count p →
      hints_inv limits (overflow s PATH_BYTE_OVERFLOW PathByteOverflow).2 (es ++ [HintPath p]) (n + 1)) as Hov.
    { intros Hover. apply overflow_inv; try done; [lia|]. intros [_ _ Hh]. rewrite reported_path, Htot in Hh. lia. }
    destruct o as [next|]; [|apply Hov; specialize (Hnone eq_refl); unfold u64_max in Hnone; lia].
    destruct Ho as [|[= ->]]; [done|]. destruct (Z.ltb_spec (hint_max_path_bytes limits) (total_bytes (reported es) + byte_count p)) as [Hover|Hokb];
      [by apply Hov|]. split; simpl; [done|eapply counters_within_mono; [|exact Hc]; lia| |intros ?; congruence].
    intros _. rewrite reported_path, Hps. split_and!; [done|lia|lia|]. split; rewrite ?reported_path; [|lia..].
    rewrite not_elem_of_app. split; [apply (held_supported _ _ Hheld)|]. intros Hin%list_elem_of_singleton. done. }
  apply Hgoal; unfold u64_checked_add.
  - destruct (checked u64_max _) eqn:E; [right|by left]. apply checked_Some in E as [-> _]. done.
  - intros E%checked_None. lia.
Qed.

Lemma reported_again es p : p ∈ reported es → reported (es ++ [HintPath p]) = reported es.
Proof. intros Hp. rewrite reported_path. apply bset_insert_same; [apply reported_wf|done]. Qed.

Lemma held_again limits es p : p ∈ reported es → held limits es → held limits (es ++ [HintPath p]).
Proof.
  intros Hp [Hu Hn Hb]. split; rewrite ?reported_again by done; [|done..].
  rewrite not_elem_of_app. split; [done|]. intros Hin%list_elem_of_singleton. done.
Qed.

(** Steps over the counting conditionals. *)
Ltac hstep := cbn [negb snd with_counters acc_causes acc_paths acc_limits acc_counters].

Lemma record_hint_inv limits s es n p :
  hint_limits_wf limits → hints_inv limits s es n → hints_inv limits (record_hint byte_count s p).2 (es ++ [HintPath p]) (n + 2).
Proof.
  intros Hw Hi. pose proof (hints_inv_causes _ _ _ _ Hi) as Hca. destruct Hi as [Hl Hc Hp Hf]. unfold record_hint.
  destruct (counts_observed s n Hc) as (advanced & c & -> & Hc' & Ha).
  destruct advanced; hstep; [|apply require_full_inv; try done; [eapply counters_within_mono; [|exact Hc']; lia|specialize (Ha eq_refl); lia]].
  assert (hints_inv limits (with_counters s c) es (n + 1)) as Hi1.
  { split; try done. intros Hne. destruct (Hf Hne) as [? Hh]. split; [done|]. intros ?. apply Hh. lia. }
  unfold causes_is_empty. destruct (Z.eqb_spec (acc_causes s) 0) as [Hz|Hne]; hstep.
  - destruct (Hp Hz) as (Hps & _ & _ & Hheld). destruct (bset_mem p (acc_paths s)) eqn:Em.
    + rewrite Hps in Em. apply bset_mem_spec in Em; [|apply reported_wf].
      destruct (counts_duplicate (with_counters s c) (n + 1) Hc') as (advanced & c2 & -> & Hc2 & Ha2).
      replace (n + 1 + 1) with (n + 2) in Hc2 by lia.
      destruct advanced; hstep; [|apply require_full_inv; try done; specialize (Ha2 eq_refl); lia].
      split; simpl; try done. intros _. destruct (Hp Hz) as (? & ? & ? & _). rewrite reported_again by done. split_and!; try done.
      by apply held_again.
    + rewrite Hps in Em. apply bset_mem_false in Em; [|apply reported_wf].
      replace (n + 2) with (n + 1 + 1) by lia. by apply retain_new_path_inv.
  - destruct (counts_coalesced (with_counters s c) (n + 1) Hc') as (advanced & c2 & -> & Hc2 & Ha2).
    replace (n + 1 + 1) with (n + 2) in Hc2 by lia. destruct (Hf Hne) as [Hpos Hh].
    destruct advanced; hstep.
    + split; simpl; try done. intros _. split; [done|]. intros Hlt Hheld%held_prefix. apply Hh; [lia|done].
    + apply require_full_inv; try done. specialize (Ha2 eq_refl). lia.
Qed.

Lemma record_unsupported_inv limits s es n :
  hints_inv limits s es n → hints_inv limits (record_unsupported_event s).2 (es ++ [HintUnsupported]) (n + 2).
Proof.
  intros Hi. pose proof (hints_inv_causes _ _ _ _ Hi) as Hca. destruct Hi as [Hl Hc Hp Hf]. unfold record_unsupported_event.
  destruct (counts_observed s n Hc) as (advanced & c & -> & Hc' & Ha).
  destruct advanced; hstep;
    [|apply require_full_inv; try done; [eapply counters_within_mono; [|exact Hc']; lia|intros _; apply held_unsupported]].
  destruct (counts_unsupported (with_counters s c) (n + 1) Hc') as (advanced & c2 & -> & Hc2 & Ha2).
  replace (n + 1 + 1) with (n + 2) in Hc2 by lia.
  destruct advanced; hstep; apply require_full_inv; try done; intros _; apply held_unsupported.
Qed.

(** ** Every history *)

Lemma hints_new_inv limits : hint_limits_wf limits → hints_inv limits (hints_new limits) [] 0.
Proof.
  intros [Hmp Hmb]. split; simpl; [done| |intros _; split_and!; try done|done].
  - repeat (apply Forall_cons_2; [simpl; unfold u64_max; lia|]). apply Forall_nil_2.
  - split; [apply not_elem_of_nil|simpl; lia..].
Qed.

Lemma drain_inv limits s es n : hint_limits_wf limits → hints_inv limits s es n → hints_inv limits (drain s).2 [] n.
Proof.
  intros [Hmp Hmb] [Hl Hc _ _]. split; simpl; [done..| |done]. intros _. split_and!; try done.
  split; [apply not_elem_of_nil|simpl; lia..].
Qed.

Lemma hints_run_inv limits s es0 es n :
  hint_limits_wf limits → HintDrain ∉ es → hints_inv limits s es0 n →
  hints_inv limits (hints_run s es) (es0 ++ es) (n + 2 * Z.of_nat (length es)).
Proof.
  intros Hw. revert s es0 n. induction es as [|e es IH]; intros s es0 n Hd Hi.
  { rewrite app_nil_r. replace (n + 2 * Z.of_nat (length [])) with n by (simpl; lia). exact Hi. }
  apply not_elem_of_cons in Hd as [He Hd]. rewrite cons_middle, app_assoc. simpl hints_run.
  replace (n + 2 * Z.of_nat (length (e :: es))) with (n + 2 + 2 * Z.of_nat (length es)) by (simpl length; lia).
  apply IH; [done|]. destruct e as [p| |]; simpl; [by apply record_hint_inv|by apply record_unsupported_inv|done].
Qed.

Lemma hints_past_inv limits past s es0 n :
  hint_limits_wf limits → hints_inv limits s es0 n → ∃ es, hints_inv limits (hints_run s past) es (n + 2 * Z.of_nat (length past)).
Proof.
  intros Hw. revert s es0 n. induction past as [|e past IH]; intros s es0 n Hi.
  { exists es0. replace (n + 2 * Z.of_nat (length [])) with n by (simpl; lia). exact Hi. }
  simpl hints_run. replace (n + 2 * Z.of_nat (length (e :: past))) with (n + 2 + 2 * Z.of_nat (length past)) by (simpl length; lia).
  destruct e as [p| |]; simpl.
  - eapply IH. by apply record_hint_inv.
  - eapply IH. by apply record_unsupported_inv.
  - eapply IH. eapply hints_inv_weaken; [|by eapply drain_inv]. lia.
Qed.

(** The accumulator before a drain, [es] after the last one. *)
Lemma hints_history limits past es :
  hint_limits_wf limits → HintDrain ∉ es →
  hints_inv limits (hints_run (hints_new limits) (past ++ HintDrain :: es)) es (2 * Z.of_nat (length past + length es)).
Proof.
  intros Hw Hd. unfold hints_run. rewrite foldl_app. fold (hints_run (hints_new limits) past). simpl foldl.
  destruct (hints_past_inv limits past _ [] 0 Hw (hints_new_inv limits Hw)) as (es0 & Hi). rewrite Z.add_0_l in Hi.
  apply drain_inv in Hi; [|done]. apply (hints_run_inv _ _ [] es) in Hi; [|done..].
  replace (2 * Z.of_nat (length past + length es)) with (2 * Z.of_nat (length past) + 2 * Z.of_nat (length es)) by lia. exact Hi.
Qed.
End properties.

Lemma hint_limits_Ok max_paths max_path_bytes limits :
  0 ≤ max_paths → 0 ≤ max_path_bytes → hint_limits_try_new max_paths max_path_bytes = Ok limits → hint_limits_wf limits.
Proof.
  intros Hp Hb. unfold hint_limits_try_new. destruct (Z.eqb_spec max_paths 0), (Z.ltb_spec MAX_WATCHER_HINT_PATHS max_paths),
    (Z.eqb_spec max_path_bytes 0), (Z.ltb_spec MAX_WATCHER_HINT_PATH_BYTES max_path_bytes); try done.
  intros [= <-]. unfold hint_limits_wf. simpl. lia.
Qed.

(** A drained batch never loses a hint.  Whatever happened before, the batch drained after
    some events since the last drain either holds exactly the set of the reported paths, within
    both limits and with no unsupported event, or demands a complete reconciliation with a
    cause and no paths; and while the counters are far from their end it demands one exactly
    when the reported paths do not fit or an event was unsupported. *)
Theorem hint_batch_exact {P} `{RustOrdLaws P} (byte_count : P → Z) (max_paths max_path_bytes : Z) (limits : WatcherHintLimits)
    (past es : list (HintEvent (P := P))) :
  (∀ p, 0 ≤ byte_count p) → 0 ≤ max_paths → 0 ≤ max_path_bytes → hint_limits_try_new max_paths max_path_bytes = Ok limits →
  HintDrain ∉ es →
  let batch := (drain (hints_run byte_count (hints_new limits) (past ++ HintDrain :: es))).1 in
  (batch_full_reconciliation_required batch = false → batch_paths batch = reported es ∧ held byte_count limits es)
  ∧ (batch_full_reconciliation_required batch = true → batch_paths batch = [] ∧ 0 < batch_causes batch)
  ∧ (2 * Z.of_nat (length past + length es) < u64_max →
     batch_full_reconciliation_required batch = true ↔ ¬ held byte_count limits es).
Proof.
  intros Hb Hmp Hmb Hl%hint_limits_Ok Hd; [|done..]. cbv zeta. pose proof (hints_history byte_count Hb limits past es Hl Hd) as Hi.
  destruct (hints_run _ _ _) as [l ps n b causes c]. destruct Hi as [_ _ Hp Hf]. unfold drain, causes_is_empty.
  cbn [acc_causes acc_paths fst batch_full_reconciliation_required batch_paths batch_causes] in *.
  destruct (Z.eqb_spec causes 0) as [Hz|Hne]; simpl.
  - destruct (Hp Hz) as (-> & _ & _ & Hheld). split_and!; [done|done|]. intros _. split; [done|]. by intros [].
  - destruct (Hf Hne) as [Hpos Hh]. split_and!; [done|done|]. intros Hlt. split; [intros _; by apply Hh|done].
Qed.

(** Two paths after an unsupported event that was drained. *)
Definition hint_past : list (HintEvent (P := bytes)) := [HintUnsupported; HintPath [x61]].
Definition hint_events : list (HintEvent (P := bytes)) := [HintPath [x62]; HintPath [x61; x61]; HintPath [x62]].
Definition hint_limits : WatcherHintLimits := {| hint_max_paths := 2; hint_max_path_bytes := 3 |}.

Lemma hint_batch_exact_witness :
  let batch := (drain (hints_run len (hints_new hint_limits) (hint_past ++ HintDrain :: hint_events))).1 in
  batch_paths batch = [[x61; x61]; [x62]] ∧ batch_paths batch = reported hint_events ∧ held len hint_limits hint_events.
Proof.
  cbv zeta. split; [by vm_compute|].
  apply (hint_batch_exact len 2 3 hint_limits hint_past hint_events len_nonneg ltac:(lia) ltac:(lia) eq_refl); [|by vm_compute].
  unfold hint_events. intros Hin. repeat (apply elem_of_cons in Hin as [Hin|Hin]; [discriminate Hin|]). by apply elem_of_nil in Hin.
Defined.

(** One path more, or one byte more, and the batch is complete. *)
Example hint_batch_overflow :
  batch_causes (drain (hints_run len (hints_new hint_limits) (hint_events ++ [HintPath [x63]]))).1 = PATH_COUNT_OVERFLOW
  ∧ batch_causes (drain (hints_run len (hints_new hint_limits) [HintPath [x61; x61]; HintPath [x62; x62]])).1 = PATH_BYTE_OVERFLOW.
Proof. by vm_compute. Qed.
