(* ===== verification/GitPaths.v ===== *)
(** * Paths discovered through Git

    Models [crates/repowitness-local/src/git_paths.rs] with [git_paths/process.rs] and
    [git_paths/reconciliation.rs]: the bounded parsing of NUL-delimited Git output and the
    reconciliation of the cached, untracked and deleted paths of a worktree.  The outputs of
    the subprocess, and the inspection of a path's spelling on disk, are parameters.  The
    control is the oracle of the [ctl] monad. *)

From Stdlib Require Import ZArith Lia ZifyBool.
From Stdlib Require Import Strings.Byte.
From stdpp Require Import base numbers sorting list.
From S2P Require Import Prelude Ordering RepositoryPath.

Open Scope Z_scope.

(** ** Limits, statistics and errors *)

(** [deadline] is kept by the control. *)
Record GitPathDiscoveryLimits := {
  limit_output_bytes : Z;
  limit_paths : Z;
  limit_repository_path : RepositoryPathLimits;
}.

Record GitPathDiscoveryStats := {
  stat_output_bytes : Z;
  stat_path_count : Z;
  stat_total_path_bytes : Z;
  stat_longest_path_bytes : Z;
  stat_most_components : Z;
}.

Record DiscoveredRepositoryPaths := {
  discovered_paths : list RepositoryPath;
  discovered_stats : GitPathDiscoveryStats;
}.

(** The failures of the modelled functions and their callers; those of starting, polling and
    reading the subprocess stay outside. *)
Inductive GitPathDiscoveryError :=
| GitCancelled
| GitDeadlineExceeded
| OutputByteLimitExceeded (limit : Z)
| OutputByteCountNotRepresentable
| GitOutputRead
| GitUnsuccessful (code : option Z)
| OutputNotNulTerminated
| PathCountOverflowed
| PathLimitExceeded (limit : Z)
| InvalidRepositoryPath (ordinal : Z) (source : RepositoryPathError)
| DuplicateRepositoryPath
| RepositoryPathInspection
| InconsistentRepositoryPathSet
| TotalPathBytesOverflowed.

#[export] Instance git_error_eq_dec : EqDecision GitPathDiscoveryError.
Proof. solve_decision. Defined.

(** ** Byte slices *)

(** [slice.split(|byte| *byte == delimiter)]. *)
Fixpoint split_byte (delimiter : byte) (bs : bytes) : list bytes :=
  match bs with
  | [] => [[]]
  | b :: bs =>
      if bool_decide (b = delimiter) then [] :: split_byte delimiter bs
      else match split_byte delimiter bs with
           | c :: cs => (b :: c) :: cs
           | [] => [[b]]
           end
  end.

(** [slice.strip_suffix(&[delimiter])]. *)
Fixpoint strip_last (delimiter : byte) (bs : bytes) : option bytes :=
  match bs with
  | [] => None
  | [b] => if bool_decide (b = delimiter) then Some [] else None
  | b :: bs => cons b <$> strip_last delimiter bs
  end.

Definition nul : byte := x00.

(** ** Reading *)

(** [read_bounded], over the buffers the reader fills: [None] is a failed read, and the end of
    the list the read of nothing. *)
Fixpoint read_bounded (limit : Z) (output : bytes) (total : Z) (reads : list (option bytes)) : result GitPathDiscoveryError bytes :=
  match reads with
  | [] => Ok output
  | None :: _ => Err GitOutputRead
  | Some buffer :: reads =>
      if len buffer =? 0 then Ok output
      else
        total ← ok_or (u64_checked_add total (len buffer)) GitOutputRead;
        if limit <? total then Err (OutputByteLimitExceeded limit)
        else read_bounded limit (output ++ buffer) total reads
  end.

(** ** Parsing *)

Definition stats_new (output_bytes : Z) : GitPathDiscoveryStats :=
  {| stat_output_bytes := output_bytes; stat_path_count := 0; stat_total_path_bytes := 0; stat_longest_path_bytes := 0;
     stat_most_components := 0 |}.

Definition count_path (stats : GitPathDiscoveryStats) : result GitPathDiscoveryError GitPathDiscoveryStats :=
  path_count ← ok_or (u64_checked_add (stat_path_count stats) 1) PathCountOverflowed;
  Ok {| stat_output_bytes := stat_output_bytes stats; stat_path_count := path_count;
        stat_total_path_bytes := stat_total_path_bytes stats; stat_longest_path_bytes := stat_longest_path_bytes stats;
        stat_most_components := stat_most_components stats |}.

Definition measure_path (stats : GitPathDiscoveryStats) (path : RepositoryPath) : result GitPathDiscoveryError GitPathDiscoveryStats :=
  total ← ok_or (u64_checked_add (stat_total_path_bytes stats) (byte_count path)) TotalPathBytesOverflowed;
  Ok {| stat_output_bytes := stat_output_bytes stats; stat_path_count := stat_path_count stats; stat_total_path_bytes := total;
        stat_longest_path_bytes := Z.max (stat_longest_path_bytes stats) (byte_count path);
        stat_most_components := Z.max (stat_most_components stats) (component_count path) |}.

(** One turn of the loop over the records. *)
Definition parse_path_record (limits : GitPathDiscoveryLimits) (s : GitPathDiscoveryStats * list RepositoryPath) (raw_path : bytes)
    : ctl GitPathDiscoveryError (GitPathDiscoveryStats * list RepositoryPath) :=
  check;;
  stats ← lift (count_path s.1);
  if limit_paths limits <? stat_path_count stats then throw (PathLimitExceeded (limit_paths limits))
  else
    path ← lift (map_err (InvalidRepositoryPath (stat_path_count stats)) (try_from_bytes raw_path (limit_repository_path limits)));
    stats ← lift (measure_path stats path);
    mret (stats, s.2 ++ [path]).

Definition parse_git_paths_with_control (output : bytes) (limits : GitPathDiscoveryLimits)
    : ctl GitPathDiscoveryError DiscoveredRepositoryPaths :=
  check;;
  output_bytes ← lift (ok_or (u64_of_len (length output)) OutputByteCountNotRepresentable);
  if limit_output_bytes limits <? output_bytes then throw (OutputByteLimitExceeded (limit_output_bytes limits))
  else if bool_decide (output = []) then mret {| discovered_paths := []; discovered_stats := stats_new 0 |}
  else
    path_bytes ← lift (ok_or (strip_last nul output) OutputNotNulTerminated);
    parsed ← ctl_fold (parse_path_record limits) (stats_new output_bytes, []) (split_byte nul path_bytes);
    check;;
    let paths := sort_by path_cmp parsed.2 in
    check;;
    if any_adjacent path_eqb paths then throw DuplicateRepositoryPath
    else mret {| discovered_paths := paths; discovered_stats := parsed.1 |}.

(** ** Sets of paths, ordered by their bytes *)

#[export] Instance repository_path_ord : RustOrd RepositoryPath := path_cmp.

Definition path_mem (path : RepositoryPath) (paths : list RepositoryPath) : bool := bset_mem path paths.

(** [BTreeSet::remove]: whether the path was present, and the set without it. *)
Definition path_remove (path : RepositoryPath) (paths : list RepositoryPath) : bool * list RepositoryPath :=
  (bset_mem path paths, filter (λ p, path_eqb p path = false) paths).

Definition remove_deleted (cached_paths : list RepositoryPath) (deleted_path : RepositoryPath)
    : ctl GitPathDiscoveryError (list RepositoryPath) :=
  check;;
  let '(removed, cached_paths) := path_remove deleted_path cached_paths in
  if negb removed then throw InconsistentRepositoryPathSet else mret cached_paths.

Definition remove_deleted_cached_paths (cached_paths deleted_paths : list RepositoryPath)
    : ctl GitPathDiscoveryError (list RepositoryPath) :=
  ctl_fold remove_deleted cached_paths deleted_paths.

(** [u8::to_ascii_lowercase]. *)
Definition to_ascii_lowercase (b : byte) : byte :=
  if (65 <=? byte_rank b) && (byte_rank b <=? 90) then byte_of (byte_rank b + 32) else b.

Definition ascii_folded_repository_path (path : RepositoryPath) : bytes := to_ascii_lowercase <$> path_bytes path.

(** The alias counts are a B-tree map from a folded path. *)
Definition increment_ascii_alias_count (aliases : list (bytes * Z)) (path : RepositoryPath) : result GitPathDiscoveryError (list (bytes * Z)) :=
  let folded := ascii_folded_repository_path path in
  count ← ok_or (u64_checked_add (default 0 (bmap_get folded aliases)) 1) PathCountOverflowed;
  Ok (bmap_insert folded count aliases).

Definition count_ascii_alias (aliases : list (bytes * Z)) (path : RepositoryPath) : ctl GitPathDiscoveryError (list (bytes * Z)) :=
  check;; lift (increment_ascii_alias_count aliases path).

Definition count_ascii_aliases (paths : list RepositoryPath) : ctl GitPathDiscoveryError (list (bytes * Z)) :=
  ctl_fold count_ascii_alias [] paths.

(** ** Reconciliation *)

Definition stats_of_path (stats : GitPathDiscoveryStats) (path : RepositoryPath) : ctl GitPathDiscoveryError GitPathDiscoveryStats :=
  check;;
  stats ← lift (count_path stats);
  lift (measure_path stats path).

Definition discovered_repository_paths_from_set (paths : list RepositoryPath) (output_bytes : Z) (limits : GitPathDiscoveryLimits)
    : ctl GitPathDiscoveryError DiscoveredRepositoryPaths :=
  path_count ← lift (ok_or (u64_of_len (length paths)) PathCountOverflowed);
  if limit_paths limits <? path_count then throw (PathLimitExceeded (limit_paths limits))
  else
    stats ← ctl_fold stats_of_path (stats_new output_bytes) paths;
    mret {| discovered_paths := paths; discovered_stats := stats |}.

Section reconciliation.
(** The session that reads the spelling of paths on disk: opening it over some paths, and
    whether a path is spelled exactly as given. *)
Context (open_session : list RepositoryPath → result GitPathDiscoveryError ()).
Context (exact_components_available : RepositoryPath → result GitPathDiscoveryError bool).

Definition exact_untracked_alias (aliases : list (bytes * Z)) (path : RepositoryPath) : ctl GitPathDiscoveryError (list (bytes * Z)) :=
  check;;
  exact ← lift (exact_components_available path);
  if negb (exact : bool) then throw InconsistentRepositoryPathSet
  else lift (increment_ascii_alias_count aliases path).

Definition retain_cached (requires_inspection : RepositoryPath → bool) (exact_untracked_aliases : list (bytes * Z))
    (retained : list RepositoryPath) (path : RepositoryPath) : ctl GitPathDiscoveryError (list RepositoryPath) :=
  check;;
  if negb (requires_inspection path) then mret (bset_insert path retained)
  else
    exact ← lift (exact_components_available path);
    if (exact : bool) then mret (bset_insert path retained)
    else if bool_decide (bmap_get (ascii_folded_repository_path path) exact_untracked_aliases = Some 1) then mret retained
    else throw InconsistentRepositoryPathSet.

Definition ambiguous_aliases (cached_ascii_aliases untracked_ascii_aliases : list (bytes * Z)) : list bytes :=
  (filter (λ alias : bytes * Z, (1 <? alias.2) || bool_decide (is_Some (bmap_get alias.1 untracked_ascii_aliases)) = true)
     cached_ascii_aliases).*1.

Definition reconcile_cached_path_spellings (cached_paths untracked_paths : list RepositoryPath)
    (cached_ascii_aliases untracked_ascii_aliases : list (bytes * Z)) : ctl GitPathDiscoveryError (list RepositoryPath) :=
  let ambiguous := ambiguous_aliases cached_ascii_aliases untracked_ascii_aliases in
  if bool_decide (ambiguous = []) then mret cached_paths
  else
    let requires_inspection path := bset_mem (ascii_folded_repository_path path) ambiguous in
    lift (open_session (filter (λ p, requires_inspection p = true) cached_paths
                        ++ filter (λ p, requires_inspection p = true) untracked_paths));;
    exact_untracked_aliases ← ctl_fold exact_untracked_alias [] (filter (λ p, requires_inspection p = true) untracked_paths);
    ctl_fold (retain_cached requires_inspection exact_untracked_aliases) [] cached_paths.

Definition reconcile_repository_paths (cached untracked deleted : DiscoveredRepositoryPaths) (limits : GitPathDiscoveryLimits)
    : ctl GitPathDiscoveryError DiscoveredRepositoryPaths :=
  partial ← lift (ok_or (u64_checked_add (stat_output_bytes (discovered_stats cached)) (stat_output_bytes (discovered_stats untracked)))
                    OutputByteCountNotRepresentable);
  output_bytes ← lift (ok_or (u64_checked_add partial (stat_output_bytes (discovered_stats deleted))) OutputByteCountNotRepresentable);
  if limit_output_bytes limits <? output_bytes then throw (OutputByteLimitExceeded (limit_output_bytes limits))
  else
    let cached_paths := bset_of_list (discovered_paths cached) in
    let untracked_paths := bset_of_list (discovered_paths untracked) in
    cached_paths ← remove_deleted_cached_paths cached_paths (discovered_paths deleted);
    if existsb (λ path, path_mem path untracked_paths) cached_paths then throw InconsistentRepositoryPathSet
    else
      cached_ascii_aliases ← count_ascii_aliases cached_paths;
      untracked_ascii_aliases ← count_ascii_aliases untracked_paths;
      retained ← reconcile_cached_path_spellings cached_paths untracked_paths cached_ascii_aliases untracked_ascii_aliases;
      let retained := foldl (λ retained path, bset_insert path retained) retained untracked_paths in
      discovered_repository_paths_from_set retained output_bytes limits.
End reconciliation.

(** ** Discovery *)

Inductive GitPathDiscoveryScope := Cached | Untracked | Deleted.

Section discovery.
(** Finding the root of the worktree, and the bounded output of one Git command. *)
Context (discovered_worktree_root : result GitPathDiscoveryError ()).
Context (capture_git_output : GitPathDiscoveryScope → Z → result GitPathDiscoveryError bytes).
Context (open_session : list RepositoryPath → result GitPathDiscoveryError ()).
Context (exact_components_available : RepositoryPath → result GitPathDiscoveryError bool).

(** The output, and the bytes captured so far. *)
Definition capture_git_scope_output (scope : GitPathDiscoveryScope) (limits : GitPathDiscoveryLimits) (captured_output_bytes : Z)
    : ctl GitPathDiscoveryError (bytes * Z) :=
  remaining ← lift (ok_or (checked u64_max (limit_output_bytes limits - captured_output_bytes))
                      (OutputByteLimitExceeded (limit_output_bytes limits)));
  check;;
  output ← lift (capture_git_output scope remaining);
  output_bytes ← lift (ok_or (u64_of_len (length output)) OutputByteCountNotRepresentable);
  captured ← lift (ok_or (u64_checked_add captured_output_bytes output_bytes) OutputByteCountNotRepresentable);
  mret (output, captured).

Definition discover_repository_paths (limits : GitPathDiscoveryLimits) : ctl GitPathDiscoveryError DiscoveredRepositoryPaths :=
  check;;
  lift discovered_worktree_root;;
  '(cached, captured) ← capture_git_scope_output Cached limits 0;
  '(untracked, captured) ← capture_git_scope_output Untracked limits captured;
  '(deleted, captured) ← capture_git_scope_output Deleted limits captured;
  cached_paths ← parse_git_paths_with_control cached limits;
  untracked_paths ← parse_git_paths_with_control untracked limits;
  deleted_paths ← parse_git_paths_with_control deleted limits;
  reconcile_repository_paths open_session exact_components_available cached_paths untracked_paths deleted_paths limits.

Definition discover_cached_repository_paths (limits : GitPathDiscoveryLimits) : ctl GitPathDiscoveryError DiscoveredRepositoryPaths :=
  check;;
  lift discovered_worktree_root;;
  '(cached, captured) ← capture_git_scope_output Cached limits 0;
  '(deleted, captured) ← capture_git_scope_output Deleted limits captured;
  cached ← parse_git_paths_with_control cached limits;
  deleted ← parse_git_paths_with_control deleted limits;
  retained ← remove_deleted_cached_paths (bset_of_list (discovered_paths cached)) (discovered_paths deleted);
  discovered_repository_paths_from_set retained captured limits.
End discovery.

(** ** Delimited records *)

Definition terminated (delimiter : byte) (records : list bytes) : bytes := flat_map (λ r, r ++ [delimiter]) records.

Lemma strip_last_Some d bs body : strip_last d bs = Some body ↔ bs = body ++ [d].
Proof.
  revert body. induction bs as [|b bs IH]; intros body; [split; [done|by destruct body]|].
  destruct bs as [|b' bs]; cbn [strip_last].
  - case_bool_decide as Hb; [subst|]; (split; [by intros [= <-]||done|]); intros [= ]; destruct body as [|? [|]]; simplify_eq/=; done.
  - change (cons b <$> strip_last d (b' :: bs) = Some body ↔ b :: b' :: bs = body ++ [d]).
    destruct (strip_last d (b' :: bs)) as [body'|] eqn:E.
    + pose proof (proj1 (IH body') eq_refl) as Hb'. rewrite Hb'. simpl. split; [by intros [= <-]|]. destruct body as [|x body]; simpl; [intros [= _ H]; by destruct body'|].
      intros [= <- H]. by apply app_inj_tail in H as [-> _].
    + split; [done|]. destruct body as [|x body]; [done|]. intros [= <- H]. by apply IH in H.
Qed.

Lemma split_byte_nonempty d bs : split_byte d bs ≠ [].
Proof. destruct bs as [|b bs]; simpl; [done|]. case_bool_decide; [done|]. by destruct (split_byte d bs). Qed.

Lemma terminated_split d bs : terminated d (split_byte d bs) = bs ++ [d].
Proof.
  induction bs as [|b bs IH]; [done|]. simpl. case_bool_decide as Hb.
  - subst. unfold terminated in *. simpl. by rewrite IH.
  - unfold terminated in *. destruct (split_byte d bs) as [|c cs] eqn:E; [by apply split_byte_nonempty in E|]. simpl in *. by rewrite IH.
Qed.

Lemma split_byte_app d c bs : d ∉ c → split_byte d (c ++ d :: bs) = c :: split_byte d bs.
Proof.
  induction c as [|x c IH]; intros Hd; simpl; [by rewrite bool_decide_eq_true_2|]. apply not_elem_of_cons in Hd as [Hx Hd].
  rewrite bool_decide_eq_false_2 by done. by rewrite IH.
Qed.

Lemma split_byte_single d c : d ∉ c → split_byte d c = [c].
Proof.
  induction c as [|x c IH]; intros Hd; simpl; [done|]. apply not_elem_of_cons in Hd as [Hx Hd].
  rewrite bool_decide_eq_false_2 by done. by rewrite IH.
Qed.

Lemma split_byte_no_delimiter d bs c : c ∈ split_byte d bs → d ∉ c.
Proof.
  revert c. induction bs as [|b bs IH]; intros c; simpl; [intros ->%list_elem_of_singleton; apply not_elem_of_nil|].
  case_bool_decide as Hb; [intros [->|Hc]%elem_of_cons; [apply not_elem_of_nil|by apply IH]|].
  destruct (split_byte d bs) as [|c' cs] eqn:E; [by apply split_byte_nonempty in E|].
  intros [->|Hc]%elem_of_cons; [|apply IH; by right]. apply not_elem_of_cons. split; [done|]. apply IH. by left.
Qed.

(** Terminated records are split back. *)
Lemma split_terminated d records :
  records ≠ [] → Forall (λ r, d ∉ r) records → ∃ body, strip_last d (terminated d records) = Some body ∧ split_byte d body = records.
Proof.
  intros Hne Hf. induction Hf as [|r records Hr Hf IH]; [done|]. destruct records as [|r' records].
  - exists r. unfold terminated. simpl. rewrite app_nil_r. split; [by apply strip_last_Some|by apply split_byte_single].
  - destruct IH as (body & Hb & Hs); [done|]. exists (r ++ d :: body). apply strip_last_Some in Hb. split.
    + apply strip_last_Some. change (terminated d (r :: r' :: records)) with ((r ++ [d]) ++ terminated d (r' :: records)).
      rewrite Hb, <- !app_assoc. done.
    + by rewrite split_byte_app, Hs.
Qed.

Lemma length_terminated d records : Z.of_nat (length (terminated d records)) = foldr (λ r n, len r + 1 + n) 0 records.
Proof. unfold terminated, len. induction records as [|r rs IH]; [done|]. simpl. rewrite !length_app, !Nat2Z.inj_add, IH. simpl. lia. Qed.

(** ** Statistics *)

Definition sum_of (f : RepositoryPath → Z) (ps : list RepositoryPath) : Z := foldr (λ p n, f p + n) 0 ps.
Definition max_of (f : RepositoryPath → Z) (ps : list RepositoryPath) : Z := foldr (λ p n, Z.max (f p) n) 0 ps.

Definition stats_of (output_bytes : Z) (ps : list RepositoryPath) : GitPathDiscoveryStats :=
  {| stat_output_bytes := output_bytes; stat_path_count := Z.of_nat (length ps); stat_total_path_bytes := sum_of byte_count ps;
     stat_longest_path_bytes := max_of byte_count ps; stat_most_components := max_of component_count ps |}.

Lemma sum_of_snoc f ps p : sum_of f (ps ++ [p]) = sum_of f ps + f p.
Proof. unfold sum_of. induction ps as [|q ps IH]; simpl in *; lia. Qed.
Lemma max_of_snoc f ps p : 0 ≤ f p → max_of f (ps ++ [p]) = Z.max (max_of f ps) (f p).
Proof. intros Hp. unfold max_of. induction ps as [|q ps IH]; simpl in *; lia. Qed.

Lemma sum_of_perm f ps qs : ps ≡ₚ qs → sum_of f ps = sum_of f qs.
Proof. induction 1; simpl in *; lia. Qed.

Lemma wf_inj p q : wf p → wf q → path_bytes p = path_bytes q → p = q.
Proof.
  intros [_ Hb Hc _] [_ Hb' Hc' _] He. destruct p as [pb n m], q as [qb n' m']. unfold components in *. simpl in *. congruence.
Qed.

Lemma wf_byte_len p : wf p → byte_count p = len (path_bytes p) ∧ 0 ≤ component_count p.
Proof. intros [_ Hb Hc _]. split; [done|]. rewrite Hc. lia. Qed.

Lemma sum_of_nonneg ps : Forall wf ps → 0 ≤ sum_of byte_count ps.
Proof.
  unfold sum_of. induction 1 as [|p ps Hp _ IH]; simpl; [done|]. destruct (wf_byte_len p Hp) as [-> _].
  pose proof (len_nonneg (path_bytes p)). lia.
Qed.

(** Adding a path to the statistics. *)
Lemma count_measure n ps p :
  wf p → Z.of_nat (length ps) < u64_max → 0 ≤ sum_of byte_count ps → sum_of byte_count ps + byte_count p ≤ u64_max →
  (stats ← count_path (stats_of n ps); measure_path stats p) = Ok (stats_of n (ps ++ [p])).
Proof.
  intros Hp Hl H0 Hs. destruct (wf_byte_len p Hp) as [Hb Hc]. assert (0 ≤ byte_count p) by (rewrite Hb; unfold len; lia).
  unfold count_path, stats_of, u64_checked_add. cbn [stat_path_count stat_output_bytes stat_total_path_bytes stat_longest_path_bytes stat_most_components].
  rewrite checked_in by lia. rstep. unfold measure_path, u64_checked_add.
  cbn [stat_path_count stat_output_bytes stat_total_path_bytes stat_longest_path_bytes stat_most_components].
  rewrite checked_in by lia. rstep. rewrite sum_of_snoc, !max_of_snoc, length_app by done.
  f_equal. f_equal. simpl. lia.
Qed.

(** ** What the parser accepts *)

Definition git_limits_wf (limits : GitPathDiscoveryLimits) : Prop :=
  in_u64 (limit_output_bytes limits) ∧ in_u64 (limit_paths limits).

(** A path that the limits admit. *)
Definition admitted (limits : GitPathDiscoveryLimits) (p : RepositoryPath) : Prop :=
  wf p ∧ within (limit_repository_path limits) (path_bytes p).

Lemma admitted_rebuilt limits p : admitted limits p → try_from_bytes (path_bytes p) (limit_repository_path limits) = Ok p.
Proof. intros [Hp Hw]. by apply try_from_bytes_rebuild. Qed.

Lemma admitted_wf limits ps : Forall (admitted limits) ps → Forall wf ps.
Proof. intros H. eapply Forall_impl; [exact H|]. by intros p []. Qed.

(** Statistics of the paths, and the paths in the order read. *)
Definition parsed_of (n : Z) (ps : list RepositoryPath) : GitPathDiscoveryStats * list RepositoryPath := (stats_of n ps, ps).

Definition pure_record (limits : GitPathDiscoveryLimits) (s : GitPathDiscoveryStats * list RepositoryPath) (raw_path : bytes)
    : result GitPathDiscoveryError (GitPathDiscoveryStats * list RepositoryPath) :=
  run never (parse_path_record limits s raw_path).

Lemma steady_path_record limits s raw : steady (parse_path_record limits s raw).
Proof. unfold parse_path_record. solve_steady. Qed.

Lemma parse_git_paths_steady output limits : steady (parse_git_paths_with_control output limits).
Proof. unfold parse_git_paths_with_control. solve_steady; auto using steady_path_record. Qed.
#[export] Hint Resolve steady_path_record parse_git_paths_steady : steady.

Lemma try_fold_step {E A S} (body : S → A → result E S) s x xs r :
  body s x = Ok r → try_fold body s (x :: xs) = try_fold body r xs.
Proof. intros H. simpl. by rewrite H. Qed.

Lemma path_record_inv limits n ps raw s :
  Forall wf ps → pure_record limits (parsed_of n ps) raw = Ok s →
  ∃ p, path_bytes p = raw ∧ admitted limits p ∧ s = parsed_of n (ps ++ [p]) ∧ Z.of_nat (length ps) < limit_paths limits.
Proof.
  intros Hps. unfold pure_record, parse_path_record. rewrite run_never_check by solve_steady. rewrite run_never_lift_bind by (intros; solve_steady).
  cbn [parsed_of fst snd]. unfold count_path, u64_checked_add. cbn [stats_of stat_path_count stat_output_bytes stat_total_path_bytes stat_longest_path_bytes stat_most_components].
  destruct (checked _ _) as [c|] eqn:Ec; [|done]. apply checked_Some in Ec as [-> Hc]. rstep. cbn [stat_path_count].
  destruct (Z.ltb_spec (limit_paths limits) (Z.of_nat (length ps) + 1)) as [|Hl]; [done|].
  rewrite run_never_lift_bind by (intros; solve_steady).
  destruct (try_from_bytes raw _) as [p|] eqn:Ep; [|done]. rstep. rewrite run_never_lift_bind by (intros; solve_steady).
  apply try_from_bytes_wf in Ep as (Hp & Hb & Hw). unfold measure_path, u64_checked_add.
  cbn [stat_path_count stat_output_bytes stat_total_path_bytes stat_longest_path_bytes stat_most_components].
  destruct (checked _ (sum_of _ _ + _)) as [t|] eqn:Et; [|done]. apply checked_Some in Et as [-> Ht]. rstep. rewrite run_never_ret. intros [= <-].
  exists p. split_and!; [done|split; [done|by subst]| |lia]. unfold parsed_of, stats_of.
  destruct (wf_byte_len p Hp) as [Hbc Hcc]. assert (0 ≤ byte_count p) by (rewrite Hbc; apply len_nonneg).
  rewrite sum_of_snoc, !max_of_snoc, length_app by done. do 2 f_equal. simpl. lia.
Qed.

Lemma path_record_step limits n ps p :
  Forall wf ps → admitted limits p → Z.of_nat (length ps) < limit_paths limits ≤ u64_max → sum_of byte_count ps + byte_count p ≤ u64_max →
  pure_record limits (parsed_of n ps) (path_bytes p) = Ok (parsed_of n (ps ++ [p])).
Proof.
  intros Hps Ha Hl Hs. pose proof (admitted_rebuilt limits p Ha) as Hr. destruct Ha as [Hp Hw].
  assert (Z.of_nat (length ps) < u64_max) as Hl' by lia.
  pose proof (count_measure n ps p Hp Hl' (sum_of_nonneg ps Hps) Hs) as Hcm. unfold pure_record, parse_path_record.
  rewrite run_never_check by solve_steady. rewrite run_never_lift_bind by (intros; solve_steady). cbn [parsed_of fst snd].
  destruct (count_path (stats_of n ps)) as [stats|] eqn:Ec; [|done]. rstep.
  assert (stat_path_count stats = Z.of_nat (length ps) + 1) as Hn.
  { revert Ec. unfold count_path, u64_checked_add. cbn [stats_of stat_path_count]. rewrite checked_in by lia. rstep. by intros [= <-]. }
  rewrite Hn. rewrite (proj2 (Z.ltb_ge _ _)) by lia. rewrite run_never_lift_bind by (intros; solve_steady). rewrite Hr. rstep.
  rewrite run_never_lift_bind by (intros; solve_steady). cbn [mbind result_bind] in Hcm. by rewrite Hcm.
Qed.

Lemma fold_records_inv limits n raws ps s :
  Forall wf ps → try_fold (pure_record limits) (parsed_of n ps) raws = Ok s →
  ∃ qs, raws = path_bytes <$> qs ∧ Forall (admitted limits) qs ∧ s = parsed_of n (ps ++ qs)
        ∧ (raws ≠ [] → Z.of_nat (length (ps ++ qs)) ≤ limit_paths limits).
Proof.
  revert ps. induction raws as [|raw raws IH]; intros ps Hps.
  - intros [= <-]. exists []. by rewrite app_nil_r.
  - simpl. destruct (pure_record _ _ _) as [s'|] eqn:E; [|done]. rstep.
    apply path_record_inv in E as (p & Hb & Ha & -> & Hl); [|done]. intros Hf.
    apply IH in Hf as (qs & -> & Hqs & -> & Hn).
    + exists (p :: qs). rewrite <- app_assoc. split_and!; [by csimpl; subst|by constructor|done|intros _].
      destruct qs as [|q qs]; [rewrite length_app; simpl; lia|]. rewrite <- app_assoc in Hn. by apply Hn.
    + apply Forall_app_2; [done|]. constructor; [by destruct Ha|constructor].
Qed.

Lemma sum_of_app f ps qs : sum_of f (ps ++ qs) = sum_of f ps + sum_of f qs.
Proof. unfold sum_of. induction ps as [|p ps IH]; simpl in *; lia. Qed.

Lemma fold_records_ok limits n qs ps :
  Forall wf ps → Forall (admitted limits) qs → Z.of_nat (length (ps ++ qs)) ≤ limit_paths limits ≤ u64_max →
  sum_of byte_count (ps ++ qs) ≤ u64_max →
  try_fold (pure_record limits) (parsed_of n ps) (path_bytes <$> qs) = Ok (parsed_of n (ps ++ qs)).
Proof.
  intros Hps Hqs. revert ps Hps. induction Hqs as [|q qs Hq Hqs IH]; intros ps Hps Hl Hs; [by rewrite app_nil_r|].
  rewrite fmap_cons. rewrite sum_of_app in Hs. pose proof (sum_of_nonneg qs (admitted_wf limits qs Hqs)) as H0.
  change (sum_of byte_count (q :: qs)) with (byte_count q + sum_of byte_count qs) in Hs. rewrite length_app in Hl. simpl in Hl.
  erewrite try_fold_step; [|apply path_record_step; [done|done|lia|lia]].
  rewrite IH; rewrite <- ?app_assoc; [done| |rewrite length_app; simpl; lia|].
  - apply Forall_app_2; [done|]. constructor; [by destruct Hq|constructor].
  - rewrite sum_of_app. simpl. unfold sum_of in *. simpl. lia.
Qed.

Lemma split_slash_elem b bs : b ∈ bs → b ≠ slash → ∃ c, c ∈ split_slash bs ∧ b ∈ c.
Proof.
  induction bs as [|x bs IH]; [by intros ?%elem_of_nil|]. intros Hb Hne. simpl. pose proof (split_slash_nonempty bs) as Hsne.
  case_bool_decide as Hx.
  - apply elem_of_cons in Hb as [->|Hb]; [done|]. destruct (IH Hb Hne) as (c & Hc & Hbc). exists c. split; [by right|done].
  - destruct (split_slash bs) as [|c0 cs] eqn:E; [done|]. apply elem_of_cons in Hb as [->|Hb]; [exists (x :: c0); split; by left|].
    destruct (IH Hb Hne) as (c & Hc & Hbc). apply elem_of_cons in Hc as [->|Hc]; [exists (x :: c0); split; [by left|by right]|].
    exists c. split; [by right|done].
Qed.

Lemma wf_no_nul p : wf p → nul ∉ path_bytes p.
Proof.
  intros [Hc _ _ _] Hin. destruct (split_slash_elem nul (path_bytes p) Hin) as (c & Hs & Hn); [done|].
  rewrite Forall_forall in Hc. destruct (Hc c Hs) as (_ & H & _). by apply H.
Qed.

Lemma sum_of_terminated ps : Forall wf ps → sum_of byte_count ps ≤ len (terminated nul (path_bytes <$> ps)).
Proof.
  intros Hps. unfold len. rewrite length_terminated. unfold sum_of.
  induction Hps as [|p ps Hp _ IH]; [done|]. csimpl. destruct (wf_byte_len p Hp) as [-> _]. lia.
Qed.

Lemma path_cmp_sort (ps : list RepositoryPath) :
  any_adjacent path_eqb (sort_by path_cmp ps) = false ↔ NoDup (path_bytes <$> ps).
Proof.
  apply (any_adjacent_sort path_bytes path_eqb). intros x y. unfold path_eqb. by rewrite bool_decide_eq_true.
Qed.

Lemma evals_records limits s raws :
  evals (ctl_fold (parse_path_record limits) s raws) (try_fold (pure_record limits) s raws).
Proof. apply evals_fold. intros. apply steady_evals_run; auto with steady. Qed.

(** The parser after its checks, once the output has records. *)
Lemma parse_git_paths_run output limits body :
  in_u64 (limit_output_bytes limits) → len output ≤ limit_output_bytes limits → strip_last nul output = Some body →
  run never (parse_git_paths_with_control output limits)
  = (parsed ← try_fold (pure_record limits) (stats_new (len output), []) (split_byte nul body);
     if any_adjacent path_eqb (sort_by path_cmp parsed.2) then Err DuplicateRepositoryPath
     else Ok {| discovered_paths := sort_by path_cmp parsed.2; discovered_stats := parsed.1 |}).
Proof.
  intros Hlim Hlen Hb. unfold parse_git_paths_with_control. rewrite run_never_check by (solve_steady; auto with steady).
  rewrite run_never_lift_bind by (intros; solve_steady; auto with steady). unfold u64_of_len.
  rewrite checked_in by (split; [lia|]; unfold len in *; destruct Hlim; lia). rstep.
  rewrite (proj2 (Z.ltb_ge _ _)) by (by unfold len in *). rewrite bool_decide_eq_false_2 by (by intros ->).
  rewrite run_never_lift_bind by (intros; solve_steady; auto with steady). rewrite Hb. rstep.
  rewrite run_never_bind by (intros; solve_steady). rewrite (evals_run _ _ (evals_records _ _ _)).
  destruct (try_fold _ _ _) as [parsed|]; [|done]. rstep. rewrite !run_never_check by solve_steady. cbv zeta.
  destruct (any_adjacent _ _); [apply run_never_throw|apply run_never_ret].
Qed.

(** Its other ends. *)
Lemma parse_too_long output limits :
  ¬ len output ≤ limit_output_bytes limits → is_ok (run never (parse_git_paths_with_control output limits)) = false.
Proof.
  intros Hl. unfold parse_git_paths_with_control. rewrite run_never_check by (solve_steady; auto with steady).
  rewrite run_never_lift_bind by (intros; solve_steady; auto with steady). unfold u64_of_len. destruct (checked _ _) as [n|] eqn:E; [|done].
  apply checked_Some in E as [-> _]. rstep. rewrite (proj2 (Z.ltb_lt _ _)) by (unfold len in *; lia). by rewrite run_never_throw.
Qed.

Lemma parse_empty limits :
  in_u64 (limit_output_bytes limits) →
  run never (parse_git_paths_with_control [] limits) = Ok {| discovered_paths := []; discovered_stats := stats_new 0 |}.
Proof.
  intros [H0 _]. unfold parse_git_paths_with_control. rewrite run_never_check by (solve_steady; auto with steady).
  rewrite run_never_lift_bind by (intros; solve_steady; auto with steady). unfold u64_of_len. rewrite checked_in by done. rstep.
  rewrite (proj2 (Z.ltb_ge _ _)) by done. by rewrite bool_decide_eq_true_2.
Qed.

Lemma parse_unterminated output limits :
  output ≠ [] → strip_last nul output = None → is_ok (run never (parse_git_paths_with_control output limits)) = false.
Proof.
  intros Hne Hb. unfold parse_git_paths_with_control. rewrite run_never_check by (solve_steady; auto with steady).
  rewrite run_never_lift_bind by (intros; solve_steady; auto with steady). destruct (u64_of_len _) as [n|]; [|done]. rstep.
  destruct (_ <? _); [by rewrite run_never_throw|]. rewrite bool_decide_eq_false_2 by done. rewrite Hb. rewrite run_never_lift_bind by (intros; solve_steady; auto with steady). done.
Qed.

(** What the parser returns. *)
Lemma git_paths_parsed output limits d :
  git_limits_wf limits →
  run never (parse_git_paths_with_control output limits) = Ok d ↔
  ∃ ps, output = terminated nul (path_bytes <$> ps) ∧ len output ≤ limit_output_bytes limits
        ∧ Z.of_nat (length ps) ≤ limit_paths limits ∧ Forall (admitted limits) ps ∧ NoDup (path_bytes <$> ps)
        ∧ d = {| discovered_paths := sort_by path_cmp ps; discovered_stats := stats_of (len output) ps |}.
Proof.
  intros [Ho Hp]. split.
  - destruct (decide (len output ≤ limit_output_bytes limits)) as [Hl|Hl]; [|intros H; by pose proof (parse_too_long output limits Hl) as Hx; rewrite H in Hx].
    destruct (decide (output = [])) as [->|Hne]; [rewrite parse_empty by done; intros [= <-]; exists []; split_and!; try done; [by destruct Hp|by constructor..]|].
    destruct (strip_last nul output) as [body|] eqn:Eb; [|intros H; by pose proof (parse_unterminated output limits Hne Eb) as Hx; rewrite H in Hx].
    rewrite (parse_git_paths_run _ _ body) by done.
    destruct (try_fold _ _ _) as [s|] eqn:Ef; [|done]. rstep.
    apply (fold_records_inv limits (len output) (split_byte nul body) []) in Ef as (qs & Hq & Hqs & -> & Hn); [|constructor].
    cbn [parsed_of fst snd app] in *. destruct (any_adjacent _ _) eqn:Ea; [done|]. intros [= <-]. exists qs.
    apply strip_last_Some in Eb. rewrite <- Hq, terminated_split. split_and!; [done|done| |done|rewrite Hq; by apply path_cmp_sort|done].
    apply Hn, split_byte_nonempty.
  - intros (ps & Hout & Hl & Hn & Hps & Hnd & ->). destruct ps as [|p ps]; [simpl in Hout; subst; by apply parse_empty|].
    destruct (split_terminated nul (path_bytes <$> p :: ps)) as (body & Hb & Hs); [done| |].
    { apply Forall_fmap. eapply Forall_impl; [exact Hps|]. intros q [Hq _]. by apply wf_no_nul. }
    rewrite <- Hout in Hb. rewrite (parse_git_paths_run _ _ body), Hs by done.
    pose proof (sum_of_terminated _ (admitted_wf _ _ Hps)) as Hsum. rewrite <- Hout in Hsum.
    change (stats_new (len output), []) with (parsed_of (len output) []). rewrite fold_records_ok; [|constructor|done|by destruct Hp|destruct Ho; simpl app; lia].
    rstep. cbn [parsed_of fst snd app]. by rewrite (proj2 (path_cmp_sort _)).
Qed.

(** The parser of Git's path listing accepts exactly the listings within its limits whose
    every record is ended by a NUL and spells an admissible path, no path twice; it returns
    those paths in byte order with their exact statistics, and nothing but the control can
    stop it from doing so. *)
Theorem git_paths_exact output limits d :
  git_limits_wf limits →
  (run never (parse_git_paths_with_control output limits) = Ok d ↔
   ∃ ps, output = terminated nul (path_bytes <$> ps) ∧ len output ≤ limit_output_bytes limits
         ∧ Z.of_nat (length ps) ≤ limit_paths limits ∧ Forall (admitted limits) ps ∧ NoDup (path_bytes <$> ps)
         ∧ d = {| discovered_paths := sort_by path_cmp ps; discovered_stats := stats_of (len output) ps |})
  ∧ ∀ o, run o (parse_git_paths_with_control output limits) = run never (parse_git_paths_with_control output limits)
         ∨ ∃ k e, o k = Some e ∧ run o (parse_git_paths_with_control output limits) = Err e.
Proof.
  intros Hl. split; [by apply git_paths_parsed|intros o; apply steady_run; auto with steady].
Qed.

(** Two listed paths, read back in byte order. *)
Definition git_path (bs : bytes) : RepositoryPath :=
  {| path_bytes := bs; byte_count := len bs; component_count := Z.of_nat (length (split_slash bs)) |}.
Definition git_limits : GitPathDiscoveryLimits :=
  {| limit_output_bytes := 16; limit_paths := 2; limit_repository_path := {| max_bytes := 8; max_components := 4 |} |}.
Definition git_output : bytes := [x62; x2f; x63; x00; x61; x00].

Lemma git_path_admitted limits bs :
  try_from_bytes bs (limit_repository_path limits) = Ok (git_path bs) → admitted limits (git_path bs).
Proof. by intros (Hw & _ & Hl)%try_from_bytes_wf. Qed.

Lemma git_paths_exact_witness :
  run never (parse_git_paths_with_control git_output git_limits)
  = Ok {| discovered_paths := [git_path [x61]; git_path [x62; x2f; x63]];
          discovered_stats := stats_of 6 [git_path [x62; x2f; x63]; git_path [x61]] |}.
Proof.
  assert (git_limits_wf git_limits) as Hwf by (split; vm_compute; split; discriminate).
  apply (proj2 (proj1 (git_paths_exact git_output git_limits _ Hwf))). exists [git_path [x62; x2f; x63]; git_path [x61]].
  split_and!; [by vm_compute..| | |by vm_compute].
  - apply Forall_cons_2; [|apply Forall_cons_2; [|constructor]]; apply git_path_admitted; by vm_compute.
  - by apply (bool_decide_unpack _); vm_compute.
Defined.
