(* ===== verification/GitReconcile.v ===== *)
(** * The reconciliation of Git's path listings

    Proofs about [reconcile_repository_paths] of [GitPaths]: the paths that are kept, those
    that give way to another spelling, and when the listings are refused. *)

From Stdlib Require Import ZArith Lia ZifyBool.
From Stdlib Require Import Strings.Byte.
From stdpp Require Import base numbers sorting list.
From S2P Require Import Prelude Ordering RepositoryPath GitPaths.

Open Scope Z_scope.

(** ** Sets of well-formed paths *)

#[export] Instance git_path_eq_dec : EqDecision RepositoryPath.
Proof. solve_decision. Defined.

Definition path_set (ps : list RepositoryPath) : Prop := Forall wf ps ∧ keys_increasing path_bytes ps.

Lemma path_cmp_cases p q : path_cmp p q = Eq ↔ path_bytes p = path_bytes q.
Proof. unfold path_cmp. apply cmp_eq. Qed.

Lemma path_set_nil : path_set [].
Proof. split; constructor. Qed.

Lemma path_set_cons p ps : path_set (p :: ps) ↔ wf p ∧ path_set ps ∧ ∀ q, q ∈ ps → path_cmp p q = Lt.
Proof. unfold path_set. rewrite Forall_cons, keys_increasing_cons. unfold path_cmp. naive_solver. Qed.

Lemma path_set_mem p ps : path_set ps → wf p → bset_mem p ps = true ↔ p ∈ ps.
Proof.
  induction ps as [|q ps IH]; intros Hs Hp; simpl; [by rewrite elem_of_nil|]. apply path_set_cons in Hs as (Hq & Hps & Hlt).
  rewrite elem_of_cons. change (cmp p q) with (path_cmp p q). destruct (path_cmp p q) eqn:E.
  - apply path_cmp_cases in E. split; [left; by apply wf_inj|done].
  - split; [done|]. intros [->|Hin]; [unfold path_cmp in E; by rewrite cmp_refl in E|]. specialize (Hlt p Hin).
    unfold path_cmp in *. pose proof (cmp_trans _ _ _ E Hlt) as Hx. by rewrite cmp_refl in Hx.
  - rewrite IH by done. split; [by right|]. intros [->|Hin]; [unfold path_cmp in E; by rewrite cmp_refl in E|done].
Qed.

Lemma path_set_insert p ps : path_set ps → wf p → path_set (bset_insert p ps) ∧ ∀ q, q ∈ bset_insert p ps ↔ q = p ∨ q ∈ ps.
Proof.
  induction ps as [|r ps IH]; intros Hs Hp; simpl.
  { split; [|intros q; rewrite elem_of_cons; done]. apply path_set_cons. split_and!; [done..|by intros q ?%elem_of_nil]. }
  pose proof Hs as Hs'. apply path_set_cons in Hs' as (Hr & Hps & Hlt). change (cmp p r) with (path_cmp p r). destruct (path_cmp p r) eqn:E.
  - apply path_cmp_cases in E. apply wf_inj in E as ->; [|done..]. split; [done|]. intros q. rewrite elem_of_cons. naive_solver.
  - split; [|intros q; rewrite elem_of_cons; done]. apply path_set_cons. split_and!; [done..|].
    intros q [->|Hq]%elem_of_cons; [done|]. specialize (Hlt q Hq). unfold path_cmp in *. by eapply cmp_trans.
  - destruct (IH Hps Hp) as [IHs IHm]. split.
    + apply path_set_cons. split_and!; [done..|]. intros q [->|Hq]%IHm; [|by apply Hlt]. unfold path_cmp in *. by apply cmp_Gt_Lt.
    + intros q. rewrite !elem_of_cons, IHm. naive_solver.
Qed.

Lemma path_set_filter (P : RepositoryPath → Prop) `{∀ p, Decision (P p)} ps : path_set ps → path_set (filter P ps).
Proof.
  intros [Hf Hk]. split; [|by apply keys_increasing_filter].
  rewrite Forall_forall in *. intros p [_ Hp]%list_elem_of_filter. by apply Hf.
Qed.

Lemma path_set_wf ps p : path_set ps → p ∈ ps → wf p.
Proof. intros [Hf _]. rewrite Forall_forall in Hf. apply Hf. Qed.

Lemma path_set_fold ps qs :
  path_set ps → Forall wf qs →
  path_set (foldl (λ s p, bset_insert p s) ps qs) ∧ ∀ q, q ∈ foldl (λ s p, bset_insert p s) ps qs ↔ q ∈ ps ∨ q ∈ qs.
Proof.
  intros Hps Hqs. revert ps Hps. induction Hqs as [|p qs Hp Hqs IH]; intros ps Hps; simpl.
  { split; [done|]. intros q. rewrite elem_of_nil. naive_solver. }
  destruct (path_set_insert p ps Hps Hp) as [Hs Hm]. destruct (IH _ Hs) as [IHs IHm]. split; [done|].
  intros q. rewrite IHm, Hm, elem_of_cons. naive_solver.
Qed.

Lemma path_set_ext ps qs : path_set ps → path_set qs → (∀ p, p ∈ ps ↔ p ∈ qs) → ps = qs.
Proof. intros [_ Hk] [_ Hk']. by apply (keys_increasing_ext path_bytes). Qed.

Lemma path_set_of_list ps : path_set ps → bset_of_list ps = ps.
Proof.
  intros Hs. destruct (path_set_fold [] ps path_set_nil (proj1 Hs)) as [Hs' Hm]. apply path_set_ext; [done..|].
  intros p. unfold bset_of_list. rewrite Hm, elem_of_nil. naive_solver.
Qed.

(** ** Removing deleted paths *)

Lemma steady_remove_deleted s p : steady (remove_deleted s p).
Proof. unfold remove_deleted. solve_steady. Qed.
#[export] Hint Resolve steady_remove_deleted : steady.

Lemma remove_deleted_run ps p :
  path_set ps → wf p →
  run never (remove_deleted ps p) = if bool_decide (p ∈ ps) then Ok (filter (λ q, path_eqb q p = false) ps) else Err InconsistentRepositoryPathSet.
Proof.
  intros Hps Hp. unfold remove_deleted. rewrite run_never_check by solve_steady. unfold path_remove. cbv iota beta.
  pose proof (path_set_mem p ps Hps Hp) as Hm. case_bool_decide as Hin; destruct (bset_mem p ps) eqn:E; simpl negb; cbv iota.
  - apply run_never_ret.
  - by apply Hm in Hin.
  - by destruct Hin; apply Hm.
  - apply run_never_throw.
Qed.

Lemma path_eqb_wf p q : wf p → wf q → path_eqb p q = false ↔ p ≠ q.
Proof.
  intros Hp Hq. unfold path_eqb. rewrite bool_decide_eq_false. split; [congruence|]. intros Hne Hb. by apply Hne, wf_inj.
Qed.

(** The paths that are left. *)
Definition without (ps ds : list RepositoryPath) : list RepositoryPath := filter (λ p, path_bytes p ∉ path_bytes <$> ds) ps.

Lemma elem_of_without ps ds p : path_set ps → Forall wf ds → p ∈ without ps ds ↔ p ∈ ps ∧ p ∉ ds.
Proof.
  intros Hps Hds. unfold without. rewrite list_elem_of_filter. split; intros [H1 H2].
  - split; [done|]. intros Hin. apply H1, list_elem_of_fmap. eauto.
  - split; [|done]. intros (q & Hq & Hin)%list_elem_of_fmap. rewrite Forall_forall in Hds.
    apply wf_inj in Hq as <-; [done|by eapply path_set_wf|by apply Hds].
Qed.

Lemma remove_deleted_all ps ds rest :
  path_set ps → path_set ds →
  run never (remove_deleted_cached_paths ps ds) = Ok rest ↔ (∀ p, p ∈ ds → p ∈ ps) ∧ rest = without ps ds.
Proof.
  intros Hps Hds. unfold remove_deleted_cached_paths. revert ps Hps. induction ds as [|d ds IH]; intros ps Hps; cbn [ctl_fold].
  - rewrite run_never_ret. unfold without. rewrite filter_all_true by (intros p _; apply not_elem_of_nil).
    split; [intros [= <-]; split; [by intros p ?%elem_of_nil|done]|by intros [_ ->]].
  - apply path_set_cons in Hds as (Hd & Hds & Hlt). rewrite run_never_bind by (intros; solve_steady).
    rewrite remove_deleted_run by done. case_bool_decide as Hin; rstep.
    + rewrite IH by (done || by apply path_set_filter).
      assert (without (filter (λ q, path_eqb q d = false) ps) ds = without ps (d :: ds)) as ->.
      { unfold without. rewrite list_filter_filter. apply list_filter_iff. intros p. unfold path_eqb. rewrite bool_decide_eq_false.
        rewrite fmap_cons, not_elem_of_cons. naive_solver. }
      assert (∀ p, p ∈ ds → p ≠ d) as Hne.
      { intros p Hp ->. specialize (Hlt d Hp). unfold path_cmp in Hlt. by rewrite cmp_refl in Hlt. }
      split; intros [Hsub ->]; (split; [|done]); intros p.
      * intros [->|Hp]%elem_of_cons; [done|]. by apply Hsub, list_elem_of_filter in Hp as [_ ?].
      * intros Hp. assert (p ∈ ps) as Hps' by (apply Hsub; by right). apply list_elem_of_filter. split; [|done].
        apply path_eqb_wf; [by eapply path_set_wf|done|by apply Hne].
    + split; [done|]. intros [Hsub _]. destruct Hin. apply Hsub. by left.
Qed.

(** ** Counting aliases *)

Definition alias_count (k : bytes) (ps : list RepositoryPath) : Z :=
  Z.of_nat (length (filter (λ p, ascii_folded_repository_path p = k) ps)).

Definition counts_aliases (m : list (bytes * Z)) (ps : list RepositoryPath) : Prop :=
  bmap_wf m ∧ ∀ k, bmap_get k m = if 0 <? alias_count k ps then Some (alias_count k ps) else None.

Lemma alias_count_snoc k ps p :
  alias_count k (ps ++ [p]) = alias_count k ps + if decide (k = ascii_folded_repository_path p) then 1 else 0.
Proof.
  unfold alias_count. rewrite filter_app, length_app, Nat2Z.inj_add. f_equal. rewrite filter_cons.
  repeat case_decide; simplify_eq; done.
Qed.

Lemma alias_count_nonneg k ps : 0 ≤ alias_count k ps ≤ Z.of_nat (length ps).
Proof. unfold alias_count. pose proof (length_filter (λ p, ascii_folded_repository_path p = k) ps). lia. Qed.

Lemma alias_count_pos k ps : 0 < alias_count k ps ↔ ∃ p, p ∈ ps ∧ ascii_folded_repository_path p = k.
Proof.
  unfold alias_count. destruct (filter _ ps) as [|p l] eqn:E.
  - split; [simpl; lia|]. intros (p & Hp & Hk). assert (p ∈ filter (λ p, ascii_folded_repository_path p = k) ps) as Hin by by apply list_elem_of_filter.
    rewrite E in Hin. by apply elem_of_nil in Hin.
  - split; [intros _|simpl; lia]. exists p. assert (p ∈ filter (λ p, ascii_folded_repository_path p = k) ps) as Hin by (rewrite E; by left).
    by apply list_elem_of_filter in Hin as [? ?].
Qed.

Lemma increment_alias_count m ps p :
  counts_aliases m ps → Z.of_nat (length ps) < u64_max →
  ∃ m', increment_ascii_alias_count m p = Ok m' ∧ counts_aliases m' (ps ++ [p]).
Proof.
  intros [Hw Hm] Hl. unfold increment_ascii_alias_count. rewrite Hm. set (k := ascii_folded_repository_path p).
  assert (default 0 (if 0 <? alias_count k ps then Some (alias_count k ps) else None) = alias_count k ps) as ->.
  { pose proof (alias_count_nonneg k ps). destruct (Z.ltb_spec 0 (alias_count k ps)); simpl; lia. }
  pose proof (alias_count_nonneg k ps). unfold u64_checked_add. rewrite checked_in by lia. rstep. eexists. split; [done|].
  split; [by apply bmap_insert_wf|]. intros k'. rewrite bmap_get_insert, Hm by done. rewrite alias_count_snoc. fold k.
  repeat case_decide; try congruence; [|by rewrite Z.add_0_r]. subst k'. by rewrite (proj2 (Z.ltb_lt _ _)) by lia.
Qed.

Lemma steady_count_alias m p : steady (count_ascii_alias m p).
Proof. unfold count_ascii_alias. solve_steady. Qed.
Lemma steady_count_aliases ps : steady (count_ascii_aliases ps).
Proof. unfold count_ascii_aliases. solve_steady; auto using steady_count_alias. Qed.
#[export] Hint Resolve steady_count_alias steady_count_aliases : steady.

Lemma counts_nil : counts_aliases [] [].
Proof. split; [constructor|done]. Qed.

Lemma count_aliases_run ps : Z.of_nat (length ps) ≤ u64_max → ∃ m, run never (count_ascii_aliases ps) = Ok m ∧ counts_aliases m ps.
Proof.
  unfold count_ascii_aliases. intros Hl.
  assert (∀ qs m, counts_aliases m qs → Z.of_nat (length (qs ++ ps)) ≤ u64_max →
                  ∃ m', run never (ctl_fold count_ascii_alias m ps) = Ok m' ∧ counts_aliases m' (qs ++ ps)) as H.
  { clear Hl. induction ps as [|p ps IH]; intros qs m Hm Hl; cbn [ctl_fold]; [exists m; by rewrite app_nil_r|].
    rewrite run_never_bind by (intros; solve_steady). unfold count_ascii_alias. rewrite run_never_check, run_never_lift by solve_steady.
    rewrite length_app in Hl. simpl in Hl. destruct (increment_alias_count m qs p Hm ltac:(lia)) as (m' & -> & Hm'). rstep.
    destruct (IH (qs ++ [p]) m' Hm') as (m2 & E & Hc); [rewrite !length_app; simpl; lia|]. exists m2. rewrite <- app_assoc in Hc. split; [exact E|exact Hc]. }
  apply (H [] [] counts_nil Hl).
Qed.

(** ** Ambiguous spellings *)

(** Two live spellings, or a live and an untracked one. *)
Definition ambiguous_key (live untracked : list RepositoryPath) (k : bytes) : bool :=
  (0 <? alias_count k live) && ((1 <? alias_count k live) || (0 <? alias_count k untracked)).
Definition ambiguous (live untracked : list RepositoryPath) (p : RepositoryPath) : bool :=
  ambiguous_key live untracked (ascii_folded_repository_path p).

Lemma ambiguous_aliases_spec ml mu live untracked k :
  counts_aliases ml live → counts_aliases mu untracked →
  bset_mem k (ambiguous_aliases ml mu) = ambiguous_key live untracked k.
Proof.
  intros [Hwl Hl] [Hwu Hu].
  assert (bset_wf (ambiguous_aliases ml mu)) as Hw by by apply (keys_increasing_filter fst).
  apply Bool.eq_iff_eq_true. rewrite bset_mem_spec by done. unfold ambiguous_aliases, ambiguous_key. rewrite list_elem_of_fmap. split.
  - intros ([k' v] & -> & [Hp Hin]%list_elem_of_filter). cbn [fst snd] in *. apply bmap_get_elem in Hin; [|done].
    rewrite Hl in Hin. rewrite Hu in Hp. destruct (Z.ltb_spec 0 (alias_count k' live)) as [H0|]; [|done]. injection Hin as <-. simpl.
    destruct (1 <? _); [done|]. destruct (0 <? alias_count k' untracked); [done|]. by simpl in Hp.
  - intros [H0 Hp]%andb_prop. exists (k, alias_count k live). split; [done|]. apply list_elem_of_filter. cbn [fst snd]. split.
    + rewrite Hu. destruct (0 <? alias_count k untracked); [|by rewrite orb_false_r in Hp |- *]. apply orb_true_iff. right. by apply bool_decide_eq_true_2.
    + apply bmap_get_elem; [done|]. by rewrite Hl, H0.
Qed.

Lemma alias_count_filter (P : RepositoryPath → bool) k ps :
  (∀ p, ascii_folded_repository_path p = k → P p = true) → alias_count k (filter (λ p, P p = true) ps) = alias_count k ps.
Proof.
  intros HP. unfold alias_count. rewrite list_filter_filter. do 2 f_equal. apply list_filter_iff. naive_solver.
Qed.

Section spellings.
Context (open_session : list RepositoryPath → result GitPathDiscoveryError ()).
Context (exact_components_available : RepositoryPath → result GitPathDiscoveryError bool).

Local Notation exact := exact_components_available.

Lemma steady_exact_alias m p : steady (exact_untracked_alias exact m p).
Proof. unfold exact_untracked_alias. solve_steady. Qed.
Lemma steady_retain req m s p : steady (retain_cached exact req m s p).
Proof. unfold retain_cached. solve_steady. Qed.
#[local] Hint Resolve steady_exact_alias steady_retain : steady.

Lemma exact_alias_run m p :
  run never (exact_untracked_alias exact m p)
  = (b ← exact p; if (b : bool) then increment_ascii_alias_count m p else Err InconsistentRepositoryPathSet).
Proof.
  unfold exact_untracked_alias. rewrite run_never_check, run_never_lift_bind by (intros; solve_steady).
  destruct (exact p) as [[|]|e]; rstep; cbv iota; by rewrite ?run_never_lift.
Qed.

Lemma retain_cached_run req m s p :
  run never (retain_cached exact req m s p)
  = if negb (req p) then Ok (bset_insert p s)
    else b ← exact p;
         if (b : bool) then Ok (bset_insert p s)
         else if bool_decide (bmap_get (ascii_folded_repository_path p) m = Some 1) then Ok s
         else Err InconsistentRepositoryPathSet.
Proof.
  unfold retain_cached. rewrite run_never_check by solve_steady. destruct (req p); cbn [negb]; cbv iota; [|done].
  rewrite run_never_lift_bind by (intros; solve_steady). destruct (exact p) as [[|]|e]; rstep; cbv iota; [done| |done].
  by destruct (bool_decide _).
Qed.

Lemma exact_aliases_run qs m ps :
  counts_aliases m ps → Z.of_nat (length (ps ++ qs)) ≤ u64_max →
  match run never (ctl_fold (exact_untracked_alias exact) m qs) with
  | Ok m' => (∀ q, q ∈ qs → exact q = Ok true) ∧ counts_aliases m' (ps ++ qs)
  | Err _ => ¬ ∀ q, q ∈ qs → exact q = Ok true
  end.
Proof.
  revert m ps. induction qs as [|q qs IH]; intros m ps Hm Hl; cbn [ctl_fold].
  { rewrite run_never_ret, app_nil_r. split; [by intros q ?%elem_of_nil|done]. }
  rewrite run_never_bind by (intros; solve_steady). rewrite exact_alias_run. destruct (exact q) as [[|]|e] eqn:E; rstep.
  - cbv iota. rewrite length_app in Hl. simpl in Hl.
    destruct (increment_alias_count m ps q Hm ltac:(lia)) as (m' & -> & Hm'). rstep.
    specialize (IH m' (ps ++ [q]) Hm'). rewrite <- app_assoc in IH. simpl app in IH.
    assert (Z.of_nat (length (ps ++ q :: qs)) ≤ u64_max) as Hl' by (rewrite length_app; simpl; lia). specialize (IH Hl').
    destruct (run never (ctl_fold _ m' qs)) as [m2|e]; [destruct IH as [Hq Hc]; split; [|done]; by intros r [->|Hr]%elem_of_cons; [|apply Hq]|].
    intros H. apply IH. intros r Hr. apply H. by right.
  - intros H. specialize (H q ltac:(by left)). congruence.
  - intros H. specialize (H q ltac:(by left)). congruence.
Qed.

(** A cached path stays when its spelling is unambiguous or found on disk; it gives way to the
    one untracked spelling otherwise. *)
Definition kept (req : RepositoryPath → bool) (p : RepositoryPath) : bool :=
  negb (req p) || bool_decide (exact p = Ok true).
Definition settled (untracked : list RepositoryPath) (p : RepositoryPath) : Prop :=
  exact p = Ok true ∨ exact p = Ok false ∧ alias_count (ascii_folded_repository_path p) untracked = 1.

Lemma retain_run req m untracked ps s r :
  (∀ k, (∃ p, req p = true ∧ ascii_folded_repository_path p = k) →
        bmap_get k m = if 0 <? alias_count k untracked then Some (alias_count k untracked) else None) →
  run never (ctl_fold (retain_cached exact req m) s ps) = Ok r ↔
  (∀ p, p ∈ ps → req p = true → settled untracked p)
  ∧ r = foldl (λ s p, bset_insert p s) s (filter (λ p, kept req p = true) ps).
Proof.
  intros Hm. revert s. induction ps as [|p ps IH]; intros s; cbn [ctl_fold].
  { rewrite run_never_ret. split; [intros [= <-]; split; [by intros p ?%elem_of_nil|done]|by intros [_ ->]]. }
  rewrite run_never_bind by (intros; solve_steady). rewrite retain_cached_run.
  assert (∀ b : bool, kept req p = b → ((req p = true → settled untracked p) →
    run never (ctl_fold (retain_cached exact req m) (if b then bset_insert p s else s) ps) = Ok r ↔
    (∀ q, q ∈ p :: ps → req q = true → settled untracked q)
    ∧ r = foldl (λ s p, bset_insert p s) s (filter (λ p, kept req p = true) (p :: ps)))) as Hstep.
  { intros b Hb Hp. rewrite IH, filter_cons. destruct b; case_decide; try congruence; simpl;
      (split; intros [H1 H2]; (split; [|done]); intros q; [intros [->|Hq]%elem_of_cons; [done|by apply H1]|intros Hq; apply H1; by right]). }
  destruct (req p) eqn:Er; cbn [negb]; cbv iota.
  - destruct (exact p) as [[|]|e] eqn:E; rstep; cbv iota.
    + apply (Hstep true); [unfold kept; rewrite Er, E; by rewrite bool_decide_eq_true_2|intros _; by left].
    + rewrite (Hm _ (ex_intro _ p (conj Er eq_refl))). case_bool_decide as Ha.
      * rstep. apply (Hstep false); [unfold kept; rewrite Er, E; done|]. intros _. right. split; [done|].
        destruct (0 <? _); congruence.
      * rstep. split; [done|]. intros [H _]. destruct (H p ltac:(by left) Er) as [?|[_ Hc]]; [congruence|].
        destruct Ha. by rewrite Hc.
    + split; [done|]. intros [H _]. destruct (H p ltac:(by left) Er) as [?|[? _]]; congruence.
  - rstep. apply (Hstep true); [by unfold kept; rewrite Er|done].
Qed.
End spellings.

(** ** The reconciled set *)

Lemma steady_stats_of_path s p : steady (stats_of_path s p).
Proof. unfold stats_of_path. solve_steady. Qed.
Lemma steady_from_set ps n limits : steady (discovered_repository_paths_from_set ps n limits).
Proof. unfold discovered_repository_paths_from_set. solve_steady; auto using steady_stats_of_path. Qed.
#[export] Hint Resolve steady_stats_of_path steady_from_set : steady.

Lemma stats_of_path_run s p : run never (stats_of_path s p) = (stats ← count_path s; measure_path stats p).
Proof.
  unfold stats_of_path. rewrite run_never_check, run_never_lift_bind by (intros; solve_steady).
  destruct (count_path s) as [a|e]; [apply run_never_lift|done].
Qed.

Lemma stats_fold_run n qs ps :
  Forall wf (ps ++ qs) → Z.of_nat (length (ps ++ qs)) ≤ u64_max → sum_of byte_count (ps ++ qs) ≤ u64_max →
  run never (ctl_fold stats_of_path (stats_of n ps) qs) = Ok (stats_of n (ps ++ qs)).
Proof.
  revert ps. induction qs as [|q qs IH]; intros ps Hf Hl Hs; cbn [ctl_fold]; [by rewrite app_nil_r|].
  pose proof (proj1 (Forall_app _ _ _) Hf) as [Hps [Hq Hqs]%Forall_cons]. rewrite length_app in Hl. simpl in Hl.
  rewrite sum_of_app in Hs. change (sum_of byte_count (q :: qs)) with (byte_count q + sum_of byte_count qs) in Hs.
  pose proof (sum_of_nonneg ps Hps). pose proof (sum_of_nonneg qs Hqs).
  rewrite run_never_bind by (intros; solve_steady). 
  rewrite stats_of_path_run.
  assert (Z.of_nat (length ps) < u64_max) as Hl' by lia. assert (sum_of byte_count ps + byte_count q ≤ u64_max) as Hs' by lia.
  pose proof (count_measure n ps q Hq Hl' ltac:(done) Hs') as Hc.
  rewrite Hc. rstep. rewrite IH; rewrite <- ?app_assoc; [done|done|rewrite length_app; simpl; lia|].
  rewrite sum_of_app. change (sum_of byte_count ([q] ++ qs)) with (byte_count q + sum_of byte_count qs). lia.
Qed.

Lemma from_set_run ps n limits :
  Forall wf ps → Z.of_nat (length ps) ≤ u64_max → sum_of byte_count ps ≤ u64_max →
  run never (discovered_repository_paths_from_set ps n limits)
  = if limit_paths limits <? Z.of_nat (length ps) then Err (PathLimitExceeded (limit_paths limits))
    else Ok {| discovered_paths := ps; discovered_stats := stats_of n ps |}.
Proof.
  intros Hf Hl Hs. unfold discovered_repository_paths_from_set. rewrite run_never_lift_bind by (intros; solve_steady; auto with steady).
  unfold u64_of_len. rewrite checked_in by lia. rstep. destruct (_ <? _); [apply run_never_throw|].
  rewrite run_never_bind by (intros; solve_steady). change (stats_new n) with (stats_of n []).
  by rewrite (stats_fold_run n ps []).
Qed.

(** A parsed listing. *)
Record listed (d : DiscoveredRepositoryPaths) : Prop := {
  listed_paths : path_set (discovered_paths d);
  listed_bytes : Z.of_nat (length (discovered_paths d)) + sum_of byte_count (discovered_paths d) ≤ stat_output_bytes (discovered_stats d);
}.

Section reconciled.
Context (open_session : list RepositoryPath → result GitPathDiscoveryError ()).
Context (exact_components_available : RepositoryPath → result GitPathDiscoveryError bool).

Local Notation exact := exact_components_available.

(** What a reconciliation of live and untracked paths asks of the disk. *)
Record spelled (live untracked : list RepositoryPath) : Prop := {
  spelled_session :
    (∃ p, p ∈ live ∧ ambiguous live untracked p = true) →
    open_session (filter (λ p, ambiguous live untracked p = true) live
                  ++ filter (λ p, ambiguous live untracked p = true) untracked) = Ok ();
  spelled_untracked p : p ∈ untracked → ambiguous live untracked p = true → exact p = Ok true;
  spelled_live p : p ∈ live → ambiguous live untracked p = true → settled exact untracked p;
}.

Lemma steady_spellings C U ml mu : steady (reconcile_cached_path_spellings open_session exact C U ml mu).
Proof.
  unfold reconcile_cached_path_spellings. cbv zeta. destruct (bool_decide _); [apply steady_ret|].
  apply steady_bind; [apply steady_lift|intros _]. apply steady_bind; [apply steady_fold|intros ?; apply steady_fold]; intros.
  - apply steady_exact_alias.
  - apply steady_retain.
Qed.

Lemma spellings_run live untracked ml mu r :
  path_set live → path_set untracked → Z.of_nat (length untracked) ≤ u64_max →
  counts_aliases ml live → counts_aliases mu untracked →
  run never (reconcile_cached_path_spellings open_session exact live untracked ml mu) = Ok r ↔
  spelled live untracked ∧ r = filter (λ p, kept exact (ambiguous live untracked) p = true) live.
Proof.
  intros Hl Hu Hn Hml Hmu. pose proof (λ k, ambiguous_aliases_spec ml mu live untracked k Hml Hmu) as Hamb.
  unfold reconcile_cached_path_spellings. cbv zeta. case_bool_decide as He.
  - rewrite run_never_ret. assert (∀ p, ambiguous live untracked p = false) as Hno.
    { intros p. unfold ambiguous. by rewrite <- Hamb, He. }
    rewrite filter_all_true by (intros p _; unfold kept; by rewrite Hno).
    split; [intros [= <-]; split; [|done]; split; [intros (p & _ & Hp)|intros p _ Hp..]; by rewrite Hno in Hp|by intros [_ ->]].
  - assert (∃ p, p ∈ live ∧ ambiguous live untracked p = true) as Hex.
    { destruct (ambiguous_aliases ml mu) as [|k ks] eqn:E; [done|]. specialize (Hamb k). simpl in Hamb. rewrite cmp_refl in Hamb.
      symmetry in Hamb. pose proof Hamb as [H0%Z.ltb_lt _]%andb_prop. apply alias_count_pos in H0 as (p & Hp & Hk). exists p. unfold ambiguous. by rewrite Hk. }
    rewrite run_never_bind by (intros; apply steady_bind; [apply steady_fold; intros; apply steady_exact_alias|intros; apply steady_fold; intros; apply steady_retain]).
    rewrite run_never_lift.
    assert (∀ ps : list RepositoryPath, filter (λ p, bset_mem (ascii_folded_repository_path p) (ambiguous_aliases ml mu) = true) ps
                  = filter (λ p, ambiguous live untracked p = true) ps) as Hfe.
    { intros ps. apply list_filter_iff. intros p. unfold ambiguous. by rewrite Hamb. }
    rewrite !Hfe. destruct (open_session _) as [[]|e] eqn:Eo; rstep; [|split; [done|]; intros [[Hs _ _] _]; specialize (Hs Hex); congruence].
    rewrite run_never_bind by (intros; apply steady_fold; intros; apply steady_retain).
    set (us := filter (λ p, ambiguous live untracked p = true) untracked).
    pose proof (exact_aliases_run exact us [] [] counts_nil) as Hex_run. simpl app in Hex_run.
    assert (Z.of_nat (length us) ≤ u64_max) as Hus by (pose proof (length_filter (λ p, ambiguous live untracked p = true) untracked); unfold us; lia).
    specialize (Hex_run Hus). destruct (run never (ctl_fold (exact_untracked_alias exact) [] us)) as [m|e]; rstep.
    + destruct Hex_run as [Hall [_ Hm]]. rewrite (retain_run exact _ m untracked).
      * rewrite (list_filter_iff _ (λ p, kept exact (ambiguous live untracked) p = true)) by (intros p; unfold kept, ambiguous; by rewrite Hamb).
        assert (foldl (λ s p, bset_insert p s) [] (filter (λ p, kept exact (ambiguous live untracked) p = true) live)
                = filter (λ p, kept exact (ambiguous live untracked) p = true) live) as ->.
        { apply path_set_of_list. by apply path_set_filter. }
        split; intros [H1 ->]; (split; [|done]).
        -- split; [done| |].
           ++ intros p Hp Ha. apply Hall. by apply list_elem_of_filter.
           ++ intros p Hp Ha. apply H1; [done|]. by rewrite Hamb.
        -- intros p Hp Ha. apply (spelled_live _ _ H1); [done|]. by rewrite Hamb in Ha.
      * intros k (p & Hp & <-). rewrite Hm. unfold us. rewrite alias_count_filter; [done|]. intros q Hq. rewrite Hamb in Hp. unfold ambiguous. by rewrite Hq.
    + split; [done|]. intros [[_ Hsu _] _]. destruct Hex_run. intros q [Ha Hq]%list_elem_of_filter. by apply Hsu.
Qed.

Lemma sum_of_submseteq ps qs : Forall wf qs → ps ⊆+ qs → sum_of byte_count ps ≤ sum_of byte_count qs.
Proof.
  intros Hf (l & Hp)%submseteq_Permutation. rewrite (sum_of_perm _ _ _ Hp), sum_of_app.
  rewrite Hp in Hf. apply Forall_app in Hf as [_ Hl]. pose proof (sum_of_nonneg l Hl). lia.
Qed.

Lemma path_set_NoDup ps : path_set ps → NoDup ps.
Proof. intros [_ Hk]. apply (NoDup_fmap_1 path_bytes), (bset_wf_NoDup _ Hk). Qed.

Lemma without_bounds C D : path_set C → let L := without C D in
  path_set L ∧ Z.of_nat (length L) ≤ Z.of_nat (length C) ∧ sum_of byte_count L ≤ sum_of byte_count C.
Proof.
  intros HC. assert (without C D ⊆+ C) as Hs by apply sublist_submseteq, sublist_filter. split_and!.
  - by apply path_set_filter.
  - apply submseteq_length in Hs. lia.
  - apply sum_of_submseteq; [apply HC|done].
Qed.

(** The retained paths with the untracked ones. *)
Lemma merged_paths live untracked :
  path_set live → path_set untracked → (∀ p, p ∈ live → p ∉ untracked) →
  let all := foldl (λ s p, bset_insert p s) live untracked in
  path_set all ∧ (∀ p, p ∈ all ↔ p ∈ live ∨ p ∈ untracked) ∧ all ≡ₚ live ++ untracked.
Proof.
  intros Hl Hu Hd. destruct (path_set_fold live untracked Hl (proj1 Hu)) as [Hs Hm]. split_and!; [done..|].
  apply NoDup_Permutation; [by apply path_set_NoDup|apply NoDup_app; auto using path_set_NoDup|].
  intros p. by rewrite Hm, elem_of_app.
Qed.

(** What the reconciliation of three listings is. *)
Record reconciled (cached untracked deleted : DiscoveredRepositoryPaths) (limits : GitPathDiscoveryLimits)
    (d : DiscoveredRepositoryPaths) : Prop := {
  reconciled_deleted p : p ∈ discovered_paths deleted → p ∈ discovered_paths cached;
  reconciled_disjoint p :
    p ∈ without (discovered_paths cached) (discovered_paths deleted) → p ∉ discovered_paths untracked;
  reconciled_spelled : spelled (without (discovered_paths cached) (discovered_paths deleted)) (discovered_paths untracked);
  reconciled_bytes :
    stat_output_bytes (discovered_stats cached) + stat_output_bytes (discovered_stats untracked)
    + stat_output_bytes (discovered_stats deleted) ≤ limit_output_bytes limits;
  reconciled_count : Z.of_nat (length (discovered_paths d)) ≤ limit_paths limits;
  reconciled_stats :
    discovered_stats d
    = stats_of (stat_output_bytes (discovered_stats cached) + stat_output_bytes (discovered_stats untracked)
                + stat_output_bytes (discovered_stats deleted)) (discovered_paths d);
  reconciled_set : path_set (discovered_paths d);
  reconciled_elem p :
    p ∈ discovered_paths d ↔
    p ∈ discovered_paths untracked
    ∨ p ∈ without (discovered_paths cached) (discovered_paths deleted)
      ∧ kept exact (ambiguous (without (discovered_paths cached) (discovered_paths deleted)) (discovered_paths untracked)) p = true;
}.

Lemma steady_reconcile_listings cached untracked deleted limits :
  steady (reconcile_repository_paths open_session exact cached untracked deleted limits).
Proof.
  unfold reconcile_repository_paths. repeat (apply steady_bind; [apply steady_lift|intros ?]).
  destruct (_ <? _); [apply steady_throw|]. cbv zeta. apply steady_bind; [apply steady_fold; auto with steady|intros ?].
  destruct (existsb _ _); [apply steady_throw|]. do 2 (apply steady_bind; [auto with steady|intros ?]).
  apply steady_bind; [apply steady_spellings|intros ?; apply steady_from_set].
Qed.

Lemma not_tracked live untracked :
  path_set live → path_set untracked →
  existsb (λ path, path_mem path untracked) live = false ↔ ∀ p, p ∈ live → p ∉ untracked.
Proof.
  intros Hl Hu. rewrite <- not_true_iff_false. unfold path_mem. rewrite existsb_exists. split.
  - intros Hn p Hp Hin. apply Hn. exists p. split; [by apply list_elem_of_In|].
    apply path_set_mem; [done|by apply (path_set_wf live)|done].
  - intros Hd (p & Hp & Hin). apply list_elem_of_In in Hp. apply (Hd p Hp). apply path_set_mem; [done|by apply (path_set_wf live)|done].
Qed.

(** After the guards, reconciling is computing the retained set. *)
Lemma reconcile_tail live untracked total limits d :
  path_set live → path_set untracked → (∀ p, p ∈ live → p ∉ untracked) →
  Z.of_nat (length live) + Z.of_nat (length untracked) + sum_of byte_count live + sum_of byte_count untracked ≤ u64_max →
  run never (cached_ascii_aliases ← count_ascii_aliases live;
             untracked_ascii_aliases ← count_ascii_aliases untracked;
             retained ← reconcile_cached_path_spellings open_session exact live untracked cached_ascii_aliases untracked_ascii_aliases;
             let retained := foldl (λ retained path, bset_insert path retained) retained untracked in
             discovered_repository_paths_from_set retained total limits) = Ok d ↔
  spelled live untracked ∧ Z.of_nat (length (discovered_paths d)) ≤ limit_paths limits
  ∧ discovered_stats d = stats_of total (discovered_paths d)
  ∧ path_set (discovered_paths d)
  ∧ ∀ p, p ∈ discovered_paths d ↔ p ∈ untracked ∨ p ∈ live ∧ kept exact (ambiguous live untracked) p = true.
Proof.
  intros Hl Hu Hd Hb. pose proof (sum_of_nonneg live (proj1 Hl)). pose proof (sum_of_nonneg untracked (proj1 Hu)).
  rewrite run_never_bind by (intros; apply steady_bind; [auto with steady|intros; apply steady_bind; [apply steady_spellings|intros; apply steady_from_set]]).
  destruct (count_aliases_run live ltac:(lia)) as (ml & -> & Hml). rstep.
  rewrite run_never_bind by (intros; apply steady_bind; [apply steady_spellings|intros; apply steady_from_set]).
  destruct (count_aliases_run untracked ltac:(lia)) as (mu & -> & Hmu). rstep.
  rewrite run_never_bind by (intros; apply steady_from_set). rewrite bind_Ok.
  set (keep := filter (λ p, kept exact (ambiguous live untracked) p = true) live).
  assert (keep ⊆+ live) as Hsub by apply sublist_submseteq, sublist_filter.
  assert (path_set keep) as Hk by by apply path_set_filter.
  assert (∀ p, p ∈ keep → p ∉ untracked) as Hkd by (intros p [_ Hp]%list_elem_of_filter; by apply Hd).
  destruct (merged_paths keep untracked Hk Hu Hkd) as (Hs & Hm & Hperm). cbv zeta in Hs, Hm, Hperm. cbv zeta.
  set (all := foldl _ keep untracked) in *.
  pose proof (submseteq_length _ _ Hsub). pose proof (sum_of_submseteq _ _ (proj1 Hl) Hsub).
  assert (Z.of_nat (length all) ≤ u64_max) by (rewrite Hperm, length_app; lia).
  assert (sum_of byte_count all ≤ u64_max) by (rewrite (sum_of_perm _ _ _ Hperm), sum_of_app; lia).
  assert (∀ p, p ∈ all ↔ p ∈ untracked ∨ p ∈ live ∧ kept exact (ambiguous live untracked) p = true) as Hall.
  { intros p. rewrite Hm. unfold keep. rewrite list_elem_of_filter. naive_solver. }
  pose proof (from_set_run all total limits (proj1 Hs) ltac:(done) ltac:(done)) as Hfs. split.
  - intros (r & Hr & Hf). apply spellings_run in Hr as [Hsp ->]; [|done|done|lia|done|done]. fold keep in Hf. fold all in Hf. rewrite Hfs in Hf.
    destruct (Z.ltb_spec (limit_paths limits) (Z.of_nat (length all))); [done|]. injection Hf as <-. done.
  - intros (Hsp & Hc & Hst & Hset & Hel). exists keep. split; [apply spellings_run; [done|done|lia|done|done|by split]|]. fold all. rewrite Hfs.
    assert (discovered_paths d = all) as Heq by (apply path_set_ext; [done|done|]; intros p; by rewrite Hel, Hall).
    rewrite Heq in Hc, Hst. rewrite (proj2 (Z.ltb_ge _ _)) by done. f_equal. destruct d. simpl in *. congruence.
Qed.

Lemma lift_Ok_bind {A B} (a : A) (f : A → ctl GitPathDiscoveryError B) : lift (Ok a) ≫= f = f a.
Proof. reflexivity. Qed.

Lemma reconcile_too_large cached untracked deleted limits :
  ¬ stat_output_bytes (discovered_stats cached) + stat_output_bytes (discovered_stats untracked)
    + stat_output_bytes (discovered_stats deleted) ≤ limit_output_bytes limits →
  is_ok (run never (reconcile_repository_paths open_session exact cached untracked deleted limits)) = false.
Proof.
  intros Hgt. unfold reconcile_repository_paths. unfold u64_checked_add.
  destruct (checked _ (_ + _)) as [n|] eqn:E; [|done]. apply checked_Some in E as [-> _]. cbn [ok_or]. rewrite lift_Ok_bind.
  destruct (checked _ (_ + _ + _)) as [n|] eqn:E; [|done]. apply checked_Some in E as [-> _]. cbn [ok_or]. rewrite lift_Ok_bind.
  by rewrite (proj2 (Z.ltb_lt _ _)) by lia.
Qed.

Lemma reconcile_guards cached untracked deleted limits :
  path_set (discovered_paths cached) → path_set (discovered_paths untracked) →
  0 ≤ stat_output_bytes (discovered_stats cached) → 0 ≤ stat_output_bytes (discovered_stats untracked) →
  0 ≤ stat_output_bytes (discovered_stats deleted) →
  stat_output_bytes (discovered_stats cached) + stat_output_bytes (discovered_stats untracked)
    + stat_output_bytes (discovered_stats deleted) ≤ limit_output_bytes limits ≤ u64_max →
  run never (reconcile_repository_paths open_session exact cached untracked deleted limits)
  = (live ← run never (remove_deleted_cached_paths (discovered_paths cached) (discovered_paths deleted));
     if existsb (λ path, path_mem path (discovered_paths untracked)) live then Err InconsistentRepositoryPathSet
     else
       run never (cached_ascii_aliases ← count_ascii_aliases live;
                  untracked_ascii_aliases ← count_ascii_aliases (discovered_paths untracked);
                  retained ← reconcile_cached_path_spellings open_session exact live (discovered_paths untracked)
                               cached_ascii_aliases untracked_ascii_aliases;
                  let retained := foldl (λ retained path, bset_insert path retained) retained (discovered_paths untracked) in
                  discovered_repository_paths_from_set retained
                    (stat_output_bytes (discovered_stats cached) + stat_output_bytes (discovered_stats untracked)
                     + stat_output_bytes (discovered_stats deleted)) limits)).
Proof.
  intros Hc Hu H0 H1 H2 [Hle Hlim].
  assert (∀ live total, steady (cached_ascii_aliases ← count_ascii_aliases live;
                  untracked_ascii_aliases ← count_ascii_aliases (discovered_paths untracked);
                  retained ← reconcile_cached_path_spellings open_session exact live (discovered_paths untracked)
                               cached_ascii_aliases untracked_ascii_aliases;
                  let retained := foldl (λ retained path, bset_insert path retained) retained (discovered_paths untracked) in
                  discovered_repository_paths_from_set retained total limits)) as Ht.
  { intros. do 2 (apply steady_bind; [auto with steady|intros ?]). apply steady_bind; [apply steady_spellings|intros ?; apply steady_from_set]. }
  unfold reconcile_repository_paths, u64_checked_add. rewrite checked_in by lia. cbn [ok_or].
  rewrite lift_Ok_bind. rewrite checked_in by lia. cbn [ok_or].
  rewrite lift_Ok_bind. cbv beta. rewrite (proj2 (Z.ltb_ge _ _)) by lia. cbv zeta.
  rewrite !path_set_of_list by done. rewrite run_never_bind.
  - destruct (run never (remove_deleted_cached_paths _ _)) as [live|]; [|done]. rstep. by destruct (existsb _ _).
  - intros live. destruct (existsb _ _); [apply steady_throw|apply Ht].
Qed.

Lemma reconcile_run cached untracked deleted limits d :
  git_limits_wf limits → listed cached → listed untracked → listed deleted →
  run never (reconcile_repository_paths open_session exact cached untracked deleted limits) = Ok d ↔
  reconciled cached untracked deleted limits d.
Proof.
  intros [Hlim _] [Hc Hcb] [Hu Hub] [Hd Hdb].
  pose proof (sum_of_nonneg _ (proj1 Hc)). pose proof (sum_of_nonneg _ (proj1 Hu)). pose proof (sum_of_nonneg _ (proj1 Hd)).
  pose proof (steady_reconcile_listings cached untracked deleted limits) as Hst.
  destruct (decide (stat_output_bytes (discovered_stats cached) + stat_output_bytes (discovered_stats untracked)
    + stat_output_bytes (discovered_stats deleted) ≤ limit_output_bytes limits)) as [Hle|Hgt].
  2:{ pose proof (reconcile_too_large _ _ _ _ Hgt) as Hno. split; [intros Hr; by rewrite Hr in Hno|by intros []]. }
  destruct (without_bounds (discovered_paths cached) (discovered_paths deleted) Hc) as (HL & HLn & HLs).
  set (L := without (discovered_paths cached) (discovered_paths deleted)) in *. destruct Hlim as [_ Hlim].
  rewrite reconcile_guards by (done || lia). rewrite bind_Ok. split.
  - intros (r & Hr & Hrest). apply remove_deleted_all in Hr as [Hsub ->]; [|done..]. fold L in Hrest.
    destruct (existsb _ L) eqn:Eb; [done|]. pose proof (proj1 (not_tracked _ _ HL Hu) Eb) as Hdis.
    apply reconcile_tail in Hrest as (? & ? & ? & ? & ?); [by split|done..|lia].
  - intros [Hsub Hdis Hsp Hb Hn Hs Hset Hel]. exists L. split; [by apply remove_deleted_all|].
    rewrite (proj2 (not_tracked _ _ HL Hu)) by done. apply reconcile_tail; [done..|lia|by split_and!].
Qed.
End reconciled.

(** The parser gives listings. *)
Lemma parsed_listed output limits d :
  git_limits_wf limits → run never (parse_git_paths_with_control output limits) = Ok d → listed d.
Proof.
  intros Hlim Hr. apply git_paths_parsed in Hr as (ps & Hout & Hl & Hn & Hps & Hnd & ->); [|done].
  split; cbn [discovered_paths discovered_stats stats_of stat_output_bytes].
  - split; [|by apply (keys_increasing_NoDup_sort path_bytes)]. apply Forall_forall. intros p Hp%elem_of_sort_by.
    pose proof (admitted_wf _ _ Hps) as Hw. rewrite Forall_forall in Hw. by apply Hw.
  - rewrite length_sort_by, (sum_of_perm _ _ _ (sort_by_perm path_cmp ps)). subst output. unfold len. rewrite length_terminated.
    pose proof (admitted_wf _ _ Hps) as Hw. clear -Hw. unfold sum_of.
    induction Hw as [|p ps Hp _ IH]; [done|]. csimpl. destruct (wf_byte_len p Hp) as [-> _]. lia.
Qed.

(** A path that a reconciliation drops gives way to another spelling. *)
Lemma dropped_path open_session exact cached untracked deleted limits d p :
  reconciled open_session exact cached untracked deleted limits d →
  p ∈ without (discovered_paths cached) (discovered_paths deleted) → p ∉ discovered_paths d →
  exact p = Ok false
  ∧ ∃ q, filter (λ q, ascii_folded_repository_path q = ascii_folded_repository_path p) (discovered_paths untracked) = [q]
         ∧ exact q = Ok true ∧ q ∈ discovered_paths d.
Proof.
  intros [_ _ Hsp _ _ _ _ Hel] Hp Hno. set (live := without _ _) in *.
  destruct (kept exact (ambiguous live (discovered_paths untracked)) p) eqn:Ek; [destruct Hno; apply Hel; by right|].
  unfold kept in Ek. apply orb_false_iff in Ek as [Ha%negb_false_iff He%bool_decide_eq_false].
  destruct (spelled_live _ _ _ _ Hsp p Hp Ha) as [?|[Hf Hone]]; [done|]. split; [done|]. unfold alias_count in Hone.
  destruct (filter _ (discovered_paths untracked)) as [|q [|]] eqn:E; [done| |simpl in Hone; lia].
  assert (q ∈ [q]) as Hq by (by left). rewrite <- E in Hq. apply list_elem_of_filter in Hq as [Hk Hq].
  exists q. split_and!; [done| |apply Hel; by left]. apply (spelled_untracked _ _ _ _ Hsp); [done|]. unfold ambiguous in *. by rewrite Hk.
Qed.

(** C29: reconciling the cached, untracked and deleted listings of a worktree succeeds exactly when
    they are consistent, fit the limits and the disk settles every spelling that is ambiguous
    up to ASCII case; the result is then the untracked paths with the cached ones that are not
    deleted and are unambiguous or spelled that way on disk, in byte order with exact
    statistics.  A cached path that is left out is not on disk as spelled and gives way to the
    one untracked path of the same folding, which is. *)
Theorem git_reconciliation_exact open_session exact limits out_cached out_untracked out_deleted cached untracked deleted d :
  git_limits_wf limits →
  run never (parse_git_paths_with_control out_cached limits) = Ok cached →
  run never (parse_git_paths_with_control out_untracked limits) = Ok untracked →
  run never (parse_git_paths_with_control out_deleted limits) = Ok deleted →
  (run never (reconcile_repository_paths open_session exact cached untracked deleted limits) = Ok d ↔
   reconciled open_session exact cached untracked deleted limits d)
  ∧ (reconciled open_session exact cached untracked deleted limits d →
     ∀ p, p ∈ discovered_paths cached → p ∉ discovered_paths deleted → p ∉ discovered_paths d →
     exact p = Ok false
     ∧ ∃ q, filter (λ q, ascii_folded_repository_path q = ascii_folded_repository_path p) (discovered_paths untracked) = [q]
            ∧ exact q = Ok true ∧ q ∈ discovered_paths d)
  ∧ ∀ o, run o (reconcile_repository_paths open_session exact cached untracked deleted limits)
         = run never (reconcile_repository_paths open_session exact cached untracked deleted limits)
         ∨ ∃ k e, o k = Some e ∧ run o (reconcile_repository_paths open_session exact cached untracked deleted limits) = Err e.
Proof.
  intros Hl Hc%parsed_listed Hu%parsed_listed Hd%parsed_listed; [|done..]. split_and!.
  - by apply reconcile_run.
  - intros Hr p Hp Hnd. eapply dropped_path; [done|]. apply elem_of_without; [apply Hc|apply Hd|done].
  - intros o. apply steady_run, steady_reconcile_listings.
Qed.

(** A cached [a] whose file was renamed to the untracked [A], beside a deleted [c]. *)
Definition git_exact (p : RepositoryPath) : result GitPathDiscoveryError bool :=
  Ok (bool_decide (path_bytes p ≠ [x61])).
Definition git_three : GitPathDiscoveryLimits :=
  {| limit_output_bytes := 16; limit_paths := 4; limit_repository_path := {| max_bytes := 8; max_components := 4 |} |}.
Definition git_listing (n : Z) (ps : list bytes) : DiscoveredRepositoryPaths :=
  {| discovered_paths := git_path <$> ps; discovered_stats := stats_of n (git_path <$> ps) |}.

Lemma git_reconciliation_exact_witness :
  reconciled (λ _, Ok ()) git_exact (git_listing 6 [[x61]; [x62]; [x63]]) (git_listing 2 [[x41]]) (git_listing 2 [[x63]]) git_three
    (git_listing 10 [[x41]; [x62]]).
Proof.
  apply (proj1 (proj1 (git_reconciliation_exact (λ _, Ok ()) git_exact git_three [x61; x00; x62; x00; x63; x00] [x41; x00] [x63; x00]
    (git_listing 6 [[x61]; [x62]; [x63]]) (git_listing 2 [[x41]]) (git_listing 2 [[x63]]) (git_listing 10 [[x41]; [x62]])
    ltac:(split; vm_compute; split; discriminate) ltac:(by vm_compute) ltac:(by vm_compute) ltac:(by vm_compute)))).
  by vm_compute.
Defined.

(** When neither spelling is on disk the set is refused. *)
Example git_reconciliation_refused :
  run never (reconcile_repository_paths (λ _, Ok ()) (λ _, Ok false) (git_listing 6 [[x61]; [x62]; [x63]]) (git_listing 2 [[x41]])
               (git_listing 2 [[x63]]) git_three) = Err InconsistentRepositoryPathSet.
Proof. by vm_compute. Qed.
