(* ===== verification/SourceState.v ===== *)
(** * Git and worktree source states

    Models [crates/repowitness-local/src/source_state.rs] and [source_state/parsing.rs]: the
    parsers of the porcelain output of Git, the canonical status records and the messages
    hashed into receipts.  The outcomes of the subprocesses and SHA-256 are parameters; the
    control is the oracle of the [ctl] monad. *)

From Stdlib Require Import ZArith Lia ZifyBool.
From Stdlib Require Import Strings.Byte.
From stdpp Require Import base numbers sorting list.
From S2P Require Import Prelude Ordering RepositoryPath PathText IdentityText GitPaths.

Open Scope Z_scope.

(** ** Data *)

Definition GIT_STATE_DOMAIN : bytes := b_of "RepoWitness" ++ [x00] ++ b_of "git-state" ++ [x00].
Definition RUST_WORKTREE_STATE_DOMAIN : bytes := b_of "RepoWitness" ++ [x00] ++ b_of "rust-worktree-state" ++ [x00].
Definition SUPPORTED_LANGUAGES_WORKTREE_STATE_DOMAIN : bytes :=
  b_of "RepoWitness" ++ [x00] ++ b_of "supported-languages-worktree-state" ++ [x00].

Definition GIT_STATE_VERSION : Z := 1.
Definition RUST_WORKTREE_STATE_VERSION : Z := 1.
Definition SUPPORTED_LANGUAGES_WORKTREE_STATE_VERSION : Z := 3.
Definition GIT_STATUS_PROFILE_VERSION : Z := 1.

Inductive GitObjectFormat := Sha1 | Sha256.

#[export] Instance object_format_eq_dec : EqDecision GitObjectFormat.
Proof. solve_decision. Defined.

Definition format_tag (f : GitObjectFormat) : Z := match f with Sha1 => 1 | Sha256 => 2 end.
Definition object_id_bytes (f : GitObjectFormat) : nat := match f with Sha1 => 20 | Sha256 => 32 end.

Record CanonicalStatusRecord := {
  status_path : RepositoryPath;
  status_tag : Z;
  status_fields : bytes;
}.

(** A deadline past the end of the clock stays outside. *)
Inductive SourceStateError :=
| Git (source : GitPathDiscoveryError)
| UnsupportedObjectFormat
| InvalidObjectFormat
| InvalidHead
| InvalidShallowState
| InvalidIndexRecord
| SparseWorktreeUnsupported
| SubmoduleUnsupported
| InvalidStatusRecord
| InvalidStatePath (ordinal : Z) (source : RepositoryPathError)
| StatusPathLimitExceeded (limit : Z)
| DuplicateStatusPath
| RecordCountNotRepresentable.

(** ** Lines and records *)

Definition lf : byte := x0a.
Definition cr : byte := x0d.
Definition space : byte := x20.
Definition tab : byte := x09.

Definition single_lf_line (output : bytes) : option bytes :=
  line ← strip_last lf output;
  if bool_decide (line = []) || bool_decide (lf ∈ line) || bool_decide (cr ∈ line) then None else Some line.

(** [bytes.iter().position(|byte| *byte == delimiter)], with both sides. *)
Fixpoint split_once (delimiter : byte) (bs : bytes) : option (bytes * bytes) :=
  match bs with
  | [] => None
  | b :: bs =>
      if bool_decide (b = delimiter) then Some ([], bs)
      else match split_once delimiter bs with Some (before, after) => Some (b :: before, after) | None => None end
  end.

(** [slice.splitn(n, |byte| *byte == delimiter)]. *)
Fixpoint split_n (n : nat) (delimiter : byte) (bs : bytes) : list bytes :=
  match n with
  | O => []
  | S n' =>
      match n', split_once delimiter bs with
      | O, _ | _, None => [bs]
      | _, Some (before, after) => before :: split_n n' delimiter after
      end
  end.

(** [NulRecords::next]: the record, and what remains. *)
Definition nul_next (remaining : option bytes) : option (bytes * option bytes) :=
  match remaining with
  | None | Some [] => None
  | Some remaining =>
      match split_once nul remaining with
      | Some (record, rest) => Some (record, Some rest)
      | None => Some (remaining, None)
      end
  end.

(** Iterating it. *)
Fixpoint nul_collect (fuel : nat) (remaining : option bytes) : list bytes :=
  match fuel with
  | O => []
  | S fuel => match nul_next remaining with None => [] | Some (record, rest) => record :: nul_collect fuel rest end
  end.

Definition nul_records (output : bytes) : option (list bytes) :=
  if bool_decide (output = []) then Some (nul_collect (S (length output)) None)
  else
    records ← strip_last nul output;
    if existsb (λ record, bool_decide (record = [])) (split_byte nul records) then None
    else Some (nul_collect (S (length output)) (Some records)).

(** ** Fields *)

Definition parse_object_format (output : bytes) : result SourceStateError GitObjectFormat :=
  match single_lf_line output with
  | Some line =>
      if bool_decide (line = b_of "sha1") then Ok Sha1
      else if bool_decide (line = b_of "sha256") then Ok Sha256
      else if forallb (λ b, ((97 <=? byte_rank b) && (byte_rank b <=? 122)) || ((48 <=? byte_rank b) && (byte_rank b <=? 57))) line
      then Err UnsupportedObjectFormat
      else Err InvalidObjectFormat
  | None => Err InvalidObjectFormat
  end.

Definition parse_shallow_state (output : bytes) : result SourceStateError bool :=
  match single_lf_line output with
  | Some line =>
      if bool_decide (line = b_of "true") then Ok true
      else if bool_decide (line = b_of "false") then Ok false
      else Err InvalidShallowState
  | None => Err InvalidShallowState
  end.

Definition valid_ordinary_status (status : bytes) : bool :=
  match status with
  | [x; y] =>
      bool_decide (x ∈ b_of ".MTADRC") && bool_decide (y ∈ b_of ".MTDRC") && negb (bool_decide (status = b_of ".."))
  | _ => false
  end.

Definition valid_unmerged_status (status : bytes) : bool :=
  bool_decide (status ∈ [b_of "DD"; b_of "AU"; b_of "UD"; b_of "UA"; b_of "DU"; b_of "AA"; b_of "UU"]).

Definition valid_non_submodule_field (field : bytes) : result SourceStateError bool :=
  if negb (length field =? 4)%nat then Ok false
  else if bool_decide (head field = Some x53) then Err SubmoduleUnsupported
  else Ok (bool_decide (field = b_of "N...")).

Definition index_tags : list bytes := [b_of "H"; b_of "h"; b_of "S"; b_of "s"; b_of "M"; b_of "m"; b_of "R"; b_of "r"; b_of "C"; b_of "c"; b_of "K"; b_of "k"].
Definition valid_index_tag (field : bytes) : bool := bool_decide (field ∈ index_tags).

Definition modes : list bytes := [b_of "000000"; b_of "040000"; b_of "100644"; b_of "100755"; b_of "120000"; b_of "160000"].

Fixpoint octal (mode : Z) (field : bytes) : option Z :=
  match field with
  | [] => Some mode
  | b :: field =>
      scaled ← checked u32_max (mode * 8);
      next ← checked u32_max (scaled + (byte_rank b - 48));
      octal next field
  end.

Definition parse_mode (field : bytes) : option Z := if bool_decide (field ∈ modes) then octal 0 field else None.

Definition decode_nibble (b : byte) : option Z :=
  if (48 <=? byte_rank b) && (byte_rank b <=? 57) then Some (byte_rank b - 48)
  else if (97 <=? byte_rank b) && (byte_rank b <=? 102) then Some (byte_rank b - 97 + 10)
  else None.

Fixpoint decode_pairs (field : bytes) : option bytes :=
  match field with
  | h :: l :: rest =>
      high ← decode_nibble h;
      low ← decode_nibble l;
      decoded ← decode_pairs rest;
      Some (byte_of (Z.lor (Z.shiftl high 4) low) :: decoded)
  | _ => Some []
  end.

Definition decode_object_id (field : bytes) (f : GitObjectFormat) : option bytes :=
  if negb (length field =? object_id_bytes f * 2)%nat
     || negb (forallb (λ b, ((48 <=? byte_rank b) && (byte_rank b <=? 57)) || ((97 <=? byte_rank b) && (byte_rank b <=? 102))) field)
  then None
  else decode_pairs field.

Definition append_mode (target field : bytes) : result SourceStateError bytes :=
  mode ← ok_or (parse_mode field) InvalidStatusRecord;
  if bool_decide (field = b_of "040000") then Err SparseWorktreeUnsupported
  else if bool_decide (field = b_of "160000") then Err SubmoduleUnsupported
  else Ok (target ++ u32_be_bytes mode).

Definition append_object_id (f : GitObjectFormat) (target field : bytes) : result SourceStateError bytes :=
  object_id ← ok_or (decode_object_id field f) InvalidStatusRecord;
  count ← ok_or (checked 255 (len object_id)) InvalidStatusRecord;
  Ok (target ++ [byte_of (format_tag f)] ++ [byte_of count] ++ object_id).

Definition validate_path (path : bytes) (ordinal : Z) (limits : GitPathDiscoveryLimits) : result SourceStateError RepositoryPath :=
  map_err (InvalidStatePath ordinal) (try_from_bytes path (limit_repository_path limits)).

Definition checked_record_count (count : Z) (limits : GitPathDiscoveryLimits) : result SourceStateError Z :=
  next ← ok_or (u64_checked_add count 1) RecordCountNotRepresentable;
  if limit_paths limits <? next then Err (StatusPathLimitExceeded (limit_paths limits)) else Ok next.

(** ** The cached index *)

(** The path and the stage of a record, in scope. *)
Definition index_fields (f : GitObjectFormat) (record : bytes) : result SourceStateError (bytes * Z) :=
  '(metadata, path) ← ok_or (split_once tab record) InvalidIndexRecord;
  if bool_decide (path = []) then Err InvalidIndexRecord
  else
    let fields := split_byte space metadata in
    let field i := nth i fields [] in
    if negb (length fields =? 4)%nat || negb (valid_index_tag (field 0%nat)) || bool_decide (parse_mode (field 1%nat) = None)
       || bool_decide (decode_object_id (field 2%nat) f = None)
       || negb (bool_decide (field 3%nat ∈ [b_of "0"; b_of "1"; b_of "2"; b_of "3"]))
    then Err InvalidIndexRecord
    else if bool_decide (field 0%nat ∈ [b_of "S"; b_of "s"]) then Err SparseWorktreeUnsupported
    else if bool_decide (field 1%nat = b_of "040000") then Err SparseWorktreeUnsupported
    else if bool_decide (field 1%nat = b_of "160000") then Err SubmoduleUnsupported
    else Ok (path, byte_rank (nth 0 (field 3%nat) x00) - 48).

(** One turn of the loop: the stages of each path, as a mask. *)
Definition index_record (f : GitObjectFormat) (limits : GitPathDiscoveryLimits) (paths : list (RepositoryPath * Z)) (record : bytes)
    : result SourceStateError (list (RepositoryPath * Z)) :=
  '(path, stage) ← index_fields f record;
  ordinal ← ok_or (count ← u64_of_len (length paths); u64_checked_add count 1) RecordCountNotRepresentable;
  path ← validate_path path ordinal limits;
  match bmap_get path paths with
  | None =>
      if limit_paths limits <=? Z.of_nat (length paths) then Err (StatusPathLimitExceeded (limit_paths limits))
      else Ok (bmap_insert path (Z.shiftl 1 stage) paths)
  | Some existing =>
      let stage_mask := Z.shiftl 1 stage in
      if negb (Z.land existing stage_mask =? 0) || (stage =? 0) || negb (Z.land existing 1 =? 0) then Err InvalidIndexRecord
      else Ok (bmap_insert path (Z.lor existing stage_mask) paths)
  end.

Definition parse_index_scope (output : bytes) (f : GitObjectFormat) (limits : GitPathDiscoveryLimits) : result SourceStateError () :=
  records ← ok_or (nul_records output) InvalidIndexRecord;
  try_fold (index_record f limits) [] records;;
  Ok ().

(** ** The status *)

Definition parse_ordinary_record (record : bytes) (f : GitObjectFormat) (ordinal : Z) (limits : GitPathDiscoveryLimits)
    : result SourceStateError CanonicalStatusRecord :=
  let fields := split_n 9 space record in
  let field i := nth i fields [] in
  if negb (length fields =? 9)%nat || negb (bool_decide (field 0%nat = b_of "1")) || negb (valid_ordinary_status (field 1%nat))
  then Err InvalidStatusRecord
  else
    valid ← valid_non_submodule_field (field 2%nat);
    if negb valid then Err InvalidStatusRecord
    else
      canonical_fields ← try_fold append_mode (field 1%nat ++ field 2%nat) (take 3 (drop 3 fields));
      canonical_fields ← try_fold (append_object_id f) canonical_fields (take 2 (drop 6 fields));
      path ← validate_path (field 8%nat) ordinal limits;
      Ok {| status_path := path; status_tag := 1; status_fields := canonical_fields |}.

Definition parse_unmerged_record (record : bytes) (f : GitObjectFormat) (ordinal : Z) (limits : GitPathDiscoveryLimits)
    : result SourceStateError CanonicalStatusRecord :=
  let fields := split_n 11 space record in
  let field i := nth i fields [] in
  if negb (length fields =? 11)%nat || negb (bool_decide (field 0%nat = b_of "u")) || negb (valid_unmerged_status (field 1%nat))
  then Err InvalidStatusRecord
  else
    valid ← valid_non_submodule_field (field 2%nat);
    if negb valid then Err InvalidStatusRecord
    else
      canonical_fields ← try_fold append_mode (field 1%nat ++ field 2%nat) (take 4 (drop 3 fields));
      canonical_fields ← try_fold (append_object_id f) canonical_fields (take 3 (drop 7 fields));
      path ← validate_path (field 10%nat) ordinal limits;
      Ok {| status_path := path; status_tag := 2; status_fields := canonical_fields |}.

Definition parse_untracked_record (record : bytes) (ordinal : Z) (limits : GitPathDiscoveryLimits)
    : result SourceStateError CanonicalStatusRecord :=
  path ← ok_or (strip_prefix (b_of "? ") record) InvalidStatusRecord;
  if bool_decide (path = []) then Err InvalidStatusRecord
  else
    path ← validate_path path ordinal limits;
    Ok {| status_path := path; status_tag := 3; status_fields := [] |}.

(** The record by its first byte. *)
Definition parse_status_record (record : bytes) (f : GitObjectFormat) (count : Z) (limits : GitPathDiscoveryLimits)
    : result SourceStateError CanonicalStatusRecord :=
  match record with
  | x31 :: _ => parse_ordinary_record record f count limits
  | x75 :: _ => parse_unmerged_record record f count limits
  | x3f :: _ => parse_untracked_record record count limits
  | _ => Err InvalidStatusRecord
  end.

Definition status_record (f : GitObjectFormat) (limits : GitPathDiscoveryLimits) (s : Z * list CanonicalStatusRecord) (record : bytes)
    : result SourceStateError (Z * list CanonicalStatusRecord) :=
  count ← checked_record_count s.1 limits;
  parsed_record ← parse_status_record record f count limits;
  Ok (count, s.2 ++ [parsed_record]).

Definition status_ordering (left right : CanonicalStatusRecord) : comparison :=
  then_with (path_cmp (status_path left) (status_path right)) (cmp (status_tag left) (status_tag right)).

Definition same_status_path (left right : CanonicalStatusRecord) : bool := path_eqb (status_path left) (status_path right).

Definition parse_status_records (output : bytes) (f : GitObjectFormat) (limits : GitPathDiscoveryLimits)
    : result SourceStateError (list CanonicalStatusRecord) :=
  records ← ok_or (nul_records output) InvalidStatusRecord;
  s ← try_fold (status_record f limits) (0, []) records;
  let parsed := sort_by status_ordering s.2 in
  if any_adjacent same_status_path parsed then Err DuplicateStatusPath else Ok parsed.

(** ** Hashed messages *)

Definition byte_count_u8 (n : nat) : Z := default 255 (checked 255 (Z.of_nat n)).
Definition u64_len (n : nat) : Z := default u64_max (u64_of_len n).

Definition git_state_message (f : GitObjectFormat) (head : option bytes) (shallow : bool) : bytes :=
  GIT_STATE_DOMAIN ++ u32_be_bytes GIT_STATE_VERSION ++ [byte_of (format_tag f)]
  ++ match head with
     | Some object_id => [x01] ++ [byte_of (byte_count_u8 (length object_id))] ++ object_id
     | None => [x00; x00]
     end
  ++ [byte_of (if shallow then 1 else 0)].

Definition record_message (record : CanonicalStatusRecord) : bytes :=
  [byte_of (status_tag record)] ++ u64_be_bytes (u64_len (length (status_fields record))) ++ status_fields record
  ++ u64_be_bytes (u64_len (length (path_bytes (status_path record)))) ++ path_bytes (status_path record).

Definition worktree_state_message (records : list CanonicalStatusRecord) (manifest domain : bytes) (version : Z) : bytes :=
  domain ++ u32_be_bytes version ++ u32_be_bytes GIT_STATUS_PROFILE_VERSION ++ u64_be_bytes (u64_len (length records))
  ++ flat_map record_message records ++ manifest.

Section hashing.
Context {Digest : Type} (sha256 : bytes → Digest).

Definition hash_git_state (f : GitObjectFormat) (head : option bytes) (shallow : bool) : Digest :=
  sha256 (git_state_message f head shallow).

Definition hash_worktree_state_with_profile (records : list CanonicalStatusRecord) (manifest domain : bytes) (version : Z) : Digest :=
  sha256 (worktree_state_message records manifest domain version).

Definition hash_worktree_state (records : list CanonicalStatusRecord) (manifest : bytes) : Digest :=
  hash_worktree_state_with_profile records manifest RUST_WORKTREE_STATE_DOMAIN RUST_WORKTREE_STATE_VERSION.

Record CapturedSourceState := {
  captured_git_state : Digest;
  captured_status_records : list CanonicalStatusRecord;
}.

Definition status_record_count (s : CapturedSourceState) : Z := u64_len (length (captured_status_records s)).
Definition worktree_state (s : CapturedSourceState) (manifest : bytes) : Digest :=
  hash_worktree_state (captured_status_records s) manifest.
Definition source_worktree_state (s : CapturedSourceState) (manifest : bytes) : Digest :=
  hash_worktree_state_with_profile (captured_status_records s) manifest SUPPORTED_LANGUAGES_WORKTREE_STATE_DOMAIN
    SUPPORTED_LANGUAGES_WORKTREE_STATE_VERSION.

(** ** Capture *)

(** Finding the root of the worktree; the output of a Git subprocess with some arguments after
    the sanitized base command, when it must succeed, and its status with its output. *)
Context (discovered_worktree_root : result GitPathDiscoveryError ()).
Context (capture_git_output : list bytes → result GitPathDiscoveryError bytes).
Context (capture_git_output_with_status : list bytes → result GitPathDiscoveryError ((bool * option Z) * bytes)).

Definition object_format_arguments : list bytes := [b_of "rev-parse"; b_of "--show-object-format"].
Definition head_arguments : list bytes :=
  [b_of "rev-parse"; b_of "--verify"; b_of "--quiet"; b_of "--end-of-options"; b_of "HEAD^{commit}"].
Definition shallow_arguments : list bytes := [b_of "rev-parse"; b_of "--is-shallow-repository"].
Definition index_arguments : list bytes :=
  [b_of "ls-files"; b_of "--stage"; b_of "-v"; b_of "-z"; b_of "--full-name"; b_of "--cached"].
Definition status_arguments : list bytes :=
  [b_of "status"; b_of "--porcelain=v2"; b_of "-z"; b_of "--untracked-files=all"; b_of "--ignore-submodules=none"; b_of "--no-renames"].

Definition capture (args : list bytes) : result SourceStateError bytes :=
  map_err Git (capture_git_output args).

Definition capture_object_format : result SourceStateError GitObjectFormat :=
  output ← capture object_format_arguments;
  parse_object_format output.

Definition is_exit_code (code : option Z) (expected : Z) : bool := bool_decide (code = Some expected).

Definition capture_head (f : GitObjectFormat) : result SourceStateError (option bytes) :=
  '((success, code), output) ←
    map_err Git (capture_git_output_with_status head_arguments);
  if (success : bool) then
    line ← ok_or (single_lf_line output) InvalidHead;
    oid ← ok_or (decode_object_id line f) InvalidHead;
    if forallb (λ b, bool_decide (b = x00)) oid then Err InvalidHead else Ok (Some oid)
  else if is_exit_code code 1 && bool_decide (output = []) then Ok None
  else Err (Git (GitUnsuccessful code)).

Definition capture_shallow_state : result SourceStateError bool :=
  output ← capture shallow_arguments;
  parse_shallow_state output.

Definition inspect_index_scope (f : GitObjectFormat) (limits : GitPathDiscoveryLimits) : result SourceStateError () :=
  output ← capture index_arguments;
  parse_index_scope output f limits.

Definition capture_status : result SourceStateError bytes :=
  capture status_arguments.

Definition capture_source_state (limits : GitPathDiscoveryLimits) : ctl SourceStateError CapturedSourceState :=
  check;;
  lift (map_err Git discovered_worktree_root);;
  check;;
  object_format ← lift capture_object_format;
  check;;
  head ← lift (capture_head object_format);
  check;;
  shallow ← lift capture_shallow_state;
  check;;
  lift (inspect_index_scope object_format limits);;
  check;;
  status_output ← lift capture_status;
  status_records ← lift (parse_status_records status_output object_format limits);
  mret {| captured_git_state := hash_git_state object_format head shallow; captured_status_records := status_records |}.
End hashing.

(** ** Fields and records *)

(** Fields with a delimiter between them. *)
Fixpoint join (delimiter : byte) (fields : list bytes) : bytes :=
  match fields with
  | [] => []
  | [field] => field
  | field :: fields => field ++ delimiter :: join delimiter fields
  end.

Lemma join_cons d f fs : fs ≠ [] → join d (f :: fs) = f ++ d :: join d fs.
Proof. by destruct fs. Qed.

Lemma split_once_Some d bs before after : split_once d bs = Some (before, after) ↔ bs = before ++ d :: after ∧ d ∉ before.
Proof.
  revert before after. induction bs as [|b bs IH]; intros before after; simpl; [split; [done|intros [H _]; by destruct before]|].
  case_bool_decide as Hb.
  - subst b. split; [intros [= <- <-]; split; [done|apply not_elem_of_nil]|]. intros [H Hn]. destruct before as [|x before]; [by injection H as ->|].
    injection H as <- _. by destruct Hn; left.
  - destruct (split_once d bs) as [[a c]|] eqn:E.
    + destruct (proj1 (IH a c) eq_refl) as [Hs Hna]. split.
      * intros [= <- <-]. split; [by rewrite Hs|]. by apply not_elem_of_cons.
      * intros [H Hn]. destruct before as [|x before]; [by injection H as -> ->|]. injection H as -> H. apply not_elem_of_cons in Hn as [_ Hn].
        pose proof (proj2 (IH before after) (conj H Hn)) as [= -> ->]. done.
    + split; [done|]. intros [H Hn]. destruct before as [|x before]; [by injection H as ->|]. injection H as -> H.
      apply not_elem_of_cons in Hn as [_ Hn]. by pose proof (proj2 (IH before after) (conj H Hn)).
Qed.

Lemma split_once_None d bs : split_once d bs = None ↔ d ∉ bs.
Proof.
  induction bs as [|b bs IH]; simpl; [split; [intros _; apply not_elem_of_nil|done]|]. rewrite not_elem_of_cons. case_bool_decide; [naive_solver|].
  destruct (split_once d bs) as [[a c]|]; naive_solver.
Qed.

(** [splitn] gives exactly [n] fields when there are enough delimiters. *)
Lemma split_n_join k d bs fs :
  split_n (S k) d bs = fs ∧ length fs = S k ↔ bs = join d fs ∧ length fs = S k ∧ Forall (λ f, d ∉ f) (take k fs).
Proof.
  revert bs fs. induction k as [|k IH]; intros bs fs.
  { cbn [split_n take]. split; [intros [<- _]; split_and!; [done..|constructor]|]. intros (-> & Hl & _). by destruct fs as [|f [|]]. }
  change (split_n (S (S k)) d bs) with
    (match split_once d bs with None => [bs] | Some (before, after) => before :: split_n (S k) d after end).
  destruct fs as [|f fs]; [by split; intros [_ H]; [|destruct H]|]. cbn [take length]. rewrite Forall_cons.
  destruct (split_once d bs) as [[a c]|] eqn:E.
  - apply split_once_Some in E as [-> Ha]. split.
    + intros [[= -> Hs] Hl]. injection Hl as Hl. destruct (proj1 (IH c fs) (conj Hs Hl)) as (-> & _ & Hf).
      rewrite join_cons by (by intros ->). split_and!; [done|by rewrite Hl|done..].
    + intros (Hb & Hl & Hnf & Hf). injection Hl as Hl. rewrite join_cons in Hb by (by intros ->).
      assert (split_once d (f ++ d :: join d fs) = Some (f, join d fs)) as Hs1 by (by apply split_once_Some).
      assert (split_once d (a ++ d :: c) = Some (a, c)) as Hs2 by (by apply split_once_Some). rewrite Hb, Hs1 in Hs2. injection Hs2 as -> <-.
      destruct (proj2 (IH (join d fs) fs)) as [-> _]; [done|]. by rewrite Hl.
  - apply split_once_None in E. split; [intros [[= <- <-] Hl]; done|]. intros (-> & Hl & _). destruct E. rewrite join_cons by (intros ->; done).
    apply elem_of_app. right. by left.
Qed.

Lemma terminated_join d fs : fs ≠ [] → terminated d fs = join d fs ++ [d].
Proof.
  intros Hne. induction fs as [|f fs IH]; [done|]. destruct fs as [|f' fs]; [unfold terminated; simpl; by rewrite app_nil_r|].
  rewrite join_cons by done. change (terminated d (f :: f' :: fs)) with ((f ++ [d]) ++ terminated d (f' :: fs)). rewrite IH by done.
  by rewrite <- !app_assoc.
Qed.

Lemma split_byte_join d bs fs : split_byte d bs = fs ↔ fs ≠ [] ∧ bs = join d fs ∧ Forall (λ f, d ∉ f) fs.
Proof.
  split.
  - intros <-. split_and!; [apply split_byte_nonempty| |apply Forall_forall; intros f; apply split_byte_no_delimiter].
    pose proof (terminated_split d bs) as H. rewrite terminated_join in H by apply split_byte_nonempty. by apply app_inj_tail in H as [-> _].
  - intros (Hne & -> & Hf). destruct (split_terminated d fs Hne Hf) as (body & Hb & Hs). apply strip_last_Some in Hb.
    rewrite terminated_join in Hb by done. by apply app_inj_tail in Hb as [-> _].
Qed.

Lemma nul_collect_split fuel bs :
  (length bs < fuel)%nat → Forall (λ r, r ≠ []) (split_byte nul bs) → nul_collect fuel (Some bs) = split_byte nul bs.
Proof.
  revert bs. induction fuel as [|fuel IH]; intros bs Hl Hf; [lia|]. cbn [nul_collect]. unfold nul_next.
  destruct bs as [|b bs0] eqn:Ebs; [by inversion_clear Hf|]. rewrite <- Ebs in *. destruct (split_once nul bs) as [[a c]|] eqn:E.
  - apply split_once_Some in E as [Hbs Ha]. rewrite Hbs, split_byte_app in * by done. inversion_clear Hf as [|? ? _ Hf'].
    rewrite IH; [done| |done]. rewrite length_app in Hl. simpl in Hl. lia.
  - apply split_once_None in E. rewrite split_byte_single by done. f_equal. by destruct fuel.
Qed.

Lemma nul_records_spec output rs :
  nul_records output = Some rs ↔ output = terminated nul rs ∧ Forall (λ r, r ≠ [] ∧ nul ∉ r) rs.
Proof.
  unfold nul_records. case_bool_decide as He.
  { subst output. simpl. split; [intros [= <-]; by split|]. intros [Ht Hf]. destruct rs as [|r rs]; [done|].
    unfold terminated in Ht. simpl in Ht. by destruct r. }
  destruct (strip_last nul output) as [body|] eqn:Eb; cbn [mbind option_bind].
  - assert (length body < S (length output))%nat as Hlen by (apply strip_last_Some in Eb; rewrite Eb, length_app; simpl; lia).
    destruct (existsb _ _) eqn:Ee.
    + split; [done|]. intros [-> Hf]. destruct rs as [|r rs]; [done|].
      destruct (split_terminated nul (r :: rs)) as (body' & Hb & Hs); [done|by eapply Forall_impl; [exact Hf|]; intros ? []|].
      rewrite Hb in Eb. injection Eb as ->. rewrite Hs in Ee. apply existsb_exists in Ee as (x & Hx & He'%bool_decide_eq_true). subst x.
      rewrite Forall_forall in Hf. apply list_elem_of_In in Hx. by destruct (Hf [] Hx).
    + assert (Forall (λ r, r ≠ []) (split_byte nul body)) as Hne.
      { apply Forall_forall. intros r Hr ->. apply not_true_iff_false in Ee. destruct Ee. apply existsb_exists. exists []. split; [by apply list_elem_of_In|done]. }
      rewrite nul_collect_split by done. pose proof (strip_last_Some nul output body) as [Hs _]. specialize (Hs Eb). split.
      * intros [= <-]. rewrite terminated_split. split; [done|]. apply Forall_forall. intros r Hr. rewrite Forall_forall in Hne.
        split; [by apply Hne|by apply (split_byte_no_delimiter nul body)].
      * intros [Ht Hf]. f_equal. destruct rs as [|r rs]; [by rewrite Ht in He|].
        destruct (split_terminated nul (r :: rs)) as (body' & Hb & Hs'); [done|by eapply Forall_impl; [exact Hf|]; intros ? []|].
        rewrite <- Ht, Eb in Hb. by injection Hb as <-.
  - split; [done|]. intros [-> Hf]. destruct rs as [|r rs]; [done|].
    destruct (split_terminated nul (r :: rs)) as (body' & Hb & Hs); [done|by eapply Forall_impl; [exact Hf|]; intros ? []|]. congruence.
Qed.

(** ** What the fields say *)

(** A case for each literal of a list. *)
Ltac literals H := rewrite ?elem_of_cons, elem_of_nil in H; repeat destruct H as [->|H]; [..|destruct H].

Definition mode_ok (field : bytes) : Prop := field ∈ [b_of "000000"; b_of "100644"; b_of "100755"; b_of "120000"].
Definition mode_bytes (field : bytes) : bytes := u32_be_bytes (default 0 (octal 0 field)).
Definition oid_bytes (f : GitObjectFormat) (oid : bytes) : bytes := [byte_of (format_tag f); byte_of (len oid)] ++ oid.

Lemma append_mode_spec target field r : append_mode target field = Ok r ↔ mode_ok field ∧ r = target ++ mode_bytes field.
Proof.
  unfold append_mode, parse_mode, mode_ok, mode_bytes. destruct (decide (field ∈ modes)) as [Hm|Hm];
    [rewrite (bool_decide_eq_true_2 _ Hm)|rewrite (bool_decide_eq_false_2 _ Hm)].
  - unfold modes in Hm. literals Hm; simpl;
      (split; [intros [= <-]; split; [by apply (bool_decide_unpack _)|done]|by intros [_ ->]]) ||
      (split; [done|intros [H _]; by apply (bool_decide_pack _) in H]).
  - split; [done|]. intros [H _]. destruct Hm. unfold modes. literals H; by apply (bool_decide_unpack _).
Qed.

Lemma append_modes_spec fields target r :
  try_fold append_mode target fields = Ok r ↔ Forall mode_ok fields ∧ r = target ++ flat_map mode_bytes fields.
Proof.
  revert target. induction fields as [|field fields IH]; intros target; cbn [try_fold flat_map].
  - rewrite app_nil_r. split; [by intros [= <-]|by intros [_ ->]].
  - rewrite bind_Ok, Forall_cons. split.
    + intros (t & [Hm ->]%append_mode_spec & [Hf ->]%IH). by rewrite app_assoc.
    + intros [[Hm Hf] ->]. exists (target ++ mode_bytes field). split; [by apply append_mode_spec|]. apply IH. by rewrite app_assoc.
Qed.

(** Object identities are lowercase hexadecimal. *)
Lemma lor_nibbles high low : 0 ≤ low < 16 → Z.lor (Z.shiftl high 4) low = high * 16 + low.
Proof.
  intros Hl. assert (Z.land (Z.shiftl high 4) low = 0) as H0.
  { apply Z.bits_inj'. intros n Hn. rewrite Z.land_spec, Z.shiftl_spec, Z.bits_0 by done. destruct (Z.ltb_spec n 4) as [Hlt|Hge].
    - by rewrite Z.testbit_neg_r by lia.
    - rewrite <- (Z.mod_small low (2 ^ 4)) by lia. by rewrite Z.mod_pow2_bits_high, andb_false_r by lia. }
  rewrite <- Z.lxor_lor, <- Z.add_nocarry_lxor by done. by rewrite Z.shiftl_mul_pow2.
Qed.

Lemma decode_pairs_hex field : decode_pairs field = lower_hex_pairs field.
Proof.
  induction field as [|x|h l field IH] using pair_ind; [done..|]. cbn [decode_pairs lower_hex_pairs].
  change decode_nibble with decode_lower_hex_nibble. destruct (decode_lower_hex_nibble h) as [high|] eqn:Eh; [|done].
  apply lower_hex_nibble_inv in Eh as [Hh _]. cbn [mbind option_bind]. rewrite checked_in by lia. cbn [mbind option_bind].
  destruct (decode_lower_hex_nibble l) as [low|] eqn:El; [|done]. apply lower_hex_nibble_inv in El as [Hl _].
  cbn [mbind option_bind]. rewrite checked_in by lia. cbn [mbind option_bind]. rewrite IH.
  assert (Z.lor (Z.shiftl high 4) low = high * 16 + low) as ->; [|done].
  by rewrite lor_nibbles by lia.
Qed.

Definition hex_digit (b : byte) : bool :=
  ((48 <=? byte_rank b) && (byte_rank b <=? 57)) || ((97 <=? byte_rank b) && (byte_rank b <=? 102)).

Lemma hex_byte_digits b : forallb hex_digit (lower_hex_byte b) = true.
Proof. by destruct b. Qed.

Lemma encode_hex_digits bs : forallb hex_digit (encode_lower_hex bs) = true.
Proof.
  induction bs as [|b bs IH]; [done|]. unfold encode_lower_hex. cbn [flat_map]. rewrite forallb_app, hex_byte_digits. exact IH.
Qed.

Lemma encode_hex_avoids b bs : hex_digit b = false → b ∉ encode_lower_hex bs.
Proof.
  intros Hb Hin. pose proof (encode_hex_digits bs) as H. rewrite forallb_forall in H. apply list_elem_of_In in Hin. by rewrite (H b Hin) in Hb.
Qed.

Lemma decode_object_id_spec field f oid :
  decode_object_id field f = Some oid ↔ length oid = object_id_bytes f ∧ field = encode_lower_hex oid.
Proof.
  rewrite <- decode_lower_hex_Some. unfold decode_object_id, decode_lower_hex. rewrite decode_pairs_hex.
  destruct (negb (length field =? _)%nat) eqn:El; [done|]. cbn [orb]. change (forallb _ field) with (forallb hex_digit field).
  destruct (forallb hex_digit field) eqn:Eh; [done|]. cbn [negb]. split; [done|]. intros H.
  apply lower_hex_pairs_Some in H as ->; [by rewrite encode_hex_digits in Eh|].
  apply negb_false_iff, Nat.eqb_eq in El. rewrite El, Nat.even_mul. by apply orb_true_r.
Qed.

Lemma append_object_id_spec f target field r :
  append_object_id f target field = Ok r ↔
  ∃ oid, length oid = object_id_bytes f ∧ field = encode_lower_hex oid ∧ r = target ++ oid_bytes f oid.
Proof.
  unfold append_object_id. destruct (decode_object_id field f) as [oid|] eqn:E; rstep.
  - apply decode_object_id_spec in E as [Hl ->]. unfold len at 1. rewrite checked_in by (rewrite Hl; destruct f; simpl; lia). rstep. split.
    + intros [= <-]. by exists oid.
    + intros (oid' & Hl' & Henc & ->). pose proof (lower_hex_pairs_encode oid) as H1. rewrite Henc, lower_hex_pairs_encode in H1. injection H1 as ->. done.
  - split; [done|]. intros (oid & Hl & -> & _). by rewrite (proj2 (decode_object_id_spec _ f oid)) in E.
Qed.

Lemma append_object_ids_spec f fields target r :
  try_fold (append_object_id f) target fields = Ok r ↔
  ∃ oids, Forall (λ oid, length oid = object_id_bytes f) oids ∧ fields = encode_lower_hex <$> oids ∧ r = target ++ flat_map (oid_bytes f) oids.
Proof.
  revert target. induction fields as [|field fields IH]; intros target; cbn [try_fold flat_map].
  - split; [intros [= <-]; exists []; cbn [flat_map]; by rewrite app_nil_r|]. intros ([|oid oids] & _ & Hf & ->); [by rewrite app_nil_r|done].
  - rewrite bind_Ok. split.
    + intros (t & (oid & Hl & -> & ->)%append_object_id_spec & (oids & Ho & -> & ->)%IH). exists (oid :: oids).
      split_and!; [by constructor|done|]. cbn [flat_map]. by rewrite <- app_assoc.
    + intros ([|oid oids] & Ho & Hf & ->); [done|]. apply Forall_cons in Ho as [Hl Ho]. injection Hf as -> ->.
      exists (target ++ oid_bytes f oid). split; [apply append_object_id_spec; eauto|]. apply IH. exists oids. split_and!; [done..|].
      cbn [flat_map]. by rewrite <- app_assoc.
Qed.

Lemma non_submodule_spec field : valid_non_submodule_field field = Ok true ↔ field = b_of "N...".
Proof.
  unfold valid_non_submodule_field. split; [|by intros ->]. destruct (negb _); [done|]. destruct (bool_decide (head field = _)); [done|].
  intros [= H]. by apply bool_decide_eq_true in H.
Qed.

Lemma mode_no_space field : mode_ok field → space ∉ field.
Proof. unfold mode_ok. intros H Hs. literals H; by apply (bool_decide_pack _) in Hs. Qed.

Lemma mode_no_nul field : mode_ok field → nul ∉ field.
Proof. unfold mode_ok. intros H Hs. literals H; by apply (bool_decide_pack _) in Hs. Qed.

Definition valid_status (unmerged : bool) : bytes → bool := if unmerged then valid_unmerged_status else valid_ordinary_status.

(** A status is two letters. *)
Lemma valid_status_letters u xy : valid_status u xy = true → length xy = 2%nat ∧ space ∉ xy ∧ nul ∉ xy.
Proof.
  destruct u; unfold valid_status.
  - unfold valid_unmerged_status. intros H%bool_decide_eq_true.
    literals H; by apply (bool_decide_unpack _).
  - unfold valid_ordinary_status. destruct xy as [|x [|y [|]]]; [done..| |done].
    intros [[Hx%bool_decide_eq_true Hy%bool_decide_eq_true]%andb_prop _]%andb_prop. split; [done|].
    assert (∀ (l : bytes) z b, bool_decide (b ∈ l) = false → z ∈ l → b ≠ z) as Hne.
    { intros l z b Hb Hin ->. by apply bool_decide_eq_false in Hb. }
    split; (apply not_elem_of_cons; split; [by apply (Hne (b_of ".MTADRC"))|]; apply not_elem_of_cons; split; [by apply (Hne (b_of ".MTDRC"))|apply not_elem_of_nil]).
Qed.
