(* ===== verification/SourceStatus.v ===== *)
(** * Status records and receipts

    Proofs about [SourceState]: what the status parser accepts, and what the hashed receipts
    identify. *)

From Stdlib Require Import ZArith Lia ZifyBool.
From Stdlib Require Import Strings.Byte.
From stdpp Require Import base numbers sorting list.
From S2P Require Import Prelude Ordering RepositoryPath PathText IdentityText GitPaths SourceState.

Open Scope Z_scope.

(** ** Status entries

    What a record of the status says, how Git prints it and what its canonical record is. *)

Inductive StatusEntry :=
| TrackedEntry (unmerged : bool) (xy : bytes) (modes oids : list bytes) (path : RepositoryPath)
| UntrackedEntry (path : RepositoryPath).

Definition entry_path (e : StatusEntry) : RepositoryPath :=
  match e with TrackedEntry _ _ _ _ p | UntrackedEntry p => p end.

Definition mode_count (unmerged : bool) : nat := if unmerged then 4 else 3.
Definition oid_count (unmerged : bool) : nat := if unmerged then 3 else 2.

Definition entry_fields (unmerged : bool) (xy : bytes) (ms oids : list bytes) (p : RepositoryPath) : list bytes :=
  b_of (if unmerged then "u" else "1") :: xy :: b_of "N..." :: ms ++ (encode_lower_hex <$> oids) ++ [path_bytes p].

Definition render (e : StatusEntry) : bytes :=
  match e with
  | TrackedEntry u xy ms oids p => join space (entry_fields u xy ms oids p)
  | UntrackedEntry p => b_of "? " ++ path_bytes p
  end.

Definition entry_valid (f : GitObjectFormat) (limits : GitPathDiscoveryLimits) (e : StatusEntry) : Prop :=
  admitted limits (entry_path e)
  ∧ match e with
    | TrackedEntry u xy ms oids _ =>
        valid_status u xy = true ∧ length ms = mode_count u ∧ Forall mode_ok ms
        ∧ length oids = oid_count u ∧ Forall (λ oid, length oid = object_id_bytes f) oids
    | UntrackedEntry _ => True
    end.

Definition canonical (f : GitObjectFormat) (e : StatusEntry) : CanonicalStatusRecord :=
  match e with
  | TrackedEntry u xy ms oids p =>
      {| status_path := p; status_tag := if u then 2 else 1;
         status_fields := (xy ++ b_of "N...") ++ flat_map mode_bytes ms ++ flat_map (oid_bytes f) oids |}
  | UntrackedEntry p => {| status_path := p; status_tag := 3; status_fields := [] |}
  end.

Lemma wf_nonempty p : wf p → path_bytes p ≠ [].
Proof. intros [Hc _ _ _] He. unfold components in Hc. rewrite He in Hc. simpl in Hc. apply Forall_cons in Hc as [[Hn _] _]. done. Qed.

(** The two parsers of tracked records differ in their counts. *)
Definition parse_tracked (u : bool) (record : bytes) (f : GitObjectFormat) (ordinal : Z) (limits : GitPathDiscoveryLimits)
    : result SourceStateError CanonicalStatusRecord :=
  let fields := split_n (S (3 + mode_count u + oid_count u)) space record in
  let field i := nth i fields [] in
  if negb (length fields =? S (3 + mode_count u + oid_count u))%nat || negb (bool_decide (field 0%nat = b_of (if u then "u" else "1")))
     || negb (valid_status u (field 1%nat))
  then Err InvalidStatusRecord
  else
    valid ← valid_non_submodule_field (field 2%nat);
    if negb valid then Err InvalidStatusRecord
    else
      canonical_fields ← try_fold append_mode (field 1%nat ++ field 2%nat) (take (mode_count u) (drop 3 fields));
      canonical_fields ← try_fold (append_object_id f) canonical_fields (take (oid_count u) (drop (3 + mode_count u) fields));
      path ← validate_path (field (3 + mode_count u + oid_count u)%nat) ordinal limits;
      Ok {| status_path := path; status_tag := if u then 2 else 1; status_fields := canonical_fields |}.

Lemma parse_ordinary_tracked record f ordinal limits :
  parse_ordinary_record record f ordinal limits = parse_tracked false record f ordinal limits.
Proof. reflexivity. Qed.
Lemma parse_unmerged_tracked record f ordinal limits :
  parse_unmerged_record record f ordinal limits = parse_tracked true record f ordinal limits.
Proof. reflexivity. Qed.

Lemma fields_shape (fs : list bytes) nm no :
  length fs = S (3 + nm + no) →
  fs = nth 0 fs [] :: nth 1 fs [] :: nth 2 fs [] :: take nm (drop 3 fs) ++ take no (drop (3 + nm) fs) ++ [nth (3 + nm + no) fs []]
  ∧ length (take nm (drop 3 fs)) = nm ∧ length (take no (drop (3 + nm) fs)) = no.
Proof.
  destruct fs as [|a [|b [|c fs]]]; [done..|]. simpl. intros Hl. rewrite drop_0, !length_take, !length_drop. split; [|lia]. do 3 f_equal.
  rewrite <- (take_drop nm fs) at 1. f_equal. rewrite <- (take_drop no (drop nm fs)) at 1. f_equal. rewrite drop_drop.
  destruct (drop (nm + no) fs) as [|z [|]] eqn:E.
  - apply (f_equal length) in E. rewrite length_drop in E. simpl in E. lia.
  - f_equal. rewrite <- (take_drop (nm + no) fs), E. rewrite app_nth2; rewrite length_take, Nat.min_l by lia; [|lia]. by rewrite Nat.sub_diag.
  - apply (f_equal length) in E. rewrite length_drop in E. simpl in E. lia.
Qed.

Lemma entry_fields_length u xy ms oids p :
  length ms = mode_count u → length oids = oid_count u → length (entry_fields u xy ms oids p) = S (3 + mode_count u + oid_count u).
Proof. intros Hm Ho. unfold entry_fields. simpl. rewrite !length_app, length_fmap, Hm, Ho. simpl. lia. Qed.

Lemma entry_fields_parts u xy ms oids p :
  length ms = mode_count u → length oids = oid_count u →
  let fs := entry_fields u xy ms oids p in
  take (mode_count u) (drop 3 fs) = ms ∧ take (oid_count u) (drop (3 + mode_count u) fs) = encode_lower_hex <$> oids
  ∧ nth (3 + mode_count u + oid_count u) fs [] = path_bytes p
  ∧ take (3 + mode_count u + oid_count u) fs = b_of (if u then "u" else "1") :: xy :: b_of "N..." :: ms ++ (encode_lower_hex <$> oids).
Proof.
  intros Hm Ho. assert (length (encode_lower_hex <$> oids) = oid_count u) as Ho' by by rewrite length_fmap.
  unfold entry_fields. cbn [Nat.add skipn firstn nth]. rewrite drop_0, (take_app_length' ms _ (mode_count u)), (drop_app_length' ms _ (mode_count u)) by done.
  rewrite (take_app_length' (encode_lower_hex <$> oids) _ (oid_count u)) by done. split_and!; [done|done| |].
  - rewrite app_assoc, app_nth2; rewrite length_app, Hm, Ho'; [|lia]. by rewrite Nat.sub_diag.
  - do 3 f_equal. rewrite app_assoc. apply take_app_length'. by rewrite length_app, Hm, Ho'.
Qed.

Lemma tracked_no_space f limits u xy ms oids p :
  entry_valid f limits (TrackedEntry u xy ms oids p) →
  Forall (λ fl, space ∉ fl) (b_of (if u then "u" else "1") :: xy :: b_of "N..." :: ms ++ (encode_lower_hex <$> oids)).
Proof.
  intros (_ & Hxy & _ & Hms & _ & _). apply valid_status_letters in Hxy as (_ & Hxy & _). repeat apply Forall_cons_2.
  - destruct u; by apply (bool_decide_unpack _).
  - done.
  - by apply (bool_decide_unpack _).
  - apply Forall_app_2; [eapply Forall_impl; [exact Hms|]; apply mode_no_space|]. apply Forall_fmap, Forall_forall. intros oid _. by apply encode_hex_avoids.
Qed.

Lemma validate_path_spec limits bs ordinal p :
  validate_path bs ordinal limits = Ok p ↔ admitted limits p ∧ path_bytes p = bs.
Proof.
  unfold validate_path, admitted. rewrite map_err_Ok, try_from_bytes_spec. split; [by intros (? & <- & ?)|by intros [[? ?] <-]].
Qed.

Lemma parse_tracked_spec u record f ordinal limits r :
  parse_tracked u record f ordinal limits = Ok r ↔
  ∃ xy ms oids p, entry_valid f limits (TrackedEntry u xy ms oids p) ∧ record = render (TrackedEntry u xy ms oids p)
                  ∧ r = canonical f (TrackedEntry u xy ms oids p).
Proof.
  unfold parse_tracked. cbv zeta. set (fs := split_n _ space record). split.
  - destruct (negb _ || _ || _) eqn:Eg; [done|]. apply orb_false_iff in Eg as [[Hl%negb_false_iff%Nat.eqb_eq H0%negb_false_iff%bool_decide_eq_true]%orb_false_iff Hxy%negb_false_iff].
    rewrite bind_Ok. intros (valid & Hv & Hr). destruct valid; [|done]. apply non_submodule_spec in Hv. cbn [negb] in Hr.
    apply bind_Ok in Hr as (cf & [Hms ->]%append_modes_spec & Hr). apply bind_Ok in Hr as (cf & (oids & Hos & Heq & ->)%append_object_ids_spec & Hr).
    apply bind_Ok in Hr as (p & [Ha Hp]%validate_path_spec & [= <-]).
    destruct (fields_shape fs _ _ Hl) as (Hfs & Hnm & Hno). set (ms := take (mode_count u) (drop 3 fs)) in *.
    exists (nth 1 fs []), ms, oids, p. split_and!.
    + split; [done|]. split_and!; [done..| |done]. rewrite Heq, length_fmap in Hno. done.
    + pose proof (proj1 (split_n_join (3 + mode_count u + oid_count u) space record fs) (conj eq_refl Hl)) as (Hj & _ & _).
      rewrite Hj, Hfs at 1. cbn [render]. unfold entry_fields. by rewrite H0, Hv, Heq, Hp.
    + cbn [canonical]. by rewrite Hv, <- !app_assoc.
  - intros (xy & ms & oids & p & Hval & -> & ->). pose proof Hval as (Ha & Hxy & Hnm & Hms & Hno & Hos). cbn [entry_path] in Ha.
    destruct (entry_fields_parts u xy ms oids p Hnm Hno) as (Hpm & Hpo & Hpp & Hpt).
    assert (fs = entry_fields u xy ms oids p) as Hfs.
    { apply (proj2 (split_n_join (3 + mode_count u + oid_count u) space (render (TrackedEntry u xy ms oids p)) (entry_fields u xy ms oids p))).
      split_and!; [done|by apply entry_fields_length|]. rewrite Hpt. by eapply tracked_no_space. }
    clearbody fs. subst fs. rewrite entry_fields_length, Nat.eqb_refl, Hpm, Hpo, Hpp by done.
    change (nth 0 (entry_fields u xy ms oids p) []) with (b_of (if u then "u" else "1")).
    change (nth 1 (entry_fields u xy ms oids p) []) with xy. change (nth 2 (entry_fields u xy ms oids p) []) with (b_of "N...").
    rewrite bool_decide_eq_true_2, Hxy by done. cbn [negb orb]. rewrite (proj2 (non_submodule_spec _)) by done. rstep. cbn [negb]. cbv iota.
    rewrite (proj2 (append_modes_spec ms _ _)) by (split; [done|reflexivity]). rstep.
    rewrite (proj2 (append_object_ids_spec f _ _ _)) by (exists oids; split_and!; [done|done|reflexivity]). rstep.
    rewrite (proj2 (validate_path_spec limits _ ordinal p)) by done. rstep. cbn [canonical]. by rewrite <- !app_assoc.
Qed.

Lemma parse_untracked_spec record f ordinal limits r :
  parse_untracked_record record ordinal limits = Ok r ↔
  ∃ p, entry_valid f limits (UntrackedEntry p) ∧ record = render (UntrackedEntry p) ∧ r = canonical f (UntrackedEntry p).
Proof.
  unfold parse_untracked_record. destruct (strip_prefix _ record) as [path|] eqn:E; rstep.
  - apply strip_prefix_Some in E as ->. case_bool_decide as Hp.
    + subst path. split; [done|]. intros (p & [[Hw _] _] & Hr & _). cbn [render] in Hr. apply app_inv_head in Hr.
      pose proof (wf_nonempty p Hw) as Hne. by rewrite <- Hr in Hne.
    + rewrite bind_Ok. split.
      * intros (p & [Ha Hb]%validate_path_spec & [= <-]). exists p. split_and!; [by split|cbn [render]; by rewrite Hb|done].
      * intros (p & [Ha _] & Hr & ->). cbn [render] in Hr. apply app_inv_head in Hr. exists p. split; [by apply validate_path_spec|done].
  - split; [done|]. intros (p & _ & -> & _). cbn [render] in E. by rewrite (proj2 (strip_prefix_Some _ _ (path_bytes p))) in E.
Qed.

(** ** The status as a whole *)

Lemma render_head e : ∃ rest, render e = match e with TrackedEntry u _ _ _ _ => if u then x75 else x31 | UntrackedEntry _ => x3f end :: rest.
Proof. destruct e as [u xy ms oids p|p]; [|by eexists]. unfold render, entry_fields. rewrite join_cons by done. destruct u; by eexists. Qed.

Lemma parse_status_record_spec record f count limits r :
  parse_status_record record f count limits = Ok r ↔ ∃ e, entry_valid f limits e ∧ record = render e ∧ r = canonical f e.
Proof.
  split.
  - intros H. assert (parse_tracked false record f count limits = Ok r ∨ parse_tracked true record f count limits = Ok r
                      ∨ parse_untracked_record record count limits = Ok r) as Hor.
    { rewrite <- parse_ordinary_tracked, <- parse_unmerged_tracked. unfold parse_status_record in H. destruct record as [|b rest]; [done|].
      destruct b; try discriminate H; auto. }
    destruct Hor as [Hr|[Hr|Hr]].
    + apply parse_tracked_spec in Hr as (xy & ms & oids & p & ?). eauto.
    + apply parse_tracked_spec in Hr as (xy & ms & oids & p & ?). eauto.
    + apply (parse_untracked_spec record f) in Hr as (p & ?). eauto.
  - intros (e & Hv & -> & ->). destruct (render_head e) as [rest Hh]. unfold parse_status_record. rewrite Hh. destruct e as [[|] xy ms oids p|p]; rewrite <- Hh.
    + rewrite parse_unmerged_tracked. apply parse_tracked_spec. eauto 10.
    + rewrite parse_ordinary_tracked. apply parse_tracked_spec. eauto 10.
    + apply (parse_untracked_spec _ f). eauto.
Qed.

Lemma status_record_spec f limits n acc record s :
  0 ≤ n → in_u64 (limit_paths limits) →
  status_record f limits (n, acc) record = Ok s ↔
  ∃ e, entry_valid f limits e ∧ record = render e ∧ n + 1 ≤ limit_paths limits ∧ s = (n + 1, acc ++ [canonical f e]).
Proof.
  intros Hn [_ Hlim]. unfold status_record, checked_record_count, u64_checked_add. cbn [fst snd]. rewrite bind_Ok. split.
  - intros (c & Hc & Hr). destruct (checked _ _) as [c'|] eqn:E; [|done]. apply checked_Some in E as [-> _]. cbn [mbind result_bind ok_or] in Hc.
    destruct (Z.ltb_spec (limit_paths limits) (n + 1)); [done|]. injection Hc as <-.
    apply bind_Ok in Hr as (r & (e & Hv & -> & ->)%parse_status_record_spec & [= <-]). eauto 10.
  - intros (e & Hv & -> & Hle & ->). exists (n + 1). rewrite checked_in by lia. rstep. rewrite (proj2 (Z.ltb_ge _ _)) by done. split; [done|].
    rewrite (proj2 (parse_status_record_spec _ _ _ _ (canonical f e))) by eauto. done.
Qed.

Lemma status_fold_spec f limits records n acc s :
  0 ≤ n → in_u64 (limit_paths limits) →
  try_fold (status_record f limits) (n, acc) records = Ok s ↔
  ∃ es, Forall (entry_valid f limits) es ∧ records = render <$> es ∧ (es = [] ∨ n + Z.of_nat (length es) ≤ limit_paths limits)
        ∧ s = (n + Z.of_nat (length es), acc ++ (canonical f <$> es)).
Proof.
  intros Hn Hlim. revert n acc Hn. induction records as [|record records IH]; intros n acc Hn; cbn [try_fold].
  - split.
    + intros [= <-]. exists []. split_and!; [constructor|done|by left|]. simpl. by rewrite Z.add_0_r, app_nil_r.
    + intros ([|e es] & _ & Hr & _ & ->); [|done]. simpl. by rewrite Z.add_0_r, app_nil_r.
  - rewrite bind_Ok. split.
    + intros (s' & (e & Hv & -> & Hle & ->)%status_record_spec & (es & Hes & -> & Hn' & ->)%IH); [|lia|done..].
      exists (e :: es). split_and!; [by constructor|done| |].
      * right. cbn [length]. destruct Hn' as [->|Hn']; [simpl; lia|lia].
      * cbn [length]. rewrite fmap_cons, <- app_assoc. f_equal. lia.
    + intros ([|e es] & Hes & Hr & Hn' & ->); [done|]. apply Forall_cons in Hes as [He Hes]. injection Hr as -> ->.
      destruct Hn' as [|Hn']; [done|]. cbn [length] in Hn'. exists (n + 1, acc ++ [canonical f e]). split.
      * apply status_record_spec; [done..|]. exists e. split_and!; [done..|lia|done].
      * apply IH; [lia|]. exists es. split_and!; [done..|right; lia|]. cbn [length]. rewrite fmap_cons, <- app_assoc. f_equal. lia.
Qed.

Lemma render_no_nul f limits e : entry_valid f limits e → render e ≠ [] ∧ nul ∉ render e.
Proof.
  intros Hv. destruct (render_head e) as [rest Hh]. split; [by rewrite Hh|]. pose proof Hv as [[Hw _] Hrest]. apply wf_no_nul in Hw.
  destruct e as [u xy ms oids p|p]; cbn [render entry_path] in *.
  - destruct Hrest as (Hxy & _ & Hms & _ & _). apply valid_status_letters in Hxy as (_ & _ & Hxy).
    assert (Forall (λ fl, nul ∉ fl) (entry_fields u xy ms oids p)) as Hf.
    { unfold entry_fields. repeat apply Forall_cons_2; [destruct u; by apply (bool_decide_unpack _)|done|by apply (bool_decide_unpack _)|].
      repeat apply Forall_app_2; [eapply Forall_impl; [exact Hms|]; apply mode_no_nul|apply Forall_fmap, Forall_forall; intros oid _; by apply encode_hex_avoids|].
      by apply Forall_singleton. }
    clear -Hf. induction Hf as [|fl fs Hfl Hf IH]; [apply not_elem_of_nil|]. destruct fs as [|fl' fs]; [done|].
    rewrite join_cons by done. intros [Hin|[Hin|Hin]%elem_of_cons]%elem_of_app; [done|done|by apply IH].
  - intros [Hin|Hin]%elem_of_app; [by apply (bool_decide_pack _) in Hin|done].
Qed.

Lemma status_path_canonical f e : status_path (canonical f e) = entry_path e.
Proof. by destruct e. Qed.

Lemma status_tag_range f e : 0 ≤ status_tag (canonical f e) < 256.
Proof. destruct e as [[|]|]; simpl; lia. Qed.

#[export] Instance status_ordering_comparator : Comparator status_ordering.
Proof. exact (comparator_by (B := bytes * Z) (λ r, (path_bytes (status_path r), status_tag r))). Qed.

(** Sorted by path and tag, records of distinct paths are sorted by path. *)
Lemma duplicate_status rs :
  any_adjacent same_status_path (sort_by status_ordering rs) = false ↔ NoDup (map (λ r, path_bytes (status_path r)) rs).
Proof.
  assert (∀ x y, same_status_path x y = true ↔ path_bytes (status_path x) = path_bytes (status_path y)) as Hsame.
  { intros x y. unfold same_status_path, path_eqb. by rewrite bool_decide_eq_true. }
  assert (StronglySorted (cle (λ x y, cmp (path_bytes (status_path x)) (path_bytes (status_path y)))) (sort_by status_ordering rs)) as Hs.
  { eapply sorted_weaken; [|apply sort_by_sorted, _]. intros x y. unfold cle, status_ordering, path_cmp, then_with.
    by destruct (cmp (path_bytes _) (path_bytes _)). }
  rewrite (any_adjacent_keys (λ r, path_bytes (status_path r)) same_status_path Hsame) by done. split.
  - intros Hk%bset_wf_NoDup. by rewrite (sort_by_perm status_ordering rs) in Hk.
  - intros Hnd. apply (sorted_distinct_keys (λ r, path_bytes (status_path r))); [done|].
    by rewrite (sort_by_perm status_ordering rs).
Qed.

(** The entries of a status: valid, of distinct paths, within the limit. *)
Record entries_wf (f : GitObjectFormat) (limits : GitPathDiscoveryLimits) (es : list StatusEntry) : Prop := {
  entries_valid : Forall (entry_valid f limits) es;
  entries_distinct : NoDup (map (λ e, path_bytes (entry_path e)) es);
  entries_count : Z.of_nat (length es) ≤ limit_paths limits;
}.

(** The canonical records of a status. *)
Definition canonical_records (f : GitObjectFormat) (es : list StatusEntry) : list CanonicalStatusRecord :=
  sort_by status_ordering (map (canonical f) es).

Lemma canonical_paths f es :
  map (λ r, path_bytes (status_path r)) (map (canonical f) es) = map (λ e, path_bytes (entry_path e)) es.
Proof. rewrite map_map. apply map_ext. intros e. by rewrite status_path_canonical. Qed.

Lemma status_records_spec output f limits rs :
  git_limits_wf limits →
  parse_status_records output f limits = Ok rs ↔
  ∃ es, output = terminated nul (map render es) ∧ entries_wf f limits es ∧ rs = canonical_records f es.
Proof.
  intros [_ Hlim]. unfold parse_status_records. rewrite bind_Ok. split.
  - intros (records & Hrec & H). destruct (nul_records output) as [records'|] eqn:En; [|done]. injection Hrec as ->.
    apply nul_records_spec in En as [-> _]. apply bind_Ok in H as (s & Hs & H).
    apply status_fold_spec in Hs as (es & Hv & -> & Hn & ->); [|lia|done]. cbn [snd app] in H.
    destruct (any_adjacent _ _) eqn:Ea; [done|]. injection H as <-. apply duplicate_status in Ea. exists es. split_and!; [done| |done].
    split; [done|by rewrite <- (canonical_paths f)|]. destruct Hn as [->|Hn]; [simpl; destruct Hlim; lia|lia].
  - intros (es & -> & [Hv Hnd Hn] & ->). exists (map render es). split.
    + rewrite (proj2 (nul_records_spec _ (map render es))); [done|]. split; [done|]. apply Forall_fmap. eapply Forall_impl; [exact Hv|].
      intros e He. by eapply render_no_nul.
    + pose proof (proj2 (status_fold_spec f limits (map render es) 0 [] _ (Z.le_refl 0) Hlim)
                    (ex_intro _ es (conj Hv (conj eq_refl (conj (or_intror Hn) eq_refl))))) as ->.
      rstep. cbv zeta. cbn [snd app]. rewrite (proj2 (duplicate_status _)); [done|]. by rewrite canonical_paths.
Qed.

(** ** Receipts *)

(** Splits equal concatenations at parts of known length. *)
Ltac split_app H := apply app_inj_1 in H as [? H]; [|rewrite ?length_app; unfold u32_be_bytes, u64_be_bytes; rewrite ?length_be_bytes; simpl; lia || done].

Lemma length_mode_bytes m : length (mode_bytes m) = 4%nat.
Proof. unfold mode_bytes, u32_be_bytes. apply length_be_bytes. Qed.

Lemma mode_bytes_inj m m' : mode_ok m → mode_ok m' → mode_bytes m = mode_bytes m' → m = m'.
Proof. unfold mode_ok. intros H H'. literals H; literals H'; intros He; by vm_compute in He. Qed.

Lemma modes_inj ms ms' x y :
  Forall mode_ok ms → Forall mode_ok ms' → length ms = length ms' →
  flat_map mode_bytes ms ++ x = flat_map mode_bytes ms' ++ y → ms = ms' ∧ x = y.
Proof.
  revert ms'. induction ms as [|m ms IH]; intros [|m' ms'] Hm Hm' Hl; [done..|]. cbn [flat_map]. rewrite <- !app_assoc. intros H.
  apply Forall_cons in Hm as [Hm Hms]. apply Forall_cons in Hm' as [Hm' Hms']. apply app_inj_1 in H as [He H]; [|by rewrite !length_mode_bytes].
  apply mode_bytes_inj in He as ->; [|done..]. injection Hl as Hl. by apply (IH ms') in H as [-> ->].
Qed.

Lemma oid_bytes_inj f f' oid oid' x y :
  length oid = object_id_bytes f → length oid' = object_id_bytes f' → oid_bytes f oid ++ x = oid_bytes f' oid' ++ y → oid = oid' ∧ x = y.
Proof.
  intros Hl Hl' H. unfold oid_bytes in H. rewrite <- !app_assoc in H. injection H as Ht Hn H.
  apply byte_of_inj in Ht. assert (f = f') as <- by (destruct f, f'; done || (vm_compute in Ht; congruence)).
  by apply app_inj_1 in H; [|by rewrite Hl, Hl'].
Qed.

Lemma oids_inj f f' oids oids' :
  Forall (λ oid, length oid = object_id_bytes f) oids → Forall (λ oid, length oid = object_id_bytes f') oids' →
  length oids = length oids' → flat_map (oid_bytes f) oids = flat_map (oid_bytes f') oids' → oids = oids'.
Proof.
  revert oids'. induction oids as [|o oids IH]; intros [|o' oids'] Ho Ho' Hl; [done..|]. cbn [flat_map]. intros H.
  apply Forall_cons in Ho as [Ho Hos]. apply Forall_cons in Ho' as [Ho' Hos']. apply oid_bytes_inj in H as [-> H]; [|done..].
  injection Hl as Hl. f_equal. by apply IH.
Qed.

Lemma canonical_inj f f' limits limits' e e' :
  entry_valid f limits e → entry_valid f' limits' e' → canonical f e = canonical f' e' → e = e'.
Proof.
  intros [_ Hv] [_ Hv'] H. destruct e as [u xy ms oids p|p], e' as [u' xy' ms' oids' p'|p']; cbn [canonical] in H.
  - injection H as -> Ht Hf. assert (u = u') as <- by (destruct u, u'; done).
    destruct Hv as (Hxy & Hnm & Hms & Hno & Hos), Hv' as (Hxy' & Hnm' & Hms' & Hno' & Hos').
    apply valid_status_letters in Hxy as [Hxy _]. apply valid_status_letters in Hxy' as [Hxy' _].
    apply app_inj_1 in Hf as [Hx Hf]; [|by rewrite !length_app, Hxy, Hxy']. apply app_inv_tail in Hx as ->.
    apply modes_inj in Hf as [-> Hf]; [|done|done|by rewrite Hnm, Hnm']. apply oids_inj in Hf as ->; [done|done|done|by rewrite Hno, Hno'].
  - injection H as _ Ht _. by destruct u.
  - injection H as _ Ht _. by destruct u'.
  - by injection H as ->.
Qed.

(** A tracked entry fixes the object format. *)
Lemma canonical_format f f' limits limits' e : entry_valid f limits e → entry_valid f' limits' e → canonical f e = canonical f' e.
Proof.
  intros [_ Hv] [_ Hv']. destruct e as [u xy ms oids p|p]; [|done]. destruct Hv as (_ & _ & _ & Hno & Hos), Hv' as (_ & _ & _ & _ & Hos').
  assert (f = f') as <-; [|done]. destruct oids as [|o oids]; [by destruct u|]. apply Forall_cons in Hos as [Ho _]. apply Forall_cons in Hos' as [Ho' _].
  destruct f, f'; done || (simpl in *; lia).
Qed.

Lemma canonical_fields_length f limits e : entry_valid f limits e → (length (status_fields (canonical f e)) < 256)%nat.
Proof.
  intros [_ Hv]. destruct e as [u xy ms oids p|p]; [|simpl; lia]. destruct Hv as (Hxy & Hnm & _ & Hno & Hos). cbn [canonical status_fields].
  apply valid_status_letters in Hxy as [Hxy _]. rewrite !length_app, Hxy.
  assert (length (flat_map mode_bytes ms) = 4 * mode_count u)%nat as ->.
  { rewrite <- Hnm. clear. induction ms as [|m ms IH]; [done|]. cbn [flat_map]. rewrite length_app, length_mode_bytes, IH. simpl. lia. }
  assert (length (flat_map (oid_bytes f) oids) = (2 + object_id_bytes f) * oid_count u)%nat as ->.
  { rewrite <- Hno. clear -Hos. induction Hos as [|o oids Ho _ IH]; [simpl; lia|]. cbn [flat_map]. unfold oid_bytes at 1. rewrite !length_app, IH, Ho. simpl. lia. }
  destruct u, f; simpl; lia.
Qed.

Lemma u64_len_small n : Z.of_nat n ≤ u64_max → u64_len n = Z.of_nat n.
Proof. intros H. unfold u64_len, u64_of_len. by rewrite checked_in by lia. Qed.

Lemma u64_bytes_len_inj n n' x y :
  Z.of_nat n ≤ u64_max → Z.of_nat n' ≤ u64_max → u64_be_bytes (u64_len n) ++ x = u64_be_bytes (u64_len n') ++ y → n = n' ∧ x = y.
Proof.
  intros Hn Hn' H. rewrite !u64_len_small in H by done. unfold u64_be_bytes in H. apply app_inj_1 in H as [H ->]; [|by rewrite !length_be_bytes].
  apply be_bytes_inj in H; [split; [lia|done]|..]; (split; [lia|]); unfold u64_max in *; simpl; lia.
Qed.

(** A canonical record that fits its length fields. *)
Definition record_fits (r : CanonicalStatusRecord) : Prop :=
  wf (status_path r) ∧ Z.of_nat (length (status_fields r)) ≤ u64_max ∧ 0 ≤ status_tag r < 256.

Lemma canonical_fits f limits e : entry_valid f limits e → record_fits (canonical f e).
Proof.
  intros Hv. unfold record_fits. rewrite status_path_canonical. pose proof (canonical_fields_length f limits e Hv).
  pose proof (status_tag_range f e). split; [by destruct Hv as [[Hw _] _]|]. unfold u64_max. lia.
Qed.

Lemma wf_path_length p : wf p → Z.of_nat (length (path_bytes p)) ≤ u64_max.
Proof. intros [_ Hb _ [[_ Hu] _]]. by rewrite <- Hb. Qed.

Lemma record_message_inj r r' x y :
  record_fits r → record_fits r' → record_message r ++ x = record_message r' ++ y → r = r' ∧ x = y.
Proof.
  intros (Hw & Hl & Ht) (Hw' & Hl' & Ht') H. unfold record_message in H. rewrite <- !app_assoc in H.
  apply app_inj_1 in H as [Htag H]; [|done]. injection Htag as Htag.
  apply byte_of_inj in Htag. rewrite !Z.mod_small in Htag by done. apply u64_bytes_len_inj in H as [Hn H]; [|done..].
  apply app_inj_1 in H as [Hf H]; [|done]. apply u64_bytes_len_inj in H as [Hp H]; [|by apply wf_path_length..].
  apply app_inj_1 in H as [Hpb ->]; [|done]. apply wf_inj in Hpb; [|done..]. destruct r, r'; simpl in *; by subst.
Qed.

Lemma records_message_inj rs rs' x y :
  Forall record_fits rs → Forall record_fits rs' → length rs = length rs' →
  flat_map record_message rs ++ x = flat_map record_message rs' ++ y → rs = rs' ∧ x = y.
Proof.
  revert rs'. induction rs as [|r rs IH]; intros [|r' rs'] Hf Hf' Hl; [done..|]. cbn [flat_map]. rewrite <- !app_assoc. intros H.
  apply Forall_cons in Hf as [Hr Hf]. apply Forall_cons in Hf' as [Hr' Hf']. apply record_message_inj in H as [-> H]; [|done..].
  injection Hl as Hl. by apply (IH rs') in H as [-> ->].
Qed.

Lemma worktree_message_inj rs rs' m m' domain version :
  Forall record_fits rs → Forall record_fits rs' → Z.of_nat (length rs) ≤ u64_max → Z.of_nat (length rs') ≤ u64_max →
  worktree_state_message rs m domain version = worktree_state_message rs' m' domain version → rs = rs' ∧ m = m'.
Proof.
  intros Hf Hf' Hn Hn' H. unfold worktree_state_message in H. do 3 apply app_inv_head in H.
  apply u64_bytes_len_inj in H as [Hl H]; [|done..]. by apply records_message_inj in H.
Qed.

Lemma canonical_records_fit f limits es : entries_wf f limits es → Forall record_fits (canonical_records f es).
Proof.
  intros [Hv _ _]. unfold canonical_records. rewrite sort_by_perm. apply Forall_fmap. eapply Forall_impl; [exact Hv|]. intros e. apply canonical_fits.
Qed.

Lemma NoDup_map_inj {A B} (g : A → B) l x y : NoDup (map g l) → x ∈ l → y ∈ l → g x = g y → x = y.
Proof.
  induction l as [|z l IH]; [by intros _ ?%elem_of_nil|]. cbn [map]. rewrite NoDup_cons. intros [Hz Hl] Hx Hy He.
  apply elem_of_cons in Hx as [->|Hx], Hy as [->|Hy]; [done| | |by apply IH].
  - destruct Hz. rewrite He. by apply list_elem_of_fmap_2.
  - destruct Hz. rewrite <- He. by apply list_elem_of_fmap_2.
Qed.

Lemma canonical_records_eq f f' limits limits' es es' :
  entries_wf f limits es → entries_wf f' limits' es' → canonical_records f es = canonical_records f' es' ↔ es ≡ₚ es'.
Proof.
  intros [Hv Hnd _] [Hv' Hnd' _]. rewrite !Forall_forall in *. unfold canonical_records. split.
  - intros H. assert (map (canonical f) es ≡ₚ map (canonical f') es') as Hp by (by rewrite <- (sort_by_perm status_ordering (map (canonical f) es)), H, sort_by_perm).
    assert (∀ l, NoDup (map (λ e, path_bytes (entry_path e)) l) → NoDup l) as Hmap by (intros l Hl; by eapply (NoDup_fmap_1 (λ e, path_bytes (entry_path e)))).
    apply NoDup_Permutation; [by apply Hmap..|]. intros e. split; intros He.
    + assert (canonical f e ∈ map (canonical f') es') as Hin by (rewrite <- Hp; by apply list_elem_of_fmap_2).
      apply list_elem_of_fmap in Hin as (e' & Heq & He'). rewrite (canonical_inj f f' limits limits' e e'); [done|by apply Hv|by apply Hv'|done].
    + assert (canonical f' e ∈ map (canonical f) es) as Hin by (rewrite Hp; by apply list_elem_of_fmap_2).
      apply list_elem_of_fmap in Hin as (e' & Heq & He'). rewrite (canonical_inj f' f limits' limits e e'); [done|by apply Hv'|by apply Hv|done].
  - intros Hp. apply (sorted_perm_unique status_ordering).
    + rewrite !sort_by_perm, Hp. assert (map (canonical f) es' = map (canonical f') es') as ->; [|done]. apply map_ext_in. intros e He. apply list_elem_of_In in He.
      eapply canonical_format; [apply Hv; by rewrite Hp|by apply Hv'].
    + intros x y. rewrite !elem_of_sort_by. intros (e & -> & He)%list_elem_of_fmap (e' & -> & He')%list_elem_of_fmap Ho.
      assert (e = e') as ->; [|done]. unfold status_ordering, then_with, path_cmp in Ho. destruct (cmp (path_bytes _) _) eqn:Ec; [|done..].
      apply cmp_eq in Ec. rewrite !status_path_canonical in Ec. by apply (NoDup_map_inj (λ e, path_bytes (entry_path e)) es).
    + apply sort_by_sorted, _.
    + apply sort_by_sorted, _.
Qed.

(** A head of its format. *)
Definition head_wf (f : GitObjectFormat) (head : option bytes) : Prop :=
  match head with Some oid => length oid = object_id_bytes f | None => True end.

Lemma git_message_inj f f' head head' shallow shallow' :
  head_wf f head → head_wf f' head' →
  git_state_message f head shallow = git_state_message f' head' shallow' → f = f' ∧ head = head' ∧ shallow = shallow'.
Proof.
  intros Hh Hh' H. unfold git_state_message in H. do 2 apply app_inv_head in H. injection H as Ht H. apply byte_of_inj in Ht.
  assert (f = f') as <- by (destruct f, f'; done || (vm_compute in Ht; congruence)). clear Ht.
  assert (∀ s s' : bool, byte_of (if s then 1 else 0) = byte_of (if s' then 1 else 0) → s = s') as Hs by (by intros [] []).
  destruct head as [oid|], head' as [oid'|]; cbn [head_wf app] in *.
  - injection H as _ H. apply app_inj_1 in H as [-> H]; [|by rewrite Hh, Hh']. injection H as H. split_and!; [done..|by apply Hs].
  - done.
  - done.
  - injection H as H. split_and!; [done..|by apply Hs].
Qed.

(** C31: receipts identify source states.  When SHA-256 does not collide, two captures have the
    same Git-state receipt exactly when Git reported the same object format, head and shallow
    state, and for the same profile the same worktree receipt exactly when their statuses have
    the same entries and the manifests are the same; receipts of the two profiles are never the
    same. *)
Theorem source_state_identity {D} (sha256 : bytes → D) f f' limits limits' head head' shallow shallow' es es' m m' :
  (∀ x y, sha256 x = sha256 y → x = y) → in_u64 (limit_paths limits) → in_u64 (limit_paths limits') →
  head_wf f head → head_wf f' head' → entries_wf f limits es → entries_wf f' limits' es' →
  let s := {| captured_git_state := hash_git_state sha256 f head shallow; captured_status_records := canonical_records f es |} in
  let s' := {| captured_git_state := hash_git_state sha256 f' head' shallow'; captured_status_records := canonical_records f' es' |} in
  (captured_git_state s = captured_git_state s' ↔ f = f' ∧ head = head' ∧ shallow = shallow')
  ∧ (worktree_state sha256 s m = worktree_state sha256 s' m' ↔ es ≡ₚ es' ∧ m = m')
  ∧ (source_worktree_state sha256 s m = source_worktree_state sha256 s' m' ↔ es ≡ₚ es' ∧ m = m')
  ∧ worktree_state sha256 s m ≠ source_worktree_state sha256 s' m'.
Proof.
  intros Hsha Hl Hl' Hh Hh' Hw Hw'. cbv zeta. pose proof (canonical_records_eq f f' limits limits' es es' Hw Hw') as Heq.
  assert (∀ domain version, hash_worktree_state_with_profile sha256 (canonical_records f es) m domain version
                            = hash_worktree_state_with_profile sha256 (canonical_records f' es') m' domain version ↔ es ≡ₚ es' ∧ m = m') as Hprofile.
  { intros domain version. rewrite <- Heq. split; [|by intros [-> ->]]. intros H%Hsha. apply worktree_message_inj in H; [done|by eapply canonical_records_fit..| |];
      unfold canonical_records; rewrite length_sort_by, length_map; [destruct Hw as [_ _ Hc], Hl|destruct Hw' as [_ _ Hc], Hl']; lia. }
  split_and!; [|apply Hprofile|apply Hprofile|].
  - split; [|by intros (-> & -> & ->)]. intros H%Hsha. by apply git_message_inj in H.
  - intros H%Hsha. apply (f_equal (take 21)) in H. by vm_compute in H.
Qed.

(** An untracked path and a modified one. *)
Definition state_entries : list StatusEntry :=
  [UntrackedEntry (git_path [x63]);
   TrackedEntry false (b_of ".M") [b_of "100644"; b_of "100644"; b_of "100755"] [replicate 20 x00; replicate 20 x01] (git_path [x61])].
Lemma state_entries_wf : entries_wf Sha1 git_limits state_entries.
Proof.
  assert (admitted git_limits (git_path [x61])) by (apply git_path_admitted; by vm_compute).
  assert (admitted git_limits (git_path [x63])) by (apply git_path_admitted; by vm_compute).
  split; [|by apply (bool_decide_unpack _); vm_compute|done]. apply Forall_cons_2; [by split|]. apply Forall_cons_2; [|constructor]. split; [done|].
  split_and!; [done|done| |done|by apply (bool_decide_unpack _); vm_compute]. repeat apply Forall_cons_2; [by apply (bool_decide_unpack _)..|constructor].
Qed.

Lemma source_state_identity_witness :
  state_entries ≠ rev state_entries
  ∧ worktree_state id {| captured_git_state := git_state_message Sha1 None false; captured_status_records := canonical_records Sha1 state_entries |} [x00]
    = worktree_state id {| captured_git_state := git_state_message Sha1 None false; captured_status_records := canonical_records Sha1 (rev state_entries) |} [x00].
Proof.
  split; [done|]. pose proof state_entries_wf as Hw.
  assert (entries_wf Sha1 git_limits (rev state_entries)) as Hw'.
  { destruct Hw as [Hv Hnd Hc]. split; [by apply Forall_rev|by apply (bool_decide_unpack _); vm_compute|done]. }
  apply (source_state_identity id Sha1 Sha1 git_limits git_limits None None false false state_entries (rev state_entries) [x00] [x00]);
    [done|split; vm_compute; discriminate..|done|done|done|done|split; [|done]]. apply Permutation_rev.
Defined.
