(* ===== verification/SourceIndex.v ===== *)
(** * The scope of the cached index

    Proofs about [parse_index_scope] of [SourceState]: the listings it accepts, and the masks
    of stages it keeps. *)

From Stdlib Require Import ZArith Lia ZifyBool.
From Stdlib Require Import Strings.Byte.
From stdpp Require Import base numbers sorting list.
From S2P Require Import Prelude Ordering RepositoryPath PathText IdentityText GitPaths SourceState SourceStatus.

Open Scope Z_scope.

(** ** The cached index *)

Record IndexEntry := {
  index_tag : bytes;
  index_mode : bytes;
  index_oid : bytes;
  index_stage : Z;
  index_path : RepositoryPath;
}.

Definition stage_text (stage : Z) : bytes := [byte_of (48 + stage)].

Definition index_metadata (e : IndexEntry) : list bytes :=
  [index_tag e; index_mode e; encode_lower_hex (index_oid e); stage_text (index_stage e)].

Definition render_index (e : IndexEntry) : bytes := join space (index_metadata e) ++ tab :: path_bytes (index_path e).

Record index_valid (f : GitObjectFormat) (limits : GitPathDiscoveryLimits) (e : IndexEntry) : Prop := {
  index_tag_ok : index_tag e ∈ index_tags ∧ index_tag e ∉ [b_of "S"; b_of "s"];
  index_mode_ok : mode_ok (index_mode e);
  index_oid_ok : length (index_oid e) = object_id_bytes f;
  index_stage_ok : 0 ≤ index_stage e < 4;
  index_path_ok : admitted limits (index_path e);
}.

Lemma stage_cases s : 0 ≤ s < 4 → s = 0 ∨ s = 1 ∨ s = 2 ∨ s = 3.
Proof. lia. Qed.

Lemma metadata_clean tag mode oid stage :
  tag ∈ index_tags → mode_ok mode → 0 ≤ stage < 4 →
  Forall (λ fl, space ∉ fl ∧ tab ∉ fl ∧ nul ∉ fl) [tag; mode; encode_lower_hex oid; stage_text stage].
Proof.
  intros Ht Hm Hs. repeat apply Forall_cons_2; [| | | |constructor].
  - unfold index_tags in Ht. literals Ht; by apply (bool_decide_unpack _).
  - unfold mode_ok in Hm. literals Hm; by apply (bool_decide_unpack _).
  - split_and!; by apply encode_hex_avoids.
  - apply stage_cases in Hs as [->|[->|[->| ->]]]; by apply (bool_decide_unpack _).
Qed.

Lemma join_avoids b d fs : b ≠ d → Forall (λ fl, b ∉ fl) fs → b ∉ join d fs.
Proof.
  intros Hne. induction 1 as [|fl fs Hfl Hf IH]; [apply not_elem_of_nil|]. destruct fs as [|fl' fs]; [done|].
  rewrite join_cons by done. by intros [Hin|[Hin|Hin]%elem_of_cons]%elem_of_app.
Qed.

Lemma parse_mode_some field : parse_mode field ≠ None ∧ field ≠ b_of "040000" ∧ field ≠ b_of "160000" ↔ mode_ok field.
Proof.
  unfold parse_mode, mode_ok. destruct (decide (field ∈ modes)) as [Hm|Hm].
  - rewrite (bool_decide_eq_true_2 _ Hm). unfold modes in Hm. literals Hm; (split; [intros (_ & H1 & H2); by apply (bool_decide_unpack _) || done|]);
      intros H; try (by apply (bool_decide_pack _) in H); split_and!; by vm_compute.
  - rewrite (bool_decide_eq_false_2 _ Hm). split; [by intros [? _]|]. intros H. destruct Hm. unfold modes. literals H; by apply (bool_decide_unpack _).
Qed.

Lemma index_fields_spec f record path stage :
  index_fields f record = Ok (path, stage) ↔
  path ≠ [] ∧ 0 ≤ stage < 4 ∧ ∃ tag mode oid,
    (tag ∈ index_tags ∧ tag ∉ [b_of "S"; b_of "s"]) ∧ mode_ok mode ∧ length oid = object_id_bytes f
    ∧ record = join space [tag; mode; encode_lower_hex oid; stage_text stage] ++ tab :: path.
Proof.
  unfold index_fields. split.
  - destruct (split_once tab record) as [[metadata p]|] eqn:E; [|done]. apply split_once_Some in E as [-> Htab]. rstep.
    case_bool_decide as Hp; [done|]. destruct (split_byte space metadata) as [|f0 [|f1 [|f2 [|f3 [|]]]]] eqn:Ef; try done. cbn [length nth Nat.eqb negb orb].
    apply split_byte_join in Ef as (_ & -> & _).
    destruct (valid_index_tag f0) eqn:Et; [|done]. apply bool_decide_eq_true in Et. cbn [negb orb].
    case_bool_decide as Hm; [done|]. cbn [orb]. destruct (decode_object_id f2 f) as [oid|] eqn:Eo; [|done]. apply decode_object_id_spec in Eo as [Ho ->].
    rewrite (bool_decide_eq_false_2 (Some oid = None)) by done. cbn [orb].
    destruct (bool_decide (f3 ∈ _)) eqn:E3; [|done]. apply bool_decide_eq_true in E3. cbn [negb]. cbv iota.
    case_bool_decide as Hs; [done|]. case_bool_decide as Hm1; [done|]. case_bool_decide as Hm2; [done|]. intros [= <- <-].
    assert (0 ≤ byte_rank (nth 0 f3 x00) - 48 < 4 ∧ f3 = stage_text (byte_rank (nth 0 f3 x00) - 48)) as [Hst H3].
    { literals E3; (split; [vm_compute; split; congruence|done]). }
    split; [done|]. split; [done|]. exists f0, f1, oid. split; [done|]. split; [by apply parse_mode_some|]. split; [done|]. by rewrite <- H3.
  - intros (Hp & Hs & tag & mode & oid & [Ht Hts] & Hm & Ho & ->).
    pose proof (metadata_clean tag mode oid stage Ht Hm Hs) as Hc.
    rewrite (proj2 (split_once_Some tab _ (join space [tag; mode; encode_lower_hex oid; stage_text stage]) path)).
    2:{ split; [done|]. apply join_avoids; [done|]. eapply Forall_impl; [exact Hc|]. naive_solver. }
    rstep. rewrite bool_decide_eq_false_2 by done.
    rewrite (proj2 (split_byte_join space _ [tag; mode; encode_lower_hex oid; stage_text stage])).
    2:{ split_and!; [done|done|]. eapply Forall_impl; [exact Hc|]. naive_solver. }
    cbn [length nth Nat.eqb negb orb]. apply parse_mode_some in Hm as (Hm0 & Hm1 & Hm2). unfold valid_index_tag.
    rewrite bool_decide_eq_true_2, bool_decide_eq_false_2 by done. rewrite (proj2 (decode_object_id_spec _ f oid)) by done.
    rewrite (bool_decide_eq_false_2 (Some oid = None)) by done.
    rewrite (bool_decide_eq_true_2 (stage_text stage ∈ _)) by (apply stage_cases in Hs as [->|[->|[->| ->]]]; by apply (bool_decide_unpack _)).
    cbn [negb orb]. cbv iota. rewrite !bool_decide_eq_false_2 by done. do 2 f_equal.
    apply stage_cases in Hs as [->|[->|[->| ->]]]; done.
Qed.

(** The stages of a path, in the order listed, and their mask. *)
Definition stages_at (b : bytes) (es : list IndexEntry) : list Z := map index_stage (filter (λ e, path_bytes (index_path e) = b) es).
Definition stage_mask (l : list Z) : Z := foldl (λ m s, Z.lor m (Z.shiftl 1 s)) 0 l.
Definition stages_ok (l : list Z) : Prop := NoDup l ∧ (0 ∈ l → l = [0]).
#[export] Instance stages_ok_dec l : Decision (stages_ok l).
Proof. unfold stages_ok. apply _. Defined.
Definition index_paths (es : list IndexEntry) : list bytes := bset_of_list (map (λ e, path_bytes (index_path e)) es).

(** An index in scope: a path is merged, at stage 0 alone, or unmerged, at distinct other stages. *)
Record index_ok (limits : GitPathDiscoveryLimits) (es : list IndexEntry) : Prop := {
  index_stages b : stages_ok (stages_at b es);
  index_count : Z.of_nat (length (index_paths es)) ≤ limit_paths limits;
}.

Lemma stages_at_snoc b es e :
  stages_at b (es ++ [e]) = stages_at b es ++ if decide (path_bytes (index_path e) = b) then [index_stage e] else [].
Proof. unfold stages_at. rewrite filter_app, map_app, filter_cons. by case_decide. Qed.

Lemma stage_mask_snoc l s : stage_mask (l ++ [s]) = Z.lor (stage_mask l) (Z.shiftl 1 s).
Proof. unfold stage_mask. by rewrite foldl_app. Qed.

Lemma stage_mask_testbit l s : Forall (λ s, 0 ≤ s) l → 0 ≤ s → Z.testbit (stage_mask l) s = bool_decide (s ∈ l).
Proof.
  intros Hl Hs. induction l as [|t l IH] using rev_ind; [by rewrite Z.bits_0|]. apply Forall_app in Hl as [Hl Ht%Forall_singleton].
  rewrite stage_mask_snoc, Z.lor_spec, IH, Z.shiftl_spec by done. destruct (decide (s = t)) as [->|Hne].
  - rewrite Z.sub_diag, orb_true_r. symmetry. apply bool_decide_eq_true_2, elem_of_app. right. by left.
  - assert (Z.testbit 1 (s - t) = false) as ->.
    { destruct (Z.ltb_spec s t); [by apply Z.testbit_neg_r; lia|]. apply (Z.bits_above_log2 1 (s - t)); simpl; lia. }
    rewrite orb_false_r. apply bool_decide_ext. rewrite elem_of_app, list_elem_of_singleton. naive_solver.
Qed.

Lemma stage_mask_land l s : Forall (λ s, 0 ≤ s) l → 0 ≤ s → Z.land (stage_mask l) (Z.shiftl 1 s) = 0 ↔ s ∉ l.
Proof.
  intros Hl Hs. pose proof (stage_mask_testbit l s Hl Hs) as Ht. split.
  - intros H Hin. apply (f_equal (λ z, Z.testbit z s)) in H. rewrite Z.land_spec, Ht, Z.shiftl_spec, Z.sub_diag, Z.bits_0 in H by done.
    by rewrite bool_decide_eq_true_2 in H.
  - intros Hin. apply Z.bits_inj'. intros n Hn. rewrite Z.land_spec, Z.shiftl_spec, Z.bits_0 by done.
    destruct (decide (n = s)) as [->|Hne]; [by rewrite Ht, bool_decide_eq_false_2|].
    assert (Z.testbit 1 (n - s) = false) as ->; [|by rewrite andb_false_r].
    destruct (Z.ltb_spec n s); [apply Z.testbit_neg_r; lia|]. apply (Z.bits_above_log2 1 (n - s)); simpl; lia.
Qed.

(** Adding a stage to those of a path. *)
Lemma stages_ok_snoc l s : l ≠ [] → stages_ok l → stages_ok (l ++ [s]) ↔ s ∉ l ∧ s ≠ 0 ∧ 0 ∉ l.
Proof.
  intros Hne [Hnd H0]. assert (∀ x, l ++ [s] ≠ [x]) as Hlen.
  { intros x He. apply (f_equal length) in He. rewrite length_app in He. destruct l; simpl in He; [done|lia]. }
  split.
  - intros [(_ & Hs & _)%NoDup_app Hz]. assert (0 ∉ l ++ [s]) as Hno by (intros Hin; by apply (Hlen 0), Hz).
    apply not_elem_of_app in Hno as [Hno Hs0]. split_and!; [intros Hin; apply (Hs s Hin); by left|intros ->; apply Hs0; by left|done].
  - intros (Hs & Hs0 & Hz). split.
    + apply NoDup_app. split_and!; [done|intros x Hx ->%list_elem_of_singleton; done|apply NoDup_singleton].
    + intros [Hin|Heq%list_elem_of_singleton]%elem_of_app; [done|by subst].
Qed.

(** The map of the parser, by the bytes of its paths. *)
Definition by_bytes {V} (m : list (RepositoryPath * V)) : list (bytes * V) := map (λ kv, (path_bytes kv.1, kv.2)) m.

Lemma by_bytes_get {V} p (m : list (RepositoryPath * V)) : bmap_get p m = bmap_get (path_bytes p) (by_bytes m).
Proof. induction m as [|[q v] m IH]; [done|]. simpl. change (cmp p q) with (cmp (path_bytes p) (path_bytes q)). by destruct (cmp _ _). Qed.

Lemma by_bytes_insert {V} p (v : V) m : by_bytes (bmap_insert p v m) = bmap_insert (path_bytes p) v (by_bytes m).
Proof.
  induction m as [|[q w] m IH]; [done|]. simpl. change (cmp p q) with (cmp (path_bytes p) (path_bytes q)).
  destruct (cmp (path_bytes p) (path_bytes q)) eqn:E; [|done|cbn [by_bytes map]; f_equal; exact IH].
  cbn [by_bytes map fst snd]. apply cmp_eq in E. by rewrite ?E.
Qed.

Record index_inv (m : list (RepositoryPath * Z)) (es : list IndexEntry) : Prop := {
  inv_wf : bmap_wf (by_bytes m);
  inv_keys : (by_bytes m).*1 = index_paths es;
  inv_masks b : bmap_get b (by_bytes m) = if bool_decide (stages_at b es = []) then None else Some (stage_mask (stages_at b es));
}.

Definition admit_entry (limits : GitPathDiscoveryLimits) (m : list (RepositoryPath * Z)) (e : IndexEntry) : option (list (RepositoryPath * Z)) :=
  match bmap_get (index_path e) m with
  | None =>
      if limit_paths limits <=? Z.of_nat (length m) then None
      else Some (bmap_insert (index_path e) (Z.shiftl 1 (index_stage e)) m)
  | Some existing =>
      let mask := Z.shiftl 1 (index_stage e) in
      if negb (Z.land existing mask =? 0) || (index_stage e =? 0) || negb (Z.land existing 1 =? 0) then None
      else Some (bmap_insert (index_path e) (Z.lor existing mask) m)
  end.

Lemma index_record_spec f limits m record m' :
  Z.of_nat (length m) < u64_max →
  index_record f limits m record = Ok m' ↔
  ∃ e, index_valid f limits e ∧ record = render_index e ∧ admit_entry limits m e = Some m'.
Proof.
  intros Hn. unfold index_record. rewrite bind_Ok. unfold u64_of_len. rewrite checked_in by lia. cbn [mbind option_bind].
  unfold u64_checked_add. rewrite checked_in by lia. rstep.
  split.
  - intros ([path stage] & (Hp & Hs & tag & mode & oid & Ht & Hm & Ho & ->)%index_fields_spec & H). cbv iota in H.
    apply bind_Ok in H as (p & [Ha <-]%validate_path_spec & H).
    exists {| index_tag := tag; index_mode := mode; index_oid := oid; index_stage := stage; index_path := p |}.
    split; [by split|]. split; [done|]. unfold admit_entry. cbn [index_path index_stage].
    destruct (bmap_get p m) as [existing|]; [destruct (_ || _ || _)|destruct (_ <=? _)]; congruence.
  - intros (e & [Ht Hm Ho Hs Ha] & -> & H). exists (path_bytes (index_path e), index_stage e). split.
    + apply index_fields_spec. split; [apply wf_nonempty; by destruct Ha|]. split; [done|]. exists (index_tag e), (index_mode e), (index_oid e). done.
    + cbv iota. rewrite (proj2 (validate_path_spec limits _ _ (index_path e))) by done. rstep. unfold admit_entry in H.
      destruct (bmap_get (index_path e) m) as [existing|]; [destruct (_ || _ || _)|destruct (_ <=? _)]; congruence.
Qed.

Lemma index_paths_snoc es e : index_paths (es ++ [e]) = bset_insert (path_bytes (index_path e)) (index_paths es).
Proof. unfold index_paths, bset_of_list. by rewrite map_app, foldl_app. Qed.

Lemma stages_at_empty b es : stages_at b es = [] ↔ b ∉ index_paths es.
Proof.
  unfold stages_at, index_paths. rewrite elem_of_bset_of_list. split.
  - intros H (e & -> & He)%list_elem_of_fmap. assert (e ∈ filter (λ e', path_bytes (index_path e') = path_bytes (index_path e)) es) as Hin by (by apply list_elem_of_filter).
    destruct (filter _ es); [by apply elem_of_nil in Hin|done].
  - intros H. destruct (filter _ es) as [|e l] eqn:E; [done|]. destruct H.
    assert (e ∈ filter (λ e, path_bytes (index_path e) = b) es) as [Hb He]%list_elem_of_filter by (rewrite E; by left).
    apply list_elem_of_fmap. eauto.
Qed.

Lemma bset_insert_in {A} `{RustOrdLaws A} (x : A) s : bset_wf s → x ∈ s → bset_insert x s = s.
Proof.
  intros Hs Hx. apply bset_ext; [by apply bset_insert_wf|done|]. intros y. rewrite elem_of_bset_insert. naive_solver.
Qed.

Lemma index_inv_length m es : index_inv m es → length m = length (index_paths es).
Proof. intros [_ <- _]. unfold by_bytes. by rewrite length_fmap, length_map. Qed.

Lemma index_paths_wf es : bset_wf (index_paths es).
Proof. apply bset_of_list_wf. Qed.

Lemma stages_nonneg f limits b es : Forall (index_valid f limits) es → Forall (λ s, 0 ≤ s) (stages_at b es).
Proof.
  intros Hv. unfold stages_at. apply Forall_fmap, Forall_forall. intros e [_ He]%list_elem_of_filter. rewrite Forall_forall in Hv.
  apply (index_stage_ok _ _ _ (Hv e He)).
Qed.

(** Inserting a mask keeps the invariant. *)
Lemma index_inv_insert m es e v :
  index_inv m es → v = stage_mask (stages_at (path_bytes (index_path e)) es ++ [index_stage e]) →
  index_inv (bmap_insert (index_path e) v m) (es ++ [e]).
Proof.
  intros [Hw Hk Hm] ->. set (b := path_bytes (index_path e)). split; rewrite by_bytes_insert.
  - by apply bmap_insert_wf.
  - rewrite index_paths_snoc. apply bset_ext; [by apply bmap_insert_wf|apply bset_insert_wf, index_paths_wf|].
    intros x. by rewrite elem_of_bmap_insert_keys, elem_of_bset_insert, Hk.
  - intros x. fold b. rewrite bmap_get_insert by done. rewrite stages_at_snoc. fold b. destruct (decide (b = x)) as [<-|Hne].
    + rewrite decide_True by done. rewrite bool_decide_eq_false_2; [done|]. by destruct (stages_at b es).
    + rewrite decide_False by done. by rewrite app_nil_r, Hm.
Qed.

Lemma admit_entry_spec f limits m es e :
  index_inv m es → index_ok limits es → Forall (index_valid f limits) es → index_valid f limits e →
  match admit_entry limits m e with
  | Some m' => index_ok limits (es ++ [e]) ∧ index_inv m' (es ++ [e])
  | None => ¬ index_ok limits (es ++ [e])
  end.
Proof.
  intros Hinv Hok Hes He. pose proof (inv_masks _ _ Hinv (path_bytes (index_path e))) as Hm. pose proof (index_inv_length m es Hinv) as Hlen.
  pose proof (index_stage_ok _ _ _ He) as Hs. pose proof Hok as [Hst Hc]. unfold admit_entry. rewrite by_bytes_get, Hm.
  set (b := path_bytes (index_path e)) in *. set (l := stages_at b es) in *.
  assert (∀ b', stages_ok (stages_at b' (es ++ [e])) ↔ (b' = b → stages_ok (l ++ [index_stage e]))) as Hstages.
  { intros b'. rewrite stages_at_snoc. fold b. case_decide as Hb; [subst b'; fold l; naive_solver|]. rewrite app_nil_r. naive_solver. }
  pose proof (stages_nonneg f limits b es Hes) as Hnn. fold l in Hnn.
  case_bool_decide as Hl.
  - pose proof (proj1 (stages_at_empty b es) Hl) as Hb.
    assert (Z.of_nat (length (index_paths (es ++ [e]))) = Z.of_nat (length m) + 1) as Hcount.
    { rewrite index_paths_snoc. fold b. rewrite length_bset_insert by (done || apply index_paths_wf). lia. }
    destruct (Z.leb_spec (limit_paths limits) (Z.of_nat (length m))) as [Hle|Hlt].
    + intros [_ Hc']. lia.
    + split; [split; [|lia]|].
      * intros b'. apply Hstages. intros _. fold l in Hl. rewrite Hl. cbn [app]. split; [apply NoDup_singleton|]. by intros ->%list_elem_of_singleton.
      * apply index_inv_insert; [done|]. fold b l. by rewrite Hl.
  - fold l in Hl. assert (b ∈ index_paths es) as Hb by (destruct (decide (b ∈ index_paths es)) as [|Hn]; [done|]; by apply stages_at_empty in Hn).
    assert (index_paths (es ++ [e]) = index_paths es) as Hcount by (rewrite index_paths_snoc; apply bset_insert_in; [apply index_paths_wf|done]).
    cbv zeta. pose proof (stages_ok_snoc l (index_stage e) Hl (Hst b)) as Hsnoc.
    pose proof (stage_mask_land l (index_stage e) Hnn ltac:(lia)) as Hland. pose proof (stage_mask_land l 0 Hnn ltac:(lia)) as Hland0.
    change (Z.shiftl 1 0) with 1 in Hland0.
    destruct (negb _ || _ || _) eqn:Eg.
    + intros [Hst' _]. pose proof (proj1 (Hstages b) (Hst' b) eq_refl) as (H1 & H2 & H3)%Hsnoc. apply Hland in H1. apply Hland0 in H3.
      rewrite H1, H3 in Eg. simpl in Eg. rewrite orb_false_r in Eg. lia.
    + apply orb_false_iff in Eg as [[H1%negb_false_iff%Z.eqb_eq H2%Z.eqb_neq]%orb_false_iff H3%negb_false_iff%Z.eqb_eq]. split.
      * split; [|by rewrite Hcount]. intros b'. apply Hstages. intros _. apply Hsnoc. split_and!; [by apply Hland|done|by apply Hland0].
      * apply index_inv_insert; [done|]. fold b l. by rewrite stage_mask_snoc.
Qed.

(** A record says one thing. *)
Lemma render_index_inj f limits e e' :
  index_valid f limits e → index_valid f limits e' → render_index e = render_index e' → e = e'.
Proof.
  intros [[Ht _] Hm Ho Hs [Hw _]] [[Ht' _] Hm' Ho' Hs' [Hw' _]] H. unfold render_index in H.
  pose proof (metadata_clean _ _ (index_oid e) _ Ht Hm Hs) as Hc. pose proof (metadata_clean _ _ (index_oid e') _ Ht' Hm' Hs') as Hc'.
  assert (∀ e, Forall (λ fl, space ∉ fl ∧ tab ∉ fl ∧ nul ∉ fl) (index_metadata e) → tab ∉ join space (index_metadata e)) as Htab.
  { intros e0 H0. apply join_avoids; [done|]. eapply Forall_impl; [exact H0|]. naive_solver. }
  assert (split_once tab (join space (index_metadata e) ++ tab :: path_bytes (index_path e)) = Some (join space (index_metadata e), path_bytes (index_path e))) as H1
    by (apply split_once_Some; split; [done|by apply Htab]).
  assert (split_once tab (join space (index_metadata e') ++ tab :: path_bytes (index_path e')) = Some (join space (index_metadata e'), path_bytes (index_path e'))) as H2
    by (apply split_once_Some; split; [done|by apply Htab]).
  rewrite H, H2 in H1. assert (join space (index_metadata e') = join space (index_metadata e)) as Hj by congruence.
  assert (path_bytes (index_path e') = path_bytes (index_path e)) as Hp by congruence. apply wf_inj in Hp; [|done..].
  assert (split_byte space (join space (index_metadata e)) = index_metadata e) as S1
    by (apply split_byte_join; split_and!; [done|done|]; eapply Forall_impl; [exact Hc|]; naive_solver).
  assert (split_byte space (join space (index_metadata e')) = index_metadata e') as S2
    by (apply split_byte_join; split_and!; [done|done|]; eapply Forall_impl; [exact Hc'|]; naive_solver).
  rewrite <- Hj, S2 in S1. unfold index_metadata in S1. injection S1 as E1 E2 E3 E4.
  pose proof (lower_hex_pairs_encode (index_oid e)) as Ho1. rewrite <- E3, lower_hex_pairs_encode in Ho1. injection Ho1 as Ho1.
  apply byte_of_inj in E4. rewrite !Z.mod_small in E4 by lia. destruct e, e'. simpl in *. f_equal; try congruence. lia.
Qed.

(** A prefix of an index in scope is in scope. *)
Lemma index_ok_prefix limits es e : index_ok limits (es ++ [e]) → index_ok limits es.
Proof.
  intros [Hst Hc]. split.
  - intros b. specialize (Hst b). rewrite stages_at_snoc in Hst. case_decide; [|by rewrite app_nil_r in Hst].
    destruct (decide (stages_at b es = [])) as [->|Hne]; [split; [constructor|by intros ?%elem_of_nil]|].
    destruct Hst as [(Hnd & _ & _)%NoDup_app H0]. split; [done|]. intros Hin.
    assert (0 ∈ stages_at b es ++ [index_stage e]) as Hin' by (apply elem_of_app; by left). specialize (H0 Hin').
    apply (f_equal length) in H0. rewrite length_app in H0. destruct (stages_at b es); simpl in H0; [done|lia].
  - rewrite index_paths_snoc in Hc. destruct (decide (path_bytes (index_path e) ∈ index_paths es)) as [Hin|Hin].
    + by rewrite bset_insert_in in Hc by (done || apply index_paths_wf).
    + rewrite length_bset_insert in Hc by (done || apply index_paths_wf). lia.
Qed.

Lemma index_ok_app limits es es' : index_ok limits (es ++ es') → index_ok limits es.
Proof.
  revert es. induction es' as [|e es' IH] using rev_ind; intros es; [by rewrite app_nil_r|]. rewrite app_assoc. intros H%index_ok_prefix. by apply IH.
Qed.

Lemma index_fold_spec f limits records m es :
  0 ≤ limit_paths limits < u64_max → index_inv m es → index_ok limits es → Forall (index_valid f limits) es →
  is_ok (try_fold (index_record f limits) m records) = true ↔
  ∃ es', Forall (index_valid f limits) es' ∧ records = map render_index es' ∧ index_ok limits (es ++ es').
Proof.
  intros Hlim. revert m es. induction records as [|record records IH]; intros m es Hinv Hok Hes; cbn [try_fold].
  { split; [|done]. intros _. exists []. by rewrite app_nil_r. }
  assert (Z.of_nat (length m) < u64_max) as Hn by (rewrite (index_inv_length m es Hinv); destruct Hok; lia).
  pose proof (index_record_spec f limits m record) as Hrec. destruct (index_record f limits m record) as [m'|err] eqn:E; rstep.
  - destruct (proj1 (Hrec m' Hn) eq_refl) as (e & He & -> & Ha). pose proof (admit_entry_spec f limits m es e Hinv Hok Hes He) as Hspec.
    rewrite Ha in Hspec. destruct Hspec as [Hok' Hinv']. rewrite (IH m' (es ++ [e])) by (done || (apply Forall_app_2; [done|by apply Forall_singleton])). split.
    + intros (es' & Hv & -> & Ho). exists (e :: es'). split_and!; [by constructor|done|by rewrite <- app_assoc in Ho].
    + intros ([|e' es'] & Hv & Hr & Ho); [done|]. apply Forall_cons in Hv as [He' Hv]. injection Hr as Hr ->. exists es'.
      split_and!; [done..|]. rewrite <- app_assoc. cbn [app]. by rewrite (render_index_inj f limits e e').
  - split; [done|]. intros ([|e es'] & Hv & Hr & Ho); [done|]. apply Forall_cons in Hv as [He Hv]. injection Hr as -> ->.
    pose proof (admit_entry_spec f limits m es e Hinv Hok Hes He) as Hspec.
    destruct (admit_entry limits m e) as [m'|] eqn:Ea.
    + by pose proof (proj2 (Hrec m' Hn) (ex_intro _ e (conj He (conj eq_refl Ea)))).
    + destruct Hspec. apply (index_ok_app limits _ es'). by rewrite <- app_assoc.
Qed.

Lemma index_start : index_inv [] [] ∧ ∀ limits, 0 ≤ limit_paths limits → index_ok limits [].
Proof.
  split; [by split; [constructor|done|]|]. intros limits H0. split; [|done]. intros b. split; [constructor|by intros ?%elem_of_nil].
Qed.

(** The scope check of the index accepts exactly the listings whose every record is ended
    by a NUL and well formed, is neither sparse nor a submodule, whose paths are either merged,
    listed once at stage 0, or unmerged, listed at distinct stages from 1 to 3, and are no more
    than the limit. *)
Theorem index_scope_exact output f limits :
  0 ≤ limit_paths limits < u64_max →
  parse_index_scope output f limits = Ok () ↔
  ∃ es, output = terminated nul (map render_index es) ∧ Forall (index_valid f limits) es ∧ index_ok limits es.
Proof.
  intros Hlim. destruct index_start as [Hinv Hok]. specialize (Hok limits (proj1 Hlim)). unfold parse_index_scope. split.
  - destruct (nul_records output) as [records|] eqn:En; [|done]. apply nul_records_spec in En as [-> _]. rstep.
    destruct (try_fold _ _ _) as [m|] eqn:E; [|done]. intros _.
    apply (f_equal is_ok) in E. apply (index_fold_spec f limits records [] []) in E as (es & Hv & -> & Ho); [|done|done|done|constructor]. eauto.
  - intros (es & -> & Hv & Ho). rewrite (proj2 (nul_records_spec _ (map render_index es))).
    + rstep. assert (is_ok (try_fold (index_record f limits) [] (map render_index es)) = true) as H.
      { apply (index_fold_spec f limits _ [] []); [done|done|done|constructor|]. eauto. }
      destruct (try_fold _ _ _); done.
    + split; [done|]. apply Forall_fmap. eapply Forall_impl; [exact Hv|]. intros e [[Ht _] Hm _ Hs [Hw _]]. unfold render_index. split.
      * by destruct (join space (index_metadata e)).
      * intros [Hin|[Hin|Hin]%elem_of_cons]%elem_of_app; [|done|by apply wf_no_nul in Hin].
        revert Hin. apply join_avoids; [done|]. eapply Forall_impl; [by apply metadata_clean|]. naive_solver.
Qed.

(** A merged path, and an unmerged one without its base. *)
Definition state_index : list IndexEntry :=
  [{| index_tag := b_of "H"; index_mode := b_of "100644"; index_oid := replicate 20 x01; index_stage := 0; index_path := git_path [x61] |};
   {| index_tag := b_of "M"; index_mode := b_of "100644"; index_oid := replicate 20 x01; index_stage := 1; index_path := git_path [x62] |};
   {| index_tag := b_of "M"; index_mode := b_of "100644"; index_oid := replicate 20 x02; index_stage := 3; index_path := git_path [x62] |}].

Lemma state_index_valid : Forall (index_valid Sha1 git_limits) state_index ∧ index_ok git_limits state_index.
Proof.
  assert (∀ b, b = x61 ∨ b = x62 → admitted git_limits (git_path [b])) as Ha by (intros b [->| ->]; apply git_path_admitted; by vm_compute).
  split.
  - repeat apply Forall_cons_2; [..|constructor]; (split; [split; by apply (bool_decide_unpack _)|by apply (bool_decide_unpack _)|done|done|apply Ha; auto]).
  - split; [|by vm_compute]. intros b. unfold stages_at, state_index. rewrite !filter_cons, filter_nil. cbn [index_path git_path path_bytes].
    repeat case_decide; simplify_eq; by apply (bool_decide_unpack _); vm_compute.
Qed.

Lemma index_scope_exact_witness : parse_index_scope (terminated nul (map render_index state_index)) Sha1 git_limits = Ok ().
Proof.
  apply (index_scope_exact (terminated nul (map render_index state_index)) Sha1 git_limits); [by vm_compute|].
  exists state_index. destruct state_index_valid. done.
Defined.
