(* ===== verification/SourceCapture.v ===== *)
(** * The capture of a source state

    Proofs about [capture_source_state] of [SourceState]: what Git has to answer for a capture
    to succeed, and what it holds. *)

From Stdlib Require Import ZArith Lia ZifyBool.
From Stdlib Require Import Strings.Byte.
From stdpp Require Import base numbers sorting list.
From S2P Require Import Prelude Ordering RepositoryPath PathText IdentityText GitPaths SourceState SourceStatus SourceIndex.

Open Scope Z_scope.

(** ** The capture *)

Definition format_text (f : GitObjectFormat) : bytes := match f with Sha1 => b_of "sha1" | Sha256 => b_of "sha256" end.
Definition shallow_text (shallow : bool) : bytes := if shallow then b_of "true" else b_of "false".

(** What Git answers about the head: a commit, or none. *)
Definition head_reported (f : GitObjectFormat) (head : option bytes) (r : result GitPathDiscoveryError ((bool * option Z) * bytes)) : Prop :=
  match head with
  | Some oid => length oid = object_id_bytes f ∧ (∃ b, b ∈ oid ∧ b ≠ x00) ∧ ∃ code, r = Ok ((true, code), encode_lower_hex oid ++ [lf])
  | None => r = Ok ((false, Some 1), [])
  end.

Lemma single_lf_line_spec output line :
  single_lf_line output = Some line ↔ output = line ++ [lf] ∧ line ≠ [] ∧ lf ∉ line ∧ cr ∉ line.
Proof.
  unfold single_lf_line. destruct (strip_last lf output) as [l|] eqn:E; cbn [mbind option_bind].
  - apply strip_last_Some in E as ->. split.
    + destruct (_ || _ || _) eqn:Eg; [done|]. intros [= <-].
      apply orb_false_iff in Eg as [[H1%bool_decide_eq_false H2%bool_decide_eq_false]%orb_false_iff H3%bool_decide_eq_false]. done.
    + intros ([-> _]%app_inj_tail & H1 & H2 & H3). by rewrite !bool_decide_eq_false_2.
  - split; [done|]. intros [-> _]. by rewrite (proj2 (strip_last_Some _ _ line)) in E.
Qed.

Lemma parse_object_format_spec output f : parse_object_format output = Ok f ↔ output = format_text f ++ [lf].
Proof.
  unfold parse_object_format. destruct (single_lf_line output) as [line|] eqn:E.
  - apply single_lf_line_spec in E as (-> & _). split.
    + case_bool_decide as H1; [intros [= <-]; by rewrite H1|]. case_bool_decide as H2; [intros [= <-]; by rewrite H2|]. by destruct (forallb _ _).
    + intros [-> _]%app_inj_tail. by destruct f.
  - split; [done|]. intros ->. exfalso. revert E. by destruct f; vm_compute.
Qed.

Lemma parse_shallow_spec output s : parse_shallow_state output = Ok s ↔ output = shallow_text s ++ [lf].
Proof.
  unfold parse_shallow_state. destruct (single_lf_line output) as [line|] eqn:E.
  - apply single_lf_line_spec in E as (-> & _). split.
    + case_bool_decide as H1; [intros [= <-]; by rewrite H1|]. case_bool_decide as H2; [intros [= <-]; by rewrite H2|done].
    + intros [-> _]%app_inj_tail. by destruct s.
  - split; [done|]. intros ->. exfalso. revert E. by destruct s; vm_compute.
Qed.

Lemma encode_hex_line oid : oid ≠ [] → single_lf_line (encode_lower_hex oid ++ [lf]) = Some (encode_lower_hex oid).
Proof. intros Hne. apply single_lf_line_spec. split_and!; [done|by destruct oid|by apply encode_hex_avoids..]. Qed.

Lemma capture_head_spec outst f head : capture_head outst f = Ok head ↔ head_reported f head (outst head_arguments).
Proof.
  unfold capture_head. destruct (outst head_arguments) as [[[success code] output]|e]; rstep; cbv iota.
  2:{ split; [done|]. destruct head; [intros (_ & _ & ? & ?)|]; done. }
  destruct success.
  - split.
    + destruct (single_lf_line output) as [line|] eqn:El; [|done]. apply single_lf_line_spec in El as (-> & _). rstep.
      destruct (decode_object_id line f) as [oid|] eqn:Eo; [|done]. apply decode_object_id_spec in Eo as [Hl ->]. rstep.
      destruct (forallb _ oid) eqn:Ez; [done|]. intros [= <-]. split; [done|]. split; [|by exists code].
      apply not_true_iff_false in Ez. destruct (decide (Exists (λ b, b ≠ x00) oid)) as [(b & ? & ?)%Exists_exists|Hno]; [eauto|].
      destruct Ez. apply forallb_forall. intros b Hb. apply bool_decide_eq_true. destruct (decide (b = x00)); [done|]. destruct Hno. apply Exists_exists. exists b. by rewrite list_elem_of_In.
    + destruct head as [oid|]; [|done]. intros (Hl & (b & Hb & Hb0) & code' & [= -> ->]).
      rewrite encode_hex_line by (intros ->; by apply elem_of_nil in Hb). rstep. rewrite (proj2 (decode_object_id_spec _ f oid)) by done. rstep.
      destruct (forallb _ oid) eqn:Ez; [|done]. rewrite forallb_forall in Ez. apply list_elem_of_In, Ez in Hb. by apply bool_decide_eq_true in Hb.
  - unfold is_exit_code. split.
    + destruct (_ && _) eqn:Eg; [|done]. apply andb_prop in Eg as [->%bool_decide_eq_true ->%bool_decide_eq_true]. by intros [= <-].
    + destruct head as [oid|]; [by intros (_ & _ & ? & ?)|]. by intros [= -> ->].
Qed.

(** Without a control the capture is its steps in a row. *)
Lemma capture_run {D} (sha256 : bytes → D) root output output_with_status limits :
  run never (capture_source_state sha256 root output output_with_status limits)
  = (map_err Git root;;
     f ← capture_object_format output;
     head ← capture_head output_with_status f;
     shallow ← capture_shallow_state output;
     inspect_index_scope output f limits;;
     status_output ← capture_status output;
     rs ← parse_status_records status_output f limits;
     Ok {| captured_git_state := hash_git_state sha256 f head shallow; captured_status_records := rs |}).
Proof.
  apply evals_run. unfold capture_source_state. apply evals_check_bind. apply evals_mbind; [apply evals_lift|intros _]. apply evals_check_bind.
  apply evals_mbind; [apply evals_lift|intros f]. apply evals_check_bind. apply evals_mbind; [apply evals_lift|intros head]. apply evals_check_bind.
  apply evals_mbind; [apply evals_lift|intros shallow]. apply evals_check_bind. apply evals_mbind; [apply evals_lift|intros _]. apply evals_check_bind.
  apply evals_mbind; [apply evals_lift|intros out]. apply evals_mbind; [apply evals_lift|intros rs]. apply evals_ret.
Qed.

(** C30: a capture succeeds exactly when Git finds a worktree, names an object format, reports a
    commit or its absence, says whether the clone is shallow, lists an index in scope and a
    status of valid entries of distinct paths within the limit; it then holds the receipt of
    what was reported and the canonical records of those entries, in byte order of their paths,
    and nothing but the control can stop it. *)
Theorem source_capture_exact {D} (sha256 : bytes → D) root output output_with_status limits s :
  git_limits_wf limits →
  (run never (capture_source_state sha256 root output output_with_status limits) = Ok s ↔
   root = Ok () ∧ ∃ f head shallow index es,
     output object_format_arguments = Ok (format_text f ++ [lf])
     ∧ head_reported f head (output_with_status head_arguments)
     ∧ output shallow_arguments = Ok (shallow_text shallow ++ [lf])
     ∧ output index_arguments = Ok index ∧ parse_index_scope index f limits = Ok ()
     ∧ output status_arguments = Ok (terminated nul (map render es)) ∧ entries_wf f limits es
     ∧ s = {| captured_git_state := hash_git_state sha256 f head shallow; captured_status_records := canonical_records f es |})
  ∧ ∀ o, run o (capture_source_state sha256 root output output_with_status limits)
         = run never (capture_source_state sha256 root output output_with_status limits)
         ∨ ∃ k e, o k = Some e ∧ run o (capture_source_state sha256 root output output_with_status limits) = Err e.
Proof.
  intros Hl. split; [|intros o; apply steady_run; unfold capture_source_state; solve_steady].
  rewrite capture_run. split.
  - intros H. apply bind_Ok in H as ([] & Hroot%map_err_Ok & H). split; [done|].
    apply bind_Ok in H as (f & (o1 & E1%map_err_Ok & ->%parse_object_format_spec)%bind_Ok & H).
    apply bind_Ok in H as (head & Hh%capture_head_spec & H).
    apply bind_Ok in H as (shallow & (o2 & E2%map_err_Ok & ->%parse_shallow_spec)%bind_Ok & H).
    apply bind_Ok in H as ([] & (index & E3%map_err_Ok & Hi)%bind_Ok & H).
    apply bind_Ok in H as (status & E4%map_err_Ok & H). apply bind_Ok in H as (rs & Hrs & [= <-]).
    apply status_records_spec in Hrs as (es & -> & Hes & ->); [|done]. by exists f, head, shallow, index, es.
  - intros (-> & f & head & shallow & index & es & E1 & Hh%capture_head_spec & E2 & E3 & Hi & E4 & Hes & ->).
    unfold capture_object_format, capture_shallow_state, inspect_index_scope, capture_status, capture. rewrite E1, E2, E3, E4. rstep.
    rewrite (proj2 (parse_object_format_spec _ f)) by done. rstep. rewrite Hh. rstep. rewrite (proj2 (parse_shallow_spec _ shallow)) by done. rstep.
    rewrite Hi. rstep.
    by rewrite (proj2 (status_records_spec _ f limits (canonical_records f es) Hl) (ex_intro _ es (conj eq_refl (conj Hes eq_refl)))).
Qed.

(** A clone without commits. *)
Definition state_git (args : list bytes) : result GitPathDiscoveryError bytes :=
  if bool_decide (args = object_format_arguments) then Ok (b_of "sha1" ++ [lf])
  else if bool_decide (args = shallow_arguments) then Ok (b_of "false" ++ [lf])
  else if bool_decide (args = index_arguments) then Ok (terminated nul (map render_index state_index))
  else Ok (terminated nul (map render state_entries)).

Lemma source_capture_exact_witness :
  run never (capture_source_state id (Ok ()) state_git (λ _, Ok ((false, Some 1), [])) git_limits)
  = Ok {| captured_git_state := git_state_message Sha1 None false; captured_status_records := canonical_records Sha1 state_entries |}.
Proof.
  apply (source_capture_exact id (Ok ()) state_git (λ _, Ok ((false, Some 1), [])) git_limits); [split; vm_compute; split; discriminate|].
  split; [done|]. exists Sha1, None, false, (terminated nul (map render_index state_index)), state_entries.
  split_and!; [by vm_compute|done|by vm_compute..|apply state_entries_wf|done].
Defined.
