(* ===== verification/WatchSupervisor.v ===== *)
(** * The watch supervisor

    Models [crates/repowitness-local/src/watch_reconciliation/supervisor.rs]: one source slot's
    supervisor, which keeps the bounded dirty hints beside the polling schedule and discards
    them when complete work is admitted.  A method that takes [&mut self] returns its result
    with the state it leaves; the order and byte length of paths are parameters. *)

From Stdlib Require Import ZArith Lia ZifyBool.
From Stdlib Require Import Strings.Byte.
From stdpp Require Import base numbers sorting list.
From S2P Require Import Prelude Ordering Configuration ConfigurationResolve WatchHints WatchSchedule.

Open Scope Z_scope.

(** ** Requests *)

Section supervisor.
Context {P : Type} `{RustOrd P} (byte_count : P → Z) {ConfigurationDigest : Type}.

Record PollingReconciliationRequest := {
  req_started_at : Z;
  req_schedule_limits : WatcherScheduleLimits;
  req_hint_limits : WatcherHintLimits;
  req_configuration : option (ResolvedConfiguration ConfigurationDigest);
  req_native_event_hints : bool;
}.

Definition request_new (started_at : Z) (configuration : option (ResolvedConfiguration ConfigurationDigest))
    : PollingReconciliationRequest :=
  {| req_started_at := started_at; req_schedule_limits := WatchSchedule.DEFAULT; req_hint_limits := HINT_DEFAULT;
     req_configuration := configuration; req_native_event_hints := false |}.

Definition with_schedule_limits (r : PollingReconciliationRequest) (limits : WatcherScheduleLimits) : PollingReconciliationRequest :=
  {| req_started_at := req_started_at r; req_schedule_limits := limits; req_hint_limits := req_hint_limits r;
     req_configuration := req_configuration r; req_native_event_hints := req_native_event_hints r |}.

Definition with_hint_limits (r : PollingReconciliationRequest) (limits : WatcherHintLimits) : PollingReconciliationRequest :=
  {| req_started_at := req_started_at r; req_schedule_limits := req_schedule_limits r; req_hint_limits := limits;
     req_configuration := req_configuration r; req_native_event_hints := req_native_event_hints r |}.

Definition with_native_event_hints (r : PollingReconciliationRequest) : PollingReconciliationRequest :=
  {| req_started_at := req_started_at r; req_schedule_limits := req_schedule_limits r; req_hint_limits := req_hint_limits r;
     req_configuration := req_configuration r; req_native_event_hints := true |}.

Definition DEFAULT_WATCHER_POLL_INTERVAL_MS : Z := 2000.

Definition effective_poll_interval (r : PollingReconciliationRequest) : Z :=
  if req_native_event_hints r then periodic (req_schedule_limits r)
  else
    let configured :=
      match req_configuration r with
      | None => DEFAULT_WATCHER_POLL_INTERVAL_MS
      | Some configuration => effective (eff_watcher_poll_interval_ms (res_preferences configuration))
      end in
    Z.min configured (periodic (req_schedule_limits r)).

Definition configuration_digest (r : PollingReconciliationRequest) : option ConfigurationDigest :=
  option_map res_digest (req_configuration r).

(** ** The supervisor *)

Record PollingHintObservation := {
  observed_admission : WatcherHintAdmission;
  observed_scheduling : WatcherObservationOutcome;
}.

Record CompleteReconciliationWork := { work_reason : WatcherReconciliationReason }.

Record PollingReconciliationSupervisor := {
  sup_effective_poll_interval : Z;
  sup_configuration_digest : option ConfigurationDigest;
  sup_schedule_limits : WatcherScheduleLimits;
  sup_hint_limits : WatcherHintLimits;
  sup_hints : WatcherHintAccumulator (P := P);
  sup_state : WatcherPollingState;
}.

Implicit Types (s : PollingReconciliationSupervisor).

Definition start (request : PollingReconciliationRequest) : result WatcherStateError PollingReconciliationSupervisor :=
  state ← schedule_new (req_started_at request) (req_schedule_limits request);
  Ok {| sup_effective_poll_interval := effective_poll_interval request;
        sup_configuration_digest := configuration_digest request;
        sup_schedule_limits := req_schedule_limits request; sup_hint_limits := req_hint_limits request;
        sup_hints := hints_new (req_hint_limits request); sup_state := state |}.

(** Assignments to one field. *)
Definition set_hints s (hints : WatcherHintAccumulator) : PollingReconciliationSupervisor :=
  {| sup_effective_poll_interval := sup_effective_poll_interval s; sup_configuration_digest := sup_configuration_digest s;
     sup_schedule_limits := sup_schedule_limits s; sup_hint_limits := sup_hint_limits s; sup_hints := hints;
     sup_state := sup_state s |}.
Definition set_state s (state : WatcherPollingState) : PollingReconciliationSupervisor :=
  {| sup_effective_poll_interval := sup_effective_poll_interval s; sup_configuration_digest := sup_configuration_digest s;
     sup_schedule_limits := sup_schedule_limits s; sup_hint_limits := sup_hint_limits s; sup_hints := sup_hints s;
     sup_state := state |}.

Definition hint_requires_full_reconciliation (admission : WatcherHintAdmission) : bool :=
  match admission with
  | PathCountOverflow | PathByteOverflow | UnsupportedEvent | HintCounterOverflow | FullReconciliationAlreadyRequired => true
  | Retained | Duplicate => false
  end.

Definition observe_hint s (path : P) (now : Z) : PollingHintObservation * PollingReconciliationSupervisor :=
  let '(admission, hints) := record_hint byte_count (sup_hints s) path in
  let s := set_hints s hints in
  let '(scheduling, state) :=
    if hint_requires_full_reconciliation admission then observe_full_reconciliation_required now (sup_state s)
    else observe_dirty now (sup_state s) in
  ({| observed_admission := admission; observed_scheduling := scheduling |}, set_state s state).

Definition observe_unsupported_event s (now : Z) : PollingHintObservation * PollingReconciliationSupervisor :=
  let '(admission, hints) := record_unsupported_event (sup_hints s) in
  let s := set_hints s hints in
  let '(scheduling, state) := observe_full_reconciliation_required now (sup_state s) in
  ({| observed_admission := admission; observed_scheduling := scheduling |}, set_state s state).

Definition supervisor_poll s (now : Z) : WatcherPollDecision * PollingReconciliationSupervisor :=
  let '(decision, state) := poll now (sup_state s) in (decision, set_state s state).

Definition supervisor_begin_pending s
    : result WatcherStateError CompleteReconciliationWork * PollingReconciliationSupervisor :=
  let '(begun, state) := begin_pending (sup_state s) in
  let s := set_state s state in
  match begun with
  | Err e => (Err e, s)
  | Ok reason => let '(_, hints) := drain (sup_hints s) in (Ok {| work_reason := reason |}, set_hints s hints)
  end.

Definition supervisor_complete s (now : Z) (completion : WatcherCompletion)
    : result WatcherStateError WatcherCompletionOutcome * PollingReconciliationSupervisor :=
  let '(completed, state) := complete now completion (sup_state s) in (completed, set_state s state).

Definition supervisor_cancel s : PollingReconciliationSupervisor :=
  let s := set_state s (cancel (sup_state s)) in
  let '(_, hints) := drain (sup_hints s) in set_hints s hints.

Definition pending_hint_paths s : Z := retained_path_count (sup_hints s).
Definition pending_hint_path_bytes s : Z := retained_path_bytes (sup_hints s).
Definition is_cancelled s : bool := cancelled (sup_state s).

(** ** Runs

    Whoever drives the supervisor calls its methods in any order, with any timestamps. *)

Inductive SupervisorCall :=
| CallHint (path : P) (now : Z)
| CallUnsupported (now : Z)
| CallPoll (now : Z)
| CallBegin
| CallComplete (now : Z) (completion : WatcherCompletion)
| CallCancel.

Definition call_time (c : SupervisorCall) : option Z :=
  match c with
  | CallHint _ now | CallUnsupported now | CallPoll now | CallComplete now _ => Some now
  | CallBegin | CallCancel => None
  end.

(** The timestamps are [u64] values. *)
Definition call_wf (c : SupervisorCall) : Prop := match call_time c with Some now => in_u64 now | None => True end.

(** One call: the event the schedule goes through, the events the hints go through, and the
    supervisor it leaves. *)
Definition call (c : SupervisorCall) s : (WatcherEvent * list (HintEvent (P := P))) * PollingReconciliationSupervisor :=
  match c with
  | CallHint path now =>
      let '(o, s) := observe_hint s path now in
      ((EObserve now (hint_requires_full_reconciliation (observed_admission o)) (observed_scheduling o), [HintPath path]), s)
  | CallUnsupported now =>
      let '(o, s) := observe_unsupported_event s now in ((EObserve now true (observed_scheduling o), [HintUnsupported]), s)
  | CallPoll now => let '(d, s) := supervisor_poll s now in ((EPoll now d, []), s)
  | CallBegin =>
      let '(r, s) := supervisor_begin_pending s in
      match r with
      | Ok work => ((EBegin (Ok (work_reason work)), [HintDrain]), s)
      | Err e => ((EBegin (Err e), []), s)
      end
  | CallComplete now completion =>
      let '(r, s) := supervisor_complete s now completion in ((EComplete now completion r, []), s)
  | CallCancel => ((ECancel, [HintDrain]), supervisor_cancel s)
  end.

Fixpoint supervise (cs : list SupervisorCall) s : (list WatcherEvent * list (HintEvent (P := P))) * PollingReconciliationSupervisor :=
  match cs with
  | [] => (([], []), s)
  | c :: cs =>
      let '((e, hs), s) := call c s in
      let '((es, hs'), s) := supervise cs s in
      ((e :: es, hs ++ hs'), s)
  end.
End supervisor.

(** ** Facts about one call *)

Section properties.
Context {P : Type} `{RustOrd P} (byte_count : P → Z) {D : Type}.
Implicit Types (s : PollingReconciliationSupervisor (P := P) (ConfigurationDigest := D)).

(** A call is one step of the schedule and a few events of the hints. *)
Lemma call_step c s e hs s' :
  call_wf c → call byte_count c s = ((e, hs), s') →
  step (sup_state s) e (sup_state s') ∧ sup_hints s' = hints_run byte_count (sup_hints s) hs.
Proof.
  intros Hw. destruct c as [path now|now|now| |now completion|]; simpl in *.
  - unfold observe_hint. destruct (record_hint _ _ _) as [admission hints] eqn:E. simpl.
    destruct (hint_requires_full_reconciliation admission) eqn:Ef; simpl.
    + destruct (observe_full_reconciliation_required now (sup_state s)) as [o st] eqn:Eo. simpl. rewrite Ef. intros [= <- <- <-].
      simpl. rewrite E. split; [|done]. pose proof (StepObserve now true (sup_state s) Hw) as Hs.
      unfold observe_full_reconciliation_required in Eo. by rewrite Eo in Hs.
    + destruct (observe_dirty now (sup_state s)) as [o st] eqn:Eo. simpl. rewrite Ef. intros [= <- <- <-].
      simpl. rewrite E. split; [|done]. pose proof (StepObserve now false (sup_state s) Hw) as Hs.
      unfold observe_dirty in Eo. by rewrite Eo in Hs.
  - unfold observe_unsupported_event. destruct (record_unsupported_event _) as [admission hints] eqn:E. simpl.
    destruct (observe_full_reconciliation_required now (sup_state s)) as [o st] eqn:Eo. simpl. intros [= <- <- <-].
    simpl. rewrite E. split; [|done]. pose proof (StepObserve now true (sup_state s) Hw) as Hs.
    unfold observe_full_reconciliation_required in Eo. by rewrite Eo in Hs.
  - unfold supervisor_poll. destruct (poll now (sup_state s)) as [d st] eqn:E. intros [= <- <- <-]. simpl.
    split; [|done]. pose proof (StepPoll now (sup_state s) Hw) as Hs. by rewrite E in Hs.
  - unfold supervisor_begin_pending. pose proof (StepBegin (sup_state s)) as Hs.
    destruct (begin_pending (sup_state s)) as [[reason|err] st] eqn:E; simpl in *; intros [= <- <- <-]; simpl; by split.
  - unfold supervisor_complete. pose proof (StepComplete now completion (sup_state s) Hw) as Hs.
    destruct (complete now completion (sup_state s)) as [r st] eqn:E. intros [= <- <- <-]. by split.
  - intros [= <- <- <-]. simpl. split; [apply StepCancel|done].
Qed.

(** The hints pending, and those that demand a complete reconciliation, are on the schedule. *)
Record hints_scheduled s : Prop := {
  hs_paths : is_cancelled s = false → acc_paths (sup_hints s) ≠ [] → recorded (sup_state s);
  hs_full : is_cancelled s = false → acc_causes (sup_hints s) ≠ 0 → full_reconciliation_required (sup_state s) = true;
}.

(** What leaves the flags standing unless it cancels the machine. *)
Definition keeps (st st' : WatcherPollingState) : Prop :=
  cancelled st' = false →
  cancelled st = false ∧ (recorded st → recorded st')
  ∧ (full_reconciliation_required st = true → full_reconciliation_required st' = true).

Ltac solve_keeps st := unfold keeps, recorded; destruct st; simpl; slot_eval; intros; try done; split_and!; eauto; try tauto; naive_solver.

Lemma poll_kept now st : keeps st (poll now st).2.
Proof. solve_keeps st. Qed.
Lemma begin_kept st e st' : begin_pending st = (Err e, st') → keeps st st'.
Proof. solve_keeps st. Qed.
Lemma complete_kept now completion st : keeps st (complete now completion st).2.
Proof. solve_keeps st. Qed.

Lemma kept_scheduled s st : keeps (sup_state s) st → hints_scheduled s → hints_scheduled (set_state s st).
Proof.
  intros Hk [Hp Hf]. split; unfold is_cancelled in *; simpl; intros Hc Hne; destruct (Hk Hc) as (? & ? & ?); auto.
Qed.

(** A poll that finds a reason, and the admission of a pending one. *)
Lemma poll_admits now st :
  cancelled st = false → active st = false → last_timestamp st ≤ now →
  let st' := (poll now st).2 in
  cancelled st' = false ∧ active st' = false ∧ reconciliations_started (counters st') = reconciliations_started (counters st).
Proof. intros Hc Ha Ht. destruct st; simpl in *; subst; slot_eval; try done; lia. Qed.

Lemma begin_admits st reason :
  cancelled st = false → active st = false → pending st = Some reason → reconciliations_started (counters st) < u64_max →
  let '(r, st') := begin_pending st in r = Ok reason ∧ active st' = true ∧ ¬ recorded st'.
Proof.
  intros Hc Ha Hp Hr. unfold recorded. destruct st; simpl in *; subst. slot_eval; split_and!; try done; try (intros [[]|]; done).
  all: unfold u64_saturating_add in *; lia.
Qed.

Lemma observed_kept now full st :
  cancelled (observe now full st).2 = false →
  recorded (observe now full st).2 ∧ (full = true → full_reconciliation_required (observe now full st).2 = true).
Proof. unfold recorded. destruct st; simpl; slot_eval; intros; split; eauto; done. Qed.

(** A hint that leaves a cause of a complete reconciliation asks for one. *)
Lemma record_hint_full (h : WatcherHintAccumulator (P := P)) p :
  acc_causes (record_hint byte_count h p).2 ≠ 0 → hint_requires_full_reconciliation (record_hint byte_count h p).1 = true.
Proof.
  destruct h as [l ps n b causes k]. unfold record_hint, retain_new_path, overflow, count_observed, count_coalesced, count_duplicate,
    count_overflow, counter_overflow, causes_is_empty.
  cbn [acc_causes acc_paths acc_limits acc_counters retained_path_count retained_path_bytes with_counters].
  destruct (Z.eqb_spec causes 0) as [->|Hne].
  all: repeat (case_match; simplify_eq/=); first [done|lia].
Qed.


Lemma call_scheduled c s e hs s' : call byte_count c s = ((e, hs), s') → hints_scheduled s → hints_scheduled s'.
Proof.
  intros Hc Hs. destruct c as [path now|now|now| |now completion|]; simpl in Hc.
  - unfold observe_hint in Hc. pose proof (record_hint_full (sup_hints s) path) as Hf.
    destruct (record_hint _ _ _) as [admission hints]. simpl in Hf.
    assert (∀ full, (acc_causes hints ≠ 0 → full = true) → hints_scheduled (set_state (set_hints s hints) (observe now full (sup_state s)).2)) as Hg.
    { intros full Hfull. split; unfold is_cancelled; simpl; intros Hca Hne; destruct (observed_kept now full _ Hca) as [? Hk]; auto. }
    destruct (hint_requires_full_reconciliation admission); simpl in Hc.
    + specialize (Hg true Hf). unfold observe_full_reconciliation_required in Hc. destruct (observe now true _). simplify_eq/=. exact Hg.
    + specialize (Hg false Hf). unfold observe_dirty in Hc. destruct (observe now false _). simplify_eq/=. exact Hg.
  - unfold observe_unsupported_event in Hc. destruct (record_unsupported_event _) as [admission hints].
    pose proof (observed_kept now true (sup_state s)) as Hk. unfold observe_full_reconciliation_required in Hc. simpl in Hc.
    destruct (observe now true _) as [o st]. simplify_eq/=. split; unfold is_cancelled; simpl; intros Hca _; destruct (Hk Hca); auto.
  - unfold supervisor_poll in Hc. pose proof (poll_kept now (sup_state s)) as Hk. destruct (poll now (sup_state s)) as [d st].
    simplify_eq/=. by apply kept_scheduled.
  - unfold supervisor_begin_pending in Hc. pose proof (begin_kept (sup_state s)) as Hk. destruct (begin_pending (sup_state s)) as [[r|err] st].
    + simplify_eq/=. by split.
    + simplify_eq/=. apply kept_scheduled; [by eapply Hk|done].
  - unfold supervisor_complete in Hc. pose proof (complete_kept now completion (sup_state s)) as Hk.
    destruct (complete now completion (sup_state s)) as [r st]. simplify_eq/=. by apply kept_scheduled.
  - simplify_eq/=. by split.
Qed.

(** ** Runs *)

Lemma steps_cons st e st' es st'' : step st e st' → steps st' es st'' → steps st (e :: es) st''.
Proof.
  intros Hs. induction 1 as [|st' es st2 e' st3 _ IH Hs']; [by apply (StepsSnoc st [] st); [constructor|]|].
  eapply (StepsSnoc _ (e :: es)); [by apply IH|done].
Qed.

Lemma supervise_spec cs s es hs s' :
  Forall call_wf cs → supervise byte_count cs s = ((es, hs), s') → hints_scheduled s →
  steps (sup_state s) es (sup_state s') ∧ sup_hints s' = hints_run byte_count (sup_hints s) hs ∧ hints_scheduled s'.
Proof.
  intros Hw. revert s es hs. induction Hw as [|c cs Hc _ IH]; intros s es hs Hr Hs; simpl in Hr.
  { simplify_eq. split; [constructor|done]. }
  destruct (call byte_count c s) as [[e hs1] s1] eqn:E1. destruct (supervise byte_count cs s1) as [[es2 hs2] s2] eqn:E2.
  simplify_eq. pose proof (call_step _ _ _ _ _ Hc E1) as [Hstep Hh]. pose proof (call_scheduled _ _ _ _ _ E1 Hs) as Hs1.
  destruct (IH _ _ _ E2 Hs1) as (Hsteps & Hh2 & Hs2). split; [by eapply steps_cons|]. split; [|done].
  rewrite Hh2, Hh. unfold hints_run. by rewrite foldl_app.
Qed.

(** A poll at the horizon finds a reason, and the work then admitted takes every hint. *)
Lemma due_admitted now s :
  in_u64 now → schedule_wf (sup_state s) → is_cancelled s = false → active (sup_state s) = false →
  horizon (sup_state s) ≤ now → reconciliations_started (counters (sup_state s)) < u64_max →
  ∃ reason s', supervise byte_count [CallPoll now; CallBegin] s =
    (([EPoll now (PollPending reason); EBegin (Ok reason)], [HintDrain]), s')
    ∧ acc_paths (sup_hints s') = [] ∧ acc_causes (sup_hints s') = 0 ∧ active (sup_state s') = true ∧ ¬ recorded (sup_state s').
Proof.
  intros Hn Hw Hc Ha Hh Hr. destruct (poll_due now _ Hw Hc Ha Hh) as (reason & Hd & Hp).
  exists reason. simpl. unfold supervisor_poll. pose proof (poll_admits now (sup_state s)) as Hpa.
  destruct (poll now (sup_state s)) as [d st]. simpl in *. subst d.
  destruct Hpa as (Hc1 & Ha1 & Hr1); [done..|unfold horizon in Hh; destruct (wf_limits _ Hw) as (_ & ? & ? & _); lia|].
  unfold supervisor_begin_pending. simpl. pose proof (begin_admits st reason) as Hb.
  destruct (begin_pending st) as [r st']. destruct Hb as (Hb & Hact & Hrec); [done..|lia|]. simpl in *. subst r. simpl.
  eexists. split_and!; done.
Qed.
End properties.

(** The effective poll interval is positive and never longer than the period in which a
    complete reconciliation is mandatory, whatever a resolved configuration prefers. *)
Theorem poll_interval_bounded {D} (sha256 : bytes → D) (ls : list ConfigurationLayer) (request : PollingReconciliationRequest) :
  limits_valid (req_schedule_limits request) →
  (∀ configuration, req_configuration request = Some configuration →
     Forall layer_valid ls ∧ resolve_configuration sha256 ls = Ok configuration) →
  1 ≤ effective_poll_interval request ≤ periodic (req_schedule_limits request)
  ∧ (req_native_event_hints request = true → effective_poll_interval request = periodic (req_schedule_limits request)).
Proof.
  intros (_ & Hp & _) Hc. unfold effective_poll_interval.
  destruct (req_native_event_hints request); [split; [lia|done]|]. split; [|done].
  destruct (req_configuration request) as [configuration|]; [|unfold DEFAULT_WATCHER_POLL_INTERVAL_MS; lia].
  destruct (Hc _ eq_refl) as [Hv [_ ->]%resolve_Ok]. destruct (resolved_bounds sha256 ls Hv) as [Hn _].
  unfold preference_numbers, preference_maxima in Hn. rewrite !Forall2_cons in Hn. destruct Hn as (_ & _ & _ & _ & Hn & _). lia.
Qed.

(** C26: the supervisor composes the schedule and the hints without losing a hint.  After any
    calls, its schedule has made a run of the polling machine and its hints one of the
    accumulator, drained exactly when work is admitted or the supervisor is cancelled; until it
    is cancelled, any pending hint has work recorded on the schedule and a demand for a
    complete reconciliation has it marked mandatory; and a poll at or after the horizon of an
    idle supervisor whose counter is not at its end gives a reason, for which the next
    admission succeeds and leaves neither a hint nor an obligation behind. *)
Theorem supervisor_exact {P} `{RustOrd P} (byte_count : P → Z) {D : Type} (request : PollingReconciliationRequest (ConfigurationDigest := D))
    (d p r m : Z) (cs : list SupervisorCall) (sup0 sup : PollingReconciliationSupervisor (P := P))
    (es : list WatcherEvent) (hs : list HintEvent) :
  limits_try_new d p r m = Ok (req_schedule_limits request) → 0 ≤ d → 0 ≤ p → 0 ≤ r → 0 ≤ m → in_u64 (req_started_at request) →
  start request = Ok sup0 → Forall call_wf cs → supervise byte_count cs sup0 = ((es, hs), sup) →
  reaches (req_schedule_limits request) es (sup_state sup)
  ∧ sup_hints sup = hints_run byte_count (hints_new (req_hint_limits request)) hs
  ∧ hints_scheduled sup
  ∧ (∀ now, in_u64 now → is_cancelled sup = false → active (sup_state sup) = false → horizon (sup_state sup) ≤ now →
     reconciliations_started (counters (sup_state sup)) < u64_max →
     ∃ reason sup', supervise byte_count [CallPoll now; CallBegin] sup =
         (([EPoll now (PollPending reason); EBegin (Ok reason)], [HintDrain]), sup')
       ∧ acc_paths (sup_hints sup') = [] ∧ acc_causes (sup_hints sup') = 0
       ∧ active (sup_state sup') = true ∧ ¬ recorded (sup_state sup')).
Proof.
  intros Hl Hd Hp Hr Hm Ht Hs Hw Hc. unfold start in Hs.
  destruct (schedule_new (req_started_at request) (req_schedule_limits request)) as [st|] eqn:E; [|done].
  simpl in Hs. injection Hs as <-. apply supervise_spec in Hc as (Hsteps & Hh & Hsch); [|done|by split].
  simpl in Hsteps, Hh. assert (reaches (req_schedule_limits request) es (sup_state sup)) as Hreach.
  { exists d, p, r, m, (req_started_at request), st. by split_and!. }
  split_and!; [done..|]. intros now Hn Hca Ha Hho Hcount. apply due_admitted; try done. by eapply reaches_wf.
Qed.

(** A file changes, then one too many; the work is admitted when the watcher is polled. *)
Definition watch_request : PollingReconciliationRequest (ConfigurationDigest := bytes) :=
  with_hint_limits (request_new 1000 (Some example_resolved)) hint_limits.
Definition watch_calls : list (SupervisorCall (P := bytes)) :=
  [CallBegin; CallComplete 1100 Succeeded; CallHint [x62] 1200; CallHint [x61] 1300; CallHint [x63] 1400].
Definition watch_started : PollingReconciliationSupervisor (P := bytes) (ConfigurationDigest := bytes) :=
  default {| sup_effective_poll_interval := 0; sup_configuration_digest := None; sup_schedule_limits := WatchSchedule.DEFAULT;
             sup_hint_limits := HINT_DEFAULT; sup_hints := hints_new HINT_DEFAULT; sup_state := example_schedule |}
    (match start watch_request with Ok s => Some s | Err _ => None end).

Lemma supervisor_exact_witness :
  let '((es, hs), sup) := supervise len watch_calls watch_started in
  es = [EBegin (Ok Startup); EComplete 1100 Succeeded (Ok OutcomeCompleted); EObserve 1200 false ObservedDirtyDebouncing;
        EObserve 1300 false ObservedDirtyDebouncing; EObserve 1400 true ObservedFullReconciliationPending]
  ∧ hs = [HintDrain; HintPath [x62]; HintPath [x61]; HintPath [x63]]
  ∧ acc_causes (sup_hints sup) = PATH_COUNT_OVERFLOW ∧ full_reconciliation_required (sup_state sup) = true.
Proof.
  destruct (supervise len watch_calls watch_started) as [[es hs] sup] eqn:E.
  destruct (supervisor_exact len watch_request 250 30000 1000 5 watch_calls watch_started sup es hs) as (_ & _ & Hs & _).
  1-8: first [reflexivity | unfold in_u64, u64_max; simpl; lia | repeat (apply Forall_cons_2; [unfold call_wf, in_u64, u64_max; simpl; lia|]); apply Forall_nil_2].
  { exact E. }
  pose proof (hs_full _ Hs) as Hf. vm_compute in E. injection E as <- <- <-. split_and!; [reflexivity..|]. by apply Hf.
Defined.

(** A cancelled supervisor still takes hints, and schedules nothing for them. *)
Example cancelled_hint :
  let '(o, s) := observe_hint len (supervisor_cancel watch_started) [x61] 2000 in
  o = {| observed_admission := Retained; observed_scheduling := ObservedCancelled |} ∧ pending_hint_paths s = 1.
Proof. by vm_compute. Qed.
