(* ===== verification/GitObject.v ===== *)
(** * Git object identifiers

    Models [crates/repowitness-domain/src/git.rs]: complete object identifiers in a fixed array
    of 32 bytes, and their lowercase hexadecimal text. *)

From Stdlib Require Import ZArith Lia ZifyBool.
From Stdlib Require Import Strings.Byte.
From stdpp Require Import base numbers list.
From S2P Require Import Prelude Ordering PathText IdentityText SourceState.

Open Scope Z_scope.

(** ** Formats and identifiers *)

Inductive GitObjectIdFormat := FormatSha1 | FormatSha256.

#[export] Instance object_id_format_eq_dec : EqDecision GitObjectIdFormat.
Proof. solve_decision. Defined.

Definition format_byte_len (f : GitObjectIdFormat) : nat := match f with FormatSha1 => 20 | FormatSha256 => 32 end.
Definition format_hex_len (f : GitObjectIdFormat) : nat := format_byte_len f * 2.

Record GitObjectId := {
  oid_format : GitObjectIdFormat;
  oid_array : bytes;
}.

#[export] Instance object_id_eq_dec : EqDecision GitObjectId.
Proof. solve_decision. Defined.

Inductive GitObjectIdError := OidInvalidLength (actual : nat) | OidInvalidHex.

Definition decode_lower_hex_digit (b : byte) : option Z :=
  if (48 <=? byte_rank b) && (byte_rank b <=? 57) then Some (byte_rank b - 48)
  else if (97 <=? byte_rank b) && (byte_rank b <=? 102) then Some (byte_rank b - 97 + 10)
  else None.

Definition decode_lower_hex_pair (pair : bytes) : option byte :=
  first ← head pair;
  high ← decode_lower_hex_digit first;
  second ← pair !! 1%nat;
  low ← decode_lower_hex_digit second;
  Some (byte_of (Z.lor (Z.shiftl high 4) low)).

(** The loop over the pairs of [value], from the byte at [index] on. *)
Fixpoint write_pairs (index : nat) (value array : bytes) : result GitObjectIdError bytes :=
  match value with
  | h :: l :: rest =>
      decoded ← ok_or (decode_lower_hex_pair [h; l]) OidInvalidHex;
      write_pairs (S index) rest (<[index := decoded]> array)
  | _ => Ok array
  end.

(** On the bytes of the text. *)
Definition try_from_hex (value : bytes) : result GitObjectIdError GitObjectId :=
  format ← (if (length value =? 40)%nat then Ok FormatSha1
            else if (length value =? 64)%nat then Ok FormatSha256
            else Err (OidInvalidLength (length value)));
  array ← write_pairs 0 value (replicate 32 x00);
  Ok {| oid_format := format; oid_array := array |}.

Definition oid_as_bytes (id : GitObjectId) : bytes := take (format_byte_len (oid_format id)) (oid_array id).

Definition to_hex (id : GitObjectId) : bytes := flat_map lower_hex_byte (oid_as_bytes id).

(** ** What the constructor admits *)

(** The identifier of some bytes, and the rest of the array zero. *)
Definition object_of (f : GitObjectIdFormat) (oid : bytes) : GitObjectId :=
  {| oid_format := f; oid_array := oid ++ replicate (32 - format_byte_len f) x00 |}.

Definition object_wf (id : GitObjectId) : Prop := ∃ oid, length oid = format_byte_len (oid_format id) ∧ id = object_of (oid_format id) oid.

Lemma decode_pair_nibbles h l :
  decode_lower_hex_pair [h; l] =
  match decode_lower_hex_nibble h, decode_lower_hex_nibble l with
  | Some high, Some low => Some (byte_of (high * 16 + low))
  | _, _ => None
  end.
Proof.
  unfold decode_lower_hex_pair. simpl. change decode_lower_hex_digit with decode_lower_hex_nibble.
  destruct (decode_lower_hex_nibble h) as [high|]; [|done]. simpl.
  destruct (decode_lower_hex_nibble l) as [low|] eqn:El; [|done]. apply lower_hex_nibble_inv in El as [Hl _]. simpl. by rewrite lor_nibbles.
Qed.

Lemma write_pairs_spec index value array :
  (index * 2 + length value ≤ length array * 2)%nat →
  write_pairs index value array =
  match lower_hex_pairs value with
  | Some decoded => Ok (take index array ++ decoded ++ drop (index + length decoded) array)
  | None => Err OidInvalidHex
  end.
Proof.
  revert index array. induction value as [|x|h l value IH] using pair_ind; intros index array Hl.
  - simpl. rewrite Nat.add_0_r. by rewrite take_drop.
  - simpl. rewrite Nat.add_0_r. by rewrite take_drop.
  - cbn [write_pairs lower_hex_pairs]. rewrite decode_pair_nibbles. simpl in Hl.
    destruct (decode_lower_hex_nibble h) as [high|] eqn:Eh; [|done]. apply lower_hex_nibble_inv in Eh as [Hh _].
    cbn [mbind option_bind]. rewrite checked_in by lia. cbn [mbind option_bind].
    destruct (decode_lower_hex_nibble l) as [low|] eqn:El; [|done]. apply lower_hex_nibble_inv in El as [Hlo _].
    cbn [mbind option_bind]. rewrite checked_in by lia. cbn [mbind option_bind]. rstep.
    rewrite IH by (rewrite length_insert; lia). destruct (lower_hex_pairs value) as [decoded|]; [|done]. f_equal. simpl.
    rewrite drop_insert_lt by lia. rewrite (take_S_r _ _ (byte_of (high * 16 + low))) by (apply list_lookup_insert_eq; lia).
    rewrite take_insert_ge by lia. rewrite <- app_assoc. simpl. repeat f_equal. lia.
Qed.

(** Exactly the lowercase hexadecimal texts of 20 or 32 bytes. *)
Lemma try_from_hex_spec value id :
  try_from_hex value = Ok id ↔ object_wf id ∧ value = encode_lower_hex (oid_as_bytes id).
Proof.
  unfold try_from_hex, oid_as_bytes, object_wf. split.
  - intros H. apply bind_Ok in H as (f & Hf & H). apply bind_Ok in H as (array & Ha & [= <-]).
    assert (length value = format_hex_len f) as Hlen.
    { destruct (Nat.eqb_spec (length value) 40); [by injection Hf as <-|]. destruct (Nat.eqb_spec (length value) 64); [by injection Hf as <-|done]. }
    assert (format_byte_len f ≤ 32)%nat as Hf32 by (destruct f; simpl; lia). unfold format_hex_len in Hlen.
    rewrite write_pairs_spec in Ha by (rewrite length_replicate; lia). destruct (lower_hex_pairs value) as [oid|] eqn:E; [|done].
    apply lower_hex_pairs_Some in E as ->; [|rewrite Hlen, Nat.even_mul; apply orb_true_r]. rewrite length_encode_lower_hex in Hlen.
    assert (length oid = format_byte_len f) as Ho by lia. rewrite take_0, drop_replicate, Nat.add_0_l, Ho in Ha. injection Ha as <-.
    cbn [oid_format oid_array]. split; [by exists oid|]. by rewrite take_app_length'.
  - intros ((oid & Ho & Hid) & ->). rewrite Hid. cbn [object_of oid_array oid_format]. rewrite take_app_length' by done.
    rewrite length_encode_lower_hex, Ho.
    assert ((if (format_byte_len (oid_format id) * 2 =? 40)%nat then Ok FormatSha1
             else if (format_byte_len (oid_format id) * 2 =? 64)%nat then Ok FormatSha256
             else Err (OidInvalidLength (format_byte_len (oid_format id) * 2))) = Ok (E := GitObjectIdError) (oid_format id)) as ->
      by (by destruct (oid_format id)).
    rstep. rewrite write_pairs_spec by (rewrite length_encode_lower_hex, length_replicate, Ho; destruct (oid_format id); simpl; lia).
    rewrite lower_hex_pairs_encode, take_0, drop_replicate, Nat.add_0_l, Ho. rstep. by rewrite Hid at 2.
Qed.

(** Text and identifier round-trip. *)
Lemma to_hex_round_trip id : object_wf id → try_from_hex (to_hex id) = Ok id.
Proof. intros Hw. apply try_from_hex_spec. by split. Qed.

Lemma to_hex_text value id : try_from_hex value = Ok id → to_hex id = value.
Proof. by intros [_ ->]%try_from_hex_spec. Qed.
