(* ===== verification/ChangeManifest.v ===== *)
(** * Change manifests

    Models the manifest of [crates/repowitness-application/src/change_receipt.rs] and its capture
    in [crates/repowitness-local/src/change_manifest.rs]: the comparison of a base commit with the
    worktree, read from four bounded Git commands.  What a subprocess writes and how it exits,
    and SHA-256, are parameters; the control is the oracle of the [ctl] monad, which is polled
    once while a subprocess runs.  As for the other captures a deadline of zero is an answer of
    the first check, and one past the end of the clock stays outside. *)

From Stdlib Require Import ZArith Lia ZifyBool.
From Stdlib Require Import Strings.Byte.
From stdpp Require Import base numbers sorting list.
From S2P Require Import Prelude Ordering RepositoryPath IdentityText Utf8 GitPaths SourceState SourceStatus SourceIndex GitObject.

Open Scope Z_scope.

(** ** The manifest *)

Definition CHANGE_MANIFEST_PROFILE_VERSION : Z := 1.

Inductive ChangeKind := Added | Modified | Deleted | TypeChanged | Untracked.

Definition change_kind_as_str (kind : ChangeKind) : bytes :=
  match kind with
  | Added => b_of "added"
  | Modified => b_of "modified"
  | Deleted => b_of "deleted"
  | TypeChanged => b_of "type_changed"
  | Untracked => b_of "untracked"
  end.

Record ChangeManifestEntry := {
  change_path : RepositoryPath;
  change_kind : ChangeKind;
}.

Record ChangeManifest := {
  manifest_base : GitObjectId;
  manifest_entries : list ChangeManifestEntry;
}.

Inductive ChangeManifestError := PathsNotInCanonicalOrder | DuplicatePath.

(** The loop over [entries.windows(2)]. *)
Fixpoint check_canonical_order (entries : list ChangeManifestEntry) : result ChangeManifestError () :=
  match entries with
  | first :: (second :: _) as rest =>
      match path_cmp (change_path first) (change_path second) with
      | Lt => check_canonical_order rest
      | Eq => Err DuplicatePath
      | Gt => Err PathsNotInCanonicalOrder
      end
  | _ => Ok ()
  end.

Definition manifest_try_new (base : GitObjectId) (entries : list ChangeManifestEntry) : result ChangeManifestError ChangeManifest :=
  check_canonical_order entries;;
  Ok {| manifest_base := base; manifest_entries := entries |}.

Definition manifest_path_count (m : ChangeManifest) : Z := default u64_max (u64_of_len (length (manifest_entries m))).

(** ** Receipts *)

Section receipts.
(** The result of an indexed context, and the digest of a Git state. *)
Context {ContextBuildResult GitStateDigest : Type}.

Inductive IndexedContextUnavailableReason := StaleSource.

Inductive IndexedContext :=
| ContextAvailable (context : ContextBuildResult)
| ContextUnavailable (reason : IndexedContextUnavailableReason).

Inductive IndexWorktreeAlignment := AlignmentVerified | AlignmentMismatch | AlignmentUnavailable.

Definition alignment_as_str (alignment : IndexWorktreeAlignment) : bytes :=
  match alignment with
  | AlignmentVerified => b_of "verified"
  | AlignmentMismatch => b_of "mismatch"
  | AlignmentUnavailable => b_of "unavailable"
  end.

Definition reason_as_str (reason : IndexedContextUnavailableReason) : bytes :=
  match reason with StaleSource => b_of "stale_source" end.

Record ChangeReviewReceipt := {
  worktree_git_state : GitStateDigest;
  receipt_manifest : ChangeManifest;
  indexed_context : IndexedContext;
  index_worktree_alignment : IndexWorktreeAlignment;
}.

Definition with_indexed_context (state : GitStateDigest) (manifest : ChangeManifest) (context : ContextBuildResult)
    (alignment : IndexWorktreeAlignment) : ChangeReviewReceipt :=
  {| worktree_git_state := state; receipt_manifest := manifest; indexed_context := ContextAvailable context;
     index_worktree_alignment := alignment |}.

Definition without_indexed_context (state : GitStateDigest) (manifest : ChangeManifest)
    (reason : IndexedContextUnavailableReason) (alignment : IndexWorktreeAlignment) : ChangeReviewReceipt :=
  {| worktree_git_state := state; receipt_manifest := manifest; indexed_context := ContextUnavailable reason;
     index_worktree_alignment := alignment |}.
End receipts.

(** ** Parsing *)

Inductive LocalChangeManifestError :=
| ChangeGit (source : GitPathDiscoveryError)
| ResolvedBaseMismatch
| InvalidResolvedBase
| InvalidDiffRecord
| UnsupportedDiffStatus
| InvalidChangePath (ordinal : Z) (source : RepositoryPathError)
| ChangePathLimitExceeded (limit : Z)
| DuplicateChangePath
| PathCountNotRepresentable
| CapturedOutputBytesNotRepresentable
| InvalidManifest (source : ChangeManifestError).

Definition parse_resolved_base (output : bytes) : result LocalChangeManifestError GitObjectId :=
  value ← ok_or (strip_last lf output) InvalidResolvedBase;
  if bool_decide (lf ∈ value) then Err InvalidResolvedBase
  else
    ok_or (from_utf8 value) InvalidResolvedBase;;
    map_err (λ _, InvalidResolvedBase) (try_from_hex value).

Definition take_nul_record (input : bytes) : result LocalChangeManifestError (bytes * bytes) :=
  ok_or (split_once nul input) InvalidDiffRecord.

Definition is_git_mode (value : bytes) : bool :=
  (length value =? 6)%nat && forallb (λ b, (48 <=? byte_rank b) && (byte_rank b <=? 55)) value.

Definition is_full_lower_hex_object_id (value : bytes) : bool :=
  ((length value =? 40)%nat || (length value =? 64)%nat)
  && forallb (λ b, ((48 <=? byte_rank b) && (byte_rank b <=? 57)) || ((97 <=? byte_rank b) && (byte_rank b <=? 102))) value.

(** [strip_prefix(b":")]. *)
Definition strip_colon (header : bytes) : option bytes :=
  match header with b :: header => if bool_decide (b = x3a) then Some header else None | [] => None end.

Definition parse_raw_diff_header (header : bytes) : result LocalChangeManifestError ChangeKind :=
  header ← ok_or (strip_colon header) InvalidDiffRecord;
  match split_byte space header with
  | [old_mode; new_mode; old_id; new_id; status] =>
      if negb (is_git_mode old_mode) || negb (is_git_mode new_mode)
         || negb (is_full_lower_hex_object_id old_id) || negb (is_full_lower_hex_object_id new_id)
      then Err InvalidDiffRecord
      else if bool_decide (status = b_of "A") then Ok Added
      else if bool_decide (status = b_of "M") then Ok Modified
      else if bool_decide (status = b_of "D") then Ok Deleted
      else if bool_decide (status = b_of "T") then Ok TypeChanged
      else Err UnsupportedDiffStatus
  | _ => Err InvalidDiffRecord
  end.

(** The changes are a B-tree map. *)
Definition Changes : Type := list (RepositoryPath * ChangeKind).

Definition next_ordinal (changes : Changes) : result LocalChangeManifestError Z :=
  count ← ok_or (u64_of_len (length changes)) PathCountNotRepresentable;
  ok_or (u64_checked_add count 1) PathCountNotRepresentable.

Definition insert_change (changes : Changes) (path : RepositoryPath) (kind : ChangeKind) (limits : GitPathDiscoveryLimits)
    : result LocalChangeManifestError Changes :=
  if bool_decide (is_Some (bmap_get path changes)) then Err DuplicateChangePath
  else
    path_count ← ok_or (u64_of_len (length changes)) PathCountNotRepresentable;
    next_count ← ok_or (u64_checked_add path_count 1) PathCountNotRepresentable;
    if limit_paths limits <? next_count then Err (ChangePathLimitExceeded (limit_paths limits))
    else Ok (bmap_insert path kind changes).

(** What both loops do with the bytes of a path. *)
Definition add_change (limits : GitPathDiscoveryLimits) (changes : Changes) (path_bytes : bytes) (kind : ChangeKind)
    : result LocalChangeManifestError Changes :=
  ordinal ← next_ordinal changes;
  path ← map_err (InvalidChangePath ordinal) (try_from_bytes path_bytes (limit_repository_path limits));
  insert_change changes path kind limits.

(** One record of the raw diff: the changes and what remains. *)
Definition raw_diff_record (limits : GitPathDiscoveryLimits) (changes : Changes) (remaining : bytes)
    : result LocalChangeManifestError (Changes * bytes) :=
  '(header, after_header) ← take_nul_record remaining;
  '(path_bytes, after_path) ← take_nul_record after_header;
  kind ← parse_raw_diff_header header;
  changes ← add_change limits changes path_bytes kind;
  Ok (changes, after_path).

(** [while !remaining.is_empty()]; a record takes two bytes or more. *)
Fixpoint raw_diff_loop (fuel : nat) (limits : GitPathDiscoveryLimits) (changes : Changes) (remaining : bytes)
    : ctl LocalChangeManifestError Changes :=
  if bool_decide (remaining = []) then mret changes
  else
    match fuel with
    | O => throw InvalidDiffRecord
    | S fuel =>
        check;;
        '(changes, remaining) ← lift (raw_diff_record limits changes remaining);
        raw_diff_loop fuel limits changes remaining
    end.

Definition parse_raw_diff (output : bytes) (limits : GitPathDiscoveryLimits) : ctl LocalChangeManifestError Changes :=
  raw_diff_loop (length output) limits [] output.

Definition add_untracked_path (limits : GitPathDiscoveryLimits) (changes : Changes) (path_bytes : bytes)
    : ctl LocalChangeManifestError Changes :=
  check;; lift (add_change limits changes path_bytes Untracked).

Definition add_untracked_paths (changes : Changes) (output : bytes) (limits : GitPathDiscoveryLimits)
    : ctl LocalChangeManifestError Changes :=
  if bool_decide (output = []) then mret changes
  else
    output ← lift (ok_or (strip_last nul output) InvalidDiffRecord);
    ctl_fold (add_untracked_path limits) changes (split_byte nul output).

(** ** Capture *)

Definition TRACKED_DIFF_FINGERPRINT_DOMAIN : bytes :=
  b_of "RepoWitness" ++ [x00] ++ b_of "change-manifest-tracked-diff" ++ [x00].

Section capture.
Context {Digest : Type} `{EqDecision Digest} (sha256 : bytes → Digest).
(** Finding the root of the worktree; a Git subprocess with some arguments after the sanitized
    base command: the reads of its standard output, and whether it succeeded with its code. *)
Context (discovered_worktree_root : result GitPathDiscoveryError ()).
Context (git_process : list bytes → result GitPathDiscoveryError (list (option bytes) * (bool * option Z))).

Record LocalChangeManifest := {
  local_manifest : ChangeManifest;
  tracked_diff_fingerprint : Digest;
  captured_output_bytes : Z;
}.

Definition same_tracked_diff (left right : LocalChangeManifest) : bool :=
  bool_decide (tracked_diff_fingerprint left = tracked_diff_fingerprint right).

Definition hash_tracked_diff (diff : bytes) : Digest := sha256 (TRACKED_DIFF_FINGERPRINT_DOMAIN ++ diff).

Definition capture_git_output_with_status_from_command (args : list bytes) (output_limit : Z)
    : ctl LocalChangeManifestError ((bool * option Z) * bytes) :=
  '(reads, status) ← lift (map_err ChangeGit (git_process args));
  check;;
  output ← lift (map_err ChangeGit (read_bounded output_limit [] 0 reads));
  mret (status, output).

Definition capture_git_output_from_command (args : list bytes) (output_limit : Z) : ctl LocalChangeManifestError bytes :=
  '((success, code), output) ← capture_git_output_with_status_from_command args output_limit;
  if negb success then throw (ChangeGit (GitUnsuccessful code)) else mret output.

(** The output, and the bytes captured so far. *)
Definition capture_output (limits : GitPathDiscoveryLimits) (captured : Z) (args : list bytes)
    : ctl LocalChangeManifestError (bytes * Z) :=
  remaining_output_bytes ← lift (ok_or (checked u64_max (limit_output_bytes limits - captured))
                                   (ChangeGit (OutputByteLimitExceeded (limit_output_bytes limits))));
  output ← capture_git_output_from_command args remaining_output_bytes;
  output_bytes ← lift (ok_or (u64_of_len (length output)) CapturedOutputBytesNotRepresentable);
  captured ← lift (ok_or (u64_checked_add captured output_bytes) CapturedOutputBytesNotRepresentable);
  mret (output, captured).

Definition resolve_arguments (base_text : bytes) : list bytes :=
  [b_of "rev-parse"; b_of "--verify"; b_of "--quiet"; b_of "--end-of-options"; base_text ++ b_of "^{commit}"].
Definition raw_diff_arguments (base_text : bytes) : list bytes :=
  [b_of "diff"; b_of "--raw"; b_of "-z"; b_of "--no-abbrev"; b_of "--no-ext-diff"; b_of "--no-renames"; base_text; b_of "--"].
Definition tracked_diff_arguments (base_text : bytes) : list bytes :=
  [b_of "diff"; b_of "--binary"; b_of "--full-index"; b_of "--no-ext-diff"; b_of "--no-textconv"; b_of "--no-renames"; base_text;
   b_of "--"].
Definition untracked_arguments : list bytes :=
  [b_of "ls-files"; b_of "-z"; b_of "--full-name"; b_of "--others"; b_of "--exclude-standard"].

Definition capture_tracked_diff_fingerprint (limits : GitPathDiscoveryLimits) (captured : Z) (base_text : bytes)
    : ctl LocalChangeManifestError (Digest * Z) :=
  '(diff, captured) ← capture_output limits captured (tracked_diff_arguments base_text);
  mret (hash_tracked_diff diff, captured).

Definition capture_local_change_manifest (base : GitObjectId) (limits : GitPathDiscoveryLimits)
    : ctl LocalChangeManifestError LocalChangeManifest :=
  check;;
  lift (map_err ChangeGit discovered_worktree_root);;
  let base_text := to_hex base in
  '(resolved_base, captured) ← capture_output limits 0 (resolve_arguments base_text);
  resolved_base ← lift (parse_resolved_base resolved_base);
  if negb (bool_decide (resolved_base = base)) then throw ResolvedBaseMismatch
  else
    '(raw_diff, captured) ← capture_output limits captured (raw_diff_arguments base_text);
    changes ← parse_raw_diff raw_diff limits;
    '(fingerprint, captured) ← capture_tracked_diff_fingerprint limits captured base_text;
    '(untracked, captured) ← capture_output limits captured untracked_arguments;
    changes ← add_untracked_paths changes untracked limits;
    let entries := map (λ change : RepositoryPath * ChangeKind, {| change_path := change.1; change_kind := change.2 |}) changes in
    manifest ← lift (map_err InvalidManifest (manifest_try_new base entries));
    mret {| local_manifest := manifest; tracked_diff_fingerprint := fingerprint; captured_output_bytes := captured |}.
End capture.

(** ** What a subprocess writes *)

(** The bytes up to the end of the stream; [None] when a read fails before it. *)
Fixpoint stream (reads : list (option bytes)) : option bytes :=
  match reads with
  | [] => Some []
  | None :: _ => None
  | Some buffer :: reads => if len buffer =? 0 then Some [] else app buffer <$> stream reads
  end.

Lemma read_bounded_spec limit out reads o :
  len out ≤ limit ≤ u64_max →
  read_bounded limit out (len out) reads = Ok o ↔ ∃ s, stream reads = Some s ∧ o = out ++ s ∧ len o ≤ limit.
Proof.
  revert out. induction reads as [|[buffer|] reads IH]; intros out Hl; cbn [read_bounded stream].
  - split; [intros [= <-]; exists []; rewrite app_nil_r; split_and!; [done..|lia]|]. intros (s & [= <-] & -> & _). by rewrite app_nil_r.
  - destruct (Z.eqb_spec (len buffer) 0) as [H0|H0].
    { split; [intros [= <-]; exists []; rewrite app_nil_r; split_and!; [done..|lia]|]. intros (s & [= <-] & -> & _). by rewrite app_nil_r. }
    pose proof (len_nonneg buffer) as Hb. pose proof (len_nonneg out) as Ho. unfold u64_checked_add.
    assert (len (out ++ buffer) = len out + len buffer) as Hlen by (unfold len; rewrite length_app; lia).
    destruct (checked u64_max (len out + len buffer)) as [total|] eqn:Et; rstep.
    + apply checked_Some in Et as [-> _]. destruct (Z.ltb_spec limit (len out + len buffer)) as [Hlt|Hge].
      * split; [done|]. intros (s & (s' & _ & ->)%fmap_Some & -> & Hle). exfalso. unfold len in *. rewrite !length_app in Hle. lia.
      * rewrite <- Hlen, IH by lia. split.
        -- intros (s & -> & -> & Hle). exists (buffer ++ s). rewrite app_assoc. done.
        -- intros (s & (s' & -> & ->)%fmap_Some & -> & Hle). exists s'. rewrite <- app_assoc. done.
    + apply checked_None in Et. split; [done|]. intros (s & (s' & _ & ->)%fmap_Some & -> & Hle). exfalso. unfold len in *. rewrite !length_app in Hle. lia.
  - split; [done|]. by intros (s & ? & _).
Qed.

Section reading.
Context (git_process : list bytes → result GitPathDiscoveryError (list (option bytes) * (bool * option Z))).

(** The subprocess succeeds and writes these bytes. *)
Definition writes (args : list bytes) (output : bytes) : Prop :=
  ∃ reads code, git_process args = Ok (reads, (true, code)) ∧ stream reads = Some output.

(** [capture_output] without a control. *)
Definition pure_output (limits : GitPathDiscoveryLimits) (captured : Z) (args : list bytes) : result LocalChangeManifestError (bytes * Z) :=
  run never (capture_output git_process limits captured args).

Lemma steady_capture_output limits captured args : steady (capture_output git_process limits captured args).
Proof. unfold capture_output, capture_git_output_from_command, capture_git_output_with_status_from_command. solve_steady. Qed.

Lemma capture_output_spec limits captured args o captured' :
  in_u64 (limit_output_bytes limits) → 0 ≤ captured ≤ limit_output_bytes limits →
  pure_output limits captured args = Ok (o, captured') ↔
  writes args o ∧ captured' = captured + len o ∧ captured' ≤ limit_output_bytes limits.
Proof.
  intros [_ Hl] Hc. unfold pure_output, capture_output, capture_git_output_from_command, capture_git_output_with_status_from_command, writes.
  rewrite run_never_lift_bind by (intros; solve_steady). rewrite checked_in by lia. rstep.
  rewrite !run_never_bind by (intros; solve_steady). rewrite run_never_lift.
  destruct (git_process args) as [[reads [success code]]|e]; rstep.
  2:{ split; [done|]. by intros [(? & ? & ? & _) _]. }
  rewrite run_never_check by solve_steady. rewrite run_never_lift_bind by (intros; solve_steady).
  pose proof (read_bounded_spec (limit_output_bytes limits - captured) [] reads) as Hr. change (len []) with 0 in Hr.
  destruct (read_bounded _ _ _ _) as [out|e] eqn:Er; rstep.
  - destruct (proj1 (Hr out ltac:(lia)) eq_refl) as (s & Hs & -> & Hle). cbn [app] in *. rewrite run_never_ret. rstep. destruct success; cbn [negb]; cbv iota.
    + rewrite run_never_ret. rstep. rewrite run_never_lift_bind by (intros; solve_steady). pose proof (len_nonneg s).
      unfold u64_of_len. fold (len s). rewrite checked_in by lia. rstep. rewrite run_never_lift_bind by (intros; solve_steady).
      unfold u64_checked_add. rewrite checked_in by lia. rstep. rewrite run_never_ret. split.
      * intros [= <- <-]. split; [by exists reads, code|lia].
      * intros [(reads' & code' & [= -> ->] & Hs') [-> _]]. congruence.
    + rewrite run_never_throw. split; [done|]. by intros [(? & ? & [= ] & _) _].
  - split; [done|]. intros [(reads' & code' & [= <- -> ->] & Hs) [-> Hle]]. pose proof (len_nonneg o).
    enough (Err e = Ok o) by done. apply Hr; [lia|]. exists o. split; [done|]. split; [done|]. lia.
Qed.
End reading.
#[export] Hint Resolve steady_capture_output : steady.

(** ** The map of changes *)

(** Changes in the byte order of their paths, which is the map's. *)
Definition change_ordering (x y : RepositoryPath * ChangeKind) : comparison := cmp (path_bytes x.1) (path_bytes y.1).
Definition sorted_changes (l : Changes) : Changes := sort_by change_ordering l.

(** Changes that the map can hold. *)
Record changes_ok (limits : GitPathDiscoveryLimits) (l : Changes) : Prop := {
  ok_admitted : Forall (admitted limits) l.*1;
  ok_distinct : NoDup (path_bytes <$> l.*1);
  ok_count : Z.of_nat (length l) ≤ limit_paths limits;
}.

Lemma changes_ok_prefix limits l l' : changes_ok limits (l ++ l') → changes_ok limits l.
Proof.
  intros [Ha Hd Hc]. rewrite !fmap_app in *. apply Forall_app in Ha as [Ha _]. apply NoDup_app in Hd as [Hd _].
  rewrite length_app in Hc. split; [done..|lia].
Qed.

Lemma sorted_keys l : path_bytes <$> (sorted_changes l).*1 ≡ₚ path_bytes <$> l.*1.
Proof. unfold sorted_changes. by rewrite (sort_by_perm change_ordering l). Qed.

Lemma sorted_changes_increasing l : NoDup (path_bytes <$> l.*1) → keys_increasing (path_bytes ∘ fst) (sorted_changes l).
Proof. intros Hd. apply (keys_increasing_NoDup_sort (path_bytes ∘ fst)). by rewrite <- list_fmap_compose in Hd. Qed.

Lemma by_bytes_keys {V} (m : list (RepositoryPath * V)) : (by_bytes m).*1 = path_bytes <$> m.*1.
Proof. unfold by_bytes. rewrite <- list_fmap_compose. induction m as [|[p v] m IH]; csimpl; [done|]. by rewrite IH. Qed.

Lemma by_bytes_increasing {V} (m : list (RepositoryPath * V)) : bmap_wf (by_bytes m) ↔ keys_increasing (path_bytes ∘ fst) m.
Proof. unfold bmap_wf, keys_increasing. rewrite by_bytes_keys. by rewrite <- list_fmap_compose. Qed.

Lemma bmap_get_fresh p (l : Changes) :
  NoDup (path_bytes <$> l.*1) → is_Some (bmap_get p (sorted_changes l)) ↔ path_bytes p ∈ path_bytes <$> l.*1.
Proof.
  intros Hd. rewrite <- (sorted_keys l), <- by_bytes_keys. rewrite by_bytes_get.
  pose proof (proj2 (by_bytes_increasing _) (sorted_changes_increasing l Hd)) as Hw. split.
  - intros [k Hk%bmap_get_elem]; [|done]. apply list_elem_of_fmap. by exists (path_bytes p, k).
  - intros ([b k] & Hb & Hin)%list_elem_of_fmap. simpl in Hb. subst b. exists k. by apply bmap_get_elem.
Qed.

(** Inserting a fresh path is sorting it in. *)
Lemma bmap_insert_perm {V} p (k : V) (m : list (RepositoryPath * V)) :
  path_bytes p ∉ path_bytes <$> m.*1 → bmap_insert p k m ≡ₚ (p, k) :: m.
Proof.
  induction m as [|[q v] m IH]; [done|]. csimpl. intros [Hne Hp]%not_elem_of_cons.
  destruct (cmp p q) eqn:E; [|done|rewrite IH by done; apply Permutation_swap]. by apply (cmp_eq (path_bytes p) (path_bytes q)) in E.
Qed.

Lemma bmap_insert_sorted l p k :
  NoDup (path_bytes <$> (l ++ [(p, k)]).*1) → bmap_insert p k (sorted_changes l) = sorted_changes (l ++ [(p, k)]).
Proof.
  intros Hd. pose proof Hd as Hd'. rewrite !fmap_app in Hd'. apply NoDup_app in Hd' as (Hl & Hf & _).
  assert (path_bytes p ∉ path_bytes <$> l.*1) as Hp by (intros Hin; destruct (Hf _ Hin); by left).
  assert (bmap_insert p k (sorted_changes l) ≡ₚ l ++ [(p, k)]) as Hperm.
  { rewrite bmap_insert_perm by by rewrite sorted_keys. unfold sorted_changes. rewrite sort_by_perm. by rewrite Permutation_app_comm. }
  symmetry. apply (keys_increasing_sort (path_bytes ∘ fst)); [|done]. apply by_bytes_increasing. rewrite by_bytes_insert.
  apply bmap_insert_wf, by_bytes_increasing, sorted_changes_increasing. done.
Qed.

Lemma add_change_spec limits l bs k m' :
  limit_paths limits ≤ u64_max → changes_ok limits l →
  add_change limits (sorted_changes l) bs k = Ok m' ↔
  ∃ p, bs = path_bytes p ∧ changes_ok limits (l ++ [(p, k)]) ∧ m' = sorted_changes (l ++ [(p, k)]).
Proof.
  intros Hlim Hok. pose proof Hok as [Ha Hd Hc]. assert (length (sorted_changes l) = length l) as Hlen.
  { unfold sorted_changes. by rewrite (sort_by_perm change_ordering l). }
  assert (∀ p, changes_ok limits (l ++ [(p, k)]) ↔
    admitted limits p ∧ path_bytes p ∉ path_bytes <$> l.*1 ∧ Z.of_nat (length l) + 1 ≤ limit_paths limits) as Hsnoc.
  { intros p. split.
    - intros [Ha' Hd' Hc']. rewrite fmap_app in Ha'. rewrite !fmap_app in Hd'. csimpl in Ha'. apply Forall_app in Ha' as [_ [Ha' _]%Forall_cons]. apply NoDup_app in Hd' as (_ & Hf & _).
      rewrite length_app in Hc'. simpl in Hc'. split; [done|]. split; [|lia]. intros Hin. destruct (Hf _ Hin). by left.
    - intros (Hap & Hf & Hc'). split; rewrite ?fmap_app; [apply Forall_app_2; [done|csimpl; apply Forall_cons_2; [done|apply Forall_nil_2]]| |rewrite length_app; simpl; lia].
      apply NoDup_app. split; [done|]. split; [|apply NoDup_singleton]. by intros x Hx ->%list_elem_of_singleton. }
  unfold add_change, next_ordinal, u64_of_len, u64_checked_add. rewrite Hlen.
  destruct (checked u64_max (Z.of_nat (length l))) as [n|] eqn:En; rstep.
  2:{ apply checked_None in En. lia. }
  apply checked_Some in En as [-> _]. destruct (checked u64_max (Z.of_nat (length l) + 1)) as [n|] eqn:En; rstep.
  2:{ apply checked_None in En. split; [done|]. intros (p & _ & (_ & _ & ?)%Hsnoc & _). lia. }
  destruct (try_from_bytes bs _) as [p|] eqn:Ep; rstep.
  2:{ split; [done|]. intros (p & -> & (Hap & _)%Hsnoc & _). by rewrite admitted_rebuilt in Ep. }
  apply try_from_bytes_spec in Ep as (Hp & <- & Hw). unfold insert_change, u64_of_len, u64_checked_add. rewrite Hlen.
  pose proof (bmap_get_fresh p l Hd) as Hg. case_bool_decide as Hs.
  { apply Hg in Hs. split; [done|]. intros (q & Hq & (_ & Hf & _)%Hsnoc & _). by rewrite Hq in Hs. }
  rewrite Hg in Hs. rewrite checked_in by lia. rstep. rewrite En. rstep. apply checked_Some in En as [-> _].
  destruct (Z.ltb_spec (limit_paths limits) (Z.of_nat (length l) + 1)) as [Hlt|Hge].
  { split; [done|]. intros (q & _ & (_ & _ & ?)%Hsnoc & _). lia. }
  assert (changes_ok limits (l ++ [(p, k)])) as Hok' by (apply Hsnoc; by split_and!).
  rewrite bmap_insert_sorted by apply Hok'. split; [intros [= <-]; by exists p|].
  intros (q & Hq & Hokq & ->). assert (p = q) as ->; [|done]. apply wf_inj; [done| |done]. by destruct (proj1 (Hsnoc q) Hokq) as [[] _].
Qed.

(** ** The raw diff *)

(** What a record of the raw diff says. *)
Record RawChange := {
  raw_old_mode : bytes;
  raw_new_mode : bytes;
  raw_old_id : bytes;
  raw_new_id : bytes;
  raw_kind : ChangeKind;
  raw_path : RepositoryPath;
}.

Definition status_letter (kind : ChangeKind) : bytes :=
  match kind with Added => b_of "A" | Modified => b_of "M" | Deleted => b_of "D" | TypeChanged => b_of "T" | Untracked => [] end.

Definition render_header (om nm oi ni : bytes) (kind : ChangeKind) : bytes := x3a :: join space [om; nm; oi; ni; status_letter kind].

(** How Git prints it. *)
Definition render_raw (c : RawChange) : bytes :=
  render_header (raw_old_mode c) (raw_new_mode c) (raw_old_id c) (raw_new_id c) (raw_kind c) ++ nul :: path_bytes (raw_path c) ++ [nul].

Definition header_ok (om nm oi ni : bytes) (kind : ChangeKind) : Prop :=
  is_git_mode om = true ∧ is_git_mode nm = true ∧ is_full_lower_hex_object_id oi = true ∧ is_full_lower_hex_object_id ni = true ∧ kind ≠ Untracked.

Definition raw_valid (c : RawChange) : Prop :=
  header_ok (raw_old_mode c) (raw_new_mode c) (raw_old_id c) (raw_new_id c) (raw_kind c) ∧ wf (raw_path c).

Definition raw_change (c : RawChange) : RepositoryPath * ChangeKind := (raw_path c, raw_kind c).

Lemma forallb_avoids (f : byte → bool) b bs : f b = false → forallb f bs = true → b ∉ bs.
Proof. intros Hb Hf Hin. rewrite forallb_forall in Hf. apply list_elem_of_In in Hin. by rewrite (Hf b Hin) in Hb. Qed.

Lemma header_clean om nm oi ni kind b :
  header_ok om nm oi ni kind → b = space ∨ b = nul → Forall (λ f, b ∉ f) [om; nm; oi; ni; status_letter kind].
Proof.
  intros (Hom & Hnm & Hoi & Hni & Hk) Hb. unfold is_git_mode, is_full_lower_hex_object_id in *.
  apply andb_prop in Hom as [_ Hom]. apply andb_prop in Hnm as [_ Hnm]. apply andb_prop in Hoi as [_ Hoi]. apply andb_prop in Hni as [_ Hni].
  repeat apply Forall_cons_2; [..|apply Forall_nil_2].
  1-4: destruct Hb as [-> | ->]; (eapply forallb_avoids; [|eassumption]; reflexivity).
  destruct Hb as [-> | ->]; destruct kind; by apply (bool_decide_unpack _).
Qed.

Lemma parse_header_spec header kind :
  parse_raw_diff_header header = Ok kind ↔ ∃ om nm oi ni, header_ok om nm oi ni kind ∧ header = render_header om nm oi ni kind.
Proof.
  unfold parse_raw_diff_header, render_header. split.
  - destruct header as [|b header]; [done|]. cbn [strip_colon]. case_bool_decide as Hb; [subst b|done]. rstep.
    destruct (split_byte space header) as [|om [|nm [|oi [|ni [|st [|]]]]]] eqn:E; try done. apply split_byte_join in E as (_ & -> & _).
    destruct (is_git_mode om) eqn:Eom; [|done]. destruct (is_git_mode nm) eqn:Enm; [|done].
    destruct (is_full_lower_hex_object_id oi) eqn:Eoi; [|done]. destruct (is_full_lower_hex_object_id ni) eqn:Eni; [|done]. cbn [negb orb].
    intros H. exists om, nm, oi, ni. unfold header_ok. repeat (case_bool_decide as Hs; [subst st; injection H as <-; by split_and!|clear Hs]). done.
  - intros (om & nm & oi & ni & Hok & ->). cbn [strip_colon]. rewrite bool_decide_eq_true_2 by done. rstep.
    rewrite (proj2 (split_byte_join space _ [om; nm; oi; ni; status_letter kind])) by (split_and!; [done|done|eapply header_clean; [done|by left]]).
    destruct Hok as (-> & -> & -> & -> & Hk). cbn [negb orb]. by destruct kind.
Qed.

Lemma raw_diff_record_spec limits changes remaining changes' rest :
  raw_diff_record limits changes remaining = Ok (changes', rest) ↔
  ∃ om nm oi ni kind path, header_ok om nm oi ni kind ∧ nul ∉ path
    ∧ remaining = render_header om nm oi ni kind ++ nul :: path ++ nul :: rest ∧ add_change limits changes path kind = Ok changes'.
Proof.
  unfold raw_diff_record, take_nul_record. split.
  - destruct (split_once nul remaining) as [[header after]|] eqn:E1; [|done]. apply split_once_Some in E1 as [-> Hh]. rstep.
    destruct (split_once nul after) as [[path rest']|] eqn:E2; [|done]. apply split_once_Some in E2 as [-> Hp]. rstep.
    destruct (parse_raw_diff_header header) as [kind|] eqn:Eh; [|done]. apply parse_header_spec in Eh as (om & nm & oi & ni & Hok & ->). rstep.
    destruct (add_change _ _ _ _) as [c|] eqn:Ea; [|done]. intros [= <- <-]. by exists om, nm, oi, ni, kind, path.
  - intros (om & nm & oi & ni & kind & path & Hok & Hp & -> & Ha).
    rewrite (proj2 (split_once_Some nul _ (render_header om nm oi ni kind) (path ++ nul :: rest))).
    2:{ split; [done|]. unfold render_header. apply not_elem_of_cons. split; [done|]. apply join_avoids; [done|]. eapply header_clean; [done|by right]. }
    rstep. rewrite (proj2 (split_once_Some nul _ path rest)) by done. rstep.
    rewrite (proj2 (parse_header_spec _ kind)) by (by exists om, nm, oi, ni). rstep. by rewrite Ha.
Qed.

Lemma steady_raw_diff_loop fuel limits changes remaining : steady (raw_diff_loop fuel limits changes remaining).
Proof.
  revert changes remaining. induction fuel as [|fuel IH]; intros changes remaining; cbn [raw_diff_loop]; [solve_steady|].
  case_bool_decide; [solve_steady|]. apply steady_bind; [solve_steady|]. intros _. apply steady_bind; [solve_steady|]. by intros [].
Qed.
#[export] Hint Resolve steady_raw_diff_loop : steady.

Lemma render_raw_app c rest :
  render_raw c ++ rest = render_header (raw_old_mode c) (raw_new_mode c) (raw_old_id c) (raw_new_id c) (raw_kind c)
                         ++ nul :: path_bytes (raw_path c) ++ nul :: rest.
Proof. unfold render_raw. rewrite <- app_assoc. cbn [app]. by rewrite <- app_assoc. Qed.

Ltac lengths H := repeat first [rewrite length_app in H | progress cbn [length] in H].

(** Every record is read: the length of the output is fuel enough. *)
Lemma raw_diff_loop_spec fuel limits l remaining m :
  limit_paths limits ≤ u64_max → changes_ok limits l → (length remaining ≤ fuel)%nat →
  run never (raw_diff_loop fuel limits (sorted_changes l) remaining) = Ok m ↔
  ∃ cs, remaining = flat_map render_raw cs ∧ Forall raw_valid cs ∧ changes_ok limits (l ++ map raw_change cs)
        ∧ m = sorted_changes (l ++ map raw_change cs).
Proof.
  intros Hlim. revert l remaining m. induction fuel as [|fuel IH]; intros l remaining m Hok Hlen; cbn [raw_diff_loop].
  all: case_bool_decide as Hr; [subst remaining; rewrite run_never_ret; split;
    [intros [= <-]; exists []; cbn [map flat_map]; rewrite app_nil_r; by split_and!|
     intros ([|c cs] & Hc & _ & _ & ->); [cbn [map]; by rewrite app_nil_r|cbn [flat_map] in Hc; by unfold render_raw, render_header in Hc]]|].
  { destruct remaining; [done|simpl in Hlen; lia]. }
  rewrite run_never_check by solve_steady. rewrite run_never_lift_bind by (intros []; solve_steady). split.
  - destruct (raw_diff_record _ _ _) as [[changes rest]|] eqn:E; [|done]. rstep. cbv iota.
    apply raw_diff_record_spec in E as (om & nm & oi & ni & kind & path & Hh & Hp & -> & Ha).
    apply add_change_spec in Ha as (p & -> & Hok' & ->); [|done..]. intros (cs & -> & Hcs & Hok2 & ->)%IH; [|done|lengths Hlen; lia].
    exists ({| raw_old_mode := om; raw_new_mode := nm; raw_old_id := oi; raw_new_id := ni; raw_kind := kind; raw_path := p |} :: cs).
    cbn [flat_map map]. rewrite <- app_assoc in *. split; [by rewrite render_raw_app|]. split_and!; [|done..].
    constructor; [|done]. split; [done|]. destruct Hok' as [Hadm _ _]. rewrite fmap_app in Hadm. apply Forall_app in Hadm as [_ [[Hw _] _]%Forall_cons]. done.
  - intros ([|c cs] & -> & Hcs & Hok' & ->); [done|]. apply Forall_cons in Hcs as [[Hh Hw] Hcs]. cbn [map flat_map] in *. rewrite cons_middle, app_assoc in Hok' |- *.
    rewrite (proj2 (raw_diff_record_spec limits (sorted_changes l) _ (sorted_changes (l ++ [raw_change c])) (flat_map render_raw cs))).
    + rstep. cbv iota. apply IH; [by eapply changes_ok_prefix|rewrite render_raw_app in Hlen; lengths Hlen; lia|]. by exists cs.
    + exists (raw_old_mode c), (raw_new_mode c), (raw_old_id c), (raw_new_id c), (raw_kind c), (path_bytes (raw_path c)).
      split; [done|]. split; [by apply wf_no_nul|]. split; [by rewrite render_raw_app|].
      apply add_change_spec; [done..|]. exists (raw_path c). split_and!; [done|by eapply changes_ok_prefix|done].
Qed.

(** ** Untracked paths *)

Definition untracked_changes (us : list RepositoryPath) : Changes := map (λ p, (p, Untracked)) us.

Definition pure_untracked (limits : GitPathDiscoveryLimits) (changes : Changes) (path_bytes : bytes) : result LocalChangeManifestError Changes :=
  add_change limits changes path_bytes Untracked.

Lemma untracked_fold_spec limits l paths m :
  limit_paths limits ≤ u64_max → changes_ok limits l →
  try_fold (pure_untracked limits) (sorted_changes l) paths = Ok m ↔
  ∃ us, paths = path_bytes <$> us ∧ changes_ok limits (l ++ untracked_changes us) ∧ m = sorted_changes (l ++ untracked_changes us).
Proof.
  intros Hlim. revert l m. induction paths as [|path paths IH]; intros l m Hok; cbn [try_fold].
  - split; [intros [= <-]; exists []; cbn [untracked_changes map]; by rewrite app_nil_r|].
    intros ([|u us] & Hu & _ & ->); [cbn [untracked_changes map]; by rewrite app_nil_r|done].
  - rewrite bind_Ok. split.
    + intros (m1 & (p & -> & Hok1 & ->)%add_change_spec & (us & -> & Hok2 & ->)%IH); [|done..]. exists (p :: us).
      cbn [untracked_changes map]. rewrite cons_middle, app_assoc. by split_and!.
    + intros ([|u us] & Hu & Hok' & ->); [done|]. injection Hu as -> ->. cbn [untracked_changes map] in *. rewrite cons_middle, app_assoc in Hok' |- *.
      pose proof (changes_ok_prefix _ _ _ Hok') as Hok1. exists (sorted_changes (l ++ [(u, Untracked)])).
      split; [apply add_change_spec; [done..|]; by exists u|]. apply IH; [done|]. by exists us.
Qed.

Lemma steady_add_untracked changes output limits : steady (add_untracked_paths changes output limits).
Proof. unfold add_untracked_paths, add_untracked_path. solve_steady. Qed.
#[export] Hint Resolve steady_add_untracked : steady.

Lemma add_untracked_spec limits l output m :
  limit_paths limits ≤ u64_max → changes_ok limits l →
  run never (add_untracked_paths (sorted_changes l) output limits) = Ok m ↔
  ∃ us, output = terminated nul (path_bytes <$> us) ∧ changes_ok limits (l ++ untracked_changes us)
        ∧ m = sorted_changes (l ++ untracked_changes us).
Proof.
  intros Hlim Hok. unfold add_untracked_paths. case_bool_decide as Ho.
  { subst output. rewrite run_never_ret. split; [intros [= <-]; exists []; cbn [untracked_changes map]; by rewrite app_nil_r|].
    intros ([|u us] & Hu & _ & ->); [cbn [untracked_changes map]; by rewrite app_nil_r|].
    unfold terminated in Hu. cbn in Hu. by destruct (path_bytes u). }
  rewrite run_never_lift_bind by (intros; solve_steady; unfold add_untracked_path; solve_steady). split.
  - destruct (strip_last nul output) as [body|] eqn:E; [|done]. apply strip_last_Some in E as ->. rstep.
    rewrite (evals_run _ (try_fold (pure_untracked limits) (sorted_changes l) (split_byte nul body))).
    2:{ apply evals_fold. intros s x. unfold add_untracked_path. apply evals_check_bind, evals_lift. }
    intros (us & Hs & Hok' & ->)%untracked_fold_spec; [|done..]. exists us. rewrite <- Hs, terminated_split. done.
  - intros (us & -> & Hok' & ->). destruct us as [|u us]; [by destruct Ho|].
    assert (Forall (λ c, nul ∉ c) (path_bytes <$> u :: us)) as Hn.
    { destruct Hok' as [Ha _ _]. rewrite fmap_app in Ha. apply Forall_app in Ha as [_ Ha]. unfold untracked_changes in Ha.
      rewrite Forall_fmap in Ha. apply Forall_fmap. rewrite Forall_map in Ha. eapply Forall_impl; [exact Ha|]. intros p [Hw _]. by apply wf_no_nul. }
    destruct (split_terminated nul (path_bytes <$> u :: us)) as (body & -> & Hs); [done..|]. rstep.
    rewrite (evals_run _ (try_fold (pure_untracked limits) (sorted_changes l) (split_byte nul body))).
    2:{ apply evals_fold. intros s x. unfold add_untracked_path. apply evals_check_bind, evals_lift. }
    rewrite Hs. apply untracked_fold_spec; [done..|]. by exists (u :: us).
Qed.

(** ** The base and the order *)

Lemma ascii_utf8 bs : Forall (λ b, byte_rank b < 128) bs → is_Some (from_utf8 bs).
Proof.
  intros Hb. exists (map byte_rank bs). apply from_utf8_spec. induction Hb as [|b bs Hb _ [IH1 IH2]]; [by split|]. pose proof (byte_rank_range b).
  cbn [map]. split; [constructor; [unfold scalar; lia|done]|]. rewrite IH2 at 1. cbn [as_bytes].
  assert (encode_char (byte_rank b) = [b]) as ->; [|done].
  unfold encode_char. destruct (Z.ltb_spec (byte_rank b) 0x80); [|lia]. cbn [map]. by rewrite byte_of_rank.
Qed.

Lemma hex_ascii bs : Forall (λ b, byte_rank b < 128) (encode_lower_hex bs).
Proof.
  apply Forall_forall. intros b Hb. pose proof (encode_hex_digits bs) as H. rewrite forallb_forall in H.
  apply list_elem_of_In, H in Hb. unfold hex_digit in Hb. lia.
Qed.

Lemma parse_resolved_base_spec output id :
  parse_resolved_base output = Ok id ↔ object_wf id ∧ output = to_hex id ++ [lf].
Proof.
  unfold parse_resolved_base. split.
  - destruct (strip_last lf output) as [value|] eqn:E; [|done]. apply strip_last_Some in E as ->. rstep. case_bool_decide; [done|].
    destruct (from_utf8 value); [|done]. rstep. intros [Hw ->]%map_err_Ok%try_from_hex_spec. done.
  - intros [Hw ->]. rewrite (proj2 (strip_last_Some lf _ (to_hex id))) by done. rstep. unfold to_hex. fold (encode_lower_hex (oid_as_bytes id)).
    rewrite bool_decide_eq_false_2 by by apply encode_hex_avoids. destruct (ascii_utf8 _ (hex_ascii (oid_as_bytes id))) as [s ->]. rstep.
    by rewrite (proj2 (try_from_hex_spec (encode_lower_hex (oid_as_bytes id)) id)).
Qed.

Definition entry_of (change : RepositoryPath * ChangeKind) : ChangeManifestEntry :=
  {| change_path := change.1; change_kind := change.2 |}.

(** Whether entries are in canonical order, and how they are not. *)
Lemma manifest_try_new_spec base entries m :
  manifest_try_new base entries = Ok m ↔
  m = {| manifest_base := base; manifest_entries := entries |} ∧ keys_increasing (path_bytes ∘ change_path) entries.
Proof.
  unfold manifest_try_new. rewrite bind_Ok. transitivity (m = {| manifest_base := base; manifest_entries := entries |} ∧ check_canonical_order entries = Ok ()).
  { split; [intros ([] & ? & [= <-]); done|]. intros [-> ?]. by exists (). }
  apply and_iff_compat_l. induction entries as [|e entries IH]; [split; [intros _; constructor|done]|].
  rewrite keys_increasing_cons, <- IH. destruct entries as [|e' entries]; [split; [intros _; split; [done|by intros ? ?%elem_of_nil]|done]|].
  cbn [check_canonical_order]. unfold path_cmp. destruct (cmp (path_bytes (change_path e)) (path_bytes (change_path e'))) eqn:E.
  - split; [done|]. intros [_ Hlt]. specialize (Hlt e' ltac:(by left)). cbn in Hlt. congruence.
  - split; [|by intros []]. intros Hr. split; [done|]. apply IH in Hr. apply keys_increasing_cons in Hr as [_ Hlt].
    intros x [->|Hx]%elem_of_cons; [done|]. eapply cmp_trans; [exact E|]. by apply Hlt.
  - split; [done|]. intros [_ Hlt]. specialize (Hlt e' ltac:(by left)). cbn in Hlt. congruence.
Qed.

(** ** The capture *)

(** The manifest of some changes. *)
Definition manifest_of (base : GitObjectId) (l : Changes) : ChangeManifest :=
  {| manifest_base := base; manifest_entries := map entry_of (sorted_changes l) |}.

Lemma entries_increasing l : keys_increasing (path_bytes ∘ fst) l → keys_increasing (path_bytes ∘ change_path) (map entry_of l).
Proof. unfold keys_increasing. by rewrite map_map. Qed.

Lemma manifest_of_sorted limits base l :
  changes_ok limits l → manifest_try_new base (map entry_of (sorted_changes l)) = Ok (manifest_of base l).
Proof. intros [_ Hd _]. apply manifest_try_new_spec. split; [done|]. by apply entries_increasing, sorted_changes_increasing. Qed.

Lemma raw_valid_admitted limits l cs :
  changes_ok limits (l ++ map raw_change cs) → Forall (λ c, wf (raw_path c)) cs.
Proof.
  intros [Ha _ _]. rewrite fmap_app in Ha. apply Forall_app in Ha as [_ Ha]. rewrite Forall_fmap in Ha. rewrite Forall_map in Ha.
  eapply Forall_impl; [exact Ha|]. by intros c [].
Qed.

Section captured.
Context {Digest : Type} (sha256 : bytes → Digest).
Context (discovered_worktree_root : result GitPathDiscoveryError ()).
Context (git_process : list bytes → result GitPathDiscoveryError (list (option bytes) * (bool * option Z))).

Notation capture := (capture_local_change_manifest sha256 discovered_worktree_root git_process).

(** Without a control the capture is its steps in a row. *)
Lemma capture_change_run base limits :
  run never (capture base limits)
  = (map_err ChangeGit discovered_worktree_root;;
     '(resolved, captured) ← pure_output git_process limits 0 (resolve_arguments (to_hex base));
     resolved_base ← parse_resolved_base resolved;
     if negb (bool_decide (resolved_base = base)) then Err ResolvedBaseMismatch
     else
       '(raw_diff, captured) ← pure_output git_process limits captured (raw_diff_arguments (to_hex base));
       changes ← run never (parse_raw_diff raw_diff limits);
       '(diff, captured) ← pure_output git_process limits captured (tracked_diff_arguments (to_hex base));
       '(untracked, captured) ← pure_output git_process limits captured untracked_arguments;
       changes ← run never (add_untracked_paths changes untracked limits);
       manifest ← map_err InvalidManifest (manifest_try_new base (map entry_of changes));
       Ok {| local_manifest := manifest; tracked_diff_fingerprint := hash_tracked_diff sha256 diff; captured_output_bytes := captured |}).
Proof.
  assert (∀ captured args, evals (capture_output git_process limits captured args) (pure_output git_process limits captured args)) as Ho
    by (intros; by apply steady_evals_run, steady_capture_output).
  apply evals_run. unfold capture_local_change_manifest. apply evals_check_bind. apply evals_mbind; [apply evals_lift|intros _]. cbv zeta.
  apply evals_mbind; [apply Ho|intros [resolved captured]]. apply evals_mbind; [apply evals_lift|intros resolved_base].
  destruct (negb _); [apply evals_throw|]. apply evals_mbind; [apply Ho|intros [raw_diff captured2]].
  apply evals_mbind; [apply steady_evals_run; unfold parse_raw_diff; solve_steady|intros changes]. unfold capture_tracked_diff_fingerprint.
  apply evals_assoc. apply evals_mbind; [apply Ho|intros [diff captured3]]. eapply evals_bind; [apply evals_ret|]. cbv iota beta.
  apply evals_mbind; [apply Ho|intros [untracked captured4]].
  apply evals_mbind; [apply steady_evals_run; solve_steady|intros changes2]. cbv zeta. apply evals_mbind; [apply evals_lift|intros manifest]. apply evals_ret.
Qed.

Lemma capture_change_steady base limits : steady (capture base limits).
Proof. unfold capture_local_change_manifest, parse_raw_diff, capture_tracked_diff_fingerprint. solve_steady. Qed.

(** C27: a capture succeeds exactly when Git finds a worktree, resolves the base to itself, prints
    raw changes and untracked paths that are valid, admitted by the limits and pairwise
    distinct, and all it prints stays within one bound on the output; the manifest then lists
    exactly those changes in byte order of their paths, beside the receipt of the tracked diff
    and the number of bytes read.  Nothing but the control can stop it otherwise. *)
Theorem change_manifest_exact base limits m :
  git_limits_wf limits → object_wf base →
  (run never (capture base limits) = Ok m ↔
   discovered_worktree_root = Ok () ∧ ∃ cs diff us,
     let l := map raw_change cs ++ untracked_changes us in
     let resolved := to_hex base ++ [lf] in
     let raw_diff := flat_map render_raw cs in
     let untracked := terminated nul (path_bytes <$> us) in
     let captured := len resolved + len raw_diff + len diff + len untracked in
     writes git_process (resolve_arguments (to_hex base)) resolved
     ∧ writes git_process (raw_diff_arguments (to_hex base)) raw_diff
     ∧ writes git_process (tracked_diff_arguments (to_hex base)) diff
     ∧ writes git_process untracked_arguments untracked
     ∧ Forall raw_valid cs ∧ changes_ok limits l ∧ captured ≤ limit_output_bytes limits
     ∧ m = {| local_manifest := manifest_of base l; tracked_diff_fingerprint := hash_tracked_diff sha256 diff;
              captured_output_bytes := captured |})
  ∧ ∀ o, run o (capture base limits) = run never (capture base limits)
         ∨ ∃ k e, o k = Some e ∧ run o (capture base limits) = Err e.
Proof.
  intros [Hlo [Hl0 Hlp]] Hb. split; [|intros o; apply steady_run, capture_change_steady].
  assert (changes_ok limits []) as Hnil by (split; [apply Forall_nil_2|apply NoDup_nil_2|simpl; lia]).
  assert (∀ raw changes, run never (parse_raw_diff raw limits) = Ok changes ↔ ∃ cs, raw = flat_map render_raw cs ∧ Forall raw_valid cs
            ∧ changes_ok limits (map raw_change cs) ∧ changes = sorted_changes (map raw_change cs)) as Hraw.
  { intros raw changes. apply (raw_diff_loop_spec (length raw) limits [] raw changes Hlp Hnil). lia. }
  assert (∀ bs : bytes, 0 ≤ len bs) as Hlen by apply len_nonneg.
  assert (∀ c args o, 0 ≤ c → writes git_process args o → c + len o ≤ limit_output_bytes limits →
            pure_output git_process limits c args = Ok (o, c + len o)) as Hout.
  { intros c args o Hc Hw Hle. apply capture_output_spec; [done|pose proof (Hlen o); lia|by split_and!]. }
  rewrite capture_change_run. split.
  - intros H. apply bind_Ok in H as ([] & Hroot%map_err_Ok & H). split; [done|].
    apply bind_Ok in H as ([o1 c1] & H1 & H). apply capture_output_spec in H1 as (W1 & -> & L1); [|done|pose proof (Hlen o1); destruct Hlo; lia].
    apply bind_Ok in H as (resolved & [Hrw ->]%parse_resolved_base_spec & H). case_bool_decide as He; [subst resolved|done]. cbn [negb] in H.
    pose proof (Hlen (to_hex base ++ [lf])).
    apply bind_Ok in H as ([o2 c2] & H2 & H). apply capture_output_spec in H2 as (W2 & -> & L2); [|done|lia].
    apply bind_Ok in H as (changes & (cs & -> & Hcs & Hok & ->)%Hraw & H). pose proof (Hlen (flat_map render_raw cs)).
    apply bind_Ok in H as ([o3 c3] & H3 & H). apply capture_output_spec in H3 as (W3 & -> & L3); [|done|lia]. pose proof (Hlen o3).
    apply bind_Ok in H as ([o4 c4] & H4 & H). apply capture_output_spec in H4 as (W4 & -> & L4); [|done|lia].
    apply bind_Ok in H as (changes2 & (us & -> & Hok2 & ->)%add_untracked_spec & H); [|done..].
    rewrite (manifest_of_sorted limits) in H by done. injection H as <-. exists cs, o3, us. cbv zeta. by split_and!.
  - intros (-> & cs & diff & us & W1 & W2 & W3 & W4 & Hcs & Hok & Hle & ->).
    pose proof (Hlen (to_hex base ++ [lf])). pose proof (Hlen (flat_map render_raw cs)). pose proof (Hlen diff).
    pose proof (Hlen (terminated nul (path_bytes <$> us))). pose proof (changes_ok_prefix _ _ _ Hok) as Hok1. rstep.
    rewrite (Hout _ _ _) with (2 := W1) by lia. rstep. cbv iota.
    rewrite (proj2 (parse_resolved_base_spec _ base)) by done. rstep. rewrite bool_decide_eq_true_2 by done. cbn [negb]. cbv iota.
    rewrite (Hout _ _ _) with (2 := W2) by lia. rstep. cbv iota.
    rewrite (proj2 (Hraw _ (sorted_changes (map raw_change cs)))) by (by exists cs). rstep.
    rewrite (Hout _ _ _) with (2 := W3) by lia. rstep. cbv iota.
    rewrite (Hout _ _ _) with (2 := W4) by lia. rstep. cbv iota.
    rewrite (proj2 (add_untracked_spec limits (map raw_change cs) _ (sorted_changes (map raw_change cs ++ untracked_changes us)) Hlp Hok1)) by (by exists us).
    rstep. rewrite (manifest_of_sorted limits) by done. by rstep.
Qed.
End captured.

(** A worktree with a changed and an untracked file. *)
Definition change_base : GitObjectId := object_of FormatSha1 (replicate 20 x1f).
Definition change_raw : RawChange :=
  {| raw_old_mode := b_of "100644"; raw_new_mode := b_of "100755"; raw_old_id := to_hex change_base;
     raw_new_id := to_hex change_base; raw_kind := Modified; raw_path := git_path [x62] |}.
Definition change_git (args : list bytes) : result GitPathDiscoveryError (list (option bytes) * (bool * option Z)) :=
  let output :=
    if bool_decide (args = resolve_arguments (to_hex change_base)) then to_hex change_base ++ [lf]
    else if bool_decide (args = raw_diff_arguments (to_hex change_base)) then render_raw change_raw
    else if bool_decide (args = untracked_arguments) then [x61; x00] else b_of "patch" in
  Ok ([Some output; Some []], (true, Some 0)).
Definition change_limits : GitPathDiscoveryLimits :=
  {| limit_output_bytes := 400; limit_paths := 2; limit_repository_path := limit_repository_path git_limits |}.

Lemma change_manifest_exact_witness :
  run never (capture_local_change_manifest id (Ok ()) change_git change_base change_limits)
  = Ok {| local_manifest := manifest_of change_base [(git_path [x62], Modified); (git_path [x61], Untracked)];
          tracked_diff_fingerprint := TRACKED_DIFF_FINGERPRINT_DOMAIN ++ b_of "patch"; captured_output_bytes := 149 |}
  ∧ map change_kind (manifest_entries (manifest_of change_base [(git_path [x62], Modified); (git_path [x61], Untracked)])) = [Untracked; Modified].
Proof.
  split; [|by vm_compute]. apply (change_manifest_exact id (Ok ()) change_git change_base change_limits).
  { split; vm_compute; split; discriminate. }
  { by exists (replicate 20 x1f). }
  split; [done|]. exists [change_raw], (b_of "patch"), [git_path [x61]]. cbv zeta.
  assert (admitted change_limits (git_path [x62]) ∧ admitted change_limits (git_path [x61])) as [H1 H2] by (split; apply git_path_admitted; by vm_compute).
  split_and!; try (eexists _, _; split; [vm_compute; reflexivity|by vm_compute]).
  - constructor; [|constructor]. split; [by repeat split|]. by destruct H1.
  - split; [apply Forall_cons_2; [done|apply Forall_cons_2; [done|apply Forall_nil_2]]| |by vm_compute]. by apply (bool_decide_unpack _).
  - vm_compute. discriminate.
  - by vm_compute.
Defined.

(** A renamed or copied path is not a change of this version. *)
Example rename_unsupported :
  parse_raw_diff_header (render_header (b_of "100644") (b_of "100644") (to_hex change_base) (to_hex change_base) Untracked ++ b_of "R100")
  = Err UnsupportedDiffStatus.
Proof. by vm_compute. Qed.
