(* ===== verification/Topology.v ===== *)
(** * Repository topology

    Models [crates/repowitness-local/src/repository_topology.rs], the classification of the
    discovered paths of a generation and its digest, and
    [crates/repowitness-application/src/repository_topology.rs], the validation of what storage
    answers.  SHA-256 and the storage are parameters; the control is the oracle of the [ctl]
    monad. *)

From Stdlib Require Import ZArith Lia ZifyBool.
From Stdlib Require Import Strings.Byte.
From stdpp Require Import base numbers sorting list.
From S2P Require Import Prelude Ordering RepositoryPath GitPaths.

Open Scope Z_scope.

(** ** Categories *)

Definition REPOSITORY_TOPOLOGY_PROFILE_VERSION : Z := 1.
Definition DEFAULT_REPOSITORY_TOPOLOGY_PATHS : Z := 200.
Definition DEFAULT_REPOSITORY_TOPOLOGY_OUTPUT_BYTES : Z := 512 * 1024.
Definition MAX_REPOSITORY_TOPOLOGY_PATHS : Z := 1000.
Definition MAX_REPOSITORY_TOPOLOGY_OUTPUT_BYTES : Z := 4 * 1024 * 1024.

Inductive RepositoryTopologyCategory :=
| Documentation
| AgentInstruction
| WorkflowDescriptor
| BuildDescriptor
| PackageDescriptor
| ConfigurationDescriptor
| OtherTrackedFile.

#[export] Instance category_eq_dec : EqDecision RepositoryTopologyCategory.
Proof. solve_decision. Defined.

Definition category_as_str (c : RepositoryTopologyCategory) : bytes :=
  match c with
  | Documentation => b_of "documentation"
  | AgentInstruction => b_of "agent_instruction"
  | WorkflowDescriptor => b_of "workflow_descriptor"
  | BuildDescriptor => b_of "build_descriptor"
  | PackageDescriptor => b_of "package_descriptor"
  | ConfigurationDescriptor => b_of "configuration_descriptor"
  | OtherTrackedFile => b_of "other_tracked_file"
  end.

Definition from_stable_str (value : bytes) : option RepositoryTopologyCategory :=
  if bool_decide (value = b_of "documentation") then Some Documentation
  else if bool_decide (value = b_of "agent_instruction") then Some AgentInstruction
  else if bool_decide (value = b_of "workflow_descriptor") then Some WorkflowDescriptor
  else if bool_decide (value = b_of "build_descriptor") then Some BuildDescriptor
  else if bool_decide (value = b_of "package_descriptor") then Some PackageDescriptor
  else if bool_decide (value = b_of "configuration_descriptor") then Some ConfigurationDescriptor
  else if bool_decide (value = b_of "other_tracked_file") then Some OtherTrackedFile
  else None.

Definition all_categories : list RepositoryTopologyCategory :=
  [AgentInstruction; BuildDescriptor; ConfigurationDescriptor; Documentation; OtherTrackedFile; PackageDescriptor; WorkflowDescriptor].

(** ** Classification *)

(** [<[u8]>::ends_with]. *)
Definition ends_with (suffix bs : bytes) : bool := bool_decide (drop (length bs - length suffix) bs = suffix).

(** [path.rsplit(|byte| *byte == b'/').next()], in a list of names. *)
Definition file_name_in (names : list bytes) (path : bytes) : bool :=
  match last (split_byte slash path) with Some name => bool_decide (name ∈ names) | None => false end.

Definition is_agent_instruction (path : bytes) : bool :=
  file_name_in [b_of "AGENTS.md"; b_of "CLAUDE.md"; b_of "GEMINI.md"; b_of ".cursorrules"] path
  || bool_decide (path = b_of ".github/copilot-instructions.md").

Definition is_workflow_descriptor (path : bytes) : bool :=
  match strip_prefix (b_of ".github/workflows/") path with
  | Some name => ends_with (b_of ".yml") name || ends_with (b_of ".yaml") name
  | None => false
  end.

Definition is_documentation (path : bytes) : bool := ends_with (b_of ".md") path || starts_with (b_of "docs/") path.

Definition is_build_descriptor (path : bytes) : bool :=
  file_name_in [b_of "Makefile"; b_of "GNUmakefile"; b_of "build.rs"; b_of "justfile"; b_of "Taskfile.yml"; b_of "Taskfile.yaml"] path.

Definition is_package_descriptor (path : bytes) : bool :=
  file_name_in [b_of "Cargo.toml"; b_of "Cargo.lock"; b_of "go.mod"; b_of "go.sum"; b_of "package.json"; b_of "package-lock.json";
                b_of "pnpm-lock.yaml"; b_of "yarn.lock"; b_of "pyproject.toml"; b_of "poetry.lock"; b_of "requirements.txt"] path
  || starts_with (b_of "requirements/") path.

Definition is_configuration_descriptor (path : bytes) : bool :=
  bool_decide (path ∈ [b_of ".gitignore"; b_of ".gitattributes"; b_of ".editorconfig"; b_of "rust-toolchain.toml"; b_of "rustfmt.toml";
                       b_of "clippy.toml"; b_of "deny.toml"; b_of ".cargo/config.toml"])
  || starts_with (b_of "config/") path.

Definition classify_path (path : RepositoryPath) : RepositoryTopologyCategory :=
  let bytes := path_bytes path in
  if is_agent_instruction bytes then AgentInstruction
  else if is_workflow_descriptor bytes then WorkflowDescriptor
  else if is_documentation bytes then Documentation
  else if is_build_descriptor bytes then BuildDescriptor
  else if is_package_descriptor bytes then PackageDescriptor
  else if is_configuration_descriptor bytes then ConfigurationDescriptor
  else OtherTrackedFile.

(** ** Preparation *)

Definition TOPOLOGY_DIGEST_DOMAIN : bytes := b_of "RepoWitness" ++ [x00] ++ b_of "repository-topology" ++ [x00].

(** The control adds its own errors. *)
Inductive RepositoryTopologyPreparationError := InvalidPaths | PreparationCancelled | PreparationDeadlineExceeded.

(** [left >= right]. *)
Definition path_ge (left right : RepositoryPath) : bool := match path_cmp left right with Lt => false | _ => true end.

(** A hasher is what it has been given. *)
Definition repository_topology_hasher (profile_version : Z) : bytes := TOPOLOGY_DIGEST_DOMAIN ++ u16_be_bytes profile_version.

Definition update_repository_topology_hasher (hasher : bytes) (path : RepositoryPath) (category : RepositoryTopologyCategory)
    : result RepositoryTopologyPreparationError bytes :=
  count ← ok_or (u64_of_len (length (path_bytes path))) InvalidPaths;
  Ok (hasher ++ u64_be_bytes count ++ path_bytes path ++ category_as_str category).

(** One turn of the loop over the paths. *)
Definition hash_path (hasher : bytes) (path : RepositoryPath) : ctl RepositoryTopologyPreparationError bytes :=
  check;; lift (update_repository_topology_hasher hasher path (classify_path path)).

Section preparation.
Context {Digest : Type} (sha256 : bytes → Digest).

Record PreparedRepositoryTopology := {
  prepared_entries : list (RepositoryPath * RepositoryTopologyCategory);
  prepared_digest : Digest;
}.

Definition prepare_repository_topology (paths : list RepositoryPath) : ctl RepositoryTopologyPreparationError PreparedRepositoryTopology :=
  check;;
  if any_adjacent path_ge paths then throw InvalidPaths
  else
    hash ← ctl_fold hash_path (repository_topology_hasher REPOSITORY_TOPOLOGY_PROFILE_VERSION) paths;
    check;;
    mret {| prepared_entries := map (λ path, (path, classify_path path)) paths; prepared_digest := sha256 hash |}.
End preparation.

(** ** Reading *)

Record RepositoryTopologyLimits := {
  topology_max_paths : Z;
  topology_max_output_bytes : Z;
}.

Definition topology_limits_try_new (max_paths max_output_bytes : Z) : result () RepositoryTopologyLimits :=
  if (max_paths =? 0) || (MAX_REPOSITORY_TOPOLOGY_PATHS <? max_paths) || (max_output_bytes =? 0)
     || (MAX_REPOSITORY_TOPOLOGY_OUTPUT_BYTES <? max_output_bytes)
  then Err ()
  else Ok {| topology_max_paths := max_paths; topology_max_output_bytes := max_output_bytes |}.

Definition topology_limits_default : RepositoryTopologyLimits :=
  {| topology_max_paths := DEFAULT_REPOSITORY_TOPOLOGY_PATHS; topology_max_output_bytes := DEFAULT_REPOSITORY_TOPOLOGY_OUTPUT_BYTES |}.

Record RepositoryTopologyEntry := {
  topology_path : RepositoryPath;
  topology_category : RepositoryTopologyCategory;
}.

Record RepositoryTopologyCategorySummary := {
  summary_category : RepositoryTopologyCategory;
  summary_path_count : Z;
}.

Record RepositoryTopologyCoverage := {
  coverage_discovered_paths : Z;
  coverage_omitted_paths : Z;
}.

Inductive RepositoryTopologyPortOutputError :=
| InvalidTopologyProfile
| TopologyPathLimitExceeded
| InvalidTotals
| TopologyOutputByteLimitExceeded
| InvalidPathOrder
| InvalidCategorySummaries
| TopologyCountNotRepresentable.

Section reading.
(** Snapshot digests, generations, topology digests and the errors of the storage. *)
Context {Snapshot Generation Digest PortError : Type}.

Record RepositoryTopologyReceipt := {
  receipt_snapshot : Snapshot;
  receipt_generation : Generation;
  receipt_topology_profile_version : Z;
  receipt_topology_digest : Digest;
}.

Record RepositoryTopologyPortResult := {
  port_receipt : RepositoryTopologyReceipt;
  port_coverage : RepositoryTopologyCoverage;
  port_entries : list RepositoryTopologyEntry;
  port_category_summaries : list RepositoryTopologyCategorySummary;
  port_total_paths : Z;
  port_output_bytes : Z;
}.

Record RepositoryTopologyResult := {
  result_snapshot : Snapshot;
  result_generation : Generation;
  result_topology_profile_version : Z;
  result_topology_digest : Digest;
  result_coverage : RepositoryTopologyCoverage;
  result_entries : list RepositoryTopologyEntry;
  result_category_summaries : list RepositoryTopologyCategorySummary;
  result_total_paths : Z;
  result_output_bytes : Z;
}.

Inductive RepositoryTopologyError :=
| TopologyCancelled
| TopologyDeadlineExceeded
| TopologyPort (error : PortError)
| InvalidPortOutput (error : RepositoryTopologyPortOutputError).

(** [truncated]: [u64::try_from(len).ok() < Some(total)]. *)
Definition truncated (r : RepositoryTopologyResult) : bool :=
  match u64_of_len (length (result_entries r)) with Some n => n <? result_total_paths r | None => true end.

(** The loop over the summaries zipped with the categories. *)
Fixpoint sum_summaries (total : Z) (pairs : list (RepositoryTopologyCategorySummary * RepositoryTopologyCategory))
    : result RepositoryTopologyPortOutputError Z :=
  match pairs with
  | [] => Ok total
  | (summary, category) :: pairs =>
      if negb (bool_decide (summary_category summary = category)) then Err InvalidCategorySummaries
      else
        total ← ok_or (u64_checked_add total (summary_path_count summary)) TopologyCountNotRepresentable;
        sum_summaries total pairs
  end.

Definition validate_port_result (result : RepositoryTopologyPortResult) (limits : RepositoryTopologyLimits)
    : Prelude.result RepositoryTopologyPortOutputError () :=
  reject_if (negb (receipt_topology_profile_version (port_receipt result) =? REPOSITORY_TOPOLOGY_PROFILE_VERSION)) InvalidTopologyProfile;;
  returned ← ok_or (u64_of_len (length (port_entries result))) TopologyCountNotRepresentable;
  reject_if (topology_max_paths limits <? returned) TopologyPathLimitExceeded;;
  reject_if ((port_total_paths result <? returned)
             || (coverage_discovered_paths (port_coverage result) <? port_total_paths result)
             || negb (coverage_omitted_paths (port_coverage result) =? 0)) InvalidTotals;;
  reject_if (topology_max_output_bytes limits <? port_output_bytes result) TopologyOutputByteLimitExceeded;;
  reject_if (any_adjacent (λ left right, path_ge (topology_path left) (topology_path right)) (port_entries result)) InvalidPathOrder;;
  reject_if (negb (length (port_category_summaries result) =? length all_categories)%nat) InvalidCategorySummaries;;
  total ← sum_summaries 0 (zip (port_category_summaries result) all_categories);
  reject_if (negb (total =? port_total_paths result)) InvalidCategorySummaries.

(** What the storage answers to a repository and limits. *)
Context {Repository : Type} (port : Repository → RepositoryTopologyLimits → Prelude.result PortError RepositoryTopologyPortResult).

Definition repository_topology (repository : Repository) (limits : RepositoryTopologyLimits)
    : ctl RepositoryTopologyError RepositoryTopologyResult :=
  check;;
  result ← lift (map_err TopologyPort (port repository limits));
  check;;
  lift (map_err InvalidPortOutput (validate_port_result result limits));;
  mret {| result_snapshot := receipt_snapshot (port_receipt result); result_generation := receipt_generation (port_receipt result);
          result_topology_profile_version := receipt_topology_profile_version (port_receipt result);
          result_topology_digest := receipt_topology_digest (port_receipt result); result_coverage := port_coverage result;
          result_entries := port_entries result; result_category_summaries := port_category_summaries result;
          result_total_paths := port_total_paths result; result_output_bytes := port_output_bytes result |}.
End reading.

(** ** Paths in order *)

Lemma paths_in_order paths : any_adjacent path_ge paths = false ↔ keys_increasing path_bytes paths.
Proof.
  apply any_adjacent_increasing. intros x y. unfold path_ge, path_cmp. by destruct (cmp (path_bytes x) (path_bytes y)).
Qed.

Lemma entries_in_order entries :
  any_adjacent (λ left right, path_ge (topology_path left) (topology_path right)) entries = false
  ↔ keys_increasing (path_bytes ∘ topology_path) entries.
Proof.
  apply any_adjacent_increasing. intros x y. unfold path_ge, path_cmp, compose. by destruct (cmp (path_bytes (topology_path x)) _).
Qed.

Lemma stable_str_round_trip c : from_stable_str (category_as_str c) = Some c.
Proof. by destruct c. Qed.

Lemma stable_str_spec value c : from_stable_str value = Some c ↔ value = category_as_str c.
Proof.
  split; [|intros ->; apply stable_str_round_trip]. unfold from_stable_str.
  repeat (case_bool_decide as Hv; [subst value; by intros [= <-]|clear Hv]). done.
Qed.

Lemma keys_increasing_prefix {A} (key : A → bytes) xs ys : keys_increasing key (xs ++ ys) → keys_increasing key xs.
Proof. unfold keys_increasing, bset_wf. rewrite map_app. by intros (_ & Hs & _)%StronglySorted_app. Qed.

(** ** What is hashed *)

Definition path_message (p : RepositoryPath) : bytes :=
  u64_be_bytes (len (path_bytes p)) ++ path_bytes p ++ category_as_str (classify_path p).

Definition topology_message (paths : list RepositoryPath) : bytes :=
  repository_topology_hasher REPOSITORY_TOPOLOGY_PROFILE_VERSION ++ flat_map path_message paths.

(** Paths a Rust slice can hold. *)
Definition representable (p : RepositoryPath) : Prop := wf p ∧ len (path_bytes p) ≤ u64_max.

Lemma path_messages_inj ps qs :
  Forall representable ps → Forall representable qs → flat_map path_message ps = flat_map path_message qs → ps = qs.
Proof.
  intros Hp. revert qs. induction Hp as [|p ps [Hp Hlp] _ IH]; intros qs Hq Heq.
  { destruct qs as [|q qs]; [done|]. apply (f_equal length) in Heq. cbn [flat_map] in Heq. unfold path_message in Heq.
    rewrite !length_app in Heq. unfold u64_be_bytes in Heq. rewrite length_be_bytes in Heq. simpl in Heq. lia. }
  destruct qs as [|q qs].
  { apply (f_equal length) in Heq. cbn [flat_map] in Heq. unfold path_message in Heq.
    rewrite !length_app in Heq. unfold u64_be_bytes in Heq. rewrite length_be_bytes in Heq. simpl in Heq. lia. }
  apply Forall_cons in Hq as [[Hq Hlq] Hqs]. cbn [flat_map] in Heq. unfold path_message in Heq at 1 3. rewrite <- !app_assoc in Heq.
  apply app_inj_1 in Heq as [Hn Heq]; [|unfold u64_be_bytes; by rewrite !length_be_bytes].
  apply be_bytes_inj in Hn; [|pose proof (len_nonneg (path_bytes p)); unfold u64_max in *; simpl; lia
                              |pose proof (len_nonneg (path_bytes q)); unfold u64_max in *; simpl; lia].
  apply app_inj_1 in Heq as [Hpq Heq]; [|unfold len in Hn; lia]. apply wf_inj in Hpq as ->; [|done..].
  apply app_inj_1 in Heq as [_ Heq]; [|done]. f_equal. by apply IH.
Qed.

Lemma hash_paths hasher paths :
  Forall representable paths →
  evals (ctl_fold hash_path hasher paths) (Ok (hasher ++ flat_map path_message paths)).
Proof.
  intros Hp. revert hasher. induction Hp as [|p paths [_ Hl] _ IH]; intros hasher; cbn [ctl_fold flat_map].
  { rewrite app_nil_r. apply evals_ret. }
  eapply evals_bind; [|rewrite app_assoc; apply IH]. unfold hash_path. apply evals_check_bind.
  unfold update_repository_topology_hasher, u64_of_len. fold (len (path_bytes p)). rewrite checked_in by (pose proof (len_nonneg (path_bytes p)); lia).
  apply evals_lift.
Qed.

Lemma prepare_steady {D} (sha256 : bytes → D) paths : steady (prepare_repository_topology sha256 paths).
Proof. unfold prepare_repository_topology, hash_path. solve_steady. Qed.

Lemma prepare_run {D} (sha256 : bytes → D) paths :
  Forall representable paths →
  run never (prepare_repository_topology sha256 paths)
  = if any_adjacent path_ge paths then Err InvalidPaths
    else Ok {| prepared_entries := map (λ p, (p, classify_path p)) paths; prepared_digest := sha256 (topology_message paths) |}.
Proof.
  intros Hp. apply evals_run. unfold prepare_repository_topology. apply evals_check_bind. destruct (any_adjacent _ _); [apply evals_throw|].
  eapply evals_bind; [by apply hash_paths|]. apply evals_check_bind. apply evals_ret.
Qed.

(** ** What an honest answer says *)

Section answers.
Context {Snapshot Generation Digest : Type}.

(** The counts of a topology by category. *)
Definition count_in (entries : list (RepositoryPath * RepositoryTopologyCategory)) (c : RepositoryTopologyCategory) : Z :=
  Z.of_nat (length (filter (λ e, e.2 = c) entries)).

Definition summaries_of (entries : list (RepositoryPath * RepositoryTopologyCategory)) : list RepositoryTopologyCategorySummary :=
  map (λ c, {| summary_category := c; summary_path_count := count_in entries c |}) all_categories.

Definition entry_of_prepared (e : RepositoryPath * RepositoryTopologyCategory) : RepositoryTopologyEntry :=
  {| topology_path := e.1; topology_category := e.2 |}.

(** The answer that lists the first [k] entries of a prepared topology. *)
Definition answer (snapshot : Snapshot) (generation : Generation) (t : PreparedRepositoryTopology (Digest := Digest)) (k : nat) (output_bytes : Z)
    : RepositoryTopologyPortResult :=
  {| port_receipt := {| receipt_snapshot := snapshot; receipt_generation := generation;
                        receipt_topology_profile_version := REPOSITORY_TOPOLOGY_PROFILE_VERSION; receipt_topology_digest := prepared_digest t |};
     port_coverage := {| coverage_discovered_paths := Z.of_nat (length (prepared_entries t)); coverage_omitted_paths := 0 |};
     port_entries := map entry_of_prepared (take k (prepared_entries t));
     port_category_summaries := summaries_of (prepared_entries t);
     port_total_paths := Z.of_nat (length (prepared_entries t)); port_output_bytes := output_bytes |}.

Lemma counts_total entries :
  count_in entries AgentInstruction + count_in entries BuildDescriptor + count_in entries ConfigurationDescriptor
  + count_in entries Documentation + count_in entries OtherTrackedFile + count_in entries PackageDescriptor
  + count_in entries WorkflowDescriptor = Z.of_nat (length entries).
Proof.
  unfold count_in. induction entries as [|[p c] entries IH]; [done|]. rewrite !filter_cons. cbn [snd length].
  destruct c; repeat (case_decide; [done || (cbn [length]; lia)|]); cbn [length]; repeat case_decide; try done; cbn [length]; lia.
Qed.

(** The summaries of an accepted answer: one for each category, in order, and their sum. *)
Definition summaries_ok (summaries : list RepositoryTopologyCategorySummary) (total : Z) : Prop :=
  map summary_category summaries = all_categories ∧ foldr Z.add 0 (map summary_path_count summaries) = total.

Lemma sum_summaries_spec total summaries categories r :
  length summaries = length categories → Forall (λ s, 0 ≤ summary_path_count s) summaries → 0 ≤ total ≤ u64_max →
  sum_summaries total (zip summaries categories) = Ok r ↔
  map summary_category summaries = categories ∧ r = total + foldr Z.add 0 (map summary_path_count summaries) ∧ r ≤ u64_max.
Proof.
  revert total categories. induction summaries as [|s summaries IH]; intros total [|c categories] Hl Hs Ht; try done.
  - cbn. split; [intros [= <-]; split_and!; [done|lia|lia]|]. intros (_ & -> & _). f_equal. lia.
  - injection Hl as Hl. apply Forall_cons in Hs as [Hs0 Hs]. cbn [zip zip_with sum_summaries map foldr].
    destruct (bool_decide (summary_category s = c)) eqn:Ec; cbn [negb].
    2:{ apply bool_decide_eq_false in Ec. split; [done|]. by intros ([= ? _] & _). }
    apply bool_decide_eq_true in Ec as <-. unfold u64_checked_add.
    assert (0 ≤ foldr Z.add 0 (map summary_path_count summaries)) as Hnn by (clear -Hs; induction Hs; simpl; lia).
    destruct (checked u64_max (total + summary_path_count s)) as [t|] eqn:Et; rstep.
    + apply checked_Some in Et as [-> Ht']. fold (zip summaries categories). rewrite IH by (done || lia).
      split; intros (H1 & -> & H3); (split; [congruence|lia]).
    + apply checked_None in Et. split; [done|]. intros (_ & -> & ?). lia.
Qed.

(** Exactly the answers the receipt contract allows. *)
Lemma validate_spec (r : RepositoryTopologyPortResult (Snapshot := Snapshot) (Generation := Generation) (Digest := Digest)) limits :
  Forall (λ s, 0 ≤ summary_path_count s) (port_category_summaries r) → port_total_paths r ≤ u64_max → topology_max_paths limits ≤ u64_max →
  validate_port_result r limits = Ok () ↔
  receipt_topology_profile_version (port_receipt r) = REPOSITORY_TOPOLOGY_PROFILE_VERSION
  ∧ Z.of_nat (length (port_entries r)) ≤ topology_max_paths limits ∧ Z.of_nat (length (port_entries r)) ≤ port_total_paths r
  ∧ port_total_paths r ≤ coverage_discovered_paths (port_coverage r) ∧ coverage_omitted_paths (port_coverage r) = 0
  ∧ port_output_bytes r ≤ topology_max_output_bytes limits ∧ keys_increasing (path_bytes ∘ topology_path) (port_entries r)
  ∧ summaries_ok (port_category_summaries r) (port_total_paths r).
Proof.
  intros Hs Ht Hlim. unfold validate_port_result, summaries_ok, reject_if, u64_of_len. rewrite <- entries_in_order.
  set (returned := Z.of_nat (length (port_entries r))). destruct (Z.eqb_spec (receipt_topology_profile_version (port_receipt r)) REPOSITORY_TOPOLOGY_PROFILE_VERSION) as [Hv|Hv]; rstep.
  2:{ split; [done|]. by intros [? _]. }
  destruct (checked u64_max returned) as [n|] eqn:En; rstep.
  2:{ apply checked_None in En. split; [done|]. intros (_ & ? & _). lia. }
  apply checked_Some in En as [-> _]. destruct (Z.ltb_spec (topology_max_paths limits) returned); rstep; [split; [done|]; intros (_ & ? & _); lia|].
  destruct ((port_total_paths r <? returned) || _ || _) eqn:Eg; rstep; [split; [done|]; intros (_ & _ & ? & ? & ? & _); lia|].
  destruct (Z.ltb_spec (topology_max_output_bytes limits) (port_output_bytes r)); rstep; [split; [done|]; intros (_ & _ & _ & _ & _ & ? & _); lia|].
  destruct (any_adjacent _ _); rstep; [split; [done|]; by intros (_ & _ & _ & _ & _ & _ & ? & _)|].
  destruct (Nat.eqb_spec (length (port_category_summaries r)) (length all_categories)) as [Hl|Hl]; rstep.
  2:{ split; [done|]. intros (_ & _ & _ & _ & _ & _ & _ & Hc & _). apply (f_equal length) in Hc. by rewrite length_map in Hc. }
  pose proof (sum_summaries_spec 0 (port_category_summaries r) all_categories) as Hsum.
  assert (0 ≤ 0 ≤ u64_max) as Hzero by (unfold u64_max; lia). specialize (λ total, Hsum total Hl Hs Hzero).
  destruct (sum_summaries 0 _) as [total|e]; rstep.
  - destruct (proj1 (Hsum total) eq_refl) as (Hc & -> & Hle). rewrite Z.add_0_l in *.
    destruct (Z.eqb_spec (foldr Z.add 0 (map summary_path_count (port_category_summaries r))) (port_total_paths r)) as [He|He]; rstep.
    + split; [intros _; split_and!; done || lia|done].
    + split; [done|]. by intros (_ & _ & _ & _ & _ & _ & _ & _ & ?).
  - split; [done|]. intros (_ & _ & _ & _ & _ & _ & _ & Hc & Htot). enough (Err e = Ok (port_total_paths r)) by done. apply Hsum. split_and!; [done|lia|done].
Qed.

Lemma answer_accepted snapshot generation t k output_bytes limits :
  keys_increasing (path_bytes ∘ fst) (prepared_entries t) → Z.of_nat (length (prepared_entries t)) ≤ u64_max →
  topology_max_paths limits ≤ u64_max → Z.of_nat k ≤ topology_max_paths limits → output_bytes ≤ topology_max_output_bytes limits →
  validate_port_result (answer snapshot generation t k output_bytes) limits = Ok ().
Proof.
  intros Hk Hl Hlim Hkl Ho. apply validate_spec; [|done..|].
  { apply Forall_map, Forall_forall. intros c _. simpl. unfold count_in. lia. }
  cbn. rewrite length_map, length_take. split_and!; [done|lia|lia|lia|done|done| |].
  - unfold keys_increasing. rewrite map_map. apply (keys_increasing_prefix (path_bytes ∘ fst) _ (drop k (prepared_entries t))). by rewrite take_drop.
  - split; [done|]. cbn. rewrite <- counts_total. lia.
Qed.
End answers.

(** C28: a topology is prepared exactly for paths in strict byte order, each with its category,
    and the hashed message is the same just for the same paths; whatever the control, nothing
    else happens to it.  A storage that answers a read with the first entries of what was
    prepared, within the limits, and with its complete counts is accepted: the result carries
    the prepared digest and total, and is marked truncated exactly when entries are missing. *)
Theorem topology_exact {D} (sha256 : bytes → D) (paths : list RepositoryPath) :
  Forall representable paths → Z.of_nat (length paths) ≤ u64_max →
  (∀ t, run never (prepare_repository_topology sha256 paths) = Ok t ↔
        keys_increasing path_bytes paths
        ∧ t = {| prepared_entries := map (λ p, (p, classify_path p)) paths; prepared_digest := sha256 (topology_message paths) |})
  ∧ (∀ qs, Forall representable qs → topology_message paths = topology_message qs ↔ paths = qs)
  ∧ (∀ o, run o (prepare_repository_topology sha256 paths) = run never (prepare_repository_topology sha256 paths)
          ∨ ∃ k e, o k = Some e ∧ run o (prepare_repository_topology sha256 paths) = Err e)
  ∧ (∀ {Snapshot Generation PortError Repository : Type} (snapshot : Snapshot) (generation : Generation)
       (port : Repository → RepositoryTopologyLimits → result PortError RepositoryTopologyPortResult) repository limits t k output_bytes,
     run never (prepare_repository_topology sha256 paths) = Ok t → topology_max_paths limits ≤ u64_max →
     Z.of_nat k ≤ topology_max_paths limits → output_bytes ≤ topology_max_output_bytes limits →
     port repository limits = Ok (answer snapshot generation t k output_bytes) →
     ∃ r, run never (repository_topology port repository limits) = Ok r
          ∧ result_topology_digest r = prepared_digest t ∧ result_total_paths r = Z.of_nat (length paths)
          ∧ result_entries r = take k (map (λ p, {| topology_path := p; topology_category := classify_path p |}) paths)
          ∧ truncated r = bool_decide (k < length paths)%nat).
Proof.
  intros Hp Hl.
  assert (∀ t, run never (prepare_repository_topology sha256 paths) = Ok t ↔ keys_increasing path_bytes paths
            ∧ t = {| prepared_entries := map (λ p, (p, classify_path p)) paths; prepared_digest := sha256 (topology_message paths) |}) as Hprep.
  { intros t. rewrite prepare_run, <- paths_in_order by done. destruct (any_adjacent _ _); [split; [done|by intros [? _]]|].
    split; [by intros [= <-]|by intros [_ ->]]. }
  split; [exact Hprep|]. split.
  { intros qs Hq. split; [|by intros ->]. intros He%app_inv_head. by apply path_messages_inj. }
  split; [intros o; apply steady_run, prepare_steady|].
  intros Snapshot Generation PortError Repository snapshot generation port repository limits t k output_bytes Ht Hlim Hk Ho Hport.
  apply Hprep in Ht as [Hinc ->]. unfold repository_topology. rewrite run_never_check by solve_steady.
  rewrite run_never_lift_bind by (intros; solve_steady). rewrite Hport. rstep. rewrite run_never_check by solve_steady.
  rewrite run_never_lift_bind by (intros; solve_steady). rewrite answer_accepted; [|cbn|cbn; by rewrite length_map|done..].
  2:{ unfold keys_increasing in *. rewrite map_map. exact Hinc. }
  rstep. rewrite run_never_ret. eexists. split; [reflexivity|]. unfold answer. cbn. rewrite length_map.
  assert (map entry_of_prepared (take k (map (λ p, (p, classify_path p)) paths))
          = take k (map (λ p, {| topology_path := p; topology_category := classify_path p |}) paths)) as He.
  { rewrite <- !firstn_map, map_map. done. }
  split_and!; [done|done|exact He|]. unfold truncated. cbn. rewrite length_map, length_take, length_map. unfold u64_of_len.
  rewrite checked_in by lia. destruct (Z.ltb_spec (Z.of_nat (k `min` length paths)) (Z.of_nat (length paths)));
    [rewrite bool_decide_eq_true_2 by lia|rewrite bool_decide_eq_false_2 by lia]; done.
Qed.

(** A file at the root and a document. *)
Definition topology_paths : list RepositoryPath := [git_path (b_of "Cargo.toml"); git_path (b_of "docs/Cargo.toml")].
Definition topology_limits : RepositoryTopologyLimits := {| topology_max_paths := 1; topology_max_output_bytes := 64 |}.

Lemma topology_exact_witness :
  ∃ r, run never (repository_topology (PortError := unit) (λ (_ : unit) _, Ok (answer () ()
         {| prepared_entries := map (λ p, (p, classify_path p)) topology_paths; prepared_digest := id (topology_message topology_paths) |} 1 40))
         () topology_limits) = Ok r
       ∧ map topology_category (result_entries r) = [PackageDescriptor] ∧ truncated r = true.
Proof.
  assert (Forall representable topology_paths) as Hr.
  { assert (∀ bs, try_from_bytes bs {| max_bytes := 32; max_components := 4 |} = Ok (git_path bs) → len bs ≤ u64_max →
      representable (git_path bs)) as Hrep by (intros bs (Hw & _ & _)%try_from_bytes_wf Hl; by split).
    apply Forall_cons_2; [|apply Forall_cons_2; [|apply Forall_nil_2]]; apply Hrep; (by vm_compute) || (vm_compute; discriminate). }
  destruct (topology_exact id topology_paths Hr) as (Hprep & _ & _ & Hans); [vm_compute; discriminate|].
  destruct (Hans unit unit unit unit () () (λ _ _, Ok (answer () ()
         {| prepared_entries := map (λ p, (p, classify_path p)) topology_paths; prepared_digest := id (topology_message topology_paths) |} 1 40))
         () topology_limits {| prepared_entries := map (λ p, (p, classify_path p)) topology_paths; prepared_digest := id (topology_message topology_paths) |}
         1%nat 40) as (r & Hrun & _ & _ & He & Ht).
  - apply Hprep. split; [|done]. by apply paths_in_order.
  - vm_compute. discriminate.
  - vm_compute. discriminate.
  - vm_compute. discriminate.
  - done.
  - exists r. split; [exact Hrun|]. split; [by rewrite He|by rewrite Ht].
Defined.

(** The first class that fits decides: a document before a package, an instruction before both. *)
Example topology_precedence :
  map (λ p, classify_path (git_path p)) [b_of "docs/Cargo.toml"; b_of "docs/AGENTS.md"; b_of "requirements/dev.txt"; b_of "src/lib.rs"]
  = [Documentation; AgentInstruction; PackageDescriptor; OtherTrackedFile].
Proof. by vm_compute. Qed.
