(* ===== verification/GitMemory.v ===== *)
(** * Git queries of memory revalidation

    Models [crates/repowitness-local/src/git_memory.rs]: the bounded queries for the head
    commit, for the ancestry of commits and for an exact move of a path.  The subprocess is a
    parameter, which gives the status and the output for some arguments; a duration is its
    nanoseconds. *)

From Stdlib Require Import ZArith Lia ZifyBool.
From Stdlib Require Import Strings.Byte.
From stdpp Require Import base numbers sorting list.
From S2P Require Import Prelude Ordering RepositoryPath GitPaths PathText IdentityText SourceState GitObject MemoryRecord MemoryValidity.

Open Scope Z_scope.

Definition MAX_GIT_MEMORY_OUTPUT_BYTES : Z := 8 * 1024 * 1024.
Definition MAX_GIT_MEMORY_DIFF_RECORDS : Z := 65536.
Definition MAX_GIT_MEMORY_COMMAND_DEADLINE : Z := 30 * 1000000000.
Definition DEFAULT_GIT_MEMORY_OUTPUT_BYTES : Z := 1024 * 1024.
Definition DEFAULT_GIT_MEMORY_DIFF_RECORDS : Z := 4096.
Definition DEFAULT_GIT_MEMORY_COMMAND_DEADLINE : Z := 5 * 1000000000.
Definition GIT_MEMORY_PATH_LIMITS : RepositoryPathLimits := {| max_bytes := 1048576; max_components := 65535 |}.

#[export] Instance memory_format_eq_dec : EqDecision MemoryObjectFormat.
Proof. solve_decision. Defined.

Record GitMemoryQueryLimits := {
  query_command_deadline : Z;
  query_output_bytes : Z;
  query_diff_records : Z;
}.

Inductive GitPathContinuityOutcome := ContinuityExactMove | ContinuityNoMatch | ContinuityIndeterminate.

Inductive GitMemoryQueryError := QueryInvalidLimits | QueryDeadlineNotRepresentable | QueryCancelled | QueryDeadlineExceeded.

Definition query_limits_try_new (command_deadline output_bytes diff_records : Z) : result GitMemoryQueryError GitMemoryQueryLimits :=
  if (command_deadline =? 0)
     || (MAX_GIT_MEMORY_COMMAND_DEADLINE <? command_deadline)
     || (output_bytes =? 0)
     || (MAX_GIT_MEMORY_OUTPUT_BYTES <? output_bytes)
     || (diff_records =? 0)
     || (MAX_GIT_MEMORY_DIFF_RECORDS <? diff_records)
  then Err QueryInvalidLimits
  else Ok {| query_command_deadline := command_deadline; query_output_bytes := output_bytes; query_diff_records := diff_records |}.

Definition query_limits_default : GitMemoryQueryLimits :=
  {| query_command_deadline := DEFAULT_GIT_MEMORY_COMMAND_DEADLINE; query_output_bytes := DEFAULT_GIT_MEMORY_OUTPUT_BYTES;
     query_diff_records := DEFAULT_GIT_MEMORY_DIFF_RECORDS |}.

Definition discovery_limits (limits : GitMemoryQueryLimits) : GitPathDiscoveryLimits :=
  {| limit_output_bytes := query_output_bytes limits; limit_paths := query_diff_records limits;
     limit_repository_path := GIT_MEMORY_PATH_LIMITS |}.

(** ** Parsing *)

Definition commit_hex (commit : MemoryCommitId) : bytes := flat_map lower_hex_byte (commit_as_bytes commit).

Definition hex_digit_value (value : byte) : option Z :=
  if (48 <=? byte_rank value) && (byte_rank value <=? 57) then Some (byte_rank value - 48)
  else if (97 <=? byte_rank value) && (byte_rank value <=? 102) then Some (byte_rank value - 97 + 10)
  else None.

Definition decode_hex_pair (pair : bytes) : option byte :=
  first ← head pair;
  high ← hex_digit_value first;
  second ← pair !! 1%nat;
  low ← hex_digit_value second;
  Some (byte_of (high * 16 + low)).

(** The loop over [chunks_exact(2)], which writes from the byte at [index] on. *)
Fixpoint decode_pairs (index : nat) (value decoded : bytes) : option bytes :=
  match value with
  | h :: l :: rest =>
      pair ← decode_hex_pair [h; l];
      decode_pairs (S index) rest (<[index := pair]> decoded)
  | _ => Some decoded
  end.

Definition parse_commit_output (f : MemoryObjectFormat) (output : bytes) : option MemoryCommitId :=
  let expected_hex_bytes := match f with FormatSha1 => 40%nat | FormatSha256 => 64%nat end in
  if negb (length output =? expected_hex_bytes + 1)%nat || negb (bool_decide (last output = Some x0a)) then None
  else
    decoded ← decode_pairs 0 (take expected_hex_bytes output) (replicate 32 x00);
    Some match f with
         | FormatSha1 => Sha1 (take 20 decoded)
         | FormatSha256 => Sha256 decoded
         end.

Definition is_err {E A} (r : result E A) : bool := negb (is_ok r).

(** The loop over the fields, with the records read and the exact matches among them. *)
Fixpoint exact_move_loop (source_path target_path : RepositoryPath) (max_records : Z) (fields : list bytes)
    (records exact_matches : Z) : GitPathContinuityOutcome :=
  match fields with
  | [] => if exact_matches =? 0 then ContinuityNoMatch
          else if exact_matches =? 1 then ContinuityExactMove
          else ContinuityIndeterminate
  | status :: fields =>
      match checked u32_max (records + 1) with
      | None => ContinuityIndeterminate
      | Some records =>
          if max_records <? records then ContinuityIndeterminate
          else
            match fields with
            | old_path :: new_path :: fields =>
                if is_err (try_from_bytes old_path GIT_MEMORY_PATH_LIMITS) || is_err (try_from_bytes new_path GIT_MEMORY_PATH_LIMITS)
                then ContinuityIndeterminate
                else if bool_decide (status = b_of "R100") && bool_decide (old_path = path_bytes source_path)
                        && bool_decide (new_path = path_bytes target_path)
                then match checked 255 (exact_matches + 1) with
                     | Some matches => exact_move_loop source_path target_path max_records fields records matches
                     | None => ContinuityIndeterminate
                     end
                else exact_move_loop source_path target_path max_records fields records exact_matches
            | _ => ContinuityIndeterminate
            end
      end
  end.

Definition parse_exact_move (output : bytes) (source_path target_path : RepositoryPath) (max_records : Z) : GitPathContinuityOutcome :=
  if bool_decide (output = []) then ContinuityNoMatch
  else
    match strip_last nul output with
    | None => ContinuityIndeterminate
    | Some body => exact_move_loop source_path target_path max_records (split_byte nul body) 0 0
    end.

(** ** Queries *)

Section queries.
(** The subprocess under its limits; whether the deadline of a command can be represented. *)
Context (capture_git_output_with_status_from_command :
  list bytes → GitPathDiscoveryLimits → result GitPathDiscoveryError ((bool * option Z) * bytes)).
Context (deadline_representable : bool).

Record GitMemoryQueries := {
  queries_object_format : option MemoryObjectFormat;
  queries_limits : GitMemoryQueryLimits;
}.

Definition capture (command : list bytes) (limits : GitMemoryQueryLimits)
    : ctl GitMemoryQueryError (option ((bool * option Z) * bytes)) :=
  check;;
  (if deadline_representable then mret () else throw QueryDeadlineNotRepresentable);;
  match capture_git_output_with_status_from_command command (discovery_limits limits) with
  | Ok output => mret (Some output)
  | Err GitCancelled => throw QueryCancelled
  | Err GitDeadlineExceeded => throw QueryDeadlineExceeded
  | Err _ => mret None
  end.

Definition git_memory_open (limits : GitMemoryQueryLimits) : ctl GitMemoryQueryError GitMemoryQueries :=
  check;;
  captured ← capture [b_of "rev-parse"; b_of "--show-object-format"] limits;
  mret {| queries_object_format :=
            '((success, _), output) ← captured;
            if negb success then None
            else if bool_decide (output = b_of "sha1" ++ [x0a]) then Some FormatSha1
            else if bool_decide (output = b_of "sha256" ++ [x0a]) then Some FormatSha256
            else None;
          queries_limits := limits |}.

Definition head_commit (queries : GitMemoryQueries) : ctl GitMemoryQueryError (option MemoryCommitId) :=
  check;;
  match queries_object_format queries with
  | None => mret None
  | Some f =>
      captured ← capture [b_of "rev-parse"; b_of "--verify"; b_of "--quiet"; b_of "HEAD^{commit}"] (queries_limits queries);
      mret (match captured with
            | None => None
            | Some ((success, _), output) => if negb success then None else parse_commit_output f output
            end)
  end.

Definition is_ancestor (queries : GitMemoryQueries) (ancestor target : MemoryCommitId) : ctl GitMemoryQueryError MemoryAncestryOutcome :=
  check;;
  if negb (bool_decide (queries_object_format queries = Some (object_format ancestor)))
     || negb (bool_decide (object_format ancestor = object_format target))
  then mret OutcomeIndeterminate
  else
    captured ← capture [b_of "merge-base"; b_of "--is-ancestor"; commit_hex ancestor; commit_hex target] (queries_limits queries);
    mret (match captured with
          | None => OutcomeIndeterminate
          | Some ((_, code), output) =>
              if negb (bool_decide (output = [])) then OutcomeIndeterminate
              else if bool_decide (code = Some 0) then OutcomeAncestor
              else if bool_decide (code = Some 1) then OutcomeNotAncestor
              else OutcomeIndeterminate
          end).

Definition diff_arguments (source_commit target_commit : MemoryCommitId) : list bytes :=
  [b_of "diff-tree"; b_of "--no-commit-id"; b_of "--name-status"; b_of "-z"; b_of "-r"; b_of "--find-renames=100%";
   b_of "--diff-filter=R"; b_of "--no-ext-diff"; b_of "--no-textconv"; commit_hex source_commit; commit_hex target_commit].

Definition exact_path_continuity (queries : GitMemoryQueries) (source_commit target_commit : MemoryCommitId)
    (source_path target_path : RepositoryPath) : ctl GitMemoryQueryError GitPathContinuityOutcome :=
  check;;
  if bool_decide (path_bytes source_path = path_bytes target_path) then mret ContinuityNoMatch
  else if negb (bool_decide (queries_object_format queries = Some (object_format source_commit)))
     || negb (bool_decide (object_format source_commit = object_format target_commit))
  then mret ContinuityIndeterminate
  else
    captured ← capture (diff_arguments source_commit target_commit) (queries_limits queries);
    mret (match captured with
          | None => ContinuityIndeterminate
          | Some ((success, _), output) =>
              if negb success then ContinuityIndeterminate
              else parse_exact_move output source_path target_path (query_diff_records (queries_limits queries))
          end).
End queries.

(** ** Exact moves *)

(** A record of the listing: the status, the old path and the new path. *)
Definition MoveRecord : Type := bytes * bytes * bytes.
Definition move_fields (r : MoveRecord) : list bytes := let '(status, old_path, new_path) := r in [status; old_path; new_path].
Definition memory_path_ok (path : bytes) : Prop := ∃ p, try_from_bytes path GIT_MEMORY_PATH_LIMITS = Ok p.
Definition move_paths_ok (r : MoveRecord) : Prop := memory_path_ok r.1.2 ∧ memory_path_ok r.2.
Definition move_ok (r : MoveRecord) : Prop := move_paths_ok r ∧ Forall (λ f, nul ∉ f) (move_fields r).

Definition exact_move_of (source_path target_path : RepositoryPath) : MoveRecord :=
  (b_of "R100", path_bytes source_path, path_bytes target_path).

(** How many records are the exact move. *)
Definition exact_moves (source_path target_path : RepositoryPath) (rs : list MoveRecord) : Z :=
  Z.of_nat (length (filter (λ r, r = exact_move_of source_path target_path) rs)).

Definition continuity_of (matches : Z) : GitPathContinuityOutcome :=
  if matches =? 0 then ContinuityNoMatch else if matches =? 1 then ContinuityExactMove else ContinuityIndeterminate.

Lemma is_err_spec path : is_err (try_from_bytes path GIT_MEMORY_PATH_LIMITS) = false ↔ memory_path_ok path.
Proof. unfold is_err, memory_path_ok. destruct (try_from_bytes _ _) as [p|e]; simpl; naive_solver. Qed.

Section moves.
Context (source_path target_path : RepositoryPath) (max_records : Z) (Hmax : max_records ≤ u32_max).

Lemma exact_moves_cons r rs :
  exact_moves source_path target_path (r :: rs) =
  (if bool_decide (r = exact_move_of source_path target_path) then 1 else 0) + exact_moves source_path target_path rs.
Proof. unfold exact_moves. rewrite filter_cons. case_decide; [rewrite bool_decide_eq_true_2 by done; simpl; lia|by rewrite bool_decide_eq_false_2]. Qed.

Lemma is_exact_move status old_path new_path :
  bool_decide (status = b_of "R100") && bool_decide (old_path = path_bytes source_path) && bool_decide (new_path = path_bytes target_path)
  = bool_decide ((status, old_path, new_path) = exact_move_of source_path target_path).
Proof.
  apply eq_true_iff_eq. unfold exact_move_of. rewrite !andb_true_iff, !bool_decide_eq_true. split; [by intros [[-> ->] ->]|by intros [= -> -> ->]].
Qed.

Lemma exact_move_loop_spec fields records matches o :
  o ≠ ContinuityIndeterminate → 0 ≤ records ≤ max_records → 0 ≤ matches ≤ 255 →
  exact_move_loop source_path target_path max_records fields records matches = o ↔
  ∃ rs, fields = flat_map move_fields rs ∧ Forall move_paths_ok rs ∧ records + Z.of_nat (length rs) ≤ max_records
        ∧ continuity_of (matches + exact_moves source_path target_path rs) = o.
Proof.
  intros Ho. remember (length fields) as k eqn:Hk. revert fields records matches Hk.
  induction k as [k IH] using lt_wf_ind. intros fields records matches -> Hr Hm.
  destruct fields as [|status fields].
  { cbn [exact_move_loop]. split.
    - intros H. exists []. split_and!; [done|constructor|simpl; lia|]. unfold exact_moves. simpl. by rewrite Z.add_0_r.
    - intros (rs & Hf & _ & _ & He). destruct rs as [|[[? ?] ?] rs]; [|done]. unfold exact_moves in He. simpl in He. by rewrite Z.add_0_r in He. }
  cbn [exact_move_loop].
  assert (∀ rs, status :: fields = flat_map move_fields rs → ∃ old_path new_path rest rs', fields = old_path :: new_path :: rest
    ∧ rs = (status, old_path, new_path) :: rs' ∧ rest = flat_map move_fields rs') as Hrs.
  { intros [|[[s o'] n] rs']; [done|]. simpl. intros [= -> ->]. eauto 10. }
  destruct (checked u32_max (records + 1)) as [records'|] eqn:Ec.
  2:{ apply checked_None in Ec. split; [by intros <-|]. intros (rs & Hf & _ & Hl & _). apply Hrs in Hf as (? & ? & ? & rs' & _ & -> & _). simpl in Hl. lia. }
  apply checked_Some in Ec as [-> _]. destruct (Z.ltb_spec max_records (records + 1)).
  { split; [by intros <-|]. intros (rs & Hf & _ & Hl & _). apply Hrs in Hf as (? & ? & ? & rs' & _ & -> & _). simpl in Hl. lia. }
  destruct fields as [|old_path [|new_path fields]].
  1-2: split; [by intros <-|]; intros (rs & Hf & _); apply Hrs in Hf as (? & ? & ? & ? & ? & _); congruence.
  assert ((∃ rs, status :: old_path :: new_path :: fields = flat_map move_fields rs ∧ Forall move_paths_ok rs
             ∧ records + Z.of_nat (length rs) ≤ max_records ∧ continuity_of (matches + exact_moves source_path target_path rs) = o)
          ↔ (memory_path_ok old_path ∧ memory_path_ok new_path) ∧
            ∃ rs, fields = flat_map move_fields rs ∧ Forall move_paths_ok rs ∧ records + 1 + Z.of_nat (length rs) ≤ max_records
              ∧ continuity_of (matches + (if bool_decide ((status, old_path, new_path) = exact_move_of source_path target_path) then 1 else 0)
                               + exact_moves source_path target_path rs) = o) as ->.
  { split.
    - intros (rs & Hf & Hall & Hl & Hc). apply Hrs in Hf as (o' & n' & rest & rs' & [= -> -> ->] & -> & ->).
      apply Forall_cons in Hall as [Hp Hall]. rewrite exact_moves_cons, Z.add_assoc in Hc. simpl in Hl. split; [exact Hp|]. exists rs'. split_and!; [done..|lia|done].
    - intros (Hp & rs & -> & Hall & Hl & Hc). exists ((status, old_path, new_path) :: rs). split_and!; [done|by constructor|simpl; lia|].
      by rewrite exact_moves_cons, Z.add_assoc. }
  destruct (is_err _ || is_err _) eqn:Ee.
  { split; [by intros <-|]. intros ([H1 H2] & _). apply is_err_spec in H1, H2. rewrite H1, H2 in Ee. done. }
  apply orb_false_iff in Ee as [H1%is_err_spec H2%is_err_spec]. rewrite is_exact_move.
  case_bool_decide as Hmove.
  - destruct (checked 255 (matches + 1)) as [matches'|] eqn:Em.
    + apply checked_Some in Em as [-> ?]. rewrite (IH (length fields)) by (simpl; lia). tauto.
    + apply checked_None in Em. split; [by intros <-|]. intros (_ & rs & _ & _ & _ & Hc). unfold continuity_of, exact_moves in Hc.
      do 2 (case_match; [lia|]). by subst o.
  - rewrite (IH (length fields)) by (simpl; lia). rewrite Z.add_0_r. tauto.
Qed.

(** A conclusive answer is that of the one complete reading of the output. *)
Lemma parse_exact_move_spec output o :
  o ≠ ContinuityIndeterminate → 0 ≤ max_records →
  parse_exact_move output source_path target_path max_records = o ↔
  ∃ rs, output = terminated nul (flat_map move_fields rs) ∧ Forall move_ok rs ∧ Z.of_nat (length rs) ≤ max_records
        ∧ continuity_of (exact_moves source_path target_path rs) = o.
Proof.
  intros Ho Hmin. unfold parse_exact_move.
  assert (∀ rs, Forall move_ok rs ↔ Forall move_paths_ok rs ∧ Forall (λ f, nul ∉ f) (flat_map move_fields rs)) as Hok.
  { intros rs. induction rs as [|r rs IH]; [by split; [split; constructor|constructor]|]. simpl. rewrite !Forall_cons, IH, Forall_app. unfold move_ok. tauto. }
  case_bool_decide as He.
  { subst output. split.
    - intros <-. exists []. split_and!; [done|constructor|simpl; lia|done].
    - intros (rs & Ht & _ & _ & Hc). destruct rs as [|[[s o'] n] rs]; [done|]. unfold terminated in Ht. simpl in Ht. by destruct s. }
  destruct (strip_last nul output) as [body|] eqn:Eb.
  - rewrite exact_move_loop_spec by (done || lia). apply strip_last_Some in Eb as Hout. split.
    + intros (rs & Hs & Hp & Hl & Hc). exists rs. rewrite <- Hs. split_and!; [by rewrite terminated_split| |lia|done].
      apply Hok. split; [done|]. rewrite <- Hs. apply Forall_forall. intros f Hf. by eapply split_byte_no_delimiter.
    + intros (rs & Ht & [Hp Hn]%Hok & Hl & Hc). exists rs. split_and!; [|done|lia|done].
      destruct (split_terminated nul (flat_map move_fields rs)) as (body' & Hb & Hs); [intros Hnil; rewrite Hnil in Ht; by subst|done|].
      rewrite <- Ht, Eb in Hb. by injection Hb as ->.
  - split; [by intros <-|]. intros (rs & Ht & [_ Hn]%Hok & _).
    destruct (split_terminated nul (flat_map move_fields rs)) as (body' & Hb & Hs); [intros Hnil; rewrite Hnil in Ht; by subst|done|]. congruence.
Qed.
End moves.

(** ** Commits *)

Definition commit_sized (c : MemoryCommitId) : Prop :=
  length (commit_as_bytes c) = match object_format c with FormatSha1 => 20%nat | FormatSha256 => 32%nat end.

Lemma decode_hex_pair_nibbles h l : decode_hex_pair [h; l] = decode_lower_hex_pair [h; l].
Proof.
  rewrite decode_pair_nibbles. unfold decode_hex_pair. simpl. change hex_digit_value with decode_lower_hex_nibble.
  destruct (decode_lower_hex_nibble h); [|done]. simpl. by destruct (decode_lower_hex_nibble l).
Qed.

Lemma decode_pairs_write index value array : decode_pairs index value array = ok_value (write_pairs index value array).
Proof.
  revert index array. induction value as [|x|h l value IH] using pair_ind; intros index array; [done..|].
  cbn [decode_pairs write_pairs]. rewrite decode_hex_pair_nibbles. destruct (decode_lower_hex_pair [h; l]) as [b|]; [|done]. apply IH.
Qed.

(** Exactly the complete lowercase hexadecimal text of a commit, with its line feed. *)
Lemma parse_commit_output_spec f output c :
  parse_commit_output f output = Some c ↔ object_format c = f ∧ commit_sized c ∧ output = commit_hex c ++ [x0a].
Proof.
  unfold parse_commit_output, commit_hex, commit_sized. change (flat_map lower_hex_byte ?b) with (encode_lower_hex b).
  assert (∀ n oid, n ≤ 32 → length oid = n → decode_pairs 0 (encode_lower_hex oid) (replicate 32 x00) = Some (oid ++ replicate (32 - n) x00))%nat as Hd.
  { intros n oid Hn Hl. rewrite decode_pairs_write, write_pairs_spec by (rewrite length_encode_lower_hex, length_replicate; lia).
    rewrite lower_hex_pairs_encode, take_0, drop_replicate, Nat.add_0_l, Hl. done. }
  assert (∀ n text decoded, n ≤ 32 → length text = n * 2 → decode_pairs 0 text (replicate 32 x00) = Some decoded →
            ∃ oid, length oid = n ∧ text = encode_lower_hex oid)%nat as Hinv.
  { intros n text decoded Hn Hl. rewrite decode_pairs_write, write_pairs_spec by (rewrite length_replicate; lia).
    destruct (lower_hex_pairs text) as [oid|] eqn:E; [|done]. intros _.
    apply lower_hex_pairs_Some in E as ->; [|rewrite Hl, Nat.even_mul; apply orb_true_r]. rewrite length_encode_lower_hex in Hl. exists oid. split; [lia|done]. }
  set (n := match f with FormatSha1 => 20%nat | FormatSha256 => 32%nat end).
  assert (n ≤ 32)%nat as Hn by (destruct f; simpl; lia).
  assert (match f with FormatSha1 => 40 | FormatSha256 => 64 end = n * 2)%nat as -> by by destruct f.
  split.
  - destruct (Nat.eqb_spec (length output) (n * 2 + 1)) as [Hl|]; [|done]. cbn [negb orb]. case_bool_decide as Hlast; [|done]. cbn [negb].
    apply last_Some in Hlast as [text ->]. rewrite length_app in Hl. simpl in Hl. rewrite take_app_length' by lia.
    destruct (decode_pairs 0 text _) as [decoded|] eqn:E; [|done]. destruct (Hinv n text decoded) as (oid & Ho & ->); [done|lia|done|].
    rewrite (Hd n) in E by done. injection E as <-. cbn [mbind option_bind].
    destruct f; subst n; cbn in *; intros [= <-]; cbn [object_format commit_as_bytes]; rewrite ?take_app_length', ?app_nil_r by done; by split_and!.
  - intros (Hf & Hs & ->). rewrite Hf in Hs. fold n in Hs. rewrite length_app, length_encode_lower_hex, Hs, Nat.eqb_refl, last_snoc.
    rewrite bool_decide_eq_true_2 by done. cbn [negb orb]. rewrite take_app_length' by (by rewrite length_encode_lower_hex, Hs).
    rewrite (Hd n) by done. cbn [mbind option_bind]. destruct c; cbn in Hf, Hs |- *; subst f; cbn in *; [by rewrite take_app_length'|by rewrite app_nil_r].
Qed.

(** ** Queries *)

Section answers.
Context (git : list bytes → GitPathDiscoveryLimits → result GitPathDiscoveryError ((bool * option Z) * bytes)).

Lemma steady_capture representable command limits : steady (capture git representable command limits).
Proof. unfold capture. destruct representable; destruct (git _ _) as [?|[]]; solve_steady. Qed.
#[local] Hint Resolve steady_capture : steady.

Lemma git_memory_open_steady representable limits : steady (git_memory_open git representable limits).
Proof. unfold git_memory_open. solve_steady. Qed.

Lemma head_commit_steady representable queries : steady (head_commit git representable queries).
Proof. unfold head_commit. solve_steady. Qed.

Lemma is_ancestor_steady representable queries ancestor target : steady (is_ancestor git representable queries ancestor target).
Proof. unfold is_ancestor. solve_steady. Qed.

Lemma exact_path_continuity_steady representable queries source_commit target_commit source_path target_path :
  steady (exact_path_continuity git representable queries source_commit target_commit source_path target_path).
Proof. unfold exact_path_continuity. solve_steady. Qed.

(** Both commits are named in the format of the repository. *)
Definition comparable (queries : GitMemoryQueries) (c c' : MemoryCommitId) : Prop :=
  queries_object_format queries = Some (object_format c) ∧ object_format c = object_format c'.

Lemma comparable_guard queries c c' :
  negb (bool_decide (queries_object_format queries = Some (object_format c))) || negb (bool_decide (object_format c = object_format c'))
  = bool_decide (¬ comparable queries c c').
Proof.
  apply eq_true_iff_eq. unfold comparable. rewrite orb_true_iff, !negb_true_iff, !bool_decide_eq_false, bool_decide_eq_true.
  destruct (decide (queries_object_format queries = Some (object_format c))); tauto.
Qed.

Lemma run_capture {A} command limits (f : option ((bool * option Z) * bytes) → A) a :
  run never (captured ← capture git true command limits; mret (f captured)) = Ok a →
  a = f None ∨ ∃ status output, git command (discovery_limits limits) = Ok (status, output) ∧ a = f (Some (status, output)).
Proof.
  unfold capture. destruct (git command (discovery_limits limits)) as [[status output]|[]]; cbn;
    intros [= <-]; eauto 6.
Qed.

Lemma run_capture_Ok {A} command limits (f : option ((bool * option Z) * bytes) → A) status output :
  git command (discovery_limits limits) = Ok (status, output) →
  run never (captured ← capture git true command limits; mret (f captured)) = Ok (f (Some (status, output))).
Proof. unfold capture. intros ->. done. Qed.
End answers.

(** The arguments of the ancestry query. *)
Definition ancestry_arguments (ancestor target : MemoryCommitId) : list bytes :=
  [b_of "merge-base"; b_of "--is-ancestor"; commit_hex ancestor; commit_hex target].

(** The arguments of the queries for the format and for the head. *)
Definition format_arguments : list bytes := [b_of "rev-parse"; b_of "--show-object-format"].
Definition head_arguments : list bytes := [b_of "rev-parse"; b_of "--verify"; b_of "--quiet"; b_of "HEAD^{commit}"].

Definition format_line (f : MemoryObjectFormat) : bytes :=
  match f with FormatSha1 => b_of "sha1" | FormatSha256 => b_of "sha256" end ++ [x0a].

(** The failures of the subprocess that stop a query; the others leave it inconclusive. *)
Definition query_stopped (e : GitPathDiscoveryError) : option GitMemoryQueryError :=
  match e with GitCancelled => Some QueryCancelled | GitDeadlineExceeded => Some QueryDeadlineExceeded | _ => None end.

Definition ancestry_code (outcome : MemoryAncestryOutcome) : option Z :=
  match outcome with OutcomeAncestor => Some 0 | OutcomeNotAncestor => Some 1 | OutcomeIndeterminate => None end.

Section exactness.
Context (git : list bytes → GitPathDiscoveryLimits → result GitPathDiscoveryError ((bool * option Z) * bytes)).

Lemma run_capture_Err {A} command limits (f : option ((bool * option Z) * bytes) → A) e :
  run never (captured ← capture git true command limits; mret (f captured)) = Err e ↔
  ∃ failure, git command (discovery_limits limits) = Err failure ∧ query_stopped failure = Some e.
Proof.
  unfold capture. destruct (git command (discovery_limits limits)) as [[status output]|failure]; cbn.
  - split; [done|]. by intros (? & ? & _).
  - split; [intros H; exists failure; split; [done|]|intros (? & [= <-] & H)]; destruct failure;
      first [discriminate H|injection H as <-; reflexivity].
Qed.

(** A head is the one commit printed, in the format of the repository, by a successful query. *)
Lemma head_commit_exact queries c :
  run never (head_commit git true queries) = Ok (Some c) ↔
  queries_object_format queries = Some (object_format c) ∧ commit_sized c
  ∧ ∃ code, git head_arguments (discovery_limits (queries_limits queries)) = Ok ((true, code), commit_hex c ++ [x0a]).
Proof.
  unfold head_commit. destruct (queries_object_format queries) as [f|]; [|split; [done|by intros [? _]]].
  rewrite run_never_check by (apply steady_bind; [apply steady_capture|intros; solve_steady]). split.
  - intros [?|([[] code] & output & Hg & Hp)]%run_capture; [done| |done]. cbn [negb] in Hp. symmetry in Hp.
    apply parse_commit_output_spec in Hp as (<- & Hs & ->). split_and!; [done|done|by exists code].
  - intros ([= ->] & Hs & code & Hg). unfold head_arguments in Hg. rewrite (run_capture_Ok git _ _ _ _ _ Hg). cbn [negb]. f_equal.
    by apply parse_commit_output_spec.
Qed.

Lemma head_commit_fails queries e :
  run never (head_commit git true queries) = Err e ↔
  is_Some (queries_object_format queries)
  ∧ ∃ failure, git head_arguments (discovery_limits (queries_limits queries)) = Err failure ∧ query_stopped failure = Some e.
Proof.
  unfold head_commit. destruct (queries_object_format queries) as [f|]; [|split; [done|by intros [[? ?] _]]].
  rewrite run_never_check by (apply steady_bind; [apply steady_capture|intros; solve_steady]).
  rewrite run_capture_Err. split; [intros H; split; [by eexists|done]|by intros [_ H]].
Qed.

Lemma format_of_output output f :
  (if bool_decide (output = b_of "sha1" ++ [x0a]) then Some FormatSha1
   else if bool_decide (output = b_of "sha256" ++ [x0a]) then Some FormatSha256 else None) = Some f ↔ output = format_line f.
Proof. unfold format_line. repeat case_bool_decide; subst; destruct f; by split. Qed.

Lemma git_queries_eq queries format limits :
  Ok (E := GitMemoryQueryError) {| queries_object_format := format; queries_limits := limits |} = Ok queries ↔
  queries_limits queries = limits ∧ ∀ f, queries_object_format queries = Some f ↔ format = Some f.
Proof.
  destruct queries as [format' limits']. cbn [queries_limits queries_object_format]. split; [by intros [= -> ->]|].
  intros [-> Hf]. do 2 f_equal. apply option_eq. intros f. by rewrite Hf.
Qed.

(** The format is the one printed by a successful query. *)
Lemma git_memory_open_exact limits queries :
  run never (git_memory_open git true limits) = Ok queries ↔
  queries_limits queries = limits
  ∧ (∀ failure, git format_arguments (discovery_limits limits) = Err failure → query_stopped failure = None)
  ∧ ∀ f, queries_object_format queries = Some f ↔
         ∃ code, git format_arguments (discovery_limits limits) = Ok ((true, code), format_line f).
Proof.
  unfold git_memory_open. rewrite run_never_check by (apply steady_bind; [apply steady_capture|intros; solve_steady]).
  fold format_arguments.
  destruct (git format_arguments (discovery_limits limits)) as [[[success code] output]|failure] eqn:Eg.
  - rewrite (run_capture_Ok git _ _ _ _ _ Eg), git_queries_eq. cbn [mbind option_bind].
    assert (∀ f, (if negb success then None else if bool_decide (output = b_of "sha1" ++ [x0a]) then Some FormatSha1
                  else if bool_decide (output = b_of "sha256" ++ [x0a]) then Some FormatSha256 else None) = Some f
                 ↔ ∃ code', Ok ((success, code), output) = Ok (E := GitPathDiscoveryError) ((true, code'), format_line f)) as Hf.
    { intros f. destruct success; cbn [negb]; [|split; [done|by intros (? & ?)]]. rewrite format_of_output.
      split; [intros ->; by exists code|by intros (? & [= _ ->])]. }
    setoid_rewrite Hf. split; [intros [? ?]; by split_and!|by intros (? & _ & ?)].
  - destruct (query_stopped failure) as [e|] eqn:Es.
    + assert (run never (captured ← capture git true format_arguments limits; mret captured) = Err e) as Herr
        by (apply run_capture_Err; by exists failure).
      split; [|intros (_ & H & _); specialize (H failure eq_refl); congruence].
      unfold capture in *. rewrite Eg in *. by destruct failure.
    + transitivity (Ok (E := GitMemoryQueryError) {| queries_object_format := None; queries_limits := limits |} = Ok queries).
      { unfold capture. rewrite Eg. by destruct failure. }
      rewrite git_queries_eq. split.
      * intros [? H]. split_and!; [done|by intros ? [= <-]|]. intros f. rewrite H. split; [done|by intros (? & ?)].
      * intros (? & _ & H). split; [done|]. intros f. rewrite H. split; [by intros (? & ?)|done].
Qed.

Lemma is_ancestor_exact queries ancestor target outcome :
  outcome ≠ OutcomeIndeterminate →
  run never (is_ancestor git true queries ancestor target) = Ok outcome ↔
  comparable queries ancestor target
  ∧ ∃ success, git (ancestry_arguments ancestor target) (discovery_limits (queries_limits queries)) = Ok ((success, ancestry_code outcome), []).
Proof.
  intros Ho. unfold is_ancestor. rewrite run_never_check by (rewrite comparable_guard; case_bool_decide; [solve_steady|]; apply steady_bind; [apply steady_capture|intros; solve_steady]).
  rewrite comparable_guard. case_bool_decide as Hc.
  { split; [by intros [= <-]|]. by intros [? _]. }
  split.
  - intros [->|([success code] & output & Hg & ->)]%run_capture; [done|]. split; [done|]. exists success. unfold ancestry_arguments. rewrite Hg.
    case_bool_decide; [|done]. subst output. cbn [negb] in *. repeat case_bool_decide; subst; done.
  - intros [_ [success Hg]]. rewrite (run_capture_Ok git _ _ _ _ _ Hg). cbn [negb]. by destruct outcome.
Qed.

Lemma exact_path_continuity_exact queries source_commit target_commit source_path target_path outcome :
  outcome ≠ ContinuityIndeterminate → path_bytes source_path ≠ path_bytes target_path →
  0 ≤ query_diff_records (queries_limits queries) ≤ u32_max →
  run never (exact_path_continuity git true queries source_commit target_commit source_path target_path) = Ok outcome ↔
  comparable queries source_commit target_commit
  ∧ ∃ code rs, git (diff_arguments source_commit target_commit) (discovery_limits (queries_limits queries))
                 = Ok ((true, code), terminated nul (flat_map move_fields rs))
               ∧ Forall move_ok rs ∧ Z.of_nat (length rs) ≤ query_diff_records (queries_limits queries)
               ∧ continuity_of (exact_moves source_path target_path rs) = outcome.
Proof.
  intros Ho Hp Hl. unfold exact_path_continuity. rewrite bool_decide_eq_false_2 by done.
  rewrite run_never_check by (rewrite comparable_guard; case_bool_decide; [solve_steady|]; apply steady_bind; [apply steady_capture|intros; solve_steady]).
  rewrite comparable_guard. case_bool_decide as Hc.
  { split; [by intros [= <-]|]. by intros [? _]. }
  split.
  - intros [->|([success code] & output & Hg & ->)]%run_capture; [done|]. split; [done|]. destruct success; [|done]. cbn [negb] in *.
    destruct (proj1 (parse_exact_move_spec source_path target_path _ (proj2 Hl) output _ Ho (proj1 Hl)) eq_refl) as (rs & -> & Hrs).
    by exists code, rs.
  - intros (_ & code & rs & Hg & Hrs). rewrite (run_capture_Ok git _ _ _ _ _ Hg). cbn [negb]. f_equal.
    apply parse_exact_move_spec; [lia|done|lia|]. by exists rs.
Qed.
End exactness.

(** C18: the queries answer conclusively just when Git said so: the format of the repository is
    the one that a successful query printed; a head is the one commit of that format whose
    complete identifier a successful query printed, there is none otherwise, and the query
    fails only when the subprocess is cancelled or late; a commit is an ancestor, or is not,
    when both are of the repository's format and the query ended with that status and printed
    nothing; and a path moved, or did not, when the listing reads completely, within its limit,
    as valid records with the one exact rename among them, or none.  The control can only stop
    a query. *)
Theorem git_memory_exact git queries :
  0 ≤ query_diff_records (queries_limits queries) ≤ u32_max →
  (∀ limits, run never (git_memory_open git true limits) = Ok queries ↔
     queries_limits queries = limits
     ∧ (∀ failure, git format_arguments (discovery_limits limits) = Err failure → query_stopped failure = None)
     ∧ ∀ f, queries_object_format queries = Some f ↔ ∃ code, git format_arguments (discovery_limits limits) = Ok ((true, code), format_line f))
  ∧ (∀ c, run never (head_commit git true queries) = Ok (Some c) ↔
     queries_object_format queries = Some (object_format c) ∧ commit_sized c
     ∧ ∃ code, git head_arguments (discovery_limits (queries_limits queries)) = Ok ((true, code), commit_hex c ++ [x0a]))
  ∧ (∀ e, run never (head_commit git true queries) = Err e ↔
     is_Some (queries_object_format queries)
     ∧ ∃ failure, git head_arguments (discovery_limits (queries_limits queries)) = Err failure ∧ query_stopped failure = Some e)
  ∧ (∀ ancestor target outcome, outcome ≠ OutcomeIndeterminate →
       run never (is_ancestor git true queries ancestor target) = Ok outcome ↔
       comparable queries ancestor target
       ∧ ∃ success, git (ancestry_arguments ancestor target) (discovery_limits (queries_limits queries))
                    = Ok ((success, ancestry_code outcome), []))
  ∧ (∀ source_commit target_commit source_path target_path outcome,
       outcome ≠ ContinuityIndeterminate → path_bytes source_path ≠ path_bytes target_path →
       run never (exact_path_continuity git true queries source_commit target_commit source_path target_path) = Ok outcome ↔
       comparable queries source_commit target_commit
       ∧ ∃ code rs, git (diff_arguments source_commit target_commit) (discovery_limits (queries_limits queries))
                      = Ok ((true, code), terminated nul (flat_map move_fields rs))
                    ∧ Forall move_ok rs ∧ Z.of_nat (length rs) ≤ query_diff_records (queries_limits queries)
                    ∧ continuity_of (exact_moves source_path target_path rs) = outcome)
  ∧ (∀ representable limits source_commit target_commit source_path target_path,
       steady (git_memory_open git representable limits) ∧ steady (head_commit git representable queries)
       ∧ steady (is_ancestor git representable queries source_commit target_commit)
       ∧ steady (exact_path_continuity git representable queries source_commit target_commit source_path target_path)).
Proof.
  intros Hl. split; [intros limits; apply git_memory_open_exact|]. split; [apply head_commit_exact|]. split; [apply head_commit_fails|].
  split; [apply is_ancestor_exact|]. split; [intros; by apply exact_path_continuity_exact|]. intros. split_and!;
    [apply git_memory_open_steady|apply head_commit_steady|apply is_ancestor_steady|apply exact_path_continuity_steady].
Qed.

(** A listing with one exact rename. *)
Definition memory_commit : MemoryCommitId := Sha1 (replicate 20 x11).
Definition memory_queries : GitMemoryQueries :=
  {| queries_object_format := Some FormatSha1; queries_limits := query_limits_default |}.
Definition rename_output : bytes := b_of "R100" ++ [x00] ++ b_of "a.rs" ++ [x00] ++ b_of "b.rs" ++ [x00].
Definition rename_git (arguments : list bytes) (limits : GitPathDiscoveryLimits) : result GitPathDiscoveryError ((bool * option Z) * bytes) :=
  Ok ((true, Some 0), rename_output).

(** The head printed; a failed query that prints it is not believed. *)
Definition head_git (arguments : list bytes) (limits : GitPathDiscoveryLimits) : result GitPathDiscoveryError ((bool * option Z) * bytes) :=
  Ok ((true, Some 0), commit_hex memory_commit ++ [x0a]).
Definition unborn_git (arguments : list bytes) (limits : GitPathDiscoveryLimits) : result GitPathDiscoveryError ((bool * option Z) * bytes) :=
  Ok ((false, Some 1), commit_hex memory_commit ++ [x0a]).

Example unborn_head : run never (head_commit unborn_git true memory_queries) = Ok None.
Proof. by vm_compute. Qed.

Lemma git_memory_exact_witness :
  run never (exact_path_continuity rename_git true memory_queries memory_commit memory_commit
               (git_path (b_of "a.rs")) (git_path (b_of "b.rs"))) = Ok ContinuityExactMove
  ∧ run never (head_commit head_git true memory_queries) = Ok (Some memory_commit).
Proof.
  split.
  2:{ destruct (git_memory_exact head_git memory_queries) as (_ & Hhead & _); [split; vm_compute; discriminate|].
      apply Hhead. split; [reflexivity|]. split; [reflexivity|]. exists (Some 0). reflexivity. }
  destruct (git_memory_exact rename_git memory_queries) as (_ & _ & _ & _ & Hmove & _).
  { split; vm_compute; discriminate. }
  apply Hmove; [done|vm_compute; discriminate|]. split; [by split|].
  exists (Some 0), [(b_of "R100", b_of "a.rs", b_of "b.rs")]. split_and!; [by vm_compute| |vm_compute; discriminate|by vm_compute].
  apply Forall_cons_2; [|apply Forall_nil_2]. split.
  - split; eexists; by vm_compute.
  - repeat (apply Forall_cons_2; [by apply (bool_decide_unpack _); vm_compute|]). apply Forall_nil_2.
Defined.

(** Two records of the same rename, or one beyond the limit, are inconclusive. *)
Example repeated_rename_indeterminate :
  (parse_exact_move (rename_output ++ rename_output) (git_path (b_of "a.rs")) (git_path (b_of "b.rs")) 2,
   parse_exact_move (rename_output ++ rename_output) (git_path (b_of "a.rs")) (git_path (b_of "c.rs")) 1)
  = (ContinuityIndeterminate, ContinuityIndeterminate).
Proof. by vm_compute. Qed.
