(* ===== verification/ProjectionStore.v ===== *)
(** * Prepared memory projections

    Models the engine of [crates/repowitness-local/src/sqlite/memory_projection.rs] and its
    parts [limits.rs], [encoding.rs] and [publication.rs]: the prepared results of evidence
    and records, their validation and the complete prepared projection.  The SQL statements
    that load and publish them are not modelled.  Digests are opaque bytes; a path is its bytes, and an occurrence of a
    candidate is that of [Correspondence]. *)

From Stdlib Require Import ZArith Lia ZifyBool.
From Stdlib Require Import Strings.Byte.
From stdpp Require Import base numbers sorting list.
From S2P Require Import Prelude Ordering RepositoryPath GraphIdentity SymbolFacts Correspondence MemoryRecord MemoryValidity MemoryProjection.

Open Scope Z_scope.

Inductive SqliteStoreError :=
| UnsupportedSqliteVersion | OpenFailed | ConfigurationFailed | ApplicationIdMismatch | SchemaVersionMismatch
| MigrationLedgerMismatch | MigrationFailed | Fts5Unavailable | MutationLeaseUnavailable | DatabaseIdentityChanged
| RecoveryGenerationLimitExceeded | DatabaseStartupCleanupFailed | DatabaseOperationFailed | StoreCountNotRepresentable
| WorkspaceUnavailable | InvalidWorkspaceMembership | WorkspaceSourceSlotLimitExceeded | ConnectedWorkspaceUnavailable
| InvalidWorkspaceView | InvalidGraphPublication | InvalidSyntaxSitePublication | InvalidRepositoryTopologyPublication
| InvalidScipOverlay | ScipEvidenceOutputLimitExceeded | InvalidScipRelationshipTraceLimits | InvalidMemoryImport
| InvalidMemoryCorrespondenceReview | MemoryCorrespondenceReviewLimitExceeded | InvalidTask | InvalidPersonalMemory
| StaleSourceEpoch | InvalidSourceEpoch | SourceEpochExhausted | MemoryProjectionUnavailable | PreparedIdentityMismatch
| IntegrityCheckFailed | GenerationUnavailable | InvalidRetentionPolicy | RetentionPinUnavailable | RetentionLimitExceeded
| RetentionPlanStale | StoreCancelled | StoreDeadlineExceeded | QueueFull | WorkerUnavailable | WorkerPanicked
| ReplyTimeout | MutationOutcomeUnknown | InvalidSearchLimits | InvalidRawSyntaxSiteReadLimits
| RawSyntaxSiteReadOutputLimitExceeded | InvalidProjectionRebuildLimits | InvalidMemoryProjectionLimits
| MemoryProjectionLimitExceeded | InvalidMemoryProjection | ProjectionRebuildRowLimitExceeded | InvalidSearchQuery
| SearchOutputLimitExceeded | MemoryRecallOutputLimitExceeded | MemoryRecallScanLimitExceeded | ArtifactReuseLimitExceeded
| InvalidBackupLimits | BackupDestinationUnavailable | BackupFailed | BackupStepLimitExceeded | BackupCleanupFailed.

(** ** Limits *)

Definition MAX_PROJECTION_CANONICAL_BYTES : Z := 256 * 1024 * 1024.
Definition DEFAULT_PROJECTION_CANONICAL_BYTES : Z := 64 * 1024 * 1024.

Record MemoryProjectionLoadLimits := {
  load_max_versions : Z;
  load_max_canonical_bytes : Z;
}.

Definition load_limits_try_new (max_versions max_canonical_bytes : Z) : result SqliteStoreError MemoryProjectionLoadLimits :=
  if (max_versions =? 0) || (MAX_MEMORY_PROJECTION_VERSIONS <? max_versions)
     || (max_canonical_bytes =? 0) || (MAX_PROJECTION_CANONICAL_BYTES <? max_canonical_bytes)
  then Err InvalidMemoryProjectionLimits
  else Ok {| load_max_versions := max_versions; load_max_canonical_bytes := max_canonical_bytes |}.

Record MemoryProjectionResultLimits := { result_max_candidates : Z }.

Definition MAX_CANDIDATES : Z := MAX_MEMORY_PROJECTION_VERSIONS * Z.of_nat MAX_RUST_CORRESPONDENCE_CANDIDATES * 16.
Definition DEFAULT_CANDIDATES : Z := 16384.

Definition result_limits_try_new (max_candidates : Z) : result SqliteStoreError MemoryProjectionResultLimits :=
  if (max_candidates =? 0) || (MAX_CANDIDATES <? max_candidates)
  then Err InvalidMemoryProjectionLimits
  else Ok {| result_max_candidates := max_candidates |}.

Definition result_limits_default : MemoryProjectionResultLimits := {| result_max_candidates := DEFAULT_CANDIDATES |}.

(** ** Sources *)

Record MemoryProjectionSource := {
  source_repository : bytes;
  source_workspace_id : Z;
  source_generation : Z;
  source_epoch : Z;
  source_snapshot : bytes;
  source_git_state : bytes;
  source_searched_count : Z;
  source_skipped_count : Z;
  source_unresolved_count : Z;
  source_truncated_count : Z;
}.

Definition has_complete_index_coverage (s : MemoryProjectionSource) : bool :=
  (source_unresolved_count s =? 0) && (source_truncated_count s =? 0).

Record LoadedMemoryVersion := {
  loaded_revision : bytes;
  loaded_record : MemoryRecord;
  loaded_locally_approved : bool;
  loaded_approval_git_source : option MemoryCommitId;
}.

Record LoadedMemoryJournal := {
  journal_source : MemoryProjectionSource;
  journal_versions : list LoadedMemoryVersion;
}.

Record LoadedRustCandidateSet := {
  set_subject_name_elided : option bytes;
  set_candidates : list RustCorrespondenceCandidate;
  set_candidate_count_before_limit : Z;
}.

(** ** Results of evidence *)

Inductive ProjectionEvidenceOutcome :=
| ProjExact | ProjSamePathRename | ProjGitExactMove | ProjReviewedLink | ProjChanged | ProjAmbiguous | ProjMissing | ProjIndeterminate.

Inductive ProjectionEvidenceAssurance := AssuredAutomatic | AssuredReviewed | AssuredNone.

Inductive ProjectionCandidateRelation :=
| RelationSame | RelationMoved | RelationRenamed | RelationMovedRenamed | RelationSplit | RelationMerged.

Inductive ProjectionHeadReason := HeadMissingParent | InvalidHeadGraph.

#[export] Instance proj_outcome_eq_dec : EqDecision ProjectionEvidenceOutcome.
Proof. solve_decision. Defined.
#[export] Instance proj_assurance_eq_dec : EqDecision ProjectionEvidenceAssurance.
Proof. solve_decision. Defined.
#[export] Instance head_reason_eq_dec : EqDecision ProjectionHeadReason.
Proof. solve_decision. Defined.

Record ProjectionOccurrence := {
  occ_path : bytes;
  occ_artifact : bytes;
  occ_fact_ordinal : Z;
  occ_declaration : bytes;
  occ_name_elided : bytes;
}.

#[export] Instance occurrence_eq_dec : EqDecision ProjectionOccurrence.
Proof. solve_decision. Defined.

Definition from_candidate (candidate : RustCorrespondenceCandidate) : ProjectionOccurrence :=
  {| occ_path := cand_path candidate; occ_artifact := cand_artifact candidate; occ_fact_ordinal := cand_fact_ordinal candidate;
     occ_declaration := fp_declaration (cand_fingerprint candidate); occ_name_elided := fp_name_elided (cand_fingerprint candidate) |}.

Record PreparedProjectionCandidate := {
  pc_occurrence : ProjectionOccurrence;
  pc_relation : ProjectionCandidateRelation;
}.

Record PreparedProjectionEvidence := {
  pe_outcome : ProjectionEvidenceOutcome;
  pe_assurance : ProjectionEvidenceAssurance;
  pe_target : option ProjectionOccurrence;
  pe_candidate_coverage_complete : bool;
  pe_candidate_count_before_limit : Z;
  pe_candidates : list PreparedProjectionCandidate;
}.

Definition resolved (outcome : ProjectionEvidenceOutcome) (assurance : ProjectionEvidenceAssurance) (target : ProjectionOccurrence)
    (candidate_count_before_limit : Z) : result SqliteStoreError PreparedProjectionEvidence :=
  if negb (bool_decide (outcome = ProjExact) || bool_decide (outcome = ProjSamePathRename)
           || bool_decide (outcome = ProjGitExactMove) || bool_decide (outcome = ProjChanged))
     || (bool_decide (outcome = ProjChanged) && negb (bool_decide (assurance = AssuredNone)))
     || (negb (bool_decide (outcome = ProjChanged)) && negb (bool_decide (assurance = AssuredAutomatic)))
  then Err InvalidMemoryProjection
  else Ok {| pe_outcome := outcome; pe_assurance := assurance; pe_target := Some target; pe_candidate_coverage_complete := true;
             pe_candidate_count_before_limit := candidate_count_before_limit; pe_candidates := [] |}.

Definition reviewed_link (target : ProjectionOccurrence) (candidate_count_before_limit : Z) (candidate_coverage_complete : bool)
    : PreparedProjectionEvidence :=
  {| pe_outcome := ProjReviewedLink; pe_assurance := AssuredReviewed; pe_target := Some target;
     pe_candidate_coverage_complete := candidate_coverage_complete;
     pe_candidate_count_before_limit := candidate_count_before_limit; pe_candidates := [] |}.

Definition occurrence_order (left right : ProjectionOccurrence) : comparison :=
  then_with (then_with (cmp (occ_path left) (occ_path right)) (cmp (occ_artifact left) (occ_artifact right)))
            (cmp (occ_fact_ordinal left) (occ_fact_ordinal right)).

Definition is_eq (c : comparison) : bool := match c with Eq => true | _ => false end.

Definition ambiguous (candidates : list PreparedProjectionCandidate) : result SqliteStoreError PreparedProjectionEvidence :=
  if bool_decide (candidates = []) || (MAX_RUST_CORRESPONDENCE_CANDIDATES <? length candidates)%nat then Err InvalidMemoryProjection
  else
    let candidates := sort_by (λ left right, occurrence_order (pc_occurrence left) (pc_occurrence right)) candidates in
    if any_adjacent (λ left right, is_eq (occurrence_order (pc_occurrence left) (pc_occurrence right))) candidates
    then Err InvalidMemoryProjection
    else
      candidate_count_before_limit ← ok_or (u64_of_len (length candidates)) StoreCountNotRepresentable;
      Ok {| pe_outcome := ProjAmbiguous; pe_assurance := AssuredNone; pe_target := None; pe_candidate_coverage_complete := true;
            pe_candidate_count_before_limit := candidate_count_before_limit; pe_candidates := candidates |}.

Definition missing (candidate_count_before_limit : Z) : PreparedProjectionEvidence :=
  {| pe_outcome := ProjMissing; pe_assurance := AssuredNone; pe_target := None; pe_candidate_coverage_complete := true;
     pe_candidate_count_before_limit := candidate_count_before_limit; pe_candidates := [] |}.

Definition indeterminate (candidate_count_before_limit : Z) : PreparedProjectionEvidence :=
  {| pe_outcome := ProjIndeterminate; pe_assurance := AssuredNone; pe_target := None; pe_candidate_coverage_complete := false;
     pe_candidate_count_before_limit := candidate_count_before_limit; pe_candidates := [] |}.

(** ** Records *)

Inductive PreparedProjectionRecordKind :=
| Evaluated (revision : bytes) (decision : MemoryProjectionDecision) (evidence : list PreparedProjectionEvidence)
| Conflicted (head_count : Z)
| IndeterminateHead (revision : option bytes) (evidence_count head_count missing_parent_count : Z) (reason : ProjectionHeadReason).

Record PreparedProjectionRecord := {
  pr_record_id : bytes;
  pr_kind : PreparedProjectionRecordKind;
}.

#[export] Instance projection_evidence_state_eq_dec : EqDecision MemoryProjectionEvidenceState.
Proof. solve_decision. Defined.

Definition validate_projection_evidence (r : PreparedProjectionEvidence) : result SqliteStoreError () :=
  let no_target := bool_decide (pe_target r = None) in
  let no_candidates := bool_decide (pe_candidates r = []) in
  let unassured := bool_decide (pe_assurance r = AssuredNone) in
  reject_if (MAX_MEMORY_INTEROPERABLE_INTEGER <? pe_candidate_count_before_limit r) InvalidMemoryProjection;;
  match pe_outcome r with
  | ProjExact | ProjSamePathRename | ProjGitExactMove =>
      reject_if (no_target || negb no_candidates || negb (pe_candidate_coverage_complete r)
                 || negb (bool_decide (pe_assurance r = AssuredAutomatic) || bool_decide (pe_assurance r = AssuredReviewed)))
        InvalidMemoryProjection
  | ProjReviewedLink =>
      reject_if (no_target || negb no_candidates || negb (bool_decide (pe_assurance r = AssuredReviewed))) InvalidMemoryProjection
  | ProjChanged =>
      reject_if (no_target || negb no_candidates || negb (pe_candidate_coverage_complete r) || negb unassured) InvalidMemoryProjection
  | ProjAmbiguous =>
      if negb no_target || negb unassured || negb (pe_candidate_coverage_complete r) || no_candidates
         || (MAX_RUST_CORRESPONDENCE_CANDIDATES <? length (pe_candidates r))%nat
      then Err InvalidMemoryProjection
      else
        count ← ok_or (u64_of_len (length (pe_candidates r))) StoreCountNotRepresentable;
        reject_if (negb (pe_candidate_count_before_limit r =? count)) InvalidMemoryProjection
  | ProjMissing =>
      reject_if (negb no_target || negb no_candidates || negb (pe_candidate_coverage_complete r) || negb unassured) InvalidMemoryProjection
  | ProjIndeterminate => reject_if (negb no_target || negb no_candidates || negb unassured) InvalidMemoryProjection
  end.

(** One turn of the loop that counts the outcomes: resolved, in review and indeterminate. *)
Definition count_outcome (counts : Z * Z * Z) (r : PreparedProjectionEvidence) : result SqliteStoreError (Z * Z * Z) :=
  let '(resolved, review, indeterminate) := counts in
  validate_projection_evidence r;;
  match pe_outcome r with
  | ProjExact | ProjSamePathRename | ProjGitExactMove | ProjReviewedLink =>
      resolved ← ok_or (checked u32_max (resolved + 1)) StoreCountNotRepresentable;
      Ok (resolved, review, indeterminate)
  | ProjAmbiguous =>
      review ← ok_or (checked u32_max (review + 1)) StoreCountNotRepresentable;
      Ok (resolved, review, indeterminate)
  | ProjIndeterminate =>
      indeterminate ← ok_or (checked u32_max (indeterminate + 1)) StoreCountNotRepresentable;
      Ok (resolved, review, indeterminate)
  | ProjChanged | ProjMissing => Ok (resolved, review, indeterminate)
  end.

Definition validate_projection_record (record : PreparedProjectionRecord) : result SqliteStoreError () :=
  match pr_kind record with
  | Evaluated _ decision evidence =>
      reject_if (MAX_MEMORY_EVIDENCE <? dec_evidence_count decision) InvalidMemoryProjection;;
      let should_have_results := negb (bool_decide (dec_evidence_state decision = AggregateNotEvaluated)) in
      reject_if ((should_have_results && negb (Z.of_nat (length evidence) =? dec_evidence_count decision))
                 || (negb should_have_results && negb (bool_decide (evidence = [])))) InvalidMemoryProjection;;
      '(resolved, review, indeterminate) ← try_fold count_outcome (0, 0, 0) evidence;
      reject_if (negb (resolved =? dec_resolved_count decision) || negb (review =? dec_review_count decision)
                 || negb (indeterminate =? dec_indeterminate_count decision)) InvalidMemoryProjection
  | Conflicted head_count => reject_if (negb (2 <=? head_count)) InvalidMemoryProjection
  | IndeterminateHead revision evidence_count head_count missing_parent_count reason =>
      reject_if ((MAX_MEMORY_EVIDENCE <? evidence_count)
                 || (bool_decide (revision = None) && negb (evidence_count =? 0))
                 || (bool_decide (reason = HeadMissingParent) && (missing_parent_count =? 0))
                 || (bool_decide (reason = InvalidHeadGraph) && (negb (head_count =? 0) || negb (missing_parent_count =? 0))))
        InvalidMemoryProjection
  end.

Definition record_effective_state (record : PreparedProjectionRecord) : MemoryEffectiveState :=
  match pr_kind record with
  | Evaluated _ decision _ => dec_effective_state decision
  | Conflicted _ => StateConflicted
  | IndeterminateHead _ _ _ _ _ => StateIndeterminate
  end.

(** ** The complete projection *)

Record ProjectionStateCounts := {
  count_current : Z;
  count_not_applicable : Z;
  count_stale : Z;
  count_needs_review : Z;
  count_indeterminate : Z;
  count_conflicted : Z;
  count_contradicted : Z;
  count_superseded : Z;
  count_quarantined : Z;
  count_tombstoned : Z;
}.

Definition counts_default : ProjectionStateCounts :=
  {| count_current := 0; count_not_applicable := 0; count_stale := 0; count_needs_review := 0; count_indeterminate := 0;
     count_conflicted := 0; count_contradicted := 0; count_superseded := 0; count_quarantined := 0; count_tombstoned := 0 |}.

(** The field of a state, and the counts with it set: the [&mut self.field] of the match. *)
Definition count_of (counts : ProjectionStateCounts) (state : MemoryEffectiveState) : Z :=
  match state with
  | StateCurrent => count_current counts | StateNotApplicable => count_not_applicable counts
  | StateStale => count_stale counts | StateNeedsReview => count_needs_review counts
  | StateIndeterminate => count_indeterminate counts | StateConflicted => count_conflicted counts
  | StateContradicted => count_contradicted counts | StateSuperseded => count_superseded counts
  | StateQuarantined => count_quarantined counts | StateTombstoned => count_tombstoned counts
  end.

#[export] Instance effective_state_eq_dec : EqDecision MemoryEffectiveState.
Proof. solve_decision. Defined.

Definition set_count (counts : ProjectionStateCounts) (state : MemoryEffectiveState) (value : Z) : ProjectionStateCounts :=
  let field s := if bool_decide (s = state) then value else count_of counts s in
  {| count_current := field StateCurrent; count_not_applicable := field StateNotApplicable; count_stale := field StateStale;
     count_needs_review := field StateNeedsReview; count_indeterminate := field StateIndeterminate;
     count_conflicted := field StateConflicted; count_contradicted := field StateContradicted;
     count_superseded := field StateSuperseded; count_quarantined := field StateQuarantined;
     count_tombstoned := field StateTombstoned |}.

Definition increment (counts : ProjectionStateCounts) (state : MemoryEffectiveState) : result SqliteStoreError ProjectionStateCounts :=
  value ← ok_or (checked u32_max (count_of counts state + 1)) StoreCountNotRepresentable;
  Ok (set_count counts state value).

Record PreparedMemoryProjection := {
  prepared_source : MemoryProjectionSource;
  prepared_target : MemoryRevalidationTarget;
  prepared_records : list PreparedProjectionRecord;
  prepared_skipped_count : Z;
  prepared_unresolved_count : Z;
  prepared_truncated_count : Z;
  prepared_state_counts : ProjectionStateCounts;
}.

Definition needs_attention (state : MemoryEffectiveState) : bool :=
  bool_decide (state = StateNeedsReview) || bool_decide (state = StateIndeterminate) || bool_decide (state = StateConflicted).

(** One evidence result of the loop over the candidates. *)
Definition add_candidates (limits : MemoryProjectionResultLimits) (candidates : Z) (r : PreparedProjectionEvidence)
    : result SqliteStoreError Z :=
  count ← ok_or (u64_of_len (length (pe_candidates r))) StoreCountNotRepresentable;
  candidates ← ok_or (u64_checked_add candidates count) StoreCountNotRepresentable;
  reject_if (result_max_candidates limits <? candidates) MemoryProjectionLimitExceeded;;
  Ok candidates.

(** One turn of the loop over the records, with the candidates, the unresolved records and the
    counts so far. *)
Definition admit_record (limits : MemoryProjectionResultLimits) (s : Z * Z * ProjectionStateCounts) (record : PreparedProjectionRecord)
    : result SqliteStoreError (Z * Z * ProjectionStateCounts) :=
  let '(candidates, unresolved_count, state_counts) := s in
  validate_projection_record record;;
  let effective := record_effective_state record in
  state_counts ← increment state_counts effective;
  unresolved_count ← (if needs_attention effective
                      then ok_or (checked u32_max (unresolved_count + 1)) StoreCountNotRepresentable
                      else Ok unresolved_count);
  candidates ← match pr_kind record with
               | Evaluated _ _ evidence => try_fold (add_candidates limits) candidates evidence
               | _ => Ok candidates
               end;
  Ok (candidates, unresolved_count, state_counts).

Definition prepared_projection_try_new (source : MemoryProjectionSource) (target : MemoryRevalidationTarget)
    (records : list PreparedProjectionRecord) (skipped_count truncated_count : Z) (limits : MemoryProjectionResultLimits)
    : result SqliteStoreError PreparedMemoryProjection :=
  match target with
  | TargetWorktree snapshot _ => reject_if (negb (bool_decide (snapshot = source_snapshot source))) InvalidMemoryProjection
  | TargetGit _ => Ok ()
  end;;
  reject_if (MAX_MEMORY_PROJECTION_VERSIONS <? Z.of_nat (length records)) MemoryProjectionLimitExceeded;;
  covered ← ok_or (u64_of_len (length records)) StoreCountNotRepresentable;
  covered ← ok_or (u64_checked_add covered skipped_count) StoreCountNotRepresentable;
  covered_records ← ok_or (u64_checked_add covered truncated_count) StoreCountNotRepresentable;
  reject_if (MAX_MEMORY_PROJECTION_VERSIONS <? covered_records) MemoryProjectionLimitExceeded;;
  let records := sort_by (λ left right, cmp (pr_record_id left) (pr_record_id right)) records in
  reject_if (any_adjacent (λ left right, bool_decide (pr_record_id left = pr_record_id right)) records) InvalidMemoryProjection;;
  '(_, unresolved_count, state_counts) ← try_fold (admit_record limits) (0, 0, counts_default) records;
  Ok {| prepared_source := source; prepared_target := target; prepared_records := records; prepared_skipped_count := skipped_count;
        prepared_unresolved_count := unresolved_count; prepared_truncated_count := truncated_count;
        prepared_state_counts := state_counts |}.

(** ** What the validation admits *)

Definition resolved_result (r : PreparedProjectionEvidence) : bool :=
  match pe_outcome r with ProjExact | ProjSamePathRename | ProjGitExactMove | ProjReviewedLink => true | _ => false end.
Definition review_result (r : PreparedProjectionEvidence) : bool := bool_decide (pe_outcome r = ProjAmbiguous).
Definition indeterminate_result (r : PreparedProjectionEvidence) : bool := bool_decide (pe_outcome r = ProjIndeterminate).

(** How many elements a test admits. *)
Definition tally {A} (test : A → bool) (xs : list A) : Z := Z.of_nat (length (filter (λ x, test x = true) xs)).

Lemma tally_cons {A} (test : A → bool) x xs : tally test (x :: xs) = (if test x then 1 else 0) + tally test xs.
Proof. unfold tally. rewrite filter_cons. destruct (test x); case_decide; try done; simpl; lia. Qed.

Lemma tally_bounds {A} (test : A → bool) xs : 0 ≤ tally test xs ≤ Z.of_nat (length xs).
Proof. unfold tally. pose proof (length_filter (λ x, test x = true) xs). lia. Qed.

Lemma tally_perm {A} (test : A → bool) xs ys : xs ≡ₚ ys → tally test xs = tally test ys.
Proof. unfold tally. by intros ->. Qed.

(** A result that holds together: a target exactly when it names one, candidates exactly when
    they await a review, and the assurance of its outcome. *)
Definition evidence_ok (r : PreparedProjectionEvidence) : Prop :=
  pe_candidate_count_before_limit r ≤ MAX_MEMORY_INTEROPERABLE_INTEGER
  ∧ match pe_outcome r with
    | ProjExact | ProjSamePathRename | ProjGitExactMove =>
        pe_target r ≠ None ∧ pe_candidates r = [] ∧ pe_candidate_coverage_complete r = true ∧ pe_assurance r ≠ AssuredNone
    | ProjReviewedLink => pe_target r ≠ None ∧ pe_candidates r = [] ∧ pe_assurance r = AssuredReviewed
    | ProjChanged =>
        pe_target r ≠ None ∧ pe_candidates r = [] ∧ pe_candidate_coverage_complete r = true ∧ pe_assurance r = AssuredNone
    | ProjAmbiguous =>
        pe_target r = None ∧ pe_assurance r = AssuredNone ∧ pe_candidate_coverage_complete r = true ∧ pe_candidates r ≠ []
        ∧ (length (pe_candidates r) ≤ MAX_RUST_CORRESPONDENCE_CANDIDATES)%nat
        ∧ pe_candidate_count_before_limit r = Z.of_nat (length (pe_candidates r))
    | ProjMissing => pe_target r = None ∧ pe_candidates r = [] ∧ pe_candidate_coverage_complete r = true ∧ pe_assurance r = AssuredNone
    | ProjIndeterminate => pe_target r = None ∧ pe_candidates r = [] ∧ pe_assurance r = AssuredNone
    end.

Lemma reject_Ok {E} b (e : E) : reject_if b e = Ok () ↔ b = false.
Proof. unfold reject_if. by destruct b. Qed.

Lemma candidate_count_fits n : (n ≤ MAX_RUST_CORRESPONDENCE_CANDIDATES)%nat → u64_of_len n = Some (Z.of_nat n).
Proof. unfold MAX_RUST_CORRESPONDENCE_CANDIDATES. intros H. apply checked_in. unfold u64_max. lia. Qed.

Lemma validate_evidence_spec r : validate_projection_evidence r = Ok () ↔ evidence_ok r.
Proof.
  unfold validate_projection_evidence, evidence_ok. cbv zeta.
  destruct (Z.ltb_spec MAX_MEMORY_INTEROPERABLE_INTEGER (pe_candidate_count_before_limit r)); rstep; [split; [done|lia]|].
  destruct (pe_outcome r); rewrite ?reject_Ok, ?orb_false_iff, ?negb_false_iff, ?orb_true_iff, ?bool_decide_eq_true, ?bool_decide_eq_false;
    try (destruct (pe_assurance r); intuition discriminate).
  destruct (_ || _) eqn:Eg.
  - split; [done|]. intros (_ & Ht & Ha & Hc & Hn & Hl & _). exfalso. rewrite !orb_true_iff, !negb_true_iff, !bool_decide_eq_false, bool_decide_eq_true in Eg.
    apply Nat.ltb_ge in Hl. rewrite Hc, Hl in Eg. naive_solver.
  - rewrite !orb_false_iff, !negb_false_iff, !bool_decide_eq_true, bool_decide_eq_false, Nat.ltb_ge in Eg.
    destruct Eg as ((((Ht & Ha) & Hc) & Hn) & Hl). rewrite candidate_count_fits by done. rstep. rewrite reject_Ok, negb_false_iff, Z.eqb_eq. naive_solver.
Qed.

Lemma count_outcome_spec a b c r s :
  0 ≤ a < u32_max → 0 ≤ b < u32_max → 0 ≤ c < u32_max →
  count_outcome (a, b, c) r = Ok s ↔
  evidence_ok r ∧ s = (a + (if resolved_result r then 1 else 0), b + (if review_result r then 1 else 0),
                       c + (if indeterminate_result r then 1 else 0)).
Proof.
  intros Ha Hb Hc. unfold count_outcome. rewrite <- validate_evidence_spec.
  destruct (validate_projection_evidence r) as [[]|e]; rstep; [|split; [done|by intros [? _]]].
  unfold resolved_result, review_result, indeterminate_result.
  destruct (pe_outcome r); rewrite ?checked_in by lia; rstep; simpl; rewrite ?Z.add_0_r; naive_solver.
Qed.

Lemma count_outcomes_spec evs a b c s :
  0 ≤ a → 0 ≤ b → 0 ≤ c → a + Z.of_nat (length evs) ≤ u32_max → b + Z.of_nat (length evs) ≤ u32_max → c + Z.of_nat (length evs) ≤ u32_max →
  try_fold count_outcome (a, b, c) evs = Ok s ↔
  Forall evidence_ok evs ∧ s = (a + tally resolved_result evs, b + tally review_result evs, c + tally indeterminate_result evs).
Proof.
  revert a b c. induction evs as [|r evs IH]; intros a b c Ha Hb Hc Hla Hlb Hlc.
  { simpl. unfold tally. simpl. rewrite !Z.add_0_r. split; [intros [= <-]; by split|by intros [_ ->]]. }
  cbn [try_fold length] in *. rewrite Nat2Z.inj_succ in *. rewrite Forall_cons, !tally_cons, !Z.add_assoc, bind_Ok. split.
  - intros (s' & [Hr ->]%count_outcome_spec & [Hall ->]%IH); [by split|repeat case_match; lia..].
  - intros ([Hr Hall] & ->). eexists. split; [apply count_outcome_spec; [lia..|by split]|]. apply IH; [repeat case_match; lia..|by split].
Qed.

Definition record_ok (record : PreparedProjectionRecord) : Prop :=
  match pr_kind record with
  | Evaluated _ decision evidence =>
      dec_evidence_count decision ≤ MAX_MEMORY_EVIDENCE
      ∧ (if bool_decide (dec_evidence_state decision = AggregateNotEvaluated) then evidence = []
         else Z.of_nat (length evidence) = dec_evidence_count decision)
      ∧ Forall evidence_ok evidence
      ∧ dec_resolved_count decision = tally resolved_result evidence
      ∧ dec_review_count decision = tally review_result evidence
      ∧ dec_indeterminate_count decision = tally indeterminate_result evidence
  | Conflicted head_count => 2 ≤ head_count
  | IndeterminateHead revision evidence_count head_count missing_parent_count reason =>
      evidence_count ≤ MAX_MEMORY_EVIDENCE ∧ (revision = None → evidence_count = 0)
      ∧ match reason with
        | HeadMissingParent => missing_parent_count ≠ 0
        | InvalidHeadGraph => head_count = 0 ∧ missing_parent_count = 0
        end
  end.

Lemma validate_record_spec record : validate_projection_record record = Ok () ↔ record_ok record.
Proof.
  unfold validate_projection_record, record_ok. destruct (pr_kind record) as [revision d evs|head_count|revision ec hc mc reason].
  - destruct (Z.ltb_spec MAX_MEMORY_EVIDENCE (dec_evidence_count d)) as [|Hcount]; rstep; [split; [done|lia]|]. cbv zeta.
    assert ((negb (bool_decide (dec_evidence_state d = AggregateNotEvaluated)) && negb (Z.of_nat (length evs) =? dec_evidence_count d)
             || negb (negb (bool_decide (dec_evidence_state d = AggregateNotEvaluated))) && negb (bool_decide (evs = []))) = false
            ↔ (if bool_decide (dec_evidence_state d = AggregateNotEvaluated) then evs = [] else Z.of_nat (length evs) = dec_evidence_count d)) as Hg.
    { destruct (bool_decide (dec_evidence_state d = _)); cbn [negb andb orb]; rewrite ?orb_false_r, negb_false_iff; [apply bool_decide_eq_true|lia]. }
    destruct (negb _ && _ || _) eqn:Eg; rstep.
    { split; [done|]. by intros (_ & H%Hg & _). }
    pose proof (proj1 Hg eq_refl) as Hshape. clear Eg Hg.
    assert (Z.of_nat (length evs) ≤ u32_max) as Hlen.
    { destruct (bool_decide (dec_evidence_state d = _)); [by subst|]. unfold MAX_MEMORY_EVIDENCE in Hcount. unfold u32_max. lia. }
    destruct (try_fold count_outcome (0, 0, 0) evs) as [s|e] eqn:Ef; rstep.
    + apply count_outcomes_spec in Ef as [Hok ->]; [|lia..]. rstep.
      rewrite reject_Ok, !orb_false_iff, !negb_false_iff, !Z.eqb_eq, !Z.add_0_l. naive_solver.
    + split; [done|]. intros (_ & _ & Hok & _). exfalso.
      assert (try_fold count_outcome (0, 0, 0) evs = Ok (0 + tally resolved_result evs, 0 + tally review_result evs, 0 + tally indeterminate_result evs)) as Hr
        by (apply count_outcomes_spec; [lia..|by split]). congruence.
  - rewrite reject_Ok, negb_false_iff. lia.
  - rewrite reject_Ok, !orb_false_iff, !andb_false_iff, orb_false_iff, !negb_false_iff, !bool_decide_eq_false.
    destruct reason, revision; naive_solver lia.
Qed.

(** *** The complete projection *)

Definition evidence_candidates (evs : list PreparedProjectionEvidence) : Z :=
  foldr (λ r n, Z.of_nat (length (pe_candidates r)) + n) 0 evs.

Definition record_candidates (record : PreparedProjectionRecord) : Z :=
  match pr_kind record with Evaluated _ _ evs => evidence_candidates evs | _ => 0 end.

Definition total_candidates (records : list PreparedProjectionRecord) : Z := foldr (λ r n, record_candidates r + n) 0 records.

Lemma evidence_candidates_nonneg evs : 0 ≤ evidence_candidates evs.
Proof. induction evs as [|r evs IH]; simpl; lia. Qed.
Lemma record_candidates_nonneg record : 0 ≤ record_candidates record.
Proof. unfold record_candidates. destruct (pr_kind record); [apply evidence_candidates_nonneg|lia..]. Qed.
Lemma total_candidates_nonneg records : 0 ≤ total_candidates records.
Proof. induction records as [|r records IH]; simpl; [lia|]. pose proof (record_candidates_nonneg r). lia. Qed.

Lemma total_candidates_perm rs rs' : rs ≡ₚ rs' → total_candidates rs = total_candidates rs'.
Proof. induction 1; simpl; lia. Qed.

(** The counts with those of some records added. *)
Definition add_counts (counts : ProjectionStateCounts) (records : list PreparedProjectionRecord) : ProjectionStateCounts :=
  foldl (λ counts r, set_count counts (record_effective_state r) (count_of counts (record_effective_state r) + 1)) counts records.

Definition in_state (state : MemoryEffectiveState) (record : PreparedProjectionRecord) : bool :=
  bool_decide (record_effective_state record = state).

Lemma count_of_set counts state value s :
  count_of (set_count counts state value) s = if bool_decide (s = state) then value else count_of counts s.
Proof. by destruct s. Qed.

Lemma count_of_add counts records s : count_of (add_counts counts records) s = count_of counts s + tally (in_state s) records.
Proof.
  revert counts. induction records as [|r records IH]; intros counts; [unfold tally; simpl; lia|]. simpl. rewrite IH, count_of_set, tally_cons.
  unfold in_state at 2. repeat case_bool_decide; subst; (done || lia).
Qed.

Lemma counts_ext counts counts' : (∀ s, count_of counts s = count_of counts' s) → counts = counts'.
Proof.
  intros H. destruct counts, counts'.
  pose proof (H StateCurrent). pose proof (H StateNotApplicable). pose proof (H StateStale). pose proof (H StateNeedsReview).
  pose proof (H StateIndeterminate). pose proof (H StateConflicted). pose proof (H StateContradicted). pose proof (H StateSuperseded).
  pose proof (H StateQuarantined). pose proof (H StateTombstoned). simpl in *. by subst.
Qed.

Lemma evidence_ok_candidates r : evidence_ok r → (length (pe_candidates r) ≤ MAX_RUST_CORRESPONDENCE_CANDIDATES)%nat.
Proof.
  intros [_ Hr]. destruct (pe_outcome r); destruct Hr as (? & Hc & Hr); try (rewrite Hc; apply Nat.le_0_l). by destruct Hr as (_ & _ & ? & _).
Qed.

Section completion.
Context (limits : MemoryProjectionResultLimits) (Hlimits : 0 ≤ result_max_candidates limits ≤ MAX_CANDIDATES).

Lemma add_candidate_spec c r :
  0 ≤ c ≤ result_max_candidates limits → evidence_ok r →
  add_candidates limits c r =
  if result_max_candidates limits <? c + Z.of_nat (length (pe_candidates r)) then Err MemoryProjectionLimitExceeded
  else Ok (c + Z.of_nat (length (pe_candidates r))).
Proof.
  intros Hc Hr. pose proof (evidence_ok_candidates r Hr) as Hl. unfold add_candidates. rewrite candidate_count_fits by done. rstep.
  unfold MAX_RUST_CORRESPONDENCE_CANDIDATES in Hl. assert (MAX_CANDIDATES = 1048576) as Hmax by done.
  unfold u64_checked_add. rewrite checked_in by (unfold u64_max; lia). rstep. by destruct (_ <? _).
Qed.

Lemma add_candidates_spec c evs :
  0 ≤ c ≤ result_max_candidates limits → Forall evidence_ok evs →
  try_fold (add_candidates limits) c evs =
  if result_max_candidates limits <? c + evidence_candidates evs then Err MemoryProjectionLimitExceeded else Ok (c + evidence_candidates evs).
Proof.
  revert c. induction evs as [|r evs IH]; intros c Hc Hok; cbn [try_fold].
  { unfold evidence_candidates. simpl. rewrite Z.add_0_r. by destruct (Z.ltb_spec (result_max_candidates limits) c); [lia|]. }
  apply Forall_cons in Hok as [Hr Hok]. pose proof (evidence_candidates_nonneg evs) as Hn. rewrite add_candidate_spec by done.
  change (evidence_candidates (r :: evs)) with (Z.of_nat (length (pe_candidates r)) + evidence_candidates evs). rewrite Z.add_assoc.
  destruct (Z.ltb_spec (result_max_candidates limits) (c + Z.of_nat (length (pe_candidates r)))); rstep.
  - by destruct (Z.ltb_spec (result_max_candidates limits) (c + Z.of_nat (length (pe_candidates r)) + evidence_candidates evs)); [|lia].
  - apply IH; [lia|done].
Qed.

Lemma record_evidence_ok record revision d evs : record_ok record → pr_kind record = Evaluated revision d evs → Forall evidence_ok evs.
Proof. unfold record_ok. intros H Hk. rewrite Hk in H. tauto. Qed.

Lemma admit_record_spec c u counts record :
  0 ≤ c ≤ result_max_candidates limits → 0 ≤ u < u32_max → (∀ s, 0 ≤ count_of counts s < u32_max) → record_ok record →
  admit_record limits (c, u, counts) record =
  if result_max_candidates limits <? c + record_candidates record then Err MemoryProjectionLimitExceeded
  else Ok (c + record_candidates record, u + (if needs_attention (record_effective_state record) then 1 else 0), add_counts counts [record]).
Proof.
  intros Hc Hu Hcounts Hok. unfold admit_record. rewrite (proj2 (validate_record_spec record)) by done. rstep. cbv zeta.
  unfold increment. pose proof (Hcounts (record_effective_state record)). rewrite !checked_in by lia. rstep.
  assert ((if needs_attention (record_effective_state record) then Ok (u + 1) else Ok u)
          = Ok (E := SqliteStoreError) (u + (if needs_attention (record_effective_state record) then 1 else 0))) as ->
    by (destruct (needs_attention _); [done|by rewrite Z.add_0_r]).
  rstep. unfold record_candidates. destruct (pr_kind record) as [revision d evs| |] eqn:Ek.
  - rewrite add_candidates_spec by (done || by eapply record_evidence_ok). by destruct (_ <? _).
  - rstep. rewrite Z.add_0_r. by destruct (Z.ltb_spec (result_max_candidates limits) c); [lia|].
  - rstep. rewrite Z.add_0_r. by destruct (Z.ltb_spec (result_max_candidates limits) c); [lia|].
Qed.

Lemma admit_records_spec c u counts records :
  0 ≤ c ≤ result_max_candidates limits → 0 ≤ u → u + Z.of_nat (length records) ≤ u32_max →
  (∀ s, 0 ≤ count_of counts s ∧ count_of counts s + Z.of_nat (length records) ≤ u32_max) → Forall record_ok records →
  try_fold (admit_record limits) (c, u, counts) records =
  if result_max_candidates limits <? c + total_candidates records then Err MemoryProjectionLimitExceeded
  else Ok (c + total_candidates records, u + tally (λ r, needs_attention (record_effective_state r)) records, add_counts counts records).
Proof.
  revert c u counts. induction records as [|r records IH]; intros c u counts Hc Hu Hul Hcounts Hok.
  { cbn [try_fold total_candidates foldr]. unfold tally. simpl. rewrite !Z.add_0_r. by destruct (Z.ltb_spec (result_max_candidates limits) c); [lia|]. }
  apply Forall_cons in Hok as [Hr Hok]. cbn [try_fold length] in *. rewrite Nat2Z.inj_succ in *.
  pose proof (total_candidates_nonneg records) as Hn. pose proof (record_candidates_nonneg r) as Hn'.
  rewrite admit_record_spec; [|done|lia| |done].
  2:{ intros s. specialize (Hcounts s). lia. }
  change (total_candidates (r :: records)) with (record_candidates r + total_candidates records). rewrite tally_cons, !Z.add_assoc.
  destruct (Z.ltb_spec (result_max_candidates limits) (c + record_candidates r)); rstep.
  { by destruct (Z.ltb_spec (result_max_candidates limits) (c + record_candidates r + total_candidates records)); [|lia]. }
  rewrite IH; [done|lia|destruct (needs_attention _); lia..| |done].
  intros s. specialize (Hcounts s). rewrite count_of_add, tally_cons. unfold tally at 1 2. cbn. destruct (in_state s r); lia.
Qed.

Lemma admit_records_ok c u counts records s :
  try_fold (admit_record limits) (c, u, counts) records = Ok s → Forall record_ok records.
Proof.
  revert c u counts. induction records as [|r records IH]; intros c u counts; [constructor|]. cbn [try_fold]. rewrite bind_Ok.
  intros ([[c' u'] counts'] & Hr & Hrs). constructor; [|by eapply IH]. unfold admit_record in Hr. apply bind_Ok in Hr as ([] & Hv & _).
  by apply validate_record_spec.
Qed.
End completion.

Definition target_matches (source : MemoryProjectionSource) (target : MemoryRevalidationTarget) : Prop :=
  match target with TargetWorktree snapshot _ => snapshot = source_snapshot source | TargetGit _ => True end.

(** What is prepared: everything but the bound on the candidates, and the result. *)
Definition projectable (source : MemoryProjectionSource) (target : MemoryRevalidationTarget) (records : list PreparedProjectionRecord)
    (skipped_count truncated_count : Z) : Prop :=
  target_matches source target
  ∧ Z.of_nat (length records) + skipped_count + truncated_count ≤ MAX_MEMORY_PROJECTION_VERSIONS
  ∧ NoDup (map pr_record_id records) ∧ Forall record_ok records.

Definition projection_of (source : MemoryProjectionSource) (target : MemoryRevalidationTarget) (records : list PreparedProjectionRecord)
    (skipped_count truncated_count : Z) : PreparedMemoryProjection :=
  {| prepared_source := source; prepared_target := target;
     prepared_records := sort_by (λ left right, cmp (pr_record_id left) (pr_record_id right)) records;
     prepared_skipped_count := skipped_count;
     prepared_unresolved_count := tally (λ r, needs_attention (record_effective_state r)) records;
     prepared_truncated_count := truncated_count;
     prepared_state_counts := add_counts counts_default records |}.

Lemma projection_sorted_perm (records : list PreparedProjectionRecord) :
  sort_by (λ left right, cmp (pr_record_id left) (pr_record_id right)) records ≡ₚ records.
Proof. apply sort_by_perm. Qed.

Lemma add_counts_perm counts rs rs' : rs ≡ₚ rs' → add_counts counts rs = add_counts counts rs'.
Proof. intros Hp. apply counts_ext. intros s. by rewrite !count_of_add, (tally_perm _ _ _ Hp). Qed.

Section preparation.
Context (source : MemoryProjectionSource) (target : MemoryRevalidationTarget) (records : list PreparedProjectionRecord).
Context (skipped_count truncated_count : Z) (limits : MemoryProjectionResultLimits).
Context (Hlimits : 0 ≤ result_max_candidates limits ≤ MAX_CANDIDATES) (Hskipped : 0 ≤ skipped_count) (Htruncated : 0 ≤ truncated_count).

Lemma distinct_ids :
  any_adjacent (λ left right, bool_decide (pr_record_id left = pr_record_id right))
    (sort_by (λ left right, cmp (pr_record_id left) (pr_record_id right)) records) = false ↔ NoDup (map pr_record_id records).
Proof. apply (any_adjacent_sort pr_record_id). intros x y. apply bool_decide_eq_true. Qed.

Lemma admit_sorted :
  Z.of_nat (length records) ≤ MAX_MEMORY_PROJECTION_VERSIONS → Forall record_ok records →
  try_fold (admit_record limits) (0, 0, counts_default) (sort_by (λ left right, cmp (pr_record_id left) (pr_record_id right)) records) =
  if result_max_candidates limits <? total_candidates records then Err MemoryProjectionLimitExceeded
  else Ok (total_candidates records, tally (λ r, needs_attention (record_effective_state r)) records, add_counts counts_default records).
Proof.
  intros Hl Hok. pose proof (projection_sorted_perm records) as Hp. assert (MAX_MEMORY_PROJECTION_VERSIONS = 4096) as Hmax by done.
  rewrite admit_records_spec, !Z.add_0_l, (total_candidates_perm _ _ Hp), (tally_perm _ _ _ Hp), (add_counts_perm _ _ _ Hp); try done.
  - lia.
  - rewrite length_sort_by. unfold u32_max. lia.
  - intros s. rewrite length_sort_by. destruct s; cbn; unfold u32_max; lia.
  - by rewrite Hp.
Qed.

(** Records that hold together are prepared, or have too many candidates. *)
Lemma try_new_projectable :
  projectable source target records skipped_count truncated_count →
  prepared_projection_try_new source target records skipped_count truncated_count limits =
  if result_max_candidates limits <? total_candidates records then Err MemoryProjectionLimitExceeded
  else Ok (projection_of source target records skipped_count truncated_count).
Proof.
  intros (Ht & Hn & Hnd & Hok). unfold prepared_projection_try_new.
  assert (match target with
          | TargetGit _ => Ok ()
          | TargetWorktree snapshot _ => reject_if (negb (bool_decide (snapshot = source_snapshot source))) InvalidMemoryProjection
          end = Ok ()) as -> by (destruct target; [done|]; cbn in Ht; by rewrite bool_decide_eq_true_2).
  rstep. destruct (Z.ltb_spec MAX_MEMORY_PROJECTION_VERSIONS (Z.of_nat (length records))); [lia|]. rstep.
  assert (MAX_MEMORY_PROJECTION_VERSIONS = 4096) as Hmax by done. unfold u64_of_len, u64_checked_add.
  rewrite checked_in by (unfold u64_max; lia). rstep. rewrite checked_in by (unfold u64_max; lia). rstep.
  rewrite checked_in by (unfold u64_max; lia). rstep.
  destruct (Z.ltb_spec MAX_MEMORY_PROJECTION_VERSIONS (Z.of_nat (length records) + skipped_count + truncated_count)); [lia|]. rstep. cbv zeta.
  rewrite (proj2 distinct_ids) by done. rstep. rewrite admit_sorted by (done || lia). by destruct (_ <? _).
Qed.

Lemma try_new_inv p :
  prepared_projection_try_new source target records skipped_count truncated_count limits = Ok p →
  projectable source target records skipped_count truncated_count.
Proof.
  unfold prepared_projection_try_new. cbv zeta. intros H. apply bind_Ok in H as ([] & Ht & H). apply bind_Ok in H as ([] & _ & H).
  apply bind_Ok in H as (n & Hn & H). apply bind_Ok in H as (m & Hm & H). apply bind_Ok in H as (k & Hk & H).
  apply bind_Ok in H as ([] & Hmax & H). apply bind_Ok in H as ([] & Hadj & H). apply bind_Ok in H as (s & Hs & H).
  apply reject_Ok in Hmax, Hadj. apply distinct_ids in Hadj. apply admit_records_ok in Hs. rewrite projection_sorted_perm in Hs.
  unfold u64_of_len, u64_checked_add in *. clear H. inv_ok. split_and!; [|lia|done|done].
  destruct target; [done|]. apply reject_Ok, negb_false_iff, bool_decide_eq_true in Ht. exact Ht.
Qed.
End preparation.

(** C16: a projection is prepared exactly for records of distinct identifiers that hold together,
    of the pinned snapshot, within the versions covered and the candidates allowed; with only
    the candidates beyond their limit the error says so.  It keeps the records in the order of
    their identifiers, counts the unresolved ones, and its state counts are those of the
    records. *)
Theorem prepared_projection_exact source target records skipped_count truncated_count limits p :
  0 ≤ result_max_candidates limits ≤ MAX_CANDIDATES → 0 ≤ skipped_count → 0 ≤ truncated_count →
  (prepared_projection_try_new source target records skipped_count truncated_count limits = Ok p ↔
   projectable source target records skipped_count truncated_count
   ∧ total_candidates records ≤ result_max_candidates limits
   ∧ p = projection_of source target records skipped_count truncated_count)
  ∧ (projectable source target records skipped_count truncated_count → result_max_candidates limits < total_candidates records →
     prepared_projection_try_new source target records skipped_count truncated_count limits = Err MemoryProjectionLimitExceeded)
  ∧ (prepared_projection_try_new source target records skipped_count truncated_count limits = Ok p →
     keys_increasing pr_record_id (prepared_records p)
     ∧ ∀ state, count_of (prepared_state_counts p) state = tally (in_state state) (prepared_records p)).
Proof.
  intros Hl Hs Ht.
  assert (prepared_projection_try_new source target records skipped_count truncated_count limits = Ok p ↔
   projectable source target records skipped_count truncated_count
   ∧ total_candidates records ≤ result_max_candidates limits
   ∧ p = projection_of source target records skipped_count truncated_count) as Hexact.
  { split.
    - intros H. pose proof (try_new_inv _ _ _ _ _ limits p H) as Hp. rewrite try_new_projectable in H by done.
      destruct (Z.ltb_spec (result_max_candidates limits) (total_candidates records)); [done|]. by injection H as <-.
    - intros (Hp & Hc & ->). rewrite try_new_projectable by done. by destruct (Z.ltb_spec (result_max_candidates limits) (total_candidates records)); [lia|]. }
  split; [exact Hexact|]. split.
  - intros Hp Hc. rewrite try_new_projectable by done. by destruct (Z.ltb_spec (result_max_candidates limits) (total_candidates records)); [|lia].
  - intros ((_ & _ & Hnd & _) & _ & ->)%Hexact. split; [by apply keys_increasing_NoDup_sort|]. intros state.
    cbn [projection_of prepared_state_counts prepared_records]. rewrite count_of_add, (tally_perm _ _ _ (projection_sorted_perm records)).
    by destruct state.
Qed.

Definition projection_record (revision : bytes) (evs : list PreparedProjectionEvidence) : PreparedProjectionRecord :=
  {| pr_record_id := b_of "record";
     pr_kind := Evaluated revision {| dec_effective_state := StateIndeterminate; dec_validity_state := ValidityValid;
                                      dec_evidence_state := AggregateIndeterminate; dec_reason := ReasonEvidenceIndeterminate;
                                      dec_evidence_count := Z.of_nat (length evs); dec_resolved_count := 0; dec_review_count := 0;
                                      dec_indeterminate_count := tally indeterminate_result evs |} evs |}.

Definition projection_source : MemoryProjectionSource :=
  {| source_repository := b_of "repository"; source_workspace_id := 1; source_generation := 1; source_epoch := 1;
     source_snapshot := b_of "snapshot"; source_git_state := b_of "state"; source_searched_count := 1; source_skipped_count := 0;
     source_unresolved_count := 0; source_truncated_count := 0 |}.

Lemma prepared_projection_exact_witness :
  ∃ p, prepared_projection_try_new projection_source (TargetWorktree (b_of "snapshot") None)
         [projection_record (b_of "revision") [indeterminate 0]] 2 0 result_limits_default = Ok p
       ∧ prepared_unresolved_count p = 1 ∧ count_of (prepared_state_counts p) StateIndeterminate = 1.
Proof.
  set (records := [projection_record (b_of "revision") [indeterminate 0]]).
  destruct (prepared_projection_exact projection_source (TargetWorktree (b_of "snapshot") None) records 2 0 result_limits_default
              (projection_of projection_source (TargetWorktree (b_of "snapshot") None) records 2 0)) as [Hexact _];
    [split; vm_compute; discriminate|lia|lia|].
  exists (projection_of projection_source (TargetWorktree (b_of "snapshot") None) records 2 0). split; [|by split; vm_compute].
  apply Hexact. split_and!; [|vm_compute; discriminate|done]. split_and!; [done|vm_compute; discriminate|by apply NoDup_singleton|].
  apply Forall_cons_2; [|apply Forall_nil_2]. apply validate_record_spec. by vm_compute.
Defined.
