(* ===== verification/MemoryReviews.v ===== *)
(** * Manual reviews of correspondence

    Models the aggregation of [crates/repowitness-local/src/sqlite/memory_review.rs]: the rows
    that the query returns for one evidence item are grouped by their target, and the groups
    decide which occurrence was approved and which were rejected.  The query itself is not
    modelled; its order is a hypothesis of the theorems. *)

From Stdlib Require Import ZArith Lia ZifyBool.
From Stdlib Require Import Strings.Byte.
From stdpp Require Import base numbers sorting list.
From S2P Require Import Prelude Ordering RepositoryPath GraphIdentity SymbolFacts Correspondence ProjectionStore.

Open Scope Z_scope.

(** ** Manual reviews *)

Inductive MemoryCorrespondenceReviewOperation := OperationApproved | OperationRejected | OperationManualLink.

Definition review_operation (operation : MemoryCorrespondenceReviewOperation) : bytes :=
  match operation with
  | OperationApproved => b_of "approved"
  | OperationRejected => b_of "rejected"
  | OperationManualLink => b_of "manual_link"
  end.

Definition parse_review_operation (operation : bytes) : result SqliteStoreError MemoryCorrespondenceReviewOperation :=
  if bool_decide (operation = b_of "approved") then Ok OperationApproved
  else if bool_decide (operation = b_of "rejected") then Ok OperationRejected
  else if bool_decide (operation = b_of "manual_link") then Ok OperationManualLink
  else Err IntegrityCheckFailed.

Definition REVIEW_PATH_LIMITS : RepositoryPathLimits := {| max_bytes := 32764; max_components := 16382 |}.
Definition MAX_CURRENT_REVIEW_EVENTS : Z := 256.

Inductive CorrespondenceReviewDecision :=
| ReviewNone
| Reviewed (target : ProjectionOccurrence)
| ReviewIndeterminate.

Record ReviewTargetIdentity := {
  review_path : bytes;
  review_artifact : bytes;
  review_fact_ordinal : Z;
}.

Record LoadedCorrespondenceReviews := {
  reviews_decision : CorrespondenceReviewDecision;
  reviews_rejected : list ReviewTargetIdentity;
}.

Definition rejects_candidate (reviews : LoadedCorrespondenceReviews) (candidate : RustCorrespondenceCandidate) : bool :=
  existsb (λ target, bool_decide (review_path target = cand_path candidate)
                     && bool_decide (review_artifact target = cand_artifact candidate)
                     && bool_decide (review_fact_ordinal target = cand_fact_ordinal candidate)) (reviews_rejected reviews).

Record ReviewTargetAggregate := {
  agg_occurrence : ProjectionOccurrence;
  agg_approved : bool;
  agg_rejected : bool;
}.

Record RawReview := {
  raw_operation : bytes;
  raw_path : bytes;
  raw_artifact : bytes;
  raw_fact_ordinal : Z;
  raw_declaration : bytes;
  raw_name_elided : bytes;
}.

(** [try_from_slice] of a digest type: exactly 32 bytes. *)
Definition digest_try_from_slice (bs : bytes) : option bytes := if (length bs =? 32)%nat then Some bs else None.

Definition decode_occurrence (row : RawReview) : result SqliteStoreError ProjectionOccurrence :=
  path ← map_err (λ _, IntegrityCheckFailed) (try_from_vec (raw_path row) REVIEW_PATH_LIMITS);
  artifact ← ok_or (digest_try_from_slice (raw_artifact row)) IntegrityCheckFailed;
  fact_ordinal ← ok_or (checked u64_max (raw_fact_ordinal row)) IntegrityCheckFailed;
  declaration ← ok_or (digest_try_from_slice (raw_declaration row)) IntegrityCheckFailed;
  name_elided ← ok_or (digest_try_from_slice (raw_name_elided row)) IntegrityCheckFailed;
  Ok {| occ_path := path_bytes path; occ_artifact := artifact; occ_fact_ordinal := fact_ordinal; occ_declaration := declaration;
        occ_name_elided := name_elided |}.

Definition same_occurrence (target : ReviewTargetAggregate) (occurrence : ProjectionOccurrence) : bool :=
  bool_decide (occ_path (agg_occurrence target) = occ_path occurrence)
  && bool_decide (occ_artifact (agg_occurrence target) = occ_artifact occurrence)
  && bool_decide (occ_fact_ordinal (agg_occurrence target) = occ_fact_ordinal occurrence).

Definition apply_operation (operation : MemoryCorrespondenceReviewOperation) (target : ReviewTargetAggregate) : ReviewTargetAggregate :=
  match operation with
  | OperationApproved | OperationManualLink =>
      {| agg_occurrence := agg_occurrence target; agg_approved := true; agg_rejected := agg_rejected target |}
  | OperationRejected =>
      {| agg_occurrence := agg_occurrence target; agg_approved := agg_approved target; agg_rejected := true |}
  end.

(** One row; the vector of targets is kept reversed, its last element first. *)
Definition aggregate_review (targets : list ReviewTargetAggregate) (row : RawReview) : ctl SqliteStoreError (list ReviewTargetAggregate) :=
  check;;
  occurrence ← lift (decode_occurrence row);
  operation ← lift (parse_review_operation (raw_operation row));
  let same_as_last := match targets with [] => false | target :: _ => same_occurrence target occurrence end in
  let targets := if same_as_last then targets
                 else {| agg_occurrence := occurrence; agg_approved := false; agg_rejected := false |} :: targets in
  match targets with
  | [] => throw IntegrityCheckFailed
  | target :: targets => mret (apply_operation operation target :: targets)
  end.

Definition approved_only (target : ReviewTargetAggregate) : bool := agg_approved target && negb (agg_rejected target).

Definition identity_of (occurrence : ProjectionOccurrence) : ReviewTargetIdentity :=
  {| review_path := occ_path occurrence; review_artifact := occ_artifact occurrence; review_fact_ordinal := occ_fact_ordinal occurrence |}.

Definition aggregate_reviews (rows : list RawReview) : ctl SqliteStoreError LoadedCorrespondenceReviews :=
  targets ← ctl_fold aggregate_review [] rows;
  let targets := reverse targets in
  let contradictory := existsb (λ target, agg_approved target && agg_rejected target) targets in
  let approved_count := length (filter (λ target, approved_only target = true) targets) in
  decision ← (if contradictory || (1 <? approved_count)%nat then mret ReviewIndeterminate
              else if (approved_count =? 1)%nat then
                match find approved_only targets with
                | Some target => mret (Reviewed (agg_occurrence target))
                | None => throw IntegrityCheckFailed
                end
              else mret ReviewNone);
  mret {| reviews_decision := decision;
          reviews_rejected := map (λ target, identity_of (agg_occurrence target))
                                  (filter (λ target, agg_rejected target && negb (agg_approved target) = true) targets) |}.

(** What follows the query of [load_reviews_inner], whose limit is one more than the rows
    admitted. *)
Definition admit_reviews (rows : list RawReview) : ctl SqliteStoreError LoadedCorrespondenceReviews :=
  if MAX_CURRENT_REVIEW_EVENTS <? Z.of_nat (length rows) then throw MemoryCorrespondenceReviewLimitExceeded
  else aggregate_reviews rows.

(** ** What the reviews decide *)

Definition review_key (identity : ReviewTargetIdentity) : bytes * (bytes * Z) :=
  (review_path identity, (review_artifact identity, review_fact_ordinal identity)).
Definition row_key (row : RawReview) : bytes * (bytes * Z) := (raw_path row, (raw_artifact row, raw_fact_ordinal row)).
Definition target_key (target : ReviewTargetAggregate) : bytes * (bytes * Z) := review_key (identity_of (agg_occurrence target)).

Definition approving (row : RawReview) : bool :=
  bool_decide (raw_operation row = b_of "approved") || bool_decide (raw_operation row = b_of "manual_link").
Definition rejecting (row : RawReview) : bool := bool_decide (raw_operation row = b_of "rejected").

(** Some row of a target approves it, or rejects it. *)
Definition approved_in (rows : list RawReview) (key : bytes * (bytes * Z)) : Prop := ∃ row, row ∈ rows ∧ row_key row = key ∧ approving row = true.
Definition rejected_in (rows : list RawReview) (key : bytes * (bytes * Z)) : Prop := ∃ row, row ∈ rows ∧ row_key row = key ∧ rejecting row = true.

(** The order of the query. *)
Definition rows_ordered (rows : list RawReview) : Prop := StronglySorted (cle (λ r r', cmp (row_key r) (row_key r'))) rows.

Definition row_ok (row : RawReview) : Prop :=
  (∃ occurrence, decode_occurrence row = Ok occurrence) ∧ (approving row = true ∨ rejecting row = true).

Lemma decode_occurrence_key row occurrence : decode_occurrence row = Ok occurrence → review_key (identity_of occurrence) = row_key row.
Proof.
  unfold decode_occurrence, digest_try_from_slice. intros H. apply bind_Ok in H as (path & Hp & H).
  apply map_err_Ok in Hp. rewrite try_from_vec_bytes in Hp. apply try_from_bytes_wf in Hp as (_ & Hp & _). unfold row_key. rewrite <- Hp.
  apply bind_Ok in H as (artifact & Ha & H). apply bind_Ok in H as (ordinal & Ho & H). apply bind_Ok in H as (? & _ & H). apply bind_Ok in H as (? & _ & H).
  destruct (length (raw_artifact row) =? 32)%nat; simpl in Ha; [|done]. inv_ok. done.
Qed.

(** The targets collected from some rows: one for every key, with what its rows say of it. *)
Record collected (rows : list RawReview) (targets : list ReviewTargetAggregate) : Prop := {
  collected_key : ∀ t, t ∈ targets → ∃ row, row ∈ rows ∧ row_key row = target_key t ∧ decode_occurrence row = Ok (agg_occurrence t);
  collected_row : ∀ row, row ∈ rows → ∃ t, t ∈ targets ∧ target_key t = row_key row;
  collected_once : NoDup (map target_key targets);
  collected_approved : ∀ t, t ∈ targets → agg_approved t = true ↔ approved_in rows (target_key t);
  collected_rejected : ∀ t, t ∈ targets → agg_rejected t = true ↔ rejected_in rows (target_key t);
  collected_last : head (map target_key targets) = row_key <$> last rows;
}.

Lemma collected_nil : collected [] [].
Proof. split; try done; [by intros t ?%elem_of_nil|by intros t ?%elem_of_nil|apply NoDup_nil_2|by intros t ?%elem_of_nil|by intros t ?%elem_of_nil]. Qed.

Lemma approved_in_snoc rows row k : approved_in (rows ++ [row]) k ↔ approved_in rows k ∨ row_key row = k ∧ approving row = true.
Proof. unfold approved_in. setoid_rewrite elem_of_app. setoid_rewrite list_elem_of_singleton. naive_solver. Qed.

Lemma rejected_in_snoc rows row k : rejected_in (rows ++ [row]) k ↔ rejected_in rows k ∨ row_key row = k ∧ rejecting row = true.
Proof. unfold rejected_in. setoid_rewrite elem_of_app. setoid_rewrite list_elem_of_singleton. naive_solver. Qed.

Lemma parse_operation_flags row operation target :
  parse_review_operation (raw_operation row) = Ok operation →
  agg_occurrence (apply_operation operation target) = agg_occurrence target
  ∧ agg_approved (apply_operation operation target) = approving row || agg_approved target
  ∧ agg_rejected (apply_operation operation target) = rejecting row || agg_rejected target.
Proof.
  unfold parse_review_operation, approving, rejecting.
  assert (∀ s, raw_operation row = s → s = b_of "approved" ∨ s = b_of "rejected" ∨ s = b_of "manual_link" →
            (if bool_decide (s = b_of "approved") then Ok OperationApproved
             else if bool_decide (s = b_of "rejected") then Ok OperationRejected
             else if bool_decide (s = b_of "manual_link") then Ok OperationManualLink else Err IntegrityCheckFailed) = Ok operation →
            agg_occurrence (apply_operation operation target) = agg_occurrence target
            ∧ agg_approved (apply_operation operation target) =
                (bool_decide (s = b_of "approved") || bool_decide (s = b_of "manual_link")) || agg_approved target
            ∧ agg_rejected (apply_operation operation target) = bool_decide (s = b_of "rejected") || agg_rejected target) as Hall.
  { intros s _ [->|[->| ->]]; vm_compute (bool_decide _); intros [= <-]; done. }
  intros H. apply Hall; [done| |done]. repeat case_bool_decide; (tauto || done).
Qed.

Lemma parse_operation_ok row : (∃ operation, parse_review_operation (raw_operation row) = Ok operation) ↔ approving row = true ∨ rejecting row = true.
Proof.
  unfold parse_review_operation, approving, rejecting. rewrite orb_true_iff, !bool_decide_eq_true.
  repeat case_bool_decide; naive_solver.
Qed.

(** In the order of the query the rows of a key are together. *)
Lemma ordered_last rows row k :
  rows_ordered (rows ++ [row]) → (∃ row', row' ∈ rows ∧ row_key row' = k) → row_key row = k → row_key <$> last rows = Some k.
Proof.
  intros Hs (row' & Hin & Hk) Hrow. destruct (last rows) as [l|] eqn:El; [|apply last_None in El as ->; by apply elem_of_nil in Hin].
  apply last_Some in El as [rs ->]. simpl. f_equal. unfold rows_ordered in Hs. rewrite <- app_assoc in Hs.
  apply elem_of_app in Hin as [Hin| ->%list_elem_of_singleton]; [|done].
  assert (cle (λ r r', cmp (row_key r) (row_key r')) row' l) as H1 by (eapply StronglySorted_app_1_elem_of; [exact Hs|done|by left]).
  apply StronglySorted_app_1_r in Hs. apply StronglySorted_inv in Hs as [_ Hl%Forall_inv]. unfold cle in H1, Hl. rewrite Hrow in Hl. rewrite Hk in H1.
  rewrite (cmp_antisym k (row_key l)) in Hl. destruct (cmp k (row_key l)) eqn:E; [by apply cmp_eq in E|done|done].
Qed.

Lemma same_occurrence_key t row occurrence :
  decode_occurrence row = Ok occurrence → same_occurrence t occurrence = true ↔ target_key t = row_key row.
Proof.
  intros <-%decode_occurrence_key. unfold same_occurrence, target_key, review_key, identity_of. cbn.
  rewrite !andb_true_iff, !bool_decide_eq_true. split; [by intros [[-> ->] ->]|by intros [= -> -> ->]].
Qed.

(** The target of the last row, with the operation of that row added. *)
Lemma collected_add rows row h ts operation :
  parse_review_operation (raw_operation row) = Ok operation → target_key h = row_key row →
  (∃ row', row' ∈ rows ++ [row] ∧ row_key row' = row_key row ∧ decode_occurrence row' = Ok (agg_occurrence h)) →
  NoDup (map target_key (h :: ts)) → (∀ r, r ∈ rows → ∃ t, t ∈ h :: ts ∧ target_key t = row_key r) →
  (∀ t, t ∈ ts → ∃ r, r ∈ rows ∧ row_key r = target_key t ∧ decode_occurrence r = Ok (agg_occurrence t)) →
  (∀ t, t ∈ h :: ts → agg_approved t = true ↔ approved_in rows (target_key t)) →
  (∀ t, t ∈ h :: ts → agg_rejected t = true ↔ rejected_in rows (target_key t)) →
  collected (rows ++ [row]) (apply_operation operation h :: ts).
Proof.
  intros Hop Hk Hh Hnd Hrows Hts Ha Hr. destruct (parse_operation_flags row operation h Hop) as (Eo & Ea & Er).
  assert (target_key (apply_operation operation h) = target_key h) as Ek by (unfold target_key; by rewrite Eo).
  assert (∀ t, t ∈ ts → target_key t ≠ row_key row) as Hne.
  { intros t Ht Heq. cbn [map] in Hnd. apply NoDup_cons in Hnd as [Hn _]. apply Hn. rewrite Hk, <- Heq. by apply list_elem_of_In, in_map, list_elem_of_In. }
  split.
  - intros t [->|Ht]%elem_of_cons; [rewrite Eo, Ek, Hk; naive_solver|]. destruct (Hts t Ht) as (r & ? & ?). exists r. rewrite elem_of_app. tauto.
  - intros r [Hin| ->%list_elem_of_singleton]%elem_of_app.
    + destruct (Hrows r Hin) as (t & [->|Ht]%elem_of_cons & Hkey).
      * exists (apply_operation operation h). split; [by left|congruence].
      * exists t. split; [by right|done].
    + exists (apply_operation operation h). split; [by left|]. congruence.
  - cbn [map]. by rewrite Ek.
  - intros t [->|Ht]%elem_of_cons; rewrite approved_in_snoc.
    + rewrite Ea, Ek, orb_true_iff, (Ha h) by (by left). rewrite <- Hk. tauto.
    + rewrite (Ha t) by (by right). split; [tauto|]. intros [|[Heq _]]; [done|]. by destruct (Hne t Ht).
  - intros t [->|Ht]%elem_of_cons; rewrite rejected_in_snoc.
    + rewrite Er, Ek, orb_true_iff, (Hr h) by (by left). rewrite <- Hk. tauto.
    + rewrite (Hr t) by (by right). split; [tauto|]. intros [|[Heq _]]; [done|]. by destruct (Hne t Ht).
  - rewrite last_snoc. cbn. congruence.
Qed.

Lemma aggregate_step rows row targets :
  rows_ordered (rows ++ [row]) → collected rows targets → row_ok row →
  ∃ targets', evals (aggregate_review targets row) (Ok targets') ∧ collected (rows ++ [row]) targets'.
Proof.
  intros Hs Hc [[occurrence Ho] [operation Hop]%parse_operation_ok]. unfold aggregate_review.
  set (fresh := {| agg_occurrence := occurrence; agg_approved := false; agg_rejected := false |}).
  assert (target_key fresh = row_key row) as Hfresh by (by apply decode_occurrence_key).
  assert (row_key <$> last rows ≠ Some (row_key row) →
          collected (rows ++ [row]) (apply_operation operation fresh :: targets)) as Hnew.
  { intros Hlast. assert (∀ r, r ∈ rows → row_key r ≠ row_key row) as Hne.
    { intros r Hr Heq. destruct Hlast. eapply ordered_last; [exact Hs|by exists r|done]. }
    eapply collected_add; [done|done|exists row; rewrite elem_of_app, list_elem_of_singleton; auto| | |apply Hc| |].
    - cbn [map]. apply NoDup_cons. split; [|apply Hc]. rewrite Hfresh. intros (t & Heq & Ht)%list_elem_of_In%in_map_iff.
      apply list_elem_of_In in Ht. destruct (collected_key _ _ Hc t Ht) as (r & Hr & Hkr & _). apply (Hne r Hr). congruence.
    - intros r Hr. destruct (collected_row _ _ Hc r Hr) as (t & Ht & ?). exists t. split; [by right|done].
    - intros t [->|Ht]%elem_of_cons; [|by apply Hc]. rewrite Hfresh. split; [done|]. intros (r & Hr & Hkr & _). by destruct (Hne r Hr).
    - intros t [->|Ht]%elem_of_cons; [|by apply Hc]. rewrite Hfresh. split; [done|]. intros (r & Hr & Hkr & _). by destruct (Hne r Hr). }
  pose proof (collected_last _ _ Hc) as Hl. destruct targets as [|h ts].
  - exists [apply_operation operation fresh]. split; [intros n; by rewrite Ho, Hop|]. apply Hnew. cbn in Hl. by rewrite <- Hl.
  - destruct (same_occurrence h occurrence) eqn:Es.
    + exists (apply_operation operation h :: ts). split; [intros n; by rewrite Ho, Hop; unfold lift, mbind, ctl_bind, check; cbn; rewrite Es|].
      apply (same_occurrence_key h row) in Es; [|done].
      eapply collected_add; [done|done| |apply Hc|apply Hc| |apply Hc|apply Hc].
      * destruct (collected_key _ _ Hc h) as (r & ? & ? & ?); [by left|]. exists r. rewrite elem_of_app. split_and!; [by left|congruence|done].
      * intros t Ht. apply Hc. by right.
    + exists (apply_operation operation fresh :: h :: ts). split; [intros n; by rewrite Ho, Hop; unfold lift, mbind, ctl_bind, check; cbn; rewrite Es|].
      apply Hnew. cbn in Hl. rewrite <- Hl. intros Heq%(inj Some). apply not_true_iff_false in Es. apply Es. by apply (same_occurrence_key h row).
Qed.

Lemma aggregate_fold rows rest targets :
  rows_ordered (rows ++ rest) → collected rows targets → Forall row_ok rest →
  ∃ targets', evals (ctl_fold aggregate_review targets rest) (Ok targets') ∧ collected (rows ++ rest) targets'.
Proof.
  revert rows targets. induction rest as [|row rest IH]; intros rows targets Hs Hc Hok.
  { exists targets. rewrite app_nil_r. by split. }
  apply Forall_cons in Hok as [Hr Hok]. change (row :: rest) with ([row] ++ rest) in *. rewrite app_assoc in *.
  destruct (aggregate_step rows row targets) as (targets1 & He1 & Hc1); [by eapply StronglySorted_app_1_l|done|done|].
  destruct (IH (rows ++ [row]) targets1) as (targets2 & He2 & Hc2); [done..|].
  exists targets2. split; [|done]. cbn [app ctl_fold]. by eapply evals_bind.
Qed.

(** What the collected targets decide. *)
Definition decision_of (targets : list ReviewTargetAggregate) : result SqliteStoreError CorrespondenceReviewDecision :=
  let contradictory := existsb (λ target, agg_approved target && agg_rejected target) targets in
  let approved_count := length (filter (λ target, approved_only target = true) targets) in
  if contradictory || (1 <? approved_count)%nat then Ok ReviewIndeterminate
  else if (approved_count =? 1)%nat then
    match find approved_only targets with
    | Some target => Ok (Reviewed (agg_occurrence target))
    | None => Err IntegrityCheckFailed
    end
  else Ok ReviewNone.

Definition rejected_of (targets : list ReviewTargetAggregate) : list ReviewTargetIdentity :=
  map (λ target, identity_of (agg_occurrence target)) (filter (λ target, agg_rejected target && negb (agg_approved target) = true) targets).

Lemma aggregate_reviews_evals rows targets :
  evals (ctl_fold aggregate_review [] rows) (Ok targets) →
  evals (aggregate_reviews rows) (decision ← decision_of (reverse targets); Ok {| reviews_decision := decision; reviews_rejected := rejected_of (reverse targets) |}).
Proof.
  intros Hf. unfold aggregate_reviews. eapply evals_bind; [exact Hf|]. cbv zeta. unfold decision_of. cbv zeta.
  apply evals_mbind; [|intros decision; apply evals_ret].
  destruct (_ || _); [apply evals_ret|]. destruct (_ =? 1)%nat; [|apply evals_ret]. destruct (find _ _); [apply evals_ret|apply evals_throw].
Qed.

(** The fields of what was collected do not depend on the order of the targets, the last apart. *)
Section decision.
Context (rows : list RawReview) (targets : list ReviewTargetAggregate).
Context (Hkey : ∀ t, t ∈ targets → ∃ row, row ∈ rows ∧ row_key row = target_key t ∧ decode_occurrence row = Ok (agg_occurrence t)).
Context (Hrow : ∀ row, row ∈ rows → ∃ t, t ∈ targets ∧ target_key t = row_key row).
Context (Honce : NoDup (map target_key targets)).
Context (Hap : ∀ t, t ∈ targets → agg_approved t = true ↔ approved_in rows (target_key t)).
Context (Hre : ∀ t, t ∈ targets → agg_rejected t = true ↔ rejected_in rows (target_key t)).

Lemma approved_target k : approved_in rows k ↔ ∃ t, t ∈ targets ∧ target_key t = k ∧ agg_approved t = true.
Proof.
  split.
  - intros (row & Hin & Hk & Ha). destruct (Hrow row Hin) as (t & Ht & Hkt). exists t. split_and!; [done|congruence|].
    apply Hap; [done|]. exists row. split_and!; [done|congruence|done].
  - intros (t & Ht & <- & Ha). by apply Hap.
Qed.

Lemma rejected_target k : rejected_in rows k ↔ ∃ t, t ∈ targets ∧ target_key t = k ∧ agg_rejected t = true.
Proof.
  split.
  - intros (row & Hin & Hk & Ha). destruct (Hrow row Hin) as (t & Ht & Hkt). exists t. split_and!; [done|congruence|].
    apply Hre; [done|]. exists row. split_and!; [done|congruence|done].
  - intros (t & Ht & <- & Ha). by apply Hre.
Qed.

Lemma target_unique t t' : t ∈ targets → t' ∈ targets → target_key t = target_key t' → t = t'.
Proof.
  clear Hkey Hrow Hap Hre. intros Ht Ht' Heq. induction targets as [|x ts IH]; [by apply elem_of_nil in Ht|]. cbn [map] in Honce.
  apply NoDup_cons in Honce as [Hn Hnd].
  assert (∀ y, y ∈ ts → target_key y ≠ target_key x) as Hx by (intros y Hy Hk; apply Hn; rewrite <- Hk; by apply list_elem_of_In, in_map, list_elem_of_In).
  apply elem_of_cons in Ht as [->|Ht], Ht' as [->|Ht']; [done|by destruct (Hx t')|by destruct (Hx t)|by apply IH].
Qed.

(** Both operations on one target, or approvals of two. *)
Definition conflicting : Prop := ∃ k k', approved_in rows k ∧ (rejected_in rows k ∨ approved_in rows k' ∧ k ≠ k').

Lemma approved_only_elem t : t ∈ filter (λ target, approved_only target = true) targets ↔
  t ∈ targets ∧ agg_approved t = true ∧ agg_rejected t = false.
Proof. rewrite list_elem_of_filter. unfold approved_only. rewrite andb_true_iff, negb_true_iff. tauto. Qed.

Lemma contradictory_spec :
  existsb (λ target, agg_approved target && agg_rejected target) targets = true ↔ ∃ k, approved_in rows k ∧ rejected_in rows k.
Proof.
  rewrite existsb_exists. setoid_rewrite <- list_elem_of_In. setoid_rewrite andb_true_iff. split.
  - intros (t & Ht & Ha & Hr). exists (target_key t). split; [by apply Hap|by apply Hre].
  - intros (k & (t & Ht & Hk & Ha)%approved_target & (t' & Ht' & Hk' & Hr)%rejected_target). exists t. split_and!; [done..|].
    by rewrite (target_unique t t') by (done || congruence).
Qed.

Lemma decision_spec :
  ∃ decision, decision_of targets = Ok decision
  ∧ match decision with
    | ReviewIndeterminate => conflicting
    | Reviewed occurrence => ¬ conflicting ∧ ∃ row, row ∈ rows ∧ decode_occurrence row = Ok occurrence ∧ approved_in rows (row_key row)
    | ReviewNone => ∀ k, ¬ approved_in rows k
    end.
Proof.
  unfold decision_of. cbv zeta. destruct (existsb _ targets) eqn:Ec; cbn [orb].
  { apply contradictory_spec in Ec as (k & Ha & Hr). eexists. split; [done|]. exists k, k. auto. }
  assert (∀ k, approved_in rows k → ¬ rejected_in rows k) as Hnc.
  { intros k Ha Hr. apply not_true_iff_false in Ec. apply Ec, contradictory_spec. eauto. }
  pose proof approved_only_elem as Hel. pose proof (NoDup_filter (λ target, approved_only target = true) targets (NoDup_fmap_1 target_key _ Honce)) as Hnd.
  assert (∀ k, approved_in rows k → ∃ t, t ∈ filter (λ target, approved_only target = true) targets ∧ target_key t = k) as Hin.
  { intros k Ha. pose proof (Hnc k Ha) as Hr. apply approved_target in Ha as (t & Ht & Hk & Ha). exists t. rewrite Hel. split_and!; [done..| |done].
    apply not_true_iff_false. intros H. apply Hr, rejected_target. eauto. }
  destruct (filter _ targets) as [|t [|t' ts]] eqn:Ef; cbn [length Nat.ltb Nat.leb Nat.eqb].
  - eexists. split; [done|]. intros k (t & Ht & _)%Hin. by apply elem_of_nil in Ht.
  - destruct (proj1 (Hel t)) as (Ht & Ha & Hr); [by left|].
    destruct (find approved_only targets) as [x|] eqn:Ex.
    + apply find_some in Ex as [Hx%list_elem_of_In Hxa]. eexists. split; [done|].
      assert (x ∈ [t]) as ->%list_elem_of_singleton.
      { apply Hel. split; [done|]. unfold approved_only in Hxa. by rewrite andb_true_iff, negb_true_iff in Hxa. }
      split.
      * intros (k & k' & Hk & [Hr'|[Hk' Hne]]); [by apply (Hnc k)|]. apply Hne.
        apply Hin in Hk as (y & ->%list_elem_of_singleton & <-), Hk' as (y' & ->%list_elem_of_singleton & <-). done.
      * destruct (Hkey t Ht) as (row & Hrow' & Hkr & Hd). exists row. split_and!; [done..|]. rewrite Hkr. by apply Hap.
    + apply list_elem_of_In in Ht. apply (find_none _ _ Ex) in Ht. unfold approved_only in Ht. by rewrite Ha, Hr in Ht.
  - eexists. split; [done|].
    destruct (proj1 (Hel t)) as (Ht & Ha & Hr); [by left|]. destruct (proj1 (Hel t')) as (Ht' & Ha' & _); [by right; left|].
    exists (target_key t), (target_key t'). split; [by apply Hap|]. right. split; [by apply Hap|]. intros Heq%target_unique; [|done..].
    subst t'. apply NoDup_cons in Hnd as [Hn _]. by destruct Hn; left.
Qed.

Lemma rejected_spec candidate decision :
  rejects_candidate {| reviews_decision := decision; reviews_rejected := rejected_of targets |} candidate = true ↔
  rejected_in rows (candidate_key candidate) ∧ ¬ approved_in rows (candidate_key candidate).
Proof.
  unfold rejects_candidate, rejected_of. cbn [reviews_rejected]. rewrite existsb_exists. setoid_rewrite <- list_elem_of_In.
  setoid_rewrite list_elem_of_fmap. setoid_rewrite list_elem_of_filter. setoid_rewrite andb_true_iff. setoid_rewrite negb_true_iff.
  assert (∀ t, target_key t = candidate_key candidate ↔
    bool_decide (review_path (identity_of (agg_occurrence t)) = cand_path candidate)
     && bool_decide (review_artifact (identity_of (agg_occurrence t)) = cand_artifact candidate)
     && bool_decide (review_fact_ordinal (identity_of (agg_occurrence t)) = cand_fact_ordinal candidate) = true) as Hk.
  { intros t. unfold target_key, review_key, candidate_key. rewrite !andb_true_iff, !bool_decide_eq_true. split; [intros [= H1 H2 H3]; by split_and!|]. intros [[H1 H2] H3]. cbn in *. congruence. }
  split.
  - intros (i & (t & -> & [Hr Ha] & Ht) & [Hb Hb2]). assert (target_key t = candidate_key candidate) as <- by (apply Hk; rewrite Hb, Hb2; done).
    split; [by apply Hre|]. intros H%Hap; [congruence|done].
  - intros [(t & Ht & Htk & Hr)%rejected_target Hna]. exists (identity_of (agg_occurrence t)). split.
    + exists t. split_and!; [done..| |done]. apply not_true_iff_false. intros Ha. apply Hna, approved_target. eauto.
    + apply Hk in Htk. apply andb_true_iff in Htk. exact Htk.
Qed.
End decision.

Lemma decode_occurrence_error row e : decode_occurrence row = Err e → e = IntegrityCheckFailed.
Proof.
  unfold decode_occurrence. destruct (map_err _ (try_from_vec _ _)) as [p|e'] eqn:Ep; rstep.
  2:{ intros [= <-]. destruct (try_from_vec _ _); simpl in Ep; congruence. }
  destruct (digest_try_from_slice (raw_artifact row)); rstep; [|congruence]. destruct (checked _ _); rstep; [|congruence].
  destruct (digest_try_from_slice (raw_declaration row)); rstep; [|congruence]. destruct (digest_try_from_slice _); rstep; congruence.
Qed.

Lemma aggregate_review_wp targets row : wp (aggregate_review targets row) (λ _, row_ok row) (λ e, e = IntegrityCheckFailed).
Proof.
  unfold aggregate_review. apply wp_check_bind. destruct (decode_occurrence row) as [occurrence|e] eqn:Eo.
  2:{ intros n. cbn. by eapply decode_occurrence_error. }
  eapply wp_lift_bind; [done|]. destruct (parse_review_operation (raw_operation row)) as [operation|e] eqn:Ep.
  2:{ intros n. cbn. unfold parse_review_operation in Ep. repeat case_bool_decide; congruence. }
  eapply wp_lift_bind; [done|]. cbv zeta. case_match; [by apply wp_throw|]. apply wp_ret. split; [eauto|]. apply parse_operation_ok. eauto.
Qed.

Lemma aggregate_fold_wp targets rows : wp (ctl_fold aggregate_review targets rows) (λ _, Forall row_ok rows) (λ e, e = IntegrityCheckFailed).
Proof.
  revert targets. induction rows as [|row rows IH]; intros targets; [apply wp_ret; constructor|]. cbn [ctl_fold].
  eapply wp_bind; [apply aggregate_review_wp|]. intros targets' Hr. eapply wp_mono; [apply IH|]. intros ? ?. by constructor.
Qed.

Lemma admit_reviews_steady rows : steady (admit_reviews rows).
Proof. unfold admit_reviews, aggregate_reviews, aggregate_review. solve_steady. Qed.

(** C17: rows in the order of the query, at most the 256 admitted, are aggregated exactly when
    each one holds a valid occurrence and a known operation, and refused as corrupt otherwise,
    more than that as too many.  A target is decided on just when it alone was approved and no
    row rejects it; approvals of two targets, or both operations on an approved one, are
    indeterminate; and a candidate is rejected when some row rejects it and none approves it. *)
Theorem reviews_exact rows :
  rows_ordered rows →
  (MAX_CURRENT_REVIEW_EVENTS < Z.of_nat (length rows) → run never (admit_reviews rows) = Err MemoryCorrespondenceReviewLimitExceeded)
  ∧ (Z.of_nat (length rows) ≤ MAX_CURRENT_REVIEW_EVENTS → ¬ Forall row_ok rows → run never (admit_reviews rows) = Err IntegrityCheckFailed)
  ∧ (Z.of_nat (length rows) ≤ MAX_CURRENT_REVIEW_EVENTS → Forall row_ok rows →
     ∃ reviews, run never (admit_reviews rows) = Ok reviews
     ∧ match reviews_decision reviews with
       | ReviewIndeterminate => conflicting rows
       | Reviewed occurrence =>
           ¬ conflicting rows ∧ ∃ row, row ∈ rows ∧ decode_occurrence row = Ok occurrence ∧ approved_in rows (row_key row)
       | ReviewNone => ∀ k, ¬ approved_in rows k
       end
     ∧ ∀ candidate, rejects_candidate reviews candidate = true ↔
         rejected_in rows (candidate_key candidate) ∧ ¬ approved_in rows (candidate_key candidate))
  ∧ ∀ o, run o (admit_reviews rows) = run never (admit_reviews rows) ∨ ∃ k e, o k = Some e ∧ run o (admit_reviews rows) = Err e.
Proof.
  intros Hs. split_and!.
  - intros Hl. unfold admit_reviews. by rewrite (proj2 (Z.ltb_lt _ _)).
  - intros Hl Hbad. unfold admit_reviews. destruct (Z.ltb_spec MAX_CURRENT_REVIEW_EVENTS (Z.of_nat (length rows))); [lia|].
    pose proof (aggregate_fold_wp [] rows 0%nat) as Hw. unfold run, aggregate_reviews. unfold mbind at 1, ctl_bind at 1.
    destruct (ctl_fold aggregate_review [] rows never 0%nat) as [[targets n]|e]; [done|by subst].
  - intros Hl Hok. unfold admit_reviews. destruct (Z.ltb_spec MAX_CURRENT_REVIEW_EVENTS (Z.of_nat (length rows))); [lia|].
    destruct (aggregate_fold [] rows [] Hs collected_nil Hok) as (targets & He & Hc). apply aggregate_reviews_evals, evals_run in He. rewrite He.
    assert (∀ t, t ∈ reverse targets ↔ t ∈ targets) as Hrev by (intros t; apply elem_of_reverse).
    assert (NoDup (map target_key (reverse targets))) as Hnd by (rewrite (reverse_Permutation targets); apply Hc).
    destruct (decision_spec rows (reverse targets)) as (decision & -> & Hd); [first [exact Hnd|setoid_rewrite Hrev; apply Hc]..|].
    eexists. split; [done|]. split; [exact Hd|]. intros candidate. apply rejected_spec; first [exact Hnd|setoid_rewrite Hrev; apply Hc].
  - intros o. apply steady_run, admit_reviews_steady.
Qed.

(** One target approved, another rejected. *)
Definition review_row (operation path : bytes) : RawReview :=
  {| raw_operation := operation; raw_path := path; raw_artifact := replicate 32 x11; raw_fact_ordinal := 0;
     raw_declaration := replicate 32 x22; raw_name_elided := replicate 32 x33 |}.
Definition review_rows : list RawReview := [review_row (b_of "approved") (b_of "a.rs"); review_row (b_of "rejected") (b_of "b.rs")].

Lemma reviews_exact_witness :
  ∃ reviews, run never (admit_reviews review_rows) = Ok reviews
  ∧ match reviews_decision reviews with
    | ReviewIndeterminate => conflicting review_rows
    | Reviewed occurrence =>
        ¬ conflicting review_rows ∧ ∃ row, row ∈ review_rows ∧ decode_occurrence row = Ok occurrence ∧ approved_in review_rows (row_key row)
    | ReviewNone => ∀ k, ¬ approved_in review_rows k
    end
  ∧ ∀ candidate, rejects_candidate reviews candidate = true ↔
      rejected_in review_rows (candidate_key candidate) ∧ ¬ approved_in review_rows (candidate_key candidate).
Proof.
  destruct (reviews_exact review_rows) as (_ & _ & H & _).
  - repeat constructor. vm_compute. discriminate.
  - apply H; [vm_compute; discriminate|].
    apply Forall_cons_2; [|apply Forall_cons_2; [|apply Forall_nil_2]]; (split; [eexists; by vm_compute|]); [left|right]; by vm_compute.
Defined.

(** Approvals of two targets decide nothing. *)
Example two_approvals_indeterminate :
  match run never (admit_reviews [review_row (b_of "approved") (b_of "a.rs"); review_row (b_of "manual_link") (b_of "b.rs")]) with
  | Ok reviews => reviews_decision reviews = ReviewIndeterminate
  | Err _ => False
  end.
Proof. by vm_compute. Qed.
