(* ===== verification/Revalidation.v ===== *)
(** * Memory revalidation

    Models [crates/repowitness-local/src/memory_revalidation/use_case.rs] and
    [evidence_resolution.rs]: every record of a journal is evaluated against one pinned
    generation, under one budget of Git queries, and the results are published only when the
    source did not change meanwhile.  It composes the head selection and the projection policy
    ([MemoryProjection]), the project validity ([MemoryValidity]), the Git queries
    ([GitMemory]), the correspondence of declarations ([Correspondence]), the decisions of
    manual reviews ([MemoryReviews]), the prepared results ([ProjectionStore]) and the source
    states ([SourceState]).  [RevalidationEvidence] and [RevalidationRecords] hold the proofs.
    What the store answers for the pinned source and the outputs of
    Git are parameters. *)

From Stdlib Require Import ZArith Lia ZifyBool.
From Stdlib Require Import Strings.Byte.
From stdpp Require Import base numbers sorting list.
From S2P Require Import Prelude Ordering Utf8 RepositoryPath GitPaths SourceState GraphIdentity SymbolFacts Correspondence.
From S2P Require Import MemoryRecord MemoryValidity MemoryProjection GitMemory ProjectionStore MemoryReviews.

Open Scope Z_scope.

Definition MAX_LOCAL_MEMORY_GIT_QUERIES : Z := 65536.
Definition DEFAULT_LOCAL_MEMORY_GIT_QUERIES : Z := 4096.
Definition DEFAULT_LOCAL_MEMORY_RESULT_CANDIDATES : Z := 16384.

Inductive LocalMemoryRevalidationMutation := MutationStoreStartup | MutationProjectionPublication | MutationCheckpoint.

(** The failures after the store was opened; [Panicked] stands for a panic of a callee: the
    selection of a head among approved versions of which none is a head. *)
Inductive LocalMemoryRevalidationError :=
| RevInvalidLimits
| RevCancelled
| RevDeadlineExceeded
| RevSourceState (source : SourceStateError)
| ConcurrentSourceChange
| JournalLoad (source : SqliteStoreError)
| HeadSelection (source : MemoryProjectionError)
| ValidityEvaluation (source : MemoryValidityEvaluationError)
| GitQuery (source : GitMemoryQueryError)
| GitQueryLimitExceeded
| CandidateLoad (source : SqliteStoreError)
| RevCorrespondence (source : RustCorrespondenceError)
| ProjectionPolicy (source : MemoryProjectionError)
| ProjectionPreparation (source : SqliteStoreError)
| Publication (source : SqliteStoreError)
| RevMutationOutcomeUnknown (operation : LocalMemoryRevalidationMutation)
| RevCountNotRepresentable
| JournalIntegrity
| Panicked.

(** ** Limits and the query budget *)

(** The deadlines are in nanoseconds; that of the source state has its own. *)
Record LocalMemoryRevalidationLimits := {
  rev_deadline : Z;
  rev_source_state : GitPathDiscoveryLimits;
  rev_source_state_deadline : Z;
  rev_git : GitMemoryQueryLimits;
  rev_max_versions : Z;
  rev_max_canonical_bytes : Z;
  rev_max_result_candidates : Z;
  rev_max_git_queries : Z;
}.

Definition validated_limits (limits : LocalMemoryRevalidationLimits)
    : result LocalMemoryRevalidationError (MemoryProjectionLoadLimits * MemoryProjectionResultLimits) :=
  if (rev_deadline limits =? 0) || (rev_source_state_deadline limits =? 0)
     || negb ((2 <=? rev_max_git_queries limits) && (rev_max_git_queries limits <=? MAX_LOCAL_MEMORY_GIT_QUERIES))
  then Err RevInvalidLimits
  else
    load ← map_err (λ _, RevInvalidLimits) (load_limits_try_new (rev_max_versions limits) (rev_max_canonical_bytes limits));
    result_limits ← map_err (λ _, RevInvalidLimits) (result_limits_try_new (rev_max_result_candidates limits));
    Ok (load, result_limits).

Record GitQueryBudget := {
  budget_used : Z;
  budget_limit : Z;
}.

Definition budget_new (limit : Z) : GitQueryBudget := {| budget_used := 0; budget_limit := limit |}.

Definition reserve (budget : GitQueryBudget) : result LocalMemoryRevalidationError GitQueryBudget :=
  match checked u32_max (budget_used budget + 1) with
  | Some used => if used <=? budget_limit budget
                 then Ok {| budget_used := used; budget_limit := budget_limit budget |}
                 else Err GitQueryLimitExceeded
  | None => Err GitQueryLimitExceeded
  end.

(** ** Candidates *)

Definition analysis_symbol_kind (kind : RustMemorySymbolKind) : RustSymbolKind :=
  match kind with
  | MemFunction => Function | MemMethod => Method | MemStruct => Struct | MemEnum => Enum | MemUnion => Union
  | MemTrait => Trait | MemModule => Module_ | MemTypeAlias => TypeAlias | MemConstant => Constant
  | MemStatic => Static | MemMacro => Macro
  end.

Definition with_path_continuity (candidate : RustCorrespondenceCandidate) (path_continuity : RustPathContinuity)
    : RustCorrespondenceCandidate :=
  {| cand_path := cand_path candidate; cand_artifact := cand_artifact candidate; cand_fact_ordinal := cand_fact_ordinal candidate;
     cand_kind := cand_kind candidate; cand_name := cand_name candidate; cand_qualified_name := cand_qualified_name candidate;
     cand_container := cand_container candidate; cand_fingerprint := cand_fingerprint candidate;
     cand_path_continuity := path_continuity |}.

Definition same_evidence_symbol (evidence : RustSymbolMemoryEvidence) (candidate : RustCorrespondenceCandidate) : bool :=
  bool_decide (cand_kind candidate = analysis_symbol_kind (ev_symbol_kind evidence))
  && bool_decide (cand_name candidate = as_bytes (ev_name evidence))
  && bool_decide (cand_qualified_name candidate = as_bytes (ev_qualified_name evidence))
  && bool_decide (fp_declaration (cand_fingerprint candidate) = ev_declaration_digest evidence).

Definition exact_evidence_candidate (evidence : RustSymbolMemoryEvidence) (candidate : RustCorrespondenceCandidate) : bool :=
  bool_decide (cand_path candidate = path_bytes (ev_path evidence)) && same_evidence_symbol evidence candidate.

Definition move_evidence_candidate (evidence : RustSymbolMemoryEvidence) (candidate : RustCorrespondenceCandidate) : bool :=
  negb (bool_decide (cand_path candidate = path_bytes (ev_path evidence))) && same_evidence_symbol evidence candidate.

Definition candidate_relation (evidence : RustSymbolMemoryEvidence) (candidate : RustCorrespondenceCandidate)
    : ProjectionCandidateRelation :=
  match bool_decide (cand_path candidate = path_bytes (ev_path evidence)), bool_decide (cand_name candidate = as_bytes (ev_name evidence)) with
  | true, true => RelationSame
  | true, false => RelationRenamed
  | false, true => RelationMoved
  | false, false => RelationMovedRenamed
  end.

(** ** Resolutions as results *)

Definition Resolved : Type := MemoryEvidenceOutcome * PreparedProjectionEvidence.

Definition prepared_evidence_resolution (evidence : RustSymbolMemoryEvidence) (resolution : RustCorrespondenceResolution)
    (candidate_count : Z) : result LocalMemoryRevalidationError Resolved :=
  match resolution with
  | Exact target =>
      prepared ← map_err ProjectionPreparation (resolved ProjExact AssuredAutomatic (from_candidate target) candidate_count);
      Ok (EvExact, prepared)
  | Automatic relationship target =>
      prepared ← map_err ProjectionPreparation
        (resolved (match relationship with Renamed => ProjSamePathRename | Moved => ProjGitExactMove end)
           AssuredAutomatic (from_candidate target) candidate_count);
      Ok (EvCorresponded, prepared)
  | Changed target =>
      prepared ← map_err ProjectionPreparation (resolved ProjChanged AssuredNone (from_candidate target) candidate_count);
      Ok (EvChanged, prepared)
  | Correspondence.NeedsReview candidates =>
      let proposed_split := (1 <? length candidates)%nat in
      let candidates := map (λ candidate,
        {| pc_occurrence := from_candidate candidate;
           pc_relation := if proposed_split then RelationSplit else candidate_relation evidence candidate |}) candidates in
      prepared ← map_err ProjectionPreparation (ambiguous candidates);
      Ok (EvNeedsReview, prepared)
  | Missing => Ok (EvMissing, missing candidate_count)
  | Indeterminate _ => Ok (EvIndeterminate, indeterminate candidate_count)
  end.

Definition prepared_evidence_resolution_with_rejections (evidence : RustSymbolMemoryEvidence) (resolution : RustCorrespondenceResolution)
    (candidate_count : Z) (reviews : LoadedCorrespondenceReviews) : result LocalMemoryRevalidationError Resolved :=
  let rejected := Ok (EvIndeterminate, indeterminate candidate_count) in
  match resolution with
  | Exact target | Automatic _ target | Changed target =>
      if rejects_candidate reviews target then rejected else prepared_evidence_resolution evidence resolution candidate_count
  | Correspondence.NeedsReview candidates =>
      let prior_count := length candidates in
      let candidates := filter (λ candidate, rejects_candidate reviews candidate = false) candidates in
      if bool_decide (candidates = []) && negb (prior_count =? 0)%nat then rejected
      else prepared_evidence_resolution evidence (Correspondence.NeedsReview candidates) candidate_count
  | other => prepared_evidence_resolution evidence other candidate_count
  end.

(** ** One automatic target for one citation *)

(** The ordinals with an automatic target that another citation has too. *)
Definition merged_targets (evidence : list PreparedProjectionEvidence) : list (nat * ProjectionOccurrence) :=
  omap (λ '(ordinal, r),
    if negb (bool_decide (pe_assurance r = AssuredAutomatic)) then None
    else
      target ← pe_target r;
      if existsb (λ '(other_ordinal, other),
                    negb (other_ordinal =? ordinal)%nat && bool_decide (pe_target other = Some target)) (imap pair evidence)
      then Some (ordinal, target) else None) (imap pair evidence).

Definition reject_merged (s : list MemoryEvidenceOutcome * list PreparedProjectionEvidence) (merged : nat * ProjectionOccurrence)
    : result LocalMemoryRevalidationError (list MemoryEvidenceOutcome * list PreparedProjectionEvidence) :=
  let '(outcomes, evidence) := s in
  let '(ordinal, target) := merged in
  prepared ← map_err ProjectionPreparation (ambiguous [{| pc_occurrence := target; pc_relation := RelationMerged |}]);
  Ok (<[ordinal := EvNeedsReview]> outcomes, <[ordinal := prepared]> evidence).

Definition reject_automatic_many_to_one (outcomes : list MemoryEvidenceOutcome) (evidence : list PreparedProjectionEvidence)
    : result LocalMemoryRevalidationError (list MemoryEvidenceOutcome * list PreparedProjectionEvidence) :=
  if negb (length outcomes =? length evidence)%nat then Err (ProjectionPreparation InvalidMemoryProjection)
  else try_fold reject_merged (outcomes, evidence) (merged_targets evidence).

(** ** Evaluation *)

Section evaluation.
(** What the store answers for the pinned source. *)
Context (load_rust_memory_candidates : RustSymbolMemoryEvidence → result SqliteStoreError LoadedRustCandidateSet).
Context (load_memory_correspondence_reviews : bytes → bytes → Z → result SqliteStoreError LoadedCorrespondenceReviews).
(** The outputs of Git, and whether the deadline of a command can be represented. *)
Context (git : list bytes → GitPathDiscoveryLimits → result GitPathDiscoveryError ((bool * option Z) * bytes)).
Context (deadline_representable : bool).

(** The error of a query, for an answer of the control in the errors of the caller. *)
Definition query_control (e : LocalMemoryRevalidationError) : option GitMemoryQueryError :=
  match e with GitQuery source => Some source | _ => None end.

Definition query {A} (m : ctl GitMemoryQueryError A) : ctl LocalMemoryRevalidationError A := ctl_map_err GitQuery query_control m.

(** One candidate of the loop that asks for exact moves, with the candidates done. *)
Definition continue_candidate (evidence : RustSymbolMemoryEvidence) (queries : GitMemoryQueries) (source_commit target_commit : MemoryCommitId)
    (s : list RustCorrespondenceCandidate * bool * GitQueryBudget) (candidate : RustCorrespondenceCandidate)
    : ctl LocalMemoryRevalidationError (list RustCorrespondenceCandidate * bool * GitQueryBudget) :=
  let '(candidates, history_indeterminate, budget) := s in
  if negb (move_evidence_candidate evidence candidate) then mret (candidates ++ [candidate], history_indeterminate, budget)
  else
    budget ← lift (reserve budget);
    outcome ← query (exact_path_continuity git deadline_representable queries source_commit target_commit (ev_path evidence)
                       (git_path (cand_path candidate)));
    mret (match outcome with
          | ContinuityExactMove => (candidates ++ [with_path_continuity candidate GitExactMove], history_indeterminate, budget)
          | ContinuityNoMatch => (candidates ++ [candidate], history_indeterminate, budget)
          | ContinuityIndeterminate => (candidates ++ [candidate], true, budget)
          end).

Definition evaluate_rust_evidence (record_id revision : bytes) (evidence_ordinal : Z) (approval_git_source : option MemoryCommitId)
    (evidence : RustSymbolMemoryEvidence) (queries : option GitMemoryQueries) (head : option MemoryCommitId) (budget : GitQueryBudget)
    : ctl LocalMemoryRevalidationError (Resolved * GitQueryBudget) :=
  loaded ← lift (map_err CandidateLoad (load_rust_memory_candidates evidence));
  let name_elided := set_subject_name_elided loaded in
  let candidate_count := set_candidate_count_before_limit loaded in
  let candidates := set_candidates loaded in
  let complete_candidates := bool_decide (u64_of_len (length candidates) = Some candidate_count) in
  reviews ← lift (map_err CandidateLoad (load_memory_correspondence_reviews record_id revision evidence_ordinal));
  match reviews_decision reviews with
  | Reviewed target => mret (EvCorresponded, reviewed_link target candidate_count complete_candidates, budget)
  | ReviewIndeterminate => mret (EvIndeterminate, indeterminate candidate_count, budget)
  | ReviewNone =>
      subject ← lift (map_err RevCorrespondence
        (subject_try_new (path_bytes (ev_path evidence)) (analysis_symbol_kind (ev_symbol_kind evidence)) (as_bytes (ev_name evidence))
           (as_bytes (ev_qualified_name evidence)) (ev_declaration_digest evidence) name_elided));
      let exact_present := complete_candidates && existsb (exact_evidence_candidate evidence) candidates in
      '(candidates, history_indeterminate, budget) ←
        match approval_git_source, head, queries with
        | Some source_commit, Some target_commit, Some queries =>
            if complete_candidates && negb exact_present
            then ctl_fold (continue_candidate evidence queries source_commit target_commit) ([], false, budget) candidates
            else mret (candidates, false, budget)
        | _, _, _ => mret (candidates, false, budget)
        end;
      if (history_indeterminate : bool) then mret (EvIndeterminate, indeterminate candidate_count, budget)
      else
        resolution ← lift (map_err RevCorrespondence (resolve_rust_correspondence subject candidates candidate_count));
        result ← lift (prepared_evidence_resolution_with_rejections evidence resolution candidate_count reviews);
        mret (result, budget)
  end.

(** One ancestor of the loop of [project_validity]. *)
Definition check_ancestry (queries : GitMemoryQueries) (descendant : MemoryCommitId) (s : list MemoryAncestryCheck * GitQueryBudget)
    (ancestor : MemoryCommitId) : ctl LocalMemoryRevalidationError (list MemoryAncestryCheck * GitQueryBudget) :=
  let '(checks, budget) := s in
  budget ← lift (reserve budget);
  outcome ← query (is_ancestor git deadline_representable queries ancestor descendant);
  mret (checks ++ [{| check_ancestor := ancestor; check_descendant := descendant; check_outcome := outcome |}], budget).

(** The result of a callee that can panic. *)
Definition unwind {E A} (f : E → LocalMemoryRevalidationError) (r : option (result E A)) : result LocalMemoryRevalidationError A :=
  match r with Some r => map_err f r | None => Err Panicked end.

Definition project_validity (record : MemoryRecord) (target : MemoryRevalidationTarget) (queries : option GitMemoryQueries)
    (head : option MemoryCommitId) (budget : GitQueryBudget) : ctl LocalMemoryRevalidationError (MemoryProjectValidity * GitQueryBudget) :=
  '(checks, budget) ←
    match rec_validity record, head with
    | ValidCommits introduced_by invalidated_by, Some descendant =>
        queries ← lift (ok_or queries JournalIntegrity);
        ctl_fold (check_ancestry queries descendant) ([], budget) (introduced_by ++ invalidated_by)
    | _, _ => mret ([], budget)
    end;
  validity ← lift (unwind ValidityEvaluation (evaluate_memory_project_validity (rec_validity record) target checks));
  mret (validity, budget).

(** One citation of the loop of [evaluated_record], with its ordinal. *)
Definition evaluate_citation (version : LoadedMemoryVersion) (queries : option GitMemoryQueries) (head : option MemoryCommitId)
    (s : list MemoryEvidenceOutcome * list PreparedProjectionEvidence * GitQueryBudget) (citation : nat * RustSymbolMemoryEvidence)
    : ctl LocalMemoryRevalidationError (list MemoryEvidenceOutcome * list PreparedProjectionEvidence * GitQueryBudget) :=
  let '(outcomes, evidence_results, budget) := s in
  let '(ordinal, evidence) := citation in
  check;;
  evidence_ordinal ← lift (ok_or (checked 255 (Z.of_nat ordinal)) RevCountNotRepresentable);
  '((outcome, prepared), budget) ← evaluate_rust_evidence (hdr_record_id (rec_header (loaded_record version))) (loaded_revision version)
    evidence_ordinal (loaded_approval_git_source version) evidence queries head budget;
  mret (outcomes ++ [outcome], evidence_results ++ [prepared], budget).

Definition evaluated_record (source : MemoryProjectionSource) (version : LoadedMemoryVersion) (target : MemoryRevalidationTarget)
    (queries : option GitMemoryQueries) (head : option MemoryCommitId) (budget : GitQueryBudget)
    : ctl LocalMemoryRevalidationError (PreparedProjectionRecordKind * GitQueryBudget) :=
  let record := loaded_record version in
  if negb (bool_decide (rec_lifecycle record = Active)) then
    decision ← lift (unwind ProjectionPolicy (evaluate_memory_projection record None []));
    mret (Evaluated (loaded_revision version) decision [], budget)
  else
    '(validity, budget) ← project_validity record target queries head budget;
    if negb (bool_decide (validity = ProjectValid)) then
      decision ← lift (unwind ProjectionPolicy (evaluate_memory_projection record (Some validity) []));
      mret (Evaluated (loaded_revision version) decision [], budget)
    else
      '(outcomes, evidence_results, budget) ←
        (if has_complete_index_coverage source
         then ctl_fold (evaluate_citation version queries head) ([], [], budget) (imap pair (rec_evidence record))
         else mret (map (λ _, EvIndeterminate) (rec_evidence record), map (λ _, indeterminate 0) (rec_evidence record), budget));
      '(outcomes, evidence_results) ← lift (reject_automatic_many_to_one outcomes evidence_results);
      decision ← lift (unwind ProjectionPolicy (evaluate_memory_projection record (Some validity) outcomes));
      mret (Evaluated (loaded_revision version) decision evidence_results, budget).

Definition head_input (version : LoadedMemoryVersion) : MemoryVersionHeadInput :=
  {| ver_revision := loaded_revision version; ver_record := loaded_record version; ver_locally_approved := loaded_locally_approved version |}.

Definition find_version (versions : list LoadedMemoryVersion) (revision : bytes) : result LocalMemoryRevalidationError LoadedMemoryVersion :=
  ok_or (find (λ version, bool_decide (loaded_revision version = revision)) versions) JournalIntegrity.

(** The head that cannot be decided. *)
Definition indeterminate_kind (versions : list LoadedMemoryVersion) (selection : MemoryHeadSelection)
    : result LocalMemoryRevalidationError PreparedProjectionRecordKind :=
  evidence_count ← match sel_revision selection with
                   | None => Ok 0
                   | Some revision =>
                       version ← find_version versions revision;
                       ok_or (u32_of_len (length (rec_evidence (loaded_record version)))) RevCountNotRepresentable
                   end;
  Ok (IndeterminateHead (sel_revision selection) evidence_count (sel_head_count selection) (sel_missing_parent_count selection)
        (if 0 <? sel_missing_parent_count selection then HeadMissingParent else InvalidHeadGraph)).

Definition prepare_record (source : MemoryProjectionSource) (versions : list LoadedMemoryVersion) (target : MemoryRevalidationTarget)
    (queries : option GitMemoryQueries) (head : option MemoryCommitId) (budget : GitQueryBudget)
    : ctl LocalMemoryRevalidationError (option PreparedProjectionRecord * GitQueryBudget) :=
  first ← lift (ok_or (versions !! 0%nat) JournalIntegrity);
  let record_id := hdr_record_id (rec_header (loaded_record first)) in
  selection ← lift (unwind HeadSelection (select_memory_head (map head_input versions)));
  match sel_state selection with
  | NoApprovedVersion => mret (None, budget)
  | HeadConflicted => mret (Some {| pr_record_id := record_id; pr_kind := Conflicted (sel_head_count selection) |}, budget)
  | HeadIndeterminate =>
      kind ← lift (indeterminate_kind versions selection);
      mret (Some {| pr_record_id := record_id; pr_kind := kind |}, budget)
  | HeadSelected =>
      revision ← lift (ok_or (sel_revision selection) JournalIntegrity);
      version ← lift (find_version versions revision);
      '(kind, budget) ← evaluated_record source version target queries head budget;
      mret (Some {| pr_record_id := record_id; pr_kind := kind |}, budget)
  end.

Definition loaded_record_id (version : LoadedMemoryVersion) : bytes := hdr_record_id (rec_header (loaded_record version)).

(** The versions from [start] on with one record identifier, and those after them. *)
Fixpoint take_group (record_id : bytes) (versions : list LoadedMemoryVersion) : list LoadedMemoryVersion * list LoadedMemoryVersion :=
  match versions with
  | version :: rest =>
      if bool_decide (loaded_record_id version = record_id)
      then let '(group, rest) := take_group record_id rest in (version :: group, rest)
      else ([], versions)
  | [] => ([], [])
  end.

(** The loop over the groups; a turn consumes at least a version. *)
Fixpoint prepare_groups (fuel : nat) (source : MemoryProjectionSource) (versions : list LoadedMemoryVersion) (target : MemoryRevalidationTarget)
    (queries : option GitMemoryQueries) (head : option MemoryCommitId) (records : list PreparedProjectionRecord) (skipped_count : Z)
    (budget : GitQueryBudget) : ctl LocalMemoryRevalidationError (list PreparedProjectionRecord * Z * GitQueryBudget) :=
  match fuel, versions with
  | S fuel, version :: rest =>
      check;;
      let '(group, rest) := take_group (loaded_record_id version) rest in
      '(prepared, budget) ← prepare_record source (version :: group) target queries head budget;
      match prepared with
      | Some record => prepare_groups fuel source rest target queries head (records ++ [record]) skipped_count budget
      | None =>
          skipped_count ← lift (ok_or (checked u32_max (skipped_count + 1)) RevCountNotRepresentable);
          prepare_groups fuel source rest target queries head records skipped_count budget
      end
  | _, _ => mret (records, skipped_count, budget)
  end.

Definition prepare_records (journal : LoadedMemoryJournal) (target : MemoryRevalidationTarget) (queries : option GitMemoryQueries)
    (head : option MemoryCommitId) (budget : GitQueryBudget)
    : ctl LocalMemoryRevalidationError (list PreparedProjectionRecord * Z * GitQueryBudget) :=
  prepare_groups (length (journal_versions journal)) (journal_source journal) (journal_versions journal) target queries head [] 0 budget.
End evaluation.

(** ** The rebuild *)

(** What Git answers about the worktree at one moment. *)
Record WorktreeGit := {
  wt_root : result GitPathDiscoveryError ();
  wt_output : list bytes → result GitPathDiscoveryError bytes;
  wt_output_with_status : list bytes → result GitPathDiscoveryError ((bool * option Z) * bytes);
}.

#[export] Instance repository_path_eq_dec : EqDecision RepositoryPath.
Proof. solve_decision. Defined.
#[export] Instance status_record_eq_dec : EqDecision CanonicalStatusRecord.
Proof. solve_decision. Defined.
#[export] Instance captured_state_eq_dec : EqDecision (CapturedSourceState (Digest := bytes)).
Proof. solve_decision. Defined.

Record MemoryProjectionPublication := {
  publication_projection_id : Z;
  publication_projected_records : Z;
  publication_skipped_records : Z;
  publication_unresolved_records : Z;
}.

Definition map_revalidation_mutation_error (operation : LocalMemoryRevalidationMutation)
    (otherwise : SqliteStoreError → LocalMemoryRevalidationError) (source : SqliteStoreError) : LocalMemoryRevalidationError :=
  match source with
  | MutationOutcomeUnknown => RevMutationOutcomeUnknown operation
  | source => otherwise source
  end.

Section rebuild.
Context (sha256 : bytes → bytes).
Context (load_memory_journal : MemoryProjectionLoadLimits → result SqliteStoreError LoadedMemoryJournal).
Context (load_rust_memory_candidates : RustSymbolMemoryEvidence → result SqliteStoreError LoadedRustCandidateSet).
Context (load_memory_correspondence_reviews : bytes → bytes → Z → result SqliteStoreError LoadedCorrespondenceReviews).
Context (publish_memory_projection : PreparedMemoryProjection → result SqliteStoreError MemoryProjectionPublication).
Context (git : list bytes → GitPathDiscoveryLimits → result GitPathDiscoveryError ((bool * option Z) * bytes)).
Context (deadline_representable : bool).

Definition state_control (e : LocalMemoryRevalidationError) : option SourceStateError :=
  match e with RevSourceState source => Some source | _ => None end.

(** The control, then the remaining time, then the capture with its own checks. *)
Definition capture_bounded_source_state (worktree : WorktreeGit) (limits : GitPathDiscoveryLimits)
    : ctl LocalMemoryRevalidationError (CapturedSourceState (Digest := bytes)) :=
  check;;
  check;;
  ctl_map_err RevSourceState state_control
    (capture_source_state sha256 (wt_root worktree) (wt_output worktree) (wt_output_with_status worktree) limits).

Definition open_queries (limits : LocalMemoryRevalidationLimits) (budget : GitQueryBudget)
    : ctl LocalMemoryRevalidationError (option GitMemoryQueries * option MemoryCommitId * GitQueryBudget) :=
  budget ← lift (reserve budget);
  opened ← query (git_memory_open git deadline_representable (rev_git limits));
  budget ← lift (reserve budget);
  head ← query (head_commit git deadline_representable opened);
  mret (Some opened, head, budget).

(** The worktree is seen at two moments, [earlier] and [later]. *)
Definition rebuild_projection (earlier later : WorktreeGit) (limits : LocalMemoryRevalidationLimits)
    (load_limits : MemoryProjectionLoadLimits) (result_limits : MemoryProjectionResultLimits)
    : ctl LocalMemoryRevalidationError (MemoryProjectionPublication * MemoryProjectionSource * Z * bool) :=
  journal ← lift (map_err JournalLoad (load_memory_journal load_limits));
  let source := journal_source journal in
  before ← capture_bounded_source_state earlier (rev_source_state limits);
  let query_budget := budget_new (rev_max_git_queries limits) in
  '(queries, head, query_budget) ←
    (if bool_decide (captured_git_state before = source_git_state source) then open_queries limits query_budget
     else mret (None, None, query_budget));
  let target := TargetWorktree (source_snapshot source) head in
  '(records, skipped_count, query_budget) ←
    prepare_records load_rust_memory_candidates load_memory_correspondence_reviews git deadline_representable journal target queries head
      query_budget;
  after ← capture_bounded_source_state later (rev_source_state limits);
  (if negb (bool_decide (after = before)) then throw ConcurrentSourceChange else mret ());;
  prepared ← lift (map_err ProjectionPreparation (prepared_projection_try_new source target records skipped_count 0 result_limits));
  publication ← lift (map_err (map_revalidation_mutation_error MutationProjectionPublication Publication) (publish_memory_projection prepared));
  mret (publication, source, budget_used query_budget, bool_decide (is_Some head)).
End rebuild.
