(* ===== verification/RevalidationEvidence.v ===== *)
(** * The evidence of memory revalidation

    What [Revalidation] makes of one citation: the results of a resolution hold together with
    the outcomes the policy is told, a rejected candidate is never a target, no two citations
    share an automatic target, and the decision of the policy agrees with the results. *)

From Stdlib Require Import ZArith Lia ZifyBool.
From Stdlib Require Import Strings.Byte.
From stdpp Require Import base numbers sorting list.
From S2P Require Import Prelude Ordering Utf8 RepositoryPath GitPaths SourceState GraphIdentity SymbolFacts Correspondence.
From S2P Require Import MemoryRecord MemoryValidity MemoryProjection GitMemory ProjectionStore MemoryReviews Revalidation.

Open Scope Z_scope.

(** ** Results of evidence *)

(** The outcome of the policy for a prepared result. *)
Definition policy_outcome (r : PreparedProjectionEvidence) : MemoryEvidenceOutcome :=
  match pe_outcome r with
  | ProjExact => EvExact
  | ProjSamePathRename | ProjGitExactMove | ProjReviewedLink => EvCorresponded
  | ProjChanged => EvChanged
  | ProjAmbiguous => EvNeedsReview
  | ProjMissing => EvMissing
  | ProjIndeterminate => EvIndeterminate
  end.

(** A result that can be published, with the outcome the policy is told. *)
Definition consistent (r : Resolved) : Prop := evidence_ok r.2 ∧ r.1 = policy_outcome r.2.

(** The rejected candidates are never the target of a result. *)
Definition from_candidates (candidates : list RustCorrespondenceCandidate) (reviews : LoadedCorrespondenceReviews)
    (r : PreparedProjectionEvidence) : Prop :=
  pe_assurance r ≠ AssuredReviewed
  ∧ ∀ target, pe_target r = Some target →
    ∃ candidate, candidate ∈ candidates ∧ target = from_candidate candidate ∧ rejects_candidate reviews candidate = false.

Lemma resolved_ok outcome assurance target count prepared :
  count ≤ MAX_MEMORY_INTEROPERABLE_INTEGER → resolved outcome assurance target count = Ok prepared →
  evidence_ok prepared ∧ pe_outcome prepared = outcome ∧ pe_assurance prepared = assurance ∧ pe_target prepared = Some target.
Proof.
  unfold resolved. intros Hc H. destruct (_ || _) eqn:Eg; [done|]. injection H as <-. unfold evidence_ok. cbn.
  rewrite !orb_false_iff, negb_false_iff in Eg. destruct Eg as [[Ho Hn] Ha].
  split; [|by split_and!]. split; [done|]. by destruct outcome, assurance.
Qed.

Lemma ambiguous_ok candidates prepared :
  ambiguous candidates = Ok prepared →
  evidence_ok prepared ∧ pe_outcome prepared = ProjAmbiguous ∧ pe_assurance prepared = AssuredNone ∧ pe_target prepared = None.
Proof.
  unfold ambiguous. destruct (bool_decide (candidates = [])) eqn:En; [done|]. cbn [orb]. apply bool_decide_eq_false in En.
  destruct (Nat.ltb_spec MAX_RUST_CORRESPONDENCE_CANDIDATES (length candidates)) as [|Hl]; [done|].
  destruct (any_adjacent _ _); [done|]. rewrite candidate_count_fits by (by rewrite length_sort_by). rstep. intros [= <-].
  split_and!; [|done..]. unfold evidence_ok. cbn. rewrite length_sort_by. split.
  - unfold MAX_RUST_CORRESPONDENCE_CANDIDATES, MAX_MEMORY_INTEROPERABLE_INTEGER in *. lia.
  - split_and!; try done. intros He. apply (f_equal length) in He. rewrite length_sort_by in He. by destruct candidates.
Qed.

Lemma indeterminate_consistent count : count ≤ MAX_MEMORY_INTEROPERABLE_INTEGER → consistent (EvIndeterminate, indeterminate count).
Proof. by intros H. Qed.

Section resolution.
Context (evidence : RustSymbolMemoryEvidence) (candidate_count : Z) (reviews : LoadedCorrespondenceReviews).
Context (Hcount : candidate_count ≤ MAX_MEMORY_INTEROPERABLE_INTEGER).

(** The candidates a resolution answers with. *)
Definition resolution_candidates (resolution : RustCorrespondenceResolution) : list RustCorrespondenceCandidate :=
  match resolution with
  | Exact target | Automatic _ target | Changed target => [target]
  | Correspondence.NeedsReview candidates => candidates
  | _ => []
  end.

Lemma prepared_resolution_consistent resolution r :
  prepared_evidence_resolution evidence resolution candidate_count = Ok r → consistent r.
Proof.
  unfold prepared_evidence_resolution, consistent. destruct resolution as [t|rel t|t|cs| |reason].
  - intros H. apply bind_Ok in H as (p & H%map_err_Ok & [= <-]). apply resolved_ok in H as (? & Ho & _); [|done]. unfold policy_outcome; cbn [fst snd]. by rewrite Ho.
  - intros H. apply bind_Ok in H as (p & H%map_err_Ok & [= <-]). apply resolved_ok in H as (? & Ho & _); [|done]. unfold policy_outcome; cbn [fst snd]. rewrite Ho. by destruct rel.
  - intros H. apply bind_Ok in H as (p & H%map_err_Ok & [= <-]). apply resolved_ok in H as (? & Ho & _); [|done]. unfold policy_outcome; cbn [fst snd]. by rewrite Ho.
  - cbv zeta. intros H. apply bind_Ok in H as (p & H%map_err_Ok & [= <-]). apply ambiguous_ok in H as (? & Ho & _). unfold policy_outcome; cbn [fst snd]. by rewrite Ho.
  - by intros [= <-].
  - by intros [= <-].
Qed.

Lemma prepared_resolution_target resolution r :
  prepared_evidence_resolution evidence resolution candidate_count = Ok r →
  pe_assurance r.2 ≠ AssuredReviewed
  ∧ ∀ target, pe_target r.2 = Some target →
    match resolution with
    | Exact candidate | Automatic _ candidate | Changed candidate => target = from_candidate candidate
    | _ => False
    end.
Proof.
  unfold prepared_evidence_resolution. destruct resolution as [t|rel t|t|cs| |reason].
  1-3: intros H; apply bind_Ok in H as (p & H%map_err_Ok & [= <-]); apply resolved_ok in H as (_ & _ & Ha & Ht); [|done]; cbn; rewrite Ha, Ht;
    (split; [done|]); intros target; congruence.
  - cbv zeta. intros H. apply bind_Ok in H as (p & H%map_err_Ok & [= <-]). apply ambiguous_ok in H as (_ & _ & Ha & Ht). cbn. rewrite Ha, Ht. by split.
  - by intros [= <-].
  - by intros [= <-].
Qed.

Lemma with_rejections_spec resolution r :
  prepared_evidence_resolution_with_rejections evidence resolution candidate_count reviews = Ok r →
  consistent r ∧ from_candidates (resolution_candidates resolution) reviews r.2.
Proof.
  unfold prepared_evidence_resolution_with_rejections. cbv zeta.
  assert (∀ cs, consistent (EvIndeterminate, indeterminate candidate_count) ∧ from_candidates cs reviews (indeterminate candidate_count)) as Hind
    by (intros cs; split; [by apply indeterminate_consistent|by split]).
  destruct resolution as [t|rel t|t|cs| |reason].
  1-3: destruct (rejects_candidate reviews t) eqn:Er; [intros [= <-]; apply Hind|]; intros H;
    (split; [by eapply prepared_resolution_consistent|]); apply prepared_resolution_target in H as [Ha Ht];
    (split; [done|]); intros target ->%Ht; exists t; split_and!; [by left|done..].
  1: destruct (_ && _); [intros [= <-]; apply Hind|].
  all: intros H; (split; [by eapply prepared_resolution_consistent|]); apply prepared_resolution_target in H as [Ha Ht];
    (split; [done|]); by intros target ?%Ht.
Qed.
End resolution.

(** ** One citation *)

(** The failures the outside can cause; the others are excluded. *)
Definition outside_failure (e : LocalMemoryRevalidationError) : Prop :=
  match e with GitQuery _ | GitQueryLimitExceeded | CandidateLoad _ | RevCorrespondence _ => True | _ => False end.

Definition budget_ok (budget : GitQueryBudget) : Prop := 0 ≤ budget_used budget ≤ budget_limit budget.

(** A budget after some more queries. *)
Definition spends (budget budget' : GitQueryBudget) : Prop :=
  budget_ok budget' ∧ budget_limit budget' = budget_limit budget ∧ budget_used budget ≤ budget_used budget'.

Lemma spends_refl budget : budget_ok budget → spends budget budget.
Proof. intros H. unfold spends. by split_and!. Qed.
Lemma spends_trans b1 b2 b3 : spends b1 b2 → spends b2 b3 → spends b1 b3.
Proof. intros (_ & H1 & H2) (? & H3 & H4). unfold spends. split_and!; [done|congruence|lia]. Qed.

Lemma wp_reserve budget : budget_ok budget → wp (lift (reserve budget)) (λ b, spends budget b) outside_failure.
Proof.
  unfold budget_ok. intros Hb. apply wp_lift. unfold reserve. destruct (checked u32_max (budget_used budget + 1)) as [used|] eqn:E; [|done].
  apply checked_Some in E as [-> _]. destruct (Z.leb_spec (budget_used budget + 1) (budget_limit budget)); [|done].
  unfold spends, budget_ok. cbn. split_and!; (done || lia).
Qed.

Lemma wp_query {A} (m : ctl GitMemoryQueryError A) : wp (query m) (λ _, True) outside_failure.
Proof. intros n. unfold query, ctl_map_err. by destruct (m _ n) as [[a k]|e]. Qed.

Lemma steady_query {A} (m : ctl GitMemoryQueryError A) : steady m → steady (query m).
Proof. apply steady_map_err. by intros [] e; simpl; intros [= <-]. Qed.

(** The same candidate, perhaps with a continuity found. *)
Definition same_but_continuity (c c' : RustCorrespondenceCandidate) : Prop := c' = c ∨ c' = with_path_continuity c GitExactMove.

Lemma same_but_continuity_inv c c' reviews :
  same_but_continuity c c' →
  candidate_key c' = candidate_key c ∧ from_candidate c' = from_candidate c ∧ rejects_candidate reviews c' = rejects_candidate reviews c.
Proof. by intros [->| ->]. Qed.

Section citation.
Context (load_rust_memory_candidates : RustSymbolMemoryEvidence → result SqliteStoreError LoadedRustCandidateSet).
Context (load_memory_correspondence_reviews : bytes → bytes → Z → result SqliteStoreError LoadedCorrespondenceReviews).
Context (git : list bytes → GitPathDiscoveryLimits → result GitPathDiscoveryError ((bool * option Z) * bytes)).
Context (deadline_representable : bool).

Lemma continue_candidates_wp evidence queries source_commit target_commit cs budget :
  budget_ok budget →
  wp (ctl_fold (continue_candidate git deadline_representable evidence queries source_commit target_commit) ([], false, budget) cs)
     (λ s, Forall2 same_but_continuity cs s.1.1 ∧ spends budget s.2) outside_failure.
Proof.
  intros Hb.
  eapply wp_mono; [apply (wp_fold _ (λ s rest, ∃ done, cs = done ++ rest ∧ Forall2 same_but_continuity done s.1.1 ∧ spends budget s.2))|].
  - exists []. split_and!; [done|constructor|by apply spends_refl].
  - intros [[acc h] b] c rest (done_ & -> & Hf & Hs). cbn [fst snd] in *. unfold continue_candidate.
    assert (∀ c', same_but_continuity c c' → Forall2 same_but_continuity (done_ ++ [c]) (acc ++ [c'])) as Hsnoc
      by (intros c' Hc; apply Forall2_app; [done|by constructor]).
    destruct (negb _).
    { apply wp_ret. exists (done_ ++ [c]). rewrite <- app_assoc. split_and!; [done|by apply Hsnoc; left|done]. }
    eapply wp_bind; [apply wp_reserve, Hs|]. intros b' Hb'. eapply wp_bind; [apply wp_query|]. intros outcome _.
    apply wp_ret. exists (done_ ++ [c]). rewrite <- app_assoc. pose proof (spends_trans _ _ _ Hs Hb').
    destruct outcome; (split_and!; [done|apply Hsnoc; by (left + right)|done]).
  - intros s (done_ & Heq & H). rewrite app_nil_r in Heq. by subst done_.
Qed.

(** What a result says about the candidates and reviews of its citation. *)
Definition citation_of (record_id revision : bytes) (ordinal : Z) (evidence : RustSymbolMemoryEvidence) (r : PreparedProjectionEvidence) : Prop :=
  ∃ loaded reviews, load_rust_memory_candidates evidence = Ok loaded ∧ load_memory_correspondence_reviews record_id revision ordinal = Ok reviews
  ∧ match reviews_decision reviews with
    | Reviewed target => pe_target r = Some target ∧ pe_assurance r = AssuredReviewed
    | ReviewIndeterminate => pe_target r = None
    | ReviewNone => from_candidates (set_candidates loaded) reviews r
    end.

Context (loaded_counts : ∀ evidence loaded, load_rust_memory_candidates evidence = Ok loaded →
  set_candidate_count_before_limit loaded ≤ MAX_MEMORY_INTEROPERABLE_INTEGER).

Lemma resolve_admissible subject cs count r :
  resolve_rust_correspondence subject cs count = Ok r → candidates_admissible cs count.
Proof.
  unfold resolve_rust_correspondence, candidates_admissible. destruct (Nat.ltb_spec MAX_RUST_CORRESPONDENCE_CANDIDATES (length cs)) as [|Hl]; [done|].
  rewrite supplied_count by done. rstep. destruct (Z.ltb_spec count (Z.of_nat (length cs))) as [|Hc]; [done|]. cbv zeta. fold (ordered_candidates cs).
  destruct (any_adjacent _ (ordered_candidates cs)) eqn:Ea; [done|]. apply duplicate_candidates in Ea. done.
Qed.

Lemma resolution_from subject cs count r :
  resolve_rust_correspondence subject cs count = Ok r →
  (∀ c, c ∈ resolution_candidates r → c ∈ cs)
  ∧ match r with
    | Correspondence.NeedsReview l => l ≠ [] ∧ (length l ≤ MAX_RUST_CORRESPONDENCE_CANDIDATES)%nat ∧ NoDup (map candidate_key l)
    | _ => True
    end.
Proof.
  intros H. pose proof (resolve_admissible _ _ _ _ H) as Ha. destruct (resolution_describes subject cs count Ha) as (r' & Hr & Hd).
  rewrite H in Hr. injection Hr as <-. destruct Ha as (Hl & _ & Hnd).
  destruct r as [t|rel t|t|l| |[]]; cbn [resolution_candidates describes] in *; try (by split; [intros c ?%elem_of_nil|]).
  - destruct Hd as [_ [Ht _]]. split; [by intros c ->%list_elem_of_singleton|done].
  - split; [|done]. intros c ->%list_elem_of_singleton. by destruct rel, Hd as (_ & _ & [Ht _] & _).
  - split; [|done]. intros c ->%list_elem_of_singleton. by destruct Hd as (_ & _ & _ & [Ht _]).
  - destruct Hd as [_ Hd].
    assert (l ≠ [] ∧ ∃ P, several cs P l) as [Hne (P & Hk & Hin)].
    { destruct Hd as [(? & ?)|[(_ & ? & ?)|[(_ & _ & ? & ?)|(_ & _ & _ & ? & ?)]]]; (split; [|by eexists]); try done; intros ->; simpl in *; lia. }
    assert (∀ c, c ∈ l → c ∈ cs) as Hsub by (intros c ?%Hin; tauto). split; [done|].
    assert (NoDup (map candidate_key l)) as Hndl by (by apply bset_wf_NoDup). split_and!; [done| |done].
    assert (length l ≤ length cs)%nat; [|lia]. apply submseteq_length, NoDup_submseteq; [by eapply NoDup_fmap_1|done].
Qed.
End citation.

(** Distinct candidates can always be put to review. *)
Lemma ambiguous_total (candidates : list PreparedProjectionCandidate) (key : PreparedProjectionCandidate → bytes * (bytes * Z)) :
  (∀ c, key c = (occ_path (pc_occurrence c), (occ_artifact (pc_occurrence c), occ_fact_ordinal (pc_occurrence c)))) →
  candidates ≠ [] → (length candidates ≤ MAX_RUST_CORRESPONDENCE_CANDIDATES)%nat → NoDup (map key candidates) →
  ∃ prepared, ambiguous candidates = Ok prepared.
Proof.
  intros Hk Hne Hl Hnd. unfold ambiguous. rewrite bool_decide_eq_false_2 by done. cbn [orb].
  destruct (Nat.ltb_spec MAX_RUST_CORRESPONDENCE_CANDIDATES (length candidates)); [lia|].
  assert (∀ l r, occurrence_order (pc_occurrence l) (pc_occurrence r) = cmp (key l) (key r)) as Ho.
  { intros l r. rewrite !Hk. unfold occurrence_order. apply then_with_assoc. }
  rewrite (sort_by_ext _ (λ l r, cmp (key l) (key r)) candidates Ho).
  assert (any_adjacent (λ l r, is_eq (occurrence_order (pc_occurrence l) (pc_occurrence r))) (sort_by (λ l r, cmp (key l) (key r)) candidates) = false) as ->.
  { apply (any_adjacent_sort key); [|done]. intros l r. rewrite Ho. destruct (cmp (key l) (key r)) eqn:E; simpl; [by apply cmp_eq in E|..];
      (split; [done|]); intros Heq; rewrite Heq, cmp_refl in E; done. }
  rewrite candidate_count_fits by (by rewrite length_sort_by). by eexists.
Qed.

Definition reviewable (resolution : RustCorrespondenceResolution) : Prop :=
  match resolution with
  | Correspondence.NeedsReview l => l ≠ [] ∧ (length l ≤ MAX_RUST_CORRESPONDENCE_CANDIDATES)%nat ∧ NoDup (map candidate_key l)
  | _ => True
  end.

Lemma prepared_resolution_total evidence resolution count :
  reviewable resolution → ∃ r, prepared_evidence_resolution evidence resolution count = Ok r.
Proof.
  unfold prepared_evidence_resolution. destruct resolution as [t|[] t|t|l| |reason]; cbn [reviewable]; try by eexists.
  intros (Hne & Hl & Hnd). cbv zeta. match goal with |- context [map ?f l] => set (prepare := f) end.
  destruct (ambiguous_total (map prepare l) (λ c, (occ_path (pc_occurrence c), (occ_artifact (pc_occurrence c), occ_fact_ordinal (pc_occurrence c)))))
    as [p Hp]; [done|by destruct l|by rewrite length_map|by rewrite map_map|]. rewrite Hp. by eexists.
Qed.

Lemma with_rejections_total evidence resolution count reviews :
  reviewable resolution → ∃ r, prepared_evidence_resolution_with_rejections evidence resolution count reviews = Ok r.
Proof.
  intros Hr. unfold prepared_evidence_resolution_with_rejections. cbv zeta.
  destruct resolution as [t|rel t|t|l| |reason]; try (destruct (rejects_candidate reviews t); [by eexists|]); try by apply prepared_resolution_total.
  destruct Hr as (Hne & Hl & Hnd). set (kept := filter _ l). destruct (bool_decide (kept = [])) eqn:Ek; cbn [andb].
  - destruct (Nat.eqb_spec (length l) 0) as [Hz|]; [by destruct l|]. by eexists.
  - apply bool_decide_eq_false in Ek. apply prepared_resolution_total. split_and!; [done| |].
    + pose proof (length_filter (λ candidate, rejects_candidate reviews candidate = false) l). unfold kept. lia.
    + unfold kept. change (NoDup (candidate_key <$> l)) in Hnd. eapply sublist_NoDup; [exact Hnd|].
      apply fmap_sublist, sublist_filter.
Qed.

Section rust_evidence.
Context (load_rust_memory_candidates : RustSymbolMemoryEvidence → result SqliteStoreError LoadedRustCandidateSet).
Context (load_memory_correspondence_reviews : bytes → bytes → Z → result SqliteStoreError LoadedCorrespondenceReviews).
Context (git : list bytes → GitPathDiscoveryLimits → result GitPathDiscoveryError ((bool * option Z) * bytes)).
Context (deadline_representable : bool).
Context (loaded_counts : ∀ evidence loaded, load_rust_memory_candidates evidence = Ok loaded →
  set_candidate_count_before_limit loaded ≤ MAX_MEMORY_INTEROPERABLE_INTEGER).

Notation evaluate := (evaluate_rust_evidence load_rust_memory_candidates load_memory_correspondence_reviews git deadline_representable).
Notation cited := (citation_of load_rust_memory_candidates load_memory_correspondence_reviews).

Lemma continued_candidates cs cs' subject count resolution reviews :
  Forall2 same_but_continuity cs cs' → resolve_rust_correspondence subject cs' count = Ok resolution →
  ∀ r, from_candidates (resolution_candidates resolution) reviews r → from_candidates cs reviews r.
Proof.
  intros Hf Hr r [Ha Ht]. split; [done|]. intros target (c & Hc & -> & Hrej)%Ht.
  apply resolution_from in Hr as [Hsub _]. apply Hsub in Hc. apply list_elem_of_lookup in Hc as [i Hi].
  destruct (Forall2_lookup_r _ _ _ _ _ Hf Hi) as (c0 & Hi0 & Hsame). apply (same_but_continuity_inv _ _ reviews) in Hsame as (_ & He & Hj).
  exists c0. split_and!; [by eapply list_elem_of_lookup_2|done|congruence].
Qed.

Lemma evaluate_rust_evidence_wp record_id revision ordinal approval evidence queries head budget :
  budget_ok budget →
  wp (evaluate record_id revision ordinal approval evidence queries head budget)
     (λ s, consistent s.1 ∧ cited record_id revision ordinal evidence s.1.2 ∧ spends budget s.2) outside_failure.
Proof.
  intros Hb. unfold evaluate_rust_evidence. destruct (load_rust_memory_candidates evidence) as [loaded|e] eqn:Eload; [|by intros n].
  eapply wp_lift_bind; [done|]. cbv zeta. destruct (load_memory_correspondence_reviews _ _ _) as [reviews|e] eqn:Ereviews; [|by intros n].
  eapply wp_lift_bind; [done|]. pose proof (loaded_counts evidence loaded Eload) as Hcount. pose proof (spends_refl budget Hb).
  assert (∀ r, match reviews_decision reviews with
               | Reviewed target => pe_target r = Some target ∧ pe_assurance r = AssuredReviewed
               | ReviewIndeterminate => pe_target r = None
               | ReviewNone => from_candidates (set_candidates loaded) reviews r
               end → cited record_id revision ordinal evidence r) as Hcited by (intros r Hr; exists loaded, reviews; by split_and!).
  destruct (reviews_decision reviews) as [|target|] eqn:Ed.
  2:{ apply wp_ret. split_and!; [|by apply Hcited|done]. split; [|done]. by split_and!. }
  2:{ apply wp_ret. split_and!; [by apply indeterminate_consistent|by apply Hcited|done]. }
  destruct (subject_try_new _ _ _ _ _ _) as [subject|e]; [|by intros n]. eapply wp_lift_bind; [done|].
  eapply (wp_bind _ _ (λ s, Forall2 same_but_continuity (set_candidates loaded) s.1.1 ∧ spends budget s.2)).
  { assert (Forall2 same_but_continuity (set_candidates loaded) (set_candidates loaded)) as Hrefl by (apply Forall_Forall2_diag, Forall_forall; by left).
    repeat case_match; try (apply wp_ret; by split). by apply continue_candidates_wp. }
  intros [[cs history] b'] [Hf Hs]. cbn [fst snd] in *. destruct history.
  { apply wp_ret. split_and!; [by apply indeterminate_consistent|apply Hcited; by split|done]. }
  destruct (resolve_rust_correspondence subject cs _) as [resolution|e] eqn:Er; [|by intros n]. eapply wp_lift_bind; [done|].
  destruct (with_rejections_total evidence resolution (set_candidate_count_before_limit loaded) reviews) as [r Hr].
  { pose proof (resolution_from _ _ _ _ Er) as [_ H']. exact H'. }
  eapply wp_lift_bind; [exact Hr|]. apply with_rejections_spec in Hr as [Hc Hfrom]; [|done]. apply wp_ret.
  split_and!; [done|apply Hcited; by eapply continued_candidates|done].
Qed.

Lemma evaluate_rust_evidence_steady record_id revision ordinal approval evidence queries head budget :
  steady (evaluate record_id revision ordinal approval evidence queries head budget).
Proof.
  unfold evaluate_rust_evidence, continue_candidate. pose proof (@steady_query) as Hq. pose proof exact_path_continuity_steady as Hg.
  repeat first [progress solve_steady|apply Hq, Hg].
Qed.
End rust_evidence.

(** ** Automatic targets are exclusive *)

Definition merged_result (target : ProjectionOccurrence) : PreparedProjectionEvidence :=
  {| pe_outcome := ProjAmbiguous; pe_assurance := AssuredNone; pe_target := None; pe_candidate_coverage_complete := true;
     pe_candidate_count_before_limit := 1; pe_candidates := [{| pc_occurrence := target; pc_relation := RelationMerged |}] |}.

Lemma merged_result_ok target : consistent (EvNeedsReview, merged_result target).
Proof. split; [|done]. split; [done|]. split_and!; try done. simpl. unfold MAX_RUST_CORRESPONDENCE_CANDIDATES. lia. Qed.

(** The occurrence that an evidence result names automatically is named by no other. *)
Definition exclusive (evs : list PreparedProjectionEvidence) : Prop :=
  ∀ i j r r' target, evs !! i = Some r → evs !! j = Some r' → i ≠ j →
    pe_assurance r = AssuredAutomatic → pe_target r = Some target → pe_target r' ≠ Some target.

Lemma merged_target_spec evs ordinal target :
  (ordinal, target) ∈ merged_targets evs ↔
  ∃ r, evs !! ordinal = Some r ∧ pe_assurance r = AssuredAutomatic ∧ pe_target r = Some target
       ∧ ∃ j r', evs !! j = Some r' ∧ j ≠ ordinal ∧ pe_target r' = Some target.
Proof.
  assert (∀ target' i, existsb (λ '(j, r'), negb (j =? i)%nat && bool_decide (pe_target r' = Some target')) (imap pair evs) = true ↔
            ∃ j r', evs !! j = Some r' ∧ j ≠ i ∧ pe_target r' = Some target') as Hex.
  { intros target' i. rewrite existsb_exists. split.
    - intros ([j r'] & Hin%list_elem_of_In & H). apply elem_of_lookup_imap in Hin as (j' & r0 & [= <- <-] & Hj).
      apply andb_true_iff in H as [H1%negb_true_iff%Nat.eqb_neq H2%bool_decide_eq_true]. eauto.
    - intros (j & r' & Hj & Hne & Ht). exists (j, r'). split.
      + apply list_elem_of_In, elem_of_lookup_imap. eauto.
      + apply andb_true_iff. split; [by apply negb_true_iff, Nat.eqb_neq|by apply bool_decide_eq_true]. }
  unfold merged_targets. rewrite list_elem_of_omap. split.
  - intros ([i r] & Hin & H). apply elem_of_lookup_imap in Hin as (i' & r0 & [= <- <-] & Hi).
    case_bool_decide as Ha; [|done]. cbn [negb] in H. destruct (pe_target r) as [t|] eqn:Et; [|done]. cbn [mbind option_bind] in H.
    destruct (existsb _ _) eqn:Ee; [|done]. injection H as -> ->. apply Hex in Ee. eauto 6.
  - intros (r & Hi & Ha & Ht & Hj%Hex). exists (ordinal, r). split; [apply elem_of_lookup_imap; eauto|].
    rewrite bool_decide_eq_true_2 by done. cbn [negb]. rewrite Ht. cbn [mbind option_bind]. by rewrite Hj.
Qed.

(** The results with the merged ones put to review. *)
Definition after_merges (merged : list (nat * ProjectionOccurrence)) (evs : list PreparedProjectionEvidence) : list PreparedProjectionEvidence :=
  foldl (λ evs m, <[m.1 := merged_result m.2]> evs) evs merged.
Definition outcomes_after (merged : list (nat * ProjectionOccurrence)) (outcomes : list MemoryEvidenceOutcome) : list MemoryEvidenceOutcome :=
  foldl (λ os m, <[m.1 := EvNeedsReview]> os) outcomes merged.

Lemma reject_many_to_one_total outcomes evs :
  length outcomes = length evs →
  reject_automatic_many_to_one outcomes evs = Ok (outcomes_after (merged_targets evs) outcomes, after_merges (merged_targets evs) evs).
Proof.
  intros Hl. unfold reject_automatic_many_to_one. rewrite Hl, Nat.eqb_refl. cbn [negb].
  generalize (merged_targets evs). intros merged. clear Hl. revert outcomes evs.
  induction merged as [|[i t] merged IH]; intros outcomes evs; [done|]. cbn [try_fold].
  assert (reject_merged (outcomes, evs) (i, t) = Ok (<[i := EvNeedsReview]> outcomes, <[i := merged_result t]> evs)) as -> by done.
  apply IH.
Qed.

Lemma after_merges_lookup merged evs i r :
  after_merges merged evs !! i = Some r →
  (evs !! i = Some r ∧ ∀ m, m ∈ merged → m.1 ≠ i) ∨ ∃ m, m ∈ merged ∧ m.1 = i ∧ r = merged_result m.2.
Proof.
  unfold after_merges. induction merged as [|m merged IH] using rev_ind; [intros; left; split; [done|by intros ? ?%elem_of_nil]|].
  rewrite foldl_app. cbn [foldl]. intros [(Hi & Hr & _)|[Hne H]]%list_lookup_insert_Some.
  - right. exists m. rewrite elem_of_app, list_elem_of_singleton. auto.
  - apply IH in H as [[H Hm]|(m' & Hm' & ?)].
    + left. split; [done|]. intros m' [Hm'| ->%list_elem_of_singleton]%elem_of_app; [by apply Hm|done].
    + right. exists m'. rewrite elem_of_app. auto.
Qed.

Lemma after_merges_exclusive evs : exclusive (after_merges (merged_targets evs) evs).
Proof.
  intros i j r r' target Hi Hj Hne Ha Ht Ht'.
  apply after_merges_lookup in Hi as [[Hi Hn]|([? ?] & _ & _ & ->)]; [|done]. apply after_merges_lookup in Hj as [[Hj _]|([? ?] & _ & _ & ->)]; [|done].
  assert ((i, target) ∈ merged_targets evs) as Hm; [|by apply (Hn _ Hm)].
  apply merged_target_spec. exists r. split_and!; [done..|]. exists j, r'. by split_and!.
Qed.

Lemma after_merges_length merged evs : length (after_merges merged evs) = length evs.
Proof. unfold after_merges. revert evs. induction merged as [|m merged IH]; intros evs; [done|]. simpl. by rewrite IH, length_insert. Qed.

(** Outcomes and results stay consistent, and a result keeps its target or loses it. *)
Lemma after_merges_consistent merged outcomes evs :
  Forall2 (λ o r, consistent (o, r)) outcomes evs → Forall2 (λ o r, consistent (o, r)) (outcomes_after merged outcomes) (after_merges merged evs).
Proof.
  unfold outcomes_after, after_merges. revert outcomes evs. induction merged as [|[i t] merged IH]; intros outcomes evs Hf; [done|]. simpl.
  apply IH, Forall2_insert; [done|apply merged_result_ok].
Qed.

(** ** The policy *)

(** A decision that was taken without looking at the evidence. *)
Definition unevaluated (record : MemoryRecord) (d : MemoryProjectionDecision) : Prop :=
  dec_evidence_state d = AggregateNotEvaluated ∧ dec_evidence_count d = Z.of_nat (length (rec_evidence record))
  ∧ dec_resolved_count d = 0 ∧ dec_review_count d = 0 ∧ dec_indeterminate_count d = 0 ∧ dec_effective_state d ≠ StateCurrent.

Section policy.
Context (record : MemoryRecord) (Hcited : Z.of_nat (length (rec_evidence record)) ≤ MAX_MEMORY_EVIDENCE).

Lemma procedure_guard :
  (rec_schema_version record =? 2) && bool_decide (claim_kind (rec_claim record) = Procedure) && bool_decide (rec_lifecycle record = Active)
  = true ↔ unverified_procedure record.
Proof. unfold unverified_procedure. rewrite !andb_true_iff, Z.eqb_eq, !bool_decide_eq_true. tauto. Qed.

(** An unverified procedure, whatever was evaluated. *)
Lemma procedure_unevaluated validity outcomes :
  unverified_procedure record → ∃ d, evaluate_memory_projection record validity outcomes = Some (Ok d) ∧ unevaluated record d.
Proof.
  intros Hp%procedure_guard. unfold evaluate_memory_projection, MAX_MEMORY_EVIDENCE in *.
  destruct (Z.ltb_spec 16 (Z.of_nat (length (rec_evidence record)))); [lia|]. rewrite Hp.
  rewrite decision_Ok by (unfold u32_max; lia). eexists. split; [done|]. by split_and!.
Qed.

(** A record that is not active, or does not apply. *)
Lemma authored_unevaluated :
  rec_lifecycle record ≠ Active → ∃ d, evaluate_memory_projection record None [] = Some (Ok d) ∧ unevaluated record d.
Proof.
  intros Ha. unfold evaluate_memory_projection, MAX_MEMORY_EVIDENCE in *.
  destruct (Z.ltb_spec 16 (Z.of_nat (length (rec_evidence record)))); [lia|].
  rewrite (bool_decide_eq_false_2 _ Ha), andb_false_r. cbn [negb orb]. unfold authored_lifecycle_decision.
  destruct (authored_state_Some _ Ha) as (s & r & -> & Hc). cbn [mbind option_bind]. rewrite decision_Ok by (unfold u32_max; lia).
  eexists. split; [done|]. by split_and!.
Qed.

Lemma excluded_unevaluated validity :
  rec_lifecycle record = Active → validity ≠ ProjectValid →
  ∃ d, evaluate_memory_projection record (Some validity) [] = Some (Ok d) ∧ unevaluated record d.
Proof.
  intros Ha Hv. destruct (decide (unverified_procedure record)) as [Hp|Hp]; [by apply procedure_unevaluated|].
  unfold evaluate_memory_projection, MAX_MEMORY_EVIDENCE in *.
  destruct (Z.ltb_spec 16 (Z.of_nat (length (rec_evidence record)))); [lia|].
  rewrite <- procedure_guard in Hp. destruct (_ && _ && _); [done|]. rewrite (bool_decide_eq_true_2 _ Ha). cbn [negb].
  destruct validity; [done|..]; rewrite bool_decide_eq_true_2 by done; rewrite decision_Ok by (unfold u32_max; lia);
    (eexists; split; [done|]; by split_and!).
Qed.

Lemma unevaluated_ok revision d : unevaluated record d → record_ok {| pr_record_id := hdr_record_id (rec_header record); pr_kind := Evaluated revision d [] |}.
Proof.
  intros (Hs & Hc & Hr & Hv & Hi & _). unfold record_ok. cbn. rewrite bool_decide_eq_true_2 by done. rewrite Hc, Hr, Hv, Hi. by split_and!.
Qed.

Lemma filter_policy (P : MemoryEvidenceOutcome → Prop) `{!∀ o, base.Decision (P o)} (test : PreparedProjectionEvidence → bool) outcomes evs :
  (∀ r, test r = true ↔ P (policy_outcome r)) → Forall2 (λ o r, consistent (o, r)) outcomes evs →
  Z.of_nat (length (filter P outcomes)) = tally test evs.
Proof.
  intros Ht. induction 1 as [|o r outcomes evs [_ Ho] _ IH]; [done|]. cbn in Ho. rewrite tally_cons, filter_cons. pose proof (Ht r) as Hr. rewrite <- Ho in Hr.
  case_decide as Hd; destruct (test r); cbn [length]; [lia|by apply Hr in Hd|by destruct Hd; apply Hr|lia].
Qed.

(** A record that applies is decided on its evidence, and holds together with its results. *)
Lemma evaluated_evidence revision outcomes evs :
  rec_lifecycle record = Active → ¬ unverified_procedure record → length outcomes = length (rec_evidence record) →
  Forall2 (λ o r, consistent (o, r)) outcomes evs →
  ∃ d, evaluate_memory_projection record (Some ProjectValid) outcomes = Some (Ok d)
       ∧ record_ok {| pr_record_id := hdr_record_id (rec_header record); pr_kind := Evaluated revision d evs |}
       ∧ (dec_effective_state d = StateCurrent → Forall (λ r, resolved_result r = true) evs).
Proof.
  intros Ha Hp Hl Hf. unfold evaluate_memory_projection, MAX_MEMORY_EVIDENCE in *.
  destruct (Z.ltb_spec 16 (Z.of_nat (length (rec_evidence record)))); [lia|].
  rewrite <- procedure_guard in Hp. destruct (_ && _ && _); [done|]. rewrite (bool_decide_eq_true_2 _ Ha). cbn [negb]. rewrite Hl, Nat.eqb_refl.
  destruct (evaluate_valid_evidence_spec outcomes) as (d & Hd & _ & _ & _ & _ & Hst); [unfold MAX_MEMORY_EVIDENCE; lia|].
  rewrite Hd. exists d. split; [done|]. split.
  - assert (dec_evidence_state d ≠ AggregateNotEvaluated ∧ dec_evidence_count d = Z.of_nat (length outcomes)
            ∧ dec_resolved_count d = Z.of_nat (length (filter (λ o, o = EvExact ∨ o = EvCorresponded) outcomes))
            ∧ dec_review_count d = Z.of_nat (length (filter (λ o, o = EvNeedsReview) outcomes))
            ∧ dec_indeterminate_count d = Z.of_nat (length (filter (λ o, o = EvIndeterminate) outcomes))) as (Hs & Hc & Hr & Hv & Hi).
    { pose proof (outcome_partition outcomes) as Hpart. unfold evaluate_valid_evidence in Hd. revert Hd.
      destruct (contains EvIndeterminate outcomes), (contains EvNeedsReview outcomes), (contains EvChanged outcomes), (contains EvMissing outcomes),
        (contains EvCorresponded outcomes); cbv iota beta; rewrite decision_Ok by (unfold u32_max; lia); intros [= <-]; by split_and!. }
    unfold record_ok. cbn. rewrite bool_decide_eq_false_2 by done. pose proof (Forall2_length _ _ _ Hf) as Hlen.
    split_and!; [unfold MAX_MEMORY_EVIDENCE; lia|lia| |rewrite Hr|rewrite Hv|rewrite Hi].
    + eapply Forall2_Forall_r; [exact Hf|]. apply Forall_forall. by intros o _ r [? _].
    + apply filter_policy; [|done]. intros r. unfold resolved_result, policy_outcome. destruct (pe_outcome r); naive_solver.
    + apply filter_policy; [|done]. intros r. unfold review_result, policy_outcome. rewrite bool_decide_eq_true. destruct (pe_outcome r); naive_solver.
    + apply filter_policy; [|done]. intros r. unfold indeterminate_result, policy_outcome. rewrite bool_decide_eq_true. destruct (pe_outcome r); naive_solver.
  - intros Hcur. rewrite Hcur in Hst. eapply Forall2_Forall_r; [exact Hf|]. eapply Forall_impl; [exact Hst|].
    intros o Ho r [_ Hor]. cbn in Hor. unfold policy_outcome, resolved_result in *. destruct (pe_outcome r); naive_solver.
Qed.
End policy.
