(* ===== verification/RevalidationRecords.v ===== *)
(** * The records of memory revalidation

    What [Revalidation] publishes of a journal: a record is decided from all its versions, a
    current one for the reasons [current_because] lists, and a rebuild that publishes saw the
    source unchanged.  The preparation panics on a record without a head, and an approved
    procedure that applies to the project keeps the projection from being published. *)

From Stdlib Require Import ZArith Lia ZifyBool.
From Stdlib Require Import Strings.Byte.
From stdpp Require Import base numbers sorting list.
From S2P Require Import Prelude Ordering Utf8 RepositoryPath GitPaths SourceState GraphIdentity SymbolFacts Correspondence.
From S2P Require Import IdentityText SourceCapture MemoryRecord MemoryValidity MemoryProjection GitMemory ProjectionStore MemoryReviews.
From S2P Require Import Revalidation RevalidationEvidence.

Open Scope Z_scope.

(** ** One record *)

Definition validity_sound (v : MemoryValidity) : Prop :=
  match v with
  | ValidCommits i d => NoDup (i ++ d) ∧ Z.of_nat (length (i ++ d)) ≤ MAX_MEMORY_ANCESTRY_CHECKS
  | ValidWorktree _ => True
  end.

(** What a version of the journal satisfies, a record being well formed. *)
Record version_sound (version : LoadedMemoryVersion) : Prop := {
  sound_evidence : Z.of_nat (length (rec_evidence (loaded_record version))) ≤ MAX_MEMORY_EVIDENCE;
  sound_header : header_wf (rec_header (loaded_record version));
  sound_validity : validity_sound (rec_validity (loaded_record version));
}.

Section record.
Context (load_rust_memory_candidates : RustSymbolMemoryEvidence → result SqliteStoreError LoadedRustCandidateSet).
Context (load_memory_correspondence_reviews : bytes → bytes → Z → result SqliteStoreError LoadedCorrespondenceReviews).
Context (git : list bytes → GitPathDiscoveryLimits → result GitPathDiscoveryError ((bool * option Z) * bytes)).
Context (deadline_representable : bool).
Context (loaded_counts : ∀ evidence loaded, load_rust_memory_candidates evidence = Ok loaded →
  set_candidate_count_before_limit loaded ≤ MAX_MEMORY_INTEROPERABLE_INTEGER).
Context (source : MemoryProjectionSource) (target : MemoryRevalidationTarget) (queries : option GitMemoryQueries) (head : option MemoryCommitId).
Context (Htarget : ancestry_target target = head) (Hqueries : is_Some head → is_Some queries).

Notation cited := (citation_of load_rust_memory_candidates load_memory_correspondence_reviews).

Lemma wp_query_answer {A} (m : ctl GitMemoryQueryError A) : steady m → wp (query m) (λ a, run never m = Ok a) outside_failure.
Proof.
  intros (_ & _ & Ho) n. unfold query, ctl_map_err. change (λ k, never k ≫= query_control) with (never (E := GitMemoryQueryError)).
  specialize (Ho n 0%nat). unfold run. destruct (m never n) as [[a k]|e], (m never 0%nat) as [[a' k']|e']; cbn in *; (done || congruence).
Qed.

(** The check of a commit, as Git answered it. *)
Definition answered (checks : list MemoryAncestryCheck) : Prop :=
  ∀ check, check ∈ checks → ∃ q, queries = Some q ∧
    run never (is_ancestor git deadline_representable q (check_ancestor check) (check_descendant check)) = Ok (check_outcome check).

(** The validity that the answers give the record. *)
Definition judged (record : MemoryRecord) (validity : MemoryProjectValidity) : Prop :=
  ∃ checks, answered checks ∧ evaluate_memory_project_validity (rec_validity record) target checks = Some (Ok validity).

Lemma project_validity_wp record budget :
  budget_ok budget → validity_sound (rec_validity record) →
  wp (project_validity git deadline_representable record target queries head budget)
     (λ s, judged record s.1 ∧ spends budget s.2) outside_failure.
Proof.
  intros Hb Hv. unfold project_validity, judged. pose proof (spends_refl budget Hb) as Hrefl.
  assert (answered []) as Hnil by (by intros c ?%elem_of_nil).
  destruct (rec_validity record) as [i d|snapshot].
  2:{ apply (wp_evals_bind _ _ ([], budget)); [by intros n|]. cbv iota beta. unfold evaluate_memory_project_validity.
      eapply wp_lift_bind; [done|]. apply wp_ret. split; [|done]. by exists []. }
  destruct head as [descendant|] eqn:Eh.
  2:{ apply (wp_evals_bind _ _ ([], budget)); [by intros n|]. cbv iota beta.
      assert (evaluate_memory_project_validity (ValidCommits i d) target [] = Some (Ok ProjectIndeterminate)) as He.
      { unfold evaluate_memory_project_validity. by rewrite Htarget. }
      rewrite He. eapply wp_lift_bind; [done|]. apply wp_ret. split; [|done]. by exists []. }
  destruct Hqueries as [q Hq]; [done|]. destruct Hv as [Hnd Hlen]. rewrite Hq.
  eapply (wp_bind _ _ (λ s, answered s.1 ∧ checks_complete i d descendant s.1 ∧ spends budget s.2)).
  { eapply wp_lift_bind; [done|]. eapply wp_mono.
    - apply (wp_fold _ (λ s rest, ∃ done, i ++ d = done ++ rest ∧ check_ancestor <$> s.1 = done
        ∧ Forall (λ check, check_descendant check = descendant) s.1 ∧ answered s.1 ∧ spends budget s.2)).
      + exists []. split_and!; done.
      + intros [checks b] ancestor rest (done_ & Heq & Ha & Hd & Hans & Hs). cbn [fst snd] in *. unfold check_ancestry.
        eapply wp_bind; [apply wp_reserve, Hs|]. intros b' Hb'. eapply wp_bind; [apply wp_query_answer, is_ancestor_steady|].
        intros outcome Ho. apply wp_ret. cbn [fst snd]. exists (done_ ++ [ancestor]). split_and!.
        * by rewrite <- app_assoc.
        * by rewrite fmap_app, Ha.
        * apply Forall_app. split; [done|]. by apply Forall_singleton.
        * intros c [Hc| ->%list_elem_of_singleton]%elem_of_app; [by apply Hans|]. by exists q.
        * by eapply spends_trans.
    - intros [checks b] (done_ & Heq & Ha & Hd & Hans & Hs). rewrite app_nil_r in Heq. split_and!; [done| |done]. split; [done|]. cbn [fst] in *. by rewrite Ha, Heq. }
  intros [checks b] (Hans & Hc & Hs). cbn [fst snd] in *.
  destruct (evaluate_complete i d descendant checks Hnd Hc target) as (v & He & _); [done| |].
  { rewrite <- (length_fmap check_ancestor), (Permutation_length (cc_ancestors _ _ _ _ Hc)). done. }
  rewrite He. eapply wp_lift_bind; [done|]. apply wp_ret. split; [|done]. by exists checks.
Qed.

(** The results of the citations of a record, each from its own candidates and reviews. *)
Definition citations_of (version : LoadedMemoryVersion) (evs : list PreparedProjectionEvidence) : Prop :=
  ∀ i r, evs !! i = Some r → ∃ evidence, rec_evidence (loaded_record version) !! i = Some evidence
    ∧ cited (loaded_record_id version) (loaded_revision version) (Z.of_nat i) evidence r.

Lemma citations_wp version budget :
  budget_ok budget → version_sound version →
  wp (ctl_fold (evaluate_citation load_rust_memory_candidates load_memory_correspondence_reviews git deadline_representable version queries head)
        ([], [], budget) (imap pair (rec_evidence (loaded_record version))))
     (λ s, length s.1.1 = length (rec_evidence (loaded_record version)) ∧ Forall2 (λ o r, consistent (o, r)) s.1.1 s.1.2
           ∧ citations_of version s.1.2 ∧ spends budget s.2) outside_failure.
Proof.
  intros Hb Hv. set (evs := rec_evidence (loaded_record version)).
  eapply wp_mono.
  - apply (wp_fold _ (λ s rest, ∃ done todo, evs = done ++ todo ∧ rest = imap (λ k, pair (length done + k)%nat) todo
      ∧ length s.1.1 = length done ∧ Forall2 (λ o r, consistent (o, r)) s.1.1 s.1.2 ∧ citations_of version s.1.2 ∧ spends budget s.2)).
    + exists [], evs. split_and!; [done|done|done|constructor|by intros i r Hi|by apply spends_refl].
    + intros [[outcomes results] b] [k evidence] rest (done_ & todo & Heq & Hrest & Hl & Hf & Hc & Hs). cbn [fst snd] in *.
      destruct todo as [|evidence' todo]; [done|]. cbn [imap] in Hrest. injection Hrest as -> -> Hrest. rewrite Nat.add_0_r.
      unfold evaluate_citation. apply wp_check_bind.
      assert (length done_ < length evs)%nat as Hlt by (rewrite Heq, length_app; simpl; lia). pose proof (sound_evidence _ Hv) as H16. fold evs in H16.
      unfold MAX_MEMORY_EVIDENCE in H16. eapply wp_lift_bind; [by rewrite checked_in by lia|].
      eapply wp_bind; [apply evaluate_rust_evidence_wp; [done|apply Hs]|]. intros [[outcome prepared] b'] (Hcons & Hcite & Hs'). cbn [fst snd] in *.
      apply wp_ret. cbn [fst snd]. exists (done_ ++ [evidence']), todo. split_and!.
      * by rewrite <- app_assoc.
      * rewrite Hrest. apply imap_ext. intros j x _. simpl. f_equal. rewrite length_app. simpl. lia.
      * rewrite !length_app, Hl. done.
      * apply Forall2_app; [done|by constructor].
      * intros i r Hi. apply lookup_app_Some in Hi as [Hi|[Hge Hi]]; [by apply Hc|].
        apply list_lookup_singleton_Some in Hi as [Hi ->]. apply Forall2_length in Hf. exists evidence'.
        assert (i = length done_) as -> by lia. split; [|done]. fold evs. rewrite Heq. by apply list_lookup_middle.
      * by eapply spends_trans.
  - intros [[outcomes results] b] (done_ & todo & Heq & Hrest & Hl & Hf & Hc & Hs). destruct todo; [|done]. rewrite app_nil_r in Heq. subst done_. by split_and!.
Qed.

(** A target of a result is backed by the candidates and reviews of its own citation. *)
Definition supported (version : LoadedMemoryVersion) (evs : list PreparedProjectionEvidence) : Prop :=
  ∀ i r, evs !! i = Some r → pe_target r ≠ None → ∃ evidence, rec_evidence (loaded_record version) !! i = Some evidence
    ∧ cited (loaded_record_id version) (loaded_revision version) (Z.of_nat i) evidence r.

Lemma supported_after version merged evs : citations_of version evs → supported version (after_merges merged evs).
Proof. intros Hc i r [[Hi _]|([? ?] & _ & _ & ->)]%after_merges_lookup Ht; [by apply Hc|done]. Qed.

(** What makes a record current: it is active, applies to the project, and each citation is
    resolved, to its own candidates or as reviewed. *)
Record current_because (version : LoadedMemoryVersion) (evs : list PreparedProjectionEvidence) : Prop := {
  current_active : rec_lifecycle (loaded_record version) = Active;
  current_valid : judged (loaded_record version) ProjectValid;
  current_complete : length evs = length (rec_evidence (loaded_record version));
  current_resolved : Forall (λ r, resolved_result r = true) evs;
}.

(** The citations are evaluated just when the record is active and applies to the project. *)
Definition results_of (version : LoadedMemoryVersion) (evs : list PreparedProjectionEvidence) : Prop :=
  let record := loaded_record version in
  evs = [] ∧ (rec_lifecycle record ≠ Active ∨ ∃ validity, validity ≠ ProjectValid ∧ judged record validity)
  ∨ length evs = length (rec_evidence record) ∧ rec_lifecycle record = Active ∧ judged record ProjectValid.

(** The decision holds together with the results, but that of a procedure states none. *)
Definition evaluation (version : LoadedMemoryVersion) (kind : PreparedProjectionRecordKind) : Prop :=
  ∃ d evs, kind = Evaluated (loaded_revision version) d evs ∧ results_of version evs
    ∧ (unverified_procedure (loaded_record version) → unevaluated (loaded_record version) d)
    ∧ (¬ unverified_procedure (loaded_record version) → record_ok {| pr_record_id := loaded_record_id version; pr_kind := kind |})
    ∧ exclusive evs ∧ supported version evs ∧ (dec_effective_state d = StateCurrent → current_because version evs).

Lemma unevaluated_evaluation version d :
  Z.of_nat (length (rec_evidence (loaded_record version))) ≤ MAX_MEMORY_EVIDENCE →
  unevaluated (loaded_record version) d → results_of version [] → evaluation version (Evaluated (loaded_revision version) d []).
Proof.
  intros Hl Hd Hr. exists d, []. split_and!; [done|done|done| |done|done|]; [intros _; by apply unevaluated_ok|].
  intros Hc. by destruct Hd as (_ & _ & _ & _ & _ & Hn).
Qed.

(** The citations evaluated, the record is decided by the policy. *)
Lemma evaluated_results version outcomes evs :
  version_sound version → rec_lifecycle (loaded_record version) = Active → judged (loaded_record version) ProjectValid →
  length outcomes = length (rec_evidence (loaded_record version)) → Forall2 (λ o r, consistent (o, r)) outcomes evs →
  exclusive evs → supported version evs →
  ∃ d, evaluate_memory_projection (loaded_record version) (Some ProjectValid) outcomes = Some (Ok d)
       ∧ evaluation version (Evaluated (loaded_revision version) d evs).
Proof.
  intros Hv Ha Hj Hlen Hf Hex Hsup. pose proof (sound_evidence _ Hv) as Hl. pose proof (Forall2_length _ _ _ Hf) as Hlen'.
  assert (results_of version evs) as Hres by (right; split_and!; [congruence|done|done]).
  destruct (decide (unverified_procedure (loaded_record version))) as [Hp|Hp].
  - destruct (procedure_unevaluated _ Hl (Some ProjectValid) outcomes Hp) as (d & He & Hd). exists d. split; [done|].
    exists d, evs. split_and!; try done. intros Hc. by destruct Hd as (_ & _ & _ & _ & _ & Hn).
  - destruct (evaluated_evidence _ Hl (loaded_revision version) _ _ Ha Hp Hlen Hf) as (d & He & Hok & Hcur). exists d. split; [done|].
    exists d, evs. split_and!; try done. intros Hc. split; [done|done|congruence|by apply Hcur].
Qed.

Lemma evaluated_record_wp version budget :
  budget_ok budget → version_sound version →
  wp (evaluated_record load_rust_memory_candidates load_memory_correspondence_reviews git deadline_representable source version target queries head budget)
     (λ s, evaluation version s.1 ∧ spends budget s.2) outside_failure.
Proof.
  intros Hb Hv. unfold evaluated_record. cbv zeta. pose proof (sound_evidence _ Hv) as Hl. pose proof (spends_refl budget Hb).
  destruct (decide (rec_lifecycle (loaded_record version) = Active)) as [Ha|Ha].
  2:{ rewrite (bool_decide_eq_false_2 _ Ha). cbn [negb]. destruct (authored_unevaluated _ Hl Ha) as (d & -> & Hd).
      eapply wp_lift_bind; [done|]. apply wp_ret. split; [|done]. apply unevaluated_evaluation; [done|done|]. left. split; [done|by left]. }
  rewrite (bool_decide_eq_true_2 _ Ha). cbn [negb].
  eapply wp_bind; [apply project_validity_wp; [done|apply Hv]|]. intros [validity b] [Hj Hs]. cbn [fst snd] in *.
  destruct (decide (validity = ProjectValid)) as [->|Hne].
  2:{ rewrite (bool_decide_eq_false_2 _ Hne). cbn [negb]. destruct (excluded_unevaluated _ Hl validity Ha Hne) as (d & -> & Hd).
      eapply wp_lift_bind; [done|]. apply wp_ret. split; [|done]. apply unevaluated_evaluation; [done|done|].
      left. split; [done|]. right. by exists validity. }
  rewrite bool_decide_eq_true_2 by done. cbn [negb].
  eapply (wp_bind _ _ (λ s, length s.1.1 = length (rec_evidence (loaded_record version)) ∧ Forall2 (λ o r, consistent (o, r)) s.1.1 s.1.2
           ∧ supported version (after_merges (merged_targets s.1.2) s.1.2) ∧ spends budget s.2)).
  { destruct (has_complete_index_coverage source).
    - eapply wp_mono; [apply citations_wp; [apply Hs|done]|]. intros s (? & ? & ? & ?).
      split_and!; [done|done|by apply supported_after|by eapply spends_trans].
    - apply wp_ret. cbn [fst snd]. rewrite length_map. split_and!; [done| | |done].
      + apply Forall2_fmap_l, Forall2_fmap_r, Forall_Forall2_diag, Forall_forall. intros ? _. by apply indeterminate_consistent.
      + intros i r [[Hi _]|([? ?] & _ & _ & ->)]%after_merges_lookup Ht; [|done]. apply list_lookup_fmap_Some in Hi as (? & Hr & _). subst r. by destruct Ht. }
  intros [[outcomes results] b'] (Hlen & Hf & Hsup & Hs'). cbn [fst snd] in *.
  rewrite reject_many_to_one_total by (by eapply Forall2_length). eapply wp_lift_bind; [done|].
  apply (after_merges_consistent (merged_targets results)) in Hf as Hf'.
  assert (length (outcomes_after (merged_targets results) outcomes) = length (rec_evidence (loaded_record version))) as Hlen'.
  { rewrite (Forall2_length _ _ _ Hf'), after_merges_length, <- (Forall2_length _ _ _ Hf). done. }
  destruct (evaluated_results version _ _ Hv Ha Hj Hlen' Hf' (after_merges_exclusive results) Hsup) as (d & -> & He).
  eapply wp_lift_bind; [done|]. by apply wp_ret.
Qed.

(** ** The head of one record *)

(** The numbers of a selection, as the prepared records need them. *)
Definition head_counts (sel : MemoryHeadSelection) : Prop :=
  match sel_state sel with
  | HeadConflicted => 2 ≤ sel_head_count sel
  | HeadIndeterminate => 0 < sel_missing_parent_count sel
  | _ => True
  end.

Lemma head_selection_inv state revision approved heads missing sel :
  head_selection state revision approved heads missing = Ok sel →
  sel_state sel = state ∧ sel_head_count sel = Z.of_nat heads ∧ sel_missing_parent_count sel = Z.of_nat missing.
Proof.
  unfold head_selection, projection_count, u32_of_len, ok_or.
  destruct (checked u32_max (Z.of_nat approved)) as [n|] eqn:Ea; [|done]. rstep.
  destruct (checked u32_max (Z.of_nat heads)) as [h|] eqn:Eh; [|done]. rstep.
  destruct (checked u32_max (Z.of_nat missing)) as [m|] eqn:Em; [|done]. rstep.
  apply checked_Some in Ea as [-> _], Eh as [-> _], Em as [-> _]. by intros [= <-].
Qed.

Lemma head_of_counts approved heads missing sel : head_of approved heads missing = Some (Ok sel) → head_counts sel.
Proof.
  unfold head_of, head_counts. destruct (bool_decide (approved = 0%nat)).
  { intros (Hs & _)%(inj Some)%head_selection_inv. by rewrite Hs. }
  destruct heads as [|h others]; [done|]. destruct (Nat.ltb_spec 0 (length missing)).
  { intros (Hs & Hh & Hm)%(inj Some)%head_selection_inv. rewrite Hs, Hm. lia. }
  case_bool_decide as Ho; intros (Hs & Hh & _)%(inj Some)%head_selection_inv; rewrite Hs; [done|]. rewrite Hh.
  destruct others; [done|]. cbn [length]. lia.
Qed.

(** The head of one journal is selected, with its numbers, unless there is none. *)
Lemma one_journal_selection versions :
  Z.of_nat (length versions) ≤ MAX_MEMORY_PROJECTION_VERSIONS →
  Forall (λ v, header_wf (rec_header (ver_record v))) versions → one_journal versions →
  match select_memory_head versions with
  | Some (Ok sel) => selection_of versions sel ∧ head_counts sel
  | Some (Err _) => False
  | None => headless versions
  end.
Proof.
  intros Hl Hwf Hj. pose proof (select_memory_head_spec versions) as H.
  destruct (Z.ltb_spec MAX_MEMORY_PROJECTION_VERSIONS (Z.of_nat (length versions))); [lia|].
  destruct H as [[Hn _]|(_ & heads & missing & Wh & Wm & Hh & Hm & ->)]; [done|].
  destruct (count_bounds versions heads missing) as (L1 & L2 & L3); [done..|].
  pose proof (head_of_spec versions heads missing Wh Wm Hh Hm L1 L2 L3) as Hs.
  destruct (head_of _ _ _) as [[sel|e]|] eqn:E; [|done|done]. apply head_of_counts in E. by destruct Hs.
Qed.

Lemma find_version_total versions revision :
  (∃ v, v ∈ versions ∧ loaded_revision v = revision) →
  ∃ v, find_version versions revision = Ok v ∧ v ∈ versions ∧ loaded_revision v = revision.
Proof.
  unfold find_version. intros (v & Hv & Hr). induction versions as [|v0 versions IH]; [by apply elem_of_nil in Hv|]. cbn [find].
  destruct (bool_decide (loaded_revision v0 = revision)) eqn:E.
  - apply bool_decide_eq_true in E. exists v0. split_and!; [done|by left|done].
  - apply bool_decide_eq_false in E. apply elem_of_cons in Hv as [->|Hv]; [done|].
    destruct (IH Hv) as (v' & ? & ? & ?). exists v'. split_and!; [done|by right|done].
Qed.

Notation inputs versions := (head_input <$> versions).

Lemma head_version versions revision :
  is_head (inputs versions) revision → ∃ v, v ∈ versions ∧ loaded_revision v = revision ∧ loaded_locally_approved v = true.
Proof.
  intros [(a & [Ha (v & -> & Hv)%list_elem_of_fmap]%list_elem_of_filter & Hr) _]. exists v. by split_and!.
Qed.

(** ** What is decided about a record *)

Definition of_record (record_id : bytes) (versions : list LoadedMemoryVersion) : list LoadedMemoryVersion :=
  filter (λ v, loaded_record_id v = record_id) versions.

(** The version is the one head of its record, whose history is complete. *)
Definition sole_head (versions : list LoadedMemoryVersion) (version : LoadedMemoryVersion) : Prop :=
  version ∈ versions ∧ (∀ p, ¬ is_missing (inputs versions) p) ∧ ∀ r, is_head (inputs versions) r ↔ r = loaded_revision version.

(** A journal that can be read: at most 4096 versions of well formed records, in the order of
    their records, each revision once.  Its parents may be missing or form a cycle, and it may
    have approved procedures. *)
Record journal_sound (versions : list LoadedMemoryVersion) : Prop := {
  journal_bounded : Z.of_nat (length versions) ≤ MAX_MEMORY_PROJECTION_VERSIONS;
  journal_each : Forall version_sound versions;
  journal_ordered : Sorted.StronglySorted (cle (λ v v', cmp (loaded_record_id v) (loaded_record_id v'))) versions;
  journal_distinct : ∀ record_id, NoDup (loaded_revision <$> of_record record_id versions);
}.

(** What is published of a record, given its versions. *)
Definition decided (versions : list LoadedMemoryVersion) (record : PreparedProjectionRecord) : Prop :=
  match pr_kind record with
  | Evaluated revision _ _ =>
      ∃ version, sole_head versions version ∧ loaded_revision version = revision ∧ loaded_record_id version = pr_record_id record
                 ∧ evaluation version (pr_kind record)
  | Conflicted _ => record_ok record ∧ ∃ r r', r ≠ r' ∧ is_head (inputs versions) r ∧ is_head (inputs versions) r'
  | IndeterminateHead _ _ _ _ _ =>
      record_ok record ∧ (∃ p, is_missing (inputs versions) p) ∧ ∃ r, is_head (inputs versions) r
  end.





(** The versions of one record. *)
Record group_sound (versions : list LoadedMemoryVersion) (record_id : bytes) : Prop := {
  group_bounded : Z.of_nat (length versions) ≤ MAX_MEMORY_PROJECTION_VERSIONS;
  group_each : Forall version_sound versions;
  group_record : Forall (λ v, loaded_record_id v = record_id) versions;
  group_distinct : NoDup (loaded_revision <$> versions);
}.


Lemma group_selection versions record_id :
  group_sound versions record_id →
  match select_memory_head (inputs versions) with
  | Some (Ok sel) => selection_of (inputs versions) sel ∧ head_counts sel
  | Some (Err _) => False
  | None => headless (inputs versions)
  end.
Proof.
  intros [Hb Hs Hr Hd]. apply one_journal_selection; [by rewrite length_fmap| |].
  { apply Forall_fmap. eapply Forall_impl; [exact Hs|]. by intros v [_ H _]. }
  split.
  - intros ? ? (v & -> & Hv)%list_elem_of_fmap (v' & -> & Hv')%list_elem_of_fmap. rewrite Forall_forall in Hr. by transitivity record_id; [apply Hr|symmetry; apply Hr].
  - rewrite <- list_fmap_compose. exact Hd.
Qed.

Lemma indeterminate_kind_wp versions record_id sel :
  group_sound versions record_id → selection_of (inputs versions) sel → head_counts sel → sel_state sel = HeadIndeterminate →
  ∃ kind, indeterminate_kind versions sel = Ok kind ∧ decided versions {| pr_record_id := record_id; pr_kind := kind |}.
Proof.
  intros Hg Hsel Hc He. unfold selection_of, head_counts in *. rewrite He in Hsel, Hc. destruct Hsel as (Hmiss & Hhead & Hrev).
  unfold indeterminate_kind.
  assert (∃ count, match sel_revision sel with
                   | None => Ok 0
                   | Some revision => version ← find_version versions revision;
                       ok_or (u32_of_len (length (rec_evidence (loaded_record version)))) RevCountNotRepresentable
                   end = Ok count ∧ count ≤ MAX_MEMORY_EVIDENCE ∧ (sel_revision sel = None → count = 0)) as (count & -> & Hle & Hnone).
  { destruct (sel_revision sel) as [revision|]; [|by exists 0].
    destruct (find_version_total versions revision) as (v & -> & Hv & _).
    { destruct (head_version versions revision) as (v & ? & ? & _); [by apply (Hrev revision)|]. by exists v. }
    pose proof (group_each _ _ Hg) as Hs. rewrite Forall_forall in Hs. destruct (Hs v Hv) as [Hl _ _]. unfold MAX_MEMORY_EVIDENCE in *.
    exists (Z.of_nat (length (rec_evidence (loaded_record v)))). rstep. unfold u32_of_len. by rewrite checked_in by (unfold u32_max; lia). }
  rstep. eexists. split; [done|]. split; [|by split]. unfold record_ok. cbn [pr_kind]. split; [done|]. split; [done|].
  destruct (Z.ltb_spec 0 (sel_missing_parent_count sel)); lia.
Qed.

(** A failure of the preparation of versions: one from outside, or the panic without a head. *)
Definition group_failure (versions : list LoadedMemoryVersion) (e : LocalMemoryRevalidationError) : Prop :=
  outside_failure e ∨ e = Panicked ∧ headless (inputs versions).

Notation prepare := (prepare_record load_rust_memory_candidates load_memory_correspondence_reviews git deadline_representable source).

Lemma prepare_record_wp versions first budget :
  budget_ok budget → versions !! 0%nat = Some first → group_sound versions (loaded_record_id first) →
  wp (prepare versions target queries head budget)
     (λ s, match s.1 with
           | Some record => pr_record_id record = loaded_record_id first ∧ decided versions record
           | None => Forall (λ v, loaded_locally_approved v = false) versions
           end ∧ spends budget s.2) (group_failure versions).
Proof.
  intros Hb Hfirst Hg. unfold prepare_record. rewrite Hfirst. eapply wp_lift_bind; [done|]. cbv zeta. pose proof (spends_refl budget Hb).
  pose proof (group_selection _ _ Hg) as Hsel. change (map head_input versions) with (inputs versions).
  destruct (select_memory_head (inputs versions)) as [[sel|e]|]; [|done|by intros n; right]. destruct Hsel as [Hspec Hc].
  eapply wp_lift_bind; [done|]. destruct (sel_state sel) eqn:Es.
  - apply wp_ret. split; [|done]. unfold selection_of in Hspec. rewrite Es in Hspec. destruct Hspec as [Hno _]. cbn [fst].
    apply Forall_forall. intros v Hv. apply not_true_is_false. intros Ha.
    assert (head_input v ∈ approved_versions (inputs versions)) as Hin; [|by rewrite Hno in Hin; apply elem_of_nil in Hin].
    apply list_elem_of_filter. split; [done|]. by apply list_elem_of_fmap_2.
  - unfold selection_of in Hspec. rewrite Es in Hspec. destruct Hspec as (Hm & r & Hr & Hheads). rewrite Hr. eapply wp_lift_bind; [done|].
    destruct (head_version versions r) as (v0 & Hv0 & Hr0 & Ha0); [by apply Hheads|].
    destruct (find_version_total versions r) as (v & Hfind & Hv & Hvr); [by exists v0|]. rewrite Hfind. eapply wp_lift_bind; [done|].
    assert (v = v0) as <-.
    { destruct Hg as [_ _ _ Hd]. apply list_elem_of_lookup in Hv as [i Hi], Hv0 as [j Hj].
      assert (i = j) as <-; [|congruence]. eapply (NoDup_lookup (loaded_revision <$> versions)); [done|by rewrite list_lookup_fmap, Hi|].
      rewrite list_lookup_fmap, Hj. cbn. congruence. }
    destruct Hg as [_ Hs Hid _]. rewrite Forall_forall in Hs, Hid.
    eapply wp_bind; [eapply wp_conseq; [apply evaluated_record_wp; [done|by apply Hs]|done|by left]|]. intros [kind b] [Hev Hsp]. cbn [fst snd] in *.
    apply wp_ret. split; [|done]. cbn [fst]. split; [done|]. pose proof (Hid v Hv) as Hidv.
    change (hdr_record_id (rec_header (loaded_record first))) with (loaded_record_id first). rewrite <- Hidv.
    pose proof Hev as (d & evs & -> & _). exists v. split_and!; [|done|done|done].
    split_and!; [done|done|]. by rewrite Hvr.
  - apply wp_ret. split; [|done]. split; [done|]. unfold selection_of, head_counts in *. rewrite Es in Hspec, Hc.
    split; [exact Hc|]. by destruct Hspec as (_ & _ & ?).
  - destruct (indeterminate_kind_wp _ _ _ Hg Hspec Hc Es) as (kind & -> & Hd). eapply wp_lift_bind; [done|]. apply wp_ret. by split.
Qed.

(** ** The whole journal *)

Notation by_record := (cle (λ v v', cmp (loaded_record_id v) (loaded_record_id v'))).

(** The versions up to the next record are those of the record. *)
Lemma take_group_spec record_id versions group rest :
  take_group record_id versions = (group, rest) → Forall (λ v, cmp record_id (loaded_record_id v) ≠ Gt) versions →
  Sorted.StronglySorted by_record versions →
  versions = group ++ rest ∧ Forall (λ v, loaded_record_id v = record_id) group
  ∧ Forall (λ v, cmp record_id (loaded_record_id v) = Lt) rest ∧ Sorted.StronglySorted by_record rest.
Proof.
  revert group rest. induction versions as [|v versions IH]; intros group rest; cbn [take_group].
  { intros [= <- <-] _ _. split_and!; constructor. }
  intros H Hall Hsort. apply Forall_cons in Hall as [Hv Hall]. pose proof Hsort as [Hsort' Hle]%Sorted.StronglySorted_inv.
  case_bool_decide as Hid.
  - destruct (take_group record_id versions) as [g r]. injection H as <- <-. destruct (IH g r) as (-> & Hg & Hr & Hs); [done..|].
    split_and!; [done|by constructor|done|done].
  - injection H as <- <-. split_and!; [done|constructor| |done].
    assert (cmp record_id (loaded_record_id v) = Lt) as Hlt.
    { destruct (cmp record_id (loaded_record_id v)) eqn:E; [|done|done]. by apply cmp_eq in E. }
    constructor; [done|]. eapply Forall_impl; [exact Hle|]. intros v' Hv'. unfold cle in Hv'.
    destruct (cmp (loaded_record_id v) (loaded_record_id v')) eqn:E; [apply cmp_eq in E; by rewrite <- E|by eapply cmp_trans|done].
Qed.

(** What was published of the versions seen: one record, decided from all its versions, for
    each that has an approved one. *)
Record published (versions seen : list LoadedMemoryVersion) (records : list PreparedProjectionRecord) (skipped_count : Z) : Prop := {
  published_decided : Forall (λ r, decided (of_record (pr_record_id r) versions) r) records;
  published_distinct : NoDup (map pr_record_id records);
  published_seen : Forall (λ r, pr_record_id r ∈ loaded_record_id <$> seen) records;
  published_approved : Forall (λ v, loaded_locally_approved v = true → loaded_record_id v ∈ map pr_record_id records) seen;
  published_skipped : 0 ≤ skipped_count;
  published_covered : Z.of_nat (length records) + skipped_count ≤ Z.of_nat (length seen);
}.

Lemma of_record_sound versions record_id : journal_sound versions → group_sound (of_record record_id versions) record_id.
Proof.
  intros [Hb He _ Hd]. unfold of_record. split.
  - pose proof (length_filter (λ v, loaded_record_id v = record_id) versions). lia.
  - apply Forall_forall. intros v [_ Hv]%list_elem_of_filter. rewrite Forall_forall in He. by apply He.
  - apply Forall_forall. by intros v [? _]%list_elem_of_filter.
  - apply Hd.
Qed.

(** The group taken is all there is of its record. *)
Lemma of_record_group seen group rest record_id :
  Forall (λ v, cmp (loaded_record_id v) record_id = Lt) seen → Forall (λ v, loaded_record_id v = record_id) group →
  Forall (λ v, cmp record_id (loaded_record_id v) = Lt) rest → of_record record_id (seen ++ group ++ rest) = group.
Proof.
  intros Hs Hg Hr. unfold of_record. rewrite !filter_app.
  assert (∀ vs c, c ≠ Eq → Forall (λ v, cmp (loaded_record_id v) record_id = c ∨ cmp record_id (loaded_record_id v) = c) vs →
          filter (λ v, loaded_record_id v = record_id) vs = []) as Hnone.
  { intros vs c Hc Hvs. apply filter_all_false. eapply Forall_impl; [exact Hvs|]. cbn beta. intros v Hv Heq.
    rewrite !Heq, !cmp_refl in Hv. destruct Hv; congruence. }
  rewrite (Hnone seen Lt), (Hnone rest Lt), app_nil_r; try done.
  - apply filter_all_true. by apply Forall_forall.
  - eapply Forall_impl; [exact Hr|]. by right.
  - eapply Forall_impl; [exact Hs|]. by left.
Qed.

Lemma published_skip versions seen group records skipped_count record_id :
  published versions seen records skipped_count → (0 < length group)%nat →
  Forall (λ v, loaded_record_id v = record_id) group → Forall (λ v, loaded_locally_approved v = false) group →
  published versions (seen ++ group) records (skipped_count + 1).
Proof.
  intros [Hd Hn Hs Ha H0 Hc] Hlen Hg Hno. split; [done|done| | |lia|rewrite length_app; lia].
  - eapply Forall_impl; [exact Hs|]. intros r Hr. rewrite fmap_app. by apply elem_of_app; left.
  - apply Forall_app. split; [done|]. eapply Forall_impl; [exact Hno|]. intros v Hv. cbn beta. congruence.
Qed.

Lemma published_record versions seen group records skipped_count record_id record :
  published versions seen records skipped_count → (0 < length group)%nat →
  Forall (λ v, cmp (loaded_record_id v) record_id = Lt) seen → Forall (λ v, loaded_record_id v = record_id) group →
  pr_record_id record = record_id → decided (of_record record_id versions) record →
  published versions (seen ++ group) (records ++ [record]) skipped_count.
Proof.
  intros [Hd Hn Hs Ha H0 Hc] Hlen Hlt Hg Hid Hdec. split; [| | | |done|rewrite !length_app; simpl; lia].
  - apply Forall_app. split; [done|]. apply Forall_singleton. by rewrite Hid.
  - rewrite map_app. apply NoDup_app. split; [done|]. split; [|apply NoDup_singleton].
    intros i (r & -> & Hr)%list_elem_of_fmap Hi. cbn [map] in Hi. apply list_elem_of_singleton in Hi.
    rewrite Forall_forall in Hs. apply Hs in Hr. rewrite Hi, Hid in Hr. apply list_elem_of_fmap in Hr as (v & Hv & Hin).
    rewrite Forall_forall in Hlt. apply Hlt in Hin. by rewrite <- Hv, cmp_refl in Hin.
  - rewrite fmap_app. apply Forall_app. split.
    + eapply Forall_impl; [exact Hs|]. intros r Hr. by apply elem_of_app; left.
    + apply Forall_singleton. apply elem_of_app. right. destruct group as [|v group]; [simpl in Hlen; lia|].
      apply Forall_cons in Hg as [Hv _]. rewrite Hid, <- Hv. by left.
  - rewrite map_app. apply Forall_app. split.
    + eapply Forall_impl; [exact Ha|]. intros v Hv Happ. apply elem_of_app. left. by apply Hv.
    + eapply Forall_impl; [exact Hg|]. intros v Hv _. apply elem_of_app. right. rewrite Hv, <- Hid. by left.
Qed.

(** A failure of the whole preparation. *)
Definition journal_failure (versions : list LoadedMemoryVersion) (e : LocalMemoryRevalidationError) : Prop :=
  outside_failure e ∨ e = Panicked ∧ ∃ record_id, headless (inputs (of_record record_id versions)).

Notation groups := (prepare_groups load_rust_memory_candidates load_memory_correspondence_reviews git deadline_representable).

Lemma prepare_groups_wp all fuel seen todo records skipped_count budget :
  journal_sound all → all = seen ++ todo → (length todo ≤ fuel)%nat → budget_ok budget →
  (∀ v v', v ∈ seen → v' ∈ todo → cmp (loaded_record_id v) (loaded_record_id v') = Lt) →
  published all seen records skipped_count →
  wp (groups fuel source todo target queries head records skipped_count budget)
     (λ s, published all all s.1.1 s.1.2 ∧ spends budget s.2) (journal_failure all).
Proof.
  intros Hall. revert seen todo records skipped_count budget. induction fuel as [|fuel IH]; intros seen todo records skipped_count budget Heq Hfuel Hb Hlt Hp.
  all: destruct todo as [|version todo].
  1, 3: cbn [prepare_groups]; apply wp_ret; rewrite app_nil_r in Heq; subst seen; split; [done|by apply spends_refl].
  { simpl in Hfuel. lia. }
  cbn [prepare_groups]. apply wp_check_bind. destruct (take_group (loaded_record_id version) todo) as [group rest] eqn:Et.
  assert (Sorted.StronglySorted by_record (version :: todo)) as Hsort.
  { pose proof (journal_ordered _ Hall) as H. rewrite Heq in H. clear -H. induction seen as [|v seen IH]; [done|]. by apply Sorted.StronglySorted_inv in H as [H _]; apply IH. }
  apply Sorted.StronglySorted_inv in Hsort as [Hsort Hle].
  destruct (take_group_spec _ _ _ _ Et Hle Hsort) as (-> & Hg & Hr & _).
  set (record_id := loaded_record_id version) in *. set (whole := version :: group).
  assert (Forall (λ v, loaded_record_id v = record_id) whole) as Hwhole by (by constructor).
  assert (Forall (λ v, cmp (loaded_record_id v) record_id = Lt) seen) as Hseen.
  { apply Forall_forall. intros v Hv. apply Hlt; [done|by left]. }
  assert (of_record record_id all = whole) as Hof.
  { rewrite Heq. change (version :: group ++ rest) with (whole ++ rest). by apply of_record_group. }
  pose proof (of_record_sound all record_id Hall) as Hsound. rewrite Hof in Hsound.
  eapply wp_bind; [eapply wp_conseq; [by apply (prepare_record_wp whole version)|done|]|].
  { intros e [He|[-> He]]; [by left|]. right. split; [done|]. exists record_id. by rewrite Hof. }
  intros [prepared b] [Hrec Hs]. cbn [fst snd] in *.
  assert (∀ records skipped_count, published all (seen ++ whole) records skipped_count →
          wp (groups fuel source rest target queries head records skipped_count b)
             (λ s, published all all s.1.1 s.1.2 ∧ spends budget s.2) (journal_failure all)) as Hnext.
  { intros records' skipped' Hp'. eapply wp_mono; [apply (IH (seen ++ whole) rest)|].
    - rewrite Heq, <- app_assoc. done.
    - cbn [length] in Hfuel. rewrite length_app in Hfuel. lia.
    - apply Hs.
    - intros v v' [Hv|Hv]%elem_of_app Hv'.
      + apply Hlt; [done|]. right. apply elem_of_app. by right.
      + rewrite Forall_forall in Hwhole, Hr. rewrite (Hwhole v Hv). by apply Hr.
    - done.
    - intros s [Hpub Hs']. split; [done|]. by eapply spends_trans. }
  destruct prepared as [record|].
  - destruct Hrec as [Hid Hdec]. apply Hnext. eapply published_record; [done|simpl; lia|done|done|done|by rewrite Hof].
  - pose proof (published_skip _ _ whole _ _ record_id Hp ltac:(simpl; lia) Hwhole Hrec) as Hp'.
    eapply wp_lift_bind; [|by apply Hnext]. destruct Hp' as [_ _ _ _ H0 Hc], Hp as [_ _ _ _ H0' _].
    assert (Z.of_nat (length (seen ++ whole)) ≤ Z.of_nat (length all)) as Hle'.
    { rewrite Heq. change (version :: group ++ rest) with (whole ++ rest). rewrite !length_app. lia. }
    destruct Hall as [Hbound _ _ _]. unfold MAX_MEMORY_PROJECTION_VERSIONS in Hbound. by rewrite checked_in by (unfold u32_max; lia).
Qed.

Lemma prepare_records_wp journal budget :
  journal_source journal = source → journal_sound (journal_versions journal) → budget_ok budget →
  wp (prepare_records load_rust_memory_candidates load_memory_correspondence_reviews git deadline_representable journal target queries head budget)
     (λ s, published (journal_versions journal) (journal_versions journal) s.1.1 s.1.2 ∧ spends budget s.2)
     (journal_failure (journal_versions journal)).
Proof.
  intros Hsrc Hj Hb. unfold prepare_records. rewrite Hsrc. apply (prepare_groups_wp (journal_versions journal) _ []); try done.
  - by intros v v' ?%elem_of_nil.
  - split; try constructor; simpl; lia.
Qed.



End record.
Section steady.
Context (load_rust_memory_candidates : RustSymbolMemoryEvidence → result SqliteStoreError LoadedRustCandidateSet).
Context (load_memory_correspondence_reviews : bytes → bytes → Z → result SqliteStoreError LoadedCorrespondenceReviews).
Context (git : list bytes → GitPathDiscoveryLimits → result GitPathDiscoveryError ((bool * option Z) * bytes)).
Context (deadline_representable : bool).

Lemma project_validity_steady record target queries head budget :
  steady (project_validity git deadline_representable record target queries head budget).
Proof.
  unfold project_validity, check_ancestry. pose proof (@steady_query) as Hq. pose proof is_ancestor_steady as Hg.
  repeat first [progress solve_steady|apply Hq, Hg].
Qed.

Lemma evaluated_record_steady source version target queries head budget :
  steady (evaluated_record load_rust_memory_candidates load_memory_correspondence_reviews git deadline_representable source version target queries head budget).
Proof.
  unfold evaluated_record, evaluate_citation. pose proof project_validity_steady as Hp.
  pose proof (evaluate_rust_evidence_steady load_rust_memory_candidates load_memory_correspondence_reviews git deadline_representable) as He.
  repeat first [progress solve_steady|apply Hp|apply He].
Qed.

Lemma prepare_record_steady source versions target queries head budget :
  steady (prepare_record load_rust_memory_candidates load_memory_correspondence_reviews git deadline_representable source versions target queries head budget).
Proof. unfold prepare_record. pose proof evaluated_record_steady as He. repeat first [progress solve_steady|apply He]. Qed.

Lemma prepare_records_steady journal target queries head budget :
  steady (prepare_records load_rust_memory_candidates load_memory_correspondence_reviews git deadline_representable journal target queries head budget).
Proof.
  unfold prepare_records. pose proof prepare_record_steady as He.
  assert (∀ fuel versions records skipped b, steady (prepare_groups load_rust_memory_candidates load_memory_correspondence_reviews git
            deadline_representable fuel (journal_source journal) versions target queries head records skipped b)) as H; [|apply H].
  induction fuel as [|fuel IH]; intros versions records skipped b; cbn [prepare_groups]; [by apply steady_ret|].
  repeat first [progress solve_steady|apply He|apply IH].
Qed.
End steady.

Lemma wp_answer {E A} (m : ctl E A) : steady m → wp m (λ a, run never m = Ok a) (λ _, True).
Proof. intros Hs n. pose proof (steady_evals_run m Hs n) as H. by destruct (m never n) as [[a k]|e]. Qed.

(** ** What is published *)

(** The counts the store answers with are small. *)
Definition counts_small (load_rust_memory_candidates : RustSymbolMemoryEvidence → result SqliteStoreError LoadedRustCandidateSet) : Prop :=
  ∀ evidence loaded, load_rust_memory_candidates evidence = Ok loaded →
    set_candidate_count_before_limit loaded ≤ MAX_MEMORY_INTEROPERABLE_INTEGER.



(** ** The rebuild is fenced *)

Section fence.
Context (sha256 : bytes → bytes).
Context (load_memory_journal : MemoryProjectionLoadLimits → result SqliteStoreError LoadedMemoryJournal).
Context (loads : RustSymbolMemoryEvidence → result SqliteStoreError LoadedRustCandidateSet).
Context (reviews : bytes → bytes → Z → result SqliteStoreError LoadedCorrespondenceReviews).
Context (publish : PreparedMemoryProjection → result SqliteStoreError MemoryProjectionPublication).
Context (git : list bytes → GitPathDiscoveryLimits → result GitPathDiscoveryError ((bool * option Z) * bytes)).
Context (representable : bool).

Lemma capture_bounded_steady worktree limits : steady (capture_bounded_source_state sha256 worktree limits).
Proof.
  unfold capture_bounded_source_state, capture_source_state.
  assert (∀ x e, state_control x = Some e → RevSourceState e = x) by (by intros [] e; simpl; intros [= <-]).
  solve_steady. apply steady_map_err; [done|]. solve_steady.
Qed.

Lemma open_queries_steady limits budget : steady (open_queries git representable limits budget).
Proof.
  unfold open_queries. pose proof (@steady_query) as Hq. pose proof git_memory_open_steady as Ho. pose proof head_commit_steady as Hh.
  repeat first [progress solve_steady|apply Hq, Ho|apply Hq, Hh].
Qed.

Lemma rebuild_steady earlier later limits load_limits result_limits :
  steady (rebuild_projection sha256 load_memory_journal loads reviews publish git representable earlier later limits load_limits result_limits).
Proof.
  unfold rebuild_projection. pose proof capture_bounded_steady as Hc. pose proof open_queries_steady as Ho.
  pose proof (prepare_records_steady loads reviews git representable) as Hp.
  repeat first [progress solve_steady|apply Hc|apply Ho|apply Hp].
Qed.

(** The head is the one that Git told for the opened worktree, if it was asked. *)
Definition head_told (asked : Prop) (limits : LocalMemoryRevalidationLimits) (queries : option GitMemoryQueries) (head : option MemoryCommitId) : Prop :=
  match queries with
  | Some q => asked ∧ run never (git_memory_open git representable (rev_git limits)) = Ok q
              ∧ run never (head_commit git representable q) = Ok head
  | None => ¬ asked ∧ head = None
  end.

(** What a rebuild did: the journal it read, the state of the source before and after, the
    records and the projection it published. *)
Record rebuilt (earlier later : WorktreeGit) (limits : LocalMemoryRevalidationLimits) (load_limits : MemoryProjectionLoadLimits)
    (result_limits : MemoryProjectionResultLimits) (journal : LoadedMemoryJournal) (state : CapturedSourceState (Digest := bytes))
    (queries : option GitMemoryQueries) (head : option MemoryCommitId) (prepared : PreparedMemoryProjection)
    (publication : MemoryProjectionPublication) : Prop := {
  rebuilt_journal : load_memory_journal load_limits = Ok journal;
  rebuilt_before : run never (capture_bounded_source_state sha256 earlier (rev_source_state limits)) = Ok state;
  rebuilt_after : run never (capture_bounded_source_state sha256 later (rev_source_state limits)) = Ok state;
  rebuilt_head : head_told (captured_git_state state = source_git_state (journal_source journal)) limits queries head;
  rebuilt_source : prepared_source prepared = journal_source journal;
  rebuilt_target : prepared_target prepared = TargetWorktree (source_snapshot (journal_source journal)) head;
  rebuilt_published : publish prepared = Ok publication;
  rebuilt_current : ∀ record, record ∈ prepared_records prepared → record_effective_state record = StateCurrent →
    ∃ version evs, sole_head (of_record (pr_record_id record) (journal_versions journal)) version
      ∧ loaded_record_id version = pr_record_id record
      ∧ current_because git representable (prepared_target prepared) queries version evs
      ∧ exclusive evs ∧ supported loads reviews version evs
      ∧ ∃ decision, pr_kind record = Evaluated (loaded_revision version) decision evs;
}.

Lemma current_records versions target queries record :
  decided loads reviews git representable target queries (of_record (pr_record_id record) versions) record →
  record_effective_state record = StateCurrent →
  ∃ version evs, sole_head (of_record (pr_record_id record) versions) version ∧ loaded_record_id version = pr_record_id record
    ∧ current_because git representable target queries version evs ∧ exclusive evs ∧ supported loads reviews version evs
    ∧ ∃ decision, pr_kind record = Evaluated (loaded_revision version) decision evs.
Proof.
  unfold decided. intros Hd Hc. unfold record_effective_state in Hc. destruct (pr_kind record) as [revision d evs| |]; [|done|done].
  destruct Hd as (version & Hs & Hr & Hid & (d' & evs' & [= _ -> ->] & _ & _ & _ & Hex & Hsup & Hcur)). exists version, evs'.
  split_and!; [done|done|by apply Hcur|done|done|]. subst revision. by exists d'.
Qed.
End fence.

Section fenced.
Context (sha256 : bytes → bytes).
Context (load_memory_journal : MemoryProjectionLoadLimits → result SqliteStoreError LoadedMemoryJournal).
Context (loads : RustSymbolMemoryEvidence → result SqliteStoreError LoadedRustCandidateSet).
Context (reviews : bytes → bytes → Z → result SqliteStoreError LoadedCorrespondenceReviews).
Context (publish : PreparedMemoryProjection → result SqliteStoreError MemoryProjectionPublication).
Context (git : list bytes → GitPathDiscoveryLimits → result GitPathDiscoveryError ((bool * option Z) * bytes)).
Context (representable : bool).
Context (earlier later : WorktreeGit) (limits : LocalMemoryRevalidationLimits).
Context (load_limits : MemoryProjectionLoadLimits) (result_limits : MemoryProjectionResultLimits).
Context (Hcounts : counts_small loads).
Context (Hjournal : ∀ l journal, load_memory_journal l = Ok journal → journal_sound (journal_versions journal)).
Context (Hlimits : validated_limits limits = Ok (load_limits, result_limits)) (Hcandidates : 0 ≤ rev_max_result_candidates limits).

Notation any := (λ _ : LocalMemoryRevalidationError, True).

Lemma validated_bounds : 2 ≤ rev_max_git_queries limits ∧ 0 ≤ result_max_candidates result_limits ≤ MAX_CANDIDATES.
Proof.
  unfold validated_limits in Hlimits. destruct (_ || _ || _) eqn:E; [done|]. apply orb_false_iff in E as [_ E].
  apply bind_Ok in Hlimits as (l & _ & H). apply bind_Ok in H as (r & Hr%map_err_Ok & [= <- <-]).
  unfold result_limits_try_new in Hr. destruct ((_ =? 0) || _) eqn:E'; [done|]. injection Hr as <-. cbn [result_max_candidates]. lia.
Qed.

Lemma open_queries_wp budget :
  budget_ok budget →
  wp (open_queries git representable limits budget)
     (λ s, (∃ q, s.1.1 = Some q ∧ run never (git_memory_open git representable (rev_git limits)) = Ok q
            ∧ run never (head_commit git representable q) = Ok s.1.2) ∧ spends budget s.2) any.
Proof.
  intros Hb. unfold open_queries. eapply wp_bind; [by eapply wp_conseq; [apply wp_reserve, Hb|..]|]. intros b1 H1.
  eapply wp_bind; [by eapply wp_conseq; [apply wp_query_answer, git_memory_open_steady|..]|]. intros q Hq.
  eapply wp_bind; [by eapply wp_conseq; [apply wp_reserve, H1|..]|]. intros b2 H2.
  eapply wp_bind; [by eapply wp_conseq; [apply wp_query_answer, head_commit_steady|..]|]. intros h Hh.
  apply wp_ret. cbn [fst snd]. split; [by exists q|]. by eapply spends_trans.
Qed.

(** C15: over a store that answers with well formed journals (see [journal_sound]; approved
    procedures and parents in a cycle are allowed) and small candidate counts, and under limits
    that validate, a rebuild that publishes saw the source in the same state before and after it, asked
    Git for the head just when that state is the one the journal was written for, kept its
    budget of queries, and published the projection of the journal's snapshot in which every
    current record is active at its sole approved head, judged valid by the answers of Git, and
    has each citation resolved, to a target of its own that is not rejected or as reviewed. *)
Theorem rebuild_fenced o publication source queries_used head_known :
  run o (rebuild_projection sha256 load_memory_journal loads reviews publish git representable earlier later limits load_limits result_limits)
  = Ok (publication, source, queries_used, head_known) →
  ∃ journal state queries head prepared,
    rebuilt sha256 load_memory_journal loads reviews publish git representable earlier later limits load_limits result_limits
      journal state queries head prepared publication
    ∧ source = journal_source journal ∧ 0 ≤ queries_used ≤ rev_max_git_queries limits ∧ (head_known = true ↔ is_Some head).
Proof.
  destruct validated_bounds as [Hq Hr]. intros Hrun.
  eapply (wp_run (R := any) _ (λ s, ∃ journal state queries head prepared,
    rebuilt sha256 load_memory_journal loads reviews publish git representable earlier later limits load_limits result_limits
      journal state queries head prepared s.1.1.1
    ∧ s.1.1.2 = journal_source journal ∧ 0 ≤ s.1.2 ≤ rev_max_git_queries limits ∧ (s.2 = true ↔ is_Some head))) in Hrun;
    [exact Hrun|apply rebuild_steady|]. clear Hrun. unfold rebuild_projection.
  destruct (load_memory_journal load_limits) as [journal|e] eqn:Ej; [|by intros n]. eapply wp_lift_bind; [done|]. cbv zeta.
  pose proof (Hjournal _ _ Ej) as Hj. eapply wp_bind; [apply wp_answer, capture_bounded_steady|]. intros state Hbefore.
  assert (budget_ok (budget_new (rev_max_git_queries limits))) as Hb by (unfold budget_ok; cbn; lia).
  eapply (wp_bind _ _ (λ s, head_told git representable (captured_git_state state = source_git_state (journal_source journal)) limits s.1.1 s.1.2
                            ∧ spends (budget_new (rev_max_git_queries limits)) s.2)).
  { case_bool_decide as Hg.
    - eapply wp_mono; [by apply open_queries_wp|]. intros [[qs h] b] [(q & -> & ? & ?) ?]. by split_and!.
    - apply wp_ret. split; [done|by apply spends_refl]. }
  intros [[queries head] budget] [Hhead Hs]. cbn [fst snd] in *.
  assert (is_Some head → is_Some queries) as Hhq.
  { destruct queries; [by eexists|]. destruct Hhead as [_ ->]. by intros [? ?]. }
  set (target := TargetWorktree (source_snapshot (journal_source journal)) head).
  eapply wp_bind; [eapply wp_conseq; [apply (prepare_records_wp loads reviews git representable Hcounts (journal_source journal) target queries head
    eq_refl Hhq journal budget eq_refl Hj); apply Hs|done|done]|]. intros [[records skipped] budget'] [Hp Hs']. cbn [fst snd] in *.
  eapply wp_bind; [apply wp_answer, capture_bounded_steady|]. intros state' Hafter.
  eapply (wp_bind _ _ (λ _, state' = state)).
  { case_bool_decide as Heq; cbn [negb]; [by apply wp_ret|by apply wp_throw]. }
  intros _ ->. assert (0 ≤ skipped) as H0 by apply Hp.
  destruct (prepared_projection_try_new _ _ _ _ _ _) as [p|e] eqn:Etry; [|by intros n]. pose proof (try_new_inv _ _ _ _ _ _ _ Etry) as Hproj.
  rewrite try_new_projectable in Etry by done. destruct (_ <? _); [done|]. injection Etry as <-. eapply wp_lift_bind; [done|].
  set (prepared := projection_of _ _ _ _ _). destruct (publish prepared) as [publication'|e] eqn:Epub; [|by intros n].
  eapply wp_lift_bind; [done|]. apply wp_ret. exists journal, state, queries, head, prepared. cbn [fst snd].
  destruct Hs as (Hs1 & Hs2 & Hs3), Hs' as (Ht1 & Ht2 & Ht3). unfold budget_ok in *. cbn in Hs2, Hs3.
  split_and!; [|done|lia|lia|apply bool_decide_eq_true].
  split; try done. intros record Hin Hc. eapply current_records; [|exact Hc].
  pose proof (published_decided _ _ _ _ _ _ _ _ _ _ Hp) as Hd. rewrite Forall_forall in Hd. apply Hd.
  cbn [prepared prepared_records projection_of] in Hin. by rewrite projection_sorted_perm in Hin.
Qed.
End fenced.

(** ** Approved procedures *)

(** A profile 2 procedure that applies to the project makes its record one that no projection
    admits: its decision says that no evidence was evaluated, its results say otherwise. *)
Theorem approved_procedure_refused loads reviews git representable source version target queries head budget o kind budget' :
  counts_small loads → ancestry_target target = head → (is_Some head → is_Some queries) → budget_ok budget → version_sound version →
  unverified_procedure (loaded_record version) → rec_evidence (loaded_record version) ≠ [] →
  (∀ validity, judged git representable target queries (loaded_record version) validity → validity = ProjectValid) →
  run o (evaluated_record loads reviews git representable source version target queries head budget) = Ok (kind, budget') →
  ∀ records skipped_count truncated_count limits p,
    {| pr_record_id := loaded_record_id version; pr_kind := kind |} ∈ records →
    prepared_projection_try_new source target records skipped_count truncated_count limits ≠ Ok p.
Proof.
  intros Hc Ht Hq Hb Hv Hp Hne Hvalid Hrun records skipped truncated limits p Hin (_ & _ & _ & Hok)%try_new_inv.
  pose proof (evaluated_record_steady loads reviews git representable source version target queries head budget) as Hs.
  pose proof (evaluated_record_wp loads reviews git representable Hc source target queries head Ht Hq version budget Hb Hv) as Hw.
  destruct (wp_run _ _ _ _ Hs Hw Hrun) as [(d & evs & Hk & Hres & Hd & _) _]. cbn [fst] in Hk. destruct (Hd Hp) as (Hst & _).
  rewrite Forall_forall in Hok. apply Hok in Hin. unfold record_ok in Hin. cbn [pr_kind] in Hin. rewrite Hk in Hin.
  destruct Hin as (_ & Hevs & _). rewrite (bool_decide_eq_true_2 _ Hst) in Hevs. subst evs.
  destruct Hres as [[_ [Hn|(v & Hn & Hj)]]|[Hlen _]]; [by destruct Hp as (_ & _ & ?)|by apply Hvalid in Hj|].
  symmetry in Hlen. by apply length_zero_iff_nil in Hlen.
Qed.

(** ** Witnesses *)

(** A repository at one commit, an approved memory introduced by it, and its cited function,
    still in place. *)
Definition rev_candidate : RustCorrespondenceCandidate :=
  {| cand_path := b_of "src/lib.rs"; cand_artifact := repeat x44 32; cand_fact_ordinal := 0; cand_kind := Function; cand_name := b_of "f";
     cand_qualified_name := b_of "f"; cand_container := []; cand_fingerprint := {| fp_declaration := repeat x55 32; fp_name_elided := repeat x66 32 |};
     cand_path_continuity := NoContinuity |}.

Definition rev_loads (evidence : RustSymbolMemoryEvidence) : result SqliteStoreError LoadedRustCandidateSet :=
  Ok {| set_subject_name_elided := Some (repeat x66 32); set_candidates := [rev_candidate]; set_candidate_count_before_limit := 1 |}.
Definition rev_reviews (record_id revision : bytes) (ordinal : Z) : result SqliteStoreError LoadedCorrespondenceReviews :=
  Ok {| reviews_decision := ReviewNone; reviews_rejected := [] |}.

Definition rev_record (kind : MemoryKind) : MemoryRecord :=
  {| rec_schema_version := 2; rec_header := mem_header [];
     rec_claim := {| claim_kind := kind; claim_title := [0x54]; claim_body := [0x42] |};
     rec_scope := {| scope_of_repository := repeat x66 32; subject_evidence := 0 |};
     rec_provenance := {| prov_origin := Human; prov_actor_kind := LocalAsserted; prov_actor_id := [0x61] |};
     rec_assurance := LocallyApproved; rec_lifecycle := Active; rec_validity := ValidCommits [memory_commit] [];
     rec_evidence := [mem_evidence]; rec_relationships := []; rec_tombstone := false |}.

Definition commit_line : bytes := encode_lower_hex (replicate 20 x11) ++ [x0a].

Definition rev_outputs (arguments : list bytes) (limits : GitPathDiscoveryLimits) : result GitPathDiscoveryError ((bool * option Z) * bytes) :=
  if bool_decide (arguments = [b_of "rev-parse"; b_of "--show-object-format"]) then Ok ((true, Some 0), b_of "sha1" ++ [x0a])
  else if bool_decide (arguments = [b_of "rev-parse"; b_of "--verify"; b_of "--quiet"; b_of "HEAD^{commit}"]) then Ok ((true, Some 0), commit_line)
  else Ok ((true, Some 0), []).

Definition rev_worktree : WorktreeGit :=
  {| wt_root := Ok (); wt_output := state_git; wt_output_with_status := λ _, Ok ((true, Some 0), commit_line) |}.

Definition rev_limits : LocalMemoryRevalidationLimits :=
  {| rev_deadline := 1; rev_source_state := git_limits; rev_source_state_deadline := 1; rev_git := query_limits_default;
     rev_max_versions := 16; rev_max_canonical_bytes := 4096; rev_max_result_candidates := DEFAULT_LOCAL_MEMORY_RESULT_CANDIDATES;
     rev_max_git_queries := DEFAULT_LOCAL_MEMORY_GIT_QUERIES |}.

Definition rev_state : bytes :=
  match run never (capture_bounded_source_state id rev_worktree git_limits) with Ok state => captured_git_state state | Err _ => [] end.

Definition rev_source : MemoryProjectionSource :=
  {| source_repository := b_of "repository"; source_workspace_id := 1; source_generation := 1; source_epoch := 1;
     source_snapshot := b_of "snapshot"; source_git_state := rev_state; source_searched_count := 1; source_skipped_count := 0;
     source_unresolved_count := 0; source_truncated_count := 0 |}.

Definition rev_version (kind : MemoryKind) : LoadedMemoryVersion :=
  {| loaded_revision := [x0a]; loaded_record := rev_record kind; loaded_locally_approved := true;
     loaded_approval_git_source := Some memory_commit |}.

Definition rev_journal (kind : MemoryKind) : LoadedMemoryJournal :=
  {| journal_source := rev_source; journal_versions := [rev_version kind] |}.

Definition rev_publish (prepared : PreparedMemoryProjection) : result SqliteStoreError MemoryProjectionPublication :=
  Ok {| publication_projection_id := 1; publication_projected_records := Z.of_nat (length (prepared_records prepared));
        publication_skipped_records := prepared_skipped_count prepared; publication_unresolved_records := prepared_unresolved_count prepared |}.

Definition rev_run (kind : MemoryKind) : result LocalMemoryRevalidationError (MemoryProjectionPublication * MemoryProjectionSource * Z * bool) :=
  load_and_result ← validated_limits rev_limits;
  run never (rebuild_projection id (λ _, Ok (rev_journal kind)) rev_loads rev_reviews rev_publish rev_outputs true rev_worktree rev_worktree
               rev_limits load_and_result.1 load_and_result.2).

(** The memory is published after three questions to Git; as a procedure it keeps the whole
    projection from being published. *)
Example decision_is_published :
  rev_run Decision = Ok ({| publication_projection_id := 1; publication_projected_records := 1; publication_skipped_records := 0;
                            publication_unresolved_records := 0 |}, rev_source, 3, true).
Proof. by vm_compute. Qed.

Example procedure_blocks_publication : rev_run Procedure = Err (ProjectionPreparation InvalidMemoryProjection).
Proof. by vm_compute. Qed.

Lemma rev_journal_sound kind : journal_sound (journal_versions (rev_journal kind)).
Proof.
  split.
  - by vm_compute.
  - apply Forall_singleton. split; [by vm_compute|apply mem_header_wf; [constructor|done]|]. split; [apply NoDup_singleton|by vm_compute].
  - repeat constructor.
  - intros record_id. unfold of_record. cbn [journal_versions rev_journal]. rewrite filter_cons. case_decide; [apply NoDup_singleton|constructor].
Qed.


Lemma rev_counts_small : counts_small rev_loads.
Proof. intros evidence loaded [= <-]. by vm_compute. Qed.



Lemma rebuild_fenced_witness :
  ∃ journal state queries head prepared,
    rebuilt id (λ _, Ok (rev_journal Decision)) rev_loads rev_reviews rev_publish rev_outputs true rev_worktree rev_worktree rev_limits
      {| load_max_versions := 16; load_max_canonical_bytes := 4096 |} {| result_max_candidates := DEFAULT_LOCAL_MEMORY_RESULT_CANDIDATES |}
      journal state queries head prepared
      {| publication_projection_id := 1; publication_projected_records := 1; publication_skipped_records := 0; publication_unresolved_records := 0 |}
    ∧ rev_source = journal_source journal ∧ 0 ≤ 3 ≤ DEFAULT_LOCAL_MEMORY_GIT_QUERIES ∧ (true = true ↔ is_Some head).
Proof.
  apply (rebuild_fenced id (λ _, Ok (rev_journal Decision)) rev_loads rev_reviews rev_publish rev_outputs true rev_worktree rev_worktree rev_limits
           {| load_max_versions := 16; load_max_canonical_bytes := 4096 |} {| result_max_candidates := DEFAULT_LOCAL_MEMORY_RESULT_CANDIDATES |}
           rev_counts_small) with (o := never).
  - intros l journal [= <-]. apply (rev_journal_sound Decision).
  - by vm_compute.
  - by vm_compute.
  - exact decision_is_published.
Defined.
