(* ===== verification/SourceDigests.v ===== *)
(** * Source digests

    Models [crates/repowitness-application/src/canonical_digest.rs] and [source_snapshot.rs]:
    the bytes that are hashed for the content of a source, the key and the payload of an
    analysis artifact, a source manifest and a source snapshot.  SHA-256 is a parameter; a
    repository path is its bytes, which identify it. *)

From Stdlib Require Import ZArith Lia ZifyBool.
From Stdlib Require Import Strings.Byte.
From stdpp Require Import base numbers sorting list.
From S2P Require Import Prelude Ordering SourceManifest ArtifactReuse GraphIdentity SymbolFacts.

Open Scope Z_scope.

(** ** Domains and versions *)

Definition domain_of (name : bytes) : bytes := b_of "RepoWitness" ++ [x00] ++ name ++ [x00].

Definition ARTIFACT_KEY_DOMAIN : bytes := domain_of (b_of "analysis-artifact-key").
Definition ARTIFACT_PAYLOAD_DOMAIN : bytes := domain_of (b_of "analysis-artifact-payload").
Definition SOURCE_MANIFEST_DOMAIN : bytes := domain_of (b_of "source-manifest").
Definition ANALYSIS_ARTIFACT_PAYLOAD_VERSION : Z := 3.
Definition ANALYSIS_ARTIFACT_KEY_VERSION : Z := 1.
Definition SOURCE_MANIFEST_VERSION : Z := 1.
Definition RUST_CORRESPONDENCE_PROFILE_ID : bytes := b_of "rust-name-elided".
Definition RUST_CORRESPONDENCE_PROFILE_VERSION : Z := 1.

Definition RUST_SOURCE_SNAPSHOT_DOMAIN : bytes := domain_of (b_of "rust-source-snapshot").
Definition GO_AND_RUST_SOURCE_SNAPSHOT_DOMAIN : bytes := domain_of (b_of "go-and-rust-source-snapshot").
Definition SUPPORTED_LANGUAGES_SOURCE_SNAPSHOT_DOMAIN : bytes := domain_of (b_of "supported-languages-source-snapshot").
Definition RUST_SOURCE_SNAPSHOT_VERSION : Z := 1.
Definition GO_AND_RUST_SOURCE_SNAPSHOT_VERSION : Z := 1.
Definition SUPPORTED_LANGUAGES_SOURCE_SNAPSHOT_VERSION : Z := 3.

Definition CanonicalAnalysisArtifactKey : Type := AnalysisArtifactKey bytes bytes bytes bytes Z.
Definition CanonicalSourceManifest : Type := SourceManifest bytes SourceFileKind bytes.

(** ** Snapshots *)

Inductive SnapshotHashProfile := RustV1 | GoAndRustV1 | SupportedLanguagesV3.

Record RustSourceSnapshotIdentity := {
  snap_repository : bytes;
  snap_git_state : bytes;
  snap_worktree_state : bytes;
  snap_configuration : bytes;
  snap_producer_manifest : bytes;
  snap_analysis_schema : bytes;
  snap_canonicalization_version : Z;
  snap_hash_profile : SnapshotHashProfile;
}.

Definition snapshot_identity (hash_profile : SnapshotHashProfile) (repository git_state worktree_state configuration
    producer_manifest analysis_schema : bytes) (canonicalization_version : Z) : RustSourceSnapshotIdentity :=
  {| snap_repository := repository; snap_git_state := git_state; snap_worktree_state := worktree_state;
     snap_configuration := configuration; snap_producer_manifest := producer_manifest; snap_analysis_schema := analysis_schema;
     snap_canonicalization_version := canonicalization_version; snap_hash_profile := hash_profile |}.

Definition snapshot_new := snapshot_identity RustV1.
Definition snapshot_new_go_and_rust := snapshot_identity GoAndRustV1.
Definition snapshot_new_supported_languages := snapshot_identity SupportedLanguagesV3.

(** ** The hashed bytes *)

Definition artifact_key_message (key : CanonicalAnalysisArtifactKey) : bytes :=
  ARTIFACT_KEY_DOMAIN ++ u16_be_bytes ANALYSIS_ARTIFACT_KEY_VERSION ++ key_source_digest key ++ key_analyzer_identity key
  ++ key_configuration_identity key ++ key_schema_identity key ++ u32_be_bytes (key_canonicalization_version key).

(** What the loop over the facts hashes of one. *)
Definition fact_message (has_correspondence : bool) (ordinal : nat) (fact : RustSymbolFact) : bytes :=
  u64_be_bytes (Z.of_nat ordinal) ++ length_prefixed (symbol_kind_str (fact_kind fact)) ++ length_prefixed (fact_name fact)
  ++ length_prefixed (fact_qualified_name fact)
  ++ u64_be_bytes (span_start (fact_name_span fact)) ++ u64_be_bytes (span_end (fact_name_span fact))
  ++ u64_be_bytes (span_start (fact_declaration_span fact)) ++ u64_be_bytes (span_end (fact_declaration_span fact))
  ++ (if has_correspondence
      then match fact_correspondence fact with
           | Some fingerprint => [x01] ++ fp_declaration fingerprint ++ fp_name_elided fingerprint
           | None => [x00]
           end
      else []).

Definition has_correspondence (analysis : RustSourceAnalysis) : bool :=
  existsb (λ fact, bool_decide (fact_correspondence fact ≠ None)) (analysis_facts analysis).

Definition artifact_payload_message (analysis : RustSourceAnalysis) : bytes :=
  let with_fingerprints := has_correspondence analysis in
  ARTIFACT_PAYLOAD_DOMAIN ++ u32_be_bytes ANALYSIS_ARTIFACT_PAYLOAD_VERSION
  ++ (if with_fingerprints then length_prefixed RUST_CORRESPONDENCE_PROFILE_ID ++ u32_be_bytes RUST_CORRESPONDENCE_PROFILE_VERSION else [])
  ++ u32_be_bytes (analysis_visited_nodes analysis) ++ u32_be_bytes (analysis_syntax_error_nodes analysis)
  ++ u32_be_bytes (analysis_known_parser_limitation_nodes analysis)
  ++ u64_be_bytes (Z.of_nat (length (analysis_facts analysis)))
  ++ concat (imap (fact_message with_fingerprints) (analysis_facts analysis)).

Definition manifest_entry_message (entry : SourceManifestEntry bytes SourceFileKind bytes) : bytes :=
  u64_be_bytes (len (path entry)) ++ path entry ++ [byte_of (canonical_tag (file_type entry))] ++ content_digest entry.

Definition manifest_message (manifest : CanonicalSourceManifest) : bytes :=
  SOURCE_MANIFEST_DOMAIN ++ u16_be_bytes SOURCE_MANIFEST_VERSION ++ u64_be_bytes (count manifest)
  ++ flat_map manifest_entry_message (entries manifest).

Definition snapshot_message (domain : bytes) (version : Z) (identity : RustSourceSnapshotIdentity) (manifest : bytes) : bytes :=
  domain ++ u32_be_bytes version ++ snap_repository identity ++ snap_git_state identity ++ snap_worktree_state identity
  ++ snap_configuration identity ++ snap_producer_manifest identity ++ snap_analysis_schema identity
  ++ u32_be_bytes (snap_canonicalization_version identity) ++ manifest.

Section hashing.
Context (sha256 : bytes → bytes).

Definition hash_source_content (content : bytes) : bytes := sha256 content.
Definition hash_analysis_artifact_key (key : CanonicalAnalysisArtifactKey) : bytes := sha256 (artifact_key_message key).
Definition hash_analysis_artifact_payload (analysis : RustSourceAnalysis) : bytes := sha256 (artifact_payload_message analysis).
Definition hash_source_manifest (manifest : CanonicalSourceManifest) : bytes := sha256 (manifest_message manifest).

Definition hash_snapshot (domain : bytes) (version : Z) (identity : RustSourceSnapshotIdentity) (manifest : bytes) : bytes :=
  sha256 (snapshot_message domain version identity manifest).
Definition hash_rust_source_snapshot (identity : RustSourceSnapshotIdentity) (manifest : bytes) : bytes :=
  sha256 (snapshot_message RUST_SOURCE_SNAPSHOT_DOMAIN RUST_SOURCE_SNAPSHOT_VERSION identity manifest).

Definition hash_source_snapshot (identity : RustSourceSnapshotIdentity) (manifest : bytes) : bytes :=
  match snap_hash_profile identity with
  | RustV1 => hash_rust_source_snapshot identity manifest
  | GoAndRustV1 => hash_snapshot GO_AND_RUST_SOURCE_SNAPSHOT_DOMAIN GO_AND_RUST_SOURCE_SNAPSHOT_VERSION identity manifest
  | SupportedLanguagesV3 =>
      hash_snapshot SUPPORTED_LANGUAGES_SOURCE_SNAPSHOT_DOMAIN SUPPORTED_LANGUAGES_SOURCE_SNAPSHOT_VERSION identity manifest
  end.
End hashing.

(** ** What digests identify *)

Notation digest d := (length d = 32%nat).

Record key_wf (key : CanonicalAnalysisArtifactKey) : Prop := {
  kwf_analyzer : digest (key_analyzer_identity key);
  kwf_configuration : digest (key_configuration_identity key);
  kwf_schema : digest (key_schema_identity key);
  kwf_version : in_u32 (key_canonicalization_version key);
}.

Record snapshot_wf (identity : RustSourceSnapshotIdentity) : Prop := {
  swf_repository : digest (snap_repository identity);
  swf_git_state : digest (snap_git_state identity);
  swf_worktree_state : digest (snap_worktree_state identity);
  swf_configuration : digest (snap_configuration identity);
  swf_producer_manifest : digest (snap_producer_manifest identity);
  swf_analysis_schema : digest (snap_analysis_schema identity);
  swf_version : in_u32 (snap_canonicalization_version identity);
}.

(** The entries of a manifest with the digests of one width. *)
Record manifest_fits (width : nat) (manifest : CanonicalSourceManifest) : Prop := {
  mf_count : count manifest = Z.of_nat (length (entries manifest));
  mf_u64 : in_u64 (count manifest);
  mf_entries : Forall (λ e, len (path e) ≤ u64_max ∧ length (content_digest e) = width) (entries manifest);
}.

Lemma u32_be_bytes_inj x y : in_u32 x → in_u32 y → u32_be_bytes x = u32_be_bytes y → x = y.
Proof. unfold in_u32, u32_max. intros ? ?. apply be_bytes_inj; change (256 ^ Z.of_nat 4) with 4294967296; lia. Qed.
Lemma u64_bytes_inj x y : in_u64 x → in_u64 y → u64_be_bytes x = u64_be_bytes y → x = y.
Proof. unfold in_u64, u64_max. intros ? ?. apply be_bytes_inj; change (256 ^ Z.of_nat 8) with 18446744073709551616; lia. Qed.

(** The content digest is found again from behind. *)
Lemma artifact_key_message_inj key key' :
  key_wf key → key_wf key' → artifact_key_message key = artifact_key_message key' → key = key'.
Proof.
  intros [A C S V] [A' C' S' V'] H. unfold artifact_key_message in H. do 2 apply app_inv_head in H.
  destruct key as [d a c s v], key' as [d' a' c' s' v']. cbn [key_source_digest key_analyzer_identity key_configuration_identity key_schema_identity key_canonicalization_version] in *.
  apply app_inj_2 in H as [-> H]; [|unfold u32_be_bytes; rewrite !length_app, !length_be_bytes; congruence].
  apply app_inj_1 in H as [-> H]; [|congruence]. apply app_inj_1 in H as [-> H]; [|congruence]. apply app_inj_1 in H as [-> H]; [|congruence].
  by apply u32_be_bytes_inj in H as ->.
Qed.

Lemma canonical_tag_inj k k' : byte_of (canonical_tag k) = byte_of (canonical_tag k') → k = k'.
Proof. by destruct k, k'. Qed.

Lemma manifest_entries_inj width es es' :
  Forall (λ e, len (path e) ≤ u64_max ∧ length (content_digest e) = width) es →
  Forall (λ e, len (path e) ≤ u64_max ∧ length (content_digest e) = width) es' →
  length es = length es' → flat_map manifest_entry_message es = flat_map manifest_entry_message es' → es = es'.
Proof.
  intros Hes. revert es'. induction Hes as [|e es [Hp Hd] _ IH]; intros [|e' es'] Hes' Hl H; try done.
  apply Forall_cons in Hes' as [[Hp' Hd'] Hes']. cbn [flat_map] in H. unfold manifest_entry_message in H. rewrite <- !app_assoc in H.
  apply app_inj_1 in H as [Hlen H]; [|unfold u64_be_bytes; by rewrite !length_be_bytes].
  apply u64_bytes_inj in Hlen; [|unfold in_u64; pose proof (len_nonneg (path e)); pose proof (len_nonneg (path e')); lia..].
  apply app_inj_1 in H as [Hpath H]; [|unfold len in Hlen; lia]. cbn [app] in H. injection H as Htag H. apply canonical_tag_inj in Htag.
  apply app_inj_1 in H as [Hdig H]; [|congruence]. f_equal; [|apply IH; [done|by injection Hl|done]].
  destruct e, e'. cbn in *. by subst.
Qed.

Lemma manifest_message_inj width manifest manifest' :
  manifest_fits width manifest → manifest_fits width manifest' → manifest_message manifest = manifest_message manifest' →
  entries manifest = entries manifest'.
Proof.
  intros [C U E] [C' U' E'] H. unfold manifest_message in H. do 2 apply app_inv_head in H.
  apply app_inj_1 in H as [Hc H]; [|unfold u64_be_bytes; by rewrite !length_be_bytes]. apply u64_bytes_inj in Hc; [|done..].
  eapply manifest_entries_inj; [exact E|exact E'|lia|exact H].
Qed.

(** The domain of a profile tells it from the others. *)
Definition profile_domain (profile : SnapshotHashProfile) : bytes :=
  match profile with
  | RustV1 => RUST_SOURCE_SNAPSHOT_DOMAIN
  | GoAndRustV1 => GO_AND_RUST_SOURCE_SNAPSHOT_DOMAIN
  | SupportedLanguagesV3 => SUPPORTED_LANGUAGES_SOURCE_SNAPSHOT_DOMAIN
  end.
Definition profile_version (profile : SnapshotHashProfile) : Z :=
  match profile with RustV1 | GoAndRustV1 => 1 | SupportedLanguagesV3 => 3 end.

Lemma hash_source_snapshot_message sha256 identity manifest :
  hash_source_snapshot sha256 identity manifest
  = sha256 (snapshot_message (profile_domain (snap_hash_profile identity)) (profile_version (snap_hash_profile identity)) identity manifest).
Proof. unfold hash_source_snapshot. by destruct (snap_hash_profile identity). Qed.

Lemma snapshot_message_inj i i' m m' :
  snapshot_wf i → snapshot_wf i' →
  snapshot_message (profile_domain (snap_hash_profile i)) (profile_version (snap_hash_profile i)) i m
  = snapshot_message (profile_domain (snap_hash_profile i')) (profile_version (snap_hash_profile i')) i' m' → i = i' ∧ m = m'.
Proof.
  intros [R G W C P S V] [R' G' W' C' P' S' V'] H. unfold snapshot_message in H.
  assert (snap_hash_profile i = snap_hash_profile i') as Hp.
  { apply (f_equal (take 13)) in H. destruct (snap_hash_profile i), (snap_hash_profile i'); (done || (cbn in H; discriminate H)). }
  rewrite Hp in H. do 2 apply app_inv_head in H. destruct i as [r g w c p s v h], i' as [r' g' w' c' p' s' v' h'].
  cbn [snap_repository snap_git_state snap_worktree_state snap_configuration snap_producer_manifest snap_analysis_schema snap_canonicalization_version snap_hash_profile] in *.
  do 6 (apply app_inj_1 in H as [-> H]; [|congruence]). subst.
  apply app_inj_1 in H as [Hv ->]; [|unfold u32_be_bytes; by rewrite !length_be_bytes]. by apply u32_be_bytes_inj in Hv as ->.
Qed.

(** *** Payloads *)

Definition fingerprint_wf (fact : RustSymbolFact) : Prop :=
  match fact_correspondence fact with
  | Some fingerprint => digest (fp_declaration fingerprint) ∧ digest (fp_name_elided fingerprint)
  | None => True
  end.

Definition span_u64 (span : ByteSpan) : Prop := in_u64 (span_start span) ∧ in_u64 (span_end span).

Record fact_wf (fact : RustSymbolFact) : Prop := {
  fwf_name : len (fact_name fact) ≤ u64_max;
  fwf_qualified_name : len (fact_qualified_name fact) ≤ u64_max;
  fwf_name_span : span_u64 (fact_name_span fact);
  fwf_declaration_span : span_u64 (fact_declaration_span fact);
  fwf_correspondence : fingerprint_wf fact;
}.

(** An analysis of at least the root node. *)
Record analysis_wf (analysis : RustSourceAnalysis) : Prop := {
  awf_visited : 0 < analysis_visited_nodes analysis ≤ u32_max;
  awf_syntax : in_u32 (analysis_syntax_error_nodes analysis);
  awf_known : in_u32 (analysis_known_parser_limitation_nodes analysis);
  awf_count : Z.of_nat (length (analysis_facts analysis)) ≤ u64_max;
  awf_facts : Forall fact_wf (analysis_facts analysis);
}.

Lemma kind_str_fits k : len (symbol_kind_str k) ≤ u64_max.
Proof. by destruct k. Qed.

(** What follows the spans of a fact can be read back. *)
Lemma correspondence_message_inj b (f f' : RustSymbolFact) r r' :
  fingerprint_wf f → fingerprint_wf f' →
  (b = false → fact_correspondence f = None ∧ fact_correspondence f' = None) →
  (if b then match fact_correspondence f with
             | Some fingerprint => [x01] ++ fp_declaration fingerprint ++ fp_name_elided fingerprint
             | None => [x00]
             end else []) ++ r
  = (if b then match fact_correspondence f' with
               | Some fingerprint => [x01] ++ fp_declaration fingerprint ++ fp_name_elided fingerprint
               | None => [x00]
               end else []) ++ r' →
  fact_correspondence f = fact_correspondence f' ∧ r = r'.
Proof.
  unfold fingerprint_wf. intros Hf Hf' Hb H. destruct b; [|by destruct (Hb eq_refl) as [-> ->]].
  destruct (fact_correspondence f) as [[d n]|], (fact_correspondence f') as [[d' n']|]; cbn [app fp_declaration fp_name_elided] in *; [|done|done|].
  - injection H as H. rewrite <- !app_assoc in H. destruct Hf as [Hd Hn], Hf' as [Hd' Hn'].
    apply app_inj_1 in H as [-> H]; [|congruence]. apply app_inj_1 in H as [-> ->]; [|congruence]. done.
  - by injection H as ->.
Qed.

Lemma fact_message_inj b ordinal f f' r r' :
  fact_wf f → fact_wf f' → (b = false → fact_correspondence f = None ∧ fact_correspondence f' = None) →
  fact_message b ordinal f ++ r = fact_message b ordinal f' ++ r' → f = f' ∧ r = r'.
Proof.
  intros [N Q [NS NE] [DS DE] C] [N' Q' [NS' NE'] [DS' DE'] C'] Hb H. unfold fact_message in H. rewrite <- !app_assoc in H. apply app_inv_head in H.
  apply length_prefixed_inj in H as [Hk H]; [|apply kind_str_fits..]. apply symbol_kind_str_inj in Hk.
  apply length_prefixed_inj in H as [Hn H]; [|done..]. apply length_prefixed_inj in H as [Hq H]; [|done..].
  assert (∀ x y s t, in_u64 x → in_u64 y → u64_be_bytes x ++ s = u64_be_bytes y ++ t → x = y ∧ s = t) as Hu.
  { intros x y s t Hx Hy He. apply app_inj_1 in He as [He ->]; [|unfold u64_be_bytes; by rewrite !length_be_bytes]. split; [by apply u64_bytes_inj|done]. }
  apply Hu in H as [Hns H]; [|done..]. apply Hu in H as [Hne H]; [|done..]. apply Hu in H as [Hds H]; [|done..]. apply Hu in H as [Hde H]; [|done..].
  apply correspondence_message_inj in H as [Hc ->]; [|done..]. split; [|done].
  destruct f as [k n q [ns ne] [ds de] c], f' as [k' n' q' [ns' ne'] [ds' de'] c']. cbn in *. by subst.
Qed.

Lemma facts_message_inj b k fs fs' :
  Forall fact_wf fs → Forall fact_wf fs' → length fs = length fs' →
  (b = false → Forall (λ f, fact_correspondence f = None) fs ∧ Forall (λ f, fact_correspondence f = None) fs') →
  concat (imap (λ i, fact_message b (k + i)) fs) = concat (imap (λ i, fact_message b (k + i)) fs') → fs = fs'.
Proof.
  intros Hfs. revert k fs'. induction Hfs as [|f fs Hf _ IH]; intros k [|f' fs'] Hfs' Hl Hb H; try done.
  apply Forall_cons in Hfs' as [Hf' Hfs']. cbn [imap concat] in H.
  apply fact_message_inj in H as [-> H]; [| |done|].
  - f_equal. apply (IH (S k)); [done|by injection Hl| |].
    + intros He. destruct (Hb He) as [[_ ?]%Forall_cons [_ ?]%Forall_cons]. done.
    + assert (∀ gs : list RustSymbolFact, imap (λ i, fact_message b (S k + i)) gs = imap ((λ i, fact_message b (k + i)) ∘ S) gs) as He.
      { intros gs. apply imap_ext. intros i x _. simpl. f_equal. lia. }
      by rewrite !He.
  - done.
  - intros He. destruct (Hb He) as [[? _]%Forall_cons [? _]%Forall_cons]. done.
Qed.

Lemma without_correspondence a : has_correspondence a = false → Forall (λ f, fact_correspondence f = None) (analysis_facts a).
Proof.
  unfold has_correspondence. intros H. apply Forall_forall. intros f Hf. destruct (fact_correspondence f) as [fp|] eqn:E; [|done]. exfalso.
  assert (existsb (λ fact, bool_decide (fact_correspondence fact ≠ None)) (analysis_facts a) = true); [|congruence].
  apply existsb_exists. exists f. split; [by apply list_elem_of_In|]. apply bool_decide_eq_true. by rewrite E.
Qed.

Lemma profile_is_no_count p r r' :
  0 < p ≤ u32_max →
  (length_prefixed RUST_CORRESPONDENCE_PROFILE_ID ++ u32_be_bytes RUST_CORRESPONDENCE_PROFILE_VERSION) ++ r ≠ u32_be_bytes p ++ r'.
Proof.
  intros Hp H. assert (length_prefixed RUST_CORRESPONDENCE_PROFILE_ID
    = u32_be_bytes 0 ++ drop 4 (length_prefixed RUST_CORRESPONDENCE_PROFILE_ID)) as Hd by (by vm_compute).
  rewrite Hd, <- !app_assoc in H. apply app_inj_1 in H as [H _]; [|unfold u32_be_bytes; by rewrite !length_be_bytes].
  apply u32_be_bytes_inj in H; unfold in_u32, u32_max in *; lia.
Qed.

(** A payload with fingerprints starts with the length of the profile's name, one without with
    the nodes visited, of which there are some. *)
Lemma artifact_payload_message_inj a a' :
  analysis_wf a → analysis_wf a' → artifact_payload_message a = artifact_payload_message a' → a = a'.
Proof.
  intros [V S K C F] [V' S' K' C' F'] H. unfold artifact_payload_message in H. cbv zeta in H. do 2 apply app_inv_head in H.
  assert (has_correspondence a = has_correspondence a') as Hh.
  { destruct (has_correspondence a), (has_correspondence a'); try done; [|symmetry in H]; by apply profile_is_no_count in H. }
  pose proof (without_correspondence a) as Hnone. pose proof (without_correspondence a') as Hnone'. rewrite <- Hh in H, Hnone'.
  apply app_inv_head in H.
  assert (∀ x y s t, in_u32 x → in_u32 y → u32_be_bytes x ++ s = u32_be_bytes y ++ t → x = y ∧ s = t) as Hu.
  { intros x y s t Hx Hy He. apply app_inj_1 in He as [He ->]; [|unfold u32_be_bytes; by rewrite !length_be_bytes]. split; [by apply u32_be_bytes_inj|done]. }
  apply Hu in H as [Hv H]; [|unfold in_u32; lia..]. apply Hu in H as [Hs H]; [|done..]. apply Hu in H as [Hk H]; [|done..].
  apply app_inj_1 in H as [Hl H]; [|unfold u64_be_bytes; by rewrite !length_be_bytes]. apply u64_bytes_inj in Hl; [|unfold in_u64; lia..].
  apply (facts_message_inj _ 0) in H; [|done|done|lia|intros He; split; auto].
  destruct a, a'. cbn in *. by subst.
Qed.

(** Digests identify what they are taken of.  When SHA-256 does not collide, two artifact
    keys, two analyses, and two manifests have the same digest exactly when they are the same,
    and two snapshots exactly when their identities, the language profile included, are the same
    and their manifests have the same entries. *)
Theorem source_digests_identify sha256 width key key' a a' i i' (m m' : CanonicalSourceManifest) :
  (∀ x y, sha256 x = sha256 y → x = y) →
  key_wf key → key_wf key' → analysis_wf a → analysis_wf a' → snapshot_wf i → snapshot_wf i' →
  manifest_fits width m → manifest_fits width m' →
  (hash_analysis_artifact_key sha256 key = hash_analysis_artifact_key sha256 key' ↔ key = key')
  ∧ (hash_analysis_artifact_payload sha256 a = hash_analysis_artifact_payload sha256 a' ↔ a = a')
  ∧ (hash_source_manifest sha256 m = hash_source_manifest sha256 m' ↔ entries m = entries m')
  ∧ (hash_source_snapshot sha256 i (hash_source_manifest sha256 m) = hash_source_snapshot sha256 i' (hash_source_manifest sha256 m')
     ↔ i = i' ∧ entries m = entries m').
Proof.
  intros Hsha K K' A A' I I' M M'.
  assert (hash_source_manifest sha256 m = hash_source_manifest sha256 m' ↔ entries m = entries m') as Hm.
  { split; [intros H%Hsha; by eapply manifest_message_inj|]. intros He. unfold hash_source_manifest, manifest_message.
    by rewrite (mf_count _ _ M), (mf_count _ _ M'), He. }
  split_and!; [| |exact Hm|].
  - split; [intros H%Hsha; by apply artifact_key_message_inj|by intros ->].
  - split; [intros H%Hsha; by apply artifact_payload_message_inj|by intros ->].
  - rewrite !hash_source_snapshot_message, <- Hm. split; [intros H%Hsha; by apply snapshot_message_inj|by intros [-> ->]].
Qed.

(** A manifest of one file. *)
Definition digest_manifest : CanonicalSourceManifest :=
  {| entries := [{| path := b_of "a.rs"; file_type := Regular; content_digest := repeat x01 32 |}]; count := 1; limit := 1 |}.
Definition digest_snapshot (make : bytes → bytes → bytes → bytes → bytes → bytes → Z → RustSourceSnapshotIdentity) : RustSourceSnapshotIdentity :=
  make (repeat x01 32) (repeat x02 32) (repeat x03 32) (repeat x04 32) (repeat x05 32) (repeat x06 32) 7.
Definition digest_key : CanonicalAnalysisArtifactKey :=
  Build_AnalysisArtifactKey (b_of "content") (repeat x01 32) (repeat x02 32) (repeat x03 32) 4.
Definition digest_analysis (known : Z) : RustSourceAnalysis :=
  {| analysis_facts := []; analysis_visited_nodes := 1; analysis_syntax_error_nodes := 1; analysis_known_parser_limitation_nodes := known |}.

Lemma source_digests_identify_witness :
  hash_source_snapshot id (digest_snapshot snapshot_new) (hash_source_manifest id digest_manifest)
  ≠ hash_source_snapshot id (digest_snapshot snapshot_new_go_and_rust) (hash_source_manifest id digest_manifest)
  ∧ hash_analysis_artifact_payload id (digest_analysis 0) ≠ hash_analysis_artifact_payload id (digest_analysis 1).
Proof.
  assert (∀ make, make = snapshot_new ∨ make = snapshot_new_go_and_rust → snapshot_wf (digest_snapshot make)) as Hs
    by (intros make [-> | ->]; split; (done || split; vm_compute; discriminate)).
  assert (∀ known, 0 ≤ known ≤ 1 → analysis_wf (digest_analysis known)) as Ha
    by (intros known Hk; split; [split; vm_compute; discriminate || reflexivity|split; vm_compute; discriminate|unfold in_u32, u32_max; cbn; lia|by vm_compute|constructor]).
  destruct (source_digests_identify id 32 digest_key digest_key (digest_analysis 0) (digest_analysis 1) (digest_snapshot snapshot_new)
              (digest_snapshot snapshot_new_go_and_rust) digest_manifest digest_manifest) as (_ & Hp & _ & Hn).
  - by intros x y.
  - split; [done..|split; vm_compute; discriminate].
  - split; [done..|split; vm_compute; discriminate].
  - apply Ha. lia.
  - apply Ha. lia.
  - apply Hs. by left.
  - apply Hs. by right.
  - split; [done|split; vm_compute; discriminate|]. apply Forall_singleton. by split; vm_compute.
  - split; [done|split; vm_compute; discriminate|]. apply Forall_singleton. by split; vm_compute.
  - split; [|intros H%Hp; discriminate H]. intros [H _]%Hn. discriminate H.
Defined.
