(* ===== verification/IndexPreparation.v ===== *)
(** * Index preparation

    Models [crates/repowitness-application/src/rust_index.rs], [rust_index/preparation.rs] and
    [rust_index/report.rs]: from immutable sources to the manifest, the analyses and the totals
    of one index, reusing stored analyses whose key is the same.  It composes the manifest
    ([SourceManifest]), the digests ([SourceDigests]) and the validation of a reused analysis
    ([SymbolFacts]).  SHA-256 and the analyzers, which walk tree-sitter syntax trees, are
    parameters; a repository path is its bytes. *)

From Stdlib Require Import ZArith Lia ZifyBool.
From Stdlib Require Import Strings.Byte.
From stdpp Require Import base numbers sorting list.
From S2P Require Import Prelude Ordering SourceManifest ArtifactReuse GraphIdentity SymbolFacts Configuration SourceDigests.

Open Scope Z_scope.

Definition DEFAULT_RUST_INDEX_FILES : Z := 200000.
Definition DEFAULT_RUST_INDEX_SOURCE_BYTES : Z := 2 * 1024 * 1024 * 1024.
Definition DEFAULT_RUST_INDEX_FACTS : Z := 5000000.
Definition MAX_RUST_INDEX_FILES : Z := 1000000.
Definition MAX_RUST_INDEX_SOURCE_BYTES : Z := 64 * 1024 * 1024 * 1024.
Definition MAX_RUST_INDEX_FACTS : Z := 100000000.

(** ** Languages *)

Definition language_as_str (language : SourceLanguage) : bytes :=
  match language with
  | Rust => b_of "rust" | Go => b_of "go" | TypeScript => b_of "typescript" | Tsx => b_of "tsx" | Python => b_of "python"
  end.

Definition language_from_stable_str (value : bytes) : option SourceLanguage :=
  if bool_decide (value = b_of "rust") then Some Rust
  else if bool_decide (value = b_of "go") then Some Go
  else if bool_decide (value = b_of "typescript") then Some TypeScript
  else if bool_decide (value = b_of "tsx") then Some Tsx
  else if bool_decide (value = b_of "python") then Some Python
  else None.

Definition matches_repository_path (language : SourceLanguage) (path : bytes) : bool :=
  match language with
  | Rust => ends_with (b_of ".rs") path
  | Go => ends_with (b_of ".go") path
  | TypeScript => ends_with (b_of ".ts") path
  | Tsx => ends_with (b_of ".tsx") path
  | Python => ends_with (b_of ".py") path || ends_with (b_of ".pyi") path
  end.

(** ** Inputs *)

Record ImmutableRustSource := {
  src_path : bytes;
  src_content : bytes;
  src_language : SourceLanguage;
}.

Record RustArtifactIdentity := {
  art_producer_manifest : bytes;
  art_configuration : bytes;
  art_schema : bytes;
  art_canonicalization_version : Z;
}.

#[export] Instance artifact_identity_eq_dec : EqDecision RustArtifactIdentity.
Proof. solve_decision. Defined.

Record SourceArtifactIdentities := {
  identities_rust : RustArtifactIdentity;
  identities_go : RustArtifactIdentity;
  identities_typescript : RustArtifactIdentity;
  identities_tsx : RustArtifactIdentity;
  identities_python : RustArtifactIdentity;
}.

Definition for_language (identities : SourceArtifactIdentities) (language : SourceLanguage) : RustArtifactIdentity :=
  match language with
  | Rust => identities_rust identities | Go => identities_go identities | TypeScript => identities_typescript identities
  | Tsx => identities_tsx identities | Python => identities_python identities
  end.

Inductive RustIndexLimitError := FileLimitTooLarge | SourceByteLimitTooLarge | FactLimitTooLarge.

Record RustIndexLimits := {
  index_max_files : Z;
  index_max_total_source_bytes : Z;
  index_max_total_facts : Z;
  index_per_file : RustAnalysisLimits;
}.

Definition index_limits_try_new (max_files max_total_source_bytes max_total_facts : Z) (per_file : RustAnalysisLimits)
    : result RustIndexLimitError RustIndexLimits :=
  if MAX_RUST_INDEX_FILES <? max_files then Err FileLimitTooLarge
  else if MAX_RUST_INDEX_SOURCE_BYTES <? max_total_source_bytes then Err SourceByteLimitTooLarge
  else if MAX_RUST_INDEX_FACTS <? max_total_facts then Err FactLimitTooLarge
  else Ok {| index_max_files := max_files; index_max_total_source_bytes := max_total_source_bytes;
             index_max_total_facts := max_total_facts; index_per_file := per_file |}.

Definition index_limits_default : RustIndexLimits :=
  {| index_max_files := DEFAULT_RUST_INDEX_FILES; index_max_total_source_bytes := DEFAULT_RUST_INDEX_SOURCE_BYTES;
     index_max_total_facts := DEFAULT_RUST_INDEX_FACTS; index_per_file := analysis_limits_DEFAULT |}.

Inductive RustIndexPreparationError :=
| FileCountNotRepresentable
| PrepFileLimitExceeded (limit : Z)
| DuplicateRepositoryPath
| UnexpectedLanguage
| LanguagePathMismatch
| LanguageArtifactIdentityCollision
| SourceByteCountOverflowed
| SourceByteLimitExceeded (limit : Z)
| PrepCancelled
| PrepDeadlineExceeded
| PrepAnalysis (ordinal : Z) (source : RustAnalysisError)
| FactCountOverflowed
| PrepFactLimitExceeded (limit : Z)
| SyntaxErrorCountOverflowed
| KnownParserLimitationCountOverflowed
| PrepManifest (source : SourceManifestError).

(** ** Outputs *)

Record PreparedRustFile := {
  file_path : bytes;
  file_language : SourceLanguage;
  file_artifact_identity : RustArtifactIdentity;
  file_content_digest : bytes;
  file_artifact_digest : bytes;
  file_analysis : RustSourceAnalysis;
}.

(** A counter for each language. *)
Record LanguageFiles := {
  rust_files : Z;
  go_files : Z;
  typescript_files : Z;
  tsx_files : Z;
  python_files : Z;
}.

Definition no_files : LanguageFiles := {| rust_files := 0; go_files := 0; typescript_files := 0; tsx_files := 0; python_files := 0 |}.

Definition files_of (files : LanguageFiles) (language : SourceLanguage) : Z :=
  match language with
  | Rust => rust_files files | Go => go_files files | TypeScript => typescript_files files
  | Tsx => tsx_files files | Python => python_files files
  end.

Definition set_files (files : LanguageFiles) (language : SourceLanguage) (value : Z) : LanguageFiles :=
  let field l := if bool_decide (l = language) then value else files_of files l in
  {| rust_files := field Rust; go_files := field Go; typescript_files := field TypeScript; tsx_files := field Tsx; python_files := field Python |}.

(** The fifteen counters of the source, by what they count. *)
Record AnalyzedLanguageCounts := {
  indexed_language_files : LanguageFiles;
  reused_language_files : LanguageFiles;
  analyzed_language_files : LanguageFiles;
}.

Definition no_counts : AnalyzedLanguageCounts :=
  {| indexed_language_files := no_files; reused_language_files := no_files; analyzed_language_files := no_files |}.

Definition increment_file_count (count : Z) : result RustIndexPreparationError Z :=
  ok_or (u64_checked_add count 1) FileCountNotRepresentable.

Definition record_file (counts : AnalyzedLanguageCounts) (language : SourceLanguage) (reused : bool)
    : result RustIndexPreparationError AnalyzedLanguageCounts :=
  indexed ← increment_file_count (files_of (indexed_language_files counts) language);
  classified ← increment_file_count (files_of (if reused then reused_language_files counts else analyzed_language_files counts) language);
  Ok {| indexed_language_files := set_files (indexed_language_files counts) language indexed;
        reused_language_files := if reused then set_files (reused_language_files counts) language classified else reused_language_files counts;
        analyzed_language_files := if reused then analyzed_language_files counts else set_files (analyzed_language_files counts) language classified |}.

Record AnalyzedRustSources := {
  as_entries : list (SourceManifestEntry bytes SourceFileKind bytes);
  as_files : list PreparedRustFile;
  as_total_facts : Z;
  as_total_syntax_error_nodes : Z;
  as_total_known_parser_limitation_nodes : Z;
  as_reused_files : Z;
  as_analyzed_files : Z;
  as_counts : AnalyzedLanguageCounts;
}.

Record PreparedRustIndex := {
  prepared_manifest_digest : bytes;
  prepared_manifest : CanonicalSourceManifest;
  prepared_files : list PreparedRustFile;
  prepared_total_source_bytes : Z;
  prepared_total_facts : Z;
  prepared_total_syntax_error_nodes : Z;
  prepared_total_known_parser_limitation_nodes : Z;
  prepared_reused_files : Z;
  prepared_analyzed_files : Z;
  prepared_counts : AnalyzedLanguageCounts;
}.

(** The analyzers that were made so far. *)
Record SourceAnalyzers := {
  has_rust : bool;
  has_go : bool;
  has_typescript : bool;
  has_tsx : bool;
  has_python : bool;
}.

Definition no_analyzers : SourceAnalyzers :=
  {| has_rust := false; has_go := false; has_typescript := false; has_tsx := false; has_python := false |}.

Definition has_analyzer (analyzers : SourceAnalyzers) (language : SourceLanguage) : bool :=
  match language with
  | Rust => has_rust analyzers | Go => has_go analyzers | TypeScript => has_typescript analyzers
  | Tsx => has_tsx analyzers | Python => has_python analyzers
  end.

Definition add_analyzer (analyzers : SourceAnalyzers) (language : SourceLanguage) : SourceAnalyzers :=
  let field l := bool_decide (l = language) || has_analyzer analyzers l in
  {| has_rust := field Rust; has_go := field Go; has_typescript := field TypeScript; has_tsx := field Tsx; has_python := field Python |}.

(** ** Validation *)

(** The languages in their order, each against those after it. *)
Fixpoint identity_collision (identities : SourceArtifactIdentities) (languages : list SourceLanguage) : bool :=
  match languages with
  | [] => false
  | language :: rest => existsb (λ other, bool_decide (for_language identities language = for_language identities other)) rest
                    || identity_collision identities rest
  end.

Definition validate_selected_language_identities (sources : list ImmutableRustSource) (identities : SourceArtifactIdentities)
    : result RustIndexPreparationError () :=
  if identity_collision identities (bset_of_list (map src_language sources)) then Err LanguageArtifactIdentityCollision else Ok ().

Definition add_source_bytes (total : Z) (source : ImmutableRustSource) : result RustIndexPreparationError Z :=
  source_bytes ← ok_or (u64_of_len (length (src_content source))) SourceByteCountOverflowed;
  ok_or (u64_checked_add total source_bytes) SourceByteCountOverflowed.

(** The sort is unstable: the order of two equal paths, which are refused, does not matter. *)
Definition validate_and_sort_sources (sources : list ImmutableRustSource) (limits : RustIndexLimits)
    : ctl RustIndexPreparationError (list ImmutableRustSource * Z) :=
  check;;
  file_count ← lift (ok_or (u64_of_len (length sources)) FileCountNotRepresentable);
  (if index_max_files limits <? file_count then throw (PrepFileLimitExceeded (index_max_files limits)) else mret ());;
  (if existsb (λ source, negb (matches_repository_path (src_language source) (src_path source))) sources
   then throw LanguagePathMismatch else mret ());;
  let sources := sort_by (λ left right, cmp (src_path left) (src_path right)) sources in
  check;;
  (if any_adjacent (λ left right, bool_decide (src_path left = src_path right)) sources then throw DuplicateRepositoryPath else mret ());;
  total_source_bytes ← lift (try_fold add_source_bytes 0 sources);
  (if index_max_total_source_bytes limits <? total_source_bytes
   then throw (SourceByteLimitExceeded (index_max_total_source_bytes limits)) else mret ());;
  check;;
  mret (sources, total_source_bytes).

Definition stable_ordinal (index : nat) : result RustIndexPreparationError Z :=
  ok_or (value ← u64_of_len index; u64_checked_add value 1) FileCountNotRepresentable.

Section preparation.
Context (sha256 : bytes → bytes).
(** The analyzer of a language: whether its grammar loads, and what it makes of a source. *)
Context (analyzer_new : SourceLanguage → result RustAnalysisError ()).
Context (analyze : SourceLanguage → bytes → RustAnalysisLimits → ctl RustAnalysisError RustSourceAnalysis).

Definition analysis_error (ordinal : Z) (source : RustAnalysisError) : RustIndexPreparationError :=
  match source with
  | AnalysisCancelled => PrepCancelled
  | AnalysisDeadlineExceeded => PrepDeadlineExceeded
  | source => PrepAnalysis ordinal source
  end.

Definition analysis_control (e : RustIndexPreparationError) : option RustAnalysisError :=
  match e with PrepCancelled => Some AnalysisCancelled | PrepDeadlineExceeded => Some AnalysisDeadlineExceeded | _ => None end.

Definition analyze_fresh_source (analyzers : SourceAnalyzers) (language : SourceLanguage) (content : bytes) (limits : RustAnalysisLimits)
    (ordinal : Z) : ctl RustIndexPreparationError (SourceAnalyzers * RustSourceAnalysis) :=
  analyzers ← (if negb (has_analyzer analyzers language)
               then lift (map_err (PrepAnalysis ordinal) (analyzer_new language));; mret (add_analyzer analyzers language)
               else mret analyzers);
  (if negb (has_analyzer analyzers language) then throw (PrepAnalysis ordinal GrammarUnavailable) else mret ());;
  analysis ← ctl_map_err (analysis_error ordinal) analysis_control (analyze language content limits);
  mret (analyzers, analysis).

Definition source_artifact_key (identity : RustArtifactIdentity) (content : bytes) : CanonicalAnalysisArtifactKey :=
  Build_AnalysisArtifactKey (hash_source_content sha256 content) (art_producer_manifest identity) (art_configuration identity)
    (art_schema identity) (art_canonicalization_version identity).

(** The entry, the file, its counts and whether its analysis was reused. *)
Record AnalyzedRustSource := {
  one_entry : SourceManifestEntry bytes SourceFileKind bytes;
  one_file : PreparedRustFile;
  one_fact_count : Z;
  one_syntax_error_nodes : Z;
  one_known_parser_limitation_nodes : Z;
  one_reused : bool;
}.

Definition analyze_source (identities : SourceArtifactIdentities) (limits : RustAnalysisLimits) (reusable : list (bytes * RustSourceAnalysis))
    (analyzers : SourceAnalyzers) (source : ImmutableRustSource) (ordinal : Z)
    : ctl RustIndexPreparationError (SourceAnalyzers * AnalyzedRustSource) :=
  let language := src_language source in
  let identity := for_language identities language in
  let content_digest := hash_source_content sha256 (src_content source) in
  check;;
  let artifact_digest := hash_analysis_artifact_key sha256 (source_artifact_key identity (src_content source)) in
  '(analyzers, analysis, reused) ←
    match bmap_get artifact_digest reusable with
    | Some analysis =>
        lift (map_err (PrepAnalysis ordinal) (validate_for_reuse sha256 analysis (src_content source) limits));;
        mret (analyzers, analysis, true)
    | None =>
        '(analyzers, analysis) ← analyze_fresh_source analyzers language (src_content source) limits ordinal;
        mret (analyzers, analysis, false)
    end;
  fact_count ← lift (ok_or (u64_of_len (length (analysis_facts analysis))) FactCountOverflowed);
  mret (analyzers,
        {| one_entry := {| path := src_path source; file_type := Regular; content_digest := content_digest |};
           one_file := {| file_path := src_path source; file_language := language; file_artifact_identity := identity;
                          file_content_digest := content_digest; file_artifact_digest := artifact_digest; file_analysis := analysis |};
           one_fact_count := fact_count; one_syntax_error_nodes := analysis_syntax_error_nodes analysis;
           one_known_parser_limitation_nodes := analysis_known_parser_limitation_nodes analysis; one_reused := reused |}).

(** The totals with one source added. *)
Definition add_analyzed (limits : RustIndexLimits) (s : AnalyzedRustSources) (analyzed : AnalyzedRustSource)
    : result RustIndexPreparationError AnalyzedRustSources :=
  total_facts ← ok_or (u64_checked_add (as_total_facts s) (one_fact_count analyzed)) FactCountOverflowed;
  reject_if (index_max_total_facts limits <? total_facts) (PrepFactLimitExceeded (index_max_total_facts limits));;
  total_syntax_error_nodes ← ok_or (u64_checked_add (as_total_syntax_error_nodes s) (one_syntax_error_nodes analyzed)) SyntaxErrorCountOverflowed;
  total_known_parser_limitation_nodes ←
    ok_or (u64_checked_add (as_total_known_parser_limitation_nodes s) (one_known_parser_limitation_nodes analyzed))
      KnownParserLimitationCountOverflowed;
  reused_files ← (if one_reused analyzed then ok_or (u64_checked_add (as_reused_files s) 1) FileCountNotRepresentable
                  else Ok (as_reused_files s));
  analyzed_files ← (if one_reused analyzed then Ok (as_analyzed_files s)
                    else ok_or (u64_checked_add (as_analyzed_files s) 1) FileCountNotRepresentable);
  counts ← record_file (as_counts s) (file_language (one_file analyzed)) (one_reused analyzed);
  Ok {| as_entries := as_entries s ++ [one_entry analyzed]; as_files := as_files s ++ [one_file analyzed]; as_total_facts := total_facts;
        as_total_syntax_error_nodes := total_syntax_error_nodes;
        as_total_known_parser_limitation_nodes := total_known_parser_limitation_nodes;
        as_reused_files := reused_files; as_analyzed_files := analyzed_files; as_counts := counts |}.

Definition no_sources : AnalyzedRustSources :=
  {| as_entries := []; as_files := []; as_total_facts := 0; as_total_syntax_error_nodes := 0;
     as_total_known_parser_limitation_nodes := 0; as_reused_files := 0; as_analyzed_files := 0; as_counts := no_counts |}.

(** One turn of the loop over the sources. *)
Definition analyze_next (identities : SourceArtifactIdentities) (limits : RustIndexLimits) (reusable : list (bytes * RustSourceAnalysis))
    (s : SourceAnalyzers * AnalyzedRustSources) (indexed : nat * ImmutableRustSource)
    : ctl RustIndexPreparationError (SourceAnalyzers * AnalyzedRustSources) :=
  let '(analyzers, sources) := s in
  let '(index, source) := indexed in
  check;;
  ordinal ← lift (stable_ordinal index);
  '(analyzers, analyzed) ← analyze_source identities (index_per_file limits) reusable analyzers source ordinal;
  sources ← lift (add_analyzed limits sources analyzed);
  mret (analyzers, sources).

Definition analyze_sources (sources : list ImmutableRustSource) (identities : SourceArtifactIdentities) (limits : RustIndexLimits)
    (reusable : list (bytes * RustSourceAnalysis)) : ctl RustIndexPreparationError AnalyzedRustSources :=
  '(_, analyzed) ← ctl_fold (analyze_next identities limits reusable) (no_analyzers, no_sources) (imap pair sources);
  mret analyzed.

Definition prepare_source_index_with_reuse (sources : list ImmutableRustSource) (identities : SourceArtifactIdentities)
    (limits : RustIndexLimits) (reusable : list (bytes * RustSourceAnalysis)) : ctl RustIndexPreparationError PreparedRustIndex :=
  lift (validate_selected_language_identities sources identities);;
  '(sources, total_source_bytes) ← validate_and_sort_sources sources limits;
  analyzed ← analyze_sources sources identities limits reusable;
  check;;
  manifest ← lift (map_err PrepManifest (try_from_vec (as_entries analyzed) (index_max_files limits)));
  mret {| prepared_manifest_digest := hash_source_manifest sha256 manifest; prepared_manifest := manifest; prepared_files := as_files analyzed;
          prepared_total_source_bytes := total_source_bytes; prepared_total_facts := as_total_facts analyzed;
          prepared_total_syntax_error_nodes := as_total_syntax_error_nodes analyzed;
          prepared_total_known_parser_limitation_nodes := as_total_known_parser_limitation_nodes analyzed;
          prepared_reused_files := as_reused_files analyzed; prepared_analyzed_files := as_analyzed_files analyzed;
          prepared_counts := as_counts analyzed |}.

Definition prepare_source_index (sources : list ImmutableRustSource) (identities : SourceArtifactIdentities) (limits : RustIndexLimits)
    : ctl RustIndexPreparationError PreparedRustIndex :=
  prepare_source_index_with_reuse sources identities limits [].

Definition all_identities (identity : RustArtifactIdentity) : SourceArtifactIdentities :=
  {| identities_rust := identity; identities_go := identity; identities_typescript := identity; identities_tsx := identity;
     identities_python := identity |}.

Definition prepare_rust_index_with_reuse (sources : list ImmutableRustSource) (identity : RustArtifactIdentity) (limits : RustIndexLimits)
    (reusable : list (bytes * RustSourceAnalysis)) : ctl RustIndexPreparationError PreparedRustIndex :=
  if existsb (λ source, negb (bool_decide (src_language source = Rust))) sources then throw UnexpectedLanguage
  else prepare_source_index_with_reuse sources (all_identities identity) limits reusable.

Definition prepare_rust_index (sources : list ImmutableRustSource) (identity : RustArtifactIdentity) (limits : RustIndexLimits)
    : ctl RustIndexPreparationError PreparedRustIndex :=
  if existsb (λ source, negb (bool_decide (src_language source = Rust))) sources then throw UnexpectedLanguage
  else prepare_rust_index_with_reuse sources identity limits [].
End preparation.

(** ** Controls

    The control, which the loop and the analyzers ask, can only stop the preparation. *)

Section reference.
Context (sha256 : bytes → bytes) (analyzer_new : SourceLanguage → result RustAnalysisError ()).
Context (analyze : SourceLanguage → bytes → RustAnalysisLimits → ctl RustAnalysisError RustSourceAnalysis).
Context (analyze_steady : ∀ language content limits, steady (analyze language content limits)).

Notation prepare := (prepare_source_index_with_reuse sha256 analyzer_new analyze).
Notation source_analysis := (analyze_source sha256 analyzer_new analyze).

Lemma steady_fresh analyzers language content limits ordinal :
  steady (analyze_fresh_source analyzer_new analyze analyzers language content limits ordinal).
Proof.
  unfold analyze_fresh_source. assert (∀ ordinal, steady (ctl_map_err (analysis_error ordinal) analysis_control (analyze language content limits))).
  { intros n. apply steady_map_err; [|apply analyze_steady]. by intros [] ? [= <-]. }
  solve_steady.
Qed.
#[local] Hint Resolve steady_fresh : steady.

Lemma steady_source identities limits reusable analyzers source ordinal :
  steady (source_analysis identities limits reusable analyzers source ordinal).
Proof. unfold analyze_source. solve_steady. Qed.
#[local] Hint Resolve steady_source : steady.

Lemma steady_next identities limits reusable s indexed : steady (analyze_next sha256 analyzer_new analyze identities limits reusable s indexed).
Proof. unfold analyze_next. solve_steady. Qed.
#[local] Hint Resolve steady_next : steady.

Lemma steady_validate sources limits : steady (validate_and_sort_sources sources limits).
Proof. unfold validate_and_sort_sources. solve_steady. Qed.
#[local] Hint Resolve steady_validate : steady.

Lemma prepare_index_steady sources identities limits reusable : steady (prepare sources identities limits reusable).
Proof. unfold prepare_source_index_with_reuse, analyze_sources. solve_steady. Qed.

(** ** Preparation without a control *)

(** The analysis of a source, and whether it is a stored one. *)
Definition analysis_for (identities : SourceArtifactIdentities) (limits : RustAnalysisLimits) (reusable : list (bytes * RustSourceAnalysis))
    (ordinal : Z) (source : ImmutableRustSource) : result RustIndexPreparationError (RustSourceAnalysis * bool) :=
  let language := src_language source in
  match bmap_get (hash_analysis_artifact_key sha256 (source_artifact_key sha256 (for_language identities language) (src_content source))) reusable with
  | Some analysis =>
      map_err (PrepAnalysis ordinal) (validate_for_reuse sha256 analysis (src_content source) limits);; Ok (analysis, true)
  | None =>
      map_err (PrepAnalysis ordinal) (analyzer_new language);;
      analysis ← map_err (analysis_error ordinal) (run never (analyze language (src_content source) limits));
      Ok (analysis, false)
  end.

Definition entry_of (source : ImmutableRustSource) : SourceManifestEntry bytes SourceFileKind bytes :=
  {| path := src_path source; file_type := Regular; content_digest := hash_source_content sha256 (src_content source) |}.

Definition file_of (identities : SourceArtifactIdentities) (source : ImmutableRustSource) (analysis : RustSourceAnalysis) : PreparedRustFile :=
  let identity := for_language identities (src_language source) in
  {| file_path := src_path source; file_language := src_language source; file_artifact_identity := identity;
     file_content_digest := hash_source_content sha256 (src_content source);
     file_artifact_digest := hash_analysis_artifact_key sha256 (source_artifact_key sha256 identity (src_content source));
     file_analysis := analysis |}.

Definition analyzed_of (identities : SourceArtifactIdentities) (source : ImmutableRustSource) (analysis : RustSourceAnalysis * bool)
    : result RustIndexPreparationError AnalyzedRustSource :=
  fact_count ← ok_or (u64_of_len (length (analysis_facts analysis.1))) FactCountOverflowed;
  Ok {| one_entry := entry_of source; one_file := file_of identities source analysis.1; one_fact_count := fact_count;
        one_syntax_error_nodes := analysis_syntax_error_nodes analysis.1;
        one_known_parser_limitation_nodes := analysis_known_parser_limitation_nodes analysis.1; one_reused := analysis.2 |}.

Definition next_pure (identities : SourceArtifactIdentities) (limits : RustIndexLimits) (reusable : list (bytes * RustSourceAnalysis))
    (s : AnalyzedRustSources) (indexed : nat * ImmutableRustSource) : result RustIndexPreparationError AnalyzedRustSources :=
  ordinal ← stable_ordinal indexed.1;
  analysis ← analysis_for identities (index_per_file limits) reusable ordinal indexed.2;
  analyzed ← analyzed_of identities indexed.2 analysis;
  add_analyzed limits s analyzed.

(** The analyzers that were made could be made. *)
Definition made (analyzers : SourceAnalyzers) : Prop := ∀ language, has_analyzer analyzers language = true → analyzer_new language = Ok ().

Lemma has_add analyzers language l : has_analyzer (add_analyzer analyzers language) l = bool_decide (l = language) || has_analyzer analyzers l.
Proof. by destruct l. Qed.

Lemma made_add analyzers language : made analyzers → analyzer_new language = Ok () → made (add_analyzer analyzers language).
Proof. intros Hm Hn l. rewrite has_add, orb_true_iff, bool_decide_eq_true. intros [-> | H]; auto. Qed.

Lemma evals_fresh analyzers language content limits ordinal :
  made analyzers →
  evals (analyze_fresh_source analyzer_new analyze analyzers language content limits ordinal)
    (map_err (PrepAnalysis ordinal) (analyzer_new language);;
     analysis ← map_err (analysis_error ordinal) (run never (analyze language content limits));
     Ok (if has_analyzer analyzers language then analyzers else add_analyzer analyzers language, analysis)).
Proof.
  intros Hm. unfold analyze_fresh_source.
  assert (evals (ctl_map_err (analysis_error ordinal) analysis_control (analyze language content limits))
            (map_err (analysis_error ordinal) (run never (analyze language content limits)))) as Ha.
  { rewrite <- (run_never_map_err _ analysis_control). apply steady_evals_run, steady_map_err; [|apply analyze_steady]. by intros [] ? [= <-]. }
  destruct (has_analyzer analyzers language) eqn:Hh; cbn [negb].
  - rewrite (Hm _ Hh). rstep. eapply evals_bind; [apply evals_ret|]. rewrite Hh. cbn [negb]. eapply evals_bind; [apply evals_ret|].
    eapply evals_mbind; [exact Ha|]. intros analysis. apply evals_ret.
  - destruct (analyzer_new language) as [[]|e]; cbn [map_err].
    + rstep. eapply evals_bind; [eapply evals_bind; [apply evals_lift|apply evals_ret]|]. rewrite has_add, bool_decide_eq_true_2 by done. cbn [orb negb].
      eapply evals_bind; [apply evals_ret|]. eapply evals_mbind; [exact Ha|]. intros analysis. apply evals_ret.
    + apply evals_bind_Err, evals_bind_Err. rstep. apply evals_lift.
Qed.

(** The analyzers after a source. *)
Definition analyzers_after (identities : SourceArtifactIdentities) (reusable : list (bytes * RustSourceAnalysis)) (analyzers : SourceAnalyzers)
    (source : ImmutableRustSource) : SourceAnalyzers :=
  let language := src_language source in
  match bmap_get (hash_analysis_artifact_key sha256 (source_artifact_key sha256 (for_language identities language) (src_content source))) reusable with
  | Some _ => analyzers
  | None => if has_analyzer analyzers language then analyzers else add_analyzer analyzers language
  end.

Lemma evals_source identities limits reusable analyzers source ordinal :
  made analyzers →
  evals (source_analysis identities limits reusable analyzers source ordinal)
    (analysis ← analysis_for identities limits reusable ordinal source;
     analyzed ← analyzed_of identities source analysis;
     Ok (analyzers_after identities reusable analyzers source, analyzed)).
Proof.
  intros Hm. unfold analyze_source, analysis_for, analyzers_after. cbv zeta. apply evals_check_bind.
  assert (∀ (analyzers' : SourceAnalyzers) r, evals
    ('(analyzers, analysis, reused) ← mret (M := ctl RustIndexPreparationError) (analyzers', r.1, r.2);
      fact_count ← lift (ok_or (u64_of_len (length (analysis_facts analysis))) FactCountOverflowed);
      mret (analyzers,
        {| one_entry := entry_of source; one_file := file_of identities source analysis;
           one_fact_count := fact_count; one_syntax_error_nodes := analysis_syntax_error_nodes analysis;
           one_known_parser_limitation_nodes := analysis_known_parser_limitation_nodes analysis; one_reused := reused |}))
    (analyzed ← analyzed_of identities source r; Ok (analyzers', analyzed))) as Hrest.
  { intros analyzers' [analysis reused]. eapply evals_bind; [apply evals_ret|]. unfold analyzed_of. cbn [fst snd].
    destruct (ok_or _ FactCountOverflowed) as [n|e] eqn:E; rstep.
    - eapply evals_bind; [apply evals_lift|apply evals_ret].
    - apply evals_bind_Err, evals_lift. }
  destruct (bmap_get _ reusable) as [analysis|].
  - destruct (map_err _ (validate_for_reuse _ _ _ _)) as [[]|e] eqn:E; rstep.
    + apply evals_assoc. eapply evals_bind; [apply evals_lift|]. apply (Hrest _ (analysis, true)).
    + apply evals_bind_Err, evals_bind_Err, evals_lift.
  - pose proof (evals_fresh analyzers (src_language source) (src_content source) limits ordinal Hm) as Hf.
    destruct (map_err _ (analyzer_new _)) as [[]|e]; rstep; [|by apply evals_bind_Err, evals_bind_Err].
    destruct (map_err (analysis_error ordinal) _) as [analysis|e]; rstep; [|by apply evals_bind_Err, evals_bind_Err].
    apply evals_assoc. eapply evals_bind; [exact Hf|]. apply (Hrest _ (analysis, false)).
Qed.

Lemma evals_next identities limits reusable analyzers s index source :
  made analyzers →
  evals (analyze_next sha256 analyzer_new analyze identities limits reusable (analyzers, s) (index, source))
    (s' ← next_pure identities limits reusable s (index, source); Ok (analyzers_after identities reusable analyzers source, s')).
Proof.
  intros Hm. unfold next_pure, analyze_next. cbn [fst snd]. apply evals_check_bind.
  destruct (stable_ordinal index) as [ordinal|e]; rstep; [|apply evals_bind_Err, evals_lift].
  eapply evals_bind; [apply evals_lift|].
  pose proof (evals_source identities (index_per_file limits) reusable analyzers source ordinal Hm) as Hs. revert Hs.
  destruct (analysis_for _ _ _ _ _) as [analysis|e]; rstep; [|apply evals_bind_Err].
  destruct (analyzed_of _ _ _) as [analyzed|e]; rstep; [|apply evals_bind_Err]. intros Hs.
  eapply evals_bind; [exact Hs|]. cbv beta iota. apply evals_mbind; [apply evals_lift|]. intros s'. apply evals_ret.
Qed.

Lemma made_after identities limits reusable analyzers s index source s' :
  made analyzers → next_pure identities limits reusable s (index, source) = Ok s' → made (analyzers_after identities reusable analyzers source).
Proof.
  unfold next_pure. cbn [fst snd]. intros Hm (ordinal & _ & (analysis & Ha & _)%bind_Ok)%bind_Ok.
  unfold analyzers_after, analysis_for in *. cbv zeta in *. destruct (bmap_get _ reusable); [done|].
  destruct (has_analyzer analyzers (src_language source)); [done|]. apply made_add; [done|].
  destruct (analyzer_new (src_language source)) as [[]|]; [done|discriminate Ha].
Qed.

Lemma evals_sources identities limits reusable xs analyzers s :
  made analyzers →
  evals ('(_, analyzed) ← ctl_fold (analyze_next sha256 analyzer_new analyze identities limits reusable) (analyzers, s) xs; mret analyzed)
    (try_fold (next_pure identities limits reusable) s xs).
Proof.
  revert analyzers s. induction xs as [|[index source] xs IH]; intros analyzers s Hm; [apply evals_ret|].
  cbn [ctl_fold try_fold]. apply evals_assoc. pose proof (evals_next identities limits reusable analyzers s index source Hm) as Hn. revert Hn.
  destruct (next_pure identities limits reusable s (index, source)) as [s'|e] eqn:E; rstep; [|apply evals_bind_Err]. intros Hn.
  eapply evals_bind; [exact Hn|]. cbv beta iota. apply IH. eapply made_after; [exact Hm|exact E].
Qed.

(** The checks of the sources, without a control. *)
Definition checked_sources (sources : list ImmutableRustSource) (limits : RustIndexLimits)
    : result RustIndexPreparationError (list ImmutableRustSource * Z) :=
  file_count ← ok_or (u64_of_len (length sources)) FileCountNotRepresentable;
  reject_if (index_max_files limits <? file_count) (PrepFileLimitExceeded (index_max_files limits));;
  reject_if (existsb (λ source, negb (matches_repository_path (src_language source) (src_path source))) sources) LanguagePathMismatch;;
  let sorted := sort_by (λ left right, cmp (src_path left) (src_path right)) sources in
  reject_if (any_adjacent (λ left right, bool_decide (src_path left = src_path right)) sorted) DuplicateRepositoryPath;;
  total ← try_fold add_source_bytes 0 sorted;
  reject_if (index_max_total_source_bytes limits <? total) (SourceByteLimitExceeded (index_max_total_source_bytes limits));;
  Ok (sorted, total).

Lemma evals_reject {E} (b : bool) (e : E) : evals (if b then throw e else mret ()) (reject_if b e).
Proof. by destruct b. Qed.

Lemma evals_validate sources limits : evals (validate_and_sort_sources sources limits) (checked_sources sources limits).
Proof.
  unfold validate_and_sort_sources, checked_sources. apply evals_check_bind. apply evals_mbind; [apply evals_lift|]. intros file_count.
  apply evals_mbind; [apply evals_reject|]. intros _. apply evals_mbind; [apply evals_reject|]. intros _. cbv zeta. apply evals_check_bind.
  apply evals_mbind; [apply evals_reject|]. intros _. apply evals_mbind; [apply evals_lift|]. intros total.
  apply evals_mbind; [apply evals_reject|]. intros _. apply evals_check_bind, evals_ret.
Qed.

Definition prepared_of (limits : RustIndexLimits) (total_source_bytes : Z) (analyzed : AnalyzedRustSources)
    : result RustIndexPreparationError PreparedRustIndex :=
  manifest ← map_err PrepManifest (try_from_vec (as_entries analyzed) (index_max_files limits));
  Ok {| prepared_manifest_digest := hash_source_manifest sha256 manifest; prepared_manifest := manifest; prepared_files := as_files analyzed;
        prepared_total_source_bytes := total_source_bytes; prepared_total_facts := as_total_facts analyzed;
        prepared_total_syntax_error_nodes := as_total_syntax_error_nodes analyzed;
        prepared_total_known_parser_limitation_nodes := as_total_known_parser_limitation_nodes analyzed;
        prepared_reused_files := as_reused_files analyzed; prepared_analyzed_files := as_analyzed_files analyzed;
        prepared_counts := as_counts analyzed |}.

Definition prepare_pure (sources : list ImmutableRustSource) (identities : SourceArtifactIdentities) (limits : RustIndexLimits)
    (reusable : list (bytes * RustSourceAnalysis)) : result RustIndexPreparationError PreparedRustIndex :=
  validate_selected_language_identities sources identities;;
  sorted ← checked_sources sources limits;
  analyzed ← try_fold (next_pure identities limits reusable) no_sources (imap pair sorted.1);
  prepared_of limits sorted.2 analyzed.

Lemma evals_prepare sources identities limits reusable :
  evals (prepare sources identities limits reusable) (prepare_pure sources identities limits reusable).
Proof.
  unfold prepare_source_index_with_reuse, prepare_pure. apply evals_mbind; [apply evals_lift|]. intros _.
  apply evals_mbind; [apply evals_validate|]. intros [sorted total]. apply evals_mbind.
  { apply evals_sources. by intros []. }
  intros analyzed. apply evals_check_bind. unfold prepared_of. apply evals_mbind; [apply evals_lift|]. intros manifest. apply evals_ret.
Qed.

(** ** Totals *)

(** What [f] counts of a list. *)
Definition total {A} (f : A → Z) (zs : list A) : Z := foldl (λ n z, n + f z) 0 zs.

Lemma index_total_app {A} (f : A → Z) zs z : total f (zs ++ [z]) = total f zs + f z.
Proof. unfold total. by rewrite foldl_app. Qed.

Lemma total_bounds {A} (f : A → Z) zs : (∀ z, 0 ≤ f z ≤ 1) → 0 ≤ total f zs ≤ Z.of_nat (length zs).
Proof. intros Hf. induction zs as [|z zs IH] using rev_ind; [by cbv|]. rewrite index_total_app, length_app. specialize (Hf z). cbn [length]. lia. Qed.

Lemma index_total_nonneg {A} (f : A → Z) zs : Forall (λ z, 0 ≤ f z) zs → 0 ≤ total f zs.
Proof.
  induction zs as [|z zs IH] using rev_ind; [done|]. intros [Hzs Hz]%Forall_app. rewrite Forall_singleton in Hz. rewrite index_total_app. specialize (IH Hzs). lia.
Qed.

Lemma total_map {A B} (f : B → Z) (g : A → B) zs : total f (map g zs) = total (λ z, f (g z)) zs.
Proof. unfold total. generalize 0. induction zs as [|z zs IH]; intros n; [done|]. apply IH. Qed.

(** A source with its analysis, and whether that was a stored one. *)
Notation analyzed_source := (ImmutableRustSource * (RustSourceAnalysis * bool))%type.

Definition facts_of (z : analyzed_source) : Z := Z.of_nat (length (analysis_facts z.2.1)).
Definition syntax_of (z : analyzed_source) : Z := analysis_syntax_error_nodes z.2.1.
Definition known_of (z : analyzed_source) : Z := analysis_known_parser_limitation_nodes z.2.1.
Definition one_if (b : bool) : Z := if b then 1 else 0.
Definition reused_of (z : analyzed_source) : Z := one_if z.2.2.
Definition fresh_of (z : analyzed_source) : Z := one_if (negb z.2.2).

(** How many of each language count. *)
Definition tally (f : analyzed_source → Z) (zs : list analyzed_source) : LanguageFiles :=
  let field language := total (λ z, if bool_decide (src_language z.1 = language) then f z else 0) zs in
  {| rust_files := field Rust; go_files := field Go; typescript_files := field TypeScript; tsx_files := field Tsx; python_files := field Python |}.

Definition sources_of (identities : SourceArtifactIdentities) (zs : list analyzed_source) : AnalyzedRustSources :=
  {| as_entries := map (λ z, entry_of z.1) zs; as_files := map (λ z, file_of identities z.1 z.2.1) zs;
     as_total_facts := total facts_of zs; as_total_syntax_error_nodes := total syntax_of zs;
     as_total_known_parser_limitation_nodes := total known_of zs;
     as_reused_files := total reused_of zs; as_analyzed_files := total fresh_of zs;
     as_counts := {| indexed_language_files := tally (λ _, 1) zs; reused_language_files := tally reused_of zs;
                     analyzed_language_files := tally fresh_of zs |} |}.

Lemma files_of_tally f zs language :
  files_of (tally f zs) language = total (λ z, if bool_decide (src_language z.1 = language) then f z else 0) zs.
Proof. by destruct language. Qed.

Lemma index_tally_bounds f zs language : (∀ z, 0 ≤ f z ≤ 1) → 0 ≤ files_of (tally f zs) language ≤ Z.of_nat (length zs).
Proof. intros Hf. rewrite files_of_tally. apply total_bounds. intros z. case_bool_decide; [apply Hf|lia]. Qed.

Lemma index_tally_snoc f zs z : tally f (zs ++ [z]) = set_files (tally f zs) (src_language z.1) (files_of (tally f zs) (src_language z.1) + f z).
Proof.
  rewrite files_of_tally. unfold tally, set_files. cbv zeta. rewrite !index_total_app.
  destruct (src_language z.1); f_equal; simpl; lia.
Qed.

Lemma tally_skip f zs z : f z = 0 → tally f (zs ++ [z]) = tally f zs.
Proof. intros Hf. unfold tally. cbv zeta. rewrite !index_total_app, Hf. f_equal; case_bool_decide; lia. Qed.

Lemma one_if_bounds b : 0 ≤ one_if b ≤ 1.
Proof. destruct b; simpl; lia. Qed.

Lemma increment_fits count : 0 ≤ count < u64_max → increment_file_count count = Ok (count + 1).
Proof. intros H. unfold increment_file_count, u64_checked_add. rewrite checked_in by lia. done. Qed.

Definition counts_of (zs : list analyzed_source) : AnalyzedLanguageCounts :=
  {| indexed_language_files := tally (λ _, 1) zs; reused_language_files := tally reused_of zs; analyzed_language_files := tally fresh_of zs |}.

(** A file is counted in its language, and there as reused or analyzed. *)
Lemma record_snoc zs z :
  Z.of_nat (length zs) < u64_max → record_file (counts_of zs) (src_language z.1) z.2.2 = Ok (counts_of (zs ++ [z])).
Proof.
  intros Hl. unfold record_file, counts_of. cbn [indexed_language_files reused_language_files analyzed_language_files].
  pose proof (index_tally_bounds (λ _, 1) zs (src_language z.1) ltac:(intros; lia)).
  pose proof (index_tally_bounds reused_of zs (src_language z.1) (λ z, one_if_bounds _)).
  pose proof (index_tally_bounds fresh_of zs (src_language z.1) (λ z, one_if_bounds _)).
  rewrite (index_tally_snoc (λ _, 1)). destruct z.2.2 eqn:Hz; rewrite !increment_fits by lia; rstep.
  - rewrite (index_tally_snoc reused_of), (tally_skip fresh_of) by (unfold fresh_of; by rewrite Hz). change (reused_of z) with (one_if z.2.2). by rewrite Hz.
  - rewrite (index_tally_snoc fresh_of), (tally_skip reused_of) by (unfold reused_of; by rewrite Hz). change (fresh_of z) with (one_if (negb z.2.2)). by rewrite Hz.
Qed.

(** The checks of the totals at one more source. *)
Definition within_totals (limits : RustIndexLimits) (zs : list analyzed_source) (z : analyzed_source) : result RustIndexPreparationError () :=
  total_facts ← ok_or (u64_checked_add (total facts_of zs) (facts_of z)) FactCountOverflowed;
  reject_if (index_max_total_facts limits <? total_facts) (PrepFactLimitExceeded (index_max_total_facts limits));;
  ok_or (u64_checked_add (total syntax_of zs) (syntax_of z)) SyntaxErrorCountOverflowed;;
  ok_or (u64_checked_add (total known_of zs) (known_of z)) KnownParserLimitationCountOverflowed;;
  Ok ().

Definition facts_counted (z : analyzed_source) : result RustIndexPreparationError () :=
  ok_or (u64_of_len (length (analysis_facts z.2.1))) FactCountOverflowed;; Ok ().

Lemma stable_ordinal_spec index :
  stable_ordinal index = if Z.of_nat index <? u64_max then Ok (Z.of_nat index + 1) else Err FileCountNotRepresentable.
Proof.
  unfold stable_ordinal, u64_of_len, u64_checked_add, checked. unfold u64_max. destruct (Z.ltb_spec (Z.of_nat index) 18446744073709551615).
  - rewrite (proj2 (Z.leb_le _ _)) by lia. rewrite (proj2 (Z.leb_le _ _)) by lia. simpl.
    rewrite (proj2 (Z.leb_le _ _)) by lia. by rewrite (proj2 (Z.leb_le _ _)) by lia.
  - destruct (_ && _) eqn:E; [|done]. simpl. rewrite (proj2 (Z.leb_gt _ 18446744073709551615)) by lia. by rewrite andb_false_r.
Qed.

(** One turn of the loop, after the sources of [zs]: the counters never overflow. *)
Lemma next_snoc identities limits reusable zs source :
  next_pure identities limits reusable (sources_of identities zs) (length zs, source)
  = ordinal ← stable_ordinal (length zs);
    analysis ← analysis_for identities (index_per_file limits) reusable ordinal source;
    facts_counted (source, analysis);;
    within_totals limits zs (source, analysis);;
    Ok (sources_of identities (zs ++ [(source, analysis)])).
Proof.
  unfold next_pure. cbn [fst snd]. rewrite stable_ordinal_spec. destruct (Z.ltb_spec (Z.of_nat (length zs)) u64_max) as [Hl|]; [|done]. rstep.
  destruct (analysis_for _ _ _ _ _) as [analysis|e]; [|done]. rstep.
  unfold analyzed_of, facts_counted, within_totals, facts_of, syntax_of, known_of. cbn [fst snd].
  unfold u64_of_len. destruct (checked u64_max (Z.of_nat (length (analysis_facts analysis.1)))) as [n|] eqn:Hn; [|done]. apply checked_Some in Hn as [-> Hn]. rstep.
  unfold add_analyzed, sources_of.
  cbn [as_entries as_files as_total_facts as_total_syntax_error_nodes as_total_known_parser_limitation_nodes as_reused_files as_analyzed_files as_counts
       one_entry one_file one_fact_count one_syntax_error_nodes one_known_parser_limitation_nodes one_reused file_language file_of].
  fold facts_of syntax_of known_of (counts_of zs).
  destruct (u64_checked_add (total facts_of zs) _) as [facts|] eqn:Hf; [|done]. rstep. destruct (_ <? facts); [done|]. rstep.
  destruct (u64_checked_add (total syntax_of zs) _) as [syntax|] eqn:Hs; [|done]. rstep.
  destruct (u64_checked_add (total known_of zs) _) as [known|] eqn:Hk; [|done]. rstep.
  apply checked_Some in Hf as [-> _], Hs as [-> _], Hk as [-> _].
  pose proof (total_bounds reused_of zs (λ z, one_if_bounds _)) as Hr. pose proof (total_bounds fresh_of zs (λ z, one_if_bounds _)) as Ha.
  pose proof (record_snoc zs (source, analysis) Hl) as Hrec. cbn [fst snd] in Hrec.
  unfold u64_checked_add. rewrite !checked_in by lia. rewrite Hrec.
  destruct analysis as [analysis reused]. cbn [fst snd]. rewrite !map_app, !index_total_app. destruct reused; rstep; do 2 f_equal; unfold reused_of, fresh_of; cbn [fst snd one_if negb]; lia.
Qed.

(** ** The loop *)

Lemma analysis_for_ordinal identities limits reusable ordinal ordinal' source analysis :
  analysis_for identities limits reusable ordinal source = Ok analysis → analysis_for identities limits reusable ordinal' source = Ok analysis.
Proof.
  unfold analysis_for. cbv zeta. destruct (bmap_get _ _) as [stored|].
  - by destruct (validate_for_reuse _ _ _ _).
  - destruct (analyzer_new _); [|done]. by destruct (run never _).
Qed.

(** The totals of the analyzed sources are within the limits and their widths. *)
Record totals_fit (limits : RustIndexLimits) (zs : list analyzed_source) : Prop := {
  tf_files : Z.of_nat (length zs) ≤ u64_max;
  tf_facts : total facts_of zs ≤ u64_max;
  tf_limit : total facts_of zs ≤ index_max_total_facts limits;
  tf_syntax : total syntax_of zs ≤ u64_max;
  tf_known : total known_of zs ≤ u64_max;
}.

(** The counters of an analysis are not negative. *)
Definition counters_ok (analysis : RustSourceAnalysis) : Prop :=
  0 ≤ analysis_syntax_error_nodes analysis ∧ 0 ≤ analysis_known_parser_limitation_nodes analysis.

Lemma totals_nonneg zs :
  Forall (λ z, counters_ok z.2.1) zs → 0 ≤ total facts_of zs ∧ 0 ≤ total syntax_of zs ∧ 0 ≤ total known_of zs.
Proof.
  intros Hc. split_and!; apply index_total_nonneg; (eapply Forall_impl; [exact Hc|]); intros z [Hs Hk]; unfold facts_of, syntax_of, known_of; lia.
Qed.

(** One more source fits exactly when the sources before it and the new totals do. *)
Lemma totals_snoc limits zs z :
  Forall (λ z, counters_ok z.2.1) (zs ++ [z]) →
  totals_fit limits (zs ++ [z]) ↔
  totals_fit limits zs ∧ Z.of_nat (length zs) < u64_max ∧ facts_counted z = Ok () ∧ within_totals limits zs z = Ok ().
Proof.
  intros Hc. pose proof (totals_nonneg _ Hc) as (Hf & Hs & Hk). apply Forall_app in Hc as [Hc Hz]. rewrite Forall_singleton in Hz.
  pose proof (totals_nonneg _ Hc) as (Hf' & Hs' & Hk'). destruct Hz as [Zs Zk]. fold (syntax_of z) in Zs. fold (known_of z) in Zk.
  assert (0 ≤ facts_of z) as Zf by (unfold facts_of; lia). rewrite !index_total_app in *. unfold facts_counted, within_totals, u64_of_len, u64_checked_add.
  fold (facts_of z). split.
  - intros [L F M S K]. rewrite !index_total_app in *. rewrite length_app in L. cbn [length] in L. split; [split; lia|]. split; [lia|].
    rewrite !checked_in by lia. rstep. by rewrite (proj2 (Z.ltb_ge _ _)) by lia.
  - intros ([L F M S K] & Hl & Hfc & Hw). destruct (checked u64_max (total facts_of zs + facts_of z)) as [n|] eqn:E; [|discriminate Hw].
    apply checked_Some in E as [-> E]. rstep. cbn [mbind result_bind ok_or reject_if] in Hw.
    destruct (_ <? _) eqn:Hlim; [discriminate Hw|]. cbn [mbind result_bind] in Hw.
    destruct (checked u64_max (total syntax_of zs + syntax_of z)) as [n|] eqn:E2; [|discriminate Hw]. cbn [mbind result_bind ok_or] in Hw.
    destruct (checked u64_max (total known_of zs + known_of z)) as [n'|] eqn:E3; [|discriminate Hw].
    apply checked_Some in E2 as [-> E2], E3 as [-> E3]. split; rewrite ?index_total_app, ?length_app; cbn [length]; lia.
Qed.

Lemma fold_snoc identities limits reusable s xs x :
  try_fold (next_pure identities limits reusable) s (imap pair (xs ++ [x]))
  = try_fold (next_pure identities limits reusable) s (imap pair xs) ≫= λ s', next_pure identities limits reusable s' (length xs, x).
Proof.
  rewrite imap_app. cbn [imap]. rewrite Nat.add_0_r, try_fold_app. destruct (try_fold _ s (imap pair xs)) as [s'|e]; [|done]. rstep.
  cbn [try_fold]. by destruct (next_pure _ _ _ s' _).
Qed.

(** The loop ends exactly when every source has an analysis and the totals fit. *)
Lemma fold_exact identities limits reusable xs s :
  (∀ ordinal source analysis, analysis_for identities (index_per_file limits) reusable ordinal source = Ok analysis → counters_ok analysis.1) →
  0 ≤ index_max_total_facts limits →
  try_fold (next_pure identities limits reusable) no_sources (imap pair xs) = Ok s ↔
  ∃ zs, map fst zs = xs ∧ Forall (λ z, analysis_for identities (index_per_file limits) reusable 1 z.1 = Ok z.2) zs
        ∧ totals_fit limits zs ∧ s = sources_of identities zs.
Proof.
  intros Hc H0. revert s. induction xs as [|x xs IH] using rev_ind; intros s.
  { split.
    - intros [= <-]. exists []. split_and!; [done|done|split; first [exact H0|by cbv]|done].
    - by intros ([|z zs] & Hmap & _ & _ & ->). }
  rewrite fold_snoc, bind_Ok. setoid_rewrite IH. split.
  - intros (s' & (zs & <- & Hzs & Hfit & ->) & Hnext). rewrite length_map, next_snoc, stable_ordinal_spec in Hnext.
    destruct (Z.ltb_spec (Z.of_nat (length zs)) u64_max) as [Hl|]; [|discriminate Hnext].
    apply bind_Ok in Hnext as (ordinal & _ & (analysis & Ha & ([] & Hfc & ([] & Hw & [= <-])%bind_Ok)%bind_Ok)%bind_Ok).
    apply (analysis_for_ordinal _ _ _ _ 1) in Ha. assert (Forall (λ z, analysis_for identities (index_per_file limits) reusable 1 z.1 = Ok z.2) (zs ++ [(x, analysis)])) as Hall.
    { apply Forall_app. split; [done|]. by apply Forall_singleton. }
    exists (zs ++ [(x, analysis)]). split_and!; [by rewrite map_app|done| |done]. apply totals_snoc; [|done].
    eapply Forall_impl; [exact Hall|]. intros z Hz. exact (Hc _ _ _ Hz).
  - intros (zs & Hmap & Hall & Hfit & ->). destruct zs as [|z zs _] using rev_ind; [by destruct xs|].
    rewrite map_app in Hmap. apply app_inj_tail in Hmap as [<- <-].
    assert (Forall (λ z, counters_ok z.2.1) (zs ++ [z])) as Hcs by (eapply Forall_impl; [exact Hall|]; intros z' Hz'; exact (Hc _ _ _ Hz')).
    apply totals_snoc in Hfit as (Hfit & Hl & Hfc & Hw); [|done]. apply Forall_app in Hall as [Hall Hz]. rewrite Forall_singleton in Hz.
    exists (sources_of identities zs). split; [eauto 8|]. rewrite length_map, next_snoc, stable_ordinal_spec, (proj2 (Z.ltb_lt _ _)) by done. rstep.
    rewrite (analysis_for_ordinal _ _ _ _ (Z.of_nat (length zs) + 1) _ _ Hz). rstep.
    destruct z as [source analysis]. cbn [fst snd]. by rewrite Hfc, Hw.
Qed.

(** ** The checks *)

Lemma total_cons {A} (f : A → Z) z zs : total f (z :: zs) = f z + total f zs.
Proof.
  induction zs as [|y zs IH] using rev_ind; [unfold total; simpl; lia|]. change (z :: zs ++ [y]) with ((z :: zs) ++ [y]). rewrite !index_total_app. lia.
Qed.

Lemma index_total_perm {A} (f : A → Z) xs ys : xs ≡ₚ ys → total f xs = total f ys.
Proof. induction 1; rewrite ?total_cons; try lia. Qed.

Definition by_path (left right : ImmutableRustSource) : comparison := cmp (src_path left) (src_path right).
Definition sorted_sources (sources : list ImmutableRustSource) : list ImmutableRustSource := sort_by by_path sources.
Definition source_bytes (source : ImmutableRustSource) : Z := len (src_content source).

#[local] Instance by_path_comparator : Comparator by_path.
Proof. exact (comparator_by src_path). Qed.

(** What the sources of an index are. *)
Record indexable (limits : RustIndexLimits) (sources : list ImmutableRustSource) : Prop := {
  ix_width : Z.of_nat (length sources) ≤ u64_max;
  ix_files : Z.of_nat (length sources) ≤ index_max_files limits;
  ix_languages : Forall (λ source, matches_repository_path (src_language source) (src_path source) = true) sources;
  ix_paths : NoDup (map src_path sources);
  ix_bytes : total source_bytes sources ≤ u64_max;
  ix_limit : total source_bytes sources ≤ index_max_total_source_bytes limits;
}.

Lemma add_source_bytes_spec t source :
  0 ≤ t → add_source_bytes t source = if t + source_bytes source <=? u64_max then Ok (t + source_bytes source) else Err SourceByteCountOverflowed.
Proof.
  intros Ht. unfold add_source_bytes, u64_of_len, u64_checked_add. fold (len (src_content source)). fold (source_bytes source).
  assert (0 ≤ source_bytes source) by apply len_nonneg. destruct (Z.leb_spec (t + source_bytes source) u64_max).
  - by rewrite !checked_in by lia; rstep; rewrite ?checked_in by lia.
  - destruct (checked u64_max (source_bytes source)) as [n|] eqn:E; [|done]. apply checked_Some in E as [-> _]. rstep.
    by rewrite (proj2 (checked_None _ _)) by lia.
Qed.

Lemma add_bytes_exact t xs t' :
  0 ≤ t → try_fold add_source_bytes t xs = Ok t' ↔ t' = t + total source_bytes xs ∧ (xs = [] ∨ t' ≤ u64_max).
Proof.
  revert t. induction xs as [|x xs IH]; intros t Ht; cbn [try_fold].
  { change (total source_bytes []) with 0. rewrite Z.add_0_r. naive_solver. }
  assert (0 ≤ total source_bytes xs) as Hx by (apply index_total_nonneg, Forall_forall; intros; apply len_nonneg).
  assert (0 ≤ source_bytes x) as Hl by apply len_nonneg. rewrite total_cons, add_source_bytes_spec by done.
  destruct (Z.leb_spec (t + source_bytes x) u64_max); rstep.
  - rewrite IH by lia. split.
    + intros [-> [-> |H']]; [change (total source_bytes []) with 0|]; (split; [lia|right; lia]).
    + intros [-> [H'|H']]; [done|]. split; [lia|right; lia].
  - split; [done|]. intros [-> [H'|H']]; [done|lia].
Qed.

Lemma checked_exact sources limits sorted :
  checked_sources sources limits = Ok sorted ↔ indexable limits sources ∧ sorted = (sorted_sources sources, total source_bytes sources).
Proof.
  assert (existsb (λ source, negb (matches_repository_path (src_language source) (src_path source))) sources = false
    ↔ Forall (λ source, matches_repository_path (src_language source) (src_path source) = true) sources) as Hl.
  { rewrite <- not_true_iff_false, existsb_exists, Forall_forall. split.
    - intros H source Hs. apply not_false_iff_true. intros Hf. apply H. exists source. rewrite Hf. split; [by apply list_elem_of_In|done].
    - intros H (source & Hs%list_elem_of_In & Hn). by rewrite (H _ Hs) in Hn. }
  assert (any_adjacent (λ left right, bool_decide (src_path left = src_path right)) (sorted_sources sources) = false ↔ NoDup (map src_path sources)) as Hp.
  { apply (any_adjacent_sort src_path). intros x y. apply bool_decide_eq_true. }
  assert (∀ t, try_fold add_source_bytes 0 (sorted_sources sources) = Ok t ↔ t = total source_bytes sources ∧ t ≤ u64_max) as Ht.
  { intros t. rewrite add_bytes_exact, Z.add_0_l, (index_total_perm _ _ sources) by (lia || apply sort_by_perm). split; [|naive_solver].
    intros [-> [H|H]]; [|done]. split; [done|]. pose proof (length_sort_by by_path sources) as Hlen. unfold sorted_sources in H. rewrite H in Hlen.
    destruct sources; [by cbv|done]. }
  unfold checked_sources. cbv zeta. fold by_path. fold (sorted_sources sources). unfold u64_of_len. split.
  - intros H. inv_ok. destruct (proj1 (Ht _) eq_refl) as [-> Hb]. split; [|done]. split; [lia|lia|by apply Hl|by apply Hp|done|lia].
  - intros [[W F L P B M] ->]. rewrite checked_in by lia. rstep. rewrite (proj2 (Z.ltb_ge _ _)) by lia. rstep. rewrite (proj2 Hl) by done. rstep.
    rewrite (proj2 Hp) by done. rstep. rewrite (proj2 (Ht (total source_bytes sources))) by done. rstep. by rewrite (proj2 (Z.ltb_ge _ _)) by lia.
Qed.

(** The languages of the sources have different artifact identities. *)
Definition distinct_identities (identities : SourceArtifactIdentities) (sources : list ImmutableRustSource) : Prop :=
  ∀ left right, left ∈ map src_language sources → right ∈ map src_language sources →
    for_language identities left = for_language identities right → left = right.

Lemma collision_exact identities sources :
  validate_selected_language_identities sources identities = Ok () ↔ distinct_identities identities sources.
Proof.
  assert (∀ ls, NoDup ls → identity_collision identities ls = false
    ↔ ∀ l l', l ∈ ls → l' ∈ ls → for_language identities l = for_language identities l' → l = l') as H.
  { induction 1 as [|l ls Hl _ IH]; [split; [by intros _ ? ? ?%elem_of_nil|done]|]. cbn [identity_collision].
    rewrite orb_false_iff, IH, <- not_true_iff_false, existsb_exists. split.
    - intros [Hno Hls] a b [->|Ha]%elem_of_cons [->|Hb]%elem_of_cons He; [done| | |by apply Hls]; destruct Hno.
      + exists b. split; [by apply list_elem_of_In|by apply bool_decide_eq_true].
      + exists a. split; [by apply list_elem_of_In|by apply bool_decide_eq_true].
    - intros Hall. split; [|intros a b Ha Hb; apply Hall; by right]. intros (b & Hb%list_elem_of_In & He%bool_decide_eq_true).
      apply Hl. rewrite (Hall l b); [done|by left|by right|done]. }
  unfold validate_selected_language_identities, distinct_identities.
  specialize (H (bset_of_list (map src_language sources)) (bset_wf_NoDup _ (bset_of_list_wf _))). setoid_rewrite elem_of_bset_of_list in H.
  rewrite <- H. by destruct (identity_collision _ _).
Qed.

(** The index of the analyzed sources. *)
Definition index_of (identities : SourceArtifactIdentities) (limits : RustIndexLimits) (zs : list analyzed_source) : PreparedRustIndex :=
  let manifest := {| entries := map (λ z, entry_of z.1) zs; count := Z.of_nat (length zs); limit := index_max_files limits |} in
  {| prepared_manifest_digest := hash_source_manifest sha256 manifest; prepared_manifest := manifest;
     prepared_files := map (λ z, file_of identities z.1 z.2.1) zs;
     prepared_total_source_bytes := total (λ z, source_bytes z.1) zs; prepared_total_facts := total facts_of zs;
     prepared_total_syntax_error_nodes := total syntax_of zs; prepared_total_known_parser_limitation_nodes := total known_of zs;
     prepared_reused_files := total reused_of zs; prepared_analyzed_files := total fresh_of zs; prepared_counts := counts_of zs |}.

(** The manifest of sorted sources is made. *)
Lemma prepared_of_sources identities limits zs sources bytes :
  indexable limits sources → map fst zs = sorted_sources sources → bytes = total source_bytes sources →
  prepared_of limits bytes (sources_of identities zs) = Ok (index_of identities limits zs).
Proof.
  intros [W F _ P _ _] Hz ->. unfold prepared_of, index_of. cbv zeta.
  assert (map (λ z, entry_of z.1) zs = map entry_of (sorted_sources sources)) as He by (rewrite <- Hz, map_map; done).
  assert (length zs = length sources) as Hl.
  { rewrite <- (length_map fst zs), Hz. apply length_sort_by. }
  rewrite (proj2 (try_from_vec_Ok _ _ {| entries := map (λ z, entry_of z.1) zs; count := Z.of_nat (length zs); limit := index_max_files limits |})).
  - rstep. assert (total source_bytes sources = total (λ z, source_bytes z.1) zs) as ->; [|done].
    rewrite <- (index_total_perm _ (sorted_sources sources) sources) by apply (sort_by_perm by_path). by rewrite <- Hz, total_map.
  - split; [|done]. split; cbn [entries count limit]; rewrite ?length_map; [|done|lia|unfold in_u64; lia].
    unfold paths_increasing, keys_increasing. rewrite He, map_map. cbn [path entry_of].
  change (keys_increasing src_path (sorted_sources sources)). by apply (keys_increasing_NoDup_sort src_path).
Qed.

(** [prepare_source_index_with_reuse] succeeds exactly when the languages of the sources have
    different artifact identities; the sources are not too many, of their language by their path,
    of different paths, and not too long; every one has an analysis, the stored one under its
    key when there is one and it is valid, or one made now; and the totals fit.  The index then
    has the sources in the order of their paths, each with its digests and its analysis, the
    manifest of them all, and the exact totals: bytes, facts, nodes, and files reused and
    analyzed, by language.  The manifest is never refused, and no counter overflows. *)
Theorem prepared_index_exact sources identities limits reusable index :
  0 ≤ index_max_total_facts limits →
  (∀ language content analysis, run never (analyze language content (index_per_file limits)) = Ok analysis → counters_ok analysis) →
  (∀ digest analysis, bmap_get digest reusable = Some analysis → counters_ok analysis) →
  run never (prepare sources identities limits reusable) = Ok index ↔
  distinct_identities identities sources ∧ indexable limits sources
  ∧ ∃ zs, map fst zs = sorted_sources sources
          ∧ Forall (λ z, analysis_for identities (index_per_file limits) reusable 1 z.1 = Ok z.2) zs
          ∧ totals_fit limits zs ∧ index = index_of identities limits zs.
Proof.
  intros H0 Hfresh Hstored. rewrite (evals_run _ _ (evals_prepare sources identities limits reusable)). unfold prepare_pure.
  assert (∀ ordinal source analysis, analysis_for identities (index_per_file limits) reusable ordinal source = Ok analysis → counters_ok analysis.1) as Hc.
  { unfold analysis_for. cbv zeta. intros ordinal source analysis H. destruct (bmap_get _ _) eqn:Hg; inv_ok; [by eapply Hstored|].
    match goal with H : map_err _ _ = Ok _ |- _ => apply map_err_Ok in H end. by eapply Hfresh. }
  split.
  - intros H. apply bind_Ok in H as ([] & Hv & (sorted & [Hix ->]%checked_exact & (s & Hs & Hp)%bind_Ok)%bind_Ok).
    apply collision_exact in Hv. apply fold_exact in Hs as (zs & Hz & Hall & Hfit & ->); [|done..]. split_and!; [done..|].
    exists zs. split_and!; [done..|]. cbn [snd] in Hp. rewrite (prepared_of_sources _ _ _ sources) in Hp by done. by injection Hp.
  - intros (Hv & Hix & zs & Hz & Hall & Hfit & ->). apply collision_exact in Hv. rewrite Hv. rstep.
    rewrite (proj2 (checked_exact sources limits _) (conj Hix eq_refl)). rstep. cbn [fst snd].
    rewrite (proj2 (fold_exact identities limits reusable (sorted_sources sources) (sources_of identities zs) Hc H0)) by eauto 8.
    rstep. by apply prepared_of_sources with sources.
Qed.

(** ** The order of the sources *)

Lemma sorted_perm sources sources' :
  sources ≡ₚ sources' → NoDup (map src_path sources) → sorted_sources sources = sorted_sources sources'.
Proof.
  intros Hp Hnd. symmetry. apply (keys_increasing_sort src_path); [by apply (keys_increasing_NoDup_sort src_path)|].
  rewrite <- Hp. apply (sort_by_perm by_path).
Qed.

Lemma checked_perm sources sources' limits : sources ≡ₚ sources' → checked_sources sources limits = checked_sources sources' limits.
Proof.
  intros Hp. unfold checked_sources. cbv zeta. rewrite <- Hp. fold by_path. fold (sorted_sources sources) (sorted_sources sources').
  assert (existsb (λ source, negb (matches_repository_path (src_language source) (src_path source))) sources
    = existsb (λ source, negb (matches_repository_path (src_language source) (src_path source))) sources') as ->.
  { apply eq_true_iff_eq. rewrite !existsb_exists. by setoid_rewrite Hp. }
  pose proof (any_adjacent_sort src_path (λ left right, bool_decide (src_path left = src_path right)) ltac:(intros; apply bool_decide_eq_true)) as Hs.
  pose proof (Hs sources) as Ha. pose proof (Hs sources') as Ha'. fold by_path in Ha, Ha'.
  fold (sorted_sources sources) in Ha. fold (sorted_sources sources') in Ha'.
  assert (NoDup (map src_path sources) ↔ NoDup (map src_path sources')) as Hn by by rewrite Hp. rewrite <- Hn in Ha'.
  destruct (any_adjacent _ (sorted_sources sources)), (any_adjacent _ (sorted_sources sources')).
  - done.
  - destruct Ha as [_ Ha]. by specialize (Ha (proj1 Ha' eq_refl)).
  - destruct Ha' as [_ Ha']. by specialize (Ha' (proj1 Ha eq_refl)).
  - by rewrite (sorted_perm _ _ Hp) by (by apply Ha).
Qed.

Lemma prepare_pure_perm sources sources' identities limits reusable :
  sources ≡ₚ sources' → prepare_pure sources identities limits reusable = prepare_pure sources' identities limits reusable.
Proof.
  intros Hp. unfold prepare_pure, validate_selected_language_identities. rewrite (checked_perm _ _ _ Hp).
  rewrite (bset_ext (bset_of_list (map src_language sources)) (bset_of_list (map src_language sources'))); [done|apply bset_of_list_wf..|].
  intros l. by rewrite !elem_of_bset_of_list, Hp.
Qed.

(** ** Reuse *)

(** The same sources and analyses, reused or not. *)
Definition same_analyses (zs zs' : list analyzed_source) : Prop := map (λ z, (z.1, z.2.1)) zs = map (λ z, (z.1, z.2.1)) zs'.

Lemma same_map {B} (f : analyzed_source → B) (g : ImmutableRustSource * RustSourceAnalysis → B) zs zs' :
  (∀ z, f z = g (z.1, z.2.1)) → same_analyses zs zs' → map f zs = map f zs'.
Proof.
  intros Hf Hs. transitivity (map g (map (λ z, (z.1, z.2.1)) zs)); [rewrite map_map; by apply map_ext|].
  rewrite Hs, map_map. apply map_ext. intros z. by rewrite Hf.
Qed.

Lemma same_total (f : analyzed_source → Z) (g : ImmutableRustSource * RustSourceAnalysis → Z) zs zs' :
  (∀ z, f z = g (z.1, z.2.1)) → same_analyses zs zs' → total f zs = total f zs'.
Proof.
  intros Hf Hs. pose proof (same_map f g zs zs' Hf Hs) as Hm. transitivity (total id (map f zs)); [by rewrite total_map|]. by rewrite Hm, total_map.
Qed.

Lemma same_totals zs zs' :
  same_analyses zs zs' →
  length zs = length zs' ∧ total facts_of zs = total facts_of zs' ∧ total syntax_of zs = total syntax_of zs' ∧ total known_of zs = total known_of zs'.
Proof.
  intros Hs. split_and!.
  - rewrite <- (length_map (λ z, (z.1, z.2.1)) zs), Hs. apply length_map.
  - by apply (same_total _ (λ z, Z.of_nat (length (analysis_facts z.2)))).
  - by apply (same_total _ (λ z, analysis_syntax_error_nodes z.2)).
  - by apply (same_total _ (λ z, analysis_known_parser_limitation_nodes z.2)).
Qed.

(** An index without what tells reused files from analyzed ones. *)
Definition without_origin (index : PreparedRustIndex) : PreparedRustIndex :=
  {| prepared_manifest_digest := prepared_manifest_digest index; prepared_manifest := prepared_manifest index;
     prepared_files := prepared_files index; prepared_total_source_bytes := prepared_total_source_bytes index;
     prepared_total_facts := prepared_total_facts index; prepared_total_syntax_error_nodes := prepared_total_syntax_error_nodes index;
     prepared_total_known_parser_limitation_nodes := prepared_total_known_parser_limitation_nodes index;
     prepared_reused_files := 0; prepared_analyzed_files := 0;
     prepared_counts := {| indexed_language_files := indexed_language_files (prepared_counts index);
                           reused_language_files := no_files; analyzed_language_files := no_files |} |}.

Definition outcome_without_origin (r : result RustIndexPreparationError PreparedRustIndex) : result RustIndexPreparationError PreparedRustIndex :=
  index ← r; Ok (without_origin index).

Lemma same_prepared identities limits total_bytes zs zs' :
  same_analyses zs zs' →
  outcome_without_origin (prepared_of limits total_bytes (sources_of identities zs))
  = outcome_without_origin (prepared_of limits total_bytes (sources_of identities zs')).
Proof.
  intros Hs. unfold prepared_of, sources_of, outcome_without_origin.
  cbn [as_entries as_files as_total_facts as_total_syntax_error_nodes as_total_known_parser_limitation_nodes].
  rewrite (same_map (λ z, entry_of z.1) (λ z, entry_of z.1) zs zs') by done.
  destruct (map_err PrepManifest _) as [manifest|e]; [|done]. rstep. unfold without_origin. cbn.
  destruct (same_totals _ _ Hs) as (_ & Hf & Hy & Hk). rewrite Hf, Hy, Hk.
  rewrite (same_map (λ z, file_of identities z.1 z.2.1) (λ z, file_of identities z.1 z.2) zs zs') by done.
  assert (tally (λ _, 1) zs = tally (λ _, 1) zs') as Ht; [|by rewrite Ht].
  assert (∀ language, total (λ z : analyzed_source, if bool_decide (src_language z.1 = language) then 1 else 0) zs
    = total (λ z : analyzed_source, if bool_decide (src_language z.1 = language) then 1 else 0) zs') as Hl.
  { intros language. by apply (same_total _ (λ z, if bool_decide (src_language z.1 = language) then 1 else 0)). }
  unfold tally. by rewrite !Hl.
Qed.

(** The outcomes of two analyses of a source are the same but for their origin. *)
Definition same_outcome (r r' : result RustIndexPreparationError (RustSourceAnalysis * bool)) : Prop :=
  match r, r' with
  | Ok analysis, Ok analysis' => analysis.1 = analysis'.1
  | Err e, Err e' => e = e'
  | _, _ => False
  end.

Lemma same_fold identities limits reusable reusable' xs :
  (∀ source ordinal, source ∈ xs →
     same_outcome (analysis_for identities (index_per_file limits) reusable ordinal source)
       (analysis_for identities (index_per_file limits) reusable' ordinal source)) →
  match try_fold (next_pure identities limits reusable) no_sources (imap pair xs),
        try_fold (next_pure identities limits reusable') no_sources (imap pair xs) with
  | Ok s, Ok s' => ∃ zs zs', s = sources_of identities zs ∧ s' = sources_of identities zs' ∧ same_analyses zs zs' ∧ length zs = length xs
  | Err e, Err e' => e = e'
  | _, _ => False
  end.
Proof.
  induction xs as [|x xs IH] using rev_ind; intros Hx; [by exists [], []|]. rewrite !fold_snoc.
  assert (∀ source ordinal, source ∈ xs →
     same_outcome (analysis_for identities (index_per_file limits) reusable ordinal source)
       (analysis_for identities (index_per_file limits) reusable' ordinal source)) as Hxs by (intros; apply Hx, elem_of_app; by left).
  specialize (IH Hxs). destruct (try_fold _ no_sources (imap pair xs)) as [s|e] eqn:E1, (try_fold (next_pure identities limits reusable') no_sources _) as [s'|e'];
    rstep; try done.
  destruct IH as (zs & zs' & -> & -> & Hs & Hl). destruct (same_totals _ _ Hs) as (Hlen & Hf & Hy & Hk).
  pose proof (next_snoc identities limits reusable zs x) as Hn. pose proof (next_snoc identities limits reusable' zs' x) as Hn'.
  rewrite <- Hlen, Hl in Hn'. rewrite Hl in Hn. rewrite Hn, Hn'. destruct (stable_ordinal (length xs)) as [ordinal|e]; rstep; [|done].
  specialize (Hx x ordinal ltac:(apply elem_of_app; right; by apply list_elem_of_singleton)). unfold same_outcome in Hx.
  destruct (analysis_for _ _ reusable _ _) as [[a b]|e], (analysis_for _ _ reusable' _ _) as [[a' b']|e']; rstep; try done. cbn [fst] in Hx. subst a'.
  change (facts_counted (x, (a, b'))) with (facts_counted (x, (a, b))). destruct (facts_counted _) as [[]|e]; rstep; [|done].
  assert (within_totals limits zs' (x, (a, b')) = within_totals limits zs (x, (a, b))) as ->.
  { unfold within_totals. by rewrite Hf, Hy, Hk. }
  destruct (within_totals _ _ _) as [[]|e]; rstep; [|done]. exists (zs ++ [(x, (a, b))]), (zs' ++ [(x, (a, b'))]). split_and!; [done|done| |].
  - unfold same_analyses. rewrite !map_app. by rewrite Hs.
  - rewrite !length_app. simpl. lia.
Qed.

(** The identities are digests, and their version is a [u32]. *)
Definition identities_wf (identities : SourceArtifactIdentities) : Prop :=
  ∀ language, let identity := for_language identities language in
    length (art_producer_manifest identity) = 32%nat ∧ length (art_configuration identity) = 32%nat ∧ length (art_schema identity) = 32%nat
    ∧ in_u32 (art_canonicalization_version identity).

(** Every stored analysis was made, by the analyzer whose identity is in its key, of the content
    whose digest is; a language that is not selected does not share the identity of one that is. *)
Definition stored_analyses (identities : SourceArtifactIdentities) (limits : RustAnalysisLimits) (sources : list ImmutableRustSource)
    (reusable : list (bytes * RustSourceAnalysis)) : Prop :=
  ∀ digest analysis, bmap_get digest reusable = Some analysis → ∃ language content,
    digest = hash_analysis_artifact_key sha256 (source_artifact_key sha256 (for_language identities language) content)
    ∧ analyzer_new language = Ok () ∧ run never (analyze language content limits) = Ok analysis
    ∧ validate_for_reuse sha256 analysis content limits = Ok ()
    ∧ (language ∈ map src_language sources
       ∨ ∀ other, other ∈ map src_language sources → for_language identities other ≠ for_language identities language).

(** A key tells content and identity. *)
Lemma artifact_key_inj identities language language' content content' :
  (∀ x y, sha256 x = sha256 y → x = y) → identities_wf identities →
  hash_analysis_artifact_key sha256 (source_artifact_key sha256 (for_language identities language) content)
  = hash_analysis_artifact_key sha256 (source_artifact_key sha256 (for_language identities language') content') →
  for_language identities language = for_language identities language' ∧ content = content'.
Proof.
  intros Hsha Hwf H%Hsha. destruct (Hwf language) as (P & C & S & V), (Hwf language') as (P' & C' & S' & V').
  apply artifact_key_message_inj in H; [|by split..]. unfold source_artifact_key, hash_source_content in H. injection H as Hc Hp Hf Hs Hv.
  split; [|by apply Hsha]. destruct (for_language identities language), (for_language identities language'). cbn in *. by subst.
Qed.

Lemma stored_same identities limits sources reusable ordinal source :
  (∀ x y, sha256 x = sha256 y → x = y) → identities_wf identities → stored_analyses identities limits sources reusable →
  distinct_identities identities sources → source ∈ sources →
  same_outcome (analysis_for identities limits reusable ordinal source) (analysis_for identities limits [] ordinal source).
Proof.
  intros Hsha Hwf Hst Hd Hin. apply (list_elem_of_fmap_2 src_language) in Hin. unfold analysis_for. cbv zeta. cbn [bmap_get].
  destruct (bmap_get _ reusable) as [analysis|] eqn:Hg.
  - apply Hst in Hg as (language & content & Hk & Hnew & Ha & Hv & Hl).
    apply artifact_key_inj in Hk as [Hi ->]; [|done..].
    assert (src_language source = language) as ->.
    { destruct Hl as [Hl|Hl]; [by apply Hd|]. by apply Hl in Hi. }
    by rewrite Hv, Hnew, Ha.
  - destruct (map_err _ (analyzer_new _)); [|done]. rstep. by destruct (map_err _ (run never _)).
Qed.

(** Preparing an index with stored analyses gives what preparing it from scratch gives: the
    same error, or the same manifest, files, digests, analyses and totals, but for the counters
    of the files reused and analyzed.  The order in which the sources are given does not matter.
    SHA-256 does not collide; every stored analysis was made by the analyzer and of the content
    that its key names.  The key names the analyzer by its identity only, which may not tell two
    languages apart: the selected languages are checked to have different ones. *)
Theorem incremental_index_equals_clean sources sources' identities limits reusable :
  (∀ x y, sha256 x = sha256 y → x = y) → identities_wf identities →
  stored_analyses identities (index_per_file limits) sources reusable → sources ≡ₚ sources' →
  outcome_without_origin (run never (prepare sources identities limits reusable))
  = outcome_without_origin (run never (prepare_source_index sha256 analyzer_new analyze sources' identities limits)).
Proof.
  intros Hsha Hwf Hst Hp. unfold prepare_source_index. rewrite (evals_run _ _ (evals_prepare sources identities limits reusable)), (evals_run _ _ (evals_prepare sources' identities limits [])).
  rewrite <- (prepare_pure_perm sources sources') by done.
  unfold prepare_pure. destruct (validate_selected_language_identities sources identities) as [[]|e] eqn:Hv; rstep; [|done].
  destruct (checked_sources sources limits) as [sorted|e] eqn:Hs; rstep; [|done]. apply collision_exact in Hv. apply checked_exact in Hs as [_ ->].
  cbn [fst snd]. pose proof (same_fold identities limits reusable [] (sorted_sources sources)) as Hf.
  assert (∀ source ordinal, source ∈ sorted_sources sources →
     same_outcome (analysis_for identities (index_per_file limits) reusable ordinal source)
       (analysis_for identities (index_per_file limits) [] ordinal source)) as Hsame.
  { intros source ordinal Hin%elem_of_sort_by. by apply (stored_same _ _ sources). }
  specialize (Hf Hsame). destruct (try_fold (next_pure identities limits reusable) _ _) as [s|e], (try_fold (next_pure identities limits []) _ _) as [s'|e']; rstep; try done.
  - destruct Hf as (zs & zs' & -> & -> & Hzs & _). by apply same_prepared.
  - by rewrite Hf.
Qed.
End reference.

(** ** Examples *)

Definition example_digest (b : byte) : bytes := repeat b 32.
Definition example_identity (b : byte) : RustArtifactIdentity :=
  {| art_producer_manifest := example_digest b; art_configuration := example_digest x01; art_schema := example_digest x02; art_canonicalization_version := 1 |}.
Definition example_identities : SourceArtifactIdentities :=
  {| identities_rust := example_identity x10; identities_go := example_identity x11; identities_typescript := example_identity x12;
     identities_tsx := example_identity x13; identities_python := example_identity x14 |}.
Definition example_analysis : RustSourceAnalysis :=
  {| analysis_facts := []; analysis_visited_nodes := 1; analysis_syntax_error_nodes := 0; analysis_known_parser_limitation_nodes := 0 |}.
Definition example_analyze (_ : SourceLanguage) (_ : bytes) (_ : RustAnalysisLimits) : ctl RustAnalysisError RustSourceAnalysis := mret example_analysis.
Definition example_sources : list ImmutableRustSource :=
  [{| src_path := b_of "b.rs"; src_content := b_of "mod b;"; src_language := Rust |}; {| src_path := b_of "a.go"; src_content := b_of "package a"; src_language := Go |}].
Definition example_stored : list (bytes * RustSourceAnalysis) :=
  [(hash_analysis_artifact_key id (source_artifact_key id (example_identity x11) (b_of "package a")), example_analysis)].

Lemma incremental_index_equals_clean_witness :
  outcome_without_origin (run never (prepare_source_index_with_reuse id (λ _, Ok ()) example_analyze example_sources example_identities index_limits_default example_stored))
  = outcome_without_origin (run never (prepare_source_index id (λ _, Ok ()) example_analyze (reverse example_sources) example_identities index_limits_default)).
Proof.
  apply (incremental_index_equals_clean id (λ _, Ok ()) example_analyze).
  - intros language content limits. apply steady_ret.
  - by intros x y.
  - intros []; (split_and!; [done..|split; vm_compute; discriminate]).
  - intros digest analysis H. exists Go, (b_of "package a"). unfold example_stored in H. cbn [bmap_get] in H.
    destruct (cmp digest _) eqn:E; [|discriminate H..]. apply cmp_eq in E. injection H as <-. split_and!; [exact E|done|done|by vm_compute|].
    left. right. left.
  - by rewrite reverse_Permutation.
Defined.

Lemma prepared_index_exact_witness :
  let prepare := prepare_source_index_with_reuse id (λ _, Ok ()) example_analyze example_sources example_identities index_limits_default example_stored in
  (∃ index, run never prepare = Ok index) ∧
  ∀ index, run never prepare = Ok index ↔
    distinct_identities example_identities example_sources ∧ indexable index_limits_default example_sources
    ∧ ∃ zs, map fst zs = sorted_sources example_sources
            ∧ Forall (λ z, analysis_for id (λ _, Ok ()) example_analyze example_identities (index_per_file index_limits_default) example_stored 1 z.1 = Ok z.2) zs
            ∧ totals_fit index_limits_default zs ∧ index = index_of id example_identities index_limits_default zs.
Proof.
  intros prepare. split.
  { assert (is_ok (run never prepare) = true) as Hok by (vm_compute; reflexivity). destruct (run never prepare) as [index|]; [by exists index|discriminate Hok]. }
  intros index. apply (prepared_index_exact id (λ _, Ok ()) example_analyze).
  - intros language content limits. apply steady_ret.
  - by vm_compute.
  - intros language content analysis [= <-]. by split; vm_compute.
  - intros digest analysis H. unfold example_stored in H. cbn [bmap_get] in H. destruct (cmp digest _); [|discriminate H..]. injection H as <-. by split; vm_compute.
Defined.
