(* ===== verification/MaterialResult.v ===== *)
(** * Material results

    Models [crates/repowitness-domain/src/result.rs], [coverage.rs], [evidence.rs] and
    [resolution.rs]: bounded collections of results, the coverage of a request, attributed
    evidence, and the envelope that pins a claim and its evidence to one snapshot and
    generation. *)

From Stdlib Require Import ZArith Lia ZifyBool.
From stdpp Require Import base numbers list.
From S2P Require Import Prelude Ordering GraphIdentity.

Open Scope Z_scope.

(** ** Coverage *)

Inductive CoverageCompleteness := CoverageComplete | CoveragePartial | CoverageTruncated.

Record CoverageSummary := {
  cov_searched : Z;
  cov_skipped : Z;
  cov_unresolved : Z;
  cov_truncated : Z;
}.

Definition completeness (coverage : CoverageSummary) : CoverageCompleteness :=
  if negb (cov_truncated coverage =? 0) then CoverageTruncated
  else if negb (cov_skipped coverage =? 0) || negb (cov_unresolved coverage =? 0) then CoveragePartial
  else CoverageComplete.

#[export] Instance completeness_eq_dec : EqDecision CoverageCompleteness.
Proof. solve_decision. Defined.

(** ** Bounded collections *)

Inductive ResultItemsError := ItemCountNotRepresentable | ItemLimitExceeded (actual limit : Z).

Record BoundedResultItems (T : Type) := {
  items : list T;
  items_count : Z;
  items_limit : Z;
}.
Arguments items {T} _.
Arguments items_count {T} _.
Arguments items_limit {T} _.

Definition bounded_from_vec {T} (items : list T) (limit : Z) : result ResultItemsError (BoundedResultItems T) :=
  count ← ok_or (u64_of_len (length items)) ItemCountNotRepresentable;
  if limit <? count then Err (ItemLimitExceeded count limit)
  else Ok {| items := items; items_count := count; items_limit := limit |}.

Definition items_is_empty {T} (collection : BoundedResultItems T) : bool := items_count collection =? 0.

(** ** Evidence *)

Inductive EvidenceLocation (O : Type) :=
| WholeFile
| LocByteSpan (span : ByteSpan)
| SymbolOccurrence (occurrence : O).
Arguments WholeFile {O}.
Arguments LocByteSpan {O} span.
Arguments SymbolOccurrence {O} occurrence.

Record EvidenceIdentity (R S F D O : Type) := {
  evidence_repository : R;
  evidence_snapshot : S;
  evidence_path : F;
  evidence_content_digest : D;
  evidence_location : EvidenceLocation O;
}.
Arguments Build_EvidenceIdentity {R S F D O} _ _ _ _ _.
Arguments evidence_repository {R S F D O} _.
Arguments evidence_snapshot {R S F D O} _.
Arguments evidence_path {R S F D O} _.
Arguments evidence_content_digest {R S F D O} _.
Arguments evidence_location {R S F D O} _.

Record ProducerIdentity (I V : Type) := {
  producer_id : I;
  producer_version : V;
}.
Arguments Build_ProducerIdentity {I V} _ _.
Arguments producer_id {I V} _.
Arguments producer_version {I V} _.

Inductive EvidenceTier := CompilerOrScip | LanguageServer | TierSyntax | TierHeuristic | RuntimeObservation | HumanAssertion.
Inductive EvidenceRelation := Supports | Contradicts.

#[export] Instance relation_eq_dec : EqDecision EvidenceRelation.
Proof. solve_decision. Defined.

Record EvidenceRecord (I P : Type) := {
  record_identity : I;
  record_producer : P;
  record_tier : EvidenceTier;
  record_relation : EvidenceRelation;
}.
Arguments Build_EvidenceRecord {I P} _ _ _ _.
Arguments record_identity {I P} _.
Arguments record_producer {I P} _.
Arguments record_tier {I P} _.
Arguments record_relation {I P} _.

(** ** Results *)

Inductive ResolutionStatus := Confirmed | Inferred | Ambiguous | Unresolved | Indeterminate.

#[export] Instance status_eq_dec : EqDecision ResolutionStatus.
Proof. solve_decision. Defined.

Inductive MaterialResultError :=
| ResolvedWithContradictoryEvidence (resolution : ResolutionStatus)
| ResolvedWithoutSupportingEvidence (resolution : ResolutionStatus)
| AmbiguousWithoutEvidence
| UnresolvedWithoutCoverage
| IndeterminateWithoutExplanation.

Inductive ResultNoticeKind := NoticeWarning | NoticeLimitation.

Record ResultNotice (N : Type) := {
  notice_kind : ResultNoticeKind;
  notice_detail : N;
}.
Arguments Build_ResultNotice {N} _ _.

Record MaterialResult (C I P S G N : Type) := {
  mr_claim : C;
  mr_evidence : BoundedResultItems (EvidenceRecord I P);
  mr_resolution : ResolutionStatus;
  mr_snapshot : S;
  mr_generation : G;
  mr_notices : BoundedResultItems (ResultNotice N);
  mr_coverage : CoverageSummary;
}.
Arguments mr_claim {C I P S G N} _.
Arguments mr_evidence {C I P S G N} _.
Arguments mr_resolution {C I P S G N} _.
Arguments mr_snapshot {C I P S G N} _.
Arguments mr_generation {C I P S G N} _.
Arguments mr_notices {C I P S G N} _.
Arguments mr_coverage {C I P S G N} _.

Section material.
Context {C I P S G N : Type}.

Definition material_try_new (claim : C) (evidence : BoundedResultItems (EvidenceRecord I P)) (resolution : ResolutionStatus)
    (snapshot : S) (generation : G) (notices : BoundedResultItems (ResultNotice N)) (coverage : CoverageSummary)
    : result MaterialResultError (MaterialResult C I P S G N) :=
  let has_supporting_evidence := existsb (λ record, bool_decide (record_relation record = Supports)) (items evidence) in
  let has_contradictory_evidence := existsb (λ record, bool_decide (record_relation record = Contradicts)) (items evidence) in
  (if bool_decide (resolution = Confirmed) || bool_decide (resolution = Inferred) then
     reject_if has_contradictory_evidence (ResolvedWithContradictoryEvidence resolution);;
     reject_if (negb has_supporting_evidence) (ResolvedWithoutSupportingEvidence resolution)
   else if bool_decide (resolution = Ambiguous) && items_is_empty evidence then Err AmbiguousWithoutEvidence
   else if bool_decide (resolution = Unresolved) && (cov_unresolved coverage =? 0) then Err UnresolvedWithoutCoverage
   else if bool_decide (resolution = Indeterminate) && items_is_empty evidence && items_is_empty notices
           && bool_decide (completeness coverage = CoverageComplete) then Err IndeterminateWithoutExplanation
   else Ok ());;
  Ok {| mr_claim := claim; mr_evidence := evidence; mr_resolution := resolution; mr_snapshot := snapshot; mr_generation := generation;
        mr_notices := notices; mr_coverage := coverage |}.

(** What each status promises. *)
Definition justified (evidence : BoundedResultItems (EvidenceRecord I P)) (resolution : ResolutionStatus)
    (notices : BoundedResultItems (ResultNotice N)) (coverage : CoverageSummary) : Prop :=
  match resolution with
  | Confirmed | Inferred => items evidence ≠ [] ∧ Forall (λ record, record_relation record = Supports) (items evidence)
  | Ambiguous => items evidence ≠ []
  | Unresolved => cov_unresolved coverage ≠ 0
  | Indeterminate => items evidence ≠ [] ∨ items notices ≠ [] ∨ cov_skipped coverage ≠ 0 ∨ cov_unresolved coverage ≠ 0 ∨ cov_truncated coverage ≠ 0
  end.

Definition counted {T} (collection : BoundedResultItems T) : Prop := items_count collection = Z.of_nat (length (items collection)).

Lemma bounded_exact {T} (xs : list T) limit collection :
  bounded_from_vec xs limit = Ok collection ↔
  Z.of_nat (length xs) ≤ u64_max ∧ Z.of_nat (length xs) ≤ limit
  ∧ collection = {| items := xs; items_count := Z.of_nat (length xs); items_limit := limit |}.
Proof.
  unfold bounded_from_vec, u64_of_len. destruct (checked u64_max _) as [n|] eqn:E; rstep.
  - apply checked_Some in E as [-> E]. destruct (Z.ltb_spec limit (Z.of_nat (length xs))); [split; [done|lia]|].
    split; [intros [= <-]; split_and!; (lia || done)|]. by intros (_ & _ & ->).
  - apply checked_None in E. split; [done|lia].
Qed.

Lemma counted_empty {T} (collection : BoundedResultItems T) : counted collection → items_is_empty collection = bool_decide (items collection = []).
Proof. unfold counted, items_is_empty. intros ->. destruct (items collection) as [|x xs]; [done|]. cbn [length]. rewrite bool_decide_eq_false_2 by done. lia. Qed.

Lemma all_support (records : list (EvidenceRecord I P)) :
  existsb (λ record, bool_decide (record_relation record = Contradicts)) records = false ∧
  existsb (λ record, bool_decide (record_relation record = Supports)) records = true ↔
  records ≠ [] ∧ Forall (λ record, record_relation record = Supports) records.
Proof.
  assert (∀ rs : list (EvidenceRecord I P), existsb (λ record, bool_decide (record_relation record = Contradicts)) rs = false
          ↔ Forall (λ record, record_relation record = Supports) rs) as Hc.
  { induction rs as [|r rs IH]; [done|]. cbn [existsb]. rewrite orb_false_iff, IH, Forall_cons.
    destruct (record_relation r); [rewrite bool_decide_eq_false_2 by done|rewrite bool_decide_eq_true_2 by done]; naive_solver. }
  rewrite Hc. split.
  - intros [Hall Hs]. split; [by intros ->|done].
  - intros [Hne Hall]. split; [done|]. destruct Hall as [|r rs Hr]; [done|]. cbn [existsb]. by rewrite Hr.
Qed.

Lemma incomplete_iff coverage :
  completeness coverage ≠ CoverageComplete ↔ cov_skipped coverage ≠ 0 ∨ cov_unresolved coverage ≠ 0 ∨ cov_truncated coverage ≠ 0.
Proof.
  unfold completeness. destruct (Z.eqb_spec (cov_truncated coverage) 0), (Z.eqb_spec (cov_skipped coverage) 0),
    (Z.eqb_spec (cov_unresolved coverage) 0); cbn [negb orb]; split; (done || lia || by intros _; auto).
Qed.

(** A material result is made exactly when its status is justified.  A confirmed or inferred
    one has evidence, all of it supporting; an ambiguous one has evidence; an unresolved one
    reports unresolved coverage; an indeterminate one has evidence, a notice or incomplete
    coverage to explain it.  What is made is what was given. *)
Theorem material_result_exact claim evidence resolution snapshot generation notices coverage r :
  counted evidence → counted notices →
  material_try_new claim evidence resolution snapshot generation notices coverage = Ok r ↔
  justified evidence resolution notices coverage
  ∧ r = {| mr_claim := claim; mr_evidence := evidence; mr_resolution := resolution; mr_snapshot := snapshot; mr_generation := generation;
           mr_notices := notices; mr_coverage := coverage |}.
Proof.
  intros He%counted_empty Hn%counted_empty. unfold material_try_new. cbv zeta. rewrite He, Hn.
  pose proof (all_support (items evidence)) as Hs.
  assert (∀ (b : bool) (e : MaterialResultError) (Q : Prop) (x : MaterialResult C I P S G N), (b = false ↔ Q) →
    ((if b then Err e else Ok ());; Ok x) = Ok r ↔ Q ∧ r = x) as Hif.
  { intros [] e Q x Hb; rstep; [split; [done|]; intros [HQ _]; by apply Hb in HQ|]. split; [intros [= <-]; by rewrite <- Hb|by intros [_ ->]]. }
  destruct resolution; cbn [justified]; simpl bool_decide; cbn [orb andb].
  1, 2: rewrite <- Hs; generalize (existsb (λ record, bool_decide (record_relation record = Contradicts)) (items evidence)),
    (existsb (λ record, bool_decide (record_relation record = Supports)) (items evidence)); intros [] []; rstep;
    (split; [done || by intros [= <-]|intros [[? ?] ->]; done]).
  - apply Hif. by rewrite bool_decide_eq_false.
  - apply Hif. lia.
  - apply Hif. rewrite !andb_false_iff, !bool_decide_eq_false, incomplete_iff. tauto.
Qed.
End material.
