(* ===== verification/PackageScope.v ===== *)
(** * Package scopes

    Models [crates/repowitness-application/src/package_scope.rs] and
    [crates/repowitness-local/src/package_scope.rs]: the whole repository or a bounded set of
    package roots that do not overlap, its canonical form, its identity, and the filtering of
    discovered paths.  SHA-256 is a parameter; the control is the oracle of [ctl]. *)

From Stdlib Require Import ZArith Lia ZifyBool.
From Stdlib Require Import Strings.Byte.
From stdpp Require Import base numbers sorting list.
From S2P Require Import Prelude Ordering RepositoryPath GitPaths MaterialResult.

Open Scope Z_scope.

Definition PACKAGE_SCOPE_DIGEST_DOMAIN : bytes := b_of "RepoWitness" ++ [x00] ++ b_of "package-scope" ++ [x00].
Definition WHOLE_REPOSITORY_TAG : byte := x00.
Definition EXPLICIT_ROOTS_TAG : byte := x01.
Definition PACKAGE_SCOPE_VERSION : Z := 1.
Definition MAX_PACKAGE_SCOPE_ROOTS : Z := 64.
(** [RepositoryPath::VERSION]. *)
Definition REPOSITORY_PATH_VERSION : Z := 1.

(** ** Scopes *)

Record PackageScope := { scope_roots : option (list RepositoryPath) }.

Inductive PackageScopeError :=
| EmptyExplicitRoots
| RootLimitExceeded (limit : Z)
| InvalidRoot (ordinal : Z) (source : RepositoryPathError)
| DuplicateRoot
| OverlappingRoots.

Definition whole_repository : PackageScope := {| scope_roots := None |}.

(** The path is the root, or below it at a component boundary. *)
Definition root_contains (root path : RepositoryPath) : bool :=
  path_eqb path root
  || match strip_prefix (path_bytes root) (path_bytes path) with
     | Some suffix => bool_decide (head suffix = Some slash)
     | None => false
     end.

(** One root against those before it. *)
Definition check_prior (root : RepositoryPath) (_ : ()) (prior : RepositoryPath) : result PackageScopeError () :=
  if path_eqb prior root then Err DuplicateRoot else if root_contains prior root then Err OverlappingRoots else Ok ().

Fixpoint validate_from (prior roots : list RepositoryPath) : result PackageScopeError () :=
  match roots with
  | [] => Ok ()
  | root :: roots => try_fold (check_prior root) () prior;; validate_from (prior ++ [root]) roots
  end.

Definition validate_canonical_roots (roots : list RepositoryPath) : result PackageScopeError () := validate_from [] roots.

(** The unstable sort orders by bytes, which identify a path. *)
Definition try_explicit_roots (roots : list RepositoryPath) : result PackageScopeError PackageScope :=
  reject_if (bool_decide (roots = [])) EmptyExplicitRoots;;
  reject_if (MAX_PACKAGE_SCOPE_ROOTS <? Z.of_nat (length roots)) (RootLimitExceeded MAX_PACKAGE_SCOPE_ROOTS);;
  let roots := sort_by path_cmp roots in
  validate_canonical_roots roots;;
  Ok {| scope_roots := Some roots |}.

(** One root of the iterator: the bound is checked before the root. *)
Definition admit_root (limits : RepositoryPathLimits) (validated : list RepositoryPath) (root : bytes)
    : result PackageScopeError (list RepositoryPath) :=
  reject_if (MAX_PACKAGE_SCOPE_ROOTS <=? Z.of_nat (length validated)) (RootLimitExceeded MAX_PACKAGE_SCOPE_ROOTS);;
  root ← map_err (InvalidRoot (Z.of_nat (length validated) + 1)) (try_from_bytes root limits);
  Ok (validated ++ [root]).

Definition try_explicit_root_bytes (roots : list bytes) (limits : RepositoryPathLimits) : result PackageScopeError PackageScope :=
  validated ← try_fold (admit_root limits) [] roots;
  try_explicit_roots validated.

Definition is_whole_repository (scope : PackageScope) : bool := match scope_roots scope with None => true | Some _ => false end.

Definition root_count (scope : PackageScope) : Z :=
  match scope_roots scope with None => 0 | Some roots => Z.of_nat (length roots) end.

Definition scope_contains (scope : PackageScope) (path : RepositoryPath) : bool :=
  match scope_roots scope with None => true | Some roots => existsb (λ root, root_contains root path) roots end.

Definition scope_message (scope : PackageScope) : bytes :=
  PACKAGE_SCOPE_DIGEST_DOMAIN ++ u16_be_bytes PACKAGE_SCOPE_VERSION ++ u16_be_bytes REPOSITORY_PATH_VERSION
  ++ match scope_roots scope with
     | None => [WHOLE_REPOSITORY_TAG] ++ u64_be_bytes 0
     | Some roots =>
         [EXPLICIT_ROOTS_TAG] ++ u64_be_bytes (root_count scope)
         ++ flat_map (λ root, u64_be_bytes (byte_count root) ++ path_bytes root) roots
     end.

Definition semantic_digest (sha256 : bytes → bytes) (scope : PackageScope) : bytes := sha256 (scope_message scope).

(** ** Filtering *)

Record PackageScopeFilterStats := {
  filter_discovered_paths : Z;
  filter_selected_paths : Z;
  filter_policy_omitted_paths : Z;
}.

Record PackageScopeFilterResult := {
  filter_paths : list RepositoryPath;
  filter_discovery_stats : GitPathDiscoveryStats;
  filter_stats : PackageScopeFilterStats;
  filter_coverage : CoverageSummary;
}.

Inductive PackageScopeFilterError :=
| FilterCancelled
| FilterDeadlineExceeded
| PathCountNotRepresentable
| DiscoveryPathCountMismatch (reported observed : Z)
| SelectedPathCountOverflowed
| PolicyOmissionCountOverflowed.

Definition filter_result (paths : list RepositoryPath) (stats : GitPathDiscoveryStats) (discovered selected omitted : Z) : PackageScopeFilterResult :=
  {| filter_paths := paths; filter_discovery_stats := stats;
     filter_stats := {| filter_discovered_paths := discovered; filter_selected_paths := selected; filter_policy_omitted_paths := omitted |};
     filter_coverage := {| cov_searched := selected; cov_skipped := omitted; cov_unresolved := 0; cov_truncated := 0 |} |}.

Definition filter_path (scope : PackageScope) (s : list RepositoryPath * Z * Z) (path : RepositoryPath)
    : ctl PackageScopeFilterError (list RepositoryPath * Z * Z) :=
  let '(selected, selected_paths, omitted_paths) := s in
  check;;
  if scope_contains scope path
  then selected_paths ← lift (ok_or (u64_checked_add selected_paths 1) SelectedPathCountOverflowed);
       mret (selected ++ [path], selected_paths, omitted_paths)
  else omitted_paths ← lift (ok_or (u64_checked_add omitted_paths 1) PolicyOmissionCountOverflowed);
       mret (selected, selected_paths, omitted_paths).

Definition filter_discovered_repository_paths (discovered : DiscoveredRepositoryPaths) (scope : PackageScope)
    : ctl PackageScopeFilterError PackageScopeFilterResult :=
  let paths := discovered_paths discovered in
  let stats := discovered_stats discovered in
  check;;
  discovered_count ← lift (ok_or (u64_of_len (length paths)) PathCountNotRepresentable);
  if negb (stat_path_count stats =? discovered_count)
  then throw (DiscoveryPathCountMismatch (stat_path_count stats) discovered_count)
  else if is_whole_repository scope then mret (filter_result paths stats discovered_count discovered_count 0)
  else
    '(selected, selected_paths, omitted_paths) ← ctl_fold (filter_path scope) ([], 0, 0) paths;
    check;;
    mret (filter_result selected stats discovered_count selected_paths omitted_paths).

(** ** Lemmas *)

(** Components of a path below a root. *)
Lemma split_slash_below a s : split_slash (a ++ slash :: s) = split_slash a ++ split_slash s.
Proof.
  induction a as [|b a IH]; [cbn [app split_slash]; by rewrite bool_decide_eq_true_2|]. cbn [app split_slash]. case_bool_decide; [by rewrite IH|].
  rewrite IH. pose proof (split_slash_nonempty a). by destruct (split_slash a).
Qed.

Lemma join_slash_app cs ds : cs ≠ [] → ds ≠ [] → join_slash (cs ++ ds) = join_slash cs ++ slash :: join_slash ds.
Proof.
  intros Hcs Hds. induction cs as [|c cs IH]; [done|]. destruct cs as [|c' cs].
  - simpl. by destruct ds.
  - change (c ++ slash :: join_slash ((c' :: cs) ++ ds) = (c ++ slash :: join_slash (c' :: cs)) ++ slash :: join_slash ds).
    by rewrite IH, <- app_assoc.
Qed.

(** A root contains the paths of which its components are a prefix. *)
Lemma root_contains_components root path : root_contains root path = true ↔ components root `prefix_of` components path.
Proof.
  unfold root_contains, path_eqb, components. rewrite orb_true_iff, bool_decide_eq_true. split.
  - intros [->|H]; [done|]. destruct (strip_prefix _ _) as [suffix|] eqn:E; [|discriminate H]. apply strip_prefix_Some in E.
    apply bool_decide_eq_true in H. destruct suffix as [|b suffix]; [discriminate H|]. injection H as ->. rewrite E, split_slash_below. by eexists.
  - intros [ds H]. destruct (decide (ds = [])) as [->|Hds].
    + left. rewrite app_nil_r in H. by rewrite <- (join_split (path_bytes path)), H, join_split.
    + right. pose proof (join_slash_app _ _ (split_slash_nonempty (path_bytes root)) Hds) as Hj. rewrite <- H, !join_split in Hj.
      rewrite (proj2 (strip_prefix_Some _ _ _) Hj). by apply bool_decide_eq_true.
Qed.

Lemma path_eqb_true p q : path_eqb p q = true ↔ path_bytes p = path_bytes q.
Proof. apply bool_decide_eq_true. Qed.

Lemma bytes_prefix_lt (a s : bytes) (b : byte) : cmp a (a ++ b :: s) = Lt.
Proof. induction a as [|x a IH]; [done|]. change (then_with (cmp x x) (cmp a (a ++ b :: s)) = Lt). by rewrite cmp_refl. Qed.

(** A root comes before the paths it contains. *)
Lemma root_contains_le root path : root_contains root path = true → path_bytes path = path_bytes root ∨ path_cmp root path = Lt.
Proof.
  unfold root_contains, path_cmp. rewrite orb_true_iff, path_eqb_true. intros [H|H]; [by left|right].
  destruct (strip_prefix _ _) as [suffix|] eqn:E; [|discriminate H]. apply strip_prefix_Some in E as ->.
  apply bool_decide_eq_true in H. destruct suffix as [|b suffix]; [discriminate H|]. apply bytes_prefix_lt.
Qed.

Lemma check_prior_fold root prior :
  try_fold (check_prior root) () prior = Ok () ↔ Forall (λ p, root_contains p root = false) prior.
Proof.
  induction prior as [|p prior IH]; [done|]. cbn [try_fold]. rewrite Forall_cons, <- IH.
  change (check_prior root () p) with
    (if path_eqb p root then Err DuplicateRoot else if root_contains p root then Err OverlappingRoots else Ok ()).
  assert (path_eqb p root = true → root_contains p root = true) as He.
  { unfold root_contains. rewrite path_eqb_true. intros He. apply orb_true_iff. left. by apply path_eqb_true. }
  destruct (path_eqb p root); [rstep; rewrite He by done; split; [done|by intros []]|].
  destruct (root_contains p root); rstep; [split; [done|by intros []]|]. tauto.
Qed.

(** No root contains one after it. *)
Fixpoint none_below (roots : list RepositoryPath) : Prop :=
  match roots with
  | [] => True
  | root :: roots => Forall (λ p, root_contains root p = false) roots ∧ none_below roots
  end.

Lemma validate_from_exact prior roots :
  validate_from prior roots = Ok () ↔ none_below roots ∧ ∀ p root, p ∈ prior → root ∈ roots → root_contains p root = false.
Proof.
  revert prior. induction roots as [|root roots IH]; intros prior; [split; [intros _; split; [done|by intros ? ? _ ?%elem_of_nil]|done]|].
  cbn [validate_from none_below]. rewrite bind_Ok. setoid_rewrite (IH (prior ++ [root])). split.
  - intros ([] & Hp%check_prior_fold & Hn & Hall). rewrite Forall_forall in Hp. split_and!; [|done|].
    + apply Forall_forall. intros p Hin. apply Hall; [|done]. apply elem_of_app. right. by apply list_elem_of_singleton.
    + intros p r Hp' [->|Hr]%elem_of_cons; [by apply Hp|]. apply Hall; [|done]. apply elem_of_app. by left.
  - intros ([Hr Hn] & Hall). rewrite Forall_forall in Hr. exists (). split_and!; [|done|].
    + apply check_prior_fold, Forall_forall. intros p Hp. apply Hall; [done|by left].
    + intros p r [Hp| ->%list_elem_of_singleton]%elem_of_app Hin; [apply Hall; [done|by right]|by apply Hr].
Qed.

(** No root contains another, wherever they are. *)
Definition disjoint_roots (roots : list RepositoryPath) : Prop :=
  ∀ i j p q, roots !! i = Some p → roots !! j = Some q → i ≠ j → root_contains p q = false.

Lemma none_below_lookup roots i j p q :
  none_below roots → roots !! i = Some p → roots !! j = Some q → (i < j)%nat → root_contains p q = false.
Proof.
  revert i j. induction roots as [|root roots IH]; intros i j Hn Hi Hj Hlt; [done|]. destruct Hn as [Hr Hn]. destruct j as [|j]; [lia|].
  destruct i as [|i]; simpl in *; [|eapply IH; eauto; lia]. injection Hi as ->. rewrite Forall_forall in Hr. apply Hr. by eapply list_elem_of_lookup_2.
Qed.

#[export] Instance path_cmp_comparator : Comparator path_cmp.
Proof. exact (comparator_by path_bytes). Qed.

(** In the order of bytes a root comes before what it contains, so the pairs in order suffice. *)
Lemma none_below_disjoint roots :
  StronglySorted (cle path_cmp) roots → none_below roots ↔ disjoint_roots roots.
Proof.
  intros Hs. split.
  - intros Hn i j p q Hi Hj Hne. destruct (decide (i < j)%nat) as [Hlt|Hge]; [by eapply none_below_lookup|].
    assert (cle path_cmp q p) as Hle.
    { assert (j < i)%nat as Hlt by lia. clear Hn Hge Hne. revert i j Hi Hj Hlt. induction Hs as [|r rs Hs IH Hall]; intros i j Hi Hj Hlt; [done|].
      destruct i as [|i]; [lia|]. destruct j as [|j]; simpl in *; [|eapply IH; eauto; lia]. injection Hj as ->.
      rewrite Forall_forall in Hall. apply Hall. by eapply list_elem_of_lookup_2. }
    pose proof (none_below_lookup roots j i q p Hn Hj Hi ltac:(lia)) as Hqp. apply not_true_iff_false. intros Hpq.
    apply root_contains_le in Hpq as [He|Hlt].
    + unfold root_contains in Hqp. apply orb_false_iff in Hqp as [Hqp _]. unfold path_eqb in Hqp. apply bool_decide_eq_false in Hqp. congruence.
    + unfold cle in Hle. rewrite (cmpr_antisym p q), Hlt in Hle. by apply Hle.
  - intros Hd. clear Hs. induction roots as [|root roots IH]; [done|]. split.
    + apply Forall_forall. intros p [i Hi]%list_elem_of_lookup_1. by apply (Hd 0%nat (S i)).
    + apply IH. intros i j p q Hi Hj Hne. apply (Hd (S i) (S j)); [done|done|lia].
Qed.

Lemma disjoint_roots_perm roots roots' : roots ≡ₚ roots' → disjoint_roots roots → disjoint_roots roots'.
Proof.
  intros Hp Hd i j p q Hi Hj Hne. apply symmetry, Permutation_inj in Hp as (_ & f & Hf & Hl). rewrite Hl in Hi, Hj.
  apply (Hd (f i) (f j)); [done|done|]. intros He. by apply Hne, Hf.
Qed.

(** At most one root of a scope contains a path. *)
Lemma disjoint_roots_unique roots i j p q path :
  disjoint_roots roots → roots !! i = Some p → roots !! j = Some q →
  root_contains p path = true → root_contains q path = true → i = j.
Proof.
  intros Hd Hi Hj Hp%root_contains_components Hq%root_contains_components. destruct (decide (i = j)) as [|Hne]; [done|]. exfalso.
  destruct (prefix_weak_total _ _ _ Hp Hq) as [H|H]; apply root_contains_components in H.
  - by rewrite (Hd i j p q) in H.
  - by rewrite (Hd j i q p) in H.
Qed.

Lemma validate_roots_exact roots : validate_canonical_roots (sort_by path_cmp roots) = Ok () ↔ disjoint_roots roots.
Proof.
  unfold validate_canonical_roots. rewrite validate_from_exact. transitivity (none_below (sort_by path_cmp roots)).
  - split; [by intros [? _]|]. intros Hn. split; [done|]. by intros p r ?%elem_of_nil.
  - rewrite none_below_disjoint by (apply sort_by_sorted, _). split; apply disjoint_roots_perm; [|symmetry]; apply sort_by_perm.
Qed.

(** The errors of the validation. *)
Lemma validate_from_error prior roots e : validate_from prior roots = Err e → e = DuplicateRoot ∨ e = OverlappingRoots.
Proof.
  revert prior. induction roots as [|root roots IH]; intros prior; [done|]. cbn [validate_from].
  destruct (try_fold (check_prior root) () prior) as [[]|e'] eqn:E; rstep; [apply IH|]. intros [= <-]. revert E.
  induction prior as [|p prior IHp]; [done|]. cbn [try_fold].
  change (check_prior root () p) with
    (if path_eqb p root then Err DuplicateRoot else if root_contains p root then Err OverlappingRoots else Ok ()).
  destruct (path_eqb p root); rstep; [intros [= <-]; by left|]. destruct (root_contains p root); rstep; [intros [= <-]; by right|]. done.
Qed.

(** A scope of explicit roots: between 1 and 64, in the order of their bytes, no one
    containing another. *)
Record explicit_scope (roots : list RepositoryPath) (scope : PackageScope) : Prop := {
  explicit_some : roots ≠ [];
  explicit_bounded : Z.of_nat (length roots) ≤ MAX_PACKAGE_SCOPE_ROOTS;
  explicit_disjoint : disjoint_roots roots;
  explicit_roots : scope = {| scope_roots := Some (sort_by path_cmp roots) |};
}.

Lemma try_explicit_roots_exact roots scope : try_explicit_roots roots = Ok scope ↔ explicit_scope roots scope.
Proof.
  unfold try_explicit_roots, reject_if. case_bool_decide; rstep; [split; [done|by intros []]|].
  destruct (Z.ltb_spec MAX_PACKAGE_SCOPE_ROOTS (Z.of_nat (length roots))); rstep; [split; [done|intros []; lia]|]. cbv zeta.
  destruct (validate_canonical_roots (sort_by path_cmp roots)) as [[]|e] eqn:Ev; rstep.
  - apply validate_roots_exact in Ev. split; [intros [= <-]; by split|by intros [_ _ _ ->]].
  - split; [done|]. intros [_ _ Hd _]. apply validate_roots_exact in Hd. congruence.
Qed.

(** ** Membership *)

(** The path is selected by a root when the components of the root start those of the path. *)
Definition selected_by (path root : RepositoryPath) : Prop := components root `prefix_of` components path.

(** Explicit roots make a scope exactly when there are between 1 and 64 of them and none
    contains another, in whatever order they come; the scope then selects the paths that one
    root, and only one, contains at a boundary of components.  A set that is refused is empty,
    too large, or has two roots that are equal or overlap. *)
Theorem package_scope_exact roots :
  Forall wf roots →
  (∀ scope, try_explicit_roots roots = Ok scope ↔ explicit_scope roots scope)
  ∧ match try_explicit_roots roots with
    | Ok scope =>
        root_count scope = Z.of_nat (length roots)
        ∧ (∀ path, scope_contains scope path = true ↔ ∃ root, root ∈ roots ∧ selected_by path root)
        ∧ (∀ path root root', root ∈ roots → root' ∈ roots → selected_by path root → selected_by path root' → root = root')
        ∧ (∀ roots', roots ≡ₚ roots' → try_explicit_roots roots' = Ok scope)
    | Err EmptyExplicitRoots => roots = []
    | Err (RootLimitExceeded limit) => limit = MAX_PACKAGE_SCOPE_ROOTS ∧ limit < Z.of_nat (length roots)
    | Err e => (e = DuplicateRoot ∨ e = OverlappingRoots) ∧ ¬ disjoint_roots roots
    end.
Proof.
  intros Hwf. split; [apply try_explicit_roots_exact|]. destruct (try_explicit_roots roots) as [scope|e] eqn:Et.
  - apply try_explicit_roots_exact in Et as [Hne Hb Hd ->]. unfold root_count, scope_contains. cbn [scope_roots].
    split; [by rewrite (Permutation_length (sort_by_perm _ _))|]. split; [|split].
    + intros path. rewrite existsb_exists. setoid_rewrite root_contains_components. unfold selected_by.
      split; intros (root & Hr & Hc); exists root; (split; [|done]).
      * apply list_elem_of_In in Hr. by rewrite sort_by_perm in Hr.
      * apply list_elem_of_In. by rewrite sort_by_perm.
    + intros path p q [i Hi]%list_elem_of_lookup [j Hj]%list_elem_of_lookup Hp%root_contains_components Hq%root_contains_components.
      pose proof (disjoint_roots_unique _ _ _ _ _ _ Hd Hi Hj Hp Hq) as <-. congruence.
    + intros roots' Hp. apply try_explicit_roots_exact. split.
      * intros ->. by apply Permutation_nil_r in Hp.
      * by rewrite <- (Permutation_length Hp).
      * by eapply disjoint_roots_perm.
      * do 2 f_equal. apply (sorted_perm_unique path_cmp); [by rewrite !sort_by_perm| |apply sort_by_sorted, _..].
        intros p q Hip Hiq Hc. rewrite sort_by_perm in Hip, Hiq. rewrite Forall_forall in Hwf. apply wf_inj; [by apply Hwf|by apply Hwf|by apply cmp_eq].
  - revert Et. unfold try_explicit_roots, reject_if. case_bool_decide; rstep; [by intros [= <-]|]. destruct (Z.ltb_spec MAX_PACKAGE_SCOPE_ROOTS (Z.of_nat (length roots))); rstep; [intros [= <-]; by split|]. cbv zeta.
    destruct (validate_canonical_roots (sort_by path_cmp roots)) as [[]|e'] eqn:Ev; rstep; [done|]. intros [= <-].
    assert (¬ disjoint_roots roots) as Hnd by (intros Hd; apply validate_roots_exact in Hd; congruence).
    by destruct (validate_from_error _ _ _ Ev) as [-> | ->]; split; [left| |right|].
Qed.

(** ** Roots as bytes *)

Lemma admit_root_eq limits validated root :
  admit_root limits validated root =
  if MAX_PACKAGE_SCOPE_ROOTS <=? Z.of_nat (length validated) then Err (RootLimitExceeded MAX_PACKAGE_SCOPE_ROOTS)
  else match try_from_bytes root limits with
       | Ok path => Ok (validated ++ [path])
       | Err e => Err (InvalidRoot (Z.of_nat (length validated) + 1) e)
       end.
Proof. unfold admit_root, reject_if. destruct (_ <=? _); [done|]. by destruct (try_from_bytes root limits). Qed.

Lemma admit_roots_exact limits validated roots validated' :
  try_fold (admit_root limits) validated roots = Ok validated' ↔
  ∃ paths, validated' = validated ++ paths ∧ Forall2 (λ root path, try_from_bytes root limits = Ok path) roots paths
           ∧ (roots = [] ∨ Z.of_nat (length validated') ≤ MAX_PACKAGE_SCOPE_ROOTS).
Proof.
  revert validated. induction roots as [|root roots IH]; intros validated; cbn [try_fold].
  { split; [intros [= <-]; exists []; rewrite app_nil_r; split_and!; [done|constructor|by left]|].
    intros (paths & -> & Hf & _). apply Forall2_nil_inv_l in Hf as ->. by rewrite app_nil_r. }
  rewrite admit_root_eq. destruct (Z.leb_spec MAX_PACKAGE_SCOPE_ROOTS (Z.of_nat (length validated))) as [Hge|Hlt]; rstep.
  { split; [done|]. intros (paths & -> & Hf & [?|Hl]); [done|]. apply Forall2_cons_inv_l in Hf as (? & ? & _ & _ & ->).
    rewrite length_app in Hl. simpl in Hl. lia. }
  destruct (try_from_bytes root limits) as [path|e] eqn:Ep; rstep.
  2:{ split; [done|]. intros (paths & _ & Hf & _). apply Forall2_cons_inv_l in Hf as (? & ? & ? & _). congruence. }
  rewrite IH. split.
  - intros (paths & -> & Hf & Hl). exists (path :: paths). rewrite <- app_assoc. split_and!; [done|by constructor|]. right.
    destruct Hl as [->|Hl]; [|by rewrite <- app_assoc in Hl]. apply Forall2_nil_inv_l in Hf as ->. rewrite length_app. simpl. lia.
  - intros (paths & -> & Hf & [?|Hl]); [done|]. apply Forall2_cons_inv_l in Hf as (path' & paths' & Hp & Hf & ->).
    assert (path' = path) as -> by congruence. exists paths'. rewrite <- app_assoc. split_and!; [done|done|by right].
Qed.

(** The roots of a scope read from bytes are the paths of the bytes, within their limits. *)
Theorem package_scope_bytes_exact roots limits scope :
  try_explicit_root_bytes roots limits = Ok scope ↔
  ∃ paths, Forall2 (λ root path, try_from_bytes root limits = Ok path) roots paths ∧ explicit_scope paths scope.
Proof.
  unfold try_explicit_root_bytes. rewrite bind_Ok. setoid_rewrite admit_roots_exact. setoid_rewrite try_explicit_roots_exact. split.
  - intros (? & (paths & -> & Hf & _) & Hs). by exists paths.
  - intros (paths & Hf & Hs). exists paths. split; [|done]. exists paths. split_and!; [done|done|right; apply Hs].
Qed.

(** ** Identity *)

Lemma u64_prefix_inj a b x y :
  in_u64 a → in_u64 b → u64_be_bytes a ++ x = u64_be_bytes b ++ y → a = b ∧ x = y.
Proof.
  unfold in_u64, u64_max, u64_be_bytes. intros Ha Hb H. apply app_inj_1 in H as [H ->]; [|by rewrite !length_be_bytes].
  apply be_bytes_inj in H; [done|..]; change (256 ^ Z.of_nat 8) with 18446744073709551616; lia.
Qed.

Notation root_bytes roots := (flat_map (λ root, u64_be_bytes (byte_count root) ++ path_bytes root) roots).

Lemma root_bytes_inj (roots roots' : list RepositoryPath) :
  Forall wf roots → Forall wf roots' → length roots = length roots' → root_bytes roots = root_bytes roots' → roots = roots'.
Proof.
  intros Hw. revert roots'. induction Hw as [|r roots Hr _ IH]; intros [|r' roots'] Hw' Hl; try done. intros H.
  apply Forall_cons in Hw' as [Hr' Hw']. cbn [flat_map] in H. rewrite <- !app_assoc in H.
  apply u64_prefix_inj in H as [Hc H]; [|apply Hr|apply Hr'].
  rewrite (wf_byte_count _ Hr), (wf_byte_count _ Hr') in Hc. apply app_inj_1 in H as [Hb H]; [|lia].
  f_equal; [by apply wf_inj|]. apply IH; [done|by injection Hl|done].
Qed.

(** The scopes that the constructors make. *)
Definition scope_wf (scope : PackageScope) : Prop :=
  match scope_roots scope with None => True | Some roots => Forall wf roots ∧ Z.of_nat (length roots) ≤ MAX_PACKAGE_SCOPE_ROOTS end.

Lemma explicit_scope_wf roots scope : Forall wf roots → explicit_scope roots scope → scope_wf scope.
Proof.
  intros Hw [_ Hb _ ->]. unfold scope_wf. cbn [scope_roots]. rewrite (Permutation_length (sort_by_perm _ _)). split; [|done].
  by rewrite sort_by_perm.
Qed.

(** The digest tells scopes apart, unless the hash of their messages collides. *)
Theorem package_scope_identity sha256 scope scope' :
  scope_wf scope → scope_wf scope' →
  (sha256 (scope_message scope) = sha256 (scope_message scope') → scope_message scope = scope_message scope') →
  semantic_digest sha256 scope = semantic_digest sha256 scope' ↔ scope = scope'.
Proof.
  intros Hw Hw' Hinj. split; [|by intros ->]. intros H%Hinj. destruct scope as [s], scope' as [s'].
  unfold scope_message, scope_wf, root_count in *. cbn [scope_roots] in *. do 3 apply app_inv_head in H.
  destruct s as [roots|], s' as [roots'|]; try done. apply app_inv_head in H. destruct Hw as [Hw Hb], Hw' as [Hw' Hb'].
  unfold MAX_PACKAGE_SCOPE_ROOTS in *. apply u64_prefix_inj in H as [Hl H]; [|unfold in_u64, u64_max; lia..].
  do 2 f_equal. apply root_bytes_inj; [done|done|lia|done].
Qed.

(** ** Filtering *)

Definition omitted_by (scope : PackageScope) (paths : list RepositoryPath) : list RepositoryPath :=
  filter (λ path, scope_contains scope path = false) paths.
Definition kept_by (scope : PackageScope) (paths : list RepositoryPath) : list RepositoryPath :=
  filter (λ path, scope_contains scope path = true) paths.

Lemma kept_omitted scope paths : (length (kept_by scope paths) + length (omitted_by scope paths) = length paths)%nat.
Proof.
  unfold kept_by, omitted_by. induction paths as [|path paths IH]; [done|]. rewrite !filter_cons.
  destruct (scope_contains scope path); simpl; lia.
Qed.

Lemma filter_path_evals scope selected n m path :
  0 ≤ n < u64_max → 0 ≤ m < u64_max →
  evals (filter_path scope (selected, n, m) path)
    (Ok (if scope_contains scope path then (selected ++ [path], n + 1, m) else (selected, n, m + 1))).
Proof.
  intros Hn Hm. unfold filter_path. apply evals_check_bind.
  destruct (scope_contains scope path); unfold u64_checked_add; rewrite checked_in by lia; by intros k.
Qed.

Lemma filter_fold scope paths selected n m :
  0 ≤ n → 0 ≤ m → n + m + Z.of_nat (length paths) ≤ u64_max →
  evals (ctl_fold (filter_path scope) (selected, n, m) paths)
    (Ok (selected ++ kept_by scope paths, n + Z.of_nat (length (kept_by scope paths)), m + Z.of_nat (length (omitted_by scope paths)))).
Proof.
  revert selected n m. induction paths as [|path paths IH]; intros selected n m Hn Hm Hl.
  { cbn. rewrite app_nil_r, !Z.add_0_r. apply evals_ret. }
  cbn [ctl_fold length] in *. eapply evals_bind; [apply filter_path_evals; lia|].
  unfold kept_by, omitted_by. rewrite !filter_cons. destruct (scope_contains scope path).
  - rewrite decide_True, decide_False by done. specialize (IH (selected ++ [path]) (n + 1) m). rewrite <- app_assoc in IH.
    cbn [app length] in *. replace (n + Z.of_nat (S _)) with (n + 1 + Z.of_nat (length (kept_by scope paths))) by (unfold kept_by; lia).
    apply IH; lia.
  - rewrite decide_False, decide_True by done. specialize (IH selected n (m + 1)).
    cbn [app length] in *. replace (m + Z.of_nat (S _)) with (m + 1 + Z.of_nat (length (omitted_by scope paths))) by (unfold omitted_by; lia).
    apply IH; lia.
Qed.

Lemma filter_steady discovered scope : steady (filter_discovered_repository_paths discovered scope).
Proof. unfold filter_discovered_repository_paths, filter_path. solve_steady. Qed.

(** What the filter makes of discovered paths whose count is the reported one. *)
Definition filtered (scope : PackageScope) (discovered : DiscoveredRepositoryPaths) : PackageScopeFilterResult :=
  let paths := discovered_paths discovered in
  filter_result (kept_by scope paths) (discovered_stats discovered) (Z.of_nat (length paths))
    (Z.of_nat (length (kept_by scope paths))) (Z.of_nat (length (omitted_by scope paths))).

(** The filter keeps, in their order, just the paths of the scope, accounts for every path, and
    its coverage is complete just when none was omitted; it refuses paths whose number is not
    the reported one.  The control can only stop it. *)
Theorem package_filter_exact discovered scope :
  Z.of_nat (length (discovered_paths discovered)) ≤ u64_max →
  (∀ r, run never (filter_discovered_repository_paths discovered scope) = Ok r ↔
        stat_path_count (discovered_stats discovered) = Z.of_nat (length (discovered_paths discovered)) ∧ r = filtered scope discovered)
  ∧ completeness (filter_coverage (filtered scope discovered))
    = (if forallb (scope_contains scope) (discovered_paths discovered) then CoverageComplete else CoveragePartial)
  ∧ (∀ o, run o (filter_discovered_repository_paths discovered scope) = run never (filter_discovered_repository_paths discovered scope)
          ∨ ∃ k e, o k = Some e ∧ run o (filter_discovered_repository_paths discovered scope) = Err e).
Proof.
  intros Hl. set (paths := discovered_paths discovered) in *. split; [|split; [|intros o; apply steady_run, filter_steady]].
  - assert (evals (filter_discovered_repository_paths discovered scope)
      (if stat_path_count (discovered_stats discovered) =? Z.of_nat (length paths) then Ok (filtered scope discovered)
       else Err (DiscoveryPathCountMismatch (stat_path_count (discovered_stats discovered)) (Z.of_nat (length paths))))) as He.
    { unfold filter_discovered_repository_paths. cbv zeta. fold paths. apply evals_check_bind. unfold u64_of_len. rewrite checked_in by lia.
      eapply evals_bind; [apply evals_lift|]. destruct (_ =? _); cbn [negb]; [|apply evals_throw].
      destruct (is_whole_repository scope) eqn:Ew.
      - assert (∀ path, scope_contains scope path = true) as Hall.
        { intros path. unfold is_whole_repository, scope_contains in *. by destruct (scope_roots scope). }
        assert (kept_by scope paths = paths) as Hk by (apply filter_all_true; by intros).
        assert (omitted_by scope paths = []) as Ho by (apply filter_all_false; rewrite Forall_forall; intros ? _; by rewrite Hall).
        unfold filtered. fold paths. rewrite Hk, Ho. apply evals_ret.
      - eapply evals_bind; [by apply filter_fold|]. apply evals_check_bind, evals_ret. }
    intros r. rewrite (evals_run _ _ He). destruct (Z.eqb_spec (stat_path_count (discovered_stats discovered)) (Z.of_nat (length paths)));
      split; [by intros [= <-]|by intros [_ ->]|done|by intros [? _]].
  - unfold completeness, filtered, filter_result. fold paths. cbn. rewrite orb_false_r.
    destruct (forallb (scope_contains scope) paths) eqn:Ef.
    + assert (omitted_by scope paths = []) as ->; [|done]. rewrite forallb_forall in Ef. apply filter_all_false. rewrite Forall_forall.
      intros path Hp%list_elem_of_In%Ef. by rewrite Hp.
    + destruct (omitted_by scope paths) as [|p ps] eqn:Eo; [|done]. exfalso. apply not_true_iff_false in Ef. apply Ef, forallb_forall.
      intros path Hp%list_elem_of_In. apply not_false_iff_true. intros Hf.
      assert (path ∈ omitted_by scope paths) as Hin by (by apply list_elem_of_filter). rewrite Eo in Hin. by apply elem_of_nil in Hin.
Qed.

(** ** Witnesses *)

Definition package_limits : RepositoryPathLimits := {| max_bytes := 4096; max_components := 256 |}.
Definition package_path (text : bytes) : RepositoryPath :=
  match try_from_bytes text package_limits with Ok path => path | Err _ => {| path_bytes := []; byte_count := 0; component_count := 0 |} end.

(** A root contains what is below it, not its namesakes. *)
Example package_membership :
  match try_explicit_root_bytes [b_of "crates/b"; b_of "crates/a"] package_limits with
  | Ok scope => map (scope_contains scope) [package_path (b_of "crates/a/src/lib.rs"); package_path (b_of "crates/a"); package_path (b_of "crates/ab")]
                = [true; true; false]
  | Err _ => False
  end.
Proof. by vm_compute. Qed.

Example package_overlap : try_explicit_root_bytes [b_of "a-b"; b_of "a/b"; b_of "a"] package_limits = Err OverlappingRoots.
Proof. by vm_compute. Qed.
